(* ===== verification/_CoqProject ===== *)
-Q . S2P
Prelude.v
F64.v
F32.v
Arrays.v
StableMerge.v
TimSort.v
TimSortSpec.v
TimSortMerge.v
TimSortHigh.v
TimSortStack.v
TimSortTop.v
TypedSort.v
SmiCompare.v
Bytes.v
WasmTypes.v
Code.v
Engine.v
TypeSpace.v
Module.v
IntDomain.v
IntIR.v
IntEffects.v
IntEnv.v
IntAnalyzer.v
IntVerdicts.v
IntEnvSound.v
IntPrograms.v
Wyhash.v
TypeKey.v
Mangle.v
IrJson.v
ModuleUses.v
Serialize.v
VisitWalk.v
TypeDomains.v
MayThrow.v
MayThrowRules.v
MayThrowSound.v
Registry.v
StmtFlow.v
ValidateModule.v
Accepted.v
WrapperDuals.v
NodeConditions.v
ExportsMap.v
Ropes.v
RopesSound.v
Slices.v
SlicesSound.v
StringPrograms.v
BytesDecode.v
StringDecoder.v
BytesEncode.v
BufferNumbers.v
BufferOps.v
DataViews.v
TypedArrays.v
BufferText.v
HashMap.v
HashMapSound.v
MapKeys.v
MapPrograms.v
