(* ===== verification/Prelude.v ===== *)
(** * tsinter: a verification library of the compiler

    tsinter compiles TypeScript ahead of time.  The frontend
    (src/packages/compiler/src/frontend) finds modules, asks the TypeScript
    checker for types and lowers programs to an IR
    (src/packages/compiler/src/ir); a validator checks the IR; backends
    (src/packages/compiler/src/backend) emit WebAssembly with garbage
    collection, C or LLVM text; library builds
    (src/packages/compiler/src/library) add the proof of integer slots, a
    sidecar with identity hashes, and gates on what a module may use.  This
    library models the parts of it whose correctness is a statement about the
    code itself, and proves that statement.  File names below are relative to
    src/packages/compiler/src.

    ** The parts and their files

    Shared: Prelude (exceptions as results, 32-bit coercions, JSON text, list
    lemmas), F64 (JavaScript Numbers as exact doubles), F32 (single precision
    on them), Arrays (a state monad
    with traps, early returns and fuelled loops, its weakest-precondition
    rules), IrJson (plain data and walks over it), VisitWalk (walks with a
    visited set), StableMerge (the reference stable sort).

    - wasm writer (backend/wasm/bytes.ts, code.ts, module.ts, engine.ts).
      Bytes: [ByteWriter], a buffer that doubles, as a record of buffer and
      length; Code: one constructor of [instr] per method of [Code]; WasmTypes
      and TypeSpace: the type-index space with interning and recursive groups;
      Engine: [parseEngine] over the prebuilt island module; Module: the
      builder's record, one definition per method, and [emit].  Decoders of
      the binary format are the references.  Theorems: the writer refines
      plain byte lists; instructions and type sections decode to what was
      meant; the builder's invariant; the engine's code is relocated and
      nothing else of it changes; [emit] is exact and its sections read back.
    - array sorts (backend/wasm/timsort-src.ts): TimSort and the files named
      after it, TypedSort, SmiCompare.  The C text is a program of [Arrays];
      the comparator is a parameter with state and exceptions.  Theorems: for
      any comparator the sort ends, without a trap, in a permutation; for one
      that decides a strict weak order it is the stable sort; the pending-run
      stack stays within its 85 entries; the integer comparison is that of the
      decimal spellings.
    - string values (backend/wasm/ropes.ts, slices.ts, parts of strings.ts and
      emitter.ts): Ropes and Slices are the emitted helpers over a store of
      flat arrays, concatenation nodes and views; RopesSound says what text a
      value has ([holds]) and what every helper keeps ([keeps]); SlicesSound
      relates the operations to ECMAScript on code units; StringPrograms runs
      whole programs on the store and on texts.  Theorems: the two runs agree,
      the length error included; flattening needs log2(length) stack slots.
    - Map and Set (backend/wasm/maps.ts): HashMap has one definition per
      emitted helper, over the $map struct (entry arrays with tombstones, a
      bucket table) and the class [MapKey] of what a key must offer; MapKeys
      gives the four key kinds; HashMapSound has the invariant and what each
      helper does to the entries; MapPrograms runs any program of operations
      against ECMAScript's list of entries, running iterations included.
    - buffers (backend/wasm/typedarrays.ts, strdec.ts): BytesDecode and
      BytesEncode (the seven encodings), StringDecoder (node:string_decoder),
      BufferNumbers (fixed-width accessors, [%w.toInt32]), DataViews
      (variable-width numbers and DataView), BufferOps (search, compare, fill,
      copy), TypedArrays (the four element kinds), BufferText (text operations
      and concat).  The first group reads one storage array; from BufferOps on
      the state is a heap of arrays that views share.  Theorems: decoding and
      encoding are inverse where they can be, also chunk by chunk; a write
      throws or changes exactly its bytes, which read back as the value;
      search, copy, slices, subarrays and concatenation compute the list
      operations, and say which other bytes they keep.
    - integer inference (library/int-infer.ts): IntDomain (intervals, transfer
      functions, widening, the boundary check), IntIR, IntEffects (globals a
      call may write), IntEnv, IntAnalyzer (the whole analyzer), IntVerdicts,
      IntEnvSound, IntPrograms.  Theorems: transfers over-approximate the
      JavaScript operators; a PROVE verdict is right about every value
      described; a loop header describes every iteration when the analysis of
      the loop's parts describes each one; each obligation is reported exactly
      once; widening stabilises.
    - IR (ir/nodes.ts, ir/serialize.ts): TypeKey (types, keys, equality),
      TypeDomains (what a type admits at the JSON, island and dynamic
      boundaries), ModuleUses (link switches and library gates), Serialize
      (the round trip through JSON text).
    - validator (ir/validate.ts): StmtFlow (jumps, falling off the end, with an
      execution relation as the reference), ValidateModule (all module-level
      checks), Accepted (composition with the may-throw analysis).
    - may-throw analysis (backend/emission/may-throw.ts): MayThrow is the walk
      and the closing loop; MayThrowRules says, node kind by node kind, what
      raises, what is called and which closures are made; MayThrowSound shows
      that the analysis of a module without a cycle of base classes ends with
      exactly the functions those rules reach.
    - record and union registries (frontend/types.ts): Registry, written once
      over a class [Content] whose two instances are the two classes; states
      are reached through a step relation, and the entries replay the requests.
    - package documents (frontend/node-conditions.ts, resolve.ts,
      npm-static.ts): WrapperDuals (which ES modules only rename a CommonJS
      file, read through a record of file-system operations), NodeConditions
      and ExportsMap; resolving in a rewritten document gives Node's answer for
      the published one, or the CommonJS file below a wrapper.
    - names and identities (backend/mangle.ts, library/wyhash.ts, sidecar.ts):
      Mangle (names never collide, each tag has its own space), Wyhash.

    ** How the model reads the code

    Names are the code's, with [x_] or a file prefix where Rocq reserves or
    shares one.  A class is a record of its fields and a method a function of
    the record; mutable objects that are shared (string nodes, registry
    entries, sort arrays, builder buffers) live in an explicit store or state.
    A thrown error is [Throw] with its message; a wasm trap is [Trap]; early
    returns are [Ret] or the branch that returns.  Numbers are [num] where
    rounding matters and [Z] where the code's values are integers, with the
    32-bit wrap-around written out.  JavaScript strings are lists of UTF-16
    units where their units matter, and Rocq strings for identifiers.  A set
    written as an array literal is a list, a Map is a gmap or an association
    list when its order matters.

    ** Fuel and bounds

    Loops that are not structural take fuel computed from their input, and the
    theorems are total: they say the loop returns, not what it would return.
    The sorts and string helpers are proved through [wp], which excludes
    running out of fuel as well as traps.  Sort loops get the array lengths;
    the flattening walk three rounds a code unit, because each leaf costs at
    most two rounds and each node one; searches and trims the length of the
    window plus one.  The loop-header iteration of the analyzer is bounded by the
    code itself (LOOP_CAP trips, widening after WIDEN_AFTER joins), and widened
    values climb a finite chain.  The may-throw loop is bounded by its
    functions and base-chain walks by the classes, which is enough because the
    validator rejects cycles ([Accepted]).  Walks over type graphs take fuel as
    an argument and answer [None] without it; [VisitWalk] shows that finitely
    many registered keys bound it, and their theorems provide enough.  The walk
    from a file up to its package takes as many steps as the path has
    characters, each parent directory being shorter.  The loops over buffers get
    the view's length plus one, those over maps the number of rows or buckets
    plus one, doubling 32 rounds.

    The buffer theorems ask for views below 2^31 - 8 bytes, decoder chunks below
    2^31 - 16, strings below 2^29 units (2^27 for the length of base64 text),
    search operands that together stay below 2^31 - 8, and at most 2^31 parts
    to concatenate, of 2^53 bytes in all: beyond those the 32-bit arithmetic of
    the helpers wraps.  Maps are followed through fewer than 2^28 insertions,
    where the bucket table still has a power of two below 2^31 of slots.

    ** Parameters

    Code outside the repository is a parameter: the comparator of a sort,
    [TextDecoder] for engine names, [new URL] for bare specifiers, files, paths
    and [JSON.parse] for package documents, the checker's type identities in
    the registries, the ids of symbols in maps.

    ** Not modelled

    Instruction selection (backend/wasm/emitter.ts and dyn.ts,
    backend/llvm, backend/emission): a correctness theorem needs a semantics
    of the whole IR and of the targets.  The remaining runtime families of
    backend/wasm (arrays, streams, network, dates, regular expressions,
    JSON; of typed arrays join, of maps the own-key order of records): emitted
    helpers like the string values, but driven by host imports
    or of a size of their own.  Lowering (frontend/lowering) and the adapter of
    the TypeScript process: what they do is decided by an external checker.
    File-system walks of module resolution, provenance, npm downloads, native
    builds: input and output.  The type checks of the validator's 140 expression kinds and its tables of
    library signatures.  The sidecar validator, library manifests and the
    fence interpreter.  Diagnostics and coverage texts, generated tables, the
    C runtime and vendored code.  Allocation failure and wasm stack exhaustion
    are not modelled anywhere.

    ** This file

    The result type that models an exception, ECMAScript's 32-bit coercions
    and bitwise operators on integers, bytes as integers of [0, 256), JSON text
    of strings, and the list and integer lemmas that more than one component
    needs.  The notations live in [ts_scope], the automation in the hint
    databases [ts], [emits] and [writes]. *)

From Stdlib Require Import ZArith Lia Bool Ascii.
From stdpp Require Export base list strings pretty gmap.
#[global] Open Scope Z_scope.

Declare Scope ts_scope.
Delimit Scope ts_scope with ts.
#[global] Open Scope ts_scope.

Create HintDb ts discriminated.
Create HintDb emits.
Create HintDb writes.

(** ** Exceptions

    [throw new Error(msg)] is [Throw msg]; a completed call is [Ok]. *)

Inductive res (A : Type) : Type :=
  | Ok (a : A)
  | Throw (msg : string).
Arguments Ok {A} a.
Arguments Throw {A} msg.

Definition res_bind {A B} (m : res A) (k : A → res B) : res B :=
  match m with Ok a => k a | Throw msg => Throw msg end.

Notation "'let*' x ':=' m 'in' k" := (res_bind m (λ x, k))
  (at level 10, x name, m at level 200, k at level 200) : ts_scope.
Notation "'let*' ' p ':=' m 'in' k" := (res_bind m (λ x, match x with p => k end))
  (at level 10, p pattern, m at level 200, k at level 200) : ts_scope.

(** [if (c) throw new Error(msg)]. *)
Definition throw_if (c : bool) (msg : string) : res unit :=
  if c then Throw msg else Ok tt.

Definition is_ok {A} (m : res A) : bool := match m with Ok _ => true | Throw _ => false end.

Lemma res_bind_Ok {A B} (m : res A) (k : A → res B) b :
  res_bind m k = Ok b ↔ ∃ a, m = Ok a ∧ k a = Ok b.
Proof. destruct m as [a|msg]; simpl; [|split; [done|by intros (? & ? & ?)]].
  split; [eauto|by intros (? & [= <-] & ?)].
Qed.

Lemma throw_if_Ok c msg u : throw_if c msg = Ok u ↔ c = false.
Proof. by destruct c, u. Qed.

(** [for (const x of xs) s = f(x, s)], stopping at the first exception. *)
Fixpoint res_fold {A S} (f : A → S → res S) (xs : list A) (s : S) : res S :=
  match xs with
  | [] => Ok s
  | x :: xs' => let* s' := f x s in res_fold f xs' s'
  end.

Lemma res_fold_app {A S} (f : A → S → res S) xs ys s :
  res_fold f (xs ++ ys) s = (let* s' := res_fold f xs s in res_fold f ys s').
Proof. revert s; induction xs as [|x xs IH]; intros s; simpl; [done|]. destruct (f x s); simpl; auto. Qed.

(** Inverts every successful monadic step in the context. *)
Ltac res_inv :=
  repeat match goal with
  | H : res_bind _ _ = Ok _ |- _ =>
      let a := fresh "a" in let Ha := fresh "Ha" in
      apply res_bind_Ok in H as (a & Ha & H)
  | H : throw_if _ _ = Ok _ |- _ => apply throw_if_Ok in H
  | H : Ok _ = Ok _ |- _ => injection H as H
  | H : Throw _ = Ok _ |- _ => discriminate H
  | H : Ok _ = Throw _ |- _ => discriminate H
  end; simplify_eq/=.

(** Boolean comparisons of [Z] in hypotheses and goal become propositions. *)
Ltac zb :=
  repeat match goal with
  | H : (_ <=? _)%Z = true |- _ => apply Z.leb_le in H
  | H : (_ <=? _)%Z = false |- _ => apply Z.leb_gt in H
  | H : (_ <? _)%Z = true |- _ => apply Z.ltb_lt in H
  | H : (_ <? _)%Z = false |- _ => apply Z.ltb_ge in H
  | H : (_ =? _)%Z = true |- _ => apply Z.eqb_eq in H
  | H : (_ =? _)%Z = false |- _ => apply Z.eqb_neq in H
  | H : (_ && _)%bool = true |- _ => apply andb_true_iff in H as [? ?]
  | H : (_ || _)%bool = false |- _ => apply orb_false_iff in H as [? ?]
  | H : negb _ = true |- _ => apply negb_true_iff in H
  | H : negb _ = false |- _ => apply negb_false_iff in H
  end.

(** ** ECMAScript integer coercions (ToInt32, ToUint32, ToUint8) on integers *)

Definition to_int32 (z : Z) : Z := (z + 2 ^ 31) mod 2 ^ 32 - 2 ^ 31.
Definition to_uint32 (z : Z) : Z := z mod 2 ^ 32.
Definition to_uint8 (z : Z) : Z := z mod 256.

Definition js_and (a b : Z) : Z := Z.land (to_int32 a) (to_int32 b).
Definition js_or (a b : Z) : Z := Z.lor (to_int32 a) (to_int32 b).
Definition js_xor (a b : Z) : Z := Z.lxor (to_int32 a) (to_int32 b).
Definition js_not (a : Z) : Z := Z.lnot (to_int32 a).
(** Shift counts are masked to five bits. *)
Definition js_shl (a b : Z) : Z := to_int32 (Z.shiftl (to_int32 a) (Z.land (to_uint32 b) 31)).
Definition js_shr (a b : Z) : Z := Z.shiftr (to_int32 a) (Z.land (to_uint32 b) 31).
Definition js_ushr (a b : Z) : Z := Z.shiftr (to_uint32 a) (Z.land (to_uint32 b) 31).

Lemma to_int32_range z : - 2 ^ 31 <= to_int32 z < 2 ^ 31.
Proof. unfold to_int32. pose proof (Z.mod_pos_bound (z + 2 ^ 31) (2 ^ 32)). lia. Qed.

Lemma to_int32_id z : - 2 ^ 31 <= z < 2 ^ 31 → to_int32 z = z.
Proof. intros ?. unfold to_int32. rewrite Z.mod_small by lia. lia. Qed.

Lemma to_uint32_range z : 0 <= to_uint32 z < 2 ^ 32.
Proof. apply Z.mod_pos_bound; lia. Qed.

Lemma to_uint32_id z : 0 <= z < 2 ^ 32 → to_uint32 z = z.
Proof. apply Z.mod_small. Qed.

(** The low bits survive ToInt32: [n & (2^k - 1)] is [n mod 2^k] for k < 32. *)
Lemma to_int32_mod_pow z k : 0 <= k <= 32 → to_int32 z mod 2 ^ k = z mod 2 ^ k.
Proof.
  intros Hk. unfold to_int32.
  assert (Hs : 2 ^ 32 = 2 ^ k * 2 ^ (32 - k)) by (rewrite <- Z.pow_add_r by lia; f_equal; lia).
  pose proof (Z.pow_pos_nonneg 2 k ltac:(lia) ltac:(lia)).
  rewrite (Z.mod_eq (z + 2 ^ 31)) by lia. set (q := (z + 2 ^ 31) / 2 ^ 32).
  replace (z + 2 ^ 31 - 2 ^ 32 * q - 2 ^ 31) with (z + (- (2 ^ (32 - k) * q)) * 2 ^ k) by (rewrite Hs; ring).
  apply Z.mod_add. lia.
Qed.

Lemma js_and_ones n k m :
  0 <= k < 32 → m = Z.ones k → js_and n m = n mod 2 ^ k.
Proof.
  intros Hk ->. unfold js_and.
  assert (0 <= Z.ones k < 2 ^ 31).
  { rewrite Z.ones_equiv. pose proof (Z.pow_le_mono_r 2 k 31). pose proof (Z.pow_pos_nonneg 2 k). lia. }
  rewrite (to_int32_id (Z.ones k)) by lia. rewrite Z.land_ones by lia.
  apply to_int32_mod_pow; lia.
Qed.

(** ** Bytes *)

Definition byte (b : Z) : Prop := 0 <= b < 256.

Lemma to_uint8_byte b : byte (to_uint8 b).
Proof. apply Z.mod_pos_bound; lia. Qed.

Lemma to_uint8_id b : byte b → to_uint8 b = b.
Proof. apply Z.mod_small. Qed.

Lemma Forall_byte_app bs cs : Forall byte (bs ++ cs) ↔ Forall byte bs ∧ Forall byte cs.
Proof. apply Forall_app. Qed.

Lemma map_to_uint8_id bs : Forall byte bs → map to_uint8 bs = bs.
Proof. induction 1; simpl; f_equal; auto using to_uint8_id. Qed.

#[export] Hint Resolve to_uint8_byte : ts.

(** [b | 0x80] on a seven-bit value. *)
Lemma js_or_128 b : 0 <= b < 128 → js_or b 128 = b + 128.
Proof.
  intros Hb. unfold js_or. rewrite !to_int32_id by lia.
  rewrite <- Z.lxor_lor, <- Z.add_nocarry_lxor; [done| |].
  all: apply Z.bits_inj'; intros n Hn; rewrite Z.land_spec, Z.bits_0.
  all: change 128 with (2 ^ 7); rewrite Z.pow2_bits_eqb by lia.
  all: destruct (Z.eqb_spec 7 n) as [<-|]; [|apply andb_false_r].
  all: rewrite andb_true_r; apply Z.bits_above_log2; [lia|].
  all: destruct (decide (b = 0)) as [->|]; [simpl; lia|apply Z.log2_lt_pow2; lia].
Qed.

(** ** Lists *)

Fixpoint list_index {A} (p : A → bool) (xs : list A) (i : nat) : option nat :=
  match xs with
  | [] => None
  | x :: xs' => if p x then Some i else list_index p xs' (S i)
  end.

(** JavaScript's [xs.join(sep)] on strings. *)
Fixpoint join_sep (sep : string) (xs : list string) : string :=
  match xs with
  | [] => ""
  | [x] => x
  | x :: xs' => x +:+ sep +:+ join_sep sep xs'
  end.

(** ** JSON text of strings *)

Definition DQ : ascii := "034"%char.
Definition BSL : ascii := "092"%char.
Definition quoted (s : string) : string := String DQ (s +:+ String DQ EmptyString).
Definition hex4 (d : nat) : ascii := ascii_of_nat (if (d <? 10)%nat then 48 + d else 87 + d).

(** [JSON.stringify] of a string, character by character. *)
Definition json_char (c : ascii) : string :=
  let n := nat_of_ascii c in
  if (n =? 34)%nat then String BSL (String DQ EmptyString)
  else if (n =? 92)%nat then "\\"
  else if (n =? 8)%nat then "\b" else if (n =? 9)%nat then "\t" else if (n =? 10)%nat then "\n"
  else if (n =? 12)%nat then "\f" else if (n =? 13)%nat then "\r"
  else if (n <? 32)%nat then "\u00" +:+ String (hex4 (n / 16)) (String (hex4 (n mod 16)) EmptyString)
  else String c EmptyString.
Fixpoint json_chars (s : string) : string :=
  match s with EmptyString => EmptyString | String c s => json_char c +:+ json_chars s end.
Definition json_string (s : string) : string := quoted (json_chars s).

(** [take (length a)] of an append whose head has that length. *)
Lemma take_app_len {A} (a b : list A) n : n = length a → take n (a ++ b) = a.
Proof. intros ->. by rewrite take_app_length. Qed.

Lemma drop_app_len {A} (a b : list A) n : n = length a → drop n (a ++ b) = b.
Proof. intros ->. by rewrite drop_app_length. Qed.
