(* ===== verification/F64.v ===== *)
(** * ECMAScript Number values

    The language's IEEE 754 binary64 numbers, exact and executable: every
    finite double is an integer multiple of 2^-1074, so a finite value is the
    integer [k] it has at that scale ([Fin k] is k * 2^-1074) and every
    operation is the exact rational result rounded to nearest, ties to even
    ([num_of_ratio]).  -0 is a value of its own.  The files that model numeric
    code (the integer-boundary inference, the byte writer) use this type for
    JavaScript's [number]. *)

From S2P Require Import Prelude.

Inductive num : Type :=
  | NaN
  | PInf
  | NInf
  | NZero
  | Fin (k : Z).

#[export] Instance num_eq_dec : EqDecision num.
Proof. solve_decision. Defined.

(** The scale of 1.0 and the first scaled magnitude beyond the finite range. *)
Definition ONE : Z := 2 ^ 1074.
Definition MAXK : Z := 2 ^ 2098.

Definition is_nan (x : num) : bool := match x with NaN => true | _ => false end.
Definition is_finite (x : num) : bool := match x with NZero | Fin _ => true | _ => false end.
(** [Number.isInteger]. *)
Definition is_integer (x : num) : bool :=
  match x with NZero => true | Fin k => k mod ONE =? 0 | _ => false end.

(** The order key of a non-NaN number: infinities sit just outside the finite
    range and both zeros share a key, so [===], [<] and [<=] compare keys. *)
Definition key (x : num) : Z :=
  match x with NaN => 0 | PInf => MAXK | NInf => - MAXK | NZero => 0 | Fin k => k end.

(** The unit in the last place of a scaled magnitude. *)
Definition ulp_exp (q : Z) : Z := Z.max 0 (Z.log2 q - 52).

(** Which scaled integers are doubles. *)
Definition repr (k : Z) : Prop := Z.abs k < MAXK ∧ (2 ^ ulp_exp (Z.abs k) | k).
Definition wf_num (x : num) : Prop := match x with Fin k => repr k | _ => True end.

(** Nearest integer to n/d, ties to even (0 <= n, 0 < d). *)
Definition rne (n d : Z) : Z :=
  let q := n / d in
  let r := n mod d in
  match 2 * r ?= d with
  | Lt => q
  | Gt => q + 1
  | Eq => if Z.even q then q else q + 1
  end.

(** n/d (0 <= n) rounded to 53 significant bits, unbounded above. *)
Definition round_pos (n d : Z) : Z :=
  let u := 2 ^ ulp_exp (n / d) in rne n (d * u) * u.

(** The double nearest n/d at the scale of [Fin]; a zero result takes the sign
    [zneg]. *)
Definition num_of_ratio (n d : Z) (zneg : bool) : num :=
  let r := round_pos (Z.abs n) d in
  if MAXK <=? r then (if n <? 0 then NInf else PInf)
  else if r =? 0 then (if zneg then NZero else Fin 0)
  else Fin (Z.sgn n * r).

(** The Number value of a mathematical integer. *)
Definition num_of_Z (z : Z) : num := num_of_ratio (z * ONE) 1 (z <? 0).

(** ** Number::unaryMinus, add, subtract, multiply, divide, remainder *)

Definition num_neg (x : num) : num :=
  match x with
  | NaN => NaN | PInf => NInf | NInf => PInf | NZero => Fin 0
  | Fin k => if k =? 0 then NZero else Fin (- k)
  end.

Definition num_add (x y : num) : num :=
  match x, y with
  | NaN, _ | _, NaN => NaN
  | PInf, NInf | NInf, PInf => NaN
  | PInf, _ | _, PInf => PInf
  | NInf, _ | _, NInf => NInf
  | NZero, NZero => NZero
  | _, _ => num_of_ratio (key x + key y) 1 false
  end.

Definition num_sub (x y : num) : num := num_add x (num_neg y).

(** The sign bit. *)
Definition sign_neg (x : num) : bool :=
  match x with NInf | NZero => true | Fin k => k <? 0 | _ => false end.
Definition is_zero (x : num) : bool :=
  match x with NZero => true | Fin k => k =? 0 | _ => false end.

Definition inf_of (neg : bool) : num := if neg then NInf else PInf.
Definition zero_of (neg : bool) : num := if neg then NZero else Fin 0.

Definition num_mul (x y : num) : num :=
  let neg := xorb (sign_neg x) (sign_neg y) in
  if is_nan x || is_nan y then NaN
  else match is_finite x, is_finite y with
  | true, true => num_of_ratio (key x * key y) ONE neg
  | true, false => if is_zero x then NaN else inf_of neg
  | false, true => if is_zero y then NaN else inf_of neg
  | false, false => inf_of neg
  end.

Definition num_div (x y : num) : num :=
  let neg := xorb (sign_neg x) (sign_neg y) in
  if is_nan x || is_nan y then NaN
  else match is_finite x, is_finite y with
  | false, false => NaN
  | false, true => inf_of neg
  | true, false => zero_of neg
  | true, true =>
      if is_zero y then (if is_zero x then NaN else inf_of neg)
      else num_of_ratio (key x * Z.sgn (key y) * ONE) (Z.abs (key y)) neg
  end.

Definition num_rem (x y : num) : num :=
  if is_nan x || is_nan y then NaN
  else if negb (is_finite x) then NaN
  else if is_zero y then NaN
  else if negb (is_finite y) then x
  else if is_zero x then x
  else let r := Z.rem (key x) (key y) in
       if r =? 0 then zero_of (key x <? 0) else Fin r.

(** ** Comparisons *)

Definition num_lt (x y : num) : bool := negb (is_nan x) && negb (is_nan y) && (key x <? key y).
Definition num_le (x y : num) : bool := negb (is_nan x) && negb (is_nan y) && (key x <=? key y).
(** [===] *)
Definition num_eq (x y : num) : bool := negb (is_nan x) && negb (is_nan y) && (key x =? key y).

(** ** Math.trunc, floor, ceil, round, abs, min, max *)

Definition fin_signed (neg : bool) (k : Z) : num := if k =? 0 then zero_of neg else Fin k.

Definition math_floor (x : num) : num :=
  match x with Fin k => Fin (k / ONE * ONE) | _ => x end.
Definition math_ceil (x : num) : num :=
  match x with Fin k => fin_signed (k <? 0) (- (- k / ONE) * ONE) | _ => x end.
Definition math_trunc (x : num) : num :=
  match x with Fin k => fin_signed (k <? 0) (Z.quot k ONE * ONE) | _ => x end.
(** Ties go towards +Infinity. *)
Definition math_round (x : num) : num :=
  match x with Fin k => fin_signed (k <? 0) ((2 * k + ONE) / (2 * ONE) * ONE) | _ => x end.
Definition math_abs (x : num) : num :=
  match x with NInf => PInf | NZero => Fin 0 | Fin k => Fin (Z.abs k) | _ => x end.

(** NaN-propagating; -0 is below +0. *)
Definition math_min (x y : num) : num :=
  if is_nan x || is_nan y then NaN
  else if key x <? key y then x
  else if key y <? key x then y
  else if sign_neg x then x else y.
Definition math_max (x y : num) : num :=
  if is_nan x || is_nan y then NaN
  else if key x <? key y then y
  else if key y <? key x then x
  else if sign_neg x then y else x.

(** ** ToInt32 and ToUint32 of a Number, and the bitwise operators *)

Definition num_to_Z (x : num) : Z := match x with Fin k => Z.quot k ONE | _ => 0 end.
Definition num_to_int32 (x : num) : Z := to_int32 (num_to_Z x).
Definition num_to_uint32 (x : num) : Z := to_uint32 (num_to_Z x).

(** ** Rounding *)

Lemma ONE_pos : 0 < ONE.
Proof. unfold ONE. apply Z.pow_pos_nonneg; lia. Qed.
Lemma MAXK_pos : 0 < MAXK.
Proof. unfold MAXK. apply Z.pow_pos_nonneg; lia. Qed.
Lemma ONE_MAXK : 2 ^ 1023 * ONE * 2 = MAXK.
Proof. reflexivity. Qed.
Lemma ulp_exp_nonneg q : 0 <= ulp_exp q.
Proof. unfold ulp_exp. lia. Qed.
Lemma ulp_pos q : 0 < 2 ^ ulp_exp q.
Proof. apply Z.pow_pos_nonneg; [lia|apply ulp_exp_nonneg]. Qed.
#[export] Hint Resolve ONE_pos MAXK_pos ulp_pos ulp_exp_nonneg : ts.

(** The characterisation of [rne] that order reasoning uses. *)
Lemma rne_spec n d : 0 < d →
  2 * n - d <= 2 * d * rne n d <= 2 * n + d ∧
  (2 * d * rne n d = 2 * n - d ∨ 2 * d * rne n d = 2 * n + d → Z.even (rne n d) = true).
Proof.
  intros Hd. unfold rne.
  pose proof (Z.div_mod n d ltac:(lia)) as Hn. pose proof (Z.mod_pos_bound n d Hd) as Hr.
  set (q := n / d) in *. set (r := n mod d) in *.
  destruct (Z.compare_spec (2 * r) d) as [E|E|E].
  - destruct (Z.even q) eqn:Hq; (split; [nia|]); intros _; [done|].
    rewrite Z.even_add, Hq. done.
  - split; [nia|]. intros [?|?]; exfalso; nia.
  - split; [nia|]. intros [?|?]; exfalso; nia.
Qed.

Lemma rne_mono n1 d1 n2 d2 : 0 < d1 → 0 < d2 → n1 * d2 <= n2 * d1 → rne n1 d1 <= rne n2 d2.
Proof.
  intros H1 H2 Hle.
  destruct (rne_spec n1 d1 H1) as [[A1 B1] T1], (rne_spec n2 d2 H2) as [[A2 B2] T2].
  set (m1 := rne n1 d1) in *. set (m2 := rne n2 d2) in *. clearbody m1 m2.
  destruct (Z.le_gt_cases m1 m2) as [|Hgt]; [done|exfalso].
  assert (Hx : d1 * d2 * (2 * m1 - 1) <= 2 * n1 * d2) by nia.
  assert (Hy : 2 * n2 * d1 <= d1 * d2 * (2 * m2 + 1)) by nia.
  assert (Hp : 0 < d1 * d2) by nia.
  assert (Heq : m1 = m2 + 1) by nia. subst m1.
  assert (E1 : 2 * d1 * (m2 + 1) = 2 * n1 + d1) by nia.
  assert (E2 : 2 * d2 * m2 = 2 * n2 - d2) by nia.
  specialize (T1 (or_intror E1)). specialize (T2 (or_introl E2)).
  rewrite Z.even_add, T2 in T1. done.
Qed.

Lemma rne_exact m d : 0 < d → rne (m * d) d = m.
Proof.
  intros Hd. unfold rne. rewrite Z.div_mul, Z.mod_mul by lia.
  destruct (Z.compare_spec (2 * 0) d); lia.
Qed.

Lemma rne_nonneg n d : 0 <= n → 0 < d → 0 <= rne n d.
Proof. intros Hn Hd. rewrite <- (rne_exact 0 d Hd). apply rne_mono; nia. Qed.

Lemma ulp_exp_mono a b : a <= b → ulp_exp a <= ulp_exp b.
Proof. intros H. unfold ulp_exp. pose proof (Z.log2_le_mono a b H). lia. Qed.

(** A value in the binade of exponent [e] is between 2^(52+e) (when e > 0)
    and 2^(53+e). *)
Lemma ulp_upper q : 0 <= q → q < 2 ^ (53 + ulp_exp q).
Proof.
  intros Hq. destruct (decide (q = 0)) as [->|]; [done|].
  eapply Z.lt_le_trans; [apply Z.log2_spec; lia|].
  apply Z.pow_le_mono_r; unfold ulp_exp; lia.
Qed.
Lemma ulp_lower q : 0 < ulp_exp q → 2 ^ (52 + ulp_exp q) <= q.
Proof.
  intros Hq. unfold ulp_exp in *.
  replace (52 + Z.max 0 (Z.log2 q - 52)) with (Z.log2 q) by lia.
  apply Z.log2_spec. destruct (Z.le_gt_cases q 0); [|lia].
  rewrite Z.log2_nonpos in Hq; lia.
Qed.

Lemma div_le_cross n1 d1 n2 d2 : 0 <= n1 → 0 < d1 → 0 < d2 → n1 * d2 <= n2 * d1 → n1 / d1 <= n2 / d2.
Proof.
  intros Hn H1 H2 H. apply Z.div_le_lower_bound; [lia|].
  pose proof (Z.mul_div_le n1 d1 H1). nia.
Qed.

(** Bounds of a rounded value by a power-of-two boundary of its binade. *)
Lemma round_pos_upper n d : 0 <= n → 0 < d → round_pos n d <= 2 ^ (53 + ulp_exp (n / d)).
Proof.
  intros Hn Hd. unfold round_pos. set (e := ulp_exp (n / d)).
  pose proof (ulp_pos (n / d)) as Hu. fold e in Hu.
  rewrite Z.pow_add_r by (unfold e, ulp_exp; lia). apply Z.mul_le_mono_nonneg_r; [lia|].
  rewrite <- (rne_exact (2 ^ 53) (d * 2 ^ e)) by nia.
  apply rne_mono; [nia..|].
  pose proof (ulp_upper (n / d) ltac:(apply Z.div_pos; lia)) as Hq. fold e in Hq.
  rewrite Z.pow_add_r in Hq by (unfold e, ulp_exp; lia).
  pose proof (Z.mul_succ_div_gt n d Hd) as Hg. unfold Z.succ in Hg.
  assert (n < d * (2 ^ 53 * 2 ^ e)) by nia. nia.
Qed.

Lemma round_pos_lower n d : 0 <= n → 0 < d → 0 < ulp_exp (n / d) →
  2 ^ (52 + ulp_exp (n / d)) <= round_pos n d.
Proof.
  intros Hn Hd He. unfold round_pos. set (e := ulp_exp (n / d)) in *.
  pose proof (ulp_pos (n / d)) as Hu. fold e in Hu.
  rewrite Z.pow_add_r by lia. apply Z.mul_le_mono_nonneg_r; [lia|].
  rewrite <- (rne_exact (2 ^ 52) (d * 2 ^ e)) by nia.
  apply rne_mono; [nia..|].
  pose proof (ulp_lower (n / d) He) as Hq. fold e in Hq.
  rewrite Z.pow_add_r in Hq by lia.
  pose proof (Z.mul_div_le n d Hd). assert (2 ^ 52 * 2 ^ e * d <= n) by nia.
  rewrite (Z.mul_comm (2 ^ 52)), <- Z.mul_assoc, (Z.mul_comm _ (d * 2 ^ e)).
  rewrite (Z.mul_comm n). apply Z.mul_le_mono_nonneg_l; [nia|]. nia.
Qed.

Lemma round_pos_mono n1 d1 n2 d2 : 0 <= n1 → 0 < d1 → 0 < d2 →
  n1 * d2 <= n2 * d1 → round_pos n1 d1 <= round_pos n2 d2.
Proof.
  intros Hn H1 H2 H. assert (Hn2 : 0 <= n2) by nia.
  pose proof (div_le_cross n1 d1 n2 d2 Hn H1 H2 H) as Hq.
  pose proof (ulp_exp_mono _ _ Hq) as He.
  destruct (decide (ulp_exp (n1 / d1) = ulp_exp (n2 / d2))) as [E|E].
  - unfold round_pos. rewrite E. pose proof (ulp_pos (n2 / d2)) as Hu.
    apply Z.mul_le_mono_nonneg_r; [lia|]. apply rne_mono; nia.
  - etrans; [apply round_pos_upper; lia|].
    etrans; [|apply round_pos_lower; [lia..|pose proof (ulp_exp_nonneg (n1 / d1)); lia]].
    apply Z.pow_le_mono_r; lia.
Qed.

Lemma round_pos_0 d : 0 < d → round_pos 0 d = 0.
Proof.
  intros Hd. unfold round_pos. rewrite Z.div_0_l by lia. pose proof (ulp_pos 0).
  pose proof (rne_exact 0 (d * 2 ^ ulp_exp 0) ltac:(nia)) as E. rewrite Z.mul_0_l in E.
  by rewrite E.
Qed.

Lemma round_pos_nonneg n d : 0 <= n → 0 < d → 0 <= round_pos n d.
Proof.
  intros Hn Hd. unfold round_pos. pose proof (ulp_pos (n / d)).
  apply Z.mul_nonneg_nonneg; [apply rne_nonneg; nia|lia].
Qed.

(** Rounding is the identity on values that carry at most 53 bits. *)
Lemma round_pos_exact k : 0 <= k → (2 ^ ulp_exp k | k) → round_pos k 1 = k.
Proof.
  intros Hk [m Hm]. unfold round_pos. rewrite Z.div_1_r, Z.mul_1_l.
  rewrite Hm at 1. rewrite rne_exact by apply ulp_pos. lia.
Qed.

(** A rounded value is a multiple of its unit, and of any power of two that
    divides the exact quotient. *)
Lemma round_pos_div m d e : 0 <= m → 0 < d → 0 <= e → (2 ^ e | round_pos (m * 2 ^ e * d) d).
Proof.
  intros Hm Hd He. pose proof (Z.pow_pos_nonneg 2 e ltac:(lia) He) as Hp.
  unfold round_pos. rewrite Z.div_mul by lia. set (u := ulp_exp (m * 2 ^ e)).
  assert (0 <= u) by apply ulp_exp_nonneg.
  destruct (Z.le_gt_cases e u).
  - apply Z.divide_mul_r. exists (2 ^ (u - e)). rewrite <- Z.pow_add_r by lia. f_equal; lia.
  - pose proof (Z.pow_pos_nonneg 2 u ltac:(lia) ltac:(lia)) as Hpu.
    replace (m * 2 ^ e * d) with (m * 2 ^ (e - u) * (d * 2 ^ u))
      by (replace e with ((e - u) + u) at 2 by lia; rewrite (Z.pow_add_r 2 (e - u) u) by lia; ring).
    rewrite rne_exact by nia. exists m.
    rewrite <- Z.mul_assoc, <- Z.pow_add_r by lia. do 2 f_equal. lia.
Qed.

Lemma pow2_divide a b : 0 <= a <= b → (2 ^ a | 2 ^ b).
Proof. intros H. exists (2 ^ (b - a)). rewrite <- Z.pow_add_r by lia. f_equal; lia. Qed.

(** Any multiple of 2^e up to 2^(53+e) carries at most 53 bits. *)
Lemma repr_of_bound r e : 0 <= e → 0 <= r <= 2 ^ (53 + e) → (2 ^ e | r) → (2 ^ ulp_exp r | r).
Proof.
  intros He Hr Hd. destruct (decide (r = 2 ^ (53 + e))) as [E|E].
  - rewrite E. apply pow2_divide. unfold ulp_exp. rewrite Z.log2_pow2 by lia. lia.
  - etrans; [|exact Hd]. apply pow2_divide. split; [apply ulp_exp_nonneg|].
    unfold ulp_exp. destruct (decide (r = 0)) as [E0|E0]; [subst; simpl; lia|].
    assert (Hlt : r < 2 ^ (53 + e)) by (apply Z.le_neq; split; [apply Hr|done]).
    apply Z.log2_lt_pow2 in Hlt; lia.
Qed.

Lemma round_pos_repr n d : 0 <= n → 0 < d → (2 ^ ulp_exp (round_pos n d) | round_pos n d).
Proof.
  intros Hn Hd. apply repr_of_bound with (ulp_exp (n / d)); [apply ulp_exp_nonneg| |].
  - split; [by apply round_pos_nonneg|by apply round_pos_upper].
  - apply Z.divide_factor_r.
Qed.

Lemma ratio_not_nan n d z : is_nan (num_of_ratio n d z) = false.
Proof. unfold num_of_ratio. repeat case_match; done. Qed.

Lemma key_ratio n d z : 0 < d →
  key (num_of_ratio n d z) = Z.sgn n * Z.min (round_pos (Z.abs n) d) MAXK.
Proof.
  intros Hd. unfold num_of_ratio. pose proof (round_pos_nonneg (Z.abs n) d ltac:(lia) Hd).
  destruct (Z.leb_spec MAXK (round_pos (Z.abs n) d)).
  - rewrite Z.min_r by lia.
    destruct (Z.ltb_spec n 0); simpl; [rewrite Z.sgn_neg by lia; lia|].
    destruct (decide (n = 0)) as [->|]; [|rewrite Z.sgn_pos by lia; lia].
    simpl in *. rewrite round_pos_0 in * by done. pose proof MAXK_pos. lia.
  - rewrite Z.min_l by lia. destruct (Z.eqb_spec (round_pos (Z.abs n) d) 0) as [->|].
    + destruct z; simpl; lia.
    + done.
Qed.

(** Rounding is monotone: the order of the exact quotients is kept. *)
Lemma ratio_mono n1 d1 z1 n2 d2 z2 : 0 < d1 → 0 < d2 → n1 * d2 <= n2 * d1 →
  key (num_of_ratio n1 d1 z1) <= key (num_of_ratio n2 d2 z2).
Proof.
  intros H1 H2 H. rewrite !key_ratio by done. pose proof MAXK_pos.
  pose proof (round_pos_nonneg (Z.abs n1) d1 ltac:(lia) H1).
  pose proof (round_pos_nonneg (Z.abs n2) d2 ltac:(lia) H2).
  destruct (Z.lt_trichotomy n1 0) as [?|[->|?]], (Z.lt_trichotomy n2 0) as [?|[->|?]];
    rewrite ?(Z.sgn_neg n1), ?(Z.sgn_neg n2), ?(Z.sgn_pos n1), ?(Z.sgn_pos n2) by lia;
    simpl (Z.sgn 0); try nia.
  - assert (round_pos (Z.abs n2) d2 <= round_pos (Z.abs n1) d1)
      by (apply round_pos_mono; rewrite ?Z.abs_neq by lia; lia). lia.
  - assert (round_pos (Z.abs n1) d1 <= round_pos (Z.abs n2) d2)
      by (apply round_pos_mono; rewrite ?Z.abs_eq by lia; lia). lia.
Qed.

Lemma key_range x : wf_num x → - MAXK <= key x <= MAXK.
Proof. pose proof MAXK_pos. destruct x as [| | | |k]; simpl; try lia. intros [? _]. lia. Qed.

Lemma key_finite x : wf_num x → is_finite x = true → - MAXK < key x < MAXK.
Proof. pose proof MAXK_pos. destruct x as [| | | |k]; simpl; try (done || lia). intros [? _]. lia. Qed.

Lemma repr_0 : repr 0.
Proof. split; [apply MAXK_pos|apply Z.divide_0_r]. Qed.

Lemma repr_opp k : repr k → repr (- k).
Proof. unfold repr. rewrite Z.abs_opp, Z.divide_opp_r. done. Qed.

Lemma ratio_wf n d z : 0 < d → wf_num (num_of_ratio n d z).
Proof.
  intros Hd. unfold num_of_ratio. pose proof (round_pos_nonneg (Z.abs n) d ltac:(lia) Hd) as Hnn.
  pose proof (round_pos_repr (Z.abs n) d ltac:(lia) Hd) as Hr.
  destruct (Z.leb_spec MAXK (round_pos (Z.abs n) d)); [by case_match|].
  destruct (Z.eqb_spec (round_pos (Z.abs n) d) 0); [destruct z; simpl; auto using repr_0|].
  simpl. set (r := round_pos (Z.abs n) d) in *.
  destruct (Z.lt_trichotomy n 0) as [?|[->|?]].
  - rewrite Z.sgn_neg by lia. replace (-1 * r) with (- r) by lia. apply repr_opp. split; rewrite ?Z.abs_eq by lia; done.
  - rewrite Z.sgn_0, Z.mul_0_l. apply repr_0.
  - rewrite Z.sgn_pos, Z.mul_1_l by lia. split; rewrite ?Z.abs_eq by lia; done.
Qed.

(** A representable scaled integer rounds to itself. *)
Lemma ratio_exact k z : repr k → key (num_of_ratio k 1 z) = k.
Proof.
  intros [Hk Hd]. rewrite key_ratio by lia.
  rewrite round_pos_exact; [|lia|by apply Z.divide_abs_r].
  rewrite Z.min_l by lia. pose proof (Z.sgn_abs k). lia.
Qed.

(** Integers stay integers: an exact quotient that is a multiple of [ONE]
    rounds to an integer or overflows. *)
Lemma ratio_integer m d z : 0 < d →
  is_finite (num_of_ratio (m * ONE * d) d z) = true →
  is_integer (num_of_ratio (m * ONE * d) d z) = true.
Proof.
  intros Hd. unfold num_of_ratio.
  assert (Hdiv : (ONE | round_pos (Z.abs (m * ONE * d)) d)).
  { rewrite !Z.abs_mul, (Z.abs_eq ONE), (Z.abs_eq d) by (pose proof ONE_pos; lia).
    apply round_pos_div; lia. }
  set (r := round_pos _ d) in *.
  destruct (MAXK <=? r); [by case_match|].
  destruct (r =? 0); [by destruct z|]. intros _. simpl.
  apply Z.eqb_eq, Z.mod_divide; [pose proof ONE_pos; lia|]. by apply Z.divide_mul_r.
Qed.

(** ** Integers of the machine ranges *)

Lemma ONE_pow : ONE = 2 ^ 1074.
Proof. reflexivity. Qed.

Lemma repr_int z : Z.abs z <= 2 ^ 53 → repr (z * ONE).
Proof.
  intros Hz. pose proof ONE_pos. split.
  - rewrite Z.abs_mul, (Z.abs_eq ONE) by lia. rewrite <- ONE_MAXK.
    assert (2 ^ 53 < 2 ^ 1023 * 2) by (vm_compute; done). nia.
  - apply Z.divide_abs_r. apply repr_of_bound with 1074; [lia| |].
    + rewrite Z.abs_mul, (Z.abs_eq ONE) by lia. rewrite Z.pow_add_r, <- ONE_pow by lia. nia.
    + apply Z.divide_abs_r. rewrite <- ONE_pow. by exists z.
Qed.

(** A machine integer is the double it names. *)
Lemma ratio_int z : 0 <= z <= 2 ^ 53 → num_of_ratio (z * ONE) 1 false = Fin (z * ONE).
Proof.
  intros Hz. pose proof ONE_pos. destruct (repr_int z ltac:(lia)) as [Hm Hd]. unfold num_of_ratio.
  rewrite round_pos_exact; [|lia|by apply Z.divide_abs_r]. rewrite (Z.abs_eq (z * ONE)) in * by nia.
  destruct (Z.leb_spec MAXK (z * ONE)); [lia|]. destruct (Z.eqb_spec (z * ONE) 0) as [->|]; [done|]. by rewrite Z.sgn_pos, Z.mul_1_l by nia.
Qed.
Lemma num_of_Z_int z : 0 <= z <= 2 ^ 53 → num_of_Z z = Fin (z * ONE).
Proof. intros Hz. unfold num_of_Z. destruct (Z.ltb_spec z 0); [lia|]. by apply ratio_int. Qed.

(** The same below zero. *)
Lemma ratio_int_signed z : Z.abs z <= 2 ^ 53 → num_of_ratio (z * ONE) 1 false = Fin (z * ONE).
Proof.
  intros Hz. pose proof ONE_pos. destruct (repr_int z Hz) as [Hm Hd]. unfold num_of_ratio.
  rewrite round_pos_exact; [|lia|by apply Z.divide_abs_r]. destruct (Z.leb_spec MAXK (Z.abs (z * ONE))); [lia|].
  destruct (Z.eqb_spec (Z.abs (z * ONE)) 0) as [E|]; [by replace (z * ONE) with 0 by lia|]. by rewrite Z.mul_comm, Z.abs_sgn.
Qed.
Lemma num_of_Z_exact z : Z.abs z <= 2 ^ 53 → num_of_Z z = Fin (z * ONE).
Proof.
  intros Hz. unfold num_of_Z. destruct (Z.ltb_spec z 0); [|apply ratio_int; lia]. rewrite <- ratio_int_signed by done. unfold num_of_ratio.
  pose proof ONE_pos. destruct (repr_int z Hz) as [_ Hd]. rewrite round_pos_exact; [|lia|by apply Z.divide_abs_r].
  destruct (MAXK <=? Z.abs (z * ONE)); [done|]. destruct (Z.eqb_spec (Z.abs (z * ONE)) 0) as [E|]; [nia|done].
Qed.

Lemma num_lt_scaled i j : num_lt (Fin (i * ONE)) (Fin (j * ONE)) = (i <? j).
Proof. pose proof ONE_pos. unfold num_lt. simpl. destruct (Z.ltb_spec (i * ONE) (j * ONE)), (Z.ltb_spec i j); try done; nia. Qed.
Lemma num_le_scaled i j : num_le (Fin (i * ONE)) (Fin (j * ONE)) = (i <=? j).
Proof. pose proof ONE_pos. unfold num_le. simpl. destruct (Z.leb_spec (i * ONE) (j * ONE)), (Z.leb_spec i j); try done; nia. Qed.

(** ** Conversions of WebAssembly

    [i32.trunc_f64_s] and [i32.trunc_f64_u] trap on a NaN, an infinity or a
    value out of range; an i32 is held as its unsigned value.
    [f64.convert_i32_s] is exact. *)

Definition trunc_s32 (x : num) : option Z :=
  match x with
  | NZero => Some 0
  | Fin k => let z := Z.quot k ONE in if (- 2 ^ 31 <=? z) && (z <? 2 ^ 31) then Some (to_uint32 z) else None
  | _ => None
  end.
Definition trunc_u32 (x : num) : option Z :=
  match x with
  | NZero => Some 0
  | Fin k => if (- ONE <? k) && (k <? 2 ^ 32 * ONE) then Some (Z.quot k ONE) else None
  | _ => None
  end.
Definition i2d (n : Z) : num := num_of_Z (to_int32 n).

(** The double is the integer [k] (both zeros are 0). *)
Definition is_int (x : num) (k : Z) : Prop := x = Fin (k * ONE) ∨ x = NZero ∧ k = 0.

Lemma trunc_s32_int x k : is_int x k → 0 <= k < 2 ^ 31 → trunc_s32 x = Some k.
Proof.
  intros [->|[-> ->]] Hk; [|done]. pose proof ONE_pos. cbn -[ONE Z.mul Z.quot]. rewrite Z.quot_mul by lia.
  rewrite (proj2 (Z.leb_le _ _)), (proj2 (Z.ltb_lt _ _)) by lia. cbn [andb]. by rewrite to_uint32_id by lia.
Qed.
Lemma i2d_small n : 0 <= n < 2 ^ 31 → i2d n = Fin (n * ONE).
Proof. intros Hn. unfold i2d. rewrite to_int32_id by lia. apply num_of_Z_int. lia. Qed.
Lemma is_int_lt x k j : is_int x k → num_lt x (Fin (j * ONE)) = (k <? j) ∧ num_lt (Fin (j * ONE)) x = (j <? k).
Proof. intros [->|[-> ->]]; rewrite <- ?num_lt_scaled; done. Qed.

(** ** The binary64 encoding

    What [DataView.prototype.setFloat64] stores.  ECMAScript leaves the bits
    of a NaN to the implementation; the engines the compiler runs on store the
    canonical quiet NaN. *)

Definition mag_bits (m : Z) : Z :=
  let e := ulp_exp m in
  if m <? 2 ^ 52 then m else (e + 1) * 2 ^ 52 + (m / 2 ^ e - 2 ^ 52).

Definition f64_bits (x : num) : Z :=
  match x with
  | NaN => 0x7ff8000000000000
  | PInf => 0x7ff0000000000000
  | NInf => 0xfff0000000000000
  | NZero => 2 ^ 63
  | Fin k => (if k <? 0 then 2 ^ 63 else 0) + mag_bits (Z.abs k)
  end.

(** The value a 64-bit pattern denotes. *)
Definition f64_of_bits (b : Z) : num :=
  let neg := 2 ^ 63 <=? b in
  let r := b mod 2 ^ 63 in
  let ex := r / 2 ^ 52 in
  let fr := r mod 2 ^ 52 in
  if ex =? 2047 then (if fr =? 0 then inf_of neg else NaN)
  else let m := if ex =? 0 then fr else (2 ^ 52 + fr) * 2 ^ (ex - 1) in
       if m =? 0 then zero_of neg else Fin (if neg then - m else m).

(** Decoding a magnitude's exponent and fraction fields. *)
Lemma mag_bits_fields m : 0 <= m < MAXK → (2 ^ ulp_exp m | m) →
  let b := mag_bits m in
  0 <= b < 2047 * 2 ^ 52 ∧
  (if b / 2 ^ 52 =? 0 then b mod 2 ^ 52 else (2 ^ 52 + b mod 2 ^ 52) * 2 ^ (b / 2 ^ 52 - 1)) = m.
Proof.
  intros Hm Hd. simpl. unfold mag_bits.
  destruct (Z.ltb_spec m (2 ^ 52)) as [Hs|Hs].
  { rewrite Z.div_small, Z.mod_small by lia. split; [lia|done]. }
  set (e := ulp_exp m) in *. pose proof (ulp_pos m) as Hu. fold e in Hu.
  assert (He : 0 <= e) by apply ulp_exp_nonneg.
  destruct Hd as [c Hc]. assert (Ec : m / 2 ^ e = c) by (rewrite Hc, Z.div_mul; lia).
  assert (Hup : m < 2 ^ (53 + e)) by (apply ulp_upper; lia).
  assert (Hlo : 2 ^ (52 + e) <= m).
  { destruct (decide (e = 0)) as [->|]; [lia|]. apply ulp_lower. fold e. lia. }
  rewrite Z.pow_add_r in Hup, Hlo by lia. rewrite Ec.
  assert (Hcr : 2 ^ 52 <= c < 2 ^ 53) by nia.
  assert (Hemax : e <= 2045).
  { unfold e, ulp_exp. assert (Z.log2 m < 2098); [|lia].
    apply Z.log2_lt_pow2; [lia|]. apply Hm. }
  replace ((e + 1) * 2 ^ 52 + (c - 2 ^ 52)) with (c - 2 ^ 52 + (e + 1) * 2 ^ 52) by ring.
  rewrite Z.div_add, Z.mod_add, Z.div_small, Z.mod_small by lia.
  split; [lia|]. destruct (Z.eqb_spec (0 + (e + 1)) 0); [lia|].
  replace (0 + (e + 1) - 1) with e by ring. rewrite Hc. f_equal. ring.
Qed.

Lemma f64_bits_range x : wf_num x → 0 <= f64_bits x < 2 ^ 64.
Proof.
  destruct x as [| | | |k]; try (intros _; simpl; lia). intros [Hk Hd]. unfold f64_bits.
  destruct (mag_bits_fields (Z.abs k)) as [Hb _]; [lia|by apply Z.divide_abs_r|].
  destruct (k <? 0); lia.
Qed.

Lemma f64_bits_sign (neg : bool) b : 0 <= b < 2047 * 2 ^ 52 →
  let w := (if neg then 2 ^ 63 else 0) + b in
  (2 ^ 63 <=? w) = neg ∧ w mod 2 ^ 63 = b ∧ (b / 2 ^ 52 =? 2047) = false.
Proof.
  intros Hb. simpl. split; [|split].
  - destruct neg; [apply Z.leb_le|apply Z.leb_gt]; lia.
  - destruct neg; [|apply Z.mod_small; lia].
    replace (2 ^ 63 + b) with (b + 1 * 2 ^ 63) by ring. rewrite Z.mod_add by lia. apply Z.mod_small. lia.
  - apply Z.eqb_neq. assert (b / 2 ^ 52 < 2047) by (apply Z.div_lt_upper_bound; lia). lia.
Qed.

Lemma f64_of_bits_bits x : wf_num x → f64_of_bits (f64_bits x) = x.
Proof.
  destruct x as [| | | |k]; try reflexivity. intros [Hk Hd].
  destruct (mag_bits_fields (Z.abs k)) as [Hb Hm]; [lia|by apply Z.divide_abs_r|].
  unfold f64_of_bits, f64_bits.
  destruct (f64_bits_sign (k <? 0) (mag_bits (Z.abs k)) Hb) as (-> & -> & ->).
  rewrite Hm. destruct (Z.eqb_spec (Z.abs k) 0) as [E|E].
  - assert (k = 0) as -> by lia. done.
  - f_equal. destruct (Z.ltb_spec k 0); lia.
Qed.
