(* ===== verification/F32.v ===== *)
(** * Single precision

    WebAssembly's [f32.demote_f64] followed by [i32.reinterpret_f32], and
    [f32.reinterpret_i32] followed by [f64.promote_f32], on the doubles of
    F64.v: a finite single is an integer multiple of 2^-149, and a double is
    rounded to the nearest single, ties to even.  As for the doubles, a NaN
    stands for the canonical one. *)

From S2P Require Import Prelude F64.

(** 2^-149 at the scale of [Fin]. *)
Definition UNIT32 : Z := 2 ^ 925.
(** The first magnitude beyond the finite singles, in units of 2^-149. *)
Definition MAX32 : Z := 2 ^ 277.
Definition ulp32 (q : Z) : Z := Z.max 0 (Z.log2 q - 23).
(** A magnitude rounded to 24 significant bits, in units of 2^-149. *)
Definition round32 (k : Z) : Z := let u := 2 ^ ulp32 (k / UNIT32) in rne k (UNIT32 * u) * u.
Definition mag32_bits (m : Z) : Z := if m <? 2 ^ 23 then m else (ulp32 m + 1) * 2 ^ 23 + (m / 2 ^ ulp32 m - 2 ^ 23).
Definition sign32 (neg : bool) (b : Z) : Z := (if neg then 2 ^ 31 else 0) + b.
(** [i32.reinterpret_f32 (f32.demote_f64 x)]. *)
Definition demote_bits (x : num) : Z :=
  match x with
  | NaN => 0x7fc00000
  | PInf => 0x7f800000
  | NInf => 0xff800000
  | NZero => 0x80000000
  | Fin k => let r := round32 (Z.abs k) in sign32 (k <? 0) (if MAX32 <=? r then 0x7f800000 else mag32_bits r)
  end.
(** [f64.promote_f32 (f32.reinterpret_i32 b)]. *)
Definition promote_bits (b : Z) : num :=
  let neg := 2 ^ 31 <=? b in
  let r := b mod 2 ^ 31 in
  let ex := r / 2 ^ 23 in
  let fr := r mod 2 ^ 23 in
  if ex =? 255 then (if fr =? 0 then inf_of neg else NaN)
  else let m := if ex =? 0 then fr else (2 ^ 23 + fr) * 2 ^ (ex - 1) in
       if m =? 0 then zero_of neg else Fin ((if neg then - m else m) * UNIT32).

(** [Math.fround]. *)
Definition fround (x : num) : num :=
  match x with
  | Fin k =>
      let r := round32 (Z.abs k) in
      if MAX32 <=? r then inf_of (k <? 0) else if r =? 0 then zero_of (k <? 0) else Fin ((if k <? 0 then - r else r) * UNIT32)
  | _ => x
  end.

Example sample_singles : map (λ x, promote_bits (demote_bits x)) [num_of_Z 16777217; num_of_Z (-3); NZero; NaN; PInf; num_div (num_of_Z 1) (num_of_Z 10)] =
    [num_of_Z 16777216; num_of_Z (-3); NZero; NaN; PInf; num_div (num_of_Z 13421773) (num_of_Z 134217728)] ∧
  demote_bits (num_div (num_of_Z 1) (num_of_Z 10)) = 0x3dcccccd ∧ demote_bits (num_of_Z (2 ^ 128)) = 0x7f800000.
Proof. vm_compute. done. Qed.

Lemma UNIT32_pos : 0 < UNIT32.
Proof. by apply Z.pow_pos_nonneg. Qed.
Lemma ulp32_pos q : 0 < 2 ^ ulp32 q.
Proof. apply Z.pow_pos_nonneg; unfold ulp32; lia. Qed.
Lemma ulp32_upper q : 0 <= q → q < 2 ^ (24 + ulp32 q).
Proof.
  intros Hq. destruct (decide (q = 0)) as [->|]; [done|].
  eapply Z.lt_le_trans; [apply Z.log2_spec; lia|]. apply Z.pow_le_mono_r; unfold ulp32; lia.
Qed.
Lemma ulp32_lower q : 0 < ulp32 q → 2 ^ (23 + ulp32 q) <= q.
Proof.
  intros Hq. unfold ulp32 in *. replace (23 + Z.max 0 (Z.log2 q - 23)) with (Z.log2 q) by lia.
  apply Z.log2_spec. destruct (Z.le_gt_cases q 0); [|lia]. rewrite Z.log2_nonpos in Hq; lia.
Qed.

Lemma round32_nonneg k : 0 <= k → 0 <= round32 k.
Proof. intros Hk. unfold round32. pose proof UNIT32_pos. pose proof (ulp32_pos (k / UNIT32)). apply Z.mul_nonneg_nonneg; [apply rne_nonneg; nia|lia]. Qed.

Lemma round32_upper k : 0 <= k → round32 k <= 2 ^ (24 + ulp32 (k / UNIT32)).
Proof.
  intros Hk. pose proof UNIT32_pos as HU. unfold round32. set (e := ulp32 (k / UNIT32)). pose proof (ulp32_pos (k / UNIT32)) as Hu. fold e in Hu.
  rewrite Z.pow_add_r by (unfold e, ulp32; lia). apply Z.mul_le_mono_nonneg_r; [lia|].
  rewrite <- (rne_exact (2 ^ 24) (UNIT32 * 2 ^ e)) by nia. apply rne_mono; [nia..|].
  pose proof (ulp32_upper (k / UNIT32) ltac:(apply Z.div_pos; lia)) as Hq. fold e in Hq. rewrite Z.pow_add_r in Hq by (unfold e, ulp32; lia).
  pose proof (Z.mul_succ_div_gt k UNIT32 HU) as Hg. unfold Z.succ in Hg. assert (k < UNIT32 * (2 ^ 24 * 2 ^ e)) by nia. nia.
Qed.

Lemma round32_repr k : 0 <= k → (2 ^ ulp32 (round32 k) | round32 k).
Proof.
  intros Hk. pose proof (round32_upper k Hk) as Hr. pose proof (round32_nonneg k Hk) as H0. set (e := ulp32 (k / UNIT32)) in *.
  assert (He : 0 <= e) by (unfold e, ulp32; lia). assert (Hd : (2 ^ e | round32 k)) by (exists (rne k (UNIT32 * 2 ^ e)); reflexivity).
  destruct (decide (round32 k = 2 ^ (24 + e))) as [E|E].
  - rewrite E. apply pow2_divide. unfold ulp32. rewrite Z.log2_pow2 by lia. lia.
  - etrans; [|exact Hd]. apply pow2_divide. unfold ulp32. split; [lia|]. destruct (decide (round32 k = 0)) as [E0|E0]; [rewrite E0; simpl; lia|].
    assert (Hlt : round32 k < 2 ^ (24 + e)) by lia. apply Z.log2_lt_pow2 in Hlt; lia.
Qed.

Lemma mag32_fields m : 0 <= m < MAX32 → (2 ^ ulp32 m | m) →
  let b := mag32_bits m in
  0 <= b < 255 * 2 ^ 23 ∧ (if b / 2 ^ 23 =? 0 then b mod 2 ^ 23 else (2 ^ 23 + b mod 2 ^ 23) * 2 ^ (b / 2 ^ 23 - 1)) = m.
Proof.
  intros Hm Hd. simpl. unfold mag32_bits. destruct (Z.ltb_spec m (2 ^ 23)) as [Hs|Hs].
  { rewrite Z.div_small, Z.mod_small by lia. split; [lia|done]. }
  set (e := ulp32 m) in *. pose proof (ulp32_pos m) as Hu. fold e in Hu. assert (He : 0 <= e) by (unfold e, ulp32; lia).
  destruct Hd as [c Hc]. assert (Ec : m / 2 ^ e = c) by (rewrite Hc, Z.div_mul; lia).
  assert (Hup : m < 2 ^ (24 + e)) by (apply ulp32_upper; lia).
  assert (Hlo : 2 ^ (23 + e) <= m) by (destruct (decide (e = 0)) as [->|]; [lia|]; apply ulp32_lower; fold e; lia).
  rewrite Z.pow_add_r in Hup, Hlo by lia. rewrite Ec. assert (Hcr : 2 ^ 23 <= c < 2 ^ 24) by nia.
  assert (Hemax : e <= 253) by (unfold e, ulp32; assert (Z.log2 m < 277); [apply Z.log2_lt_pow2; [lia|]; apply Hm|lia]).
  replace ((e + 1) * 2 ^ 23 + (c - 2 ^ 23)) with (c - 2 ^ 23 + (e + 1) * 2 ^ 23) by ring.
  rewrite Z.div_add, Z.mod_add, Z.div_small, Z.mod_small by lia. split; [lia|]. destruct (Z.eqb_spec (0 + (e + 1)) 0); [lia|].
  replace (0 + (e + 1) - 1) with e by ring. rewrite Hc. f_equal. ring.
Qed.

Lemma sign32_fields (neg : bool) b : 0 <= b < 2 ^ 31 → (2 ^ 31 <=? sign32 neg b) = neg ∧ sign32 neg b mod 2 ^ 31 = b ∧ 0 <= sign32 neg b < 2 ^ 32.
Proof.
  intros Hb. unfold sign32. split; [|split].
  - destruct neg; [apply Z.leb_le|apply Z.leb_gt]; lia.
  - destruct neg; [|apply Z.mod_small; lia]. replace (2 ^ 31 + b) with (b + 1 * 2 ^ 31) by ring. rewrite Z.mod_add by lia. apply Z.mod_small. lia.
  - destruct neg; lia.
Qed.

Lemma demote_range x : 0 <= demote_bits x < 2 ^ 32.
Proof.
  destruct x as [| | | |k]; try (cbn; lia). cbn [demote_bits]. destruct (Z.leb_spec MAX32 (round32 (Z.abs k))).
  - apply sign32_fields. lia.
  - destruct (mag32_fields (round32 (Z.abs k))) as [Hb _]; [split; [apply round32_nonneg; lia|done]|apply round32_repr; lia|]. apply sign32_fields. lia.
Qed.

(** Storing a double as a single and reading it back rounds it. *)
Lemma promote_demote x : promote_bits (demote_bits x) = fround x.
Proof.
  destruct x as [| | | |k]; try reflexivity. cbn [demote_bits fround]. set (r := round32 (Z.abs k)). assert (Hr0 : 0 <= r) by (apply round32_nonneg; lia).
  unfold promote_bits. destruct (Z.leb_spec MAX32 r) as [Hbig|Hsm].
  - destruct (sign32_fields (k <? 0) 0x7f800000 ltac:(lia)) as (-> & -> & _). reflexivity.
  - destruct (mag32_fields r) as [Hb Hm]; [lia|apply round32_repr; lia|]. destruct (sign32_fields (k <? 0) (mag32_bits r) ltac:(lia)) as (-> & -> & _).
    assert (mag32_bits r / 2 ^ 23 =? 255 = false) as -> by (apply Z.eqb_neq; assert (mag32_bits r / 2 ^ 23 < 255) by (apply Z.div_lt_upper_bound; lia); lia).
    by rewrite Hm.
Qed.

(** Values a single holds come back as they were. *)
Definition single (x : num) : Prop := match x with Fin k => ∃ r, 0 <= r < MAX32 ∧ (2 ^ ulp32 r | r) ∧ Z.abs k = r * UNIT32 | _ => True end.
Lemma fround_single x : single x → fround x = x.
Proof.
  destruct x as [| | | |k]; try done. intros (r & Hr & [c Hc] & Hk). cbn [fround]. rewrite Hk. pose proof UNIT32_pos. pose proof (ulp32_pos r).
  assert (E : round32 (r * UNIT32) = r).
  { unfold round32. rewrite Z.div_mul by lia. rewrite Hc at 1. replace (c * 2 ^ ulp32 r * UNIT32) with (c * (UNIT32 * 2 ^ ulp32 r)) by ring. rewrite rne_exact by nia. lia. }
  rewrite E, (proj2 (Z.leb_gt _ _)) by lia. destruct (Z.eqb_spec r 0) as [->|]; [by replace k with 0 by lia|]. f_equal. destruct (Z.ltb_spec k 0); lia.
Qed.
