(* ===== verification/Arrays.v ===== *)
(** * A monad for imperative array code

    The sorting text of src/packages/compiler/src/backend/wasm/timsort-src.ts is
    imperative C over arrays, with loops, early returns and calls of a user
    comparator; the string helpers of ropes.ts and slices.ts are instruction
    sequences over arrays and structs.  This file holds what their models are
    written in: array reads, writes and overlapping copies that trap out of
    bounds, a state monad with [return], traps and bounded loops, and the
    weakest-precondition rules used to reason about it.  The rules are total: a
    program that satisfies a postcondition neither traps nor runs out of loop
    fuel. *)

From S2P Require Import Prelude.

Notation len l := (Z.of_nat (length l)).

(** Right-nested concatenations. *)
Ltac app_norm := repeat first [rewrite <- !app_assoc | progress cbn [app]].

(** ** Arrays *)

Section array.
Context {A : Type}.
Implicit Types l : list A.

(** [array.get], [array.set] and [array.copy] (memmove); [None] is a trap. *)
Definition aget l (i : Z) : option A := if i <? 0 then None else l !! Z.to_nat i.

Definition aset l (i : Z) (x : A) : option (list A) :=
  if (i <? 0) || (len l <=? i) then None else Some (<[Z.to_nat i := x]> l).

Definition slice l (i n : Z) : list A := take (Z.to_nat n) (drop (Z.to_nat i) l).

Definition acopy dst (di : Z) src (si n : Z) : option (list A) :=
  if (n <? 0) || (di <? 0) || (si <? 0) || (len dst <? di + n) || (len src <? si + n) then None
  else Some (take (Z.to_nat di) dst ++ slice src si n ++ drop (Z.to_nat (di + n)) dst).

Lemma aget_app p x q i : i = len p → aget (p ++ x :: q) i = Some x.
Proof.
  intros ->. unfold aget. destruct (Z.ltb_spec (len p) 0); [lia|]. rewrite Nat2Z.id. by apply list_lookup_middle.
Qed.

Lemma aget_Some l i : 0 <= i < len l → ∃ p x q, l = p ++ x :: q ∧ i = len p ∧ aget l i = Some x.
Proof.
  intros Hi. destruct (lookup_lt_is_Some_2 l (Z.to_nat i)) as [x Hx]; [lia|].
  exists (take (Z.to_nat i) l), x, (drop (S (Z.to_nat i)) l). rewrite take_drop_middle by done. split_and!; [done| |].
  - rewrite length_take. lia.
  - unfold aget. by destruct (Z.ltb_spec i 0); [lia|].
Qed.

Lemma aset_app p x q i v : i = len p → aset (p ++ x :: q) i v = Some (p ++ v :: q).
Proof.
  intros ->. unfold aset. rewrite length_app. cbn [length].
  destruct (Z.ltb_spec (len p) 0); [lia|]. destruct (Z.leb_spec (Z.of_nat (length p + S (length q))) (len p)); [lia|].
  simpl. rewrite Nat2Z.id. f_equal. rewrite insert_app_r_alt by lia. by rewrite Nat.sub_diag.
Qed.

Lemma slice_middle p s q i n : i = len p → n = len s → slice (p ++ s ++ q) i n = s.
Proof.
  intros -> ->. unfold slice. rewrite !Nat2Z.id, drop_app_length, take_app_length. done.
Qed.

Lemma acopy_app p h q a s b di si n : di = len p → n = len h → si = len a → n = len s →
  acopy (p ++ h ++ q) di (a ++ s ++ b) si n = Some (p ++ s ++ q).
Proof.
  intros Hd Hh Hs Hn. unfold acopy. rewrite !length_app.
  destruct (Z.ltb_spec n 0), (Z.ltb_spec di 0), (Z.ltb_spec si 0); try lia.
  destruct (Z.ltb_spec (Z.of_nat (length p + (length h + length q))) (di + n)); [lia|].
  destruct (Z.ltb_spec (Z.of_nat (length a + (length s + length b))) (si + n)); [lia|]. simpl.
  rewrite slice_middle by done. replace (Z.to_nat di) with (length p) by lia. rewrite take_app_length.
  replace (Z.to_nat (di + n)) with (length p + length h)%nat by lia. by rewrite drop_app_add, drop_app_length.
Qed.
Lemma aget_nat (l : list A) k : aget l (Z.of_nat k) = l !! k.
Proof. unfold aget. destruct (Z.ltb_spec (Z.of_nat k) 0); [lia|]. by rewrite Nat2Z.id. Qed.

Lemma aset_nat (l : list A) k x : (k < length l)%nat → aset l (Z.of_nat k) x = Some (<[k := x]> l).
Proof.
  intros Hk. unfold aset. destruct (Z.ltb_spec (Z.of_nat k) 0); [lia|].
  destruct (Z.leb_spec (len l) (Z.of_nat k)); [lia|]. simpl. by rewrite Nat2Z.id.
Qed.
End array.

(** ** i32 values

    Integers of [0, 2^32); signed comparisons read them as two's complement. *)

Definition add32 (x y : Z) : Z := to_uint32 (x + y).
Definition sub32 (x y : Z) : Z := to_uint32 (x - y).
Definition ge_s (x y : Z) : bool := to_int32 y <=? to_int32 x.
Definition gt_s (x y : Z) : bool := to_int32 y <? to_int32 x.
Definition mul32 (x y : Z) : Z := to_uint32 (x * y).

Lemma add32_id x y : 0 <= x + y < 2 ^ 32 → add32 x y = x + y.
Proof. apply to_uint32_id. Qed.
Lemma sub32_id x y : 0 <= x - y < 2 ^ 32 → sub32 x y = x - y.
Proof. apply to_uint32_id. Qed.
Lemma mul32_id x y : 0 <= x * y < 2 ^ 32 → mul32 x y = x * y.
Proof. apply to_uint32_id. Qed.

Lemma ge_s_small x y : 0 <= x < 2 ^ 31 → 0 <= y < 2 ^ 31 → ge_s x y = (y <=? x).
Proof. intros Hx Hy. unfold ge_s. by rewrite !to_int32_id by lia. Qed.
Lemma gt_s_small x y : 0 <= x < 2 ^ 31 → 0 <= y < 2 ^ 31 → gt_s x y = (y <? x).
Proof. intros Hx Hy. unfold gt_s. by rewrite !to_int32_id by lia. Qed.

(** ** The monad *)

(** How a computation ends: with a value, by [return r], in a trap, or with
    its loop fuel used up. *)
Inductive out (A : Type) : Type :=
  | Val (a : A)
  | Ret (r : Z)
  | Trap
  | NoFuel.
Arguments Val {A} a.
Arguments Ret {A} r.
Arguments Trap {A}.
Arguments NoFuel {A}.

Definition M (σ A : Type) : Type := σ → out A * σ.

Section monad.
Context {σ : Type}.

Definition mret {A} (a : A) : M σ A := λ s, (Val a, s).
Definition mbind {A B} (m : M σ A) (k : A → M σ B) : M σ B :=
  λ s, match m s with
       | (Val a, s') => k a s'
       | (Ret r, s') => (Ret r, s')
       | (Trap, s') => (Trap, s')
       | (NoFuel, s') => (NoFuel, s')
       end.
(** [return r] *)
Definition return_ {A} (r : Z) : M σ A := λ s, (Ret r, s).
Definition trap {A} : M σ A := λ s, (Trap, s).
(** The body of a function: its [return]s give the call's value. *)
Definition fn (m : M σ Z) : M σ Z := λ s, match m s with (Ret r, s') => (Val r, s') | o => o end.

Definition of_option {A} (o : option A) : M σ A := match o with Some a => mret a | None => trap end.

(** A loop: [inl] goes round again, [inr] leaves. *)
Fixpoint loop {V R} (fuel : nat) (body : V → M σ (V + R)) (v : V) : M σ R :=
  match fuel with
  | O => λ s, (NoFuel, s)
  | S fuel => mbind (body v) (λ r, match r with inl v' => loop fuel body v' | inr r => mret r end)
  end.

(** ** Weakest preconditions *)

(** [Q] holds of the value computed, [R] of the value returned; no trap, and
    the fuel suffices. *)
Definition wp {A} (m : M σ A) (Q : A → σ → Prop) (R : Z → σ → Prop) (s : σ) : Prop :=
  match m s with
  | (Val a, s') => Q a s'
  | (Ret r, s') => R r s'
  | (Trap, _) | (NoFuel, _) => False
  end.

Lemma wp_mret {A} (a : A) (Q : A → σ → Prop) R s : Q a s → wp (mret a) Q R s.
Proof. done. Qed.

Lemma wp_return {A} r (Q : A → σ → Prop) (R : Z → σ → Prop) s : R r s → wp (return_ r) Q R s.
Proof. done. Qed.

Lemma wp_bind {A B} (m : M σ A) (k : A → M σ B) Q R s : wp m (λ a s', wp (k a) Q R s') R s → wp (mbind m k) Q R s.
Proof. unfold wp, mbind. by destruct (m s) as [[]]. Qed.

Lemma wp_bind_inv {A B} (m : M σ A) (k : A → M σ B) Q R s : wp (mbind m k) Q R s → wp m (λ a s', wp (k a) Q R s') R s.
Proof. unfold wp, mbind. by destruct (m s) as [[]]. Qed.

(** A program that never returns early runs to a value. *)
Lemma wp_run {A} (m : M σ A) Q s : wp m Q (λ _ _, False) s → ∃ a s', m s = (Val a, s') ∧ Q a s'.
Proof. unfold wp. destruct (m s) as [[] s']; [eauto|done..]. Qed.

(** Reassociation, so that a rule about two consecutive commands applies. *)
Lemma wp_assoc {A B C} (m : M σ A) (k : A → M σ B) (k' : B → M σ C) (Q : C → σ → Prop) R s :
  wp (mbind m (λ a, mbind (k a) k')) Q R s = wp (mbind (mbind m k) k') Q R s.
Proof. unfold wp, mbind. by destruct (m s) as [[]]. Qed.

Lemma wp_mono {A} (m : M σ A) (Q Q' : A → σ → Prop) (R R' : Z → σ → Prop) s :
  wp m Q R s → (∀ a s', Q a s' → Q' a s') → (∀ r s', R r s' → R' r s') → wp m Q' R' s.
Proof. unfold wp. destruct (m s) as [[]]; auto. Qed.

(** A call: whichever way its body ends, the result is a value. *)
Lemma wp_fn m (Q R : Z → σ → Prop) s : wp m Q Q s → wp (fn m) Q R s.
Proof. unfold wp, fn. by destruct (m s) as [[]]. Qed.

Lemma wp_of_option {A} (o : option A) a (Q : A → σ → Prop) R s : o = Some a → Q a s → wp (of_option o) Q R s.
Proof. by intros ->. Qed.

(** Loops by an invariant and a measure that stays below the fuel; the measure
    may look at the state. *)
Lemma wp_loop_st {V B} (I : V → σ → Prop) (μ : V → σ → Z) fuel (body : V → M σ (V + B)) v Q R s :
  I v s → (0 <= μ v s < Z.of_nat fuel) →
  (∀ v s, I v s → 0 <= μ v s →
     wp (body v) (λ r s', match r with inl v' => I v' s' ∧ 0 <= μ v' s' < μ v s | inr b => Q b s' end) R s) →
  wp (loop fuel body v) Q R s.
Proof.
  intros Hi Hf Hb. revert v s Hi Hf. induction fuel as [|fuel IH]; intros v s Hi Hf; [lia|]. simpl.
  apply wp_bind. eapply wp_mono; [apply Hb; [done|lia]| |done].
  intros [v'|b] s' H; simpl; [apply IH; [apply H|lia]|done].
Qed.

Lemma wp_loop {V B} (I : V → σ → Prop) (μ : V → Z) fuel (body : V → M σ (V + B)) v Q R s :
  I v s → (0 <= μ v < Z.of_nat fuel) →
  (∀ v s, I v s → 0 <= μ v →
     wp (body v) (λ r s', match r with inl v' => I v' s' ∧ 0 <= μ v' < μ v | inr b => Q b s' end) R s) →
  wp (loop fuel body v) Q R s.
Proof. apply (wp_loop_st I (λ v _, μ v)). Qed.
End monad.

Declare Scope arr_scope.
Delimit Scope arr_scope with arr.
Notation "x '<-' m ';;' k" := (mbind m (λ x, k)) (at level 100, m at next level, k at level 200, right associativity) : arr_scope.
Notation "' p '<-' m ';;' k" := (mbind m (λ x, match x with p => k end))
  (at level 100, p pattern, m at next level, k at level 200, right associativity) : arr_scope.
Notation "m ';;;' k" := (mbind m (λ _, k)) (at level 100, k at level 200, right associativity) : arr_scope.
