(* ===== verification/StableMerge.v ===== *)
(** * Stable merging and sorting of lists

    The reference the array sorts are proved against: the stable merge of two
    lists under a strict weak order, the relation between a list and its
    stable reorderings, and the fact that a sorted stable reordering is unique,
    so that any algorithm that produces one computes [stable_sort]. *)

From S2P Require Import Prelude.
From stdpp Require Import sorting.

Section order.
Context {E : Type} (lt : E → E → bool).
Implicit Types A B l : list E.

(** A comparison a sort can rely on. *)
Record strict_weak : Prop := {
  lt_asym x y : lt x y = true → lt y x = false;
  lt_cotrans x y z : lt x z = true → lt x y = true ∨ lt y z = true
}.

Definition le x y : Prop := lt y x = false.
Definition eqv x y : bool := negb (lt x y) && negb (lt y x).
Definition sorted l : Prop := StronglySorted le l.

(** Elements of [B] go first only when strictly smaller. *)
Fixpoint merge A : list E → list E :=
  fix go B :=
    match A, B with
    | [], _ => B
    | _, [] => A
    | a :: A', b :: B' => if lt b a then b :: go B' else a :: merge A' B
    end.

(** The insertion sort that puts an element after its equals. *)
Definition stable_sort l : list E := foldl (λ acc x, merge acc [x]) [] l.

(** [l'] reorders [l] keeping the elements of every equivalence class in order. *)
Definition stably l l' : Prop := ∀ x, List.filter (eqv x) l = List.filter (eqv x) l'.

(** ** Merging *)

Lemma merge_nil_l B : merge [] B = B.
Proof. by destruct B. Qed.
Lemma merge_nil_r A : merge A [] = A.
Proof. by destruct A. Qed.
Lemma merge_cons a A b B : merge (a :: A) (b :: B) = if lt b a then b :: merge (a :: A) B else a :: merge A (b :: B).
Proof. done. Qed.

Lemma merge_perm A B : merge A B ≡ₚ A ++ B.
Proof.
  revert B. induction A as [|a A IHA]; intros B; [by rewrite merge_nil_l|].
  induction B as [|b B IHB]; [by rewrite merge_nil_r, app_nil_r|].
  rewrite merge_cons. destruct (lt b a).
  - rewrite IHB. apply Permutation_middle.
  - by rewrite IHA.
Qed.

Lemma merge_length A B : length (merge A B) = (length A + length B)%nat.
Proof. by rewrite merge_perm, length_app. Qed.

(** The head of [A] that no element of [B] precedes. *)
Lemma merge_app_l A1 A2 B : (∀ a b, a ∈ A1 → b ∈ B → lt b a = false) → merge (A1 ++ A2) B = A1 ++ merge A2 B.
Proof.
  induction A1 as [|a A1 IH]; intros H; [done|]. simpl app. destruct B as [|b B]; [by rewrite !merge_nil_r|].
  rewrite merge_cons, (H a b) by (left || left). rewrite IH; [done|]. intros; apply H; [by right|done].
Qed.

Lemma merge_le A B : (∀ a b, a ∈ A → b ∈ B → lt b a = false) → merge A B = A ++ B.
Proof. intros H. rewrite <- (app_nil_r A) at 1. rewrite merge_app_l by done. by rewrite merge_nil_l. Qed.

(** The head of [B] that precedes every element of [A]. *)
Lemma merge_app_r A B1 B2 : (∀ a b, a ∈ A → b ∈ B1 → lt b a = true) → merge A (B1 ++ B2) = B1 ++ merge A B2.
Proof.
  intros H. destruct A as [|a A]; [by rewrite !merge_nil_l|].
  induction B1 as [|b B1 IH]; [done|]. simpl app. rewrite merge_cons, (H a b) by (left || left). f_equal. apply IH.
  intros; apply H; [done|by right].
Qed.

(** The tail of [A] that every element of [B] precedes. *)
Lemma merge_snoc_l A1 A2 B : (∀ a b, a ∈ A2 → b ∈ B → lt b a = true) → merge (A1 ++ A2) B = merge A1 B ++ A2.
Proof.
  intros H. revert B H. induction A1 as [|a A1 IHA]; intros B H.
  - rewrite merge_nil_l. rewrite <- (app_nil_r B) at 1. simpl app. rewrite merge_app_r by done. by rewrite merge_nil_r.
  - induction B as [|b B IHB]; [by rewrite !merge_nil_r|]. simpl app. rewrite !merge_cons. destruct (lt b a); simpl; f_equal.
    + apply IHB. intros; apply H; [done|by right].
    + by apply IHA.
Qed.

(** The tail of [B] that no element of [A] follows. *)
Lemma merge_snoc_r A B1 B2 : (∀ a b, a ∈ A → b ∈ B2 → lt b a = false) → merge A (B1 ++ B2) = merge A B1 ++ B2.
Proof.
  revert B1. induction A as [|a A IHA]; intros B1 H; [by rewrite !merge_nil_l|].
  induction B1 as [|b B1 IHB].
  - rewrite merge_nil_r. by apply merge_le.
  - simpl app. rewrite !merge_cons. destruct (lt b a); simpl; f_equal; [apply IHB|].
    change (b :: B1 ++ B2) with ((b :: B1) ++ B2). apply IHA. intros; apply H; [by right|done].
Qed.

(** ** Stable reorderings *)

Lemma stably_refl l : stably l l.
Proof. done. Qed.
Lemma stably_trans l1 l2 l3 : stably l1 l2 → stably l2 l3 → stably l1 l3.
Proof. intros H1 H2 x. by rewrite H1. Qed.
Lemma stably_app l1 l1' l2 l2' : stably l1 l1' → stably l2 l2' → stably (l1 ++ l2) (l1' ++ l2').
Proof. intros H1 H2 x. by rewrite !List.filter_app, H1, H2. Qed.

Context (HO : strict_weak).

Lemma lt_irrefl x : lt x x = false.
Proof. destruct (lt x x) eqn:H; [|done]. pose proof (lt_asym HO x x H). congruence. Qed.

Lemma le_refl x : le x x.
Proof. apply lt_irrefl. Qed.
Lemma le_trans x y z : le x y → le y z → le x z.
Proof.
  unfold le. intros H1 H2. destruct (lt z x) eqn:H; [|done]. destruct (lt_cotrans HO z y x H); congruence.
Qed.
Lemma lt_le x y : lt x y = true → le x y.
Proof. apply lt_asym, HO. Qed.
Lemma le_lt_trans x y z : le x y → lt y z = true → lt x z = true.
Proof. intros H1 H2. destruct (lt_cotrans HO y x z H2) as [H|]; [unfold le in H1; congruence|done]. Qed.
Lemma lt_le_trans x y z : lt x y = true → le y z → lt x z = true.
Proof. intros H1 H2. destruct (lt_cotrans HO x z y H1) as [|H]; [done|unfold le in H2; congruence]. Qed.

Lemma eqv_refl x : eqv x x = true.
Proof. unfold eqv. by rewrite lt_irrefl. Qed.

Lemma sorted_app A B : sorted (A ++ B) ↔ sorted A ∧ sorted B ∧ (∀ a b, a ∈ A → b ∈ B → le a b).
Proof.
  unfold sorted. induction A as [|a A IH]; simpl.
  - split; [intros H; split_and!; [constructor|done|by intros ?? ?%elem_of_nil]|naive_solver].
  - split.
    + intros [H1 H2]%StronglySorted_inv. apply IH in H1 as (HA & HB & HAB). apply Forall_app in H2 as [H2 H3].
      rewrite Forall_forall in H3. split_and!; [by constructor|done|]. intros a' b [->|Ha]%elem_of_cons Hb; auto.
    + intros ([H1 H2]%StronglySorted_inv & HB & HAB). constructor.
      * apply IH. split_and!; [done|done|]. intros; apply HAB; [by right|done].
      * apply Forall_app. split; [done|]. apply Forall_forall. intros b Hb. apply HAB; [left|done].
Qed.

Lemma merge_sorted A B : sorted A → sorted B → sorted (merge A B).
Proof.
  revert B. induction A as [|a A IHA]; intros B HA HB; [by rewrite merge_nil_l|].
  induction B as [|b B IHB]; [by rewrite merge_nil_r|].
  rewrite merge_cons. apply StronglySorted_inv in HA as [SA FA], HB as [SB FB]. rewrite Forall_forall in FA, FB.
  destruct (lt b a) eqn:Hab; constructor; try (apply IHB || apply IHA); try done;
    try (constructor; [done|by apply Forall_forall]); apply Forall_forall; intros x Hx; rewrite merge_perm in Hx;
    apply elem_of_app in Hx as [Hx|Hx].
  - apply elem_of_cons in Hx as [->|Hx]; [by apply lt_le|]. apply le_trans with a; [by apply lt_le|auto].
  - auto.
  - auto.
  - apply elem_of_cons in Hx as [->|Hx]; [done|]. apply le_trans with b; [done|auto].
Qed.

(** Merging sorted lists is a stable reordering of their concatenation. *)
Lemma merge_stably A B : sorted A → stably (A ++ B) (merge A B).
Proof.
  revert B. induction A as [|a A IHA]; intros B HA; [by rewrite merge_nil_l|].
  induction B as [|b B IHB]; [by rewrite merge_nil_r, app_nil_r|].
  rewrite merge_cons. destruct (lt b a) eqn:Hab; intros x.
  - assert (Hno : eqv x b = true → List.filter (eqv x) (a :: A) = []).
    { intros Hx. apply StronglySorted_inv in HA as [_ FA]. rewrite Forall_forall in FA.
      assert (Hb : ∀ y, y ∈ a :: A → lt b y = true).
      { intros y [->|Hy]%elem_of_cons; [done|]. by apply (lt_le_trans b a y); [|apply FA]. }
      clear -HO Hx Hb. induction (a :: A) as [|y l IH]; [done|]. simpl. rewrite IH by (intros; apply Hb; by right).
      assert (eqv x y = false) as ->; [|done].
      unfold eqv in *. apply andb_true_iff in Hx as [H1%negb_true_iff H2%negb_true_iff].
      rewrite (le_lt_trans x b y); [done|exact H2|apply Hb; left]. }
    specialize (IHB x). rewrite List.filter_app in *. cbn [List.filter] in *. rewrite <- IHB.
    destruct (eqv x b) eqn:Exb; [|done]. specialize (Hno eq_refl). cbn [List.filter] in Hno. by rewrite Hno.
  - cbn [app List.filter]. assert (Hs : sorted A) by (by apply StronglySorted_inv in HA as [? _]).
    specialize (IHA (b :: B) Hs x). destruct (eqv x a); by rewrite IHA.
Qed.

Lemma stably_elem l l' x : stably l l' → x ∈ l → x ∈ l'.
Proof.
  intros H Hx. assert (Hf : x ∈ List.filter (eqv x) l').
  { rewrite <- (H x). apply list_elem_of_In, filter_In. split; [by apply list_elem_of_In|apply eqv_refl]. }
  by apply list_elem_of_In, filter_In in Hf as [?%list_elem_of_In _].
Qed.

(** A sorted stable reordering is unique. *)
Lemma stably_unique l l' : sorted l → sorted l' → stably l l' → l = l'.
Proof.
  revert l'. induction l as [|x l IH]; intros l' Sl Sl' H.
  - destruct l' as [|y l']; [done|]. assert (Hy : y ∈ []) by (apply (stably_elem (y :: l')); [by intros z; rewrite H|left]).
    by apply elem_of_nil in Hy.
  - destruct l' as [|y l'].
    { assert (Hx : x ∈ []) by (apply (stably_elem (x :: l)); [done|left]). by apply elem_of_nil in Hx. }
    apply StronglySorted_inv in Sl as [Sl Fl], Sl' as [Sl' Fl']. rewrite Forall_forall in Fl, Fl'.
    assert (Hyx : le x y).
    { assert (Hy : y ∈ x :: l) by (apply (stably_elem (y :: l')); [by intros z; rewrite H|left]).
      apply elem_of_cons in Hy as [->|Hy]; [apply le_refl|auto]. }
    assert (Hxy : le y x).
    { assert (Hx : x ∈ y :: l') by (apply (stably_elem (x :: l)); [done|left]).
      apply elem_of_cons in Hx as [->|Hx]; [apply le_refl|auto]. }
    assert (Exy : eqv x y = true) by (unfold eqv; unfold le in *; by rewrite Hxy, Hyx).
    assert (E0 : x = y).
    { pose proof (H x) as Hx. cbn [List.filter] in Hx. rewrite eqv_refl, Exy in Hx. by injection Hx. }
    subst y. f_equal. apply IH; try done. intros z. pose proof (H z) as Hz. cbn [List.filter] in Hz.
    destruct (eqv z x); [by injection Hz|done].
Qed.

Lemma stable_sort_spec l : sorted (stable_sort l) ∧ stably l (stable_sort l).
Proof.
  unfold stable_sort.
  assert (Hgen : ∀ acc, sorted acc → sorted (foldl (λ acc x, merge acc [x]) acc l) ∧ stably (acc ++ l) (foldl (λ acc x, merge acc [x]) acc l)).
  { induction l as [|x l IH]; intros acc Sa; simpl; [by rewrite app_nil_r|].
    destruct (IH (merge acc [x])) as [S1 S2]; [by apply merge_sorted; [|repeat constructor]|]. split; [done|].
    eapply stably_trans; [|exact S2]. change (x :: l) with ([x] ++ l). rewrite app_assoc.
    apply stably_app; [by apply merge_stably|done]. }
  apply (Hgen []). constructor.
Qed.

Lemma stable_sort_unique l l' : sorted l' → stably l l' → l' = stable_sort l.
Proof.
  intros S H. destruct (stable_sort_spec l) as [S1 H1]. apply stably_unique; try done. intros x. by rewrite <- H, H1.
Qed.
End order.
