(* ===== verification/TimSort.v ===== *)
(** * V8's array sorts: the C text

    src/packages/compiler/src/backend/wasm/timsort-src.ts, the text the array
    and typed-array sorts of every engine are compiled from: TimSort (runs,
    binary insertion, galloping merges, the pending-run stack), the
    typed-array merge sort, and the integer comparison of a default sort.
    Definitions only; TimSortSpec and the files after it hold the proofs. *)

From S2P Require Import Prelude F64 Arrays.

Open Scope arr_scope.

Definition kSuccess : Z := 0.
Definition kFailure : Z := -1.
Definition kMaxMergePending : Z := 85.
Definition kMinGallopWins : Z := 7.
Definition kStMinGallop : Z := 0.
Definition kStRunsSize : Z := 1.
Definition kStRuns : Z := 2.

(** The two element arrays a sort works on: the work array (a typed array's
    source) and the temporary one (a typed array's target). *)
Inductive arr := Work | Temp.

Section timsort.
Context {elem ctx : Type} `{Inhabited elem}.
(** The comparator and the pending-exception test of an instance; the
    comparator is user code and may have state. *)
Context (sort_compare : elem → elem → ctx → num * ctx) (sort_threw : ctx → bool).

Record mem := mkMem {
  m_work : list elem;
  m_temp : option (list elem);   (* null until allocated *)
  m_st : list Z;
  m_ctx : ctx
}.

Definition get_arr (a : arr) (s : mem) : option (list elem) := match a with Work => Some (m_work s) | Temp => m_temp s end.
Definition set_arr (a : arr) (l : list elem) (s : mem) : mem :=
  match a with
  | Work => mkMem l (m_temp s) (m_st s) (m_ctx s)
  | Temp => mkMem (m_work s) (Some l) (m_st s) (m_ctx s)
  end.

Definition MM := M mem.

(** [a[i]], [a[i] = x], [ea_copy(d, di, s, si, n)] *)
Definition ld (a : arr) (i : Z) : MM elem := λ s,
  match get_arr a s with
  | Some l => of_option (aget l i) s
  | None => (Trap, s)
  end.
Definition sto (a : arr) (i : Z) (x : elem) : MM unit := λ s,
  match get_arr a s with
  | Some l => match aset l i x with Some l' => (Val tt, set_arr a l' s) | None => (Trap, s) end
  | None => (Trap, s)
  end.
Definition ea_copy (d : arr) (di : Z) (a : arr) (si n : Z) : MM unit := λ s,
  match get_arr d s, get_arr a s with
  | Some ld, Some ls => match acopy ld di ls si n with Some l' => (Val tt, set_arr d l' s) | None => (Trap, s) end
  | _, _ => (Trap, s)
  end.
Definition ea_new (n : Z) : MM unit := λ s, (Val tt, mkMem (m_work s) (Some (replicate (Z.to_nat n) inhabitant)) (m_st s) (m_ctx s)).

Definition st_get (i : Z) : MM Z := λ s, of_option (aget (m_st s) i) s.
Definition st_set (i x : Z) : MM unit := λ s,
  match aset (m_st s) i x with Some l => (Val tt, mkMem (m_work s) (m_temp s) l (m_ctx s)) | None => (Trap, s) end.
Definition ia_new (n : Z) : MM unit := λ s, (Val tt, mkMem (m_work s) (m_temp s) (replicate (Z.to_nat n) 0) (m_ctx s)).

Definition RunBase (run : Z) : Z := kStRuns + Z.shiftl run 1.
Definition RunLength (run : Z) : Z := kStRuns + Z.shiftl run 1 + 1.

(** [COMPARE(order, x, y)] *)
Definition COMPARE (x y : elem) : MM num := λ s,
  let '(order, c) := sort_compare x y (m_ctx s) in
  let s' := mkMem (m_work s) (m_temp s) (m_st s) c in
  if sort_threw c then (Ret kFailure, s') else (Val order, s').

(** [order < 0], [order > 0] *)
Definition negative (order : num) : bool := num_lt order (Fin 0).
Definition positive (order : num) : bool := num_lt (Fin 0) order.

Definition fuel_of (n : Z) : nat := S (Z.to_nat n).

(** ** Runs *)

Definition PushRun (runBase length : Z) : MM Z := fn (
  stackSize <- st_get kStRunsSize ;;
  st_set (RunBase stackSize) runBase ;;;
  st_set (RunLength stackSize) length ;;;
  st_set kStRunsSize (stackSize + 1) ;;;
  return_ kSuccess).

Definition bis_search (pivot : elem) (lft rgt : Z) : MM Z :=
  loop (fuel_of (rgt - lft)) (λ '(lft, rgt),
    if lft <? rgt then
      let mid := lft + Z.shiftr (rgt - lft) 1 in
      y <- ld Work mid ;;
      order <- COMPARE pivot y ;;
      if negative order then mret (inl (lft, mid)) else mret (inl (mid + 1, rgt))
    else mret (inr lft)) (lft, rgt).

Definition BinaryInsertionSort (low startArg high : Z) : MM Z := fn (
  let start := if low =? startArg then startArg + 1 else startArg in
  loop (fuel_of (high - start)) (λ start,
    if start <? high then
      pivot <- ld Work start ;;
      lft <- bis_search pivot low start ;;
      ea_copy Work (lft + 1) Work lft (start - lft) ;;;
      sto Work lft pivot ;;;
      mret (inl (start + 1))
    else mret (inr tt)) start ;;;
  return_ kSuccess).

Definition ReverseRange (from to : Z) : MM Z := fn (
  loop (fuel_of (to - from)) (λ '(low, high),
    if low <? high then
      elementLow <- ld Work low ;;
      elementHigh <- ld Work high ;;
      sto Work low elementHigh ;;;
      sto Work high elementLow ;;;
      mret (inl (low + 1, high - 1))
    else mret (inr tt)) (from, to - 1) ;;;
  return_ kSuccess).

(** The extension loop of [CountAndMakeRun]: the final run length. *)
Definition run_loop (isDescending : bool) (idx high runLength : Z) (previousElement : elem) : MM Z :=
  loop (fuel_of (high - idx)) (λ '(idx, runLength, previousElement),
    if idx <? high then
      currentElement <- ld Work idx ;;
      order <- COMPARE currentElement previousElement ;;
      if (if isDescending : bool then negb (negative order) else negative order) then mret (inr runLength)
      else mret (inl (idx + 1, runLength + 1, currentElement))
    else mret (inr runLength)) (idx, runLength, previousElement).

Definition CountAndMakeRun (lowArg high : Z) : MM Z := fn (
  let low := lowArg + 1 in
  if low =? high then return_ 1
  else
    elementLow <- ld Work low ;;
    elementLowPred <- ld Work (low - 1) ;;
    order <- COMPARE elementLow elementLowPred ;;
    let isDescending := negative order in
    runLength <- run_loop isDescending (low + 1) high 2 elementLow ;;
    (if isDescending then r <- ReverseRange lowArg (lowArg + runLength) ;; mret tt else mret tt) ;;;
    return_ runLength).

(** ** Galloping *)

(** The exponential probe: [at_ offset] is probed while [offset < maxOfs],
    until [stop] of its comparison; the last two offsets. *)
Definition gallop (maxOfs : Z) (probe : Z → MM num) (stop : num → bool) : MM (Z * Z) :=
  loop (fuel_of maxOfs) (λ '(lastOfs, offset),
    if offset <? maxOfs then
      order <- probe offset ;;
      if stop order then mret (inr (lastOfs, offset))
      else
        let next := to_int32 (to_int32 (Z.shiftl offset 1) + 1) in
        mret (inl (offset, if next <=? 0 then maxOfs else next))
    else mret (inr (lastOfs, offset))) (0, 1).

(** The closing binary search; [goRight order] moves the lower end. *)
Definition gallop_search (probe : Z → MM num) (goRight : num → bool) (lastOfs offset : Z) : MM Z :=
  loop (fuel_of (offset - lastOfs)) (λ '(lastOfs, offset),
    if lastOfs <? offset then
      let m := lastOfs + Z.shiftr (offset - lastOfs) 1 in
      order <- probe m ;;
      if goRight order then mret (inl (m + 1, offset)) else mret (inl (lastOfs, m))
    else mret (inr offset)) (lastOfs, offset).

Definition GallopLeft (array : arr) (key : elem) (runBase length hint : Z) : MM Z := fn (
  baseHintElement <- ld array (runBase + hint) ;;
  order <- COMPARE baseHintElement key ;;
  '(lastOfs, offset) <-
    (if negative order then
       let maxOfs := length - hint in
       '(lastOfs, offset) <- gallop maxOfs
         (λ offset, offsetElement <- ld array (runBase + hint + offset) ;; COMPARE offsetElement key)
         (λ order, negb (negative order)) ;;
       let offset := if maxOfs <? offset then maxOfs else offset in
       mret (lastOfs + hint, offset + hint)
     else
       let maxOfs := hint + 1 in
       '(lastOfs, offset) <- gallop maxOfs
         (λ offset, offsetElement <- ld array (runBase + hint - offset) ;; COMPARE offsetElement key)
         negative ;;
       let offset := if maxOfs <? offset then maxOfs else offset in
       mret (hint - offset, hint - lastOfs)) ;;
  offset <- gallop_search (λ m, x <- ld array (runBase + m) ;; COMPARE x key) negative (lastOfs + 1) offset ;;
  return_ offset).

Definition GallopRight (array : arr) (key : elem) (runBase length hint : Z) : MM Z := fn (
  baseHintElement <- ld array (runBase + hint) ;;
  order <- COMPARE key baseHintElement ;;
  '(lastOfs, offset) <-
    (if negative order then
       let maxOfs := hint + 1 in
       '(lastOfs, offset) <- gallop maxOfs
         (λ offset, offsetElement <- ld array (runBase + hint - offset) ;; COMPARE key offsetElement)
         (λ order, negb (negative order)) ;;
       let offset := if maxOfs <? offset then maxOfs else offset in
       mret (hint - offset, hint - lastOfs)
     else
       let maxOfs := length - hint in
       '(lastOfs, offset) <- gallop maxOfs
         (λ offset, offsetElement <- ld array (runBase + hint + offset) ;; COMPARE key offsetElement)
         negative ;;
       let offset := if maxOfs <? offset then maxOfs else offset in
       mret (lastOfs + hint, offset + hint)) ;;
  offset <- gallop_search (λ m, x <- ld array (runBase + m) ;; COMPARE key x) (λ order, negb (negative order)) (lastOfs + 1) offset ;;
  return_ offset).

(** ** Merging *)

Inductive label := Succeed | CopyB | CopyA.

(** The local variables of a merge: [cur] is cursorB of MergeLow and cursorA
    of MergeHigh. *)
Record mvars := mkMV {
  dest : Z; cursorTemp : Z; cur : Z; lengthA : Z; lengthB : Z; nofWinsA : Z; nofWinsB : Z; minGallop : Z
}.

(** How a loop of a merge is left. *)
Inductive exit := Break (v : mvars) | Goto (l : label) (v : mvars).

(** The one-pair-at-a-time loop. *)
Definition low_straight (v : mvars) : MM exit :=
  loop (fuel_of (lengthA v + lengthB v)) (λ v,
    x <- ld Work (cur v) ;;
    y <- ld Temp (cursorTemp v) ;;
    order <- COMPARE x y ;;
    if negative order then
      (z <- ld Work (cur v) ;; sto Work (dest v) z) ;;;
      let v := mkMV (dest v + 1) (cursorTemp v) (cur v + 1) (lengthA v) (lengthB v - 1) 0 (nofWinsB v + 1) (minGallop v) in
      if lengthB v =? 0 then mret (inr (Goto Succeed v))
      else if minGallop v <=? nofWinsB v then mret (inr (Break v)) else mret (inl v)
    else
      (z <- ld Temp (cursorTemp v) ;; sto Work (dest v) z) ;;;
      let v := mkMV (dest v + 1) (cursorTemp v + 1) (cur v) (lengthA v - 1) (lengthB v) (nofWinsA v + 1) 0 (minGallop v) in
      if lengthA v =? 1 then mret (inr (Goto CopyB v))
      else if minGallop v <=? nofWinsA v then mret (inr (Break v)) else mret (inl v)) v.

(** One turn of the galloping loop: the elements of A that precede the head of
    B, that head, the elements of B that precede the head of A, that head.
    A part is skipped once the loop has been left. *)
Definition andThen (m : MM exit) (k : mvars → MM exit) : MM exit :=
  r <- m ;; match r with Break v => k v | Goto l v => mret (Goto l v) end.

Definition next_minGallop (mg : Z) : Z := if 1 <? mg - 1 then mg - 1 else 1.

Definition low_wins_A (v : mvars) : MM exit :=
  let mg := next_minGallop (minGallop v) in
  st_set kStMinGallop mg ;;;
  key <- ld Work (cur v) ;;
  winsA <- GallopRight Temp key (cursorTemp v) (lengthA v) 0 ;;
  if winsA <? 0 then return_ kFailure else
  if 0 <? winsA then
    ea_copy Work (dest v) Temp (cursorTemp v) winsA ;;;
    let v := mkMV (dest v + winsA) (cursorTemp v + winsA) (cur v) (lengthA v - winsA) (lengthB v) winsA (nofWinsB v) mg in
    if lengthA v =? 1 then mret (Goto CopyB v)
    else if lengthA v =? 0 then mret (Goto Succeed v) else mret (Break v)
  else mret (Break (mkMV (dest v) (cursorTemp v) (cur v) (lengthA v) (lengthB v) winsA (nofWinsB v) mg)).

Definition low_head_B (v : mvars) : MM exit :=
  (z <- ld Work (cur v) ;; sto Work (dest v) z) ;;;
  let v := mkMV (dest v + 1) (cursorTemp v) (cur v + 1) (lengthA v) (lengthB v - 1) (nofWinsA v) (nofWinsB v) (minGallop v) in
  if lengthB v =? 0 then mret (Goto Succeed v) else mret (Break v).

Definition low_wins_B (v : mvars) : MM exit :=
  key <- ld Temp (cursorTemp v) ;;
  winsB <- GallopLeft Work key (cur v) (lengthB v) 0 ;;
  if winsB <? 0 then return_ kFailure else
  if 0 <? winsB then
    ea_copy Work (dest v) Work (cur v) winsB ;;;
    let v := mkMV (dest v + winsB) (cursorTemp v) (cur v + winsB) (lengthA v) (lengthB v - winsB) (nofWinsA v) winsB (minGallop v) in
    if lengthB v =? 0 then mret (Goto Succeed v) else mret (Break v)
  else mret (Break (mkMV (dest v) (cursorTemp v) (cur v) (lengthA v) (lengthB v) (nofWinsA v) winsB (minGallop v))).

Definition low_head_A (v : mvars) : MM exit :=
  (z <- ld Temp (cursorTemp v) ;; sto Work (dest v) z) ;;;
  let v := mkMV (dest v + 1) (cursorTemp v + 1) (cur v) (lengthA v - 1) (lengthB v) (nofWinsA v) (nofWinsB v) (minGallop v) in
  if lengthA v =? 1 then mret (Goto CopyB v) else mret (Break v).

Definition low_gallop_body (v : mvars) : MM exit :=
  andThen (low_wins_A v) (λ v, andThen (low_head_B v) (λ v, andThen (low_wins_B v) low_head_A)).

(** [while (nofWinsA >= kMinGallopWins || nofWinsB >= kMinGallopWins || firstIteration)] *)
Definition gallop_loop (body : mvars → MM exit) (v : mvars) : MM exit :=
  loop (fuel_of (lengthA v + lengthB v)) (λ '(firstIteration, v),
    if (kMinGallopWins <=? nofWinsA v) || (kMinGallopWins <=? nofWinsB v) || firstIteration then
      r <- body v ;;
      match r with Break v => mret (inl (false, v)) | Goto l v => mret (inr (Goto l v)) end
    else mret (inr (Break v))) (true, v).

(** The outer [for (;;)]: straight merging, then galloping. *)
Definition merge_loop (straight body : mvars → MM exit) (v : mvars) : MM exit :=
  loop (fuel_of (lengthA v + lengthB v)) (λ v,
    r <- straight (mkMV (dest v) (cursorTemp v) (cur v) (lengthA v) (lengthB v) 0 0 (minGallop v)) ;;
    match r with
    | Goto l v => mret (inr (Goto l v))
    | Break v =>
        r <- gallop_loop body (mkMV (dest v) (cursorTemp v) (cur v) (lengthA v) (lengthB v) (nofWinsA v) (nofWinsB v) (minGallop v + 1)) ;;
        match r with
        | Goto l v => mret (inr (Goto l v))
        | Break v =>
            let mg := minGallop v + 1 in
            st_set kStMinGallop mg ;;;
            mret (inl (mkMV (dest v) (cursorTemp v) (cur v) (lengthA v) (lengthB v) (nofWinsA v) (nofWinsB v) mg))
        end
    end) v.

Definition low_finish (e : exit) : MM Z :=
  match e with
  | Goto CopyB v =>
      ea_copy Work (dest v) Work (cur v) (lengthB v) ;;;
      x <- ld Temp (cursorTemp v) ;;
      sto Work (dest v + lengthB v) x ;;;
      return_ kSuccess
  | Goto _ v | Break v =>
      (if 0 <? lengthA v then ea_copy Work (dest v) Temp (cursorTemp v) (lengthA v) else mret tt) ;;;
      return_ kSuccess
  end.

Definition MergeLow (baseA lengthA baseB lengthB : Z) : MM Z := fn (
  ea_copy Temp 0 Work baseA lengthA ;;;
  x <- ld Work baseB ;;
  sto Work baseA x ;;;
  let v mg := mkMV (baseA + 1) 0 (baseB + 1) lengthA (lengthB - 1) 0 0 mg in
  if lengthB - 1 =? 0 then low_finish (Goto Succeed (v 0))
  else if lengthA =? 1 then low_finish (Goto CopyB (v 0))
  else
    mg <- st_get kStMinGallop ;;
    e <- merge_loop low_straight low_gallop_body (v mg) ;;
    low_finish e).

Definition high_straight (v : mvars) : MM exit :=
  loop (fuel_of (lengthA v + lengthB v)) (λ v,
    x <- ld Temp (cursorTemp v) ;;
    y <- ld Work (cur v) ;;
    order <- COMPARE x y ;;
    if negative order then
      (z <- ld Work (cur v) ;; sto Work (dest v) z) ;;;
      let v := mkMV (dest v - 1) (cursorTemp v) (cur v - 1) (lengthA v - 1) (lengthB v) (nofWinsA v + 1) 0 (minGallop v) in
      if lengthA v =? 0 then mret (inr (Goto Succeed v))
      else if minGallop v <=? nofWinsA v then mret (inr (Break v)) else mret (inl v)
    else
      (z <- ld Temp (cursorTemp v) ;; sto Work (dest v) z) ;;;
      let v := mkMV (dest v - 1) (cursorTemp v - 1) (cur v) (lengthA v) (lengthB v - 1) 0 (nofWinsB v + 1) (minGallop v) in
      if lengthB v =? 1 then mret (inr (Goto CopyA v))
      else if minGallop v <=? nofWinsB v then mret (inr (Break v)) else mret (inl v)) v.

Definition high_wins_A (baseA : Z) (v : mvars) : MM exit :=
  let mg := next_minGallop (minGallop v) in
  st_set kStMinGallop mg ;;;
  key <- ld Temp (cursorTemp v) ;;
  k <- GallopRight Work key baseA (lengthA v) (lengthA v - 1) ;;
  if k <? 0 then return_ kFailure else
  let winsA := lengthA v - k in
  if 0 <? winsA then
    let d := dest v - winsA in
    let c := cur v - winsA in
    ea_copy Work (d + 1) Work (c + 1) winsA ;;;
    let v := mkMV d (cursorTemp v) c (lengthA v - winsA) (lengthB v) winsA (nofWinsB v) mg in
    if lengthA v =? 0 then mret (Goto Succeed v) else mret (Break v)
  else mret (Break (mkMV (dest v) (cursorTemp v) (cur v) (lengthA v) (lengthB v) winsA (nofWinsB v) mg)).

Definition high_head_B (v : mvars) : MM exit :=
  (z <- ld Temp (cursorTemp v) ;; sto Work (dest v) z) ;;;
  let v := mkMV (dest v - 1) (cursorTemp v - 1) (cur v) (lengthA v) (lengthB v - 1) (nofWinsA v) (nofWinsB v) (minGallop v) in
  if lengthB v =? 1 then mret (Goto CopyA v) else mret (Break v).

Definition high_wins_B (v : mvars) : MM exit :=
  key <- ld Work (cur v) ;;
  k <- GallopLeft Temp key 0 (lengthB v) (lengthB v - 1) ;;
  if k <? 0 then return_ kFailure else
  let winsB := lengthB v - k in
  if 0 <? winsB then
    let d := dest v - winsB in
    let c := cursorTemp v - winsB in
    ea_copy Work (d + 1) Temp (c + 1) winsB ;;;
    let v := mkMV d c (cur v) (lengthA v) (lengthB v - winsB) (nofWinsA v) winsB (minGallop v) in
    if lengthB v =? 1 then mret (Goto CopyA v)
    else if lengthB v =? 0 then mret (Goto Succeed v) else mret (Break v)
  else mret (Break (mkMV (dest v) (cursorTemp v) (cur v) (lengthA v) (lengthB v) (nofWinsA v) winsB (minGallop v))).

Definition high_head_A (v : mvars) : MM exit :=
  (z <- ld Work (cur v) ;; sto Work (dest v) z) ;;;
  let v := mkMV (dest v - 1) (cursorTemp v) (cur v - 1) (lengthA v - 1) (lengthB v) (nofWinsA v) (nofWinsB v) (minGallop v) in
  if lengthA v =? 0 then mret (Goto Succeed v) else mret (Break v).

Definition high_gallop_body (baseA : Z) (v : mvars) : MM exit :=
  andThen (high_wins_A baseA v) (λ v, andThen (high_head_B v) (λ v, andThen (high_wins_B v) high_head_A)).

Definition high_finish (e : exit) : MM Z :=
  match e with
  | Goto CopyA v =>
      let d := dest v - lengthA v in
      let c := cur v - lengthA v in
      ea_copy Work (d + 1) Work (c + 1) (lengthA v) ;;;
      x <- ld Temp (cursorTemp v) ;;
      sto Work d x ;;;
      return_ kSuccess
  | Goto _ v | Break v =>
      (if 0 <? lengthB v then ea_copy Work (dest v - (lengthB v - 1)) Temp 0 (lengthB v) else mret tt) ;;;
      return_ kSuccess
  end.

Definition MergeHigh (baseA lengthA baseB lengthB : Z) : MM Z := fn (
  ea_copy Temp 0 Work baseB lengthB ;;;
  x <- ld Work (baseA + lengthA - 1) ;;
  sto Work (baseB + lengthB - 1) x ;;;
  let v mg := mkMV (baseB + lengthB - 2) (lengthB - 1) (baseA + lengthA - 2) (lengthA - 1) lengthB 0 0 mg in
  if lengthA - 1 =? 0 then high_finish (Goto Succeed (v 0))
  else if lengthB =? 1 then high_finish (Goto CopyA (v 0))
  else
    mg <- st_get kStMinGallop ;;
    e <- merge_loop high_straight (high_gallop_body baseA) (v mg) ;;
    high_finish e).

(** ** The pending-run stack *)

Definition MergeAt (i : Z) : MM Z := fn (
  stackSize <- st_get kStRunsSize ;;
  baseA <- st_get (RunBase i) ;;
  lengthA <- st_get (RunLength i) ;;
  baseB <- st_get (RunBase (i + 1)) ;;
  lengthB <- st_get (RunLength (i + 1)) ;;
  st_set (RunLength i) (lengthA + lengthB) ;;;
  (if i =? stackSize - 3 then
     runBase <- st_get (RunBase (i + 2)) ;;
     length <- st_get (RunLength (i + 2)) ;;
     st_set (RunBase (i + 1)) runBase ;;;
     st_set (RunLength (i + 1)) length
   else mret tt) ;;;
  st_set kStRunsSize (stackSize - 1) ;;;
  keyRight <- ld Work baseB ;;
  k <- GallopRight Work keyRight baseA lengthA 0 ;;
  if k <? 0 then return_ kFailure else
  let baseA := baseA + k in
  let lengthA := lengthA - k in
  if lengthA =? 0 then return_ kSuccess else
  keyLeft <- ld Work (baseA + lengthA - 1) ;;
  lengthB <- GallopLeft Work keyLeft baseB lengthB (lengthB - 1) ;;
  if lengthB <? 0 then return_ kFailure else
  if lengthB =? 0 then return_ kSuccess else
  r <- (if lengthA <=? lengthB then MergeLow baseA lengthA baseB lengthB else MergeHigh baseA lengthA baseB lengthB) ;;
  return_ r).

(** The shift loop of [ComputeMinRunLength]; [n] halves, so 32 turns suffice
    for an int. *)
Definition ComputeMinRunLength (nArg : Z) : MM Z := fn (
  '(n, r) <- loop (fuel_of (Z.log2 nArg)) (λ '(n, r),
    if 64 <=? n then mret (inl (Z.shiftr n 1, Z.lor r (Z.land n 1))) else mret (inr (n, r))) (nArg, 0) ;;
  return_ (n + r)).

Definition RunInvariantEstablished (n : Z) : MM Z := fn (
  if n <? 2 then return_ 1 else
  runLengthN <- st_get (RunLength n) ;;
  runLengthNM <- st_get (RunLength (n - 1)) ;;
  runLengthNMM <- st_get (RunLength (n - 2)) ;;
  return_ (if runLengthNM + runLengthN <? runLengthNMM then 1 else 0)).

(** [!RunInvariantEstablished(st, n + 1) || !RunInvariantEstablished(st, n)],
    short-circuiting. *)
Definition invariant_broken (n : Z) : MM bool :=
  a <- RunInvariantEstablished (n + 1) ;;
  if a =? 0 then mret true else b <- RunInvariantEstablished n ;; mret (b =? 0).

Definition MergeCollapse : MM Z := fn (
  loop (fuel_of kMaxMergePending) (λ _,
    size <- st_get kStRunsSize ;;
    if 1 <? size then
      let n := size - 2 in
      broken <- invariant_broken n ;;
      if broken : bool then
        below <- st_get (RunLength (n - 1)) ;;
        above <- st_get (RunLength (n + 1)) ;;
        r <- MergeAt (if below <? above then n - 1 else n) ;;
        if r <? 0 then return_ kFailure else mret (inl tt)
      else
        here <- st_get (RunLength n) ;;
        above <- st_get (RunLength (n + 1)) ;;
        if here <=? above then r <- MergeAt n ;; if r <? 0 then return_ kFailure else mret (inl tt)
        else mret (inr tt)
    else mret (inr tt)) tt ;;;
  return_ kSuccess).

Definition MergeForceCollapse : MM Z := fn (
  loop (fuel_of kMaxMergePending) (λ _,
    size <- st_get kStRunsSize ;;
    if 1 <? size then
      let n := size - 2 in
      n <- (if 0 <? n then
              below <- st_get (RunLength (n - 1)) ;;
              above <- st_get (RunLength (n + 1)) ;;
              mret (if below <? above then n - 1 else n)
            else mret n) ;;
      r <- MergeAt n ;;
      if r <? 0 then return_ kFailure else mret (inl tt)
    else mret (inr tt)) tt ;;;
  return_ kSuccess).

Definition ArrayTimSortImpl (length : Z) : MM Z := fn (
  if length <? 2 then return_ kSuccess else
  ia_new (kStRuns + 2 * kMaxMergePending) ;;;
  st_set kStMinGallop kMinGallopWins ;;;
  minRunLength <- ComputeMinRunLength length ;;
  loop (fuel_of length) (λ '(low, remaining),
    if remaining =? 0 then mret (inr tt) else
    currentRunLength <- CountAndMakeRun low (low + remaining) ;;
    if currentRunLength <? 0 then return_ kFailure else
    currentRunLength <-
      (if currentRunLength <? minRunLength then
         let forcedRunLength := if minRunLength <? remaining then minRunLength else remaining in
         r <- BinaryInsertionSort low (low + currentRunLength) (low + forcedRunLength) ;;
         if r <? 0 then return_ kFailure else mret forcedRunLength
       else mret currentRunLength) ;;
    (if (low =? 0) && (currentRunLength <? remaining) then ea_new (Z.shiftr length 1 + 1) else mret tt) ;;;
    r <- PushRun low currentRunLength ;;
    r <- MergeCollapse ;;
    if r <? 0 then return_ kFailure else
    mret (inl (low + currentRunLength, remaining - currentRunLength))) (0, length) ;;;
  r <- MergeForceCollapse ;;
  return_ r).

(** The classification of an element: 0 an element, 1 undefined, else a hole.
    The copy loop of [ArrayTimSort] over [src], with [counts]. *)
Definition compact (elem_class : elem → Z) (src : list elem) : MM (Z * (Z * Z)) :=
  loop (fuel_of (len src)) (λ '(i, k, (c0, c1)),
    if i <? len src then
      element <- of_option (aget src i) ;;
      let cls := elem_class element in
      if cls =? 0 then sto Work k element ;;; mret (inl (i + 1, k + 1, (c0, c1)))
      else if cls =? 1 then mret (inl (i + 1, k, (c0 + 1, c1)))
      else mret (inl (i + 1, k, (c0, c1 + 1)))
    else mret (inr (k, (c0, c1)))) (0, 0, (0, 0)).

(** The count of sorted elements and [counts]: undefineds and holes. *)
Definition ArrayTimSort (elem_class : elem → Z) (src : list elem) : MM (Z * (Z * Z)) :=
  '(k, counts) <- compact elem_class src ;;
  r <- ArrayTimSortImpl k ;;
  mret (if r <? 0 then kFailure else k, counts).

(** ** The typed-array merge sort *)

Definition other (a : arr) : arr := match a with Work => Temp | Temp => Work end.

Definition TypedArrayMerge (source : arr) (from middle to : Z) : MM Z := fn (
  loop (fuel_of (to - from)) (λ '(lft, rgt, targetIndex),
    if targetIndex <? to then
      if (lft <? middle) && (to <=? rgt) then
        x <- ld source lft ;; sto (other source) targetIndex x ;;; mret (inl (lft + 1, rgt, targetIndex + 1))
      else if lft <? middle then
        leftElement <- ld source lft ;;
        rightElement <- ld source rgt ;;
        order <- COMPARE leftElement rightElement ;;
        if negb (positive order) then sto (other source) targetIndex leftElement ;;; mret (inl (lft + 1, rgt, targetIndex + 1))
        else sto (other source) targetIndex rightElement ;;; mret (inl (lft, rgt + 1, targetIndex + 1))
      else
        x <- ld source rgt ;; sto (other source) targetIndex x ;;; mret (inl (lft, rgt + 1, targetIndex + 1))
    else mret (inr tt)) (from, middle, from) ;;;
  return_ kSuccess).

(** The recursion halves [to - from]; [fuel] bounds its depth. *)
Fixpoint TypedArrayMergeSort (fuel : nat) (source : arr) (from to : Z) : MM Z :=
  match fuel with
  | O => λ s, (NoFuel, s)
  | S fuel => fn (
      let middle := from + Z.shiftr (to - from) 1 in
      (if 1 <? middle - from then r <- TypedArrayMergeSort fuel (other source) from middle ;; if r <? 0 then return_ kFailure else mret tt
       else mret tt) ;;;
      (if 1 <? to - middle then r <- TypedArrayMergeSort fuel (other source) middle to ;; if r <? 0 then return_ kFailure else mret tt
       else mret tt) ;;;
      r <- TypedArrayMerge source from middle to ;;
      return_ r)
  end.
End timsort.

(** ** The default sort's integer comparison *)

Definition uint64 (x : Z) : Z := x mod 2 ^ 64.

Fixpoint digits_loop (fuel : nat) (x digits : Z) : option Z :=
  match fuel with
  | O => None
  | S fuel => if 10 <=? x then digits_loop fuel (x / 10) (digits + 1) else Some digits
  end.
(** A uint64 has at most 20 digits. *)
Definition NumberOfDigits (x : Z) : option Z := digits_loop 21 x 1.

(** [for (int i = a; i < b; ++i) u = u * 10] *)
Definition scale (u a b : Z) : Z := Nat.iter (Z.to_nat (b - a)) (λ u, uint64 (u * 10)) u.

Definition SmiLexicographicCompare (x y : Z) : option Z :=
  if x =? y then Some 0
  else if (x <? 0) && (0 <=? y) then Some (-1)
  else if (0 <=? x) && (y <? 0) then Some 1
  else
    let ux := if x <? 0 then - x else x in
    let uy := if y <? 0 then - y else y in
    match NumberOfDigits ux, NumberOfDigits uy with
    | Some dx, Some dy =>
        let ux := scale ux dx dy in
        let uy := scale uy dy dx in
        if ux =? uy then Some (if dx <? dy then -1 else 1)
        else Some (if ux <? uy then -1 else 1)
    | _, _ => None
    end.
