(* ===== verification/TimSortSpec.v ===== *)
(** * Array sorts: comparisons, runs and galloping

    What every function of TimSort.v that does not merge guarantees.  Each
    specification holds for any comparator, consistent or not: no trap, enough
    loop fuel, and the elements only permuted; what needs a consistent
    comparator is stated under [consistent]. *)

From stdpp Require Import sorting.
From S2P Require Import Prelude F64 Arrays StableMerge TimSort.

Open Scope arr_scope.

Section spec.
Context {elem ctx : Type} `{Inhabited elem}.
Context (sort_compare : elem → elem → ctx → num * ctx) (sort_threw : ctx → bool) (lt : elem → elem → bool).

Notation mem := (mem (elem:=elem) (ctx:=ctx)).
Notation COMPARE := (COMPARE sort_compare sort_threw).

(** The comparator decides a strict weak order and never throws. *)
Definition consistent : Prop :=
  strict_weak lt ∧
  ∀ x y c, sort_threw (sort_compare x y c).2 = false ∧ negative (sort_compare x y c).1 = lt x y ∧
           positive (sort_compare x y c).1 = lt y x.

(** Some comparison throws. *)
Definition throws : Prop := ∃ x y c, sort_threw (sort_compare x y c).2 = true.

Lemma consistent_never_throws : consistent → throws → False.
Proof. intros [_ C] (x & y & c & E). destruct (C x y c) as [E' _]. congruence. Qed.

(** ** Memory operations *)

Implicit Types (w : list elem) (t : option (list elem)) (st : list Z) (c : ctx).

Lemma wp_COMPARE x y (Q : num → mem → Prop) R w t st c :
  (∀ o c', (consistent → negative o = lt x y ∧ positive o = lt y x) → Q o (mkMem w t st c')) →
  (∀ c', throws → R kFailure (mkMem w t st c')) →
  wp (COMPARE x y) Q R (mkMem w t st c).
Proof.
  intros HQ HR. unfold wp, TimSort.COMPARE. simpl. destruct (sort_compare x y c) as [o c'] eqn:E.
  destruct (sort_threw c') eqn:T.
  - apply HR. exists x, y, c. by rewrite E.
  - apply HQ. intros [_ HC]. specialize (HC x y c). rewrite E in HC. simpl in HC. naive_solver.
Qed.

Lemma wp_ld a i x l (Q : elem → mem → Prop) R s :
  get_arr a s = Some l → aget l i = Some x → Q x s → wp (ld a i) Q R s.
Proof. intros E1 E2 HQ. unfold wp, ld. by rewrite E1, E2. Qed.

Lemma wp_sto a i x l l' (Q : unit → mem → Prop) R s :
  get_arr a s = Some l → aset l i x = Some l' → Q tt (set_arr a l' s) → wp (sto a i x) Q R s.
Proof. intros E1 E2 HQ. unfold wp, sto. by rewrite E1, E2. Qed.

Lemma wp_ea_copy d di a si n ld ls l' (Q : unit → mem → Prop) R s :
  get_arr d s = Some ld → get_arr a s = Some ls → acopy ld di ls si n = Some l' → Q tt (set_arr d l' s) →
  wp (ea_copy d di a si n) Q R s.
Proof. intros E1 E2 E3 HQ. unfold wp, ea_copy. by rewrite E1, E2, E3. Qed.

Lemma wp_st_get i x (Q : Z → mem → Prop) R s : aget (m_st s) i = Some x → Q x s → wp (st_get i) Q R s.
Proof. intros E HQ. unfold wp, st_get. by rewrite E. Qed.

Lemma wp_st_set i x l' (Q : unit → mem → Prop) R w t st c :
  aset st i x = Some l' → Q tt (mkMem w t l' c) → wp (st_set i x) Q R (mkMem w t st c).
Proof. intros E HQ. unfold wp, st_set. simpl. by rewrite E. Qed.

Lemma get_arr_ctx a w t st c st' c' : get_arr a (mkMem w t st c) = get_arr a (mkMem w t st' c').
Proof. by destruct a. Qed.

(** Element [i] of a segment that starts at [base]. *)
Lemma aget_seg (p s q : list elem) base i : base = len p → 0 <= i < len s → aget (p ++ s ++ q) (base + i) = Some (s !!! Z.to_nat i).
Proof.
  intros -> Hi. destruct (aget_Some s i Hi) as (s1 & x & s2 & -> & -> & _).
  rewrite <- app_assoc, app_assoc. simpl. rewrite aget_app by (rewrite length_app; lia). f_equal.
  rewrite Nat2Z.id. by rewrite list_lookup_total_middle.
Qed.

Lemma elem_of_take_idx (l : list elem) k x : x ∈ take k l → ∃ i, (i < k)%nat ∧ (i < length l)%nat ∧ x = l !!! i.
Proof.
  intros (i & Hi)%list_elem_of_lookup. apply lookup_take_Some in Hi as [Hi Hk]. exists i.
  split_and!; [done|by apply lookup_lt_is_Some_1|]. symmetry. by apply list_lookup_total_correct.
Qed.

Lemma elem_of_drop_idx (l : list elem) k x : x ∈ drop k l → ∃ i, (k <= i)%nat ∧ (i < length l)%nat ∧ x = l !!! i.
Proof.
  intros (i & Hi)%list_elem_of_lookup. rewrite lookup_drop in Hi. exists (k + i)%nat.
  split_and!; [lia|by apply lookup_lt_is_Some_1|]. symmetry. by apply list_lookup_total_correct.
Qed.

Lemma sorted_idx (l : list elem) i j : strict_weak lt → sorted lt l → (i <= j)%nat → (j < length l)%nat → le lt (l !!! i) (l !!! j).
Proof.
  intros HO S Hij Hj. destruct (decide (i = j)) as [->|]; [by apply le_refl|].
  rewrite <- (take_drop j l) in S. apply sorted_app in S as (_ & _ & S). apply S.
  - apply list_elem_of_lookup. exists i. rewrite lookup_take_lt by lia. apply list_lookup_lookup_total_lt. lia.
  - apply list_elem_of_lookup. exists 0%nat. rewrite lookup_drop, Nat.add_0_r. by apply list_lookup_lookup_total_lt.
Qed.

(** ** Probing loops

    A probe reads and compares without changing the arrays; when [good] (a
    consistent comparator over a sorted run) its [test] answers [val] of the
    offset. *)

Section probing.
Context (good : Prop) (w : list elem) (t : option (list elem)) (st : list Z).

Definition probe_ok (probe : Z → MM num) (test : num → bool) (val : Z → bool) (lo hi : Z) : Prop :=
  ∀ o c (Q : num → mem → Prop) (R : Z → mem → Prop), lo <= o < hi →
    (∀ r c', (good → test r = val o) → Q r (mkMem w t st c')) →
    (∀ c', throws → R kFailure (mkMem w t st c')) → wp (probe o) Q R (mkMem w t st c).

Lemma probe_ok_ext probe test test' val lo hi : probe_ok probe test val lo hi → (∀ o, test' o = test o) → probe_ok probe test' val lo hi.
Proof.
  intros Hp Ht o c Q R Ho HQ HR. apply Hp; [done| |done]. intros r c' Hr. apply HQ. intros G. rewrite Ht. by apply Hr.
Qed.

Lemma wp_gallop maxOfs probe stop sv (Q : Z * Z → mem → Prop) (R : Z → mem → Prop) c :
  1 <= maxOfs < 2 ^ 31 → probe_ok probe stop sv 1 maxOfs →
  (∀ l o c', 0 <= l < maxOfs → l < o → (good → (l = 0 ∨ sv l = false) ∧ (o < maxOfs → sv o = true)) → Q (l, o) (mkMem w t st c')) →
  (∀ c', throws → R kFailure (mkMem w t st c')) →
  wp (gallop maxOfs probe stop) Q R (mkMem w t st c).
Proof.
  intros Hm Hp HQ HR. unfold gallop.
  apply (wp_loop (λ '(l, o) s, ∃ c', s = mkMem w t st c' ∧ 0 <= l < maxOfs ∧ l < o ∧ (good → l = 0 ∨ sv l = false))
    (λ '(l, o), Z.max 0 (maxOfs - o))).
  - exists c. split_and!; auto; lia.
  - unfold fuel_of. lia.
  - clear c. intros [l o] s (c & -> & Hl & Hlo & Hs) _. destruct (Z.ltb_spec o maxOfs).
    + apply wp_bind. apply Hp; [lia| |auto]. intros r c' Hr. destruct (stop r) eqn:E.
      * apply wp_mret. apply HQ; [lia|lia|]. intros C. split; [auto|]. intros _. by symmetry; apply Hr.
      * apply wp_mret. rewrite Z.shiftl_mul_pow2 by lia. change (2 ^ 1) with 2.
        set (next := to_int32 (to_int32 (o * 2) + 1)). set (o' := if next <=? 0 then maxOfs else next).
        assert (Ho : o < o').
        { subst o' next. pose proof (to_int32_range (to_int32 (o * 2) + 1)).
          destruct (Z.leb_spec (to_int32 (to_int32 (o * 2) + 1)) 0); [lia|].
          destruct (Z.le_gt_cases (2 ^ 31) (o * 2)).
          - unfold to_int32 in *. rewrite (Z.mod_eq (o * 2 + 2 ^ 31)) in * by lia.
            replace ((o * 2 + 2 ^ 31) / 2 ^ 32) with 1 in * by (apply (Z.div_unique _ _ _ (o * 2 - 2 ^ 31)); lia).
            rewrite Z.mod_small in * by lia. lia.
          - rewrite (to_int32_id (o * 2)), to_int32_id in * by lia. lia. }
        split; [|lia]. exists c'. split_and!; [done|lia|lia|lia|]. intros C. right. by symmetry; apply Hr.
    + apply wp_mret. apply HQ; [lia|lia|]. intros C. split; [auto|lia].
Qed.

(** The binary search for the point where [val] turns false. *)
Lemma wp_gallop_search probe goRight val n lo hi (Q : Z → mem → Prop) (R : Z → mem → Prop) c :
  0 <= lo <= hi → hi <= n → probe_ok probe goRight val 0 n →
  (good → (∀ i j, 0 <= i <= j → j < n → val j = true → val i = true) ∧
                (∀ i, 0 <= i < lo → val i = true) ∧ (∀ i, hi <= i < n → val i = false)) →
  (∀ k c', lo <= k <= hi → (good → (∀ i, 0 <= i < k → val i = true) ∧ (∀ i, k <= i < n → val i = false)) → Q k (mkMem w t st c')) →
  (∀ c', throws → R kFailure (mkMem w t st c')) →
  wp (gallop_search probe goRight lo hi) Q R (mkMem w t st c).
Proof.
  intros Hlo Hhi Hp Hv HQ HR. unfold gallop_search.
  apply (wp_loop (λ '(l, h) s, ∃ c', s = mkMem w t st c' ∧ lo <= l <= h ∧ h <= hi ∧
      (good → (∀ i, 0 <= i < l → val i = true) ∧ (∀ i, h <= i < n → val i = false))) (λ '(l, h), h - l)).
  - exists c. split_and!; auto; try lia. intros C. apply Hv, C.
  - unfold fuel_of. lia.
  - clear c. intros [l h] s (c & -> & Hl & Hh & Hs) _. destruct (Z.ltb_spec l h).
    + rewrite Z.shiftr_div_pow2 by lia. change (2 ^ 1) with 2. set (m := l + (h - l) / 2).
      assert (Hm : l <= m < h).
      { subst m. pose proof (Z.div_pos (h - l) 2). pose proof (Z.div_lt (h - l) 2). lia. }
      apply wp_bind. apply Hp; [lia| |auto]. intros r c' Hr. destruct (goRight r) eqn:E; apply wp_mret; (split; [|lia]);
        exists c'; split_and!; try done; try lia; intros C; specialize (Hr C); destruct (Hs C) as [H1 H2], (Hv C) as (Hmono & _).
      * split; [|auto]. intros i Hi. destruct (Z.lt_ge_cases i l); [apply H1; lia|]. apply (Hmono i m); [lia|lia|by symmetry].
      * split; [auto|]. intros i Hi. destruct (val i) eqn:Ei; [|done].
        assert (val m = true) by (apply (Hmono m i); [lia|lia|done]). congruence.
    + apply wp_mret. apply HQ; [lia|]. intros C. destruct (Hs C) as [H1 H2]. split; intros i Hi; [apply H1|apply H2]; lia.
Qed.

(** From [hint], whose value is known, to the bracketing pair. *)
Lemma wp_gallop_right probe stop val n hint (Q : Z * Z → mem → Prop) (R : Z → mem → Prop) c :
  0 <= hint < n → n < 2 ^ 31 → probe_ok probe stop (λ o, negb (val (hint + o))) 1 (n - hint) →
  (good → val hint = true ∧ (∀ i j, 0 <= i <= j → j < n → val j = true → val i = true)) →
  (∀ l o c', 0 <= l < n - hint → l < o → let o := if n - hint <? o then n - hint else o in
     0 <= l + hint + 1 <= o + hint → o + hint <= n →
     (good → (∀ i, 0 <= i < l + hint + 1 → val i = true) ∧ (∀ i, o + hint <= i < n → val i = false)) → Q (l, o) (mkMem w t st c')) →
  (∀ c', throws → R kFailure (mkMem w t st c')) →
  wp (gallop (n - hint) probe stop) (λ '(l, o), Q (l, if n - hint <? o then n - hint else o)) R (mkMem w t st c).
Proof.
  intros Hh Hn Hp Hv HQ HR. apply (wp_gallop _ _ _ (λ o, negb (val (hint + o)))); [lia|done| |done].
  intros l o c' Hl Hlo Hs. destruct (Z.ltb_spec (n - hint) o) as [Ho|Ho].
  - specialize (HQ l o c' Hl Hlo). cbv zeta in HQ. destruct (Z.ltb_spec (n - hint) o); [|lia]. apply HQ; [lia|lia|].
    intros C. destruct (Hs C) as [Hl0 _], (Hv C) as [V0 Hmono]. split; [|lia]. intros i Hi. apply (Hmono i (hint + l)); [lia|lia|].
    destruct Hl0 as [->|Hl0]; [by rewrite Z.add_0_r|by apply negb_false_iff].
  - specialize (HQ l o c' Hl Hlo). cbv zeta in HQ. destruct (Z.ltb_spec (n - hint) o); [lia|]. apply HQ; [lia|lia|].
    intros C. destruct (Hs C) as [Hl0 Ho0], (Hv C) as [V0 Hmono]. split.
    + intros i Hi. apply (Hmono i (hint + l)); [lia|lia|]. destruct Hl0 as [->|Hl0]; [by rewrite Z.add_0_r|by apply negb_false_iff].
    + intros i Hi. destruct (val i) eqn:Ei; [|done]. assert (E : val (hint + o) = true) by (apply (Hmono _ i); [lia|lia|done]).
      assert (Hlt : o < n - hint) by lia. specialize (Ho0 Hlt). rewrite E in Ho0. done.
Qed.

Lemma wp_gallop_left probe stop val n hint (Q : Z * Z → mem → Prop) (R : Z → mem → Prop) c :
  0 <= hint < n → n < 2 ^ 31 → probe_ok probe stop (λ o, val (hint - o)) 1 (hint + 1) →
  (good → val hint = false ∧ (∀ i j, 0 <= i <= j → j < n → val j = true → val i = true)) →
  (∀ l o c', 0 <= l < hint + 1 → l < o → let o := if hint + 1 <? o then hint + 1 else o in
     0 <= hint - o + 1 <= hint - l → hint - l <= n →
     (good → (∀ i, 0 <= i < hint - o + 1 → val i = true) ∧ (∀ i, hint - l <= i < n → val i = false)) → Q (l, o) (mkMem w t st c')) →
  (∀ c', throws → R kFailure (mkMem w t st c')) →
  wp (gallop (hint + 1) probe stop) (λ '(l, o), Q (l, if hint + 1 <? o then hint + 1 else o)) R (mkMem w t st c).
Proof.
  intros Hh Hn Hp Hv HQ HR. apply (wp_gallop _ _ _ (λ o, val (hint - o))); [lia|done| |done].
  intros l o c' Hl Hlo Hs. specialize (HQ l o c' Hl Hlo). cbv zeta in HQ.
  assert (Hfalse : good → ∀ i, hint - l <= i < n → val i = false).
  { intros C i Hi. destruct (Hs C) as [Hl0 _], (Hv C) as [V0 Hmono]. destruct (val i) eqn:Ei; [|done].
    assert (E : val (hint - l) = true) by (apply (Hmono _ i); [lia|lia|done]).
    destruct Hl0 as [->|Hl0]; [rewrite Z.sub_0_r in E|]; congruence. }
  destruct (Z.ltb_spec (hint + 1) o) as [Ho|Ho].
  - apply HQ; [lia|lia|]. intros C. split; [lia|by apply Hfalse].
  - apply HQ; [lia|lia|]. intros C. destruct (Hs C) as [_ Ho0], (Hv C) as [V0 Hmono]. split; [|by apply Hfalse].
    intros i Hi. destruct (Z.eq_dec o (hint + 1)) as [->|]; [lia|]. apply (Hmono i (hint - o)); [lia|lia|]. apply Ho0. lia.
Qed.
End probing.

(** Splitting a run at a key: [val i] tells on which side element [i] lies. *)
Section gallop_at.
Context (w : list elem) (t : option (list elem)) (st : list Z).
Context (a : arr) (key : elem) (p seg q : list elem).

(** [GallopLeft] counts the elements below the key, [GallopRight] those not above it. *)
Definition below (strict : bool) (x : elem) : bool := if strict then lt x key else negb (lt key x).

Definition side (strict : bool) (i : Z) : bool := below strict (seg !!! Z.to_nat i).

Definition splits (strict : bool) (S1 S2 : list elem) : Prop :=
  (∀ x, x ∈ S1 → below strict x = true) ∧ (∀ x, x ∈ S2 → below strict x = false).

Lemma side_mono strict i j : consistent ∧ sorted lt seg → 0 <= i <= j → j < len seg → side strict j = true → side strict i = true.
Proof.
  intros [[HO _] HS] Hij Hj. pose proof (sorted_idx seg (Z.to_nat i) (Z.to_nat j) HO HS ltac:(lia) ltac:(lia)) as Hle.
  unfold side, below. destruct strict.
  - intros Hk. by apply (le_lt_trans lt HO _ (seg !!! Z.to_nat j)).
  - rewrite !negb_true_iff. intros Hk. by apply (le_trans lt HO _ (seg !!! Z.to_nat j)).
Qed.

Lemma side_splits strict k : 0 <= k <= len seg →
  (∀ i, 0 <= i < k → side strict i = true) ∧ (∀ i, k <= i < len seg → side strict i = false) →
  splits strict (take (Z.to_nat k) seg) (drop (Z.to_nat k) seg).
Proof.
  intros Hk [H1 H2]. split; intros x Hx.
  - apply elem_of_take_idx in Hx as (i & Hi & Hl & ->). specialize (H1 (Z.of_nat i) ltac:(lia)). unfold side in H1. by rewrite Nat2Z.id in H1.
  - apply elem_of_drop_idx in Hx as (i & Hi & Hl & ->). specialize (H2 (Z.of_nat i) ltac:(lia)). unfold side in H2. by rewrite Nat2Z.id in H2.
Qed.

Definition flip_if (neg b : bool) : bool := if neg then negb b else b.

(** A comparison of [key] with element [ofs i] of the run is a probe. *)
Lemma probe_left ofs idx lo hi (neg : bool) :
  (∀ c, get_arr a (mkMem w t st c) = Some (p ++ seg ++ q)) →
  (∀ i, lo <= i < hi → idx i = len p + ofs i ∧ 0 <= ofs i < len seg) →
  probe_ok (consistent ∧ sorted lt seg) w t st (λ i, x <- ld a (idx i) ;; COMPARE x key)
    (λ o, flip_if neg (negative o)) (λ i, flip_if neg (side true (ofs i))) lo hi.
Proof.
  intros Ha Hi o c Q R Ho HQ HR. destruct (Hi o Ho) as [E Hb]. apply wp_bind.
  eapply wp_ld; [apply Ha|rewrite E; by apply aget_seg|]. apply wp_COMPARE; [|done].
  intros r c' Hr. apply HQ. intros [C _]. destruct (Hr C) as [-> _]. done.
Qed.

Lemma probe_right ofs idx lo hi (neg : bool) :
  (∀ c, get_arr a (mkMem w t st c) = Some (p ++ seg ++ q)) →
  (∀ i, lo <= i < hi → idx i = len p + ofs i ∧ 0 <= ofs i < len seg) →
  probe_ok (consistent ∧ sorted lt seg) w t st (λ i, x <- ld a (idx i) ;; COMPARE key x)
    (λ o, flip_if neg (negb (negative o))) (λ i, flip_if neg (side false (ofs i))) lo hi.
Proof.
  intros Ha Hi o c Q R Ho HQ HR. destruct (Hi o Ho) as [E Hb]. apply wp_bind.
  eapply wp_ld; [apply Ha|rewrite E; by apply aget_seg|]. apply wp_COMPARE; [|done].
  intros r c' Hr. apply HQ. intros [C _]. destruct (Hr C) as [-> _]. done.
Qed.

(** Both gallops: bracket the boundary from [hint], then search. *)
Lemma wp_Gallop (strict : bool) (array : arr) runBase n hint c (Q : Z → mem → Prop) (R : Z → mem → Prop) :
  array = a → (∀ c, get_arr a (mkMem w t st c) = Some (p ++ seg ++ q)) → runBase = len p → n = len seg →
  0 <= hint < n → n < 2 ^ 31 →
  (∀ S1 S2 c', seg = S1 ++ S2 → (consistent → sorted lt seg → splits strict S1 S2) → Q (len S1) (mkMem w t st c')) →
  (∀ c', throws → Q kFailure (mkMem w t st c')) →
  wp (if strict then GallopLeft sort_compare sort_threw array key runBase n hint
      else GallopRight sort_compare sort_threw array key runBase n hint) Q R (mkMem w t st c).
Proof.
  intros -> Ha -> Hn Hh Hmax HQ HR.
  assert (Hmono : consistent ∧ sorted lt seg → ∀ i j, 0 <= i <= j → j < n → side strict j = true → side strict i = true).
  { intros G i j ? ?. apply side_mono; [done|done|lia]. }
  assert (Hfin : ∀ k c', 0 <= k <= n → (consistent ∧ sorted lt seg →
      (∀ i, 0 <= i < k → side strict i = true) ∧ (∀ i, k <= i < n → side strict i = false)) → Q k (mkMem w t st c')).
  { intros k c' Hk Hs. replace k with (len (take (Z.to_nat k) seg)) by (rewrite length_take; lia).
    apply (HQ _ (drop (Z.to_nat k) seg)); [by rewrite take_drop|]. intros C S. apply side_splits; [lia|]. rewrite <- Hn. by apply Hs. }
  assert (Hsearch : ∀ lo hi c', 0 <= lo <= hi → hi <= n →
      (consistent ∧ sorted lt seg → (∀ i, 0 <= i < lo → side strict i = true) ∧ (∀ i, hi <= i < n → side strict i = false)) →
      ∀ probe goRight, probe_ok (consistent ∧ sorted lt seg) w t st probe goRight (side strict) 0 n →
      wp (offset <- gallop_search probe goRight lo hi ;; return_ offset) Q Q (mkMem w t st c')).
  { intros lo hi c' Hlo Hhi Hs probe goRight Hp. apply wp_bind.
    apply (wp_gallop_search (consistent ∧ sorted lt seg) w t st probe goRight (side strict) n); try done.
    - intros G. split; [by apply Hmono|by apply Hs].
    - intros k c2 Hk Hs'. apply wp_return, Hfin; [lia|done]. }
  destruct strict.
  - apply wp_fn, wp_bind. eapply wp_ld; [apply Ha|by apply aget_seg; [|lia]|].
    apply wp_bind, wp_COMPARE; [|done]. intros o c1 Ho. apply wp_bind. destruct (negative o) eqn:En; apply wp_bind.
    + eapply wp_mono; [apply (wp_gallop_right (consistent ∧ sorted lt seg) w t st _ _ (side true) n hint
        (λ '(l, o) s, wp (offset <- gallop_search (λ m, x <- ld a (len p + m) ;; COMPARE x key) negative (l + hint + 1) (o + hint) ;; return_ offset) Q Q s) Q c1)| |done].
      * done.
      * done.
      * apply (probe_left (λ i, hint + i) (λ i, len p + hint + i) _ _ true); [done|intros; lia].
      * intros G. split; [|by apply Hmono]. destruct G as [C _]. unfold side, below. destruct (Ho C) as [<- _]. done.
      * intros l o' c2 Hl Hlo oo H1 H2 Hs. apply Hsearch; [lia|lia|done|]. apply (probe_left (λ i, i) (λ i, len p + i) _ _ false); [done|intros; lia].
      * done.
      * intros [l o'] s' Hw. apply wp_mret. exact Hw.
    + eapply wp_mono; [apply (wp_gallop_left (consistent ∧ sorted lt seg) w t st _ _ (side true) n hint
        (λ '(l, o) s, wp (offset <- gallop_search (λ m, x <- ld a (len p + m) ;; COMPARE x key) negative (hint - o + 1) (hint - l) ;; return_ offset) Q Q s) Q c1)| |done].
      * done.
      * done.
      * apply (probe_left (λ i, hint - i) (λ i, len p + hint - i) _ _ false); [done|intros; lia].
      * intros G. split; [|by apply Hmono]. destruct G as [C _]. unfold side, below. destruct (Ho C) as [<- _]. done.
      * intros l o' c2 Hl Hlo oo H1 H2 Hs. apply Hsearch; [lia|lia|done|]. apply (probe_left (λ i, i) (λ i, len p + i) _ _ false); [done|intros; lia].
      * done.
      * intros [l o'] s' Hw. apply wp_mret. exact Hw.
  - apply wp_fn, wp_bind. eapply wp_ld; [apply Ha|by apply aget_seg; [|lia]|].
    apply wp_bind, wp_COMPARE; [|done]. intros o c1 Ho. apply wp_bind. destruct (negative o) eqn:En; apply wp_bind.
    + eapply wp_mono; [apply (wp_gallop_left (consistent ∧ sorted lt seg) w t st _ _ (side false) n hint
        (λ '(l, o) s, wp (offset <- gallop_search (λ m, x <- ld a (len p + m) ;; COMPARE key x) (λ o, negb (negative o)) (hint - o + 1) (hint - l) ;; return_ offset) Q Q s) Q c1)| |done].
      * done.
      * done.
      * apply (probe_right (λ i, hint - i) (λ i, len p + hint - i) _ _ false); [done|intros; lia].
      * intros G. split; [|by apply Hmono]. destruct G as [C _]. unfold side, below. destruct (Ho C) as [<- _]. done.
      * intros l o' c2 Hl Hlo oo H1 H2 Hs. apply Hsearch; [lia|lia|done|]. apply (probe_right (λ i, i) (λ i, len p + i) _ _ false); [done|intros; lia].
      * done.
      * intros [l o'] s' Hw. apply wp_mret. exact Hw.
    + eapply wp_mono; [apply (wp_gallop_right (consistent ∧ sorted lt seg) w t st _ _ (side false) n hint
        (λ '(l, o) s, wp (offset <- gallop_search (λ m, x <- ld a (len p + m) ;; COMPARE key x) (λ o, negb (negative o)) (l + hint + 1) (o + hint) ;; return_ offset) Q Q s) Q c1)| |done].
      * done.
      * done.
      * eapply (probe_ok_ext _ _ _ _ _ (λ o, flip_if true (negb (negative o)))); [apply (probe_right (λ i, hint + i) (λ i, len p + hint + i) _ _ true); [done|intros; lia]|intros; symmetry; apply negb_involutive].
      * intros G. split; [|by apply Hmono]. destruct G as [C _]. unfold side, below. destruct (Ho C) as [<- _]. done.
      * intros l o' c2 Hl Hlo oo H1 H2 Hs. apply Hsearch; [lia|lia|done|]. apply (probe_right (λ i, i) (λ i, len p + i) _ _ false); [done|intros; lia].
      * done.
      * intros [l o'] s' Hw. apply wp_mret. exact Hw.
Qed.
End gallop_at.

(** ** Reorderings *)

Definition reorders (l l' : list elem) : Prop := l ≡ₚ l' ∧ (consistent → stably lt l l').

Lemma reorders_refl l : reorders l l.
Proof. done. Qed.
Lemma reorders_trans l1 l2 l3 : reorders l1 l2 → reorders l2 l3 → reorders l1 l3.
Proof. intros [P1 S1] [P2 S2]. split; [by trans l2|]. intros C. eapply stably_trans; auto. Qed.
Lemma reorders_app l1 l1' l2 l2' : reorders l1 l1' → reorders l2 l2' → reorders (l1 ++ l2) (l1' ++ l2').
Proof. intros [P1 S1] [P2 S2]. split; [by f_equiv|]. intros C. apply stably_app; auto. Qed.
Lemma reorders_app_l l l1 l2 : reorders l1 l2 → reorders (l ++ l1) (l ++ l2).
Proof. intros. by apply reorders_app. Qed.
Lemma reorders_app_r l l1 l2 : reorders l1 l2 → reorders (l1 ++ l) (l2 ++ l).
Proof. intros. by apply reorders_app. Qed.
Lemma reorders_length l l' : reorders l l' → length l' = length l.
Proof. intros [P _]. by rewrite P. Qed.

(** A sorted reordering produced from sorted parts by merging. *)
Lemma reorders_merge A B l : (consistent → sorted lt A) → l ≡ₚ A ++ B → (consistent → l = merge lt A B) → reorders (A ++ B) l.
Proof. intros HA HP Hl. split; [done|]. intros C. rewrite (Hl C). apply merge_stably; [apply C|auto]. Qed.

(** ** Insertion *)

Lemma wp_bis_search pivot P R1 X Q0 t st c (Q : Z → mem → Prop) (R : Z → mem → Prop) :
  (∀ A B c', R1 = A ++ B → (consistent → sorted lt R1 → splits pivot false A B) → Q (len P + len A) (mkMem (P ++ R1 ++ X ++ Q0) t st c')) →
  (∀ c', throws → R kFailure (mkMem (P ++ R1 ++ X ++ Q0) t st c')) →
  wp (bis_search sort_compare sort_threw pivot (len P) (len P + len R1)) Q R (mkMem (P ++ R1 ++ X ++ Q0) t st c).
Proof.
  intros HQ HR. set (w := P ++ R1 ++ X ++ Q0). unfold bis_search. fold w in HQ, HR |- *.
  apply (wp_loop (λ '(l, r) s, ∃ c', s = mkMem w t st c' ∧ len P <= l <= r ∧ r <= len P + len R1 ∧
      (consistent → sorted lt R1 → (∀ i, 0 <= i < l - len P → side pivot R1 false i = true) ∧
         (∀ i, r - len P <= i < len R1 → side pivot R1 false i = false))) (λ '(l, r), r - l)).
  - exists c. split_and!; try done; try lia. intros _ _. split; intros; lia.
  - unfold fuel_of. lia.
  - clear c. intros [l r] s (c & -> & Hl & Hr & Hs) _. destruct (Z.ltb_spec l r).
    + rewrite Z.shiftr_div_pow2 by lia. change (2 ^ 1) with 2. set (m := l + (r - l) / 2).
      assert (Hm : l <= m < r).
      { subst m. pose proof (Z.div_pos (r - l) 2). pose proof (Z.div_lt (r - l) 2). lia. }
      set (i := m - len P). apply wp_bind. eapply (wp_ld Work _ (R1 !!! Z.to_nat i)); [done| |].
      { replace m with (len P + i) by lia. unfold w. apply aget_seg; [done|lia]. }
      apply wp_bind, wp_COMPARE; [|auto]. intros o c' Ho.
      assert (Hi : consistent → side pivot R1 false i = negb (negative o)).
      { intros C. destruct (Ho C) as [-> _]. done. }
      destruct (negative o); apply wp_mret; (split; [|lia]); exists c'; split_and!; try done; try lia; intros C S;
        destruct (Hs C S) as [H1 H2]; specialize (Hi C); cbn [negb] in Hi.
      * split; [done|]. intros j Hj. destruct (side pivot R1 false j) eqn:Ej; [|done].
        assert (side pivot R1 false i = true) by (apply (side_mono pivot R1 false i j); [done|lia|lia|done]). congruence.
      * split; [|done]. intros j Hj. apply (side_mono pivot R1 false j i); [done|lia|lia|done].
    + apply wp_mret. assert (l = r) as <- by lia. set (k := l - len P).
      replace l with (len P + len (take (Z.to_nat k) R1)) by (rewrite length_take; lia).
      apply (HQ _ (drop (Z.to_nat k) R1)); [by rewrite take_drop|]. intros C S. apply side_splits; [lia|]. by apply Hs.
Qed.

Lemma insert_merge A B x : splits x false A B → merge lt (A ++ B) [x] = A ++ x :: B.
Proof.
  intros [HA HB]. rewrite merge_app_l.
  - f_equal. change [x] with ([x] ++ []). rewrite merge_app_r; [by rewrite merge_nil_r|].
    intros a b Ha ->%list_elem_of_singleton. specialize (HB a Ha). by apply negb_false_iff in HB.
  - intros a b Ha ->%list_elem_of_singleton. specialize (HA a Ha). by apply negb_true_iff in HA.
Qed.

Lemma wp_BinaryInsertionSort P R0 X Q0 t st c (Q : Z → mem → Prop) (R : Z → mem → Prop) :
  (1 <= length R0)%nat →
  (∀ R' c', reorders (R0 ++ X) R' → (consistent → sorted lt R') → Q kSuccess (mkMem (P ++ R' ++ Q0) t st c')) →
  (∀ w' c', throws → Q kFailure (mkMem w' t st c')) →
  (consistent → sorted lt R0) →
  wp (BinaryInsertionSort sort_compare sort_threw (len P) (len P + len R0) (len P + len R0 + len X)) Q R
    (mkMem (P ++ R0 ++ X ++ Q0) t st c).
Proof.
  intros HR0 HQ HR HS. apply wp_fn, wp_bind. destruct (Z.eqb_spec (len P) (len P + len R0)); [lia|].
  apply (wp_loop (λ start s, ∃ R1 X1 c', s = mkMem (P ++ R1 ++ X1 ++ Q0) t st c' ∧ start = len P + len R1 ∧
      start + len X1 = len P + len R0 + len X ∧ reorders (R0 ++ X) (R1 ++ X1) ∧ (consistent → sorted lt R1))
    (λ start, len P + len R0 + len X - start)).
  - exists R0, X, c. split_and!; try done; lia.
  - unfold fuel_of. lia.
  - clear c. intros start s (R1 & X1 & c & -> & -> & Hlen & Hre & Hs1) _.
    destruct (Z.ltb_spec (len P + len R1) (len P + len R0 + len X)).
    + destruct X1 as [|x X2]; [simpl in *; lia|]. cbn [length] in *.
      apply wp_bind. eapply (wp_ld Work _ x); [done| |].
      { rewrite (app_assoc P). apply aget_app. rewrite length_app. lia. }
      apply wp_bind, wp_bis_search; [|intros; by apply HR]. intros A B c' -> Hsp.
      assert (Hne : ∃ f h, B ++ [x] = f :: h ∧ length h = length B).
      { destruct B as [|b B]; [by exists x, []|]. exists b, (B ++ [x]). split; [done|]. rewrite length_app. simpl. lia. }
      destruct Hne as (f & h & Ef & Lh). apply wp_bind. eapply (wp_ea_copy Work _ Work); [done|done| |].
      { rewrite length_app. cbn [m_work get_arr].
        replace (P ++ (A ++ B) ++ (x :: X2) ++ Q0) with ((P ++ A ++ [f]) ++ h ++ X2 ++ Q0) at 1.
        2: { rewrite <- !app_assoc. do 2 f_equal. simpl. change (f :: h ++ X2 ++ Q0) with ((f :: h) ++ X2 ++ Q0). rewrite <- Ef.
             by rewrite <- !app_assoc. }
        replace (P ++ (A ++ B) ++ (x :: X2) ++ Q0) with ((P ++ A) ++ B ++ x :: X2 ++ Q0) by (by rewrite <- !app_assoc).
        apply acopy_app; rewrite ?length_app; simpl; lia. }
      apply wp_bind. eapply (wp_sto Work); [done| |].
      { simpl. rewrite <- !app_assoc. rewrite (app_assoc P). simpl. apply aset_app. rewrite length_app. lia. }
      apply wp_mret. split; [|lia]. exists (A ++ x :: B), X2, c'. cbn [set_arr m_temp m_st m_ctx].
      split_and!; rewrite ?length_app in *; cbn [length] in *; try lia.
      * f_equal. by rewrite <- !app_assoc.
      * eapply reorders_trans; [exact Hre|]. change (x :: X2) with ([x] ++ X2). rewrite app_assoc. apply reorders_app_r.
        apply reorders_merge; [done| |].
        -- rewrite <- !app_assoc. f_equiv. apply Permutation_cons_append.
        -- intros C. symmetry. apply insert_merge. by apply Hsp; auto.
      * intros C. rewrite <- insert_merge by (by apply Hsp; auto). apply merge_sorted; [apply C|auto|repeat constructor].
    + apply wp_mret, wp_return. assert (X1 = []) as -> by (apply length_zero_iff_nil; lia). rewrite app_nil_r in Hre.
      by apply HQ.
Qed.

(** ** Natural runs *)

Definition descending (l : list elem) : Prop := StronglySorted (λ x y, lt y x = true) l.

Lemma descending_rev l : strict_weak lt → descending l → sorted lt (rev l) ∧ stably lt l (rev l).
Proof.
  intros HO. induction 1 as [|x l Hl [S IH] F]; [by split; [constructor|]|]. simpl. rewrite Forall_forall in F. split.
  - apply sorted_app. split_and!; [done|repeat constructor|]. intros a b Ha ->%list_elem_of_singleton.
    rewrite <- List.in_rev, <- list_elem_of_In in Ha || (apply list_elem_of_In, in_rev, list_elem_of_In in Ha). apply lt_le; auto.
  - intros z. rewrite List.filter_app, <- (IH z). cbn [List.filter].
    destruct (eqv lt z x) eqn:Ez; [|by rewrite app_nil_r].
    assert (E : List.filter (eqv lt z) l = []); [|by rewrite E].
    clear -HO F Ez. induction l as [|y l IH]; [done|]. simpl. rewrite IH by (intros; apply F; by right).
    assert (Hy : lt y x = true) by (apply F; left). unfold eqv in *. apply andb_true_iff in Ez as [E1%negb_true_iff E2%negb_true_iff].
    rewrite (lt_le_trans lt HO y x z); [by rewrite andb_false_r|done|exact E1].
Qed.

Lemma wp_ReverseRange P R0 Q0 t st c (Q : Z → mem → Prop) (R : Z → mem → Prop) :
  Q kSuccess (mkMem (P ++ rev R0 ++ Q0) t st c) → wp (ReverseRange (len P) (len P + len R0)) Q R (mkMem (P ++ R0 ++ Q0) t st c).
Proof.
  intros HQ. apply wp_fn, wp_bind.
  apply (wp_loop (λ '(low, high) s, ∃ X0 Mid Y0, R0 = X0 ++ Mid ++ Y0 ∧ length X0 = length Y0 ∧
      s = mkMem (P ++ rev Y0 ++ Mid ++ rev X0 ++ Q0) t st c ∧ low = len P + len X0 ∧ high = low + len Mid - 1)
    (λ '(low, high), Z.max 0 (high - low + 1))).
  - exists [], R0, []. rewrite app_nil_r. simpl. split_and!; try done; lia.
  - unfold fuel_of. lia.
  - intros [low high] s (X0 & Mid & Y0 & -> & HL & -> & -> & ->) _. destruct (Z.ltb_spec (len P + len X0) (len P + len X0 + len Mid - 1)).
    + destruct Mid as [|a Mid]; [simpl in *; lia|]. destruct Mid as [|b Mid _] using rev_ind; [simpl in *; lia|].
      rewrite !length_cons, !length_app in *. cbn [length] in *.
      apply wp_bind. eapply (wp_ld Work _ a); [done| |].
      { cbn [m_work]. rewrite (app_assoc P). apply aget_app. rewrite length_app, length_rev. lia. }
      apply wp_bind. eapply (wp_ld Work _ b); [done| |].
      { cbn [m_work]. replace (P ++ rev Y0 ++ (a :: Mid ++ [b]) ++ rev X0 ++ Q0) with ((P ++ rev Y0 ++ a :: Mid) ++ b :: rev X0 ++ Q0).
        - apply aget_app. rewrite !length_app, length_rev. simpl. lia.
        - by app_norm. }
      apply wp_bind. eapply (wp_sto Work); [done| |].
      { cbn [m_work]. rewrite (app_assoc P). cbn [app]. apply aset_app. rewrite length_app, length_rev. lia. }
      apply wp_bind. eapply (wp_sto Work); [done| |].
      { cbn [set_arr m_work get_arr]. replace ((P ++ rev Y0) ++ b :: (Mid ++ [b]) ++ rev X0 ++ Q0) with ((P ++ rev Y0 ++ b :: Mid) ++ b :: rev X0 ++ Q0).
        - apply aset_app. rewrite !length_app, length_rev. simpl. lia.
        - by app_norm. }
      apply wp_mret. split; [|lia]. exists (X0 ++ [a]), Mid, (b :: Y0). cbn [set_arr m_work m_temp m_st m_ctx]. split_and!.
      * by app_norm.
      * rewrite length_app. simpl. lia.
      * f_equal. rewrite rev_app_distr. simpl. by rewrite <- !app_assoc.
      * rewrite length_app. simpl. lia.
      * lia.
    + apply wp_mret, wp_return. assert (HM : rev Mid = Mid).
      { destruct Mid as [|a [|b Mid]]; [done|done|simpl in *; lia]. }
      by rewrite !rev_app_distr, HM, <- !app_assoc in HQ.
Qed.

(** The order a growing run keeps. *)
Definition run_ok (isDescending : bool) (l : list elem) : Prop := if isDescending then descending l else sorted lt l.

Lemma run_ok_snoc (d : bool) l x y : strict_weak lt → run_ok d (l ++ [x]) → (if d then lt y x = true else lt y x = false) → run_ok d (l ++ [x; y]).
Proof.
  intros HO Hr Hxy. change [x; y] with ([x] ++ [y]). rewrite app_assoc. destruct d; simpl in *.
  - unfold descending in *. clear -HO Hr Hxy. induction l as [|a l IH]; simpl in *.
    + repeat constructor; done.
    + apply StronglySorted_inv in Hr as [Hr F]. constructor; [by apply IH|]. rewrite !Forall_app in *. destruct F as [F1 F2].
      rewrite Forall_singleton in F2. split_and!; [done|by apply Forall_singleton|]. rewrite Forall_singleton in *. apply (lt_le_trans lt HO y x a); [done|]. by apply (lt_le lt HO).
  - apply sorted_app. split_and!; [done|repeat constructor|]. intros a b Ha ->%list_elem_of_singleton.
    apply sorted_app in Hr as (_ & _ & Hr). apply elem_of_app in Ha as [Ha| ->%list_elem_of_singleton]; [|done].
    apply (le_trans lt HO a x y); [|done]. apply Hr; [done|left].
Qed.

Lemma wp_run_loop (d : bool) P R0 x X Q0 t st c (Q : Z → mem → Prop) (R : Z → mem → Prop) :
  let w := P ++ R0 ++ x :: X ++ Q0 in
  (consistent → run_ok d (R0 ++ [x])) →
  (∀ X1 X2 c', X = X1 ++ X2 → (consistent → run_ok d (R0 ++ x :: X1)) → Q (len R0 + 1 + len X1) (mkMem w t st c')) →
  (∀ c', throws → R kFailure (mkMem w t st c')) →
  wp (run_loop sort_compare sort_threw d (len P + len R0 + 1) (len P + len R0 + 1 + len X) (len R0 + 1) x) Q R (mkMem w t st c).
Proof.
  intros w H0 HQ HR. unfold run_loop.
  apply (wp_loop (λ '(idx, n, prev) s, ∃ X1 X2 l c', X = X1 ++ X2 ∧ s = mkMem w t st c' ∧ idx = len P + len R0 + 1 + len X1 ∧
      n = len R0 + 1 + len X1 ∧ R0 ++ x :: X1 = l ++ [prev] ∧ (consistent → run_ok d (l ++ [prev])))
    (λ '(idx, n, prev), len P + len R0 + 1 + len X - idx)).
  - exists [], X, R0, c. simpl. split_and!; try done; lia.
  - unfold fuel_of. lia.
  - clear c. intros [[idx n] prev] s (X1 & X2 & l & c & -> & -> & -> & -> & El & Hr) _. rewrite length_app.
    assert (Hdone : consistent → run_ok d (R0 ++ x :: X1)) by (intros C; rewrite El; auto).
    destruct (Z.ltb_spec (len P + len R0 + 1 + len X1) (len P + len R0 + 1 + Z.of_nat (length X1 + length X2))).
    + destruct X2 as [|y X2]; [simpl in *; lia|]. cbn [length] in *.
      assert (Ew : w = (P ++ R0 ++ x :: X1) ++ y :: X2 ++ Q0) by (unfold w; by app_norm).
      apply wp_bind. eapply (wp_ld Work _ y); [done| |].
      { cbn [m_work]. rewrite Ew. apply aget_app. rewrite !length_app. simpl. lia. }
      apply wp_bind, wp_COMPARE; [|auto]. intros o c' Ho.
      assert (Hb : (consistent → (if d then lt y prev = true else lt y prev = false)) →
        wp (mret (inl (len P + len R0 + 1 + len X1 + 1, len R0 + 1 + len X1 + 1, y))) (λ r s', match r with
          | inl v' => (let '(idx, n, prev) := v' in ∃ X1' X2' l' c', X1 ++ y :: X2 = X1' ++ X2' ∧ s' = mkMem w t st c' ∧
             idx = len P + len R0 + 1 + len X1' ∧ n = len R0 + 1 + len X1' ∧ R0 ++ x :: X1' = l' ++ [prev] ∧ (consistent → run_ok d (l' ++ [prev]))) ∧
             (let '(idx, _, _) := v' in 0 <= len P + len R0 + 1 + Z.of_nat (length X1 + S (length X2)) - idx <
               len P + len R0 + 1 + Z.of_nat (length X1 + S (length X2)) - (len P + len R0 + 1 + len X1))
          | inr b => Q b s' end) R (mkMem w t st c')).
      { intros Hy. apply wp_mret. split; [|lia]. exists (X1 ++ [y]), X2, (l ++ [prev]), c'. rewrite !length_app. cbn [length]. split_and!; try lia.
        - by rewrite <- app_assoc.
        - done.
        - change (R0 ++ x :: X1 ++ [y]) with (R0 ++ (x :: X1) ++ [y]). by rewrite app_assoc, El.
        - intros C. rewrite <- app_assoc. apply run_ok_snoc; [apply C|by apply Hr|by apply Hy]. }
      destruct d, (negative o) eqn:En; simpl.
      * apply Hb. intros C. destruct (Ho C). congruence.
      * apply wp_mret, (HQ X1 (y :: X2)); [done|auto].
      * apply wp_mret, (HQ X1 (y :: X2)); [done|auto].
      * apply Hb. intros C. destruct (Ho C). congruence.
    + apply wp_mret. apply (HQ X1 X2); [done|auto].
Qed.

Lemma wp_CountAndMakeRun P Y Q0 t st c (Q : Z → mem → Prop) (R : Z → mem → Prop) :
  (1 <= length Y)%nat →
  (∀ Y1 Y2 R1 c', Y = Y1 ++ Y2 → (1 <= length Y1)%nat → reorders Y1 R1 → (consistent → sorted lt R1) →
     Q (len R1) (mkMem (P ++ R1 ++ Y2 ++ Q0) t st c')) →
  (∀ w' c', throws → Q kFailure (mkMem w' t st c')) →
  wp (CountAndMakeRun sort_compare sort_threw (len P) (len P + len Y)) Q R (mkMem (P ++ Y ++ Q0) t st c).
Proof.
  intros HY HQ HR. apply wp_fn. destruct Y as [|x [|y Y]]; [simpl in *; lia| |]; cbn [length] in *.
  - destruct (Z.eqb_spec (len P + 1) (len P + Z.of_nat 1)) as [_|]; [|lia]. apply wp_return.
    apply (HQ [x] [] [x]); [done|done|apply reorders_refl|intros; repeat constructor].
  - destruct (Z.eqb_spec (len P + 1) (len P + Z.of_nat (S (S (length Y))))); [lia|].
    apply wp_bind. eapply (wp_ld Work _ y); [done| |].
    { cbn [m_work]. change (P ++ (x :: y :: Y) ++ Q0) with (P ++ [x] ++ y :: Y ++ Q0). rewrite app_assoc. apply aget_app.
      rewrite length_app. simpl. lia. }
    apply wp_bind. eapply (wp_ld Work _ x); [done|apply aget_app; lia|].
    apply wp_bind, wp_COMPARE; [|auto]. intros o c1 Ho. apply wp_bind.
    change (P ++ (x :: y :: Y) ++ Q0) with (P ++ [x] ++ y :: Y ++ Q0).
    replace (len P + 1 + 1) with (len P + len [x] + 1) by (simpl; lia).
    replace (len P + Z.of_nat (S (S (length Y)))) with (len P + len [x] + 1 + len Y) by (simpl; lia).
    change 2 with (len [x] + 1).
    apply (wp_run_loop (negative o) P [x] y Y Q0); [| |by auto].
    + intros C. destruct (Ho C) as [E _]. change ([x] ++ [y]) with ([] ++ [x; y]). apply run_ok_snoc; [apply C| |].
      * destruct (negative o); repeat constructor.
      * by destruct (negative o).
    + intros X1 X2 c2 -> Hrun. set (R1 := x :: y :: X1).
      assert (E1 : P ++ [x] ++ y :: (X1 ++ X2) ++ Q0 = P ++ R1 ++ X2 ++ Q0) by (unfold R1; by app_norm).
      assert (E2 : len [x] + 1 + len X1 = len R1) by (unfold R1; simpl; lia). rewrite E1, E2.
      assert (E3 : x :: y :: X1 ++ X2 = R1 ++ X2) by done. apply wp_bind. destruct (negative o).
      * apply wp_bind, wp_ReverseRange, wp_mret, wp_return.
        rewrite <- (length_rev R1). apply (HQ R1 X2); [done|simpl; lia| |].
        -- split; [by rewrite Permutation_rev at 1|]. intros C. apply descending_rev; [apply C|by apply Hrun].
        -- intros C. apply descending_rev; [apply C|by apply Hrun].
      * apply wp_mret, wp_return. apply (HQ R1 X2); [done|simpl; lia|apply reorders_refl|done].
Qed.
End spec.
