(* ===== verification/TimSortMerge.v ===== *)
(** * Array sorts: merging two adjacent runs

    MergeLow and MergeHigh leave a permutation of the two runs, whatever the
    comparator answers, and exactly their stable merge when it is consistent
    and the runs have been trimmed as MergeAt trims them. *)

From stdpp Require Import sorting.
From S2P Require Import Prelude F64 Arrays StableMerge TimSort TimSortSpec.

Open Scope arr_scope.

(** Lengths of concatenations, to [lia]. *)
Ltac lens := repeat rewrite ?length_app, ?length_cons, ?length_nil, ?length_rev, ?length_take, ?length_drop in *; cbn [length] in *; lia.

Section merges.
Context {elem ctx : Type} `{Inhabited elem}.
Context (sort_compare : elem → elem → ctx → num * ctx) (sort_threw : ctx → bool) (lt : elem → elem → bool).

Notation mem := (mem (elem:=elem) (ctx:=ctx)).
Notation COMPARE := (COMPARE sort_compare sort_threw).
Notation consistent := (consistent sort_compare sort_threw lt).
Notation throws := (throws sort_compare sort_threw).
Notation merge := (merge lt).
Notation sorted := (sorted lt).

(** The gallops, in the form the merges call them. *)
Lemma wp_GallopLeft w t st c a key p seg q base n hint (Q : Z → mem → Prop) R :
  get_arr a (mkMem w t st c) = Some (p ++ seg ++ q) → base = len p → n = len seg → 0 <= hint < n → n < 2 ^ 31 →
  (∀ S1 S2 c', seg = S1 ++ S2 → (consistent → sorted seg → splits lt key true S1 S2) → Q (len S1) (mkMem w t st c')) →
  (∀ c', throws → Q kFailure (mkMem w t st c')) →
  wp (GallopLeft sort_compare sort_threw a key base n hint) Q R (mkMem w t st c).
Proof. intros Ha. apply (wp_Gallop sort_compare sort_threw lt w t st a key p seg q true a); [done|]. intros c'. by rewrite (get_arr_ctx a w t st c' st c). Qed.

Lemma wp_GallopRight w t st c a key p seg q base n hint (Q : Z → mem → Prop) R :
  get_arr a (mkMem w t st c) = Some (p ++ seg ++ q) → base = len p → n = len seg → 0 <= hint < n → n < 2 ^ 31 →
  (∀ S1 S2 c', seg = S1 ++ S2 → (consistent → sorted seg → splits lt key false S1 S2) → Q (len S1) (mkMem w t st c')) →
  (∀ c', throws → Q kFailure (mkMem w t st c')) →
  wp (GallopRight sort_compare sort_threw a key base n hint) Q R (mkMem w t st c).
Proof. intros Ha. apply (wp_Gallop sort_compare sort_threw lt w t st a key p seg q false a); [done|]. intros c'. by rewrite (get_arr_ctx a w t st c' st c). Qed.

(** Only [minGallop] may change in the sort's integer array. *)
Definition st_same (st st' : list Z) : Prop := (0 < length st)%nat ∧ length st' = length st ∧ ∀ i, (0 < i)%nat → st' !! i = st !! i.

Lemma wp_st_set_gallop st0 x (Q : unit → mem → Prop) R w t st c :
  st_same st0 st → (∀ st', st_same st0 st' → Q tt (mkMem w t st' c)) → wp (st_set kStMinGallop x) Q R (mkMem w t st c).
Proof.
  intros (H0 & HL & Hi) HQ. eapply (wp_st_set _ _ (<[0%nat := x]> st)).
  - unfold aset, kStMinGallop. destruct (Z.leb_spec (len st) 0); [lia|]. done.
  - apply HQ. split_and!; [done|by rewrite length_insert|]. intros i Hpos. rewrite list_lookup_insert_ne by lia. auto.
Qed.

(** ** The loop around both merges

    [inv] holds between turns, [ok] keeps the loop alive, [stop] describes the
    states at its labels; a turn makes progress. *)
Section mergeloop.
Context (inv : mvars → mem → Prop) (ok : mvars → Prop) (stop : label → mvars → mem → Prop).

Definition same_pos (v v' : mvars) : Prop :=
  dest v' = dest v ∧ cursorTemp v' = cursorTemp v ∧ cur v' = cur v ∧ lengthA v' = lengthA v ∧ lengthB v' = lengthB v.

(** A turn either goes on with fewer elements or reaches a label. *)
Definition turns (body : mvars → MM exit) : Prop :=
  ∀ v s (Q : exit → mem → Prop) (R : Z → mem → Prop), inv v s → ok v →
    (∀ v' s', inv v' s' → ok v' → lengthA v' + lengthB v' < lengthA v + lengthB v → Q (Break v') s') →
    (∀ l v' s', stop l v' s' → Q (Goto l v') s') → (∀ s', throws → R kFailure s') → wp (body v) Q R s.

Context (Hpos : ∀ v v' s, same_pos v v' → inv v s → inv v' s).
Context (Hok : ∀ v, ok v → 1 <= lengthA v ∧ 1 <= lengthB v) (Hokpos : ∀ v v', same_pos v v' → ok v → ok v').
Context (Hset : ∀ v s x (Q : unit → mem → Prop) R, inv v s → (∀ s', inv v s' → Q tt s') → wp (st_set kStMinGallop x) Q R s).

Lemma wp_gallop_loop body v s (Q : exit → mem → Prop) R :
  turns body → inv v s → ok v →
  (∀ v' s', inv v' s' → ok v' → lengthA v' + lengthB v' <= lengthA v + lengthB v → Q (Break v') s') →
  (∀ l v' s', stop l v' s' → Q (Goto l v') s') → (∀ s', throws → R kFailure s') →
  wp (gallop_loop body v) Q R s.
Proof.
  intros Hbody Hi Ho HQ HG HR. unfold gallop_loop.
  apply (wp_loop (λ '(f, u) s, inv u s ∧ ok u ∧ lengthA u + lengthB u <= lengthA v + lengthB v) (λ '(f, u), lengthA u + lengthB u)).
  - done.
  - unfold fuel_of. pose proof (Hok v Ho). lia.
  - intros [f u] s1 (Hu & Hku & Hn) _. case_match; [|apply wp_mret; by apply HQ].
    apply wp_bind, (Hbody u s1); [done|done| | |done].
    + intros v' s' Hv' Hok' Hlt. apply wp_mret. pose proof (Hok v' Hok'). split_and!; done || lia.
    + intros l v' s' Hst. by apply wp_mret, HG.
Qed.

Lemma wp_merge_loop straight body v s (Q : exit → mem → Prop) R :
  turns straight → turns body → inv v s → ok v →
  (∀ l v' s', stop l v' s' → Q (Goto l v') s') → (∀ s', throws → R kFailure s') →
  wp (merge_loop straight body v) Q R s.
Proof.
  intros Hstr Hbody Hi Ho HG HR. unfold merge_loop.
  apply (wp_loop (λ u s, inv u s ∧ ok u ∧ lengthA u + lengthB u <= lengthA v + lengthB v) (λ u, lengthA u + lengthB u)).
  - done.
  - unfold fuel_of. pose proof (Hok v Ho). lia.
  - intros u s1 (Hu & Hku & Hn) _. apply wp_bind, Hstr; [by apply (Hpos u)|by apply (Hokpos u)| | |done].
    2: { intros. by apply wp_mret, HG. }
    intros v1 s2 Hi1 Ho1 Hlt1. cbn [lengthA lengthB] in Hlt1.
    apply wp_bind, wp_gallop_loop; [done|by apply (Hpos v1)|by apply (Hokpos v1)| | |done].
    2: { intros. by apply wp_mret, HG. }
    intros v2 s3 Hi2 Ho2 Hle2. cbn [lengthA lengthB] in Hle2. apply wp_bind, (Hset v2); [done|]. intros s4 Hi4.
    apply wp_mret. cbn [lengthA lengthB]. pose proof (Hok v2 Ho2). split_and!; [by apply (Hpos v2)|by apply (Hokpos v2)|lia..].
Qed.
End mergeloop.

(** ** A pair of runs *)

Section pair.
Context (A B P Q0 : list elem) (n : nat) (st0 : list Z).
Context (HmaxA : len A < 2 ^ 31) (HmaxB : len B < 2 ^ 31).

(** What [MergeAt] establishes of the runs it merges. *)
Definition good : Prop :=
  consistent ∧ sorted A ∧ sorted B ∧
  (∀ b l, B = b :: l → ∀ a, a ∈ A → lt b a = true) ∧ (∀ l a, A = l ++ [a] → ∀ b, b ∈ B → lt b a = true).

(** ** MergeLow *)

(** [Mg] is merged, [Ar] and [Br] remain. *)
Definition low_pure (Mg Ar Br : list elem) : Prop :=
  ∃ A1 B1, A = A1 ++ Ar ∧ B = B1 ++ Br ∧ Mg ≡ₚ A1 ++ B1 ∧ (good → Mg ++ merge Ar Br = merge A B).

Lemma low_pure_A Mg S1 S2 Br : low_pure Mg (S1 ++ S2) Br → (good → merge (S1 ++ S2) Br = S1 ++ merge S2 Br) → low_pure (Mg ++ S1) S2 Br.
Proof.
  intros (A1 & B1 & EA & EB & HP & HM) Hg. exists (A1 ++ S1), B1. split_and!; [by rewrite <- app_assoc|done| |].
  - rewrite HP. rewrite <- !app_assoc. f_equiv. apply Permutation_app_comm.
  - intros G. by rewrite <- HM, Hg, app_assoc.
Qed.

Lemma low_pure_B Mg Ar S1 S2 : low_pure Mg Ar (S1 ++ S2) → (good → merge Ar (S1 ++ S2) = S1 ++ merge Ar S2) → low_pure (Mg ++ S1) Ar S2.
Proof.
  intros (A1 & B1 & EA & EB & HP & HM) Hg. exists A1, (B1 ++ S1). split_and!; [done|by rewrite <- app_assoc| |].
  - by rewrite HP, <- app_assoc.
  - intros G. by rewrite <- HM, Hg, app_assoc.
Qed.

Lemma low_pure_sorted Mg Ar Br : low_pure Mg Ar Br → good → sorted Ar ∧ sorted Br.
Proof. intros (A1 & B1 & EA & EB & _) (_ & SA & SB & _). rewrite EA in SA. rewrite EB in SB. by apply sorted_app in SA as (_ & ? & _), SB as (_ & ? & _). Qed.

(** The state at a point of MergeLow: [Hh] is the gap left by [Ar]; [K] is what
    is known of the elements that remain. *)
Definition low_invK (K : list elem → list elem → Prop) (v : mvars) (s : mem) : Prop :=
  ∃ Mg Ar Br Hh tp tq st c,
    s = mkMem (P ++ Mg ++ Hh ++ Br ++ Q0) (Some (tp ++ Ar ++ tq)) st c ∧ low_pure Mg Ar Br ∧ st_same st0 st ∧
    length Hh = length Ar ∧ length (tp ++ Ar ++ tq) = n ∧
    dest v = len P + len Mg ∧ cursorTemp v = len tp ∧ cur v = len P + len Mg + len Hh ∧ lengthA v = len Ar ∧ lengthB v = len Br ∧
    K Ar Br.

Definition low_inv : mvars → mem → Prop := low_invK (λ _ _, True).
Definition head_B_first (Ar Br : list elem) : Prop := good → ∀ b l, Br = b :: l → ∀ a, a ∈ Ar → lt b a = true.
Definition head_A_first (Ar Br : list elem) : Prop := good → ∀ a l, Ar = a :: l → ∀ b, b ∈ Br → lt b a = false.

Lemma low_invK_weaken K v s : low_invK K v s → low_inv v s.
Proof. intros (Mg & Ar & Br & Hh & tp & tq & st & c & Hs). exists Mg, Ar, Br, Hh, tp, tq, st, c. naive_solver. Qed.

(** [workArray[dest++] = workArray[cursorB++]] *)
Lemma wp_low_take_B Mg h Hh b Br t st c d cb (Q : unit → mem → Prop) R :
  d = len P + len Mg → cb = len P + len Mg + len (h :: Hh) →
  Q tt (mkMem (P ++ (Mg ++ [b]) ++ (Hh ++ [b]) ++ Br ++ Q0) t st c) →
  wp (z <- ld Work cb ;; sto Work d z) Q R (mkMem (P ++ Mg ++ (h :: Hh) ++ (b :: Br) ++ Q0) t st c).
Proof.
  intros -> -> HQ. apply wp_bind. eapply (wp_ld Work _ b); [done| |].
  - cbn [m_work]. rewrite !(app_assoc P), (app_assoc (P ++ Mg)). apply aget_app. lens.
  - eapply (wp_sto Work); [done| |].
    + cbn [m_work]. rewrite (app_assoc P). cbn [app]. apply aset_app. lens.
    + cbn [set_arr m_temp m_st m_ctx]. by replace ((P ++ Mg) ++ b :: Hh ++ b :: Br ++ Q0) with (P ++ (Mg ++ [b]) ++ (Hh ++ [b]) ++ Br ++ Q0) by (by app_norm).
Qed.

(** [workArray[dest++] = tempArray[cursorTemp++]] *)
Lemma wp_low_take_A Mg h Hh a Ar Br tp tq st c d ct (Q : unit → mem → Prop) R :
  d = len P + len Mg → ct = len tp →
  Q tt (mkMem (P ++ (Mg ++ [a]) ++ Hh ++ Br ++ Q0) (Some ((tp ++ [a]) ++ Ar ++ tq)) st c) →
  wp (z <- ld Temp ct ;; sto Work d z) Q R (mkMem (P ++ Mg ++ (h :: Hh) ++ Br ++ Q0) (Some (tp ++ (a :: Ar) ++ tq)) st c).
Proof.
  intros -> -> HQ. apply wp_bind. eapply (wp_ld Temp _ a); [done|by apply aget_app|].
  eapply (wp_sto Work); [done| |].
  - cbn [m_work]. rewrite (app_assoc P). cbn [app]. apply aset_app. lens.
  - cbn [set_arr m_temp m_st m_ctx]. replace ((P ++ Mg) ++ a :: Hh ++ Br ++ Q0) with (P ++ (Mg ++ [a]) ++ Hh ++ Br ++ Q0) by (by app_norm).
    by replace (tp ++ (a :: Ar) ++ tq) with ((tp ++ [a]) ++ Ar ++ tq) by (by app_norm).
Qed.

(** [ea_copy(workArray, dest, tempArray, cursorTemp, n)] *)
Lemma wp_low_copy_A Mg Hh S1 S2 Br tp tq st c d ct k (Q : unit → mem → Prop) R :
  d = len P + len Mg → ct = len tp → k = len S1 → length Hh = length (S1 ++ S2) →
  (∀ H', length H' = length S2 → Q tt (mkMem (P ++ (Mg ++ S1) ++ H' ++ Br ++ Q0) (Some ((tp ++ S1) ++ S2 ++ tq)) st c)) →
  wp (ea_copy Work d Temp ct k) Q R (mkMem (P ++ Mg ++ Hh ++ Br ++ Q0) (Some (tp ++ (S1 ++ S2) ++ tq)) st c).
Proof.
  intros -> -> -> HL HQ. rewrite <- (take_drop (length S1) Hh). set (H1 := take _ Hh). set (H2 := drop _ Hh).
  assert (L1 : length H1 = length S1) by (subst H1; lens). assert (L2 : length H2 = length S2) by (subst H2; lens).
  eapply (wp_ea_copy Work _ Temp); [done|done| |].
  - cbn [m_work]. rewrite (app_assoc P), <- (app_assoc H1), <- (app_assoc S1). apply acopy_app; lens.
  - cbn [set_arr m_temp m_st m_ctx].
    replace ((P ++ Mg) ++ S1 ++ H2 ++ Br ++ Q0) with (P ++ (Mg ++ S1) ++ H2 ++ Br ++ Q0) by (by app_norm).
    replace (tp ++ (S1 ++ S2) ++ tq) with ((tp ++ S1) ++ S2 ++ tq) by (by app_norm). by apply HQ.
Qed.

(** [ea_copy(workArray, dest, workArray, cursorB, n)], overlapping *)
Lemma wp_low_copy_B Mg Hh S1 S2 t st c d cb k (Q : unit → mem → Prop) R :
  d = len P + len Mg → cb = len P + len Mg + len Hh → k = len S1 →
  (∀ H', length H' = length Hh → Q tt (mkMem (P ++ (Mg ++ S1) ++ H' ++ S2 ++ Q0) t st c)) →
  wp (ea_copy Work d Work cb k) Q R (mkMem (P ++ Mg ++ Hh ++ (S1 ++ S2) ++ Q0) t st c).
Proof.
  intros -> -> -> HQ. set (X := Hh ++ S1). set (X1 := take (length S1) X). set (X2 := drop (length S1) X).
  assert (LX : length X = (length Hh + length S1)%nat) by (unfold X; lens).
  assert (L1 : length X1 = length S1) by (subst X1; lens). assert (L2 : length X2 = length Hh) by (subst X2; lens).
  eapply (wp_ea_copy Work _ Work); [done|done| |].
  - cbn [m_work get_arr].
    replace (P ++ Mg ++ Hh ++ (S1 ++ S2) ++ Q0) with ((P ++ Mg) ++ X1 ++ X2 ++ S2 ++ Q0) at 1.
    2: { rewrite (app_assoc X1). unfold X1, X2. rewrite take_drop. unfold X. by app_norm. }
    replace (P ++ Mg ++ Hh ++ (S1 ++ S2) ++ Q0) with ((P ++ Mg ++ Hh) ++ S1 ++ S2 ++ Q0) by (by app_norm).
    apply acopy_app; lens.
  - cbn [set_arr m_temp m_st m_ctx]. replace ((P ++ Mg) ++ S1 ++ X2 ++ S2 ++ Q0) with (P ++ (Mg ++ S1) ++ X2 ++ S2 ++ Q0) by (by app_norm). by apply HQ.
Qed.

(** How a loop of MergeLow that started with [N] elements to go is left. *)
Definition low_exit (N : Z) (e : exit) (s : mem) : Prop :=
  match e with
  | Break v => low_inv v s ∧ 2 <= lengthA v ∧ 1 <= lengthB v ∧ lengthA v + lengthB v < N
  | Goto Succeed v => low_inv v s ∧ (lengthA v = 0 ∨ lengthB v = 0)
  | Goto CopyB v => low_inv v s ∧ lengthA v = 1
  | Goto CopyA _ => False
  end.

Lemma wp_low_straight v s (Q : exit → mem → Prop) R :
  low_inv v s → 2 <= lengthA v → 1 <= lengthB v →
  (∀ e s', low_exit (lengthA v + lengthB v) e s' → Q e s') → (∀ s', throws → R kFailure s') →
  wp (low_straight sort_compare sort_threw v) Q R s.
Proof.
  intros Hinv HA HB HQ HR. unfold low_straight.
  apply (wp_loop (λ u s, low_inv u s ∧ 2 <= lengthA u ∧ 1 <= lengthB u ∧ lengthA u + lengthB u <= lengthA v + lengthB v)
    (λ u, lengthA u + lengthB u)); [split_and!; done || lia|unfold fuel_of; lia|].
  clear s Hinv. intros u s ((Mg & Ar & Br & Hh & tp & tq & st & c & -> & Hp & Hst & HL & Hn & Ed & Et & Ec & EA & EB & _) & HA' & HB' & HN) _.
  destruct Ar as [|a Ar]; [simpl in *; lia|]. destruct Br as [|b Br]; [simpl in *; lia|]. destruct Hh as [|h Hh]; [simpl in *; lia|].
  apply wp_bind. eapply (wp_ld Work _ b); [done| |].
  { cbn [m_work]. rewrite !(app_assoc P), (app_assoc (P ++ Mg)). apply aget_app. lens. }
  apply wp_bind. eapply (wp_ld Temp _ a); [done|by apply aget_app|].
  apply wp_bind, (wp_COMPARE _ _ lt); [|auto]. intros o c' Ho.
  assert (Hm : good → if negative o then lt b a = true else lt b a = false).
  { intros (C & _). destruct (Ho C) as [-> _]. by destruct (lt b a). }
  destruct (negative o).
  - apply wp_bind, wp_low_take_B; [done|done|].
    assert (Hp' : low_pure (Mg ++ [b]) (a :: Ar) Br).
    { apply low_pure_B; [done|]. intros G. simpl app. by rewrite merge_cons, (Hm G). }
    set (u' := mkMV _ _ _ _ _ _ _ _).
    assert (Hinv' : low_inv u' (mkMem (P ++ (Mg ++ [b]) ++ (Hh ++ [b]) ++ Br ++ Q0) (Some (tp ++ (a :: Ar) ++ tq)) st c')).
    { exists (Mg ++ [b]), (a :: Ar), Br, (Hh ++ [b]), tp, tq, st, c'. subst u'. cbn [dest cursorTemp cur lengthA lengthB]. split_and!; try done; lens. }
    destruct (Z.eqb_spec (lengthB u') 0); [apply wp_mret, HQ; split; auto|].
    destruct (minGallop u' <=? nofWinsB u'); apply wp_mret; [apply HQ|]; subst u'; simpl in *; split_and!; try done; lens.
  - apply wp_bind, wp_low_take_A; [done|done|].
    assert (Hp' : low_pure (Mg ++ [a]) Ar (b :: Br)).
    { apply (low_pure_A Mg [a]); [done|]. intros G. simpl app. by rewrite merge_cons, (Hm G). }
    set (u' := mkMV _ _ _ _ _ _ _ _).
    assert (Hinv' : low_inv u' (mkMem (P ++ (Mg ++ [a]) ++ Hh ++ (b :: Br) ++ Q0) (Some ((tp ++ [a]) ++ Ar ++ tq)) st c')).
    { exists (Mg ++ [a]), Ar, (b :: Br), Hh, (tp ++ [a]), tq, st, c'. subst u'. cbn [dest cursorTemp cur lengthA lengthB]. split_and!; try done; lens. }
    destruct (Z.eqb_spec (lengthA u') 1); [apply wp_mret, HQ; split; auto|].
    destruct (minGallop u' <=? nofWinsA u'); apply wp_mret; [apply HQ|]; subst u'; simpl in *; split_and!; try done; lens.
Qed.

Lemma elem_of_le l (x y : elem) : consistent → sorted (x :: l) → y ∈ x :: l → le lt x y.
Proof.
  intros [HO _] S Hy. apply elem_of_cons in Hy as [->|Hy]; [by apply le_refl|].
  apply StronglySorted_inv in S as [_ F]. rewrite Forall_forall in F. auto.
Qed.

Lemma wp_low_wins_A v s (Q : exit → mem → Prop) R :
  low_inv v s → 2 <= lengthA v → 1 <= lengthB v →
  (∀ v' s', low_invK head_B_first v' s' → 2 <= lengthA v' <= lengthA v → lengthB v' = lengthB v → Q (Break v') s') →
  (∀ l v' s', low_exit 0 (Goto l v') s' → Q (Goto l v') s') → (∀ s', throws → R kFailure s') →
  wp (low_wins_A sort_compare sort_threw v) Q R s.
Proof.
  intros (Mg & Ar & Br & Hh & tp & tq & st & c & -> & Hp & Hst & HL & Hn & Ed & Et & Ec & EA & EB & _) HA HB HQ HG HR.
  destruct Br as [|b Br]; [simpl in *; lia|].
  apply wp_bind. eapply wp_st_set_gallop; [exact Hst|]. clear st Hst. intros st Hst.
  apply wp_bind. eapply (wp_ld Work _ b); [done| |].
  { cbn [m_work]. rewrite !(app_assoc P), (app_assoc (P ++ Mg)). apply aget_app. lens. }
  assert (LAr : len Ar <= len A) by (destruct Hp as (A1 & B1 & -> & _); lens).
  apply wp_bind. eapply (wp_GallopRight _ _ _ _ _ _ tp Ar tq); [done|done|done|lia|lia| |].
  2: { intros. change (kFailure <? 0) with true. by apply wp_return, HR. }
  intros S1 S2 c' -> Hsp. destruct (Z.ltb_spec (len S1) 0); [lia|].
  assert (Hfacts : good → splits lt b false S1 S2 ∧ sorted (b :: Br)).
  { intros G. destruct (low_pure_sorted _ _ _ Hp G) as [SA SB]. split; [apply Hsp; [apply G|done]|done]. }
  assert (Hp' : low_pure (Mg ++ S1) S2 (b :: Br)).
  { apply low_pure_A; [done|]. intros G. destruct (Hfacts G) as [[H1 _] SB]. apply merge_app_l. intros a b' Ha Hb'.
    destruct G as [C _]. specialize (H1 a Ha). unfold below in H1. apply negb_true_iff in H1.
    apply (le_trans lt (proj1 C) a b b'); [done|]. by apply (elem_of_le Br). }
  assert (HK : head_B_first S2 (b :: Br)).
  { intros G b0 l [= <- <-] a Ha. destruct (Hfacts G) as [[_ H2] _]. specialize (H2 a Ha). unfold below in H2. by apply negb_false_iff in H2. }
  destruct (Z.ltb_spec 0 (len S1)).
  - apply wp_bind. eapply wp_low_copy_A; [done|done|done|done|]. intros H' LH'.
    set (u := mkMV _ _ _ _ _ _ _ _). cbv zeta.
    assert (Hinv : low_invK head_B_first u (mkMem (P ++ (Mg ++ S1) ++ H' ++ (b :: Br) ++ Q0) (Some ((tp ++ S1) ++ S2 ++ tq)) st c')).
    { exists (Mg ++ S1), S2, (b :: Br), H', (tp ++ S1), tq, st, c'. subst u. cbn [dest cursorTemp cur lengthA lengthB]. split_and!; try done; lens. }
    destruct (Z.eqb_spec (lengthA u) 1); [apply wp_mret, HG; split; [by eapply low_invK_weaken|done]|].
    destruct (Z.eqb_spec (lengthA u) 0); [apply wp_mret, HG; split; [by eapply low_invK_weaken|by left]|].
    apply wp_mret, HQ; [done| |done]. subst u; simpl in *; lens.
  - destruct S1 as [|? S1]; [|simpl in *; lia]. rewrite app_nil_r in Hp'. cbn [app] in *. apply wp_mret, HQ; [|simpl in *; lia|done].
    exists Mg, S2, (b :: Br), Hh, tp, tq, st, c'. cbn [dest cursorTemp cur lengthA lengthB]. split_and!; done.
Qed.

Lemma wp_low_head_B v s (Q : exit → mem → Prop) R :
  low_invK head_B_first v s → 2 <= lengthA v → 1 <= lengthB v →
  (∀ v' s', low_inv v' s' → lengthA v' = lengthA v → 1 <= lengthB v' < lengthB v → Q (Break v') s') →
  (∀ l v' s', low_exit 0 (Goto l v') s' → Q (Goto l v') s') → wp (low_head_B v) Q R s.
Proof.
  intros (Mg & Ar & Br & Hh & tp & tq & st & c & -> & Hp & Hst & HL & Hn & Ed & Et & Ec & EA & EB & HK) HA HB HQ HG.
  destruct Br as [|b Br]; [simpl in *; lia|]. destruct Hh as [|h Hh]; [simpl in *; lia|].
  apply wp_bind, wp_low_take_B; [done|done|]. set (u := mkMV _ _ _ _ _ _ _ _). cbv zeta.
  assert (Hinv : low_inv u (mkMem (P ++ (Mg ++ [b]) ++ (Hh ++ [b]) ++ Br ++ Q0) (Some (tp ++ Ar ++ tq)) st c)).
  { exists (Mg ++ [b]), Ar, Br, (Hh ++ [b]), tp, tq, st, c. subst u. cbn [dest cursorTemp cur lengthA lengthB]. split_and!; try done; try lens.
    apply low_pure_B; [done|]. intros G. apply merge_app_r. intros a b' Ha ->%list_elem_of_singleton. by apply (HK G b Br). }
  destruct (Z.eqb_spec (lengthB u) 0); apply wp_mret; [apply HG; split; auto|apply HQ; [done|done|]]. subst u; simpl in *; lia.
Qed.

Lemma wp_low_wins_B v s (Q : exit → mem → Prop) R :
  low_inv v s → 2 <= lengthA v → 1 <= lengthB v →
  (∀ v' s', low_invK head_A_first v' s' → lengthA v' = lengthA v → 1 <= lengthB v' <= lengthB v → Q (Break v') s') →
  (∀ l v' s', low_exit 0 (Goto l v') s' → Q (Goto l v') s') → (∀ s', throws → R kFailure s') →
  wp (low_wins_B sort_compare sort_threw v) Q R s.
Proof.
  intros (Mg & Ar & Br & Hh & tp & tq & st & c & -> & Hp & Hst & HL & Hn & Ed & Et & Ec & EA & EB & _) HA HB HQ HG HR.
  destruct Ar as [|a Ar]; [simpl in *; lia|].
  apply wp_bind. eapply (wp_ld Temp _ a); [done|by apply aget_app|].
  assert (LBr : len Br <= len B) by (destruct Hp as (A1 & B1 & _ & -> & _); lens).
  apply wp_bind. eapply (wp_GallopLeft _ _ _ _ _ _ (P ++ Mg ++ Hh) Br Q0); [cbn [get_arr m_work]; by app_norm|lens|done|lia|lia| |].
  2: { intros. change (kFailure <? 0) with true. by apply wp_return, HR. }
  intros S1 S2 c' -> Hsp. destruct (Z.ltb_spec (len S1) 0); [lia|].
  assert (Hfacts : good → splits lt a true S1 S2 ∧ sorted (a :: Ar)).
  { intros G. destruct (low_pure_sorted _ _ _ Hp G) as [SA SB]. split; [apply Hsp; [apply G|done]|done]. }
  assert (Hp' : low_pure (Mg ++ S1) (a :: Ar) S2).
  { apply low_pure_B; [done|]. intros G. destruct (Hfacts G) as [[H1 _] SA]. apply merge_app_r. intros a' b' Ha' Hb'.
    destruct G as [C _]. apply (lt_le_trans lt (proj1 C) b' a a'); [by apply H1|]. by apply (elem_of_le Ar). }
  assert (HK : head_A_first (a :: Ar) S2).
  { intros G a0 l [= <- <-] b' Hb'. destruct (Hfacts G) as [[_ H2] _]. by apply H2. }
  destruct (Z.ltb_spec 0 (len S1)).
  - apply wp_bind. eapply wp_low_copy_B; [done|done|done|]. intros H' LH'.
    set (u := mkMV _ _ _ _ _ _ _ _). cbv zeta.
    assert (Hinv : low_invK head_A_first u (mkMem (P ++ (Mg ++ S1) ++ H' ++ S2 ++ Q0) (Some (tp ++ (a :: Ar) ++ tq)) st c')).
    { exists (Mg ++ S1), (a :: Ar), S2, H', tp, tq, st, c'. subst u. cbn [dest cursorTemp cur lengthA lengthB]. split_and!; try done; lens. }
    destruct (Z.eqb_spec (lengthB u) 0); [apply wp_mret, HG; split; [by eapply low_invK_weaken|by right]|].
    apply wp_mret, HQ; [done|done|]. subst u; simpl in *; lens.
  - destruct S1 as [|? S1]; [|simpl in *; lia]. rewrite app_nil_r in Hp'. cbn [app] in *. apply wp_mret, HQ; [|done|simpl in *; lia].
    exists Mg, (a :: Ar), S2, Hh, tp, tq, st, c'. cbn [dest cursorTemp cur lengthA lengthB]. split_and!; done.
Qed.

Lemma wp_low_head_A v s (Q : exit → mem → Prop) R :
  low_invK head_A_first v s → 2 <= lengthA v → 1 <= lengthB v →
  (∀ v' s', low_inv v' s' → 2 <= lengthA v' < lengthA v → lengthB v' = lengthB v → Q (Break v') s') →
  (∀ l v' s', low_exit 0 (Goto l v') s' → Q (Goto l v') s') → wp (low_head_A v) Q R s.
Proof.
  intros (Mg & Ar & Br & Hh & tp & tq & st & c & -> & Hp & Hst & HL & Hn & Ed & Et & Ec & EA & EB & HK) HA HB HQ HG.
  destruct Ar as [|a Ar]; [simpl in *; lia|]. destruct Hh as [|h Hh]; [simpl in *; lia|].
  apply wp_bind, wp_low_take_A; [done|done|]. set (u := mkMV _ _ _ _ _ _ _ _). cbv zeta.
  assert (Hinv : low_inv u (mkMem (P ++ (Mg ++ [a]) ++ Hh ++ Br ++ Q0) (Some ((tp ++ [a]) ++ Ar ++ tq)) st c)).
  { exists (Mg ++ [a]), Ar, Br, Hh, (tp ++ [a]), tq, st, c. subst u. cbn [dest cursorTemp cur lengthA lengthB]. split_and!; try done; try lens.
    apply (low_pure_A Mg [a]); [done|]. intros G. apply (merge_app_l lt [a]). intros a' b' ->%list_elem_of_singleton Hb'. by apply (HK G a Ar). }
  destruct (Z.eqb_spec (lengthA u) 1); apply wp_mret; [apply HG; split; auto|apply HQ; [done| |done]]. subst u; simpl in *; lia.
Qed.

(** The whole turns, for [wp_merge_loop]. *)
Definition low_ok (v : mvars) : Prop := 2 <= lengthA v ∧ 1 <= lengthB v.

Lemma low_exit_mono e s N N' : N <= N' → low_exit N e s → low_exit N' e s.
Proof. intros ?. destruct e as [v|[] v]; simpl; naive_solver lia. Qed.

Lemma low_turns_straight : turns low_inv low_ok (λ l v s, low_exit 0 (Goto l v) s) (low_straight sort_compare sort_threw).
Proof.
  intros v s Q R Hinv [HA HB] HQ HG HR. apply wp_low_straight; try done. intros [v'|l v'] s' He; [|by apply HG].
  destruct He as (? & ? & ? & ?). apply HQ; done || lia.
Qed.

Lemma low_turns_gallop : turns low_inv low_ok (λ l v s, low_exit 0 (Goto l v) s) (low_gallop_body sort_compare sort_threw).
Proof.
  intros v s Q R Hinv [HA HB] HQ HG HR. unfold low_gallop_body, andThen.
  apply wp_bind, wp_low_wins_A; try done. intros v1 s1 I1 LA1 LB1.
  apply wp_bind, wp_low_head_B; try done || lia. intros v2 s2 I2 LA2 LB2.
  apply wp_bind, wp_low_wins_B; try done || lia. intros v3 s3 I3 LA3 LB3.
  apply wp_low_head_A; try done || lia. intros v4 s4 I4 LA4 LB4. apply HQ; [done|split|]; lia.
Qed.

Lemma wp_low_finish l v s (Q R : Z → mem → Prop) :
  low_exit 0 (Goto l v) s →
  (∀ W tl st c, W ≡ₚ A ++ B → (good → W = merge A B) → length tl = n → st_same st0 st → R kSuccess (mkMem (P ++ W ++ Q0) (Some tl) st c)) →
  wp (low_finish (Goto l v)) Q R s.
Proof.
  intros He HR. destruct l; [| |done].
  - destruct He as ((Mg & Ar & Br & Hh & tp & tq & st & c & -> & Hp & Hst & HL & Hn & Ed & Et & Ec & EA & EB & _) & H0).
    assert (HW : Mg ++ Ar ++ Br ≡ₚ A ++ B ∧ (good → Mg ++ Ar ++ Br = merge A B)).
    { destruct Hp as (A1 & B1 & HA & HB & HP & HM). split.
      - rewrite HA, HB, HP, <- !app_assoc. f_equiv. rewrite !app_assoc. f_equiv. apply Permutation_app_comm.
      - intros G. rewrite <- (HM G). f_equal. destruct Ar; [by rewrite merge_nil_l|].
        destruct Br; [by rewrite merge_nil_r, app_nil_r|simpl in *; lia]. }
    cbn [low_finish]. destruct (Z.ltb_spec 0 (lengthA v)).
    + destruct Br; [|simpl in *; lia]. rewrite app_nil_r in HW.
      replace (tp ++ Ar ++ tq) with (tp ++ (Ar ++ []) ++ tq) in * by (by rewrite app_nil_r).
      apply wp_bind, wp_low_copy_A; [done|done|done|by rewrite app_nil_r|]. intros H' LH'. destruct H'; [|done].
      apply wp_return. cbn [app]. apply HR; try apply HW; [|done]. rewrite <- Hn. lens.
    + destruct Ar; [|simpl in *; lia]. destruct Hh; [|done]. apply wp_bind, wp_mret, wp_return. cbn [app] in HW |- *.
      rewrite (app_assoc Mg). by apply HR; try apply HW.
  - destruct He as ((Mg & Ar & Br & Hh & tp & tq & st & c & -> & Hp & Hst & HL & Hn & Ed & Et & Ec & EA & EB & _) & H1).
    destruct Ar as [|a [|? ?]]; [simpl in *; lia| |simpl in *; lia].
    assert (HW : Mg ++ Br ++ [a] ≡ₚ A ++ B ∧ (good → Mg ++ Br ++ [a] = merge A B)).
    { destruct Hp as (A1 & B1 & HA & HB & HP & HM). split.
      - rewrite HA, HB, HP, <- !app_assoc. f_equiv. rewrite (app_assoc B1). apply Permutation_app_comm.
      - intros G. rewrite <- (HM G). f_equal. rewrite <- (app_nil_r Br) at 2. rewrite merge_app_r; [by rewrite merge_nil_r|].
        intros a' b ->%list_elem_of_singleton Hb. destruct G as (_ & _ & _ & _ & G). apply (G A1); [done|]. rewrite HB. set_solver. }
    cbn [low_finish]. replace (Br ++ Q0) with ((Br ++ []) ++ Q0) by (by rewrite app_nil_r).
    apply wp_bind, wp_low_copy_B; [done|done|done|]. intros H' LH'. destruct H' as [|h' [|? ?]]; [simpl in *; lia| |simpl in *; lia].
    apply wp_bind. eapply (wp_ld Temp _ a); [done|by apply aget_app|].
    apply wp_bind. eapply (wp_sto Work); [done| |].
    + cbn [m_work app]. rewrite (app_assoc P). apply aset_app. lens.
    + cbn [set_arr m_temp m_st m_ctx]. apply wp_return.
      replace ((P ++ Mg ++ Br) ++ a :: Q0) with (P ++ (Mg ++ Br ++ [a]) ++ Q0) by (by app_norm). by apply HR; try apply HW.
Qed.

Lemma wp_MergeLow tl c (Q R : Z → mem → Prop) :
  A ≠ [] → B ≠ [] → len A <= len tl → length tl = n → (0 < length st0)%nat →
  (∀ W tl st c, W ≡ₚ A ++ B → (good → W = merge A B) → length tl = n → st_same st0 st → Q kSuccess (mkMem (P ++ W ++ Q0) (Some tl) st c)) →
  (∀ s', throws → Q kFailure s') →
  wp (MergeLow sort_compare sort_threw (len P) (len A) (len P + len A) (len B)) Q R (mkMem (P ++ A ++ B ++ Q0) (Some tl) st0 c).
Proof.
  intros NA NB HlA Hn H0 HQ HF. apply wp_fn.
  assert (ES : st_same st0 st0) by done.
  assert (∃ a A', A = a :: A') as (a & A' & EA) by (clear -NA; destruct A; eauto; done).
  assert (∃ b B', B = b :: B') as (b & B' & EB) by (clear -NB; destruct B; eauto; done).
  assert (∃ mg, st0 !! 0%nat = Some mg) as [mg Emg] by (apply lookup_lt_is_Some_2; lia).
  apply wp_bind. rewrite <- (take_drop (length A) tl). set (h := take _ tl). set (tq := drop _ tl).
  assert (Lh : length h = length A) by (subst h; lens). assert (Lq : (length A + length tq)%nat = n) by (subst tq; lens).
  eapply (wp_ea_copy Temp _ Work); [done|done|apply (acopy_app [] h tq P A); done || lens|].
  cbn [set_arr m_work m_st m_ctx app].
  assert (Ed : len P = len P + len (@nil elem)) by lens.
  pose proof (wp_low_take_B [] a A' b B' (Some (A ++ tq)) st0 c (len P) (len P + len A)) as Htake. cbn [app] in Htake.
  rewrite wp_assoc. apply wp_bind. rewrite EA at 2. rewrite EB at 1. cbn [app]. apply Htake; [done|rewrite EA; lens|]. clear Htake.
  set (s := mkMem _ _ _ _). set (v := mkMV (len P + 1) 0 (len P + len A + 1) (len A) (len B - 1) 0 0). cbv zeta.
  assert (Hinv : ∀ mg0, low_inv (v mg0) s).
  { intros mg0. exists [b], A, B', (A' ++ [b]), [], tq, st0, c. subst v s. cbn [dest cursorTemp cur lengthA lengthB].
    split_and!; try done; try lens; try (rewrite ?EA, ?EB; lens).
    exists [], [b]. split_and!; [done|by rewrite EB|done|]. intros (C & _ & _ & G & _). rewrite EB.
    symmetry. apply (merge_app_r lt A [b] B'). intros a' b' Ha ->%list_elem_of_singleton. by apply (G b B'). }
  destruct (Z.eqb_spec (len B - 1) 0); [apply (wp_low_finish Succeed); [split; [done|right; subst v; simpl; lia]|done]|].
  destruct (Z.eqb_spec (len A) 1); [apply (wp_low_finish CopyB); [split; [done|subst v; simpl; lia]|done]|].
  apply wp_bind. eapply (wp_st_get _ mg); [exact Emg|].
  apply wp_bind, (wp_merge_loop low_inv low_ok (λ l v s, low_exit 0 (Goto l v) s)).
  - intros u u' s' (E1 & E2 & E3 & E4 & E5) (Mg & Ar & Br & Hh & tp & tq' & st & c' & Hs). exists Mg, Ar, Br, Hh, tp, tq', st, c'.
    by rewrite E1, E2, E3, E4, E5.
  - unfold low_ok. intros ? [? ?]. lia.
  - unfold low_ok. intros u u' (_ & _ & _ & -> & ->). done.
  - intros u s' x Q' R' (Mg & Ar & Br & Hh & tp & tq' & st & c' & -> & Hp & Hst & Hrest) HQ'. eapply wp_st_set_gallop; [exact Hst|].
    intros st' Hst'. apply HQ'. exists Mg, Ar, Br, Hh, tp, tq', st', c'. split_and!; done || apply Hrest.
  - apply low_turns_straight.
  - apply low_turns_gallop.
  - apply Hinv.
  - assert (1 <= len A) by (rewrite EA; lens). assert (1 <= len B) by (rewrite EB; lens). split; cbn [lengthA lengthB]; subst v; cbn; lia.
  - intros l v' s' He. by apply (wp_low_finish l).
  - done.
Qed.
End pair.

End merges.
