(* ===== verification/TimSortHigh.v ===== *)
(** * Array sorts: merging two adjacent runs from the right

    MergeHigh, the mirror image of MergeLow: the right run waits in the
    temporary array and the merge fills the gap from its right end. *)

From stdpp Require Import sorting.
From S2P Require Import Prelude F64 Arrays StableMerge TimSort TimSortSpec TimSortMerge.

Open Scope arr_scope.

Section high.
Context {elem ctx : Type} `{Inhabited elem}.
Context (sort_compare : elem → elem → ctx → num * ctx) (sort_threw : ctx → bool) (lt : elem → elem → bool).

Notation mem := (mem (elem:=elem) (ctx:=ctx)).
Notation consistent := (consistent sort_compare sort_threw lt).
Notation throws := (throws sort_compare sort_threw).
Notation merge := (merge lt).
Notation sorted := (sorted lt).

Context (A B P Q0 : list elem) (n : nat) (st0 : list Z).
Context (HmaxA : len A < 2 ^ 31) (HmaxB : len B < 2 ^ 31).

Notation good := (good sort_compare sort_threw lt A B).

(** [Mg] is merged, [Ar] and [Br] remain. *)
Definition high_pure (Mg Ar Br : list elem) : Prop :=
  ∃ A1 B1, A = Ar ++ A1 ∧ B = Br ++ B1 ∧ Mg ≡ₚ A1 ++ B1 ∧ (good → merge Ar Br ++ Mg = merge A B).

Lemma high_pure_A Mg S1 S2 Br : high_pure Mg (S1 ++ S2) Br → (good → merge (S1 ++ S2) Br = merge S1 Br ++ S2) → high_pure (S2 ++ Mg) S1 Br.
Proof.
  intros (A1 & B1 & EA & EB & HP & HM) Hg. exists (S2 ++ A1), B1. split_and!; [by rewrite app_assoc|done| |].
  - by rewrite HP, <- app_assoc.
  - intros G. by rewrite <- HM, Hg, app_assoc.
Qed.

Lemma high_pure_B Mg Ar S1 S2 : high_pure Mg Ar (S1 ++ S2) → (good → merge Ar (S1 ++ S2) = merge Ar S1 ++ S2) → high_pure (S2 ++ Mg) Ar S1.
Proof.
  intros (A1 & B1 & EA & EB & HP & HM) Hg. exists A1, (S2 ++ B1). split_and!; [done|by rewrite app_assoc| |].
  - rewrite HP. rewrite !app_assoc. f_equiv. apply Permutation_app_comm.
  - intros G. by rewrite <- HM, Hg, app_assoc.
Qed.

Lemma high_pure_sorted Mg Ar Br : high_pure Mg Ar Br → good → sorted Ar ∧ sorted Br.
Proof. intros (A1 & B1 & EA & EB & _) (_ & SA & SB & _). rewrite EA in SA. rewrite EB in SB. by apply sorted_app in SA as (? & _), SB as (? & _). Qed.

Definition high_invK (K : list elem → list elem → Prop) (v : mvars) (s : mem) : Prop :=
  ∃ Mg Ar Br Hh tq st c,
    s = mkMem (P ++ Ar ++ Hh ++ Mg ++ Q0) (Some (Br ++ tq)) st c ∧ high_pure Mg Ar Br ∧ st_same st0 st ∧
    length Hh = length Br ∧ length (Br ++ tq) = n ∧
    dest v = len P + len Ar + len Hh - 1 ∧ cursorTemp v = len Br - 1 ∧ cur v = len P + len Ar - 1 ∧ lengthA v = len Ar ∧ lengthB v = len Br ∧
    K Ar Br.

Definition high_inv : mvars → mem → Prop := high_invK (λ _ _, True).
Definition last_B_next (Ar Br : list elem) : Prop := good → ∀ l b, Br = l ++ [b] → ∀ a, a ∈ Ar → lt b a = false.
Definition last_A_next (Ar Br : list elem) : Prop := good → ∀ l a, Ar = l ++ [a] → ∀ b, b ∈ Br → lt b a = true.

Lemma high_invK_weaken K v s : high_invK K v s → high_inv v s.
Proof. intros (Mg & Ar & Br & Hh & tq & st & c & Hs). exists Mg, Ar, Br, Hh, tq, st, c. naive_solver. Qed.

(** Every element of a sorted run is at most its last. *)
Lemma elem_of_last_le l (x y : elem) : consistent → sorted (l ++ [x]) → y ∈ l ++ [x] → le lt y x.
Proof.
  intros [HO _] S Hy. apply elem_of_app in Hy as [Hy| ->%list_elem_of_singleton]; [|by apply le_refl].
  apply sorted_app in S as (_ & _ & S). apply S; [done|by apply list_elem_of_singleton].
Qed.

(** [workArray[dest--] = workArray[cursorA--]] *)
Lemma wp_high_take_A Ar a Hh h Mg t st c d ca (Q : unit → mem → Prop) R :
  d = len P + len (Ar ++ [a]) + len (Hh ++ [h]) - 1 → ca = len P + len (Ar ++ [a]) - 1 →
  Q tt (mkMem (P ++ Ar ++ (a :: Hh) ++ ([a] ++ Mg) ++ Q0) t st c) →
  wp (z <- ld Work ca ;; sto Work d z) Q R (mkMem (P ++ (Ar ++ [a]) ++ (Hh ++ [h]) ++ Mg ++ Q0) t st c).
Proof.
  intros -> -> HQ.
  replace (P ++ (Ar ++ [a]) ++ (Hh ++ [h]) ++ Mg ++ Q0) with ((P ++ Ar ++ a :: Hh) ++ h :: Mg ++ Q0) by (by app_norm).
  apply wp_bind. eapply (wp_ld Work _ a); [done| |].
  - cbn [m_work]. replace ((P ++ Ar ++ a :: Hh) ++ h :: Mg ++ Q0) with ((P ++ Ar) ++ a :: (Hh ++ h :: Mg ++ Q0)) by (by app_norm).
    apply aget_app. lens.
  - eapply (wp_sto Work); [done|cbn [m_work]; apply aset_app; lens|]. cbn [set_arr m_temp m_st m_ctx].
    by replace ((P ++ Ar ++ a :: Hh) ++ a :: Mg ++ Q0) with (P ++ Ar ++ (a :: Hh) ++ ([a] ++ Mg) ++ Q0) by (by app_norm).
Qed.

(** [workArray[dest--] = tempArray[cursorTemp--]] *)
Lemma wp_high_take_B Ar Hh h Mg Br b tq st c d ct (Q : unit → mem → Prop) R :
  d = len P + len Ar + len (Hh ++ [h]) - 1 → ct = len (Br ++ [b]) - 1 →
  Q tt (mkMem (P ++ Ar ++ Hh ++ ([b] ++ Mg) ++ Q0) (Some (Br ++ b :: tq)) st c) →
  wp (z <- ld Temp ct ;; sto Work d z) Q R (mkMem (P ++ Ar ++ (Hh ++ [h]) ++ Mg ++ Q0) (Some ((Br ++ [b]) ++ tq)) st c).
Proof.
  intros -> -> HQ. replace ((Br ++ [b]) ++ tq) with (Br ++ b :: tq) by (by app_norm).
  apply wp_bind. eapply (wp_ld Temp _ b); [done|apply aget_app; lens|].
  replace (P ++ Ar ++ (Hh ++ [h]) ++ Mg ++ Q0) with ((P ++ Ar ++ Hh) ++ h :: Mg ++ Q0) by (by app_norm).
  eapply (wp_sto Work); [done|cbn [m_work]; apply aset_app; lens|]. cbn [set_arr m_temp m_st m_ctx].
  by replace ((P ++ Ar ++ Hh) ++ b :: Mg ++ Q0) with (P ++ Ar ++ Hh ++ ([b] ++ Mg) ++ Q0) by (by app_norm).
Qed.

(** [ea_copy(workArray, dest + 1, workArray, cursorA + 1, n)], overlapping *)
Lemma wp_high_copy_A S1 S2 Hh Mg t st c d ca k (Q : unit → mem → Prop) R :
  d = len P + len S1 + len Hh → ca = len P + len S1 → k = len S2 →
  (∀ H', length H' = length Hh → Q tt (mkMem (P ++ S1 ++ H' ++ (S2 ++ Mg) ++ Q0) t st c)) →
  wp (ea_copy Work d Work ca k) Q R (mkMem (P ++ (S1 ++ S2) ++ Hh ++ Mg ++ Q0) t st c).
Proof.
  intros -> -> -> HQ. set (X := S2 ++ Hh). set (X1 := take (length Hh) X). set (X2 := drop (length Hh) X).
  assert (LX : length X = (length S2 + length Hh)%nat) by (unfold X; lens).
  assert (L1 : length X1 = length Hh) by (subst X1; lens). assert (L2 : length X2 = length S2) by (subst X2; lens).
  eapply (wp_ea_copy Work _ Work); [done|done| |].
  - cbn [m_work get_arr].
    replace (P ++ (S1 ++ S2) ++ Hh ++ Mg ++ Q0) with ((P ++ S1 ++ X1) ++ X2 ++ Mg ++ Q0) at 1.
    2: { rewrite <- !app_assoc. do 2 f_equal. rewrite (app_assoc X1). unfold X1, X2. rewrite take_drop. unfold X. by app_norm. }
    replace (P ++ (S1 ++ S2) ++ Hh ++ Mg ++ Q0) with ((P ++ S1) ++ S2 ++ Hh ++ Mg ++ Q0) by (by app_norm).
    apply acopy_app; lens.
  - cbn [set_arr m_temp m_st m_ctx].
    replace ((P ++ S1 ++ X1) ++ S2 ++ Mg ++ Q0) with (P ++ S1 ++ X1 ++ (S2 ++ Mg) ++ Q0) by (by app_norm). by apply HQ.
Qed.

(** [ea_copy(workArray, dest + 1, tempArray, cursorTemp + 1, n)] *)
Lemma wp_high_copy_B Ar S1 S2 Hh Mg tq st c d ct k (Q : unit → mem → Prop) R :
  d = len P + len Ar + len S1 → ct = len S1 → k = len S2 → length Hh = length (S1 ++ S2) →
  (∀ H', length H' = length S1 → Q tt (mkMem (P ++ Ar ++ H' ++ (S2 ++ Mg) ++ Q0) (Some (S1 ++ S2 ++ tq)) st c)) →
  wp (ea_copy Work d Temp ct k) Q R (mkMem (P ++ Ar ++ Hh ++ Mg ++ Q0) (Some ((S1 ++ S2) ++ tq)) st c).
Proof.
  intros -> -> -> HL HQ. rewrite <- (take_drop (length S1) Hh). set (H1 := take _ Hh). set (H2 := drop _ Hh).
  assert (L1 : length H1 = length S1) by (subst H1; lens). assert (L2 : length H2 = length S2) by (subst H2; lens).
  rewrite <- (app_assoc S1).
  eapply (wp_ea_copy Work _ Temp); [done|done| |].
  - cbn [m_work]. replace (P ++ Ar ++ (H1 ++ H2) ++ Mg ++ Q0) with ((P ++ Ar ++ H1) ++ H2 ++ Mg ++ Q0) by (by app_norm). apply acopy_app; lens.
  - cbn [set_arr m_temp m_st m_ctx].
    replace ((P ++ Ar ++ H1) ++ S2 ++ Mg ++ Q0) with (P ++ Ar ++ H1 ++ (S2 ++ Mg) ++ Q0) by (by app_norm). by apply HQ.
Qed.

(** How a loop of MergeHigh that started with [N] elements to go is left. *)
Definition high_exit (N : Z) (e : exit) (s : mem) : Prop :=
  match e with
  | Break v => high_inv v s ∧ 1 <= lengthA v ∧ 2 <= lengthB v ∧ lengthA v + lengthB v < N
  | Goto Succeed v => high_inv v s ∧ (lengthA v = 0 ∨ lengthB v = 0)
  | Goto CopyA v => high_inv v s ∧ lengthB v = 1
  | Goto CopyB _ => False
  end.

(** A non-empty list by its last element. *)
Lemma snoc_cases (l : list elem) : 1 <= len l → ∃ l' x, l = l' ++ [x].
Proof. intros Hl. destruct (exists_last (l:=l)) as (l' & x & ->); [by intros ->|eauto]. Qed.

Lemma ld_cur t st c Ar a Hh Mg ca (Q : elem → mem → Prop) R :
  ca = len P + len (Ar ++ [a]) - 1 → Q a (mkMem (P ++ (Ar ++ [a]) ++ Hh ++ Mg ++ Q0) t st c) →
  wp (ld Work ca) Q R (mkMem (P ++ (Ar ++ [a]) ++ Hh ++ Mg ++ Q0) t st c).
Proof.
  intros -> HQ. eapply (wp_ld Work _ a); [done| |done]. cbn [m_work].
  replace (P ++ (Ar ++ [a]) ++ Hh ++ Mg ++ Q0) with ((P ++ Ar) ++ a :: (Hh ++ Mg ++ Q0)) by (by app_norm). apply aget_app. lens.
Qed.

Lemma ld_temp_last w st c Br b tq ct (Q : elem → mem → Prop) R :
  ct = len (Br ++ [b]) - 1 → Q b (mkMem w (Some ((Br ++ [b]) ++ tq)) st c) →
  wp (ld Temp ct) Q R (mkMem w (Some ((Br ++ [b]) ++ tq)) st c).
Proof.
  intros -> HQ. eapply (wp_ld Temp _ b); [done| |done].
  replace ((Br ++ [b]) ++ tq) with (Br ++ b :: tq) by (by app_norm). apply aget_app. lens.
Qed.

Lemma wp_high_straight v s (Q : exit → mem → Prop) R :
  high_inv v s → 1 <= lengthA v → 2 <= lengthB v →
  (∀ e s', high_exit (lengthA v + lengthB v) e s' → Q e s') → (∀ s', throws → R kFailure s') →
  wp (high_straight sort_compare sort_threw v) Q R s.
Proof.
  intros Hinv HA HB HQ HR. unfold high_straight.
  apply (wp_loop (λ u s, high_inv u s ∧ 1 <= lengthA u ∧ 2 <= lengthB u ∧ lengthA u + lengthB u <= lengthA v + lengthB v)
    (λ u, lengthA u + lengthB u)); [split_and!; done || lia|unfold fuel_of; lia|].
  clear s Hinv. intros u s ((Mg & Ar & Br & Hh & tq & st & c & -> & Hp & Hst & HL & Hn & Ed & Et & Ec & EA & EB & _) & HA' & HB' & HN) _.
  destruct (snoc_cases Ar) as (Ar' & a & ->); [lia|]. destruct (snoc_cases Br) as (Br' & b & ->); [lia|].
  destruct (snoc_cases Hh) as (Hh' & h & ->); [lens|].
  apply wp_bind, ld_temp_last; [done|]. apply wp_bind, ld_cur; [done|].
  apply wp_bind, (wp_COMPARE _ _ lt); [|auto]. intros o c' Ho.
  assert (Hm : good → if negative o then lt b a = true else lt b a = false).
  { intros (C & _). destruct (Ho C) as [-> _]. by destruct (lt b a). }
  destruct (negative o).
  - apply wp_bind, wp_high_take_A; [done|done|].
    assert (Hp' : high_pure ([a] ++ Mg) Ar' (Br' ++ [b])).
    { apply high_pure_A; [done|]. intros G. destruct (high_pure_sorted _ _ _ Hp G) as [_ SB]. apply merge_snoc_l.
      intros a' b' ->%list_elem_of_singleton Hb. destruct G as [C G]. apply (le_lt_trans lt (proj1 C) b' b a); [|by apply (Hm (conj C G))].
      by apply (elem_of_last_le Br'). }
    set (u' := mkMV _ _ _ _ _ _ _ _). cbv zeta.
    assert (Hinv' : high_inv u' (mkMem (P ++ Ar' ++ (a :: Hh') ++ ([a] ++ Mg) ++ Q0) (Some ((Br' ++ [b]) ++ tq)) st c')).
    { exists ([a] ++ Mg), Ar', (Br' ++ [b]), (a :: Hh'), tq, st, c'. subst u'. cbn [dest cursorTemp cur lengthA lengthB]. split_and!; try done; lens. }
    destruct (Z.eqb_spec (lengthA u') 0); [apply wp_mret, HQ; split; auto|].
    destruct (minGallop u' <=? nofWinsA u'); apply wp_mret; [apply HQ|]; subst u'; simpl in *; split_and!; try done; lens.
  - apply wp_bind, wp_high_take_B; [done|done|].
    assert (Hp' : high_pure ([b] ++ Mg) (Ar' ++ [a]) Br').
    { apply high_pure_B; [done|]. intros G. destruct (high_pure_sorted _ _ _ Hp G) as [SA _]. apply merge_snoc_r.
      intros a' b' Ha ->%list_elem_of_singleton. destruct G as [C G]. apply (le_trans lt (proj1 C) a' a b); [|by apply (Hm (conj C G))].
      by apply (elem_of_last_le Ar'). }
    set (u' := mkMV _ _ _ _ _ _ _ _). cbv zeta.
    assert (Hinv' : high_inv u' (mkMem (P ++ (Ar' ++ [a]) ++ Hh' ++ ([b] ++ Mg) ++ Q0) (Some (Br' ++ b :: tq)) st c')).
    { exists ([b] ++ Mg), (Ar' ++ [a]), Br', Hh', (b :: tq), st, c'. subst u'. cbn [dest cursorTemp cur lengthA lengthB]. split_and!; try done; lens. }
    destruct (Z.eqb_spec (lengthB u') 1); [apply wp_mret, HQ; split; auto|].
    destruct (minGallop u' <=? nofWinsB u'); apply wp_mret; [apply HQ|]; subst u'; simpl in *; split_and!; try done; lens.
Qed.

Lemma wp_high_wins_A v s (Q : exit → mem → Prop) R :
  high_inv v s → 1 <= lengthA v → 2 <= lengthB v →
  (∀ v' s', high_invK last_B_next v' s' → 1 <= lengthA v' <= lengthA v → lengthB v' = lengthB v → Q (Break v') s') →
  (∀ l v' s', high_exit 0 (Goto l v') s' → Q (Goto l v') s') → (∀ s', throws → R kFailure s') →
  wp (high_wins_A sort_compare sort_threw (len P) v) Q R s.
Proof.
  intros (Mg & Ar & Br & Hh & tq & st & c & -> & Hp & Hst & HL & Hn & Ed & Et & Ec & EA & EB & _) HA HB HQ HG HR.
  destruct (snoc_cases Br) as (Br' & b & ->); [lia|].
  apply wp_bind. eapply wp_st_set_gallop; [exact Hst|]. clear st Hst. intros st Hst.
  apply wp_bind, ld_temp_last; [done|].
  assert (LAr : len Ar <= len A) by (destruct Hp as (A1 & B1 & -> & _); lens).
  apply wp_bind. eapply (wp_GallopRight _ _ lt _ _ _ _ _ _ P Ar (Hh ++ Mg ++ Q0)); [done|done|done|lia|lia| |].
  2: { intros. change (kFailure <? 0) with true. by apply wp_return, HR. }
  intros S1 S2 c' -> Hsp. destruct (Z.ltb_spec (len S1) 0); [lia|].
  assert (Hfacts : good → splits lt b false S1 S2 ∧ sorted (Br' ++ [b])).
  { intros G. destruct (high_pure_sorted _ _ _ Hp G) as [SA SB]. split; [apply Hsp; [apply G|done]|done]. }
  assert (Hp' : high_pure (S2 ++ Mg) S1 (Br' ++ [b])).
  { apply high_pure_A; [done|]. intros G. destruct (Hfacts G) as [[_ H2] SB]. apply merge_snoc_l. intros a b' Ha Hb'.
    destruct G as [C _]. specialize (H2 a Ha). unfold below in H2. apply negb_false_iff in H2.
    apply (le_lt_trans lt (proj1 C) b' b a); [|done]. by apply (elem_of_last_le Br'). }
  assert (HK : last_B_next S1 (Br' ++ [b])).
  { intros G l b0 [-> [= <-]]%app_inj_tail a Ha. destruct (Hfacts G) as [[H1 _] _]. specialize (H1 a Ha). unfold below in H1. by apply negb_true_iff in H1. }
  cbv zeta. destruct (Z.ltb_spec 0 (lengthA v - len S1)).
  - apply wp_bind. eapply wp_high_copy_A; [lens|lens|lens|]. intros H' LH'.
    set (u := mkMV _ _ _ _ _ _ _ _).
    assert (Hinv : high_invK last_B_next u (mkMem (P ++ S1 ++ H' ++ (S2 ++ Mg) ++ Q0) (Some ((Br' ++ [b]) ++ tq)) st c')).
    { exists (S2 ++ Mg), S1, (Br' ++ [b]), H', tq, st, c'. subst u. cbn [dest cursorTemp cur lengthA lengthB]. split_and!; try done; lens. }
    destruct (Z.eqb_spec (lengthA u) 0); [apply wp_mret, HG; split; [by eapply high_invK_weaken|by left]|].
    apply wp_mret, HQ; [done| |done]. subst u; simpl in *; lens.
  - destruct S2 as [|? S2]; [|lens]. cbn [app] in Hp'. apply wp_mret, HQ; [|simpl in *; lens|done].
    rewrite app_nil_r in *. exists Mg, S1, (Br' ++ [b]), Hh, tq, st, c'. cbn [dest cursorTemp cur lengthA lengthB]. split_and!; done.
Qed.

Lemma wp_high_head_B v s (Q : exit → mem → Prop) R :
  high_invK last_B_next v s → 1 <= lengthA v → 2 <= lengthB v →
  (∀ v' s', high_inv v' s' → lengthA v' = lengthA v → 2 <= lengthB v' < lengthB v → Q (Break v') s') →
  (∀ l v' s', high_exit 0 (Goto l v') s' → Q (Goto l v') s') → wp (high_head_B v) Q R s.
Proof.
  intros (Mg & Ar & Br & Hh & tq & st & c & -> & Hp & Hst & HL & Hn & Ed & Et & Ec & EA & EB & HK) HA HB HQ HG.
  destruct (snoc_cases Br) as (Br' & b & ->); [lia|]. destruct (snoc_cases Hh) as (Hh' & h & ->); [lens|].
  apply wp_bind, wp_high_take_B; [done|done|]. set (u := mkMV _ _ _ _ _ _ _ _). cbv zeta.
  assert (Hinv : high_inv u (mkMem (P ++ Ar ++ Hh' ++ ([b] ++ Mg) ++ Q0) (Some (Br' ++ b :: tq)) st c)).
  { exists ([b] ++ Mg), Ar, Br', Hh', (b :: tq), st, c. subst u. cbn [dest cursorTemp cur lengthA lengthB]. split_and!; try done; try lens.
    apply high_pure_B; [done|]. intros G. apply merge_snoc_r. intros a b' Ha ->%list_elem_of_singleton. by apply (HK G Br' b). }
  destruct (Z.eqb_spec (lengthB u) 1); apply wp_mret; [apply HG; split; auto|apply HQ; [done|done|]]. subst u; simpl in *; lens.
Qed.

Lemma wp_high_wins_B v s (Q : exit → mem → Prop) R :
  high_inv v s → 1 <= lengthA v → 2 <= lengthB v →
  (∀ v' s', high_invK last_A_next v' s' → lengthA v' = lengthA v → 2 <= lengthB v' <= lengthB v → Q (Break v') s') →
  (∀ l v' s', high_exit 0 (Goto l v') s' → Q (Goto l v') s') → (∀ s', throws → R kFailure s') →
  wp (high_wins_B sort_compare sort_threw v) Q R s.
Proof.
  intros (Mg & Ar & Br & Hh & tq & st & c & -> & Hp & Hst & HL & Hn & Ed & Et & Ec & EA & EB & _) HA HB HQ HG HR.
  destruct (snoc_cases Ar) as (Ar' & a & ->); [lia|].
  apply wp_bind, ld_cur; [done|].
  assert (LBr : len Br <= len B) by (destruct Hp as (A1 & B1 & _ & -> & _); lens).
  apply wp_bind. eapply (wp_GallopLeft _ _ lt _ _ _ _ _ _ [] Br tq); [done|done|done|lia|lia| |].
  2: { intros. change (kFailure <? 0) with true. by apply wp_return, HR. }
  intros S1 S2 c' -> Hsp. destruct (Z.ltb_spec (len S1) 0); [lia|].
  assert (Hfacts : good → splits lt a true S1 S2 ∧ sorted (Ar' ++ [a])).
  { intros G. destruct (high_pure_sorted _ _ _ Hp G) as [SA SB]. split; [apply Hsp; [apply G|done]|done]. }
  assert (Hp' : high_pure (S2 ++ Mg) (Ar' ++ [a]) S1).
  { apply high_pure_B; [done|]. intros G. destruct (Hfacts G) as [[_ H2] SA]. apply merge_snoc_r. intros a' b' Ha' Hb'.
    destruct G as [C _]. apply (le_trans lt (proj1 C) a' a b'); [by apply (elem_of_last_le Ar')|]. by apply H2. }
  assert (HK : last_A_next (Ar' ++ [a]) S1).
  { intros G l a0 [-> [= <-]]%app_inj_tail b' Hb'. destruct (Hfacts G) as [[H1 _] _]. by apply H1. }
  cbv zeta. destruct (Z.ltb_spec 0 (lengthB v - len S1)).
  - apply wp_bind. eapply wp_high_copy_B; [lens|lens|lens|done|]. intros H' LH'.
    set (u := mkMV _ _ _ _ _ _ _ _).
    assert (Hinv : high_invK last_A_next u (mkMem (P ++ (Ar' ++ [a]) ++ H' ++ (S2 ++ Mg) ++ Q0) (Some (S1 ++ S2 ++ tq)) st c')).
    { exists (S2 ++ Mg), (Ar' ++ [a]), S1, H', (S2 ++ tq), st, c'. subst u. cbn [dest cursorTemp cur lengthA lengthB].
      split_and!; try done; try lens. }
    destruct (Z.eqb_spec (lengthB u) 1); [apply wp_mret, HG; split; [by eapply high_invK_weaken|done]|].
    destruct (Z.eqb_spec (lengthB u) 0); [apply wp_mret, HG; split; [by eapply high_invK_weaken|by right]|].
    apply wp_mret, HQ; [done|done|]. subst u; simpl in *; lens.
  - destruct S2 as [|? S2]; [|lens]. cbn [app] in Hp'. apply wp_mret, HQ; [|done|simpl in *; lens].
    rewrite app_nil_r in *. exists Mg, (Ar' ++ [a]), S1, Hh, tq, st, c'. cbn [dest cursorTemp cur lengthA lengthB]. split_and!; done.
Qed.

Lemma wp_high_head_A v s (Q : exit → mem → Prop) R :
  high_invK last_A_next v s → 1 <= lengthA v → 2 <= lengthB v →
  (∀ v' s', high_inv v' s' → 1 <= lengthA v' < lengthA v → lengthB v' = lengthB v → Q (Break v') s') →
  (∀ l v' s', high_exit 0 (Goto l v') s' → Q (Goto l v') s') → wp (high_head_A v) Q R s.
Proof.
  intros (Mg & Ar & Br & Hh & tq & st & c & -> & Hp & Hst & HL & Hn & Ed & Et & Ec & EA & EB & HK) HA HB HQ HG.
  destruct (snoc_cases Ar) as (Ar' & a & ->); [lia|]. destruct (snoc_cases Hh) as (Hh' & h & ->); [lens|].
  apply wp_bind, wp_high_take_A; [done|done|]. set (u := mkMV _ _ _ _ _ _ _ _). cbv zeta.
  assert (Hinv : high_inv u (mkMem (P ++ Ar' ++ (a :: Hh') ++ ([a] ++ Mg) ++ Q0) (Some (Br ++ tq)) st c)).
  { exists ([a] ++ Mg), Ar', Br, (a :: Hh'), tq, st, c. subst u. cbn [dest cursorTemp cur lengthA lengthB]. split_and!; try done; try lens.
    apply high_pure_A; [done|]. intros G. apply merge_snoc_l. intros a' b' ->%list_elem_of_singleton Hb'. by apply (HK G Ar' a). }
  destruct (Z.eqb_spec (lengthA u) 0); apply wp_mret; [apply HG; split; auto|apply HQ; [done| |done]]. subst u; simpl in *; lens.
Qed.

(** The whole turns, for [wp_merge_loop]. *)
Definition high_ok (v : mvars) : Prop := 1 <= lengthA v ∧ 2 <= lengthB v.

Lemma high_turns_straight :
  turns sort_compare sort_threw high_inv high_ok (λ l v s, high_exit 0 (Goto l v) s) (high_straight sort_compare sort_threw).
Proof.
  intros v s Q R Hinv [HA HB] HQ HG HR. apply wp_high_straight; try done. intros [v'|l v'] s' He; [|by apply HG].
  destruct He as (? & ? & ? & ?). apply HQ; done || lia.
Qed.

Lemma high_turns_gallop :
  turns sort_compare sort_threw high_inv high_ok (λ l v s, high_exit 0 (Goto l v) s) (high_gallop_body sort_compare sort_threw (len P)).
Proof.
  intros v s Q R Hinv [HA HB] HQ HG HR. unfold high_gallop_body, andThen.
  apply wp_bind, wp_high_wins_A; try done. intros v1 s1 I1 LA1 LB1.
  apply wp_bind, wp_high_head_B; try done || lia. intros v2 s2 I2 LA2 LB2.
  apply wp_bind, wp_high_wins_B; try done || lia. intros v3 s3 I3 LA3 LB3.
  apply wp_high_head_A; try done || lia. intros v4 s4 I4 LA4 LB4. apply HQ; [done|split|]; lia.
Qed.

Lemma wp_high_finish l v s (Q R : Z → mem → Prop) :
  high_exit 0 (Goto l v) s →
  (∀ W tl st c, W ≡ₚ A ++ B → (good → W = merge A B) → length tl = n → st_same st0 st → R kSuccess (mkMem (P ++ W ++ Q0) (Some tl) st c)) →
  wp (high_finish (Goto l v)) Q R s.
Proof.
  intros He HR. destruct l; [|done|].
  - destruct He as ((Mg & Ar & Br & Hh & tq & st & c & -> & Hp & Hst & HL & Hn & Ed & Et & Ec & EA & EB & _) & H0).
    assert (HW : Ar ++ Br ++ Mg ≡ₚ A ++ B ∧ (good → Ar ++ Br ++ Mg = merge A B)).
    { destruct Hp as (A1 & B1 & HA & HB & HP & HM). split.
      - rewrite HA, HB, HP, <- !app_assoc. f_equiv. rewrite !app_assoc. f_equiv. apply Permutation_app_comm.
      - intros G. rewrite <- (HM G), app_assoc. f_equal. destruct Ar; [by rewrite merge_nil_l|].
        destruct Br; [by rewrite merge_nil_r, app_nil_r|simpl in *; lia]. }
    cbn [high_finish]. destruct (Z.ltb_spec 0 (lengthB v)).
    + destruct Ar; [|simpl in *; lia]. change (Br ++ tq) with (([] ++ Br) ++ tq).
      apply wp_bind, wp_high_copy_B; [lens|done|done|done|]. intros H' LH'. destruct H'; [|done].
      apply wp_return. cbn [app] in *. apply HR; try apply HW; [|done]. done.
    + destruct Br; [|simpl in *; lia]. destruct Hh; [|done]. apply wp_bind, wp_mret, wp_return. cbn [app] in HW |- *.
      rewrite (app_assoc Ar). by apply HR; try apply HW.
  - destruct He as ((Mg & Ar & Br & Hh & tq & st & c & -> & Hp & Hst & HL & Hn & Ed & Et & Ec & EA & EB & _) & H1).
    destruct Br as [|b [|? ?]]; [simpl in *; lia| |simpl in *; lia].
    assert (HW : b :: Ar ++ Mg ≡ₚ A ++ B ∧ (good → b :: Ar ++ Mg = merge A B)).
    { destruct Hp as (A1 & B1 & HA & HB & HP & HM). split.
      - rewrite HA, HB, HP, <- !app_assoc. cbn [app]. rewrite !app_assoc. apply Permutation_middle.
      - intros G. rewrite <- (HM G). change [b] with ([b] ++ []). rewrite merge_app_r; [by rewrite merge_nil_r|].
        intros a b' Ha ->%list_elem_of_singleton. destruct G as (_ & _ & _ & G & _). apply (G b B1); [done|]. rewrite HA. apply elem_of_app. by left. }
    cbn [high_finish]. change Ar with ([] ++ Ar) at 1. cbv zeta.
    apply wp_bind, wp_high_copy_A; [lens|lens|done|]. intros H' LH'. destruct H' as [|h' [|? ?]]; [simpl in *; lia| |simpl in *; lia].
    change ([b] ++ tq) with (([] ++ [b]) ++ tq). apply wp_bind, ld_temp_last; [done|].
    apply wp_bind. eapply (wp_sto Work); [done|cbn [m_work app]; apply aset_app; lens|].
    cbn [set_arr m_temp m_st m_ctx]. apply wp_return.
    replace (P ++ b :: (Ar ++ Mg) ++ Q0) with (P ++ (b :: Ar ++ Mg) ++ Q0) by (by app_norm). by apply HR; try apply HW.
Qed.

Lemma wp_MergeHigh tl c (Q R : Z → mem → Prop) :
  A ≠ [] → B ≠ [] → len B <= len tl → length tl = n → (0 < length st0)%nat →
  (∀ W tl st c, W ≡ₚ A ++ B → (good → W = merge A B) → length tl = n → st_same st0 st → Q kSuccess (mkMem (P ++ W ++ Q0) (Some tl) st c)) →
  (∀ s', throws → Q kFailure s') →
  wp (MergeHigh sort_compare sort_threw (len P) (len A) (len P + len A) (len B)) Q R (mkMem (P ++ A ++ B ++ Q0) (Some tl) st0 c).
Proof.
  intros NA NB HlB Hn H0 HQ HF. apply wp_fn.
  assert (ES : st_same st0 st0) by done.
  assert (∃ A' a, A = A' ++ [a]) as (A' & a & EA) by (apply snoc_cases; clear -NA; destruct A; [done|lens]).
  assert (∃ B' b, B = B' ++ [b]) as (B' & b & EB) by (apply snoc_cases; clear -NB; destruct B; [done|lens]).
  assert (∃ mg, st0 !! 0%nat = Some mg) as [mg Emg] by (apply lookup_lt_is_Some_2; lia).
  assert (LA : 1 <= len A) by (rewrite EA; lens). assert (LB : 1 <= len B) by (rewrite EB; lens).
  apply wp_bind. rewrite <- (take_drop (length B) tl). set (h := take _ tl). set (tq := drop _ tl).
  assert (Lh : length h = length B) by (subst h; lens). assert (Lq : (length B + length tq)%nat = n) by (subst tq; lens).
  eapply (wp_ea_copy Temp _ Work); [done|done| |].
  { cbn [m_work]. rewrite (app_assoc P A). apply (acopy_app [] h tq (P ++ A) B); done || lens. }
  cbn [set_arr m_work m_st m_ctx app]. rewrite wp_assoc. apply wp_bind.
  replace (P ++ A ++ B ++ Q0) with (P ++ (A' ++ [a]) ++ (B' ++ [b]) ++ [] ++ Q0) by (by rewrite EA, EB).
  apply wp_high_take_A; [rewrite <- EA, <- EB; lia|rewrite <- EA; lia|].
  set (s := mkMem _ _ _ _). set (v := mkMV (len P + len A + len B - 2) (len B - 1) (len P + len A - 2) (len A - 1) (len B) 0 0). cbv zeta.
  assert (Hinv : ∀ mg0, high_inv (v mg0) s).
  { intros mg0. exists ([a] ++ []), A', B, (a :: B'), tq, st0, c. subst v s. cbn [dest cursorTemp cur lengthA lengthB].
    split_and!; try done; try lens; try (rewrite ?EA, ?EB; lens).
    exists [a], []. split_and!; [by rewrite EA|by rewrite app_nil_r|done|]. intros (C & _ & _ & _ & G). rewrite EA.
    symmetry. apply (merge_snoc_l lt A' [a] B). intros a' b' ->%list_elem_of_singleton Hb. by apply (G A' a). }
  destruct (Z.eqb_spec (len A - 1) 0); [apply (wp_high_finish Succeed); [split; [done|left; subst v; simpl; lia]|done]|].
  destruct (Z.eqb_spec (len B) 1); [apply (wp_high_finish CopyA); [split; [done|subst v; simpl; lia]|done]|].
  apply wp_bind. eapply (wp_st_get _ mg); [exact Emg|].
  apply wp_bind, (wp_merge_loop sort_compare sort_threw high_inv high_ok (λ l v s, high_exit 0 (Goto l v) s)).
  - intros u u' s' (E1 & E2 & E3 & E4 & E5) (Mg & Ar & Br & Hh & tq' & st & c' & Hs). exists Mg, Ar, Br, Hh, tq', st, c'.
    by rewrite E1, E2, E3, E4, E5.
  - unfold high_ok. intros ? [? ?]. lia.
  - unfold high_ok. intros u u' (_ & _ & _ & -> & ->). done.
  - intros u s' x Q' R' (Mg & Ar & Br & Hh & tq' & st & c' & -> & Hp & Hst & Hrest) HQ'. eapply wp_st_set_gallop; [exact Hst|].
    intros st' Hst'. apply HQ'. exists Mg, Ar, Br, Hh, tq', st', c'. split_and!; done || apply Hrest.
  - apply high_turns_straight.
  - apply high_turns_gallop.
  - apply Hinv.
  - split; cbn [lengthA lengthB]; subst v; cbn; lia.
  - intros l v' s' He. by apply (wp_high_finish l).
  - done.
Qed.
End high.
