(* ===== verification/TimSortStack.v ===== *)
(** * Array sorts: the pending-run stack

    The runs waiting to be merged, as the [st] array holds them: MergeAt
    merges two neighbours, MergeCollapse restores the length invariant after a
    push, MergeForceCollapse leaves one run.  The length invariant bounds the
    stack well below the 85 entries allocated for it. *)

From stdpp Require Import sorting.
From S2P Require Import Prelude F64 Arrays StableMerge TimSort TimSortSpec TimSortMerge TimSortHigh.

Open Scope arr_scope.

(** ** The stack as a list of run lengths, bottom first *)

Definition sumz (l : list Z) : Z := foldr Z.add 0 l.

Lemma sumz_app l1 l2 : sumz (l1 ++ l2) = sumz l1 + sumz l2.
Proof. induction l1; simpl; [done|]. unfold sumz in *. lia. Qed.

(** [st] holds the stack [ls]: the size, then each run's base and length. *)
Definition rep (st ls : list Z) : Prop :=
  length st = 172%nat ∧ (length ls <= 85)%nat ∧ st !! 1%nat = Some (len ls) ∧
  ∀ i, (i < length ls)%nat → st !! (2 + 2 * i)%nat = Some (sumz (take i ls)) ∧ st !! (3 + 2 * i)%nat = ls !! i.

Lemma rep_same st st' ls : rep st ls → st_same st st' → rep st' ls.
Proof.
  intros (HL & Hn & H1 & Hi) (_ & HL' & Hs). split_and!; [lia|done|rewrite Hs by lia; done|].
  intros i Hlt. rewrite !Hs by lia. auto.
Qed.

Lemma RunBase_nat i : RunBase (Z.of_nat i) = Z.of_nat (2 + 2 * i).
Proof. unfold RunBase, kStRuns. rewrite Z.shiftl_mul_pow2; lia. Qed.
Lemma RunLength_nat i : RunLength (Z.of_nat i) = Z.of_nat (3 + 2 * i).
Proof. unfold RunLength, kStRuns. rewrite Z.shiftl_mul_pow2; lia. Qed.

(** Lookups in an updated [st] at positions [lia] tells apart. *)
Ltac look := repeat first
  [ rewrite list_lookup_insert_eq by (rewrite ?length_insert; lia)
  | rewrite list_lookup_insert_ne by lia ].

Lemma rep_collapse1 st l1 a b :
  rep st (l1 ++ [a; b]) → rep (<[1%nat := len l1 + 2 - 1]> (<[(3 + 2 * length l1)%nat := a + b]> st)) (l1 ++ [a + b]).
Proof.
  intros (HL & Hn & H1 & Hi). rewrite length_app in *. simpl in Hn.
  split_and!; [by rewrite !length_insert|rewrite length_app; simpl; lia|look; f_equal; rewrite length_app; simpl; lia|].
  intros i Hlt. rewrite length_app in Hlt. simpl in Hlt. specialize (Hi i ltac:(simpl; lia)) as [Hb Hl].
  rewrite take_app_le in Hb |- * by lia. destruct (decide (i = length l1)) as [->|].
  - look. by rewrite list_lookup_middle.
  - look. rewrite lookup_app_l in Hl |- * by lia. done.
Qed.

Lemma rep_collapse2 st l1 a b x :
  rep st (l1 ++ [a; b; x]) →
  rep (<[1%nat := len l1 + 3 - 1]> (<[(3 + 2 * (length l1 + 1))%nat := x]>
        (<[(2 + 2 * (length l1 + 1))%nat := sumz l1 + a + b]> (<[(3 + 2 * length l1)%nat := a + b]> st)))) (l1 ++ [a + b; x]).
Proof.
  intros (HL & Hn & H1 & Hi). rewrite length_app in *. simpl in Hn.
  split_and!; [by rewrite !length_insert|rewrite length_app; simpl; lia|look; f_equal; rewrite length_app; simpl; lia|].
  intros i Hlt. rewrite length_app in Hlt. simpl in Hlt.
  destruct (decide (i = (length l1 + 1)%nat)) as [->|].
  - look. rewrite take_app_ge, lookup_app_r by lia. rewrite Nat.add_comm, Nat.add_sub. simpl. rewrite sumz_app. simpl. split; f_equal; lia.
  - specialize (Hi i ltac:(simpl; lia)) as [Hb Hl]. rewrite take_app_le in Hb |- * by lia. destruct (decide (i = length l1)) as [->|].
    + look. by rewrite list_lookup_middle.
    + look. rewrite lookup_app_l in Hl |- * by lia. done.
Qed.

(** The invariant of the whole stack, top first: the runs grow downwards, each
    longer than the two above it together. *)
Fixpoint run_inv (T : list Z) : Prop :=
  match T with
  | [] => True
  | x :: r => run_inv r ∧ match r with [] => True | y :: r' => x < y ∧ match r' with [] => True | z :: _ => x + y < z end end
  end.

Lemma run_inv_drop k T : run_inv T → run_inv (drop k T).
Proof. revert k. induction T as [|x T IH]; intros [|k]; simpl; auto. intros [HT _]. auto. Qed.

Lemma sumz_nonneg T : Forall (λ x, 1 <= x) T → 0 <= sumz T.
Proof. induction 1; simpl; unfold sumz in *; lia. Qed.

(** Lengths at least double every other run. *)
Lemma run_inv_growth k x r m : length r = k → run_inv (x :: r) → Forall (λ x, 1 <= x) r → 0 < m <= x →
  m * 2 ^ (len r / 2) <= sumz (x :: r).
Proof.
  revert x r m. induction (lt_wf k) as [k _ IH]. intros x r m Hk Hinv HF Hm.
  destruct r as [|y [|z r]]; [change (m * 1 <= x + 0); lia| |].
  - apply Forall_cons in HF as [Hy _]. change (m * 1 <= x + (y + 0)). lia.
  - apply Forall_cons in HF as [Hy HF]. apply Forall_cons in HF as [Hz HF]. destruct Hinv as [[Hr Hyz] (Hxy & Hxyz)].
    specialize (IH (length r) ltac:(simpl in Hk; lia) z r (2 * m) eq_refl Hr HF ltac:(lia)).
    replace (len (y :: z :: r) / 2) with (len r / 2 + 1).
    2: { cbn [length]. rewrite <- Z.div_add by lia. f_equal. lia. }
    rewrite Z.pow_add_r by (try apply Z.div_pos; lia). change (sumz (x :: y :: z :: r)) with (x + (y + sumz (z :: r))). lia.
Qed.

Lemma run_inv_bound T : run_inv T → Forall (λ x, 1 <= x) T → sumz T < 2 ^ 31 → (length T <= 62)%nat.
Proof.
  intros Hinv HF HS. destruct T as [|x r]; [simpl; lia|]. apply Forall_cons in HF as [Hx HF].
  pose proof (run_inv_growth (length r) x r 1 eq_refl Hinv HF ltac:(lia)) as HG.
  destruct (Z.le_gt_cases 31 (len r / 2)) as [Hbig|Hsmall].
  - pose proof (Z.pow_le_mono_r 2 31 (len r / 2) ltac:(lia) Hbig). lia.
  - pose proof (Z.mul_succ_div_gt (len r) 2 ltac:(lia)). cbn [length]. lia.
Qed.

Section stack.
Context {elem ctx : Type} `{Inhabited elem}.
Context (sort_compare : elem → elem → ctx → num * ctx) (sort_threw : ctx → bool) (lt : elem → elem → bool).

Notation mem := (mem (elem:=elem) (ctx:=ctx)).
Notation consistent := (consistent sort_compare sort_threw lt).
Notation throws := (throws sort_compare sort_threw).
Notation reorders := (reorders sort_compare sort_threw lt).

(** Reads and writes of the stack. *)
Lemma wp_get_size ls (Q : Z → mem → Prop) R s : rep (m_st s) ls → Q (len ls) s → wp (st_get kStRunsSize) Q R s.
Proof. intros (_ & _ & H1 & _) HQ. eapply wp_st_get; [|exact HQ]. change kStRunsSize with (Z.of_nat 1). by rewrite aget_nat. Qed.

Lemma wp_get_length ls i k x (Q : Z → mem → Prop) R s :
  rep (m_st s) ls → k = Z.of_nat i → ls !! i = Some x → Q x s → wp (st_get (RunLength k)) Q R s.
Proof.
  intros (_ & _ & _ & Hi) -> Hx HQ. eapply wp_st_get; [|exact HQ]. rewrite RunLength_nat, aget_nat.
  destruct (Hi i) as [_ ->]; [by eapply lookup_lt_Some|done].
Qed.

Lemma wp_get_base ls i k (Q : Z → mem → Prop) R s :
  rep (m_st s) ls → k = Z.of_nat i → (i < length ls)%nat → Q (sumz (take i ls)) s → wp (st_get (RunBase k)) Q R s.
Proof.
  intros (_ & _ & _ & Hi) -> Hx HQ. eapply wp_st_get; [|exact HQ]. rewrite RunBase_nat, aget_nat. by destruct (Hi i) as [-> _].
Qed.

Lemma wp_set_nat k i x (Q : unit → mem → Prop) R w t st c :
  k = Z.of_nat i → (i < length st)%nat → Q tt (mkMem w t (<[i := x]> st) c) → wp (st_set k x) Q R (mkMem w t st c).
Proof. intros -> Hi HQ. eapply wp_st_set; [by apply aset_nat|done]. Qed.

Lemma wp_PushRun ls x (Q R : Z → mem → Prop) w t st c :
  rep st ls → (length ls < 85)%nat →
  (∀ st', rep st' (ls ++ [x]) → Q kSuccess (mkMem w t st' c)) →
  wp (PushRun (sumz ls) x) Q R (mkMem w t st c).
Proof.
  intros Hr Hn HQ. destruct (Hr) as (HL & _ & H1 & Hi). apply wp_fn, wp_bind, (wp_get_size ls); [done|].
  apply wp_bind, (wp_set_nat _ (2 + 2 * length ls)); [apply RunBase_nat|lia|].
  apply wp_bind, (wp_set_nat _ (3 + 2 * length ls)); [apply RunLength_nat|rewrite length_insert; lia|].
  apply wp_bind, (wp_set_nat _ 1); [done|rewrite !length_insert; lia|]. apply wp_return, HQ.
  split_and!; [by rewrite !length_insert|rewrite length_app; simpl; lia|look; f_equal; rewrite length_app; simpl; lia|].
  intros i Hlt. rewrite length_app in Hlt. simpl in Hlt. destruct (decide (i = length ls)) as [->|].
  - look. rewrite take_app_length, list_lookup_middle by done. done.
  - look. rewrite take_app_le, lookup_app_l by lia. apply Hi. lia.
Qed.

(** The updates of the stack that open MergeAt. *)
Lemma wp_merge_stack l1 a b l2 k (K : MM Z) (Q : Z → mem → Prop) R w t st c :
  rep st (l1 ++ a :: b :: l2) → (length l2 <= 1)%nat → k = len l1 →
  (∀ st', rep st' (l1 ++ (a + b) :: l2) → wp K Q R (mkMem w t st' c)) →
  wp (st_set (RunLength k) (a + b) ;;;
      (if k =? len (l1 ++ a :: b :: l2) - 3 then
         runBase <- st_get (RunBase (k + 2)) ;;
         length <- st_get (RunLength (k + 2)) ;;
         st_set (RunBase (k + 1)) runBase ;;;
         st_set (RunLength (k + 1)) length
       else mret tt) ;;;
      st_set kStRunsSize (len (l1 ++ a :: b :: l2) - 1) ;;;
      K) Q R (mkMem w t st c).
Proof.
  intros Hr Hl2 -> HQ. destruct (Hr) as (HL & Hn & _). rewrite length_app in Hn. simpl in Hn.
  apply wp_bind, (wp_set_nat _ (3 + 2 * length l1)); [apply RunLength_nat|lia|].
  set (st1 := <[(3 + 2 * length l1)%nat := a + b]> st). assert (HL1 : length st1 = 172%nat) by (subst st1; by rewrite length_insert).
  destruct l2 as [|x [|? ?]]; [| |simpl in *; lia].
  - destruct (Z.eqb_spec (len l1) (len (l1 ++ [a; b]) - 3)); [rewrite length_app in *; simpl in *; lia|]. apply wp_bind, wp_mret.
    apply wp_bind, (wp_set_nat _ 1); [done|lia|]. apply HQ. rewrite length_app. simpl.
    replace (Z.of_nat (length l1 + 2) - 1) with (len l1 + 2 - 1) by lia. by apply rep_collapse1.
  - destruct (Z.eqb_spec (len l1) (len (l1 ++ [a; b; x]) - 3)); [|rewrite length_app in *; simpl in *; lia].
    destruct (Hr) as (_ & _ & _ & Hi). destruct (Hi (length l1 + 2)%nat) as [Hb Hx]; [rewrite length_app; simpl; lia|].
    rewrite take_app_ge, lookup_app_r in * by lia. replace (length l1 + 2 - length l1)%nat with 2%nat in * by lia.
    simpl in Hx. rewrite sumz_app in Hb. simpl in Hb.
    apply wp_bind, wp_bind. eapply (wp_st_get _ (sumz l1 + (a + (b + 0)))).
    { cbn [m_st]. replace (len l1 + 2) with (Z.of_nat (length l1 + 2)) by lia. rewrite RunBase_nat, aget_nat. subst st1. look. done. }
    apply wp_bind. eapply (wp_st_get _ x).
    { cbn [m_st]. replace (len l1 + 2) with (Z.of_nat (length l1 + 2)) by lia. rewrite RunLength_nat, aget_nat. subst st1. look. done. }
    replace (len l1 + 1) with (Z.of_nat (length l1 + 1)) by lia.
    apply wp_bind, (wp_set_nat _ (2 + 2 * (length l1 + 1))); [apply RunBase_nat|lia|].
    apply (wp_set_nat _ (3 + 2 * (length l1 + 1))); [apply RunLength_nat|rewrite length_insert; lia|].
    apply wp_bind, (wp_set_nat _ 1); [done|rewrite !length_insert; lia|]. apply HQ. rewrite length_app. simpl.
    replace (Z.of_nat (length l1 + 3) - 1) with (len l1 + 3 - 1) by lia.
    replace (sumz l1 + (a + (b + 0))) with (sumz l1 + a + b) by lia. by apply rep_collapse2.
Qed.

(** ** Merging two neighbours *)

Definition lengths (rs : list (list elem)) : list Z := (λ l, len l) <$> rs.

Lemma lengths_app r1 r2 : lengths (r1 ++ r2) = lengths r1 ++ lengths r2.
Proof. apply fmap_app. Qed.
Lemma lengths_length rs : length (lengths rs) = length rs.
Proof. apply length_fmap. Qed.
Lemma sumz_lengths rs : sumz (lengths rs) = len (concat rs).
Proof. induction rs as [|r rs IH]; simpl; [done|]. rewrite length_app. unfold sumz in *. simpl. lia. Qed.

(** A run: never empty, sorted when the comparator is consistent. *)
Definition run (r : list elem) : Prop := r ≠ [] ∧ (consistent → sorted lt r).

(** What trimming two runs at each other's ends leaves to merge. *)
Lemma trim_A A1 A2 B b : consistent → sorted lt B → B = b :: tail B → splits lt b false A1 A2 →
  merge lt (A1 ++ A2) B = A1 ++ merge lt A2 B ∧ (∀ a, a ∈ A2 → lt b a = true).
Proof.
  intros C SB EB [H1 H2]. split.
  - apply merge_app_l. intros a b' Ha Hb. specialize (H1 a Ha). unfold below in H1. apply negb_true_iff in H1.
    apply (le_trans lt (proj1 C) a b b'); [done|]. rewrite EB in *. by eapply (elem_of_le sort_compare sort_threw lt (tail B)).
  - intros a Ha. specialize (H2 a Ha). unfold below in H2. by apply negb_false_iff in H2.
Qed.

Lemma trim_B A B1 B2 l a : consistent → sorted lt A → A = l ++ [a] → splits lt a true B1 B2 →
  merge lt A (B1 ++ B2) = merge lt A B1 ++ B2 ∧ (∀ b, b ∈ B1 → lt b a = true).
Proof.
  intros C SA EA [H1 H2]. split; [|done]. apply merge_snoc_r. intros a' b Ha Hb. rewrite EA in *.
  apply (le_trans lt (proj1 C) a' a b); [|by apply H2]. by eapply (elem_of_last_le sort_compare sort_threw lt l).
Qed.

Lemma wp_trim_merge P A B Q1 tl st c (Q : Z → mem → Prop) :
  run A → run B → len A + len B <= 2 * len tl → len A < 2 ^ 31 → len B < 2 ^ 31 → (0 < length st)%nat →
  (∀ W tl' st' c', W ≡ₚ A ++ B → (consistent → W = merge lt A B) → length tl' = length tl → st_same st st' →
     Q kSuccess (mkMem (P ++ W ++ Q1) (Some tl') st' c')) →
  (∀ s', throws → Q kFailure s') →
  wp (keyRight <- ld Work (len P + len A) ;;
      k <- GallopRight sort_compare sort_threw Work keyRight (len P) (len A) 0 ;;
      if k <? 0 then return_ kFailure else
      let baseA := len P + k in
      let lengthA := len A - k in
      if lengthA =? 0 then return_ kSuccess else
      keyLeft <- ld Work (baseA + lengthA - 1) ;;
      lengthB <- GallopLeft sort_compare sort_threw Work keyLeft (len P + len A) (len B) (len B - 1) ;;
      if lengthB <? 0 then return_ kFailure else
      if lengthB =? 0 then return_ kSuccess else
      r <- (if lengthA <=? lengthB then MergeLow sort_compare sort_threw baseA lengthA (len P + len A) lengthB
            else MergeHigh sort_compare sort_threw baseA lengthA (len P + len A) lengthB) ;;
      return_ r) Q Q (mkMem (P ++ A ++ B ++ Q1) (Some tl) st c).
Proof.
  intros [NA SA] [NB SB] Htl HA HB Hst HQ HF.
  assert (∃ b B', B = b :: B') as (b & B' & EB) by (clear -NB; destruct B; eauto; done).
  assert (0 < len A) by (clear -NA; destruct A; [done|lens]). assert (0 < len B) by (rewrite EB; lens).
  apply wp_bind. eapply (wp_ld Work _ b); [done|cbn [m_work]; rewrite (app_assoc P), EB; apply aget_app; lens|].
  apply wp_bind. eapply (wp_GallopRight _ _ lt _ _ _ _ Work b P A (B ++ Q1)); [done|done|done|lia|lia| |].
  2: { intros. change (kFailure <? 0) with true. by apply wp_return, HF. }
  intros A1 A2 c1 EA HsA. destruct (Z.ltb_spec (len A1) 0); [lia|]. cbv zeta.
  assert (HtA : consistent → merge lt A B = A1 ++ merge lt A2 B ∧ (∀ a, a ∈ A2 → lt b a = true)).
  { intros C. rewrite EA. apply trim_A; [done|by apply SB|by rewrite EB|by apply HsA, SA]. }
  assert (LA : len A = len A1 + len A2) by (rewrite EA; lens).
  destruct (Z.eqb_spec (len A - len A1) 0).
  { apply wp_return. rewrite (app_assoc A). apply HQ; [done| |done|done]. intros C. destruct (HtA C) as [-> _].
    destruct A2; [|simpl in *; lia]. by rewrite merge_nil_l, EA, app_nil_r. }
  destruct (snoc_cases A2) as (l & a & EA2); [lia|].
  apply wp_bind. eapply (wp_ld Work _ a); [done| |].
  { cbn [m_work]. replace (P ++ A ++ B ++ Q1) with ((P ++ A1 ++ l) ++ a :: (B ++ Q1)) by (rewrite EA, EA2; by app_norm).
    apply aget_app. rewrite EA2 in *. lens. }
  apply wp_bind. eapply (wp_GallopLeft _ _ lt _ _ _ _ Work a (P ++ A) B Q1); [cbn [get_arr m_work]; by app_norm|lens|done|lia|lia| |].
  2: { intros. change (kFailure <? 0) with true. by apply wp_return, HF. }
  intros B1 B2 c2 EB12 HsB. destruct (Z.ltb_spec (len B1) 0); [lia|].
  assert (SA2 : consistent → sorted lt A2) by (intros C; specialize (SA C); rewrite EA in SA; by apply sorted_app in SA as (_ & ? & _)).
  assert (HtB : consistent → merge lt A2 B = merge lt A2 B1 ++ B2 ∧ (∀ b, b ∈ B1 → lt b a = true)).
  { intros C. rewrite EB12. eapply trim_B; [done|by apply SA2|exact EA2|by apply HsB, SB]. }
  assert (LB : len B = len B1 + len B2) by (rewrite EB12; lens).
  destruct (Z.eqb_spec (len B1) 0).
  { apply wp_return. rewrite (app_assoc A). apply HQ; [done| |done|done]. intros C. destruct (HtA C) as [-> _], (HtB C) as [-> _].
    destruct B1; [|simpl in *; lia]. rewrite merge_nil_r, EA, EB12. by app_norm. }
  replace (P ++ A ++ B ++ Q1) with ((P ++ A1) ++ A2 ++ B1 ++ (B2 ++ Q1)) by (rewrite EA, EB12; by app_norm).
  replace (len P + len A1) with (len (P ++ A1)) by lens. replace (len A - len A1) with (len A2) by lia.
  replace (len P + len A) with (len (P ++ A1) + len A2) by lens.
  assert (NA2 : A2 ≠ []) by (rewrite EA2; by destruct l). assert (NB1 : B1 ≠ []) by (by intros ->).
  assert (Hgood : consistent → good sort_compare sort_threw lt A2 B1).
  { intros C. split_and!; [done|by apply SA2|specialize (SB C); rewrite EB12 in SB; by apply sorted_app in SB as (? & _)| |].
    - intros b1 l1 E1 a1 Ha1. destruct (HtA C) as [_ Hb1]. rewrite E1, EB in EB12. injection EB12 as -> _. by apply Hb1.
    - intros l1 a1 E1 b1 Hb1. rewrite EA2 in E1. apply app_inj_tail in E1 as [_ <-]. by apply (HtB C). }
  assert (Hdone : ∀ W tl' st' c', W ≡ₚ A2 ++ B1 → (good sort_compare sort_threw lt A2 B1 → W = merge lt A2 B1) →
            length tl' = length tl → st_same st st' → Q kSuccess (mkMem ((P ++ A1) ++ W ++ B2 ++ Q1) (Some tl') st' c')).
  { intros W tl' st' c' HP HW Ht Hs. replace ((P ++ A1) ++ W ++ B2 ++ Q1) with (P ++ (A1 ++ W ++ B2) ++ Q1) by (by app_norm).
    apply HQ; [|intros C; destruct (HtA C) as [-> _], (HtB C) as [-> _]; by rewrite (HW (Hgood C))|done|done].
    rewrite EA, EB12, HP. by app_norm. }
  apply wp_bind. destruct (Z.leb_spec (len A2) (len B1)).
  - by eapply (wp_MergeLow sort_compare sort_threw lt A2 B1 (P ++ A1) (B2 ++ Q1) (length tl) st); try done; try lia.
  - by eapply (wp_MergeHigh sort_compare sort_threw lt A2 B1 (P ++ A1) (B2 ++ Q1) (length tl) st); try done; try lia.
Qed.

Lemma wp_MergeAt Rs1 A B Rs2 Q0 k tl st c (Q R : Z → mem → Prop) :
  rep st (lengths (Rs1 ++ A :: B :: Rs2)) → (length Rs2 <= 1)%nat → k = len Rs1 → run A → run B →
  len A + len B <= 2 * len tl → len A < 2 ^ 31 → len B < 2 ^ 31 →
  (∀ W tl' st' c', reorders (A ++ B) W → run W → rep st' (lengths (Rs1 ++ W :: Rs2)) → length tl' = length tl →
     Q kSuccess (mkMem (concat (Rs1 ++ W :: Rs2) ++ Q0) (Some tl') st' c')) →
  (∀ s', throws → Q kFailure s') →
  wp (MergeAt sort_compare sort_threw k) Q R (mkMem (concat (Rs1 ++ A :: B :: Rs2) ++ Q0) (Some tl) st c).
Proof.
  intros Hr HL2 -> [NA SA] [NB SB] Htl HA HB HQ HF. apply wp_fn.
  assert (Elen : lengths (Rs1 ++ A :: B :: Rs2) = lengths Rs1 ++ len A :: len B :: lengths Rs2) by (rewrite lengths_app; done).
  rewrite Elen in Hr. set (ls := lengths Rs1 ++ len A :: len B :: lengths Rs2) in *.
  assert (Ek : length (lengths Rs1) = length Rs1) by apply lengths_length.
  apply wp_bind, (wp_get_size ls); [done|].
  apply wp_bind, (wp_get_base ls (length Rs1)); [done|done|subst ls; rewrite length_app; simpl; lia|].
  apply wp_bind, (wp_get_length ls (length Rs1) _ (len A)); [done|done|subst ls; by rewrite <- Ek, list_lookup_middle|].
  apply wp_bind, (wp_get_base ls (length Rs1 + 1)); [done|lia|subst ls; rewrite length_app; simpl; lia|].
  apply wp_bind, (wp_get_length ls (length Rs1 + 1) _ (len B)); [done|lia| |].
  { subst ls. rewrite lookup_app_r by lia. rewrite Ek, Nat.add_comm, Nat.add_sub. done. }
  assert (E1 : sumz (take (length Rs1) ls) = len (concat Rs1)).
  { subst ls. by rewrite <- Ek, take_app_length, sumz_lengths. }
  assert (E2 : sumz (take (length Rs1 + 1) ls) = len (concat Rs1) + len A).
  { subst ls. rewrite take_app_ge, Ek by lia. rewrite Nat.add_comm, Nat.add_sub, sumz_app, sumz_lengths. simpl. lia. }
  rewrite E1, E2. clear E1 E2.
  apply (wp_merge_stack (lengths Rs1) (len A) (len B) (lengths Rs2)); [done|by rewrite lengths_length|by rewrite Ek|].
  clear st Hr. intros st Hr.
  replace (concat (Rs1 ++ A :: B :: Rs2) ++ Q0) with (concat Rs1 ++ A ++ B ++ concat Rs2 ++ Q0) by (rewrite concat_app; simpl; by app_norm).
  apply wp_trim_merge; try done. { destruct Hr as [-> _]. lia. }
  intros W tl' st' c' HP HW Ht Hs.
  replace (concat Rs1 ++ W ++ concat Rs2 ++ Q0) with (concat (Rs1 ++ W :: Rs2) ++ Q0) by (rewrite concat_app; simpl; by app_norm).
  apply HQ; [by apply reorders_merge; [apply SA| |]| | |done].
  - split; [intros ->; apply Permutation_nil in HP; by destruct A|]. intros C. rewrite (HW C). apply merge_sorted; [apply C|auto..].
  - replace (lengths (Rs1 ++ W :: Rs2)) with (lengths Rs1 ++ (len A + len B) :: lengths Rs2); [by eapply rep_same|].
    rewrite lengths_app. simpl. do 2 f_equal. rewrite HP. lens.
Qed.

(** ** The stack under a sort

    [T] is the stack, top first, of runs that reorder [S]; [nt] is the length
    of the temporary array, once allocated. *)

Definition stacked (S Q0 : list elem) (nt : option nat) (T : list (list elem)) (s : mem) : Prop :=
  ∃ t st c, s = mkMem (concat (reverse T) ++ Q0) t st c ∧ rep st (lengths (reverse T)) ∧ Forall run T ∧
    reorders S (concat (reverse T)) ∧ length <$> t = nt.

(** A temporary array that any merge of the runs fits in. *)
Definition roomy (S : list elem) (nt : option nat) : Prop := ∃ m, nt = Some m ∧ len S <= 2 * Z.of_nat m.

Lemma lengths_reverse T : lengths (reverse T) = reverse (lengths T).
Proof. apply fmap_reverse. Qed.

Lemma wp_stack_merge S Q0 nt Rs1 A B Rs2 T T' k s (Q : unit + unit → mem → Prop) R :
  stacked S Q0 nt T s → reverse T = Rs1 ++ A :: B :: Rs2 → (∀ W, reverse (T' W) = Rs1 ++ W :: Rs2) →
  (length Rs2 <= 1)%nat → k = len Rs1 → roomy S nt → len S < 2 ^ 31 →
  (∀ W s', len W = len A + len B → stacked S Q0 nt (T' W) s' → Q (inl tt) s') → (∀ s', throws → R kFailure s') →
  wp (r <- MergeAt sort_compare sort_threw k ;; if r <? 0 then return_ kFailure else mret (inl tt)) Q R s.
Proof.
  intros (t & st & c & -> & Hr & Hruns & Hre & Ht) ET ET' H2 Hk (m & -> & Hm) HS HQ HF.
  destruct t as [tl|]; [|done]. injection Ht as Ht. rewrite ET in *.
  assert (Hruns' : Forall run (Rs1 ++ A :: B :: Rs2)) by (rewrite <- ET; by apply Forall_reverse).
  apply Forall_app in Hruns' as [HR1 HR2]. apply Forall_cons in HR2 as [RA HR2]. apply Forall_cons in HR2 as [RB HR2].
  assert (HL : len S = len (concat Rs1) + len A + len B + len (concat Rs2)).
  { rewrite <- (reorders_length _ _ _ _ _ Hre), concat_app. simpl. lens. }
  apply wp_bind, wp_MergeAt; try done; try lia.
  intros W tl' st' c' HW HrW Hst Htl. apply wp_mret, (HQ W).
  { apply reorders_length in HW. rewrite HW. lens. }
  exists (Some tl'), st', c'. rewrite ET'. split_and!; [done|done| | |simpl; congruence].
  - apply Forall_reverse. rewrite ET'. apply Forall_app. split; [done|]. by constructor.
  - eapply reorders_trans; [exact Hre|]. rewrite !concat_app. simpl. apply reorders_app_l. rewrite app_assoc. by apply reorders_app_r.
Qed.

Lemma wp_merge_top S Q0 nt x y T k s (Q : unit + unit → mem → Prop) R :
  stacked S Q0 nt (x :: y :: T) s → k = len T → roomy S nt → len S < 2 ^ 31 →
  (∀ W s', len W = len y + len x → stacked S Q0 nt (W :: T) s' → Q (inl tt) s') → (∀ s', throws → R kFailure s') →
  wp (r <- MergeAt sort_compare sort_threw k ;; if r <? 0 then return_ kFailure else mret (inl tt)) Q R s.
Proof.
  intros Hs -> Hm HS HQ HF. eapply (wp_stack_merge S Q0 nt (reverse T) y x [] _ (λ W, W :: T)); try done.
  - rewrite !reverse_cons. by app_norm.
  - intros W. by rewrite reverse_cons.
  - simpl. lia.
  - by rewrite length_reverse.
Qed.

Lemma wp_merge_second S Q0 nt x y z T k s (Q : unit + unit → mem → Prop) R :
  stacked S Q0 nt (x :: y :: z :: T) s → k = len T → roomy S nt → len S < 2 ^ 31 →
  (∀ W s', len W = len z + len y → stacked S Q0 nt (x :: W :: T) s' → Q (inl tt) s') → (∀ s', throws → R kFailure s') →
  wp (r <- MergeAt sort_compare sort_threw k ;; if r <? 0 then return_ kFailure else mret (inl tt)) Q R s.
Proof.
  intros Hs -> Hm HS HQ HF. eapply (wp_stack_merge S Q0 nt (reverse T) z y [x] _ (λ W, x :: W :: T)); try done.
  - rewrite !reverse_cons. by app_norm.
  - intros W. rewrite !reverse_cons. by app_norm.
  - by rewrite length_reverse.
Qed.

(** Reading the stack from its top. *)
Lemma wp_stack_size S Q0 nt T s (Q : Z → mem → Prop) R : stacked S Q0 nt T s → Q (len T) s → wp (st_get kStRunsSize) Q R s.
Proof.
  intros (t & st & c & -> & Hr & _) HQ. eapply (wp_get_size (lengths (reverse T))); [done|]. by rewrite lengths_length, length_reverse.
Qed.

Lemma wp_stack_length S Q0 nt T s i x k (Q : Z → mem → Prop) R :
  stacked S Q0 nt T s → T !! i = Some x → k = len T - 1 - Z.of_nat i → Q (len x) s → wp (st_get (RunLength k)) Q R s.
Proof.
  intros (t & st & c & -> & Hr & _) Hi -> HQ. pose proof (lookup_lt_Some _ _ _ Hi) as Hlt.
  eapply (wp_get_length (lengths (reverse T)) (length T - 1 - i)); [done|lia| |exact HQ].
  unfold lengths. rewrite list_lookup_fmap, reverse_lookup by lia. replace (length T - Datatypes.S (length T - 1 - i))%nat with i by lia. by rewrite Hi.
Qed.

(** ** The length invariant *)

(** [RunInvariantEstablished] at the run below two others. *)
Definition holds_at (T : list Z) (i : nat) : bool :=
  match T !! (2 + i)%nat, T !! (1 + i)%nat, T !! i with
  | Some z, Some y, Some x => y + x <? z
  | _, _, _ => true
  end.

Lemma wp_RunInvariantEstablished S Q0 nt T s i k (Q : Z → mem → Prop) R :
  stacked S Q0 nt T s → (i < length T)%nat → k = len T - 1 - Z.of_nat i →
  Q (if holds_at (lengths T) i then 1 else 0) s → wp (RunInvariantEstablished k) Q R s.
Proof.
  intros Hs Hi -> HQ. apply wp_fn. unfold holds_at in HQ. destruct (Z.ltb_spec (len T - 1 - Z.of_nat i) 2).
  - apply wp_return. rewrite (lookup_ge_None_2 (lengths T) (2 + i)) in HQ by (rewrite lengths_length; lia). done.
  - destruct (lookup_lt_is_Some_2 T i) as [x Hx]; [lia|]. destruct (lookup_lt_is_Some_2 T (1 + i)) as [y Hy]; [lia|].
    destruct (lookup_lt_is_Some_2 T (2 + i)) as [z Hz]; [lia|].
    unfold lengths in HQ. rewrite !list_lookup_fmap, Hx, Hy, Hz in HQ. cbn [fmap option_fmap option_map] in HQ.
    apply wp_bind. eapply (wp_stack_length S Q0 nt T s i); [done|done|lia|].
    apply wp_bind. eapply (wp_stack_length S Q0 nt T s (1 + i)); [done|done|lia|].
    apply wp_bind. eapply (wp_stack_length S Q0 nt T s (2 + i)); [done|done|lia|]. by apply wp_return.
Qed.

Lemma wp_invariant_broken S Q0 nt T s (Q : bool → mem → Prop) R :
  stacked S Q0 nt T s → (2 <= length T)%nat →
  Q (negb (holds_at (lengths T) 0 && holds_at (lengths T) 1)) s → wp (invariant_broken (len T - 2)) Q R s.
Proof.
  intros Hs H2 HQ. apply wp_bind, (wp_RunInvariantEstablished S Q0 nt T s 0); [done|lia|lia|].
  destruct (holds_at (lengths T) 0); simpl in *; [|by apply wp_mret].
  apply wp_bind, (wp_RunInvariantEstablished S Q0 nt T s 1); [done|lia|lia|]. apply wp_mret. by destruct (holds_at (lengths T) 1).
Qed.

Definition stack_size (s : mem) : Z := match m_st s !! 1%nat with Some z => z | None => 0 end.

Lemma stacked_size S Q0 nt T s : stacked S Q0 nt T s → stack_size s = len T ∧ (length T <= 85)%nat.
Proof.
  intros (t & st & c & -> & (_ & HL & H1 & _) & _). unfold stack_size. cbn [m_st]. rewrite H1, lengths_length, length_reverse in *. done.
Qed.

Lemma run_pos r : run r → 1 <= len r.
Proof. intros [Hr _]. destruct r; [done|lens]. Qed.

Lemma stacked_pos x y r S Q0 nt s : stacked S Q0 nt (x :: y :: r) s → 1 <= len x ∧ 1 <= len y.
Proof. intros (t & st & c & _ & _ & HF & _). apply Forall_cons in HF as [Hx HF]. apply Forall_cons in HF as [Hy _]. by split; apply run_pos. Qed.

Lemma wp_MergeCollapse S Q0 nt T k s (Q R : Z → mem → Prop) :
  (length T <= k)%nat → stacked S Q0 nt T s → run_inv (drop 2 (lengths T)) → ((2 <= length T)%nat → roomy S nt) → len S < 2 ^ 31 →
  (∀ T' s', stacked S Q0 nt T' s' → run_inv (lengths T') → (length T' <= k)%nat → Q kSuccess s') →
  (∀ s', throws → Q kFailure s') →
  wp (MergeCollapse sort_compare sort_threw) Q R s.
Proof.
  intros Hk Hs Hinv Hroom HS HQ HF. apply wp_fn, wp_bind.
  apply (wp_loop_st (λ _ s, ∃ T, stacked S Q0 nt T s ∧ run_inv (drop 2 (lengths T)) ∧ ((2 <= length T)%nat → roomy S nt) ∧ (length T <= k)%nat) (λ _, stack_size)).
  { by exists T. } { destruct (stacked_size _ _ _ _ _ Hs) as [-> ?]. unfold fuel_of, kMaxMergePending. lia. }
  clear T s Hk Hs Hinv Hroom. intros _ s (T & Hs & Hinv & Hroom & HT0) _. destruct (stacked_size _ _ _ _ _ Hs) as [-> _].
  apply wp_bind, (wp_stack_size S Q0 nt T); [done|]. destruct (Z.ltb_spec 1 (len T)).
  2: { apply wp_mret, wp_return. apply (HQ T); [done| |done]. destruct T as [|x [|? ?]]; simpl in *; [done..|lia]. }
  destruct T as [|x [|y r]]; [simpl in *; lia..|]. specialize (Hroom ltac:(simpl; lia)).
  apply wp_bind. apply (wp_invariant_broken S Q0 nt _ _ _ _ Hs); [simpl; lia|].
  destruct (holds_at (lengths (x :: y :: r)) 0 && holds_at (lengths (x :: y :: r)) 1) eqn:Hh; simpl negb; cbv iota.
  - apply wp_bind, (wp_stack_length S Q0 nt (x :: y :: r) _ 1 y); [done|done|simpl; lia|].
    apply wp_bind, (wp_stack_length S Q0 nt (x :: y :: r) _ 0 x); [done|done|simpl; lia|].
    destruct (Z.leb_spec (len y) (len x)).
    + apply (wp_merge_top S Q0 nt x y r); try done; [simpl; lia|]. intros W s' HW Hs'.
      destruct (stacked_size _ _ _ _ _ Hs') as [-> _]. split; [|simpl; lia]. exists (W :: r). split_and!; [done| |done|simpl in *; lia].
      change (run_inv (drop 1 (lengths r))). apply run_inv_drop, Hinv.
    + apply wp_mret, wp_return. apply (HQ (x :: y :: r)); [done| |done]. apply andb_true_iff in Hh as [Hh0 Hh1].
      destruct (stacked_pos x y r S Q0 nt s Hs) as [Hx Hy].
      destruct r as [|z [|u r]]; cbn in *; rewrite ?Z.ltb_lt in *; split_and!; try done; try lia; naive_solver lia.
  - destruct r as [|z r]; [done|].
    apply wp_bind, (wp_stack_length S Q0 nt (x :: y :: z :: r) _ 2 z); [done|done|simpl; lia|].
    apply wp_bind, (wp_stack_length S Q0 nt (x :: y :: z :: r) _ 0 x); [done|done|simpl; lia|].
    destruct (Z.ltb_spec (len z) (len x)).
    + apply (wp_merge_second S Q0 nt x y z r); try done; [simpl; lia|]. intros W s' HW Hs'.
      destruct (stacked_size _ _ _ _ _ Hs') as [-> _]. split; [|simpl; lia]. exists (x :: W :: r). split_and!; [done| |done|simpl in *; lia].
      apply (run_inv_drop 1 _ Hinv).
    + apply (wp_merge_top S Q0 nt x y (z :: r)); try done; [simpl; lia|]. intros W s' HW Hs'.
      destruct (stacked_size _ _ _ _ _ Hs') as [-> _]. split; [|simpl; lia]. exists (W :: z :: r). split_and!; [done| |done|simpl in *; lia].
      apply (run_inv_drop 1 _ Hinv).
Qed.

Lemma wp_MergeForceCollapse S Q0 nt T s (Q R : Z → mem → Prop) :
  stacked S Q0 nt T s → ((2 <= length T)%nat → roomy S nt) → len S < 2 ^ 31 →
  (∀ T' s', stacked S Q0 nt T' s' → (length T' <= 1)%nat → Q kSuccess s') → (∀ s', throws → Q kFailure s') →
  wp (MergeForceCollapse sort_compare sort_threw) Q R s.
Proof.
  intros Hs Hroom HS HQ HF. apply wp_fn, wp_bind.
  apply (wp_loop_st (λ _ s, ∃ T, stacked S Q0 nt T s ∧ ((2 <= length T)%nat → roomy S nt)) (λ _, stack_size)).
  { by exists T. } { destruct (stacked_size _ _ _ _ _ Hs) as [-> ?]. unfold fuel_of, kMaxMergePending. lia. }
  clear T s Hs Hroom. intros _ s (T & Hs & Hroom) _. destruct (stacked_size _ _ _ _ _ Hs) as [-> _].
  apply wp_bind, (wp_stack_size S Q0 nt T); [done|]. destruct (Z.ltb_spec 1 (len T)).
  2: { apply wp_mret, wp_return. apply (HQ T); [done|lia]. }
  destruct T as [|x [|y r]]; [simpl in *; lia..|]. specialize (Hroom ltac:(simpl; lia)).
  assert (Htop : wp (r <- MergeAt sort_compare sort_threw (len (x :: y :: r) - 2) ;; if r <? 0 then return_ kFailure else mret (inl tt : unit + unit))
    (λ r' s', match r' with
              | inl _ => (∃ T, stacked S Q0 nt T s' ∧ ((2 <= length T)%nat → roomy S nt)) ∧ 0 <= stack_size s' < len (x :: y :: r)
              | inr _ => wp (return_ kSuccess) Q Q s' end) Q s).
  { apply (wp_merge_top S Q0 nt x y r); try done; [simpl; lia|]. intros W s' HW Hs'.
    destruct (stacked_size _ _ _ _ _ Hs') as [-> _]. split; [by exists (W :: r)|simpl; lia]. }
  apply wp_bind. destruct (Z.ltb_spec 0 (len (x :: y :: r) - 2)); [|by apply wp_mret].
  destruct r as [|z r]; [simpl in *; lia|].
  apply wp_bind, (wp_stack_length S Q0 nt (x :: y :: z :: r) _ 2 z); [done|done|simpl; lia|].
  apply wp_bind, (wp_stack_length S Q0 nt (x :: y :: z :: r) _ 0 x); [done|done|simpl; lia|].
  apply wp_mret. destruct (Z.ltb_spec (len z) (len x)); [|done].
  apply (wp_merge_second S Q0 nt x y z r); try done; [simpl; lia|]. intros W s' HW Hs'.
  destruct (stacked_size _ _ _ _ _ Hs') as [-> _]. split; [by exists (x :: W :: r)|simpl; lia].
Qed.
End stack.
