(* ===== verification/TimSortTop.v ===== *)
(** * Array sorts: the sorts themselves

    ArrayTimSortImpl and its two entry points.  For every comparator, however
    inconsistent, the sort ends, without a trap, in a permutation or with the
    comparator's exception; for a comparator that decides a strict weak order
    it computes the stable sort. *)

From stdpp Require Import sorting.
From S2P Require Import Prelude F64 Arrays StableMerge TimSort TimSortSpec TimSortMerge TimSortHigh TimSortStack.

Open Scope arr_scope.

Section top.
Context {elem ctx : Type} `{Inhabited elem}.
Context (sort_compare : elem → elem → ctx → num * ctx) (sort_threw : ctx → bool) (lt : elem → elem → bool).

Notation mem := (mem (elem:=elem) (ctx:=ctx)).
Notation consistent := (consistent sort_compare sort_threw lt).
Notation throws := (throws sort_compare sort_threw).
Notation reorders := (reorders sort_compare sort_threw lt).
Notation stacked := (stacked sort_compare sort_threw lt).
Notation run := (run sort_compare sort_threw lt).

Lemma wp_ComputeMinRunLength n (Q R : Z → mem → Prop) s :
  0 <= n → (∀ m, (if n <? 64 then m = n else 32 <= m <= 64) → Q m s) → wp (ComputeMinRunLength n) Q R s.
Proof.
  intros Hn HQ. apply wp_fn, wp_bind.
  apply (wp_loop (λ '(k, r) s', s' = s ∧ 0 <= r <= 1 ∧ if n <? 64 then k = n ∧ r = 0 else 32 <= k) (λ '(k, _), Z.log2 k)).
  - split_and!; [done|lia..|]. destruct (Z.ltb_spec n 64); lia.
  - unfold fuel_of. pose proof (Z.log2_nonneg n). lia.
  - intros [k r] s' (-> & Hr & Hk) _. destruct (Z.leb_spec 64 k).
    + apply wp_mret. destruct (Z.ltb_spec n 64); [lia|].
      assert (0 <= Z.lor r (Z.land k 1) <= 1).
      { assert (Z.land k 1 = k mod 2) as -> by apply (Z.land_ones k 1 ltac:(lia)). pose proof (Z.mod_pos_bound k 2 ltac:(lia)).
        assert (r = 0 ∨ r = 1) as [->| ->] by lia; assert (k mod 2 = 0 ∨ k mod 2 = 1) as [->| ->] by lia; split; vm_compute; discriminate. }
      assert (32 <= Z.shiftr k 1) by (rewrite Z.shiftr_div_pow2 by lia; apply Z.div_le_lower_bound; lia).
      pose proof (Z.log2_pos k ltac:(lia)). rewrite Z.log2_shiftr by lia. split_and!; try done; lia.
    + apply wp_mret, wp_return, HQ. destruct (Z.ltb_spec n 64); lia.
Qed.

(** The run at the head of the rest of the array, extended to the minimum
    length by insertion. *)
Lemma wp_make_run {B} P Y Q0 minRun low remaining t st c (K : Z → MM B) (Q : B → mem → Prop) (R : Z → mem → Prop) :
  (1 <= length Y)%nat → low = len P → remaining = len Y →
  (∀ Y1 Y2 R1 c', Y = Y1 ++ Y2 → run R1 → reorders Y1 R1 → wp (K (len R1)) Q R (mkMem (P ++ R1 ++ Y2 ++ Q0) t st c')) →
  (∀ s', throws → R kFailure s') →
  wp (currentRunLength <- CountAndMakeRun sort_compare sort_threw low (low + remaining) ;;
      if currentRunLength <? 0 then return_ kFailure else
      currentRunLength <-
        (if currentRunLength <? minRun then
           let forcedRunLength := if minRun <? remaining then minRun else remaining in
           r <- BinaryInsertionSort sort_compare sort_threw low (low + currentRunLength) (low + forcedRunLength) ;;
           if r <? 0 then return_ kFailure else mret forcedRunLength
         else mret currentRunLength) ;;
      K currentRunLength) Q R (mkMem (P ++ Y ++ Q0) t st c).
Proof.
  intros HY -> -> HK HF. apply wp_bind, (wp_CountAndMakeRun _ _ lt P Y Q0); [done| |].
  2: { intros w' c' Hc. by apply wp_return, HF. }
  intros Y1 Y2 R1 c1 EY HY1 Hre HS. pose proof (reorders_length _ _ _ _ _ Hre) as HL1.
  destruct (Z.ltb_spec (len R1) 0); [lia|]. apply wp_bind. destruct (Z.ltb_spec (len R1) minRun).
  2: { apply wp_mret, (HK Y1); [done| |done]. split; [intros ->; simpl in *; lia|done]. }
  cbv zeta. set (forced := if minRun <? len Y then minRun else len Y).
  assert (Hf : len R1 <= forced <= len R1 + len Y2) by (subst forced; rewrite EY in *; destruct (Z.ltb_spec minRun (len (Y1 ++ Y2))); lens).
  set (k := Z.to_nat (forced - len R1)). rewrite <- (take_drop k Y2), <- (app_assoc (take k Y2)).
  assert (Hk : len (take k Y2) = forced - len R1) by (subst k; lens).
  replace (len P + forced) with (len P + len R1 + len (take k Y2)) by lia.
  apply wp_bind, (wp_BinaryInsertionSort _ _ lt); [lia| | |done].
  2: { intros w' c' Hc. by apply wp_return, HF. }
  intros R' c2 Hre' HS'. pose proof (reorders_length _ _ _ _ _ Hre') as HL'. apply wp_mret.
  replace forced with (len R') by lens. apply (HK (Y1 ++ take k Y2)).
  - by rewrite EY, <- app_assoc, take_drop.
  - split; [intros ->; lens|done].
  - eapply reorders_trans; [|exact Hre']. by apply reorders_app_r.
Qed.

Lemma stacked_push S Q0 nt T Y1 R1 w t st c :
  run R1 → reorders Y1 R1 → length <$> t = nt → rep st (lengths (reverse T) ++ [len R1]) → Forall run T →
  reorders S (concat (reverse T)) → w = concat (reverse T) ++ R1 ++ Q0 → stacked (S ++ Y1) Q0 nt (R1 :: T) (mkMem w t st c).
Proof.
  intros HR Hre Ht Hst HF HS ->. exists t, st, c. rewrite reverse_cons, concat_app. cbn [concat]. rewrite app_nil_r. split_and!.
  - by rewrite <- app_assoc.
  - rewrite lengths_app. done.
  - by constructor.
  - by apply reorders_app.
  - done.
Qed.

Lemma run_lengths T : Forall run T → Forall (λ x, 1 <= x) (lengths T).
Proof. intros HF. apply Forall_fmap. eapply Forall_impl; [exact HF|]. intros r Hr. eapply run_pos. exact Hr. Qed.

Lemma sumz_reverse l : sumz (reverse l) = sumz l.
Proof. induction l; [done|]. rewrite reverse_cons, sumz_app, IHl. simpl. lia. Qed.

(** Between two runs: the stack reorders what has been consumed, and the
    temporary array exists once a merge may come. *)
Definition between (S0 Q0 : list elem) (v : Z * Z) (s : mem) : Prop :=
  ∃ S Y nt T, S0 = S ++ Y ∧ stacked S (Y ++ Q0) nt T s ∧ run_inv (lengths T) ∧ v = (len S, len Y) ∧
    (roomy S0 nt ∨ T = [] ∨ (Y = [] ∧ (length T <= 1)%nat)).

Lemma roomy_app (S Y : list elem) nt : roomy (S ++ Y) nt → roomy S nt.
Proof. intros (m & Hm & Hle). exists m. split; [done|lens]. Qed.

(** The stack has room for one more run. *)
Lemma stacked_bound S Q0 nt T s : stacked S Q0 nt T s → run_inv (lengths T) → len S < 2 ^ 31 → (length T <= 62)%nat.
Proof.
  intros (t & st & c & _ & _ & HF & Hre & _) Hinv HS. rewrite <- (lengths_length T). apply run_inv_bound; [done|by apply run_lengths|].
  apply reorders_length in Hre. rewrite <- sumz_reverse, <- lengths_reverse, sumz_lengths. lia.
Qed.

(** Temporary storage, the push and the collapse that follow a new run. *)
Lemma wp_push_collapse S0 Q0 S Y1 Y2 R1 T t st c (Q : (Z * Z) + unit → mem → Prop) R :
  S0 = S ++ Y1 ++ Y2 → len S0 < 2 ^ 31 → rep st (lengths (reverse T)) → Forall run T → reorders S (concat (reverse T)) →
  (length T <= 62)%nat → run_inv (lengths T) → run R1 → reorders Y1 R1 → (roomy S0 (length <$> t) ∨ T = []) →
  (∀ s', between S0 Q0 (len S + len R1, len Y1 + len Y2 - len R1) s' → Q (inl (len S + len R1, len Y1 + len Y2 - len R1)) s') →
  (∀ s', throws → R kFailure s') →
  wp ((if (len S =? 0) && (len R1 <? len Y1 + len Y2) then ea_new (Z.shiftr (len S0) 1 + 1) else mret tt) ;;;
      r <- PushRun (len S) (len R1) ;;
      r <- MergeCollapse sort_compare sort_threw ;;
      if r <? 0 then return_ kFailure else
      mret (inl (len S + len R1, len Y1 + len Y2 - len R1))) Q R (mkMem (concat (reverse T) ++ R1 ++ Y2 ++ Q0) t st c).
Proof.
  intros ES0 HS Hst HFT HreT HT Hinv HR Hre Hroom HQ HF.
  pose proof (reorders_length _ _ _ _ _ Hre) as LR. pose proof (reorders_length _ _ _ _ _ HreT) as LS.
  assert (HL : len S = sumz (lengths (reverse T))) by (rewrite sumz_lengths; lia).
  apply wp_bind.
  assert (Halloc : ∀ K : mem → Prop,
    (∀ t', roomy S0 (length <$> t') ∨ (T = [] ∧ Y2 = []) → K (mkMem (concat (reverse T) ++ R1 ++ Y2 ++ Q0) t' st c)) →
    wp (if (len S =? 0) && (len R1 <? len Y1 + len Y2) then ea_new (Z.shiftr (len S0) 1 + 1) else mret tt) (λ _, K) R
      (mkMem (concat (reverse T) ++ R1 ++ Y2 ++ Q0) t st c)).
  { intros K HK. destruct (Z.eqb_spec (len S) 0), (Z.ltb_spec (len R1) (len Y1 + len Y2)); simpl.
    - apply HK. left. exists (Z.to_nat (Z.shiftr (len S0) 1 + 1)). simpl. rewrite length_replicate. split; [done|].
      rewrite Z.shiftr_div_pow2 by lia. pose proof (Z.mul_succ_div_gt (len S0) 2 ltac:(lia)). change (2 ^ 1) with 2. lia.
    - apply HK. destruct Hroom; [by left|]. right. split; [done|]. destruct Y2; [done|simpl in *; lia].
    - apply HK. destruct Hroom as [|ET]; [by left|]. rewrite ET in LS. simpl in LS. lia.
    - apply HK. destruct Hroom as [|ET]; [by left|]. rewrite ET in LS. simpl in LS. lia. }
  apply Halloc. clear Halloc Hroom. intros t' Hroom. rewrite HL at 1.
  apply wp_bind, wp_PushRun; [done|rewrite lengths_length, length_reverse; lia|]. intros st' Hst'.
  assert (Hs : stacked (S ++ Y1) (Y2 ++ Q0) (length <$> t') (R1 :: T) (mkMem (concat (reverse T) ++ R1 ++ Y2 ++ Q0) t' st' c)).
  { by eapply stacked_push. }
  apply wp_bind, (wp_MergeCollapse sort_compare sort_threw lt (S ++ Y1) (Y2 ++ Q0) (length <$> t') (R1 :: T) (length (R1 :: T))); try done.
  - change (run_inv (drop 1 (lengths T))). by apply run_inv_drop.
  - intros H2. destruct Hroom as [Hroom|[-> _]]; [|simpl in H2; lia]. apply (roomy_app _ Y2). by rewrite <- app_assoc, <- ES0.
  - rewrite ES0 in HS. lens.
  - intros T' s' Hs' Hinv' HT'. apply wp_mret, HQ. exists (S ++ Y1), Y2, (length <$> t'), T'. split_and!; try done.
    + by rewrite <- app_assoc.
    + f_equal; lens.
    + destruct Hroom as [|[-> ->]]; [by left|]. right. right. by split.
Qed.

(** One run of the main loop. *)
Lemma wp_sort_round S0 Q0 minRun low remaining s (R : Z → mem → Prop) :
  between S0 Q0 (low, remaining) s → remaining ≠ 0 → len S0 < 2 ^ 31 → (∀ s', throws → R kFailure s') →
  wp (currentRunLength <- CountAndMakeRun sort_compare sort_threw low (low + remaining) ;;
      if currentRunLength <? 0 then return_ kFailure else
      currentRunLength <-
        (if currentRunLength <? minRun then
           let forcedRunLength := if minRun <? remaining then minRun else remaining in
           r <- BinaryInsertionSort sort_compare sort_threw low (low + currentRunLength) (low + forcedRunLength) ;;
           if r <? 0 then return_ kFailure else mret forcedRunLength
         else mret currentRunLength) ;;
      (if (low =? 0) && (currentRunLength <? remaining) then ea_new (Z.shiftr (len S0) 1 + 1) else mret tt) ;;;
      r <- PushRun low currentRunLength ;;
      r <- MergeCollapse sort_compare sort_threw ;;
      if r <? 0 then return_ kFailure else
      mret (inl (low + currentRunLength, remaining - currentRunLength)))
    (λ r s', match r : (Z * Z) + unit with inl v' => between S0 Q0 v' s' ∧ 0 <= v'.2 < remaining | inr _ => False end) R s.
Proof.
  intros (S & Y & nt & T & ES0 & Hs & Hinv & [= -> ->] & Hroom) HY HS HF.
  assert (HT : (length T <= 62)%nat) by (apply (stacked_bound S (Y ++ Q0) nt T s Hs Hinv); rewrite ES0 in HS; lens).
  destruct Hs as (t & st & c & -> & Hst & HFT & HreT & Ht). pose proof (reorders_length _ _ _ _ _ HreT) as LS.
  apply (wp_make_run (concat (reverse T)) Y Q0); [lia|lia|done| |done].
  intros Y1 Y2 R1 c' -> HR Hre. rewrite length_app, Nat2Z.inj_add.
  pose proof (reorders_length _ _ _ _ _ Hre) as LR. assert (1 <= len R1) by (eapply run_pos; exact HR).
  eapply (wp_push_collapse S0 Q0 S Y1 Y2 R1 T); try done.
  - rewrite Ht. destruct Hroom as [|[|[E _]]]; [by left|by right|]. exfalso. apply HY. by rewrite E.
  - intros s' Hb. split; [done|]. simpl. lia.
Qed.

Lemma wp_ArrayTimSortImpl S0 Q0 t st c (Q R : Z → mem → Prop) :
  len S0 < 2 ^ 31 →
  (∀ S' t' st' c', reorders S0 S' → (consistent → sorted lt S') → Q kSuccess (mkMem (S' ++ Q0) t' st' c')) →
  (∀ s', throws → Q kFailure s') →
  wp (ArrayTimSortImpl sort_compare sort_threw (len S0)) Q R (mkMem (S0 ++ Q0) t st c).
Proof.
  intros HS HQ HF. apply wp_fn. destruct (Z.ltb_spec (len S0) 2).
  { apply wp_return, HQ; [apply reorders_refl|]. intros _. destruct S0 as [|x [|? ?]]; [constructor|repeat constructor|simpl in *; lia]. }
  apply wp_bind. unfold ia_new, wp at 1. cbn [m_work m_temp m_ctx].
  apply wp_bind, (wp_set_nat _ 0); [done|by rewrite length_replicate; vm_compute; lia|].
  set (st0 := <[0%nat := kMinGallopWins]> _). assert (Hr : rep st0 []).
  { split_and!; [by subst st0; rewrite length_insert, length_replicate|simpl; lia|done|]. intros i Hi. simpl in Hi. lia. }
  apply wp_bind, wp_ComputeMinRunLength; [lia|]. intros minRun _.
  apply wp_bind, (wp_loop (between S0 Q0) snd).
  - exists [], S0, (length <$> t), []. split_and!; try done; [|by right; left].
    exists t, st0, c. split_and!; try done.
  - unfold fuel_of. cbn [snd]. lia.
  - intros [low remaining] s Hb _. destruct (Z.eqb_spec remaining 0) as [->|Hne].
    + apply wp_mret. destruct Hb as (S & Y & nt & T & ES0 & Hs & _ & [= -> HY] & Hroom).
      destruct Y; [|simpl in HY; lia]. rewrite app_nil_r in ES0. subst S.
      apply wp_bind, (wp_MergeForceCollapse sort_compare sort_threw lt S0 ([] ++ Q0) nt T); try done.
      * intros H2. destruct Hroom as [|[->|[_ ?]]]; [done|simpl in H2; lia|lia].
      * intros T' s' (t' & st' & c' & -> & _ & HFT & HreT & _) HT'. apply wp_return, HQ; [done|]. intros C.
        destruct T' as [|r [|? ?]]; [constructor| |simpl in HT'; lia]. apply Forall_singleton in HFT as [_ Hsr].
        cbn. rewrite app_nil_r. by apply Hsr.
    + eapply wp_mono; [by apply (wp_sort_round S0 Q0 minRun low remaining)| |done].
      intros [v'|u] s' Hv; [done|done].
Qed.

(** ** The elements to sort *)

Section entry.
Context (elem_class : elem → Z).

Definition is_elem (x : elem) : bool := elem_class x =? 0.
Definition is_undef (x : elem) : bool := negb (is_elem x) && (elem_class x =? 1).
Definition is_hole (x : elem) : bool := negb (is_elem x) && negb (elem_class x =? 1).
Definition count (f : elem → bool) (l : list elem) : Z := len (List.filter f l).

Lemma filter_snoc (f : elem → bool) l x : List.filter f (l ++ [x]) = List.filter f l ++ (if f x then [x] else []).
Proof. rewrite List.filter_app. simpl. by destruct (f x). Qed.

Lemma count_snoc f l x : count f (l ++ [x]) = count f l + (if f x then 1 else 0).
Proof. unfold count. rewrite filter_snoc. destruct (f x); lens. Qed.

Lemma wp_compact src w t st c (Q : Z * (Z * Z) → mem → Prop) R :
  count is_elem src <= len w →
  (∀ w2, Q (count is_elem src, (count is_undef src, count is_hole src)) (mkMem (List.filter is_elem src ++ w2) t st c)) →
  wp (compact elem_class src) Q R (mkMem w t st c).
Proof.
  intros Hw HQ.
  apply (wp_loop (λ '(i, k, (c0, c1)) s, ∃ s1 s2 w2, src = s1 ++ s2 ∧ s = mkMem (List.filter is_elem s1 ++ w2) t st c ∧
      i = len s1 ∧ k = count is_elem s1 ∧ c0 = count is_undef s1 ∧ c1 = count is_hole s1 ∧
      count is_elem src <= len (List.filter is_elem s1 ++ w2)) (λ '(i, _, _), len src - i)).
  - by exists [], src, w.
  - unfold fuel_of. lia.
  - intros [[i k] [c0 c1]] s (s1 & s2 & w2 & E & -> & -> & -> & -> & -> & Hlen) _. destruct (Z.ltb_spec (len s1) (len src)).
    + destruct s2 as [|x s2]; [rewrite E in *; lens|].
      apply wp_bind. eapply wp_of_option; [rewrite E; by apply aget_app|].
      assert (Hdone : ∀ w2', List.filter is_elem (s1 ++ [x]) ++ w2' = List.filter is_elem s1 ++ (if is_elem x then [x] else []) ++ w2').
      { intros w2'. by rewrite filter_snoc, <- app_assoc. }
      assert (Hi : ∀ w2' k c0 c1, len (List.filter is_elem (s1 ++ [x]) ++ w2') = len (List.filter is_elem s1 ++ w2) →
        k = count is_elem (s1 ++ [x]) → c0 = count is_undef (s1 ++ [x]) → c1 = count is_hole (s1 ++ [x]) →
        (∃ s1' s2' w2'', src = s1' ++ s2' ∧ mkMem (List.filter is_elem (s1 ++ [x]) ++ w2') t st c = mkMem (List.filter is_elem s1' ++ w2'') t st c ∧
          len s1 + 1 = len s1' ∧ k = count is_elem s1' ∧ c0 = count is_undef s1' ∧ c1 = count is_hole s1' ∧
          count is_elem src <= len (List.filter is_elem s1' ++ w2'')) ∧ 0 <= len src - (len s1 + 1) < len src - len s1).
      { intros w2' k0 d0 d1 HL -> -> ->. split; [|rewrite E; lens]. exists (s1 ++ [x]), s2, w2'. split_and!; try done; [by rewrite E, <- app_assoc|lens|lia]. }
      cbv zeta. fold (is_elem x). destruct (is_elem x) eqn:Ex.
      * destruct w2 as [|y w2].
        { exfalso. rewrite E in Hlen. unfold count in Hlen. rewrite List.filter_app in Hlen. simpl in Hlen. rewrite Ex in Hlen. lens. }
        apply wp_bind. eapply (wp_sto Work); [done|by apply aset_app|]. cbn [set_arr m_temp m_st m_ctx]. apply wp_mret.
        specialize (Hdone w2). cbn [app] in Hdone. rewrite <- Hdone.
        apply Hi; [rewrite Hdone; lens|..]; rewrite count_snoc; unfold is_undef, is_hole; rewrite Ex; simpl; lia.
      * destruct (Z.eqb_spec (elem_class x) 1) as [E1|E1]; apply wp_mret; specialize (Hdone w2); cbn [app] in Hdone; rewrite <- Hdone;
          (apply Hi; [rewrite Hdone; done|..]; rewrite count_snoc; unfold is_undef, is_hole; rewrite Ex; simpl; destruct (Z.eqb_spec (elem_class x) 1); simpl; lia).
    + destruct s2; [|rewrite E in *; lens]. rewrite app_nil_r in E. subst s1. apply wp_mret, HQ.
Qed.
Lemma wp_ArrayTimSort src w t st c (Q : Z * (Z * Z) → mem → Prop) R :
  count is_elem src <= len w → count is_elem src < 2 ^ 31 →
  (∀ E w2 t' st' c', reorders (List.filter is_elem src) E → (consistent → sorted lt E) →
     Q (count is_elem src, (count is_undef src, count is_hole src)) (mkMem (E ++ w2) t' st' c')) →
  (∀ s', throws → Q (kFailure, (count is_undef src, count is_hole src)) s') →
  wp (ArrayTimSort sort_compare sort_threw elem_class src) Q R (mkMem w t st c).
Proof.
  intros Hw Hn HQ HF. apply wp_bind, wp_compact; [done|]. intros w2.
  apply wp_bind, wp_ArrayTimSortImpl; [done| |].
  - intros E t' st' c' Hre HS. apply wp_mret. apply HQ; done.
  - intros s' Hc. apply wp_mret. by apply HF.
Qed.
End entry.

(** A run of a program that satisfies a postcondition on values only. *)
Lemma wp_value {A} (m : MM A) (Q : A → mem → Prop) s : wp m Q (λ _ _, False) s → ∃ a s', m s = (Val a, s') ∧ Q a s'.
Proof. unfold wp. destruct (m s) as [[a|r| |] s']; naive_solver. Qed.
End top.

(** ** The array sort *)

Section results.
Context {elem ctx : Type} `{Inhabited elem}.
Context (sort_compare : elem → elem → ctx → num * ctx) (sort_threw : ctx → bool).
Context (elem_class : elem → Z) (src w : list elem) (t : option (list elem)) (st : list Z) (c : ctx).

Notation elements := (List.filter (is_elem elem_class) src).
Notation n := (count (is_elem elem_class) src).
Notation counts := (count (is_undef elem_class) src, count (is_hole elem_class) src).

(** C33. Whatever a comparator answers, and whatever state it keeps,
    [ArrayTimSort] ends without an out-of-bounds access and without exhausting
    a loop bound.  Unless a comparison threw, the work array then starts with a
    permutation of the elements to sort, and the counts of undefineds and holes
    are exact. *)
Theorem ArrayTimSort_total :
  n <= len w → n < 2 ^ 31 →
  ∃ r s', ArrayTimSort sort_compare sort_threw elem_class src (mkMem w t st c) = (Val (r, counts), s') ∧
    ((r = kFailure ∧ throws sort_compare sort_threw) ∨ (r = n ∧ ∃ E rest, m_work s' = E ++ rest ∧ E ≡ₚ elements)).
Proof.
  intros Hw Hn. destruct (wp_value (ArrayTimSort sort_compare sort_threw elem_class src)
    (λ r s', r.2 = counts ∧ ((r.1 = kFailure ∧ throws sort_compare sort_threw) ∨ (r.1 = n ∧ ∃ E rest, m_work s' = E ++ rest ∧ E ≡ₚ elements))) (mkMem w t st c))
    as ([r cs] & s' & Hrun & Hcs & Hr).
  - apply (wp_ArrayTimSort _ _ (λ _ _, false)); [done|done| |].
    + intros E w2 t' st' c' [HP _] _. split; [done|]. right. split; [done|]. exists E, w2. by rewrite HP.
    + intros s' Ht. split; [done|by left].
  - simpl in Hcs. subst cs. by exists r, s'.
Qed.

(** C3. With a comparator that decides a strict weak order and never throws,
    [ArrayTimSort] computes the stable sort of the elements: sorted, with equal
    elements in their original order. *)
Theorem ArrayTimSort_is_stable_sort lt :
  consistent sort_compare sort_threw lt → n <= len w → n < 2 ^ 31 →
  ∃ s' rest, ArrayTimSort sort_compare sort_threw elem_class src (mkMem w t st c) = (Val (n, counts), s') ∧
    m_work s' = stable_sort lt elements ++ rest.
Proof.
  intros C Hw Hn. destruct (wp_value (ArrayTimSort sort_compare sort_threw elem_class src)
    (λ r s', r = (n, counts) ∧ ∃ rest, m_work s' = stable_sort lt elements ++ rest) (mkMem w t st c))
    as (r & s' & Hrun & -> & rest & Hw').
  - apply (wp_ArrayTimSort _ _ lt); [done|done| |].
    2: { intros s' Ht. by destruct (consistent_never_throws _ _ lt C). }
    intros E w2 t' st' c' [_ HS] Hsort. split; [done|]. exists w2. rewrite <- (stable_sort_unique lt (proj1 C) elements E); auto.
  - by exists s', rest.
Qed.
End results.

(** ** The parts of the sort *)

Section parts.
Context {elem ctx : Type} `{Inhabited elem}.
Context (sort_compare : elem → elem → ctx → num * ctx) (sort_threw : ctx → bool) (lt : elem → elem → bool).

(** A run of at least 64 elements has a minimum run length between 32 and
    64, a shorter one its own length: the shift loop ends and changes no state. *)
Theorem ComputeMinRunLength_range (n : Z) (s : mem (elem:=elem) (ctx:=ctx)) :
  0 <= n → ∃ m, ComputeMinRunLength n s = (Val m, s) ∧ if n <? 64 then m = n else 32 <= m <= 64.
Proof.
  intros Hn. destruct (wp_value (ComputeMinRunLength n) (λ m s', s' = s ∧ if n <? 64 then m = n else 32 <= m <= 64) s) as (m & s' & E & -> & Hm).
  - by apply wp_ComputeMinRunLength.
  - by exists m.
Qed.

(** C37. After a push, [MergeCollapse] restores the length invariant of the
    pending runs, or reports a comparison that threw.  The invariant keeps the
    stack below 63 of the 85 entries allocated, for every array length an int
    can hold. *)
Theorem MergeCollapse_bounds S Q0 nt T (s : mem (elem:=elem) (ctx:=ctx)) :
  stacked sort_compare sort_threw lt S Q0 nt T s → run_inv (drop 2 (lengths T)) → roomy S nt → len S < 2 ^ 31 →
  ∃ r s', MergeCollapse sort_compare sort_threw s = (Val r, s') ∧
    ((r = kFailure ∧ throws sort_compare sort_threw) ∨
     (r = kSuccess ∧ ∃ T', stacked sort_compare sort_threw lt S Q0 nt T' s' ∧ run_inv (lengths T') ∧ (length T' <= 62)%nat)).
Proof.
  intros Hs Hinv Hroom HS. apply wp_value. eapply (wp_MergeCollapse _ _ lt S Q0 nt T (length T)); try done.
  - intros T' s' Hs' Hinv' _. right. split; [done|]. exists T'. split_and!; [done|done|]. by apply (stacked_bound sort_compare sort_threw lt S Q0 nt T' s').
  - by left.
Qed.

(** On a sorted run, [GallopRight] counts the elements not above the key,
    and [GallopLeft] those below it, whatever position the search starts from. *)
Theorem Gallop_counts p seg q key hint t st c :
  consistent sort_compare sort_threw lt → sorted lt seg → 0 <= hint < len seg → len seg < 2 ^ 31 →
  (∃ S1 S2 c', seg = S1 ++ S2 ∧ (∀ x, x ∈ S1 → lt key x = false) ∧ (∀ x, x ∈ S2 → lt key x = true) ∧
     GallopRight sort_compare sort_threw Work key (len p) (len seg) hint (mkMem (p ++ seg ++ q) t st c) =
       (Val (len S1), mkMem (p ++ seg ++ q) t st c')) ∧
  (∃ S1 S2 c', seg = S1 ++ S2 ∧ (∀ x, x ∈ S1 → lt x key = true) ∧ (∀ x, x ∈ S2 → lt x key = false) ∧
     GallopLeft sort_compare sort_threw Work key (len p) (len seg) hint (mkMem (p ++ seg ++ q) t st c) =
       (Val (len S1), mkMem (p ++ seg ++ q) t st c')).
Proof.
  intros C HS Hh Hn. split.
  - destruct (wp_value (GallopRight sort_compare sort_threw Work key (len p) (len seg) hint)
      (λ k s', ∃ S1 S2 c', seg = S1 ++ S2 ∧ splits lt key false S1 S2 ∧ k = len S1 ∧ s' = mkMem (p ++ seg ++ q) t st c')
      (mkMem (p ++ seg ++ q) t st c)) as (k & s' & E & S1 & S2 & c' & Es & [H1 H2] & -> & ->).
    + apply (wp_GallopRight _ _ lt _ _ _ _ _ _ p seg q); try done; [|intros c' Ht; by destruct (consistent_never_throws _ _ lt C)].
      intros S1 S2 c' Es Hsp. exists S1, S2, c'. auto.
    + exists S1, S2, c'. split_and!; [done| | |done]; intros x Hx; [specialize (H1 x Hx)|specialize (H2 x Hx)]; unfold below in *;
        [by apply negb_true_iff|by apply negb_false_iff].
  - destruct (wp_value (GallopLeft sort_compare sort_threw Work key (len p) (len seg) hint)
      (λ k s', ∃ S1 S2 c', seg = S1 ++ S2 ∧ splits lt key true S1 S2 ∧ k = len S1 ∧ s' = mkMem (p ++ seg ++ q) t st c')
      (mkMem (p ++ seg ++ q) t st c)) as (k & s' & E & S1 & S2 & c' & Es & [H1 H2] & -> & ->).
    + apply (wp_GallopLeft _ _ lt _ _ _ _ _ _ p seg q); try done; [|intros c' Ht; by destruct (consistent_never_throws _ _ lt C)].
      intros S1 S2 c' Es Hsp. exists S1, S2, c'. auto.
    + by exists S1, S2, c'.
Qed.
End parts.

(** ** A concrete comparator *)

(** [(x, y) => x - y] on integers. *)
Definition minus_compare (x y : Z) (c : unit) : num * unit := (if x =? y then NZero else Fin (x - y), c).
Definition never_threw (_ : unit) : bool := false.

Lemma minus_consistent : consistent minus_compare never_threw Z.ltb.
Proof.
  split.
  - split; [intros x y|intros x y z]; rewrite ?Z.ltb_lt, ?Z.ltb_ge; lia.
  - intros x y c. unfold minus_compare, negative, positive, num_lt. simpl. destruct (Z.eqb_spec x y) as [->|]; simpl.
    + unfold key. rewrite !Z.ltb_irrefl. done.
    + split; [done|]. split; apply eq_true_iff_eq; rewrite !Z.ltb_lt; lia.
Qed.

Definition small_class (x : Z) : Z := if x =? 100 then 1 else if x =? 200 then 2 else 0.
Definition sample : list Z := [5; 3; 100; 9; 1; 200; 7; 3; 8; 100].

Lemma ArrayTimSort_total_witness :
  (count (is_elem small_class) sample <= len sample ∧ count (is_elem small_class) sample < 2 ^ 31) ∧
  ∃ r s', ArrayTimSort minus_compare never_threw small_class sample (mkMem sample None [] tt) =
    (Val (r, (count (is_undef small_class) sample, count (is_hole small_class) sample)), s') ∧
    ((r = kFailure ∧ throws minus_compare never_threw) ∨ (r = count (is_elem small_class) sample ∧
       ∃ E rest, m_work s' = E ++ rest ∧ E ≡ₚ List.filter (is_elem small_class) sample)).
Proof.
  split; [split; vm_compute; [discriminate|reflexivity]|].
  apply (ArrayTimSort_total minus_compare never_threw small_class sample sample None [] tt); vm_compute; [discriminate|reflexivity].
Defined.

Lemma ArrayTimSort_is_stable_sort_witness :
  consistent minus_compare never_threw Z.ltb ∧
  ∃ s' rest, ArrayTimSort minus_compare never_threw small_class sample (mkMem sample None [] tt) = (Val (7, (2, 1)), s') ∧
    m_work s' = [1; 3; 3; 5; 7; 8; 9] ++ rest.
Proof.
  split; [exact minus_consistent|].
  exact (ArrayTimSort_is_stable_sort minus_compare never_threw small_class sample sample None [] tt Z.ltb minus_consistent
    ltac:(vm_compute; discriminate) ltac:(vm_compute; reflexivity)).
Defined.

Lemma ComputeMinRunLength_range_witness :
  0 <= 1000 ∧ ∃ m, ComputeMinRunLength 1000 (mkMem sample None [] tt) = (Val m, mkMem sample None [] tt) ∧ 32 <= m <= 64.
Proof.
  split; [vm_compute; discriminate|].
  exact (ComputeMinRunLength_range 1000 (mkMem sample None [] tt) ltac:(vm_compute; discriminate)).
Defined.

Lemma Gallop_counts_witness :
  (0 <= 2 < len [1; 3; 3; 5]) ∧
  ∃ S1 S2 c', [1; 3; 3; 5] = S1 ++ S2 ∧ (∀ x, x ∈ S1 → Z.ltb 3 x = false) ∧ (∀ x, x ∈ S2 → Z.ltb 3 x = true) ∧
     GallopRight minus_compare never_threw Work 3 (len [9]) (len [1; 3; 3; 5]) 2 (mkMem ([9] ++ [1; 3; 3; 5] ++ [0]) None [] tt) =
       (Val (len S1), mkMem ([9] ++ [1; 3; 3; 5] ++ [0]) None [] c').
Proof.
  split; [split; [vm_compute; discriminate|reflexivity]|].
  exact (proj1 (Gallop_counts minus_compare never_threw Z.ltb [9] [1; 3; 3; 5] [0] 3 2 None [] tt minus_consistent
    ltac:(repeat constructor) ltac:(split; [vm_compute; discriminate|reflexivity]) ltac:(reflexivity))).
Defined.

(** A stack of two runs, the upper one just pushed. *)
Definition two_runs_st : list Z := [7; 2; 0; 2; 2; 3] ++ replicate 166 0.

Lemma two_runs_stacked :
  stacked minus_compare never_threw Z.ltb [2; 1; 5; 4; 9] [] (Some 3%nat) [[4; 5; 9]; [1; 2]]
    (mkMem [1; 2; 4; 5; 9] (Some [0; 0; 0]) two_runs_st tt).
Proof.
  exists (Some [0; 0; 0]), two_runs_st, tt. split_and!; [done| | | |done].
  - split_and!; [done|simpl; lia|done|]. intros i Hi. simpl in Hi. destruct i as [|[|i]]; [done|done|lia].
  - repeat constructor; done.
  - split; [apply (perm_trans (l' := [1; 2; 5; 4; 9])); [apply perm_swap|do 2 apply perm_skip; apply perm_swap]|]. intros C x.
    assert (Hd : ∀ a b, eqv Z.ltb a b = bool_decide (a = b)).
    { intros a b. unfold eqv. destruct (Z.ltb_spec a b), (Z.ltb_spec b a); simpl; symmetry;
        (apply bool_decide_eq_true || apply bool_decide_eq_false); lia. }
    cbn [List.filter concat reverse rev_append app]. rewrite !Hd.
    repeat case_bool_decide; subst; done || lia.
Qed.

Lemma MergeCollapse_bounds_witness :
  roomy [2; 1; 5; 4; 9] (Some 3%nat) ∧
  ∃ r s', MergeCollapse minus_compare never_threw (mkMem [1; 2; 4; 5; 9] (Some [0; 0; 0]) two_runs_st tt) = (Val r, s') ∧
    ((r = kFailure ∧ throws minus_compare never_threw) ∨
     (r = kSuccess ∧ ∃ T', stacked minus_compare never_threw Z.ltb [2; 1; 5; 4; 9] [] (Some 3%nat) T' s' ∧ run_inv (lengths T') ∧ (length T' <= 62)%nat)).
Proof.
  assert (Hroom : roomy [2; 1; 5; 4; 9] (Some 3%nat)) by (exists 3%nat; split; [done|vm_compute; discriminate]).
  split; [exact Hroom|].
  exact (MergeCollapse_bounds minus_compare never_threw Z.ltb _ _ _ _ _ two_runs_stacked I Hroom ltac:(vm_compute; reflexivity)).
Defined.
