(* ===== verification/TypedSort.v ===== *)
(** * Array sorts: the typed-array merge sort

    TypedArrayMergeSort swaps the two arrays at every level of its recursion,
    so the halves are sorted in place of the source and merged into the
    target.  Both arrays hold the same elements when it is called. *)

From stdpp Require Import sorting.
From S2P Require Import Prelude F64 Arrays StableMerge TimSort TimSortSpec TimSortMerge TimSortTop.

Open Scope arr_scope.

Section typed.
Context {elem ctx : Type} `{Inhabited elem}.
Context (sort_compare : elem → elem → ctx → num * ctx) (sort_threw : ctx → bool) (lt : elem → elem → bool).

Notation mem := (mem (elem:=elem) (ctx:=ctx)).
Notation consistent := (consistent sort_compare sort_threw lt).
Notation throws := (throws sort_compare sort_threw).
Notation merge := (merge lt).
Notation reorders := (reorders sort_compare sort_threw lt).

(** The memory with [a] as the source array and [b] as the target. *)
Definition two (source : arr) (a b : list elem) (st : list Z) (c : ctx) : mem :=
  match source with Work => mkMem a (Some b) st c | Temp => mkMem b (Some a) st c end.

Lemma two_other source a b st c : two source a b st c = two (other source) b a st c.
Proof. by destruct source. Qed.

Lemma wp_ld_two source a b st c i x (Q : elem → mem → Prop) R :
  aget a i = Some x → Q x (two source a b st c) → wp (ld source i) Q R (two source a b st c).
Proof. intros. by destruct source; eapply wp_ld. Qed.

Lemma wp_sto_two source a b b' st c i x (Q : unit → mem → Prop) R :
  aset b i x = Some b' → Q tt (two source a b' st c) → wp (sto (other source) i x) Q R (two source a b st c).
Proof. intros. by destruct source; eapply wp_sto. Qed.

Lemma wp_COMPARE_two source a b st c x y (Q : num → mem → Prop) R :
  (∀ o c', (consistent → positive o = lt y x) → Q o (two source a b st c')) →
  (∀ s', throws → R kFailure s') → wp (COMPARE sort_compare sort_threw x y) Q R (two source a b st c).
Proof. intros HQ HR. destruct source; (apply (wp_COMPARE _ _ lt); [|auto]); intros o c' Ho; (apply (HQ o c'); naive_solver). Qed.

(** [W1] and [W2] are being merged: [Mg] is in the target, [L] and [Rt] remain. *)
Definition merging (W1 W2 Mg L Rt : list elem) : Prop :=
  ∃ L0 R0, W1 = L0 ++ L ∧ W2 = R0 ++ Rt ∧ Mg ≡ₚ L0 ++ R0 ∧ (consistent → Mg ++ merge L Rt = merge W1 W2).

Lemma merging_left W1 W2 Mg x L Rt :
  merging W1 W2 Mg (x :: L) Rt → (consistent → match Rt with [] => True | y :: _ => lt y x = false end) → merging W1 W2 (Mg ++ [x]) L Rt.
Proof.
  intros (L0 & R0 & E1 & E2 & HP & HM) Hx. exists (L0 ++ [x]), R0. split_and!; [by rewrite <- app_assoc|done| |].
  - rewrite HP, <- !app_assoc. f_equiv. apply Permutation_app_comm.
  - intros C. rewrite <- (HM C), <- app_assoc. f_equal. specialize (Hx C). destruct Rt as [|y Rt]; [by rewrite !merge_nil_r|].
    by rewrite (merge_cons lt x), Hx.
Qed.

Lemma merging_right W1 W2 Mg L y Rt :
  merging W1 W2 Mg L (y :: Rt) → (consistent → match L with [] => True | x :: _ => lt y x = true end) → merging W1 W2 (Mg ++ [y]) L Rt.
Proof.
  intros (L0 & R0 & E1 & E2 & HP & HM) Hy. exists L0, (R0 ++ [y]). split_and!; [done|by rewrite <- app_assoc| |].
  - by rewrite HP, <- app_assoc.
  - intros C. rewrite <- (HM C), <- app_assoc. f_equal. specialize (Hy C). destruct L as [|x L]; [by rewrite !merge_nil_l|].
    by rewrite merge_cons, Hy.
Qed.

(** The states of the merging loop. *)
Definition merge_inv source P1 W1 W2 Q1 P2 Q2 st (v : Z * Z * Z) (s : mem) : Prop :=
  let '(i, j, k) := v in
  ∃ Mg L Rt X' c', s = two source (P1 ++ W1 ++ W2 ++ Q1) (P2 ++ Mg ++ X' ++ Q2) st c' ∧ merging W1 W2 Mg L Rt ∧
    length X' = length (L ++ Rt) ∧ i = len P1 + len W1 - len L ∧ j = len P1 + len W1 + len W2 - len Rt ∧ k = len P1 + len Mg.

Lemma merging_length W1 W2 Mg L Rt : merging W1 W2 Mg L Rt → (length Mg + length L + length Rt = length W1 + length W2)%nat.
Proof. intros (L0 & R0 & -> & -> & HP & _). rewrite HP. lens. Qed.

Lemma wp_merge_put source P1 W1 W2 Q1 P2 z X' Q2 st c Mg x i j L Rt n (Q : (Z * Z * Z) + unit → mem → Prop) R :
  merging W1 W2 (Mg ++ [x]) L Rt → length X' = length (L ++ Rt) → length P1 = length P2 →
  i = len P1 + len W1 - len L → j = len P1 + len W1 + len W2 - len Rt → n = len P1 + len W1 + len W2 →
  (∀ v s', merge_inv source P1 W1 W2 Q1 P2 Q2 st v s' → 0 <= n - v.2 < n - (len P1 + len Mg) → Q (inl v) s') →
  wp (sto (other source) (len P1 + len Mg) x ;;; mret (inl (i, j, len P1 + len Mg + 1))) Q R
    (two source (P1 ++ W1 ++ W2 ++ Q1) (P2 ++ Mg ++ (z :: X') ++ Q2) st c).
Proof.
  intros Hm HX HP -> -> -> HQ. pose proof (merging_length _ _ _ _ _ Hm) as HL.
  apply wp_bind. eapply wp_sto_two; [rewrite (app_assoc P2); apply aset_app; lens|].
  apply wp_mret, HQ; [|simpl; lens]. exists (Mg ++ [x]), L, Rt, X', c. split_and!; [f_equal; by app_norm|done|done|done|done|lens].
Qed.

Lemma wp_TypedArrayMerge source P1 W1 W2 Q1 P2 X Q2 st c (Q R : Z → mem → Prop) :
  length P1 = length P2 → length X = length (W1 ++ W2) →
  (∀ W c', W ≡ₚ W1 ++ W2 → (consistent → W = merge W1 W2) → Q kSuccess (two source (P1 ++ W1 ++ W2 ++ Q1) (P2 ++ W ++ Q2) st c')) →
  (∀ s', throws → Q kFailure s') →
  wp (TypedArrayMerge sort_compare sort_threw source (len P1) (len P1 + len W1) (len P1 + len W1 + len W2)) Q R
    (two source (P1 ++ W1 ++ W2 ++ Q1) (P2 ++ X ++ Q2) st c).
Proof.
  intros LP LX HQ HF. apply wp_fn, wp_bind.
  apply (wp_loop (merge_inv source P1 W1 W2 Q1 P2 Q2 st) (λ v, len P1 + len W1 + len W2 - v.2)).
  - exists [], W1, W2, X, c. split_and!; [done| |done|lia..|lens]. by exists [], [].
  - unfold fuel_of. cbn [snd]. lia.
  - intros [[i j] k] s (Mg & L & Rt & X' & c' & -> & Hm & LX' & -> & -> & ->) _. pose proof (merging_length _ _ _ _ _ Hm) as LW.
    destruct (Z.ltb_spec (len P1 + len Mg) (len P1 + len W1 + len W2)).
    2: { apply wp_mret, wp_return. destruct L; [|lens]. destruct Rt; [|lens]. destruct X'; [|done].
         destruct Hm as (L0 & R0 & E1 & E2 & HP & HM). rewrite app_nil_r in E1, E2. subst. apply HQ; [done|].
         intros C. by rewrite <- (HM C), merge_nil_r, app_nil_r. }
    destruct X' as [|z X']; [lens|].
    assert (Hleft : ∀ x L', L = x :: L' → aget (P1 ++ W1 ++ W2 ++ Q1) (len P1 + len W1 - len L) = Some x).
    { intros x L' ->. destruct Hm as (L0 & R0 & -> & _). rewrite <- (app_assoc L0), (app_assoc P1). apply aget_app. lens. }
    assert (Hright : ∀ y R', Rt = y :: R' → aget (P1 ++ W1 ++ W2 ++ Q1) (len P1 + len W1 + len W2 - len Rt) = Some y).
    { intros y R' ->. destruct Hm as (L0 & R0 & _ & -> & _). rewrite <- (app_assoc R0), !(app_assoc P1), (app_assoc (P1 ++ W1)).
      apply aget_app. lens. }
    destruct (Z.ltb_spec (len P1 + len W1 - len L) (len P1 + len W1)) as [HL|HL].
    + destruct L as [|x L]; [simpl in *; lia|]. destruct (Z.leb_spec (len P1 + len W1 + len W2) (len P1 + len W1 + len W2 - len Rt)); cbn [andb].
      * destruct Rt; [|simpl in *; lia]. apply wp_bind, (wp_ld_two _ _ _ _ _ _ x); [by eapply Hleft|].
        eapply wp_merge_put; [by apply merging_left|lens|done|lens|lens|done|done].
      * destruct Rt as [|y Rt]; [simpl in *; lia|].
        apply wp_bind, (wp_ld_two _ _ _ _ _ _ x); [by eapply Hleft|]. apply wp_bind, (wp_ld_two _ _ _ _ _ _ y); [by eapply Hright|].
        apply wp_bind, wp_COMPARE_two; [|done]. intros o c1 Ho. destruct (positive o); cbn [negb].
        -- eapply wp_merge_put; [apply merging_right; [exact Hm|intros C; symmetry; by apply Ho]|lens|done|lens|lens|done|done].
        -- eapply wp_merge_put; [apply merging_left; [exact Hm|intros C; symmetry; by apply Ho]|lens|done|lens|lens|done|done].
    + destruct L; [|simpl in *; lia]. cbn [andb]. destruct Rt as [|y Rt]; [lens|].
      apply wp_bind, (wp_ld_two _ _ _ _ _ _ y); [by eapply Hright|].
      eapply wp_merge_put; [by apply merging_right|lens|done|lens|lens|done|done].
Qed.

Lemma TypedArrayMergeSort_S fuel source from to :
  TypedArrayMergeSort sort_compare sort_threw (S fuel) source from to = fn (
    let middle := from + Z.shiftr (to - from) 1 in
    (if 1 <? middle - from then
       r <- TypedArrayMergeSort sort_compare sort_threw fuel (other source) from middle ;; if r <? 0 then return_ kFailure else mret tt
     else mret tt) ;;;
    (if 1 <? to - middle then
       r <- TypedArrayMergeSort sort_compare sort_threw fuel (other source) middle to ;; if r <? 0 then return_ kFailure else mret tt
     else mret tt) ;;;
    r <- TypedArrayMerge sort_compare sort_threw source from middle to ;;
    return_ r).
Proof. done. Qed.

(** What one level leaves in the target: a sorted reordering. *)
Definition sorts (X W : list elem) : Prop := reorders X W ∧ (consistent → sorted lt W).

Lemma wp_TypedArrayMergeSort fuel : ∀ source P1 X Q1 P2 Q2 st c from to (Q R : Z → mem → Prop),
  length P1 = length P2 → from = len P1 → to = len P1 + len X → (1 <= length X)%nat → (length X <= fuel)%nat →
  (∀ W Y c', sorts X W → length Y = length X → Q kSuccess (two source (P1 ++ Y ++ Q1) (P2 ++ W ++ Q2) st c')) →
  (∀ s', throws → Q kFailure s') →
  wp (TypedArrayMergeSort sort_compare sort_threw fuel source from to) Q R (two source (P1 ++ X ++ Q1) (P2 ++ X ++ Q2) st c).
Proof.
  induction fuel as [|fuel IH]; intros source P1 X Q1 P2 Q2 st c from to Q R LP -> -> HX Hf HQ HF; [lia|].
  rewrite TypedArrayMergeSort_S. apply wp_fn. cbv zeta. replace (len P1 + len X - len P1) with (len X) by lia.
  assert (Hh : Z.shiftr (len X) 1 = len X / 2) by (by rewrite Z.shiftr_div_pow2).
  pose proof (Z.div_mod (len X) 2 ltac:(lia)). pose proof (Z.mod_pos_bound (len X) 2 ltac:(lia)). rewrite Hh.
  set (h := Z.to_nat (len X / 2)). set (X1 := take h X). set (X2 := drop h X).
  assert (EX : X = X1 ++ X2) by (subst X1 X2; by rewrite take_drop).
  assert (L1 : len X1 = len X / 2) by (subst X1 h; lens). assert (L2 : len X2 = len X - len X / 2) by (subst X2 h; lens).
  rewrite <- L1. apply wp_bind.
  assert (Hskip : ∀ Z0 : list elem, (length Z0 <= 1)%nat → sorts Z0 Z0).
  { intros Z0 HZ. split; [apply reorders_refl|]. intros _. destruct Z0 as [|x [|? ?]]; [constructor|repeat constructor|simpl in *; lia]. }
  assert (Hleft : ∀ K : mem → Prop,
    (∀ W1 Y1 c', sorts X1 W1 → length Y1 = length X1 → K (two source (P1 ++ W1 ++ X2 ++ Q1) (P2 ++ Y1 ++ X2 ++ Q2) st c')) →
    wp (if 1 <? len P1 + len X1 - len P1 then
          r <- TypedArrayMergeSort sort_compare sort_threw fuel (other source) (len P1) (len P1 + len X1) ;;
          if r <? 0 then return_ kFailure else mret tt
        else mret tt) (λ _, K) Q (two source (P1 ++ X ++ Q1) (P2 ++ X ++ Q2) st c)).
  { intros K HK. rewrite EX, <- !(app_assoc X1). destruct (Z.ltb_spec 1 (len P1 + len X1 - len P1)); [|apply wp_mret, HK; [apply Hskip; lia|done]].
    rewrite two_other. apply wp_bind, IH; [done|lia|lia|lia|lia| |].
    - intros W1 Y1 c' HW HY. apply wp_mret. rewrite <- two_other. by apply HK.
    - intros s' Ht. by apply wp_return, HF. }
  apply Hleft. clear Hleft. intros W1 Y1 c1 HW1 LY1. apply wp_bind.
  assert (LW1 : length W1 = length X1) by (eapply reorders_length, HW1).
  assert (Hright : ∀ K : mem → Prop,
    (∀ W2 Y2 c', sorts X2 W2 → length Y2 = length X2 → K (two source (P1 ++ W1 ++ W2 ++ Q1) (P2 ++ (Y1 ++ Y2) ++ Q2) st c')) →
    wp (if 1 <? len P1 + len X - (len P1 + len X1) then
          r <- TypedArrayMergeSort sort_compare sort_threw fuel (other source) (len P1 + len X1) (len P1 + len X) ;;
          if r <? 0 then return_ kFailure else mret tt
        else mret tt) (λ _, K) Q (two source (P1 ++ W1 ++ X2 ++ Q1) (P2 ++ Y1 ++ X2 ++ Q2) st c1)).
  { intros K HK. destruct (Z.ltb_spec 1 (len P1 + len X - (len P1 + len X1))).
    2: { apply wp_mret. rewrite (app_assoc Y1). apply HK; [apply Hskip; lia|done]. }
    rewrite (app_assoc P1), (app_assoc P2), two_other. apply wp_bind, IH; [lens|lens|lens|lia|lia| |].
    - intros W2 Y2 c' HW HY. apply wp_mret. rewrite <- two_other, <- (app_assoc P1), <- (app_assoc P2), (app_assoc Y1). by apply HK.
    - intros s' Ht. by apply wp_return, HF. }
  apply Hright. clear Hright. intros W2 Y2 c2 HW2 LY2.
  assert (LW2 : length W2 = length X2) by (eapply reorders_length, HW2).
  rewrite <- LW1. replace (len P1 + len X) with (len P1 + len W1 + len W2) by lia.
  apply wp_bind, wp_TypedArrayMerge; [done|lens| |].
  - intros W c' HP HM. apply wp_return. rewrite (app_assoc W1). apply HQ; [|rewrite EX; lens]. rewrite EX. split.
    + eapply reorders_trans; [apply reorders_app; [apply HW1|apply HW2]|]. apply reorders_merge; [apply HW1|done|done].
    + intros C. rewrite (HM C). apply merge_sorted; [apply C|by apply HW1|by apply HW2].
  - intros s' Ht. by apply wp_return, HF.
Qed.
End typed.

(** ** The typed-array sort *)

Section results.
Context {elem ctx : Type} `{Inhabited elem}.
Context (sort_compare : elem → elem → ctx → num * ctx) (sort_threw : ctx → bool) (lt : elem → elem → bool).

(** C32. Called on two copies of a non-empty array, [TypedArrayMergeSort] ends
    for every comparator, in bounds and within a recursion depth of the length,
    leaving a permutation in the target, or reports a comparison that threw.
    With a comparator that decides a strict weak order the target is the stable
    sort, the same order the TimSort of arrays computes. *)
Theorem TypedArrayMergeSort_sorts (X st : list _) (c : ctx) :
  X ≠ [] →
  ∃ r s', TypedArrayMergeSort sort_compare sort_threw (length X) Work 0 (len X) (mkMem X (Some X) st c) = (Val r, s') ∧
    ((r = kFailure ∧ throws sort_compare sort_threw) ∨
     (r = kSuccess ∧ ∃ W, m_temp s' = Some W ∧ W ≡ₚ X ∧ (consistent sort_compare sort_threw lt → W = stable_sort lt X))).
Proof.
  intros HX. apply wp_value. pose proof (wp_TypedArrayMergeSort sort_compare sort_threw lt (length X) Work [] X [] [] [] st c 0 (len X)) as Hwp.
  cbn [two app] in Hwp. rewrite app_nil_r in Hwp. apply Hwp; [done|done|done|by destruct X; [|simpl; lia]|done| |].
  - intros W Y c' [[HP HS] Hsort] LY. right. split; [done|]. exists W. split_and!; [cbn; by rewrite app_nil_r|by rewrite HP|].
    intros C. apply stable_sort_unique; [apply C|auto..].
  - intros s' Ht. by left.
Qed.
End results.

Lemma TypedArrayMergeSort_sorts_witness :
  [5; 3; 9; 1; 3] ≠ [] ∧
  ∃ r s', TypedArrayMergeSort minus_compare never_threw 5 Work 0 5 (mkMem [5; 3; 9; 1; 3] (Some [5; 3; 9; 1; 3]) [] tt) = (Val r, s') ∧
    ((r = kFailure ∧ throws minus_compare never_threw) ∨
     (r = kSuccess ∧ ∃ W, m_temp s' = Some W ∧ W ≡ₚ [5; 3; 9; 1; 3] ∧
        (consistent minus_compare never_threw Z.ltb → W = [1; 3; 3; 5; 9]))).
Proof. split; [done|]. exact (TypedArrayMergeSort_sorts minus_compare never_threw Z.ltb [5; 3; 9; 1; 3] [] tt ltac:(done)). Defined.
