(* ===== verification/SmiCompare.v ===== *)
(** * Array sorts: the default sort's integer comparison

    SmiLexicographicCompare orders two small integers as their decimal
    spellings compare, without spelling them. *)

From S2P Require Import Prelude F64 Arrays TimSort.

(** ** Decimal spellings *)

Fixpoint decimal (fuel : nat) (n : Z) : list Z :=
  match fuel with
  | O => []
  | S fuel => if 10 <=? n then decimal fuel (n / 10) ++ [n mod 10] else [n]
  end.

(** ["-"] is 45 and ["0"] is 48. *)
Definition spell (x : Z) : list Z :=
  if x <? 0 then 45 :: map (Z.add 48) (decimal 21 (- x)) else map (Z.add 48) (decimal 21 x).

(** The comparison of two strings: -1, 0 or 1. *)
Fixpoint lex (l1 l2 : list Z) : Z :=
  match l1, l2 with
  | [], [] => 0
  | [], _ :: _ => -1
  | _ :: _, [] => 1
  | x :: l1, y :: l2 => if x <? y then -1 else if y <? x then 1 else lex l1 l2
  end.

Lemma lex_add k l1 l2 : lex (map (Z.add k) l1) (map (Z.add k) l2) = lex l1 l2.
Proof.
  revert l2. induction l1 as [|x l1 IH]; intros [|y l2]; simpl; [done..|]. rewrite IH.
  destruct (Z.ltb_spec (k + x) (k + y)), (Z.ltb_spec x y); try lia.
  destruct (Z.ltb_spec (k + y) (k + x)), (Z.ltb_spec y x); lia || done.
Qed.

Lemma lex_antisym l1 l2 : lex l1 l2 = - lex l2 l1.
Proof.
  revert l2. induction l1 as [|x l1 IH]; intros [|y l2]; simpl; [done..|]. rewrite IH.
  destruct (Z.ltb_spec x y), (Z.ltb_spec y x); lia.
Qed.

(** ** Digit lists as numbers *)

Definition digits (l : list Z) : Prop := Forall (λ d, 0 <= d < 10) l.
Definition value (l : list Z) : Z := foldl (λ v d, 10 * v + d) 0 l.

Lemma value_snoc l d : value (l ++ [d]) = 10 * value l + d.
Proof. unfold value. by rewrite foldl_app. Qed.

Lemma value_app l1 l2 : value (l1 ++ l2) = value l1 * 10 ^ len l2 + value l2.
Proof.
  induction l2 as [|d l2 IH] using rev_ind; [rewrite app_nil_r; change (value l1 = value l1 * 1 + 0); lia|].
  rewrite app_assoc, !value_snoc, IH, length_app, Nat2Z.inj_add. change (len [d]) with 1. rewrite Z.pow_add_r, Z.pow_1_r by lia. lia.
Qed.

Lemma value_bound l : digits l → 0 <= value l < 10 ^ len l.
Proof.
  induction l as [|d l IH] using rev_ind; intros Hd; [change (0 <= 0 < 1); lia|].
  apply Forall_app in Hd as [Hl Hd]. rewrite Forall_singleton in Hd. specialize (IH Hl).
  rewrite value_snoc, length_app, Nat2Z.inj_add. change (len [d]) with 1. rewrite Z.pow_add_r, Z.pow_1_r by lia. lia.
Qed.

(** Digit lists of one length compare as their values. *)
Lemma lex_value l1 l2 : digits l1 → digits l2 → length l1 = length l2 → lex l1 l2 = Z.sgn (value l1 - value l2).
Proof.
  revert l2. induction l1 as [|x l1 IH]; intros [|y l2] H1 H2 HL; try discriminate HL; [done|].
  apply Forall_cons in H1 as [Hx H1], H2 as [Hy H2]. injection HL as HL.
  pose proof (value_bound l1 H1) as B1. pose proof (value_bound l2 H2) as B2.
  change (x :: l1) with ([x] ++ l1). change (y :: l2) with ([y] ++ l2). rewrite !value_app, HL in *.
  change (value [x]) with x. change (value [y]) with y. simpl. rewrite IH by done.
  set (m := 10 ^ len l2) in *. destruct (Z.ltb_spec x y); [|destruct (Z.ltb_spec y x)].
  - symmetry. apply Z.sgn_neg. nia.
  - symmetry. apply Z.sgn_pos. nia.
  - f_equal. replace y with x by lia. lia.
Qed.

(** A shorter list compares as if padded with zeros, and comes first on a tie. *)
Lemma lex_shorter l1 l2 : digits l1 → digits l2 → (length l1 < length l2)%nat →
  lex l1 l2 = if value l1 * 10 ^ (len l2 - len l1) <=? value l2 then -1 else 1.
Proof.
  intros H1 H2 HL. rewrite <- (take_drop (length l1) l2) in H2 |- *.
  set (T := take _ l2) in *. set (D := drop _ l2) in *. apply Forall_app in H2 as [HT HD].
  assert (LT : length T = length l1) by (subst T; rewrite length_take; lia).
  assert (ND : (0 < length D)%nat) by (subst D; rewrite length_drop; lia). clearbody T D.
  assert (Hlex : lex l1 (T ++ D) = if lex l1 T =? 0 then -1 else lex l1 T).
  { clear -LT ND. revert l1 LT. induction T as [|t T IH]; intros [|x l1] HL; try discriminate HL; [by destruct D; [simpl in ND; lia|]|].
    simpl. destruct (x <? t); [done|]. destruct (t <? x); [done|]. apply IH. by injection HL. }
  rewrite Hlex, lex_value by done. rewrite value_app, length_app, LT.
  replace (Z.of_nat (length l1 + length D) - len l1) with (len D) by lia.
  pose proof (value_bound D HD) as BD. set (m := 10 ^ len D) in *. set (a := value l1) in *. set (b := value T) in *.
  destruct (Z.leb_spec (a * m) (b * m + value D)).
  - destruct (Z.eqb_spec (Z.sgn (a - b)) 0) as [|Hs]; [done|]. apply Z.sgn_neg. rewrite Z.sgn_null_iff in Hs. nia.
  - destruct (Z.eqb_spec (Z.sgn (a - b)) 0) as [E|]; [apply Z.sgn_null_iff in E; nia|]. apply Z.sgn_pos. nia.
Qed.

(** ** The digits of a number *)

Lemma decimal_spec fuel n : 0 <= n < 10 ^ Z.of_nat fuel → (0 < fuel)%nat →
  digits (decimal fuel n) ∧ value (decimal fuel n) = n ∧ (1 <= length (decimal fuel n) <= fuel)%nat.
Proof.
  revert n. induction fuel as [|fuel IH]; intros n Hn Hf; [lia|]. cbn [decimal]. destruct (Z.leb_spec 10 n).
  - rewrite Nat2Z.inj_succ, Z.pow_succ_r in Hn by lia. destruct fuel as [|fuel]; [simpl in *; lia|].
    destruct (IH (n / 10)) as (HD & HV & HL); [|lia|].
    { split; [apply Z.div_pos; lia|apply Z.div_lt_upper_bound; lia]. }
    pose proof (Z.mod_pos_bound n 10 ltac:(lia)). split_and!.
    + apply Forall_app. split; [done|]. by apply Forall_singleton.
    + rewrite value_snoc, HV. pose proof (Z.div_mod n 10 ltac:(lia)). lia.
    + rewrite length_app. cbn [length]. lia.
    + rewrite length_app. cbn [length]. lia.
  - split_and!; [apply Forall_singleton; lia|done|cbn; lia..].
Qed.

Lemma digits_loop_decimal fuel n k : 0 <= n < 10 ^ Z.of_nat fuel → (0 < fuel)%nat →
  digits_loop fuel n k = Some (k + len (decimal fuel n) - 1).
Proof.
  revert n k. induction fuel as [|fuel IH]; intros n k Hn Hf; [lia|]. cbn [decimal digits_loop]. destruct (Z.leb_spec 10 n).
  - rewrite Nat2Z.inj_succ, Z.pow_succ_r in Hn by lia. destruct fuel as [|fuel]; [simpl in *; lia|].
    rewrite IH; [|split; [apply Z.div_pos; lia|apply Z.div_lt_upper_bound; lia]|lia]. f_equal. rewrite length_app. simpl length. lia.
  - f_equal. simpl. lia.
Qed.

Lemma scale_spec u a b : 0 <= u → a <= b → u * 10 ^ (b - a) < 2 ^ 64 → scale u a b = u * 10 ^ (b - a).
Proof.
  intros Hu Hab. unfold scale. replace (10 ^ (b - a)) with (10 ^ Z.of_nat (Z.to_nat (b - a))) by (f_equal; lia).
  set (k := Z.to_nat (b - a)). clearbody k. clear a b Hab. induction k as [|k IH]; intros Hlt; simpl Nat.iter; [lia|].
  rewrite Nat2Z.inj_succ, Z.pow_succ_r in Hlt |- * by lia.
  assert (0 <= 10 ^ Z.of_nat k) by (apply Z.pow_nonneg; lia). rewrite IH by nia. unfold uint64. rewrite Z.mod_small; nia.
Qed.

Lemma scale_none u a b : b <= a → scale u a b = u.
Proof. intros. unfold scale. by replace (Z.to_nat (b - a)) with 0%nat by lia. Qed.

(** ** The comparison *)

(** The digit-count part of [SmiLexicographicCompare], on magnitudes. *)
Definition compare_magnitudes (ux uy : Z) : option Z :=
  match NumberOfDigits ux, NumberOfDigits uy with
  | Some dx, Some dy =>
      let ux := scale ux dx dy in
      let uy := scale uy dy dx in
      if ux =? uy then Some (if dx <? dy then -1 else 1) else Some (if ux <? uy then -1 else 1)
  | _, _ => None
  end.

Lemma decimal_small u : 0 <= u < 2 ^ 30 →
  digits (decimal 21 u) ∧ value (decimal 21 u) = u ∧ (1 <= length (decimal 21 u) <= 10)%nat.
Proof.
  intros Hu. destruct (decimal_spec 21 u) as (HD & HV & HL); [split; [lia|eapply Z.lt_trans; [apply Hu|reflexivity]]|lia|]. split_and!; [done..|lia|].
  assert (E : ∀ f g n, 0 <= n < 10 ^ Z.of_nat f → (0 < f)%nat → (f <= g)%nat → decimal f n = decimal g n).
  { clear. intros f. induction f as [|f IH]; intros g n Hn Hf Hg; [lia|]. destruct g as [|g]; [lia|]. cbn [decimal].
    destruct (Z.leb_spec 10 n); [|done]. rewrite Nat2Z.inj_succ, Z.pow_succ_r in Hn by lia. destruct f as [|f]; [simpl in *; lia|].
    rewrite (IH g); [done| |lia|lia]. split; [apply Z.div_pos; lia|apply Z.div_lt_upper_bound; lia]. }
  rewrite <- (E 10%nat); [apply decimal_spec; [|lia]|..|lia|lia]; split; try lia; (eapply Z.lt_trans; [apply Hu|reflexivity]).
Qed.

Lemma compare_magnitudes_spec ux uy : 0 <= ux < 2 ^ 30 → 0 <= uy < 2 ^ 30 → ux ≠ uy →
  compare_magnitudes ux uy = Some (lex (decimal 21 ux) (decimal 21 uy)).
Proof.
  intros Hx Hy Hne. destruct (decimal_small ux Hx) as (Dx & Vx & Lx), (decimal_small uy Hy) as (Dy & Vy & Ly).
  unfold compare_magnitudes, NumberOfDigits.
  assert (H21 : 2 ^ 30 < 10 ^ Z.of_nat 21) by reflexivity.
  rewrite !digits_loop_decimal by lia. cbv zeta.
  set (lx := decimal 21 ux) in *. set (ly := decimal 21 uy) in *. clearbody lx ly.
  assert (Hsc : ∀ u k, 0 <= u < 2 ^ 30 → 0 <= k <= 9 → u * 10 ^ k < 2 ^ 64).
  { intros u k Hu Hk. apply (Z.le_lt_trans _ (2 ^ 30 * 10 ^ 9)); [|reflexivity]. apply Z.mul_le_mono_nonneg; try lia. apply Z.pow_le_mono_r; lia. }
  destruct (Nat.lt_trichotomy (length lx) (length ly)) as [Hl|[Hl|Hl]].
  - rewrite (scale_none uy) by lia. rewrite scale_spec by (try apply Hsc; lia). rewrite lex_shorter, Vx, Vy by done.
    replace (1 + len ly - 1 - (1 + len lx - 1)) with (len ly - len lx) by lia.
    set (m := ux * 10 ^ (len ly - len lx)). destruct (Z.eqb_spec m uy) as [->|]; [rewrite Z.leb_refl|destruct (Z.ltb_spec m uy), (Z.leb_spec m uy)];
      try lia; destruct (Z.ltb_spec (1 + len lx - 1) (1 + len ly - 1)); done || lia.
  - rewrite !scale_none by lia. rewrite lex_value, Vx, Vy by done. destruct (Z.eqb_spec ux uy); [done|].
    destruct (Z.ltb_spec ux uy); f_equal; symmetry; [apply Z.sgn_neg|apply Z.sgn_pos]; lia.
  - rewrite (scale_none ux) by lia. rewrite scale_spec by (try apply Hsc; lia). rewrite lex_antisym, lex_shorter, Vx, Vy by done.
    replace (1 + len lx - 1 - (1 + len ly - 1)) with (len lx - len ly) by lia.
    set (m := uy * 10 ^ (len lx - len ly)). destruct (Z.eqb_spec ux m) as [->|].
    + rewrite Z.leb_refl. destruct (Z.ltb_spec (1 + len lx - 1) (1 + len ly - 1)); done || lia.
    + destruct (Z.ltb_spec ux m), (Z.leb_spec m ux); done || lia.
Qed.

(** C38. Below 2^30 in magnitude, [SmiLexicographicCompare] is the comparison
    of the two integers' decimal spellings, as a default sort compares them. *)
Theorem SmiLexicographicCompare_spells x y : - 2 ^ 30 < x < 2 ^ 30 → - 2 ^ 30 < y < 2 ^ 30 →
  SmiLexicographicCompare x y = Some (lex (spell x) (spell y)).
Proof.
  intros Hx Hy. unfold SmiLexicographicCompare. destruct (Z.eqb_spec x y) as [->|Hne].
  { f_equal. pose proof (lex_antisym (spell y) (spell y)). lia. }
  assert (Hdigit : ∀ u, 0 <= u < 2 ^ 30 → ∃ d l, decimal 21 u = d :: l ∧ 0 <= d).
  { intros u Hu. destruct (decimal_small u Hu) as (HD & _ & HL). destruct (decimal 21 u) as [|d l]; [simpl in HL; lia|].
    apply Forall_cons in HD as [Hd _]. exists d, l. split; [done|lia]. }
  unfold spell. destruct (Z.ltb_spec x 0), (Z.leb_spec 0 y), (Z.ltb_spec y 0); try lia; cbn [andb].
  - destruct (Hdigit y) as (d & l & -> & Hd); [lia|]. cbn [map lex]. destruct (Z.ltb_spec 45 (48 + d)); [done|lia].
  - destruct (Z.leb_spec 0 x); [lia|]. cbn [andb lex]. rewrite Z.ltb_irrefl, lex_add. fold (compare_magnitudes (- x) (- y)).
    apply compare_magnitudes_spec; lia.
  - destruct (Z.leb_spec 0 x); [|lia]. rewrite lex_add. fold (compare_magnitudes x y). apply compare_magnitudes_spec; lia.
  - destruct (Z.leb_spec 0 x); [|lia]. destruct (Hdigit x) as (d & l & -> & Hd); [lia|]. cbn [andb map lex].
    destruct (Z.ltb_spec (48 + d) 45); [lia|]. destruct (Z.ltb_spec 45 (48 + d)); [done|lia].
Qed.

Lemma SmiLexicographicCompare_spells_witness :
  (- 2 ^ 30 < 9 < 2 ^ 30) ∧ SmiLexicographicCompare 9 10 = Some 1.
Proof. split; [by vm_compute|]. exact (SmiLexicographicCompare_spells 9 10 ltac:(by vm_compute) ltac:(by vm_compute)). Defined.
