(* ===== verification/Bytes.v ===== *)
(** * The byte layer of the wasm backend

    [ByteWriter] of src/packages/compiler/src/backend/wasm/bytes.ts (the
    growable buffer, LEB128 integers, IEEE 754 doubles, length-prefixed names,
    size-prefixed framing) and [Reader] and the padded five-byte LEBs of
    engine.ts, as executable definitions; the byte sequences they denote
    ([uleb_spec], [sleb_spec]); and the round trips between the two. *)

From S2P Require Import Prelude F64.

(** ** JavaScript strings and their UTF-8 encoding

    A string is its sequence of UTF-16 code units.  [TextEncoder.encode] is
    the WHATWG algorithm: surrogate pairs combine, a lone surrogate becomes
    U+FFFD. *)

Definition jsstr := list Z.

Fixpoint js_of_string (s : string) : jsstr :=
  match s with
  | EmptyString => []
  | String a s' => Z.of_N (Ascii.N_of_ascii a) :: js_of_string s'
  end.

Lemma js_of_string_inj s : ∀ t, js_of_string s = js_of_string t → s = t.
Proof.
  induction s as [|a s IH]; intros [|b t] E; [done..|]. cbn [js_of_string] in E. injection E as E1 E2. f_equal; [|by apply IH].
  rewrite <- (Ascii.ascii_N_embedding a), <- (Ascii.ascii_N_embedding b). f_equal. lia.
Qed.

Definition is_lead (u : Z) : bool := (0xd800 <=? u) && (u <=? 0xdbff).
Definition is_trail (u : Z) : bool := (0xdc00 <=? u) && (u <=? 0xdfff).

(** The scalar values a string denotes. *)
Fixpoint code_points (s : jsstr) : list Z :=
  match s with
  | [] => []
  | u :: rest =>
      if is_lead u then
        match rest with
        | v :: rest' =>
            if is_trail v then ((u - 0xd800) * 0x400 + (v - 0xdc00) + 0x10000) :: code_points rest'
            else 0xfffd :: code_points rest
        | [] => [0xfffd]
        end
      else if is_trail u then 0xfffd :: code_points rest
      else u :: code_points rest
  end.

Definition utf8_of_cp (c : Z) : list Z :=
  if c <? 0x80 then [c]
  else if c <? 0x800 then [0xc0 + c / 64; 0x80 + c mod 64]
  else if c <? 0x10000 then [0xe0 + c / 4096; 0x80 + (c / 64) mod 64; 0x80 + c mod 64]
  else [0xf0 + c / 262144; 0x80 + (c / 4096) mod 64; 0x80 + (c / 64) mod 64; 0x80 + c mod 64].

Definition utf8_encode (s : jsstr) : list Z := flat_map utf8_of_cp (code_points s).

(** ** ByteWriter *)

Record ByteWriter := mkBW { bw_buf : list Z; bw_len : nat }.

Definition bw_new : ByteWriter := mkBW (replicate 256 0) 0.

Definition bw_bytes (w : ByteWriter) : list Z := take (bw_len w) (bw_buf w).

(** [let cap = buf.length * 2; while (cap < len + need) cap *= 2;] *)
Fixpoint grow_cap (fuel cap total : nat) : nat :=
  match fuel with
  | O => cap
  | S fuel' => if decide (cap < total)%nat then grow_cap fuel' (cap * 2) total else cap
  end.

Definition bw_grow (need : nat) (w : ByteWriter) : ByteWriter :=
  if decide (bw_len w + need <= length (bw_buf w))%nat then w
  else
    let total := (bw_len w + need)%nat in
    let cap := grow_cap total (length (bw_buf w) * 2) total in
    mkBW (take (bw_len w) (bw_buf w) ++ replicate (cap - bw_len w) 0) (bw_len w).

(** Stores into a [Uint8Array] keep the value modulo 256. *)
Definition bw_u8 (b : Z) (w : ByteWriter) : ByteWriter :=
  let w := bw_grow 1 w in
  mkBW (<[bw_len w := to_uint8 b]> (bw_buf w)) (S (bw_len w)).

(** [buf.set(bytes, at)] *)
Definition buf_set (buf bytes : list Z) (at_ : nat) : list Z :=
  take at_ buf ++ bytes ++ drop (at_ + length bytes) buf.

Definition bw_raw (bytes : list Z) (w : ByteWriter) : ByteWriter :=
  let w := bw_grow (length bytes) w in
  mkBW (buf_set (bw_buf w) bytes (bw_len w)) (bw_len w + length bytes).

Fixpoint uleb_loop (fuel : nat) (n : Z) (w : ByteWriter) : ByteWriter :=
  match fuel with
  | O => w
  | S fuel' =>
      let b := js_and n 0x7f in
      let n' := n / 128 in
      let b := if negb (n' =? 0) then js_or b 0x80 else b in
      let w := bw_u8 b w in
      if negb (n' =? 0) then uleb_loop fuel' n' w else w
  end.

Definition uleb (n : Z) (w : ByteWriter) : res ByteWriter :=
  if (n <? 0) || (0xffffffff <? n)
  then Throw ("uleb128 out of u32 range: " +:+ pretty n)
  else Ok (uleb_loop 5 n w).

Fixpoint sleb_loop (fuel : nat) (n : Z) (w : ByteWriter) : ByteWriter :=
  match fuel with
  | O => w
  | S fuel' =>
      let b := js_and n 0x7f in
      let n := js_shr n 7 in
      let signBit := negb (js_and b 0x40 =? 0) in
      if ((n =? 0) && negb signBit) || ((n =? -1) && signBit)
      then bw_u8 b w
      else sleb_loop fuel' n (bw_u8 (js_or b 0x80) w)
  end.

Definition sleb (n : Z) (w : ByteWriter) : res ByteWriter :=
  if (n <? -0x80000000) || (0x7fffffff <? n)
  then Throw ("sleb128 out of i32 range: " +:+ pretty n)
  else Ok (sleb_loop 5 n w).

(** BigInt arithmetic: [&] and [>>] are exact on integers. *)
Fixpoint sleb64_loop (fuel : nat) (n : Z) (w : ByteWriter) : ByteWriter :=
  match fuel with
  | O => w
  | S fuel' =>
      let b := Z.land n 0x7f in
      let n := Z.shiftr n 7 in
      let signBit := negb (js_and b 0x40 =? 0) in
      if ((n =? 0) && negb signBit) || ((n =? -1) && signBit)
      then bw_u8 b w
      else sleb64_loop fuel' n (bw_u8 (js_or b 0x80) w)
  end.

Definition sleb64 (n : Z) (w : ByteWriter) : res ByteWriter :=
  if (n <? -0x8000000000000000) || (0x7fffffffffffffff <? n)
  then Throw ("sleb128 out of i64 range: " +:+ pretty n)
  else Ok (sleb64_loop 10 n w).

(** Little-endian bytes. *)
Fixpoint le_bytes (k : nat) (v : Z) : list Z :=
  match k with O => [] | S k' => v mod 256 :: le_bytes k' (v / 256) end.

Definition bw_f64 (v : num) (w : ByteWriter) : ByteWriter :=
  let w := bw_grow 8 w in
  mkBW (buf_set (bw_buf w) (le_bytes 8 (f64_bits v)) (bw_len w)) (bw_len w + 8).

Definition bw_name (s : jsstr) (w : ByteWriter) : res ByteWriter :=
  let bytes := utf8_encode s in
  let* w := uleb (Z.of_nat (length bytes)) w in
  Ok (bw_raw bytes w).

Definition framed (body : ByteWriter → res ByteWriter) (w : ByteWriter) : res ByteWriter :=
  let* inner := body bw_new in
  let* w := uleb (Z.of_nat (bw_len inner)) w in
  Ok (bw_raw (bw_bytes inner) w).

Definition section (id : Z) (body : ByteWriter → res ByteWriter) (w : ByteWriter) : res ByteWriter :=
  framed body (bw_u8 id w).

(** ** Reader (engine.ts) *)

Record Reader := mkRd { rd_b : list Z; rd_pos : nat; rd_end : nat }.

Definition engine_error {A} (msg : string) : res A := Throw ("island engine artifact: " +:+ msg).

(** A read of [this.b[pos]] past the array is [undefined] ([None]). *)
Definition rd_u8 (r : Reader) : res (option Z * Reader) :=
  if decide (rd_end r <= rd_pos r)%nat then engine_error ("truncated at byte " +:+ pretty (rd_pos r))
  else Ok (rd_b r !! rd_pos r, mkRd (rd_b r) (S (rd_pos r)) (rd_end r)).

(** [x & m] of a possibly undefined byte: undefined is 0 after ToInt32. *)
Definition byte_and (x : option Z) (m : Z) : Z :=
  match x with Some v => js_and v m | None => 0 end.

Fixpoint rd_uleb_loop (fuel : nat) (result shift : Z) (r : Reader) : res (Z * Reader) :=
  match fuel with
  | O => Throw "unreachable"
  | S fuel' =>
      let* ' (x, r) := rd_u8 r in
      let result := result + byte_and x 0x7f * 2 ^ shift in
      let shift := shift + 7 in
      if byte_and x 0x80 =? 0 then Ok (result, r)
      else if 35 <? shift then engine_error ("over-long LEB at byte " +:+ pretty (rd_pos r))
      else rd_uleb_loop fuel' result shift r
  end.

Definition rd_uleb (r : Reader) : res (Z * Reader) := rd_uleb_loop 6 0 0 r.

(** ** The padded five-byte LEBs that relocations overwrite *)

Definition readUleb5 (b : list Z) (at_ : nat) : Z :=
  foldl (λ v k, v + byte_and (b !! (at_ + k)%nat) 0x7f * 2 ^ (7 * Z.of_nat k)) 0 (seq 0 5).

Definition writeUleb5 (b : list Z) (at_ : nat) (v : Z) : res (list Z) :=
  if (v <? 0) || (2 ^ 32 <=? v) then Throw ("index " +:+ pretty v +:+ " does not fit a 5-byte LEB")
  else Ok (foldl (λ b k,
    let x := js_and (v / 2 ^ (7 * Z.of_nat k)) 0x7f in
    <[(at_ + k)%nat := if decide (k < 4)%nat then js_or x 0x80 else x]> b) b (seq 0 5)).

(** * Refinement to appended byte sequences

    [bw_wf] is the buffer invariant; [emits f bs] says that running [f] on any
    well-formed writer succeeds, keeps the invariant and appends exactly [bs].
    This is the interface the layers above the writer are proved against. *)

Definition bw_wf (w : ByteWriter) : Prop :=
  (bw_len w <= length (bw_buf w))%nat ∧ (0 < length (bw_buf w))%nat.

Definition emits (f : ByteWriter → res ByteWriter) (bs : list Z) : Prop :=
  ∀ w, bw_wf w → ∃ w', f w = Ok w' ∧ bw_wf w' ∧ bw_bytes w' = bw_bytes w ++ bs.

Lemma bw_new_wf : bw_wf bw_new.
Proof. split; simpl; lia. Qed.

Lemma bw_bytes_length w : bw_wf w → length (bw_bytes w) = bw_len w.
Proof. intros [? ?]. unfold bw_bytes. rewrite length_take. lia. Qed.

Lemma grow_cap_enough fuel cap total :
  (0 < cap)%nat → (total <= cap + fuel)%nat → (total <= grow_cap fuel cap total)%nat.
Proof.
  revert cap; induction fuel as [|fuel IH]; intros cap Hc Ht; simpl; [lia|].
  case_decide; [apply IH; lia|lia].
Qed.

Lemma bw_grow_spec need w : bw_wf w →
  let w' := bw_grow need w in
  bw_wf w' ∧ bw_len w' = bw_len w ∧ bw_bytes w' = bw_bytes w ∧
  (bw_len w + need <= length (bw_buf w'))%nat.
Proof.
  intros [H1 H2]. unfold bw_grow. case_decide as Hd; [by split_and!|].
  set (total := (bw_len w + need)%nat).
  pose proof (grow_cap_enough total (length (bw_buf w) * 2) total ltac:(lia) ltac:(lia)) as Hg.
  set (cap := grow_cap _ _ _) in *. unfold bw_wf, bw_bytes; simpl.
  rewrite length_app, length_take, length_replicate.
  split_and!; [lia|lia|done| |unfold total in *; lia].
  apply take_app_len. rewrite length_take. lia.
Qed.

Lemma bw_raw_spec bytes w : bw_wf w →
  bw_wf (bw_raw bytes w) ∧ bw_bytes (bw_raw bytes w) = bw_bytes w ++ bytes.
Proof.
  intros Hw. destruct (bw_grow_spec (length bytes) w Hw) as (Hw' & Hl & Hb & Hcap).
  unfold bw_raw. set (w' := bw_grow _ _) in *. unfold bw_wf, bw_bytes, buf_set in *; simpl.
  rewrite !length_app, length_take, length_drop. split; [lia|].
  rewrite app_assoc, take_app_len; [by rewrite <- Hb, Hl|].
  rewrite length_app, length_take. lia.
Qed.

Lemma bw_u8_raw b w : bw_wf w → bw_u8 b w = bw_raw [to_uint8 b] w.
Proof.
  intros Hw. destruct (bw_grow_spec 1 w Hw) as (Hw' & Hl & Hb & Hcap).
  unfold bw_u8, bw_raw, buf_set; simpl. set (w' := bw_grow 1 w) in *. f_equal; [|lia].
  rewrite <- Hl in Hcap. by rewrite insert_take_drop, Nat.add_1_r by lia.
Qed.

Lemma bw_f64_raw v w : bw_f64 v w = bw_raw (le_bytes 8 (f64_bits v)) w.
Proof. reflexivity. Qed.

Lemma emits_raw bytes : emits (λ w, Ok (bw_raw bytes w)) bytes.
Proof. intros w Hw. destruct (bw_raw_spec bytes w Hw). eauto. Qed.

Lemma emits_u8 b : emits (λ w, Ok (bw_u8 b w)) [to_uint8 b].
Proof. intros w Hw. rewrite bw_u8_raw by done. by apply emits_raw. Qed.

Lemma emits_f64 v : emits (λ w, Ok (bw_f64 v w)) (le_bytes 8 (f64_bits v)).
Proof. intros w Hw. rewrite bw_f64_raw. by apply emits_raw. Qed.

Lemma emits_ret : emits (λ w, Ok w) [].
Proof. intros w Hw. exists w. by rewrite app_nil_r. Qed.

Lemma emits_bind f g bs cs : emits f bs → emits g cs → emits (λ w, let* w := f w in g w) (bs ++ cs).
Proof.
  intros Hf Hg w Hw. destruct (Hf w Hw) as (w1 & E1 & Hw1 & B1).
  destruct (Hg w1 Hw1) as (w2 & E2 & Hw2 & B2). exists w2. rewrite E1; simpl.
  split_and!; [done..|]. by rewrite B2, B1, app_assoc.
Qed.

(** A pure step in front of a step. *)
Lemma emits_step (f : ByteWriter → ByteWriter) g bs cs :
  emits (λ w, Ok (f w)) bs → emits g cs → emits (λ w, g (f w)) (bs ++ cs).
Proof. intros Hf Hg. apply (emits_bind _ _ _ _ Hf Hg). Qed.

Lemma emits_ext f g bs : (∀ w, f w = g w) → emits f bs → emits g bs.
Proof. intros E H w Hw. rewrite <- E. auto. Qed.

Lemma emits_fold {A} (f : A → ByteWriter → res ByteWriter) (enc : A → list Z) xs :
  (∀ x, x ∈ xs → emits (f x) (enc x)) → emits (res_fold f xs) (flat_map enc xs).
Proof.
  induction xs as [|x xs IH]; intros H; simpl; [apply emits_ret|].
  apply emits_bind; [apply H; left|apply IH; intros; apply H; by right].
Qed.

(** ** LEB128 *)

Fixpoint uleb_digits (fuel : nat) (n : Z) : list Z :=
  match fuel with
  | O => []
  | S fuel' => if n / 128 =? 0 then [n mod 128] else (n mod 128 + 128) :: uleb_digits fuel' (n / 128)
  end.
Definition uleb_spec (n : Z) : list Z := uleb_digits 5 n.

Fixpoint sleb_digits (fuel : nat) (n : Z) : list Z :=
  match fuel with
  | O => []
  | S fuel' =>
      if (-64 <=? n) && (n <? 64) then [n mod 128]
      else (n mod 128 + 128) :: sleb_digits fuel' (n / 128)
  end.
Definition sleb_spec (n : Z) : list Z := sleb_digits 5 n.
Definition sleb64_spec (n : Z) : list Z := sleb_digits 10 n.

Lemma js_and_127 n : js_and n 0x7f = n mod 128.
Proof. apply (js_and_ones n 7); [lia|done]. Qed.

Lemma emits_uleb_loop fuel n : 0 <= n →
  emits (λ w, Ok (uleb_loop fuel n w)) (uleb_digits fuel n).
Proof.
  revert n; induction fuel as [|fuel IH]; intros n Hn; simpl; [apply emits_ret|].
  rewrite js_and_127. pose proof (Z.mod_pos_bound n 128).
  destruct (n / 128 =? 0); simpl.
  - pose proof (emits_u8 (n mod 128)) as H'. rewrite to_uint8_id in H' by (unfold byte; lia). done.
  - rewrite js_or_128 by lia.
    pose proof (emits_u8 (n mod 128 + 128)) as H'. rewrite to_uint8_id in H' by (unfold byte; lia).
    apply (emits_step _ (λ w, Ok (uleb_loop fuel (n / 128) w)) _ _ H').
    apply IH. apply Z.div_pos; lia.
Qed.

Lemma emits_uleb n : 0 <= n < 2 ^ 32 → emits (uleb n) (uleb_spec n).
Proof.
  intros Hn. unfold uleb. destruct (Z.ltb_spec n 0), (Z.ltb_spec 0xffffffff n); try lia.
  apply emits_uleb_loop. lia.
Qed.

(** The loop's exit test, in terms of the value. *)
Lemma sleb_exit n :
  let b := n mod 128 in
  let signBit := negb (js_and b 0x40 =? 0) in
  ((n / 128 =? 0) && negb signBit) || ((n / 128 =? -1) && signBit) = (-64 <=? n) && (n <? 64).
Proof.
  simpl. pose proof (Z.div_mod n 128 ltac:(lia)) as Hn. pose proof (Z.mod_pos_bound n 128 ltac:(lia)) as Hb.
  set (b := n mod 128) in *. set (q := n / 128) in *. clearbody b q.
  assert (Hs : negb (js_and b 0x40 =? 0) = (64 <=? b)).
  { assert (Hall : forallb (λ b, Bool.eqb (negb (js_and b 0x40 =? 0)) (64 <=? b)) (map Z.of_nat (seq 0 128)) = true)
      by (vm_compute; reflexivity).
    rewrite forallb_forall in Hall. apply Bool.eqb_prop, Hall, in_map_iff.
    exists (Z.to_nat b). split; [lia|]. apply in_seq. lia. }
  rewrite Hs, eq_iff_eq_true, orb_true_iff, !andb_true_iff, negb_true_iff, Z.leb_gt.
  rewrite !Z.leb_le, Z.ltb_lt, !Z.eqb_eq. lia.
Qed.

Lemma emits_sleb_step (exit : bool) b (next : ByteWriter → ByteWriter) rest :
  0 <= b < 128 → emits (λ w, Ok (next w)) rest →
  emits (λ w, Ok (if exit then bw_u8 b w else next (bw_u8 (js_or b 0x80) w)))
    (if exit then [b] else (b + 128) :: rest).
Proof.
  intros Hb Hn. destruct exit.
  - pose proof (emits_u8 b) as H'. by rewrite to_uint8_id in H' by (unfold byte; lia).
  - rewrite js_or_128 by lia. pose proof (emits_u8 (b + 128)) as H'.
    rewrite to_uint8_id in H' by (unfold byte; lia).
    apply (emits_step _ (λ w, Ok (next w)) _ _ H' Hn).
Qed.

Lemma emits_sleb_loop fuel n : - 2 ^ 31 <= n < 2 ^ 31 →
  emits (λ w, Ok (sleb_loop fuel n w)) (sleb_digits fuel n).
Proof.
  revert n; induction fuel as [|fuel IH]; intros n Hn; simpl; [apply emits_ret|].
  assert (Hsh : js_shr n 7 = n / 128).
  { unfold js_shr. rewrite (to_int32_id n), to_uint32_id by lia. change (Z.land 7 31) with 7.
    by rewrite Z.shiftr_div_pow2 by lia. }
  rewrite js_and_127, Hsh, sleb_exit.
  apply emits_sleb_step; [apply Z.mod_pos_bound; lia|].
  apply IH. pose proof (Z.div_mod n 128 ltac:(lia)). pose proof (Z.mod_pos_bound n 128). lia.
Qed.

Lemma emits_sleb n : - 2 ^ 31 <= n < 2 ^ 31 → emits (sleb n) (sleb_spec n).
Proof.
  intros Hn. unfold sleb. destruct (Z.ltb_spec n (-0x80000000)), (Z.ltb_spec 0x7fffffff n); try lia.
  apply emits_sleb_loop. lia.
Qed.

Lemma emits_sleb64_loop fuel n : emits (λ w, Ok (sleb64_loop fuel n w)) (sleb_digits fuel n).
Proof.
  revert n; induction fuel as [|fuel IH]; intros n; simpl; [apply emits_ret|].
  change 0x7f with (Z.ones 7). rewrite Z.land_ones, Z.shiftr_div_pow2 by lia.
  rewrite sleb_exit. apply emits_sleb_step; [apply Z.mod_pos_bound; lia|apply IH].
Qed.

Lemma emits_sleb64 n : - 2 ^ 63 <= n < 2 ^ 63 → emits (sleb64 n) (sleb64_spec n).
Proof.
  intros Hn. unfold sleb64.
  destruct (Z.ltb_spec n (-0x8000000000000000)), (Z.ltb_spec 0x7fffffffffffffff n); try lia.
  apply emits_sleb64_loop.
Qed.

#[export] Hint Resolve emits_raw emits_u8 emits_f64 emits_ret emits_uleb emits_sleb emits_sleb64 : emits.

(** ** Reference decoders

    The LEB128 grammar of the WebAssembly binary format, on byte lists. *)

Fixpoint uleb_dec (bs : list Z) : option (Z * list Z) :=
  match bs with
  | [] => None
  | b :: rest =>
      if b <? 128 then Some (b, rest)
      else '(v, rest') ← uleb_dec rest; Some (b - 128 + 128 * v, rest')
  end.

Fixpoint sleb_dec (bs : list Z) : option (Z * list Z) :=
  match bs with
  | [] => None
  | b :: rest =>
      if b <? 64 then Some (b, rest)
      else if b <? 128 then Some (b - 128, rest)
      else '(v, rest') ← sleb_dec rest; Some (b - 128 + 128 * v, rest')
  end.

Lemma uleb_digits_dec fuel n rest : (0 < fuel)%nat → 0 <= n < 128 ^ Z.of_nat fuel →
  uleb_dec (uleb_digits fuel n ++ rest) = Some (n, rest).
Proof.
  revert n; induction fuel as [|fuel IH]; intros n Hf Hn; [lia|]. cbn [uleb_digits].
  pose proof (Z.div_mod n 128 ltac:(lia)) as Hd. pose proof (Z.mod_pos_bound n 128 ltac:(lia)) as Hm.
  rewrite Nat2Z.inj_succ, Z.pow_succ_r in Hn by lia.
  destruct (Z.eqb_spec (n / 128) 0) as [E|E].
  - simpl. destruct (Z.ltb_spec (n mod 128) 128); [|lia]. f_equal. f_equal. lia.
  - cbn [app uleb_dec]. destruct (Z.ltb_spec (n mod 128 + 128) 128); [lia|].
    destruct fuel as [|fuel]; [simpl in Hn; lia|].
    rewrite IH; [|lia|split; [apply Z.div_pos; lia|apply Z.div_lt_upper_bound; lia]].
    simpl. f_equal. f_equal. lia.
Qed.

Lemma sleb_digits_S fuel n : sleb_digits (S fuel) n =
  if (-64 <=? n) && (n <? 64) then [n mod 128] else (n mod 128 + 128) :: sleb_digits fuel (n / 128).
Proof. reflexivity. Qed.

Lemma sleb_dec_cons b rest : sleb_dec (b :: rest) =
  if b <? 64 then Some (b, rest) else if b <? 128 then Some (b - 128, rest)
  else '(v, rest') ← sleb_dec rest; Some (b - 128 + 128 * v, rest').
Proof. reflexivity. Qed.

Lemma sleb_digits_dec fuel n rest : - (64 * 128 ^ Z.of_nat fuel) <= n < 64 * 128 ^ Z.of_nat fuel →
  sleb_dec (sleb_digits (S fuel) n ++ rest) = Some (n, rest).
Proof.
  revert n; induction fuel as [|fuel IH]; intros n Hn; rewrite sleb_digits_S;
    pose proof (Z.div_mod n 128 ltac:(lia)) as Hd; pose proof (Z.mod_pos_bound n 128 ltac:(lia)) as Hm.
  all: destruct ((-64 <=? n) && (n <? 64)) eqn:E; zb; cbn [app]; rewrite sleb_dec_cons.
  1, 3: destruct (Z.ltb_spec (n mod 128) 64), (Z.ltb_spec (n mod 128) 128); do 2 f_equal; lia.
  - change (128 ^ Z.of_nat 0) with 1 in Hn. apply andb_false_iff in E as [?|?]; zb; lia.
  - rewrite Nat2Z.inj_succ, Z.pow_succ_r in Hn by lia.
    destruct (Z.ltb_spec (n mod 128 + 128) 64), (Z.ltb_spec (n mod 128 + 128) 128); try lia.
    rewrite IH by (split; [apply Z.div_le_lower_bound|apply Z.div_lt_upper_bound]; lia).
    simpl. do 2 f_equal. lia.
Qed.

Lemma uleb_spec_dec n rest : 0 <= n < 2 ^ 32 → uleb_dec (uleb_spec n ++ rest) = Some (n, rest).
Proof. intros Hn. apply uleb_digits_dec; [lia|]. change (Z.of_nat 5) with 5. lia. Qed.

Lemma sleb_spec_dec n rest : - 2 ^ 31 <= n < 2 ^ 31 → sleb_dec (sleb_spec n ++ rest) = Some (n, rest).
Proof. intros Hn. apply (sleb_digits_dec 4). change (Z.of_nat 4) with 4. lia. Qed.

Lemma sleb64_spec_dec n rest : - 2 ^ 63 <= n < 2 ^ 63 → sleb_dec (sleb64_spec n ++ rest) = Some (n, rest).
Proof. intros Hn. apply (sleb_digits_dec 9). change (Z.of_nat 9) with 9. lia. Qed.

Lemma uleb_digits_length fuel n : (length (uleb_digits fuel n) <= fuel)%nat.
Proof. revert n; induction fuel as [|fuel IH]; intros n; simpl; [lia|]. case_match; simpl; [lia|]. specialize (IH (n / 128)). lia. Qed.

Lemma sleb_digits_length fuel n : (length (sleb_digits fuel n) <= fuel)%nat.
Proof. revert n; induction fuel as [|fuel IH]; intros n; simpl; [lia|]. case_match; simpl; [lia|]. specialize (IH (n / 128)). lia. Qed.

Lemma uleb_digits_byte fuel n : Forall byte (uleb_digits fuel n).
Proof.
  revert n; induction fuel as [|fuel IH]; intros n; simpl; [constructor|].
  pose proof (Z.mod_pos_bound n 128 ltac:(lia)). case_match; constructor; auto; unfold byte; lia.
Qed.

Lemma sleb_digits_byte fuel n : Forall byte (sleb_digits fuel n).
Proof.
  revert n; induction fuel as [|fuel IH]; intros n; simpl; [constructor|].
  pose proof (Z.mod_pos_bound n 128 ltac:(lia)). case_match; constructor; auto; unfold byte; lia.
Qed.

Lemma le_bytes_byte k v : Forall byte (le_bytes k v).
Proof. revert v; induction k as [|k IH]; intros v; simpl; constructor; auto. apply to_uint8_byte. Qed.

Lemma le_bytes_length k v : length (le_bytes k v) = k.
Proof. revert v; induction k as [|k IH]; intros v; simpl; auto. Qed.

(** The value of little-endian bytes. *)
Fixpoint le_value (bs : list Z) : Z := match bs with [] => 0 | b :: bs' => b + 256 * le_value bs' end.

Lemma le_value_bytes k v : le_value (le_bytes k v) = v mod 256 ^ Z.of_nat k.
Proof.
  revert v; induction k as [|k IH]; intros v; cbn [le_bytes le_value]; [by rewrite Z.mod_1_r|].
  rewrite IH, Nat2Z.inj_succ, Z.pow_succ_r by lia.
  pose proof (Z.pow_pos_nonneg 256 (Z.of_nat k) ltac:(lia) ltac:(lia)).
  rewrite Z.rem_mul_r by lia. lia.
Qed.

(** ** The reader over written bytes *)

Definition rd_sees (r : Reader) (bs : list Z) : Prop :=
  (rd_end r <= length (rd_b r))%nat ∧ take (length bs) (drop (rd_pos r) (rd_b r)) = bs ∧
  (rd_pos r + length bs <= rd_end r)%nat.

Definition rd_advance (k : nat) (r : Reader) : Reader := mkRd (rd_b r) (rd_pos r + k) (rd_end r).

Lemma rd_sees_cons r b bs : rd_sees r (b :: bs) →
  rd_u8 r = Ok (Some b, rd_advance 1 r) ∧ rd_sees (rd_advance 1 r) bs.
Proof.
  intros (He & Ht & Hl). simpl in *.
  destruct (drop (rd_pos r) (rd_b r)) as [|b' tl] eqn:Ed; [done|]. simpl in Ht. injection Ht as -> Ht.
  assert (Hlk : rd_b r !! rd_pos r = Some b).
  { rewrite <- (Nat.add_0_r (rd_pos r)), <- lookup_drop, Ed. done. }
  split.
  - unfold rd_u8, rd_advance. rewrite decide_False by lia. by rewrite Hlk, Nat.add_1_r.
  - split_and!; simpl; [done| |lia]. rewrite <- drop_drop, Ed. simpl. by rewrite drop_0.
Qed.

Lemma rd_advance_advance j k r : rd_advance j (rd_advance k r) = rd_advance (k + j) r.
Proof. unfold rd_advance; simpl. f_equal. lia. Qed.

Lemma rd_uleb_loop_S fuel acc sh r : rd_uleb_loop (S fuel) acc sh r =
  let* ' (x, r) := rd_u8 r in
  if byte_and x 0x80 =? 0 then Ok (acc + byte_and x 0x7f * 2 ^ sh, r)
  else if 35 <? sh + 7 then engine_error ("over-long LEB at byte " +:+ pretty (rd_pos r))
  else rd_uleb_loop fuel (acc + byte_and x 0x7f * 2 ^ sh) (sh + 7) r.
Proof. reflexivity. Qed.

(** Bit 7 is LEB128's continuation flag. *)
Lemma byte_and_high c : 0 <= c < 256 → (byte_and (Some c) 0x80 =? 0) = (c <? 128).
Proof.
  intros Hc.
  assert (Hall : forallb (λ b, Bool.eqb (js_and b 0x80 =? 0) (b <? 128)) (map Z.of_nat (seq 0 256)) = true)
    by (vm_compute; reflexivity).
  rewrite forallb_forall in Hall. apply Bool.eqb_prop, Hall, in_map_iff.
  exists (Z.to_nat c). split; [lia|apply in_seq; lia].
Qed.

Lemma byte_and_low b : 0 <= b < 128 → byte_and (Some b) 0x7f = b ∧ byte_and (Some (b + 128)) 0x7f = b.
Proof.
  intros Hb. unfold byte_and. rewrite !js_and_127, Z.mod_small by lia. split; [done|].
  rewrite <- (Z.mul_1_l 128) at 1. rewrite Z.mod_add, Z.mod_small by lia. done.
Qed.

Lemma rd_uleb_loop_spec fuel n acc sh r : (0 < fuel)%nat → 0 <= n < 128 ^ Z.of_nat fuel →
  0 <= sh → sh + 7 * Z.of_nat fuel <= 35 → rd_sees r (uleb_digits fuel n) →
  rd_uleb_loop (S fuel) acc sh r = Ok (acc + n * 2 ^ sh, rd_advance (length (uleb_digits fuel n)) r).
Proof.
  revert n acc sh r; induction fuel as [|fuel IH]; intros n acc sh r Hf Hn Hs0 Hsh Hr; [lia|].
  pose proof (Z.div_mod n 128 ltac:(lia)) as Hd. pose proof (Z.mod_pos_bound n 128 ltac:(lia)) as Hm.
  change (uleb_digits (S fuel) n) with
    (if n / 128 =? 0 then [n mod 128] else (n mod 128 + 128) :: uleb_digits fuel (n / 128)) in *.
  rewrite Nat2Z.inj_succ, Z.pow_succ_r in Hn by lia. rewrite rd_uleb_loop_S.
  destruct (byte_and_low (n mod 128) Hm) as [B1 B2].
  destruct (Z.eqb_spec (n / 128) 0) as [Eq|Eq]; apply rd_sees_cons in Hr as [Hu Hr']; rewrite Hu; cbn [res_bind].
  - rewrite byte_and_high by lia. destruct (Z.ltb_spec (n mod 128) 128); [|lia].
    rewrite B1. do 2 f_equal. rewrite Hd at 2. rewrite Eq. ring.
  - rewrite byte_and_high by lia. destruct (Z.ltb_spec (n mod 128 + 128) 128); [lia|].
    destruct (Z.ltb_spec 35 (sh + 7)); [lia|]. rewrite B2.
    destruct fuel as [|fuel]; [simpl in Hn; lia|].
    rewrite (IH (n / 128)); [|lia| |lia|lia|done].
    + rewrite rd_advance_advance. do 2 f_equal. rewrite Z.pow_add_r by lia.
      change (2 ^ 7) with 128. rewrite Hd at 3. ring.
    + split; [apply Z.div_pos; lia|apply Z.div_lt_upper_bound; lia].
Qed.

Lemma rd_uleb_spec n r : 0 <= n < 2 ^ 32 → rd_sees r (uleb_spec n) →
  rd_uleb r = Ok (n, rd_advance (length (uleb_spec n)) r).
Proof.
  intros Hn Hr. unfold rd_uleb.
  rewrite (rd_uleb_loop_spec 5 n 0 0 r); [|lia|change (Z.of_nat 5) with 5; lia|lia|lia|done].
  do 2 f_equal. rewrite Z.mul_1_r. lia.
Qed.

(** ** Padded LEBs in place *)

Definition uleb5_digit (v : Z) (k : nat) : Z :=
  let x := (v / 2 ^ (7 * Z.of_nat k)) mod 128 in if decide (k < 4)%nat then x + 128 else x.

Lemma uleb5_digit_code v k :
  (let x := js_and (v / 2 ^ (7 * Z.of_nat k)) 0x7f in if decide (k < 4)%nat then js_or x 0x80 else x)
  = uleb5_digit v k.
Proof.
  unfold uleb5_digit. rewrite js_and_127. cbv zeta.
  pose proof (Z.mod_pos_bound (v / 2 ^ (7 * Z.of_nat k)) 128 ltac:(lia)).
  case_decide; [by apply js_or_128|done].
Qed.

Definition insert_digits (at_ : nat) (v : Z) (b : list Z) (ks : list nat) : list Z :=
  foldl (λ b k, <[(at_ + k)%nat := uleb5_digit v k]> b) b ks.

Lemma insert_digits_length at_ v b ks : length (insert_digits at_ v b ks) = length b.
Proof. revert b; induction ks as [|k ks IH]; intros b; simpl; [done|]. by rewrite IH, length_insert. Qed.

Lemma insert_digits_other at_ v b ks i : (∀ k, k ∈ ks → i ≠ (at_ + k)%nat) →
  insert_digits at_ v b ks !! i = b !! i.
Proof.
  revert b; induction ks as [|k ks IH]; intros b Hi; simpl; [done|].
  rewrite IH by (intros; apply Hi; by right). apply list_lookup_insert_ne.
  intros E. apply (Hi k); [left|done].
Qed.

Lemma insert_digits_at at_ v b ks k : NoDup ks → k ∈ ks → (at_ + k < length b)%nat →
  insert_digits at_ v b ks !! (at_ + k)%nat = Some (uleb5_digit v k).
Proof.
  revert b; induction ks as [|j ks IH]; intros b Hnd Hk Hl; [by apply elem_of_nil in Hk|].
  apply NoDup_cons in Hnd as [Hj Hnd]. simpl.
  destruct (decide (k = j)) as [->|Hne].
  - rewrite (insert_digits_other at_ v (<[(at_ + j)%nat:=uleb5_digit v j]> b) ks (at_ + j)).
    + apply list_lookup_insert_eq. done.
    + intros i Hi E. assert (i = j) as -> by lia. done.
  - apply IH; [done| |by rewrite length_insert]. by apply elem_of_cons in Hk as [|].
Qed.

Lemma writeUleb5_digits b at_ v : 0 <= v < 2 ^ 32 →
  writeUleb5 b at_ v = Ok (insert_digits at_ v b (seq 0 5)).
Proof.
  intros Hv. unfold writeUleb5. destruct (Z.ltb_spec v 0), (Z.leb_spec (2 ^ 32) v); try lia. cbn [orb].
  f_equal. unfold insert_digits. generalize (seq 0 5); intros ks. revert b.
  induction ks as [|k ks IH]; intros b; cbn [foldl]; [done|]. by rewrite uleb5_digit_code, IH.
Qed.

Lemma uleb5_digit_range v k : 0 <= v < 2 ^ 32 → (k < 5)%nat →
  (if decide (k < 4)%nat then 128 <= uleb5_digit v k < 256 else 0 <= uleb5_digit v k < 128) ∧
  byte_and (Some (uleb5_digit v k)) 0x7f = (v / 2 ^ (7 * Z.of_nat k)) mod 128.
Proof.
  intros Hv Hk. unfold uleb5_digit.
  pose proof (Z.mod_pos_bound (v / 2 ^ (7 * Z.of_nat k)) 128 ltac:(lia)) as Hm.
  destruct (byte_and_low _ Hm) as [B1 B2]. case_decide; (split; [lia|done]).
Qed.

(** Base-128 digits of a 35-bit value. *)
Lemma base128 v : 0 <= v < 2 ^ 35 →
  v mod 128 + (v / 2 ^ 7) mod 128 * 2 ^ 7 + (v / 2 ^ 14) mod 128 * 2 ^ 14 +
  (v / 2 ^ 21) mod 128 * 2 ^ 21 + (v / 2 ^ 28) mod 128 * 2 ^ 28 = v.
Proof.
  intros Hv.
  assert (E : ∀ a b, 0 <= a → b = a + 7 → v / 2 ^ b = v / 2 ^ a / 128).
  { intros a b Ha ->. rewrite Z.pow_add_r, Z.div_div by (try apply Z.pow_nonzero; lia). done. }
  rewrite (E 21 28), (E 14 21), (E 7 14), (E 0 7) by lia. change (2 ^ 0) with 1. rewrite Z.div_1_r.
  Z.to_euclidean_division_equations. lia.
Qed.

Lemma readUleb5_digits at_ v b : 0 <= v < 2 ^ 32 → (at_ + 5 <= length b)%nat →
  readUleb5 (insert_digits at_ v b (seq 0 5)) at_ = v.
Proof.
  intros Hv Hl.
  assert (Hd : ∀ k, (k < 5)%nat →
    byte_and (insert_digits at_ v b (seq 0 5) !! (at_ + k)%nat) 0x7f = (v / 2 ^ (7 * Z.of_nat k)) mod 128).
  { intros k Hk. rewrite insert_digits_at; [|apply NoDup_seq|apply elem_of_seq; lia|lia].
    by apply uleb5_digit_range. }
  unfold readUleb5. set (b' := insert_digits _ _ _ _) in *. cbn [seq foldl].
  rewrite !Hd by lia. etrans; [|apply (base128 v); lia].
  change (7 * Z.of_nat 0) with 0. change (7 * Z.of_nat 1) with 7. change (7 * Z.of_nat 2) with 14.
  change (7 * Z.of_nat 3) with 21. change (7 * Z.of_nat 4) with 28.
  change (2 ^ 0) with 1. rewrite Z.div_1_r. ring.
Qed.

(** ** Step sequences

    The layers above spell a run of writer calls as a list of steps. *)

Definition step := ByteWriter → res ByteWriter.
Definition pu8 (b : Z) : step := λ w, Ok (bw_u8 b w).
Definition praw (bs : list Z) : step := λ w, Ok (bw_raw bs w).
Definition pf64 (v : num) : step := λ w, Ok (bw_f64 v w).
Definition steps (fs : list step) : step := res_fold (λ f w, f w) fs.

Lemma emits_pu8 b : byte b → emits (pu8 b) [b].
Proof. intros Hb. pose proof (emits_u8 b) as H. by rewrite to_uint8_id in H. Qed.
Lemma emits_praw bs : emits (praw bs) bs.
Proof. apply emits_raw. Qed.
Lemma emits_pf64 v : emits (pf64 v) (le_bytes 8 (f64_bits v)).
Proof. apply emits_f64. Qed.

Lemma emits_steps fs bss : Forall2 emits fs bss → emits (steps fs) (concat bss).
Proof. induction 1; simpl; [apply emits_ret|by apply emits_bind]. Qed.

Lemma steps_app fs gs w : steps (fs ++ gs) w = (let* w := steps fs w in steps gs w).
Proof. apply res_fold_app. Qed.

(** A step fails on every writer, or emits. *)
Definition refuses (f : step) : Prop := ∀ w, bw_wf w → is_ok (f w) = false.

Lemma uleb_refuses n : ¬ (0 <= n < 2 ^ 32) → refuses (uleb n).
Proof. intros Hn w _. unfold uleb. destruct (Z.ltb_spec n 0), (Z.ltb_spec 0xffffffff n); simpl; (done || (exfalso; lia)). Qed.
Lemma sleb_refuses n : ¬ (- 2 ^ 31 <= n < 2 ^ 31) → refuses (sleb n).
Proof. intros Hn w _. unfold sleb. destruct (Z.ltb_spec n (-0x80000000)), (Z.ltb_spec 0x7fffffff n); simpl; (done || (exfalso; lia)). Qed.
Lemma sleb64_refuses n : ¬ (- 2 ^ 63 <= n < 2 ^ 63) → refuses (sleb64 n).
Proof. intros Hn w _. unfold sleb64. destruct (Z.ltb_spec n (-0x8000000000000000)), (Z.ltb_spec 0x7fffffffffffffff n); simpl; (done || (exfalso; lia)). Qed.

Lemma refuses_steps fs bss f gs : Forall2 emits fs bss → refuses f → refuses (steps (fs ++ f :: gs)).
Proof.
  intros Hfs Hf w Hw. rewrite steps_app. destruct (emits_steps _ _ Hfs w Hw) as (w1 & -> & Hw1 & _).
  cbn. specialize (Hf w1 Hw1). destruct (f w1); [discriminate Hf|done].
Qed.

(** The body of a frame, from a fresh writer. *)
Lemma emits_new f bs : emits f bs → ∃ w, f bw_new = Ok w ∧ bw_bytes w = bs.
Proof. intros H. destruct (H bw_new bw_new_wf) as (w & ? & _ & ?). exists w. auto. Qed.

Lemma emits_framed body bs : Z.of_nat (length bs) < 2 ^ 32 → emits body bs →
  emits (framed body) (uleb_spec (Z.of_nat (length bs)) ++ bs).
Proof.
  intros Hl Hb w Hw. destruct (Hb bw_new bw_new_wf) as (inner & E & Hwf & B). simpl in B.
  unfold framed. rewrite E. cbn [res_bind]. rewrite <- (bw_bytes_length inner Hwf), B.
  apply (emits_bind _ (praw bs)); [apply emits_uleb; lia|apply emits_praw|done].
Qed.

Lemma emits_section id body bs : byte id → Z.of_nat (length bs) < 2 ^ 32 → emits body bs →
  emits (section id body) (id :: uleb_spec (Z.of_nat (length bs)) ++ bs).
Proof.
  intros Hid Hl Hb. apply (emits_step (bw_u8 id) (framed body) [id]).
  - by apply emits_pu8.
  - by apply emits_framed.
Qed.

Definition name_spec (s : jsstr) : list Z :=
  uleb_spec (Z.of_nat (length (utf8_encode s))) ++ utf8_encode s.

Lemma emits_name s : Z.of_nat (length (utf8_encode s)) < 2 ^ 32 → emits (bw_name s) (name_spec s).
Proof.
  intros Hl. apply (emits_bind _ (praw (utf8_encode s))); [apply emits_uleb; lia|apply emits_praw].
Qed.

#[export] Hint Resolve emits_pu8 emits_praw emits_pf64 emits_steps emits_name : emits.

(** Splits a step list and its byte chunks and closes the leaves. *)
Ltac emits_solve :=
  repeat match goal with
  | |- Forall2 emits (_ :: _) (_ :: _) => apply Forall2_cons_2
  | |- Forall2 emits [] [] => constructor
  | |- emits (pu8 _) _ => apply emits_pu8; unfold byte; lia
  | |- emits (praw _) _ => apply emits_praw
  | |- emits (pf64 _) _ => apply emits_pf64
  | |- emits (uleb _) _ => apply emits_uleb; lia
  | |- emits (sleb _) _ => apply emits_sleb; lia
  | |- emits (sleb64 _) _ => apply emits_sleb64; lia
  end; eauto with emits.

(** ** Exact step specifications

    [writes f P bs]: on any well-formed writer [f] succeeds exactly when [P]
    holds, and then appends [bs]. *)

Definition writes (f : step) (P : Prop) (bs : list Z) : Prop :=
  ∀ w, bw_wf w →
    match f w with
    | Ok w' => P ∧ bw_wf w' ∧ bw_bytes w' = bw_bytes w ++ bs
    | Throw _ => ¬ P
    end.

Lemma writes_iff f P Q bs : (P ↔ Q) → writes f P bs → writes f Q bs.
Proof. intros E H w Hw. specialize (H w Hw). destruct (f w); naive_solver. Qed.

Lemma emits_writes f bs : emits f bs → writes f True bs.
Proof. intros H w Hw. destruct (H w Hw) as (w' & -> & ? & ?). done. Qed.

Lemma writes_emits f (P : Prop) bs : P → writes f P bs → emits f bs.
Proof. intros HP H w Hw. specialize (H w Hw). destruct (f w) as [w'|]; [|done]. destruct H as (_ & ? & ?). eauto. Qed.

Lemma writes_ext f g P bs : (∀ w, f w = g w) → writes f P bs → writes g P bs.
Proof. intros E H w Hw. rewrite <- E. by apply H. Qed.

Lemma writes_bind f g P Q bs cs :
  writes f P bs → writes g Q cs → writes (λ w, let* w := f w in g w) (P ∧ Q) (bs ++ cs).
Proof.
  intros Hf Hg w Hw. specialize (Hf w Hw). destruct (f w) as [w1|]; simpl; [|tauto].
  destruct Hf as (? & Hw1 & B1). specialize (Hg w1 Hw1). destruct (g w1) as [w2|]; [|tauto].
  destruct Hg as (? & ? & B2). split_and!; [done..|]. by rewrite B2, B1, app_assoc.
Qed.

Lemma writes_fold {A} (f : A → step) (P : A → Prop) (enc : A → list Z) xs :
  (∀ x, writes (f x) (P x) (enc x)) → writes (res_fold f xs) (Forall P xs) (flat_map enc xs).
Proof.
  intros H. induction xs as [|x xs IH]; simpl.
  { apply (writes_iff _ True); [split; auto|]. apply emits_writes, emits_ret. }
  apply (writes_iff _ (P x ∧ Forall P xs)); [by rewrite Forall_cons|]. by apply writes_bind.
Qed.

(** A step list, given what each step requires and appends. *)
Lemma writes_steps fs (pbs : list (Prop * list Z)) :
  Forall2 (λ f pb, writes f pb.1 pb.2) fs pbs → writes (steps fs) (Forall id pbs.*1) (concat pbs.*2).
Proof.
  induction 1 as [|f [P bs] fs pbs H Hs IH]; simpl.
  { apply (writes_iff _ True); [split; auto|]. apply emits_writes, emits_ret. }
  apply (writes_iff _ (P ∧ Forall id pbs.*1)); [by rewrite Forall_cons|]. by apply writes_bind.
Qed.

(** Splits the premise of [writes_steps]. *)
Ltac writes_list := repeat first [apply Forall2_nil_2 | apply Forall2_cons_2]; simpl.

(** The same, one step at a time, for a condition and bytes in another form. *)
Lemma writes_conv f (P Q : Prop) bs cs : writes f P bs → (P ↔ Q) → bs = cs → writes f Q cs.
Proof. intros H E <-. by apply (writes_iff _ P). Qed.

Lemma writes_nil : writes (steps []) True [].
Proof. apply emits_writes, emits_ret. Qed.

Lemma writes_cons f fs (P Q : Prop) bs cs :
  writes f P bs → writes (steps fs) Q cs → writes (steps (f :: fs)) (P ∧ Q) (bs ++ cs).
Proof. intros Hf Hfs. by apply writes_bind. Qed.

Definition u32 (n : Z) : Prop := 0 <= n < 2 ^ 32.

Lemma writes_uleb n : writes (uleb n) (u32 n) (uleb_spec n).
Proof.
  intros w Hw. destruct (decide (0 <= n < 2 ^ 32)) as [Hn|Hn].
  - by destruct (emits_uleb n Hn w Hw) as (w' & -> & ? & ?).
  - pose proof (uleb_refuses n Hn w Hw). by destruct (uleb n w).
Qed.

Lemma writes_sleb n : writes (sleb n) (- 2 ^ 31 <= n < 2 ^ 31) (sleb_spec n).
Proof.
  intros w Hw. destruct (decide (- 2 ^ 31 <= n < 2 ^ 31)) as [Hn|Hn].
  - by destruct (emits_sleb n Hn w Hw) as (w' & -> & ? & ?).
  - pose proof (sleb_refuses n Hn w Hw). by destruct (sleb n w).
Qed.

Definition len_fits {A} (xs : list A) : Prop := u32 (Z.of_nat (length xs)).
Definition vec_spec {A} (enc : A → list Z) (xs : list A) : list Z :=
  uleb_spec (Z.of_nat (length xs)) ++ flat_map enc xs.

(** A count and the items: the shape of every vector of the format. *)
Lemma writes_vec {A} (f : A → step) P enc (xs : list A) fs (Q : Prop) cs :
  (∀ x, writes (f x) (P x) (enc x)) → writes (steps fs) Q cs →
  writes (steps (uleb (Z.of_nat (length xs)) :: res_fold f xs :: fs))
    ((len_fits xs ∧ Forall P xs) ∧ Q) (vec_spec enc xs ++ cs).
Proof.
  intros Hf Hfs. eapply writes_conv;
    [apply writes_cons; [apply writes_uleb|apply writes_cons; [by apply writes_fold|exact Hfs]]| |].
  - unfold len_fits. tauto.
  - unfold vec_spec. by rewrite <- app_assoc.
Qed.

Lemma writes_framed body P bs : writes body P bs →
  writes (framed body) (P ∧ u32 (Z.of_nat (length bs))) (uleb_spec (Z.of_nat (length bs)) ++ bs).
Proof.
  intros Hb w Hw. specialize (Hb bw_new bw_new_wf). unfold framed.
  destruct (body bw_new) as [inner|]; simpl; [|tauto].
  destruct Hb as (HP & Hwf & B). simpl in B. rewrite <- (bw_bytes_length inner Hwf), B.
  pose proof (writes_bind _ (praw bs) _ _ _ _ (writes_uleb (Z.of_nat (length bs))) (emits_writes _ _ (emits_praw bs)) w Hw) as H.
  unfold praw in H. destruct (res_bind _ _); naive_solver.
Qed.

Lemma writes_pu8 b : byte b → writes (pu8 b) True [b].
Proof. intros. by apply emits_writes, emits_pu8. Qed.

Lemma writes_section id body P bs : byte id → writes body P bs →
  writes (section id body) (P ∧ u32 (Z.of_nat (length bs))) (id :: uleb_spec (Z.of_nat (length bs)) ++ bs).
Proof.
  intros Hid Hb.
  apply (writes_iff _ (True ∧ P ∧ u32 (Z.of_nat (length bs)))); [tauto|].
  apply (writes_bind (pu8 id) (framed body) _ _ [id]); [by apply writes_pu8|by apply writes_framed].
Qed.

Lemma writes_name s : writes (bw_name s) (u32 (Z.of_nat (length (utf8_encode s)))) (name_spec s).
Proof.
  apply (writes_iff _ (u32 (Z.of_nat (length (utf8_encode s))) ∧ True)); [tauto|].
  apply (writes_bind _ (praw (utf8_encode s))); [apply writes_uleb|apply emits_writes, emits_praw].
Qed.

#[export] Hint Resolve writes_nil writes_uleb writes_sleb writes_name : writes.
#[export] Hint Extern 1 (writes (pu8 _) _ _) => (apply writes_pu8; unfold byte; lia) : writes.
#[export] Hint Extern 1 (writes (praw _) _ _) => (apply emits_writes, emits_praw) : writes.

(** Splits a step list along the specifications in [writes]. *)
Ltac writes_steps_solve :=
  repeat lazymatch goal with
  | |- writes (steps []) _ _ => apply writes_nil
  | |- writes (steps (uleb (Z.of_nat (length _)) :: res_fold _ _ :: _)) _ _ =>
      eapply writes_vec; [intros; eauto with writes|]
  | |- writes (steps (_ :: _)) _ _ => eapply writes_cons; [eauto with writes|]
  end.
Ltac writes_solve :=
  cbn [app]; eapply writes_conv; [writes_steps_solve|simpl; try tauto|cbn [app concat]; rewrite ?app_nil_r, <- ?app_assoc; cbn [app]; try reflexivity].

(** * Theorems *)

(** One call on a [ByteWriter]. *)
Inductive wop : Type :=
  | OpU8 (b : Z) | OpRaw (bytes : list Z) | OpUleb (n : Z) | OpSleb (n : Z) | OpSleb64 (n : Z)
  | OpF64 (v : num) | OpName (s : jsstr).

Definition run_op (o : wop) : step :=
  match o with
  | OpU8 b => pu8 b | OpRaw bs => praw bs | OpUleb n => uleb n | OpSleb n => sleb n
  | OpSleb64 n => sleb64 n | OpF64 v => pf64 v | OpName s => bw_name s
  end.

(** What the call promises to append, when its argument is in range. *)
Definition op_ok (o : wop) : Prop :=
  match o with
  | OpUleb n => 0 <= n < 2 ^ 32
  | OpSleb n => - 2 ^ 31 <= n < 2 ^ 31
  | OpSleb64 n => - 2 ^ 63 <= n < 2 ^ 63
  | OpName s => Z.of_nat (length (utf8_encode s)) < 2 ^ 32
  | _ => True
  end.
Definition op_bytes (o : wop) : list Z :=
  match o with
  | OpU8 b => [to_uint8 b] | OpRaw bs => bs | OpUleb n => uleb_spec n | OpSleb n => sleb_spec n
  | OpSleb64 n => sleb64_spec n | OpF64 v => le_bytes 8 (f64_bits v) | OpName s => name_spec s
  end.

Lemma run_op_emits o : op_ok o → emits (run_op o) (op_bytes o).
Proof. destruct o; simpl; intros; emits_solve. Qed.

(** C36. The growable buffer refines an append-only byte list: any sequence of
    writer calls with in-range arguments, on any well-formed writer, succeeds
    and leaves exactly the earlier contents followed by each call's encoding,
    however often the buffer had to grow. *)
Theorem writer_refines ops w :
  bw_wf w → Forall op_ok ops →
  ∃ w', steps (map run_op ops) w = Ok w' ∧ bw_wf w' ∧
    bw_bytes w' = bw_bytes w ++ flat_map op_bytes ops.
Proof.
  intros Hw Hops. rewrite flat_map_concat_map. apply emits_steps; [|done].
  induction Hops; simpl; constructor; auto using run_op_emits.
Qed.

Lemma writer_refines_witness :
  let ops := [OpName (js_of_string "memory"); OpUleb 300; OpRaw (replicate 300 7); OpSleb (-3)] in
  ∃ w', steps (map run_op ops) bw_new = Ok w' ∧ bw_wf w' ∧
    bw_bytes w' = bw_bytes bw_new ++ flat_map op_bytes ops.
Proof.
  apply writer_refines; [apply bw_new_wf|].
  repeat (apply Forall_cons_2; [simpl; first [exact I | lia]|]). apply Forall_nil_2.
Defined.

(** Unsigned LEB128: [uleb] throws exactly outside [0, 2^32); inside, it
    appends at most five bytes and engine.ts's [Reader.uleb], positioned where
    they start, returns the value and stops exactly after them. *)
Theorem uleb_roundtrip n w :
  bw_wf w →
  (is_ok (uleb n w) = true ↔ 0 <= n < 2 ^ 32) ∧
  ∀ w', uleb n w = Ok w' →
    (bw_len w' <= bw_len w + 5)%nat ∧
    rd_uleb (mkRd (bw_bytes w') (bw_len w) (bw_len w')) = Ok (n, mkRd (bw_bytes w') (bw_len w') (bw_len w')).
Proof.
  intros Hw. destruct (decide (0 <= n < 2 ^ 32)) as [Hn|Hn].
  - destruct (emits_uleb n Hn w Hw) as (w1 & E & Hw1 & B). rewrite E. split; [done|].
    intros w' [= <-].
    pose proof (bw_bytes_length w1 Hw1) as L1. pose proof (bw_bytes_length w Hw) as L.
    assert (L2 : bw_len w1 = (bw_len w + length (uleb_spec n))%nat) by (rewrite <- L1, B, length_app; lia).
    split; [pose proof (uleb_digits_length 5 n); unfold uleb_spec in *; lia|].
    rewrite (rd_uleb_spec n _ Hn); [unfold rd_advance; simpl; by rewrite L2|].
    split_and!; simpl; [lia| |lia]. rewrite B, drop_app_len by done. apply take_ge. done.
  - split; [split; [|done]|].
    + intros H. rewrite (uleb_refuses n Hn w Hw) in H. done.
    + intros w' E. pose proof (uleb_refuses n Hn w Hw) as H. by rewrite E in H.
Qed.

Lemma uleb_roundtrip_witness :
  (is_ok (uleb 624485 bw_new) = true ↔ 0 <= 624485 < 2 ^ 32) ∧
  ∀ w', uleb 624485 bw_new = Ok w' →
    (bw_len w' <= bw_len bw_new + 5)%nat ∧
    rd_uleb (mkRd (bw_bytes w') (bw_len bw_new) (bw_len w')) = Ok (624485, mkRd (bw_bytes w') (bw_len w') (bw_len w')).
Proof. apply uleb_roundtrip, bw_new_wf. Defined.

(** Signed LEB128: [sleb] accepts exactly the int32 range and [sleb64] the
    int64 range, and what they append decodes, with any continuation, to the
    value under the binary format's signed grammar. *)
Theorem sleb_roundtrip n w rest :
  bw_wf w →
  (is_ok (sleb n w) = true ↔ - 2 ^ 31 <= n < 2 ^ 31) ∧
  (is_ok (sleb64 n w) = true ↔ - 2 ^ 63 <= n < 2 ^ 63) ∧
  ∀ w', sleb n w = Ok w' ∨ sleb64 n w = Ok w' →
    ∃ bs, bw_bytes w' = bw_bytes w ++ bs ∧ (length bs <= 10)%nat ∧ sleb_dec (bs ++ rest) = Some (n, rest).
Proof.
  intros Hw. split_and!.
  - split; intros H.
    + destruct (decide (- 2 ^ 31 <= n < 2 ^ 31)) as [|Hn]; [done|]. by rewrite (sleb_refuses n Hn w Hw) in H.
    + by destruct (emits_sleb n H w Hw) as (? & -> & _).
  - split; intros H.
    + destruct (decide (- 2 ^ 63 <= n < 2 ^ 63)) as [|Hn]; [done|]. by rewrite (sleb64_refuses n Hn w Hw) in H.
    + by destruct (emits_sleb64 n H w Hw) as (? & -> & _).
  - intros w' [E|E].
    + destruct (decide (- 2 ^ 31 <= n < 2 ^ 31)) as [Hn|Hn];
        [|pose proof (sleb_refuses n Hn w Hw) as H; by rewrite E in H].
      destruct (emits_sleb n Hn w Hw) as (w1 & E1 & _ & B). rewrite E1 in E. injection E as <-.
      exists (sleb_spec n). split_and!; [done| |by apply sleb_spec_dec].
      pose proof (sleb_digits_length 5 n). unfold sleb_spec. lia.
    + destruct (decide (- 2 ^ 63 <= n < 2 ^ 63)) as [Hn|Hn];
        [|pose proof (sleb64_refuses n Hn w Hw) as H; by rewrite E in H].
      destruct (emits_sleb64 n Hn w Hw) as (w1 & E1 & _ & B). rewrite E1 in E. injection E as <-.
      exists (sleb64_spec n). split_and!; [done|apply (sleb_digits_length 10)|by apply sleb64_spec_dec].
Qed.

Lemma sleb_roundtrip_witness :
  (is_ok (sleb (-123456) bw_new) = true ↔ - 2 ^ 31 <= -123456 < 2 ^ 31) ∧
  (is_ok (sleb64 (-123456) bw_new) = true ↔ - 2 ^ 63 <= -123456 < 2 ^ 63) ∧
  ∀ w', sleb (-123456) bw_new = Ok w' ∨ sleb64 (-123456) bw_new = Ok w' →
    ∃ bs, bw_bytes w' = bw_bytes bw_new ++ bs ∧ (length bs <= 10)%nat ∧
      sleb_dec (bs ++ [11]) = Some (-123456, [11]).
Proof. apply sleb_roundtrip, bw_new_wf. Defined.

(** [f64] appends the eight little-endian bytes of the double, and reading
    them back gives the same Number value: NaN, the infinities, both zeros,
    subnormals and normals alike. *)
Theorem f64_roundtrip v w :
  bw_wf w → wf_num v →
  ∃ bs, bw_bytes (bw_f64 v w) = bw_bytes w ++ bs ∧ length bs = 8%nat ∧ Forall byte bs ∧
    f64_of_bits (le_value bs) = v.
Proof.
  intros Hw Hv. destruct (emits_f64 v w Hw) as (w' & [= <-] & _ & B).
  exists (le_bytes 8 (f64_bits v)). split; [exact B|]. split; [apply le_bytes_length|]. split; [apply le_bytes_byte|].
  rewrite le_value_bytes. pose proof (f64_bits_range v Hv).
  rewrite Z.mod_small by (change (256 ^ Z.of_nat 8) with (2 ^ 64); lia). by apply f64_of_bits_bits.
Qed.

Lemma f64_roundtrip_witness :
  ∃ bs, bw_bytes (bw_f64 NInf bw_new) = bw_bytes bw_new ++ bs ∧ length bs = 8%nat ∧ Forall byte bs ∧
    f64_of_bits (le_value bs) = NInf.
Proof. apply f64_roundtrip; [apply bw_new_wf|exact I]. Defined.

(** A section is its id, the exact byte length of what its body writes, and
    those bytes: engine.ts's reader, placed at the section, reads the id and the
    length and is then positioned on the body with exactly that many bytes to
    its end. *)
Theorem section_framing id body bs w :
  byte id → bw_wf w → emits body bs → Z.of_nat (length bs) < 2 ^ 32 →
  ∃ w', section id body w = Ok w' ∧
    let r := mkRd (bw_bytes w') (bw_len w) (bw_len w') in
    ∃ r1 r2, rd_u8 r = Ok (Some id, r1) ∧ rd_uleb r1 = Ok (Z.of_nat (length bs), r2) ∧
      rd_sees r2 bs ∧ (rd_pos r2 + length bs = bw_len w')%nat.
Proof.
  intros Hid Hw Hb Hl. destruct (emits_section id body bs Hid Hl Hb w Hw) as (w' & E & Hw' & B).
  exists w'. split; [done|]. simpl.
  pose proof (bw_bytes_length w' Hw') as L'. pose proof (bw_bytes_length w Hw) as L.
  set (u := uleb_spec (Z.of_nat (length bs))) in *.
  assert (Hlen : bw_len w' = (bw_len w + S (length u + length bs))%nat)
    by (rewrite <- L', B, length_app; simpl; rewrite length_app; lia).
  assert (Hs : rd_sees (mkRd (bw_bytes w') (bw_len w) (bw_len w')) (id :: u)).
  { split_and!; simpl; [lia| |lia]. rewrite B, drop_app_len by done. simpl. f_equal. by apply take_app_len. }
  apply rd_sees_cons in Hs as [Hu Hs]. exists (rd_advance 1 (mkRd (bw_bytes w') (bw_len w) (bw_len w'))).
  eexists. split; [done|]. split; [apply rd_uleb_spec; [lia|done]|]. fold u. rewrite rd_advance_advance.
  split; [|simpl; lia]. split_and!; simpl; [lia| |lia].
  rewrite B, <- L, drop_app_ge by lia. replace (length (bw_bytes w) + S (length u) - length (bw_bytes w))%nat
    with (S (length u)) by lia. simpl. rewrite drop_app_len by done. by apply take_ge.
Qed.

Lemma section_framing_witness :
  ∃ w', section 3 (uleb 300) bw_new = Ok w' ∧
    let r := mkRd (bw_bytes w') (bw_len bw_new) (bw_len w') in
    ∃ r1 r2, rd_u8 r = Ok (Some 3, r1) ∧ rd_uleb r1 = Ok (Z.of_nat (length (uleb_spec 300)), r2) ∧
      rd_sees r2 (uleb_spec 300) ∧ (rd_pos r2 + length (uleb_spec 300) = bw_len w')%nat.
Proof.
  apply section_framing; [unfold byte; lia|apply bw_new_wf|apply emits_uleb; lia|vm_compute; reflexivity].
Defined.

(** [writeUleb5] overwrites exactly five bytes in place with a padded LEB:
    it throws outside [0, 2^32), keeps the length and every other byte, and
    [readUleb5] at the same offset returns the value; the result still has the
    four continuation bits the relocation check demands. *)
Theorem uleb5_roundtrip b at_ v :
  (at_ + 5 <= length b)%nat →
  (is_ok (writeUleb5 b at_ v) = true ↔ 0 <= v < 2 ^ 32) ∧
  ∀ b', writeUleb5 b at_ v = Ok b' →
    length b' = length b ∧
    (∀ i, ¬ (at_ <= i < at_ + 5)%nat → b' !! i = b !! i) ∧
    readUleb5 b' at_ = v ∧
    (∀ k, (k < 4)%nat → byte_and (b' !! (at_ + k)%nat) 0x80 <> 0) ∧
    byte_and (b' !! (at_ + 4)%nat) 0x80 = 0.
Proof.
  intros Hl. split.
  { unfold writeUleb5. destruct (Z.ltb_spec v 0), (Z.leb_spec (2 ^ 32) v); simpl; split; (done || lia). }
  intros b' E. destruct (decide (0 <= v < 2 ^ 32)) as [Hv|Hv].
  2: { exfalso. unfold writeUleb5 in E. destruct (Z.ltb_spec v 0), (Z.leb_spec (2 ^ 32) v); simpl in E; (done || lia). }
  rewrite writeUleb5_digits in E by done. assert (b' = insert_digits at_ v b (seq 0 5)) as -> by congruence. clear E.
  assert (Hat : ∀ k, (k < 5)%nat → insert_digits at_ v b (seq 0 5) !! (at_ + k)%nat = Some (uleb5_digit v k)).
  { intros k Hk. apply insert_digits_at; [apply NoDup_seq|apply elem_of_seq; lia|lia]. }
  split_and!.
  - apply insert_digits_length.
  - intros i Hi. apply insert_digits_other. intros k Hk%elem_of_seq. lia.
  - by apply readUleb5_digits.
  - intros k Hk. rewrite Hat by lia. destruct (uleb5_digit_range v k Hv ltac:(lia)) as [Hr _].
    rewrite decide_True in Hr by lia. rewrite <- Z.eqb_neq, byte_and_high by lia. apply Z.ltb_ge; lia.
  - rewrite Hat by lia. destruct (uleb5_digit_range v 4 Hv ltac:(lia)) as [Hr _].
    rewrite decide_False in Hr by lia. rewrite <- Z.eqb_eq, byte_and_high by lia. apply Z.ltb_lt; lia.
Qed.

Lemma uleb5_roundtrip_witness :
  let b := replicate 8 0 in
  (is_ok (writeUleb5 b 2 77777) = true ↔ 0 <= 77777 < 2 ^ 32) ∧
  ∀ b', writeUleb5 b 2 77777 = Ok b' →
    length b' = length b ∧
    (∀ i, ¬ (2 <= i < 2 + 5)%nat → b' !! i = b !! i) ∧
    readUleb5 b' 2 = 77777 ∧
    (∀ k, (k < 4)%nat → byte_and (b' !! (2 + k)%nat) 0x80 <> 0) ∧
    byte_and (b' !! (2 + 4)%nat) 0x80 = 0.
Proof. apply uleb5_roundtrip. simpl. lia. Defined.
