(* ===== verification/Code.v ===== *)
(** * The instruction layer of the wasm backend

    src/packages/compiler/src/backend/wasm/code.ts: one method per wasm
    instruction the tier emits.  An [instr] is a call of one of those methods;
    [emit_instr] gives the sequence of [ByteWriter] calls the method makes
    ([wcall]) under the two module-level variables [ourMem] and [charsType].
    The reference is [decode_instr], the WebAssembly binary format's own
    instruction grammar (opcode tables [spec_numeric] and [spec_memory] by
    mnemonic): every accepted emission decodes to the instruction the method is
    named after, and every refused one is an immediate out of range or a raw
    cast to the flat string type. *)

From S2P Require Import Prelude F64 Bytes WasmTypes.

(** ** Calls on the writer [this.w] *)

Inductive wcall : Type :=
  | CU8 (b : Z)
  | CUleb (n : Z)
  | CSleb (n : Z)
  | CSleb64 (n : Z)
  | CF64 (v : num).

Definition exec_call (c : wcall) : step :=
  match c with
  | CU8 b => pu8 b
  | CUleb n => uleb n
  | CSleb n => sleb n
  | CSleb64 n => sleb64 n
  | CF64 v => pf64 v
  end.

Definition exec_calls (cs : list wcall) : step := steps (map exec_call cs).

(** ** Module-level state *)

Record Globals := mkGlobals { ourMem : Z; charsType : option Z }.

Definition setOurMemoryIndex (n : Z) (g : Globals) : Globals := mkGlobals n (charsType g).
Definition currentOurMemoryIndex (g : Globals) : Z := ourMem g.
Definition setCharsType (t : option Z) (g : Globals) : Globals := mkGlobals (ourMem g) t.

Definition guardChars (g : Globals) (typeIndex : Z) : res unit :=
  match charsType g with
  | Some t => throw_if (typeIndex =? t) "wasm emitter bug: a raw ref.cast to the flat string type"
  | None => Ok tt
  end.

Definition ENGINE_MEMORY : Z := 0.

Definition memarg (align off mem : Z) : list wcall :=
  (if mem =? 0 then [CUleb align] else [CUleb (js_or align 0x40); CUleb mem]) ++ [CUleb off].

(** ** The methods, grouped as in the file *)

Inductive ctrl : Type :=
  | Unreachable | Loop | Block | BlockF64 | Select | IfVoid | IfResult (t : ValType)
  | Else_ | End_ | Br (depth : Z) | BrIf (depth : Z) | BrTable (labels : list Z) (defaultLabel : Z)
  | Return_ | Call (funcIndex : Z) | CallRef (typeIndex : Z) | RefFunc (funcIndex : Z).

Definition emit_ctrl (i : ctrl) : list wcall :=
  match i with
  | Unreachable => [CU8 0x00]
  | Loop => [CU8 0x03; CU8 0x40]
  | Block => [CU8 0x02; CU8 0x40]
  | BlockF64 => [CU8 0x02; CU8 0x7c]
  | Select => [CU8 0x1b]
  | IfVoid => [CU8 0x04; CU8 0x40]
  | IfResult t =>
      CU8 0x04 ::
      match t with
      | VI32 => [CU8 0x7f]
      | VI64 => [CU8 0x7e]
      | VF64 => [CU8 0x7c]
      | VRef nullable typeIndex => [CU8 (if nullable then 0x63 else 0x64); CSleb typeIndex]
      end
  | Else_ => [CU8 0x05]
  | End_ => [CU8 0x0b]
  | Br depth => [CU8 0x0c; CUleb depth]
  | BrIf depth => [CU8 0x0d; CUleb depth]
  | BrTable labels defaultLabel =>
      [CU8 0x0e; CUleb (Z.of_nat (length labels))] ++ map CUleb labels ++ [CUleb defaultLabel]
  | Return_ => [CU8 0x0f]
  | Call funcIndex => [CU8 0x10; CUleb funcIndex]
  | CallRef typeIndex => [CU8 0x14; CUleb typeIndex]
  | RefFunc funcIndex => [CU8 0xd2; CUleb funcIndex]
  end.

Inductive refi : Type :=
  | RefCast (typeIndex : Z) | RefCastNull (typeIndex : Z) | CastChars (typeIndex : Z) (nullable : bool)
  | RefTest (typeIndex : Z) | RefTestNull (typeIndex : Z) | Drop
  | LocalGet (i : Z) | LocalSet (i : Z) | GlobalGet (i : Z) | GlobalSet (i : Z).

Definition emit_ref (g : Globals) (i : refi) : res (list wcall) :=
  match i with
  | RefCast t => let* _ := guardChars g t in Ok [CU8 0xfb; CUleb 0x16; CSleb t]
  | RefCastNull t => let* _ := guardChars g t in Ok [CU8 0xfb; CUleb 0x17; CSleb t]
  | CastChars t nullable => Ok [CU8 0xfb; CUleb (if nullable then 0x17 else 0x16); CSleb t]
  | RefTest t => Ok [CU8 0xfb; CUleb 0x14; CSleb t]
  | RefTestNull t => Ok [CU8 0xfb; CUleb 0x15; CSleb t]
  | Drop => Ok [CU8 0x1a]
  | LocalGet i => Ok [CU8 0x20; CUleb i]
  | LocalSet i => Ok [CU8 0x21; CUleb i]
  | GlobalGet i => Ok [CU8 0x23; CUleb i]
  | GlobalSet i => Ok [CU8 0x24; CUleb i]
  end.

Inductive memi : Type :=
  | I32Store8 | I32Store16 | I32Load16U | I32Load8U | F64Load | I32Store
  | Load8UAt (off : Z) | Load16UAt (off : Z) | Load32At (off : Z)
  | Store8At (off : Z) | Store16At (off : Z) | Store32At (off : Z)
  | MemoryCopy (dst src : Z) | MemoryFill | MemoryInit (seg : Z) | MemorySize | MemoryGrow
  | Load16UIn (mem off : Z) | Store16In (mem off : Z) | Load8UIn (mem off : Z) | Load32In (mem off : Z)
  | Store8In (mem off : Z) | Store32In (mem off : Z) | Store64In (mem off : Z).

(** [memoryCopy]'s two parameters default to [ourMem]. *)
Definition MemoryCopy_default (g : Globals) : memi := MemoryCopy (ourMem g) (ourMem g).

Definition emit_mem (g : Globals) (i : memi) : list wcall :=
  let m := ourMem g in
  match i with
  | I32Store8 => CU8 0x3a :: memarg 0 0 m
  | I32Store16 => CU8 0x3b :: memarg 0 0 m
  | I32Load16U => CU8 0x2f :: memarg 0 0 m
  | I32Load8U => CU8 0x2d :: memarg 0 0 m
  | F64Load => CU8 0x2b :: memarg 0 0 m
  | I32Store => CU8 0x36 :: memarg 0 0 m
  | Load8UAt off => CU8 0x2d :: memarg 0 off m
  | Load16UAt off => CU8 0x2f :: memarg 0 off m
  | Load32At off => CU8 0x28 :: memarg 0 off m
  | Store8At off => CU8 0x3a :: memarg 0 off m
  | Store16At off => CU8 0x3b :: memarg 0 off m
  | Store32At off => CU8 0x36 :: memarg 0 off m
  | MemoryCopy dst src => [CU8 0xfc; CUleb 10; CUleb dst; CUleb src]
  | MemoryFill => [CU8 0xfc; CUleb 11; CUleb m]
  | MemoryInit seg => [CU8 0xfc; CUleb 8; CUleb seg; CUleb m]
  | MemorySize => [CU8 0x3f; CUleb m]
  | MemoryGrow => [CU8 0x40; CUleb m]
  | Load16UIn mem off => CU8 0x2f :: memarg 0 off mem
  | Store16In mem off => CU8 0x3b :: memarg 0 off mem
  | Load8UIn mem off => CU8 0x2d :: memarg 0 off mem
  | Load32In mem off => CU8 0x28 :: memarg 0 off mem
  | Store8In mem off => CU8 0x3a :: memarg 0 off mem
  | Store32In mem off => CU8 0x36 :: memarg 0 off mem
  | Store64In mem off => CU8 0x37 :: memarg 0 off mem
  end.

Inductive vari : Type :=
  | I32TruncSatF64S | I64TruncSatF64U | LocalTee (i : Z) | I32Const (n : Z) | I64Const (n : Z) | F64Const (v : num).

Definition emit_var (i : vari) : list wcall :=
  match i with
  | I32TruncSatF64S => [CU8 0xfc; CUleb 2]
  | I64TruncSatF64U => [CU8 0xfc; CUleb 7]
  | LocalTee i => [CU8 0x22; CUleb i]
  | I32Const n => [CU8 0x41; CSleb n]
  | I64Const n => [CU8 0x42; CSleb64 n]
  | F64Const v => [CU8 0x44; CF64 v]
  end.

Inductive num1 : Type :=
  | I32Eqz | I32Eq | I32Ne | I32LtS | I32LtU | I32GtS | I32GtU | I32LeS | I32LeU | I32GeS
  | I32GeU | I64Eqz | I64Eq | I64Ne | I64LtS | I64LtU | I64GtU | I64LeU | I64GeS | I64GeU
  | F64Eq | F64Ne | F64Lt | F64Gt | F64Le | F64Ge | I32Add | I32Sub | I32Mul | I32DivS | I32RemS
  | I32DivU | I32RemU | I32And | I32Or | I32Xor | I32Clz | I32Shl | I32ShrS | I32ShrU.

Definition num1_opcode (o : num1) : Z :=
  match o with
  | I32Eqz => 0x45 | I32Eq => 0x46 | I32Ne => 0x47 | I32LtS => 0x48 | I32LtU => 0x49
  | I32GtS => 0x4a | I32GtU => 0x4b | I32LeS => 0x4c | I32LeU => 0x4d | I32GeS => 0x4e
  | I32GeU => 0x4f | I64Eqz => 0x50 | I64Eq => 0x51 | I64Ne => 0x52 | I64LtS => 0x53
  | I64LtU => 0x54 | I64GtU => 0x56 | I64LeU => 0x58 | I64GeS => 0x59 | I64GeU => 0x5a
  | F64Eq => 0x61 | F64Ne => 0x62 | F64Lt => 0x63 | F64Gt => 0x64 | F64Le => 0x65
  | F64Ge => 0x66 | I32Add => 0x6a | I32Sub => 0x6b | I32Mul => 0x6c | I32DivS => 0x6d
  | I32RemS => 0x6f | I32DivU => 0x6e | I32RemU => 0x70 | I32And => 0x71 | I32Or => 0x72
  | I32Xor => 0x73 | I32Clz => 0x67 | I32Shl => 0x74 | I32ShrS => 0x75 | I32ShrU => 0x76
  end.

Inductive num2 : Type :=
  | I64Add | I64Sub | I64Mul | I64DivU | I64RemU | I64And | I64Or | I64Xor | I64Shl | I64ShrS
  | I64ShrU | F64Abs | F64Neg | F64Ceil | F64Floor | F64Nearest | F64Copysign | F64Sqrt | F64Add
  | F64Sub | F64Mul | F64Div | F64Min | F64Max | I32WrapI64 | I64ExtendI32S | I64ExtendI32U
  | F64ConvertI32S | F64ConvertI32U | F64ConvertI64S | F64ConvertI64U | I64ReinterpretF64
  | F64ReinterpretI64 | F32DemoteF64 | F64PromoteF32 | I32ReinterpretF32 | F32ReinterpretI32.

Definition num2_opcode (o : num2) : Z :=
  match o with
  | I64Add => 0x7c | I64Sub => 0x7d | I64Mul => 0x7e | I64DivU => 0x80 | I64RemU => 0x82
  | I64And => 0x83 | I64Or => 0x84 | I64Xor => 0x85 | I64Shl => 0x86 | I64ShrS => 0x87
  | I64ShrU => 0x88 | F64Abs => 0x99 | F64Neg => 0x9a | F64Ceil => 0x9b | F64Floor => 0x9c
  | F64Nearest => 0x9e | F64Copysign => 0xa6 | F64Sqrt => 0x9f | F64Add => 0xa0 | F64Sub => 0xa1
  | F64Mul => 0xa2 | F64Div => 0xa3 | F64Min => 0xa4 | F64Max => 0xa5 | I32WrapI64 => 0xa7
  | I64ExtendI32S => 0xac | I64ExtendI32U => 0xad | F64ConvertI32S => 0xb7
  | F64ConvertI32U => 0xb8 | F64ConvertI64S => 0xb9 | F64ConvertI64U => 0xba
  | I64ReinterpretF64 => 0xbd | F64ReinterpretI64 => 0xbf | F32DemoteF64 => 0xb6
  | F64PromoteF32 => 0xbb | I32ReinterpretF32 => 0xbc | F32ReinterpretI32 => 0xbe
  end.

Inductive gci : Type :=
  | RefEq | RefNull (typeIndex : Z) | RefIsNull | RefAsNonNull
  | StructNew (typeIndex : Z) | StructNewDefault (typeIndex : Z)
  | StructGet (typeIndex fieldIndex : Z) | StructSet (typeIndex fieldIndex : Z)
  | ArrayNewFixed (typeIndex count : Z)
  | F64Trunc | I32TruncF64S | I32TruncF64U | I64TruncF64S | I64TruncF64U
  | ArrayNewDefault (typeIndex : Z) | ArrayNewData (typeIndex dataIndex : Z) | ArraySet (typeIndex : Z)
  | ArrayCopy (destTypeIndex srcTypeIndex : Z) | ArrayGet (typeIndex : Z) | ArrayGetU (typeIndex : Z)
  | ArrayLen.

Definition emit_gc (i : gci) : list wcall :=
  match i with
  | RefEq => [CU8 0xd3]
  | RefNull t => [CU8 0xd0; CSleb t]
  | RefIsNull => [CU8 0xd1]
  | RefAsNonNull => [CU8 0xd4]
  | StructNew t => [CU8 0xfb; CUleb 0x00; CUleb t]
  | StructNewDefault t => [CU8 0xfb; CUleb 0x01; CUleb t]
  | StructGet t f => [CU8 0xfb; CUleb 0x02; CUleb t; CUleb f]
  | StructSet t f => [CU8 0xfb; CUleb 0x05; CUleb t; CUleb f]
  | ArrayNewFixed t n => [CU8 0xfb; CUleb 0x08; CUleb t; CUleb n]
  | F64Trunc => [CU8 0x9d]
  | I32TruncF64S => [CU8 0xaa]
  | I32TruncF64U => [CU8 0xab]
  | I64TruncF64S => [CU8 0xb0]
  | I64TruncF64U => [CU8 0xb1]
  | ArrayNewDefault t => [CU8 0xfb; CUleb 0x07; CUleb t]
  | ArrayNewData t d => [CU8 0xfb; CUleb 0x09; CUleb t; CUleb d]
  | ArraySet t => [CU8 0xfb; CUleb 0x0e; CUleb t]
  | ArrayCopy d s => [CU8 0xfb; CUleb 0x11; CUleb d; CUleb s]
  | ArrayGet t => [CU8 0xfb; CUleb 0x0b; CUleb t]
  | ArrayGetU t => [CU8 0xfb; CUleb 0x0d; CUleb t]
  | ArrayLen => [CU8 0xfb; CUleb 0x0f]
  end.

Inductive instr : Type :=
  | ICtrl (i : ctrl) | IRef (i : refi) | IMem (i : memi) | IVar (i : vari)
  | INum1 (o : num1) | INum2 (o : num2) | IGc (i : gci).

Definition emit_instr (g : Globals) (i : instr) : res (list wcall) :=
  match i with
  | ICtrl i => Ok (emit_ctrl i)
  | IRef i => emit_ref g i
  | IMem i => Ok (emit_mem g i)
  | IVar i => Ok (emit_var i)
  | INum1 o => Ok [CU8 (num1_opcode o)]
  | INum2 o => Ok [CU8 (num2_opcode o)]
  | IGc i => Ok (emit_gc i)
  end.

(** Running the method: the guard first, then the writer calls. *)
Definition run_instr (g : Globals) (i : instr) : step :=
  λ w, let* cs := emit_instr g i in exec_calls cs w.

(** A straight run of method calls on one [Code]. *)
Definition run_code (g : Globals) (code : list instr) : step := steps (map (run_instr g) code).

(** * Reference: the WebAssembly binary format *)

Inductive blocktype : Type := BtEmpty | BtVal (t : ValType).

(** Abstract instructions, numeric and memory ones by their mnemonic. *)
Inductive winstr : Type :=
  | WUnreachable | WBlock (bt : blocktype) | WLoop (bt : blocktype) | WIf (bt : blocktype)
  | WElse | WEnd | WBr (l : Z) | WBrIf (l : Z) | WBrTable (ls : list Z) (l : Z) | WReturn
  | WCall (f : Z) | WCallRef (t : Z) | WDrop | WSelect
  | WLocalGet (x : Z) | WLocalSet (x : Z) | WLocalTee (x : Z) | WGlobalGet (x : Z) | WGlobalSet (x : Z)
  | WMem (op : string) (mem align off : Z) | WMemorySize (m : Z) | WMemoryGrow (m : Z)
  | WMemoryInit (seg m : Z) | WMemoryCopy (dst src : Z) | WMemoryFill (m : Z)
  | WI32Const (n : Z) | WI64Const (n : Z) | WF64Const (v : num) | WNum (op : string)
  | WRefNull (t : Z) | WRefIsNull | WRefFunc (f : Z) | WRefEq | WRefAsNonNull
  | WRefTest (nullable : bool) (t : Z) | WRefCast (nullable : bool) (t : Z)
  | WStructNew (t : Z) | WStructNewDefault (t : Z) | WStructGet (t f : Z) | WStructSet (t f : Z)
  | WArrayNewDefault (t : Z) | WArrayNewFixed (t n : Z) | WArrayNewData (t d : Z)
  | WArrayGet (t : Z) | WArrayGetU (t : Z) | WArraySet (t : Z) | WArrayLen | WArrayCopy (d s : Z).

(** The numeric opcodes of the specification, from 0x45 on. *)
Definition spec_numeric : list string :=
  [ "i32.eqz"; "i32.eq"; "i32.ne"; "i32.lt_s"; "i32.lt_u"; "i32.gt_s"; "i32.gt_u"; "i32.le_s";
    "i32.le_u"; "i32.ge_s"; "i32.ge_u"; "i64.eqz"; "i64.eq"; "i64.ne"; "i64.lt_s"; "i64.lt_u";
    "i64.gt_s"; "i64.gt_u"; "i64.le_s"; "i64.le_u"; "i64.ge_s"; "i64.ge_u"; "f32.eq"; "f32.ne";
    "f32.lt"; "f32.gt"; "f32.le"; "f32.ge"; "f64.eq"; "f64.ne"; "f64.lt"; "f64.gt"; "f64.le";
    "f64.ge"; "i32.clz"; "i32.ctz"; "i32.popcnt"; "i32.add"; "i32.sub"; "i32.mul"; "i32.div_s";
    "i32.div_u"; "i32.rem_s"; "i32.rem_u"; "i32.and"; "i32.or"; "i32.xor"; "i32.shl"; "i32.shr_s";
    "i32.shr_u"; "i32.rotl"; "i32.rotr"; "i64.clz"; "i64.ctz"; "i64.popcnt"; "i64.add"; "i64.sub";
    "i64.mul"; "i64.div_s"; "i64.div_u"; "i64.rem_s"; "i64.rem_u"; "i64.and"; "i64.or"; "i64.xor";
    "i64.shl"; "i64.shr_s"; "i64.shr_u"; "i64.rotl"; "i64.rotr"; "f32.abs"; "f32.neg"; "f32.ceil";
    "f32.floor"; "f32.trunc"; "f32.nearest"; "f32.sqrt"; "f32.add"; "f32.sub"; "f32.mul"; "f32.div";
    "f32.min"; "f32.max"; "f32.copysign"; "f64.abs"; "f64.neg"; "f64.ceil"; "f64.floor"; "f64.trunc";
    "f64.nearest"; "f64.sqrt"; "f64.add"; "f64.sub"; "f64.mul"; "f64.div"; "f64.min"; "f64.max";
    "f64.copysign"; "i32.wrap_i64"; "i32.trunc_f32_s"; "i32.trunc_f32_u"; "i32.trunc_f64_s";
    "i32.trunc_f64_u"; "i64.extend_i32_s"; "i64.extend_i32_u"; "i64.trunc_f32_s"; "i64.trunc_f32_u";
    "i64.trunc_f64_s"; "i64.trunc_f64_u"; "f32.convert_i32_s"; "f32.convert_i32_u";
    "f32.convert_i64_s"; "f32.convert_i64_u"; "f32.demote_f64"; "f64.convert_i32_s";
    "f64.convert_i32_u"; "f64.convert_i64_s"; "f64.convert_i64_u"; "f64.promote_f32";
    "i32.reinterpret_f32"; "i64.reinterpret_f64"; "f32.reinterpret_i32"; "f64.reinterpret_i64" ].

(** The load and store opcodes, from 0x28 on. *)
Definition spec_memory : list string :=
  [ "i32.load"; "i64.load"; "f32.load"; "f64.load"; "i32.load8_s"; "i32.load8_u"; "i32.load16_s";
    "i32.load16_u"; "i64.load8_s"; "i64.load8_u"; "i64.load16_s"; "i64.load16_u"; "i64.load32_s";
    "i64.load32_u"; "i32.store"; "i64.store"; "f32.store"; "f64.store"; "i32.store8"; "i32.store16";
    "i64.store8"; "i64.store16"; "i64.store32" ].

Definition dec_u (k : Z → winstr) (bs : list Z) : option (winstr * list Z) :=
  '(n, r) ← uleb_dec bs; Some (k n, r).
Definition dec_uu (k : Z → Z → winstr) (bs : list Z) : option (winstr * list Z) :=
  '(n, r) ← uleb_dec bs; '(m, r) ← uleb_dec r; Some (k n m, r).
(** A heap type that is a type index. *)
Definition dec_ht (k : Z → winstr) (bs : list Z) : option (winstr * list Z) :=
  '(n, r) ← sleb_dec bs; if 0 <=? n then Some (k n, r) else None.

Definition dec_bt (k : blocktype → winstr) (bs : list Z) : option (winstr * list Z) :=
  match bs with
  | b :: rest =>
      if b =? 0x40 then Some (k BtEmpty, rest)
      else '(t, r) ← valtype_dec bs; Some (k (BtVal t), r)
  | [] => None
  end.

Fixpoint dec_vec (n : nat) (bs : list Z) : option (list Z * list Z) :=
  match n with
  | O => Some ([], bs)
  | S n' => '(x, r) ← uleb_dec bs; '(xs, r) ← dec_vec n' r; Some (x :: xs, r)
  end.

(** memarg: bit 6 of the alignment field announces a memory index. *)
Definition dec_memarg (k : Z → Z → Z → winstr) (bs : list Z) : option (winstr * list Z) :=
  '(a, r) ← uleb_dec bs;
  '(m, a, r) ← (if a <? 64 then Some (0, a, r) else if a <? 128 then '(m, r) ← uleb_dec r; Some (m, a - 64, r) else None);
  '(off, r) ← uleb_dec r; Some (k m a off, r).

(** Prefix 0xfb: the garbage-collection instructions. *)
Definition decode_fb (bs : list Z) : option (winstr * list Z) :=
  '(sub, r) ← uleb_dec bs;
  match sub with
  | 0x00 => dec_u WStructNew r
  | 0x01 => dec_u WStructNewDefault r
  | 0x02 => dec_uu WStructGet r
  | 0x05 => dec_uu WStructSet r
  | 0x07 => dec_u WArrayNewDefault r
  | 0x08 => dec_uu WArrayNewFixed r
  | 0x09 => dec_uu WArrayNewData r
  | 0x0b => dec_u WArrayGet r
  | 0x0d => dec_u WArrayGetU r
  | 0x0e => dec_u WArraySet r
  | 0x0f => Some (WArrayLen, r)
  | 0x11 => dec_uu WArrayCopy r
  | 0x14 => dec_ht (WRefTest false) r
  | 0x15 => dec_ht (WRefTest true) r
  | 0x16 => dec_ht (WRefCast false) r
  | 0x17 => dec_ht (WRefCast true) r
  | _ => None
  end.

(** Prefix 0xfc: saturating truncation and bulk memory. *)
Definition decode_fc (bs : list Z) : option (winstr * list Z) :=
  '(sub, r) ← uleb_dec bs;
  match sub with
  | 2 => Some (WNum "i32.trunc_sat_f64_s", r)
  | 7 => Some (WNum "i64.trunc_sat_f64_u", r)
  | 8 => dec_uu WMemoryInit r
  | 10 => dec_uu WMemoryCopy r
  | 11 => dec_u WMemoryFill r
  | _ => None
  end.

Definition decode_op (op : Z) (r : list Z) : option (winstr * list Z) :=
  match op with
  | 0x00 => Some (WUnreachable, r)
  | 0x02 => dec_bt WBlock r
  | 0x03 => dec_bt WLoop r
  | 0x04 => dec_bt WIf r
  | 0x05 => Some (WElse, r)
  | 0x0b => Some (WEnd, r)
  | 0x0c => dec_u WBr r
  | 0x0d => dec_u WBrIf r
  | 0x0e => '(n, r) ← uleb_dec r; '(ls, r) ← dec_vec (Z.to_nat n) r; '(l, r) ← uleb_dec r; Some (WBrTable ls l, r)
  | 0x0f => Some (WReturn, r)
  | 0x10 => dec_u WCall r
  | 0x14 => dec_u WCallRef r
  | 0x1a => Some (WDrop, r)
  | 0x1b => Some (WSelect, r)
  | 0x20 => dec_u WLocalGet r
  | 0x21 => dec_u WLocalSet r
  | 0x22 => dec_u WLocalTee r
  | 0x23 => dec_u WGlobalGet r
  | 0x24 => dec_u WGlobalSet r
  | 0x3f => dec_u WMemorySize r
  | 0x40 => dec_u WMemoryGrow r
  | 0x41 => '(n, r) ← sleb_dec r; Some (WI32Const n, r)
  | 0x42 => '(n, r) ← sleb_dec r; Some (WI64Const n, r)
  | 0x44 => if decide (length r < 8)%nat then None
            else Some (WF64Const (f64_of_bits (le_value (take 8 r))), drop 8 r)
  | 0xd0 => dec_ht WRefNull r
  | 0xd1 => Some (WRefIsNull, r)
  | 0xd2 => dec_u WRefFunc r
  | 0xd3 => Some (WRefEq, r)
  | 0xd4 => Some (WRefAsNonNull, r)
  | 0xfb => decode_fb r
  | 0xfc => decode_fc r
  | _ =>
      if (0x28 <=? op) && (op <? 0x3f) then
        m ← spec_memory !! Z.to_nat (op - 0x28); dec_memarg (WMem m) r
      else if 0x45 <=? op then
        m ← spec_numeric !! Z.to_nat (op - 0x45); Some (WNum m, r)
      else None
  end.

Definition decode_instr (bs : list Z) : option (winstr * list Z) :=
  match bs with [] => None | op :: r => decode_op op r end.

Fixpoint decode_code (fuel : nat) (bs : list Z) : option (list winstr) :=
  match bs, fuel with
  | [], _ => Some []
  | _, O => None
  | _, S fuel' => '(i, r) ← decode_instr bs; is' ← decode_code fuel' r; Some (i :: is')
  end.

(** ** What each method is named after *)

Definition num1_name (o : num1) : string :=
  match o with
  | I32Eqz => "i32.eqz" | I32Eq => "i32.eq" | I32Ne => "i32.ne" | I32LtS => "i32.lt_s"
  | I32LtU => "i32.lt_u" | I32GtS => "i32.gt_s" | I32GtU => "i32.gt_u" | I32LeS => "i32.le_s"
  | I32LeU => "i32.le_u" | I32GeS => "i32.ge_s" | I32GeU => "i32.ge_u" | I64Eqz => "i64.eqz"
  | I64Eq => "i64.eq" | I64Ne => "i64.ne" | I64LtS => "i64.lt_s" | I64LtU => "i64.lt_u"
  | I64GtU => "i64.gt_u" | I64LeU => "i64.le_u" | I64GeS => "i64.ge_s" | I64GeU => "i64.ge_u"
  | F64Eq => "f64.eq" | F64Ne => "f64.ne" | F64Lt => "f64.lt" | F64Gt => "f64.gt"
  | F64Le => "f64.le" | F64Ge => "f64.ge" | I32Add => "i32.add" | I32Sub => "i32.sub"
  | I32Mul => "i32.mul" | I32DivS => "i32.div_s" | I32RemS => "i32.rem_s" | I32DivU => "i32.div_u"
  | I32RemU => "i32.rem_u" | I32And => "i32.and" | I32Or => "i32.or" | I32Xor => "i32.xor"
  | I32Clz => "i32.clz" | I32Shl => "i32.shl" | I32ShrS => "i32.shr_s" | I32ShrU => "i32.shr_u"
  end.

Definition num2_name (o : num2) : string :=
  match o with
  | I64Add => "i64.add" | I64Sub => "i64.sub" | I64Mul => "i64.mul" | I64DivU => "i64.div_u"
  | I64RemU => "i64.rem_u" | I64And => "i64.and" | I64Or => "i64.or" | I64Xor => "i64.xor"
  | I64Shl => "i64.shl" | I64ShrS => "i64.shr_s" | I64ShrU => "i64.shr_u" | F64Abs => "f64.abs"
  | F64Neg => "f64.neg" | F64Ceil => "f64.ceil" | F64Floor => "f64.floor" | F64Nearest => "f64.nearest"
  | F64Copysign => "f64.copysign" | F64Sqrt => "f64.sqrt" | F64Add => "f64.add" | F64Sub => "f64.sub"
  | F64Mul => "f64.mul" | F64Div => "f64.div" | F64Min => "f64.min" | F64Max => "f64.max"
  | I32WrapI64 => "i32.wrap_i64" | I64ExtendI32S => "i64.extend_i32_s" | I64ExtendI32U => "i64.extend_i32_u"
  | F64ConvertI32S => "f64.convert_i32_s" | F64ConvertI32U => "f64.convert_i32_u"
  | F64ConvertI64S => "f64.convert_i64_s" | F64ConvertI64U => "f64.convert_i64_u"
  | I64ReinterpretF64 => "i64.reinterpret_f64" | F64ReinterpretI64 => "f64.reinterpret_i64"
  | F32DemoteF64 => "f32.demote_f64" | F64PromoteF32 => "f64.promote_f32"
  | I32ReinterpretF32 => "i32.reinterpret_f32" | F32ReinterpretI32 => "f32.reinterpret_i32"
  end.

Definition mem_meaning (g : Globals) (i : memi) : winstr :=
  let m := ourMem g in
  match i with
  | I32Store8 => WMem "i32.store8" m 0 0 | I32Store16 => WMem "i32.store16" m 0 0
  | I32Load16U => WMem "i32.load16_u" m 0 0 | I32Load8U => WMem "i32.load8_u" m 0 0
  | F64Load => WMem "f64.load" m 0 0 | I32Store => WMem "i32.store" m 0 0
  | Load8UAt off => WMem "i32.load8_u" m 0 off | Load16UAt off => WMem "i32.load16_u" m 0 off
  | Load32At off => WMem "i32.load" m 0 off | Store8At off => WMem "i32.store8" m 0 off
  | Store16At off => WMem "i32.store16" m 0 off | Store32At off => WMem "i32.store" m 0 off
  | MemoryCopy d s => WMemoryCopy d s | MemoryFill => WMemoryFill m
  | MemoryInit seg => WMemoryInit seg m | MemorySize => WMemorySize m | MemoryGrow => WMemoryGrow m
  | Load16UIn mem off => WMem "i32.load16_u" mem 0 off | Store16In mem off => WMem "i32.store16" mem 0 off
  | Load8UIn mem off => WMem "i32.load8_u" mem 0 off | Load32In mem off => WMem "i32.load" mem 0 off
  | Store8In mem off => WMem "i32.store8" mem 0 off | Store32In mem off => WMem "i32.store" mem 0 off
  | Store64In mem off => WMem "i64.store" mem 0 off
  end.

Definition gc_meaning (i : gci) : winstr :=
  match i with
  | RefEq => WRefEq | RefNull t => WRefNull t | RefIsNull => WRefIsNull | RefAsNonNull => WRefAsNonNull
  | StructNew t => WStructNew t | StructNewDefault t => WStructNewDefault t
  | StructGet t f => WStructGet t f | StructSet t f => WStructSet t f
  | ArrayNewFixed t n => WArrayNewFixed t n | F64Trunc => WNum "f64.trunc"
  | I32TruncF64S => WNum "i32.trunc_f64_s" | I32TruncF64U => WNum "i32.trunc_f64_u"
  | I64TruncF64S => WNum "i64.trunc_f64_s" | I64TruncF64U => WNum "i64.trunc_f64_u"
  | ArrayNewDefault t => WArrayNewDefault t | ArrayNewData t d => WArrayNewData t d
  | ArraySet t => WArraySet t | ArrayCopy d s => WArrayCopy d s | ArrayGet t => WArrayGet t
  | ArrayGetU t => WArrayGetU t | ArrayLen => WArrayLen
  end.

Definition meaning (g : Globals) (i : instr) : winstr :=
  match i with
  | ICtrl i =>
      match i with
      | Unreachable => WUnreachable | Loop => WLoop BtEmpty | Block => WBlock BtEmpty
      | BlockF64 => WBlock (BtVal VF64) | Select => WSelect | IfVoid => WIf BtEmpty
      | IfResult t => WIf (BtVal t) | Else_ => WElse | End_ => WEnd | Br l => WBr l | BrIf l => WBrIf l
      | BrTable ls l => WBrTable ls l | Return_ => WReturn | Call f => WCall f | CallRef t => WCallRef t
      | RefFunc f => WRefFunc f
      end
  | IRef i =>
      match i with
      | RefCast t => WRefCast false t | RefCastNull t => WRefCast true t
      | CastChars t nullable => WRefCast nullable t | RefTest t => WRefTest false t
      | RefTestNull t => WRefTest true t | Drop => WDrop | LocalGet i => WLocalGet i
      | LocalSet i => WLocalSet i | GlobalGet i => WGlobalGet i | GlobalSet i => WGlobalSet i
      end
  | IMem i => mem_meaning g i
  | IVar i =>
      match i with
      | I32TruncSatF64S => WNum "i32.trunc_sat_f64_s" | I64TruncSatF64U => WNum "i64.trunc_sat_f64_u"
      | LocalTee i => WLocalTee i | I32Const n => WI32Const n | I64Const n => WI64Const n
      | F64Const v => WF64Const v
      end
  | INum1 o => WNum (num1_name o)
  | INum2 o => WNum (num2_name o)
  | IGc i => gc_meaning i
  end.

(** * Acceptance and decoding *)

Definition u32b (n : Z) : bool := (0 <=? n) && (n <? 2 ^ 32).
Definition i32b (n : Z) : bool := (- 2 ^ 31 <=? n) && (n <? 2 ^ 31).
Definition i64b (n : Z) : bool := (- 2 ^ 63 <=? n) && (n <? 2 ^ 63).

(** When a writer call accepts its argument, and what it appends then. *)
Definition call_ok (c : wcall) : bool :=
  match c with CUleb n => u32b n | CSleb n => i32b n | CSleb64 n => i64b n | CU8 _ | CF64 _ => true end.

Definition call_bytes (c : wcall) : list Z :=
  match c with
  | CU8 b => [to_uint8 b]
  | CUleb n => uleb_spec n
  | CSleb n => sleb_spec n
  | CSleb64 n => sleb64_spec n
  | CF64 v => le_bytes 8 (f64_bits v)
  end.

Definition calls_bytes (cs : list wcall) : list Z := concat (map call_bytes cs).

Lemma exec_call_emits c : call_ok c = true → emits (exec_call c) (call_bytes c).
Proof. destruct c; simpl; unfold u32b, i32b, i64b; intros; zb; try emits_solve. Qed.

Lemma exec_call_refuses c : call_ok c = false → refuses (exec_call c).
Proof.
  destruct c; simpl; unfold u32b, i32b, i64b; intros H; try done;
    apply andb_false_iff in H; [apply uleb_refuses|apply sleb_refuses|apply sleb64_refuses];
    destruct H; zb; lia.
Qed.

Lemma exec_calls_emits cs : forallb call_ok cs = true → emits (exec_calls cs) (calls_bytes cs).
Proof.
  intros H. apply emits_steps. induction cs as [|c cs IH]; simpl in *; zb; constructor;
    auto using exec_call_emits.
Qed.

Lemma exec_calls_refuses cs : forallb call_ok cs = false → refuses (exec_calls cs).
Proof.
  intros H w Hw. revert w Hw. induction cs as [|c cs IH]; intros w Hw; simpl in H; [done|].
  unfold exec_calls, steps; cbn [map res_fold].
  destruct (call_ok c) eqn:E; simpl in H.
  - destruct (exec_call_emits c E w Hw) as (w1 & -> & Hw1 & _). by apply (IH H).
  - pose proof (exec_call_refuses c E w Hw) as Hr. destruct (exec_call c w); [discriminate Hr|done].
Qed.

(** The heap-type index an instruction names, if any: the callers pass indices
    the module builder returned, which are never negative. *)
Definition heap_index (i : instr) : option Z :=
  match i with
  | ICtrl (IfResult (VRef _ t)) => Some t
  | IRef (RefCast t) | IRef (RefCastNull t) | IRef (CastChars t _) | IRef (RefTest t) | IRef (RefTestNull t) => Some t
  | IGc (RefNull t) => Some t
  | _ => None
  end.

Definition instr_wf (i : instr) : Prop :=
  match i with
  | IVar (F64Const v) => wf_num v
  | _ => match heap_index i with Some t => 0 <= t | None => True end
  end.

#[local] Arguments uleb_spec : simpl never.
#[local] Arguments sleb_spec : simpl never.
#[local] Arguments sleb64_spec : simpl never.
#[local] Arguments uleb_dec : simpl never.
#[local] Arguments sleb_dec : simpl never.
#[local] Arguments to_uint8 : simpl never.
#[local] Arguments js_or : simpl never.

Ltac eval_consts :=
  repeat match goal with
  | |- context [uleb_spec ?c] =>
      match c with Z0 => idtac | Zpos _ => idtac end;
      let v := eval vm_compute in (uleb_spec c) in change (uleb_spec c) with v
  | |- context [to_uint8 ?c] =>
      let v := eval vm_compute in (to_uint8 c) in
      match v with Z0 => idtac | Zpos _ => idtac end; change (to_uint8 c) with v
  | |- context [?c mod 128] =>
      match c with Z0 => idtac | Zpos _ => idtac end;
      let v := eval vm_compute in (c mod 128) in change (c mod 128) with v
  | |- context [js_or 0 64] => change (js_or 0 64) with 64
  | |- context [uleb_dec (?b :: ?r)] =>
      match b with Z0 => idtac | Zpos _ => idtac end;
      change (uleb_dec (b :: r)) with (Some (b, r))
  end.

(** Evaluates the decoder on constants and rewrites the LEB round trips. *)
Ltac decode_solve :=
  repeat (progress (unfold decode_fb, decode_fc, dec_u, dec_uu, dec_ht, dec_memarg in *; cbn -[uleb_dec sleb_dec uleb_spec sleb_spec sleb64_spec to_uint8 js_or Z.leb Z.ltb Z.pow Z.of_nat];
    rewrite <- ?app_assoc; eval_consts;
    repeat (rewrite uleb_spec_dec by lia);
    repeat (rewrite sleb_spec_dec by lia);
    repeat (rewrite sleb64_spec_dec by lia)));
  repeat match goal with |- context [?a <=? ?b] => destruct (Z.leb_spec a b); [|lia] end;
  try reflexivity.

Lemma dec_vec_spec ls rest : Forall (λ n, 0 <= n < 2 ^ 32) ls →
  dec_vec (length ls) (concat (map call_bytes (map CUleb ls)) ++ rest) = Some (ls, rest).
Proof.
  induction 1 as [|n ls Hn _ IH]; [done|]. simpl. rewrite <- app_assoc, uleb_spec_dec by done.
  simpl. by rewrite IH.
Qed.

Lemma u32b_spec n : u32b n = true ↔ 0 <= n < 2 ^ 32.
Proof. unfold u32b. rewrite andb_true_iff, Z.leb_le, Z.ltb_lt. done. Qed.
Lemma i32b_spec n : i32b n = true ↔ - 2 ^ 31 <= n < 2 ^ 31.
Proof. unfold i32b. rewrite andb_true_iff, Z.leb_le, Z.ltb_lt. done. Qed.
Lemma i64b_spec n : i64b n = true ↔ - 2 ^ 63 <= n < 2 ^ 63.
Proof. unfold i64b. rewrite andb_true_iff, Z.leb_le, Z.ltb_lt. done. Qed.

Ltac range_hyps :=
  unfold calls_bytes, memarg in *; simpl in *;
  repeat match goal with
  | H : _ && _ = true |- _ => apply andb_true_iff in H as [? ?]
  | H : u32b _ = true |- _ => apply u32b_spec in H
  | H : i32b _ = true |- _ => apply i32b_spec in H
  | H : i64b _ = true |- _ => apply i64b_spec in H
  end.

Lemma br_table_decodes ls l rest :
  forallb call_ok (emit_ctrl (BrTable ls l)) = true →
  decode_instr (calls_bytes (emit_ctrl (BrTable ls l)) ++ rest) = Some (WBrTable ls l, rest).
Proof.
  cbn [emit_ctrl]. intros H. cbn [app forallb call_ok] in H. rewrite forallb_app in H.
  cbn [forallb call_ok] in H. range_hyps.
  assert (Hls : Forall (λ n, 0 <= n < 2 ^ 32) ls).
  { apply Forall_forall. intros n Hn. apply u32b_spec.
    match goal with Hf : forallb _ _ = true |- _ => rewrite forallb_forall in Hf; apply (Hf (CUleb n)) end.
    apply in_map_iff. exists n. split; [done|]. by apply list_elem_of_In. }
  rewrite map_app, concat_app. simpl. rewrite <- !app_assoc. eval_consts. simpl.
  rewrite uleb_spec_dec by lia. simpl. rewrite Nat2Z.id, dec_vec_spec by done. simpl.
  rewrite ?app_nil_r, uleb_spec_dec by lia. done.
Qed.

Lemma ctrl_decodes i rest : instr_wf (ICtrl i) → forallb call_ok (emit_ctrl i) = true →
  decode_instr (calls_bytes (emit_ctrl i) ++ rest) = Some (meaning (mkGlobals 0 None) (ICtrl i), rest).
Proof.
  intros Hwf H.
  destruct i; try (by apply br_table_decodes);
    try match goal with t : ValType |- _ => destruct t as [| | |[] ?] end;
    range_hyps; decode_solve.
Qed.

Lemma ref_decodes g i cs rest : instr_wf (IRef i) → emit_ref g i = Ok cs → forallb call_ok cs = true →
  decode_instr (calls_bytes cs ++ rest) = Some (meaning g (IRef i), rest).
Proof.
  intros Hwf E H. unfold instr_wf in Hwf.
  destruct i; simpl in E, Hwf; res_inv; try match goal with b : bool |- _ => destruct b end;
    range_hyps; decode_solve.
Qed.

(** A memory index and offset read back from a memarg. *)
Lemma memarg_decodes k mem off rest :
  forallb call_ok (memarg 0 off mem) = true →
  dec_memarg k (calls_bytes (memarg 0 off mem) ++ rest) = Some (k mem 0 off, rest).
Proof.
  unfold memarg. destruct (Z.eqb_spec mem 0) as [->|]; intros H; range_hyps; decode_solve.
  - change (0 <? 64) with true. cbn [mbind option_bind]. rewrite uleb_spec_dec by lia. done.
  - change (64 <? 64) with false. change (64 <? 128) with true. cbn [mbind option_bind].
    rewrite uleb_spec_dec by lia. done.
Qed.

Lemma mem_decodes g i rest : forallb call_ok (emit_mem g i) = true →
  decode_instr (calls_bytes (emit_mem g i) ++ rest) = Some (meaning g (IMem i), rest).
Proof.
  intros H. destruct i; cbn [emit_mem meaning mem_meaning] in *;
    try (unfold calls_bytes; cbn [map concat call_bytes]; rewrite <- app_assoc; eval_consts;
         cbn [decode_instr app]; simpl (spec_memory !! _);
         apply (memarg_decodes (WMem _)); exact H);
    range_hyps; decode_solve.
Qed.

Lemma var_decodes i rest : instr_wf (IVar i) → forallb call_ok (emit_var i) = true →
  decode_instr (calls_bytes (emit_var i) ++ rest) = Some (meaning (mkGlobals 0 None) (IVar i), rest).
Proof.
  intros Hwf H. destruct i as [| | | | |v]; try (range_hyps; decode_solve; fail).
  unfold calls_bytes; cbn [emit_var map concat call_bytes]. rewrite app_nil_r, <- app_assoc. eval_consts.
  unfold decode_instr, decode_op; cbn [app]. pose proof (le_bytes_length 8 (f64_bits v)) as Hl.
  rewrite decide_False by (rewrite length_app; lia).
  rewrite take_app_len, drop_app_len by done. rewrite le_value_bytes.
  pose proof (f64_bits_range v Hwf). rewrite Z.mod_small by (change (256 ^ Z.of_nat 8) with (2 ^ 64); lia).
  by rewrite f64_of_bits_bits.
Qed.

Lemma gc_decodes i rest : instr_wf (IGc i) → forallb call_ok (emit_gc i) = true →
  decode_instr (calls_bytes (emit_gc i) ++ rest) = Some (meaning (mkGlobals 0 None) (IGc i), rest).
Proof. intros Hwf H. unfold instr_wf in Hwf. destruct i; simpl in Hwf; range_hyps; decode_solve. Qed.

Lemma instr_decodes g i cs rest : instr_wf i → emit_instr g i = Ok cs → forallb call_ok cs = true →
  decode_instr (calls_bytes cs ++ rest) = Some (meaning g i, rest).
Proof.
  destruct i as [i|i|i|i|o|o|i]; intros Hwf E H; try (injection E as <-).
  - exact (ctrl_decodes i rest Hwf H).
  - exact (ref_decodes g i cs rest Hwf E H).
  - exact (mem_decodes g i rest H).
  - exact (var_decodes i rest Hwf H).
  - by destruct o.
  - by destruct o.
  - exact (gc_decodes i rest Hwf H).
Qed.

(** A method call is accepted exactly when its guard and its immediates are. *)
Definition instr_ok (g : Globals) (i : instr) : bool :=
  match emit_instr g i with Ok cs => forallb call_ok cs | Throw _ => false end.

Definition instr_bytes (g : Globals) (i : instr) : list Z :=
  match emit_instr g i with Ok cs => calls_bytes cs | Throw _ => [] end.

Lemma run_instr_emits g i : instr_ok g i = true → emits (run_instr g i) (instr_bytes g i).
Proof.
  unfold instr_ok, instr_bytes, run_instr. destruct (emit_instr g i) as [cs|]; [|done]. intros H.
  by apply exec_calls_emits.
Qed.

Lemma run_instr_refuses g i : instr_ok g i = false → refuses (run_instr g i).
Proof.
  unfold instr_ok, run_instr. intros H w Hw. destruct (emit_instr g i) as [cs|]; [|done].
  by apply exec_calls_refuses.
Qed.

Lemma run_code_emits g code : forallb (instr_ok g) code = true →
  emits (run_code g code) (flat_map (instr_bytes g) code).
Proof.
  intros H. rewrite flat_map_concat_map. apply emits_steps.
  induction code as [|i code IH]; simpl in *; zb; constructor; auto using run_instr_emits.
Qed.

Lemma instr_bytes_nonempty g i : instr_ok g i = true → instr_wf i → instr_bytes g i ≠ [].
Proof.
  unfold instr_ok, instr_bytes. destruct (emit_instr g i) as [cs|] eqn:E; [|done]. intros H Hwf Hb.
  pose proof (instr_decodes g i cs [] Hwf E H) as Hd. by rewrite Hb in Hd.
Qed.

Lemma decode_code_emitted g code fuel : forallb (instr_ok g) code = true → Forall instr_wf code →
  (length (flat_map (instr_bytes g) code) <= fuel)%nat →
  decode_code fuel (flat_map (instr_bytes g) code) = Some (map (meaning g) code).
Proof.
  revert fuel. induction code as [|i code IH]; intros fuel Hok Hwf Hf; simpl in *.
  { by destruct fuel. }
  zb. apply Forall_cons in Hwf as [Hwf Hwfs].
  pose proof (instr_bytes_nonempty g i) as Hne.
  destruct (instr_bytes g i) as [|b bs] eqn:Eb; [by destruct Hne|]. clear Hne.
  rewrite length_app in Hf. simpl in Hf. destruct fuel as [|fuel]; [lia|].
  assert (Hd : decode_instr ((b :: bs) ++ flat_map (instr_bytes g) code)
    = Some (meaning g i, flat_map (instr_bytes g) code)).
  { rewrite <- Eb. unfold instr_bytes, instr_ok in *. destruct (emit_instr g i) eqn:E; [|done].
    by apply instr_decodes. }
  cbn [app] in Hd |- *. cbn [decode_code]. rewrite Hd. simpl. rewrite IH by (done || lia). done.
Qed.

(** * Theorems *)

(** C14. A straight run of [Code] methods on a fresh writer is accepted when
    every immediate is in range and no raw cast targets the flat string type,
    and the bytes it leaves decode, under the WebAssembly binary grammar, to
    exactly the instructions the methods are named after, in order. *)
Theorem run_code_decodes g code :
  forallb (instr_ok g) code = true → Forall instr_wf code →
  ∃ w, run_code g code bw_new = Ok w ∧
    decode_code (length (bw_bytes w)) (bw_bytes w) = Some (map (meaning g) code).
Proof.
  intros Hok Hwf. destruct (emits_new _ _ (run_code_emits g code Hok)) as (w & E & B).
  exists w. split; [done|]. rewrite B. by apply decode_code_emitted.
Qed.

Lemma run_code_decodes_witness :
  let g := mkGlobals 1 (Some 7) in
  let code := [IVar (LocalTee 300); IMem (Load8UAt 4096); IVar (I32Const (-5)); IVar (F64Const NZero);
               ICtrl (IfResult (VRef true 9)); IRef (RefCast 8); ICtrl (BrTable [0; 200; 1] 2); ICtrl End_;
               IGc (StructGet 3 1); INum1 I32ShrU; INum2 F64ReinterpretI64] in
  ∃ w, run_code g code bw_new = Ok w ∧
    decode_code (length (bw_bytes w)) (bw_bytes w) = Some (map (meaning g) code).
Proof.
  apply run_code_decodes; [vm_compute; reflexivity|].
  repeat (apply Forall_cons_2; [simpl; first [exact I | lia]|]). apply Forall_nil_2.
Defined.

(** A [Code] method throws exactly when [instr_ok] rejects it: one of its
    LEB immediates is outside its 32- or 64-bit range, or it is a raw
    [ref.cast] to the registered flat string type; otherwise it appends its
    encoding to whatever the writer held. *)
Theorem run_instr_accepts g i w :
  bw_wf w →
  is_ok (run_instr g i w) = instr_ok g i ∧
  (instr_ok g i = true → ∃ w', run_instr g i w = Ok w' ∧ bw_wf w' ∧
     bw_bytes w' = bw_bytes w ++ instr_bytes g i).
Proof.
  intros Hw. destruct (instr_ok g i) eqn:E.
  - destruct (run_instr_emits g i E w Hw) as (w' & Ew & ? & ?). rewrite Ew. eauto.
  - split; [by apply run_instr_refuses|done].
Qed.

Lemma run_instr_accepts_witness :
  let g := mkGlobals 0 (Some 7) in
  is_ok (run_instr g (IRef (RefCast 7)) bw_new) = instr_ok g (IRef (RefCast 7)) ∧
  (instr_ok g (IRef (RefCast 7)) = true → ∃ w', run_instr g (IRef (RefCast 7)) bw_new = Ok w' ∧ bw_wf w' ∧
     bw_bytes w' = bw_bytes bw_new ++ instr_bytes g (IRef (RefCast 7))).
Proof. apply run_instr_accepts. apply bw_new_wf. Defined.
