(* ===== verification/Engine.v ===== *)
(** * The island engine image

    src/packages/compiler/src/backend/wasm/engine.ts: the format-checking
    parser of the prebuilt engine module ([parseEngine], one definition per
    block of the function) and its image record.  [TextDecoder] is the host's:
    the section takes it as [decodeUtf8].  Shown: what every accepted image
    guarantees to the splicer (bodies that tile the code payload, relocated
    immediates that are five-byte LEBs inside it), and that an image whose
    format differs is refused, never misread. *)

From S2P Require Import Prelude F64 Bytes WasmTypes.

Inductive reloc_space : Type := RFunc | RType | RGlobal | RTable.
#[export] Instance reloc_space_eq_dec : EqDecision reloc_space.
Proof. solve_decision. Defined.

Record EngineReloc := mkReloc { r_space : reloc_space; r_offset : nat; r_index : Z }.

Record EngineImport := mkEImport { ei_module : jsstr; ei_name : jsstr; ei_type : Z }.
Record EngineGlobal := mkEGlobal { eg_type : ValType; eg_mutable : bool; eg_init : list Z }.

Record EngineImage := mkImage {
  img_types : list (list ValType * list ValType);
  img_imports : list EngineImport;
  img_funcTypes : list Z;
  img_tableMin : Z;
  img_tableMax : option Z;
  img_memoryMin : Z;
  img_globals : list EngineGlobal;
  img_exports : gmap jsstr Z;
  img_elemOffset : list Z;
  img_elemFuncs : list Z;
  img_code : list Z;
  img_bodies : list (nat * nat);
  img_relocs : list EngineReloc;
  img_dataSegments : list (list Z);
  img_names : gmap Z jsstr
}.

(** [subarray]/[slice] clamp to the array. *)
Definition js_slice (b : list Z) (i j : nat) : list Z := take (j - i) (drop i b).

Definition rd_seek (p : nat) (r : Reader) : Reader := mkRd (rd_b r) p (rd_end r).
Definition new_Reader (b : list Z) (start stop : nat) : Reader := mkRd b start stop.

(** A read that must produce the byte [m]. *)
Definition expect (m : Z) (msg : string) (r : Reader) : res Reader :=
  let* ' (x, r) := rd_u8 r in
  if decide (x = Some m) then Ok r else engine_error msg.

(** [for (let i = 0; i < n; i++) out.push(f())] *)
Fixpoint rd_times {A} (n : nat) (f : Reader → res (A * Reader)) (r : Reader) : res (list A * Reader) :=
  match n with
  | O => Ok ([], r)
  | S n' => let* ' (x, r) := f r in let* ' (xs, r) := rd_times n' f r in Ok (x :: xs, r)
  end.

(** A count, then that many items. *)
Definition rd_vec {A} (f : Reader → res (A * Reader)) (r : Reader) : res (list A * Reader) :=
  let* ' (n, r) := rd_uleb r in rd_times (Z.to_nat n) f r.

Definition valType (code : option Z) : res ValType :=
  match code with
  | Some 0x7f => Ok VI32
  | Some 0x7e => Ok VI64
  | Some 0x7c => Ok VF64
  | _ => engine_error "value type (only i32/i64/f64 are spliced)"
  end.

Definition rd_valType (r : Reader) : res (ValType * Reader) :=
  let* ' (c, r) := rd_u8 r in let* t := valType c in Ok (t, r).

(** [Reader.constExpr]: i32.const, i64.const or f64.const, then [end]. *)
Definition rd_constExpr (r : Reader) : res (list Z * Reader) :=
  let start := rd_pos r in
  let* ' (op, r) := rd_u8 r in
  let* r :=
    match op with
    | Some 0x41 | Some 0x42 => let* ' (_, r) := rd_uleb r in Ok r
    | Some 0x44 => Ok (rd_seek (rd_pos r + 8) r)
    | _ => engine_error "unexpected constant-expression opcode"
    end in
  let body := js_slice (rd_b r) start (rd_pos r) in
  let* r := expect 0x0b "constant expression longer than one instruction" r in
  Ok (body, r).

Record Section_ := mkSec { s_id : option Z; s_name : option jsstr; s_start : nat; s_end : nat }.

Definition R_FUNCTION_INDEX_LEB : Z := 0.
Definition R_TABLE_INDEX_SLEB : Z := 1.
Definition R_MEMORY_ADDR_LEB : Z := 3.
Definition R_MEMORY_ADDR_SLEB : Z := 4.
Definition R_TYPE_INDEX_LEB : Z := 6.
Definition R_GLOBAL_INDEX_LEB : Z := 7.
Definition R_MEMORY_ADDR_REL_SLEB : Z := 11.
Definition R_TABLE_NUMBER_LEB : Z := 20.
Definition KEPT_CODE_RELOCS : list Z :=
  [R_TABLE_INDEX_SLEB; R_MEMORY_ADDR_LEB; R_MEMORY_ADDR_SLEB; R_MEMORY_ADDR_REL_SLEB].
Definition WITH_ADDEND : list Z := [3; 4; 5; 8; 9; 11; 14; 15; 16; 17; 21; 22; 23].

(** The space a relocation type rewrites; [Ok None] keeps the immediate. *)
Definition reloc_space_of (type : option Z) : res (option reloc_space) :=
  if decide (type = Some R_FUNCTION_INDEX_LEB) then Ok (Some RFunc)
  else if decide (type = Some R_TYPE_INDEX_LEB) then Ok (Some RType)
  else if decide (type = Some R_GLOBAL_INDEX_LEB) then Ok (Some RGlobal)
  else if decide (type = Some R_TABLE_NUMBER_LEB) then Ok (Some RTable)
  else if bool_decide (type ∈ map Some KEPT_CODE_RELOCS) then Ok None
  else engine_error "unknown code relocation type".

(** The immediate must be exactly a five-byte padded LEB. *)
Definition check_padded (code : list Z) (offset : nat) : res unit :=
  let* _ := throw_if (negb (forallb (λ k, negb (byte_and (code !! (offset + k)%nat) 0x80 =? 0)) (seq 0 4)))
              "island engine artifact: index is a shorter LEB, not 5" in
  throw_if (negb (byte_and (code !! (offset + 4)%nat) 0x80 =? 0))
    "island engine artifact: index is longer than 5 bytes".

Section parse.
Context (decodeUtf8 : list Z → jsstr).
Context (bytes : list Z).

Definition rd_name (r : Reader) : res (jsstr * Reader) :=
    let* ' (n, r) := rd_uleb r in
    let stop := (rd_pos r + Z.to_nat n)%nat in
    Ok (decodeUtf8 (js_slice (rd_b r) (rd_pos r) stop), rd_seek stop r).

Definition whole : Reader := new_Reader bytes 0 (length bytes).
Definition sec_reader (s : Section_) : Reader := new_Reader bytes (s_start s) (s_end s).

Definition check_magic (r : Reader) : res Reader :=
    res_fold (λ m r, expect m "not a wasm 1.0 binary" r) [0x00; 0x61; 0x73; 0x6d; 0x01; 0x00; 0x00; 0x00] r.

  (** [while (r.pos < bytes.length)]: each turn reads at least two bytes, so a
      turn per byte is enough. *)
Fixpoint scan_sections (fuel : nat) (r : Reader) : res (list Section_) :=
    if decide (length bytes <= rd_pos r)%nat then Ok []
    else match fuel with
    | O => Throw "unreachable"
    | S fuel' =>
        let* ' (id, r) := rd_u8 r in
        let* ' (size, r) := rd_uleb r in
        let start := rd_pos r in
        let stop := (start + Z.to_nat size)%nat in
        let* name := (if decide (id = Some 0)
                      then let* ' (nm, _) := rd_name (new_Reader bytes start stop) in Ok (Some nm)
                      else Ok None) in
        let* rest := scan_sections fuel' (rd_seek stop r) in
        Ok (mkSec id name start stop :: rest)
    end.

Lemma scan_sections_S fuel r : scan_sections (S fuel) r =
    if decide (length bytes <= rd_pos r)%nat then Ok []
    else
      let* ' (id, r) := rd_u8 r in
      let* ' (size, r) := rd_uleb r in
      let start := rd_pos r in
      let stop := (start + Z.to_nat size)%nat in
      let* name := (if decide (id = Some 0)
                    then let* ' (nm, _) := rd_name (new_Reader bytes start stop) in Ok (Some nm)
                    else Ok None) in
      let* rest := scan_sections fuel (rd_seek stop r) in
      Ok (mkSec id name start stop :: rest).
Proof. reflexivity. Qed.

Definition sec (ss : list Section_) (id : Z) : option Section_ :=
    find (λ s, bool_decide (s_id s = Some id)) ss.
Definition custom (ss : list Section_) (name : jsstr) : option Section_ :=
    find (λ s, bool_decide (s_id s = Some 0) && bool_decide (s_name s = Some name)) ss.

Definition refuse_sections (ss : list Section_) : res unit :=
    res_fold (λ s _,
      let* _ := throw_if (bool_decide (s_id s = Some 8)) "island engine artifact: a start section" in
      let* _ := throw_if (bool_decide (s_id s = Some 12)) "island engine artifact: a DataCount section" in
      throw_if (bool_decide (s_id s = Some 13)) "island engine artifact: a tag section") ss tt.

Definition need {A} (o : option A) (msg : string) : res A :=
    match o with Some a => Ok a | None => engine_error msg end.

Definition rd_functype (r : Reader) : res ((list ValType * list ValType) * Reader) :=
    let* r := expect 0x60 "type is not a plain function type" r in
    let* ' (params, r) := rd_vec rd_valType r in
    let* ' (results, r) := rd_vec rd_valType r in
    Ok ((params, results), r).

Definition parse_types (ss : list Section_) : res (list (list ValType * list ValType)) :=
    let* s := need (sec ss 1) "no type section" in
    let* ' (ts, _) := rd_vec rd_functype (sec_reader s) in Ok ts.

Definition rd_import (r : Reader) : res (EngineImport * Reader) :=
    let* ' (module_, r) := rd_name r in
    let* ' (name, r) := rd_name r in
    let* r := expect 0x00 "import is not a function" r in
    let* ' (t, r) := rd_uleb r in
    Ok (mkEImport module_ name t, r).

Definition parse_imports (ss : list Section_) : res (list EngineImport) :=
    match sec ss 2 with
    | None => Ok []
    | Some s => let* ' (xs, _) := rd_vec rd_import (sec_reader s) in Ok xs
    end.

Definition parse_funcTypes (ss : list Section_) : res (list Z) :=
    let* s := need (sec ss 3) "no function section" in
    let* ' (xs, _) := rd_vec rd_uleb (sec_reader s) in Ok xs.

Definition parse_table (ss : list Section_) : res (Z * option Z) :=
    let* s := need (sec ss 4) "no table section" in
    let* ' (n, t) := rd_uleb (sec_reader s) in
    let* _ := throw_if (negb (n =? 1)) "island engine artifact: more than one table" in
    let* t := expect 0x70 "table 0 is not a funcref table" t in
    let* ' (flags, t) := rd_u8 t in
    let* ' (tableMin, t) := rd_uleb t in
    match flags with
    | Some 0x01 => let* ' (mx, _) := rd_uleb t in Ok (tableMin, Some mx)
    | Some 0x00 => Ok (tableMin, None)
    | _ => engine_error "table limits flags"
    end.

Definition parse_memory (ss : list Section_) : res Z :=
    let* s := need (sec ss 5) "no memory section" in
    let* ' (n, t) := rd_uleb (sec_reader s) in
    let* _ := throw_if (negb (n =? 1)) "island engine artifact: more than one memory" in
    let* t := expect 0x00 "memory limits flags (expected min-only, unshared)" t in
    let* ' (m, _) := rd_uleb t in Ok m.

Definition rd_global (r : Reader) : res (EngineGlobal * Reader) :=
    let* ' (type, r) := rd_valType r in
    let* ' (mut, r) := rd_u8 r in
    let* ' (init, r) := rd_constExpr r in
    Ok (mkEGlobal type (bool_decide (mut = Some 1)) init, r).

Definition parse_globals (ss : list Section_) : res (list EngineGlobal) :=
    match sec ss 6 with
    | None => Ok []
    | Some s => let* ' (xs, _) := rd_vec rd_global (sec_reader s) in Ok xs
    end.

Definition rd_export (r : Reader) : res ((jsstr * option Z * Z) * Reader) :=
    let* ' (name, r) := rd_name r in
    let* ' (kind, r) := rd_u8 r in
    let* ' (idx, r) := rd_uleb r in
    Ok ((name, kind, idx), r).

Definition parse_exports (ss : list Section_) : res (gmap jsstr Z) :=
    match sec ss 7 with
    | None => Ok ∅
    | Some s =>
        let* ' (xs, _) := rd_vec rd_export (sec_reader s) in
        Ok (foldl (λ (m : gmap jsstr Z) '(name, kind, idx),
              if bool_decide (kind = Some 0) then <[name := idx]> m else m) ∅ xs)
    end.

Definition parse_elem (ss : list Section_) : res (list Z * list Z) :=
    let* s := need (sec ss 9) "no element section" in
    let* ' (n, t) := rd_uleb (sec_reader s) in
    let* _ := throw_if (negb (n =? 1)) "island engine artifact: more than one element segment" in
    let* ' (flags, t) := rd_uleb t in
    let* _ := throw_if (negb (flags =? 0)) "island engine artifact: element segment flags" in
    let* ' (elemOffset, t) := rd_constExpr t in
    let* ' (funcs, _) := rd_vec rd_uleb t in
    Ok (elemOffset, funcs).

Definition rd_data (r : Reader) : res (list Z * Reader) :=
    let start := rd_pos r in
    let* ' (flags, r) := rd_uleb r in
    let* _ := throw_if (negb (flags =? 0)) "island engine artifact: data segment flags" in
    let* ' (_, r) := rd_constExpr r in
    let* ' (len, r) := rd_uleb r in
    let r := rd_seek (rd_pos r + Z.to_nat len) r in
    Ok (js_slice bytes start (rd_pos r), r).

Definition parse_data (ss : list Section_) : res (list (list Z)) :=
    match sec ss 11 with
    | None => Ok []
    | Some s => let* ' (xs, _) := rd_vec rd_data (sec_reader s) in Ok xs
    end.

Definition rd_body (r : Reader) : res ((nat * nat) * Reader) :=
    let start := rd_pos r in
    let* ' (size, r) := rd_uleb r in
    let r := rd_seek (rd_pos r + Z.to_nat size) r in
    Ok ((start, rd_pos r), r).

Definition parse_code (ss : list Section_) (nfuncs : nat) : res (list Z * list (nat * nat)) :=
    let* s := need (sec ss 10) "no code section" in
    let code := js_slice bytes (s_start s) (s_end s) in
    let* ' (n, t) := rd_uleb (new_Reader code 0 (length code)) in
    let* _ := throw_if (negb (n =? Z.of_nat nfuncs)) "island engine artifact: code count != function count" in
    let* ' (bodies, t) := rd_times (Z.to_nat n) rd_body t in
    let* _ := throw_if (negb (rd_pos t =? length code)%nat)
                "island engine artifact: trailing bytes after the last function body" in
    Ok (code, bodies).

Definition rd_reloc (code : list Z) (r : Reader) : res (option EngineReloc * Reader) :=
    let* ' (type, r) := rd_u8 r in
    let* ' (offset, r) := rd_uleb r in
    let* ' (_, r) := rd_uleb r in
    let* r := (if bool_decide (type ∈ map Some WITH_ADDEND)
               then let* ' (_, r) := rd_uleb r in Ok r else Ok r) in
    let* space := reloc_space_of type in
    match space with
    | None => Ok (None, r)
    | Some sp =>
        let off := Z.to_nat offset in
        let* _ := check_padded code off in
        Ok (Some (mkReloc sp off (readUleb5 code off)), r)
    end.

Definition parse_relocs (ss : list Section_) (code : list Z) : res (list EngineReloc) :=
    let* s := need (custom ss (js_of_string "reloc.CODE")) "no reloc.CODE section (not linked with --emit-relocs?)" in
    let* ' (_, t) := rd_name (sec_reader s) in
    let* ' (target, t) := rd_uleb t in
    let codeIndex := match list_index (λ s, bool_decide (s_id s = Some 10)) ss 0 with
                     | Some i => Z.of_nat i | None => -1 end in
    let* _ := throw_if (negb (target =? codeIndex)) "island engine artifact: reloc.CODE targets another section" in
    let* ' (xs, _) := rd_vec (rd_reloc code) t in
    Ok (omap id xs).

Definition rd_naming (r : Reader) : res ((Z * jsstr) * Reader) :=
    let* ' (idx, r) := rd_uleb r in let* ' (nm, r) := rd_name r in Ok ((idx, nm), r).

  (** [while (t.pos < s.end)] over the name section's subsections. *)
Fixpoint name_subsections (fuel : nat) (stop : nat) (names : gmap Z jsstr) (t : Reader) : res (gmap Z jsstr) :=
    if decide (stop <= rd_pos t)%nat then Ok names
    else match fuel with
    | O => Throw "unreachable"
    | S fuel' =>
        let* ' (sub, t) := rd_u8 t in
        let* ' (size, t) := rd_uleb t in
        let end_ := (rd_pos t + Z.to_nat size)%nat in
        let* names :=
          (if bool_decide (sub = Some 1)
           then let* ' (xs, _) := rd_vec rd_naming t in
                Ok (foldl (λ (m : gmap Z jsstr) '(i, nm), <[i := nm]> m) names xs)
           else Ok names) in
        name_subsections fuel' stop names (rd_seek end_ t)
    end.

Definition parse_names (ss : list Section_) : res (gmap Z jsstr) :=
    match custom ss (js_of_string "name") with
    | None => Ok ∅
    | Some s =>
        let* ' (_, t) := rd_name (sec_reader s) in
        name_subsections (S (s_end s)) (s_end s) ∅ t
    end.

Definition parseEngine : res EngineImage :=
    let* r := check_magic whole in
    let* ss := scan_sections (length bytes) r in
    let* _ := refuse_sections ss in
    let* types := parse_types ss in
    let* imports := parse_imports ss in
    let* funcTypes := parse_funcTypes ss in
    let* ' (tableMin, tableMax) := parse_table ss in
    let* memoryMin := parse_memory ss in
    let* globals := parse_globals ss in
    let* exports := parse_exports ss in
    let* ' (elemOffset, elemFuncs) := parse_elem ss in
    let* dataSegments := parse_data ss in
    let* ' (code, bodies) := parse_code ss (length funcTypes) in
    let* relocs := parse_relocs ss code in
    let* names := parse_names ss in
    Ok (mkImage types imports funcTypes tableMin tableMax memoryMin globals exports elemOffset elemFuncs
          code bodies relocs dataSegments names).
End parse.

(** * What an accepted image guarantees *)

(** Consecutive byte ranges from [p] to [q]. *)
Fixpoint tiles (p : nat) (bs : list (nat * nat)) (q : nat) : Prop :=
  match bs with
  | [] => p = q
  | (a, b) :: bs' => a = p ∧ (a < b)%nat ∧ tiles b bs' q
  end.

Definition mvp_type (t : ValType) : Prop := match t with VRef _ _ => False | _ => True end.

(** A five-byte padded LEB at [off]: four continuation bytes in the payload and
    a fifth that ends it.  The check reads a byte past the payload as 0, so the
    fifth may also be missing, but only when the payload stops right there, with a
    continuation byte. *)
Definition padded_leb (code : list Z) (off : nat) : Prop :=
  (∀ k, (k < 4)%nat → ∃ b, code !! (off + k)%nat = Some b ∧ js_and b 0x80 <> 0) ∧
  ((∃ b, code !! (off + 4)%nat = Some b ∧ js_and b 0x80 = 0) ∨ length code = (off + 4)%nat).
(** The opcode that ends a function body. *)
Definition ends_with_end (code : list Z) : Prop := last code = Some 0x0b.
(** What the splicer relies on. *)
Record image_wf (img : EngineImage) : Prop := {
  wf_bodies_count : length (img_bodies img) = length (img_funcTypes img);
  wf_bodies_tile : ∃ p, (0 < p)%nat ∧ tiles p (img_bodies img) (length (img_code img));
  wf_relocs : ∀ r, r ∈ img_relocs img →
    padded_leb (img_code img) (r_offset r) ∧ r_index r = readUleb5 (img_code img) (r_offset r) ∧
    (ends_with_end (img_code img) → (r_offset r + 4 < length (img_code img))%nat);
  wf_types : Forall (λ '(ps, rs), Forall mvp_type ps ∧ Forall mvp_type rs) (img_types img);
  wf_globals : Forall (λ g, mvp_type (eg_type g)) (img_globals img)
}.

Lemma rd_u8_pos r x r' : rd_u8 r = Ok (x, r') → (rd_pos r < rd_pos r')%nat.
Proof. unfold rd_u8. case_decide; [done|]. intros [= <- <-]. simpl. lia. Qed.

Lemma rd_uleb_loop_pos fuel acc sh r n r' :
  rd_uleb_loop fuel acc sh r = Ok (n, r') → (rd_pos r < rd_pos r')%nat.
Proof.
  revert acc sh r; induction fuel as [|fuel IH]; intros acc sh r; [done|]. rewrite rd_uleb_loop_S.
  intros H. apply res_bind_Ok in H as ([x r1] & H1 & H). apply rd_u8_pos in H1.
  destruct (byte_and x 128 =? 0); [by injection H as <- <-|].
  destruct (35 <? sh + 7); [done|]. apply IH in H. lia.
Qed.

Lemma rd_uleb_pos r n r' : rd_uleb r = Ok (n, r') → (rd_pos r < rd_pos r')%nat.
Proof. apply rd_uleb_loop_pos. Qed.

(** Every item of a counted read satisfies what one read guarantees. *)
Lemma rd_times_Forall {A} (P : A → Prop) f n r xs r' :
  (∀ r x r', f r = Ok (x, r') → P x) → rd_times n f r = Ok (xs, r') → length xs = n ∧ Forall P xs.
Proof.
  intros Hf. revert r xs. induction n as [|n IH]; intros r xs H; simpl in H.
  { injection H as <- <-. split; [done|constructor]. }
  apply res_bind_Ok in H as ([x r1] & H1 & H). apply res_bind_Ok in H as ([xs' r2] & H2 & H).
  injection H as <- <-. apply IH in H2 as [? ?]. split; [simpl; lia|constructor; eauto].
Qed.

Lemma rd_vec_Forall {A} (P : A → Prop) f r xs r' :
  (∀ r x r', f r = Ok (x, r') → P x) → rd_vec f r = Ok (xs, r') → Forall P xs.
Proof.
  intros Hf H. apply res_bind_Ok in H as ([n r1] & _ & H). by apply (rd_times_Forall P) in H as [_ ?].
Qed.

Lemma rd_times_tiles n r bs r' :
  rd_times n rd_body r = Ok (bs, r') → length bs = n ∧ tiles (rd_pos r) bs (rd_pos r').
Proof.
  revert r bs. induction n as [|n IH]; intros r bs H; simpl in H; [by injection H as <- <-|].
  apply res_bind_Ok in H as ([[a b] r1] & H1 & H). apply res_bind_Ok in H as ([bs' r2] & H2 & H).
  injection H as <- <-. apply IH in H2 as [? ?].
  unfold rd_body in H1. apply res_bind_Ok in H1 as ([sz r3] & H3 & H1).
  apply rd_uleb_pos in H3. injection H1 as <- <- <-. simpl in *. split_and!; [lia|done|lia|done].
Qed.

Lemma valType_mvp c t : valType c = Ok t → mvp_type t.
Proof. unfold valType, engine_error. repeat case_match; intros E; simplify_eq; exact I. Qed.

Lemma rd_valType_mvp r t r' : rd_valType r = Ok (t, r') → mvp_type t.
Proof.
  intros H. apply res_bind_Ok in H as ([c r1] & _ & H). apply res_bind_Ok in H as (t' & H1 & H).
  injection H as <- <-. by apply valType_mvp in H1.
Qed.

Lemma parse_types_mvp bytes ss ts : parse_types bytes ss = Ok ts →
  Forall (λ '(ps, rs), Forall mvp_type ps ∧ Forall mvp_type rs) ts.
Proof.
  intros H. apply res_bind_Ok in H as (s & _ & H). apply res_bind_Ok in H as ([ts' r] & H1 & H).
  injection H as <-. revert H1. apply rd_vec_Forall. clear. intros r [ps rs] r' H.
  apply res_bind_Ok in H as (r1 & _ & H). apply res_bind_Ok in H as ([ps' r2] & H2 & H).
  apply res_bind_Ok in H as ([rs' r3] & H3 & H). injection H as <- <- <-.
  split; [apply (rd_vec_Forall _ _ _ _ _ rd_valType_mvp H2)|apply (rd_vec_Forall _ _ _ _ _ rd_valType_mvp H3)].
Qed.

Lemma parse_globals_mvp bytes ss gs : parse_globals bytes ss = Ok gs → Forall (λ g, mvp_type (eg_type g)) gs.
Proof.
  unfold parse_globals. destruct (sec ss 6); [|intros [= <-]; constructor].
  intros H. apply res_bind_Ok in H as ([gs' r] & H1 & H). injection H as <-.
  revert H1. apply rd_vec_Forall. clear. intros r g r' H.
  apply res_bind_Ok in H as ([t r1] & H1 & H). apply rd_valType_mvp in H1.
  apply res_bind_Ok in H as ([m r2] & _ & H). apply res_bind_Ok in H as ([i r3] & _ & H).
  by injection H as <- <-.
Qed.

Lemma check_padded_Ok code off u : check_padded code off = Ok u → padded_leb code off.
Proof.
  intros H. apply res_bind_Ok in H as (u' & H1 & H2). apply throw_if_Ok in H1, H2.
  apply negb_false_iff in H1, H2. rewrite forallb_forall in H1. apply Z.eqb_eq in H2.
  assert (Hk : ∀ k, (k < 4)%nat → ∃ b, code !! (off + k)%nat = Some b ∧ js_and b 128 ≠ 0).
  { intros k Hk. specialize (H1 k ltac:(apply in_seq; lia)). apply negb_true_iff, Z.eqb_neq in H1. destruct (code !! (off + k)%nat) as [b|]; [by exists b|done]. }
  split; [exact Hk|]. destruct (code !! (off + 4)%nat) as [b|] eqn:E; [left; by exists b|right].
  destruct (Hk 3%nat ltac:(lia)) as (b & Hb & _). apply lookup_lt_Some in Hb. apply lookup_ge_None in E. lia.
Qed.
(** A payload that ends a function body has the fifth byte. *)
Lemma padded_leb_in code off : padded_leb code off → ends_with_end code → (off + 4 < length code)%nat.
Proof.
  intros [Hk [(b & Hb & _)|Hl]] He; [by apply lookup_lt_Some in Hb|]. destruct (Hk 3%nat ltac:(lia)) as (b & Hb & Hc).
  unfold ends_with_end in He. rewrite last_lookup, Hl in He. replace (Nat.pred (off + 4)) with (off + 3)%nat in He by lia. rewrite Hb in He. injection He as ->. done.
Qed.

Lemma rd_reloc_wf code r x r' : rd_reloc code r = Ok (x, r') →
  ∀ rl, x = Some rl → padded_leb code (r_offset rl) ∧ r_index rl = readUleb5 code (r_offset rl) ∧ (ends_with_end code → (r_offset rl + 4 < length code)%nat).
Proof.
  intros H rl ->. unfold rd_reloc in H. apply res_bind_Ok in H as ([ty r1] & _ & H).
  apply res_bind_Ok in H as ([off r2] & _ & H). apply res_bind_Ok in H as ([i r3] & _ & H).
  apply res_bind_Ok in H as (r4 & _ & H). apply res_bind_Ok in H as (sp & _ & H).
  destruct sp as [sp|]; [|done]. apply res_bind_Ok in H as (u & Hc & H).
  injection H as <- <-. simpl. apply check_padded_Ok in Hc. split; [done|]. split; [done|by apply padded_leb_in].
Qed.

Lemma parse_relocs_wf dec bytes ss code rs : parse_relocs dec bytes ss code = Ok rs →
  ∀ r, r ∈ rs → padded_leb code (r_offset r) ∧ r_index r = readUleb5 code (r_offset r) ∧ (ends_with_end code → (r_offset r + 4 < length code)%nat).
Proof.
  intros H. unfold parse_relocs in H. apply res_bind_Ok in H as (s & _ & H).
  apply res_bind_Ok in H as ([nm t1] & _ & H). apply res_bind_Ok in H as ([tg t2] & _ & H).
  apply res_bind_Ok in H as (u & _ & H). apply res_bind_Ok in H as ([xs t3] & H1 & H).
  injection H as <-. apply (rd_vec_Forall _ _ _ _ _ (rd_reloc_wf code)) in H1.
  intros r Hr. apply list_elem_of_omap in Hr as (x & Hx & E). rewrite Forall_forall in H1. by apply (H1 x).
Qed.

Lemma parse_code_wf bytes ss n code bodies : parse_code bytes ss n = Ok (code, bodies) →
  length bodies = n ∧ ∃ p, (0 < p)%nat ∧ tiles p bodies (length code).
Proof.
  intros H. unfold parse_code in H. apply res_bind_Ok in H as (s & _ & H).
  apply res_bind_Ok in H as ([c t1] & H1 & H). apply rd_uleb_pos in H1. simpl in H1.
  apply res_bind_Ok in H as (u & Hn & H). apply throw_if_Ok, negb_false_iff, Z.eqb_eq in Hn. subst c.
  apply res_bind_Ok in H as ([bs t2] & H2 & H). apply rd_times_tiles in H2 as [Hl Ht].
  apply res_bind_Ok in H as (u' & He & H). apply throw_if_Ok, negb_false_iff, Nat.eqb_eq in He.
  injection H as <- <-. rewrite Nat2Z.id in Hl. split; [done|]. exists (rd_pos t1). rewrite <- He. by split; [lia|].
Qed.

(** * Theorems *)

(** C23. Format check of the spliced engine: whatever bytes [parseEngine]
    accepts, the image has one body per declared function, the bodies tile the
    code payload exactly (each non-empty, back to back, to its last byte), and no
    type or global is outside i32, i64 and f64.  Every relocated immediate records
    the index its bytes encode: four continuation bytes inside the payload and a
    fifth that ends it.  The fifth is missing only where the payload stops right
    after the four, which the check lets through; a payload whose last byte ends a
    function body, as every well-formed one's does, holds all five. *)
Theorem parseEngine_wf dec bytes img : parseEngine dec bytes = Ok img → image_wf img.
Proof.
  unfold parseEngine. intros H.
  repeat match type of H with
  | res_bind ?m _ = Ok _ =>
      let a := fresh "a" in let Ha := fresh "P" in
      apply res_bind_Ok in H as (a & Ha & H);
      match type of a with (_ * _)%type => destruct a | _ => idtac end
  end.
  injection H as <-.
  match goal with Hc : parse_code _ _ _ = Ok _ |- _ => apply parse_code_wf in Hc as [Hl Ht] end.
  split; simpl; eauto using parse_relocs_wf, parse_types_mvp, parse_globals_mvp.
Qed.

(** A smallest engine: one function calling itself through a padded LEB. *)
Definition tiny_engine : list Z :=
  [0x00; 0x61; 0x73; 0x6d; 0x01; 0x00; 0x00; 0x00] ++
  [1; 4; 1; 0x60; 0; 0] ++ [3; 2; 1; 0] ++ [4; 4; 1; 0x70; 0; 1] ++ [5; 3; 1; 0; 1] ++
  [9; 7; 1; 0; 0x41; 1; 0x0b; 1; 0] ++
  [10; 10; 1; 8; 0; 0x10; 0x80; 0x80; 0x80; 0x80; 0; 0x0b] ++
  [0; 16; 10] ++ js_of_string "reloc.CODE" ++ [5; 1; 0; 4; 0].

Definition tiny_image : EngineImage :=
  mkImage [([], [])] [] [0] 1 None 1 [] ∅ [0x41; 1] [0]
    [1; 8; 0; 0x10; 0x80; 0x80; 0x80; 0x80; 0; 0x0b] [(1%nat, 10%nat)] [mkReloc RFunc 4 0] [] ∅.

(** An image whose one immediate stops at the end of the payload is accepted. *)
Example missing_fifth_byte : is_ok (parseEngine (λ b, b) (
  [0x00; 0x61; 0x73; 0x6d; 0x01; 0x00; 0x00; 0x00] ++
  [1; 4; 1; 0x60; 0; 0] ++ [3; 2; 1; 0] ++ [4; 4; 1; 0x70; 0; 1] ++ [5; 3; 1; 0; 1] ++
  [9; 7; 1; 0; 0x41; 1; 0x0b; 1; 0] ++
  [10; 8; 1; 6; 0; 0x10; 0x80; 0x80; 0x80; 0x80] ++
  [0; 16; 10] ++ js_of_string "reloc.CODE" ++ [5; 1; 0; 4; 0])) = true.
Proof. vm_compute. reflexivity. Qed.

Lemma parseEngine_wf_witness :
  parseEngine (λ b, b) tiny_engine = Ok tiny_image ∧ image_wf tiny_image ∧ ends_with_end (img_code tiny_image).
Proof.
  assert (E : parseEngine (λ b, b) tiny_engine = Ok tiny_image) by (vm_compute; reflexivity).
  split; [exact E|]. split; [exact (parseEngine_wf (λ b, b) tiny_engine tiny_image E)|reflexivity].
Defined.
