(* ===== verification/TypeSpace.v ===== *)
(** * The type section of the module builder

    The type-index space of [ModuleBuilder]
    (src/packages/compiler/src/backend/wasm/module.ts): interning by key,
    reservations, recursive groups and spans, and the serialization of the type
    section.  Shown: the builder's invariant under every operation, that
    structural interning returns exactly the requested shape and identifies
    shapes exactly when they are equal, and that the emitted section decodes
    under the wasm binary grammar to the interned entries in legal recursive
    groups. *)

From Stdlib Require Import Ascii.
From S2P Require Import Prelude F64 Bytes WasmTypes.

Record TypeSpace := mkTS {
  types : list TypeEntry;
  typeIndex : gmap string Z;
  recStarts : gmap nat nat;
  recSpanStart : option nat;
  reservedTypes : list (Z * string)
}.

Definition ts_new : TypeSpace := mkTS [] ∅ ∅ None [].

Definition ts_count (t : TypeSpace) : Z := Z.of_nat (length (types t)).

(** [this.types.push(entry); this.typeIndex.set(key, index)] *)
Definition push_type (key : string) (e : TypeEntry) (t : TypeSpace) : TypeSpace :=
  mkTS (types t ++ [e]) (<[key := ts_count t]> (typeIndex t)) (recStarts t) (recSpanStart t) (reservedTypes t).

Definition internType (key : string) (e : TypeEntry) (t : TypeSpace) : Z * TypeSpace :=
  match typeIndex t !! key with
  | Some existing => (existing, t)
  | None => (ts_count t, push_type key e t)
  end.

Definition func_key (params results : list ValType) : string :=
  "f:" +:+ join_sep "," (map valTypeKey params) +:+ "->" +:+ join_sep "," (map valTypeKey results).
Definition mut_key (m : bool) : string := if m then "m" else "c".
Definition array_key (elem : StorageType) (mutable : bool) : string :=
  "a:" +:+ storageKey elem +:+ ":" +:+ mut_key mutable.
Definition field_key (f : FieldType) : string := storageKey (f_storage f) +:+ ":" +:+ mut_key (f_mutable f).
Definition struct_key (fields : list FieldType) : string := "s:" +:+ join_sep "," (map field_key fields).

Definition funcType (params results : list ValType) : TypeSpace → Z * TypeSpace :=
  internType (func_key params results) (mkEntry (TFunc params results) None).
Definition arrayType (elem : StorageType) (mutable : bool) : TypeSpace → Z * TypeSpace :=
  internType (array_key elem mutable) (mkEntry (TArray elem mutable) None).
Definition structType (fields : list FieldType) : TypeSpace → Z * TypeSpace :=
  internType (struct_key fields) (mkEntry (TStruct fields) None).

Definition subStructType (key : string) (fields : list FieldType) (superIdx : Z) (t : TypeSpace) : Z * TypeSpace :=
  match typeIndex t !! key with
  | Some existing => (existing, t)
  | None => (ts_count t, push_type key (mkEntry (TStruct fields) (Some (mkSub [superIdx] true))) t)
  end.

Definition openStructType (key : string) (fields : list FieldType) (t : TypeSpace) : Z * TypeSpace :=
  match typeIndex t !! key with
  | Some existing => (existing, t)
  | None => (ts_count t, push_type key (mkEntry (TStruct fields) (Some (mkSub [] false))) t)
  end.

(** [make] is the caller's code: it sees the builder. *)
Definition selfStructType (key : string) (make : Z → TypeSpace → list FieldType * TypeSpace)
    (t : TypeSpace) : res (Z * TypeSpace) :=
  match typeIndex t !! key with
  | Some existing => Ok (existing, t)
  | None =>
      let index := ts_count t in
      let '(fields, t) := make index t in
      let* _ := throw_if (negb (ts_count t =? index)) ("selfStructType: make() interned a type") in
      Ok (index, mkTS (types t ++ [mkEntry (TStruct fields) None]) (<[key := index]> (typeIndex t))
                   (recStarts t) (recSpanStart t) (reservedTypes t))
  end.

Definition recGroup2 (key : string) (make : Z → TypeSpace → (TypeEntry * TypeEntry) * TypeSpace)
    (t : TypeSpace) : Z * TypeSpace :=
  match typeIndex t !! key with
  | Some existing => (existing, t)
  | None =>
      let base := length (types t) in
      let '((a, b), t) := make (Z.of_nat base) t in
      (Z.of_nat base,
       mkTS (types t ++ [a; b]) (<[key := Z.of_nat base]> (typeIndex t)) (<[base := 2%nat]> (recStarts t))
         (recSpanStart t) (reservedTypes t))
  end.

Definition beginRecGroup (t : TypeSpace) : res TypeSpace :=
  match recSpanStart t with
  | Some _ => Throw "beginRecGroup inside an open rec group"
  | None => Ok (mkTS (types t) (typeIndex t) (recStarts t) (Some (length (types t))) (reservedTypes t))
  end.

Definition endRecGroup (t : TypeSpace) : res TypeSpace :=
  match recSpanStart t with
  | None => Throw "endRecGroup with no open rec group"
  | Some start =>
      let* _ := throw_if (negb (bool_decide (reservedTypes t = []))) "endRecGroup with type(s) reserved but never defined" in
      let recStarts' := if decide (start < length (types t))%nat
                        then <[start := (length (types t) - start)%nat]> (recStarts t) else recStarts t in
      Ok (mkTS (types t) (typeIndex t) recStarts' None (reservedTypes t))
  end.

Definition reserveType (key : string) (t : TypeSpace) : res (Z * TypeSpace) :=
  match recSpanStart t with
  | None => Throw "reserveType outside a rec group"
  | Some _ =>
      match typeIndex t !! key with
      | Some existing => Ok (existing, t)
      | None =>
          let index := ts_count t in
          Ok (index, mkTS (types t ++ [mkEntry (TStruct []) None]) (<[key := index]> (typeIndex t))
                       (recStarts t) (recSpanStart t) (reservedTypes t ++ [(index, key)]))
      end
  end.

Definition is_reserved (index : Z) (t : TypeSpace) : bool :=
  existsb (λ p, fst p =? index) (reservedTypes t).

Definition defineType (index : Z) (e : TypeEntry) (t : TypeSpace) : res TypeSpace :=
  match recSpanStart t with
  | None => Throw "defineType outside a rec group"
  | Some _ =>
      let* _ := throw_if (negb (is_reserved index t)) "defineType on an index that was not reserved (or is already defined)" in
      Ok (mkTS (<[Z.to_nat index := e]> (types t)) (typeIndex t) (recStarts t) (recSpanStart t)
            (filter (λ p, fst p ≠ index) (reservedTypes t)))
  end.

(** ** Serialization *)

Definition writeMut (m : bool) : step := pu8 (if m then 0x01 else 0x00).
Definition writeField (f : FieldType) : step := steps [writeStorage (f_storage f); writeMut (f_mutable f)].

Definition writeComptype (e : TypeShape) : step :=
  match e with
  | TFunc params results =>
      steps [pu8 0x60; uleb (Z.of_nat (length params)); res_fold writeValType params;
             uleb (Z.of_nat (length results)); res_fold writeValType results]
  | TArray elem mutable => steps [pu8 0x5e; writeStorage elem; writeMut mutable]
  | TStruct fields => steps [pu8 0x5f; uleb (Z.of_nat (length fields)); res_fold writeField fields]
  end.

Definition writeSubtype (e : TypeEntry) : step :=
  steps [match te_sub e with
         | Some sub => steps [pu8 (if s_final sub then 0x4f else 0x50); uleb (Z.of_nat (length (s_supers sub)));
                              res_fold uleb (s_supers sub)]
         | None => λ w, Ok w
         end;
         writeComptype (te_shape e)].

(** [for (let i = 0; i < types.length; )]: the starts and sizes of the groups
    the section holds; a turn advances by a group, so a turn per type is enough. *)
Fixpoint walk_groups (fuel : nat) (R : gmap nat nat) (i n : nat) : list (nat * option nat) :=
  match fuel with
  | O => []
  | S fuel' =>
      if decide (i < n)%nat
      then (i, R !! i) :: walk_groups fuel' R (i + default 1%nat (R !! i)) n
      else []
  end.

Definition section_groups (t : TypeSpace) : list (nat * option nat) :=
  walk_groups (length (types t)) (recStarts t) 0 (length (types t)).

(** [this.types[i]!]: an absent entry makes [writeSubtype] throw. *)
Definition writeTypeAt (t : TypeSpace) (i : nat) : step :=
  match types t !! i with Some e => writeSubtype e | None => λ _, Throw "Cannot read properties of undefined" end.

Definition writeGroup (t : TypeSpace) (g : nat * option nat) : step :=
  match g with
  | (i, Some size) => steps [pu8 0x4e; uleb (Z.of_nat size); res_fold (λ k, writeTypeAt t (i + k)) (seq 0 size)]
  | (i, None) => writeTypeAt t i
  end.

Definition writeTypeSection (t : TypeSpace) : step :=
  section 1 (steps [uleb (Z.of_nat (length (section_groups t))); res_fold (writeGroup t) (section_groups t)]).

(** * Interning keys are injective *)

Fixpoint lacks (c : ascii) (s : string) : bool :=
  match s with EmptyString => true | String d s' => negb (Ascii.eqb c d) && lacks c s' end.

Lemma lacks_app c a b : lacks c (a +:+ b) = lacks c a && lacks c b.
Proof. induction a as [|d a IH]; simpl; [done|]. by rewrite IH, andb_assoc. Qed.

Lemma lacks_split c a b r r' : lacks c a = true → lacks c b = true →
  a +:+ String c r = b +:+ String c r' → a = b ∧ r = r'.
Proof.
  revert b. induction a as [|d a IH]; intros [|d' b] Ha Hb E; simpl in *.
  all: first [injection E as Ec E | injection E as E].
  - by rewrite E.
  - subst. by rewrite Ascii.eqb_refl in Hb.
  - subst. by rewrite Ascii.eqb_refl in Ha.
  - apply andb_true_iff in Ha as [_ Ha], Hb as [_ Hb]. destruct (IH b Ha Hb E) as [-> ->]. by subst.
Qed.

Lemma app_two_inj x y c1 c2 d1 d2 :
  x +:+ String c1 (String c2 "") = y +:+ String d1 (String d2 "") → x = y ∧ c1 = d1 ∧ c2 = d2.
Proof.
  revert y. induction x as [|c x IH]; intros [|d y] E; simpl in E.
  - by simplify_eq.
  - injection E as _ E. destruct y as [|? [|]]; discriminate E.
  - injection E as _ E. destruct x as [|? [|]]; discriminate E.
  - injection E as Ec E. by destruct (IH y E) as (-> & -> & ->); subst.
Qed.

Lemma lacks_join c xs : c ≠ ","%char → Forall (λ x, lacks c x = true) xs → lacks c (join_sep "," xs) = true.
Proof.
  intros Hc. induction 1 as [|x xs Hx Hxs IH]; [done|]. destruct xs as [|y xs]; [done|].
  change (join_sep "," (x :: y :: xs)) with (x +:+ "," +:+ join_sep "," (y :: xs)).
  rewrite !lacks_app, Hx, IH. simpl. destruct (Ascii.eqb_spec c ","); done.
Qed.

Lemma join_inj xs ys :
  Forall (λ x, lacks "," x = true ∧ x ≠ "") xs → Forall (λ x, lacks "," x = true ∧ x ≠ "") ys →
  join_sep "," xs = join_sep "," ys → xs = ys.
Proof.
  intros Hxs. revert ys. induction Hxs as [|x xs [Hx Hx0] Hxs IH]; intros ys Hys E.
  - destruct Hys as [|y ys [_ Hy] Hys]; [done|]. destruct ys; simpl in E; [done|]. by destruct y.
  - destruct Hys as [|y ys [Hy Hy0] Hys].
    { destruct xs; [done|]. by destruct x. }
    destruct xs as [|x' xs], ys as [|y' ys]; simpl in E.
    + by subst.
    + subst x. rewrite lacks_app in Hx. apply andb_true_iff in Hx as [_ Hx]. done.
    + subst y. rewrite lacks_app in Hy. apply andb_true_iff in Hy as [_ Hy]. done.
    + apply lacks_split in E as [-> E]; [|done..]. f_equal. by apply IH.
Qed.

Lemma lacks_pretty_N_go c x s : lacks c "0123456789" = true → lacks c s = true → lacks c (pretty_N_go x s) = true.
Proof.
  intros Hc. revert s. induction (N.lt_wf_0 x) as [x _ IH]; intros s Hs.
  assert (x = 0 ∨ 0 < x)%N as [->|Hx] by lia; [by rewrite pretty_N_go_0|].
  rewrite pretty_N_go_step by done. apply IH; [apply N.div_lt; lia|].
  simpl in *. rewrite Hs, andb_true_r. rewrite !andb_true_iff in Hc.
  unfold pretty_N_char. repeat (match goal with |- context [match ?x with _ => _ end] => destruct x end); apply Hc.
Qed.

Lemma lacks_pretty c i : lacks c "0123456789" = true → 0 <= i → lacks c (pretty i) = true.
Proof.
  intros Hc Hi. destruct i as [|p|p]; [|exact (lacks_pretty_N_go c (N.pos p) "" Hc eq_refl)|lia].
  simpl in *. apply andb_true_iff in Hc as [Hc _]. by rewrite Hc.
Qed.

(** Shapes whose type indices are indices. *)
Definition valtype_nonneg (t : ValType) : Prop := match t with VRef _ i => 0 <= i | _ => True end.
Definition storage_nonneg (s : StorageType) : Prop := match s with SVal t => valtype_nonneg t | _ => True end.
Definition shape_nonneg (sh : TypeShape) : Prop :=
  match sh with
  | TFunc ps rs => Forall valtype_nonneg ps ∧ Forall valtype_nonneg rs
  | TArray e _ => storage_nonneg e
  | TStruct fs => Forall (λ f, storage_nonneg (f_storage f)) fs
  end.

Lemma lacks_valTypeKey c t : c ∈ [","; "-"]%char → valtype_nonneg t → lacks c (valTypeKey t) = true.
Proof.
  intros Hc Ht. assert (c = ","%char ∨ c = "-"%char) as Hc' by set_solver.
  destruct t as [| | |[] i]; simpl in Ht; unfold valTypeKey; rewrite ?lacks_app.
  all: destruct Hc' as [-> | ->]; rewrite ?lacks_pretty by (assumption || reflexivity); reflexivity.
Qed.

Lemma valTypeKey_ne t : valTypeKey t ≠ "".
Proof. by destruct t. Qed.

Lemma valTypeKey_inj t t' : valTypeKey t = valTypeKey t' → t = t'.
Proof.
  destruct t as [| | |[] i], t' as [| | |[] j]; simpl; intros E; try done; simplify_eq; done.
Qed.

Lemma storageKey_inj s s' : storageKey s = storageKey s' → s = s'.
Proof.
  destruct s as [| |[| | |[] ?]], s' as [| |[| | |[] ?]]; simpl; intros E; try done; simplify_eq; done.
Qed.

Lemma field_key_inj f f' : field_key f = field_key f' → f = f'.
Proof.
  destruct f as [s m], f' as [s' m']. unfold field_key; simpl. intros E.
  assert (s = s' ∧ m = m') as [-> ->]; [|done].
  destruct m, m'; apply app_two_inj in E as (E & _ & Em); try discriminate Em; by apply storageKey_inj in E.
Qed.

Lemma lacks_field_key f : storage_nonneg (f_storage f) → lacks "," (field_key f) = true ∧ field_key f ≠ "".
Proof.
  destruct f as [s m]. unfold field_key; simpl. intros Hs. split.
  - rewrite !lacks_app. apply andb_true_iff; split; [|by destruct m].
    destruct s as [| |t]; [done..|]. apply lacks_valTypeKey; [set_solver|done].
  - destruct s as [| |t]; simpl; [done..|]. by destruct t.
Qed.

Definition shape_key (sh : TypeShape) : string :=
  match sh with
  | TFunc ps rs => func_key ps rs
  | TArray e m => array_key e m
  | TStruct fs => struct_key fs
  end.

Lemma map_key_inj {A} (P : A → Prop) (key : A → string) xs ys :
  (∀ x y, key x = key y → x = y) → (∀ x, P x → lacks "," (key x) = true ∧ key x ≠ "") →
  Forall P xs → Forall P ys → join_sep "," (map key xs) = join_sep "," (map key ys) → xs = ys.
Proof.
  intros Hinj HP Hx Hy E. apply join_inj in E.
  - revert E. apply list_fmap_eq_inj. intros x y. apply Hinj.
  - rewrite Forall_map. eapply Forall_impl; eauto.
  - rewrite Forall_map. eapply Forall_impl; eauto.
Qed.

Lemma valtypes_key_inj xs ys : Forall valtype_nonneg xs → Forall valtype_nonneg ys →
  join_sep "," (map valTypeKey xs) = join_sep "," (map valTypeKey ys) → xs = ys.
Proof.
  apply map_key_inj; [apply valTypeKey_inj|]. intros x Hx. split; [|apply valTypeKey_ne].
  apply lacks_valTypeKey; [set_solver|done].
Qed.

Lemma lacks_valtypes c xs : c ∈ [","; "-"]%char → c ≠ ","%char → Forall valtype_nonneg xs →
  lacks c (join_sep "," (map valTypeKey xs)) = true.
Proof.
  intros Hc Hc' Hxs. apply lacks_join; [done|]. rewrite Forall_map. eapply Forall_impl; [done|].
  intros x Hx. by apply lacks_valTypeKey.
Qed.

Lemma shape_key_inj sh sh' : shape_nonneg sh → shape_nonneg sh' → shape_key sh = shape_key sh' → sh = sh'.
Proof.
  destruct sh as [ps rs|e m|fs], sh' as [ps' rs'|e' m'|fs']; intros H H' E; try discriminate E; simpl in *.
  - destruct H as [Hp Hr], H' as [Hp' Hr']. unfold func_key in E. simpl in E. injection E as E.
    apply (lacks_split "-") in E as [E1 E2]; [|apply lacks_valtypes; set_solver..].
    injection E2 as E2. apply valtypes_key_inj in E1, E2; [|done..]. by subst.
  - unfold array_key in E. simpl in E. injection E as E.
    assert (mkField e m = mkField e' m') as [= -> ->]; [|done]. by apply field_key_inj.
  - unfold struct_key in E. simpl in E. injection E as E. f_equal. revert E.
    apply (map_key_inj (λ f, storage_nonneg (f_storage f))); [apply field_key_inj|apply lacks_field_key|done..].
Qed.

(** * The builder's invariant *)

Definition valtype_refs (t : ValType) : list Z := match t with VRef _ i => [i] | _ => [] end.
Definition storage_refs (s : StorageType) : list Z := match s with SVal t => valtype_refs t | _ => [] end.
Definition shape_refs (sh : TypeShape) : list Z :=
  match sh with
  | TFunc ps rs => flat_map valtype_refs ps ++ flat_map valtype_refs rs
  | TArray e _ => storage_refs e
  | TStruct fs => flat_map (λ f, storage_refs (f_storage f)) fs
  end.
Definition entry_refs (e : TypeEntry) : list Z :=
  match te_sub e with Some sub => s_supers sub | None => [] end ++ shape_refs (te_shape e).

(** Every type index of [e] is an index below [n]. *)
Definition below (n : nat) (e : TypeEntry) : Prop := Forall (λ i, 0 <= i < Z.of_nat n) (entry_refs e).

Lemma below_mono n m e : (n <= m)%nat → below n e → below m e.
Proof. intros Hn H. apply (Forall_impl _ _ _ H). simpl. lia. Qed.

(** [legal R ts i gs j]: the entries from [i] to [j] fall into the groups [gs]
    (a plain entry, or an explicit group) that [R] records, and each entry
    refers only to indices below the end of its own group. *)
Definition is_slice (ts : list TypeEntry) (i : nat) (es : list TypeEntry) : Prop :=
  ∀ k, (k < length es)%nat → ts !! (i + k)%nat = es !! k.

Inductive legal (R : gmap nat nat) (ts : list TypeEntry) : nat → list (bool * list TypeEntry) → nat → Prop :=
  | legal_nil i : legal R ts i [] i
  | legal_one i e gs j :
      R !! i = None → ts !! i = Some e → below (S i) e → legal R ts (S i) gs j →
      legal R ts i ((false, [e]) :: gs) j
  | legal_group i n es gs j :
      R !! i = Some n → n = length es → (0 < n)%nat → is_slice ts i es → Forall (below (i + n)) es →
      legal R ts (i + n) gs j → legal R ts i ((true, es) :: gs) j.

Lemma legal_le R ts i gs j : legal R ts i gs j → (i <= j)%nat.
Proof. induction 1; lia. Qed.

(** Later entries and later group starts do not disturb earlier groups. *)
Lemma legal_stable R R' ts ts' i gs j :
  (∀ k, (i <= k < j)%nat → R' !! k = R !! k) → (∀ k, (k < j)%nat → ts' !! k = ts !! k) →
  legal R ts i gs j → legal R' ts' i gs j.
Proof.
  intros HR Hts H. induction H as [|i e gs j ? ? ? H IH|i n es gs j ? -> ? Hs ? H IH]; [constructor|..];
    pose proof (legal_le _ _ _ _ _ H).
  - constructor; [rewrite HR by lia; done|rewrite Hts by lia; done|done|]. apply IH; [intros; apply HR; lia|done].
  - econstructor; [rewrite HR by lia; done|done|done| |done|]; [|apply IH; [intros; apply HR; lia|done]].
    intros k Hk. rewrite Hts by lia. auto.
Qed.

Lemma legal_app R ts i gs j gs' l : legal R ts i gs j → legal R ts j gs' l → legal R ts i (gs ++ gs') l.
Proof. induction 1; intros Hl; simpl; [done|econstructor; eauto..]. Qed.

Lemma is_slice_app ts es : is_slice (ts ++ es) (length ts) es.
Proof. intros k Hk. by rewrite lookup_app_r, Nat.add_sub' by lia. Qed.

Lemma is_slice_drop ts i : (i <= length ts)%nat → is_slice ts i (drop i ts).
Proof. intros Hi k _. by rewrite lookup_drop. Qed.

(** The end of the entries whose groups are settled. *)
Definition closed (t : TypeSpace) : nat := default (length (types t)) (recSpanStart t).

(** Keys the structural interners own; every other key is a caller's. *)
Definition caller_key (k : string) : Prop :=
  String.prefix "f:" k = false ∧ String.prefix "a:" k = false ∧ String.prefix "s:" k = false.

Lemma shape_key_not_caller sh : ¬ caller_key (shape_key sh).
Proof.
  destruct sh; intros (H1 & H2 & H3); simpl in *;
    match goal with H : String.prefix "" ?s = false |- _ => by destruct s end.
Qed.

Record ts_wf (t : TypeSpace) : Prop := {
  wf_index k i : typeIndex t !! k = Some i → 0 <= i < ts_count t;
  wf_index_inj k k' i : typeIndex t !! k = Some i → typeIndex t !! k' = Some i → k = k';
  wf_recs s n : recStarts t !! s = Some n → (0 < n)%nat ∧ (s + n <= length (types t))%nat;
  wf_closed : (closed t <= length (types t))%nat;
  wf_groups : ∃ gs, legal (recStarts t) (types t) 0 gs (closed t);
  wf_open i e : (closed t <= i)%nat → types t !! i = Some e → below (length (types t)) e;
  wf_reserved i k : (i, k) ∈ reservedTypes t →
    caller_key k ∧ typeIndex t !! k = Some i ∧ ∃ s, recSpanStart t = Some s ∧ Z.of_nat s <= i;
  wf_struct sh i : shape_nonneg sh → typeIndex t !! shape_key sh = Some i →
    types t !! Z.to_nat i = Some (mkEntry sh None)
}.

Lemma ts_new_wf : ts_wf ts_new.
Proof.
  split; unfold ts_new; simpl; try done; try (intros *; rewrite lookup_empty; done).
  - exists []. constructor.
  - intros i k H. by apply not_elem_of_nil in H.
Qed.

Lemma valtype_refs_nonneg t : Forall (λ i, 0 <= i) (valtype_refs t) → valtype_nonneg t.
Proof. destruct t; simpl; try done. intros H. by inversion_clear H. Qed.

Lemma storage_refs_nonneg s : Forall (λ i, 0 <= i) (storage_refs s) → storage_nonneg s.
Proof. destruct s; try done. apply valtype_refs_nonneg. Qed.

Lemma flat_refs_nonneg {A} (refs : A → list Z) (P : A → Prop) xs :
  (∀ x, Forall (λ i, 0 <= i) (refs x) → P x) → Forall (λ i, 0 <= i) (flat_map refs xs) → Forall P xs.
Proof.
  intros HP. induction xs as [|x xs IH]; simpl; intros H; [constructor|].
  apply Forall_app in H as [H1 H2]. auto.
Qed.

Lemma below_nonneg n sh : below n (mkEntry sh None) → shape_nonneg sh.
Proof.
  intros H. assert (H' : Forall (λ i, 0 <= i) (shape_refs sh)) by (apply (Forall_impl _ _ _ H); simpl; lia).
  destruct sh as [ps rs|el m|fs]; simpl in *.
  - apply Forall_app in H' as [H1 H2]. split; by apply (flat_refs_nonneg valtype_refs _ _ valtype_refs_nonneg).
  - by apply storage_refs_nonneg.
  - by apply (flat_refs_nonneg (λ f, storage_refs (f_storage f)) _ _ (λ f, storage_refs_nonneg (f_storage f))).
Qed.

(** Appending entries under a fresh key. *)
Lemma extend_wf t es key R' res' :
  ts_wf t → typeIndex t !! key = None → es ≠ [] →
  (∀ s, (s < length (types t))%nat → R' !! s = recStarts t !! s) →
  (∀ s n, (length (types t) <= s)%nat → R' !! s = Some n →
    (0 < n)%nat ∧ (s + n <= length (types t) + length es)%nat) →
  Forall (below (length (types t) + length es)) es →
  (recSpanStart t = None →
    ∃ gs, legal R' (types t ++ es) (length (types t)) gs (length (types t) + length es)) →
  (∀ sh, shape_nonneg sh → shape_key sh = key → ∃ r, es = mkEntry sh None :: r) →
  (res' = reservedTypes t ∨
   caller_key key ∧ is_Some (recSpanStart t) ∧ res' = reservedTypes t ++ [(ts_count t, key)]) →
  ts_wf (mkTS (types t ++ es) (<[key := ts_count t]> (typeIndex t)) R' (recSpanStart t) res').
Proof.
  intros W Hk Hes HR1 HR2 Hb Hg Hst Hres.
  assert (Hlen : (0 < length es)%nat) by (destruct es; [done|simpl; lia]).
  destruct W as [Wi Winj Wr Wc [gs Wg] Wo Wres Wst]. unfold ts_count, closed in *; simpl in *.
  split; unfold ts_count, closed; simpl; rewrite ?length_app.
  - intros k i H. apply lookup_insert_Some in H as [[_ <-]|[_ H]]; [lia|]. apply Wi in H. lia.
  - intros k k' i H H'. apply lookup_insert_Some in H as [[<- E]|[_ H]], H' as [[<- E']|[_ H']]; [done|..].
    + subst i. apply Wi in H'. lia.
    + subst i. apply Wi in H. lia.
    + eauto.
  - intros s n H. destruct (decide (s < length (types t))%nat) as [Hs|Hs].
    + rewrite HR1 in H by done. apply Wr in H. lia.
    + apply HR2 in H; lia.
  - destruct (recSpanStart t); simpl in *; lia.
  - assert (Hg' : legal R' (types t ++ es) 0 gs (default (length (types t)) (recSpanStart t))).
    { eapply legal_stable; [| |exact Wg].
      - intros k Hk'. apply HR1. lia.
      - intros k Hk'. apply lookup_app_l. lia. }
    destruct (recSpanStart t) as [s|] eqn:E; simpl in *; [by exists gs|].
    destruct (Hg eq_refl) as [gs' Hg'']. exists (gs ++ gs'). eapply legal_app; done.
  - intros i e Hi He. apply lookup_app_Some in He as [He|[Hl He]].
    + apply below_mono with (length (types t)); [lia|].
      destruct (recSpanStart t) as [s|] eqn:E; simpl in *; [by eapply Wo|].
      apply lookup_lt_Some in He. lia.
    + rewrite Forall_forall in Hb. apply Hb. by apply list_elem_of_lookup_2 in He.
  - intros i k H. assert (H' : (i, k) ∈ reservedTypes t ∨
        caller_key key ∧ is_Some (recSpanStart t) ∧ (i, k) = (Z.of_nat (length (types t)), key)).
    { destruct Hres as [->|(? & ? & ->)]; [by left|]. apply elem_of_app in H as [H|H]; [by left|].
      apply list_elem_of_singleton in H. by right. }
    destruct H' as [H'|(Hc & [s Hs] & [= -> ->])].
    + apply Wres in H' as (? & H1 & ?). split_and!; [done| |done]. rewrite lookup_insert_ne by congruence. done.
    + split_and!; [done|by rewrite lookup_insert_eq|]. exists s. rewrite Hs in *. simpl in *. split; [done|lia].
  - intros sh i Hsh H. apply lookup_insert_Some in H as [[E <-]|[_ H]].
    + destruct (Hst sh Hsh (eq_sym E)) as (r & ->). rewrite Nat2Z.id, lookup_app_r, Nat.sub_diag by lia. done.
    + pose proof (Wi _ _ H). rewrite lookup_app_l by lia. auto.
Qed.

Lemma push_type_wf t key e :
  ts_wf t → typeIndex t !! key = None → below (S (length (types t))) e →
  (∀ sh, shape_nonneg sh → shape_key sh = key → e = mkEntry sh None) →
  ts_wf (push_type key e t).
Proof.
  intros W Hk Hb Hst. apply extend_wf; simpl; try done; auto.
  - intros s n Hs H. destruct (wf_recs t W s n H). lia.
  - constructor; [by rewrite Nat.add_1_r|constructor].
  - intros E. exists [(false, [e])]. rewrite Nat.add_1_r. apply legal_one.
    + destruct (recStarts t !! length (types t)) eqn:E'; [|done]. apply (wf_recs t W) in E'. lia.
    + by rewrite lookup_app_r, Nat.sub_diag by lia.
    + done.
    + constructor.
  - intros sh Hn Hsh. rewrite (Hst sh Hn Hsh). eauto.
Qed.

Lemma internType_wf t key e :
  ts_wf t → below (S (length (types t))) e →
  (∀ sh, shape_nonneg sh → shape_key sh = key → e = mkEntry sh None) →
  ts_wf (internType key e t).2.
Proof. unfold internType. intros. destruct (typeIndex t !! key) eqn:E; [done|]. by apply push_type_wf. Qed.

Lemma caller_key_shape key (P : Prop) sh : caller_key key → shape_key sh = key → P.
Proof. intros Hc <-. by destruct (shape_key_not_caller sh). Qed.

Lemma endRecGroup_wf t t' : ts_wf t → endRecGroup t = Ok t' → ts_wf t'.
Proof.
  intros W H. unfold endRecGroup in H. destruct (recSpanStart t) as [s|] eqn:Es; [|done].
  apply res_bind_Ok in H as (u & Hr & H). apply throw_if_Ok, negb_false_iff, bool_decide_eq_true in Hr.
  injection H as <-. destruct W as [Wi Winj Wr Wc [gs Wg] Wo Wres Wst].
  unfold closed in *. rewrite Es in *. simpl in *.
  split; unfold ts_count, closed in *; simpl; eauto.
  - intros k n H. case_decide; [|eauto]. apply lookup_insert_Some in H as [[<- <-]|[_ H]]; [lia|eauto].
  - case_decide as Hd.
    + exists (gs ++ [(true, drop s (types t))]). eapply legal_app.
      * eapply legal_stable; [| |exact Wg]; [|done]. intros k Hk. apply lookup_insert_ne. lia.
      * assert (Hj : (s + (length (types t) - s))%nat = length (types t)) by lia.
        apply legal_group with (length (types t) - s)%nat;
          [apply lookup_insert_eq|by rewrite length_drop|lia|by apply is_slice_drop| |rewrite Hj; constructor].
        rewrite Hj. apply Forall_lookup. intros i e He. rewrite lookup_drop in He. apply (Wo (s + i)%nat); [lia|done].
    + exists gs. by replace (length (types t)) with s by lia.
  - intros i e Hi He. apply lookup_lt_Some in He. lia.
  - rewrite Hr. intros i k H. by apply not_elem_of_nil in H.
Qed.

Lemma defineType_wf t t' i e :
  ts_wf t → below (length (types t)) e → defineType i e t = Ok t' → ts_wf t'.
Proof.
  intros W He H. unfold defineType in H. destruct (recSpanStart t) as [s|] eqn:Es; [|done].
  apply res_bind_Ok in H as (u & Hr & H). apply throw_if_Ok, negb_false_iff in Hr. injection H as <-.
  apply existsb_exists in Hr as ([i' k] & Hin & E). apply Z.eqb_eq in E. simpl in E. subst i'.
  apply list_elem_of_In in Hin.
  destruct W as [Wi Winj Wr Wc [gs Wg] Wo Wres Wst].
  destruct (Wres i k Hin) as (Hck & Hk & s' & Hs & Hle). rewrite Es in Hs. injection Hs as <-.
  pose proof (Wi _ _ Hk) as Hi. unfold closed, ts_count in *. rewrite Es in *. simpl in *.
  split; unfold ts_count, closed; simpl; rewrite ?length_insert; eauto.
  - exists gs. eapply legal_stable; [| |exact Wg]; [done|]. intros k' Hk'. apply list_lookup_insert_ne. lia.
  - intros j e' Hj H. apply list_lookup_insert_Some in H as [(_ & <- & _)|[_ H]]; eauto.
  - intros j k' H. apply list_elem_of_filter in H as [Hne H]. apply Wres in H as (? & ? & s' & Hs & ?).
    rewrite ?Es in *. split_and!; eauto.
  - intros sh j Hn H. rewrite list_lookup_insert_ne; [auto|]. intros E. apply (shape_key_not_caller sh).
    assert (i = j) as <- by (pose proof (Wi _ _ H); lia). by rewrite (Winj _ _ _ H Hk).
Qed.

(** One call on the type space, with the caller's obligations: type indices
    the builder has handed out, keys outside the structural name space, and
    [make] callbacks that do not touch the builder. *)
Inductive ts_step : TypeSpace → TypeSpace → Prop :=
  | step_intern sh t :
      below (length (types t)) (mkEntry sh None) →
      ts_step t (internType (shape_key sh) (mkEntry sh None) t).2
  | step_sub key fields super t :
      caller_key key → below (length (types t)) (mkEntry (TStruct fields) (Some (mkSub [super] true))) →
      ts_step t (subStructType key fields super t).2
  | step_open key fields t :
      caller_key key → below (length (types t)) (mkEntry (TStruct fields) (Some (mkSub [] false))) →
      ts_step t (openStructType key fields t).2
  | step_self key make t i t' :
      caller_key key → (∀ j u, (make j u).2 = u) →
      below (S (length (types t))) (mkEntry (TStruct (make (ts_count t) t).1) None) →
      selfStructType key make t = Ok (i, t') → ts_step t t'
  | step_pair key make t :
      caller_key key → (∀ j u, (make j u).2 = u) →
      below (2 + length (types t)) (make (ts_count t) t).1.1 →
      below (2 + length (types t)) (make (ts_count t) t).1.2 →
      ts_step t (recGroup2 key make t).2
  | step_begin t t' : beginRecGroup t = Ok t' → ts_step t t'
  | step_end t t' : endRecGroup t = Ok t' → ts_step t t'
  | step_reserve key t i t' : caller_key key → reserveType key t = Ok (i, t') → ts_step t t'
  | step_define i e t t' : below (length (types t)) e → defineType i e t = Ok t' → ts_step t t'.

Inductive ts_steps : TypeSpace → TypeSpace → Prop :=
  | ts_refl t : ts_steps t t
  | ts_trans t1 t2 t3 : ts_steps t1 t2 → ts_step t2 t3 → ts_steps t1 t3.

Lemma ts_step_wf t t' : ts_wf t → ts_step t t' → ts_wf t'.
Proof.
  intros W H. destruct H as [sh t Hb|key fields super t Hc Hb|key fields t Hc Hb|key make t i t' Hc Hp Hb E
    |key make t Hc Hp Ha Hb|t t' E|t t' E|key t i t' Hc E|i e t t' Hb E].
  - apply internType_wf; [done|by apply below_mono with (2 := Hb); lia|].
    intros sh' Hn Hsh. f_equal. apply shape_key_inj; eauto using below_nonneg.
  - apply internType_wf; [done|by apply below_mono with (2 := Hb); lia|]. intros sh _ Hsh. by apply (caller_key_shape key _ sh).
  - apply internType_wf; [done|by apply below_mono with (2 := Hb); lia|]. intros sh _ Hsh. by apply (caller_key_shape key _ sh).
  - unfold selfStructType in E. destruct (typeIndex t !! key) eqn:Ek; [by injection E as <- <-|].
    specialize (Hp (ts_count t) t). destruct (make _ _) as [fields u]; simpl in *; subst u.
    rewrite Z.eqb_refl in E. injection E as <- <-. apply push_type_wf; [done..|]. intros sh _ Hsh. by apply (caller_key_shape key _ sh).
  - unfold recGroup2. destruct (typeIndex t !! key) eqn:Ek; [done|].
    unfold ts_count in *. specialize (Hp (Z.of_nat (length (types t))) t).
    destruct (make _ _) as [[a b] u]; simpl in *; subst u. apply extend_wf; simpl; auto.
    + intros s Hs. apply lookup_insert_ne. lia.
    + intros s n Hs H. apply lookup_insert_Some in H as [[<- <-]|[_ H]]; [lia|].
      apply (wf_recs t W) in H. lia.
    + rewrite Nat.add_comm. by repeat constructor.
    + intros _. exists [(true, [a; b])]. econstructor; [apply lookup_insert_eq|done|lia|apply is_slice_app| |constructor].
      rewrite Nat.add_comm. by repeat constructor.
    + intros sh _ Hsh. by apply (caller_key_shape key _ sh).
  - unfold beginRecGroup in E. destruct (recSpanStart t) as [|] eqn:Es; [done|]. injection E as <-.
    destruct W as [Wi Winj Wr Wc Wg Wo Wres Wst]. unfold closed in *. rewrite Es in *. simpl in *.
    split; unfold closed; simpl; eauto.
    intros i k H. by destruct (Wres i k H) as (_ & _ & s & E & _).
  - by apply endRecGroup_wf in E.
  - unfold reserveType in E. destruct (recSpanStart t) as [s|] eqn:Es; [|done].
    destruct (typeIndex t !! key) eqn:Ek; [by injection E as <- <-|]. injection E as <- <-. rewrite <- Es.
    apply extend_wf; simpl; auto.
    + intros s' n Hs H. destruct (wf_recs t W s' n H). lia.
    + repeat constructor.
    + by rewrite Es.
    + intros sh _ Hsh. by apply (caller_key_shape key _ sh).
  - by apply defineType_wf in E.
Qed.

Lemma ts_steps_wf t t' : ts_wf t → ts_steps t t' → ts_wf t'.
Proof. intros W. induction 1; eauto using ts_step_wf. Qed.

(** A key keeps the index it was given. *)
Lemma ts_step_index t t' k i : ts_step t t' → typeIndex t !! k = Some i → typeIndex t' !! k = Some i.
Proof.
  intros H Hk.
  assert (Hins : ∀ key j, typeIndex t !! key = None → <[key := j]> (typeIndex t) !! k = Some i).
  { intros key j Hn. rewrite lookup_insert_ne; congruence. }
  destruct H as [sh t Hb|key fields super t Hc Hb|key fields t Hc Hb|key make t j t' Hc Hp Hb E
    |key make t Hc Hp Ha Hb|t t' E|t t' E|key t j t' Hc E|j e t t' Hb E].
  - unfold internType. case_match; simpl; auto.
  - unfold subStructType. case_match; simpl; auto.
  - unfold openStructType. case_match; simpl; auto.
  - unfold selfStructType in E. destruct (typeIndex t !! key) eqn:Ek; [by injection E as <- <-|].
    specialize (Hp (ts_count t) t). destruct (make _ _) as [fields u]; simpl in *; subst u.
    rewrite Z.eqb_refl in E. injection E as <- <-. simpl. auto.
  - unfold recGroup2. destruct (typeIndex t !! key) eqn:Ek; [done|].
    specialize (Hp (Z.of_nat (length (types t))) t). destruct (make _ _) as [[a b] u]; simpl in *; subst u. auto.
  - unfold beginRecGroup in E. case_match; [done|]. by injection E as <-.
  - unfold endRecGroup in E. case_match; [|done]. apply res_bind_Ok in E as (? & _ & E). by injection E as <-.
  - unfold reserveType in E. destruct (recSpanStart t); [|done].
    destruct (typeIndex t !! key) eqn:Ek; [by injection E as <- <-|]. injection E as <- <-. simpl. auto.
  - unfold defineType in E. case_match; [|done]. apply res_bind_Ok in E as (? & _ & E). by injection E as <-.
Qed.

Lemma ts_steps_index t t' k i : ts_steps t t' → typeIndex t !! k = Some i → typeIndex t' !! k = Some i.
Proof. induction 1; eauto using ts_step_index. Qed.

(** * The emitted section *)

Definition mut_spec (m : bool) : list Z := [if m then 1 else 0].
Definition field_spec (f : FieldType) : list Z := storage_spec (f_storage f) ++ mut_spec (f_mutable f).
Definition comptype_spec (sh : TypeShape) : list Z :=
  match sh with
  | TFunc ps rs => [0x60] ++ vec_spec valtype_spec ps ++ vec_spec valtype_spec rs
  | TArray e m => [0x5e] ++ storage_spec e ++ mut_spec m
  | TStruct fs => [0x5f] ++ vec_spec field_spec fs
  end.

Definition subtype_spec (e : TypeEntry) : list Z :=
  match te_sub e with
  | Some sub => [if s_final sub then 0x4f else 0x50] ++ vec_spec uleb_spec (s_supers sub)
  | None => []
  end ++ comptype_spec (te_shape e).

Definition group_spec (g : bool * list TypeEntry) : list Z :=
  if g.1 then [0x4e] ++ vec_spec subtype_spec g.2 else flat_map subtype_spec g.2.

Definition typesec_spec (gs : list (bool * list TypeEntry)) : list Z := vec_spec group_spec gs.

Definition field_fits (f : FieldType) : Prop := storage_fits (f_storage f).

Definition shape_fits (sh : TypeShape) : Prop :=
  match sh with
  | TFunc ps rs => (len_fits ps ∧ Forall valtype_fits ps) ∧ (len_fits rs ∧ Forall valtype_fits rs)
  | TArray e _ => storage_fits e
  | TStruct fs => len_fits fs ∧ Forall field_fits fs
  end.

Definition entry_fits (e : TypeEntry) : Prop :=
  match te_sub e with Some sub => len_fits (s_supers sub) ∧ Forall u32 (s_supers sub) | None => True end ∧
  shape_fits (te_shape e).

Definition group_fits (g : bool * list TypeEntry) : Prop :=
  (if g.1 then len_fits g.2 else True) ∧ Forall entry_fits g.2.

Lemma writes_mut m : writes (writeMut m) True (mut_spec m).
Proof. destruct m; apply writes_pu8; unfold byte; lia. Qed.

#[local] Hint Resolve writes_mut : writes.

Lemma writes_field f : writes (writeField f) (field_fits f) (field_spec f).
Proof. unfold writeField, field_spec, field_fits. writes_solve. Qed.
#[local] Hint Resolve writes_field : writes.

Lemma writes_comptype sh : writes (writeComptype sh) (shape_fits sh) (comptype_spec sh).
Proof. destruct sh as [ps rs|e m|fs]; simpl; writes_solve. Qed.
#[local] Hint Resolve writes_comptype : writes.

Lemma writes_sub sub :
  writes (steps [pu8 (if s_final sub then 0x4f else 0x50); uleb (Z.of_nat (length (s_supers sub)));
                 res_fold uleb (s_supers sub)])
    (len_fits (s_supers sub) ∧ Forall u32 (s_supers sub))
    ([if s_final sub then 0x4f else 0x50] ++ vec_spec uleb_spec (s_supers sub)).
Proof. destruct (s_final sub); writes_solve. Qed.

Lemma writes_subtype e : writes (writeSubtype e) (entry_fits e) (subtype_spec e).
Proof.
  unfold writeSubtype, subtype_spec, entry_fits. pose proof (writes_sub (default (mkSub [] true) (te_sub e))).
  pose proof (emits_writes _ _ emits_ret). destruct (te_sub e) as [sub|]; simpl in *; writes_solve.
Qed.
#[local] Hint Resolve writes_subtype : writes.

(** The walk visits exactly the legal groups. *)
Lemma walk_legal fuel t i gs n :
  legal (recStarts t) (types t) i gs n → (n - i <= fuel)%nat →
  Forall2 (λ '(s, o) '(b, es), is_slice (types t) s es ∧
    match o with Some m => b = true ∧ m = length es | None => b = false ∧ length es = 1%nat end)
    (walk_groups fuel (recStarts t) i n) gs.
Proof.
  intros H. revert fuel. induction H as [i|i e gs j HR He Hb H IH|i m es gs j HR -> Hm Hs Hb H IH]; intros fuel Hf.
  - destruct fuel; simpl; [constructor|]. rewrite decide_False by lia. constructor.
  - pose proof (legal_le _ _ _ _ _ H). destruct fuel as [|fuel]; [lia|]. simpl. rewrite decide_True, HR by lia.
    constructor; [|simpl; rewrite Nat.add_1_r; apply IH; lia]. split; [|done].
    intros [|k] Hk; simpl in *; [by rewrite Nat.add_0_r|lia].
  - pose proof (legal_le _ _ _ _ _ H). destruct fuel as [|fuel]; [lia|]. simpl. rewrite decide_True, HR by lia.
    constructor; [by split|]. simpl. apply IH. lia.
Qed.

Lemma fold_slice t i es s w :
  (∀ k, (k < length es)%nat → types t !! (i + (s + k))%nat = es !! k) →
  res_fold (λ k, writeTypeAt t (i + k)) (seq s (length es)) w = res_fold writeSubtype es w.
Proof.
  revert s w. induction es as [|e es IH]; intros s w H; [done|]. simpl.
  specialize (H 0%nat ltac:(simpl; lia)) as H0. rewrite Nat.add_0_r in H0. unfold writeTypeAt at 1. rewrite H0. simpl.
  destruct (writeSubtype e w) as [w1|]; [simpl|done]. apply IH. intros k Hk.
  specialize (H (S k) ltac:(simpl; lia)). simpl in H. by rewrite <- H, Nat.add_succ_r.
Qed.

Lemma writes_group t s o b es :
  is_slice (types t) s es →
  match o with Some m => b = true ∧ m = length es | None => b = false ∧ length es = 1%nat end →
  writes (writeGroup t (s, o)) (group_fits (b, es)) (group_spec (b, es)).
Proof.
  intros Hs Ho. destruct o as [m|]; destruct Ho as [-> Hm].
  - subst m. unfold group_fits, group_spec; simpl.
    eapply writes_ext with (f := steps [pu8 0x4e; uleb (Z.of_nat (length es)); res_fold writeSubtype es]); [|writes_solve].
    intros w. unfold steps; simpl. destruct (uleb _ _) as [w1|]; [simpl|done].
    by rewrite (fold_slice t s es 0 w1) by (intros k Hk; simpl; auto).
  - destruct es as [|e [|]]; try discriminate Hm. unfold group_fits, group_spec; simpl. rewrite app_nil_r.
    apply (writes_iff _ (entry_fits e)); [rewrite Forall_singleton; tauto|].
    specialize (Hs 0%nat ltac:(simpl; lia)). rewrite Nat.add_0_r in Hs. unfold writeTypeAt. rewrite Hs.
    apply writes_subtype.
Qed.

Lemma writes_groups t ws gs :
  Forall2 (λ '(s, o) '(b, es), is_slice (types t) s es ∧
    match o with Some m => b = true ∧ m = length es | None => b = false ∧ length es = 1%nat end) ws gs →
  writes (res_fold (writeGroup t) ws) (Forall group_fits gs) (flat_map group_spec gs).
Proof.
  induction 1 as [|[s o] [b es] ws gs [Hs Ho] Hg IH]; simpl.
  - apply (writes_iff _ True); [split; auto|]. apply emits_writes, emits_ret.
  - apply (writes_iff _ (group_fits (b, es) ∧ Forall group_fits gs)); [by rewrite Forall_cons|].
    apply writes_bind; [by apply writes_group|done].
Qed.

(** What [writeTypeSection] accepts and appends. *)
Definition typesec_fits (gs : list (bool * list TypeEntry)) : Prop := len_fits gs ∧ Forall group_fits gs.

Lemma writes_typesec t gs :
  legal (recStarts t) (types t) 0 gs (length (types t)) →
  writes (writeTypeSection t) (typesec_fits gs ∧ len_fits (typesec_spec gs))
    (1 :: uleb_spec (Z.of_nat (length (typesec_spec gs))) ++ typesec_spec gs).
Proof.
  intros Hl. pose proof (walk_legal (length (types t)) t 0 gs _ Hl ltac:(lia)) as Hw.
  apply (writes_section 1 _ (typesec_fits gs) (typesec_spec gs)); [unfold byte; lia|]. fold (section_groups t) in Hw.
  assert (Hlen : length (section_groups t) = length gs) by (by eapply Forall2_length).
  pose proof (writes_groups t _ _ Hw) as Hg. rewrite Hlen. unfold typesec_spec, typesec_fits.
  apply (writes_conv _ (u32 (Z.of_nat (length gs)) ∧ Forall group_fits gs ∧ True)
    (typesec_fits gs) (uleb_spec (Z.of_nat (length gs)) ++ flat_map group_spec gs ++ [])).
  - by repeat (apply writes_cons; [first [apply writes_uleb|exact Hg]|]); apply writes_nil.
  - unfold typesec_fits, len_fits. tauto.
  - by rewrite app_nil_r.
Qed.

(** * The binary format's decoder for the section *)

Fixpoint vec_dec {A} (n : nat) (d : list Z → option (A * list Z)) (bs : list Z) : option (list A * list Z) :=
  match n with
  | O => Some ([], bs)
  | S n' => '(x, bs) ← d bs; '(xs, bs) ← vec_dec n' d bs; Some (x :: xs, bs)
  end.

Definition count_dec {A} (d : list Z → option (A * list Z)) (bs : list Z) : option (list A * list Z) :=
  '(n, bs) ← uleb_dec bs; vec_dec (Z.to_nat n) d bs.

Definition mut_dec (bs : list Z) : option (bool * list Z) :=
  match bs with 0 :: r => Some (false, r) | 1 :: r => Some (true, r) | _ => None end.

Definition field_dec (bs : list Z) : option (FieldType * list Z) :=
  '(s, bs) ← storage_dec bs; '(m, bs) ← mut_dec bs; Some (mkField s m, bs).

Definition comptype_dec (bs : list Z) : option (TypeShape * list Z) :=
  match bs with
  | 0x60 :: bs => '(ps, bs) ← count_dec valtype_dec bs; '(rs, bs) ← count_dec valtype_dec bs; Some (TFunc ps rs, bs)
  | 0x5e :: bs => '(f, bs) ← field_dec bs; Some (TArray (f_storage f) (f_mutable f), bs)
  | 0x5f :: bs => '(fs, bs) ← count_dec field_dec bs; Some (TStruct fs, bs)
  | _ => None
  end.

Definition subtype_dec (bs : list Z) : option (TypeEntry * list Z) :=
  match bs with
  | 0x4f :: bs => '(ss, bs) ← count_dec uleb_dec bs; '(sh, bs) ← comptype_dec bs; Some (mkEntry sh (Some (mkSub ss true)), bs)
  | 0x50 :: bs => '(ss, bs) ← count_dec uleb_dec bs; '(sh, bs) ← comptype_dec bs; Some (mkEntry sh (Some (mkSub ss false)), bs)
  | _ => '(sh, bs) ← comptype_dec bs; Some (mkEntry sh None, bs)
  end.

Definition rectype_dec (bs : list Z) : option ((bool * list TypeEntry) * list Z) :=
  match bs with
  | 0x4e :: bs => '(es, bs) ← count_dec subtype_dec bs; Some ((true, es), bs)
  | _ => '(e, bs) ← subtype_dec bs; Some ((false, [e]), bs)
  end.

Definition typesec_dec (bs : list Z) : option (list (bool * list TypeEntry) * list Z) := count_dec rectype_dec bs.

Definition decodes {A} (enc : A → list Z) (d : list Z → option (A * list Z)) (x : A) : Prop :=
  ∀ rest, d (enc x ++ rest) = Some (x, rest).

Lemma vec_dec_spec {A} (enc : A → list Z) d xs rest :
  Forall (decodes enc d) xs → vec_dec (length xs) d (flat_map enc xs ++ rest) = Some (xs, rest).
Proof.
  induction 1 as [|x xs Hx Hxs IH]; [done|]. simpl. by rewrite <- app_assoc, Hx; simpl; rewrite IH.
Qed.

Lemma count_dec_spec {A} (enc : A → list Z) d xs rest :
  len_fits xs → Forall (decodes enc d) xs → count_dec d (vec_spec enc xs ++ rest) = Some (xs, rest).
Proof.
  intros Hl Hxs. unfold count_dec, vec_spec. rewrite <- app_assoc, uleb_spec_dec by exact Hl. simpl.
  rewrite Nat2Z.id. by apply vec_dec_spec.
Qed.

(** Fits the encoding and holds real type indices. *)
Definition entry_ok (e : TypeEntry) : Prop := entry_fits e ∧ Forall (λ i, 0 <= i) (entry_refs e).

Lemma valtypes_decode ts : Forall valtype_fits ts → Forall (λ i, 0 <= i) (flat_map valtype_refs ts) →
  Forall (decodes valtype_spec valtype_dec) ts.
Proof.
  induction 1 as [|t ts Ht Hts IH]; simpl; intros Hr; constructor.
  - intros rest. apply valtype_roundtrip. apply Forall_app in Hr as [Hr _].
    destruct t as [| | |n i]; try done. simpl in *. inversion_clear Hr. unfold s33_index. lia.
  - apply IH. by apply Forall_app in Hr as [_ Hr].
Qed.

Lemma storage_decodes s : storage_fits s → Forall (λ i, 0 <= i) (storage_refs s) → decodes storage_spec storage_dec s.
Proof.
  intros Hs Hr rest. apply storage_roundtrip. destruct s as [| |[| | |n i]]; try done. simpl in *.
  inversion_clear Hr. unfold s33_index. lia.
Qed.

Lemma field_decodes f : field_fits f → Forall (λ i, 0 <= i) (storage_refs (f_storage f)) → decodes field_spec field_dec f.
Proof.
  intros Hf Hr rest. destruct f as [s m]. unfold field_dec, field_spec; simpl in *.
  rewrite <- app_assoc, (storage_decodes s Hf Hr). simpl. by destruct m.
Qed.

Lemma fields_decode fs : Forall field_fits fs → Forall (λ i, 0 <= i) (flat_map (λ f, storage_refs (f_storage f)) fs) →
  Forall (decodes field_spec field_dec) fs.
Proof.
  induction 1 as [|f fs Hf Hfs IH]; simpl; intros Hr; constructor; apply Forall_app in Hr as [Hr1 Hr2].
  - by apply field_decodes.
  - by apply IH.
Qed.

Lemma comptype_decodes sh : shape_fits sh → Forall (λ i, 0 <= i) (shape_refs sh) → decodes comptype_spec comptype_dec sh.
Proof.
  intros Hs Hr rest. destruct sh as [ps rs|e m|fs]; simpl in *.
  - destruct Hs as [[Hl1 H1] [Hl2 H2]]. apply Forall_app in Hr as [R1 R2].
    rewrite <- app_assoc, (count_dec_spec valtype_spec) by auto using valtypes_decode. simpl.
    by rewrite (count_dec_spec valtype_spec) by auto using valtypes_decode.
  - pose proof (field_decodes (mkField e m) Hs Hr rest) as Hd. unfold field_spec in Hd. simpl in Hd. by rewrite Hd.
  - destruct Hs as [Hl Hf]. by rewrite (count_dec_spec field_spec) by auto using fields_decode.
Qed.

Lemma subtype_head e rest : te_sub e = None → ∃ b r, subtype_spec e ++ rest = b :: r ∧ (b = 0x60 ∨ b = 0x5e ∨ b = 0x5f).
Proof. intros E. unfold subtype_spec. rewrite E. destruct (te_shape e); simpl; eexists _, _; (split; [done|auto]). Qed.

Lemma subtype_decodes e : entry_ok e → decodes subtype_spec subtype_dec e.
Proof.
  intros [[Hs Hsh] Hr] rest. pose proof (subtype_head e rest) as Hh. destruct e as [sh [sub|]]; simpl in *.
  - destruct Hs as [Hl Hu]. unfold entry_refs in Hr. simpl in Hr. apply Forall_app in Hr as [_ Hr].
    assert (Hd : ∀ r, count_dec uleb_dec (vec_spec uleb_spec (s_supers sub) ++ r) = Some (s_supers sub, r)).
    { intros r. apply count_dec_spec; [done|]. eapply Forall_impl; [exact Hu|]. intros x Hx r'. by apply uleb_spec_dec. }
    destruct sub as [ss []]; unfold subtype_spec; simpl in *; rewrite <- !app_assoc, Hd; simpl;
      by rewrite comptype_decodes.
  - destruct (Hh eq_refl) as (b & r & E & Hb). rewrite E. clear Hh.
    assert (Hc : comptype_dec (b :: r) = Some (sh, rest)).
    { rewrite <- E. apply (comptype_decodes sh Hsh). by unfold entry_refs in Hr. }
    unfold subtype_dec. destruct Hb as [-> | [-> | ->]]; by rewrite Hc.
Qed.

Lemma group_decodes g : (g.1 = false → length g.2 = 1%nat) → (if g.1 then len_fits g.2 else True) → Forall entry_ok g.2 →
  decodes group_spec rectype_dec g.
Proof.
  intros H1 Hl He rest. destruct g as [[] es]; unfold group_spec; simpl in *.
  - rewrite (count_dec_spec subtype_spec); [done|done|]. eapply Forall_impl; [exact He|]. apply subtype_decodes.
  - destruct es as [|e [|]]; try discriminate (H1 eq_refl). simpl. rewrite app_nil_r.
    inversion_clear He. pose proof (subtype_decodes e H rest) as Hd.
    destruct H as [Hf _]. destruct (subtype_spec e ++ rest) as [|b r] eqn:E; [discriminate Hd|].
    assert (b <> 0x4e).
    { destruct e as [sh [[ss []]|]]; unfold subtype_spec in E; simpl in E; [| |destruct sh]; injection E as <- _; done. }
    unfold rectype_dec. rewrite Hd. do 8 (try (destruct b as [|b|b]; try done)).
Qed.

(** * Theorems *)

(** The type space keeps its invariant: from a fresh builder, under any
    sequence of interning, subtype, self-referential, recursive-pair,
    reservation, definition and span calls made with indices the builder handed
    out, every key maps to one live index, recursive groups lie inside the type
    list, the settled entries divide into groups none of which refers past its
    own end, and every reservation belongs to the open span. *)
Theorem ts_reachable_wf t : ts_steps ts_new t → ts_wf t.
Proof. apply ts_steps_wf, ts_new_wf. Qed.

(** A span with a reserved recursive record and a recursive pair. *)
Definition sample_pair (b : Z) (t : TypeSpace) : (TypeEntry * TypeEntry) * TypeSpace :=
  ((mkEntry (TStruct [mkField (SVal (VRef false (b + 1))) false]) (Some (mkSub [] false)),
    mkEntry (TFunc [VRef false b; VF64] [VF64]) None), t).
Definition sample_ts1 : TypeSpace := (internType (shape_key (TArray SI16 true)) (mkEntry (TArray SI16 true) None) ts_new).2.
Definition sample_ts2 : TypeSpace := mkTS (types sample_ts1) (typeIndex sample_ts1) ∅ (Some 1%nat) [].
Definition sample_ts3 : TypeSpace :=
  mkTS (types sample_ts2 ++ [mkEntry (TStruct []) None]) (<["record:1" := 1]> (typeIndex sample_ts2)) ∅ (Some 1%nat) [(1, "record:1")].
Definition sample_ts4 : TypeSpace :=
  (internType (shape_key (TArray (SVal (VRef true 1)) true)) (mkEntry (TArray (SVal (VRef true 1)) true) None) sample_ts3).2.
Definition sample_entry : TypeEntry :=
  mkEntry (TStruct [mkField (SVal (VRef true 2)) true; mkField (SVal (VRef true 0)) true]) None.
Definition sample_ts5 : TypeSpace :=
  mkTS (<[1%nat := sample_entry]> (types sample_ts4)) (typeIndex sample_ts4) ∅ (Some 1%nat) [].
Definition sample_ts6 : TypeSpace := mkTS (types sample_ts5) (typeIndex sample_ts5) {[1%nat := 2%nat]} None [].
Definition sample_ts : TypeSpace := (recGroup2 "closrec:()" sample_pair sample_ts6).2.

Lemma sample_steps : ts_steps ts_new sample_ts.
Proof.
  apply ts_trans with sample_ts6.
  2: { apply step_pair; [done|done| |]; unfold below; repeat constructor; vm_compute; done. }
  apply ts_trans with sample_ts5; [|apply step_end; vm_compute; reflexivity].
  apply ts_trans with sample_ts4.
  2: { apply (step_define 1 sample_entry); [unfold below; repeat constructor; vm_compute; done|vm_compute; reflexivity]. }
  apply ts_trans with sample_ts3.
  2: { apply step_intern. unfold below; repeat constructor; vm_compute; done. }
  apply ts_trans with sample_ts2; [|apply (step_reserve "record:1" _ 1); [done|vm_compute; reflexivity]].
  apply ts_trans with sample_ts1; [|apply step_begin; vm_compute; reflexivity].
  apply ts_trans with ts_new; [constructor|]. apply step_intern. unfold below; repeat constructor; vm_compute; done.
Qed.

Lemma ts_reachable_wf_witness : ts_wf sample_ts ∧ length (types sample_ts) = 5%nat.
Proof. split; [exact (ts_reachable_wf sample_ts sample_steps)|vm_compute; reflexivity]. Defined.

(** The builder's three structural interners. *)
Definition internShape (sh : TypeShape) : TypeSpace → Z * TypeSpace :=
  match sh with TFunc ps rs => funcType ps rs | TArray e m => arrayType e m | TStruct fs => structType fs end.

Lemma internShape_eq sh t : internShape sh t = internType (shape_key sh) (mkEntry sh None) t.
Proof. by destruct sh. Qed.

Lemma internShape_lookup sh t : typeIndex (internShape sh t).2 !! shape_key sh = Some (internShape sh t).1.
Proof. rewrite internShape_eq. unfold internType. case_match; simpl; [done|apply lookup_insert_eq]. Qed.

(** Structural interning is exact: interning a shape in a builder that
    satisfies the invariant returns an index holding exactly that plain shape;
    at every later moment the index still holds it, and interning a shape
    returns that index if and only if it is the same shape. *)
Theorem structural_interning t sh :
  ts_wf t → below (length (types t)) (mkEntry sh None) →
  let i := (internShape sh t).1 in
  ∀ t2 sh2, ts_steps (internShape sh t).2 t2 → shape_nonneg sh2 →
    types t2 !! Z.to_nat i = Some (mkEntry sh None) ∧
    ((internShape sh2 t2).1 = i ↔ sh2 = sh).
Proof.
  intros W Hb i t2 sh2 Hs H2. subst i. pose proof (below_nonneg _ _ Hb) as H1.
  pose proof (ts_steps_index _ _ _ _ Hs (internShape_lookup sh t)) as Hk.
  assert (W2 : ts_wf t2).
  { apply (ts_steps_wf _ _) with (2 := Hs). rewrite internShape_eq. apply (ts_step_wf t); [done|by apply step_intern]. }
  set (i := (internShape sh t).1) in *. split; [by apply (wf_struct t2 W2)|].
  rewrite internShape_eq. unfold internType. destruct (typeIndex t2 !! shape_key sh2) as [i2|] eqn:E; simpl.
  - split; [intros ->|intros ->; congruence]. apply shape_key_inj; [done..|]. by apply (wf_index_inj t2 W2 _ _ i).
  - split; [intros Hi|intros ->; congruence]. pose proof (wf_index t2 W2 _ _ Hk). unfold ts_count in *. lia.
Qed.

Lemma structural_interning_witness :
  let sh := TFunc [VRef true 1; VF64] [] in
  types sample_ts !! Z.to_nat (internShape sh sample_ts).1 = None ∧
  (∀ t2 sh2, ts_steps (internShape sh sample_ts).2 t2 → shape_nonneg sh2 →
    types t2 !! Z.to_nat (internShape sh sample_ts).1 = Some (mkEntry sh None) ∧
    ((internShape sh2 t2).1 = (internShape sh sample_ts).1 ↔ sh2 = sh)).
Proof.
  split; [vm_compute; reflexivity|]. apply structural_interning.
  - apply (ts_steps_wf _ _ ts_new_wf sample_steps).
  - unfold below. repeat constructor; vm_compute; done.
Defined.

Lemma legal_concat R ts i gs j : legal R ts i gs j → (j <= length ts)%nat →
  flat_map snd gs = take (j - i) (drop i ts).
Proof.
  induction 1 as [i|i e gs j HR He Hb H IH|i n es gs j HR -> Hm Hs Hb H IH]; intros Hj; simpl.
  - by rewrite Nat.sub_diag.
  - pose proof (legal_le _ _ _ _ _ H). rewrite IH by done. rewrite (drop_S _ _ _ He).
    by replace (j - i)%nat with (S (j - S i)) by lia.
  - pose proof (legal_le _ _ _ _ _ H). rewrite IH by done.
    assert (E : es = take (length es) (drop i ts)).
    { apply list_eq. intros k. destruct (decide (k < length es)%nat) as [Hk|Hk].
      - rewrite lookup_take_lt, lookup_drop by done. by rewrite Hs.
      - rewrite !lookup_ge_None_2; [done|rewrite length_take; lia|lia]. }
    rewrite E at 1. rewrite <- drop_drop. replace (j - i)%nat with (length es + (j - (i + length es)))%nat by lia.
    rewrite take_take_drop. done.
Qed.

Lemma legal_entries R ts i gs j : legal R ts i gs j → (j <= length ts)%nat →
  Forall (λ e, e ∈ ts ∧ Forall (λ r, 0 <= r < Z.of_nat j) (entry_refs e)) (flat_map snd gs) ∧
  Forall (λ g : bool * list TypeEntry, (g.1 = false → length g.2 = 1%nat) ∧ (length g.2 <= length ts)%nat) gs.
Proof.
  induction 1 as [i|i e gs j HR He Hb H IH|i n es gs j HR -> Hm Hs Hb H IH]; intros Hj; simpl.
  - by split.
  - pose proof (legal_le _ _ _ _ _ H). destruct (IH Hj) as [IH1 IH2]. apply lookup_lt_Some in He as Hl.
    split; constructor; simpl; [|done|split; lia|done].
    split; [by apply list_elem_of_lookup_2 in He|]. eapply Forall_impl; [exact Hb|]. simpl. lia.
  - pose proof (legal_le _ _ _ _ _ H). destruct (IH Hj) as [IH1 IH2]. split.
    + apply Forall_app. split; [|done]. apply Forall_lookup. intros k e Hk. apply lookup_lt_Some in Hk as Hl.
      split; [apply (list_elem_of_lookup_2 _ (i + k)); by rewrite Hs|].
      rewrite Forall_forall in Hb. apply list_elem_of_lookup_2, Hb in Hk. eapply Forall_impl; [exact Hk|]. simpl. lia.
    + constructor; [|done]. simpl. split; [done|]. lia.
Qed.

(** C11. The type section decodes to the builder's types: for a closed builder,
    [writeTypeSection] succeeds exactly when every count and index fits the
    format, and then its payload parses, with nothing left over, into recursive
    groups whose concatenation is exactly the interned entries in index order,
    each entry referring only to indices below the end of its own group; no
    reservation placeholder can be among them. *)
Theorem type_section_decodes t w :
  ts_wf t → recSpanStart t = None → bw_wf w →
  reservedTypes t = [] ∧
  ∃ gs, legal (recStarts t) (types t) 0 gs (length (types t)) ∧ flat_map snd gs = types t ∧
    (is_ok (writeTypeSection t w) = true ↔ typesec_fits gs ∧ len_fits (typesec_spec gs)) ∧
    ∀ w', writeTypeSection t w = Ok w' →
      bw_bytes w' = bw_bytes w ++ [1] ++ uleb_spec (Z.of_nat (length (typesec_spec gs))) ++ typesec_spec gs ∧
      typesec_dec (typesec_spec gs) = Some (gs, []).
Proof.
  intros W Hs Hw. split.
  { destruct (reservedTypes t) as [|[i k] r] eqn:E; [done|].
    destruct (wf_reserved t W i k) as (_ & _ & s & Hs' & _); [rewrite E; left|congruence]. }
  destruct (wf_groups t W) as [gs Hl]. unfold closed in Hl. rewrite Hs in Hl. simpl in Hl. exists gs.
  pose proof (legal_concat _ _ _ _ _ Hl ltac:(lia)) as Hc. rewrite Nat.sub_0_r, drop_0, firstn_all in Hc.
  destruct (legal_entries _ _ _ _ _ Hl ltac:(lia)) as [He Hg].
  pose proof (writes_typesec t gs Hl w Hw) as Hwr. split; [done|]. split; [done|].
  destruct (writeTypeSection t w) as [w1|]; simpl; [|split; [by split|done]].
  destruct Hwr as (Hfit & _ & B). split; [done|]. intros w' [= <-]. split; [exact B|].
  destruct Hfit as [[Hlen Hgf] _]. rewrite <- (app_nil_r (typesec_spec gs)). apply (count_dec_spec group_spec); [done|].
  apply Forall_forall. intros g Hin. rewrite !Forall_forall in *. specialize (Hg g Hin). specialize (Hgf g Hin).
  destruct Hgf as [Hg1 Hg2]. apply group_decodes; [apply Hg|exact Hg1|].
  rewrite Forall_forall in *. intros e Hein. split; [by apply Hg2|].
  destruct (He e) as [_ Hr].
  { apply list_elem_of_In, in_flat_map. exists g. by split; apply list_elem_of_In. }
  eapply Forall_impl; [exact Hr|]. simpl. lia.
Qed.

Lemma type_section_decodes_witness :
  reservedTypes sample_ts = [] ∧
  ∃ gs, legal (recStarts sample_ts) (types sample_ts) 0 gs (length (types sample_ts)) ∧ flat_map snd gs = types sample_ts ∧
    (is_ok (writeTypeSection sample_ts bw_new) = true ↔ typesec_fits gs ∧ len_fits (typesec_spec gs)) ∧
    ∀ w', writeTypeSection sample_ts bw_new = Ok w' →
      bw_bytes w' = bw_bytes bw_new ++ [1] ++ uleb_spec (Z.of_nat (length (typesec_spec gs))) ++ typesec_spec gs ∧
      typesec_dec (typesec_spec gs) = Some (gs, []).
Proof.
  apply type_section_decodes; [apply (ts_steps_wf _ _ ts_new_wf sample_steps)|vm_compute; reflexivity|apply bw_new_wf].
Defined.
