(* ===== verification/Module.v ===== *)
(** * The module builder

    [ModuleBuilder] of src/packages/compiler/src/backend/wasm/module.ts around
    its type space (TypeSpace.v): imports, functions declared before their
    bodies, globals, exports, the passive data blob, the splicing of the island
    engine ([attachEngine]) and [emit].  The module-level [ourMem] of code.ts is
    threaded as [Globals].  Shown: indices are stable and bodies land where they
    were declared, the engine's relocated indices are re-based and nothing else
    of its code changes, the data blob never loses a byte, [emit] refuses every
    unfinished module and what it emits reads back section by section. *)

From stdpp Require Import sorting.
From S2P Require Import Prelude F64 Bytes WasmTypes Code Engine TypeSpace.

(** [typeIndex] is undefined ([None]) for an engine function whose type index
    is out of range. *)
Record FuncDecl := mkFunc {
  fd_typeIndex : option Z;
  fd_name : jsstr;
  fd_body : option (list ValType * list Z);
  fd_engineBody : option nat
}.

Record AttachedEngine := mkAttached {
  ae_code : list Z;
  ae_bodies : list (nat * nat);
  ae_tableMin : Z;
  ae_tableMax : option Z;
  ae_memoryMin : Z;
  ae_elemOffset : list Z;
  ae_elemFuncs : list (option Z);
  ae_dataSegments : list (list Z)
}.

Inductive export_desc := DFunc | DMemory.
Record ExportEntry := mkExport { ex_name : jsstr; ex_desc : export_desc; ex_index : Z }.
Record ImportEntry := mkImport { im_module : jsstr; im_name : jsstr; im_type : Z }.
Record GlobalDecl := mkGlobal { gd_type : ValType; gd_mutable : bool; gd_init : step }.

(** The passive data blob: [blob], [blobIndex], [blobUsed]. *)
Record DataBlob := mkBlob { blob : list Z; blobIndex : gmap (list Z) Z; blobUsed : bool }.

Record ModuleBuilder := mkMB {
  mb_types : TypeSpace;
  imports : list ImportEntry;
  funcs : list FuncDecl;
  globals : list GlobalDecl;
  exports : list ExportEntry;
  memoryPages : option Z;
  funcRefs : gset Z;
  mb_blob : DataBlob;
  engineMemory : bool;
  engine : option AttachedEngine
}.

Definition set_types (t : TypeSpace) (m : ModuleBuilder) : ModuleBuilder :=
  mkMB t (imports m) (funcs m) (globals m) (exports m) (memoryPages m) (funcRefs m) (mb_blob m) (engineMemory m) (engine m).
Definition set_imports (x : list ImportEntry) (m : ModuleBuilder) : ModuleBuilder :=
  mkMB (mb_types m) x (funcs m) (globals m) (exports m) (memoryPages m) (funcRefs m) (mb_blob m) (engineMemory m) (engine m).
Definition set_funcs (x : list FuncDecl) (m : ModuleBuilder) : ModuleBuilder :=
  mkMB (mb_types m) (imports m) x (globals m) (exports m) (memoryPages m) (funcRefs m) (mb_blob m) (engineMemory m) (engine m).
Definition set_globals (x : list GlobalDecl) (m : ModuleBuilder) : ModuleBuilder :=
  mkMB (mb_types m) (imports m) (funcs m) x (exports m) (memoryPages m) (funcRefs m) (mb_blob m) (engineMemory m) (engine m).
Definition set_exports (x : list ExportEntry) (m : ModuleBuilder) : ModuleBuilder :=
  mkMB (mb_types m) (imports m) (funcs m) (globals m) x (memoryPages m) (funcRefs m) (mb_blob m) (engineMemory m) (engine m).
Definition set_memoryPages (x : option Z) (m : ModuleBuilder) : ModuleBuilder :=
  mkMB (mb_types m) (imports m) (funcs m) (globals m) (exports m) x (funcRefs m) (mb_blob m) (engineMemory m) (engine m).
Definition set_funcRefs (x : gset Z) (m : ModuleBuilder) : ModuleBuilder :=
  mkMB (mb_types m) (imports m) (funcs m) (globals m) (exports m) (memoryPages m) x (mb_blob m) (engineMemory m) (engine m).
Definition set_blob (x : DataBlob) (m : ModuleBuilder) : ModuleBuilder :=
  mkMB (mb_types m) (imports m) (funcs m) (globals m) (exports m) (memoryPages m) (funcRefs m) x (engineMemory m) (engine m).
Definition set_engine (b : bool) (x : option AttachedEngine) (m : ModuleBuilder) : ModuleBuilder :=
  mkMB (mb_types m) (imports m) (funcs m) (globals m) (exports m) (memoryPages m) (funcRefs m) (mb_blob m) b x.

(** [new ModuleBuilder()] puts the process back on memory 0. *)
Definition mb_new (g : Globals) : ModuleBuilder * Globals :=
  (mkMB ts_new [] [] [] [] None ∅ (mkBlob [] ∅ false) false None, setOurMemoryIndex 0 g).

Definition reserveEngineMemory (m : ModuleBuilder) (g : Globals) : ModuleBuilder * Globals :=
  (set_engine true (engine m) m, setOurMemoryIndex 1 g).

Definition declareFuncRef (funcIndex : Z) (m : ModuleBuilder) : ModuleBuilder :=
  set_funcRefs ({[funcIndex]} ∪ funcRefs m) m.

Definition importFunc (module_ name : jsstr) (typeIndex : Z) (m : ModuleBuilder) : res (Z * ModuleBuilder) :=
  let* _ := throw_if (negb (bool_decide (funcs m = []))) "imports must be declared before defined functions" in
  Ok (Z.of_nat (length (imports m)), set_imports (imports m ++ [mkImport module_ name typeIndex]) m).

Definition declareFunc (typeIndex : Z) (name : jsstr) (m : ModuleBuilder) : Z * ModuleBuilder :=
  (Z.of_nat (length (imports m) + length (funcs m)),
   set_funcs (funcs m ++ [mkFunc (Some typeIndex) name None None]) m).

(** [xs[i]] of a number that need not be an index. *)
Definition js_at {A} (xs : list A) (i : Z) : option A := if i <? 0 then None else xs !! Z.to_nat i.

Definition setBody (funcIndex : Z) (locals : list ValType) (code : list Z) (m : ModuleBuilder) (g : Globals)
    : res ModuleBuilder :=
  let k := funcIndex - Z.of_nat (length (imports m)) in
  match js_at (funcs m) k with
  | None => Throw "setBody on undeclared function index"
  | Some decl =>
      let* _ := throw_if (bool_decide (is_Some (fd_engineBody decl))) "setBody on island-engine function" in
      let* _ := throw_if (negb (currentOurMemoryIndex g =? (if engineMemory m then 1 else 0)))
                  "setBody: the body was built for another memory" in
      Ok (set_funcs (<[Z.to_nat k := mkFunc (fd_typeIndex decl) (fd_name decl) (Some (locals, code)) (fd_engineBody decl)]> (funcs m)) m)
  end.

Definition addGlobal (type : ValType) (mutable : bool) (init : step) (m : ModuleBuilder) : Z * ModuleBuilder :=
  (Z.of_nat (length (globals m)), set_globals (globals m ++ [mkGlobal type mutable init]) m).

Definition ensureMemory (minPages : Z) (m : ModuleBuilder) : ModuleBuilder :=
  set_memoryPages (Some (Z.max (default 0 (memoryPages m)) minPages)) m.

Definition exportFunc (name : jsstr) (funcIndex : Z) (m : ModuleBuilder) : ModuleBuilder :=
  set_exports (exports m ++ [mkExport name DFunc funcIndex]) m.

Definition exportMemory (name : jsstr) (m : ModuleBuilder) : res ModuleBuilder :=
  let* _ := throw_if (bool_decide (memoryPages m = None)) "exportMemory before ensureMemory" in
  Ok (set_exports (exports m ++ [mkExport name DMemory 0]) m).

(** The key is the string of the bytes' code units: the byte list itself. *)
Definition blob_intern (bytes : list Z) (b : DataBlob) : Z * DataBlob :=
  match blobIndex b !! bytes with
  | Some existing => (existing, mkBlob (blob b) (blobIndex b) true)
  | None =>
      let offset := Z.of_nat (length (blob b)) in
      (offset, mkBlob (blob b ++ bytes) (<[bytes := offset]> (blobIndex b)) true)
  end.

Definition internData (bytes : list Z) (m : ModuleBuilder) : Z * ModuleBuilder :=
  let '(offset, b) := blob_intern bytes (mb_blob m) in (offset, set_blob b m).

(** ** Splicing the island engine *)

Definition funcTypeOf (funcIndex : Z) (m : ModuleBuilder) : res (option Z) :=
  let n := Z.of_nat (length (imports m)) in
  if funcIndex <? n
  then match js_at (imports m) funcIndex with Some i => Ok (Some (im_type i)) | None => Throw "Cannot read properties of undefined" end
  else match js_at (funcs m) (funcIndex - n) with
       | Some decl => Ok (fd_typeIndex decl)
       | None => Throw "no function"
       end.

(** [img.types.map((t) => this.funcType(t.params, t.results))] *)
Fixpoint map_types (ts : list (list ValType * list ValType)) (t : TypeSpace) : list Z * TypeSpace :=
  match ts with
  | [] => ([], t)
  | (ps, rs) :: ts' =>
      let '(i, t) := funcType ps rs t in
      let '(is_, t) := map_types ts' t in (i :: is_, t)
  end.

Fixpoint map_globals (gs : list EngineGlobal) (m : ModuleBuilder) : list Z * ModuleBuilder :=
  match gs with
  | [] => ([], m)
  | g :: gs' =>
      let '(i, m) := addGlobal (eg_type g) (eg_mutable g) (praw (eg_init g)) m in
      let '(is_, m) := map_globals gs' m in (i :: is_, m)
  end.

(** [bindImport] is the caller's lookup of functions it already declared. *)
Definition bind_imports (img : EngineImage) (typeMap : list Z) (bindImport : EngineImport → res Z)
    (m : ModuleBuilder) : res (list Z) :=
  res_fold (λ imp acc,
    let* target := bindImport imp in
    let* ft := funcTypeOf target m in
    let* _ := throw_if (negb (bool_decide (ft = js_at typeMap (ei_type imp))))
                "engine import bound to a function of the wrong type" in
    Ok (acc ++ [target])) (img_imports img) [].

(** [`qjs.${i}`] *)
Definition qjs_name (i : nat) : jsstr := js_of_string ("qjs." +:+ pretty i).

Definition engine_funcs (img : EngineImage) (typeMap : list Z) : list FuncDecl :=
  imap (λ i t, mkFunc (js_at typeMap t)
                 (default (qjs_name i) (img_names img !! Z.of_nat (length (img_imports img) + i)))
                 None (Some i)) (img_funcTypes img).

(** [e < nImp ? impMap[e]! : funcBase + (e - nImp)] *)
Definition funcMap (img : EngineImage) (impMap : list Z) (funcBase : Z) (e : Z) : option Z :=
  let nImp := Z.of_nat (length (img_imports img)) in
  if e <? nImp then js_at impMap e else Some (funcBase + (e - nImp)).

(** The merged index a relocation gets, [None] for undefined. *)
Definition reloc_value (img : EngineImage) (typeMap impMap globalMap : list Z) (funcBase : Z) (r : EngineReloc) : option Z :=
  match r_space r with
  | RFunc => if r_index r <? Z.of_nat (length (img_imports img)) + Z.of_nat (length (img_funcTypes img))
             then funcMap img impMap funcBase (r_index r) else None
  | RType => js_at typeMap (r_index r)
  | RGlobal => js_at globalMap (r_index r)
  | RTable => if r_index r =? 0 then Some 0 else None
  end.

Definition patch_relocs (value : EngineReloc → option Z) (relocs : list EngineReloc) (code : list Z) : res (list Z) :=
  res_fold (λ r code,
    match value r with
    | None => Throw "engine index out of range"
    | Some v => writeUleb5 code (r_offset r) v
    end) relocs code.

(** The returned link resolves the engine's exports. *)
Definition engine_link (img : EngineImage) (impMap : list Z) (funcBase : Z) (name : jsstr) : res (option Z) :=
  match img_exports img !! name with
  | None => Throw "the island engine exports no such function"
  | Some e => Ok (funcMap img impMap funcBase e)
  end.

Definition attachEngine (img : EngineImage) (bindImport : EngineImport → res Z) (m : ModuleBuilder)
    : res ((jsstr → res (option Z)) * ModuleBuilder) :=
  let* _ := throw_if (negb (engineMemory m)) "attachEngine without reserveEngineMemory" in
  let* _ := throw_if (bool_decide (is_Some (engine m))) "attachEngine called twice" in
  let* _ := throw_if (bool_decide (is_Some (recSpanStart (mb_types m)))) "attachEngine inside an open rec group" in
  let '(typeMap, t) := map_types (img_types img) (mb_types m) in
  let m := set_types t m in
  let* impMap := bind_imports img typeMap bindImport m in
  let funcBase := Z.of_nat (length (imports m) + length (funcs m)) in
  let m := set_funcs (funcs m ++ engine_funcs img typeMap) m in
  let '(globalMap, m) := map_globals (img_globals img) m in
  let* code := patch_relocs (reloc_value img typeMap impMap globalMap funcBase) (img_relocs img) (img_code img) in
  Ok (engine_link img impMap funcBase,
      set_engine (engineMemory m)
        (Some (mkAttached code (img_bodies img) (img_tableMin img) (img_tableMax img) (img_memoryMin img)
                 (img_elemOffset img) (map (funcMap img impMap funcBase) (img_elemFuncs img)) (img_dataSegments img))) m).

(** ** Emission *)

Definition when (c : bool) (f : step) : step := if c then f else λ w, Ok w.

(** [s.uleb(x)] of a possibly undefined number: [Number.isInteger] fails. *)
Definition uleb_opt (x : option Z) : step :=
  match x with Some v => uleb v | None => λ _, Throw "uleb128 out of u32 range: undefined" end.

Definition count {A} (xs : list A) : step := uleb (Z.of_nat (length xs)).

Definition import_section (m : ModuleBuilder) : step :=
  section 2 (steps [count (imports m);
    res_fold (λ i, steps [bw_name (im_module i); bw_name (im_name i); pu8 0x00; uleb (im_type i)]) (imports m)]).

Definition func_section (m : ModuleBuilder) : step :=
  section 3 (steps [count (funcs m); res_fold (λ f, uleb_opt (fd_typeIndex f)) (funcs m)]).

Definition table_section (e : AttachedEngine) : step :=
  section 4 (steps ([uleb 1; pu8 0x70] ++
    match ae_tableMax e with
    | None => [pu8 0x00; uleb (ae_tableMin e)]
    | Some mx => [pu8 0x01; uleb (ae_tableMin e); uleb mx]
    end)).

Definition memory_section (m : ModuleBuilder) : step :=
  section 5 (steps ([uleb ((if memoryPages m then 1 else 0) + (if engine m then 1 else 0))] ++
    match engine m with Some e => [pu8 0x00; uleb (ae_memoryMin e)] | None => [] end ++
    match memoryPages m with Some pages => [pu8 0x00; uleb pages] | None => [] end)).

Definition global_section (m : ModuleBuilder) : step :=
  section 6 (steps [count (globals m);
    res_fold (λ g, steps [writeValType (gd_type g); pu8 (if gd_mutable g then 0x01 else 0x00); gd_init g; pu8 0x0b])
      (globals m)]).

Definition export_section (m : ModuleBuilder) : step :=
  section 7 (steps [count (exports m);
    res_fold (λ e, steps [bw_name (ex_name e); pu8 (match ex_desc e with DFunc => 0x00 | DMemory => 0x02 end);
      uleb (match ex_desc e, engine m with DMemory, Some _ => 1 | _, _ => ex_index e end)]) (exports m)]).

Definition sorted_refs (m : ModuleBuilder) : list Z := merge_sort (≤) (elements (funcRefs m)).

Definition element_section (m : ModuleBuilder) : step :=
  let refs := sorted_refs m in
  section 9 (steps ([uleb ((if bool_decide (refs = []) then 0 else 1) + (if engine m then 1 else 0))] ++
    match engine m with
    | Some e => [pu8 0x00; praw (ae_elemOffset e); pu8 0x0b; count (ae_elemFuncs e); res_fold uleb_opt (ae_elemFuncs e)]
    | None => []
    end ++
    if bool_decide (refs = []) then [] else [pu8 0x03; pu8 0x00; count refs; res_fold uleb refs])).

Definition engineSegs (m : ModuleBuilder) : Z :=
  match engine m with Some e => Z.of_nat (length (ae_dataSegments e)) | None => 0 end.

Definition datacount_section (m : ModuleBuilder) : step := section 12 (uleb (1 + engineSegs m)).

(** Locals compress into (count, type) runs. *)
Definition push_run (runs : list (Z * ValType)) (l : ValType) : list (Z * ValType) :=
  match last runs with
  | Some (c, t) => if decide (valTypeKey t = valTypeKey l) then removelast runs ++ [(c + 1, t)] else runs ++ [(1, l)]
  | None => runs ++ [(1, l)]
  end.
Definition local_runs (locals : list ValType) : list (Z * ValType) := foldl push_run [] locals.

Definition write_body (locals : list ValType) (code : list Z) : step :=
  let runs := local_runs locals in
  framed (steps [count runs; res_fold (λ r, steps [uleb r.1; writeValType r.2]) runs; praw code; pu8 0x0b]).

Definition write_func (m : ModuleBuilder) (f : FuncDecl) : step :=
  match fd_engineBody f with
  | Some k =>
      match engine m with
      | Some e => match ae_bodies e !! k with
                  | Some (a, b) => praw (js_slice (ae_code e) a b)
                  | None => λ _, Throw "Cannot read properties of undefined"
                  end
      | None => λ _, Throw "Cannot read properties of null"
      end
  | None =>
      match fd_body f with
      | Some (locals, code) => write_body locals code
      | None => λ _, Throw "function was declared but never given a body"
      end
  end.

Definition code_section (m : ModuleBuilder) : step :=
  section 10 (steps [count (funcs m); res_fold (write_func m) (funcs m)]).

Definition data_section (m : ModuleBuilder) : step :=
  let b := mb_blob m in
  section 11 (steps ([uleb ((if blobUsed b then 1 else 0) + engineSegs m)] ++
    (if blobUsed b then [pu8 0x01; count (blob b); praw (blob b)] else []) ++
    match engine m with Some e => [res_fold praw (ae_dataSegments e)] | None => [] end)).

Definition name_section (m : ModuleBuilder) : step :=
  section 0 (steps [bw_name (js_of_string "name"); pu8 0x01;
    framed (steps [count (funcs m);
      res_fold (λ p, steps [uleb (Z.of_nat (length (imports m) + p.1)); bw_name p.2])
        (imap (λ i f, (i, fd_name f)) (funcs m))])]).

Definition wasm_magic : list Z := [0x00; 0x61; 0x73; 0x6d; 0x01; 0x00; 0x00; 0x00].

Definition emit_sections (m : ModuleBuilder) : list step :=
  [when (negb (bool_decide (types (mb_types m) = []))) (writeTypeSection (mb_types m));
   when (negb (bool_decide (imports m = []))) (import_section m);
   when (negb (bool_decide (funcs m = []))) (func_section m);
   match engine m with Some e => table_section e | None => λ w, Ok w end;
   when (bool_decide (is_Some (memoryPages m)) || bool_decide (is_Some (engine m))) (memory_section m);
   when (negb (bool_decide (globals m = []))) (global_section m);
   when (negb (bool_decide (exports m = []))) (export_section m);
   when (negb (bool_decide (elements (funcRefs m) = [])) || bool_decide (is_Some (engine m))) (element_section m);
   when (blobUsed (mb_blob m)) (datacount_section m);
   when (negb (bool_decide (funcs m = []))) (code_section m);
   when (blobUsed (mb_blob m) || (0 <? engineSegs m)) (data_section m);
   name_section m].

Definition emit (m : ModuleBuilder) (g : Globals) : res (list Z * Globals) :=
  let* _ := throw_if (bool_decide (is_Some (recSpanStart (mb_types m)))) "emit() with a rec group still open" in
  let* _ := throw_if (engineMemory m && bool_decide (engine m = None))
              "emit() with engine memory reserved but no engine attached" in
  let g := setOurMemoryIndex 0 g in
  let* _ := throw_if (negb (bool_decide (reservedTypes (mb_types m) = []))) "type was reserved but never defined" in
  let* w := steps (praw wasm_magic :: emit_sections m) bw_new in
  Ok (bw_bytes w, g).

(** * What [emit] writes *)

Definition section_spec (s : Z * list Z) : list Z := s.1 :: uleb_spec (Z.of_nat (length s.2)) ++ s.2.

Definition name_fits (s : jsstr) : Prop := u32 (Z.of_nat (length (utf8_encode s))).

Definition import_spec (i : ImportEntry) : list Z := name_spec (im_module i) ++ name_spec (im_name i) ++ [0] ++ uleb_spec (im_type i).
Definition import_fits (i : ImportEntry) : Prop := name_fits (im_module i) ∧ name_fits (im_name i) ∧ u32 (im_type i).

Definition opt_spec (x : option Z) : list Z := match x with Some v => uleb_spec v | None => [] end.
Definition opt_fits (x : option Z) : Prop := match x with Some v => u32 v | None => False end.

Definition table_spec (e : AttachedEngine) : list Z :=
  uleb_spec 1 ++ [0x70] ++
  match ae_tableMax e with
  | None => [0] ++ uleb_spec (ae_tableMin e)
  | Some mx => [1] ++ uleb_spec (ae_tableMin e) ++ uleb_spec mx
  end.
Definition table_fits (e : AttachedEngine) : Prop :=
  u32 (ae_tableMin e) ∧ match ae_tableMax e with Some mx => u32 mx | None => True end.

Definition memory_spec (m : ModuleBuilder) : list Z :=
  uleb_spec ((if memoryPages m then 1 else 0) + (if engine m then 1 else 0)) ++
  match engine m with Some e => [0] ++ uleb_spec (ae_memoryMin e) | None => [] end ++
  match memoryPages m with Some pages => [0] ++ uleb_spec pages | None => [] end.
Definition memory_fits (m : ModuleBuilder) : Prop :=
  match engine m with Some e => u32 (ae_memoryMin e) | None => True end ∧
  match memoryPages m with Some pages => u32 pages | None => True end.

Definition global_spec (p : GlobalDecl * list Z) : list Z :=
  valtype_spec (gd_type p.1) ++ [if gd_mutable p.1 then 1 else 0] ++ p.2 ++ [0x0b].

Definition export_index (m : ModuleBuilder) (e : ExportEntry) : Z :=
  match ex_desc e, engine m with DMemory, Some _ => 1 | _, _ => ex_index e end.
Definition export_spec (m : ModuleBuilder) (e : ExportEntry) : list Z :=
  name_spec (ex_name e) ++ [match ex_desc e with DFunc => 0 | DMemory => 2 end] ++ uleb_spec (export_index m e).
Definition export_fits (m : ModuleBuilder) (e : ExportEntry) : Prop := name_fits (ex_name e) ∧ u32 (export_index m e).

Definition element_spec (m : ModuleBuilder) : list Z :=
  let refs := sorted_refs m in
  uleb_spec ((if bool_decide (refs = []) then 0 else 1) + (if engine m then 1 else 0)) ++
  match engine m with
  | Some e => [0] ++ ae_elemOffset e ++ [0x0b] ++ vec_spec opt_spec (ae_elemFuncs e)
  | None => []
  end ++
  if bool_decide (refs = []) then [] else [3; 0] ++ vec_spec uleb_spec refs.
Definition element_fits (m : ModuleBuilder) : Prop :=
  match engine m with Some e => len_fits (ae_elemFuncs e) ∧ Forall opt_fits (ae_elemFuncs e) | None => True end ∧
  (sorted_refs m = [] ∨ len_fits (sorted_refs m) ∧ Forall u32 (sorted_refs m)).

Definition run_spec (r : Z * ValType) : list Z := uleb_spec r.1 ++ valtype_spec r.2.
Definition run_fits (r : Z * ValType) : Prop := u32 r.1 ∧ valtype_fits r.2.

Definition body_spec (locals : list ValType) (code : list Z) : list Z :=
  vec_spec run_spec (local_runs locals) ++ code ++ [0x0b].
Definition body_fits (locals : list ValType) (code : list Z) : Prop :=
  len_fits (local_runs locals) ∧ Forall run_fits (local_runs locals) ∧ len_fits (body_spec locals code).

(** The code entry of a function; a function without one has no encoding. *)
Definition func_spec (m : ModuleBuilder) (f : FuncDecl) : list Z :=
  match fd_engineBody f, fd_body f with
  | Some k, _ => match engine m ≫= λ e, r ← ae_bodies e !! k; Some (js_slice (ae_code e) r.1 r.2) with
                 | Some bs => bs | None => [] end
  | None, Some (locals, code) => uleb_spec (Z.of_nat (length (body_spec locals code))) ++ body_spec locals code
  | None, None => []
  end.
Definition func_fits (m : ModuleBuilder) (f : FuncDecl) : Prop :=
  match fd_engineBody f, fd_body f with
  | Some k, _ => is_Some (engine m ≫= λ e, ae_bodies e !! k)
  | None, Some (locals, code) => body_fits locals code
  | None, None => False
  end.

Definition data_spec (m : ModuleBuilder) : list Z :=
  let b := mb_blob m in
  uleb_spec ((if blobUsed b then 1 else 0) + engineSegs m) ++
  (if blobUsed b then [1] ++ uleb_spec (Z.of_nat (length (blob b))) ++ blob b else []) ++
  match engine m with Some e => concat (ae_dataSegments e) | None => [] end.
Definition data_fits (m : ModuleBuilder) : Prop :=
  u32 ((if blobUsed (mb_blob m) then 1 else 0) + engineSegs m) ∧ (blobUsed (mb_blob m) = true → len_fits (blob (mb_blob m))).

Definition naming_spec (m : ModuleBuilder) : list (nat * jsstr) := imap (λ i f, (i, fd_name f)) (funcs m).
Definition funcname_spec (m : ModuleBuilder) (p : nat * jsstr) : list Z :=
  uleb_spec (Z.of_nat (length (imports m) + p.1)) ++ name_spec p.2.
Definition names_spec (m : ModuleBuilder) : list Z :=
  let sub := vec_spec (funcname_spec m) (naming_spec m) in
  name_spec (js_of_string "name") ++ [1] ++ uleb_spec (Z.of_nat (length sub)) ++ sub.
Definition names_fits (m : ModuleBuilder) : Prop :=
  len_fits (naming_spec m) ∧
  Forall (λ p, u32 (Z.of_nat (length (imports m) + p.1)) ∧ name_fits p.2) (naming_spec m) ∧
  len_fits (vec_spec (funcname_spec m) (naming_spec m)).

(** A section present when [c] holds: its condition and its contents. *)
Definition opt_section (c : bool) (id : Z) (fits : Prop) (payload : list Z) : list (Prop * (Z * list Z)) :=
  if c then [(fits ∧ len_fits payload, (id, payload))] else [].

Definition nonempty {A} (xs : list A) : bool := match xs with [] => false | _ => true end.

(** The sections of the module in order, given the type section's groups and
    the bytes of the globals' initializers. *)
Definition module_plan (m : ModuleBuilder) (gs : list (bool * list TypeEntry)) (inits : list (list Z))
    : list (Prop * (Z * list Z)) :=
  opt_section (nonempty (types (mb_types m))) 1 (typesec_fits gs) (typesec_spec gs) ++
  opt_section (nonempty (imports m)) 2 (len_fits (imports m) ∧ Forall import_fits (imports m)) (vec_spec import_spec (imports m)) ++
  opt_section (nonempty (funcs m)) 3 (len_fits (funcs m) ∧ Forall (λ f, opt_fits (fd_typeIndex f)) (funcs m))
    (vec_spec (λ f, opt_spec (fd_typeIndex f)) (funcs m)) ++
  match engine m with Some e => opt_section true 4 (table_fits e) (table_spec e) | None => [] end ++
  opt_section (bool_decide (is_Some (memoryPages m)) || bool_decide (is_Some (engine m))) 5 (memory_fits m) (memory_spec m) ++
  opt_section (nonempty (globals m)) 6 (len_fits (globals m) ∧ Forall (λ g, valtype_fits (gd_type g)) (globals m))
    (uleb_spec (Z.of_nat (length (globals m))) ++ flat_map global_spec (zip (globals m) inits)) ++
  opt_section (nonempty (exports m)) 7 (len_fits (exports m) ∧ Forall (export_fits m) (exports m)) (vec_spec (export_spec m) (exports m)) ++
  opt_section (nonempty (elements (funcRefs m)) || bool_decide (is_Some (engine m))) 9 (element_fits m) (element_spec m) ++
  opt_section (blobUsed (mb_blob m)) 12 (u32 (1 + engineSegs m)) (uleb_spec (1 + engineSegs m)) ++
  opt_section (nonempty (funcs m)) 10 (len_fits (funcs m) ∧ Forall (func_fits m) (funcs m)) (vec_spec (func_spec m) (funcs m)) ++
  opt_section (blobUsed (mb_blob m) || (0 <? engineSegs m)) 11 (data_fits m) (data_spec m) ++
  opt_section true 0 (names_fits m) (names_spec m).

Definition module_sections m gs inits : list (Z * list Z) := map snd (module_plan m gs inits).
Definition module_fits m gs inits : Prop := Forall id (map fst (module_plan m gs inits)).

(** ** Each section meets its specification *)

Lemma writes_sec id body P bs : byte id → writes body P bs →
  writes (section id body) (P ∧ len_fits bs) (section_spec (id, bs)).
Proof. intros. by apply writes_section. Qed.

Lemma writes_opt x : writes (uleb_opt x) (opt_fits x) (opt_spec x).
Proof. destruct x; [apply writes_uleb|]. intros w _. simpl. tauto. Qed.

Lemma writes_import i :
  writes (steps [bw_name (im_module i); bw_name (im_name i); pu8 0x00; uleb (im_type i)]) (import_fits i) (import_spec i).
Proof. unfold import_fits, import_spec, name_fits. writes_solve. Qed.

Lemma writes_import_section m :
  writes (import_section m) ((len_fits (imports m) ∧ Forall import_fits (imports m)) ∧ len_fits (vec_spec import_spec (imports m)))
    (section_spec (2, vec_spec import_spec (imports m))).
Proof.
  unfold import_section. apply writes_sec; [unfold byte; lia|]. eapply writes_conv; [apply (writes_vec _ import_fits import_spec);
    [apply writes_import|apply writes_nil]|tauto|by rewrite app_nil_r].
Qed.

Lemma writes_func_section m :
  writes (func_section m) ((len_fits (funcs m) ∧ Forall (λ f, opt_fits (fd_typeIndex f)) (funcs m)) ∧
      len_fits (vec_spec (λ f, opt_spec (fd_typeIndex f)) (funcs m)))
    (section_spec (3, vec_spec (λ f, opt_spec (fd_typeIndex f)) (funcs m))).
Proof.
  unfold func_section. apply writes_sec; [unfold byte; lia|].
  eapply writes_conv; [apply (writes_vec _ (λ f, opt_fits (fd_typeIndex f)) (λ f, opt_spec (fd_typeIndex f)));
    [intros; apply writes_opt|apply writes_nil]|tauto|by rewrite app_nil_r].
Qed.

Lemma u32_small n : 0 <= n < 10 → u32 n.
Proof. unfold u32. lia. Qed.

Lemma writes_table_section e :
  writes (table_section e) (table_fits e ∧ len_fits (table_spec e)) (section_spec (4, table_spec e)).
Proof.
  unfold table_section. apply writes_sec; [unfold byte; lia|]. unfold table_fits, table_spec. pose proof (u32_small 1 ltac:(lia)).
  destruct (ae_tableMax e); writes_solve.
Qed.

Lemma writes_memory_section m :
  writes (memory_section m) (memory_fits m ∧ len_fits (memory_spec m)) (section_spec (5, memory_spec m)).
Proof.
  unfold memory_section. apply writes_sec; [unfold byte; lia|]. unfold memory_fits, memory_spec.
  pose proof (u32_small 0 ltac:(lia)). pose proof (u32_small 1 ltac:(lia)). pose proof (u32_small 2 ltac:(lia)).
  destruct (memoryPages m), (engine m); writes_solve.
Qed.

Lemma writes_fold2 {A} (f : A → step) (P : A → Prop) (enc : A * list Z → list Z) xs cs :
  Forall2 (λ x c, writes (f x) (P x) (enc (x, c))) xs cs →
  writes (res_fold f xs) (Forall P xs) (flat_map enc (zip xs cs)).
Proof.
  induction 1 as [|x c xs cs Hx H IH]; simpl.
  - apply (writes_iff _ True); [split; auto|]. apply emits_writes, emits_ret.
  - apply (writes_iff _ (P x ∧ Forall P xs)); [by rewrite Forall_cons|]. by apply writes_bind.
Qed.

Lemma writes_global_section m inits :
  Forall2 (λ g bs, emits (gd_init g) bs) (globals m) inits →
  let spec := uleb_spec (Z.of_nat (length (globals m))) ++ flat_map global_spec (zip (globals m) inits) in
  writes (global_section m) ((len_fits (globals m) ∧ Forall (λ g, valtype_fits (gd_type g)) (globals m)) ∧ len_fits spec)
    (section_spec (6, spec)).
Proof.
  intros Hi. unfold global_section. apply writes_sec; [unfold byte; lia|]. unfold len_fits.
  assert (Hf : writes (res_fold (λ g, steps [writeValType (gd_type g); pu8 (if gd_mutable g then 0x01 else 0x00); gd_init g; pu8 0x0b])
      (globals m)) (Forall (λ g, valtype_fits (gd_type g)) (globals m)) (flat_map global_spec (zip (globals m) inits))).
  { apply writes_fold2. eapply Forall2_impl; [exact Hi|]. intros g bs Hg. apply emits_writes in Hg.
    unfold global_spec; simpl. destruct (gd_mutable g); writes_solve. }
  eapply writes_conv; [apply writes_cons; [apply writes_uleb|apply writes_cons; [exact Hf|apply writes_nil]]|tauto|by rewrite app_nil_r].
Qed.

Lemma writes_export m e :
  writes (steps [bw_name (ex_name e); pu8 (match ex_desc e with DFunc => 0x00 | DMemory => 0x02 end);
    uleb (match ex_desc e, engine m with DMemory, Some _ => 1 | _, _ => ex_index e end)]) (export_fits m e) (export_spec m e).
Proof.
  unfold export_fits, export_spec, name_fits, export_index.
  destruct (ex_desc e), (engine m); writes_solve.
Qed.

Lemma writes_export_section m :
  writes (export_section m) ((len_fits (exports m) ∧ Forall (export_fits m) (exports m)) ∧ len_fits (vec_spec (export_spec m) (exports m)))
    (section_spec (7, vec_spec (export_spec m) (exports m))).
Proof.
  unfold export_section. apply writes_sec; [unfold byte; lia|]. unfold count.
  eapply writes_conv; [apply (writes_vec _ (export_fits m) (export_spec m)); [apply writes_export|apply writes_nil]|tauto|by rewrite app_nil_r].
Qed.

#[local] Hint Resolve writes_opt : writes.

Lemma writes_element_section m :
  writes (element_section m) (element_fits m ∧ len_fits (element_spec m)) (section_spec (9, element_spec m)).
Proof.
  unfold element_section. apply writes_sec; [unfold byte; lia|]. unfold element_fits, element_spec, count.
  pose proof (u32_small 0 ltac:(lia)). pose proof (u32_small 1 ltac:(lia)). pose proof (u32_small 2 ltac:(lia)).
  destruct (engine m) as [e|].
  - destruct (bool_decide_reflect (sorted_refs m = [])); writes_solve.
  - destruct (bool_decide_reflect (sorted_refs m = [])); writes_solve.
Qed.

Lemma writes_datacount_section m :
  writes (datacount_section m) (u32 (1 + engineSegs m) ∧ len_fits (uleb_spec (1 + engineSegs m)))
    (section_spec (12, uleb_spec (1 + engineSegs m))).
Proof. unfold datacount_section. apply writes_sec; [unfold byte; lia|apply writes_uleb]. Qed.

Lemma writes_run r : writes (steps [uleb r.1; writeValType r.2]) (run_fits r) (run_spec r).
Proof. unfold run_fits, run_spec. writes_solve. Qed.

#[local] Hint Resolve writes_run : writes.

Lemma writes_body locals code :
  writes (write_body locals code) (body_fits locals code)
    (uleb_spec (Z.of_nat (length (body_spec locals code))) ++ body_spec locals code).
Proof.
  unfold write_body, count.
  assert (H : writes (steps [uleb (Z.of_nat (length (local_runs locals))); res_fold (λ r, steps [uleb r.1; writeValType r.2])
      (local_runs locals); praw code; pu8 0x0b]) (len_fits (local_runs locals) ∧ Forall run_fits (local_runs locals))
      (body_spec locals code)) by (unfold body_spec; writes_solve).
  apply writes_framed in H. eapply writes_iff; [|exact H]. unfold body_fits, len_fits. tauto.
Qed.

Lemma writes_func m f : writes (write_func m f) (func_fits m f) (func_spec m f).
Proof.
  unfold write_func, func_fits, func_spec. destruct (fd_engineBody f) as [k|].
  - destruct (engine m) as [e|]; simpl.
    + destruct (ae_bodies e !! k) as [[a b]|]; simpl.
      * apply (writes_iff _ True); [split; eauto|]. apply emits_writes, emits_praw.
      * intros w _. by intros [? ?].
    + intros w _. by intros [? ?].
  - destruct (fd_body f) as [[locals code]|]; [apply writes_body|]. intros w _. tauto.
Qed.

Lemma writes_code_section m :
  writes (code_section m) ((len_fits (funcs m) ∧ Forall (func_fits m) (funcs m)) ∧ len_fits (vec_spec (func_spec m) (funcs m)))
    (section_spec (10, vec_spec (func_spec m) (funcs m))).
Proof.
  unfold code_section. apply writes_sec; [unfold byte; lia|]. unfold count.
  eapply writes_conv; [apply (writes_vec _ (func_fits m) (func_spec m)); [apply writes_func|apply writes_nil]|tauto|by rewrite app_nil_r].
Qed.

Lemma writes_raws bss : writes (res_fold praw bss) True (concat bss).
Proof.
  eapply writes_conv; [apply (writes_fold praw (λ _, True) id)|by split; [|intros _; apply Forall_true]|].
  - intros bs. apply emits_writes, emits_praw.
  - induction bss; simpl; [done|by f_equal].
Qed.
#[local] Hint Resolve writes_raws : writes.

Lemma writes_data_section m :
  writes (data_section m) (data_fits m ∧ len_fits (data_spec m)) (section_spec (11, data_spec m)).
Proof.
  unfold data_section. apply writes_sec; [unfold byte; lia|]. unfold data_fits, data_spec, count, len_fits.
  destruct (blobUsed (mb_blob m)), (engine m) as [e|]; writes_solve; intuition congruence.
Qed.

Lemma writes_naming m p :
  writes (steps [uleb (Z.of_nat (length (imports m) + p.1)); bw_name p.2])
    (u32 (Z.of_nat (length (imports m) + p.1)) ∧ name_fits p.2) (funcname_spec m p).
Proof. unfold funcname_spec, name_fits. writes_solve. Qed.

Lemma writes_name_section m :
  writes (name_section m) (names_fits m ∧ len_fits (names_spec m)) (section_spec (0, names_spec m)).
Proof.
  unfold name_section. apply writes_sec; [unfold byte; lia|]. unfold names_fits, names_spec, count. fold (naming_spec m).
  assert (Hl : length (funcs m) = length (naming_spec m)) by (unfold naming_spec; by rewrite length_imap).
  rewrite Hl. assert (Hn : u32 (Z.of_nat (length (utf8_encode (js_of_string "name"))))) by (vm_compute; done).
  eapply writes_conv; [apply writes_cons; [apply writes_name|apply writes_cons; [apply writes_pu8; unfold byte; lia|
    apply writes_cons; [apply writes_framed; eapply writes_vec; [apply writes_naming|apply writes_nil]|apply writes_nil]]]| |].
  - rewrite app_nil_r. unfold len_fits in *. tauto.
  - by rewrite !app_nil_r.
Qed.

(** A section that is there or not. *)
Definition plan_writes (f : step) (plan : list (Prop * (Z * list Z))) : Prop :=
  writes f (Forall id (map fst plan)) (flat_map section_spec (map snd plan)).

Lemma plan_none : plan_writes (λ w, Ok w) [].
Proof. apply (writes_iff _ True); [split; auto|]. apply emits_writes, emits_ret. Qed.

Lemma plan_opt c id_ fits payload f :
  writes f (fits ∧ len_fits payload) (section_spec (id_, payload)) → plan_writes (when c f) (opt_section c id_ fits payload).
Proof.
  intros H. destruct c; unfold plan_writes; simpl.
  - eapply writes_conv; [exact H| |by rewrite app_nil_r]. by rewrite Forall_singleton.
  - apply (writes_iff _ True); [split; auto|]. apply emits_writes, emits_ret.
Qed.

Lemma plan_cons f fs p ps : plan_writes f p → plan_writes (steps fs) ps → plan_writes (steps (f :: fs)) (p ++ ps).
Proof.
  unfold plan_writes. intros H1 H2. rewrite !map_app, flat_map_app.
  eapply writes_conv; [apply writes_cons; [exact H1|exact H2]|by rewrite Forall_app|done].
Qed.

Lemma nonempty_decide {A} (xs : list A) `{Decision (xs = [])} : negb (bool_decide (xs = [])) = nonempty xs.
Proof. by destruct xs; case_bool_decide. Qed.

Lemma writes_emit_sections m gs inits :
  legal (recStarts (mb_types m)) (types (mb_types m)) 0 gs (length (types (mb_types m))) →
  Forall2 (λ g bs, emits (gd_init g) bs) (globals m) inits →
  plan_writes (steps (emit_sections m)) (module_plan m gs inits).
Proof.
  intros Hl Hi. unfold emit_sections, module_plan.
  rewrite !nonempty_decide. rewrite <- (app_nil_r (opt_section true 0 _ _)).
  apply plan_cons; [apply plan_opt; by apply writes_typesec|].
  apply plan_cons; [apply plan_opt, writes_import_section|].
  apply plan_cons; [apply plan_opt, writes_func_section|].
  apply plan_cons.
  { destruct (engine m) as [e|]; [exact (plan_opt true 4 _ _ _ (writes_table_section e))|apply plan_none]. }
  apply plan_cons; [apply plan_opt, writes_memory_section|].
  apply plan_cons; [apply plan_opt; by apply writes_global_section|].
  apply plan_cons; [apply plan_opt, writes_export_section|].
  apply plan_cons; [apply plan_opt, writes_element_section|].
  apply plan_cons; [apply plan_opt, writes_datacount_section|].
  apply plan_cons; [apply plan_opt, writes_code_section|].
  apply plan_cons; [apply plan_opt, writes_data_section|].
  apply plan_cons; [exact (plan_opt true 0 _ _ _ (writes_name_section m))|apply plan_none].
Qed.

(** The conditions [emit] checks before it writes. *)
Definition emit_guards (m : ModuleBuilder) : Prop :=
  recSpanStart (mb_types m) = None ∧ (engineMemory m = true → is_Some (engine m)) ∧ reservedTypes (mb_types m) = [].

Lemma emit_guards_fail m g : ¬ emit_guards m → is_ok (emit m g) = false.
Proof.
  unfold emit_guards, emit, throw_if. intros Hn.
  destruct (recSpanStart (mb_types m)) eqn:E1; simpl; [done|].
  destruct (engineMemory m) eqn:E2, (engine m) eqn:E3; simpl; try done;
    (destruct (reservedTypes (mb_types m)) eqn:E4; simpl; [|done]); exfalso; apply Hn; split_and!; done || eauto.
Qed.

Lemma emit_guards_ok m g : emit_guards m →
  emit m g = (let* w := steps (praw wasm_magic :: emit_sections m) bw_new in Ok (bw_bytes w, setOurMemoryIndex 0 g)).
Proof.
  intros (H1 & H2 & H3). unfold emit. rewrite H1, H3. simpl.
  destruct (engineMemory m); [|done]. destruct (H2 eq_refl) as [e He]. by rewrite He.
Qed.
(** * Reading a module back *)

Lemma section_spec_pos s : (0 < length (section_spec s))%nat.
Proof. simpl. lia. Qed.

Lemma sections_length secs : (length secs <= length (flat_map section_spec secs))%nat.
Proof.
  induction secs as [|s secs IH]; [done|]. cbn [flat_map length]. rewrite length_app.
  pose proof (section_spec_pos s). lia.
Qed.

(** A section [scan_sections] can step over. *)
Definition scannable (s : Z * list Z) : Prop :=
  len_fits s.2 ∧ (s.1 = 0 → ∃ n rest, u32 n ∧ s.2 = uleb_spec n ++ rest).

Lemma scan_step dec bytes fuel p id payload secs :
  drop p bytes = section_spec (id, payload) ++ secs → scannable (id, payload) →
  let q := (p + 1 + length (uleb_spec (Z.of_nat (length payload))))%nat in
  ∃ nm, scan_sections dec bytes (S fuel) (mkRd bytes p (length bytes)) =
    (let* rest := scan_sections dec bytes fuel (mkRd bytes (q + length payload) (length bytes)) in
     Ok (mkSec (Some id) nm q (q + length payload) :: rest)) ∧
  js_slice bytes q (q + length payload) = payload ∧ drop (q + length payload) bytes = secs.
Proof.
  intros Hd [Hl Hz] q. simpl in Hl, Hz. unfold len_fits in Hl.
  set (u := uleb_spec (Z.of_nat (length payload))) in *.
  assert (Hlen : length (drop p bytes) = (S (length u + length payload) + length secs)%nat)
    by (rewrite Hd; unfold section_spec; simpl; rewrite !length_app; fold u; lia).
  rewrite length_drop in Hlen.
  assert (Hq : drop q bytes = payload ++ secs).
  { unfold q. replace (p + 1 + length u)%nat with (p + S (length u))%nat by lia. rewrite <- drop_drop, Hd. simpl.
    fold u. rewrite <- app_assoc. apply drop_app_len. done. }
  assert (Hsl : js_slice bytes q (q + length payload) = payload).
  { unfold js_slice. rewrite Hq. apply take_app_len. lia. }
  assert (Hend : drop (q + length payload) bytes = secs) by (rewrite <- drop_drop, Hq; by apply drop_app_len).
  assert (Hsee : rd_sees (mkRd bytes p (length bytes)) (id :: u)).
  { split_and!; simpl; [lia| |lia]. rewrite Hd. simpl. f_equal. rewrite <- app_assoc. by apply take_app_len. }
  apply rd_sees_cons in Hsee as [Hu8 Hsee].
  assert (Hname : ∃ nm, (if decide (Some id = Some 0)
      then let* ' (nm, _) := rd_name dec (new_Reader bytes q (q + length payload)) in Ok (Some nm) else Ok None) = Ok nm).
  { case_decide as Hid; [|by eexists]. injection Hid as Hid. destruct (Hz Hid) as (n & rest & Hn & E).
    unfold rd_name. rewrite (rd_uleb_spec n); [by eexists|exact Hn|].
    assert (length payload = (length (uleb_spec n) + length rest)%nat) by (by rewrite E, length_app).
    split_and!; simpl; [|rewrite Hq, E, <- app_assoc; by apply take_app_len|lia].
    unfold q. lia. }
  destruct Hname as [nm Hname]. exists nm. split; [|done]. rewrite scan_sections_S, decide_False by (simpl; lia).
  rewrite Hu8. cbn [res_bind]. rewrite (rd_uleb_spec (Z.of_nat (length payload))) by done. cbn [res_bind].
  rewrite rd_advance_advance. cbn [rd_advance rd_pos rd_b rd_end]. fold u.
  replace (p + (1 + length u))%nat with q by (unfold q; lia). rewrite Nat2Z.id, Hname. reflexivity.
Qed.

Lemma scan_sections_spec dec bytes secs : Forall scannable secs → ∀ fuel p,
  drop p bytes = flat_map section_spec secs → (p <= length bytes)%nat → (length secs <= fuel)%nat →
  ∃ ss, scan_sections dec bytes fuel (mkRd bytes p (length bytes)) = Ok ss ∧
    map (λ s, (s_id s, js_slice bytes (s_start s) (s_end s))) ss = map (λ s, (Some s.1, s.2)) secs.
Proof.
  induction 1 as [|[id pl] secs Hs Hss IH]; intros fuel p Hd Hp Hf; simpl in Hd.
  - assert (length bytes <= p)%nat by (apply (f_equal length) in Hd; rewrite length_drop in Hd; simpl in Hd; lia).
    exists []. destruct fuel; simpl; by rewrite decide_True.
  - destruct fuel as [|fuel]; [simpl in Hf; lia|].
    destruct (scan_step dec bytes fuel p id pl _ Hd Hs) as (nm & E & Hsl & Hend). rewrite E.
    set (q := (p + 1 + length (uleb_spec (Z.of_nat (length pl))))%nat) in *.
    destruct (IH fuel (q + length pl)%nat) as (ss & Ess & Hm); [done| |simpl in Hf; lia|].
    { apply (f_equal length) in Hd. rewrite length_drop in Hd. simpl in Hd. rewrite !length_app in Hd. unfold q. lia. }
    rewrite Ess. eexists. split; [reflexivity|]. simpl. by rewrite Hsl, Hm.
Qed.

Lemma check_magic_spec bytes rest : bytes = wasm_magic ++ rest →
  check_magic (whole bytes) = Ok (mkRd bytes 8 (length bytes)).
Proof. intros ->. reflexivity. Qed.

Lemma opt_section_in x c id fits pl : x ∈ opt_section c id fits pl → c = true ∧ x = (fits ∧ len_fits pl, (id, pl)).
Proof. destruct c; simpl; [|by intros ?%not_elem_of_nil]. by intros ->%list_elem_of_singleton. Qed.

Lemma plan_scannable m gs inits : module_fits m gs inits → Forall scannable (module_sections m gs inits).
Proof.
  unfold module_fits, module_sections. rewrite !Forall_forall. intros H s Hs.
  apply list_elem_of_fmap in Hs as ([P s'] & -> & Hin). simpl.
  specialize (H P ltac:(apply list_elem_of_fmap; by exists (P, s'))). unfold module_plan in Hin.
  assert (Hx : ∃ c id fits pl, (P, s') = (fits ∧ len_fits pl, (id, pl)) ∧ (id = 0 → pl = names_spec m ∧ c = true)).
  { repeat (apply elem_of_app in Hin as [Hin|Hin]).
    4: destruct (engine m); [|by apply not_elem_of_nil in Hin].
    all: apply opt_section_in in Hin as [_ E]; eexists true, _, _, _; split; [exact E|intros Hid; first [discriminate Hid|done]]. }
  destruct Hx as (c & id & fits & pl & [= -> ->] & Hz). simpl in H. destruct H as [_ H]. split; [done|]. simpl.
  intros Hid. destruct (Hz Hid) as [-> _]. unfold names_spec, name_spec. rewrite <- !app_assoc.
  eexists _, _. split; [|reflexivity]. vm_compute; done.
Qed.

(** The whole of [emit], by its guards and the sections' specifications. *)
Lemma emit_cases m g inits :
  ts_wf (mb_types m) → Forall2 (λ gl bs, emits (gd_init gl) bs) (globals m) inits →
  ∃ gs,
    match emit m g with
    | Ok (bytes, g') =>
        emit_guards m ∧ module_fits m gs inits ∧
        legal (recStarts (mb_types m)) (types (mb_types m)) 0 gs (length (types (mb_types m))) ∧
        bytes = wasm_magic ++ flat_map section_spec (module_sections m gs inits) ∧ g' = setOurMemoryIndex 0 g
    | Throw _ => ¬ (emit_guards m ∧ module_fits m gs inits)
    end.
Proof.
  intros W Hi.
  destruct (decide (emit_guards m)) as [Hg|Hg].
  2: { exists []. pose proof (emit_guards_fail m g Hg) as Hf. destruct (emit m g); [done|tauto]. }
  destruct (wf_groups _ W) as [gs Hl]. unfold closed in Hl. destruct Hg as (Hs & ? & ?). rewrite Hs in Hl. simpl in Hl.
  exists gs. pose proof (writes_emit_sections m gs inits Hl Hi) as Hw. unfold plan_writes in Hw.
  fold (module_fits m gs inits) in Hw. fold (module_sections m gs inits) in Hw.
  assert (Hw' : writes (steps (praw wasm_magic :: emit_sections m)) (module_fits m gs inits)
    (wasm_magic ++ flat_map section_spec (module_sections m gs inits))).
  { eapply writes_conv; [apply writes_cons; [apply emits_writes, emits_praw|exact Hw]|tauto|done]. }
  specialize (Hw' bw_new bw_new_wf). rewrite (emit_guards_ok m g) by (by split_and!).
  destruct (steps _ bw_new) as [w|]; simpl; [|tauto]. destruct Hw' as (Hf & _ & B). by split_and!.
Qed.

Lemma module_fits_funcs m gs inits : module_fits m gs inits → Forall (func_fits m) (funcs m).
Proof.
  intros Hf. destruct (funcs m) as [|f fs] eqn:E; [constructor|]. unfold module_fits in Hf. rewrite Forall_forall in Hf.
  destruct (Hf ((len_fits (funcs m) ∧ Forall (func_fits m) (funcs m)) ∧ len_fits (vec_spec (func_spec m) (funcs m))))
    as [[_ Hff] _]; [|by rewrite <- E].
  apply list_elem_of_fmap. eexists (_, (10, vec_spec (func_spec m) (funcs m))). split; [reflexivity|].
  unfold module_plan. do 9 (apply elem_of_app; right). apply elem_of_app; left. rewrite E. by left.
Qed.

(** * Theorems *)

(** C1. [emit] is exact: on a builder whose type space satisfies its invariant
    it succeeds exactly when no group is open, a reserved engine was attached,
    no reservation is pending, and every count, index and length fits the
    format; then every function has a body, and the result is the wasm header
    followed by the module's sections in the format's order with exactly the
    declared contents, and the process is back on memory 0. *)
Theorem emit_exact m g inits :
  ts_wf (mb_types m) → Forall2 (λ gl bs, emits (gd_init gl) bs) (globals m) inits →
  ∃ gs,
    (is_ok (emit m g) = true ↔ emit_guards m ∧ module_fits m gs inits) ∧
    ∀ bytes g', emit m g = Ok (bytes, g') →
      flat_map snd gs = types (mb_types m) ∧
      bytes = wasm_magic ++ flat_map section_spec (module_sections m gs inits) ∧
      ourMem g' = 0 ∧ charsType g' = charsType g ∧ Forall (func_fits m) (funcs m).
Proof.
  intros W Hi. destruct (emit_cases m g inits W Hi) as [gs H]. exists gs.
  destruct (emit m g) as [[bytes g']|]; simpl; [|split; [split; [done|tauto]|done]].
  destruct H as (Hg & Hf & Hl & B & ->). split; [done|]. intros bytes' g'' [= <- <-].
  split_and!; try done; [|by eapply module_fits_funcs].
  pose proof (legal_concat _ _ _ _ _ Hl ltac:(lia)) as Hc. by rewrite Nat.sub_0_r, drop_0, firstn_all in Hc.
Qed.

(** A module with an import, a function, a global, a memory and data. *)
Definition sample_globals : Globals := mkGlobals 1 None.
Definition sample_m0 : ModuleBuilder := (mb_new sample_globals).1.
Definition sample_m1 : ModuleBuilder := set_types (funcType [VF64] [VF64] (mb_types sample_m0)).2 sample_m0.
Definition sample_m2 : ModuleBuilder := set_imports [mkImport (js_of_string "env") (js_of_string "log") 0] sample_m1.
Definition sample_m3 : ModuleBuilder := (declareFunc 0 (js_of_string "f") sample_m2).2.
Definition sample_m4 : ModuleBuilder :=
  set_funcs [mkFunc (Some 0) (js_of_string "f") (Some ([VF64; VF64; VI32], [0x20; 0])) None] sample_m3.
Definition sample_m5 : ModuleBuilder := (addGlobal VI32 true (steps [pu8 0x41; sleb 7]) sample_m4).2.
Definition sample_m6 : ModuleBuilder := (internData [104; 105] (ensureMemory 1 sample_m5)).2.
Definition sample_module : ModuleBuilder := declareFuncRef 1 (exportFunc (js_of_string "f") 1 sample_m6).

Lemma sample_module_types : ts_wf (mb_types sample_module).
Proof.
  apply (ts_steps_wf ts_new); [apply ts_new_wf|]. apply ts_trans with ts_new; [constructor|].
  apply (step_intern (TFunc [VF64] [VF64])). unfold below. constructor.
Qed.

Lemma sample_module_inits : Forall2 (λ gl bs, emits (gd_init gl) bs) (globals sample_module) [[0x41; 7]].
Proof.
  apply Forall2_cons_2; [|constructor]. change [0x41; 7] with (concat [[0x41]; sleb_spec 7]). apply emits_steps. emits_solve.
Qed.

Lemma emit_exact_witness :
  is_ok (emit sample_module sample_globals) = true ∧
  ∃ gs,
    (is_ok (emit sample_module sample_globals) = true ↔ emit_guards sample_module ∧ module_fits sample_module gs [[0x41; 7]]) ∧
    ∀ bytes g', emit sample_module sample_globals = Ok (bytes, g') →
      flat_map snd gs = types (mb_types sample_module) ∧
      bytes = wasm_magic ++ flat_map section_spec (module_sections sample_module gs [[0x41; 7]]) ∧
      ourMem g' = 0 ∧ charsType g' = charsType sample_globals ∧ Forall (func_fits sample_module) (funcs sample_module).
Proof.
  split; [vm_compute; reflexivity|]. apply (emit_exact sample_module sample_globals [[0x41; 7]]).
  - apply sample_module_types.
  - apply sample_module_inits.
Defined.

(** C2. What [emit] returns reads back: engine.ts's own section scanner, run on
    the emitted bytes, accepts the header and finds exactly the module's
    sections, each with its id and its contents, in order and to the last
    byte. *)
Theorem emit_reads_back m g inits bytes g' dec :
  ts_wf (mb_types m) → Forall2 (λ gl bs, emits (gd_init gl) bs) (globals m) inits →
  emit m g = Ok (bytes, g') →
  ∃ gs r ss, flat_map snd gs = types (mb_types m) ∧
    check_magic (whole bytes) = Ok r ∧ scan_sections dec bytes (length bytes) r = Ok ss ∧
    map (λ s, (s_id s, js_slice bytes (s_start s) (s_end s))) ss =
      map (λ s, (Some s.1, s.2)) (module_sections m gs inits).
Proof.
  intros W Hi E. destruct (emit_cases m g inits W Hi) as [gs H]. rewrite E in H.
  destruct H as (Hg & Hf & Hl & B & _). exists gs, (mkRd bytes 8 (length bytes)).
  pose proof (legal_concat _ _ _ _ _ Hl ltac:(lia)) as Hc. rewrite Nat.sub_0_r, drop_0, firstn_all in Hc.
  destruct (scan_sections_spec dec bytes (module_sections m gs inits) (plan_scannable _ _ _ Hf) (length bytes) 8)
    as (ss & Es & Hm).
  - by rewrite B.
  - rewrite B, length_app. simpl. lia.
  - rewrite B, length_app. pose proof (sections_length (module_sections m gs inits)). lia.
  - exists ss. split_and!; [done|by eapply check_magic_spec|done..].
Qed.

Definition sample_bytes : list Z := match emit sample_module sample_globals with Ok (b, _) => b | Throw _ => [] end.

Lemma emit_reads_back_witness :
  ∃ gs r ss, flat_map snd gs = types (mb_types sample_module) ∧
    check_magic (whole sample_bytes) = Ok r ∧ scan_sections (λ b, b) sample_bytes (length sample_bytes) r = Ok ss ∧
    map (λ s, (s_id s, js_slice sample_bytes (s_start s) (s_end s))) ss =
      map (λ s, (Some s.1, s.2)) (module_sections sample_module gs [[0x41; 7]]).
Proof.
  apply (emit_reads_back sample_module sample_globals [[0x41; 7]] sample_bytes (setOurMemoryIndex 0 sample_globals)).
  - apply sample_module_types.
  - apply sample_module_inits.
  - vm_compute. reflexivity.
Defined.

(** * Splicing the engine *)

Lemma ts_steps_trans t1 t2 t3 : ts_steps t1 t2 → ts_steps t2 t3 → ts_steps t1 t3.
Proof. intros H1 H2. induction H2 as [|u1 u2 u3 H2 IH Hst]; [done|]. by apply ts_trans with u2; [apply IH|]. Qed.

Lemma mvp_no_refs ts : Forall mvp_type ts → flat_map valtype_refs ts = [].
Proof. induction 1 as [|[| | |] ts Ht Hts IH]; simpl; done. Qed.

Lemma map_types_spec ts t : ts_wf t → Forall (λ '(ps, rs), Forall mvp_type ps ∧ Forall mvp_type rs) ts →
  let '(idx, t') := map_types ts t in
  ts_steps t t' ∧ recSpanStart t' = recSpanStart t ∧ length idx = length ts ∧
  ∀ k ps rs, ts !! k = Some (ps, rs) → ∃ i, idx !! k = Some i ∧ 0 <= i ∧
    types t' !! Z.to_nat i = Some (mkEntry (TFunc ps rs) None).
Proof.
  intros W H. revert t W. induction H as [|[ps rs] ts [Hp Hr] Hts IH]; intros t W; simpl.
  { split_and!; [constructor|done..]. }
  pose proof (internShape_lookup (TFunc ps rs) t) as Hk. simpl in Hk.
  assert (Hb : below (length (types t)) (mkEntry (TFunc ps rs) None)).
  { unfold below, entry_refs; simpl. rewrite !mvp_no_refs by done. constructor. }
  assert (Hstep : ts_step t (funcType ps rs t).2) by (by apply (step_intern (TFunc ps rs))).
  assert (Hspan : recSpanStart (funcType ps rs t).2 = recSpanStart t).
  { unfold funcType, internType. by case_match. }
  destruct (funcType ps rs t) as [i t1]; simpl in *. pose proof (ts_step_wf _ _ W Hstep) as W1.
  specialize (IH t1 W1). destruct (map_types ts t1) as [idx t2]. destruct IH as (Hs & Hsp & Hl & IH).
  pose proof (ts_steps_wf _ _ W1 Hs) as W2. split_and!; [|congruence|simpl; lia|].
  - eapply ts_steps_trans; [|exact Hs]. econstructor; [constructor|exact Hstep].
  - intros [|k] ps' rs' Hlk; simpl in *; [|by apply IH].
    injection Hlk as <- <-. exists i. pose proof (wf_index _ W1 _ _ Hk). split_and!; [done|lia|].
    apply (wf_struct _ W2 (TFunc ps rs)); [by apply (below_nonneg (length (types t)))|].
    by apply (ts_steps_index _ _ _ _ Hs).
Qed.

Definition spliced_global (g : EngineGlobal) : GlobalDecl := mkGlobal (eg_type g) (eg_mutable g) (praw (eg_init g)).

Lemma map_globals_spec gs m :
  map_globals gs m = (map (λ k, Z.of_nat (length (globals m) + k)) (seq 0 (length gs)),
                      set_globals (globals m ++ map spliced_global gs) m).
Proof.
  revert m. induction gs as [|g gs IH]; intros m; simpl.
  - rewrite app_nil_r. by destruct m.
  - rewrite IH. simpl. rewrite length_app, <- fmap_S_seq. simpl. f_equal.
    + f_equal; [by rewrite Nat.add_0_r|]. unfold fmap. rewrite map_map. apply map_ext. intros k. f_equal. lia.
    + unfold set_globals; simpl. by rewrite <- app_assoc.
Qed.

Lemma js_at_Some {A} (xs : list A) i x : js_at xs i = Some x ↔ 0 <= i ∧ xs !! Z.to_nat i = Some x.
Proof. unfold js_at. destruct (Z.ltb_spec i 0); split; [done|lia|done|tauto]. Qed.

Lemma js_at_nat {A} (xs : list A) (k : nat) : js_at xs (Z.of_nat k) = xs !! k.
Proof. unfold js_at. destruct (Z.ltb_spec (Z.of_nat k) 0); [lia|]. by rewrite Nat2Z.id. Qed.

(** The binding of the engine's imports. *)
Lemma bind_imports_spec img typeMap bindImport m impMap :
  bind_imports img typeMap bindImport m = Ok impMap →
  Forall2 (λ imp target, bindImport imp = Ok target ∧ funcTypeOf target m = Ok (js_at typeMap (ei_type imp)))
    (img_imports img) impMap.
Proof.
  unfold bind_imports. intros H.
  assert (G : ∀ xs acc out, res_fold (λ imp acc,
    let* target := bindImport imp in let* ft := funcTypeOf target m in
    let* _ := throw_if (negb (bool_decide (ft = js_at typeMap (ei_type imp)))) "engine import bound to a function of the wrong type" in
    Ok (acc ++ [target])) xs acc = Ok out → ∃ tail, out = acc ++ tail ∧
      Forall2 (λ imp target, bindImport imp = Ok target ∧ funcTypeOf target m = Ok (js_at typeMap (ei_type imp))) xs tail).
  { induction xs as [|imp xs IH]; intros acc out E; simpl in E.
    - injection E as <-. exists []. by rewrite app_nil_r.
    - apply res_bind_Ok in E as (acc' & E1 & E). apply res_bind_Ok in E1 as (target & E2 & E1).
      apply res_bind_Ok in E1 as (ft & E3 & E1). apply res_bind_Ok in E1 as (u & E4 & E1).
      apply throw_if_Ok, negb_false_iff, bool_decide_eq_true in E4. injection E1 as <-. subst ft.
      destruct (IH _ _ E) as (tail & -> & Ht). exists (target :: tail). rewrite <- app_assoc. split; [done|]. by constructor. }
  destruct (G _ _ _ H) as (tail & E & Ht). simpl in E. by subst.
Qed.

(** Relocations whose five-byte windows lie in the code and apart. *)
Fixpoint apart (rs : list EngineReloc) : Prop :=
  match rs with
  | [] => True
  | r :: rs' => Forall (λ r', r_offset r + 5 <= r_offset r' ∨ r_offset r' + 5 <= r_offset r)%nat rs' ∧ apart rs'
  end.

Definition in_window (i : nat) (r : EngineReloc) : Prop := (r_offset r <= i < r_offset r + 5)%nat.

Lemma readUleb5_ext b b' at_ : (∀ k, (k < 5)%nat → b' !! (at_ + k)%nat = b !! (at_ + k)%nat) → readUleb5 b' at_ = readUleb5 b at_.
Proof. intros H. unfold readUleb5. simpl. by rewrite !H by lia. Qed.

Lemma write_window b at_ v b' : (at_ + 5 <= length b)%nat → writeUleb5 b at_ v = Ok b' →
  u32 v ∧ length b' = length b ∧ readUleb5 b' at_ = v ∧ ∀ i, ¬ (at_ <= i < at_ + 5)%nat → b' !! i = b !! i.
Proof.
  intros Hl E. assert (Hv : 0 <= v < 2 ^ 32).
  { unfold writeUleb5 in E. destruct (Z.ltb_spec v 0), (Z.leb_spec (2 ^ 32) v); simpl in E; (done || lia). }
  rewrite writeUleb5_digits in E by done. assert (b' = insert_digits at_ v b (seq 0 5)) as -> by congruence.
  split_and!; [done|apply insert_digits_length|by apply readUleb5_digits|].
  intros i Hi. apply insert_digits_other. intros k Hk%elem_of_seq. lia.
Qed.

Lemma patch_relocs_spec value relocs code code' :
  Forall (λ r, r_offset r + 5 <= length code)%nat relocs → apart relocs →
  patch_relocs value relocs code = Ok code' →
  length code' = length code ∧
  Forall (λ r, ∃ v, value r = Some v ∧ u32 v ∧ readUleb5 code' (r_offset r) = v) relocs ∧
  ∀ i, Forall (λ r, ¬ in_window i r) relocs → code' !! i = code !! i.
Proof.
  unfold patch_relocs. revert code. induction relocs as [|r rs IH]; intros code Hin Hap E; simpl in E.
  { injection E as <-. split_and!; [done|constructor|done]. }
  apply Forall_cons in Hin as [Hr Hin]. destruct Hap as [Hap Haps].
  apply res_bind_Ok in E as (c1 & E1 & E). destruct (value r) as [v|] eqn:Ev; [|done].
  destruct (write_window _ _ _ _ Hr E1) as (Hv & Hl1 & Hrd & Hoth).
  destruct (IH c1) as (Hl & Hall & Hout); [by rewrite Hl1|done|done|]. split; [lia|]. split.
  - constructor; [|done]. exists v. split_and!; [done..|]. rewrite <- Hrd. apply readUleb5_ext. intros k Hk. apply Hout.
    eapply Forall_impl; [exact Hap|]. unfold in_window. simpl. lia.
  - intros i Hi. apply Forall_cons in Hi as [Hi His]. rewrite Hout by done. by apply Hoth.
Qed.

(** What a merged index [v] denotes in the finished builder. *)
Definition resolves (img : EngineImage) (bindImport : EngineImport → res Z) (m' : ModuleBuilder)
    (r : EngineReloc) (v : Z) : Prop :=
  let idx := Z.to_nat (r_index r) in
  match r_space r with
  | RFunc =>
      match img_imports img !! idx with
      | Some imp => bindImport imp = Ok v
      | None => ∃ f, js_at (funcs m') (v - Z.of_nat (length (imports m'))) = Some f ∧
                  fd_engineBody f = Some (idx - length (img_imports img))%nat
      end
  | RType => ∃ ps rs, img_types img !! idx = Some (ps, rs) ∧
               types (mb_types m') !! Z.to_nat v = Some (mkEntry (TFunc ps rs) None)
  | RGlobal => ∃ g, img_globals img !! idx = Some g ∧ globals m' !! Z.to_nat v = Some (spliced_global g)
  | RTable => r_index r = 0 ∧ v = 0
  end.

(** The state [attachEngine] leaves. *)
Lemma attachEngine_inv img bindImport m link m' :
  attachEngine img bindImport m = Ok (link, m') →
  ∃ typeMap t impMap code,
    engineMemory m = true ∧ engine m = None ∧ recSpanStart (mb_types m) = None ∧
    map_types (img_types img) (mb_types m) = (typeMap, t) ∧
    bind_imports img typeMap bindImport (set_types t m) = Ok impMap ∧
    let funcBase := Z.of_nat (length (imports m) + length (funcs m)) in
    let globalMap := map (λ k, Z.of_nat (length (globals m) + k)) (seq 0 (length (img_globals img))) in
    patch_relocs (reloc_value img typeMap impMap globalMap funcBase) (img_relocs img) (img_code img) = Ok code ∧
    link = engine_link img impMap funcBase ∧
    m' = mkMB t (imports m) (funcs m ++ engine_funcs img typeMap) (globals m ++ map spliced_global (img_globals img))
           (exports m) (memoryPages m) (funcRefs m) (mb_blob m) true
           (Some (mkAttached code (img_bodies img) (img_tableMin img) (img_tableMax img) (img_memoryMin img)
                    (img_elemOffset img) (map (funcMap img impMap funcBase) (img_elemFuncs img)) (img_dataSegments img))).
Proof.
  unfold attachEngine. intros H.
  apply res_bind_Ok in H as (u1 & H1 & H). apply throw_if_Ok, negb_false_iff in H1.
  apply res_bind_Ok in H as (u2 & H2 & H). apply throw_if_Ok, bool_decide_eq_false, eq_None_not_Some in H2.
  apply res_bind_Ok in H as (u3 & H3 & H). apply throw_if_Ok, bool_decide_eq_false, eq_None_not_Some in H3.
  destruct (map_types _ _) as [typeMap t] eqn:Et. apply res_bind_Ok in H as (impMap & Hb & H).
  rewrite map_globals_spec in H. apply res_bind_Ok in H as (code & Hc & H). injection H as <- <-.
  exists typeMap, t, impMap, code. simpl in *. split_and!; try done. by rewrite H1.
Qed.

Lemma engine_funcs_lookup img typeMap k ty : img_funcTypes img !! k = Some ty →
  ∃ f, engine_funcs img typeMap !! k = Some f ∧ fd_engineBody f = Some k ∧ fd_typeIndex f = js_at typeMap ty.
Proof. intros H. unfold engine_funcs. rewrite list_lookup_imap, H. simpl. eexists. split; [reflexivity|done]. Qed.

Lemma reloc_value_resolves img bindImport m m' typeMap t impMap funcBase globalMap r v :
  ts_wf (mb_types m) → Forall (λ '(ps, rs), Forall mvp_type ps ∧ Forall mvp_type rs) (img_types img) →
  map_types (img_types img) (mb_types m) = (typeMap, t) →
  bind_imports img typeMap bindImport (set_types t m) = Ok impMap →
  funcBase = Z.of_nat (length (imports m) + length (funcs m)) →
  globalMap = map (λ k, Z.of_nat (length (globals m) + k)) (seq 0 (length (img_globals img))) →
  mb_types m' = t → imports m' = imports m → funcs m' = funcs m ++ engine_funcs img typeMap →
  globals m' = globals m ++ map spliced_global (img_globals img) →
  reloc_value img typeMap impMap globalMap funcBase r = Some v → resolves img bindImport m' r v.
Proof.
  intros W Hmvp Ht Hb -> -> Et Ei Ef Eg Hv. unfold reloc_value in Hv. unfold resolves.
  pose proof (map_types_spec _ _ W Hmvp) as Hty. rewrite Ht in Hty. destruct Hty as (_ & _ & Hlen & Hty).
  apply bind_imports_spec in Hb.
  destruct (r_space r).
  - destruct (Z.ltb_spec (r_index r) (Z.of_nat (length (img_imports img)) + Z.of_nat (length (img_funcTypes img)))) as [Hlt|];
      [|done]. unfold funcMap in Hv. destruct (Z.ltb_spec (r_index r) (Z.of_nat (length (img_imports img)))) as [Hi|Hi].
    + apply js_at_Some in Hv as [Hpos Hv]. destruct (Forall2_lookup_r _ _ _ _ _ Hb Hv) as (imp & Himp & Hbi & _).
      by rewrite Himp.
    + injection Hv as <-. rewrite lookup_ge_None_2 by lia.
      destruct (lookup_lt_is_Some_2 (img_funcTypes img) (Z.to_nat (r_index r) - length (img_imports img))%nat) as [ty Hty']; [lia|].
      destruct (engine_funcs_lookup img typeMap _ _ Hty') as (f & Hf & Hbody & _). exists f. split; [|done].
      rewrite Ef, Ei. apply js_at_Some. split; [lia|]. rewrite lookup_app_r by lia. rewrite <- Hf. f_equal. lia.
  - apply js_at_Some in Hv as [Hpos Hv]. pose proof (lookup_lt_Some _ _ _ Hv) as Hlt. rewrite Hlen in Hlt.
    destruct (lookup_lt_is_Some_2 (img_types img) (Z.to_nat (r_index r)) Hlt) as [[ps rs] Hps].
    exists ps, rs. split; [done|]. destruct (Hty _ _ _ Hps) as (i & Hi & _ & He). rewrite Et. congruence.
  - apply js_at_Some in Hv as [Hpos Hv]. rewrite list_lookup_fmap in Hv.
    apply fmap_Some in Hv as (k & Hk & ->). apply lookup_seq in Hk as [-> Hk]. simpl.
    destruct (lookup_lt_is_Some_2 (img_globals img) (Z.to_nat (r_index r)) Hk) as [g Hg]. exists g. split; [done|].
    rewrite Eg, Nat2Z.id, lookup_app_r, Nat.add_sub' by lia. rewrite list_lookup_fmap. by rewrite Hg.
  - destruct (Z.eqb_spec (r_index r) 0); [|done]. by injection Hv as <-.
Qed.

(** * The builder over time *)

(** One call on the builder.  The caller's obligations are those of the type
    space and, for the engine, the types [parseEngine] produces. *)
Inductive mb_step : ModuleBuilder → ModuleBuilder → Prop :=
  | mst_types t m : ts_step (mb_types m) t → mb_step m (set_types t m)
  | mst_import md nm ty i m m' : importFunc md nm ty m = Ok (i, m') → mb_step m m'
  | mst_declare ty nm m : mb_step m (declareFunc ty nm m).2
  | mst_body i locals code g m m' : setBody i locals code m g = Ok m' → mb_step m m'
  | mst_global ty mut init m : mb_step m (addGlobal ty mut init m).2
  | mst_memory n m : mb_step m (ensureMemory n m)
  | mst_export nm i m : mb_step m (exportFunc nm i m)
  | mst_exportmem nm m m' : exportMemory nm m = Ok m' → mb_step m m'
  | mst_data bs m : mb_step m (internData bs m).2
  | mst_ref i m : mb_step m (declareFuncRef i m)
  | mst_reserve g m : mb_step m (reserveEngineMemory m g).1
  | mst_attach img bind link m m' :
      Forall (λ '(ps, rs), Forall mvp_type ps ∧ Forall mvp_type rs) (img_types img) →
      length (img_bodies img) = length (img_funcTypes img) →
      attachEngine img bind m = Ok (link, m') → mb_step m m'.

Inductive mb_steps : ModuleBuilder → ModuleBuilder → Prop :=
  | mb_refl m : mb_steps m m
  | mb_trans m1 m2 m3 : mb_steps m1 m2 → mb_step m2 m3 → mb_steps m1 m3.

(** Calls never move or retype a declared function, never add an import in
    front of one, and never lose blob bytes. *)
Definition same_header (f f' : FuncDecl) : Prop :=
  fd_typeIndex f' = fd_typeIndex f ∧ fd_name f' = fd_name f ∧ fd_engineBody f' = fd_engineBody f.

Record mb_ext (m m' : ModuleBuilder) : Prop := {
  ext_funcs k f : funcs m !! k = Some f → ∃ f', funcs m' !! k = Some f' ∧ same_header f f';
  ext_imports : funcs m ≠ [] → imports m' = imports m;
  ext_blob : ∃ tail, blob (mb_blob m') = blob (mb_blob m) ++ tail;
  ext_index bs off : blobIndex (mb_blob m) !! bs = Some off → blobIndex (mb_blob m') !! bs = Some off
}.

Lemma mb_ext_refl m : mb_ext m m.
Proof. split; eauto; [intros; eexists; by repeat split|exists []; by rewrite app_nil_r]. Qed.

Lemma mb_ext_trans m1 m2 m3 : mb_ext m1 m2 → mb_ext m2 m3 → mb_ext m1 m3.
Proof.
  intros [F1 I1 [b1 B1] X1] [F2 I2 [b2 B2] X2]. split; eauto.
  - intros k f Hf. destruct (F1 k f Hf) as (f1 & Hf1 & ? & ? & ?). destruct (F2 k f1 Hf1) as (f2 & Hf2 & ? & ? & ?).
    exists f2. split; [done|]. repeat split; congruence.
  - intros Hne. destruct (funcs m1) as [|f fs] eqn:E; [done|]. rewrite <- I1 by done. apply I2.
    destruct (F1 0%nat f eq_refl) as (f' & Hf' & _). intros E2. by rewrite E2 in Hf'.
  - exists (b1 ++ b2). by rewrite B2, B1, app_assoc.
Qed.

(** A call that leaves functions, imports and data alone. *)
Lemma mb_ext_same m m' : funcs m' = funcs m → imports m' = imports m → mb_blob m' = mb_blob m → mb_ext m m'.
Proof. intros E1 E2 E3. destruct (mb_ext_refl m) as [F I B X]. by split; rewrite ?E1, ?E2, ?E3. Qed.

Lemma mb_ext_app m m' fs : funcs m' = funcs m ++ fs → imports m' = imports m → mb_blob m' = mb_blob m → mb_ext m m'.
Proof.
  intros E1 E2 E3. destruct (mb_ext_refl m) as [F I B X]. split; rewrite ?E1, ?E2, ?E3; auto.
  intros k f Hf. exists f. split; [by apply lookup_app_l_Some|by repeat split].
Qed.

Lemma setBody_inv i locals code m g m' : setBody i locals code m g = Ok m' →
  ∃ f, js_at (funcs m) (i - Z.of_nat (length (imports m))) = Some f ∧ fd_engineBody f = None ∧
    currentOurMemoryIndex g = (if engineMemory m then 1 else 0) ∧
    m' = set_funcs (<[Z.to_nat (i - Z.of_nat (length (imports m))) :=
           mkFunc (fd_typeIndex f) (fd_name f) (Some (locals, code)) None]> (funcs m)) m.
Proof.
  unfold setBody. destruct (js_at _ _) as [f|] eqn:Ef; [|done]. intros H.
  apply res_bind_Ok in H as (u1 & H1 & H). apply throw_if_Ok, bool_decide_eq_false, eq_None_not_Some in H1.
  apply res_bind_Ok in H as (u2 & H2 & H). apply throw_if_Ok, negb_false_iff, Z.eqb_eq in H2.
  injection H as <-. exists f. rewrite H1. by split_and!.
Qed.

Lemma mb_step_ext m m' : mb_step m m' → mb_ext m m'.
Proof.
  intros H. destruct H as [t m _|md nm ty i m m' E|ty nm m|i locals code g m m' E|ty mut init m|n m|nm i m|nm m m' E
    |bs m|i m|g m|img bind link m m' _ _ E]; try (by apply mb_ext_same).
  - unfold importFunc in E. apply res_bind_Ok in E as (u & E1 & E).
    apply throw_if_Ok, negb_false_iff, bool_decide_eq_true in E1. injection E as <- <-.
    split; simpl; rewrite ?E1; [intros k f Hf; done|done|exists []; by rewrite app_nil_r|done].
  - by eapply mb_ext_app.
  - apply setBody_inv in E as (f & Hf & Hb & _ & ->). apply js_at_Some in Hf as [_ Hf].
    destruct (mb_ext_refl m) as [F I B X]. split; simpl; auto. intros k f' Hf'.
    destruct (decide (k = Z.to_nat (i - Z.of_nat (length (imports m))))) as [->|Hk].
    + rewrite list_lookup_insert_eq by (by eapply lookup_lt_Some). eexists. split; [reflexivity|].
      assert (f' = f) as -> by congruence. repeat split; simpl; congruence.
    + rewrite list_lookup_insert_ne by congruence. by apply F.
  - unfold exportMemory in E. apply res_bind_Ok in E as (u & _ & E). injection E as <-. by apply mb_ext_same.
  - destruct (mb_ext_refl m) as [F I B X]. unfold internData, blob_intern.
    destruct (blobIndex (mb_blob m) !! bs) eqn:Eb; simpl; split; simpl; auto; [by eexists|].
    intros bs' off Hoff. rewrite lookup_insert_ne; [done|congruence].
  - apply attachEngine_inv in E as (typeMap & t & impMap & code & _ & _ & _ & _ & _ & H). destruct H as (_ & _ & ->).
    by eapply mb_ext_app.
Qed.

Lemma mb_steps_ext m m' : mb_steps m m' → mb_ext m m'.
Proof. induction 1; eauto using mb_ext_refl, mb_ext_trans, mb_step_ext. Qed.

(** The builder's invariant. *)
Definition blob_wf (b : DataBlob) : Prop :=
  ∀ bs off, blobIndex b !! bs = Some off →
    blobUsed b = true ∧ 0 <= off ∧ take (length bs) (drop (Z.to_nat off) (blob b)) = bs ∧
    (Z.to_nat off + length bs <= length (blob b))%nat.

Record mb_wf (m : ModuleBuilder) : Prop := {
  wf_types_ : ts_wf (mb_types m);
  wf_blob : blob_wf (mb_blob m);
  wf_memory e : e ∈ exports m → ex_desc e = DMemory → is_Some (memoryPages m);
  wf_engine : is_Some (engine m) → engineMemory m = true;
  wf_engine_body f k : f ∈ funcs m → fd_engineBody f = Some k →
    fd_body f = None ∧ ∃ e, engine m = Some e ∧ (k < length (ae_bodies e))%nat
}.

Lemma mb_new_mb_wf g : mb_wf (mb_new g).1.
Proof.
  split; simpl.
  - apply ts_new_wf.
  - intros bs off. simpl. by rewrite lookup_empty.
  - intros e H. by apply not_elem_of_nil in H.
  - by intros [? ?].
  - intros f k H. by apply not_elem_of_nil in H.
Qed.

Lemma slice_app (bs : list Z) (b tail : list Z) n : (n + length bs <= length b)%nat →
  take (length bs) (drop n b) = bs → take (length bs) (drop n (b ++ tail)) = bs.
Proof. intros Hl H. rewrite drop_app_le by lia. rewrite take_app_le by (rewrite length_drop; lia). done. Qed.

Lemma blob_intern_wf bs b : blob_wf b → blob_wf (blob_intern bs b).2.
Proof.
  intros W. unfold blob_intern. destruct (blobIndex b !! bs) as [o|] eqn:E; simpl; intros bs' off H; simpl in *.
  - destruct (W _ _ H) as (_ & ? & ? & ?). done.
  - apply lookup_insert_Some in H as [[<- <-]|[_ H]].
    + rewrite Nat2Z.id, length_app, drop_app_len by done. split_and!; [done|lia|by apply take_ge|lia].
    + destruct (W _ _ H) as (_ & ? & ? & ?). rewrite length_app. split_and!; [done|done|by apply slice_app|lia].
Qed.

Lemma mb_step_wf m m' : mb_wf m → mb_step m m' → mb_wf m'.
Proof.
  intros [Wt Wb Wm We Wf] H.
  destruct H as [t m H|md nm ty i m m' E|ty nm m|i locals code g m m' E|ty mut init m|n m|nm i m|nm m m' E
    |bs m|i m|g m|img bind link m m' Hmvp Hbodies E]; try (by split).
  - split; auto. by apply (ts_step_wf (mb_types m)).
  - unfold importFunc in E. apply res_bind_Ok in E as (u & _ & E). injection E as <- <-. by split.
  - split; auto. simpl. intros f k Hf Hk. apply elem_of_app in Hf as [Hf| ->%list_elem_of_singleton]; [eauto|done].
  - apply setBody_inv in E as (f & Hf & Hb & _ & ->). split; auto. simpl. intros f' k Hf' Hk.
    apply list_elem_of_lookup in Hf' as [j Hj]. apply list_lookup_insert_Some in Hj as [(_ & <- & _)|[_ Hj]]; [done|].
    eapply Wf; [by eapply list_elem_of_lookup_2|done].
  - split; auto. simpl. intros e He Hd. apply elem_of_app in He as [He| ->%list_elem_of_singleton]; [eauto|done].
  - unfold exportMemory in E. apply res_bind_Ok in E as (u & E1 & E). apply throw_if_Ok, bool_decide_eq_false in E1.
    injection E as <-. split; auto. simpl. intros _ _ _. by destruct (memoryPages m); [eexists|].
  - pose proof (blob_intern_wf bs _ Wb) as Wb'. unfold internData. destruct (blob_intern bs (mb_blob m)). by split.
  - apply attachEngine_inv in E as (typeMap & t & impMap & code & Hem & Hen & Hsp & Ht & _ & H). destruct H as (_ & _ & ->).
    pose proof (map_types_spec _ _ Wt Hmvp) as Hty. rewrite Ht in Hty. destruct Hty as (Hst & _).
    split; simpl; auto; [by eapply ts_steps_wf|]. intros f k Hf Hk. apply elem_of_app in Hf as [Hf|Hf].
    + destruct (Wf f k Hf Hk) as (_ & e & He & _). congruence.
    + unfold engine_funcs in Hf. apply elem_of_lookup_imap in Hf as (j & ty & -> & Hj). simpl in *. injection Hk as <-.
      split; [done|]. eexists. split; [done|]. simpl. rewrite Hbodies. by eapply lookup_lt_Some.
Qed.

Lemma mb_steps_wf m m' : mb_wf m → mb_steps m m' → mb_wf m'.
Proof. intros W. induction 1; eauto using mb_step_wf. Qed.

(** C35. The builder keeps its invariant: whatever sequence of calls follows
    [new ModuleBuilder()], the type space is well formed, every interned literal
    is in the data blob at its recorded offset, a memory is exported only when
    one exists, an attached engine owns memory 0, and an engine function has no
    body of its own and names a body of the attached engine. *)
Theorem builder_invariant g m : mb_steps (mb_new g).1 m → mb_wf m.
Proof. apply mb_steps_wf, mb_new_mb_wf. Qed.

Lemma sample_module_steps : mb_steps (mb_new sample_globals).1 sample_module.
Proof.
  apply mb_trans with (exportFunc (js_of_string "f") 1 sample_m6); [|apply mst_ref].
  apply mb_trans with sample_m6; [|apply mst_export].
  apply mb_trans with (ensureMemory 1 sample_m5); [|apply mst_data].
  apply mb_trans with sample_m5; [|apply mst_memory].
  apply mb_trans with sample_m4; [|apply mst_global].
  apply mb_trans with sample_m3; [|by apply (mst_body 1 [VF64; VF64; VI32] [0x20; 0] (mkGlobals 0 None))].
  apply mb_trans with sample_m2; [|apply mst_declare].
  apply mb_trans with sample_m1; [|by apply (mst_import (js_of_string "env") (js_of_string "log") 0 0)].
  apply mb_trans with sample_m0; [apply mb_refl|].
  apply mst_types, (step_intern (TFunc [VF64] [VF64])). unfold below. constructor.
Qed.

Lemma builder_invariant_witness : mb_wf sample_module.
Proof. exact (builder_invariant sample_globals sample_module sample_module_steps). Defined.

(** Function indices are stable: an index [declareFunc] returned names a
    function of that type and name at every later moment, no import can slip in
    front of it, and [setBody] on it (which succeeds only for a body built for
    this module's memory) changes that function's body and nothing else. *)
Theorem declared_index_stable ty nm m m2 :
  let '(i, m1) := declareFunc ty nm m in
  mb_steps m1 m2 →
  ∃ f, js_at (funcs m2) (i - Z.of_nat (length (imports m2))) = Some f ∧
    fd_typeIndex f = Some ty ∧ fd_name f = nm ∧ fd_engineBody f = None ∧
    (∀ md n t, is_ok (importFunc md n t m2) = false) ∧
    ∀ locals code g,
      (is_ok (setBody i locals code m2 g) = true ↔ ourMem g = if engineMemory m2 then 1 else 0) ∧
      ∀ m3, setBody i locals code m2 g = Ok m3 →
        js_at (funcs m3) (i - Z.of_nat (length (imports m3))) = Some (mkFunc (Some ty) nm (Some (locals, code)) None) ∧
        ∀ j, j ≠ i → js_at (funcs m3) (j - Z.of_nat (length (imports m3))) = js_at (funcs m2) (j - Z.of_nat (length (imports m2))).
Proof.
  simpl. intros Hs. apply mb_steps_ext in Hs as [F I _ _]. simpl in *.
  destruct (F (length (funcs m)) (mkFunc (Some ty) nm None None)) as (f & Hf & Ht & Hn & He).
  { by rewrite lookup_app_r, Nat.sub_diag by lia. }
  assert (Himp : imports m2 = imports m) by (apply I; by destruct (funcs m)). rewrite Himp. exists f.
  assert (Hat : js_at (funcs m2) (Z.of_nat (length (imports m) + length (funcs m)) - Z.of_nat (length (imports m))) = Some f).
  { rewrite <- Hf, <- js_at_nat. f_equal. lia. }
  split_and!; [done..| |].
  - intros md n t. unfold importFunc. destruct (funcs m2); [done|]. by rewrite bool_decide_eq_false_2.
  - intros locals code g. unfold setBody. rewrite Himp, Hat, He. simpl.
    unfold currentOurMemoryIndex. destruct (Z.eqb_spec (ourMem g) (if engineMemory m2 then 1 else 0)); simpl; (split; [done|]);
      [|done]. intros m3 [= <-]. simpl. rewrite ?Himp.
    apply js_at_Some in Hat as [Hpos Hlk]. rewrite Ht, Hn. split.
    + apply js_at_Some. split; [lia|]. apply list_lookup_insert_eq. by eapply lookup_lt_Some.
    + intros j Hj. unfold js_at. destruct (Z.ltb_spec (j - Z.of_nat (length (imports m))) 0); [done|].
      apply list_lookup_insert_ne. lia.
Qed.

Lemma declared_index_stable_witness :
  let m := (mb_new sample_globals).1 in
  let '(i, m1) := declareFunc 3 (js_of_string "g") m in
  ∃ f, js_at (funcs m1) (i - Z.of_nat (length (imports m1))) = Some f ∧
    fd_typeIndex f = Some 3 ∧ fd_name f = js_of_string "g" ∧ fd_engineBody f = None ∧
    (∀ md n t, is_ok (importFunc md n t m1) = false) ∧
    ∀ locals code g,
      (is_ok (setBody i locals code m1 g) = true ↔ ourMem g = if engineMemory m1 then 1 else 0) ∧
      ∀ m3, setBody i locals code m1 g = Ok m3 →
        js_at (funcs m3) (i - Z.of_nat (length (imports m3))) = Some (mkFunc (Some 3) (js_of_string "g") (Some (locals, code)) None) ∧
        ∀ j, j ≠ i → js_at (funcs m3) (j - Z.of_nat (length (imports m3))) = js_at (funcs m1) (j - Z.of_nat (length (imports m1))).
Proof. exact (declared_index_stable 3 (js_of_string "g") (mb_new sample_globals).1 _ (mb_refl _)). Defined.

(** Interned data stays put: the offset [internData] returns is, in every
    later state, where exactly those bytes lie in the blob the data section is
    written from; interning the same bytes again returns the same offset and
    leaves the blob alone. *)
Theorem interned_data_stable bs m m2 :
  mb_wf m →
  let '(off, m1) := internData bs m in
  mb_steps m1 m2 →
  0 <= off ∧ take (length bs) (drop (Z.to_nat off) (blob (mb_blob m2))) = bs ∧
  (Z.to_nat off + length bs <= length (blob (mb_blob m2)))%nat ∧
  (internData bs m2).1 = off ∧ blob (mb_blob (internData bs m2).2) = blob (mb_blob m2).
Proof.
  intros W. destruct (internData bs m) as [off m1] eqn:E. intros Hs.
  assert (Hm1 : m1 = (internData bs m).2) by (by rewrite E).
  assert (W1 : mb_wf m1) by (rewrite Hm1; eapply mb_step_wf; [done|apply mst_data]).
  assert (Hoff : blobIndex (mb_blob m1) !! bs = Some off).
  { unfold internData, blob_intern in E. destruct (blobIndex (mb_blob m) !! bs) eqn:Eb; simpl in E;
      injection E as <- <-; simpl; [done|apply lookup_insert_eq]. }
  pose proof (mb_steps_wf _ _ W1 Hs) as W2. apply mb_steps_ext in Hs as [_ _ _ X]. apply X in Hoff.
  destruct (wf_blob _ W2 _ _ Hoff) as (_ & ? & ? & ?). unfold internData, blob_intern. rewrite Hoff. by split_and!.
Qed.

Lemma interned_data_stable_witness :
  let '(off, m1) := internData [104; 105; 33] sample_module in
  off = 2 ∧ take 3 (drop (Z.to_nat off) (blob (mb_blob (ensureMemory 4 m1)))) = [104; 105; 33] ∧
  (Z.to_nat off + 3 <= length (blob (mb_blob (ensureMemory 4 m1))))%nat.
Proof.
  pose proof (interned_data_stable [104; 105; 33] sample_module
    (ensureMemory 4 (internData [104; 105; 33] sample_module).2)
    (mb_steps_wf _ _ (mb_new_mb_wf _) sample_module_steps)) as H.
  change (internData [104; 105; 33] sample_module) with (2, (internData [104; 105; 33] sample_module).2) in *.
  destruct H as (H0 & H1 & H2 & _).
  - eapply mb_trans; [apply mb_refl|apply mst_memory].
  - split; [reflexivity|]. exact (conj H1 H2).
Defined.

(** C13. Splicing the engine re-bases exactly its index immediates: every
    relocated five-byte window of the attached code encodes a merged index that
    denotes, in the builder, the entity the engine's own index named (the bound
    import, the engine's function at its body, the interned function type, the
    appended global, the one table), every other byte of the code is the
    engine's, and the engine's exports resolve the same way. *)
Theorem attachEngine_relocates img bind m link m' :
  ts_wf (mb_types m) → Forall (λ '(ps, rs), Forall mvp_type ps ∧ Forall mvp_type rs) (img_types img) →
  Forall (λ r, r_offset r + 5 <= length (img_code img))%nat (img_relocs img) → apart (img_relocs img) →
  attachEngine img bind m = Ok (link, m') →
  ∃ e, engine m' = Some e ∧ ae_bodies e = img_bodies img ∧ length (ae_code e) = length (img_code img) ∧
    Forall (λ r, resolves img bind m' r (readUleb5 (ae_code e) (r_offset r))) (img_relocs img) ∧
    (∀ i, Forall (λ r, ¬ in_window i r) (img_relocs img) → ae_code e !! i = img_code img !! i) ∧
    ∀ name idx, img_exports img !! name = Some idx →
      0 <= idx < Z.of_nat (length (img_imports img) + length (img_funcTypes img)) →
      ∃ v, link name = Ok (Some v) ∧ resolves img bind m' (mkReloc RFunc 0 idx) v.
Proof.
  intros W Hmvp Hin Hap H. apply attachEngine_inv in H as (typeMap & t & impMap & code & _ & _ & _ & Ht & Hb & Hp & -> & ->).
  eexists. split; [reflexivity|]. destruct (patch_relocs_spec _ _ _ _ Hin Hap Hp) as (Hl & Hall & Hout).
  split_and!; [done|done| |done|].
  - eapply Forall_impl; [exact Hall|]. simpl. intros r (v & Hv & _ & ->).
    by eapply (reloc_value_resolves img bind m).
  - intros name idx Hx Hidx. unfold engine_link. rewrite Hx.
    destruct (funcMap img impMap (Z.of_nat (length (imports m) + length (funcs m))) idx) as [v|] eqn:Ev.
    + exists v. split; [done|]. eapply (reloc_value_resolves img bind m); try done.
      unfold reloc_value. cbn [r_space r_index]. destruct (Z.ltb_spec idx (Z.of_nat (length (img_imports img)) + Z.of_nat (length (img_funcTypes img))));
        [exact Ev|lia].
    + exfalso. apply bind_imports_spec, Forall2_length in Hb. unfold funcMap in Ev.
      destruct (Z.ltb_spec idx (Z.of_nat (length (img_imports img)))); [|done].
      unfold js_at in Ev. destruct (Z.ltb_spec idx 0); [lia|]. apply lookup_ge_None in Ev. lia.
Qed.

Definition host_module : ModuleBuilder := (reserveEngineMemory sample_module sample_globals).1.
Definition spliced : res ((jsstr → res (option Z)) * ModuleBuilder) := attachEngine tiny_image (λ _, Throw "no import") host_module.
Definition spliced_module : ModuleBuilder := match spliced with Ok (_, m) => m | Throw _ => host_module end.

Lemma attachEngine_relocates_witness :
  ∃ e, engine spliced_module = Some e ∧ ae_code e = [1; 8; 0; 0x10; 0x82; 0x80; 0x80; 0x80; 0; 0x0b] ∧
    ae_bodies e = img_bodies tiny_image ∧ length (ae_code e) = 10%nat ∧
    Forall (λ r, resolves tiny_image (λ _, Throw "no import") spliced_module r (readUleb5 (ae_code e) (r_offset r))) (img_relocs tiny_image).
Proof.
  destruct (attachEngine_relocates tiny_image (λ _, Throw "no import") host_module
    (engine_link tiny_image [] 2) spliced_module) as (e & He & Hb & Hl & Hr & _).
  - exact sample_module_types.
  - apply Forall_singleton. by split.
  - apply Forall_singleton. simpl. lia.
  - by split.
  - reflexivity.
  - exists e. split; [exact He|]. split; [|by split_and!].
    assert (Hc : option_map ae_code (engine spliced_module) = Some [1; 8; 0; 0x10; 0x82; 0x80; 0x80; 0x80; 0; 0x0b]) by (vm_compute; reflexivity).
    rewrite He in Hc. by injection Hc.
Defined.

Definition expand_runs (rs : list (Z * ValType)) : list ValType := flat_map (λ r, replicate (Z.to_nat r.1) r.2) rs.

Lemma expand_app rs rs' : expand_runs (rs ++ rs') = expand_runs rs ++ expand_runs rs'.
Proof. apply flat_map_app. Qed.

Fixpoint no_adjacent (rs : list (Z * ValType)) : Prop :=
  match rs with
  | r :: ((r' :: _) as rs') => r.2 ≠ r'.2 ∧ no_adjacent rs'
  | _ => True
  end.

Lemma no_adjacent_snoc rs r r' : no_adjacent (rs ++ [r]) → r.2 ≠ r'.2 → no_adjacent (rs ++ [r; r']).
Proof.
  intros H Hne. induction rs as [|x rs IH]; [by simpl|].
  destruct rs as [|y rs]; simpl in *; destruct H as [? H]; (split; [done|]); first [exact (IH H)|done].
Qed.

Lemma no_adjacent_relabel rs c d t : no_adjacent (rs ++ [(c, t)]) → no_adjacent (rs ++ [(d, t)]).
Proof.
  intros H. induction rs as [|x rs IH]; [by simpl|].
  destruct rs as [|y rs]; simpl in *; destruct H as [? H]; (split; [done|]); first [exact (IH H)|done].
Qed.

Definition runs_of (rs : list (Z * ValType)) (locals : list ValType) : Prop :=
  expand_runs rs = locals ∧ Forall (λ r, 0 < r.1) rs ∧ no_adjacent rs.

Lemma push_run_spec rs locals l : runs_of rs locals → runs_of (push_run rs l) (locals ++ [l]).
Proof.
  intros (E & Hp & Hn). unfold push_run. destruct (last rs) as [[c t]|] eqn:El.
  - apply last_Some in El as [rs' ->]. rewrite expand_app in E. simpl in E.
    apply Forall_app in Hp as [Hp Hc]. rewrite Forall_singleton in Hc. simpl in Hc.
    case_decide as Ht.
    + apply valTypeKey_inj in Ht as ->. rewrite removelast_last. split_and!.
      * rewrite expand_app. simpl. rewrite <- E, <- app_assoc, !app_nil_r, Z2Nat.inj_add by lia.
        by rewrite replicate_add.
      * apply Forall_app. split; [done|]. rewrite Forall_singleton. simpl. lia.
      * by apply no_adjacent_relabel with c.
    + split_and!.
      * rewrite !expand_app. simpl. by rewrite <- E, !app_nil_r.
      * rewrite !Forall_app, !Forall_singleton. simpl. split_and!; [done|lia..].
      * rewrite <- app_assoc. apply no_adjacent_snoc; [done|]. simpl. congruence.
  - apply last_None in El. subst rs. simpl in E. subst locals. split_and!; [done| |done].
    simpl. rewrite Forall_singleton. simpl. lia.
Qed.

(** The locals of a function compress without loss: the (count, type) runs
    [emit] writes expand to exactly the declared locals in order, every count is
    positive, and no two neighbouring runs have the same type. *)
Theorem local_runs_exact locals :
  expand_runs (local_runs locals) = locals ∧ Forall (λ r, 0 < r.1) (local_runs locals) ∧ no_adjacent (local_runs locals).
Proof.
  unfold local_runs. induction locals as [|l locals IH] using rev_ind; [by split_and!; [|constructor|]|].
  rewrite foldl_app. exact (push_run_spec _ _ l IH).
Qed.
