(* ===== verification/IntDomain.v ===== *)
(** * The integer-boundary inference: abstract domain

    src/packages/compiler/src/library/int-infer.ts, first half: the interval
    domain, its join and widening, the transfer functions of JavaScript's
    arithmetic, and the boundary check that proves or refuses a value at a
    declared i64/u64 slot.  Shown: every transfer function over-approximates
    the JavaScript operation it stands for (with the exact side conditions
    where it does not), joins and widenings are upper bounds, widening
    stabilises, and a PROVE verdict means that every possible value is a whole
    number in the slot's range. *)

From S2P Require Import Prelude F64.

Definition fin (z : Z) : num := Fin (z * ONE).

Definition SAFE_MAX : num := fin (2 ^ 53 - 1).
Definition SAFE_MIN : num := num_neg SAFE_MAX.

Record AbsVal := mkAbs {
  av_lo : num;
  av_hi : num;
  av_whole : bool;
  av_nan : bool;
  av_spelling : option string
}.

#[export] Instance AbsVal_eq_dec : EqDecision AbsVal.
Proof. solve_decision. Defined.

Definition normZero (x : num) : num := match x with NZero => Fin 0 | _ => x end.

Definition absVal (lo hi : num) (whole maybeNaN : bool) (spelling : option string) : AbsVal :=
  let lo := normZero lo in
  let hi := normZero hi in
  let whole := if whole && negb (is_finite lo && is_finite hi) then false else whole in
  mkAbs lo hi whole maybeNaN spelling.

Definition TOP : AbsVal := mkAbs NInf PInf false true None.
Definition BOTTOM : AbsVal := mkAbs PInf NInf true false None.
(** [{ ...BOTTOM, maybeNaN }] *)
Definition bottom_nan (maybeNaN : bool) : AbsVal := mkAbs PInf NInf true maybeNaN None.

Definition isBottom (v : AbsVal) : bool := num_lt (av_hi v) (av_lo v) && negb (av_nan v).
Definition isSingleton (v : AbsVal) : bool := num_eq (av_lo v) (av_hi v) && negb (av_nan v).
Definition hasNumeric (v : AbsVal) : bool := num_le (av_lo v) (av_hi v).

Definition constVal (value : num) (spelling : option string) : AbsVal :=
  if is_nan value then mkAbs PInf NInf false true None
  else absVal value value (is_integer value) false spelling.

Definition join (a b : AbsVal) : AbsVal :=
  if isBottom a then b
  else if isBottom b then a
  else
    let numA := hasNumeric a in
    let numB := hasNumeric b in
    let lo := if numA && numB then math_min (av_lo a) (av_lo b) else if numA then av_lo a else av_lo b in
    let hi := if numA && numB then math_max (av_hi a) (av_hi b) else if numA then av_hi a else av_hi b in
    let whole := (if numA then av_whole a else true) && (if numB then av_whole b else true) in
    let spelling := if bool_decide (is_Some (av_spelling a)) && bool_decide (av_spelling a = av_spelling b)
                    then av_spelling a else None in
    absVal lo hi whole (av_nan a || av_nan b) spelling.

Definition sameVal (a b : AbsVal) : bool :=
  num_eq (av_lo a) (av_lo b) && num_eq (av_hi a) (av_hi b) && Bool.eqb (av_whole a) (av_whole b) &&
  Bool.eqb (av_nan a) (av_nan b) && bool_decide (av_spelling a = av_spelling b).

Definition WIDEN_THRESHOLDS : list num := [fin 0; fin (2 ^ 31 - 1); fin (2 ^ 32 - 1); SAFE_MAX; PInf].
Definition WIDEN_THRESHOLDS_NEG : list num := [fin 0; fin (- 2 ^ 31); SAFE_MIN; NInf].

Definition widen (prev next : AbsVal) : AbsVal :=
  if isBottom prev then next
  else
    let lo := if num_lt (av_lo next) (av_lo prev)
              then default NInf (find (λ t, num_le t (av_lo next)) WIDEN_THRESHOLDS_NEG) else av_lo next in
    let hi := if num_lt (av_hi prev) (av_hi next)
              then default PInf (find (λ t, num_le (av_hi next) t) WIDEN_THRESHOLDS) else av_hi next in
    absVal lo hi (av_whole next) (av_nan next) (av_spelling next).

(** ** Transfer functions *)

Definition boundMul (a b : num) : num := if is_zero a || is_zero b then Fin 0 else num_mul a b.

Definition is_pinf (x : num) : bool := match x with PInf => true | _ => false end.
Definition is_ninf (x : num) : bool := match x with NInf => true | _ => false end.
(** [x <= 0], [x >= 0], [x < 0], [x > 0] *)
Definition le0 (x : num) : bool := num_le x (Fin 0).
Definition ge0 (x : num) : bool := num_le (Fin 0) x.
Definition lt0 (x : num) : bool := num_lt x (Fin 0).
Definition gt0 (x : num) : bool := num_lt (Fin 0) x.

(** [Math.min(...xs)], [Math.max(...xs)] *)
Definition min_list (xs : list num) : num := foldl math_min PInf xs.
Definition max_list (xs : list num) : num := foldl math_max NInf xs.

Definition transferAdd (a b : AbsVal) : AbsVal :=
  let maybeNaN := av_nan a || av_nan b in
  if negb (hasNumeric a) || negb (hasNumeric b) then bottom_nan maybeNaN
  else
    let maybeNaN := maybeNaN || (is_pinf (av_hi a) && is_ninf (av_lo b)) || (is_ninf (av_lo a) && is_pinf (av_hi b)) in
    absVal (num_add (av_lo a) (av_lo b)) (num_add (av_hi a) (av_hi b)) (av_whole a && av_whole b) maybeNaN None.

Definition transferSub (a b : AbsVal) : AbsVal :=
  let maybeNaN := av_nan a || av_nan b in
  if negb (hasNumeric a) || negb (hasNumeric b) then bottom_nan maybeNaN
  else
    let maybeNaN := maybeNaN || (is_pinf (av_hi a) && is_pinf (av_hi b)) || (is_ninf (av_lo a) && is_ninf (av_lo b)) in
    absVal (num_sub (av_lo a) (av_hi b)) (num_sub (av_hi a) (av_lo b)) (av_whole a && av_whole b) maybeNaN None.

Definition transferMul (a b : AbsVal) : AbsVal :=
  let maybeNaN := av_nan a || av_nan b in
  if negb (hasNumeric a) || negb (hasNumeric b) then bottom_nan maybeNaN
  else
    let aHasZero := le0 (av_lo a) && ge0 (av_hi a) in
    let bHasZero := le0 (av_lo b) && ge0 (av_hi b) in
    let aInf := is_ninf (av_lo a) || is_pinf (av_hi a) in
    let bInf := is_ninf (av_lo b) || is_pinf (av_hi b) in
    let maybeNaN := maybeNaN || (aHasZero && bInf) || (bHasZero && aInf) in
    let p := [boundMul (av_lo a) (av_lo b); boundMul (av_lo a) (av_hi b);
              boundMul (av_hi a) (av_lo b); boundMul (av_hi a) (av_hi b)] in
    absVal (min_list p) (max_list p) (av_whole a && av_whole b) maybeNaN None.

Definition transferDiv (a b : AbsVal) : AbsVal :=
  let maybeNaN := av_nan a || av_nan b in
  if negb (hasNumeric a) || negb (hasNumeric b) then bottom_nan maybeNaN
  else if isSingleton b && is_zero (av_lo b) then
    let nanPossible := maybeNaN || (le0 (av_lo a) && ge0 (av_hi a)) in
    let lo := if lt0 (av_lo a) then NInf else PInf in
    let hi := if gt0 (av_hi a) then PInf else NInf in
    if num_lt hi lo then bottom_nan nanPossible else absVal lo hi false nanPossible None
  else if le0 (av_lo b) && ge0 (av_hi b) then TOP
  else
    let q := [num_div (av_lo a) (av_lo b); num_div (av_lo a) (av_hi b);
              num_div (av_hi a) (av_lo b); num_div (av_hi a) (av_hi b)] in
    let lo := min_list q in
    let hi := max_list q in
    absVal lo hi (num_eq lo hi && is_integer lo) maybeNaN None.

Definition transferMod (a b : AbsVal) : AbsVal :=
  let maybeNaN := av_nan a || av_nan b in
  if negb (hasNumeric a) || negb (hasNumeric b) then bottom_nan maybeNaN
  else
    let maybeNaN := maybeNaN || (le0 (av_lo b) && ge0 (av_hi b)) in
    let maybeNaN := maybeNaN || is_ninf (av_lo a) || is_pinf (av_hi a) in
    if isSingleton a && isSingleton b && negb maybeNaN then constVal (num_rem (av_lo a) (av_lo b)) None
    else
      let dMax := math_max (math_abs (av_lo b)) (math_abs (av_hi b)) in
      let bound := if av_whole a && av_whole b && is_finite dMax then num_sub dMax (fin 1) else dMax in
      let lo := if lt0 (av_lo a) then num_neg bound else Fin 0 in
      let hi := if gt0 (av_hi a) then bound else Fin 0 in
      absVal lo hi (av_whole a && av_whole b) maybeNaN None.

Inductive IrNumBinOp : Type :=
  | OpAdd | OpSub | OpMul | OpDiv | OpMod | OpPow
  | OpBitAnd | OpBitOr | OpBitXor | OpShl | OpShr | OpUshr
  | OpLt | OpLe | OpGt | OpGe | OpEq | OpNe.

#[export] Instance IrNumBinOp_eq_dec : EqDecision IrNumBinOp.
Proof. solve_decision. Defined.

(** JavaScript's [& | ^ << >> >>>] on Numbers. *)
Definition js_bitwise (op : IrNumBinOp) (x y : num) : num :=
  let l := num_to_int32 x in
  let r := num_to_int32 y in
  let sh := Z.land (num_to_uint32 y) 31 in
  num_of_Z
    match op with
    | OpBitAnd => Z.land l r
    | OpBitOr => Z.lor l r
    | OpBitXor => Z.lxor l r
    | OpShl => to_int32 (Z.shiftl l sh)
    | OpShr => Z.shiftr l sh
    | _ => Z.shiftr (num_to_uint32 x) sh
    end.

Definition transferBitwise (op : IrNumBinOp) (a b : AbsVal) : AbsVal :=
  if isSingleton a && isSingleton b then constVal (js_bitwise op (av_lo a) (av_lo b)) None
  else match op with
  | OpUshr => absVal (fin 0) (fin (2 ^ 32 - 1)) true false None
  | _ => absVal (fin (- 2 ^ 31)) (fin (2 ^ 31 - 1)) true false None
  end.

(** JavaScript's [~]. *)
Definition js_bitnot (x : num) : num := num_of_Z (Z.lnot (num_to_int32 x)).

Definition transferBitNot (a : AbsVal) : AbsVal :=
  if isSingleton a then constVal (js_bitnot (av_lo a)) None
  else absVal (fin (- 2 ^ 31)) (fin (2 ^ 31 - 1)) true false None.

Definition transferNeg (a : AbsVal) : AbsVal :=
  if negb (hasNumeric a) then bottom_nan (av_nan a)
  else absVal (num_neg (av_hi a)) (num_neg (av_lo a)) (av_whole a) (av_nan a) None.

Inductive round_fn := RTrunc | RFloor | RCeil | RRound.
Definition js_round (fn : round_fn) : num → num :=
  match fn with RTrunc => math_trunc | RFloor => math_floor | RCeil => math_ceil | RRound => math_round end.

Definition transferMathRound (fn : round_fn) (a : AbsVal) : AbsVal :=
  if negb (hasNumeric a) then bottom_nan (av_nan a)
  else absVal (js_round fn (av_lo a)) (js_round fn (av_hi a)) true (av_nan a) None.

Definition transferAbs (a : AbsVal) : AbsVal :=
  if negb (hasNumeric a) then bottom_nan (av_nan a)
  else
    let lo := if le0 (av_lo a) && ge0 (av_hi a) then Fin 0 else math_min (math_abs (av_lo a)) (math_abs (av_hi a)) in
    absVal lo (math_max (math_abs (av_lo a)) (math_abs (av_hi a))) (av_whole a) (av_nan a) None.

Inductive minmax_fn := FMin | FMax.
Definition js_minmax (fn : minmax_fn) (xs : list num) : num :=
  match fn with FMin => min_list xs | FMax => max_list xs end.

Definition transferMinMax (fn : minmax_fn) (args : list AbsVal) : AbsVal :=
  let maybeNaN := existsb av_nan args in
  if existsb (λ v, negb (hasNumeric v)) args then bottom_nan maybeNaN
  else absVal (js_minmax fn (map av_lo args)) (js_minmax fn (map av_hi args)) (forallb av_whole args) maybeNaN None.

(** The host's [**] is implementation-approximated: a parameter. *)
Section pow.
Context (num_pow : num → num → num).

Definition transferPow (a b : AbsVal) : AbsVal :=
  let maybeNaN := av_nan a || av_nan b in
  if negb (hasNumeric a) || negb (hasNumeric b) then bottom_nan maybeNaN
  else if isSingleton a && isSingleton b && negb maybeNaN then constVal (num_pow (av_lo a) (av_lo b)) None
  else if av_whole a && av_whole b && ge0 (av_lo b) && num_le (fin 1) (av_lo a)
  then absVal (num_pow (av_lo a) (av_lo b)) (num_pow (av_hi a) (av_hi b)) true maybeNaN None
  else TOP.

Definition transferBin (op : IrNumBinOp) (a b : AbsVal) : AbsVal :=
  match op with
  | OpAdd => transferAdd a b
  | OpSub => transferSub a b
  | OpMul => transferMul a b
  | OpDiv => transferDiv a b
  | OpMod => transferMod a b
  | OpPow => transferPow a b
  | OpBitAnd | OpBitOr | OpBitXor | OpShl | OpShr | OpUshr => transferBitwise op a b
  | _ => TOP
  end.

(** JavaScript's numeric operators. *)
Definition js_bin (op : IrNumBinOp) (x y : num) : num :=
  match op with
  | OpAdd => num_add x y
  | OpSub => num_sub x y
  | OpMul => num_mul x y
  | OpDiv => num_div x y
  | OpMod => num_rem x y
  | OpPow => num_pow x y
  | _ => js_bitwise op x y
  end.
End pow.

(** ** The boundary check *)

Inductive IntClass := I64 | U64.
Inductive IntObligation := Representability | Wholeness | Range.
Inductive outcome := Prove (provenLo provenHi : num) | Refuse (o : IntObligation).

#[export] Instance IntClass_eq_dec : EqDecision IntClass.
Proof. solve_decision. Defined.

(** The host's [Number] and [String] conversions of a decimal spelling. *)
Section spelling.
Context (Number_ : string → num) (String_ : num → string).

Definition spellingRoundTrips (spelling : string) : bool := bool_decide (String_ (Number_ spelling) = spelling).

Definition checkBoundary (v : AbsVal) (cls : IntClass) : outcome :=
  if match av_spelling v with Some s => negb (spellingRoundTrips s) | None => false end then Refuse Representability
  else if isBottom v then Prove NaN NaN
  else if av_nan v then Refuse Wholeness
  else
    let min := match cls with U64 => Fin 0 | I64 => SAFE_MIN end in
    if negb (num_le min (av_lo v) && num_le (av_hi v) SAFE_MAX) then Refuse Range
    else if negb (av_whole v) then Refuse Wholeness
    else Prove (av_lo v) (av_hi v).
End spelling.

Definition classSeed (cls : string) : AbsVal :=
  if String.eqb cls "i64" then absVal SAFE_MIN SAFE_MAX true false None
  else if String.eqb cls "u64" then absVal (Fin 0) SAFE_MAX true false None
  else if String.eqb cls "u8" then absVal (Fin 0) (fin 255) true false None
  else if String.eqb cls "u32" then absVal (Fin 0) (fin (2 ^ 32 - 1)) true false None
  else if String.eqb cls "i32" then absVal (fin (- 2 ^ 31)) (fin (2 ^ 31 - 1)) true false None
  else TOP.

(** * Concretisation *)

(** The numbers a value stands for. *)
Definition gamma (v : AbsVal) (x : num) : Prop :=
  wf_num x ∧
  if is_nan x then av_nan v = true
  else num_le (av_lo v) x = true ∧ num_le x (av_hi v) = true ∧ (av_whole v = true → is_integer x = true).

Definition is_nzero (x : num) : bool := match x with NZero => true | _ => false end.

(** Bounds are normalized numbers, and a whole set of numbers is bounded. *)
Record wf_av (v : AbsVal) : Prop := {
  wf_lo : wf_num (av_lo v);
  wf_hi : wf_num (av_hi v);
  wf_lo_num : is_nan (av_lo v) = false;
  wf_hi_num : is_nan (av_hi v) = false;
  wf_lo_norm : is_nzero (av_lo v) = false;
  wf_hi_norm : is_nzero (av_hi v) = false;
  wf_whole : av_whole v = true → hasNumeric v = true → is_finite (av_lo v) = true ∧ is_finite (av_hi v) = true
}.

Definition bounds_ok (v : AbsVal) : Prop := is_nan (av_lo v) = false ∧ is_nan (av_hi v) = false.

Lemma num_le_iff x y : num_le x y = true ↔ is_nan x = false ∧ is_nan y = false ∧ key x <= key y.
Proof. unfold num_le. destruct (is_nan x), (is_nan y); simpl; rewrite ?Z.leb_le; naive_solver. Qed.
Lemma num_lt_iff x y : num_lt x y = true ↔ is_nan x = false ∧ is_nan y = false ∧ key x < key y.
Proof. unfold num_lt. destruct (is_nan x), (is_nan y); simpl; rewrite ?Z.ltb_lt; naive_solver. Qed.
Lemma num_eq_iff x y : num_eq x y = true ↔ is_nan x = false ∧ is_nan y = false ∧ key x = key y.
Proof. unfold num_eq. destruct (is_nan x), (is_nan y); simpl; rewrite ?Z.eqb_eq; naive_solver. Qed.

Lemma key_finite_iff x : wf_num x → is_nan x = false → is_finite x = true ↔ - MAXK < key x < MAXK.
Proof.
  intros W Hn. split; [by apply key_finite|]. destruct x as [| | | |k]; simpl in *; try done; lia.
Qed.

Lemma integer_iff x : wf_num x → is_nan x = false →
  is_integer x = true ↔ (- MAXK < key x < MAXK ∧ key x mod ONE = 0).
Proof.
  intros W Hn. destruct x as [| | | |k]; simpl in *; try done.
  - split; [done|intros [[? ?] _]; lia].
  - split; [done|intros [[? ?] _]; lia].
  - destruct W as [Hk _]. rewrite Z.eqb_eq. split; [intros; split; [lia|done]|tauto].
Qed.

(** [is_integer] of numbers with the same key. *)
Lemma integer_key x y : wf_num x → wf_num y → is_nan x = false → is_nan y = false → key x = key y →
  is_integer x = is_integer y.
Proof.
  intros Wx Wy Hx Hy E. apply eq_true_iff_eq. rewrite !integer_iff by done. by rewrite E.
Qed.

Lemma normZero_key x : key (normZero x) = key x.
Proof. by destruct x. Qed.
Lemma normZero_nan x : is_nan (normZero x) = is_nan x.
Proof. by destruct x. Qed.
Lemma normZero_finite x : is_finite (normZero x) = is_finite x.
Proof. by destruct x. Qed.
Lemma normZero_nzero x : is_nzero (normZero x) = false.
Proof. by destruct x. Qed.
Lemma normZero_wf x : wf_num x → wf_num (normZero x).
Proof. destruct x; try done. intros _. apply repr_0. Qed.

Lemma absVal_wf lo hi whole nan sp :
  wf_num lo → wf_num hi → is_nan lo = false → is_nan hi = false → wf_av (absVal lo hi whole nan sp).
Proof.
  intros. split; unfold absVal; simpl;
    rewrite ?normZero_nan, ?normZero_nzero; auto using normZero_wf.
  intros Hw _. rewrite !normZero_finite in *. destruct whole, (is_finite lo), (is_finite hi); done.
Qed.

(** Membership in [absVal] needs only the keys. *)
Lemma gamma_absVal lo hi whole nan sp x :
  wf_num x → is_nan x = false → is_nan lo = false → is_nan hi = false →
  key lo <= key x <= key hi →
  (whole = true → is_finite lo = true → is_finite hi = true → is_integer x = true) →
  gamma (absVal lo hi whole nan sp) x.
Proof.
  intros W Hn Hl Hh Hk Hi. split; [done|]. rewrite Hn. unfold absVal; simpl.
  rewrite !num_le_iff, !normZero_nan, !normZero_key. split_and!; try done; try lia.
  rewrite !normZero_finite. intros Hw. apply Hi; destruct whole, (is_finite lo), (is_finite hi); done.
Qed.

Lemma gamma_nan v x : wf_num x → is_nan x = true → av_nan v = true → gamma v x.
Proof. intros W Hn Hv. split; [done|]. by rewrite Hn. Qed.

Lemma gamma_TOP x : wf_num x → gamma TOP x.
Proof.
  intros W. split; [done|]. destruct (is_nan x) eqn:Hn; [done|]. pose proof (key_range x W).
  rewrite !num_le_iff. simpl. split_and!; try done; lia.
Qed.

(** The members of a value, as keys. *)
Lemma gamma_num v x : gamma v x → is_nan x = false →
  hasNumeric v = true ∧ is_nan (av_lo v) = false ∧ is_nan (av_hi v) = false ∧ key (av_lo v) <= key x <= key (av_hi v).
Proof.
  intros [W H] Hn. rewrite Hn in H. destruct H as (H1 & H2 & _). apply num_le_iff in H1, H2.
  unfold hasNumeric. rewrite num_le_iff. destruct H1 as (? & ? & ?), H2 as (? & ? & ?). split_and!; try done; lia.
Qed.

Lemma gamma_whole v x : wf_av v → gamma v x → is_nan x = false → av_whole v = true →
  is_integer x = true ∧ is_finite (av_lo v) = true ∧ is_finite (av_hi v) = true.
Proof.
  intros Wv G Hn Hw. destruct (gamma_num v x G Hn) as (Hnum & _). destruct (wf_whole v Wv Hw Hnum) as [? ?].
  destruct G as [_ G]. rewrite Hn in G. split; [by apply G|done].
Qed.

Lemma gamma_is_nan v x : gamma v x → is_nan x = true → av_nan v = true.
Proof. intros [_ H] Hn. by rewrite Hn in H. Qed.

(** Singletons have one key, and so one non-negative-zero member. *)
Lemma singleton_key v x : isSingleton v = true → gamma v x → is_nan x = false ∧ key x = key (av_lo v).
Proof.
  unfold isSingleton. intros [Hs Hn]%andb_true_iff G. apply negb_true_iff in Hn. apply num_eq_iff in Hs.
  destruct (is_nan x) eqn:E; [apply gamma_is_nan in G; [congruence|done]|].
  split; [done|]. destruct (gamma_num v x G E) as (_ & _ & _ & ?). lia.
Qed.

Lemma key_inj x y : is_nan x = false → is_nan y = false → is_nzero x = false → is_nzero y = false →
  wf_num x → wf_num y → key x = key y → x = y.
Proof.
  pose proof MAXK_pos. destruct x as [| | | |k], y as [| | | |l]; simpl; intros ? ? ? ? W1 W2 E;
    try done; try lia; try (unfold repr in *; lia). congruence.
Qed.

Lemma singleton_eq v x : wf_av v → isSingleton v = true → gamma v x → is_nzero x = false → x = av_lo v.
Proof.
  intros W Hs G Hz. destruct (singleton_key v x Hs G). destruct W. apply key_inj; try done. by destruct G.
Qed.

Lemma gamma_const value x sp : wf_num value → wf_num x → is_nan value = is_nan x → (is_nan x = false → key x = key value) →
  gamma (constVal value sp) x.
Proof.
  intros Wv Wx En Ek. unfold constVal. destruct (is_nan value) eqn:Hv; [by apply gamma_nan|].
  symmetry in En. specialize (Ek En). apply gamma_absVal; try done; [lia|]. intros Hi _ _.
  by rewrite (integer_key x value).
Qed.

Lemma constVal_wf value sp : wf_num value → wf_av (constVal value sp).
Proof.
  intros W. unfold constVal. destruct (is_nan value) eqn:E; [by split|by apply absVal_wf].
Qed.

Lemma bottom_nan_wf b : wf_av (bottom_nan b).
Proof. by split. Qed.

(** Without numeric members only NaN can come out. *)
Lemma no_numeric v x : gamma v x → hasNumeric v = false → is_nan x = true ∧ av_nan v = true.
Proof.
  intros G Hn. destruct (is_nan x) eqn:E; [split; [done|by apply (gamma_is_nan v x)]|].
  destruct (gamma_num v x G E) as (H & _). congruence.
Qed.

(** * Monotonicity of the number operations

    On keys: the exact result is monotone and rounding keeps the order. *)

Lemma wf_add x y : wf_num x → wf_num y → wf_num (num_add x y).
Proof. intros Wx Wy. destruct x, y; simpl; try done; apply ratio_wf; lia. Qed.

Lemma wf_neg x : wf_num x → wf_num (num_neg x).
Proof.
  destruct x; simpl; try done; [intros _; apply repr_0|]. case_match; [done|]. apply repr_opp.
Qed.

Lemma key_neg x : key (num_neg x) = - key x.
Proof. destruct x as [| | | |k]; simpl; try lia. destruct (Z.eqb_spec k 0); simpl; lia. Qed.

Lemma neg_nan x : is_nan (num_neg x) = is_nan x.
Proof. destruct x; simpl; try done. by case_match. Qed.

Lemma neg_finite x : is_finite (num_neg x) = is_finite x.
Proof. destruct x; simpl; try done. by case_match. Qed.

Lemma key_add_fin x y : is_finite x = true → is_finite y = true →
  key (num_add x y) = key (num_of_ratio (key x + key y) 1 false).
Proof. destruct x, y; try discriminate; intros _ _; reflexivity. Qed.

Lemma add_cases x y : wf_num x → wf_num y → is_nan (num_add x y) = false →
  (is_finite x = true ∧ is_finite y = true) ∨
  (key (num_add x y) = MAXK ∧ (key x = MAXK ∨ key y = MAXK) ∧ - MAXK < key x ∧ - MAXK < key y) ∨
  (key (num_add x y) = - MAXK ∧ (key x = - MAXK ∨ key y = - MAXK) ∧ key x < MAXK ∧ key y < MAXK).
Proof.
  pose proof MAXK_pos. intros Wx Wy. destruct x as [| | | |k], y as [| | | |l]; try discriminate; intros _; auto;
    right; simpl; unfold wf_num, repr in *; try (left; split_and!; auto; lia); right; split_and!; auto; lia.
Qed.

Lemma add_mono x1 y1 x2 y2 : wf_num x1 → wf_num y1 → wf_num x2 → wf_num y2 →
  is_nan (num_add x1 y1) = false → is_nan (num_add x2 y2) = false →
  key x1 <= key x2 → key y1 <= key y2 → key (num_add x1 y1) <= key (num_add x2 y2).
Proof.
  intros W1 V1 W2 V2 N1 N2 Hx Hy. pose proof MAXK_pos.
  pose proof (key_range _ (wf_add _ _ W1 V1)). pose proof (key_range _ (wf_add _ _ W2 V2)).
  pose proof (key_range _ W1). pose proof (key_range _ V1). pose proof (key_range _ W2). pose proof (key_range _ V2).
  destruct (add_cases _ _ W1 V1 N1) as [[F1 G1]|D1], (add_cases _ _ W2 V2 N2) as [[F2 G2]|D2].
  - rewrite !key_add_fin by done. apply ratio_mono; lia.
  - pose proof (key_finite _ W1 F1). pose proof (key_finite _ V1 G1). lia.
  - pose proof (key_finite _ W2 F2). pose proof (key_finite _ V2 G2). lia.
  - lia.
Qed.

(** Integers. *)
Lemma integer_key_mult x : is_integer x = true → ∃ m, key x = m * ONE.
Proof.
  destruct x as [| | | |k]; try done; simpl; [intros _; by exists 0|]. intros H%Z.eqb_eq.
  exists (k / ONE). pose proof ONE_pos. pose proof (Z.div_mod k ONE ltac:(lia)). lia.
Qed.

Lemma integer_finite x : is_integer x = true → is_finite x = true.
Proof. by destruct x. Qed.

Lemma add_integer x y : wf_num x → wf_num y → is_integer x = true → is_integer y = true →
  is_finite (num_add x y) = true → is_integer (num_add x y) = true.
Proof.
  intros Wx Wy Hx Hy Hf. destruct (integer_key_mult x Hx) as [m Em], (integer_key_mult y Hy) as [n En].
  apply integer_finite in Hx as Fx, Hy as Fy.
  assert (E : num_add x y = NZero ∨ num_add x y = num_of_ratio ((m + n) * ONE * 1) 1 false).
  { replace ((m + n) * ONE * 1) with (key x + key y) by lia. destruct x, y; try done; simpl; auto. }
  destruct E as [->|E]; [done|]. rewrite E in *. by apply ratio_integer.
Qed.

Lemma neg_integer x : is_integer (num_neg x) = is_integer x.
Proof.
  destruct x as [| | | |k]; simpl; try done. destruct (Z.eqb_spec k 0) as [->|]; simpl; [done|].
  apply eq_true_iff_eq. rewrite !Z.eqb_eq. pose proof ONE_pos. split; intros H'.
  - apply Z.mod_opp_l_z in H'; [|lia]. by rewrite Z.opp_involutive in H'.
  - apply Z.mod_opp_l_z; [lia|done].
Qed.

(** ** Multiplication *)

Lemma wf_inf b : wf_num (inf_of b).
Proof. by destruct b. Qed.
Lemma wf_zero b : wf_num (zero_of b).
Proof. destruct b; [done|apply repr_0]. Qed.
#[local] Hint Resolve wf_inf wf_zero ratio_wf ONE_pos : ts.

Lemma wf_mul x y : wf_num (num_mul x y).
Proof. unfold num_mul. repeat case_match; simpl; auto with ts; try apply wf_inf. Qed.

Lemma sign_key x : is_nan x = false → is_zero x = false → sign_neg x = (key x <? 0).
Proof.
  pose proof MAXK_pos. destruct x as [| | | |k]; try discriminate; intros _ _; try reflexivity; simpl; symmetry;
    first [apply Z.ltb_ge; lia|apply Z.ltb_lt; lia].
Qed.

Lemma zero_key x : is_nan x = false → is_zero x = (key x =? 0).
Proof.
  pose proof MAXK_pos. destruct x as [| | | |k]; try discriminate; intros _; try reflexivity; simpl; symmetry; apply Z.eqb_neq; lia.
Qed.

Lemma key_ratio_0 d z : 0 < d → key (num_of_ratio 0 d z) = 0.
Proof. intros. by rewrite key_ratio. Qed.

(** The product bound of two non-NaN numbers, as a key. *)
Lemma key_boundMul x y : wf_num x → wf_num y → is_nan x = false → is_nan y = false →
  key (boundMul x y) =
    if is_finite x && is_finite y then key (num_of_ratio (key x * key y) ONE false)
    else Z.sgn (key x) * Z.sgn (key y) * MAXK.
Proof.
  intros Wx Wy Nx Ny. pose proof MAXK_pos as HM. pose proof ONE_pos as HO. unfold boundMul.
  rewrite !zero_key by done.
  destruct (Z.eqb_spec (key x) 0) as [Ex|Ex]; [rewrite Ex, Z.mul_0_l, key_ratio_0 by done; destruct (is_finite x && is_finite y); reflexivity|].
  destruct (Z.eqb_spec (key y) 0) as [Ey|Ey]; [rewrite Ey, Z.mul_0_r, key_ratio_0, Z.sgn_0, Z.mul_0_r by done; destruct (is_finite x && is_finite y); reflexivity|].
  cbn [orb]. unfold num_mul. rewrite Nx, Ny. cbn [orb].
  rewrite !sign_key by (rewrite ?zero_key by done; try done; by apply Z.eqb_neq).
  rewrite !zero_key by done.
  destruct (Z.eqb_spec (key x) 0), (Z.eqb_spec (key y) 0); try done.
  destruct (is_finite x), (is_finite y); cbn [andb]; [by rewrite !key_ratio| | |];
    destruct (Z.ltb_spec (key x) 0), (Z.ltb_spec (key y) 0); simpl; rewrite ?Z.sgn_neg, ?Z.sgn_pos by lia; lia.
Qed.

Lemma boundMul_nan x y : is_nan x = false → is_nan y = false → is_nan (boundMul x y) = false.
Proof.
  intros Nx Ny. unfold boundMul, num_mul. rewrite Nx, Ny. simpl.
  destruct (is_zero x); [done|]. destruct (is_zero y); [done|]. simpl.
  repeat case_match; try done; [apply ratio_not_nan|unfold inf_of; by case_match..].
Qed.

Lemma wf_boundMul x y : wf_num (boundMul x y).
Proof. unfold boundMul. case_match; [apply repr_0|apply wf_mul]. Qed.

Lemma infinite_key x : is_nan x = false → is_finite x = false → key x = MAXK ∨ key x = - MAXK.
Proof. destruct x; try discriminate; auto. Qed.

Lemma sgn_mono a b : a <= b → Z.sgn a <= Z.sgn b.
Proof. pose proof (Z.sgn_spec a). pose proof (Z.sgn_spec b). lia. Qed.

(** A product with an infinite factor takes the sign of the other. *)
Lemma boundMul_inf_r x y : wf_num x → is_nan x = false → is_nan y = false → is_finite y = false → wf_num y →
  key (boundMul x y) = Z.sgn (key x) * key y.
Proof.
  intros Wx Nx Ny Fy Wy. rewrite key_boundMul, Fy, andb_false_r by done. pose proof MAXK_pos.
  destruct (infinite_key y Ny Fy) as [-> | ->]; rewrite ?(Z.sgn_pos MAXK), ?(Z.sgn_neg (- MAXK)) by lia; ring.
Qed.

Lemma boundMul_comm x y : wf_num x → wf_num y → is_nan x = false → is_nan y = false →
  key (boundMul x y) = key (boundMul y x).
Proof.
  intros. rewrite !key_boundMul by done. rewrite andb_comm, (Z.mul_comm (key x)), (Z.mul_comm (Z.sgn _) (Z.sgn _)). done.
Qed.

Lemma boundMul_mono_l x1 x2 y : wf_num x1 → wf_num x2 → wf_num y →
  is_nan x1 = false → is_nan x2 = false → is_nan y = false → key x1 <= key x2 →
  (0 <= key y → key (boundMul x1 y) <= key (boundMul x2 y)) ∧
  (key y <= 0 → key (boundMul x2 y) <= key (boundMul x1 y)).
Proof.
  intros W1 W2 Wy N1 N2 Ny Hx. pose proof MAXK_pos. pose proof ONE_pos.
  pose proof (key_range _ (wf_boundMul x1 y)) as B1. pose proof (key_range _ (wf_boundMul x2 y)) as B2.
  destruct (is_finite y) eqn:Fy.
  2: { rewrite !boundMul_inf_r by done. pose proof (sgn_mono _ _ Hx). split; intros; nia. }
  destruct (is_finite x1) eqn:F1, (is_finite x2) eqn:F2.
  - rewrite !key_boundMul, F1, F2, Fy by done. cbn [andb]. split; intros; (apply ratio_mono; [done..|]);
      (apply Z.mul_le_mono_nonneg_r; [lia|]); [by apply Z.mul_le_mono_nonneg_r|by apply Z.mul_le_mono_nonpos_r].
  - assert (E : key x2 = MAXK).
    { pose proof (key_finite _ W1 F1). destruct (infinite_key x2 N2 F2); lia. }
    assert (E2 : key (boundMul x2 y) = Z.sgn (key y) * MAXK) by (by rewrite boundMul_comm, boundMul_inf_r, E by done).
    rewrite E2 in *. destruct (Z.lt_trichotomy (key y) 0) as [Hy|[Hy|Hy]];
      [rewrite Z.sgn_neg by lia; lia| |rewrite Z.sgn_pos by lia; lia].
    rewrite key_boundMul, Hy, F1, Fy, Z.mul_0_r, key_ratio_0 by done. simpl. lia.
  - assert (E : key x1 = - MAXK).
    { pose proof (key_finite _ W2 F2). destruct (infinite_key x1 N1 F1); lia. }
    assert (E2 : key (boundMul x1 y) = - (Z.sgn (key y) * MAXK)) by (rewrite boundMul_comm, boundMul_inf_r, E by done; ring).
    rewrite E2 in *. destruct (Z.lt_trichotomy (key y) 0) as [Hy|[Hy|Hy]];
      [rewrite Z.sgn_neg by lia; lia| |rewrite Z.sgn_pos by lia; lia].
    rewrite (key_boundMul x2), Hy, F2, Fy, Z.mul_0_r, key_ratio_0 by done. simpl. lia.
  - rewrite !(boundMul_comm _ y), !boundMul_inf_r by done. pose proof (Z.sgn_spec (key y)). split; intros; nia.
Qed.

(** A function of two numbers monotone, one way or the other, in each argument
    takes its extreme values at the corners. *)
Definition mono_on (P : num → Prop) (f : num → Z) : Prop :=
  (∀ x1 x2, P x1 → P x2 → key x1 <= key x2 → f x1 <= f x2) ∨
  (∀ x1 x2, P x1 → P x2 → key x1 <= key x2 → f x2 <= f x1).

Lemma corners (P Q : num → Prop) (g : num → num → Z) l h l' h' x y :
  P l → P h → P x → Q l' → Q h' → Q y →
  key l <= key x <= key h → key l' <= key y <= key h' →
  (∀ z, Q z → mono_on P (λ u, g u z)) → (∀ u, P u → mono_on Q (g u)) →
  Z.min (Z.min (g l l') (g l h')) (Z.min (g h l') (g h h')) <= g x y <=
  Z.max (Z.max (g l l') (g l h')) (Z.max (g h l') (g h h')).
Proof.
  intros Pl Ph Px Ql Qh Qy Hx Hy M1 M2.
  assert (A : Z.min (g l y) (g h y) <= g x y <= Z.max (g l y) (g h y)).
  { destruct (M1 y Qy) as [M|M]; pose proof (M l x Pl Px ltac:(lia)); pose proof (M x h Px Ph ltac:(lia)); simpl in *; lia. }
  assert (B : ∀ u, P u → Z.min (g u l') (g u h') <= g u y <= Z.max (g u l') (g u h')).
  { intros u Pu. destruct (M2 u Pu) as [M|M]; pose proof (M l' y Ql Qy ltac:(lia)); pose proof (M y h' Qy Qh ltac:(lia)); lia. }
  pose proof (B l Pl). pose proof (B h Ph). lia.
Qed.

(** ** Division *)

Lemma wf_div x y : wf_num (num_div x y).
Proof.
  unfold num_div. destruct (is_nan x || is_nan y) eqn:En; [done|]. apply orb_false_iff in En as [_ Ny].
  destruct (is_finite x) eqn:?, (is_finite y) eqn:?; auto with ts; try done.
  destruct (is_zero y) eqn:Hz; [case_match; [exact I|apply wf_inf]|].
  destruct (decide (key y = 0)) as [E|E].
  - exfalso. rewrite (zero_key y Ny), E in Hz. discriminate Hz.
  - apply ratio_wf. lia.
Qed.

(** The quotient of two non-NaN numbers that are not both infinite, by a
    non-zero divisor. *)
Lemma key_div x y : is_nan x = false → is_nan y = false → key y ≠ 0 →
  is_finite x || is_finite y = true →
  key (num_div x y) =
    if is_finite x
    then (if is_finite y then key (num_of_ratio (key x * Z.sgn (key y) * ONE) (Z.abs (key y)) false) else 0)
    else Z.sgn (key y) * key x.
Proof.
  intros Nx Ny Hy Hf. unfold num_div. rewrite Nx, Ny. cbn [orb]. rewrite (zero_key y) by done.
  destruct (Z.eqb_spec (key y) 0) as [|_]; [done|].
  assert (Sy : sign_neg y = (key y <? 0)) by (apply sign_key; [done|]; rewrite zero_key by done; by apply Z.eqb_neq).
  destruct (is_finite x) eqn:Fx, (is_finite y) eqn:Fy; try discriminate Hf.
  - rewrite !key_ratio by lia. done.
  - unfold zero_of. by case_match.
  - pose proof MAXK_pos. rewrite Sy. destruct (infinite_key x Nx Fx) as [E|E].
    + assert (sign_neg x = false) as -> by (destruct x; try done; simpl in E; lia). rewrite E.
      destruct (Z.ltb_spec (key y) 0); simpl; [rewrite Z.sgn_neg by lia|rewrite Z.sgn_pos by lia]; lia.
    + assert (sign_neg x = true) as -> by (destruct x; try done; simpl in E; lia). rewrite E.
      destruct (Z.ltb_spec (key y) 0); simpl; [rewrite Z.sgn_neg by lia|rewrite Z.sgn_pos by lia]; lia.
Qed.

Lemma div_nan x y : is_nan x = false → is_nan y = false → key y ≠ 0 →
  is_nan (num_div x y) = negb (is_finite x || is_finite y).
Proof.
  intros Nx Ny Hy. unfold num_div. rewrite Nx, Ny. cbn [orb]. rewrite (zero_key y) by done.
  destruct (Z.eqb_spec (key y) 0) as [|_]; [done|].
  destruct (is_finite x), (is_finite y); simpl; try done; [apply ratio_not_nan|unfold zero_of; by case_match|unfold inf_of; by case_match].
Qed.

Lemma key_ratio_sign n d z : 0 < d → (0 <= n → 0 <= key (num_of_ratio n d z)) ∧ (n <= 0 → key (num_of_ratio n d z) <= 0).
Proof.
  intros Hd. rewrite key_ratio by done. pose proof (round_pos_nonneg (Z.abs n) d ltac:(lia) Hd). pose proof MAXK_pos.
  pose proof (Z.sgn_spec n). split; intros; nia.
Qed.

Lemma div_mono_l x1 x2 y : wf_num x1 → wf_num x2 → wf_num y →
  is_nan x1 = false → is_nan x2 = false → is_nan y = false → key y ≠ 0 →
  is_finite x1 || is_finite y = true → is_finite x2 || is_finite y = true → key x1 <= key x2 →
  (0 < key y → key (num_div x1 y) <= key (num_div x2 y)) ∧ (key y < 0 → key (num_div x2 y) <= key (num_div x1 y)).
Proof.
  intros W1 W2 Wy N1 N2 Ny Hy D1 D2 Hx.
  pose proof (key_range _ (wf_div x1 y)) as B1. pose proof (key_range _ (wf_div x2 y)) as B2.
  rewrite !key_div in * by done. pose proof ONE_pos.
  destruct (is_finite x1) eqn:F1, (is_finite x2) eqn:F2, (is_finite y) eqn:Fy; try discriminate.
  - split; intros Hs; [rewrite Z.sgn_pos by lia|rewrite Z.sgn_neg by lia]; (apply ratio_mono; [lia..|]);
      (apply Z.mul_le_mono_nonneg_r; [lia|]); (apply Z.mul_le_mono_nonneg_r; [lia|]); lia.
  - lia.
  - pose proof (key_finite _ W1 F1). destruct (infinite_key x2 N2 F2) as [E|E]; [|lia]. rewrite E in *.
    split; intros Hs; [rewrite (Z.sgn_pos (key y)) in * by lia|rewrite (Z.sgn_neg (key y)) in * by lia]; lia.
  - pose proof (key_finite _ W2 F2). destruct (infinite_key x1 N1 F1) as [E|E]; [lia|]. rewrite E in *.
    split; intros Hs; [rewrite (Z.sgn_pos (key y)) in * by lia|rewrite (Z.sgn_neg (key y)) in * by lia]; lia.
  - split; intros Hs; [rewrite (Z.sgn_pos (key y)) by lia|rewrite (Z.sgn_neg (key y)) by lia]; lia.
Qed.

Lemma div_mono_r x y1 y2 : wf_num x → wf_num y1 → wf_num y2 →
  is_nan x = false → is_nan y1 = false → is_nan y2 = false → 0 < key y1 ∨ key y2 < 0 →
  is_finite x || is_finite y1 = true → is_finite x || is_finite y2 = true → key y1 <= key y2 →
  (0 <= key x → key (num_div x y2) <= key (num_div x y1)) ∧ (key x <= 0 → key (num_div x y1) <= key (num_div x y2)).
Proof.
  intros Wx W1 W2 Nx N1 N2 Hs D1 D2 Hy. rewrite !key_div by (done || lia). pose proof ONE_pos.
  assert (Sg : Z.sgn (key y1) = Z.sgn (key y2)).
  { destruct Hs; [rewrite !Z.sgn_pos by lia|rewrite !Z.sgn_neg by lia]; done. }
  destruct (is_finite x) eqn:Fx; [|rewrite Sg; lia].
  destruct (is_finite y1) eqn:F1, (is_finite y2) eqn:F2.
  - rewrite Sg. assert (Hm : 0 <= Z.sgn (key y2) * (Z.abs (key y2) - Z.abs (key y1))).
    { destruct Hs; [rewrite Z.sgn_pos by lia|rewrite Z.sgn_neg by lia]; lia. }
    split; intros Hx; (apply ratio_mono; [lia..|]);
      rewrite <- !(Z.mul_shuffle0 _ _ ONE); (apply Z.mul_le_mono_nonneg_r; [lia|]); nia.
  - pose proof (key_ratio_sign (key x * Z.sgn (key y1) * ONE) (Z.abs (key y1)) false ltac:(lia)) as [P1 P2].
    assert (key y2 = MAXK ∨ key y2 = - MAXK) as E by (by apply infinite_key). pose proof (key_finite _ W1 F1). pose proof MAXK_pos.
    assert (0 < key y1) by lia. rewrite (Z.sgn_pos (key y1)) in * by lia. split; intros; [apply P1|apply P2]; nia.
  - pose proof (key_ratio_sign (key x * Z.sgn (key y2) * ONE) (Z.abs (key y2)) false ltac:(lia)) as [P1 P2].
    assert (key y1 = MAXK ∨ key y1 = - MAXK) as E by (by apply infinite_key). pose proof (key_finite _ W2 F2). pose proof MAXK_pos.
    assert (key y2 < 0) by lia. rewrite (Z.sgn_neg (key y2)) in * by lia. split; intros; [apply P2|apply P1]; nia.
  - lia.
Qed.

(** ** Minimum and maximum *)

Lemma key_min x y : is_nan x = false → is_nan y = false → is_nan (math_min x y) = false ∧ key (math_min x y) = Z.min (key x) (key y).
Proof.
  intros Nx Ny. unfold math_min. rewrite Nx, Ny. cbn [orb].
  destruct (Z.ltb_spec (key x) (key y)); [split; [done|lia]|]. destruct (Z.ltb_spec (key y) (key x)); [split; [done|lia]|].
  destruct (sign_neg x); (split; [done|lia]).
Qed.

Lemma key_max x y : is_nan x = false → is_nan y = false → is_nan (math_max x y) = false ∧ key (math_max x y) = Z.max (key x) (key y).
Proof.
  intros Nx Ny. unfold math_max. rewrite Nx, Ny. cbn [orb].
  destruct (Z.ltb_spec (key x) (key y)); [split; [done|lia]|]. destruct (Z.ltb_spec (key y) (key x)); [split; [done|lia]|].
  destruct (sign_neg x); (split; [done|lia]).
Qed.

Lemma minmax_nan x y : is_nan (math_min x y) = is_nan x || is_nan y ∧ is_nan (math_max x y) = is_nan x || is_nan y.
Proof.
  unfold math_min, math_max. destruct (is_nan x) eqn:E1, (is_nan y) eqn:E2; try done. cbn [orb].
  split; repeat case_match; done.
Qed.

Lemma wf_min x y : wf_num x → wf_num y → wf_num (math_min x y).
Proof. intros. unfold math_min. repeat case_match; done. Qed.
Lemma wf_max x y : wf_num x → wf_num y → wf_num (math_max x y).
Proof. intros. unfold math_max. repeat case_match; done. Qed.

Definition kmin (a : Z) (xs : list num) : Z := foldl (λ m x, Z.min m (key x)) a xs.
Definition kmax (a : Z) (xs : list num) : Z := foldl (λ m x, Z.max m (key x)) a xs.

Lemma fold_min xs a : is_nan (foldl math_min a xs) = is_nan a || existsb is_nan xs ∧
  (is_nan (foldl math_min a xs) = false → key (foldl math_min a xs) = kmin (key a) xs) ∧
  (wf_num a → Forall wf_num xs → wf_num (foldl math_min a xs)).
Proof.
  revert a. induction xs as [|x xs IH]; intros a; simpl; [by rewrite orb_false_r|].
  destruct (IH (math_min a x)) as (I1 & I2 & I3). rewrite I1, (proj1 (minmax_nan a x)), orb_assoc. split_and!; [done| |].
  - intros Hn. rewrite I2 by (rewrite I1, (proj1 (minmax_nan a x)); done).
    apply orb_false_iff in Hn as [Hn _]. apply orb_false_iff in Hn as [Na Nx]. by rewrite (proj2 (key_min a x Na Nx)).
  - intros Wa Hxs. apply Forall_cons in Hxs as [Wx Hxs]. apply I3; [by apply wf_min|done].
Qed.

Lemma fold_max xs a : is_nan (foldl math_max a xs) = is_nan a || existsb is_nan xs ∧
  (is_nan (foldl math_max a xs) = false → key (foldl math_max a xs) = kmax (key a) xs) ∧
  (wf_num a → Forall wf_num xs → wf_num (foldl math_max a xs)).
Proof.
  revert a. induction xs as [|x xs IH]; intros a; simpl; [by rewrite orb_false_r|].
  destruct (IH (math_max a x)) as (I1 & I2 & I3). rewrite I1, (proj2 (minmax_nan a x)), orb_assoc. split_and!; [done| |].
  - intros Hn. rewrite I2 by (rewrite I1, (proj2 (minmax_nan a x)); done).
    apply orb_false_iff in Hn as [Hn _]. apply orb_false_iff in Hn as [Na Nx]. by rewrite (proj2 (key_max a x Na Nx)).
  - intros Wa Hxs. apply Forall_cons in Hxs as [Wx Hxs]. apply I3; [by apply wf_max|done].
Qed.

(** Bounds of four numbers. *)
Lemma min_list4 a b c d : is_nan (min_list [a; b; c; d]) = false → Forall wf_num [a; b; c; d] →
  Forall (λ x, is_nan x = false) [a; b; c; d] ∧ is_nan (max_list [a; b; c; d]) = false ∧
  key (min_list [a; b; c; d]) = Z.min (Z.min (key a) (key b)) (Z.min (key c) (key d)) ∧
  key (max_list [a; b; c; d]) = Z.max (Z.max (key a) (key b)) (Z.max (key c) (key d)) ∧
  wf_num (min_list [a; b; c; d]) ∧ wf_num (max_list [a; b; c; d]).
Proof.
  intros Hn W. unfold min_list, max_list in *.
  destruct (fold_min [a; b; c; d] PInf) as (M1 & M2 & M3), (fold_max [a; b; c; d] NInf) as (X1 & X2 & X3).
  rewrite M1 in Hn. simpl in Hn. repeat (apply orb_false_iff in Hn as [? Hn]).
  assert (Hn' : is_nan (foldl math_min PInf [a; b; c; d]) = false) by (rewrite M1; simpl; by rewrite H, H0, H1, H2).
  assert (Hx' : is_nan (foldl math_max NInf [a; b; c; d]) = false) by (rewrite X1; simpl; by rewrite H, H0, H1, H2).
  split; [by repeat constructor|]. split; [done|]. rewrite M2, X2 by done.
  split_and!; [| |by apply M3|by apply X3]; unfold kmin, kmax; simpl;
    do 4 (apply Forall_cons in W as [? W]); repeat match goal with Hw : wf_num _ |- _ => apply key_range in Hw end; lia.
Qed.

(** ** Remainder, rounding and absolute value *)

Lemma rem_repr a b : repr a → repr b → b ≠ 0 → repr (Z.rem a b).
Proof.
  intros [Ha Da] [Hb Db] Hb0. set (ea := ulp_exp (Z.abs a)) in *. set (eb := ulp_exp (Z.abs b)) in *.
  pose proof (Z.rem_bound_abs a b Hb0) as Hr.
  assert (Hra : Z.abs (Z.rem a b) <= Z.abs a).
  { rewrite <- Z.rem_abs by done. apply Z.rem_le; lia. }
  split; [lia|]. apply (Z.divide_abs_r _ (Z.rem a b)).
  assert (0 <= ea) by apply ulp_exp_nonneg. assert (0 <= eb) by apply ulp_exp_nonneg.
  pose proof (ulp_upper (Z.abs a) ltac:(lia)) as Ua. pose proof (ulp_upper (Z.abs b) ltac:(lia)) as Ub. fold ea in Ua. fold eb in Ub.
  apply repr_of_bound with (Z.min ea eb); [lia| |].
  - split; [lia|]. destruct (Z.min_spec ea eb) as [[_ ->]|[_ ->]]; lia.
  - apply Z.divide_abs_r. rewrite (Z.rem_eq a b) by done. apply Z.divide_sub_r.
    + etrans; [apply (pow2_divide (Z.min ea eb) ea); lia|done].
    + apply Z.divide_mul_l. etrans; [apply (pow2_divide (Z.min ea eb) eb); lia|done].
Qed.

Lemma wf_key_repr x : wf_num x → is_finite x = true → repr (key x).
Proof. destruct x; simpl; try done. intros. apply repr_0. Qed.

Lemma wf_rem x y : wf_num x → wf_num y → wf_num (num_rem x y).
Proof.
  intros Wx Wy. unfold num_rem. destruct (is_nan x || is_nan y) eqn:En; [done|]. apply orb_false_iff in En as [Nx Ny].
  destruct (is_finite x) eqn:Fx; [|done]. destruct (is_zero y) eqn:Zy; [done|]. cbn [negb].
  destruct (is_finite y) eqn:Fy; [|done]. cbn [negb]. destruct (is_zero x) eqn:Zx; [done|].
  destruct (Z.rem (key x) (key y) =? 0); [apply wf_zero|].
  apply rem_repr; [by apply wf_key_repr..|]. rewrite zero_key in Zy by done. by apply Z.eqb_neq.
Qed.

(** The remainder of a finite dividend by a non-zero finite divisor. *)
Lemma key_rem x y : is_nan x = false → is_nan y = false → is_finite x = true → key y ≠ 0 →
  is_nan (num_rem x y) = false ∧
  key (num_rem x y) = if is_finite y then Z.rem (key x) (key y) else key x.
Proof.
  intros Nx Ny Fx Hy. unfold num_rem. rewrite Nx, Ny, Fx. cbn [orb negb]. rewrite (zero_key y) by done.
  destruct (Z.eqb_spec (key y) 0) as [|_]; [done|]. destruct (is_finite y) eqn:Fy; cbn [negb]; [|done].
  rewrite zero_key by done. destruct (Z.eqb_spec (key x) 0) as [E|_].
  - split; [done|]. by rewrite E, Z.rem_0_l.
  - destruct (Z.eqb_spec (Z.rem (key x) (key y)) 0) as [E|_]; [|done]. rewrite E. unfold zero_of. by case_match.
Qed.

Lemma rem_nan x y : is_nan (num_rem x y) = true →
  is_nan x = true ∨ is_nan y = true ∨ is_finite x = false ∨ (is_nan y = false ∧ key y = 0).
Proof.
  intros H. destruct (is_nan x) eqn:Nx, (is_nan y) eqn:Ny, (is_finite x) eqn:Fx; auto.
  destruct (decide (key y = 0)) as [|Hy]; [auto|]. destruct (key_rem x y Nx Ny Fx Hy). congruence.
Qed.

(** The rounding family on a finite number: the key in closed form. *)
Definition round_key (fn : round_fn) (k : Z) : Z :=
  match fn with
  | RTrunc => Z.quot k ONE * ONE
  | RFloor => k / ONE * ONE
  | RCeil => - (- k / ONE) * ONE
  | RRound => (2 * k + ONE) / (2 * ONE) * ONE
  end.

Lemma js_round_nan fn x : is_nan (js_round fn x) = is_nan x.
Proof. destruct fn, x; simpl; try done; unfold fin_signed, zero_of; repeat case_match; done. Qed.

Lemma js_round_finite fn x : is_finite (js_round fn x) = is_finite x.
Proof. destruct fn, x; simpl; try done; unfold fin_signed, zero_of; repeat case_match; done. Qed.

Lemma round_key_0 fn : round_key fn 0 = 0.
Proof. destruct fn; vm_compute; reflexivity. Qed.

Lemma key_js_round fn x : is_finite x = true → key (js_round fn x) = round_key fn (key x).
Proof.
  destruct x as [| | | |k]; try discriminate; intros _.
  - rewrite round_key_0. by destruct fn.
  - assert (Hs : ∀ b z, key (fin_signed b z) = z).
    { intros b z. unfold fin_signed. destruct (Z.eqb_spec z 0) as [->|]; [by destruct b|done]. }
    destruct fn; simpl; rewrite ?Hs; done.
Qed.

Lemma round_key_mono fn j k : j <= k → round_key fn j <= round_key fn k.
Proof.
  intros H. pose proof ONE_pos. destruct fn; simpl.
  - apply Z.mul_le_mono_nonneg_r; [lia|]. apply Z.quot_le_mono; lia.
  - apply Z.mul_le_mono_nonneg_r; [lia|]. apply Z.div_le_mono; lia.
  - apply Z.mul_le_mono_nonneg_r; [lia|]. apply -> Z.opp_le_mono. apply Z.div_le_mono; lia.
  - apply Z.mul_le_mono_nonneg_r; [lia|]. apply Z.div_le_mono; lia.
Qed.

Lemma round_key_integer fn k : round_key fn k mod ONE = 0.
Proof. pose proof ONE_pos. destruct fn; simpl; apply Z.mod_mul; lia. Qed.

(** Integers of at most 53 bits are doubles. *)
(** A multiple of [ONE] within one unit of a double is a double: rounding never
    needs more bits than the number it rounds. *)
Lemma round_key_near fn k : Z.abs (round_key fn k - k) < ONE ∨ round_key fn k = k.
Proof.
  pose proof ONE_pos. destruct fn; unfold round_key.
  - left. pose proof (Z.quot_rem k ONE ltac:(lia)). pose proof (Z.rem_bound_abs k ONE ltac:(lia)). lia.
  - left. pose proof (Z.div_mod k ONE ltac:(lia)). pose proof (Z.mod_pos_bound k ONE ltac:(lia)). lia.
  - left. pose proof (Z.div_mod (- k) ONE ltac:(lia)). pose proof (Z.mod_pos_bound (- k) ONE ltac:(lia)). lia.
  - left. pose proof (Z.div_mod (2 * k + ONE) (2 * ONE) ltac:(lia)). pose proof (Z.mod_pos_bound (2 * k + ONE) (2 * ONE) ltac:(lia)). lia.
Qed.

Lemma round_key_fix fn k : k mod ONE = 0 → round_key fn k = k.
Proof.
  pose proof ONE_pos. intros Hk. assert (E : k = k / ONE * ONE) by (pose proof (Z.div_mod k ONE ltac:(lia)); lia).
  set (m := k / ONE) in *. clearbody m. subst k. destruct fn; unfold round_key.
  - by rewrite Z.quot_mul by lia.
  - by rewrite Z.div_mul by lia.
  - rewrite <- Z.mul_opp_l, Z.div_mul by lia. ring.
  - replace (2 * (m * ONE) + ONE) with (ONE + m * (2 * ONE)) by ring. rewrite Z.div_add, Z.div_small by lia. ring.
Qed.

Lemma round_key_repr fn k : repr k → repr (round_key fn k).
Proof.
  intros Hr. pose proof ONE_pos as HO.
  destruct (decide (k mod ONE = 0)) as [Hk|Hk]; [by rewrite round_key_fix|].
  destruct Hr as [Hk1 Hd].
  assert (Hsmall : ulp_exp (Z.abs k) < 1074).
  { destruct (Z.lt_ge_cases (ulp_exp (Z.abs k)) 1074) as [|Hge]; [done|exfalso]. apply Hk.
    apply Z.mod_divide; [lia|]. rewrite ONE_pow. etrans; [apply pow2_divide|exact Hd]. lia. }
  pose proof (ulp_upper (Z.abs k) ltac:(lia)) as Hu.
  assert (Hb : Z.abs k < 2 ^ (53 + 1073)).
  { eapply Z.lt_le_trans; [exact Hu|]. apply Z.pow_le_mono_r; lia. }
  assert (Hn : Z.abs (round_key fn k) <= 2 ^ (53 + 1074)).
  { assert (Z.abs (round_key fn k) <= Z.abs k + ONE) by (destruct (round_key_near fn k); lia).
    rewrite ONE_pow in *. change (2 ^ (53 + 1073)) with (2 ^ 1126) in *. change (2 ^ (53 + 1074)) with (2 * 2 ^ 1126).
    assert (2 ^ 1074 <= 2 ^ 1126) by (apply Z.pow_le_mono_r; lia). lia. }
  split.
  - eapply Z.le_lt_trans; [exact Hn|]. unfold MAXK. apply Z.pow_lt_mono_r; lia.
  - apply Z.divide_abs_r. apply repr_of_bound with 1074; [lia|lia|].
    apply Z.divide_abs_r. rewrite <- ONE_pow. apply Z.mod_divide; [lia|]. apply round_key_integer.
Qed.

Lemma wf_js_round fn x : wf_num x → wf_num (js_round fn x).
Proof.
  destruct x as [| | | |k]; try by destruct fn. intros W. pose proof (round_key_repr fn k W) as Hr.
  destruct fn; simpl; unfold fin_signed; try case_match; try apply wf_zero; exact Hr.
Qed.

Lemma key_abs x : key (math_abs x) = Z.abs (key x).
Proof. pose proof MAXK_pos. destruct x; simpl; lia. Qed.
Lemma abs_nan x : is_nan (math_abs x) = is_nan x.
Proof. by destruct x. Qed.
Lemma abs_finite x : is_finite (math_abs x) = is_finite x.
Proof. by destruct x. Qed.
Lemma wf_abs x : wf_num x → wf_num (math_abs x).
Proof. destruct x as [| | | |k]; simpl; try done; [intros _; apply repr_0|]. intros [H1 H2]. split; rewrite Z.abs_involutive; [lia|by apply Z.divide_abs_r]. Qed.

(** ** Integers of the machine ranges *)

Lemma num_of_Z_spec z : Z.abs z <= 2 ^ 53 →
  wf_num (num_of_Z z) ∧ is_nan (num_of_Z z) = false ∧ key (num_of_Z z) = z * ONE ∧ is_integer (num_of_Z z) = true.
Proof.
  intros Hz. pose proof (repr_int z Hz) as Hr.
  assert (W : wf_num (num_of_Z z)) by (apply ratio_wf; lia).
  assert (N : is_nan (num_of_Z z) = false) by apply ratio_not_nan.
  assert (K : key (num_of_Z z) = z * ONE) by (by apply ratio_exact).
  split_and!; try done. apply integer_iff; try done. rewrite K. destruct Hr as [Hr _]. split; [lia|].
  apply Z.mod_mul. pose proof ONE_pos. lia.
Qed.

Lemma fin_spec z : Z.abs z <= 2 ^ 53 → wf_num (fin z) ∧ is_finite (fin z) = true ∧ key (fin z) = z * ONE.
Proof. intros Hz. split; [by apply repr_int|done]. Qed.

(** * Soundness of the transfer functions *)

(** What the operators need from a pair of members. *)
Ltac members Gx Gy :=
  pose proof (gamma_num _ _ Gx) as Mx; pose proof (gamma_num _ _ Gy) as My.

Lemma bottom_sound a b x y r :
  gamma a x → gamma b y → hasNumeric a = false ∨ hasNumeric b = false →
  wf_num r → (is_nan x = true ∨ is_nan y = true → is_nan r = true) →
  gamma (bottom_nan (av_nan a || av_nan b)) r.
Proof.
  intros Gx Gy H Wr Hr. destruct H as [H|H].
  - destruct (no_numeric a x Gx H) as [Nx ->]. apply gamma_nan; auto.
  - destruct (no_numeric b y Gy H) as [Ny ->]. apply gamma_nan; auto. simpl. by rewrite orb_true_r.
Qed.

(** A NaN operand's result. *)
Lemma nan_sound a b x y lo hi w n r sp :
  gamma a x → gamma b y → wf_num r → is_nan r = true → (is_nan x = true ∨ is_nan y = true) →
  (av_nan a || av_nan b = true → n = true) → gamma (absVal lo hi w n sp) r.
Proof.
  intros Gx Gy Wr Hr H Hn. apply gamma_nan; [done..|]. apply Hn. apply orb_true_iff.
  destruct H as [H|H]; [left|right]; by eapply gamma_is_nan.
Qed.

Lemma add_nan x y : is_nan (num_add x y) = true →
  is_nan x = true ∨ is_nan y = true ∨ (x = PInf ∧ y = NInf) ∨ (x = NInf ∧ y = PInf).
Proof.
  destruct x, y; simpl; intros H; auto 10;
    match type of H with is_nan (num_of_ratio ?n ?d ?z) = true => pose proof (ratio_not_nan n d z); congruence | _ => done end.
Qed.

Lemma add_nan_l x y : is_nan x = true ∨ is_nan y = true → is_nan (num_add x y) = true.
Proof. destruct x, y; simpl; naive_solver. Qed.

(** An infinite member is an infinite bound. *)
Lemma inf_member v x : wf_av v → gamma v x → (x = PInf → av_hi v = PInf) ∧ (x = NInf → av_lo v = NInf).
Proof.
  intros W G. split; intros ->; destruct (gamma_num v _ G eq_refl) as (_ & _ & _ & Hk); simpl in Hk.
  - pose proof (wf_hi v W). destruct (av_hi v) as [| | | |k] eqn:E; simpl in *; try done; pose proof MAXK_pos; unfold repr in *; try lia.
  - pose proof (wf_lo v W). destruct (av_lo v) as [| | | |k] eqn:E; simpl in *; try done; pose proof MAXK_pos; unfold repr in *; try lia.
Qed.

Lemma absVal_bounds lo hi w n sp : bounds_ok (absVal lo hi w n sp) → is_nan lo = false ∧ is_nan hi = false.
Proof. unfold bounds_ok, absVal; simpl. by rewrite !normZero_nan. Qed.

Lemma finite_between lo hi x : wf_num lo → wf_num hi → wf_num x → is_nan x = false →
  is_finite lo = true → is_finite hi = true → key lo <= key x <= key hi → is_finite x = true.
Proof.
  intros Wl Wh Wx Nx Fl Fh H. apply key_finite in Fl, Fh; [|done..]. apply key_finite_iff; try done. lia.
Qed.

Lemma transferAdd_sound a b x y : wf_av a → wf_av b → gamma a x → gamma b y →
  bounds_ok (transferAdd a b) → gamma (transferAdd a b) (num_add x y).
Proof.
  intros Wa Wb Gx Gy Hb. unfold transferAdd in *.
  assert (Wr : wf_num (num_add x y)) by (apply wf_add; [apply Gx|apply Gy]).
  destruct (hasNumeric a) eqn:Ha, (hasNumeric b) eqn:Hb'; simpl in *; try (apply (bottom_sound a b x y); auto using add_nan_l).
  apply absVal_bounds in Hb as [Nl Nh].
  destruct (is_nan (num_add x y)) eqn:Nr.
  - apply gamma_nan; [done..|]. cbn. destruct (add_nan x y Nr) as [Nx|[Ny|[[-> ->]|[-> ->]]]].
    + by rewrite (gamma_is_nan a x).
    + by rewrite (gamma_is_nan b y), orb_true_r.
    + rewrite (proj1 (inf_member a _ Wa Gx)), (proj2 (inf_member b _ Wb Gy)) by done. cbn. by rewrite orb_true_r.
    + rewrite (proj2 (inf_member a _ Wa Gx)), (proj1 (inf_member b _ Wb Gy)) by done. cbn. by rewrite !orb_true_r.
  - destruct (is_nan x) eqn:Nx; [by rewrite add_nan_l in Nr by auto|]. destruct (is_nan y) eqn:Ny; [by rewrite add_nan_l in Nr by auto|].
    destruct (gamma_num a x Gx Nx) as (_ & _ & _ & Kx), (gamma_num b y Gy Ny) as (_ & _ & _ & Ky).
    assert (Wl : wf_num (num_add (av_lo a) (av_lo b))) by (apply wf_add; [apply Wa|apply Wb]).
    assert (Wh : wf_num (num_add (av_hi a) (av_hi b))) by (apply wf_add; [apply Wa|apply Wb]).
    assert (K : key (num_add (av_lo a) (av_lo b)) <= key (num_add x y) <= key (num_add (av_hi a) (av_hi b))).
    { split; apply add_mono; try done; try lia; try apply Wa; try apply Wb; try apply Gx; apply Gy. }
    apply gamma_absVal; try done. intros [Hwa Hwb]%andb_true_iff Fl Fh.
    apply add_integer; [apply Gx|apply Gy|..|exact (finite_between _ _ _ Wl Wh Wr Nr Fl Fh K)].
    + by apply (gamma_whole a x).
    + by apply (gamma_whole b y).
Qed.

(** Negation mirrors a value. *)
Lemma transferNeg_sound a x : wf_av a → gamma a x → gamma (transferNeg a) (num_neg x).
Proof.
  intros Wa Gx. unfold transferNeg. destruct (hasNumeric a) eqn:Ha; simpl.
  - destruct (is_nan x) eqn:Nx.
    + apply gamma_nan; [apply wf_neg, Gx|by rewrite neg_nan|]. by apply (gamma_is_nan a x).
    + destruct (gamma_num a x Gx Nx) as (_ & Nl & Nh & K). apply gamma_absVal; rewrite ?neg_nan, ?key_neg; try done; [apply wf_neg, Gx|lia|].
      intros Hw _ _. rewrite neg_integer. by apply (gamma_whole a x).
  - destruct (no_numeric a x Gx Ha) as [Nx ->]. apply gamma_nan; [apply wf_neg, Gx|by rewrite neg_nan|done].
Qed.

Lemma transferSub_sound a b x y : wf_av a → wf_av b → gamma a x → gamma b y →
  bounds_ok (transferSub a b) → gamma (transferSub a b) (num_sub x y).
Proof.
  intros Wa Wb Gx Gy Hb. unfold transferSub in *.
  assert (Wn : wf_num (num_neg y)) by (apply wf_neg, Gy).
  assert (Wr : wf_num (num_sub x y)) by (apply wf_add; [apply Gx|done]).
  assert (Hnan : is_nan x = true ∨ is_nan y = true → is_nan (num_sub x y) = true).
  { intros [H|H]; apply add_nan_l; [by left|right; by rewrite neg_nan]. }
  destruct (hasNumeric a) eqn:Ha, (hasNumeric b) eqn:Hb'; simpl in *; try (apply (bottom_sound a b x y); auto).
  apply absVal_bounds in Hb as [Nl Nh].
  destruct (is_nan (num_sub x y)) eqn:Nr.
  - apply gamma_nan; [done..|]. cbn. destruct (add_nan x (num_neg y) Nr) as [Nx|[Ny|[[-> Ey]|[-> Ey]]]].
    + by rewrite (gamma_is_nan a x).
    + rewrite neg_nan in Ny. by rewrite (gamma_is_nan b y), orb_true_r.
    + assert (y = PInf) as -> by (destruct y; simpl in Ey; try done; repeat case_match; done).
      rewrite (proj1 (inf_member a _ Wa Gx)), (proj1 (inf_member b _ Wb Gy)) by done. cbn. by rewrite orb_true_r.
    + assert (y = NInf) as -> by (destruct y; simpl in Ey; try done; repeat case_match; done).
      rewrite (proj2 (inf_member a _ Wa Gx)), (proj2 (inf_member b _ Wb Gy)) by done. cbn. by rewrite !orb_true_r.
  - destruct (is_nan x) eqn:Nx; [discriminate (Hnan ltac:(auto))|]. destruct (is_nan y) eqn:Ny; [discriminate (Hnan ltac:(auto))|].
    destruct (gamma_num a x Gx Nx) as (_ & _ & _ & Kx), (gamma_num b y Gy Ny) as (_ & _ & _ & Ky).
    assert (Wl : wf_num (num_sub (av_lo a) (av_hi b))) by (apply wf_add; [apply Wa|apply wf_neg, Wb]).
    assert (Wh : wf_num (num_sub (av_hi a) (av_lo b))) by (apply wf_add; [apply Wa|apply wf_neg, Wb]).
    assert (K : key (num_sub (av_lo a) (av_hi b)) <= key (num_sub x y) <= key (num_sub (av_hi a) (av_lo b))).
    { split; apply add_mono; rewrite ?key_neg; try done; try lia; try apply Wa; try (apply wf_neg, Wb); apply Gx. }
    apply gamma_absVal; try done. intros [Hwa Hwb]%andb_true_iff Fl Fh.
    apply add_integer; [apply Gx|done|..|exact (finite_between _ _ _ Wl Wh Wr Nr Fl Fh K)].
    + by apply (gamma_whole a x).
    + rewrite neg_integer. by apply (gamma_whole b y).
Qed.

Lemma mul_key x y : wf_num x → wf_num y → is_nan (num_mul x y) = false → key (num_mul x y) = key (boundMul x y).
Proof.
  intros Wx Wy Hn. unfold boundMul. destruct (is_zero x || is_zero y) eqn:Hz; [|done].
  unfold num_mul in *. destruct (is_nan x || is_nan y) eqn:En; [done|]. apply orb_false_iff in En as [Nx Ny].
  apply orb_true_iff in Hz as [Hz|Hz].
  - rewrite Hz in *. destruct (is_finite x) eqn:Fx; [|by destruct x]. destruct (is_finite y) eqn:Fy; [|done].
    rewrite zero_key in Hz by done. apply Z.eqb_eq in Hz. rewrite Hz. by rewrite Z.mul_0_l, key_ratio_0.
  - rewrite Hz in *. destruct (is_finite y) eqn:Fy; [|by destruct y]. destruct (is_finite x) eqn:Fx; [|done].
    rewrite zero_key in Hz by done. apply Z.eqb_eq in Hz. rewrite Hz. by rewrite Z.mul_0_r, key_ratio_0.
Qed.

Lemma inf_nan b : is_nan (inf_of b) = false.
Proof. by destruct b. Qed.

Lemma mul_nan x y : is_nan (num_mul x y) = true →
  is_nan x = true ∨ is_nan y = true ∨ (is_zero x = true ∧ is_nan y = false ∧ is_finite y = false) ∨
  (is_zero y = true ∧ is_nan x = false ∧ is_finite x = false).
Proof.
  unfold num_mul. destruct (is_nan x) eqn:Nx; [auto|]. destruct (is_nan y) eqn:Ny; [auto|]. cbn [orb].
  destruct (is_finite x) eqn:Fx, (is_finite y) eqn:Fy.
  - intros H. by rewrite ratio_not_nan in H.
  - destruct (is_zero x) eqn:Zx; [auto 10|]. cbv beta iota zeta. by rewrite inf_nan.
  - destruct (is_zero y) eqn:Zy; [auto 10|]. cbv beta iota zeta. by rewrite inf_nan.
  - cbv beta iota zeta. by rewrite inf_nan.
Qed.

Lemma mul_integer x y : is_integer x = true → is_integer y = true →
  is_finite (num_mul x y) = true → is_integer (num_mul x y) = true.
Proof.
  intros Hx Hy. destruct (integer_key_mult x Hx) as [m Em], (integer_key_mult y Hy) as [n En].
  unfold num_mul. assert (is_nan x = false) as -> by (by destruct x). assert (is_nan y = false) as -> by (by destruct y).
  rewrite (integer_finite x), (integer_finite y) by done. cbn [orb]. rewrite Em, En.
  replace (m * ONE * (n * ONE)) with (m * n * ONE * ONE) by ring. apply ratio_integer, ONE_pos.
Qed.

(** Zero or an infinity inside a value shows in the flags of its bounds. *)
Lemma has_zero v x : gamma v x → is_nan x = false → key x = 0 → le0 (av_lo v) && ge0 (av_hi v) = true.
Proof.
  intros G Nx K. destruct (gamma_num v x G Nx) as (_ & Nl & Nh & Hk). apply andb_true_iff. unfold le0, ge0.
  rewrite !num_le_iff. simpl. split_and!; try done; lia.
Qed.

Lemma has_inf v x : wf_av v → gamma v x → is_nan x = false → is_finite x = false → is_ninf (av_lo v) || is_pinf (av_hi v) = true.
Proof.
  intros W G Nx Fx. destruct (inf_member v x W G) as [H1 H2]. destruct x; try done.
  - rewrite H1 by done. by rewrite orb_true_r.
  - by rewrite H2.
Qed.

(** A member of a value, as the corner lemma wants it. *)
Definition between (v : AbsVal) (u : num) : Prop := wf_num u ∧ is_nan u = false ∧ key (av_lo v) <= key u <= key (av_hi v).

Lemma between_bounds v : wf_av v → hasNumeric v = true → between v (av_lo v) ∧ between v (av_hi v).
Proof.
  intros W H. apply num_le_iff in H as (Nl & Nh & Hk). split; (split; [apply W|split; [done|lia]]).
Qed.

Lemma between_member v x : gamma v x → is_nan x = false → between v x.
Proof. intros G Nx. destruct (gamma_num v x G Nx) as (_ & _ & _ & Hk). split; [apply G|done]. Qed.

Lemma boundMul_mono_on v z : wf_num z → is_nan z = false →
  mono_on (between v) (λ u, key (boundMul u z)) ∧ mono_on (between v) (λ u, key (boundMul z u)).
Proof.
  intros Wz Nz. assert (H : mono_on (between v) (λ u, key (boundMul u z))).
  { destruct (Z.le_ge_cases 0 (key z)); [left|right]; intros x1 x2 (W1 & N1 & _) (W2 & N2 & _) Hx;
      apply (boundMul_mono_l x1 x2 z); done. }
  split; [done|]. destruct H as [H|H]; [left|right]; intros x1 x2 P1 P2 Hx;
    rewrite (boundMul_comm z x1), (boundMul_comm z x2) by first [done|apply P1|apply P2]; by apply H.
Qed.

Lemma transferMul_sound a b x y : wf_av a → wf_av b → gamma a x → gamma b y → gamma (transferMul a b) (num_mul x y).
Proof.
  intros Wa Wb Gx Gy. unfold transferMul.
  assert (Hnan : is_nan x = true ∨ is_nan y = true → is_nan (num_mul x y) = true).
  { unfold num_mul. intros [-> | ->]; [done|]. by rewrite orb_true_r. }
  destruct (hasNumeric a) eqn:Ha, (hasNumeric b) eqn:Hb'; simpl; try (apply (bottom_sound a b x y); auto using wf_mul).
  set (p := [_; _; _; _]).
  destruct (between_bounds a Wa Ha) as [La Ra], (between_bounds b Wb Hb') as [Lb Rb].
  assert (Wp : Forall wf_num p) by (subst p; repeat constructor; apply wf_boundMul).
  assert (Np : is_nan (min_list p) = false).
  { unfold min_list. rewrite (proj1 (fold_min p PInf)). subst p. simpl. rewrite !boundMul_nan; first [done|apply La|apply Ra|apply Lb|apply Rb]. }
  destruct (min_list4 _ _ _ _ Np Wp) as (_ & Nx' & Kmin & Kmax & Wmin & Wmax). fold p in Nx', Kmin, Kmax, Wmin, Wmax.
  destruct (is_nan (num_mul x y)) eqn:Nr.
  - apply gamma_nan; [apply wf_mul|done|]. cbn [av_nan absVal]. destruct (mul_nan x y Nr) as [Nx|[Ny|[(Zx & Ny & Fy)|(Zy & Nx & Fx)]]].
    + by rewrite (gamma_is_nan a x).
    + by rewrite (gamma_is_nan b y), orb_true_r.
    + assert (Nx : is_nan x = false) by (by destruct x). rewrite zero_key in Zx by done. apply Z.eqb_eq in Zx.
      rewrite (has_zero a x), (has_inf b y) by done. by rewrite orb_true_r.
    + assert (Ny : is_nan y = false) by (by destruct y). rewrite zero_key in Zy by done. apply Z.eqb_eq in Zy.
      rewrite (has_zero b y), (has_inf a x) by done. by rewrite !orb_true_r.
  - destruct (is_nan x) eqn:Nx; [discriminate (Hnan ltac:(auto))|]. destruct (is_nan y) eqn:Ny; [discriminate (Hnan ltac:(auto))|].
    pose proof (between_member a x Gx Nx) as Bx. pose proof (between_member b y Gy Ny) as By.
    assert (K : key (min_list p) <= key (num_mul x y) <= key (max_list p)).
    { rewrite Kmin, Kmax, mul_key by (try apply Gx; try apply Gy; done).
      apply (corners (between a) (between b) (λ u v, key (boundMul u v))); try done; try apply Bx; try apply By.
      - intros z (Wz & Nz & _). by apply boundMul_mono_on.
      - intros z (Wz & Nz & _). by apply (boundMul_mono_on b). }
    apply gamma_absVal; try done; [apply wf_mul|]. intros [Hwa Hwb]%andb_true_iff Fl Fh.
    apply mul_integer; [by apply (gamma_whole a x)|by apply (gamma_whole b y)|].
    eapply (finite_between (min_list p) (max_list p)); try done. apply wf_mul.
Qed.

Lemma div_nan_l x y : is_nan x = true ∨ is_nan y = true → is_nan (num_div x y) = true.
Proof. unfold num_div. intros [-> | ->]; [done|]. by rewrite orb_true_r. Qed.

(** Division by a literal positive zero. *)
Lemma div_by_zero x : is_nan x = false →
  num_div x (Fin 0) = if key x =? 0 then NaN else if key x <? 0 then NInf else PInf.
Proof.
  intros Nx. pose proof MAXK_pos. destruct x as [| | | |k]; try discriminate Nx; try reflexivity.
  unfold num_div. simpl. destruct (Z.eqb_spec k 0); [done|]. destruct (Z.ltb_spec k 0); done.
Qed.

Lemma zero_singleton b y : wf_av b → isSingleton b = true → is_zero (av_lo b) = true → gamma b y → y ≠ NZero → y = Fin 0.
Proof.
  intros Wb Hs Hz Gy Hy. rewrite (singleton_eq b y Wb Hs Gy) by (by destruct y).
  pose proof (wf_lo_norm b Wb). destruct (av_lo b) as [| | | |k]; try done. simpl in Hz. apply Z.eqb_eq in Hz. by subst.
Qed.

Lemma no_zero_between b v : le0 (av_lo b) && ge0 (av_hi b) = false → is_nan (av_lo b) = false → is_nan (av_hi b) = false →
  between b v → (0 < key (av_lo b) ∧ 0 < key v) ∨ (key (av_hi b) < 0 ∧ key v < 0).
Proof.
  intros H Nl Nh (_ & Nv & Hk).
  destruct (le0 (av_lo b)) eqn:E1.
  - simpl in H. right. assert (¬ (0 <= key (av_hi b))).
    { intros Hc. assert (ge0 (av_hi b) = true) by (by apply num_le_iff). congruence. }
    lia.
  - left. assert (¬ (key (av_lo b) <= 0)).
    { intros Hc. assert (le0 (av_lo b) = true) by (by apply num_le_iff). congruence. }
    lia.
Qed.

Lemma transferDiv_sound a b x y : wf_av a → wf_av b → gamma a x → gamma b y → y ≠ NZero →
  bounds_ok (transferDiv a b) → gamma (transferDiv a b) (num_div x y).
Proof.
  intros Wa Wb Gx Gy Hy0 Hb. unfold transferDiv in *.
  assert (Hnan : is_nan x = true ∨ is_nan y = true → is_nan (num_div x y) = true) by apply div_nan_l.
  destruct (hasNumeric a) eqn:Ha, (hasNumeric b) eqn:Hb'; simpl in *; try (apply (bottom_sound a b x y); auto using wf_div).
  destruct (isSingleton b && is_zero (av_lo b)) eqn:Hs.
  - apply andb_true_iff in Hs as [Hs Hz]. rewrite (zero_singleton b y Wb Hs Hz Gy Hy0) in *.
    destruct (is_nan x) eqn:Nx.
    { pose proof (gamma_is_nan a x Gx Nx) as E. rewrite E in *. simpl in *.
      case_match; apply gamma_nan; auto using wf_div. }
    destruct (gamma_num a x Gx Nx) as (_ & Nl & Nh & K).
    rewrite div_by_zero by done. destruct (Z.eqb_spec (key x) 0) as [E|E].
    { rewrite (has_zero a x) by done. rewrite orb_true_r. case_match; by apply gamma_nan. }
    assert (Hlt : key x < 0 → lt0 (av_lo a) = true) by (intros; apply num_lt_iff; simpl; split_and!; try done; lia).
    assert (Hgt : 0 < key x → gt0 (av_hi a) = true) by (intros; apply num_lt_iff; simpl; split_and!; try done; lia).
    pose proof MAXK_pos. destruct (Z.ltb_spec (key x) 0).
    + rewrite Hlt by done. assert (num_lt (if gt0 (av_hi a) then PInf else NInf) NInf = false) as ->.
      { destruct (gt0 (av_hi a)); unfold num_lt; simpl; apply Z.ltb_ge; lia. }
      apply gamma_absVal; try done; destruct (gt0 (av_hi a)); simpl; try done; lia.
    + rewrite Hgt by lia. assert (num_lt PInf (if lt0 (av_lo a) then NInf else PInf) = false) as ->.
      { destruct (lt0 (av_lo a)); unfold num_lt; simpl; apply Z.ltb_ge; lia. }
      apply gamma_absVal; try done; destruct (lt0 (av_lo a)); simpl; try done; lia.
  - destruct (le0 (av_lo b) && ge0 (av_hi b)) eqn:Hz; [apply gamma_TOP, wf_div|].
    destruct (between_bounds a Wa Ha) as [La Ra], (between_bounds b Wb Hb') as [Lb Rb].
    set (q := [_; _; _; _]) in *. apply absVal_bounds in Hb as [Nmin Nmax].
    assert (Wq : Forall wf_num q) by (subst q; repeat constructor; apply wf_div).
    destruct (min_list4 _ _ _ _ Nmin Wq) as (Hall & _ & Kmin & Kmax & Wmin & Wmax). fold q in Kmin, Kmax, Wmin, Wmax.
    destruct (is_nan x) eqn:Nx.
    { apply gamma_nan; [apply wf_div|by apply Hnan; left|]. simpl. by rewrite (gamma_is_nan a x). }
    destruct (is_nan y) eqn:Ny.
    { apply gamma_nan; [apply wf_div|by apply Hnan; right|]. simpl. by rewrite (gamma_is_nan b y), orb_true_r. }
    pose proof (between_member a x Gx Nx) as Bx. pose proof (between_member b y Gy Ny) as By.
    assert (Hsgn : ∀ v, between b v → (0 < key (av_lo b) ∧ 0 < key v) ∨ (key (av_hi b) < 0 ∧ key v < 0)).
    { intros v Bv. apply no_zero_between; try done; apply Wb. }
    assert (Hfin : (is_finite (av_lo a) = true ∧ is_finite (av_hi a) = true) ∨ (is_finite (av_lo b) = true ∧ is_finite (av_hi b) = true)).
    { subst q. rewrite !Forall_cons in Hall. destruct Hall as (H1 & H2 & H3 & H4 & _).
      pose proof (Hsgn _ Lb). pose proof (Hsgn _ Rb).
      rewrite !div_nan in H1, H2, H3, H4 by (try apply Wa; try apply Wb; lia).
      destruct (is_finite (av_lo a)), (is_finite (av_hi a)), (is_finite (av_lo b)), (is_finite (av_hi b)); simpl in *; try done; auto. }
    assert (Hnoinf : ∀ u v, between a u → between b v → is_finite u || is_finite v = true).
    { intros u v (Wu & Nu & Ku) (Wv & Nv & Kv). apply orb_true_iff. destruct Hfin as [[F1 F2]|[F1 F2]]; [left|right].
      - eapply (finite_between (av_lo a) (av_hi a)); try done; apply Wa.
      - eapply (finite_between (av_lo b) (av_hi b)); try done; apply Wb. }
    assert (Nr : is_nan (num_div x y) = false).
    { rewrite div_nan by (try done; pose proof (Hsgn y By); lia). by rewrite Hnoinf. }
    assert (K : key (min_list q) <= key (num_div x y) <= key (max_list q)).
    { rewrite Kmin, Kmax. apply (corners (between a) (between b) (λ u v, key (num_div u v))); try done; try apply Bx; try apply By.
      - intros z Bz. pose proof (Hsgn z Bz) as Sz. pose proof Bz as (Wz & Nz & Kz).
        assert (M : ∀ u1 u2, between a u1 → between a u2 → key u1 <= key u2 →
          (0 < key z → key (num_div u1 z) <= key (num_div u2 z)) ∧ (key z < 0 → key (num_div u2 z) <= key (num_div u1 z))).
        { intros u1 u2 B1 B2 Hu. apply div_mono_l; try done; try apply B1; try apply B2; try lia; by apply Hnoinf. }
        destruct Sz as [[_ Sz]|[_ Sz]]; [left|right]; intros u1 u2 B1 B2 Hu; cbn beta; destruct (M u1 u2 B1 B2 Hu); auto.
      - intros u Bu. assert (M : ∀ v1 v2, between b v1 → between b v2 → key v1 <= key v2 →
          (0 <= key u → key (num_div u v2) <= key (num_div u v1)) ∧ (key u <= 0 → key (num_div u v1) <= key (num_div u v2))).
        { intros v1 v2 B1 B2 Hv. pose proof (Hsgn v1 B1). pose proof (Hsgn v2 B2). pose proof (proj2 (proj2 Lb)) as Kb.
          apply div_mono_r; try apply Bu; try apply B1; try apply B2; try done; try lia; by apply Hnoinf. }
        destruct (Z.le_ge_cases 0 (key u)); [right|left]; intros v1 v2 B1 B2 Hv; cbn beta; destruct (M v1 v2 B1 B2 Hv); auto. }
    apply gamma_absVal; try done; [apply wf_div|]. intros [He Hi]%andb_true_iff _ _. apply num_eq_iff in He as (_ & _ & He).
    rewrite (integer_key _ (min_list q)); try done; [apply wf_div|lia].
Qed.

Lemma rem_nan_l x y : is_nan x = true ∨ is_nan y = true → is_nan (num_rem x y) = true.
Proof. unfold num_rem. intros [-> | ->]; [done|]. by rewrite orb_true_r. Qed.

(** Size and sign of a remainder. *)
Lemma rem_bounds x y D : wf_num x → wf_num y → is_nan x = false → is_nan y = false → is_finite x = true → key y ≠ 0 →
  Z.abs (key y) <= D → D <= MAXK →
  (0 <= key x → 0 <= key (num_rem x y)) ∧ (key x <= 0 → key (num_rem x y) <= 0) ∧ Z.abs (key (num_rem x y)) <= D ∧
  (is_finite y = true → Z.abs (key (num_rem x y)) < Z.abs (key y)).
Proof.
  intros Wx Wy Nx Ny Fx Hy HD HM. destruct (key_rem x y Nx Ny Fx Hy) as [_ ->].
  destruct (is_finite y) eqn:Fy.
  - pose proof (Z.rem_bound_abs (key x) (key y) Hy). pose proof (Z.rem_sign_mul (key x) (key y) Hy).
    split_and!; try lia.
    + intros. destruct (decide (key x = 0)) as [E|]; [rewrite E, Z.rem_0_l by done; lia|]. nia.
    + intros. destruct (decide (key x = 0)) as [E|]; [rewrite E, Z.rem_0_l by done; lia|]. nia.
  - pose proof (key_finite x Wx Fx). destruct (infinite_key y Ny Fy); split_and!; try done; lia.
Qed.

Lemma rem_integer x y : wf_num x → wf_num y → is_integer x = true → is_integer y = true → key y ≠ 0 →
  is_integer (num_rem x y) = true ∧ ∃ n, key (num_rem x y) = n * ONE.
Proof.
  intros Wx Wy Hx Hy Hk. pose proof ONE_pos.
  assert (Nx : is_nan x = false) by (by destruct x). assert (Ny : is_nan y = false) by (by destruct y).
  destruct (integer_key_mult x Hx) as [m Em], (integer_key_mult y Hy) as [n En].
  destruct (key_rem x y Nx Ny (integer_finite x Hx) Hk) as [Nr Kr]. rewrite (integer_finite y Hy) in Kr.
  rewrite Em, En, Z.mul_rem_distr_r in Kr by lia.
  split; [|by exists (Z.rem m n)]. apply integer_iff; [by apply wf_rem|done|]. rewrite Kr. split; [|apply Z.mod_mul; lia].
  pose proof (Z.rem_bound_abs m n ltac:(nia)). pose proof (key_finite y Wy (integer_finite y Hy)). rewrite En in *. nia.
Qed.

Lemma transferMod_sound a b x y : wf_av a → wf_av b → gamma a x → gamma b y → gamma (transferMod a b) (num_rem x y).
Proof.
  intros Wa Wb Gx Gy. unfold transferMod.
  assert (Wr : wf_num (num_rem x y)) by (apply wf_rem; [apply Gx|apply Gy]).
  destruct (hasNumeric a) eqn:Ha, (hasNumeric b) eqn:Hb'; simpl; try (apply (bottom_sound a b x y); auto using rem_nan_l).
  destruct (between_bounds a Wa Ha) as [La Ra], (between_bounds b Wb Hb') as [Lb Rb].
  set (mn := av_nan a || av_nan b || (le0 (av_lo b) && ge0 (av_hi b)) || is_ninf (av_lo a) || is_pinf (av_hi a)).
  assert (Hmn : is_nan (num_rem x y) = true → mn = true).
  { intros Nr. subst mn. destruct (rem_nan x y Nr) as [Nx|[Ny|[Fx|[Ny Ky]]]].
    - by rewrite (gamma_is_nan a x).
    - by rewrite (gamma_is_nan b y), orb_true_r.
    - destruct (is_nan x) eqn:Nx; [by rewrite (gamma_is_nan a x)|].
      rewrite <- orb_assoc, (has_inf a x) by done. by rewrite orb_true_r.
    - rewrite (has_zero b y) by done. by rewrite orb_true_r. }
  destruct (is_nan (num_rem x y)) eqn:Nr.
  { rewrite Hmn by done. rewrite andb_false_r. by apply gamma_nan. }
  assert (Hnz : is_nan x = false ∧ is_nan y = false ∧ is_finite x = true ∧ key y ≠ 0).
  { destruct (is_nan x) eqn:Nx; [by rewrite rem_nan_l in Nr by auto|]. destruct (is_nan y) eqn:Ny; [by rewrite rem_nan_l in Nr by auto|].
    unfold num_rem in Nr. rewrite Nx, Ny in Nr. cbn [orb] in Nr. destruct (is_finite x); [|done]. cbn [negb] in Nr.
    rewrite (zero_key y Ny) in Nr. destruct (Z.eqb_spec (key y) 0); [done|]. done. }
  destruct Hnz as (Nx & Ny & Fx & Hy).
  destruct (gamma_num a x Gx Nx) as (_ & _ & _ & Kx), (gamma_num b y Gy Ny) as (_ & _ & _ & Ky).
  destruct (isSingleton a && isSingleton b && negb mn) eqn:Hs.
  - apply andb_true_iff in Hs as [[Hsa Hsb]%andb_true_iff Hm]. 
    destruct (singleton_key a x Hsa Gx) as [_ Ex], (singleton_key b y Hsb Gy) as [_ Ey].
    assert (Fl : is_finite (av_lo a) = true).
    { apply key_finite_iff; [apply Wa|apply Wa|]. rewrite <- Ex. by apply key_finite; [apply Gx|]. }
    assert (Na : is_nan (av_lo a) = false) by apply Wa. assert (Nb : is_nan (av_lo b) = false) by apply Wb.
    destruct (key_rem (av_lo a) (av_lo b) Na Nb Fl) as [Nl Kl]; [lia|].
    destruct (key_rem x y Nx Ny Fx Hy) as [_ Kr].
    apply gamma_const; [apply wf_rem; [apply Wa|apply Wb]|done|congruence|]. intros _. rewrite Kl, Kr, <- Ex, <- Ey.
    assert (is_finite y = is_finite (av_lo b)) as ->; [|done]. apply eq_true_iff_eq.
    rewrite !key_finite_iff by first [apply Gy|apply Wb|done]. by rewrite Ey.
  - set (dMax := math_max (math_abs (av_lo b)) (math_abs (av_hi b))).
    assert (Nd : is_nan dMax = false ∧ key dMax = Z.max (Z.abs (key (av_lo b))) (Z.abs (key (av_hi b)))).
    { rewrite <- !key_abs. apply key_max; rewrite abs_nan; apply Wb. }
    destruct Nd as [Nd Kd]. assert (Wd : wf_num dMax) by (apply wf_max; apply wf_abs, Wb).
    assert (HD : Z.abs (key y) <= key dMax) by lia. pose proof (key_range dMax Wd) as HdM.
    destruct (rem_bounds x y (key dMax) ltac:(apply Gx) ltac:(apply Gy) Nx Ny Fx Hy HD ltac:(lia)) as (Rp & Rn & Ra' & Rf).
    set (bound := if av_whole a && av_whole b && is_finite dMax then num_sub dMax (fin 1) else dMax).
    assert (Hbound : is_nan bound = false ∧ wf_num bound ∧ Z.abs (key (num_rem x y)) <= key bound).
    { subst bound. destruct (av_whole a && av_whole b && is_finite dMax) eqn:Hw; [|done].
      apply andb_true_iff in Hw as [[Hwa Hwb]%andb_true_iff Fd].
      destruct (gamma_whole a x Wa Gx Nx Hwa) as (Ix & _), (gamma_whole b y Wb Gy Ny Hwb) as (Iy & _).
      destruct (rem_integer x y ltac:(apply Gx) ltac:(apply Gy) Ix Iy Hy) as (_ & n & En).
      destruct (integer_key_mult y Iy) as [m Em]. specialize (Rf (integer_finite y Iy)). pose proof ONE_pos.
      unfold num_sub. assert (E : key (num_add dMax (num_neg (fin 1))) = key (num_of_ratio (key dMax + - ONE) 1 false)).
      { rewrite key_add_fin by (try done; by rewrite neg_finite). rewrite key_neg. unfold fin. simpl key. by rewrite Z.mul_1_l. }
      assert (Hn : is_nan (num_add dMax (num_neg (fin 1))) = false).
      { apply not_true_is_false. intros [N|[N|[[N _]|[N _]]]]%add_nan; [congruence| |by rewrite N in Fd..].
        by rewrite neg_nan in N. }
      split_and!; [done|apply wf_add; [done|apply wf_neg, repr_int; lia]|]. rewrite E.
      assert (Hrep : repr (Z.abs (key (num_rem x y)))).
      { assert (Hr : repr (key (num_rem x y))).
        { apply wf_key_repr; [done|]. apply key_finite_iff; try done. lia. }
        destruct Hr as [H1 H2]. split; rewrite Z.abs_involutive; [lia|by apply Z.divide_abs_r]. }
      rewrite <- (ratio_exact _ false Hrep). apply ratio_mono; [lia..|]. rewrite En, Em in *.
      rewrite !Z.abs_mul, (Z.abs_eq ONE) in * by lia. assert (Z.abs n < Z.abs m) by (apply (Z.mul_lt_mono_pos_r ONE); lia).
      pose proof (Z.mul_le_mono_nonneg_r (Z.abs n + 1) (Z.abs m) ONE ltac:(lia) ltac:(lia)). lia. }
    destruct Hbound as (Nb & Wbd & Hbd).
    apply gamma_absVal; try done.
    + case_match; [by rewrite neg_nan|done].
    + by case_match.
    + assert (Hlt : key x < 0 → lt0 (av_lo a) = true) by (intros; apply num_lt_iff; simpl; split_and!; try apply Wa; try done; lia).
      assert (Hgt : 0 < key x → gt0 (av_hi a) = true) by (intros; apply num_lt_iff; simpl; split_and!; try apply Wa; try done; lia).
      destruct (Z.lt_trichotomy (key x) 0) as [Hx|[Hx|Hx]]; [rewrite (Hlt Hx)| |rewrite (Hgt Hx)]; rewrite ?key_neg;
        repeat case_match; rewrite ?key_neg; simpl; lia.
    + intros [Hwa Hwb]%andb_true_iff _ _.
      destruct (gamma_whole a x Wa Gx Nx Hwa) as (Ix & _), (gamma_whole b y Wb Gy Ny Hwb) as (Iy & _).
      apply rem_integer; try done; [apply Gx|apply Gy].
Qed.


(** ** Rounding, absolute value, minimum and maximum *)

Lemma js_round_mono fn x y : wf_num x → wf_num y → is_nan x = false → is_nan y = false → key x <= key y →
  key (js_round fn x) <= key (js_round fn y).
Proof.
  intros Wx Wy Nx Ny H. pose proof (key_range _ (wf_js_round fn x Wx)) as Rx. pose proof (key_range _ (wf_js_round fn y Wy)) as Ry.
  destruct (is_finite x) eqn:Fx, (is_finite y) eqn:Fy.
  - rewrite !key_js_round by done. by apply round_key_mono.
  - pose proof (key_finite x Wx Fx). destruct y as [| | | |k]; try done; [|simpl in H; lia]. destruct fn; simpl in *; lia.
  - pose proof (key_finite y Wy Fy). destruct x as [| | | |k]; try done; [simpl in H; lia|]. destruct fn; simpl in *; lia.
  - destruct x as [| | | |], y as [| | | |]; try done; destruct fn; simpl in *; lia.
Qed.

Lemma js_round_integer fn x : wf_num x → is_finite x = true → is_integer (js_round fn x) = true.
Proof.
  intros W F. assert (Nx : is_nan x = false) by (by destruct x).
  apply integer_iff; [by apply wf_js_round|by rewrite js_round_nan|].
  split; [|rewrite key_js_round by done; apply round_key_integer].
  apply key_finite; [by apply wf_js_round|by rewrite js_round_finite].
Qed.

Lemma transferMathRound_sound fn a x : wf_av a → gamma a x → gamma (transferMathRound fn a) (js_round fn x).
Proof.
  intros Wa Gx. unfold transferMathRound. destruct (hasNumeric a) eqn:Ha; simpl.
  - destruct (is_nan x) eqn:Nx.
    { apply gamma_nan; [apply wf_js_round, Gx|by rewrite js_round_nan|by apply (gamma_is_nan a x)]. }
    destruct (gamma_num a x Gx Nx) as (_ & Nl & Nh & K).
    apply gamma_absVal; rewrite ?js_round_nan; try done; [apply wf_js_round, Gx| |].
    + split; apply js_round_mono; try done; try apply Wa; try apply Gx; lia.
    + intros _ Fl Fh. rewrite js_round_finite in Fl, Fh. apply js_round_integer; [apply Gx|].
      eapply (finite_between (av_lo a) (av_hi a)); try done; try apply Wa. apply Gx.
  - destruct (no_numeric a x Gx Ha) as [Nx Hn].
    apply gamma_nan; [apply wf_js_round, Gx|by rewrite js_round_nan|done].
Qed.

Lemma abs_integer x : is_integer (math_abs x) = is_integer x.
Proof.
  destruct x as [| | | |k]; try done. simpl. pose proof ONE_pos.
  apply eq_true_iff_eq. rewrite !Z.eqb_eq, !Z.mod_divide by lia. apply Z.divide_abs_r.
Qed.

Lemma transferAbs_sound a x : wf_av a → gamma a x → gamma (transferAbs a) (math_abs x).
Proof.
  intros Wa Gx. unfold transferAbs. destruct (hasNumeric a) eqn:Ha; simpl.
  - destruct (is_nan x) eqn:Nx.
    { apply gamma_nan; [apply wf_abs, Gx|by rewrite abs_nan|by apply (gamma_is_nan a x)]. }
    destruct (gamma_num a x Gx Nx) as (_ & Nl & Nh & K).
    destruct (key_min (math_abs (av_lo a)) (math_abs (av_hi a))) as [Nm Km]; [by rewrite abs_nan..|].
    destruct (key_max (math_abs (av_lo a)) (math_abs (av_hi a))) as [NM KM]; [by rewrite abs_nan..|].
    rewrite !key_abs in Km, KM.
    assert (Hz : le0 (av_lo a) && ge0 (av_hi a) = false → 0 < key (av_lo a) ∨ key (av_hi a) < 0).
    { intros H. destruct (Z.le_gt_cases (key (av_lo a)) 0) as [H1|]; [|lia].
      destruct (Z.le_gt_cases 0 (key (av_hi a))) as [H2|]; [|lia].
      assert (le0 (av_lo a) = true) as E1 by (by apply num_le_iff). assert (ge0 (av_hi a) = true) as E2 by (by apply num_le_iff).
      by rewrite E1, E2 in H. }
    apply gamma_absVal; rewrite ?abs_nan; try done; [apply wf_abs, Gx|by destruct (_ && _)| |].
    + rewrite key_abs, KM. destruct (le0 (av_lo a) && ge0 (av_hi a)); [simpl key; lia|]. rewrite Km. specialize (Hz eq_refl). lia.
    + intros Hw _ _. rewrite abs_integer. by apply (gamma_whole a x).
  - destruct (no_numeric a x Gx Ha) as [Nx Hn]. apply gamma_nan; [apply wf_abs, Gx|by rewrite abs_nan|done].
Qed.

Lemma foldl_in (f : num → num → num) xs a : (∀ x y, f x y = NaN ∨ f x y = x ∨ f x y = y) →
  foldl f a xs = NaN ∨ foldl f a xs = a ∨ foldl f a xs ∈ xs.
Proof.
  intros Hf. revert a. induction xs as [|x xs IH]; intros a; simpl; [auto|].
  destruct (IH (f a x)) as [E|[E|E]]; [by left| |right; right; by right].
  rewrite E. destruct (Hf a x) as [->|[->| ->]]; [by left|by right; left|right; right; left].
Qed.

Lemma js_minmax_in fn xs : is_nan (js_minmax fn xs) = false → xs ≠ [] →
  is_finite (js_minmax fn xs) = true → js_minmax fn xs ∈ xs.
Proof.
  intros N _ F. destruct fn; simpl in *.
  - destruct (foldl_in math_min xs PInf) as [E|[E|E]]; [|unfold min_list in *; by rewrite E in *..|done].
    intros x y. unfold math_min. repeat case_match; auto.
  - destruct (foldl_in math_max xs NInf) as [E|[E|E]]; [|unfold max_list in *; by rewrite E in *..|done].
    intros x y. unfold math_max. repeat case_match; auto.
Qed.

(** [Math.min]/[Math.max] of the bounds bound the result. *)
Definition kfold (fn : minmax_fn) (xs : list num) : Z :=
  match fn with FMin => kmin MAXK xs | FMax => kmax (- MAXK) xs end.

Lemma js_minmax_spec fn xs :
  is_nan (js_minmax fn xs) = existsb is_nan xs ∧
  (is_nan (js_minmax fn xs) = false → key (js_minmax fn xs) = kfold fn xs) ∧
  (Forall wf_num xs → wf_num (js_minmax fn xs)).
Proof.
  destruct fn; simpl.
  - destruct (fold_min xs PInf) as (H1 & H2 & H3). split_and!; [done|done|]. intros. by apply H3.
  - destruct (fold_max xs NInf) as (H1 & H2 & H3). split_and!; [done|done|]. intros. by apply H3.
Qed.

Lemma kfold_mono fn xs ys : Forall2 (λ x y, key x <= key y) xs ys → kfold fn xs <= kfold fn ys.
Proof.
  assert (Hmin : ∀ a b, a <= b → Forall2 (λ x y, key x <= key y) xs ys → kmin a xs <= kmin b ys).
  { intros a b Hab H. revert a b Hab. induction H as [|x y xs ys Hxy _ IH]; intros a b Hab; [done|]. apply IH. lia. }
  assert (Hmax : ∀ a b, a <= b → Forall2 (λ x y, key x <= key y) xs ys → kmax a xs <= kmax b ys).
  { clear Hmin. intros a b Hab H. revert a b Hab. induction H as [|x y xs ys Hxy _ IH]; intros a b Hab; [done|]. apply IH. lia. }
  intros H. destruct fn; [by apply Hmin|by apply Hmax].
Qed.

Lemma existsb_false {A} (f : A → bool) xs : existsb f xs = false ↔ Forall (λ x, f x = false) xs.
Proof.
  induction xs as [|x xs IH]; simpl; [by split|]. rewrite orb_false_iff, Forall_cons. by rewrite IH.
Qed.

Lemma transferMinMax_sound fn args xs : Forall wf_av args → Forall2 gamma args xs →
  gamma (transferMinMax fn args) (js_minmax fn xs).
Proof.
  intros Wa G. unfold transferMinMax. destruct (js_minmax_spec fn xs) as (Nr & Kr & Wr).
  assert (Wx : Forall wf_num xs) by (clear -G; induction G as [|a x ? ? H]; constructor; [apply H|done]). specialize (Wr Wx).
  assert (Hnan : existsb is_nan xs = true → existsb av_nan args = true).
  { clear -G. induction G as [|a x args xs Gx _ IH]; simpl; [done|].
    intros [H|H]%orb_true_iff; [by rewrite (gamma_is_nan a x)|by rewrite IH, orb_true_r]. }
  destruct (existsb (λ v, negb (hasNumeric v)) args) eqn:Hn.
  { assert (E : existsb is_nan xs = true); [|apply gamma_nan; [done|by rewrite Nr|by apply Hnan]].
    clear -G Hn. induction G as [|a x args xs Gx _ IH]; simpl in *; [done|].
    apply orb_true_iff. apply orb_true_iff in Hn as [Hn|Hn]; [left|right; auto].
    apply (no_numeric a x Gx). by apply negb_true_iff. }
  destruct (is_nan (js_minmax fn xs)) eqn:Nm; [apply gamma_nan; [done|done|apply Hnan; congruence]|].
  assert (Nx : existsb is_nan xs = false) by congruence. clear Nr Hnan.
  destruct (js_minmax_spec fn (map av_lo args)) as (Nl & Kl & _), (js_minmax_spec fn (map av_hi args)) as (Nh & Kh & _).
  assert (El : existsb is_nan (map av_lo args) = false ∧ existsb is_nan (map av_hi args) = false).
  { clear -Wa. rewrite !existsb_false, !Forall_fmap. split; eapply Forall_impl; try exact Wa; intros v Hv; apply Hv. }
  destruct El as [El Eh]. rewrite El in Nl. rewrite Eh in Nh.
  assert (Hl : Forall2 (λ x y, key x <= key y) (map av_lo args) xs ∧ Forall2 (λ x y, key x <= key y) xs (map av_hi args)).
  { clear -G Nx. induction G as [|a x args xs Gx _ IH]; [by split|]. simpl in *. apply orb_false_iff in Nx as [N1 N2].
    destruct (gamma_num a x Gx N1) as (_ & _ & _ & K). destruct (IH N2). split; constructor; lia || done. }
  apply gamma_absVal; try done.
  - rewrite Kl, Kr, Kh by done. split; apply kfold_mono, Hl.
  - intros Hw Fl Fh.
    assert (Fr : is_finite (js_minmax fn xs) = true).
    { eapply (finite_between (js_minmax fn (map av_lo args)) (js_minmax fn (map av_hi args))); try done.
      - apply js_minmax_spec, Forall_fmap. eapply Forall_impl; [exact Wa|]. intros v Hv; apply Hv.
      - apply js_minmax_spec, Forall_fmap. eapply Forall_impl; [exact Wa|]. intros v Hv; apply Hv.
      - rewrite Kl, Kr, Kh by done. split; apply kfold_mono, Hl. }
    assert (Hall : Forall (λ x, is_integer x = true) xs).
    { clear -Wa G Nx Hw. induction G as [|a x args xs Gx _ IH]; [done|]. simpl in *. apply orb_false_iff in Nx as [N1 N2].
      apply andb_true_iff in Hw as [Hw1 Hw2]. apply Forall_cons in Wa as [W1 W2].
      constructor; [by apply (gamma_whole a x)|by apply IH]. }
    destruct (decide (xs = [])) as [->|Hne]; [by destruct fn|].
    rewrite Forall_forall in Hall. apply Hall. by apply js_minmax_in.
Qed.

(** ** The bitwise operators *)

(** ToInt32 sees only the key of a number. *)
Lemma num_to_Z_key x y : wf_num x → wf_num y → is_nan x = false → is_nan y = false → key x = key y → num_to_Z x = num_to_Z y.
Proof.
  intros Wx Wy Nx Ny H.
  assert (E : ∀ z, num_to_Z z = if is_finite z then Z.quot (key z) ONE else 0) by (by intros [| | | |k]).
  rewrite !E, H. assert (is_finite x = is_finite y) as ->; [|done].
  apply eq_true_iff_eq. rewrite !key_finite_iff by done. by rewrite H.
Qed.

Lemma bits31_range z : - 2 ^ 31 <= z < 2 ^ 31 ↔ Z.shiftr z 31 = 0 ∨ Z.shiftr z 31 = -1.
Proof.
  rewrite Z.shiftr_div_pow2 by lia. pose proof (Z.div_mod z (2 ^ 31) ltac:(lia)). pose proof (Z.mod_pos_bound z (2 ^ 31) ltac:(lia)).
  split; [|lia]. intros.
  assert (-1 <= z / 2 ^ 31 < 1); [|lia].
  split; [apply Z.div_le_lower_bound|apply Z.div_lt_upper_bound]; lia.
Qed.

Lemma js_bitwise_range op x y :
  ∃ z, js_bitwise op x y = num_of_Z z ∧
    match op with
    | OpBitAnd | OpBitOr | OpBitXor | OpShl | OpShr => - 2 ^ 31 <= z < 2 ^ 31
    | _ => 0 <= z < 2 ^ 32
    end.
Proof.
  unfold js_bitwise, num_to_int32, num_to_uint32. set (a := num_to_Z x). set (b := num_to_Z y).
  pose proof (to_int32_range a) as Ra. pose proof (to_int32_range b) as Rb. pose proof (to_uint32_range a) as Ua.
  assert (Hs : 0 <= Z.land (to_uint32 b) 31) by (apply Z.land_nonneg; lia).
  assert (Hu : 0 <= Z.shiftr (to_uint32 a) (Z.land (to_uint32 b) 31) < 2 ^ 32).
  { rewrite Z.shiftr_div_pow2 by done. pose proof (Z.pow_pos_nonneg 2 _ ltac:(lia) Hs).
    split; [apply Z.div_pos; lia|]. apply Z.div_lt_upper_bound; nia. }
  eexists. split; [reflexivity|].
  destruct op; try exact Hu; try apply to_int32_range.
  all: apply bits31_range in Ra, Rb; apply bits31_range; rewrite ?Z.shiftr_land, ?Z.shiftr_lor, ?Z.shiftr_lxor.
  4: { rewrite Z.shiftr_shiftr, Z.add_comm, <- Z.shiftr_shiftr by lia.
       destruct Ra as [-> | ->]; [left; apply Z.shiftr_0_l|right].
       rewrite Z.shiftr_div_pow2 by done. pose proof (Z.pow_pos_nonneg 2 _ ltac:(lia) Hs).
       symmetry. apply (Z.div_unique _ _ _ (2 ^ Z.land (to_uint32 b) 31 - 1)); lia. }
  all: destruct Ra as [-> | ->], Rb as [-> | ->]; auto.
Qed.

Lemma gamma_int z lo hi x : Z.abs lo <= 2 ^ 53 → Z.abs hi <= 2 ^ 53 → lo <= z <= hi → x = num_of_Z z →
  gamma (absVal (fin lo) (fin hi) true false None) x.
Proof.
  intros Hlo Hhi Hz ->. destruct (num_of_Z_spec z ltac:(lia)) as (W & N & K & I).
  destruct (fin_spec lo Hlo) as (_ & _ & Kl), (fin_spec hi Hhi) as (_ & _ & Kh). pose proof ONE_pos.
  apply gamma_absVal; try done. rewrite K, Kl, Kh. split; apply Z.mul_le_mono_nonneg_r; lia.
Qed.

Definition is_bitwise (op : IrNumBinOp) : bool :=
  match op with OpBitAnd | OpBitOr | OpBitXor | OpShl | OpShr | OpUshr => true | _ => false end.

Lemma transferBitwise_sound op a b x y : is_bitwise op = true → wf_av a → wf_av b → gamma a x → gamma b y →
  gamma (transferBitwise op a b) (js_bitwise op x y).
Proof.
  intros Hop Wa Wb Gx Gy. unfold transferBitwise. destruct (isSingleton a && isSingleton b) eqn:Hs.
  - apply andb_true_iff in Hs as [Sa Sb].
    destruct (singleton_key a x Sa Gx) as [Nx Kx], (singleton_key b y Sb Gy) as [Ny Ky].
    assert (E : js_bitwise op (av_lo a) (av_lo b) = js_bitwise op x y).
    { unfold js_bitwise, num_to_int32, num_to_uint32.
      by rewrite (num_to_Z_key (av_lo a) x), (num_to_Z_key (av_lo b) y) by first [apply Wa|apply Wb|apply Gx|apply Gy|done]. }
    rewrite E. destruct (js_bitwise_range op x y) as (z & -> & Hz).
    destruct (num_of_Z_spec z) as (W & N & K & _); [destruct op; lia|]. by apply gamma_const.
  - destruct (js_bitwise_range op x y) as (z & Ez & Hz).
    destruct op; try discriminate Hop; apply (gamma_int z); try done; lia.
Qed.

Lemma transferBitNot_sound a x : wf_av a → gamma a x → gamma (transferBitNot a) (js_bitnot x).
Proof.
  intros Wa Gx. unfold transferBitNot.
  assert (R : ∀ y, - 2 ^ 31 <= Z.lnot (num_to_int32 y) < 2 ^ 31).
  { intros y. unfold num_to_int32. pose proof (to_int32_range (num_to_Z y)). unfold Z.lnot. lia. }
  destruct (isSingleton a) eqn:Hs.
  - destruct (singleton_key a x Hs Gx) as [Nx Kx]. unfold js_bitnot, num_to_int32.
    rewrite (num_to_Z_key (av_lo a) x) by first [apply Wa|apply Gx|done].
    specialize (R x). unfold num_to_int32 in R. destruct (num_of_Z_spec (Z.lnot (to_int32 (num_to_Z x)))) as (W & N & K & _); [lia|].
    by apply gamma_const.
  - specialize (R x). by apply (gamma_int (Z.lnot (num_to_int32 x))); try lia.
Qed.

(** ** Joins *)

Lemma bottom_empty v x : isBottom v = true → ¬ gamma v x.
Proof.
  unfold isBottom. intros [H N]%andb_true_iff G. apply num_lt_iff in H as (H1 & H2 & H).
  destruct (is_nan x) eqn:Nx.
  - pose proof (gamma_is_nan v x G Nx) as E. by rewrite E in N.
  - destruct (gamma_num v x G Nx) as (_ & _ & _ & K). lia.
Qed.

(** The numeric part of a join, without the bottom shortcuts. *)
Lemma join_bounds a b : wf_av a → wf_av b → isBottom a = false → isBottom b = false →
  let j := join a b in
  wf_av j ∧ av_nan j = av_nan a || av_nan b ∧
  (hasNumeric a = true → key (av_lo j) <= key (av_lo a) ∧ key (av_hi a) <= key (av_hi j)) ∧
  (hasNumeric b = true → key (av_lo j) <= key (av_lo b) ∧ key (av_hi b) <= key (av_hi j)) ∧
  (av_whole j = true → (hasNumeric a = true → av_whole a = true) ∧ (hasNumeric b = true → av_whole b = true)).
Proof.
  intros Wa Wb Ba Bb j. unfold j, join. rewrite Ba, Bb.
  destruct (key_min (av_lo a) (av_lo b)) as [Nm Km]; [apply Wa|apply Wb|].
  destruct (key_max (av_hi a) (av_hi b)) as [NM KM]; [apply Wa|apply Wb|].
  assert (Wm : wf_num (math_min (av_lo a) (av_lo b))) by (apply wf_min; [apply Wa|apply Wb]).
  assert (WM : wf_num (math_max (av_hi a) (av_hi b))) by (apply wf_max; [apply Wa|apply Wb]).
  split_and!.
  - apply absVal_wf; destruct (hasNumeric a), (hasNumeric b); simpl; first [done|apply Wa|apply Wb].
  - done.
  - intros ->. simpl. destruct (hasNumeric b); rewrite !normZero_key; lia.
  - intros ->. destruct (hasNumeric a); simpl; rewrite !normZero_key; lia.
  - unfold absVal. cbn [av_whole]. destruct (hasNumeric a), (hasNumeric b), (av_whole a), (av_whole b); simpl; try done.
Qed.

Lemma bounded_gamma v w x : gamma v x → wf_av v → wf_av w →
  (hasNumeric v = true → key (av_lo w) <= key (av_lo v) ∧ key (av_hi v) <= key (av_hi w)) →
  (av_nan v = true → av_nan w = true) → (hasNumeric v = true → av_whole w = true → av_whole v = true) → gamma w x.
Proof.
  intros G Wv Ww Hb Hn Hw. destruct (is_nan x) eqn:Nx.
  - apply gamma_nan; [apply G|done|]. by apply Hn, (gamma_is_nan v x).
  - destruct (gamma_num v x G Nx) as (Hv & _ & _ & K). destruct (Hb Hv). split; [apply G|]. rewrite Nx.
    split_and!; [apply num_le_iff..|intros; apply (gamma_whole v x); auto]; split_and!; try apply Ww; try done; lia.
Qed.

Lemma join_upper a b x : wf_av a → wf_av b → gamma a x ∨ gamma b x → gamma (join a b) x.
Proof.
  intros Wa Wb G. destruct (isBottom a) eqn:Ba.
  { unfold join. rewrite Ba. destruct G as [G|G]; [by destruct (bottom_empty a x)|done]. }
  destruct (isBottom b) eqn:Bb.
  { unfold join. rewrite Ba, Bb. destruct G as [G|G]; [done|by destruct (bottom_empty b x)]. }
  destruct (join_bounds a b Wa Wb Ba Bb) as (Wj & Hn & Hla & Hlb & Hw).
  destruct G as [G|G]; [apply (bounded_gamma a)|apply (bounded_gamma b)]; try done; rewrite ?Hn.
  - by intros ->.
  - intros Ha W. by apply Hw in W as [W _]; auto.
  - intros ->. apply orb_true_r.
  - intros Hb W. by apply Hw in W as [_ W]; auto.
Qed.

Lemma join_wf a b : wf_av a → wf_av b → wf_av (join a b).
Proof.
  intros Wa Wb. destruct (isBottom a) eqn:Ba; [unfold join; by rewrite Ba|].
  destruct (isBottom b) eqn:Bb; [unfold join; by rewrite Ba, Bb|]. by apply join_bounds.
Qed.

(** ** Widening *)

Lemma thresholds_num : Forall (λ t, is_nan t = false ∧ wf_num t) (WIDEN_THRESHOLDS ++ WIDEN_THRESHOLDS_NEG).
Proof.
  assert (F : ∀ z, Z.abs z <= 2 ^ 53 → is_nan (fin z) = false ∧ wf_num (fin z)) by (intros z Hz; by destruct (fin_spec z Hz)).
  assert (S : is_nan SAFE_MAX = false ∧ wf_num SAFE_MAX) by (apply F; lia).
  assert (S' : is_nan SAFE_MIN = false ∧ wf_num SAFE_MIN) by (unfold SAFE_MIN; split; [rewrite neg_nan|apply wf_neg]; apply S).
  unfold WIDEN_THRESHOLDS, WIDEN_THRESHOLDS_NEG. cbn [app].
  repeat (apply Forall_cons; split; [first [exact S|exact S'|by split|apply F; lia]|]). apply Forall_nil_2.
Qed.

(** A widened upper bound is a threshold above the new bound. *)
Lemma widen_hi x : wf_num x → is_nan x = false →
  let t := default PInf (find (λ t, num_le x t) WIDEN_THRESHOLDS) in
  t ∈ WIDEN_THRESHOLDS ∧ num_le x t = true.
Proof.
  intros W N t. unfold t. destruct (find _ _) as [u|] eqn:E; simpl.
  - apply find_some in E as [H1 H2]. split; [by apply list_elem_of_In|done].
  - exfalso. assert (L : num_le x PInf = true).
    { apply num_le_iff. pose proof (key_range x W). simpl key. split_and!; [done..|lia]. }
    rewrite (find_none _ _ E PInf) in L; [done|simpl; auto 6].
Qed.

Lemma widen_lo x : wf_num x → is_nan x = false →
  let t := default NInf (find (λ t, num_le t x) WIDEN_THRESHOLDS_NEG) in
  t ∈ WIDEN_THRESHOLDS_NEG ∧ num_le t x = true.
Proof.
  intros W N t. unfold t. destruct (find _ _) as [u|] eqn:E; simpl.
  - apply find_some in E as [H1 H2]. split; [by apply list_elem_of_In|done].
  - exfalso. assert (L : num_le NInf x = true).
    { apply num_le_iff. pose proof (key_range x W). simpl key. split_and!; [done..|lia]. }
    rewrite (find_none _ _ E NInf) in L; [done|simpl; auto 6].
Qed.

Lemma widen_bounds prev next : wf_av prev → wf_av next → isBottom prev = false →
  let w := widen prev next in
  wf_av w ∧ av_nan w = av_nan next ∧ av_spelling w = av_spelling next ∧ (av_whole w = true → av_whole next = true) ∧
  key (av_lo w) <= key (av_lo next) ∧ key (av_hi next) <= key (av_hi w) ∧
  (av_lo w = normZero (av_lo next) ∧ key (av_lo prev) <= key (av_lo next) ∨
   key (av_lo next) < key (av_lo prev) ∧ ∃ t, t ∈ WIDEN_THRESHOLDS_NEG ∧ av_lo w = normZero t) ∧
  (av_hi w = normZero (av_hi next) ∧ key (av_hi next) <= key (av_hi prev) ∨
   key (av_hi prev) < key (av_hi next) ∧ ∃ t, t ∈ WIDEN_THRESHOLDS ∧ av_hi w = normZero t).
Proof.
  intros Wp Wn Bp w. unfold w, widen. rewrite Bp.
  destruct (widen_lo (av_lo next)) as [Il Ll]; [apply Wn..|]. destruct (widen_hi (av_hi next)) as [Ih Lh]; [apply Wn..|].
  set (tl := default NInf _) in *. set (th := default PInf _) in *.
  pose proof thresholds_num as T. rewrite Forall_forall in T.
  destruct (T tl) as [Ntl Wtl]; [apply elem_of_app; by right|]. destruct (T th) as [Nth Wth]; [apply elem_of_app; by left|]. clear T.
  apply num_le_iff in Ll as (_ & _ & Ll), Lh as (_ & _ & Lh).
  assert (El : num_lt (av_lo next) (av_lo prev) = (key (av_lo next) <? key (av_lo prev))).
  { unfold num_lt. by rewrite (wf_lo_num _ Wp), (wf_lo_num _ Wn). }
  assert (Eh : num_lt (av_hi prev) (av_hi next) = (key (av_hi prev) <? key (av_hi next))).
  { unfold num_lt. by rewrite (wf_hi_num _ Wp), (wf_hi_num _ Wn). }
  rewrite El, Eh. destruct (Z.ltb_spec (key (av_lo next)) (key (av_lo prev))), (Z.ltb_spec (key (av_hi prev)) (key (av_hi next))).
  all: split_and!; try done; try (apply absVal_wf; first [done|apply Wn]); try (simpl; rewrite normZero_key; lia).
  all: try (unfold absVal; cbn [av_whole]; destruct (av_whole next); simpl; by try case_match).
  all: simpl; eauto 6.
Qed.

Lemma widen_upper prev next x : wf_av prev → wf_av next → gamma next x → gamma (widen prev next) x.
Proof.
  intros Wp Wn G. destruct (isBottom prev) eqn:Bp; [unfold widen; by rewrite Bp|].
  destruct (widen_bounds prev next Wp Wn Bp) as (Ww & En & _ & Hw & Hl & Hh & _).
  apply (bounded_gamma next); auto. by rewrite En.
Qed.

(** *** A loop header stabilises

    [execLoop] replaces the header state [v] of a binding by
    [widen(v, join(v, w))], where [w] comes back round the loop, until
    [sameVal]. *)

Definition header_step (v w : AbsVal) : AbsVal := widen v (join v w).

(** The steps on which the header changed. *)
Fixpoint header_changes (v : AbsVal) (trips : list AbsVal) : nat :=
  match trips with
  | [] => 0
  | w :: ws => let v' := header_step v w in (if sameVal v v' then 0 else 1) + header_changes v' ws
  end%nat.

(** Values as the constructors make them: the empty set of numbers is [Inf, -Inf]. *)
Definition canon (v : AbsVal) : Prop := wf_av v ∧ (hasNumeric v = true ∨ (av_lo v = PInf ∧ av_hi v = NInf)).

Definition count (p : num → bool) (l : list num) : nat := length (List.filter p l).

Lemma count_le (p q : num → bool) l : (∀ t, t ∈ l → p t = true → q t = true) → (count p l <= count q l)%nat.
Proof.
  unfold count. induction l as [|t l IH]; intros H; simpl; [done|].
  assert (IH' := IH ltac:(intros; apply H; [by right|done])). destruct (p t) eqn:P.
  - rewrite (H t) by (done || left). simpl. lia.
  - destruct (q t); simpl; lia.
Qed.

Lemma count_lt (p q : num → bool) l t : (∀ t, t ∈ l → p t = true → q t = true) → t ∈ l → p t = false → q t = true →
  (count p l < count q l)%nat.
Proof.
  intros H Ht Hp Hq. induction l as [|u l IH]; [by apply elem_of_nil in Ht|].
  assert (Hl : (count p l <= count q l)%nat) by (apply count_le; intros; apply H; [by right|done]).
  apply elem_of_cons in Ht as [->|Ht].
  - unfold count in *. simpl. rewrite Hp, Hq. simpl. lia.
  - assert (count p l < count q l)%nat by (apply IH; [intros; apply H; [by right|done]|done]).
    unfold count in *. simpl. destruct (p u) eqn:P; [rewrite (H u) by (done || left)|destruct (q u)]; simpl; lia.
Qed.

(** Thresholds still above the upper bound, and below the lower one. *)
Definition room_hi (v : AbsVal) : nat := count (λ t, key (av_hi v) <? key t) WIDEN_THRESHOLDS.
Definition room_lo (v : AbsVal) : nat := count (λ t, key t <? key (av_lo v)) WIDEN_THRESHOLDS_NEG.

Definition potential (v : AbsVal) : nat :=
  if isBottom v then 15
  else (if hasNumeric v then 0 else 2) + room_hi v + room_lo v + Nat.b2n (av_whole v) + Nat.b2n (negb (av_nan v)) +
       Nat.b2n (bool_decide (is_Some (av_spelling v))).

Lemma potential_le v : (potential v <= 15)%nat ∧ (isBottom v = false → potential v <= 14)%nat.
Proof.
  assert (R : (room_hi v <= 5 ∧ room_lo v <= 4)%nat).
  { unfold room_hi, room_lo, count. split; (etransitivity; [apply List.filter_length_le|done]). }
  unfold potential. destruct (isBottom v); [done|].
  destruct (hasNumeric v), (av_whole v), (av_nan v), (bool_decide _); simpl; lia.
Qed.

Lemma hasNumeric_keys v : wf_av v → hasNumeric v = true ↔ key (av_lo v) <= key (av_hi v).
Proof. intros W. unfold hasNumeric. rewrite num_le_iff. pose proof (wf_lo_num v W). pose proof (wf_hi_num v W). naive_solver. Qed.

Lemma join_spelling a b : isBottom a = false → isBottom b = false →
  av_spelling (join a b) = None ∨ av_spelling (join a b) = av_spelling a.
Proof. intros Ha Hb. unfold join. rewrite Ha, Hb. simpl. case_match; auto. Qed.

(** The two ways a join grows: over the old bounds, staying canonical. *)
Lemma join_canon a b : canon a → canon b → canon (join a b).
Proof.
  intros [Wa Ca] [Wb Cb]. split; [by apply join_wf|].
  destruct (isBottom a) eqn:Ba; [unfold join; by rewrite Ba|].
  destruct (isBottom b) eqn:Bb; [unfold join; by rewrite Ba, Bb|].
  destruct (join_bounds a b Wa Wb Ba Bb) as (Wj & _ & Hla & Hlb & _). rewrite (hasNumeric_keys _ Wj).
  destruct (hasNumeric a) eqn:Ha; [left; apply hasNumeric_keys in Ha; [|done]; destruct (Hla eq_refl); lia|].
  destruct (hasNumeric b) eqn:Hb; [left; apply hasNumeric_keys in Hb; [|done]; destruct (Hlb eq_refl); lia|].
  right. destruct Cb as [|[E1 E2]]; [done|]. unfold join. rewrite Ba, Bb, Ha, Hb. simpl. by rewrite E1, E2.
Qed.

Lemma not_bottom_grows v w : canon v → canon w → isBottom v = false →
  let n := join v w in
  key (av_lo n) <= key (av_lo v) ∧ key (av_hi v) <= key (av_hi n) ∧ (av_nan v = true → av_nan n = true) ∧
  (hasNumeric v = true → hasNumeric n = true) ∧
  (av_whole n = true → av_whole v = true ∨ (hasNumeric v = false ∧ hasNumeric n = true)) ∧
  (av_spelling n = None ∨ av_spelling n = av_spelling v).
Proof.
  intros [Wv Cv] [Ww Cw] Bv n. destruct (isBottom w) eqn:Bw.
  { unfold n, join. rewrite Bv, Bw. split_and!; auto; lia. }
  pose proof (join_canon v w ltac:(by split) ltac:(by split)) as [Wn Cn]. fold n in Wn, Cn.
  destruct (join_bounds v w Wv Ww Bv Bw) as (_ & Hn & Hla & Hlb & Hw). fold n in Hn, Hla, Hlb, Hw.
  pose proof (key_range _ (wf_lo n Wn)). pose proof (key_range _ (wf_hi n Wn)).
  assert (G : key (av_lo n) <= key (av_lo v) ∧ key (av_hi v) <= key (av_hi n)).
  { destruct (hasNumeric v) eqn:Hv; [by apply Hla|]. destruct Cv as [|[-> ->]]; [done|]. simpl key at 2 3. lia. }
  split_and!; try apply G.
  - intros E. by rewrite Hn, E.
  - intros Hv. rewrite hasNumeric_keys in * by done. lia.
  - intros E. destruct (Hw E) as [H1 _]. destruct (hasNumeric v) eqn:Hv; [left; auto|].
    destruct (hasNumeric n) eqn:Hnn; [auto|]. exfalso.
    assert (Hb : hasNumeric w = false).
    { destruct (hasNumeric w) eqn:Hb; [|done]. destruct (Hlb eq_refl). apply hasNumeric_keys in Hb; [|done].
      assert (hasNumeric n = true) by (apply hasNumeric_keys; [done|lia]). congruence. }
    destruct Cw as [|[E1 E2]]; [congruence|]. unfold n, join in E. rewrite Bv, Bw, Hv, Hb in E. simpl in E. by rewrite E1, E2 in E.
  - by apply join_spelling.
Qed.

(** Growth in every component; a component that moved pays for it. *)
Lemma potential_drop v r : wf_av v → wf_av r → isBottom v = false → isBottom r = false →
  (room_hi r <= room_hi v)%nat ∧ (key (av_hi r) ≠ key (av_hi v) → room_hi r < room_hi v)%nat →
  (room_lo r <= room_lo v)%nat ∧ (key (av_lo r) ≠ key (av_lo v) → room_lo r < room_lo v)%nat →
  (av_nan v = true → av_nan r = true) → (hasNumeric v = true → hasNumeric r = true) →
  (av_whole r = true → av_whole v = true ∨ (hasNumeric v = false ∧ hasNumeric r = true)) →
  (av_spelling r = None ∨ av_spelling r = av_spelling v) →
  (sameVal v r = false → potential r < potential v)%nat ∧ (potential r <= potential v)%nat.
Proof.
  intros Wv Wr Bv Br [Hh Hh'] [Hl Hl'] Hn Hnum Hw Hs. unfold potential. rewrite Bv, Br.
  assert (S : (Nat.b2n (bool_decide (is_Some (av_spelling r))) <= Nat.b2n (bool_decide (is_Some (av_spelling v))))%nat ∧
    (av_spelling v ≠ av_spelling r → Nat.b2n (bool_decide (is_Some (av_spelling r))) < Nat.b2n (bool_decide (is_Some (av_spelling v))))%nat).
  { destruct Hs as [-> | ->]; [|split; done || lia]. destruct (av_spelling v); simpl; split; done || lia. }
  destruct S as [S S'].
  assert (E : sameVal v r = false → key (av_hi r) ≠ key (av_hi v) ∨ key (av_lo r) ≠ key (av_lo v) ∨
    av_whole v ≠ av_whole r ∨ av_nan v ≠ av_nan r ∨ av_spelling v ≠ av_spelling r).
  { intros H. destruct (decide (key (av_hi r) = key (av_hi v))) as [E1|]; [|auto]. destruct (decide (key (av_lo r) = key (av_lo v))) as [E2|]; [|auto].
    destruct (decide (av_whole v = av_whole r)) as [E3|]; [|auto]. destruct (decide (av_nan v = av_nan r)) as [E4|]; [|auto 6].
    destruct (decide (av_spelling v = av_spelling r)) as [E5|]; [|auto 7]. exfalso.
    assert (sameVal v r = true); [|congruence]. unfold sameVal.
    rewrite E3, E4, E5, !eqb_reflx, bool_decide_true by done. rewrite !andb_true_r. apply andb_true_iff.
    split; apply num_eq_iff; split_and!; try apply Wv; try apply Wr; done. }
  destruct (hasNumeric v) eqn:Nv, (hasNumeric r) eqn:Nr', (av_whole v) eqn:Wh, (av_whole r) eqn:Whr, (av_nan v) eqn:Na, (av_nan r) eqn:Nar;
    try (specialize (Hn eq_refl); discriminate Hn); try (specialize (Hnum eq_refl); discriminate Hnum);
    try (destruct (Hw eq_refl) as [X|[X1 X2]]; [discriminate X|try discriminate X1; try discriminate X2]);
    cbn [Nat.b2n negb]; (split; [intros Hsv; destruct (E Hsv) as [?|[?|[?|[?|?]]]]|]); first [congruence|lia|intuition lia].
Qed.

(** One header step: it keeps the canonical form, and a change uses up potential. *)
Lemma header_step_spec v w : canon v → canon w → isBottom v = false →
  canon (header_step v w) ∧ isBottom (header_step v w) = false ∧
  (sameVal v (header_step v w) = false → potential (header_step v w) < potential v)%nat ∧
  (potential (header_step v w) <= potential v)%nat.
Proof.
  intros Cv Cw Bv. unfold header_step. pose proof (join_canon v w Cv Cw) as Cn.
  destruct (not_bottom_grows v w Cv Cw Bv) as (Gl & Gh & Gn & Gnum & Gw & Gs). set (n := join v w) in *.
  destruct Cv as [Wv Cv], Cn as [Wn Cn]. destruct (widen_bounds v n Wv Wn Bv) as (Wr & En & Es & Ew & Rl & Rh & Tl & Th).
  set (r := widen v n) in *.
  assert (Nr : hasNumeric n = true → hasNumeric r = true) by (intros H; rewrite hasNumeric_keys in * by done; lia).
  assert (Br : isBottom r = false).
  { unfold isBottom in *. apply andb_false_iff. apply andb_false_iff in Bv as [Bv|Bv].
    - left. unfold num_lt in *. rewrite (wf_lo_num v Wv), (wf_hi_num v Wv) in Bv. rewrite (wf_lo_num r Wr), (wf_hi_num r Wr).
      cbn [negb andb] in *. apply Z.ltb_ge. apply Z.ltb_ge in Bv. lia.
    - right. apply negb_false_iff in Bv. by rewrite En, Gn. }
  assert (Hh : (room_hi r <= room_hi v)%nat ∧ (key (av_hi r) ≠ key (av_hi v) → room_hi r < room_hi v)%nat).
  { assert (Hm : ∀ t, t ∈ WIDEN_THRESHOLDS → (key (av_hi r) <? key t) = true → (key (av_hi v) <? key t) = true).
    { intros t _ Ht%Z.ltb_lt. apply Z.ltb_lt. lia. }
    split; [by apply count_le|]. intros Hne. destruct Th as [[E H]|[H (t & It & E)]].
    - exfalso. apply Hne. rewrite E, normZero_key. lia.
    - assert (Et : key (av_hi r) = key t) by (by rewrite E, normZero_key).
      apply (count_lt _ _ _ t Hm It); [apply Z.ltb_ge|apply Z.ltb_lt]; lia. }
  assert (Hl : (room_lo r <= room_lo v)%nat ∧ (key (av_lo r) ≠ key (av_lo v) → room_lo r < room_lo v)%nat).
  { assert (Hm : ∀ t, t ∈ WIDEN_THRESHOLDS_NEG → (key t <? key (av_lo r)) = true → (key t <? key (av_lo v)) = true).
    { intros t _ Ht%Z.ltb_lt. apply Z.ltb_lt. lia. }
    split; [by apply count_le|]. intros Hne. destruct Tl as [[E H]|[H (t & It & E)]].
    - exfalso. apply Hne. rewrite E, normZero_key. lia.
    - assert (Et : key (av_lo r) = key t) by (by rewrite E, normZero_key).
      apply (count_lt _ _ _ t Hm It); [apply Z.ltb_ge|apply Z.ltb_lt]; lia. }
  split.
  { split; [done|]. destruct (hasNumeric n) eqn:Hn; [left; auto|]. destruct Cn as [|[E1 E2]]; [done|].
    destruct Tl as [[El _]|[H _]]; [|exfalso; rewrite E1 in *; pose proof (key_range _ (wf_lo v Wv)); simpl in H; lia].
    destruct Th as [[Eh _]|[H _]]; [|exfalso; rewrite E2 in *; pose proof (key_range _ (wf_hi v Wv)); simpl in H; lia].
    right. by rewrite El, Eh, E1, E2. }
  split; [done|]. apply (potential_drop v r); try done.
  - intros H. by rewrite En, Gn.
  - auto.
  - intros H. destruct (Gw (Ew H)) as [|[]]; auto.
  - by rewrite Es.
Qed.


(** ** Comparison edges *)

Definition CMP (op : IrNumBinOp) (x y : num) : bool :=
  match op with
  | OpLt => num_lt x y
  | OpLe => num_le x y
  | OpGt => num_lt y x
  | OpGe => num_le y x
  | OpEq => num_eq x y
  | OpNe => negb (num_eq x y)
  | _ => false
  end.

Definition CMP_OPS (op : IrNumBinOp) : bool :=
  match op with OpLt | OpLe | OpGt | OpGe | OpEq | OpNe => true | _ => false end.

Definition NEGATE (op : IrNumBinOp) : IrNumBinOp :=
  match op with OpLt => OpGe | OpLe => OpGt | OpGt => OpLe | OpGe => OpLt | OpEq => OpNe | OpNe => OpEq | _ => op end.
Definition FLIP (op : IrNumBinOp) : IrNumBinOp :=
  match op with OpLt => OpGt | OpLe => OpGe | OpGt => OpLt | OpGe => OpLe | _ => op end.

(** [{ ...v, maybeNaN: false }] *)
Definition clear_nan (v : AbsVal) : AbsVal := mkAbs (av_lo v) (av_hi v) (av_whole v) false (av_spelling v).

Definition meetInterval (v : AbsVal) (lo hi : num) (clearNaN : bool) : AbsVal :=
  let newLo := math_max (av_lo v) lo in
  let newHi := math_min (av_hi v) hi in
  let n := if clearNaN then false else av_nan v in
  if num_lt newHi newLo then bottom_nan n else absVal newLo newHi (av_whole v) n (av_spelling v).

Definition refineLhs (op : IrNumBinOp) (a b : AbsVal) (clearNaN : bool) : AbsVal :=
  let keep := if clearNaN then clear_nan a else a in
  if negb (hasNumeric b) || negb (hasNumeric a) then keep
  else match op with
  | OpLt => meetInterval a NInf (if av_whole a then num_sub (math_ceil (av_hi b)) (fin 1) else av_hi b) clearNaN
  | OpLe => meetInterval a NInf (if av_whole a then math_floor (av_hi b) else av_hi b) clearNaN
  | OpGt => meetInterval a (if av_whole a then num_add (math_floor (av_lo b)) (fin 1) else av_lo b) PInf clearNaN
  | OpGe => meetInterval a (if av_whole a then math_ceil (av_lo b) else av_lo b) PInf clearNaN
  | OpEq => meetInterval a (av_lo b) (av_hi b) clearNaN
  | OpNe =>
      if isSingleton b && av_whole a && is_integer (av_lo b) then
        if num_eq (av_lo a) (av_lo b) then meetInterval a (num_add (av_lo a) (fin 1)) (av_hi a) clearNaN
        else if num_eq (av_hi a) (av_lo b) then meetInterval a (av_lo a) (num_sub (av_hi a) (fin 1)) clearNaN
        else keep
      else keep
  | _ => a
  end.

(** The [bin] case of [refine]: the new values of the two operands on the
    edge where [left op right] was [branch]. *)
Definition refine_bin (op : IrNumBinOp) (branch : bool) (a b : AbsVal) : AbsVal * AbsVal :=
  let op := if branch then op else NEGATE op in
  let clearNaN := negb (bool_decide (op = OpNe)) in
  (refineLhs op a b clearNaN, refineLhs (FLIP op) b a clearNaN).

(** The [toBool] case: the value of an operand found truthy or falsy. *)
Definition refine_toBool (v : AbsVal) (branch : bool) : AbsVal :=
  if branch then
    let r := clear_nan v in
    if av_whole r && num_eq (av_lo r) (Fin 0) && num_le (fin 1) (av_hi r) then absVal (fin 1) (av_hi r) (av_whole r) false (av_spelling r)
    else if av_whole r && num_eq (av_hi r) (Fin 0) && num_le (av_lo r) (fin (-1))
    then absVal (av_lo r) (fin (-1)) (av_whole r) false (av_spelling r)
    else r
  else meetInterval v (Fin 0) (Fin 0) false.

(** ToBoolean of a Number. *)
Definition js_truthy (x : num) : bool := negb (is_nan x) && negb (key x =? 0).

Lemma meet_sound v lo hi clearNaN x : wf_av v → gamma v x → is_nan lo = false → is_nan hi = false →
  (is_nan x = false → key lo <= key x <= key hi) → (clearNaN = true → is_nan x = false) →
  gamma (meetInterval v lo hi clearNaN) x.
Proof.
  intros W G Nlo Nhi Hb Hc. unfold meetInterval.
  destruct (key_max (av_lo v) lo (wf_lo_num v W) Nlo) as [NM KM], (key_min (av_hi v) hi (wf_hi_num v W) Nhi) as [Nm Km].
  destruct (is_nan x) eqn:Nx.
  - assert (clearNaN = false) as -> by (destruct clearNaN; [discriminate (Hc eq_refl)|done]).
    pose proof (gamma_is_nan v x G Nx). case_match; apply gamma_nan; try done; apply G.
  - destruct (gamma_num v x G Nx) as (_ & _ & _ & K). specialize (Hb eq_refl).
    assert (num_lt (math_min (av_hi v) hi) (math_max (av_lo v) lo) = false) as ->.
    { unfold num_lt. rewrite NM, Nm. simpl. apply Z.ltb_ge. lia. }
    apply gamma_absVal; try done; [apply G|lia|]. intros Hw _ _. by apply (gamma_whole v x).
Qed.

Lemma meet_wf v lo hi clearNaN : wf_av v → wf_num lo → wf_num hi → is_nan lo = false → is_nan hi = false →
  wf_av (meetInterval v lo hi clearNaN).
Proof.
  intros W Wl Wh Nlo Nhi. unfold meetInterval.
  destruct (key_max (av_lo v) lo (wf_lo_num v W) Nlo) as [NM KM], (key_min (av_hi v) hi (wf_hi_num v W) Nhi) as [Nm Km].
  case_match; [apply bottom_nan_wf|]. apply absVal_wf; try done; [apply wf_max|apply wf_min]; by try apply W.
Qed.

Lemma clear_nan_sound v x : gamma v x → is_nan x = false → gamma (clear_nan v) x.
Proof. intros G N. split; [apply G|]. rewrite N. destruct G as [_ G]. by rewrite N in G. Qed.

Lemma clear_nan_wf v : wf_av v → wf_av (clear_nan v).
Proof. intros W. split; apply W. Qed.

(** Stepping one below an integer bound, and one above, under rounding. *)
Lemma sub_one c x : wf_num c → is_nan c = false → wf_num x → is_integer x = true → (is_finite c = true → key x + ONE <= key c) →
  key x < key c → is_nan (num_sub c (fin 1)) = false ∧ wf_num (num_sub c (fin 1)) ∧ key x <= key (num_sub c (fin 1)).
Proof.
  intros Wc Nc Wx Ix H Hlt. destruct (fin_spec 1 ltac:(lia)) as (W1 & F1 & K1). pose proof (integer_finite x Ix) as Fx.
  assert (Nx : is_nan x = false) by (by destruct x). pose proof (key_finite x Wx Fx) as Kx.
  unfold num_sub. assert (Wn : wf_num (num_neg (fin 1))) by by apply wf_neg.
  assert (Fn : is_finite (num_neg (fin 1)) = true) by by rewrite neg_finite.
  assert (N : is_nan (num_add c (num_neg (fin 1))) = false).
  { apply not_true_is_false. intros [N|[N|[[_ N]|[_ N]]]]%add_nan; [congruence|by destruct (num_neg (fin 1))|by rewrite N in Fn..]. }
  split_and!; [done|by apply wf_add|]. destruct (is_finite c) eqn:Fc.
  - rewrite key_add_fin, key_neg, K1, <- (ratio_exact (key x) false (wf_key_repr x Wx Fx)) by done.
    apply ratio_mono; [lia..|]. specialize (H eq_refl). lia.
  - destruct (add_cases c (num_neg (fin 1)) Wc Wn N) as [[E _]|[(E & _)|(E & [E2|E2] & _)]].
    + congruence.
    + rewrite E. lia.
    + lia.
    + pose proof (key_finite _ Wn Fn). lia.
Qed.

Lemma add_one c x : wf_num c → is_nan c = false → wf_num x → is_integer x = true → (is_finite c = true → key c + ONE <= key x) →
  key c < key x → is_nan (num_add c (fin 1)) = false ∧ wf_num (num_add c (fin 1)) ∧ key (num_add c (fin 1)) <= key x.
Proof.
  intros Wc Nc Wx Ix H Hlt. destruct (fin_spec 1 ltac:(lia)) as (W1 & F1 & K1). pose proof (integer_finite x Ix) as Fx.
  pose proof (key_finite x Wx Fx) as Kx.
  assert (N : is_nan (num_add c (fin 1)) = false).
  { apply not_true_is_false. intros [N|[N|[[_ N]|[_ N]]]]%add_nan; [congruence|done..]. }
  split_and!; [done|by apply wf_add|]. destruct (is_finite c) eqn:Fc.
  - rewrite key_add_fin, K1, <- (ratio_exact (key x) false (wf_key_repr x Wx Fx)) by done.
    apply ratio_mono; [lia..|]. specialize (H eq_refl). lia.
  - destruct (add_cases c (fin 1) Wc W1 N) as [[E _]|[(E & [E2|E2] & _)|(E & _)]].
    + congruence.
    + lia.
    + pose proof (key_finite _ W1 F1). lia.
    + rewrite E. lia.
Qed.

Lemma round_strict x c : is_integer x = true → is_finite c = true →
  (key x < key c → key x + ONE <= key (math_ceil c)) ∧ (key c < key x → key (math_floor c) + ONE <= key x).
Proof.
  intros Ix Fc. pose proof ONE_pos. destruct (integer_key_mult x Ix) as [m Em]. rewrite Em.
  change (math_ceil c) with (js_round RCeil c). change (math_floor c) with (js_round RFloor c).
  rewrite !key_js_round by done. simpl. split; intros Hlt.
  - pose proof (Z.div_mod (- key c) ONE ltac:(lia)). pose proof (Z.mod_pos_bound (- key c) ONE ltac:(lia)).
    assert (m < - (- key c / ONE)) by (apply (Z.mul_lt_mono_pos_r ONE); lia).
    pose proof (Z.mul_le_mono_nonneg_r (m + 1) (- (- key c / ONE)) ONE ltac:(lia) ltac:(lia)). lia.
  - pose proof (Z.div_mod (key c) ONE ltac:(lia)). pose proof (Z.mod_pos_bound (key c) ONE ltac:(lia)).
    assert (key c / ONE < m) by (apply (Z.mul_lt_mono_pos_r ONE); lia).
    pose proof (Z.mul_le_mono_nonneg_r (key c / ONE + 1) m ONE ltac:(lia) ltac:(lia)). lia.
Qed.

(** Rounding a bound towards the integers it bounds keeps them on its side. *)
Lemma round_bound fn x c : wf_num x → wf_num c → is_nan c = false → is_integer x = true →
  (key x <= key c → key x <= key (js_round fn c)) ∧ (key c <= key x → key (js_round fn c) <= key x).
Proof.
  intros Wx Wc Nc Ix. assert (Nx : is_nan x = false) by (by destruct x).
  assert (E : key (js_round fn x) = key x).
  { rewrite key_js_round by by apply integer_finite. apply round_key_fix. destruct (integer_key_mult x Ix) as [m ->].
    apply Z.mod_mul. pose proof ONE_pos. lia. }
  rewrite <- E. split; intros H; rewrite ?E in *; [rewrite <- E|rewrite <- E]; apply js_round_mono; done || lia.
Qed.

Lemma infinite_round fn c : is_finite c = false → js_round fn c = c.
Proof. destruct fn, c; done. Qed.

Lemma below_hi_strict a b x y : wf_av a → wf_av b → gamma a x → gamma b y → is_nan x = false → is_nan y = false → key x < key y →
  let c := if av_whole a then num_sub (math_ceil (av_hi b)) (fin 1) else av_hi b in
  is_nan c = false ∧ wf_num c ∧ key x <= key c.
Proof.
  intros Wa Wb Gx Gy Nx Ny H c. destruct (gamma_num b y Gy Ny) as (_ & _ & Nh & K). subst c.
  destruct (av_whole a) eqn:Hw; [|split_and!; [done|apply Wb|lia]].
  destruct (gamma_whole a x Wa Gx Nx Hw) as (Ix & _). change (math_ceil (av_hi b)) with (js_round RCeil (av_hi b)).
  assert (Hs : is_finite (av_hi b) = true → key x + ONE <= key (js_round RCeil (av_hi b))).
  { intros F. apply (round_strict x (av_hi b) Ix F). lia. }
  apply sub_one; rewrite ?js_round_nan, ?js_round_finite; try done; [apply wf_js_round, Wb|apply Gx|].
  pose proof ONE_pos. destruct (is_finite (av_hi b)) eqn:F; [specialize (Hs eq_refl); lia|]. rewrite infinite_round by done. lia.
Qed.

Lemma above_lo_strict a b x y : wf_av a → wf_av b → gamma a x → gamma b y → is_nan x = false → is_nan y = false → key y < key x →
  let c := if av_whole a then num_add (math_floor (av_lo b)) (fin 1) else av_lo b in
  is_nan c = false ∧ wf_num c ∧ key c <= key x.
Proof.
  intros Wa Wb Gx Gy Nx Ny H c. destruct (gamma_num b y Gy Ny) as (_ & Nl & _ & K). subst c.
  destruct (av_whole a) eqn:Hw; [|split_and!; [done|apply Wb|lia]].
  destruct (gamma_whole a x Wa Gx Nx Hw) as (Ix & _). change (math_floor (av_lo b)) with (js_round RFloor (av_lo b)).
  assert (Hs : is_finite (av_lo b) = true → key (js_round RFloor (av_lo b)) + ONE <= key x).
  { intros F. apply (round_strict x (av_lo b) Ix F). lia. }
  apply add_one; rewrite ?js_round_nan, ?js_round_finite; try done; [apply wf_js_round, Wb|apply Gx|].
  pose proof ONE_pos. destruct (is_finite (av_lo b)) eqn:F; [specialize (Hs eq_refl); lia|]. rewrite infinite_round by done. lia.
Qed.

Lemma CMP_not_nan op x y : CMP op x y = true → op ≠ OpNe → is_nan x = false ∧ is_nan y = false.
Proof.
  intros H Hne. destruct op; simpl in H; try discriminate H; try done;
    first [apply num_lt_iff in H|apply num_le_iff in H|apply num_eq_iff in H]; by destruct H as (H1 & H2 & _).
Qed.

Lemma keep_sound a x clearNaN : gamma a x → (clearNaN = true → is_nan x = false) → gamma (if clearNaN then clear_nan a else a) x.
Proof. intros G H. destruct clearNaN; [apply clear_nan_sound; auto|done]. Qed.

Lemma keep_wf a (clearNaN : bool) : wf_av a → wf_av (if clearNaN then clear_nan a else a).
Proof. intros W. destruct clearNaN; [by apply clear_nan_wf|done]. Qed.

(** Distinct integers are at least one apart. *)
Lemma int_gap x y : is_integer x = true → is_integer y = true → key x < key y → key x + ONE <= key y.
Proof.
  intros Ix Iy H. destruct (integer_key_mult x Ix) as [i E], (integer_key_mult y Iy) as [j E']. rewrite E, E' in *. pose proof ONE_pos.
  assert (Hij : i < j) by (apply (Z.mul_lt_mono_pos_r ONE); lia).
  pose proof (Z.mul_le_mono_nonneg_r (i + 1) j ONE ltac:(lia) ltac:(lia)). lia.
Qed.

Lemma refine_ne_sound a b x y clearNaN : wf_av a → wf_av b → gamma a x → gamma b y → CMP OpNe x y = true →
  (clearNaN = true → is_nan x = false) → gamma (refineLhs OpNe a b clearNaN) x.
Proof.
  intros Wa Wb Gx Gy Hc Hn. unfold refineLhs. destruct (negb (hasNumeric b) || negb (hasNumeric a)); [by apply keep_sound|].
  destruct (isSingleton b && av_whole a && is_integer (av_lo b)) eqn:Hs; [|by apply keep_sound].
  apply andb_true_iff in Hs as [[Sb Hw]%andb_true_iff Ib]. destruct (singleton_key b y Sb Gy) as [Ny Ky].
  assert (Hne : is_nan x = false → key x ≠ key (av_lo b)).
  { intros Nx E. simpl in Hc. apply negb_true_iff in Hc. rewrite <- Ky in E.
    assert (num_eq x y = true); [by apply num_eq_iff|congruence]. }
  assert (Hi : ∀ z, num_eq z (av_lo b) = true → wf_num z → is_integer z = true).
  { intros z (N1 & N2 & E)%num_eq_iff Wz. rewrite (integer_key z (av_lo b)); try done; apply Wb. }
  assert (Hx : is_nan x = false → is_integer x = true ∧ key (av_lo a) <= key x <= key (av_hi a)).
  { intros Nx. split; [by apply (gamma_whole a x)|by apply gamma_num]. }
  destruct (num_eq (av_lo a) (av_lo b)) eqn:E1; [|destruct (num_eq (av_hi a) (av_lo b)) eqn:E2; [|by apply keep_sound]].
  - pose proof (Hi _ E1 (wf_lo a Wa)) as Il. apply num_eq_iff in E1 as (_ & _ & E1).
    destruct (is_nan x) eqn:Nx.
    + assert (clearNaN = false) as -> by (destruct clearNaN; [discriminate (Hn eq_refl)|done]).
      unfold meetInterval. pose proof (gamma_is_nan a x Gx Nx). case_match; apply gamma_nan; try done; apply Gx.
    + destruct (Hx eq_refl) as [Ix K]. specialize (Hne eq_refl).
      destruct (add_one (av_lo a) x) as (N & W & H); [apply Wa|apply Wa|apply Gx|done|intros; apply int_gap; done || lia|lia|].
      apply meet_sound; try done; [apply Wa|]. intros. lia.
  - pose proof (Hi _ E2 (wf_hi a Wa)) as Ih. apply num_eq_iff in E2 as (_ & _ & E2).
    destruct (is_nan x) eqn:Nx.
    + assert (clearNaN = false) as -> by (destruct clearNaN; [discriminate (Hn eq_refl)|done]).
      unfold meetInterval. pose proof (gamma_is_nan a x Gx Nx). case_match; apply gamma_nan; try done; apply Gx.
    + destruct (Hx eq_refl) as [Ix K]. specialize (Hne eq_refl).
      destruct (sub_one (av_hi a) x) as (N & W & H); [apply Wa|apply Wa|apply Gx|done|intros; apply int_gap; done || lia|lia|].
      apply meet_sound; try done; [apply Wa|]. intros. lia.
Qed.

Lemma refineLhs_sound op a b x y clearNaN : wf_av a → wf_av b → gamma a x → gamma b y → CMP op x y = true →
  (clearNaN = true → is_nan x = false) → gamma (refineLhs op a b clearNaN) x.
Proof.
  intros Wa Wb Gx Gy Hc Hn. destruct (decide (op = OpNe)) as [->|Hop]; [by apply (refine_ne_sound a b x y)|].
  destruct (CMP_not_nan op x y Hc Hop) as [Nx Ny].
  destruct (gamma_num a x Gx Nx) as (Ha & Nl & Nh & K), (gamma_num b y Gy Ny) as (Hb & Nl' & Nh' & K').
  pose proof (key_range x ltac:(apply Gx)) as R. pose proof (below_hi_strict a b x y Wa Wb Gx Gy Nx Ny) as Bs.
  pose proof (above_lo_strict a b x y Wa Wb Gx Gy Nx Ny) as As.
  cbv zeta in Bs, As. unfold refineLhs. rewrite Ha, Hb. cbn [negb orb].
  assert (Hr : ∀ fn c, wf_num c → is_nan c = false → av_whole a = true →
    (key x <= key c → key x <= key (js_round fn c)) ∧ (key c <= key x → key (js_round fn c) <= key x)).
  { intros fn c Wc Nc Hw. apply round_bound; try done; [apply Gx|]. by apply (gamma_whole a x). }
  destruct op; try discriminate Hc; try done; simpl in Hc.
  - apply num_lt_iff in Hc as (_ & _ & Hc). destruct (Bs Hc) as (N & _ & H). apply meet_sound; try done. intros _. change (key NInf) with (- MAXK). lia.
  - apply num_le_iff in Hc as (_ & _ & Hc). apply meet_sound; try done.
    + destruct (av_whole a); [|done]. change (is_nan (js_round RFloor (av_hi b)) = false). by rewrite js_round_nan.
    + intros _. split; [simpl; lia|]. destruct (av_whole a) eqn:Hw; [|lia].
      apply (Hr RFloor (av_hi b)); [apply Wb|done|done|lia].
  - apply num_lt_iff in Hc as (_ & _ & Hc). destruct (As Hc) as (N & _ & H). apply meet_sound; try done. intros _. change (key PInf) with MAXK. lia.
  - apply num_le_iff in Hc as (_ & _ & Hc). apply meet_sound; try done.
    + destruct (av_whole a); [|done]. change (is_nan (js_round RCeil (av_lo b)) = false). by rewrite js_round_nan.
    + intros _. split; [|simpl; lia]. destruct (av_whole a) eqn:Hw; [|lia].
      apply (Hr RCeil (av_lo b)); [apply Wb|done|done|lia].
  - apply num_eq_iff in Hc as (_ & _ & Hc). apply meet_sound; try done. intros _. lia.
Qed.

Lemma CMP_flip op x y : CMP (FLIP op) y x = CMP op x y.
Proof. destruct op; simpl; try done; unfold num_eq; rewrite Z.eqb_sym; f_equal; destruct (is_nan x), (is_nan y); done. Qed.

(** The negated operator holds on the failed edge, when no operand is NaN. *)
Lemma CMP_negate op x y : CMP_OPS op = true → (is_nan x = false ∧ is_nan y = false) ∨ op = OpEq ∨ op = OpNe →
  CMP op x y = false → CMP (NEGATE op) x y = true.
Proof.
  intros Hop H Hc. destruct op; try discriminate Hop; simpl in *; try (by rewrite Hc); try (by apply negb_false_iff).
  all: destruct H as [[Nx Ny]|[|]]; [|done..]; unfold num_lt, num_le in *; rewrite Nx, Ny in *; simpl in *; zb.
  all: first [apply Z.leb_le; lia|apply Z.ltb_lt; lia].
Qed.

(** ** Results are again well formed *)

Lemma bounds_ok_wf lo hi w n sp : wf_num lo → wf_num hi → bounds_ok (absVal lo hi w n sp) → wf_av (absVal lo hi w n sp).
Proof. intros Wl Wh [? ?]%absVal_bounds. by apply absVal_wf. Qed.

Lemma TOP_wf : wf_av TOP.
Proof. by split. Qed.

Lemma wf_fold_list (f : num → num → num) a xs : (∀ x y, wf_num x → wf_num y → wf_num (f x y)) → wf_num a → Forall wf_num xs →
  wf_num (foldl f a xs).
Proof. intros Hf Wa H. revert a Wa. induction H; simpl; auto. Qed.

Lemma wf_js_minmax fn xs : Forall wf_num xs → wf_num (js_minmax fn xs).
Proof. destruct fn; apply wf_fold_list; try done; [apply wf_min|apply wf_max]. Qed.

Lemma wf_fin z : Z.abs z <= 2 ^ 53 → wf_num (fin z).
Proof. apply fin_spec. Qed.

Lemma fin_not_nan z : is_nan (fin z) = false.
Proof. done. Qed.

Lemma int_abs_wf lo hi : Z.abs lo <= 2 ^ 53 → Z.abs hi <= 2 ^ 53 → wf_av (absVal (fin lo) (fin hi) true false None).
Proof. intros. apply absVal_wf; try apply fin_not_nan; by apply wf_fin. Qed.

Lemma wf_js_bitwise op x y : wf_num (js_bitwise op x y).
Proof.
  destruct (js_bitwise_range op x y) as (z & -> & H). apply num_of_Z_spec. destruct op; lia.
Qed.

Lemma transferBitwise_wf op a b : wf_av (transferBitwise op a b).
Proof.
  unfold transferBitwise. case_match; [apply constVal_wf, wf_js_bitwise|].
  destruct op; apply int_abs_wf; lia.
Qed.

Lemma transferBin_wf num_pow op a b : op ≠ OpPow → wf_av a → wf_av b → bounds_ok (transferBin num_pow op a b) →
  wf_av (transferBin num_pow op a b).
Proof.
  intros Hp Wa Wb. pose proof (wf_lo a Wa). pose proof (wf_hi a Wa). pose proof (wf_lo b Wb). pose proof (wf_hi b Wb).
  destruct op; try done; simpl; intros Hb; try apply TOP_wf; try apply transferBitwise_wf.
  - unfold transferAdd in *. case_match; [apply bottom_nan_wf|]. apply bounds_ok_wf; by try apply wf_add.
  - unfold transferSub in *. case_match; [apply bottom_nan_wf|].
    apply bounds_ok_wf; try done; (apply wf_add; [done|by apply wf_neg]).
  - unfold transferMul in *. case_match; [apply bottom_nan_wf|].
    apply bounds_ok_wf; try done; apply wf_fold_list; repeat constructor; try apply wf_boundMul; [apply wf_min|apply wf_max].
  - unfold transferDiv in *. case_match; [apply bottom_nan_wf|]. case_match.
    + case_match; [apply bottom_nan_wf|]. apply bounds_ok_wf; [by destruct (lt0 _)|by destruct (gt0 _)|done].
    + case_match; [apply TOP_wf|].
      apply bounds_ok_wf; try done; apply wf_fold_list; repeat constructor; try apply wf_div; [apply wf_min|apply wf_max].
  - unfold transferMod in *. case_match; [apply bottom_nan_wf|]. case_match; [by apply constVal_wf, wf_rem|].
    set (dMax := math_max (math_abs (av_lo b)) (math_abs (av_hi b))) in *.
    assert (Wd : wf_num dMax) by (apply wf_max; by apply wf_abs).
    assert (W1 : wf_num (num_sub dMax (fin 1))) by (apply wf_add; [done|apply wf_neg, wf_fin; lia]).
    apply bounds_ok_wf; try done; repeat case_match; first [exact (wf_zero false)|done|by apply wf_neg].
Qed.

Lemma unary_wf a : wf_av a →
  wf_av (transferNeg a) ∧ wf_av (transferBitNot a) ∧ (∀ fn, wf_av (transferMathRound fn a)) ∧ wf_av (transferAbs a).
Proof.
  intros Wa. pose proof (wf_lo a Wa). pose proof (wf_hi a Wa). pose proof (wf_lo_num a Wa). pose proof (wf_hi_num a Wa). split_and!.
  - unfold transferNeg. case_match; [apply bottom_nan_wf|]. apply absVal_wf; rewrite ?neg_nan; try done; by apply wf_neg.
  - unfold transferBitNot. case_match; [|apply int_abs_wf; lia]. apply constVal_wf.
    unfold js_bitnot, num_to_int32. pose proof (to_int32_range (num_to_Z (av_lo a))). apply num_of_Z_spec. unfold Z.lnot. lia.
  - intros fn. unfold transferMathRound. case_match; [apply bottom_nan_wf|].
    apply absVal_wf; rewrite ?js_round_nan; try done; by apply wf_js_round.
  - unfold transferAbs. case_match; [apply bottom_nan_wf|].
    assert (Wm : wf_num (math_min (math_abs (av_lo a)) (math_abs (av_hi a)))) by (apply wf_min; by apply wf_abs).
    assert (WM : wf_num (math_max (math_abs (av_lo a)) (math_abs (av_hi a)))) by (apply wf_max; by apply wf_abs).
    destruct (minmax_nan (math_abs (av_lo a)) (math_abs (av_hi a))) as [Nm NM]. rewrite !abs_nan, H1, H2 in *.
    apply absVal_wf; try done; destruct (_ && _); first [exact (wf_zero false)|done].
Qed.

(** Both edges of a comparison. *)
Lemma refine_bin_gamma op (branch : bool) a b x y :
  CMP_OPS op = true → wf_av a → wf_av b → gamma a x → gamma b y → CMP op x y = branch →
  (branch = false → (is_nan x = false ∧ is_nan y = false) ∨ op = OpEq ∨ op = OpNe) →
  gamma (refine_bin op branch a b).1 x ∧ gamma (refine_bin op branch a b).2 y.
Proof.
  intros Hop Wa Wb Gx Gy Hc Hn. set (op' := if branch then op else NEGATE op).
  assert (Hc' : CMP op' x y = true). { subst op'. destruct branch; [done|]. apply CMP_negate; auto. }
  assert (Hnan : op' ≠ OpNe → is_nan x = false ∧ is_nan y = false) by (intros; by apply (CMP_not_nan op')).
  unfold refine_bin. fold op'. cbn [fst snd]. split.
  - apply (refineLhs_sound op' a b x y); try done. case_bool_decide; [done|]. intros _. by apply Hnan.
  - apply (refineLhs_sound (FLIP op') b a y x); try done; [by rewrite CMP_flip|]. case_bool_decide; [done|]. intros _. by apply Hnan.
Qed.

(** ** The theorems *)

(** C24. Over-approximation of arithmetic: for every binary operator the
    inference models precisely, if the operands of the JavaScript operation
    are described by the two abstract values then its result is described by
    the transfer function's value, which is again well formed.  The side
    conditions are those the code leaves out: no bound of the result is NaN
    (reachable through [Infinity] bounds, see [div_of_infinities_proves]) and
    a divisor is not [-0] (see [negative_zero_divisor]). *)
Theorem transferBin_sound num_pow op a b x y :
  CMP_OPS op = false → op ≠ OpPow → wf_av a → wf_av b → gamma a x → gamma b y → (op = OpDiv → y ≠ NZero) →
  bounds_ok (transferBin num_pow op a b) →
  wf_av (transferBin num_pow op a b) ∧ gamma (transferBin num_pow op a b) (js_bin num_pow op x y).
Proof.
  intros Hc Hp Wa Wb Gx Gy Hz Hb. split; [by apply transferBin_wf|].
  destruct op; try discriminate Hc; try (by destruct Hp); cbn [transferBin js_bin] in *.
  - by apply transferAdd_sound.
  - by apply transferSub_sound.
  - by apply transferMul_sound.
  - apply transferDiv_sound; auto.
  - by apply transferMod_sound.
  - by apply transferBitwise_sound.
  - by apply transferBitwise_sound.
  - by apply transferBitwise_sound.
  - by apply transferBitwise_sound.
  - by apply transferBitwise_sound.
  - by apply transferBitwise_sound.
Qed.

(** Members of small constant intervals, for the examples. *)
Definition int_interval (lo hi : Z) : AbsVal := absVal (fin lo) (fin hi) true false None.

Lemma int_interval_wf lo hi : Z.abs lo <= 2 ^ 53 → Z.abs hi <= 2 ^ 53 → wf_av (int_interval lo hi).
Proof. apply int_abs_wf. Qed.

Lemma key_fin z : key (fin z) = z * ONE.
Proof. done. Qed.

Lemma fin_integer z : is_integer (fin z) = true.
Proof. unfold is_integer, fin. apply Z.eqb_eq, Z.mod_mul. pose proof ONE_pos. lia. Qed.

Lemma int_interval_gamma lo hi z : lo <= z <= hi → Z.abs lo <= 2 ^ 53 → Z.abs hi <= 2 ^ 53 → gamma (int_interval lo hi) (fin z).
Proof.
  intros Hz Hl Hh. pose proof ONE_pos. apply gamma_absVal; try done; [apply wf_fin; lia| |intros; apply fin_integer].
  rewrite !key_fin. split; apply Z.mul_le_mono_nonneg_r; lia.
Qed.

Example transferBin_sound_witness :
  let a := int_interval 0 9 in let b := int_interval 3 7 in
  gamma (transferBin num_mul OpMod a b) (js_bin num_mul OpMod (fin 8) (fin 5)).
Proof.
  intros a b. apply (transferBin_sound num_mul OpMod a b (fin 8) (fin 5)); try discriminate; try reflexivity.
  - apply int_interval_wf; lia.
  - apply int_interval_wf; lia.
  - apply int_interval_gamma; lia.
  - apply int_interval_gamma; lia.
  - split; reflexivity.
Defined.

(** Over-approximation of the unary operators and of the [Math]
    functions with a transfer function, unconditionally. *)
Theorem unary_sound a x : wf_av a → gamma a x →
  gamma (transferNeg a) (num_neg x) ∧ gamma (transferBitNot a) (js_bitnot x) ∧
  (∀ fn, gamma (transferMathRound fn a) (js_round fn x)) ∧ gamma (transferAbs a) (math_abs x) ∧
  (∀ fn args xs, Forall wf_av args → Forall2 gamma args xs → gamma (transferMinMax fn (a :: args)) (js_minmax fn (x :: xs))).
Proof.
  intros Wa Gx. split_and!.
  - by apply transferNeg_sound.
  - by apply transferBitNot_sound.
  - intros. by apply transferMathRound_sound.
  - by apply transferAbs_sound.
  - intros. apply transferMinMax_sound; by constructor.
Qed.

Example unary_sound_witness :
  gamma (transferMinMax FMax [int_interval (-4) 9; int_interval 3 7]) (js_minmax FMax [fin (-2); fin 5]).
Proof.
  refine (proj2 (proj2 (proj2 (proj2 (unary_sound (int_interval (-4) 9) (fin (-2)) _ _)))) FMax [int_interval 3 7] [fin 5] _ _).
  - apply int_interval_wf; lia.
  - apply int_interval_gamma; lia.
  - apply Forall_singleton, int_interval_wf; lia.
  - constructor; [apply int_interval_gamma; lia|constructor].
Defined.

(** A flow join and a loop header describe every value of either edge,
    and keep the canonical form the domain's constructors establish. *)
Theorem join_widen_sound a b x : canon a → canon b → gamma a x ∨ gamma b x →
  gamma (join a b) x ∧ gamma (header_step a b) x ∧ canon (join a b) ∧
  (isBottom a = false → canon (header_step a b)).
Proof.
  intros Ca Cb G. assert (Gj : gamma (join a b) x) by (apply join_upper; [apply Ca|apply Cb|done]).
  split_and!; [done| |by apply join_canon|intros; by apply header_step_spec].
  apply widen_upper; [apply Ca|apply join_wf; [apply Ca|apply Cb]|done].
Qed.

Lemma int_interval_canon lo hi : lo <= hi → Z.abs lo <= 2 ^ 53 → Z.abs hi <= 2 ^ 53 → canon (int_interval lo hi).
Proof.
  intros. split; [by apply int_interval_wf|left]. apply hasNumeric_keys; [by apply int_interval_wf|].
  unfold int_interval. simpl. pose proof ONE_pos. apply Z.mul_le_mono_nonneg_r; lia.
Qed.

Example join_widen_sound_witness : gamma (join (int_interval 0 3) (int_interval 5 9)) (fin 7).
Proof.
  refine (proj1 (join_widen_sound (int_interval 0 3) (int_interval 5 9) (fin 7) _ _ _)).
  - apply int_interval_canon; lia.
  - apply int_interval_canon; lia.
  - right. apply int_interval_gamma; lia.
Defined.

(** Convergence of a loop header: once a binding is reachable, its header
    value changes at most fourteen times whatever comes back round the loop,
    so the fixpoint is found far below the cap of 64 iterations. *)
Theorem header_stabilises v trips : canon v → isBottom v = false → Forall canon trips → (header_changes v trips <= 14)%nat.
Proof.
  intros Cv Bv Ct. transitivity (potential v); [|by apply potential_le].
  revert v Cv Bv. induction Ct as [|w ws Cw _ IH]; intros v Cv Bv; simpl; [lia|].
  destruct (header_step_spec v w Cv Cw Bv) as (C' & B' & Hlt & Hle). specialize (IH _ C' B').
  destruct (sameVal v (header_step v w)); [lia|]. specialize (Hlt eq_refl). lia.
Qed.

(** A counter counting up from zero: the upper bound jumps to [2^31 - 1]. *)
Example header_stabilises_witness :
  (header_changes (int_interval 0 0) (map (λ k, int_interval 1 k) [1; 2; 3; 4]%Z) <= 14)%nat.
Proof.
  apply (header_stabilises (int_interval 0 0) (map (λ k, int_interval 1 k) [1; 2; 3; 4])).
  - apply int_interval_canon; lia.
  - reflexivity.
  - cbn [map]. repeat (apply Forall_cons; split; [apply int_interval_canon; lia|]). apply Forall_nil_2.
Defined.

(** Branch refinement: on the edge where a comparison was true, and on
    the edge where it was false when neither operand is NaN (or the operator
    is an equality), the refined values still describe the operands. *)
Theorem refine_bin_sound op (branch : bool) a b x y :
  CMP_OPS op = true → wf_av a → wf_av b → gamma a x → gamma b y → CMP op x y = branch →
  (branch = false → (is_nan x = false ∧ is_nan y = false) ∨ op = OpEq ∨ op = OpNe) →
  gamma (refine_bin op branch a b).1 x ∧ gamma (refine_bin op branch a b).2 y.
Proof. apply refine_bin_gamma. Qed.

(** [i < n] with [i] in [0, 100] and [n] in [5, 10]: [i] is at most 9, [n] at least 5. *)
Example refine_bin_sound_witness :
  let r := refine_bin OpLt true (int_interval 0 100) (int_interval 5 10) in
  r = (int_interval 0 9, int_interval 5 10) ∧ gamma r.1 (fin 6) ∧ gamma r.2 (fin 8).
Proof.
  split; [by vm_compute|].
  apply (refine_bin_sound OpLt true (int_interval 0 100) (int_interval 5 10) (fin 6) (fin 8)).
  - reflexivity.
  - apply int_interval_wf; lia.
  - apply int_interval_wf; lia.
  - apply int_interval_gamma; lia.
  - apply int_interval_gamma; lia.
  - reflexivity.
  - discriminate.
Defined.

(** The smallest and largest crossing integer of a class. *)
Definition class_min (cls : IntClass) : Z := match cls with I64 => - (2 ^ 53 - 1) | U64 => 0 end.
Definition class_max : Z := 2 ^ 53 - 1.

Lemma key_class_min cls : key (match cls with U64 => Fin 0 | I64 => SAFE_MIN end) = class_min cls * ONE.
Proof. destruct cls; [|done]. unfold SAFE_MIN. rewrite key_neg. unfold SAFE_MAX. rewrite key_fin. unfold class_min. lia. Qed.

(** What a PROVE verdict promises: every number the value describes is a
    whole number of the class's range, hence exactly representable at the
    64-bit boundary, and lies in the reported crossing range. *)
Theorem checkBoundary_sound Number_ String_ v cls lo hi x :
  wf_av v → gamma v x → checkBoundary Number_ String_ v cls = Prove lo hi →
  ∃ n : Z, key x = n * ONE ∧ class_min cls <= n <= class_max ∧ num_le lo x = true ∧ num_le x hi = true.
Proof.
  intros W G. unfold checkBoundary. destruct (match av_spelling v with Some s => _ | None => _ end); [done|].
  destruct (isBottom v) eqn:B; [by destruct (bottom_empty v x B)|]. destruct (av_nan v) eqn:N; [done|].
  destruct (negb (num_le _ (av_lo v) && _)) eqn:R; [done|]. destruct (av_whole v) eqn:Hw; [|done]. intros [= <- <-].
  apply negb_false_iff, andb_true_iff in R as [R1%num_le_iff R2%num_le_iff].
  assert (Nx : is_nan x = false) by (destruct (is_nan x) eqn:Nx; [by rewrite (gamma_is_nan v x G Nx) in N|done]).
  destruct (gamma_whole v x W G Nx Hw) as (Ix & _). destruct (gamma_num v x G Nx) as (_ & Nl & Nh & K).
  destruct (integer_key_mult x Ix) as [n En]. exists n. split; [done|].
  assert (Kmin : class_min cls * ONE <= n * ONE <= class_max * ONE).
  { rewrite <- key_class_min, <- En. destruct R1 as (_ & _ & R1), R2 as (_ & _ & R2). unfold SAFE_MAX in R2. rewrite key_fin in R2.
    unfold class_max. lia. }
  pose proof ONE_pos. split_and!; try (apply num_le_iff; split_and!; done || lia).
  - apply (Z.mul_le_mono_pos_r _ _ ONE); lia.
  - apply (Z.mul_le_mono_pos_r _ _ ONE); lia.
Qed.

Example checkBoundary_sound_witness :
  ∃ n : Z, key (fin 6) = n * ONE ∧ 0 <= n <= 2 ^ 53 - 1 ∧ num_le (fin 0) (fin 6) = true ∧ num_le (fin 6) (fin 9) = true.
Proof.
  apply (checkBoundary_sound (λ _, NaN) (λ _, EmptyString) (int_interval 0 9) U64 (fin 0) (fin 9) (fin 6)).
  - apply int_interval_wf; lia.
  - apply int_interval_gamma; lia.
  - by vm_compute.
Defined.

(** The verdict by cases, in the order the code tests them: a literal
    that does not survive its f64 round trip is refused first, an empty value
    set is vacuously proved, then NaN, range and wholeness are refused, and
    what remains is proved with the value's own bounds. *)
Theorem checkBoundary_cases Number_ String_ v cls :
  let spelled := match av_spelling v with Some s => bool_decide (String_ (Number_ s) = s) | None => true end in
  let inRange := num_le (match cls with U64 => Fin 0 | I64 => SAFE_MIN end) (av_lo v) && num_le (av_hi v) SAFE_MAX in
  match checkBoundary Number_ String_ v cls with
  | Refuse Representability => spelled = false
  | Refuse Wholeness => spelled = true ∧ isBottom v = false ∧ (av_nan v = true ∨ inRange = true ∧ av_whole v = false)
  | Refuse Range => spelled = true ∧ isBottom v = false ∧ av_nan v = false ∧ inRange = false
  | Prove lo hi => spelled = true ∧
      (isBottom v = true ∧ lo = NaN ∧ hi = NaN ∨
       isBottom v = false ∧ av_nan v = false ∧ inRange = true ∧ av_whole v = true ∧ lo = av_lo v ∧ hi = av_hi v)
  end.
Proof.
  unfold checkBoundary, spellingRoundTrips. destruct (av_spelling v) as [s|]; [destruct (bool_decide _)|]; simpl; try done.
  all: destruct (isBottom v); [auto|]; destruct (av_nan v); [auto|].
  all: destruct (num_le _ (av_lo v) && _); simpl; [|auto]; destruct (av_whole v); simpl; auto 10.
Qed.

(** ** Where the side conditions bite *)

(** An interval with an infinite end divided by another gives NaN corner
    quotients, so NaN bounds without the [maybeNaN] flag; rounding that value
    collapses it to the empty set, and the boundary check proves it vacuously.
    The dividend [2^53] and divisor [1] are described by the operands, and
    their rounded quotient is outside the i64 slot's range. *)
Theorem div_of_infinities_proves Number_ String_ :
  let a := absVal (fin 0) PInf false false None in
  let b := absVal (fin 1) PInf false false None in
  let q := transferMathRound RTrunc (transferDiv a b) in
  checkBoundary Number_ String_ q I64 = Prove NaN NaN ∧
  gamma a (fin (2 ^ 53)) ∧ gamma b (fin 1) ∧
  num_lt SAFE_MAX (math_trunc (num_div (fin (2 ^ 53)) (fin 1))) = true.
Proof.
  split_and!; [reflexivity| | |by vm_compute].
  - pose proof ONE_pos. pose proof (key_range (fin (2 ^ 53)) (wf_fin (2 ^ 53) ltac:(lia))).
    apply gamma_absVal; try discriminate; try reflexivity; [apply wf_fin; lia|]. rewrite !key_fin in *. split; [lia|]. change (key PInf) with MAXK. lia.
  - pose proof (key_range (fin 1) (wf_fin 1 ltac:(lia))).
    apply gamma_absVal; try discriminate; try reflexivity; [apply wf_fin; lia|]. rewrite !key_fin in *. split; [lia|]. change (key PInf) with MAXK. lia.
Qed.

(** Zeros are normalized in the domain, so a [-0] divisor is described by
    the singleton [0]: [1 / x] is predicted to be [+Infinity] while JavaScript
    gives [-Infinity], and [Math.trunc(Math.min(1 / x, 5))] is proved to be 5. *)
Theorem negative_zero_divisor Number_ String_ :
  let b := constVal NZero None in
  let q := transferMathRound RTrunc (transferMinMax FMin [transferDiv (int_interval 1 1) b; int_interval 5 5]) in
  gamma b NZero ∧ checkBoundary Number_ String_ q I64 = Prove (fin 5) (fin 5) ∧
  math_trunc (js_minmax FMin [num_div (fin 1) NZero; fin 5]) = NInf.
Proof. split_and!; [by split|reflexivity|reflexivity]. Qed.

(** NaN survives the edge on which [x < 5] failed, but [refine] tests the
    negated operator [>=] and clears the flag there: the refined value no
    longer describes a NaN that did take the edge. *)
Theorem failed_edge_drops_nan :
  let a := TOP in let b := int_interval 5 5 in
  gamma a NaN ∧ gamma b (fin 5) ∧ CMP OpLt NaN (fin 5) = false ∧ ¬ gamma (refine_bin OpLt false a b).1 NaN.
Proof.
  split_and!; [by apply gamma_TOP|apply int_interval_gamma; lia|reflexivity|].
  intros [_ H]. simpl in H. by vm_compute in H.
Qed.
