(* ===== verification/IntIR.v ===== *)
(** * Integer-boundary inference: the IR it reads

    The part of src/packages/compiler/src/ir/nodes.ts that
    src/packages/compiler/src/library/int-infer.ts distinguishes: the
    expression and statement forms it treats one by one, and every other
    expression as a node with its children in evaluation order. *)

From Stdlib Require Import Ascii.
From S2P Require Import Prelude F64 IntDomain.

#[local] Open Scope string_scope.

(** A type by its kind and its JSON text, which is all the analysis looks at. *)
Record IrType := mkType { ty_kind : string; ty_json : string }.
Record SrcLoc := mkLoc { loc_file : string; loc_start : Z; loc_end : Z }.

Definition is_f64 (t : IrType) : bool := String.eqb (ty_kind t) "f64".

Definition typeContainsFunc (t : IrType) : bool :=
  match String.index 0 (quoted "func") (ty_json t) with Some _ => true | None => false end.

Inductive atom := StrLit | UnitLit | RegexLit | TemplateStrings | ClassRef | SelfRef | ChainRecv.
Inductive unop := OpNeg | OpNot | OpBitNot.
Inductive orkind := Nullish | OrDefault.
(** The expression kinds without a form of their own. *)
Inductive xkind :=
  | CallValue | NewValue | DynCall | DynInvoke | VirtualCall | New | Intrinsic
  | FfiCall | YieldExpr | AwaitExpr | AwaitUnionExpr
  | OtherKind (kind : string).

Inductive expr := Ex (k : ekind) (ty : IrType) (loc : SrcLoc)
with ekind :=
  | numLit (value : num) (spelling : option string)
  | boolLit (value : bool)
  | lit (a : atom)
  | varRef (localId : string)
  | bin (op : IrNumBinOp) (lft rgt : expr)
  | unary (op : unop) (operand : expr)
  | incDec (plus prefix : bool) (localId : string)
  | assignExpr (localId : string) (value : expr)
  | toBool (operand : expr)
  | logical (isAnd : bool) (lft rgt : expr)
  | orElse (k : orkind) (lft rgt : expr)
  | ternary (cond then_ else_ : expr)
  | optChain (receiver body : expr)
  | seqExpr (stmts : list stmt) (result : expr)
  | call (callee : string) (args : list expr)
  | libCall (f : string) (args : list expr)
  | recordLit (shapeId : string) (fields : list (string * expr))
  | recordGet (obj : expr) (shapeId field : string)
  | fieldGet (obj : expr) (className field : string)
  | node (k : xkind) (children : list child)
(** A child expression, or the expressions of an entry such as [{ name, value }]. *)
with child := Direct (e : expr) | Entry (es : list expr)
with stmt := St (k : skind) (loc : SrcLoc)
with skind :=
  | varDecl (localId : string) (init : option expr)
  | assign (localId : string) (value : expr)
  | exprStmt (e : expr)
  | if_ (cond : expr) (then_ : list stmt) (else_ : option (list stmt))
  | while_ (cond : expr) (body : list stmt) (labels : list string)
  | doWhile (body : list stmt) (cond : expr) (labels : list string)
  | switch (disc : expr) (cases : list (option expr * list stmt)) (labels : list string)
  | for_ (init : option stmt) (cond : option expr) (update : option stmt) (body : list stmt) (labels : list string)
  | arraySet (arr index value : expr)
  | bytesSet (arr index value : expr)
  | forOf (localId : string) (iterable : expr) (body : list stmt) (labels : list string)
  | return_ (value : option expr)
  | fieldSet (obj value : expr)
  | recordSet (obj : expr) (shapeId field : string) (value : expr)
  | recordKeySet (obj key value : expr)
  | recordKeyDelete (obj key : expr)
  | break_ (label : option string)
  | continue_ (label : option string)
  | block (body : list stmt) (labels : list string)
  | throw (value : expr)
  | runtimeFence
  | rethrow
  | tryCatch (tryBody : list stmt) (catchBody finallyBody : option (list stmt)).

(** The source's names. *)
Definition IrExpr : Type := expr.
Definition IrStmt : Type := stmt.

Definition e_ty (e : expr) : IrType := match e with Ex _ ty _ => ty end.
Definition e_loc (e : expr) : SrcLoc := match e with Ex _ _ loc => loc end.

Record IrParam := mkParam { p_localId : string; p_type : IrType }.
Record IrLocal := mkLocal { l_id : string; l_type : IrType; l_boxed : bool }.
Record IrGlobal := mkGlobal { g_id : string; g_type : IrType }.
Record IrFunction := mkFn { fn_name : string; fn_params : list IrParam; fn_locals : list IrLocal; fn_body : list stmt }.
Record IrModule := mkModule { mod_functions : list IrFunction; mod_globals : list IrGlobal }.

(** Module globals are ["%g.<qualifier>.<name>"]. *)
Definition isGlobalId (id : string) : bool := String.prefix "%g." id.
