(* ===== verification/IntEffects.v ===== *)
(** * Integer-boundary inference: which globals a call may write

    [globalEffectsOf] of src/packages/compiler/src/library/int-infer.ts: one
    walk over every function body, then a closure over the direct-call graph.
    The closure ends and is exact: a function's set is what the functions it
    can reach by direct calls write, and a function is unknown when it can
    reach one that makes an indirect call. *)

From S2P Require Import Prelude F64 IntDomain IntIR.

#[local] Open Scope string_scope.

(** ** Which globals a call may write *)

(** What [globalEffectsOf] collects of a body: written globals, direct callees
    in order of first occurrence, and whether anything else may be called. *)
Record found := mkFound { writes : gset string; callees : list string; unknown : bool }.

Definition add_write (id : string) (a : found) : found :=
  if isGlobalId id then mkFound ({[id]} ∪ writes a) (callees a) (unknown a) else a.
Definition add_call (f : string) (a : found) : found :=
  if bool_decide (f ∈ callees a) then a else mkFound (writes a) (callees a ++ [f]) (unknown a).
Definition set_unknown (a : found) : found := mkFound (writes a) (callees a) true.

Definition may_call (k : xkind) : bool :=
  match k with CallValue | NewValue | DynCall | DynInvoke | VirtualCall | New | Intrinsic => true | _ => false end.

Section visit.
Context (visitExpr : expr → found → found) (visitStmt : stmt → found → found).
Fixpoint visitExprs (es : list expr) (a : found) : found :=
  match es with [] => a | e :: es => visitExprs es (visitExpr e a) end.
Fixpoint visitStmts (ss : list stmt) (a : found) : found :=
  match ss with [] => a | s :: ss => visitStmts ss (visitStmt s a) end.
Definition visitOpt (e : option expr) (a : found) : found := match e with Some e => visitExpr e a | None => a end.
Definition visitOptStmt (s : option stmt) (a : found) : found := match s with Some s => visitStmt s a | None => a end.
Definition visitOptStmts (ss : option (list stmt)) (a : found) : found := match ss with Some ss => visitStmts ss a | None => a end.
End visit.

Fixpoint visitExpr (e : expr) (a : found) : found :=
  match e with Ex k _ _ =>
    match k with
    | assignExpr id value => visitExpr value (add_write id a)
    | incDec _ _ id => add_write id a
    | call callee args => visitExprs visitExpr args (add_call callee a)
    | libCall _ args => visitExprs visitExpr args (if existsb (λ e, typeContainsFunc (e_ty e)) args then set_unknown a else a)
    | seqExpr stmts result => visitExpr result (visitStmts visitStmt stmts a)
    | numLit _ _ | boolLit _ | lit _ | varRef _ => a
    | bin _ l r | logical _ l r | orElse _ l r => visitExpr r (visitExpr l a)
    | unary _ e | toBool e | recordGet e _ _ | fieldGet e _ _ => visitExpr e a
    | ternary c t e => visitExpr e (visitExpr t (visitExpr c a))
    | optChain r b => visitExpr b (visitExpr r a)
    | recordLit _ fields => (fix go fs a := match fs with [] => a | (_, e) :: fs => go fs (visitExpr e a) end) fields a
    | node k children =>
        (fix go cs a := match cs with
                        | [] => a
                        | Direct e :: cs => go cs (visitExpr e a)
                        | Entry es :: cs => go cs (visitExprs visitExpr es a)
                        end) children (if may_call k then set_unknown a else a)
    end
  end
with visitStmt (s : stmt) (a : found) : found :=
  match s with St k _ =>
    match k with
    | assign id value => visitExpr value (add_write id a)
    | varDecl _ init => visitOpt visitExpr init a
    | exprStmt e | throw e => visitExpr e a
    | if_ c t e => visitOptStmts visitStmt e (visitStmts visitStmt t (visitExpr c a))
    | while_ c b _ => visitStmts visitStmt b (visitExpr c a)
    | doWhile b c _ => visitExpr c (visitStmts visitStmt b a)
    | switch d cases _ =>
        (fix go cs a := match cs with
                        | [] => a
                        | (test, body) :: cs => go cs (visitStmts visitStmt body (visitOpt visitExpr test a))
                        end) cases (visitExpr d a)
    | for_ init c u b _ =>
        visitStmts visitStmt b (visitOptStmt visitStmt u (visitOpt visitExpr c (visitOptStmt visitStmt init a)))
    | arraySet x y z | bytesSet x y z | recordKeySet x y z => visitExpr z (visitExpr y (visitExpr x a))
    | forOf _ it b _ => visitStmts visitStmt b (visitExpr it a)
    | return_ v => visitOpt visitExpr v a
    | fieldSet o v | recordSet o _ _ v => visitExpr v (visitExpr o a)
    | recordKeyDelete o key => visitExpr key (visitExpr o a)
    | block b _ => visitStmts visitStmt b a
    | break_ _ | continue_ _ | runtimeFence | rethrow => a
    | tryCatch t c f => visitOptStmts visitStmt f (visitOptStmts visitStmt c (visitStmts visitStmt t a))
    end
  end.

(** ** The closure *)

Record GlobalEffects := mkEffects { perFn : gmap string (gset string); havocAll : gset string }.

(** [calls.set(name, c)]: a Map keeps the position of a key it has. *)
Fixpoint assoc_set {A} (k : string) (v : A) (l : list (string * A)) : list (string * A) :=
  match l with
  | [] => [(k, v)]
  | (k', v') :: l => if String.eqb k k' then (k, v) :: l else (k', v') :: assoc_set k v l
  end.

(** The maps after the walks: writes, calls, unknown. *)
Record walk := mkWalk { w_writes : gmap string (gset string); w_calls : list (string * list string); w_unknown : gset string }.

Definition walk_fn (w : walk) (fn : IrFunction) : walk :=
  let a := visitStmts visitStmt (fn_body fn) (mkFound ∅ [] false) in
  mkWalk (<[fn_name fn := writes a]> (w_writes w)) (assoc_set (fn_name fn) (callees a) (w_calls w))
    (if unknown a then {[fn_name fn]} ∪ w_unknown w else w_unknown w).

Definition walk_module (m : IrModule) : walk := foldl walk_fn (mkWalk ∅ [] ∅) (mod_functions m).

(** The state of the closure: the writes, the unknown functions, [changed]. *)
Definition clos : Type := gmap string (gset string) * gset string * bool.

Definition close_callee (name : string) (a : clos) (callee : string) : clos :=
  let '(wr, unk, changed) := a in
  let '(unk, changed) := if bool_decide (callee ∈ unk) && bool_decide (name ∉ unk) then ({[name]} ∪ unk, true) else (unk, changed) in
  let w := default ∅ (wr !! name) in
  let cw := default ∅ (wr !! callee) in
  if bool_decide (cw ⊆ w) then (wr, unk, changed) else (<[name := w ∪ cw]> wr, unk, true).

Definition close_fn (a : clos) (entry : string * list string) : clos := foldl (close_callee entry.1) a entry.2.

Definition close_pass (calls : list (string * list string)) (a : clos) : clos := foldl close_fn a calls.

Fixpoint close_loop (fuel : nat) (calls : list (string * list string)) (wr : gmap string (gset string)) (unk : gset string) : option GlobalEffects :=
  match fuel with
  | O => None
  | S fuel =>
      let '(wr, unk, changed) := close_pass calls (wr, unk, false) in
      if changed : bool then close_loop fuel calls wr unk else Some (mkEffects wr unk)
  end.

(** Every pass but the last adds a function to the unknown ones, or a global
    to a function's set. *)
Definition close_fuel (w : walk) : nat :=
  let globals := map_fold (λ _ g acc, g ∪ acc) ∅ (w_writes w) in
  2 + length (w_calls w) * (1 + size (globals : gset string)).

Definition globalEffectsOf (m : IrModule) : option GlobalEffects :=
  let w := walk_module m in close_loop (close_fuel w) (w_calls w) (w_writes w) (w_unknown w).

(** ** The closure is exact *)

Definition wget (wr : gmap string (gset string)) (f : string) : gset string := default ∅ (wr !! f).

(** A direct call, and reachability by direct calls. *)
Definition edge (calls : list (string * list string)) (f g : string) : Prop := ∃ cs, (f, cs) ∈ calls ∧ g ∈ cs.
Definition reach (calls : list (string * list string)) : string → string → Prop := rtc (edge calls).

Section closure.
Context (calls : list (string * list string)) (wr0 : gmap string (gset string)) (unk0 : gset string).

(** Nothing is lost, and nothing is added that a reachable function has not. *)
Definition between (wr : gmap string (gset string)) (unk : gset string) : Prop :=
  (∀ f, wget wr0 f ⊆ wget wr f) ∧ unk0 ⊆ unk ∧
  (∀ f id, id ∈ wget wr f → ∃ g, reach calls f g ∧ id ∈ wget wr0 g) ∧
  (∀ f, f ∈ unk → ∃ g, reach calls f g ∧ g ∈ unk0).

Definition closed_at (wr : gmap string (gset string)) (unk : gset string) (f g : string) : Prop :=
  (g ∈ unk → f ∈ unk) ∧ wget wr g ⊆ wget wr f.

(** One more function or global. *)
Definition below (a a' : clos) : Prop :=
  (∀ f, wget a.1.1 f ⊆ wget a'.1.1 f) ∧ a.1.2 ⊆ a'.1.2.
Definition grew (a a' : clos) (f : string) : Prop :=
  below a a' ∧ (wget a.1.1 f ⊂ wget a'.1.1 f ∨ (f ∉ a.1.2 ∧ f ∈ a'.1.2)).

Lemma wget_insert wr f w g : wget (<[f := w]> wr) g = if decide (f = g) then w else wget wr g.
Proof. unfold wget. destruct (decide (f = g)) as [->|]; [by rewrite lookup_insert_eq|by rewrite lookup_insert_ne]. Qed.

Lemma close_callee_cases f a g (P : clos → Prop) :
  edge calls f g → between a.1.1 a.1.2 →
  (closed_at a.1.1 a.1.2 f g → P a) →
  (∀ a', a'.2 = true → between a'.1.1 a'.1.2 → grew a a' f → P a') →
  P (close_callee f a g).
Proof.
  intros He (B1 & B2 & B3 & B4) Hsame Hgrow. destruct a as [[wr unk] ch]. cbn [fst snd] in *. unfold close_callee.
  fold (wget wr f) (wget wr g).
  set (bu := bool_decide (g ∈ unk) && bool_decide (f ∉ unk)). destruct bu eqn:Eb; subst bu.
  - apply andb_true_iff in Eb as [Hg%bool_decide_eq_true Hf%bool_decide_eq_true].
    assert (Bu : ∀ h, h ∈ ({[f]} ∪ unk) → ∃ k, reach calls h k ∧ k ∈ unk0).
    { intros h [->%elem_of_singleton|Hh]%elem_of_union; [|auto]. destruct (B4 g Hg) as (k & Hk & Hk'). exists k. split; [by eapply rtc_l|done]. }
    case_bool_decide as Hw; apply Hgrow; cbn [fst snd]; try done.
    + split_and!; [done|set_solver|done|done].
    + split; [split; [done|set_solver]|]. right. set_solver.
    + split_and!; [|set_solver| |done].
      * intros h. rewrite wget_insert. destruct (decide (f = h)) as [->|]; [|done]. specialize (B1 h). set_solver.
      * intros h id. rewrite wget_insert. destruct (decide (f = h)) as [->|]; [|auto]. intros [Hi|Hi]%elem_of_union; [auto|].
        destruct (B3 g id Hi) as (k & Hk & Hk'). exists k. split; [by eapply rtc_l|done].
    + split; [split; [|set_solver]|right; set_solver]. intros h. cbn [fst]. rewrite wget_insert. destruct (decide (f = h)) as [->|]; set_solver.
  - apply andb_false_iff in Eb. assert (Hcl : g ∈ unk → f ∈ unk).
    { intros Hg. destruct Eb as [Eb%bool_decide_eq_false|Eb%bool_decide_eq_false]; [done|]. by destruct (decide (f ∈ unk)). }
    clear Eb. case_bool_decide as Hw; [by apply Hsame|]. apply Hgrow; cbn [fst snd]; try done.
    + split_and!; [|done| |done].
      * intros h. rewrite wget_insert. destruct (decide (f = h)) as [->|]; [|done]. specialize (B1 h). set_solver.
      * intros h id. rewrite wget_insert. destruct (decide (f = h)) as [->|]; [|auto]. intros [Hi|Hi]%elem_of_union; [auto|].
        destruct (B3 g id Hi) as (k & Hk & Hk'). exists k. split; [by eapply rtc_l|done].
    + split; [split; [|done]|left; cbn [fst]; rewrite wget_insert, decide_True by done; split; set_solver].
      intros h. cbn [fst]. rewrite wget_insert. destruct (decide (f = h)) as [->|]; set_solver.
Qed.

(** A sequence of steps over the edges [es]. *)
Definition passed (es : list (string * string)) (a r : clos) : Prop :=
  between r.1.1 r.1.2 ∧ below a r ∧
  ((r = a ∧ ∀ f g, (f, g) ∈ es → closed_at a.1.1 a.1.2 f g) ∨ (r.2 = true ∧ ∃ f g, edge calls f g ∧ grew a r f)).

Lemma below_refl a : below a a.
Proof. done. Qed.
Lemma below_trans a b c : below a b → below b c → below a c.
Proof. intros [H1 H2] [H3 H4]. split; [intros f; specialize (H1 f); specialize (H3 f); set_solver|set_solver]. Qed.
Lemma grew_below_l a b c f : below a b → grew b c f → grew a c f.
Proof.
  intros [Hw Hu] [Hb Hg]. split; [by eapply below_trans|]. specialize (Hw f). destruct Hg as [Hg|[Hf Hg]]; [left; set_solver|right; set_solver].
Qed.
Lemma grew_below_r a b c f : grew a b f → below b c → grew a c f.
Proof.
  intros [Hb Hg] [Hw Hu]. split; [by eapply below_trans|]. specialize (Hw f). destruct Hg as [Hg|[Hf Hg]]; [left; set_solver|right; set_solver].
Qed.

Lemma passed_nil a : between a.1.1 a.1.2 → passed [] a a.
Proof. intros. split; [done|]. split; [apply below_refl|]. left. split; [done|]. by intros f g ?%elem_of_nil. Qed.

Lemma passed_app es1 es2 a b c : passed es1 a b → passed es2 b c → passed (es1 ++ es2) a c.
Proof.
  intros (B1 & L1 & H1) (B2 & L2 & H2). split; [done|]. split; [by eapply below_trans|].
  destruct H1 as [[-> H1]|[F1 (f & g & He & G1)]].
  - destruct H2 as [[-> H2]|H2]; [|by right]. left. split; [done|]. intros f g [?|?]%elem_of_app; auto.
  - right. destruct H2 as [[-> H2]|[F2 _]]; (split; [done|]; exists f, g; split; [done|by eapply grew_below_r]).
Qed.

Lemma close_callee_passed f g a : edge calls f g → between a.1.1 a.1.2 → passed [(f, g)] a (close_callee f a g).
Proof.
  intros He Hb. apply close_callee_cases; [done|done| |].
  - intros Hc. split; [done|]. split; [apply below_refl|]. left. split; [done|]. intros f' g' [= -> ->]%list_elem_of_singleton. done.
  - intros a' F B G. split; [done|]. split; [apply G|]. right. split; [done|]. by exists f, g.
Qed.

Definition edges_of (entry : string * list string) : list (string * string) := map (pair entry.1) entry.2.

Lemma close_fn_passed entry a : (∀ g, g ∈ entry.2 → edge calls entry.1 g) → between a.1.1 a.1.2 → passed (edges_of entry) a (close_fn a entry).
Proof.
  destruct entry as [f cs]. unfold close_fn, edges_of. cbn [fst snd]. revert a. induction cs as [|g cs IH]; intros a He Hb; [by apply passed_nil|].
  simpl. assert (Hp : passed [(f, g)] a (close_callee f a g)) by (apply close_callee_passed; [apply He; left|done]).
  apply (passed_app [(f, g)] _ _ (close_callee f a g)); [done|]. apply IH; [intros; apply He; by right|apply Hp].
Qed.

Lemma close_pass_passed cs a : (∀ f l, (f, l) ∈ cs → (f, l) ∈ calls) → between a.1.1 a.1.2 →
  passed (flat_map edges_of cs) a (close_pass cs a).
Proof.
  unfold close_pass. revert a. induction cs as [|[f l] cs IH]; intros a Hc Hb; [by apply passed_nil|].
  simpl. assert (Hp : passed (edges_of (f, l)) a (close_fn a (f, l))).
  { apply close_fn_passed; [|done]. intros g Hg. exists l. split; [apply Hc; left|done]. }
  eapply passed_app; [exact Hp|]. apply IH; [intros; apply Hc; by right|apply Hp].
Qed.

(** ** The measure *)

Definition score (a : clos) (f : string) : nat := size (wget a.1.1 f) + (if bool_decide (f ∈ a.1.2) then 1 else 0).
Definition total (a : clos) : nat := foldr (λ e n, score a e.1 + n)%nat 0%nat calls.

Lemma score_below a b f : below a b → (score a f <= score b f)%nat.
Proof.
  intros [Hw Hu]. unfold score. pose proof (subseteq_size _ _ (Hw f)). repeat case_bool_decide; try lia. set_solver.
Qed.

Lemma score_grew a b f : grew a b f → (score a f < score b f)%nat.
Proof.
  intros [[Hw Hu] Hg]. unfold score. pose proof (subseteq_size _ _ (Hw f)). destruct Hg as [Hs|[H1 H2]].
  - pose proof (subset_size _ _ Hs). repeat case_bool_decide; try lia. set_solver.
  - rewrite (bool_decide_false (f ∈ a.1.2)), (bool_decide_true (f ∈ b.1.2)) by done. lia.
Qed.

Lemma total_grew a b f g : edge calls f g → grew a b f → (total a < total b)%nat.
Proof.
  intros (cs & Hf & _) Hg. unfold total. revert Hf. generalize calls. intros l. induction l as [|[h cs'] l IH]; [by intros ?%elem_of_nil|].
  simpl. intros [E|Hf]%elem_of_cons.
  - injection E as <- <-. pose proof (score_grew _ _ _ Hg). assert (foldr (λ e n, score a e.1 + n) 0 l <= foldr (λ e n, score b e.1 + n) 0 l)%nat; [|lia].
    clear IH. destruct Hg as [Hb _]. induction l as [|[k ?] l IH]; simpl; [lia|]. pose proof (score_below _ _ k Hb). lia.
  - specialize (IH Hf). pose proof (score_below _ _ h (proj1 Hg)). lia.
Qed.

Lemma total_bound a (G : gset string) : (∀ f, wget wr0 f ⊆ G) → between a.1.1 a.1.2 → (total a <= length calls * (1 + size G))%nat.
Proof.
  intros HG (_ & _ & B3 & _). unfold total. generalize calls. intros l. induction l as [|[f cs] l IH]; simpl; [lia|].
  assert (Hs : (score a f <= 1 + size G)%nat); [|lia]. unfold score.
  assert (wget a.1.1 f ⊆ G) as Hsub%subseteq_size.
  { intros id Hid. destruct (B3 f id Hid) as (g & _ & Hg). by apply (HG g). }
  case_bool_decide; lia.
Qed.

(** The loop reaches a state that every edge leaves unchanged. *)
Lemma close_loop_spec fuel wr unk (G : gset string) : (∀ f, wget wr0 f ⊆ G) → between wr unk →
  (length calls * (1 + size G) < total (wr, unk, false) + fuel)%nat →
  ∃ eff, close_loop fuel calls wr unk = Some eff ∧ between (perFn eff) (havocAll eff) ∧
    ∀ f g, edge calls f g → closed_at (perFn eff) (havocAll eff) f g.
Proof.
  intros HG. revert wr unk. induction fuel as [|fuel IH]; intros wr unk Hb Hf.
  { pose proof (total_bound (wr, unk, false) G HG Hb). lia. }
  cbn [close_loop]. assert (Hp : passed (flat_map edges_of calls) (wr, unk, false) (close_pass calls (wr, unk, false))) by (by apply close_pass_passed).
  destruct (close_pass calls (wr, unk, false)) as [[wr' unk'] ch] eqn:E. destruct Hp as (B' & _ & [[Er Hc]|[Hch (f & g & He & Hg)]]).
  - injection Er as -> -> ->. exists (mkEffects wr unk). split_and!; [done|done|]. intros f g (cs & Hf' & Hg). apply Hc.
    apply list_elem_of_In, in_flat_map. exists (f, cs). split; [by apply list_elem_of_In|]. apply in_map_iff. exists g. split; [done|by apply list_elem_of_In].
  - cbn [snd] in Hch. subst ch. apply IH; [done|]. pose proof (total_grew _ _ _ _ He Hg).
    assert (total (wr', unk', true) = total (wr', unk', false)) by done. lia.
Qed.

Lemma closure_exact fuel (G : gset string) : (∀ f, wget wr0 f ⊆ G) → (length calls * (1 + size G) < fuel)%nat →
  ∃ eff, close_loop fuel calls wr0 unk0 = Some eff ∧
    (∀ f, f ∈ havocAll eff ↔ ∃ g, reach calls f g ∧ g ∈ unk0) ∧
    (∀ f id, id ∈ wget (perFn eff) f ↔ ∃ g, reach calls f g ∧ id ∈ wget wr0 g).
Proof.
  intros HG Hf. assert (B0 : between wr0 unk0).
  { split_and!; [done|done| |]; intros f; [intros id Hid|intros Hu]; exists f; (split; [apply rtc_refl|done]). }
  destruct (close_loop_spec fuel wr0 unk0 G HG B0) as (eff & E & (B1 & B2 & B3 & B4) & Hc); [lia|].
  exists eff. split_and!; [done| |].
  - intros f. split; [apply B4|]. intros (g & Hr & Hg). induction Hr as [f|f h g He _ IH]; [auto|]. apply (Hc f h He). auto.
  - intros f id. split; [apply B3|]. intros (g & Hr & Hg). induction Hr as [f|f h g He _ IH]; [by apply B1|]. apply (Hc f h He). auto.
Qed.
End closure.

Lemma globals_cover (wr : gmap string (gset string)) f : wget wr f ⊆ map_fold (λ _ g acc, g ∪ acc) ∅ wr.
Proof.
  unfold wget. revert f. apply (map_fold_weak_ind (λ r wr, ∀ f, default ∅ (wr !! f) ⊆ r)).
  - intros f. by rewrite lookup_empty.
  - intros k g wr' r Hk IH f. destruct (decide (k = f)) as [->|].
    + rewrite lookup_insert_eq. simpl. set_solver.
    + rewrite lookup_insert_ne by done. specialize (IH f). set_solver.
Qed.

(** The closure of [globalEffectsOf] ends and is exact, on recursive and
    mutually recursive functions too: a function's set is exactly what the
    functions it reaches by direct calls write, and it is unknown exactly when
    it reaches one that makes an indirect call. *)
Theorem globalEffectsOf_exact (m : IrModule) :
  ∃ eff, globalEffectsOf m = Some eff ∧
    (∀ f, f ∈ havocAll eff ↔ ∃ g, reach (w_calls (walk_module m)) f g ∧ g ∈ w_unknown (walk_module m)) ∧
    (∀ f id, id ∈ wget (perFn eff) f ↔ ∃ g, reach (w_calls (walk_module m)) f g ∧ id ∈ wget (w_writes (walk_module m)) g).
Proof. apply (closure_exact _ _ _ _ (map_fold (λ _ g acc, g ∪ acc) ∅ (w_writes (walk_module m)))); [apply globals_cover|unfold close_fuel; lia]. Qed.
