(* ===== verification/IntEnv.v ===== *)
(** * Integer-boundary inference: environments

    The abstract state per program point of
    src/packages/compiler/src/library/int-infer.ts: a map from bindings and
    static access paths to abstract values, each missing key having a default
    of its own kind, with joins, widening and the facts that heap writes kill. *)

From Stdlib Require Import Ascii.
From S2P Require Import Prelude F64 IntDomain IntIR.

#[local] Open Scope string_scope.

Definition Env : Type := gmap string AbsVal.

Definition PATH_I64_PREFIX : string := "%path.i64:".
Definition PATH_U64_PREFIX : string := "%path.u64:".

Definition pathClassOfKey (id : string) : option IntClass :=
  if String.prefix PATH_I64_PREFIX id then Some I64
  else if String.prefix PATH_U64_PREFIX id then Some U64
  else None.
Definition is_path (id : string) : bool := match pathClassOfKey id with Some _ => true | None => false end.

Definition cls_name (c : IntClass) : string := match c with I64 => "i64" | U64 => "u64" end.

(** Keys deleted from an environment. *)
Definition delete_keys (p : string → bool) (env : Env) : Env := filter (λ kv, p kv.1 = false) env.

Definition clearPathFacts (env : Env) : Env := delete_keys is_path env.

Definition defaultVal (id : string) : AbsVal :=
  match pathClassOfKey id with
  | Some c => classSeed (cls_name c)
  | None => if isGlobalId id then TOP else BOTTOM
  end.

Definition envGet (env : Env) (id : string) : AbsVal := default (defaultVal id) (env !! id).

(** A pointwise combination over the keys of either map. *)
Definition combine (f : AbsVal → AbsVal → AbsVal) (a b : Env) : Env :=
  map_imap (λ k _, Some (f (envGet a k) (envGet b k))) (a ∪ b).

(** [null] is unreachable. *)
Definition joinEnv (a b : option Env) : option Env :=
  match a, b with
  | None, _ => b
  | _, None => a
  | Some a, Some b => Some (clearPathFacts (combine join a b))
  end.

Definition envEquals (a b : Env) : bool :=
  bool_decide (map_Forall (λ k _, sameVal (envGet a k) (envGet b k) = true) (a ∪ b)).

Definition widenEnv (prev next : Env) : Env := clearPathFacts (combine widen prev next).

Definition havocAllGlobals (env : Env) : Env := delete_keys isGlobalId (clearPathFacts env).

(** [for (const k of [...head.keys()]) head.set(k, { ...TOP })] *)
Definition all_top (env : Env) : Env := (λ _, TOP) <$> env.

(** ** Static access paths *)

(** [JSON.stringify] of a list of lists of strings. *)
Definition json_list (items : list string) : string := "[" +:+ String.concat "," items +:+ "]".
Definition json_steps (steps : list (list string)) : string :=
  json_list (map (λ step, json_list (map json_string step)) steps).

(** The root binding of a path, and its steps. *)
Fixpoint staticAccessPath (e : expr) : option (option string * list (list string)) :=
  match e with Ex k _ _ =>
    match k with
    | varRef id => Some (Some id, [["var"; id]])
    | lit SelfRef => Some (None, [["self"]])
    | recordGet obj shapeId field =>
        match staticAccessPath obj with
        | Some (root, steps) => Some (root, (steps ++ [["record"; shapeId; field]])%list)
        | None => None
        end
    | fieldGet obj className field =>
        match staticAccessPath obj with
        | Some (root, steps) => Some (root, (steps ++ [["field"; className; field]])%list)
        | None => None
        end
    | _ => None
    end
  end.

Definition has_path (e : expr) : bool := match staticAccessPath e with Some _ => true | None => false end.

(** No side effects anywhere in the tree. *)
Fixpoint isPure (e : expr) : bool :=
  match e with Ex k _ _ =>
    match k with
    | libCall f args => String.prefix "math." f && (fix go es := match es with [] => true | e :: es => isPure e && go es end) args
    | numLit _ _ | boolLit _ | varRef _ | lit StrLit | lit UnitLit | lit SelfRef => true
    | recordGet _ _ _ | fieldGet _ _ _ => has_path e
    | bin _ l r | logical _ l r => isPure l && isPure r
    | unary _ e | toBool e => isPure e
    | _ => false
    end
  end.

(** Guards under which a fact about a path may be kept. *)
Fixpoint stablePathGuard (e : expr) : bool :=
  match e with Ex k _ _ =>
    match k with
    | numLit _ _ | boolLit _ | varRef _ | lit StrLit | lit UnitLit | lit SelfRef => true
    | recordGet _ _ _ | fieldGet _ _ _ => has_path e
    | bin _ l r | logical _ l r => stablePathGuard l && stablePathGuard r
    | unary _ e | toBool e => stablePathGuard e
    | _ => false
    end
  end.
