(* ===== verification/IntAnalyzer.v ===== *)
(** * Integer-boundary inference: the analyzer

    [FnAnalyzer] of src/packages/compiler/src/library/int-infer.ts: abstract
    execution of a function body over the environments of IntEnv, with
    branch refinement, loop headers found by iteration and widening, labelled
    jumps, exception edges, and one verdict per obligation site. *)

From S2P Require Import Prelude F64 IntDomain IntIR IntEffects IntEnv.

#[local] Open Scope string_scope.

Definition WIDEN_AFTER : nat := 3.
Definition LOOP_CAP : nat := 64.

Inductive frame_kind := FLoop | FSwitch | FBlock.
(** [breaks] and [continues] are the states of the jumps met so far. *)
Record LoopFrame := mkFrame { f_kind : frame_kind; f_labels : list string; f_breaks : list Env; f_continues : list Env }.

Record IntVerdict := mkVerdict { v_path : option string; v_cls : IntClass; v_loc : SrcLoc; v_outcome : outcome }.

(** [fns] and [records] of the slot configuration. *)
Record FnIntSlots := mkSlots {
  s_params : list (option IntClass);
  s_paramPaths : list (option string);
  s_ret : option IntClass;
  s_retPath : option string;
  s_paramSeeds : list (option AbsVal)
}.
Record IntSlotConfig := mkCfg {
  c_fns : gmap string FnIntSlots;
  c_records : gmap string (gmap string (IntClass * string))
}.

Definition hasIntSlots (cfg : IntSlotConfig) : bool :=
  negb (bool_decide (c_records cfg = ∅)) ||
  existsb (λ kv : string * FnIntSlots, bool_decide (is_Some (s_ret kv.2)) || existsb (λ p, bool_decide (is_Some p)) (s_params kv.2))
    (map_to_list (c_fns cfg)).

(** The analyzer's mutable fields; the innermost frame comes first. *)
Record st := mkSt { frames : list LoopFrame; collect : bool; verdicts : list IntVerdict; pathRoots : gmap string (option string) }.

Definition set_frames (fs : list LoopFrame) (s : st) : st := mkSt fs (collect s) (verdicts s) (pathRoots s).
Definition set_collect (c : bool) (s : st) : st := mkSt (frames s) c (verdicts s) (pathRoots s).

(** What executing a statement leaves: the environment object it was given,
    and the state after it, which is that object, another one or unreachable. *)
Inductive out := Kept | Fresh (env : Env) | Stop.
Definition out_env (env : Env) (o : out) : option Env := match o with Kept => Some env | Fresh e => Some e | Stop => None end.
Definition out_of (o : option Env) : out := match o with Some e => Fresh e | None => Stop end.

Section analyzer.
Context (num_pow : num → num → num) (Number_ : string → num) (String_ : num → string).
Context (cfg : IntSlotConfig) (effects : GlobalEffects) (f64Bindings : gset string).
Context (retSlot : option (IntClass * option string)).

Definition bindingIsF64 (id : string) : bool := bool_decide (id ∈ f64Bindings).

Definition emit (v : AbsVal) (path : option string) (cls : IntClass) (loc : SrcLoc) (s : st) : st :=
  if collect s then mkSt (frames s) true (verdicts s ++ [mkVerdict path cls loc (checkBoundary Number_ String_ v cls)]) (pathRoots s) else s.

Definition record_slot (shapeId field : string) : option (IntClass * string) :=
  match c_records cfg !! shapeId with Some m => m !! field | None => None end.

(** ** Paths *)

(** The key of a path, recorded with its root. *)
Definition pathKey (e : expr) (cls : IntClass) (s : st) : option string * st :=
  match staticAccessPath e with
  | None => (None, s)
  | Some (root, steps) =>
      let key := (match cls with I64 => PATH_I64_PREFIX | U64 => PATH_U64_PREFIX end) +:+ json_steps steps in
      (Some key, mkSt (frames s) (collect s) (verdicts s) (<[key := root]> (pathRoots s)))
  end.

Definition refinementKey (e : expr) (allowPaths : bool) (s : st) : option string * st :=
  match e with Ex k ty _ =>
    match k with
    | varRef id => (Some id, s)
    | recordGet _ shapeId field =>
        if allowPaths && is_f64 ty then
          match record_slot shapeId field with Some (cls, _) => pathKey e cls s | None => (None, s) end
        else (None, s)
    | _ => (None, s)
    end
  end.

Definition clearPathsRootedAt (env : Env) (localId : string) (s : st) : Env :=
  delete_keys (λ k, is_path k && bool_decide (pathRoots s !! k = Some (Some localId))) env.

(** [env.set(id, v)] when the binding is tracked *)
Definition setBinding (id : string) (v : AbsVal) (env : Env) : Env := if bindingIsF64 id then <[id := v]> env else env.

(** ** Pure expressions *)

Inductive math_fn := MRound (fn : round_fn) | MAbs | MMinMax (fn : minmax_fn) | MRandom.
Definition mathFn (f : string) : option math_fn :=
  if String.eqb f "math.trunc" then Some (MRound RTrunc)
  else if String.eqb f "math.floor" then Some (MRound RFloor)
  else if String.eqb f "math.ceil" then Some (MRound RCeil)
  else if String.eqb f "math.round" then Some (MRound RRound)
  else if String.eqb f "math.abs" then Some MAbs
  else if String.eqb f "math.min" then Some (MMinMax FMin)
  else if String.eqb f "math.max" then Some (MMinMax FMax)
  else if String.eqb f "math.random" then Some MRandom
  else None.
(** The arguments a function's case evaluates. *)
Definition math_arity (m : math_fn) : nat := match m with MRandom => 0 | MMinMax _ => 2 | _ => 1 end.

(** [evalMath] on the values of those arguments. *)
Definition math_result (m : math_fn) (vs : list AbsVal) : AbsVal :=
  match m, vs with
  | MRound fn, [v] => transferMathRound fn v
  | MAbs, [v] => transferAbs v
  | MMinMax fn, [v; w] => transferMinMax fn [v; w]
  | MRandom, _ => absVal (fin 0) (fin 1) false false None
  | _, _ => TOP
  end.

Section lists.
Context {T : Type} (eval : expr → T → AbsVal * T).
(** The first [n] of [es], left to right. *)
Fixpoint evalFirst (n : nat) (es : list expr) (s : T) {struct es} : list AbsVal * T :=
  match es, n with
  | e :: es, S n => let '(v, s) := eval e s in let '(vs, s) := evalFirst n es s in (v :: vs, s)
  | _, _ => ([], s)
  end.
Fixpoint evalList (es : list expr) (s : T) : list AbsVal * T :=
  match es with
  | [] => ([], s)
  | e :: es => let '(v, s) := eval e s in let '(vs, s) := evalList es s in (v :: vs, s)
  end.
End lists.

Fixpoint evalPure (env : Env) (e : expr) (s : st) : AbsVal * st :=
  match e with Ex k ty _ =>
    match k with
    | numLit value spelling => (constVal value spelling, s)
    | varRef id => (if is_f64 ty then envGet env id else TOP, s)
    | recordGet _ shapeId field =>
        match record_slot shapeId field with
        | Some (cls, _) =>
            if is_f64 ty then
              let '(key, s) := pathKey e cls s in
              (match key with Some key => envGet env key | None => classSeed (cls_name cls) end, s)
            else (TOP, s)
        | None => (TOP, s)
        end
    | unary OpNeg e => let '(v, s) := evalPure env e s in (transferNeg v, s)
    | unary OpBitNot e => let '(v, s) := evalPure env e s in (transferBitNot v, s)
    | bin op l r =>
        let '(a, s) := evalPure env l s in
        let '(b, s) := evalPure env r s in
        (transferBin num_pow op a b, s)
    | libCall f args =>
        match mathFn f with
        | Some m => let '(vs, s) := evalFirst (evalPure env) (math_arity m) args s in (math_result m vs, s)
        | None => (TOP, s)
        end
    | _ => (TOP, s)
    end
  end.

(** ** Branch refinement *)

(** The environment under [cond === branch]; [None] when the edge is impossible. *)
Fixpoint refine (cond : expr) (branch allowPaths : bool) (env : option Env) (s : st) : option Env * st :=
  match env with None => (None, s) | Some en =>
  match cond with Ex k _ _ =>
    match k with
    | boolLit value => (if Bool.eqb value branch then env else None, s)
    | unary OpNot e => refine e (negb branch) allowPaths env s
    | logical isAnd l r =>
        if Bool.eqb isAnd branch then
          let '(env1, s) := refine l branch allowPaths env s in refine r branch allowPaths env1 s
        else
          let '(viaLeft, s) := refine l branch allowPaths env s in
          let '(env1, s) := refine l (negb branch) allowPaths env s in
          let '(viaRight, s) := refine r branch allowPaths env1 s in
          (joinEnv viaLeft viaRight, s)
    | bin op l r =>
        if negb (CMP_OPS op) then (env, s)
        else if negb (is_f64 (e_ty l)) || negb (is_f64 (e_ty r)) then (env, s)
        else if negb (isPure l) || negb (isPure r) then (env, s)
        else
          let '(a, s) := evalPure en l s in
          let '(b, s) := evalPure en r s in
          let '(leftKey, s) := refinementKey l allowPaths s in
          let '(rightKey, s) := refinementKey r allowPaths s in
          let '(a', b') := refine_bin op branch a b in
          let en := match leftKey with Some k => <[k := a']> en | None => en end in
          let en := match rightKey with Some k => <[k := b']> en | None => en end in
          (Some en, s)
    | toBool inner =>
        if negb (is_f64 (e_ty inner)) || negb (isPure inner) then (env, s)
        else
          let '(key, s) := refinementKey inner allowPaths s in
          match key with
          | None => (env, s)
          | Some key => let '(v, s) := evalPure en inner s in (Some (<[key := refine_toBool v branch]> en), s)
          end
    | _ => (env, s)
    end
  end end.

(** ** What an exception may leave behind *)

(** The bindings the visitors of [havocForCatch] find.  They look at direct
    children and at arrays of nodes; of an entry without a kind they look at
    a statement list only. *)
Section assigned.
Context (assignedE : expr → gset string) (assignedS : stmt → gset string).
Fixpoint assignedEs (es : list expr) : gset string := match es with [] => ∅ | e :: es => assignedE e ∪ assignedEs es end.
Fixpoint assignedSs (ss : list stmt) : gset string := match ss with [] => ∅ | x :: ss => assignedS x ∪ assignedSs ss end.
Definition assignedO (e : option expr) : gset string := match e with Some e => assignedE e | None => ∅ end.
Definition assignedOS (x : option stmt) : gset string := match x with Some x => assignedS x | None => ∅ end.
Definition assignedOSs (ss : option (list stmt)) : gset string := match ss with Some ss => assignedSs ss | None => ∅ end.
End assigned.

Fixpoint assignedExpr (e : expr) : gset string :=
  match e with Ex k _ _ =>
    match k with
    | assignExpr id v => {[id]} ∪ assignedExpr v
    | incDec _ _ id => {[id]}
    | seqExpr ss r => assignedSs assignedStmt ss ∪ assignedExpr r
    | numLit _ _ | boolLit _ | lit _ | varRef _ => ∅
    | recordLit _ _ => ∅
    | bin _ l r | logical _ l r | orElse _ l r => assignedExpr l ∪ assignedExpr r
    | unary _ e | toBool e | recordGet e _ _ | fieldGet e _ _ => assignedExpr e
    | ternary c t e => assignedExpr c ∪ assignedExpr t ∪ assignedExpr e
    | optChain r b => assignedExpr r ∪ assignedExpr b
    | call _ args | libCall _ args => assignedEs assignedExpr args
    | node _ cs => (fix go cs := match cs with
                                 | [] => ∅
                                 | Direct e :: cs => assignedExpr e ∪ go cs
                                 | Entry _ :: cs => go cs
                                 end) cs
    end
  end
with assignedStmt (x : stmt) : gset string :=
  match x with St k _ =>
    match k with
    | assign id v => {[id]} ∪ assignedExpr v
    | varDecl id init => {[id]} ∪ assignedO assignedExpr init
    | exprStmt e | throw e => assignedExpr e
    | if_ c t e => assignedExpr c ∪ assignedSs assignedStmt t ∪ assignedOSs assignedStmt e
    | while_ c b _ | doWhile b c _ => assignedExpr c ∪ assignedSs assignedStmt b
    | switch d cases _ =>
        assignedExpr d ∪ (fix go cs := match cs with [] => ∅ | (_, body) :: cs => assignedSs assignedStmt body ∪ go cs end) cases
    | for_ init c u b _ => assignedOS assignedStmt init ∪ assignedO assignedExpr c ∪ assignedOS assignedStmt u ∪ assignedSs assignedStmt b
    | arraySet a b c | bytesSet a b c | recordKeySet a b c => assignedExpr a ∪ assignedExpr b ∪ assignedExpr c
    | forOf _ it b _ => assignedExpr it ∪ assignedSs assignedStmt b
    | return_ v => assignedO assignedExpr v
    | fieldSet o v | recordSet o _ _ v => assignedExpr o ∪ assignedExpr v
    | recordKeyDelete o k => assignedExpr o ∪ assignedExpr k
    | block b _ => assignedSs assignedStmt b
    | break_ _ | continue_ _ | runtimeFence | rethrow => ∅
    | tryCatch t c f => assignedSs assignedStmt t ∪ assignedOSs assignedStmt c ∪ assignedOSs assignedStmt f
    end
  end.

Definition havocForCatch (entry : Env) (tryBody : list stmt) : Env :=
  let assigned := assignedSs assignedStmt tryBody in
  let out := set_fold (λ id env, setBinding id TOP env) entry assigned in
  clearPathFacts (delete_keys isGlobalId out).

(** ** Jumps *)

Definition is_target (isBreak : bool) (label : option string) (f : LoopFrame) : bool :=
  let isLoop := match f_kind f with FLoop => true | _ => false end in
  match label with
  | Some l => bool_decide (l ∈ f_labels f) && (isBreak || isLoop)
  | None => isLoop || (isBreak && match f_kind f with FSwitch => true | _ => false end)
  end.

Definition add_jump (isBreak : bool) (env : Env) (f : LoopFrame) : LoopFrame :=
  if isBreak then mkFrame (f_kind f) (f_labels f) (f_breaks f ++ [env]) (f_continues f)
  else mkFrame (f_kind f) (f_labels f) (f_breaks f) (f_continues f ++ [env]).

(** The state of the jump goes to its target frame. *)
Fixpoint jump (isBreak : bool) (label : option string) (env : Env) (fs : list LoopFrame) : list LoopFrame :=
  match fs with
  | [] => []
  | f :: fs => if is_target isBreak label f then add_jump isBreak env f :: fs else f :: jump isBreak label env fs
  end.

(** [frames.push(f)], the body, [frames.pop()]: the result and the frame. *)
Definition in_frame {A} (f : LoopFrame) (body : st → A * st) (s : st) : A * LoopFrame * st :=
  let '(r, s) := body (set_frames (f :: frames s) s) in
  match frames s with
  | f :: fs => (r, f, set_frames fs s)
  | [] => (r, f, s)
  end.

Definition join_all (o : option Env) (envs : list Env) : option Env := foldl (λ o e, joinEnv o (Some e)) o envs.

(** ** Statement sequences *)

Definition flow : Type := Env * out * st.

(** What follows a statement: [k] runs on the current environment; the object
    the statement was given is no longer touched once a fresh one replaced it. *)
Definition thenRun (r : flow) (k : Env → st → flow) : flow :=
  match r with
  | (env, Kept, s) => k env s
  | (env, Stop, s) => (env, Stop, s)
  | (env, Fresh e, s) =>
      let '(e, o, s) := k e s in
      (env, match o with Kept => Fresh e | _ => o end, s)
  end.

Section stmts.
Context (execStmt : stmt → Env → st → flow).
Fixpoint execStmts (ss : list stmt) (env : Env) (s : st) : flow :=
  match ss with
  | [] => (env, Kept, s)
  | x :: ss => thenRun (execStmt x env s) (execStmts ss)
  end.
End stmts.

(** ** Loops *)

(** A loop: its condition and what its parts do. *)
Record loop_opts := mkLoop {
  o_cond : option expr;
  o_evalCond : Env → st → Env * st;
  o_body : Env → st → flow;
  o_update : option (Env → st → flow);
  o_labels : list string;
  o_doWhile : bool;
  o_seed : option string;       (* set to TOP each iteration *)
  o_alwaysExits : bool
}.

Definition loop_frame (o : loop_opts) : LoopFrame := mkFrame FLoop (o_labels o) [] [].

(** One trip from the header state: the back edge, the state at the condition
    of a do-while, and the loop's frame. *)
Definition runLoopBodyOnce (o : loop_opts) (head : Env) (s : st) : option Env * option Env * LoopFrame * st :=
  let '(bodyIn, s) :=
    match o_cond o with
    | Some c => if o_doWhile o then (Some head, s) else let '(env, s) := o_evalCond o head s in refine c true false (Some env) s
    | None => (Some head, s)
    end in
  let bodyIn := match bodyIn, o_seed o with Some env, Some id => Some (<[id := TOP]> env) | _, _ => bodyIn end in
  let '(res, f, s) := in_frame (loop_frame o) (λ s,
    match bodyIn with
    | None => (None, s)
    | Some env => let '(env, r, s) := o_body o env s in (out_env env r, s)
    end) s in
  let res := join_all res (f_continues f) in
  let '(res, s) :=
    match o_update o, res with
    | Some update, Some env => let '(env, r, s) := update env s in (out_env env r, s)
    | _, _ => (res, s)
    end in
  match o_cond o, res with
  | Some c, Some env =>
      if o_doWhile o then
        let '(env, s) := o_evalCond o env s in
        let '(back, s) := refine c true false (Some env) s in
        (back, Some env, f, s)
      else (res, None, f, s)
  | _, _ => (res, None, f, s)
  end.

(** The header by iteration; [n] trips are left of [LOOP_CAP]. *)
Fixpoint header (o : loop_opts) (n joins : nat) (head : Env) (s : st) : Env * st :=
  match n with
  | O => (head, s)
  | S n =>
      let '(back, _, _, s) := runLoopBodyOnce o head s in
      let next := default head (joinEnv (Some head) back) in
      let joins := S joins in
      let next := if (WIDEN_AFTER <? joins)%nat then widenEnv head next else next in
      if envEquals head next then (head, s)
      else if (n =? 0)%nat then (all_top next, s)
      else header o n joins next s
  end.

Definition execLoop (o : loop_opts) (env : Env) (s : st) : flow :=
  let env := clearPathFacts env in
  let savedCollect := collect s in
  let '(head, s) := header o LOOP_CAP 0 env (set_collect false s) in
  let s := set_collect savedCollect s in
  let '(_, postBody, f, s) := runLoopBodyOnce o head s in
  let '(exit, s) :=
    if o_doWhile o then
      match o_cond o, postBody with Some c, Some env => refine c false false (Some env) s | _, _ => (None, s) end
    else match o_cond o with
    | Some c => refine c false false (Some head) s
    | None => (if o_alwaysExits o then Some head else None, s)
    end in
  (env, out_of (join_all exit (f_breaks f)), s).

(** ** Calls *)

Definition havocCall (callee : string) (env : Env) : Env :=
  let env := clearPathFacts env in
  match perFn effects !! callee with
  | Some ids => if bool_decide (callee ∈ havocAll effects) then havocAllGlobals env else delete_keys (λ k, bool_decide (k ∈ ids)) env
  | None => havocAllGlobals env
  end.

(** The obligations of the arguments in declared parameters. *)
Fixpoint emitArgs (args : list expr) (vals : list AbsVal) (params : list (option IntClass)) (paths : list (option string)) (s : st) : st :=
  match args, vals with
  | arg :: args, v :: vals =>
      let s := match params with Some cls :: _ => emit v (default None (head paths)) cls (e_loc arg) s | _ => s end in
      emitArgs args vals (tail params) (tail paths) s
  | _, _ => s
  end.

(** ** Expressions and statements *)

Section lifted.
Context (evalExpr : expr → Env → st → AbsVal * Env * st).
(** For the helpers on lists, and for a value that is not used. *)
Definition evalIn (e : expr) (es : Env * st) : AbsVal * (Env * st) :=
  let '(v, env, s) := evalExpr e es.1 es.2 in (v, (env, s)).
Definition evalFor (e : expr) (env : Env) (s : st) : Env * st := let '(_, env, s) := evalExpr e env s in (env, s).
Definition evalOpt (e : option expr) (env : Env) (s : st) : Env * st :=
  match e with Some e => evalFor e env s | None => (env, s) end.
End lifted.

(** The value of an expression, its effects applied to the environment. *)
Fixpoint evalExpr (e : expr) (env : Env) (s : st) : AbsVal * Env * st :=
  match e with Ex k ty _ =>
    match k with
    | numLit value spelling => (constVal value spelling, env, s)
    | boolLit _ | lit _ => (TOP, env, s)
    | varRef id => (if is_f64 ty && bindingIsF64 id then envGet env id else TOP, env, s)
    | bin op l r =>
        let '(a, env, s) := evalExpr l env s in
        let '(b, env, s) := evalExpr r env s in
        (if CMP_OPS op then TOP
         else if negb (is_f64 (e_ty l)) || negb (is_f64 (e_ty r)) then TOP
         else transferBin num_pow op a b, env, s)
    | unary op operand =>
        let '(v, env, s) := evalExpr operand env s in
        (match op with OpNeg => transferNeg v | OpBitNot => transferBitNot v | OpNot => TOP end, env, s)
    | incDec plus prefix id =>
        let old := if bindingIsF64 id then envGet env id else TOP in
        let next := transferAdd old (constVal (fin (if plus then 1 else -1)) None) in
        (if prefix then next else old, setBinding id next env, s)
    | assignExpr id value =>
        let '(v, env, s) := evalExpr value env s in
        (v, setBinding id v (clearPathsRootedAt env id s), s)
    | ternary cond then_ else_ =>
        let '(_, env, s) := evalExpr cond env s in
        let allowPaths := stablePathGuard cond in
        let '(thenEnv, s) := refine cond true allowPaths (Some env) s in
        let '(elseEnv, s) := refine cond false allowPaths (Some env) s in
        let '(a, thenEnv, s) := match thenEnv with
          | Some t => let '(v, t, s) := evalExpr then_ t s in (v, Some t, s) | None => (BOTTOM, None, s) end in
        let '(b, elseEnv, s) := match elseEnv with
          | Some t => let '(v, t, s) := evalExpr else_ t s in (v, Some t, s) | None => (BOTTOM, None, s) end in
        (join a b, default env (joinEnv thenEnv elseEnv), s)
    | logical _ l r | orElse _ l r | optChain l r =>
        let '(_, env, s) := evalExpr l env s in
        let '(_, rightEnv, s) := evalExpr r env s in
        (TOP, default env (joinEnv (Some env) (Some rightEnv)), s)
    | seqExpr stmts result =>
        match execStmts execStmt stmts env s with
        | (env, Stop, s) => (BOTTOM, env, s)
        | (env, Kept, s) | (_, Fresh env, s) => evalExpr result env s
        end
    | call callee args =>
        let '(vals, (env, s)) := evalList (evalIn evalExpr) args (env, s) in
        let s := match c_fns cfg !! callee with
                 | Some slots => emitArgs args vals (s_params slots) (s_paramPaths slots) s
                 | None => s
                 end in
        let ret := match c_fns cfg !! callee with Some slots => s_ret slots | None => None end in
        (match ret with Some cls => classSeed (cls_name cls) | None => TOP end, havocCall callee env, s)
    | libCall f args =>
        match mathFn f with
        | Some m =>
            let '(vs, (env, s)) := evalFirst (evalIn evalExpr) (math_arity m) args (env, s) in
            (math_result m vs, clearPathFacts env, s)
        | None =>
            let '(_, (env, s)) := evalList (evalIn evalExpr) args (env, s) in
            let env := if existsb (λ a, typeContainsFunc (e_ty a)) args then havocAllGlobals env else env in
            (TOP, clearPathFacts env, s)
        end
    | recordLit shapeId fields =>
        let '(env, s) := (fix go fs env s := match fs with
          | [] => (env, s)
          | (name, value) :: fs =>
              let '(v, env, s) := evalExpr value env s in
              let s := match record_slot shapeId name with
                       | Some (cls, path) => if is_f64 (e_ty value) then emit v (Some path) cls (e_loc value) s else s
                       | None => s
                       end in
              go fs env s
          end) fields env s in
        (TOP, env, s)
    | recordGet obj shapeId field =>
        let '(_, env, s) := evalExpr obj env s in
        match record_slot shapeId field with
        | Some (cls, _) =>
            if is_f64 ty then
              let '(key, s) := pathKey e cls s in
              (match key with Some key => envGet env key | None => classSeed (cls_name cls) end, env, s)
            else (TOP, env, s)
        | None => (TOP, env, s)
        end
    | fieldGet obj _ _ => let '(_, env, s) := evalExpr obj env s in (TOP, env, s)
    | toBool operand => let '(_, env, s) := evalExpr operand env s in (TOP, clearPathFacts env, s)
    | node k children =>
        let '(env, s) := (fix go cs env s := match cs with
          | [] => (env, s)
          | Direct e :: cs => let '(_, env, s) := evalExpr e env s in go cs env s
          | Entry es :: cs => let '(_, (env, s)) := evalList (evalIn evalExpr) es (env, s) in go cs env s
          end) children env s in
        (TOP, if may_call k then havocAllGlobals env else clearPathFacts env, s)
    end
  end
with execStmt (x : stmt) (env : Env) (s : st) : flow :=
  match x with St k loc =>
    match k with
    | varDecl id None => (env, Kept, s)
    | varDecl id (Some e) | assign id e =>
        let '(v, env, s) := evalExpr e env s in
        (setBinding id v (clearPathsRootedAt env id s), Kept, s)
    | exprStmt e => let '(_, env, s) := evalExpr e env s in (env, Kept, s)
    | if_ cond then_ else_ =>
        let '(_, env, s) := evalExpr cond env s in
        let allowPaths := stablePathGuard cond in
        let '(thenEnv, s) := refine cond true allowPaths (Some env) s in
        let '(elseEnv, s) := refine cond false allowPaths (Some env) s in
        let '(a, s) := match thenEnv with
          | Some t => let '(t, o, s) := execStmts execStmt then_ t s in (out_env t o, s) | None => (None, s) end in
        let '(b, s) := match else_, elseEnv with
          | Some else_, Some t => let '(t, o, s) := execStmts execStmt else_ t s in (out_env t o, s)
          | _, _ => (elseEnv, s) end in
        (env, out_of (joinEnv a b), s)
    | while_ cond body labels =>
        execLoop (mkLoop (Some cond) (evalFor evalExpr cond) (execStmts execStmt body) None labels false None false) env s
    | for_ init cond update body labels =>
        thenRun (match init with Some i => execStmt i env s | None => (env, Kept, s) end)
          (execLoop (mkLoop cond (evalOpt evalExpr cond) (execStmts execStmt body)
             (match update with Some u => Some (execStmt u) | None => None end) labels false None false))
    | doWhile body cond labels =>
        execLoop (mkLoop (Some cond) (evalFor evalExpr cond) (execStmts execStmt body) None labels true None false) env s
    | forOf id iterable body labels =>
        let '(_, env, s) := evalExpr iterable env s in
        execLoop (mkLoop None (λ env s, (env, s)) (execStmts execStmt body) None labels false
          (if bindingIsF64 id then Some id else None) true) env s
    | switch disc cases labels =>
        let '(_, env, s) := evalExpr disc env s in
        let '((running, hasDefault, env), f, s) := in_frame (mkFrame FSwitch labels [] []) (λ s,
          (fix go cs running hasDefault env s := match cs with
           | [] => ((running, hasDefault, env), s)
           | (test, body) :: cs =>
               let '(env, s) := match test with
                 | Some t => let '(_, env, s) := evalExpr t env s in (env, s) | None => (env, s) end in
               let hasDefault := match test with Some _ => hasDefault | None => true end in
               let '(running, s) := match joinEnv running (Some env) with
                 | Some r => let '(r, o, s) := execStmts execStmt body r s in (out_env r o, s) | None => (None, s) end in
               go cs running hasDefault env s
           end) cases None false env s) s in
        let res := join_all running (f_breaks f) in
        let res := if hasDefault : bool then res else joinEnv res (Some env) in
        (env, out_of res, s)
    | arraySet a b c | bytesSet a b c | recordKeySet a b c =>
        let '(_, env, s) := evalExpr a env s in
        let '(_, env, s) := evalExpr b env s in
        let '(_, env, s) := evalExpr c env s in
        (clearPathFacts env, Kept, s)
    | fieldSet a b | recordKeyDelete a b =>
        let '(_, env, s) := evalExpr a env s in
        let '(_, env, s) := evalExpr b env s in
        (clearPathFacts env, Kept, s)
    | recordSet obj shapeId field value =>
        let '(_, env, s) := evalExpr obj env s in
        let '(v, env, s) := evalExpr value env s in
        let s := match record_slot shapeId field with Some (cls, path) => emit v (Some path) cls loc s | None => s end in
        (clearPathFacts env, Kept, s)
    | return_ None => (env, Stop, s)
    | return_ (Some e) =>
        let '(v, env, s) := evalExpr e env s in
        (env, Stop, match retSlot with Some (cls, path) => emit v path cls loc s | None => s end)
    | throw e => let '(_, env, s) := evalExpr e env s in (env, Stop, s)
    | rethrow | runtimeFence => (env, Stop, s)
    | break_ label => (env, Stop, set_frames (jump true label env (frames s)) s)
    | continue_ label => (env, Stop, set_frames (jump false label env (frames s)) s)
    | block body [] => execStmts execStmt body env s
    | block body labels =>
        let '((env, o), f, s) := in_frame (mkFrame FBlock labels [] []) (λ s, let '(env, o, s) := execStmts execStmt body env s in ((env, o), s)) s in
        (env, match f_breaks f with [] => o | bs => out_of (join_all (out_env env o) bs) end, s)
    | tryCatch tryBody catchBody finallyBody =>
        let entry := env in
        let '(env, o, s) := execStmts execStmt tryBody env s in
        let afterTry := out_env env o in
        let '(afterCatch, s) := match catchBody with
          | Some body => let '(c, o, s) := execStmts execStmt body (havocForCatch entry tryBody) s in (out_env c o, s)
          | None => (None, s)
          end in
        let res := joinEnv afterTry afterCatch in
        match finallyBody with
        | None => (env, out_of res, s)
        | Some body =>
            let start := default (havocForCatch entry tryBody) (joinEnv res (Some (havocForCatch entry tryBody))) in
            let '(c, o, s) := execStmts execStmt body start s in
            (env, out_of (out_env c o), s)
        end
    end
  end.

(** ** A function *)

(** The environment of the parameters on entry. *)
Fixpoint param_env (params : list IrParam) (declared : list (option IntClass)) (seeds : list (option AbsVal)) (env : Env) : Env :=
  match params with
  | [] => env
  | p :: ps =>
      let env :=
        if is_f64 (p_type p) then
          <[p_localId p := match declared, seeds with
                           | Some cls :: _, _ => classSeed (cls_name cls)
                           | _, Some seed :: _ => seed
                           | _, _ => TOP
                           end]> env
        else env in
      param_env ps (tail declared) (tail seeds) env
  end.

Definition analyze (fn : IrFunction) (s : st) : st :=
  let '(declared, seeds) := match c_fns cfg !! fn_name fn with Some sl => (s_params sl, s_paramSeeds sl) | None => ([], []) end in
  let '(_, _, s) := execStmts execStmt (fn_body fn) (param_env (fn_params fn) declared seeds ∅) (set_collect true s) in
  s.
End analyzer.

(** ** The entry point *)

Section entry.
Context (num_pow : num → num → num) (Number_ : string → num) (String_ : num → string).

Definition seedBindings (fn : IrFunction) (m : IrModule) : gset string :=
  list_to_set (map l_id (List.filter (λ l, is_f64 (l_type l) && negb (l_boxed l)) (fn_locals fn))) ∪
  list_to_set (map g_id (List.filter (λ g, is_f64 (g_type g)) (mod_globals m))).

Definition ret_slot (cfg : IntSlotConfig) (fn : IrFunction) : option (IntClass * option string) :=
  match c_fns cfg !! fn_name fn with
  | Some sl => match s_ret sl with Some cls => Some (cls, s_retPath sl) | None => None end
  | None => None
  end.

Definition analyzeFn (m : IrModule) (cfg : IntSlotConfig) (effects : GlobalEffects) (vs : list IntVerdict) (fn : IrFunction) : list IntVerdict :=
  verdicts (analyze num_pow Number_ String_ cfg effects (seedBindings fn m) (ret_slot cfg fn) fn (mkSt [] false vs ∅)).

(** One verdict per obligation site; [None] would be an endless closure of the
    effects, which [globalEffectsOf_exact] rules out. *)
Definition checkLibraryIntegerSlots (m : IrModule) (cfg : IntSlotConfig) : option (list IntVerdict) :=
  if negb (hasIntSlots cfg) then Some []
  else match globalEffectsOf m with
       | Some effects => Some (foldl (analyzeFn m cfg effects) [] (mod_functions m))
       | None => None
       end.
End entry.
