(* ===== verification/IntVerdicts.v ===== *)
(** * Integer-boundary inference: what the analyzer reports

    Executing a statement or an expression leaves the frame stack, the collect
    flag and the earlier verdicts as they were, and appends, when it collects,
    a subsequence of the statement's obligation sites in evaluation order:
    however often a loop is iterated, no site is reported twice. *)

From S2P Require Import Prelude F64 IntDomain IntIR IntEffects IntEnv IntAnalyzer.

(** ** Obligation sites in evaluation order *)

Definition site : Type := option string * IntClass * SrcLoc.
Definition site_of (v : IntVerdict) : site := (v_path v, v_cls v, v_loc v).

Section sites.
Context (cfg : IntSlotConfig) (retSlot : option (IntClass * option string)).

Fixpoint arg_sites (args : list expr) (params : list (option IntClass)) (paths : list (option string)) : list site :=
  match args with
  | [] => []
  | arg :: args =>
      (match params with Some cls :: _ => [(default None (head paths), cls, e_loc arg)] | _ => [] end) ++
      arg_sites args (tail params) (tail paths)
  end.

Definition field_site (shapeId field : string) (loc : SrcLoc) : list site :=
  match record_slot cfg shapeId field with Some (cls, path) => [(Some path, cls, loc)] | None => [] end.

Fixpoint sites_expr (e : expr) : list site :=
  match e with Ex k _ _ =>
    match k with
    | numLit _ _ | boolLit _ | lit _ | varRef _ | incDec _ _ _ => []
    | bin _ l r | logical _ l r | orElse _ l r | optChain l r => sites_expr l ++ sites_expr r
    | unary _ e | toBool e | assignExpr _ e | recordGet e _ _ | fieldGet e _ _ => sites_expr e
    | ternary c t e => sites_expr c ++ sites_expr t ++ sites_expr e
    | seqExpr ss r => flat_map sites_stmt ss ++ sites_expr r
    | call callee args =>
        flat_map sites_expr args ++
        match c_fns cfg !! callee with Some sl => arg_sites args (s_params sl) (s_paramPaths sl) | None => [] end
    | libCall _ args => flat_map sites_expr args
    | recordLit shapeId fields =>
        (fix go fs := match fs with
                      | [] => []
                      | (name, value) :: fs =>
                          sites_expr value ++ (if is_f64 (e_ty value) then field_site shapeId name (e_loc value) else []) ++ go fs
                      end) fields
    | node _ cs => (fix go cs := match cs with
                                 | [] => []
                                 | Direct e :: cs => sites_expr e ++ go cs
                                 | Entry es :: cs => flat_map sites_expr es ++ go cs
                                 end) cs
    end
  end
with sites_stmt (x : stmt) : list site :=
  match x with St k loc =>
    match k with
    | varDecl _ None | break_ _ | continue_ _ | runtimeFence | rethrow | return_ None => []
    | varDecl _ (Some e) | assign _ e | exprStmt e | throw e => sites_expr e
    | if_ c t e => sites_expr c ++ flat_map sites_stmt t ++ match e with Some e => flat_map sites_stmt e | None => [] end
    | while_ c b _ => sites_expr c ++ flat_map sites_stmt b
    | doWhile b c _ => flat_map sites_stmt b ++ sites_expr c
    | switch d cases _ =>
        sites_expr d ++
        (fix go cs := match cs with
                      | [] => []
                      | (test, body) :: cs => match test with Some t => sites_expr t | None => [] end ++ flat_map sites_stmt body ++ go cs
                      end) cases
    | for_ i c u b _ =>
        match i with Some i => sites_stmt i | None => [] end ++ match c with Some c => sites_expr c | None => [] end ++
        flat_map sites_stmt b ++ match u with Some u => sites_stmt u | None => [] end
    | arraySet a b c | bytesSet a b c | recordKeySet a b c => sites_expr a ++ sites_expr b ++ sites_expr c
    | forOf _ it b _ => sites_expr it ++ flat_map sites_stmt b
    | return_ (Some e) => sites_expr e ++ match retSlot with Some (cls, path) => [(path, cls, loc)] | None => [] end
    | fieldSet a b | recordKeyDelete a b => sites_expr a ++ sites_expr b
    | recordSet o shapeId field v => sites_expr o ++ sites_expr v ++ field_site shapeId field loc
    | block b _ => flat_map sites_stmt b
    | tryCatch t c f =>
        flat_map sites_stmt t ++ match c with Some c => flat_map sites_stmt c | None => [] end ++
        match f with Some f => flat_map sites_stmt f | None => [] end
    end
  end.
End sites.

(** ** How a state evolves *)

(** A frame keeps its kind and labels and collects more jumps. *)
Definition frame_grows (f f' : LoopFrame) : Prop :=
  f_kind f' = f_kind f ∧ f_labels f' = f_labels f ∧ f_breaks f `prefix_of` f_breaks f' ∧ f_continues f `prefix_of` f_continues f'.

(** [sites] are the obligations met between the two states. *)
Definition evolves (sites : list site) (s s' : st) : Prop :=
  Forall2 frame_grows (frames s) (frames s') ∧ collect s' = collect s ∧
  ∃ vs, verdicts s' = verdicts s ++ vs ∧ (if collect s then map site_of vs `sublist_of` sites else vs = []).

Lemma frame_grows_refl f : frame_grows f f.
Proof. done. Qed.
Lemma frame_grows_trans f g h : frame_grows f g → frame_grows g h → frame_grows f h.
Proof. intros (A1 & A2 & A3 & A4) (B1 & B2 & B3 & B4). split_and!; try congruence; by etrans. Qed.

Lemma evolves_nil s s' : frames s' = frames s → collect s' = collect s → verdicts s' = verdicts s → evolves [] s s'.
Proof.
  intros Ef Ec Ev. split; [|split; [done|]].
  - rewrite Ef. apply Forall_Forall2_diag, Forall_true, frame_grows_refl.
  - exists []. rewrite app_nil_r. split; [done|]. by destruct (collect s).
Qed.

Lemma evolves_refl s : evolves [] s s.
Proof. by apply evolves_nil. Qed.

Lemma evolves_weaken l l' s s' : l `sublist_of` l' → evolves l s s' → evolves l' s s'.
Proof. intros Hl (H1 & H2 & vs & H3 & H4). split; [done|split; [done|]]. exists vs. split; [done|]. destruct (collect s); [by etrans|done]. Qed.

Lemma evolves_trans l1 l2 s1 s2 s3 : evolves l1 s1 s2 → evolves l2 s2 s3 → evolves (l1 ++ l2) s1 s3.
Proof.
  intros (F1 & C1 & v1 & V1 & L1) (F2 & C2 & v2 & V2 & L2). split; [|split; [congruence|]].
  - clear -F1 F2. revert F2. generalize (frames s3). induction F1 as [|f g fs gs Hf _ IH]; intros hs F2; inversion F2; subst; constructor.
    + by eapply frame_grows_trans.
    + by apply IH.
  - exists (v1 ++ v2). rewrite V2, V1, <- app_assoc. split; [done|]. rewrite C1 in L2. destruct (collect s1).
    + rewrite map_app. by apply sublist_app.
    + by rewrite L1, L2.
Qed.

(** The obligations on either side of one that may be skipped. *)
Lemma evolves_more_l l1 l2 s s' : evolves l1 s s' → evolves (l1 ++ l2) s s'.
Proof. apply evolves_weaken, sublist_inserts_r. done. Qed.
Lemma evolves_more_r l1 l2 s s' : evolves l2 s s' → evolves (l1 ++ l2) s s'.
Proof. apply evolves_weaken, sublist_inserts_l. done. Qed.

Lemma evolves_none l s s' : frames s' = frames s → collect s' = collect s → verdicts s' = verdicts s → evolves l s s'.
Proof. intros. apply (evolves_weaken []); [apply sublist_nil_l|by apply evolves_nil]. Qed.

(** ** Sequencing *)

Section bind.
Context {A B C : Type}.

Lemma bind2 (m : A * st) (k : A → st → C * st) l1 l2 s :
  evolves l1 s m.2 → (∀ a s', evolves l2 s' (k a s').2) → evolves (l1 ++ l2) s (let '(a, s) := m in k a s).2.
Proof. destruct m as [a s']. intros H1 H2. by eapply evolves_trans. Qed.

Lemma bind3 (m : A * B * st) (k : A → B → st → C * st) l1 l2 s :
  evolves l1 s m.2 → (∀ a b s', evolves l2 s' (k a b s').2) → evolves (l1 ++ l2) s (let '(a, b, s) := m in k a b s).2.
Proof. destruct m as [[a b] s']. intros H1 H2. by eapply evolves_trans. Qed.

Lemma bind3' (m : A * (B * st)) (k : A → B → st → C * st) l1 l2 s :
  evolves l1 s m.2.2 → (∀ a b s', evolves l2 s' (k a b s').2) → evolves (l1 ++ l2) s (let '(a, (b, s)) := m in k a b s).2.
Proof. destruct m as [a [b s']]. intros H1 H2. by eapply evolves_trans. Qed.
End bind.

(** Computations that change [pathRoots] only. *)
Definition quiet (s s' : st) : Prop := frames s' = frames s ∧ collect s' = collect s ∧ verdicts s' = verdicts s.

Lemma quiet_refl s : quiet s s.
Proof. done. Qed.
Lemma quiet_trans s1 s2 s3 : quiet s1 s2 → quiet s2 s3 → quiet s1 s3.
Proof. unfold quiet. naive_solver congruence. Qed.
Lemma quiet_evolves l s s' : quiet s s' → evolves l s s'.
Proof. intros (? & ? & ?). by apply evolves_none. Qed.

Section quiet.
Context {A C : Type}.
Lemma quiet_bind (m : A * st) (k : A → st → C * st) s :
  quiet s m.2 → (∀ a s', quiet s' (k a s').2) → quiet s (let '(a, s) := m in k a s).2.
Proof. destruct m as [a s']. intros H1 H2. by eapply quiet_trans. Qed.
Lemma bind_quiet (m : A * st) (k : A → st → C * st) l s :
  quiet s m.2 → (∀ a s', evolves l s' (k a s').2) → evolves l s (let '(a, s) := m in k a s).2.
Proof. intros H1 H2. change l with ([] ++ l). apply bind2; [by apply quiet_evolves|done]. Qed.
End quiet.

Section analyzer.
Context (num_pow : num → num → num) (Number_ : string → num) (String_ : num → string).
Context (cfg : IntSlotConfig) (effects : GlobalEffects) (f64Bindings : gset string).
Context (retSlot : option (IntClass * option string)).

Notation evalExpr := (evalExpr num_pow Number_ String_ cfg effects f64Bindings retSlot).
Notation execStmt := (execStmt num_pow Number_ String_ cfg effects f64Bindings retSlot).
Notation evalPure := (evalPure num_pow cfg).
Notation refine := (refine num_pow cfg).
Notation sites_expr := (sites_expr cfg retSlot).
Notation sites_stmt := (sites_stmt cfg retSlot).

Lemma pathKey_quiet e cls s : quiet s (pathKey e cls s).2.
Proof. unfold pathKey. destruct (staticAccessPath e) as [[root steps]|]; done. Qed.

Lemma refinementKey_quiet e allowPaths s : quiet s (refinementKey cfg e allowPaths s).2.
Proof.
  destruct e as [k ty loc]. destruct k; try done. simpl. case_match; [|done]. case_match; [|done]. case_match. apply pathKey_quiet.
Qed.

Lemma evalFirst_quiet (eval : expr → st → AbsVal * st) es n s : Forall (λ e, ∀ s, quiet s (eval e s).2) es → quiet s (evalFirst eval n es s).2.
Proof.
  intros HF. revert n s. induction HF as [|e es He _ IH]; intros [|n] s; try done. simpl.
  apply quiet_bind; [apply He|]. intros v s1. apply quiet_bind; [apply IH|done].
Qed.

Lemma evalPure_quiet env : ∀ e s, quiet s (evalPure env e s).2.
Proof.
  fix IH 1. intros [k ty loc] s. destruct k; try exact (quiet_refl s); simpl.
  - apply quiet_bind; [apply IH|]. intros a s1. apply quiet_bind; [apply IH|intros; apply quiet_refl].
  - destruct op; try exact (quiet_refl s); (apply quiet_bind; [apply IH|intros; apply quiet_refl]).
  - destruct (mathFn f) as [m|]; [|exact (quiet_refl s)]. apply quiet_bind; [|intros; apply quiet_refl]. apply evalFirst_quiet.
    induction args as [|e es IHes]; constructor; [intros s'; apply IH|exact IHes].
  - destruct (record_slot cfg shapeId field) as [[cls path]|]; [|exact (quiet_refl s)]. destruct (is_f64 ty); [|exact (quiet_refl s)].
    apply quiet_bind; [apply pathKey_quiet|intros; apply quiet_refl].
Qed.

Lemma refine_quiet cond : ∀ branch allowPaths env s, quiet s (refine cond branch allowPaths env s).2.
Proof.
  revert cond. fix IH 1. intros [k ty loc] branch allowPaths [en|] s; [|destruct k; exact (quiet_refl s)].
  destruct k; try exact (quiet_refl s); simpl.
  - destruct (negb _); [exact (quiet_refl s)|]. do 2 (destruct (_ || _); [exact (quiet_refl s)|]).
    repeat (apply quiet_bind; [first [apply evalPure_quiet|apply refinementKey_quiet]|intros ? ?]).
    destruct (refine_bin op branch a a0). apply quiet_refl.
  - destruct op; try exact (quiet_refl s). apply IH.
  - destruct (_ || _); [exact (quiet_refl s)|]. apply quiet_bind; [apply refinementKey_quiet|]. intros [key|] s1; [|exact (quiet_refl s1)].
    apply quiet_bind; [apply evalPure_quiet|intros; apply quiet_refl].
  - destruct (Bool.eqb _ _); (apply quiet_bind; [apply IH|]; intros ? ?); [apply IH|]. apply quiet_bind; [apply IH|]. intros ? ?.
    apply quiet_bind; [apply IH|intros; apply quiet_refl].
Qed.

(** ** Statement sequences, jumps and frames *)

Lemma thenRun_evolves (r : flow) k l1 l2 s :
  evolves l1 s r.2 → (∀ env s', evolves l2 s' (k env s').2) → evolves (l1 ++ l2) s (thenRun r k).2.
Proof.
  destruct r as [[env o] s1]. intros H1 H2. destruct o as [|e|]; simpl.
  - by eapply evolves_trans.
  - specialize (H2 e s1). destruct (k e s1) as [[e' o'] s2]. by eapply evolves_trans.
  - by apply evolves_more_l.
Qed.

Lemma jump_grows b label env fs : Forall2 frame_grows fs (jump b label env fs).
Proof.
  induction fs as [|f fs IH]; simpl; [constructor|]. case_match; constructor; try done.
  - destruct b; (split_and!; simpl; try done; by eexists).
  - apply Forall_Forall2_diag, Forall_true, frame_grows_refl.
Qed.

Lemma jump_evolves b label env s : evolves [] s (set_frames (jump b label env (frames s)) s).
Proof.
  split; [apply jump_grows|split; [done|]]. exists []. rewrite app_nil_r. split; [done|]. by destruct (collect s).
Qed.

Lemma in_frame_evolves {A} f (body : st → A * st) l s : (∀ s, evolves l s (body s).2) → evolves l s (in_frame f body s).2.
Proof.
  intros H. specialize (H (set_frames (f :: frames s) s)). unfold in_frame. destruct (body _) as [r s1]. destruct H as (H1 & H2 & H3).
  simpl in *. destruct (frames s1) as [|g gs] eqn:E; [inversion H1|]. apply Forall2_cons in H1 as [_ H1]. by split.
Qed.

Lemma collect_off l s s' : collect s = false → evolves l s s' → evolves [] s s'.
Proof. intros E (H1 & H2 & vs & H3 & H4). split; [done|split; [done|]]. exists vs. rewrite E in *. done. Qed.

Lemma collect_saved s s' : evolves [] (set_collect false s) s' → evolves [] s (set_collect (collect s) s').
Proof.
  intros (H1 & H2 & vs & H3 & ->). split; [done|split; [done|]]. exists []. split; [done|]. by destruct (collect s).
Qed.

Lemma emit_evolves v path cls loc s : evolves [(path, cls, loc)] s (emit Number_ String_ v path cls loc s).
Proof.
  unfold emit. destruct (collect s) eqn:E; [|by apply evolves_none].
  split; [apply Forall_Forall2_diag, Forall_true, frame_grows_refl|]. split; [done|]. rewrite E. by eexists.
Qed.

Lemma emitArgs_evolves args : ∀ vals params paths s,
  evolves (arg_sites args params paths) s (emitArgs Number_ String_ args vals params paths s).
Proof.
  induction args as [|a args IH]; intros [|v vals] params paths s; simpl; try (by apply evolves_none).
  eapply evolves_trans; [|apply IH]. destruct params as [|[cls|] params]; [by apply evolves_none|apply emit_evolves|by apply evolves_none].
Qed.

(** ** Loops *)

Section loops.
Context (o : loop_opts) (lc lb lu : list site).
Hypothesis Hcond : ∀ env s, evolves lc s (o_evalCond o env s).2.
Hypothesis Hbody : ∀ env s, evolves lb s (o_body o env s).2.
Hypothesis Hupdate : ∀ u, o_update o = Some u → ∀ env s, evolves lu s (u env s).2.

Notation runLoopBodyOnce := (runLoopBodyOnce num_pow cfg o).
Definition loop_sites : list site := if o_doWhile o then lb ++ lu ++ lc else lc ++ lb ++ lu.

(** The parts of a trip. *)
Lemma trip_evolves (bodyIn : option Env) s :
  evolves lb s (in_frame (loop_frame o) (λ s,
    match bodyIn with
    | None => (None, s)
    | Some env => let '(env, r, s) := o_body o env s in (out_env env r, s)
    end) s).2.
Proof.
  apply in_frame_evolves. intros s1. destruct bodyIn as [env|]; [|by apply evolves_none].
  specialize (Hbody env s1). by destruct (o_body o env s1) as [[e r] s2].
Qed.

Lemma update_evolves (res : option Env) s :
  evolves lu s (match o_update o, res with
    | Some update, Some env => let '(env, r, s) := update env s in (out_env env r, s)
    | _, _ => (res, s)
    end).2.
Proof.
  destruct (o_update o) as [u|] eqn:E; [|by apply evolves_none]. destruct res as [env|]; [|by apply evolves_none].
  specialize (Hupdate u eq_refl env s). by destruct (u env s) as [[e r] s2].
Qed.

Lemma guard_evolves c branch (env : Env) s :
  evolves lc s (let '(env, s) := o_evalCond o env s in refine c branch false (Some env) s).2.
Proof.
  specialize (Hcond env s). destruct (o_evalCond o env s) as [e s1]. rewrite <- (app_nil_r lc). eapply evolves_trans; [done|].
  apply quiet_evolves, refine_quiet.
Qed.

Lemma runLoopBodyOnce_evolves head s : evolves loop_sites s (runLoopBodyOnce head s).2.
Proof.
  unfold runLoopBodyOnce, loop_sites. destruct (o_cond o) as [c|]; [destruct (o_doWhile o)|].
  - apply bind3; [apply trip_evolves|]. intros res f s1. apply bind2; [apply update_evolves|]. intros [env|] s2; [|by apply evolves_none].
    pose proof (guard_evolves c true env s2) as H. destruct (o_evalCond o env s2) as [e s3]. by destruct (refine c true false (Some e) s3).
  - apply bind2; [apply guard_evolves|]. intros bodyIn s1. apply bind3; [apply trip_evolves|]. intros res f s2.
    rewrite <- (app_nil_r lu). apply bind2; [apply update_evolves|]. intros [env|] s3; by apply evolves_none.
  - assert (H : evolves (lb ++ lu) s (let '(bodyIn, s) := (Some head, s) in
        let bodyIn := match bodyIn, o_seed o with Some env, Some id => Some (<[id := TOP]> env) | _, _ => bodyIn end in
        let '(res, f, s) := in_frame (loop_frame o) (λ s, match bodyIn with
            | None => (None, s) | Some env => let '(env, r, s) := o_body o env s in (out_env env r, s) end) s in
        let res := join_all res (f_continues f) in
        let '(res, s) := match o_update o, res with
            | Some update, Some env => let '(env, r, s) := update env s in (out_env env r, s) | _, _ => (res, s) end in
        (res, @None Env, f, s)).2).
    { apply bind3; [apply trip_evolves|]. intros res f s2.
      rewrite <- (app_nil_r lu). apply bind2; [apply update_evolves|]. intros; by apply evolves_none. }
    destruct (o_doWhile o); [rewrite app_assoc; by apply evolves_more_l|by apply evolves_more_r].
Qed.

Lemma header_evolves n : ∀ joins head s, collect s = false → evolves [] s (header num_pow cfg o n joins head s).2.
Proof.
  induction n as [|n IH]; intros joins head s Ec; [by apply evolves_none|]. cbn [header].
  pose proof (collect_off _ _ _ Ec (runLoopBodyOnce_evolves head s)) as H. destruct (runLoopBodyOnce head s) as [[[back post] f] s1].
  simpl in H. cbv zeta. destruct (envEquals _ _); [done|]. destruct (n =? 0)%nat; [done|].
  change (@nil site) with (@nil site ++ []). eapply evolves_trans; [done|]. apply IH. destruct H as (_ & -> & _). done.
Qed.

Lemma execLoop_evolves env s : evolves loop_sites s (execLoop num_pow cfg o env s).2.
Proof.
  unfold execLoop. cbv zeta. set (h := header _ _ _ _ _ _ _).
  assert (Hh : evolves [] s (set_collect (collect s) h.2)). { apply collect_saved, header_evolves. done. }
  destruct h as [head s1]. change loop_sites with ([] ++ loop_sites). eapply evolves_trans; [exact Hh|]. clear Hh. simpl.
  generalize (set_collect (collect s) s1). clear s1. intros s1. pose proof (runLoopBodyOnce_evolves head s1) as H.
  destruct (runLoopBodyOnce head s1) as [[[back post] f] s2]. rewrite <- (app_nil_r loop_sites). eapply evolves_trans; [exact H|].
  apply (bind_quiet (A := option Env) (C := Env * out)); [|intros; by apply evolves_none].
  destruct (o_doWhile o), (o_cond o), post; first [apply refine_quiet|apply quiet_refl].
Qed.

Lemma execLoop_while env s : o_doWhile o = false → evolves (lc ++ lb ++ lu) s (execLoop num_pow cfg o env s).2.
Proof. intros E. pose proof (execLoop_evolves env s) as H. unfold loop_sites in H. by rewrite E in H. Qed.
Lemma execLoop_doWhile env s : o_doWhile o = true → evolves (lb ++ lu ++ lc) s (execLoop num_pow cfg o env s).2.
Proof. intros E. pose proof (execLoop_evolves env s) as H. unfold loop_sites in H. by rewrite E in H. Qed.
End loops.

(** ** Expressions and statements *)

Notation expr_ok e := (∀ env s, evolves (sites_expr e) s (evalExpr e env s).2).
Notation stmt_ok x := (∀ env s, evolves (sites_stmt x) s (execStmt x env s).2).

Lemma evalIn_evolves e es : expr_ok e → evolves (sites_expr e) es.2 (evalIn evalExpr e es).2.2.
Proof. intros H. unfold evalIn. specialize (H es.1 es.2). by destruct (evalExpr e es.1 es.2) as [[v env] s]. Qed.

Lemma evalFor_evolves e env s : expr_ok e → evolves (sites_expr e) s (evalFor evalExpr e env s).2.
Proof. intros H. unfold evalFor. specialize (H env s). by destruct (evalExpr e env s) as [[v env1] s1]. Qed.

Lemma evalList_evolves es : Forall (λ e, expr_ok e) es →
  ∀ a, evolves (flat_map sites_expr es) a.2 (evalList (evalIn evalExpr) es a).2.2.
Proof.
  induction 1 as [|e es He _ IH]; intros a; [by apply evolves_none|]. simpl.
  pose proof (evalIn_evolves e a He) as H. destruct (evalIn evalExpr e a) as [v a1]. specialize (IH a1).
  destruct (evalList _ es a1) as [vs a2]. by eapply evolves_trans.
Qed.

Lemma evalFirst_evolves es : Forall (λ e, expr_ok e) es →
  ∀ n a, evolves (flat_map sites_expr es) a.2 (evalFirst (evalIn evalExpr) n es a).2.2.
Proof.
  induction 1 as [|e es He _ IH]; intros [|n] a; try (by apply evolves_none). simpl.
  pose proof (evalIn_evolves e a He) as H. destruct (evalIn evalExpr e a) as [v a1]. specialize (IH n a1).
  destruct (evalFirst _ n es a1) as [vs a2]. by eapply evolves_trans.
Qed.

Lemma execStmts_evolves ss : Forall (λ x, stmt_ok x) ss →
  ∀ env s, evolves (flat_map sites_stmt ss) s (execStmts execStmt ss env s).2.
Proof.
  induction 1 as [|x ss Hx _ IH]; intros env s; [by apply evolves_none|]. apply thenRun_evolves; [apply Hx|done].
Qed.

(** A statement list whose resulting environment is wanted. *)
Lemma execStmts_out ss env s : Forall (λ x, stmt_ok x) ss →
  evolves (flat_map sites_stmt ss) s (let '(t, o, s) := execStmts execStmt ss env s in (out_env t o, s)).2.
Proof. intros H. pose proof (execStmts_evolves ss H env s) as H1. by destruct (execStmts execStmt ss env s) as [[t o] s1]. Qed.

Lemma field_evolves shapeId field v loc s : evolves (field_site cfg shapeId field loc) s
  (match record_slot cfg shapeId field with Some (cls, path) => emit Number_ String_ v (Some path) cls loc s | None => s end).
Proof. unfold field_site. destruct (record_slot cfg shapeId field) as [[cls path]|]; [apply emit_evolves|apply evolves_refl]. Qed.

Lemma ret_evolves v loc s : evolves (match retSlot with Some (cls, path) => [(path, cls, loc)] | None => [] end) s
  (match retSlot with Some (cls, path) => emit Number_ String_ v path cls loc s | None => s end).
Proof. destruct retSlot as [[cls path]|]; [apply emit_evolves|apply evolves_refl]. Qed.

(** An arm that may be unreachable. *)
Lemma arm_evolves e (t : option Env) s : expr_ok e →
  evolves (sites_expr e) s (match t with
    | Some t => let '(v, t, s) := evalExpr e t s in (v, Some t, s) | None => (BOTTOM, None, s) end).2.
Proof.
  intros H. destruct t as [t|]; [|by apply evolves_none]. specialize (H t s). by destruct (evalExpr e t s) as [[v t1] s1].
Qed.

(** Every element of a list, by the hypothesis of the mutual induction. *)
Ltac each H l := let x := fresh in let xs := fresh in let IHl := fresh in
  induction l as [|x xs IHl]; constructor; [exact (H x)|exact IHl].

(** One evaluation after another, with nothing reported at the end. *)
Ltac last_expr H e := let s1 := fresh "s" in
  match goal with |- evolves ?l ?s _ => rewrite <- (app_nil_r l) end;
  apply bind3; [exact (H e _ _)|intros ? ? s1; exact (evolves_refl s1)].
Ltac next_expr H e := apply bind3; [exact (H e _ _)|intros ? ? ?].

Lemma evalExpr_evolves : ∀ e, expr_ok e
with execStmt_evolves : ∀ x, stmt_ok x.
Proof.
  - intros [k ty loc] env s. destruct k; simpl; try exact (evolves_refl s).
    + next_expr evalExpr_evolves lft. last_expr evalExpr_evolves rgt.
    + last_expr evalExpr_evolves operand.
    + last_expr evalExpr_evolves value.
    + last_expr evalExpr_evolves operand.
    + next_expr evalExpr_evolves lft. last_expr evalExpr_evolves rgt.
    + next_expr evalExpr_evolves lft. last_expr evalExpr_evolves rgt.
    + next_expr evalExpr_evolves cond.
      apply bind_quiet; [apply refine_quiet|intros ? ?]. apply bind_quiet; [apply refine_quiet|intros ? ?].
      apply bind3; [apply arm_evolves; exact (evalExpr_evolves then_)|intros ? ? ?]. rewrite <- (app_nil_r (sites_expr else_)).
      apply bind3; [apply arm_evolves; exact (evalExpr_evolves else_)|]. intros ? ? s5. exact (evolves_refl s5).
    + next_expr evalExpr_evolves receiver. last_expr evalExpr_evolves body.
    + assert (H : Forall (λ x, stmt_ok x) stmts). { each execStmt_evolves stmts. }
      pose proof (execStmts_evolves stmts H env s) as H1. destruct (execStmts execStmt stmts env s) as [[env1 o] s1].
      destruct o; [eapply evolves_trans; [exact H1|exact (evalExpr_evolves result _ s1)]..|apply evolves_more_l; exact H1].
    + assert (H : Forall (λ e, expr_ok e) args). { each evalExpr_evolves args. }
      apply bind3'; [exact (evalList_evolves args H (env, s))|]. intros vs env1 s1. simpl.
      destruct (c_fns cfg !! callee) as [sl|]; [apply emitArgs_evolves|exact (evolves_refl s1)].
    + assert (H : Forall (λ e, expr_ok e) args). { each evalExpr_evolves args. }
      destruct (mathFn f) as [m|]; rewrite <- (app_nil_r (flat_map _ _)).
      * apply bind3'; [exact (evalFirst_evolves args H (math_arity m) (env, s))|]. intros vs env1 s1. exact (evolves_refl s1).
      * apply bind3'; [exact (evalList_evolves args H (env, s))|]. intros vs env1 s1. exact (evolves_refl s1).
    + match goal with |- evolves ?l _ _ => rewrite <- (app_nil_r l) end. apply bind2; [|intros a s1; exact (evolves_refl s1)].
      revert env s. induction fields as [|[name value] fields IHf]; intros env s; [exact (evolves_refl s)|].
      next_expr evalExpr_evolves value. eapply evolves_trans; [|exact (IHf _ _)].
      destruct (is_f64 (e_ty value)) eqn:Ef; simpl.
      * apply field_evolves.
      * destruct (record_slot cfg shapeId name) as [[cls path]|]; match goal with |- evolves _ ?s _ => exact (evolves_refl s) end.
    + match goal with |- evolves ?l _ _ => rewrite <- (app_nil_r l) end. next_expr evalExpr_evolves obj.
      destruct (record_slot cfg shapeId field) as [[cls path]|]; [|exact (evolves_refl _)]. destruct (is_f64 ty); [|exact (evolves_refl _)].
      apply bind_quiet; [apply pathKey_quiet|intros key s2; exact (evolves_refl s2)].
    + last_expr evalExpr_evolves obj.
    + match goal with |- evolves ?l _ _ => rewrite <- (app_nil_r l) end. apply bind2; [|intros a s1; exact (evolves_refl s1)].
      revert env s. induction children as [|[e|es] cs IHc]; intros env s; [exact (evolves_refl s)|..].
      * next_expr evalExpr_evolves e. exact (IHc _ _).
      * assert (H : Forall (λ e, expr_ok e) es). { each evalExpr_evolves es. }
        apply bind3'; [exact (evalList_evolves es H (env, s))|]. intros vs env1 s1. exact (IHc env1 s1).
  - intros [k loc] env s. destruct k; simpl; try exact (evolves_refl s).
    + destruct init as [e|]; [|exact (evolves_refl s)]. last_expr evalExpr_evolves e.
    + last_expr evalExpr_evolves value.
    + last_expr evalExpr_evolves e.
    + next_expr evalExpr_evolves cond.
      apply bind_quiet; [apply refine_quiet|intros te ?]. apply bind_quiet; [apply refine_quiet|intros ee ?].
      assert (Ht : Forall (λ x, stmt_ok x) then_). { each execStmt_evolves then_. }
      apply bind2; [destruct te; [exact (execStmts_out then_ _ _ Ht)|apply quiet_evolves, quiet_refl]|intros ? ?].
      match goal with |- evolves ?l _ _ => rewrite <- (app_nil_r l) end. apply bind2; [|intros ? s1; exact (evolves_refl s1)].
      destruct else_ as [else_|]; [|exact (evolves_refl _)].
      assert (He : Forall (λ x, stmt_ok x) else_). { each execStmt_evolves else_. }
      destruct ee; [exact (execStmts_out else_ _ _ He)|apply quiet_evolves, quiet_refl].
    + assert (H : Forall (λ x, stmt_ok x) body). { each execStmt_evolves body. }
      rewrite <- (app_nil_r (flat_map _ body)).
      eapply execLoop_while; simpl; [intros; apply evalFor_evolves; exact (evalExpr_evolves cond)|intros; apply execStmts_evolves; exact H|discriminate|reflexivity].
    + assert (H : Forall (λ x, stmt_ok x) body). { each execStmt_evolves body. }
      change (sites_expr cond) with ([] ++ sites_expr cond).
      eapply execLoop_doWhile; simpl; [intros; apply evalFor_evolves; exact (evalExpr_evolves cond)|intros; apply execStmts_evolves; exact H|discriminate|reflexivity].
    + next_expr evalExpr_evolves disc. match goal with |- evolves ?l _ _ => rewrite <- (app_nil_r l) end.
      apply (bind3 (C := Env * out)); [|intros [[? ?] ?] ? s1; exact (evolves_refl s1)]. apply in_frame_evolves. clear env s. intros s. revert s.
      match goal with |- ∀ s, evolves ?l s (?F cases ?o ?b ?e s).2 => cut (∀ env running hd s, evolves l s (F cases running hd env s).2); [intros HH; exact (HH e o b)|] end.
      induction cases as [|[test body] cases IHc]; intros env running hd s; [exact (evolves_refl s)|].
      assert (H : Forall (λ x, stmt_ok x) body). { each execStmt_evolves body. }
      apply bind2; [destruct test as [t|]; [last_expr evalExpr_evolves t|exact (evolves_refl s)]|intros env1 s1].
      apply bind2; [destruct (joinEnv running (Some env1)); [exact (execStmts_out body _ _ H)|apply quiet_evolves, quiet_refl]|intros ? ?].
      exact (IHc _ _ _ _).
    + apply thenRun_evolves; [destruct init as [i|]; [exact (execStmt_evolves i env s)|exact (evolves_refl s)]|intros env1 s1].
      assert (H : Forall (λ x, stmt_ok x) body). { each execStmt_evolves body. }
      eapply execLoop_while; simpl; [|intros; apply execStmts_evolves; exact H| |reflexivity].
      * intros env2 s2. destruct cond as [c|]; [apply evalFor_evolves; exact (evalExpr_evolves c)|exact (evolves_refl s2)].
      * intros u. destruct update as [u'|]; [|discriminate]. injection 1 as <-. exact (execStmt_evolves u').
    + next_expr evalExpr_evolves arr. next_expr evalExpr_evolves index. last_expr evalExpr_evolves value.
    + next_expr evalExpr_evolves arr. next_expr evalExpr_evolves index. last_expr evalExpr_evolves value.
    + next_expr evalExpr_evolves iterable.
      assert (H : Forall (λ x, stmt_ok x) body). { each execStmt_evolves body. }
      rewrite <- (app_nil_r (flat_map _ body)). change (flat_map sites_stmt body ++ []) with ([] ++ flat_map sites_stmt body ++ []).
      eapply execLoop_while; simpl; [intros ? s1; exact (evolves_refl s1)|intros; apply execStmts_evolves; exact H|discriminate|reflexivity].
    + destruct value as [e|]; [|exact (evolves_refl s)]. next_expr evalExpr_evolves e. apply ret_evolves.
    + next_expr evalExpr_evolves obj. last_expr evalExpr_evolves value.
    + next_expr evalExpr_evolves obj. next_expr evalExpr_evolves value. apply field_evolves.
    + next_expr evalExpr_evolves obj. next_expr evalExpr_evolves key. last_expr evalExpr_evolves value.
    + next_expr evalExpr_evolves obj. last_expr evalExpr_evolves key.
    + apply jump_evolves.
    + apply jump_evolves.
    + assert (H : Forall (λ x, stmt_ok x) body). { each execStmt_evolves body. }
      destruct labels as [|l ls]; [exact (execStmts_evolves body H env s)|]. rewrite <- (app_nil_r (flat_map _ _)).
      apply (bind3 (C := Env * out)); [|intros [? ?] ? s1; exact (evolves_refl s1)]. apply in_frame_evolves. intros s1.
      pose proof (execStmts_evolves body H env s1) as H1. destruct (execStmts execStmt body env s1) as [[? ?] ?]. exact H1.
    + last_expr evalExpr_evolves value.
    + assert (Ht : Forall (λ x, stmt_ok x) tryBody). { each execStmt_evolves tryBody. }
      apply bind3; [exact (execStmts_evolves tryBody Ht env s)|intros env1 o s1].
      apply bind2; [destruct catchBody as [body|]; [|exact (evolves_refl s1)]|intros ac s2].
      * assert (Hc : Forall (λ x, stmt_ok x) body). { each execStmt_evolves body. }
        exact (execStmts_out body _ _ Hc).
      * destruct finallyBody as [body|]; [|exact (evolves_refl s2)].
        assert (Hf : Forall (λ x, stmt_ok x) body). { each execStmt_evolves body. }
        rewrite <- (app_nil_r (flat_map _ body)). apply bind3; [exact (execStmts_evolves body Hf _ _)|intros ? ? s3; exact (evolves_refl s3)].
Qed.

Lemma analyze_evolves fn s : collect s = true → ∃ vs,
  verdicts (analyze num_pow Number_ String_ cfg effects f64Bindings retSlot fn s) = verdicts s ++ vs ∧
  map site_of vs `sublist_of` flat_map sites_stmt (fn_body fn).
Proof.
  intros Ec. unfold analyze. destruct (match c_fns cfg !! fn_name fn with Some _ => _ | None => _ end) as [declared seeds].
  assert (H : Forall (λ x, stmt_ok x) (fn_body fn)). { apply Forall_true, execStmt_evolves. }
  pose proof (execStmts_evolves _ H (param_env (fn_params fn) declared seeds ∅) (set_collect true s)) as H1.
  destruct (execStmts _ _ _ _) as [[env o] s1]. destruct H1 as (_ & _ & vs & Hv & Hs). by exists vs.
Qed.
End analyzer.

Section module.
Context (num_pow : num → num → num) (Number_ : string → num) (String_ : num → string).

(** The obligation sites of a function, and of the functions of a module. *)
Definition fn_sites (cfg : IntSlotConfig) (fn : IrFunction) : list site :=
  flat_map (sites_stmt cfg (ret_slot cfg fn)) (fn_body fn).

Lemma analyzeFns_sites m cfg effects fns : ∀ vs, ∃ new,
  foldl (analyzeFn num_pow Number_ String_ m cfg effects) vs fns = vs ++ new ∧ map site_of new `sublist_of` flat_map (fn_sites cfg) fns.
Proof.
  induction fns as [|fn fns IH]; intros vs; simpl.
  - exists []. by rewrite app_nil_r.
  - destruct (analyze_evolves num_pow Number_ String_ cfg effects (seedBindings fn m) (ret_slot cfg fn) fn (mkSt [] true vs ∅) eq_refl)
      as (v1 & E1 & S1). unfold analyzeFn at 2.
    change (analyze _ _ _ _ _ _ _ _ _) with (analyze num_pow Number_ String_ cfg effects (seedBindings fn m) (ret_slot cfg fn) fn (mkSt [] true vs ∅)).
    rewrite E1. simpl. destruct (IH (vs ++ v1)) as (v2 & E2 & S2). exists (v1 ++ v2). rewrite E2, app_assoc. split; [done|].
    rewrite map_app. by apply sublist_app.
Qed.

(** C5. The inference always ends, with a verdict list that is a subsequence
    of the module's obligation sites in evaluation order: for whatever loops
    the header iteration repeats, and whatever arms are analysed twice, no
    obligation is reported more than once, none out of order and none that
    the code does not have. *)
Theorem checkLibraryIntegerSlots_reports (m : IrModule) (cfg : IntSlotConfig) :
  ∃ vs, checkLibraryIntegerSlots num_pow Number_ String_ m cfg = Some vs ∧
        map site_of vs `sublist_of` flat_map (fn_sites cfg) (mod_functions m).
Proof.
  unfold checkLibraryIntegerSlots. destruct (hasIntSlots cfg); simpl; [|exists []; split; [done|apply sublist_nil_l]].
  destruct (closure_exact (w_calls (walk_module m)) (w_writes (walk_module m)) (w_unknown (walk_module m)) (close_fuel (walk_module m))
    (map_fold (λ _ g acc, g ∪ acc) ∅ (w_writes (walk_module m)))) as (eff & E & _); [apply globals_cover|unfold close_fuel; lia|].
  assert (Hm : ∃ e, globalEffectsOf m = Some e) by (exists eff; exact E). destruct Hm as [e ->].
  destruct (analyzeFns_sites m cfg e (mod_functions m) []) as (new & E1 & S1). exists new. by rewrite E1.
Qed.
End module.
