(* ===== verification/IntEnvSound.v ===== *)
(** * Integer-boundary inference: environments describe stores

    A store gives every binding and every static access path its number.  The
    environment operations and branch refinement keep describing the stores
    they should, and the state found for a loop header describes the store at
    the header after any number of trips when the analysis of its parts
    describes each trip. *)

From S2P Require Import Prelude F64 IntDomain IntIR IntEffects IntEnv IntAnalyzer.

(** ** Values *)

Lemma one_ok : wf_num (fin 1) ∧ is_finite (fin 1) = true ∧ key (fin 1) = ONE.
Proof. destruct (fin_spec 1 ltac:(lia)) as (? & ? & K). split_and!; done. Qed.

(** Stepping a bound by a finite number. *)
Lemma wf_step c d : wf_num c → is_nan c = false → wf_num d → is_finite d = true →
  wf_num (num_add c d) ∧ is_nan (num_add c d) = false.
Proof.
  intros Wc Nc Wd Fd. split; [by apply wf_add|]. apply not_true_is_false.
  intros [N|[N|[[_ ->]|[_ ->]]]]%add_nan; [congruence|by destruct d|done..].
Qed.

Lemma refineLhs_wf op a b clearNaN : wf_av a → wf_av b → wf_av (refineLhs op a b clearNaN).
Proof.
  intros Wa Wb. pose proof (keep_wf a clearNaN Wa) as Wk. destruct one_ok as (W1 & F1 & _).
  assert (W2 : wf_num (num_neg (fin 1))) by by apply wf_neg.
  assert (F2 : is_finite (num_neg (fin 1)) = true) by by rewrite neg_finite.
  assert (Hr : ∀ (w : bool) fn x, wf_num x → is_nan x = false → let c := if w then js_round fn x else x in wf_num c ∧ is_nan c = false).
  { intros [|] fn x Wx Nx; [|done]. split; [by apply wf_js_round|by rewrite js_round_nan]. }
  assert (Hs : ∀ (w : bool) fn x d, wf_num x → is_nan x = false → wf_num d → is_finite d = true →
    let c := if w then num_add (js_round fn x) d else x in wf_num c ∧ is_nan c = false).
  { intros [|] fn x d Wx Nx Wd Fd; [|done]. apply wf_step; try done; by apply (Hr true). }
  assert (Hn : ∀ c d, wf_num c → is_nan c = false → wf_num d → is_finite d = true → wf_num (num_add c d) ∧ is_nan (num_add c d) = false)
    by apply wf_step.
  unfold refineLhs. destruct (_ || _); [done|]. destruct op; try done.
  - apply meet_wf; try done; apply (Hs (av_whole a) RCeil); done || apply Wb.
  - apply meet_wf; try done; apply (Hr (av_whole a) RFloor); apply Wb.
  - apply meet_wf; try done; apply (Hs (av_whole a) RFloor); done || apply Wb.
  - apply meet_wf; try done; apply (Hr (av_whole a) RCeil); apply Wb.
  - apply meet_wf; done || apply Wb.
  - destruct (_ && _); [|done]. destruct (num_eq _ _).
    + apply meet_wf; try done; first [apply (Hn (av_lo a)); done || apply Wa|apply Wa].
    + destruct (num_eq _ _); [|done]. apply meet_wf; try done; first [apply (Hn (av_hi a)); done || apply Wa|apply Wa].
Qed.

Lemma refine_bin_wf op branch a b : wf_av a → wf_av b → wf_av (refine_bin op branch a b).1 ∧ wf_av (refine_bin op branch a b).2.
Proof. intros Wa Wb. split; by apply refineLhs_wf. Qed.

(** Truthiness. *)
Lemma refine_toBool_wf v branch : wf_av v → wf_av (refine_toBool v branch).
Proof.
  intros W. unfold refine_toBool. destruct branch; [|apply meet_wf; done || exact (wf_zero false)]. pose proof (clear_nan_wf v W) as Wc. destruct one_ok as (W1 & F1 & _).
  cbv zeta. case_match; [|case_match; [|done]].
  - apply absVal_wf; first [apply Wc|done].
  - apply absVal_wf; first [apply Wc|apply wf_fin; lia|apply fin_not_nan].
Qed.

Lemma refine_toBool_gamma v x : wf_av v → gamma v x → gamma (refine_toBool v (js_truthy x)) x.
Proof.
  intros W G. unfold refine_toBool, js_truthy. destruct (is_nan x) eqn:Nx; simpl.
  { apply meet_sound; try done; congruence. }
  destruct (Z.eqb_spec (key x) 0) as [K|K]; simpl.
  { apply meet_sound; try done. simpl. lia. }
  pose proof (clear_nan_sound v x G Nx) as Gc. pose proof (clear_nan_wf v W) as Wc.
  destruct (gamma_num _ x Gc Nx) as (_ & _ & _ & B). destruct one_ok as (W1 & F1 & K1).
  assert (Hi : av_whole v = true → is_integer x = true) by (intros Hw; by apply (gamma_whole v x)).
  cbv zeta. change (av_whole (clear_nan v)) with (av_whole v). case_match eqn:E1; [|case_match eqn:E2; [|done]].
  - apply andb_true_iff in E1 as [[Hw E]%andb_true_iff _]. apply num_eq_iff in E as (_ & _ & E). simpl in E, B.
    pose proof (int_gap (fin 0) x (fin_integer 0) (Hi Hw) ltac:(rewrite key_fin; lia)). rewrite key_fin in *.
    apply gamma_absVal; first [apply G|apply Wc|apply fin_not_nan|done|rewrite ?key_fin; simpl; lia|intros _ _ _; by apply Hi].
  - apply andb_true_iff in E2 as [[Hw E]%andb_true_iff _]. apply num_eq_iff in E as (_ & _ & E). simpl in E, B.
    pose proof (int_gap x (fin 0) (Hi Hw) (fin_integer 0) ltac:(rewrite key_fin; lia)). rewrite !key_fin in *.
    apply gamma_absVal; first [apply G|apply Wc|apply fin_not_nan|done|rewrite ?key_fin; simpl; lia|intros _ _ _; by apply Hi].
Qed.

(** ** Stores *)

Definition store : Type := string → num.

(** Every record slot on a path holds a number of its declared class. *)
Definition slots_ok (ρ : store) : Prop := ∀ k c, pathClassOfKey k = Some c → gamma (classSeed (cls_name c)) (ρ k).
Record store_ok (ρ : store) : Prop := { so_wf : ∀ k, wf_num (ρ k); so_slots : slots_ok ρ }.

(** [L] is the set of keys in scope. *)
Definition describes (L : string → Prop) (env : Env) (ρ : store) : Prop := ∀ k, L k → gamma (envGet env k) (ρ k).
Definition describesO (L : string → Prop) (env : option Env) (ρ : store) : Prop :=
  match env with Some env => describes L env ρ | None => False end.

Definition wfE (env : Env) : Prop := ∀ k, wf_av (envGet env k).
Definition wfO (env : option Env) : Prop := match env with Some env => wfE env | None => True end.

Lemma classSeed_wf c : wf_av (classSeed (cls_name c)).
Proof.
  assert (W : ∀ z, Z.abs z <= 2 ^ 53 → wf_num (fin z) ∧ is_nan (fin z) = false) by (intros z Hz; split; [by apply wf_fin|apply fin_not_nan]).
  destruct (W (2 ^ 53 - 1) ltac:(lia)). destruct c; apply absVal_wf; try done; try exact (wf_zero false). by apply wf_neg.
Qed.

Lemma defaultVal_wf k : wf_av (defaultVal k).
Proof. unfold defaultVal. destruct (pathClassOfKey k) as [c|]; [apply classSeed_wf|]. destruct (isGlobalId k); [apply TOP_wf|by split]. Qed.

Lemma envGet_insert (env : gmap string AbsVal) k v : envGet (<[k := v]> env) k = v.
Proof. unfold envGet, Env. by rewrite lookup_insert_eq. Qed.
Lemma envGet_insert_ne (env : gmap string AbsVal) k j v : k ≠ j → envGet (<[k := v]> env) j = envGet env j.
Proof. intros H. unfold envGet, Env. by rewrite lookup_insert_ne. Qed.

Lemma wfE_empty : wfE ∅.
Proof. intros k. apply defaultVal_wf. Qed.
Lemma wfE_insert env k v : wf_av v → wfE env → wfE (<[k := v]> env).
Proof. intros Wv We j. destruct (decide (k = j)) as [->|]; [by rewrite envGet_insert|by rewrite envGet_insert_ne]. Qed.
Lemma describes_insert L env k v ρ : gamma v (ρ k) → describes L env ρ → describes L (<[k := v]> env) ρ.
Proof. intros G D j Lj. destruct (decide (k = j)) as [->|]; [by rewrite envGet_insert|rewrite envGet_insert_ne by done; by apply D]. Qed.

(** Forgetting keys. *)
Lemma envGet_delete p (env : gmap string AbsVal) k : envGet (delete_keys p env) k = if p k then defaultVal k else envGet env k.
Proof.
  unfold envGet, delete_keys, Env. destruct (p k) eqn:E.
  - rewrite (proj2 (map_lookup_filter_None _ _ _)); [done|]. right. intros v _. simpl. congruence.
  - f_equal. apply option_eq. intros v. rewrite map_lookup_filter_Some. simpl. naive_solver.
Qed.

Lemma wfE_delete p env : wfE env → wfE (delete_keys p env).
Proof. intros W k. rewrite envGet_delete. destruct (p k); [apply defaultVal_wf|done]. Qed.

(** Facts about paths and globals may be dropped: their defaults describe every store. *)
Lemma default_gamma k ρ : store_ok ρ → is_path k || isGlobalId k = true → gamma (defaultVal k) (ρ k).
Proof.
  intros Hs H. unfold defaultVal. unfold is_path in H. destruct (pathClassOfKey k) as [c|] eqn:E; [by apply Hs|].
  simpl in H. rewrite H. apply gamma_TOP, Hs.
Qed.

Lemma describes_delete L p env ρ : store_ok ρ → (∀ k, L k → p k = true → is_path k || isGlobalId k = true) →
  describes L env ρ → describes L (delete_keys p env) ρ.
Proof. intros Hs Hp D k Lk. rewrite envGet_delete. destruct (p k) eqn:E; [apply default_gamma; auto|by apply D]. Qed.

Lemma clearPathFacts_describes L env ρ : store_ok ρ → describes L env ρ → describes L (clearPathFacts env) ρ.
Proof. intros Hs. apply describes_delete; [done|]. by intros k _ ->. Qed.

(** Combining environments key by key. *)
Lemma envGet_combine f (a b : gmap string AbsVal) k : f (defaultVal k) (defaultVal k) = defaultVal k → envGet (combine f a b) k = f (envGet a k) (envGet b k).
Proof.
  intros Hf. unfold combine, Env. unfold envGet at 1. unfold Env. rewrite map_lookup_imap, lookup_union. unfold envGet, Env.
  destruct (a !! k), (b !! k); simpl; by rewrite ?Hf.
Qed.

Lemma default_idem k : join (defaultVal k) (defaultVal k) = defaultVal k ∧ widen (defaultVal k) (defaultVal k) = defaultVal k.
Proof.
  unfold defaultVal. destruct (pathClassOfKey k) as [[]|]; [split; by vm_compute..|]. destruct (isGlobalId k); split; by vm_compute.
Qed.

Lemma joinEnv_wf a b : wfO a → wfO b → wfO (joinEnv a b).
Proof.
  destruct a as [a|], b as [b|]; try done. intros Wa Wb. apply wfE_delete. intros k.
  rewrite envGet_combine by apply default_idem. by apply join_wf.
Qed.

Lemma joinEnv_describes L a b ρ : store_ok ρ → wfO a → wfO b → describesO L a ρ ∨ describesO L b ρ → describesO L (joinEnv a b) ρ.
Proof.
  intros Hs Wa Wb. destruct a as [a|], b as [b|]; simpl in *; try tauto. intros D. apply clearPathFacts_describes; [done|]. intros k Lk.
  rewrite envGet_combine by apply default_idem. apply join_upper; [done..|]. destruct D as [D|D]; [left|right]; by apply D.
Qed.

Lemma widenEnv_wf a b : wfE a → wfE b → wfE (widenEnv a b).
Proof.
  intros Wa Wb. apply wfE_delete. intros k. rewrite envGet_combine by apply default_idem.
  destruct (isBottom (envGet a k)) eqn:E; [unfold widen; by rewrite E|]. by apply widen_bounds.
Qed.

Lemma widenEnv_describes L a b ρ : store_ok ρ → wfE a → wfE b → describes L b ρ → describes L (widenEnv a b) ρ.
Proof.
  intros Hs Wa Wb D. apply clearPathFacts_describes; [done|]. intros k Lk.
  rewrite envGet_combine by apply default_idem. by apply widen_upper, D.
Qed.

Lemma sameVal_gamma a b x : sameVal a b = true → gamma b x → gamma a x.
Proof.
  unfold sameVal. rewrite !andb_true_iff, !eqb_true_iff. intros [[[[Hl Hh] Hw] Hn] _] [W G].
  apply num_eq_iff in Hl as (Nl & _ & Kl), Hh as (Nh & _ & Kh).
  split; [done|]. destruct (is_nan x) eqn:Nx; [congruence|]. destruct G as (G1 & G2 & G3).
  apply num_le_iff in G1 as (_ & _ & G1), G2 as (_ & _ & G2). split_and!; [apply num_le_iff..|by rewrite Hw]; split_and!; try done; lia.
Qed.

Lemma envEquals_describes L (a b : gmap string AbsVal) ρ : envEquals a b = true → describes L b ρ → describes L a ρ.
Proof.
  unfold envEquals. rewrite bool_decide_eq_true. intros H D k Lk. specialize (D k Lk).
  destruct ((a ∪ b) !! k) as [v|] eqn:E.
  - by apply (sameVal_gamma _ (envGet b k)), D; apply (H k v).
  - apply lookup_union_None in E as [E1 E2]. unfold envGet, Env in *. rewrite E2 in D. by rewrite E1.
Qed.

(** ** Branch refinement *)

Lemma transferMod_wf a b : wf_av a → wf_av b → wf_av (transferMod a b).
Proof.
  intros Wa Wb. apply (transferBin_wf (λ x _, x) OpMod); [done..|]. simpl. unfold transferMod. destruct (_ || _); [done|].
  cbv zeta. destruct (_ && negb _).
  { assert (W := constVal_wf (num_rem (av_lo a) (av_lo b)) None (wf_rem _ _ (wf_lo _ Wa) (wf_lo _ Wb))). split; apply W. }
  set (dMax := math_max _ _).
  assert (Nd : is_nan dMax = false). { unfold dMax. destruct (minmax_nan (math_abs (av_lo b)) (math_abs (av_hi b))) as [_ ->]. rewrite !abs_nan. by rewrite (wf_lo_num _ Wb), (wf_hi_num _ Wb). }
  assert (Wd : wf_num dMax). { apply wf_max; apply wf_abs, Wb. }
  set (bound := if _ : bool then num_sub dMax (fin 1) else dMax).
  assert (Nb : is_nan bound = false).
  { unfold bound. case_match; [|done]. destruct one_ok as (W1 & F1 & _). apply (wf_step dMax); [done|done|by apply wf_neg|by rewrite neg_finite]. }
  unfold bounds_ok, absVal. simpl. rewrite !normZero_nan. split; case_match; by rewrite ?neg_nan.
Qed.

Section refine.
Context (num_pow : num → num → num) (cfg : IntSlotConfig) (L : string → Prop).

Notation evalPure := (evalPure num_pow cfg).
Notation refine := (refine num_pow cfg).

Definition path_key (e : expr) (cls : IntClass) : option string := (pathKey e cls (mkSt [] false [] ∅)).1.
Lemma pathKey_key e cls s : (pathKey e cls s).1 = path_key e cls.
Proof. unfold path_key, pathKey. by destruct (staticAccessPath e) as [[root steps]|]. Qed.

(** The operands of a comparison that are considered: literals, bindings and
    paths in scope, and what is built of them by operations whose transfer
    function has no exception. *)
Fixpoint numeric (e : expr) : Prop :=
  match e with Ex k ty _ =>
    match k with
    | numLit v _ => wf_num v
    | varRef id => is_f64 ty = true ∧ L id
    | recordGet _ shapeId field =>
        is_f64 ty = true ∧ ∃ cls path key, record_slot cfg shapeId field = Some (cls, path) ∧ path_key e cls = Some key ∧ L key
    | unary OpNeg e | unary OpBitNot e => numeric e
    | bin op l r => (op = OpMod ∨ is_bitwise op = true) ∧ numeric l ∧ numeric r
    | libCall f [e] => match mathFn f with Some (MRound _) | Some MAbs => numeric e | _ => False end
    | _ => False
    end
  end.

(** The value of an operand. *)
Fixpoint value (ρ : store) (e : expr) : num :=
  match e with Ex k _ _ =>
    match k with
    | numLit v _ => v
    | varRef id => ρ id
    | recordGet _ shapeId field =>
        match record_slot cfg shapeId field with
        | Some (cls, _) => match path_key e cls with Some key => ρ key | None => NaN end
        | None => NaN
        end
    | unary OpNeg e => num_neg (value ρ e)
    | unary OpBitNot e => js_bitnot (value ρ e)
    | bin op l r => js_bin num_pow op (value ρ l) (value ρ r)
    | libCall f [e] =>
        match mathFn f with Some (MRound fn) => js_round fn (value ρ e) | Some MAbs => math_abs (value ρ e) | _ => NaN end
    | _ => NaN
    end
  end.

Lemma evalPure_wf env e s : numeric e → wfE env → wf_av (evalPure env e s).1.
Proof.
  intros H We. revert e s H. fix IH 1. intros [k ty loc] s H. destruct k; try (by destruct H); simpl in *.
  - by apply constVal_wf.
  - destruct H as [-> _]. apply We.
  - destruct H as (Hop & Hl & Hr). pose proof (IH lft s Hl) as Wl. destruct (evalPure env lft s) as [a s1].
    pose proof (IH rgt s1 Hr) as Wr. destruct (evalPure env rgt s1) as [b s2]. simpl in *.
    destruct Hop as [->|Hop]; [by apply transferMod_wf|]. destruct op; try discriminate Hop; apply transferBitwise_wf.
  - destruct op; [|by destruct H|]; pose proof (IH operand s H) as Wo; destruct (evalPure env operand s) as [a s1]; by apply unary_wf.
  - destruct args as [|e [|]]; try (by destruct H). destruct (mathFn f) as [[fn| |fn|]|]; try (by destruct H);
      simpl; pose proof (IH e s H) as We1; destruct (evalPure env e s) as [a s1]; by apply unary_wf.
  - destruct H as (-> & cls & path & key & E & Ek & _). rewrite E. pose proof (pathKey_key (Ex (recordGet obj shapeId field) ty loc) cls s) as K.
    destruct (pathKey _ cls s) as [key' s1]. simpl in K. subst key'. rewrite Ek. apply We.
Qed.

Lemma evalPure_gamma env ρ e s : numeric e → wfE env → describes L env ρ → gamma (evalPure env e s).1 (value ρ e).
Proof.
  intros H We D. revert e s H. fix IH 1. intros [k ty loc] s H. destruct k; try (by destruct H); simpl in *.
  - by apply gamma_const.
  - destruct H as [-> Lid]. by apply D.
  - destruct H as (Hop & Hl & Hr). pose proof (IH lft s Hl) as Gl. pose proof (evalPure_wf env lft s Hl We) as Wl.
    destruct (evalPure env lft s) as [a s1]. pose proof (IH rgt s1 Hr) as Gr. pose proof (evalPure_wf env rgt s1 Hr We) as Wr.
    destruct (evalPure env rgt s1) as [b s2]. simpl in *.
    destruct Hop as [->|Hop]; [by apply transferMod_sound|]. pose proof (transferBitwise_sound op a b _ _ Hop Wl Wr Gl Gr) as G.
    destruct op; try discriminate Hop; exact G.
  - destruct op; [|by destruct H|]; pose proof (IH operand s H) as Go; pose proof (evalPure_wf env operand s H We) as Wo;
      destruct (evalPure env operand s) as [a s1]; [by apply transferNeg_sound|by apply transferBitNot_sound].
  - destruct args as [|e [|]]; try (by destruct H). destruct (mathFn f) as [[fn| |fn|]|]; try (by destruct H);
      simpl; pose proof (IH e s H) as Ge; pose proof (evalPure_wf env e s H We) as We1; destruct (evalPure env e s) as [a s1];
      [by apply transferMathRound_sound|by apply transferAbs_sound].
  - destruct H as (-> & cls & path & key & E & Ek & Lk). rewrite E. pose proof (pathKey_key (Ex (recordGet obj shapeId field) ty loc) cls s) as K.
    destruct (pathKey _ cls s) as [key' s1]. simpl in K. subst key'. rewrite Ek. by apply D.
Qed.

(** Where a refined operand is stored. *)
Lemma refinementKey_value e allowPaths s ρ : numeric e → ∀ k, (refinementKey cfg e allowPaths s).1 = Some k → value ρ e = ρ k.
Proof.
  intros H k E. destruct e as [ek ty loc]. destruct ek; try discriminate E; simpl in *.
  - by injection E as ->.
  - destruct H as (Hf & cls & path & key & Er & Ek & Lk). rewrite Er in *. rewrite Ek. destruct (_ && _); [|discriminate E].
    rewrite pathKey_key in E. congruence.
Qed.

(** The conditions considered, any other form being left alone. *)
Definition opaque (cond : expr) : bool :=
  match cond with Ex k _ _ =>
    match k with
    | boolLit _ | unary OpNot _ | logical _ _ _ => false
    | bin op l r => negb (CMP_OPS op) || negb (is_f64 (e_ty l)) || negb (is_f64 (e_ty r)) || negb (isPure l) || negb (isPure r)
    | toBool e => negb (is_f64 (e_ty e)) || negb (isPure e)
    | _ => true
    end
  end.
Fixpoint condition (cond : expr) : Prop :=
  opaque cond = true ∨
  match cond with Ex k _ _ =>
    match k with
    | boolLit _ => True
    | unary OpNot e => condition e
    | logical _ l r => condition l ∧ condition r
    | bin op l r => CMP_OPS op = true ∧ numeric l ∧ numeric r
    | toBool e => numeric e
    | _ => False
    end
  end.

(** How a condition is decided: short-circuit evaluation of comparisons.  An
    ordering is not considered false because of NaN (see [failed_edge_drops_nan]). *)
Inductive holds (ρ : store) : expr → bool → Prop :=
  | holds_lit b ty loc : holds ρ (Ex (boolLit b) ty loc) b
  | holds_not e b ty loc : holds ρ e b → holds ρ (Ex (unary OpNot e) ty loc) (negb b)
  | holds_stop isAnd l r ty loc : holds ρ l (negb isAnd) → holds ρ (Ex (logical isAnd l r) ty loc) (negb isAnd)
  | holds_go isAnd l r b ty loc : holds ρ l isAnd → holds ρ r b → holds ρ (Ex (logical isAnd l r) ty loc) b
  | holds_cmp op l r ty loc :
      (CMP op (value ρ l) (value ρ r) = false → (is_nan (value ρ l) = false ∧ is_nan (value ρ r) = false) ∨ op = OpEq ∨ op = OpNe) →
      holds ρ (Ex (bin op l r) ty loc) (CMP op (value ρ l) (value ρ r))
  | holds_bool e ty loc : holds ρ (Ex (toBool e) ty loc) (js_truthy (value ρ e))
  | holds_opaque cond b : opaque cond = true → holds ρ cond b.

Lemma refine_opaque cond branch allowPaths env s : opaque cond = true → refine cond branch allowPaths (Some env) s = (Some env, s).
Proof.
  destruct cond as [k ty loc]. destruct k; try done; simpl; try (by destruct op).
  - by destruct (negb (CMP_OPS op)), (negb (is_f64 (e_ty lft))), (negb (is_f64 (e_ty rgt))), (negb (isPure lft)), (negb (isPure rgt)).
  - by intros ->.
Qed.

Lemma refine_none cond branch allowPaths s : refine cond branch allowPaths None s = (None, s).
Proof. by destruct cond as [[] ? ?]. Qed.

Lemma insert_opt_wf k v env : wf_av v → wfE env → wfE (match k with Some k => <[k := v]> env | None => env end).
Proof. destruct k; [apply wfE_insert|done]. Qed.
Lemma insert_opt_describes k v env ρ : (∀ j, k = Some j → gamma v (ρ j)) → describes L env ρ →
  describes L (match k with Some k => <[k := v]> env | None => env end) ρ.
Proof. destruct k as [k|]; [|done]. intros H. by apply describes_insert, H. Qed.

(** The environment after a comparison. *)
Lemma refine_cmp op l r ty loc branch allowPaths env s : opaque (Ex (bin op l r) ty loc) = false → ∃ s1 s2 s3,
  let ab := refine_bin op branch (evalPure env l s).1 (evalPure env r s1).1 in
  let env1 := match (refinementKey cfg l allowPaths s2).1 with Some k => <[k := ab.1]> env | None => env end in
  (refine (Ex (bin op l r) ty loc) branch allowPaths (Some env) s).1 =
    Some (match (refinementKey cfg r allowPaths s3).1 with Some k => <[k := ab.2]> env1 | None => env1 end).
Proof.
  simpl. destruct (negb (CMP_OPS op)), (negb (is_f64 (e_ty l))), (negb (is_f64 (e_ty r))), (negb (isPure l)), (negb (isPure r)); try done. intros _. simpl.
  destruct (evalPure env l s) as [a s1] eqn:E1. destruct (evalPure env r s1) as [b s2] eqn:E2.
  destruct (refinementKey cfg l allowPaths s2) as [lk s3] eqn:E3. destruct (refinementKey cfg r allowPaths s3) as [rk s4] eqn:E4.
  exists s1, s2, s3. rewrite E2, E3, E4. simpl. by destruct (refine_bin op branch a b).
Qed.

Lemma refine_truthy e ty loc branch allowPaths env s : opaque (Ex (toBool e) ty loc) = false → ∃ s1,
  (refine (Ex (toBool e) ty loc) branch allowPaths (Some env) s).1 =
    Some (match (refinementKey cfg e allowPaths s).1 with Some k => <[k := refine_toBool (evalPure env e s1).1 branch]> env | None => env end).
Proof.
  simpl. destruct (negb (is_f64 (e_ty e))), (negb (isPure e)); try done. intros _. simpl.
  destruct (refinementKey cfg e allowPaths s) as [[k|] s1]; exists s1; [|done]. by destruct (evalPure env e s1).
Qed.

Lemma refine_logical isAnd l r ty loc branch allowPaths env s : ∃ s1 s2 s3,
  (refine (Ex (logical isAnd l r) ty loc) branch allowPaths (Some env) s).1 =
    if Bool.eqb isAnd branch then (refine r branch allowPaths (refine l branch allowPaths (Some env) s).1 s1).1
    else joinEnv (refine l branch allowPaths (Some env) s).1
           (refine r branch allowPaths (refine l (negb branch) allowPaths (Some env) s2).1 s3).1.
Proof.
  simpl. destruct (Bool.eqb isAnd branch).
  - destruct (refine l branch allowPaths (Some env) s) as [env1 s1] eqn:E. exists s1, s1, s1. done.
  - destruct (refine l branch allowPaths (Some env) s) as [env1 s1] eqn:E1.
    destruct (refine l (negb branch) allowPaths (Some env) s1) as [env2 s2] eqn:E2.
    exists s1, s1, s2. rewrite E2. simpl. by destruct (refine r branch allowPaths env2 s2).
Qed.

Lemma refine_wf cond : ∀ branch allowPaths env s, condition cond → wfO env → wfO (refine cond branch allowPaths env s).1.
Proof.
  revert cond. fix IH 1. intros cond branch allowPaths env s C W. destruct env as [env|]; [|by rewrite refine_none].
  destruct (opaque cond) eqn:Ho; [by rewrite refine_opaque|]. destruct cond as [k ty loc]. destruct k; try discriminate Ho.
  - simpl. by destruct (Bool.eqb _ _).
  - destruct C as [C|(Hc & Hl & Hr)]; [exact (False_ind _ (eq_true_false_abs _ C Ho))|].
    destruct (refine_cmp op lft rgt ty loc branch allowPaths env s Ho) as (s1 & s2 & s3 & ->).
    pose proof (refine_bin_wf op branch _ _ (evalPure_wf env lft s Hl W) (evalPure_wf env rgt s1 Hr W)) as [Wa Wb].
    apply insert_opt_wf; [exact Wb|]. apply insert_opt_wf; [exact Wa|exact W].
  - destruct op; try discriminate Ho. destruct C as [C|C]; [exact (False_ind _ (eq_true_false_abs _ C Ho))|]. exact (IH operand _ _ _ _ C W).
  - destruct C as [C|C]; [exact (False_ind _ (eq_true_false_abs _ C Ho))|].
    destruct (refine_truthy operand ty loc branch allowPaths env s Ho) as (s1 & ->).
    apply insert_opt_wf; [apply refine_toBool_wf; exact (evalPure_wf env operand s1 C W)|exact W].
  - destruct C as [C|[Cl Cr]]; [exact (False_ind _ (eq_true_false_abs _ C Ho))|].
    destruct (refine_logical isAnd lft rgt ty loc branch allowPaths env s) as (s1 & s2 & s3 & ->).
    assert (Hl : ∀ b s, wfO (refine lft b allowPaths (Some env) s).1) by (intros b s'; exact (IH lft b allowPaths (Some env) s' Cl W)).
    destruct (Bool.eqb isAnd branch).
    + exact (IH rgt _ _ _ _ Cr (Hl _ _)).
    + apply joinEnv_wf; [exact (Hl _ _)|exact (IH rgt _ _ _ _ Cr (Hl _ _))].
Qed.

Lemma refine_describes ρ cond branch : holds ρ cond branch → store_ok ρ → condition cond →
  ∀ allowPaths env s, wfE env → describes L env ρ → describesO L (refine cond branch allowPaths (Some env) s).1 ρ.
Proof.
  intros H Hs. assert (Hop : ∀ cond b allowPaths env s, opaque cond = true → describes L env ρ →
      describesO L (refine cond b allowPaths (Some env) s).1 ρ) by (intros; by rewrite refine_opaque).
  induction H as [b ty loc|e b ty loc Hb IH|isAnd l r ty loc Hl IHl|isAnd l r b ty loc Hl IHl Hr IHr|op l r ty loc Hn|e ty loc|cond b Ho];
    intros C allowPaths env s W D; [| | | | | |by apply Hop].
  - simpl. by rewrite eqb_reflx.
  - destruct C as [C|C]; [done|]. simpl. rewrite negb_involutive. by apply IH.
  - destruct C as [C|[Cl Cr]]; [done|]. destruct (refine_logical isAnd l r ty loc (negb isAnd) allowPaths env s) as (s1 & s2 & s3 & ->).
    rewrite eqb_negb2. apply joinEnv_describes; [done|by apply refine_wf..| |left; by apply IHl].
    apply refine_wf; [done|]. by apply refine_wf.
  - destruct C as [C|[Cl Cr]]; [done|]. destruct (refine_logical isAnd l r ty loc b allowPaths env s) as (s1 & s2 & s3 & ->).
    assert (Hright : ∀ s s', describesO L (refine r b allowPaths (refine l isAnd allowPaths (Some env) s).1 s').1 ρ).
    { intros t t'. pose proof (IHl Cl allowPaths env t W D) as Dl. pose proof (refine_wf l isAnd allowPaths (Some env) t Cl W) as Wl.
      destruct (refine l isAnd allowPaths (Some env) t).1 as [e1|]; [|done]. by apply IHr. }
    destruct (Bool.eqb isAnd b) eqn:E.
    + apply eqb_prop in E. subst b. apply Hright.
    + assert (negb b = isAnd) as -> by (by destruct isAnd, b). apply joinEnv_describes; [done| | |right; apply Hright].
      * by apply refine_wf.
      * apply refine_wf; [done|]. by apply refine_wf.
  - destruct (opaque (Ex (bin op l r) ty loc)) eqn:Ho; [by apply Hop|]. destruct C as [C|(Hc & Nl & Nr)]; [congruence|].
    destruct (refine_cmp op l r ty loc (CMP op (value ρ l) (value ρ r)) allowPaths env s Ho) as (s1 & s2 & s3 & ->).
    destruct (refine_bin_gamma op (CMP op (value ρ l) (value ρ r)) (evalPure env l s).1 (evalPure env r s1).1 (value ρ l) (value ρ r) Hc) as [Ga Gb];
      try done; try (by apply evalPure_wf); try (by apply evalPure_gamma).
    apply insert_opt_describes; [|apply insert_opt_describes; [|done]]; intros j Hj; apply refinementKey_value with (ρ := ρ) in Hj; congruence.
  - destruct (opaque (Ex (toBool e) ty loc)) eqn:Ho; [by apply Hop|]. destruct C as [C|C]; [congruence|].
    destruct (refine_truthy e ty loc (js_truthy (value ρ e)) allowPaths env s Ho) as (s1 & ->).
    apply insert_opt_describes; [|done]. intros j Hj. apply refinementKey_value with (ρ := ρ) in Hj; [|done]. rewrite <- Hj.
    apply refine_toBool_gamma; [by apply evalPure_wf|by apply evalPure_gamma].
Qed.
End refine.

(** ** Loop headers *)

Section header.
Context (num_pow : num → num → num) (cfg : IntSlotConfig) (o : loop_opts) (L : string → Prop).

(** The back edge of a trip analysed from [head]. *)
Definition back_edge (head : Env) (s : st) : option Env := (runLoopBodyOnce num_pow cfg o head s).1.1.1.

(** The stores one trip of the loop leads to, and that the analysis of the
    loop's parts describes them. *)
Context (trip : store → store → Prop).
Hypothesis back_wf : ∀ head s, wfE head → wfO (back_edge head s).
Hypothesis back_sound : ∀ head s ρ ρ', wfE head → describes L head ρ → store_ok ρ → trip ρ ρ' → describesO L (back_edge head s) ρ'.
Hypothesis trip_ok : ∀ ρ ρ', store_ok ρ → trip ρ ρ' → store_ok ρ'.

Definition stable (head : Env) : Prop := ∀ ρ ρ', store_ok ρ → describes L head ρ → trip ρ ρ' → describes L head ρ'.
Definition covers (h head : Env) : Prop := ∀ ρ, store_ok ρ → describes L head ρ → describes L h ρ.

Lemma envGet_all_top (env : gmap string AbsVal) k : envGet (all_top env) k = TOP ∨ envGet (all_top env) k = envGet env k ∧ envGet env k = defaultVal k.
Proof. unfold envGet, all_top, Env. rewrite lookup_fmap. destruct (env !! k); simpl; auto. Qed.

Lemma all_top_covers env : covers (all_top env) env.
Proof.
  intros ρ Hs D k Lk. destruct (envGet_all_top env k) as [->|[-> _]]; [by apply gamma_TOP, Hs|by apply D].
Qed.

Lemma default_any k ρ ρ' : store_ok ρ' → gamma (defaultVal k) (ρ k) → gamma (defaultVal k) (ρ' k).
Proof.
  intros Hs G. destruct (is_path k || isGlobalId k) eqn:E; [by apply default_gamma|]. exfalso. apply orb_false_iff in E as [E1 E2].
  revert G. unfold defaultVal, is_path in *. destruct (pathClassOfKey k); [done|]. rewrite E2. by apply bottom_empty.
Qed.

Lemma all_top_stable env : stable (all_top env).
Proof.
  intros ρ ρ' Hs D T k Lk. specialize (D k Lk). pose proof (trip_ok ρ ρ' Hs T) as Hs'.
  destruct (envGet_all_top env k) as [E|[E1 E2]]; [rewrite E; by apply gamma_TOP, Hs'|].
  rewrite E1, E2 in *. by apply (default_any k ρ).
Qed.

(** What the header state becomes after a trip. *)
Definition next_head (joins : nat) (head : Env) (back : option Env) : Env :=
  let next := default head (joinEnv (Some head) back) in
  if (WIDEN_AFTER <? S joins)%nat then widenEnv head next else next.

Lemma next_head_spec joins head back : wfE head → wfO back →
  wfE (next_head joins head back) ∧ covers (next_head joins head back) head ∧
  (∀ ρ, store_ok ρ → describesO L back ρ → describes L (next_head joins head back) ρ).
Proof.
  intros Wh Wb. assert (H : ∃ j, joinEnv (Some head) back = Some j) by (destruct back; eauto). destruct H as [j Ej].
  assert (Wj : wfE j). { pose proof (joinEnv_wf (Some head) back Wh Wb) as H. by rewrite Ej in H. }
  assert (Dj : ∀ ρ, store_ok ρ → describes L head ρ ∨ describesO L back ρ → describes L j ρ).
  { intros ρ Hs D. pose proof (joinEnv_describes L (Some head) back ρ Hs Wh Wb D) as H. by rewrite Ej in H. }
  unfold next_head. rewrite Ej. simpl default. cbv zeta. destruct (_ <? _)%nat; (split_and!; [try done; by apply widenEnv_wf|..]);
    intros ρ Hs D; first [apply widenEnv_describes; try done; by apply Dj; auto|apply Dj; auto].
Qed.

Lemma header_spec n : ∀ joins head s, wfE head →
  let h := (header num_pow cfg o (S n) joins head s).1 in wfE h ∧ covers h head ∧ stable h.
Proof.
  induction n as [|n IH]; intros joins head s Wh; cbn [header];
    pose proof (back_wf head s Wh) as Wb; pose proof (back_sound head s) as Sb; unfold back_edge in Wb, Sb;
    destruct (runLoopBodyOnce num_pow cfg o head s) as [[[back post] f] s1]; simpl in Wb, Sb; cbv zeta;
    fold (next_head joins head back); destruct (next_head_spec joins head back Wh Wb) as (Wn & Cn & Bn);
    destruct (envEquals head (next_head joins head back)) eqn:Ee; cbn [fst snd].
  1,3: split_and!; [done|by intros ?|]; intros ρ ρ' Hs D T; apply (envEquals_describes L _ _ _ Ee), Bn; [by apply (trip_ok ρ)|by apply (Sb ρ)].
  - simpl. split_and!; [|intros ρ Hs D; by apply all_top_covers, Cn|apply all_top_stable].
    intros k. destruct (envGet_all_top (next_head joins head back) k) as [->|[-> _]]; [apply TOP_wf|done].
  - simpl Nat.eqb. cbv iota. destruct (IH (S joins) (next_head joins head back) s1 Wn) as (H1 & H2 & H3). split_and!; [done| |done].
    intros ρ Hs D. by apply H2, Cn.
Qed.
End header.

(** ** The theorems *)

(** Branch refinement is sound: on a store where a condition (negations,
    short-circuit connectives, truthiness tests and comparisons of operands
    with exact transfer functions, any other form being left alone) has the
    value of an edge, the refined environment exists and still describes the
    store, in whatever binding or path the facts are recorded. *)
Theorem refine_sound num_pow cfg (L : string → Prop) ρ cond branch allowPaths env s :
  condition cfg L cond → holds num_pow cfg ρ cond branch → store_ok ρ → wfE env → describes L env ρ →
  ∃ env', (refine num_pow cfg cond branch allowPaths (Some env) s).1 = Some env' ∧ wfE env' ∧ describes L env' ρ.
Proof.
  intros C H Hs W D. pose proof (refine_wf num_pow cfg L cond branch allowPaths (Some env) s C W) as W'.
  pose proof (refine_describes num_pow cfg L ρ cond branch H Hs C allowPaths env s W D) as D'.
  destruct (refine _ _ _ _ _ _ _).1 as [env'|]; [by exists env'|done].
Qed.

(** [!(x < 3 || 7 <= x)] on the edge where it is true, with [x] in [0, 100]. *)
Definition w_ty : IrType := mkType "f64" "f64".
Definition w_ex (k : ekind) : expr := Ex k w_ty (mkLoc "" 0 0).
Definition w_lt (a b : expr) (op : IrNumBinOp) : expr := w_ex (bin op a b).
Definition w_lit (z : Z) : expr := w_ex (numLit (fin z) None).
Definition w_x : expr := w_ex (varRef "x").
Definition w_cond : expr := w_ex (unary OpNot (w_ex (logical false (w_lt w_x (w_lit 3) OpLt) (w_lt (w_lit 7) w_x OpLe)))).
Definition w_store (z : Z) : store := λ _, fin z.
Definition w_cfg : IntSlotConfig := mkCfg ∅ ∅.
Definition w_L (k : string) : Prop := k = "x".
Definition w_env : Env := {["x" := int_interval 0 100]}.

Lemma w_store_ok z : 0 <= z <= 100 → store_ok (w_store z).
Proof.
  intros Hz. split; [intros k; apply wf_fin; lia|]. intros k c _.
  assert (H : ∀ lo hi, lo <= z <= hi → Z.abs lo <= 2 ^ 53 → Z.abs hi <= 2 ^ 53 → gamma (absVal (fin lo) (fin hi) true false None) (fin z))
    by (intros; by apply int_interval_gamma).
  destruct c; [apply (H (- (2 ^ 53 - 1)) (2 ^ 53 - 1)); lia|apply (H 0 (2 ^ 53 - 1)); lia].
Qed.

Lemma w_env_wf : wfE w_env.
Proof. apply wfE_insert; [apply int_interval_wf; lia|apply wfE_empty]. Qed.
Lemma w_env_describes z : 0 <= z <= 100 → describes w_L w_env (w_store z).
Proof. intros Hz k ->. change (envGet w_env "x") with (int_interval 0 100). apply int_interval_gamma; lia. Qed.

Example refine_sound_witness :
  let num_pow := λ x _ : num, x in
  ∃ env', (refine num_pow w_cfg w_cond true false (Some w_env) (mkSt [] false [] ∅)).1 = Some env' ∧
          envGet env' "x" = int_interval 3 6 ∧ wfE env' ∧ describes w_L env' (w_store 5).
Proof.
  intros num_pow. destruct (refine_sound num_pow w_cfg w_L (w_store 5) w_cond true false w_env (mkSt [] false [] ∅)) as (env' & E & W & D).
  - assert (wf_num (fin 3) ∧ wf_num (fin 7)) as [? ?] by (split; apply wf_fin; lia). simpl. right; right; split; right; split_and!; done.
  - apply (holds_not _ _ _ _ false). apply (holds_go _ _ _ false). 
    + apply (holds_cmp num_pow w_cfg (w_store 5) OpLt). intros _. left. split; apply fin_not_nan.
    + apply (holds_cmp num_pow w_cfg (w_store 5) OpLe). intros _. left. split; apply fin_not_nan.
  - apply w_store_ok; lia.
  - exact w_env_wf.
  - apply w_env_describes; lia.
  - exists env'. split; [exact E|]. split; [|by split]. revert E. vm_compute. by intros [= <-].
Defined.

(** The fixpoint search at a loop header, for any loop whose parts are described
    trip by trip: if analysing the parts once from a state describes what one
    trip of [trip] does to the stores of that state, then the state the header
    settles on, by joins, by widening or by giving up at the iteration cap,
    describes the store on entry and after any number of trips.  That one trip
    is described is a hypothesis here, not a fact about every body. *)
Theorem header_invariant num_pow cfg o (L : string → Prop) (trip : store → store → Prop) env s ρ ρ' :
  (∀ head s, wfE head → wfO (back_edge num_pow cfg o head s)) →
  (∀ head s ρ ρ', wfE head → describes L head ρ → store_ok ρ → trip ρ ρ' → describesO L (back_edge num_pow cfg o head s) ρ') →
  (∀ ρ ρ', store_ok ρ → trip ρ ρ' → store_ok ρ') →
  wfE env → store_ok ρ → describes L env ρ → rtc trip ρ ρ' →
  describes L (header num_pow cfg o LOOP_CAP 0 (clearPathFacts env) s).1 ρ'.
Proof.
  intros Hw Hb Ho W Hs D Ht.
  destruct (header_spec num_pow cfg o L trip Hw Hb Ho 63 0 (clearPathFacts env) s (wfE_delete _ _ W)) as (_ & Hc & Hst).
  specialize (Hc ρ Hs (clearPathFacts_describes L env ρ Hs D)). revert Hs Hc.
  clear D. change (S 63) with LOOP_CAP. induction Ht as [ρ|ρ ρ1 ρ2 H1 _ IH]; intros Hs Hc; [done|].
  apply IH; [by apply (Ho ρ)|by apply (Hst ρ)].
Qed.

(** [for (;;) x = 5], entered with [x] in [0, 100]. *)
Definition w_pow (x _ : num) : num := x.
Definition w_exec : stmt → Env → st → flow := execStmt w_pow (λ _, NaN) (λ _, EmptyString) w_cfg (mkEffects ∅ ∅) {["x"]} None.
Definition w_loop : loop_opts :=
  mkLoop None (λ env s, (env, s)) (execStmts w_exec [St (assign "x" (w_lit 5)) (mkLoc "" 0 0)]) None [] false None false.
Definition w_trip (ρ ρ' : store) : Prop := ρ' = w_store 5.

Lemma w_back head s : ∃ p, back_edge w_pow w_cfg w_loop head s = Some (<["x" := constVal (fin 5) None]> (delete_keys p head)).
Proof. by eexists. Qed.

Example header_invariant_witness : describes w_L (header w_pow w_cfg w_loop LOOP_CAP 0 (clearPathFacts w_env) (mkSt [] false [] ∅)).1 (w_store 5).
Proof.
  assert (W5 : wf_num (fin 5)) by (apply wf_fin; lia).
  apply (header_invariant w_pow w_cfg w_loop w_L w_trip w_env (mkSt [] false [] ∅) (w_store 42) (w_store 5)).
  - intros head s W. destruct (w_back head s) as [p ->]. apply wfE_insert; [by apply constVal_wf|by apply wfE_delete].
  - intros head s ρ ρ' W D Hs ->. destruct (w_back head s) as [p ->]. intros k ->. rewrite envGet_insert. by apply gamma_const.
  - intros ρ ρ' _ ->. apply w_store_ok; lia.
  - exact w_env_wf.
  - apply w_store_ok; lia.
  - apply w_env_describes; lia.
  - by apply rtc_once.
Defined.
