(* ===== verification/IntPrograms.v ===== *)
(** * Integer-boundary inference on whole programs

    The analyzer of IntAnalyzer run on small modules: bounds it proves of a
    counting loop, and programs on which it proves a bound the code breaks. *)

From S2P Require Import Prelude F64 IntDomain IntIR IntEffects IntEnv IntAnalyzer.

#[local] Open Scope string_scope.

Section programs.
Context (num_pow : num → num → num) (Number_ : string → num) (String_ : num → string).

Definition f64 : IrType := mkType "f64" "{kind:f64}".
Definition bool_ : IrType := mkType "bool" "{kind:bool}".
Definition here : SrcLoc := mkLoc "a.ts" 0 1.
Definition E (k : ekind) : expr := Ex k f64 here.
Definition B (k : ekind) : expr := Ex k bool_ here.
Definition S_ (k : skind) : stmt := St k here.
Definition int (z : Z) : expr := E (numLit (fin z) None).
Definition half : expr := E (numLit (Fin (ONE / 2)) None).
Definition var (id : string) : expr := E (varRef id).
Definition ret (e : expr) : stmt := S_ (return_ (Some e)).
Definition set (id : string) (e : expr) : stmt := S_ (assign id e).

(** One function [f] of [params] and [locals], and a global; [f] declares a
    result of class [c], the external [g] an [i64] parameter. *)
Definition program (params : list (string * bool)) (locals : list string) (body : list stmt) : IrModule :=
  mkModule [mkFn "f" (map (λ p, mkParam p.1 f64) params)
              (map (λ p, mkLocal p.1 f64 p.2) params ++ map (λ l, mkLocal l f64 false) locals)%list body] [mkGlobal "%g.m.x" f64].
Definition cfg (c : IntClass) (params : list (option IntClass)) : IntSlotConfig :=
  mkCfg {["f" := mkSlots params [] (Some c) None []; "g" := mkSlots [Some I64] [] None None []]} ∅.

Definition verdicts_of (c : IntClass) (m : IrModule) (params : list (option IntClass)) : option (list outcome) :=
  map v_outcome <$> checkLibraryIntegerSlots num_pow Number_ String_ m (cfg c params).

(** [let i = 0; while (i < 10) i = i + 1; return i] *)
Definition counting : list stmt := [
  S_ (varDecl "i" (Some (int 0)));
  S_ (while_ (B (bin OpLt (var "i") (int 10))) [set "i" (E (bin OpAdd (var "i") (int 1)))] []);
  ret (var "i")].

(** [let i = 0; try { throw i } catch { i = 0.5; throw i } finally { g(i) }] *)
Definition finally_after_catch : list stmt := [
  S_ (varDecl "i" (Some (int 0)));
  S_ (tryCatch [S_ (throw (var "i"))] (Some [set "i" half; S_ (throw (var "i"))]) (Some [S_ (exprStmt (E (call "g" [var "i"])))]))].

(** [let i = 0; try { (i = 0.5) inside a record literal; throw i } catch { return i }] *)
Definition assigned_in_record : list stmt := [
  S_ (varDecl "i" (Some (int 0)));
  S_ (tryCatch [S_ (exprStmt (E (recordLit "r" [("a", E (assignExpr "i" half))]))); S_ (throw (var "i"))] (Some [ret (var "i")]) None)].

(** [let i = 0; switch (1) { default: return i; case (i = 0.5): return 0 }] *)
Definition default_before_case : list stmt := [
  S_ (varDecl "i" (Some (int 0)));
  S_ (switch (int 1) [(None, [ret (var "i")]); (Some (E (assignExpr "i" half)), [ret (int 0)])] [])].

(** [x = 0; new Promise(() => { x = 0.5 }); return x], for a module variable [x]. *)
Definition promise_executor : list stmt := [
  set "%g.m.x" (int 0);
  S_ (exprStmt (Ex (node (OtherKind "newPromise") [Direct (Ex (node (OtherKind "closure") []) (mkType "func" "func") here)])
                   (mkType "promise" "promise") here));
  ret (var "%g.m.x")].

(** [x = 0; while (step()) return 0; return x], where [step] may write [x]. *)
Definition writing_condition : list stmt := [
  set "%g.m.x" (int 0);
  S_ (while_ (B (call "step" [])) [ret (int 0)] []);
  ret (var "%g.m.x")].

(** [x = 0; await p; return x] *)
Definition across_await : list stmt := [
  set "%g.m.x" (int 0);
  S_ (exprStmt (E (node AwaitExpr [Direct (Ex (varRef "p") (mkType "promise" "promise") here)])));
  ret (var "%g.m.x")].

(** [function f(p) { p = -1; const y = ~g(); if (y === p) return y; return 0 }],
    with [p] captured, hence boxed, and declared [u64] as the result is. *)
Definition captured_parameter : list stmt := [
  set "p" (int (-1));
  S_ (varDecl "y" (Some (E (unary OpBitNot (E (call "g" []))))));
  S_ (if_ (B (bin OpEq (var "y") (var "p"))) [ret (var "y")] None);
  ret (int 0)].

Lemma counting_proves : verdicts_of I64 (program [] ["i"] counting) [] = Some [Prove (fin 10) (fin (2 ^ 31 - 1))].
Proof. vm_compute. reflexivity. Qed.

(** The catch body's assignments are not in the state the finally body is
    entered with when the catch body throws: [i] is 0.5 there. *)
Lemma finally_misses_catch : verdicts_of I64 (program [] ["i"] finally_after_catch) [] = Some [Prove (fin 0) (fin 0)].
Proof. vm_compute. reflexivity. Qed.

(** Assignments below a record literal are not havoced for the catch body. *)
Lemma catch_misses_record : verdicts_of I64 (program [] ["i"] assigned_in_record) [] = Some [Prove (fin 0) (fin 0)].
Proof. vm_compute. reflexivity. Qed.

(** A default clause is entered with the state before the tests that follow it. *)
Lemma default_misses_tests : verdicts_of I64 (program [] ["i"] default_before_case) [] =
  Some [Prove (fin 0) (fin 0); Prove (fin 0) (fin 0)].
Proof. vm_compute. reflexivity. Qed.

(** A module variable keeps its value over code of others: an executor, which
    runs at once, and whatever runs while the function awaits. *)
Lemma globals_kept_over_calls :
  verdicts_of I64 (program [] [] promise_executor) [] = Some [Prove (fin 0) (fin 0)] ∧
  verdicts_of I64 (program [] [] across_await) [] = Some [Prove (fin 0) (fin 0)].
Proof. vm_compute. done. Qed.

(** What a loop condition writes is lost on the exit edge. *)
Lemma condition_effects_lost : verdicts_of I64 (program [] [] writing_condition) [] =
  Some [Prove (fin 0) (fin 0); Prove (fin 0) (fin 0)].
Proof. vm_compute. reflexivity. Qed.

(** A captured parameter refines another binding by its entry range, whatever
    was assigned to it since. *)
Lemma captured_refines : verdicts_of U64 (program [("p", true)] ["y"] captured_parameter) [Some U64] =
  Some [Prove (fin 0) (fin (2 ^ 31 - 1)); Prove (fin 0) (fin 0)].
Proof. vm_compute. reflexivity. Qed.
End programs.
