(* ===== verification/Wyhash.v ===== *)
(** * Library identity hashes

    src/packages/compiler/src/library/wyhash.ts: wyhash-64 over BigInt, the
    length-prefixed stream it runs over, the hexadecimal form, and the two
    identity values of src/packages/compiler/src/library/sidecar.ts made of
    them.  A read of the data past its end is [undefined], which [BigInt]
    refuses and a Number operator takes for 0. *)

From S2P Require Import Prelude Bytes.

(** ** The hash *)

Definition MASK64 : Z := Z.shiftl 1 64 - 1.
Definition P0 : Z := 0xa0761d6478bd642f.
Definition P1 : Z := 0xe7037ed1a0b428db.
Definition P2 : Z := 0x8ebc6af09c88c6e3.
Definition P3 : Z := 0x589965cc75374cc3.

(** [d[o]] *)
Definition at_ (d : list Z) (o : Z) : option Z := if o <? 0 then None else d !! Z.to_nat o.

(** [BigInt(d[o])] *)
Definition big_at (d : list Z) (o : Z) : res Z :=
  match at_ d o with Some b => Ok b | None => Throw "Cannot convert undefined to a BigInt"%string end.

(** 64x64 to 128 bits, folded. *)
Definition wymix (a b : Z) : Z :=
  let r := Z.land a MASK64 * Z.land b MASK64 in
  Z.land (Z.lxor (Z.land r MASK64) (Z.shiftr r 64)) MASK64.

Definition wyr8 (d : list Z) (o : Z) : res Z :=
  res_fold (λ i v, let* b := big_at d (o + i) in Ok (Z.lor (Z.shiftl v 8) b)) [7; 6; 5; 4; 3; 2; 1; 0] 0.

(** [d[o]] as an operand of [|] and [<<]. *)
Definition num_at (d : list Z) (o : Z) : Z := default 0 (at_ d o).

Definition wyr4 (d : list Z) (o : Z) : res Z :=
  let n := js_or (js_or (num_at d o) (js_shl (num_at d (o + 1)) 8)) (js_shl (num_at d (o + 2)) 16) in
  let* b := big_at d (o + 3) in
  Ok (Z.lor n (Z.shiftl b 24)).

Definition wyr3 (d : list Z) (o k : Z) : Z :=
  js_or (js_or (js_shl (num_at d o) 16) (js_shl (num_at d (o + js_shr k 1)) 8)) (num_at d (o + k - 1)).

(** [do { ... } while (i > 48)]: seed, see1, see2, p and i. *)
Fixpoint loop48 (fuel : nat) (d : list Z) (seed see1 see2 p i : Z) : res (Z * Z * Z * Z * Z) :=
  match fuel with
  | O => Throw "still running"%string
  | S fuel =>
      let* a0 := wyr8 d p in let* b0 := wyr8 d (p + 8) in
      let seed := wymix (Z.lxor a0 P1) (Z.lxor b0 seed) in
      let* a1 := wyr8 d (p + 16) in let* b1 := wyr8 d (p + 24) in
      let see1 := wymix (Z.lxor a1 P2) (Z.lxor b1 see1) in
      let* a2 := wyr8 d (p + 32) in let* b2 := wyr8 d (p + 40) in
      let see2 := wymix (Z.lxor a2 P3) (Z.lxor b2 see2) in
      let p := p + 48 in
      let i := i - 48 in
      if 48 <? i then loop48 fuel d seed see1 see2 p i else Ok (seed, see1, see2, p, i)
  end.

(** [while (i > 16)]: seed, p and i. *)
Fixpoint loop16 (fuel : nat) (d : list Z) (seed p i : Z) : res (Z * Z * Z) :=
  match fuel with
  | O => Throw "still running"%string
  | S fuel =>
      if 16 <? i then
        let* a := wyr8 d p in let* b := wyr8 d (p + 8) in
        loop16 fuel d (wymix (Z.lxor a P1) (Z.lxor b seed)) (p + 16) (i - 16)
      else Ok (seed, p, i)
  end.

Definition wyhash64 (data : list Z) (seed : Z) : res Z :=
  let len := Z.of_nat (length data) in
  let fuel := S (length data) in
  let seed := Z.land (Z.lxor seed P0) MASK64 in
  let* ' (a, b, seed) :=
    if len <=? 16 then
      if 4 <=? len then
        let q := js_shl (js_shr len 3) 2 in
        let* a1 := wyr4 data 0 in let* a2 := wyr4 data q in
        let* b1 := wyr4 data (len - 4) in let* b2 := wyr4 data (len - 4 - q) in
        Ok (Z.lor (Z.shiftl a1 32) a2, Z.lor (Z.shiftl b1 32) b2, seed)
      else if 0 <? len then Ok (wyr3 data 0 len, 0, seed)
      else Ok (0, 0, seed)
    else
      let* ' (seed, p, i) :=
        if 48 <? len then
          let* ' (seed, see1, see2, p, i) := loop48 fuel data seed seed seed 0 len in
          Ok (Z.lxor (Z.lxor seed see1) see2, p, i)
        else Ok (seed, 0, len) in
      let* ' (seed, p, i) := loop16 fuel data seed p i in
      let* a := wyr8 data (p + i - 16) in let* b := wyr8 data (p + i - 8) in
      Ok (a, b, seed) in
  Ok (wymix (Z.lxor P1 len) (wymix (Z.lxor a P1) (Z.lxor b seed))).

(** ** The stream *)

(** One chunk written at [o]: eight bytes of its length, then its bytes. *)
Fixpoint write_len (k : nat) (n : Z) (o : nat) (out : list Z) : list Z :=
  match k with
  | O => out
  | S k => write_len k (n / 256) (S o) (<[o := to_uint8 (js_and n 0xff)]> out)
  end.

Definition write_chunk (c : list Z) (so : list Z * nat) : list Z * nat :=
  let '(out, o) := so in
  let out := write_len 8 (Z.of_nat (length c)) o out in
  let o := (o + 8)%nat in
  (buf_set out c o, (o + length c)%nat).

Definition lengthPrefixedStream (chunks : list (list Z)) : list Z :=
  let total := foldl (λ t c, (t + (8 + length c))%nat) 0%nat chunks in
  (foldl (λ so c, write_chunk c so) (replicate total 0, 0%nat) chunks).1.

(** ** Hexadecimal *)

Definition hex_digit (d : Z) : Z := if d <? 10 then 48 + d else 87 + d.
(** [v.toString(16)] *)
Fixpoint hex_digits (fuel : nat) (v : Z) (acc : jsstr) : jsstr :=
  match fuel with
  | O => acc
  | S fuel => let acc := hex_digit (v mod 16) :: acc in if v / 16 =? 0 then acc else hex_digits fuel (v / 16) acc
  end.
Definition toString16 (v : Z) : jsstr := hex_digits (S (Z.to_nat (Z.log2 v))) v [].
Definition padStart (n : nat) (fill : Z) (s : jsstr) : jsstr := replicate (n - length s) fill ++ s.
Definition hex16 (v : Z) : jsstr := padStart 16 48 (toString16 (Z.land v MASK64)).

Definition BUILD_ID_SEED : Z := 0xb11d1d00.
Definition SOURCE_HASH_SEED : Z := 0xc0de5eed.

(** [libraryIdentityHashes]: build id and source hash. *)
Definition graph_chunks (modules : list (jsstr * list Z)) : list (list Z) :=
  flat_map (λ m, [utf8_encode m.1; m.2]) modules.
Definition libraryIdentityHashes (compilerVersion : jsstr) (profileBytes : list Z) (modules : list (jsstr * list Z)) : res (jsstr * jsstr) :=
  let graphChunks := graph_chunks modules in
  let buildChunks := utf8_encode compilerVersion :: profileBytes :: graphChunks in
  let* b := wyhash64 (lengthPrefixedStream buildChunks) BUILD_ID_SEED in
  let* s := wyhash64 (lengthPrefixedStream graphChunks) SOURCE_HASH_SEED in
  Ok (hex16 b, hex16 s).

(** The published test vectors of final version 3. *)
Definition ascii_bytes (s : string) : list Z := utf8_encode (js_of_string s).
Example wyhash64_vectors :
  map (λ sx : string * Z, wyhash64 (ascii_bytes sx.1) sx.2)
    [(EmptyString, 0); ("a"%string, 1); ("abc"%string, 2); ("message digest"%string, 3); ("abcdefghijklmnopqrstuvwxyz"%string, 4);
     ("ABCDEFGHIJKLMNOPQRSTUVWXYZabcdefghijklmnopqrstuvwxyz0123456789"%string, 5);
     ("12345678901234567890123456789012345678901234567890123456789012345678901234567890"%string, 6)] =
  map Ok [0x42bc986dc5eec4d3; 0x84508dc903c31551; 0x0bc54887cfc9ecb1; 0x6e2ff3298208a67c; 0x9a64e42e897195b9; 0x9199383239c32554; 0x7c1ccf6bba30f5a5].
Proof. vm_compute. reflexivity. Qed.
(** ** Reads stay in the data *)

Section reads.
Context (d : list Z).
Let len : Z := Z.of_nat (length d).

Lemma big_at_ok o : 0 <= o < len → ∃ b, big_at d o = Ok b.
Proof.
  intros Ho. unfold big_at, at_. destruct (Z.ltb_spec o 0); [lia|].
  destruct (lookup_lt_is_Some_2 d (Z.to_nat o)) as [b ->]; [lia|by exists b].
Qed.

Lemma wyr8_ok o : 0 <= o → o + 8 <= len → ∃ v, wyr8 d o = Ok v.
Proof.
  intros H1 H2. unfold wyr8.
  assert (H : ∀ l v, Forall (λ i, 0 <= i < 8) l →
    ∃ w, res_fold (λ i v, let* b := big_at d (o + i) in Ok (Z.lor (Z.shiftl v 8) b)) l v = Ok w).
  { intros l v Hl. revert v. induction Hl as [|i l Hi _ IH]; intros v; simpl; [by eexists|].
    destruct (big_at_ok (o + i)) as [b ->]; [lia|]. apply IH. }
  apply H. repeat constructor; lia.
Qed.

Lemma wyr4_ok o : 0 <= o → o + 4 <= len → ∃ v, wyr4 d o = Ok v.
Proof. intros H1 H2. unfold wyr4. destruct (big_at_ok (o + 3)) as [b ->]; [lia|]. by eexists. Qed.

Lemma loop48_ok fuel : ∀ seed see1 see2 p i, 0 <= p → 48 < i → p + i = len → i < Z.of_nat fuel →
  ∃ seed' see1' see2' p' i', loop48 fuel d seed see1 see2 p i = Ok (seed', see1', see2', p', i') ∧
    0 <= p' ∧ 0 < i' <= 48 ∧ p' + i' = len.
Proof.
  induction fuel as [|fuel IH]; intros seed see1 see2 p i Hp Hi Hl Hf; [lia|]. cbn [loop48].
  repeat (match goal with |- context [wyr8 d ?o] => destruct (wyr8_ok o) as [? ->]; [lia..|]; cbn [res_bind] end).
  cbv zeta. destruct (Z.ltb_spec 48 (i - 48)) as [H|H]; [apply IH; lia|]. repeat eexists; lia.
Qed.

Lemma loop16_ok fuel : ∀ seed p i, 0 <= p → 0 < i → p + i = len → i < Z.of_nat fuel →
  ∃ seed' p' i', loop16 fuel d seed p i = Ok (seed', p', i') ∧ p' + i' = len.
Proof.
  induction fuel as [|fuel IH]; intros seed p i Hp Hi Hl Hf; [lia|]. cbn [loop16].
  destruct (Z.ltb_spec 16 i) as [H|H]; [|by repeat eexists].
  repeat (match goal with |- context [wyr8 d ?o] => destruct (wyr8_ok o) as [? ->]; [lia..|]; cbn [res_bind] end). apply IH; lia.
Qed.
End reads.

Lemma MASK64_ones : MASK64 = Z.ones 64.
Proof. reflexivity. Qed.

Lemma wymix_u64 a b : 0 <= wymix a b < 2 ^ 64.
Proof. unfold wymix. cbv zeta. rewrite MASK64_ones, Z.land_ones by lia. apply Z.mod_pos_bound. lia. Qed.

(** [(len >> 3) << 2] for the short inputs. *)
Lemma quarter len : 4 <= len <= 16 → 0 <= js_shl (js_shr len 3) 2 <= len - 4.
Proof.
  intros H. assert (Hc : len = 4 ∨ len = 5 ∨ len = 6 ∨ len = 7 ∨ len = 8 ∨ len = 9 ∨ len = 10 ∨ len = 11 ∨ len = 12 ∨ len = 13 ∨ len = 14 ∨ len = 15 ∨ len = 16) by lia.
  destruct_or! Hc; subst len; vm_compute; split; discriminate.
Qed.

(** ** The stream *)

Definition frame (c : list Z) : list Z := le_bytes 8 (Z.of_nat (length c)) ++ c.
Arguments frame : simpl never.

Lemma frame_length c : length (frame c) = (8 + length c)%nat.
Proof. unfold frame. by rewrite length_app, le_bytes_length. Qed.

Lemma write_len_spec k : ∀ n pre mid, 0 <= n → (k <= length mid)%nat →
  write_len k n (length pre) (pre ++ mid) = pre ++ le_bytes k n ++ drop k mid.
Proof.
  induction k as [|k IH]; intros n pre mid Hn Hk; [done|]. destruct mid as [|x mid]; simpl in Hk; [lia|].
  assert (E : to_uint8 (js_and n 255) = n mod 256).
  { rewrite (js_and_ones n 8 255) by (lia || reflexivity). apply to_uint8_id. apply Z.mod_pos_bound. lia. }
  cbn [write_len le_bytes drop]. rewrite E. rewrite insert_app_r_alt, Nat.sub_diag by lia. simpl.
  pose proof (IH (n / 256) (pre ++ [n mod 256]) mid (Z.div_pos n 256 Hn ltac:(lia)) ltac:(lia)) as H.
  rewrite length_app, Nat.add_1_r, <- app_assoc in H. simpl in H. rewrite H, <- app_assoc. done.
Qed.

Lemma buf_set_app a r c n : n = length a → buf_set (a ++ r) c n = a ++ c ++ drop (length c) r.
Proof. intros ->. unfold buf_set. rewrite take_app_length. by rewrite drop_app_add. Qed.

Lemma write_chunk_spec c pre rest : (8 + length c <= length rest)%nat →
  write_chunk c (pre ++ rest, length pre) = ((pre ++ frame c) ++ drop (8 + length c) rest, length (pre ++ frame c)).
Proof.
  intros Hl. unfold write_chunk. rewrite write_len_spec by lia. unfold frame. f_equal.
  - rewrite app_assoc, (buf_set_app (pre ++ _)) by (rewrite length_app, le_bytes_length; lia). rewrite drop_drop. by rewrite <- !app_assoc.
  - rewrite !length_app, le_bytes_length. lia.
Qed.

Lemma total_length chunks : ∀ t, foldl (λ t c, (t + (8 + length c))%nat) t chunks = (t + length (flat_map frame chunks))%nat.
Proof.
  induction chunks as [|c cs IH]; intros t; [simpl; lia|]. cbn [foldl flat_map]. rewrite IH, (length_app (frame c)), frame_length. lia.
Qed.

Lemma write_chunks_spec chunks : ∀ pre rest, length rest = length (flat_map frame chunks) →
  foldl (λ so c, write_chunk c so) (pre ++ rest, length pre) chunks = (pre ++ flat_map frame chunks, length (pre ++ flat_map frame chunks)).
Proof.
  induction chunks as [|c cs IH]; intros pre rest Hl.
  - apply length_zero_iff_nil in Hl. subst rest. cbn [foldl flat_map]. by rewrite app_nil_r.
  - cbn [flat_map foldl] in *. rewrite (length_app (frame c)), frame_length in Hl. rewrite write_chunk_spec by lia.
    rewrite IH by (rewrite length_drop; lia). by rewrite !(app_assoc pre).
Qed.

Lemma stream_frames chunks : lengthPrefixedStream chunks = flat_map frame chunks.
Proof.
  unfold lengthPrefixedStream. rewrite total_length. simpl.
  pose proof (write_chunks_spec chunks [] (replicate (length (flat_map frame chunks)) 0) ltac:(by rewrite length_replicate)) as H.
  simpl in H. by rewrite H.
Qed.

Definition fits (c : list Z) : Prop := Z.of_nat (length c) < 2 ^ 64.

Lemma frames_injective cs : ∀ ds, Forall fits cs → Forall fits ds → flat_map frame cs = flat_map frame ds → cs = ds.
Proof.
  induction cs as [|c cs IH]; intros [|d ds] Hc Hd E; cbn [flat_map] in E.
  - done.
  - apply (f_equal length) in E. rewrite length_app, frame_length in E. simpl length in E. lia.
  - apply (f_equal length) in E. rewrite length_app, frame_length in E. simpl length in E. lia.
  - apply Forall_cons in Hc as [Fc Hc], Hd as [Fd Hd]. unfold frame in E. rewrite <- !app_assoc in E.
    apply app_inj_1 in E as [E1 E2]; [|by rewrite !le_bytes_length].
    apply (f_equal le_value) in E1. rewrite !le_value_bytes in E1. change (256 ^ Z.of_nat 8) with (2 ^ 64) in E1.
    unfold fits in *. rewrite !Z.mod_small in E1 by lia. apply app_inj_1 in E2 as [-> E2]; [|lia]. f_equal. by apply IH.
Qed.

(** ** Hexadecimal *)

Definition hex_val (c : Z) : Z := if c <? 58 then c - 48 else c - 87.
Definition hex_value (s : jsstr) : Z := foldl (λ v c, 16 * v + hex_val c) 0 s.

Lemma hex_val_digit k : 0 <= k < 16 → hex_val (hex_digit k) = k.
Proof. intros H. unfold hex_val, hex_digit. destruct (Z.ltb_spec k 10); case_match eqn:E; zb; lia. Qed.

Lemma hex_value_snoc s c : hex_value (s ++ [c]) = 16 * hex_value s + hex_val c.
Proof. unfold hex_value. by rewrite foldl_app. Qed.

Lemma hex_digits_spec fuel : ∀ v acc, 0 <= v → v < 2 ^ Z.of_nat fuel → (0 < fuel)%nat → ∃ ds,
  hex_digits fuel v acc = ds ++ acc ∧ hex_value ds = v ∧ (0 < length ds)%nat ∧ ((1 < length ds)%nat → 16 ^ (Z.of_nat (length ds) - 1) <= v).
Proof.
  induction fuel as [|fuel IH]; intros v acc Hv Hf Hp; [lia|]. cbn [hex_digits].
  pose proof (Z.mod_pos_bound v 16 ltac:(lia)) as Hm. pose proof (Z.div_mod v 16 ltac:(lia)) as Hd.
  destruct (Z.eqb_spec (v / 16) 0) as [E|E].
  - exists [hex_digit (v mod 16)]. split_and!; [done| |simpl; lia|simpl; lia]. unfold hex_value. simpl. rewrite hex_val_digit by lia. lia.
  - rewrite Nat2Z.inj_succ, Z.pow_succ_r in Hf by lia. pose proof (Z.div_pos v 16 Hv ltac:(lia)) as Hq.
    destruct (IH (v / 16) (hex_digit (v mod 16) :: acc) Hq ltac:(lia)) as (ds & E1 & E2 & E3 & E4).
    { destruct fuel; [|lia]. simpl in Hf. lia. }
    exists (ds ++ [hex_digit (v mod 16)]). rewrite E1, <- app_assoc. split_and!; [done| |rewrite length_app; simpl; lia|].
    + rewrite hex_value_snoc, E2, hex_val_digit by lia. lia.
    + intros _. rewrite length_app. simpl length. rewrite Nat2Z.inj_add.
      replace (Z.of_nat (length ds) + Z.of_nat 1 - 1) with (Z.succ (Z.of_nat (length ds) - 1)) by lia. rewrite Z.pow_succ_r by lia.
      destruct (decide (1 < length ds)%nat) as [H|H]; [specialize (E4 H); lia|].
      replace (Z.of_nat (length ds) - 1) with 0 by lia. lia.
Qed.

Lemma hex_value_zeros n s : hex_value (replicate n 48 ++ s) = hex_value s.
Proof. unfold hex_value. rewrite foldl_app. f_equal. induction n as [|n IH]; [done|]. simpl. exact IH. Qed.

Lemma hex16_spec v : length (hex16 v) = 16%nat ∧ hex_value (hex16 v) = v mod 2 ^ 64.
Proof.
  unfold hex16, toString16. rewrite MASK64_ones, Z.land_ones by lia. pose proof (Z.mod_pos_bound v (2 ^ 64) ltac:(lia)) as Hv.
  set (u := v mod 2 ^ 64) in *. destruct (hex_digits_spec (S (Z.to_nat (Z.log2 u))) u []) as (ds & E & E2 & E3 & E4); [lia| |lia|].
  { destruct (decide (u = 0)) as [->|Hu]; [simpl; lia|]. pose proof (Z.log2_spec u ltac:(lia)). pose proof (Z.log2_nonneg u).
    rewrite Nat2Z.inj_succ, Z2Nat.id by lia. lia. }
  rewrite E, app_nil_r. unfold padStart. rewrite hex_value_zeros. split; [|done]. rewrite length_app, length_replicate.
  assert (Hl : (length ds <= 16)%nat); [|lia].
  destruct (decide (1 < length ds)%nat) as [H|H]; [|lia]. specialize (E4 H). assert (Z.of_nat (length ds) - 1 < 16); [|lia].
  apply (Z.pow_lt_mono_r_iff 16); [lia..|]. change (16 ^ 16) with (2 ^ 64). lia.
Qed.

(** ** The theorems *)

(** The hash is total: on every input and under every seed each loop ends,
    no read leaves the data (where BigInt of undefined would throw), and the
    result is a 64-bit unsigned integer, spelled by [hex16] as exactly sixteen
    digits that denote it. *)
Theorem wyhash64_total (data : list Z) (seed : Z) : ∃ h,
  wyhash64 data seed = Ok h ∧ 0 <= h < 2 ^ 64 ∧ length (hex16 h) = 16%nat ∧ hex_value (hex16 h) = h.
Proof.
  assert (Hw : ∃ h, wyhash64 data seed = Ok h ∧ 0 <= h < 2 ^ 64).
  { unfold wyhash64. cbv zeta. set (len := Z.of_nat (length data)). assert (Hl : 0 <= len) by lia.
    match goal with |- ∃ h, res_bind ?m _ = _ ∧ _ => assert (Hm : ∃ a b s, m = Ok (a, b, s)) end.
    { destruct (Z.leb_spec len 16) as [H16|H16]; [destruct (Z.leb_spec 4 len) as [H4|H4]|].
      - pose proof (quarter len ltac:(lia)).
        repeat (match goal with |- context [wyr4 data ?o] => destruct (wyr4_ok data o) as [? ->]; [lia..|]; cbn [res_bind] end).
        by repeat eexists.
      - destruct (0 <? len); by repeat eexists.
      - assert (H1 : ∃ s p i, (if 48 <? len
            then let* ' (seed, see1, see2, p, i) := loop48 (S (length data)) data (Z.land (Z.lxor seed P0) MASK64) (Z.land (Z.lxor seed P0) MASK64)
                   (Z.land (Z.lxor seed P0) MASK64) 0 len in Ok (Z.lxor (Z.lxor seed see1) see2, p, i)
            else Ok (Z.land (Z.lxor seed P0) MASK64, 0, len)) = Ok (s, p, i) ∧ 0 <= p ∧ 0 < i ∧ p + i = len).
        { destruct (Z.ltb_spec 48 len) as [H48|H48]; [|repeat eexists; lia].
          destruct (loop48_ok data (S (length data)) (Z.land (Z.lxor seed P0) MASK64) (Z.land (Z.lxor seed P0) MASK64)
            (Z.land (Z.lxor seed P0) MASK64) 0 len) as (s1 & s2 & s3 & p & i & -> & ? & ? & ?); [lia..|]. repeat eexists; lia. }
        destruct H1 as (s & p & i & -> & Hp & Hi & Hpi). cbn [res_bind].
        destruct (loop16_ok data (S (length data)) s p i) as (s' & p' & i' & -> & Hpi'); [lia..|]. cbn [res_bind].
        repeat (match goal with |- context [wyr8 data ?o] => destruct (wyr8_ok data o) as [? ->]; [lia..|]; cbn [res_bind] end).
        by repeat eexists. }
    destruct Hm as (a & b & s & ->). eexists. split; [reflexivity|apply wymix_u64]. }
  destruct Hw as (h & E & Hh). exists h. destruct (hex16_spec h) as [H1 H2]. rewrite Z.mod_small in H2 by lia. done.
Qed.

(** The framing is unambiguous: the stream is each chunk's length on eight
    bytes followed by its bytes, and different chunk lists (of chunks below
    2^64 bytes) have different streams. *)
Theorem lengthPrefixedStream_unambiguous (cs ds : list (list Z)) :
  Forall fits cs → Forall fits ds →
  lengthPrefixedStream cs = flat_map frame cs ∧ (lengthPrefixedStream cs = lengthPrefixedStream ds ↔ cs = ds).
Proof.
  intros Hc Hd. rewrite !stream_frames. split; [done|]. split; [by apply frames_injective|by intros ->].
Qed.

(** Moving a byte from one chunk to the next changes the stream. *)
Example lengthPrefixedStream_unambiguous_witness : lengthPrefixedStream [[1]; [2; 3]] ≠ lengthPrefixedStream [[1; 2]; [3]].
Proof.
  intros E. apply (lengthPrefixedStream_unambiguous [[1]; [2; 3]] [[1; 2]; [3]]) in E; [discriminate E|..]; repeat constructor.
Defined.
