(* ===== verification/TypeKey.v ===== *)
(** * The types of the IR

    [IrType] of src/packages/compiler/src/ir/nodes.ts with its canonical text
    form [typeKey], its equality [typeEquals], the pure arity drop, and the
    fences for container element, key and value types.  A JavaScript string is
    a Rocq [string] here: names of classes, shapes and unions are identifiers. *)

From Stdlib Require Import Ascii.
From S2P Require Import Prelude.

#[local] Open Scope string_scope.

(** ** Types *)

Inductive IrBytesElem := BU8 | BU32 | BI32 | BF32.
Definition bytes_elem_name (e : IrBytesElem) : string := match e with BU8 => "u8" | BU32 => "u32" | BI32 => "i32" | BF32 => "f32" end.

(** The kinds without components. *)
Inductive prim :=
  | Kf64 | Kstring | Kbool | Kregex | Kurl | KsearchParams | Ksymbol | Kstats | KspawnRes | Kchild | KnetServer
  | KnetSocket | Khttp2Session | Khttp2Stream | KdgramSocket | KtestCtx | KhttpReq | KhttpRes | KhttpClientReq
  | KsecureCtx | KfsWatcher | KchildStream | KprocStream | Kdyn | Kjsval | Kcaught | Kvoid | KundefinedT | KnullT.

(** [rest] and [restAbi === "jsval"] of a function type. *)
Inductive IrType :=
  | Prim (p : prim)
  | Array (elem : IrType)
  | Bytes (elem : IrBytesElem)
  | MapT (key value : IrType)
  | SetT (elem : IrType)
  | Func (params : list IrType) (ret : IrType) (rest restJsval : bool)
  | Object_ (className : string)
  | Classval (className : string)
  | Record_ (shapeId : string)
  | Union_ (unionId : string)
  | Promise_ (inner : IrType)
  | Generator (yieldT retT nextT : IrType).

#[export] Instance prim_eq_dec : EqDecision prim.
Proof. solve_decision. Defined.
#[export] Instance IrBytesElem_eq_dec : EqDecision IrBytesElem.
Proof. solve_decision. Defined.

Section type_ind.
Context (P : IrType → Prop).
Hypothesis Hprim : ∀ p, P (Prim p).
Hypothesis Harray : ∀ e, P e → P (Array e).
Hypothesis Hbytes : ∀ e, P (Bytes e).
Hypothesis Hmap : ∀ k v, P k → P v → P (MapT k v).
Hypothesis Hset : ∀ e, P e → P (SetT e).
Hypothesis Hfunc : ∀ ps r rest abi, Forall P ps → P r → P (Func ps r rest abi).
Hypothesis Hobject : ∀ c, P (Object_ c).
Hypothesis Hclassval : ∀ c, P (Classval c).
Hypothesis Hrecord : ∀ c, P (Record_ c).
Hypothesis Hunion : ∀ c, P (Union_ c).
Hypothesis Hpromise : ∀ e, P e → P (Promise_ e).
Hypothesis Hgenerator : ∀ y r n, P y → P r → P n → P (Generator y r n).

(** Induction that reaches the parameters of function types. *)
Fixpoint IrType_full_ind (t : IrType) : P t :=
  match t with
  | Prim p => Hprim p
  | Array e => Harray e (IrType_full_ind e)
  | Bytes e => Hbytes e
  | MapT k v => Hmap k v (IrType_full_ind k) (IrType_full_ind v)
  | SetT e => Hset e (IrType_full_ind e)
  | Func ps r rest abi =>
      Hfunc ps r rest abi ((fix go ps : Forall P ps := match ps with [] => Forall_nil_2 P | p :: ps => Forall_cons_2 P p ps (IrType_full_ind p) (go ps) end) ps)
        (IrType_full_ind r)
  | Object_ c => Hobject c
  | Classval c => Hclassval c
  | Record_ c => Hrecord c
  | Union_ c => Hunion c
  | Promise_ e => Hpromise e (IrType_full_ind e)
  | Generator y r n => Hgenerator y r n (IrType_full_ind y) (IrType_full_ind r) (IrType_full_ind n)
  end.
End type_ind.

(** ** The canonical key *)

Definition prim_key (p : prim) : string :=
  match p with
  | Kf64 => "f64" | Kstring => "string" | Kbool => "bool" | Kregex => "regex" | Kurl => "url" | KsearchParams => "searchParams"
  | Ksymbol => "symbol" | Kstats => "stats" | KspawnRes => "spawnRes" | Kchild => "child" | KnetServer => "netServer"
  | KnetSocket => "netSocket" | Khttp2Session => "http2Session" | Khttp2Stream => "http2Stream" | KdgramSocket => "dgramSocket"
  | KtestCtx => "testCtx" | KhttpReq => "httpReq" | KhttpRes => "httpRes" | KhttpClientReq => "httpClientReq"
  | KsecureCtx => "secureCtx" | KfsWatcher => "fsWatcher" | KchildStream => "childStream" | KprocStream => "procStream"
  | Kdyn => "dyn" | Kjsval => "jsval" | Kcaught => "caught" | Kvoid => "void"
  | KundefinedT => "undefined" | KnullT => "null"
  end.

Definition rest_key (restJsval : bool) : string := if restJsval then "...jsval[]" else "...dyn[]".

Fixpoint typeKey (t : IrType) : string :=
  match t with
  | Prim p => prim_key p
  | Array elem => "array<" +:+ typeKey elem +:+ ">"
  | Bytes elem => "bytes<" +:+ bytes_elem_name elem +:+ ">"
  | MapT key value => "map<" +:+ typeKey key +:+ "," +:+ typeKey value +:+ ">"
  | SetT elem => "set<" +:+ typeKey elem +:+ ">"
  | Func params ret rest restJsval =>
      "func(" +:+ join_sep "," (map typeKey params ++ (if rest then [rest_key restJsval] else []))%list +:+ ")=>" +:+ typeKey ret
  | Object_ className => "object:" +:+ className
  | Classval className => "classval:" +:+ className
  | Record_ shapeId => "record:" +:+ shapeId
  | Union_ unionId => "union:" +:+ unionId
  | Promise_ inner => "promise<" +:+ typeKey inner +:+ ">"
  | Generator yieldT retT nextT => "generator<" +:+ typeKey yieldT +:+ "," +:+ typeKey retT +:+ "," +:+ typeKey nextT +:+ ">"
  end.

(** ** Equality *)

Fixpoint typeEquals (a b : IrType) : bool :=
  match a, b with
  | Array e, Array f => typeEquals e f
  | Bytes e, Bytes f => bool_decide (e = f)
  | MapT k v, MapT l w => typeEquals k l && typeEquals v w
  | SetT e, SetT f => typeEquals e f
  | Func ps r rest _, Func qs s rest' _ =>
      (length ps =? length qs)%nat && Bool.eqb rest rest' &&
      (fix every ps qs := match ps, qs with
       | p :: ps, q :: qs => typeEquals p q && every ps qs
       | _, _ => true
       end) ps qs && typeEquals r s
  | Object_ c, Object_ d | Classval c, Classval d | Record_ c, Record_ d | Union_ c, Union_ d => String.eqb c d
  | Promise_ e, Promise_ f => typeEquals e f
  | Generator y r n, Generator y' r' n' => typeEquals y y' && typeEquals r r' && typeEquals n n'
  | Prim p, Prim q => bool_decide (p = q)
  | _, _ => false
  end.

(** [src.params.every((p, i) => typeEquals(p, dst.params[i]!))] *)
Fixpoint params_match (ps qs : list IrType) : bool :=
  match ps, qs with
  | [], _ => true
  | p :: ps, q :: qs => typeEquals p q && params_match ps qs
  | _ :: _, [] => false
  end.

Definition pureArityDrop (src dst : IrType) : bool :=
  match src, dst with
  | Func ps r rest _, Func qs s rest' _ => negb rest && negb rest' && (length ps <? length qs)%nat && params_match ps qs && typeEquals r s
  | _, _ => false
  end.

(** ** Fences *)

Definition isUnitType (t : IrType) : bool := match t with Prim KundefinedT | Prim KnullT => true | _ => false end.
Definition isSupportedMapKey (t : IrType) : bool := match t with Prim Kf64 | Prim Kstring => true | _ => false end.
Definition isSupportedSetElem (t : IrType) : bool :=
  isSupportedMapKey t || match t with Prim KnetServer | Prim Ksymbol => true | _ => false end.
Definition isSupportedMapValue (t : IrType) : bool :=
  match t with
  | Prim Kf64 | Prim Kstring | Prim Kbool | Record_ _ | Object_ _ | Union_ _ | Array _ => true
  | Prim Kchild | Prim KsecureCtx | Promise_ _ | Classval _ | Prim Kregex => true
  | _ => false
  end.
Definition isSupportedIndexValue (t : IrType) : bool :=
  match t with Prim Kdyn | Func _ _ _ _ | MapT _ _ | SetT _ => true | _ => false end || isSupportedMapValue t.
Definition is_set (t : IrType) : bool := match t with SetT _ => true | _ => false end.
Definition unionFuncSetArmsOk (arms : list IrType) : bool :=
  forallb (λ '(i, a), negb (is_set a) || forallb (λ '(j, b), (j =? i)%nat || isUnitType b) (imap (λ j b, (j, b)) arms)) (imap (λ i a, (i, a)) arms).

Definition isRefCounted (t : IrType) : bool :=
  match t with
  | Prim Kf64 | Prim Kbool | Prim KprocStream | Prim Kvoid | Prim KundefinedT | Prim KnullT => false
  | _ => true
  end.

Definition REF_TRUTHY_KINDS (t : IrType) : bool :=
  match t with
  | Array _ | MapT _ _ | SetT _ | Bytes _ | Func _ _ _ _ | Object_ _ | Record_ _ | Promise_ _ | Generator _ _ _ | Classval _ => true
  | Prim p =>
      match p with
      | Kf64 | Kstring | Kbool | Kdyn | Kjsval | Kcaught | Kvoid | KundefinedT | KnullT => false
      | _ => true
      end
  | Union_ _ => false
  end.

(** ** Reading a key back *)

Definition is_delim (c : ascii) : bool :=
  bool_decide (c = "<"%char) || bool_decide (c = ">"%char) || bool_decide (c = ","%char) || bool_decide (c = "("%char) || bool_decide (c = ")"%char).

Fixpoint word (s : string) : bool := match s with EmptyString => true | String c s => negb (is_delim c) && word s end.
(** What may follow a key: nothing, or a delimiter. *)
Definition stops (s : string) : bool := match s with EmptyString => true | String c _ => is_delim c end.

(** Names hold no delimiter, and a function's ABI is marked on variadic types only. *)
Fixpoint well_named (t : IrType) : bool :=
  match t with
  | Prim _ | Bytes _ => true
  | Array e | SetT e | Promise_ e => well_named e
  | MapT k v => well_named k && well_named v
  | Func ps r rest restJsval => forallb well_named ps && well_named r && (rest || negb restJsval)
  | Object_ c | Classval c | Record_ c | Union_ c => word c
  | Generator y r n => well_named y && well_named r && well_named n
  end.

Lemma app_empty s : EmptyString +:+ s = s.
Proof. done. Qed.
Lemma app_cons c s t : String c s +:+ t = String c (s +:+ t).
Proof. done. Qed.

Lemma word_app w1 w2 r1 r2 : word w1 = true → word w2 = true → stops r1 = true → stops r2 = true →
  w1 +:+ r1 = w2 +:+ r2 → w1 = w2 ∧ r1 = r2.
Proof.
  revert w2. induction w1 as [|c w1 IH]; intros [|d w2] H1 H2 S1 S2 E; simpl in *.
  - done.
  - rewrite app_empty, app_cons in E. subst r1. simpl in S1. by rewrite S1 in H2.
  - rewrite app_empty, app_cons in E. subst r2. simpl in S2. by rewrite S2 in H1.
  - rewrite !app_cons in E. injection E as -> E. apply andb_true_iff in H1 as [_ H1], H2 as [_ H2]. by destruct (IH w2 H1 H2 S1 S2 E) as [-> ->].
Qed.

(** The word a key starts with, and the rest of it. *)
Definition head_word (t : IrType) : string :=
  match t with
  | Prim p => prim_key p
  | Array _ => "array" | Bytes _ => "bytes" | MapT _ _ => "map" | SetT _ => "set" | Func _ _ _ _ => "func"
  | Promise_ _ => "promise" | Generator _ _ _ => "generator"
  | Object_ c => "object:" +:+ c | Classval c => "classval:" +:+ c | Record_ c => "record:" +:+ c | Union_ c => "union:" +:+ c
  end.
Definition key_tail (t : IrType) : string :=
  match t with
  | Array e | SetT e | Promise_ e => "<" +:+ typeKey e +:+ ">"
  | Bytes e => "<" +:+ bytes_elem_name e +:+ ">"
  | MapT k v => "<" +:+ typeKey k +:+ "," +:+ typeKey v +:+ ">"
  | Func ps r rest restJsval => "(" +:+ join_sep "," (map typeKey ps ++ (if rest then [rest_key restJsval] else []))%list +:+ ")=>" +:+ typeKey r
  | Generator y r n => "<" +:+ typeKey y +:+ "," +:+ typeKey r +:+ "," +:+ typeKey n +:+ ">"
  | _ => EmptyString
  end.

Lemma app_nil (s : string) : s +:+ EmptyString = s.
Proof. induction s as [|c s IH]; [done|]. by rewrite app_cons, IH. Qed.

Lemma key_split t : typeKey t = head_word t +:+ key_tail t.
Proof. destruct t; first [reflexivity|symmetry; apply app_nil]. Qed.

Lemma head_word_word t : well_named t = true → word (head_word t) = true.
Proof. destruct t as [[]| | | | | | | | | | |]; simpl; intros H; try done. Qed.

Lemma key_tail_stops t s : stops s = true → stops (key_tail t +:+ s) = true.
Proof. by destruct t. Qed.

(** The head word tells the constructor, and the name it carries. *)
Lemma head_word_inj t u : head_word t = head_word u →
  match t, u with
  | Prim p, Prim q => p = q
  | Array _, Array _ | Bytes _, Bytes _ | MapT _ _, MapT _ _ | SetT _, SetT _ | Func _ _ _ _, Func _ _ _ _ => True
  | Promise_ _, Promise_ _ | Generator _ _ _, Generator _ _ _ => True
  | Object_ c, Object_ d | Classval c, Classval d | Record_ c, Record_ d | Union_ c, Union_ d => c = d
  | _, _ => False
  end.
Proof.
  destruct t as [p| | | | | | | | | | |], u as [q| | | | | | | | | | |]; simpl; intros E; try done; try (by injection E);
    try (by destruct p); try (by destruct q); try discriminate E.
  revert E. by destruct p, q.
Qed.

Lemma app_assoc3 (a b c : string) : (a +:+ b) +:+ c = a +:+ (b +:+ c).
Proof. induction a as [|x a IH]; [done|]. by rewrite !app_cons, IH. Qed.

(** A list item of a key: a type's key, or the mark of a variadic function. *)
Definition item (x : string) : Prop := (∃ t, well_named t = true ∧ x = typeKey t) ∨ ∃ b, x = rest_key b.
(** An item that can be told apart from what follows it. *)
Definition told (x : string) : Prop := ∀ y s1 s2, item y → stops s1 = true → stops s2 = true → x +:+ s1 = y +:+ s2 → x = y ∧ s1 = s2.

Lemma rest_word b : word (rest_key b) = true ∧ stops (rest_key b) = false.
Proof. by destruct b. Qed.

Lemma rest_not_head b t : head_word t ≠ rest_key b.
Proof. destruct b, t as [[]| | | | | | | | | | |]; done. Qed.

Lemma key_not_stops t s : stops (typeKey t +:+ s) = false.
Proof. by destruct t as [[]| | | | | | | | | | |]. Qed.

Lemma item_not_stops x s : item x → stops (x +:+ s) = false.
Proof. intros [(t & _ & ->)|(b & ->)]; [apply key_not_stops|by destruct b]. Qed.

Lemma rest_told b : told (rest_key b).
Proof.
  intros y s1 s2 [(t & Wt & ->)|(b' & ->)] S1 S2 E.
  - rewrite key_split, app_assoc3 in E. destruct (rest_word b) as [Wb _].
    apply word_app in E as [E _]; [by symmetry in E; apply rest_not_head in E|done|by apply head_word_word|done|by apply key_tail_stops].
  - apply word_app; try done; by apply rest_word.
Qed.

Lemma key_rest t b s1 s2 : well_named t = true → stops s1 = true → stops s2 = true → typeKey t +:+ s1 ≠ rest_key b +:+ s2.
Proof.
  intros Wt S1 S2 E. symmetry in E. apply rest_told in E as [E _]; [|by left; exists t|done..].
  pose proof (key_not_stops t EmptyString) as H. rewrite app_nil, <- E in H.
  rewrite key_split in E. rewrite <- (app_nil (rest_key b)) in E. 
  apply word_app in E as [E _]; [by symmetry in E; apply rest_not_head in E|apply rest_word|by apply head_word_word|done|].
  pose proof (key_tail_stops t EmptyString eq_refl) as H1. by rewrite app_nil in H1.
Qed.

(** [join(",")] closed by a parenthesis. *)
Lemma join_told xs : ∀ ys r1 r2, Forall told xs → Forall item xs → Forall item ys →
  join_sep "," xs +:+ String ")" r1 = join_sep "," ys +:+ String ")" r2 → xs = ys ∧ r1 = r2.
Proof.
  assert (Hnil : ∀ y ys r1 r2, item y → String ")" r1 ≠ join_sep "," (y :: ys) +:+ String ")" r2).
  { intros y ys r1 r2 Hy E. assert (S : stops (join_sep "," (y :: ys) +:+ String ")" r2) = true) by by rewrite <- E.
    destruct ys as [|z ys]; simpl in S; rewrite ?app_assoc3, item_not_stops in S; done. }
  induction xs as [|x xs IH]; intros [|y ys] r1 r2 Ht Hx Hy E.
  - simpl in E. rewrite !app_empty in E. by injection E.
  - simpl join_sep at 1 in E. rewrite app_empty in E. apply Forall_cons in Hy as [Hy _]. by apply Hnil in E.
  - simpl join_sep at 2 in E. rewrite app_empty in E. apply Forall_cons in Hx as [Hx _]. symmetry in E. by apply Hnil in E.
  - apply Forall_cons in Ht as [Tx Ht], Hx as [Hx Hxs], Hy as [Hy Hys].
    assert (Hj : ∀ z zs r, join_sep "," (z :: zs) +:+ String ")" r = z +:+ match zs with [] => String ")" r | _ => String "," (join_sep "," zs +:+ String ")" r) end).
    { intros z [|z' zs] r; [done|]. cbn [join_sep]. by rewrite !app_assoc3. }
    rewrite !Hj in E. apply Tx in E as [-> E]; [|done|by destruct xs|by destruct ys].
    destruct xs as [|x' xs], ys as [|y' ys]; try discriminate E.
    + by injection E as ->.
    + injection E as E. by destruct (IH _ _ _ Ht Hxs Hys E) as [-> ->].
Qed.

Definition unique (t : IrType) : Prop := ∀ u s1 s2, well_named t = true → well_named u = true → stops s1 = true → stops s2 = true →
  typeKey t +:+ s1 = typeKey u +:+ s2 → t = u ∧ s1 = s2.

Lemma unique_told t : unique t → well_named t = true → told (typeKey t).
Proof.
  intros U Wt y s1 s2 [(u & Wu & ->)|(b & ->)] S1 S2 E.
  - by destruct (U u s1 s2 Wt Wu S1 S2 E) as [-> ->].
  - by apply key_rest in E.
Qed.

Lemma keys_inj ps : Forall unique ps → ∀ qs, forallb well_named ps = true → forallb well_named qs = true →
  map typeKey ps = map typeKey qs → ps = qs.
Proof.
  induction 1 as [|p ps Hp _ IH]; intros [|q qs] Wp Wq E; try done. simpl in *. injection E as E1 E2.
  apply andb_true_iff in Wp as [Wp Wps], Wq as [Wq Wqs]. f_equal; [|by apply IH].
  apply (Hp q EmptyString EmptyString Wp Wq eq_refl eq_refl). by rewrite !app_nil.
Qed.

(** Parameters and the mark after them. *)
Definition mark (rest restJsval : bool) : list string := if rest then [rest_key restJsval] else [].

Lemma func_items ps rest abi : forallb well_named ps = true → Forall item (map typeKey ps ++ mark rest abi)%list.
Proof.
  intros W. apply Forall_app. split.
  - induction ps as [|p ps IH]; simpl in *; constructor; apply andb_true_iff in W as [? ?]; [left; by exists p|by apply IH].
  - destruct rest; constructor; [right; by exists abi|constructor].
Qed.

Lemma func_told ps rest abi : Forall unique ps → forallb well_named ps = true → Forall told (map typeKey ps ++ mark rest abi)%list.
Proof.
  intros U W. apply Forall_app. split.
  - induction U as [|p ps Hp _ IH]; simpl in *; constructor; apply andb_true_iff in W as [? ?]; [by apply unique_told|by apply IH].
  - destruct rest; constructor; [apply rest_told|constructor].
Qed.

Lemma marks_inj ps qs rest abi rest' abi' : Forall unique ps → forallb well_named ps = true → forallb well_named qs = true →
  rest || negb abi = true → rest' || negb abi' = true →
  (map typeKey ps ++ mark rest abi)%list = (map typeKey qs ++ mark rest' abi')%list → ps = qs ∧ rest = rest' ∧ abi = abi'.
Proof.
  intros U Wp Wq A A' E.
  assert (Hn : ∀ b xs, forallb well_named xs = true → rest_key b ∈ map typeKey xs → False).
  { intros b xs W (t & Et & It)%list_elem_of_fmap. rewrite forallb_forall in W. apply list_elem_of_In, W in It.
    apply (key_rest t b EmptyString EmptyString It eq_refl eq_refl). by rewrite Et. }
  destruct rest, rest'; simpl in *; rewrite ?app_nil_r in E.
  - apply app_inj_2 in E as [E1 E2]; [|done]. injection E2 as E2. split; [by apply keys_inj|]. split; [done|]. by destruct abi, abi'.
  - exfalso. apply (Hn abi qs Wq). rewrite <- E. apply elem_of_app. right. by apply list_elem_of_singleton.
  - exfalso. apply (Hn abi' ps Wp). rewrite E. apply elem_of_app. right. by apply list_elem_of_singleton.
  - split; [by apply keys_inj|]. split; [done|]. by destruct abi, abi'.
Qed.

(** A component followed by the rest of the key. *)
Lemma peel t u x s1 s2 : unique t → well_named t = true → well_named u = true → is_delim x = true →
  typeKey t +:+ String x s1 = typeKey u +:+ String x s2 → t = u ∧ s1 = s2.
Proof. intros U Wt Wu Hx E. destruct (U u (String x s1) (String x s2) Wt Wu Hx Hx E) as [-> E']. by injection E' as ->. Qed.

Lemma key_unique t : unique t.
Proof.
  induction t as [p|e IH|e|k v IHk IHv|e IH|ps r rest abi IHps IHr|c|c|c|c|e IH|y r n IHy IHr IHn] using IrType_full_ind;
    intros u s1 s2 Wt Wu S1 S2 E; rewrite (key_split u), (key_split), !app_assoc3 in E;
    (apply word_app in E as [E1 E]; [|by apply head_word_word|by apply head_word_word|by apply key_tail_stops|by apply key_tail_stops]);
    apply head_word_inj in E1; destruct u; try (by destruct E1); try (subst; by split); simpl in Wt, Wu; simpl key_tail in E;
    rewrite ?app_assoc3 in E; try (injection E as E); rewrite ?app_assoc3, ?app_empty in E.
  - by destruct (peel e u ">"%char s1 s2 IH Wt Wu eq_refl E) as [-> ->].
  - destruct e, elem; try discriminate E; injection E as E; rewrite !app_empty in E; by subst.
  - apply andb_true_iff in Wt as [Wk Wv], Wu as [Wk' Wv'].
    destruct (peel k u1 ","%char _ _ IHk Wk Wk' eq_refl E) as [-> E']. by destruct (peel v u2 ">"%char s1 s2 IHv Wv Wv' eq_refl E') as [-> ->].
  - by destruct (peel e u ">"%char s1 s2 IH Wt Wu eq_refl E) as [-> ->].
  - rewrite !andb_true_iff in Wt, Wu. destruct Wt as [[Wps Wr] Wa], Wu as [[Wqs Wr'] Wa'].
    fold (mark rest abi) (mark rest0 restJsval) in E.
    destruct (join_told _ _ ("=>" +:+ (typeKey r +:+ s1)) ("=>" +:+ (typeKey u +:+ s2)) (func_told ps rest abi IHps Wps)
      (func_items ps rest abi Wps) (func_items params rest0 restJsval Wqs) E) as [E1' E2].
    destruct (marks_inj _ _ _ _ _ _ IHps Wps Wqs Wa Wa' E1') as (-> & -> & ->). injection E2 as E2.
    by destruct (IHr u s1 s2 Wr Wr' S1 S2 E2) as [-> ->].
  - by destruct (peel e u ">"%char s1 s2 IH Wt Wu eq_refl E) as [-> ->].
  - rewrite !andb_true_iff in Wt, Wu. destruct Wt as [[Wy Wr] Wn], Wu as [[Wy' Wr'] Wn'].
    destruct (peel y u1 ","%char _ _ IHy Wy Wy' eq_refl E) as [-> E']. destruct (peel r u2 ","%char _ _ IHr Wr Wr' eq_refl E') as [-> E2].
    by destruct (peel n u3 ">"%char s1 s2 IHn Wn Wn' eq_refl E2) as [-> ->].
Qed.

(** ** Equality, up to the ABI of variadic functions *)

(** [restAbi] dropped everywhere. *)
Fixpoint erase (t : IrType) : IrType :=
  match t with
  | Func ps r rest _ => Func (map erase ps) (erase r) rest false
  | Array e => Array (erase e)
  | MapT k v => MapT (erase k) (erase v)
  | SetT e => SetT (erase e)
  | Promise_ e => Promise_ (erase e)
  | Generator y r n => Generator (erase y) (erase r) (erase n)
  | _ => t
  end.

Definition decided (t : IrType) : Prop := ∀ u, typeEquals t u = true ↔ erase t = erase u.

Lemma params_match_erase ps : Forall decided ps → ∀ qs, params_match ps qs = true ↔ ∃ extra, map erase qs = (map erase ps ++ extra)%list.
Proof.
  induction 1 as [|p ps Hp _ IH]; intros qs; simpl; [split; [by exists (map erase qs)|done]|].
  destruct qs as [|q qs]; simpl; [split; [done|intros (extra & [=])]|]. rewrite andb_true_iff, (Hp q), IH. split.
  - intros [E (extra & E')]. exists extra. by rewrite E, E'.
  - intros (extra & E). injection E as E1 E2. eauto.
Qed.

Lemma every_erase ps : Forall decided ps → ∀ qs, length ps = length qs →
  (fix every ps qs := match ps, qs with p :: ps, q :: qs => typeEquals p q && every ps qs | _, _ => true end) ps qs = true ↔ map erase ps = map erase qs.
Proof.
  induction 1 as [|p ps Hp _ IH]; intros [|q qs] E; try done. simpl in *. injection E as E. rewrite andb_true_iff, (Hp q), (IH qs E).
  split; [by intros [-> ->]|]. intros H. by injection H as -> ->.
Qed.

Lemma typeEquals_decided t : decided t.
Proof.
  induction t as [p|e IH|e|k v IHk IHv|e IH|ps r rest abi IHps IHr|c|c|c|c|e IH|y r n IHy IHr IHn] using IrType_full_ind;
    intros u; destruct u; simpl; try done; rewrite ?andb_true_iff, ?bool_decide_eq_true, ?String.eqb_eq;
    rewrite ?(IH u), ?(IHk u1), ?(IHv u2), ?(IHy u1), ?(IHr u2), ?(IHn u3); try naive_solver;
    try (split; [intros; destruct_and?; congruence|intros E; injection E; auto]).
  rewrite Nat.eqb_eq, eqb_true_iff, (IHr u). split.
  - intros [[[El Er] Ep] E]. rewrite (every_erase ps IHps params El) in Ep. by rewrite Ep, E, Er.
  - intros E. injection E as Ep E Er. assert (El : length ps = length params) by (by rewrite <- (length_map erase ps), Ep, length_map).
    rewrite (every_erase ps IHps params El). done.
Qed.

(** ** The theorems *)

(** C39. [typeKey] is injective: types with the same key are the same type,
    whatever their nesting, provided names hold no delimiter and only variadic
    function types carry an ABI mark; a key followed by a delimiter is also
    read back in only one way. *)
Theorem typeKey_injective (t u : IrType) (s1 s2 : string) :
  well_named t = true → well_named u = true → stops s1 = true → stops s2 = true →
  typeKey t +:+ s1 = typeKey u +:+ s2 → t = u ∧ s1 = s2.
Proof. apply key_unique. Qed.

(** A pair of types that differ in the nesting of a parameter list only. *)
Definition sample_type1 : IrType := Func [Func [Prim Kf64] (Prim Kvoid) false false; Prim Kf64] (Prim Kvoid) false false.
Definition sample_type2 : IrType := Func [Func [] (Prim Kvoid) true true; MapT (Prim Kf64) (Object_ "C")] (Prim Kvoid) false false.
Example typeKey_injective_witness : typeKey sample_type1 ≠ typeKey sample_type2.
Proof.
  intros E. destruct (typeKey_injective sample_type1 sample_type2 EmptyString EmptyString) as [H _]; [reflexivity..| |discriminate H].
  by rewrite !app_nil.
Defined.

(** [typeEquals] is the equality of types up to the ABI mark of variadic
    functions, and [pureArityDrop] holds exactly between fixed-arity function
    types with equal results where the source's parameters are a strict prefix
    of the destination's. *)
Theorem typeEquals_spec :
  (∀ a b, typeEquals a b = true ↔ erase a = erase b) ∧
  (∀ src dst, pureArityDrop src dst = true ↔
     ∃ ps r abi qs s abi', src = Func ps r false abi ∧ dst = Func qs s false abi' ∧ erase r = erase s ∧
       ∃ extra, extra ≠ [] ∧ map erase qs = (map erase ps ++ extra)%list).
Proof.
  split; [exact typeEquals_decided|]. intros src dst.
  assert (D : ∀ ps, Forall decided ps) by (intros; apply Forall_true, typeEquals_decided). split.
  - destruct src as [| | | | |ps r rest abi| | | | | |], dst as [| | | | |qs s rest' abi'| | | | | |]; simpl; try done.
    rewrite !andb_true_iff, !negb_true_iff, Nat.ltb_lt, (typeEquals_decided r s), (params_match_erase ps (D ps)).
    intros [[[[-> ->] Hl] (extra & E)] Er]. repeat eexists; [done| |exact E]. intros ->.
    apply (f_equal length) in E. rewrite length_app, !length_map in E. simpl in E. lia.
  - intros (ps & r & abi & qs & s & abi' & -> & -> & Er & extra & Hx & E). simpl.
    rewrite !andb_true_iff, Nat.ltb_lt, (typeEquals_decided r s), (params_match_erase ps (D ps)). split_and!; try done; [|by exists extra].
    apply (f_equal length) in E. rewrite length_app, !length_map in E. destruct extra; [done|]. simpl in E. lia.
Qed.

(** The key does tell the ABIs apart. *)
Lemma rest_abi_differs : let f abi := Func [] (Prim Kvoid) true abi in typeEquals (f true) (f false) = true ∧ typeKey (f true) ≠ typeKey (f false).
Proof. by vm_compute. Qed.

(** The map value fence admits promises, and refuses refcounted kinds. *)
Lemma map_value_fence :
  isSupportedMapValue (Promise_ (Prim Kf64)) = true ∧ isRefCounted (Prim Kurl) = true ∧ isSupportedMapValue (Prim Kurl) = false.
Proof. by vm_compute. Qed.
