(* ===== verification/Mangle.v ===== *)
(** * Name mangling of the C backend

    src/packages/compiler/src/backend/mangle.ts: every symbol the backend
    emits is ["sc_"], a tag of its kind, an underscore, and the sanitized name
    (or a number).  Strings are lists of UTF-16 code units. *)

From S2P Require Import Prelude Bytes Wyhash.

(** ** Sanitizing *)

(** [[A-Za-z0-9_]] *)
Definition ident_char (c : Z) : bool :=
  ((65 <=? c) && (c <=? 90)) || ((97 <=? c) && (c <=? 122)) || ((48 <=? c) && (c <=? 57)) || (c =? 95).

(** ["_x24_"] for [$], an underscore for a dot. *)
Definition sanitize_char (c : Z) : jsstr :=
  if ident_char c then [c] else if c =? 46 then [95] else [95; 120] ++ toString16 c ++ [95].
Definition sanitize (name : jsstr) : jsstr := flat_map sanitize_char name.

(** ["sc_<tag>_"] *)
Definition lead (tag : jsstr) : jsstr := [115; 99; 95] ++ tag ++ [95].
Definition with_name (tag : string) (name : jsstr) : jsstr := lead (js_of_string tag) ++ sanitize name.
Definition with_number (tag : string) (n : N) : jsstr := lead (js_of_string tag) ++ js_of_string (pretty n).

(** ** The symbols *)

Definition mangleFunction (name : jsstr) : jsstr := with_name "f" name.
Definition mangleLocal (localId : jsstr) : jsstr := with_name "l" localId.
Definition mangleRawParam (localId : jsstr) : jsstr := with_name "p" localId.
Definition mangleWrapper (fnName : jsstr) : jsstr := with_name "w" fnName.
Definition mangleFnClosure (fnName : jsstr) : jsstr := with_name "fc" fnName.
Definition mangleClassStruct (className : jsstr) : jsstr := with_name "o" className.
Definition mangleClassObj (className : jsstr) : jsstr := with_name "co" className.
Definition mangleCtorThunk (className : jsstr) : jsstr := with_name "ct" className.
Definition mangleClassNew (className : jsstr) : jsstr := with_name "new" className.
Definition mangleClassRetain (className : jsstr) : jsstr := with_name "retain" className.
Definition mangleClassRelease (className : jsstr) : jsstr := with_name "release" className.
Definition mangleField (fieldName : jsstr) : jsstr := with_name "fld" fieldName.
Definition mangleClassReleaseDirect (className : jsstr) : jsstr := with_name "reld" className.
Definition mangleVtStruct (rootClassName : jsstr) : jsstr := with_name "vtt" rootClassName.
Definition mangleVtInstance (className : jsstr) : jsstr := with_name "vtable" className.
Definition mangleClassTrace (className : jsstr) : jsstr := with_name "trace" className.
Definition mangleClassGcFree (className : jsstr) : jsstr := with_name "gcfree" className.
Definition mangleRecordStruct (shapeId : jsstr) : jsstr := with_name "rs" shapeId.
Definition mangleRecordNew (shapeId : jsstr) : jsstr := with_name "rnew" shapeId.
Definition mangleRecordRetain (shapeId : jsstr) : jsstr := with_name "rretain" shapeId.
Definition mangleRecordRelease (shapeId : jsstr) : jsstr := with_name "rrelease" shapeId.
Definition mangleRecordTrace (shapeId : jsstr) : jsstr := with_name "rtrace" shapeId.
Definition mangleRecordGcFree (shapeId : jsstr) : jsstr := with_name "rgcfree" shapeId.
Definition mangleAsyncSpawn (fnName : jsstr) : jsstr := with_name "as" fnName.
Definition mangleTrampoline (fnName : jsstr) : jsstr := with_name "tr" fnName.
Definition mangleArgPack (fnName : jsstr) : jsstr := with_name "ap" fnName.
Definition mangleGenSpawn (fnName : jsstr) : jsstr := with_name "gs" fnName.
Definition mangleGenDrop (fnName : jsstr) : jsstr := with_name "gd" fnName.

Definition mangleVtSlot (method : jsstr) (occurrence : N) : jsstr :=
  if (occurrence =? 0)%N then with_name "vs" method else lead (js_of_string "vs" ++ js_of_string (pretty occurrence)) ++ sanitize method.
Definition mangleVtAdapter (className method : jsstr) : jsstr := with_name "vm" (className ++ [46] ++ method).

(** [globalId.replace(/^%g\./, )] with the empty string *)
Definition strip_global (globalId : jsstr) : jsstr :=
  match globalId with 37 :: 103 :: 46 :: rest => rest | _ => globalId end.
Definition mangleGlobal (globalId : jsstr) : jsstr := with_name "g" (strip_global globalId).

Definition mangleResolveThunk (n : N) : jsstr := with_number "rslv" n.
Definition mangleGenResThunk (n : N) : jsstr := with_number "gres" n.
Definition mangleRaceThunk (n : N) : jsstr := with_number "race" n.
Definition mangleChildExitThunk (n : N) : jsstr := with_number "chexit" n.
Definition mangleDgramMsgThunk (n : N) : jsstr := with_number "dgmsg" n.
Definition mangleChildDataThunk (n : N) : jsstr := with_number "chdata" n.
Definition mangleCloseBindThunk (n : N) : jsstr := with_number "clsbnd" n.
Definition mangleCloseOverrideWrap (n : N) : jsstr := with_number "ovwrap" n.
Definition mangleDnsLookupThunk (n : N) : jsstr := with_number "dnslk" n.
Definition mangleSniAnswerThunk (n : N) : jsstr := with_number "snians" n.
Definition mangleNetLookupAnswerThunk (n : N) : jsstr := with_number "netlk" n.
Definition mangleConnectSockThunk (n : N) : jsstr := with_number "h2conn" n.
Definition mangleEmitterInvokeThunk (n : N) : jsstr := with_number "eeinv" n.
Definition mangleStreamCbThunk (n : N) : jsstr := with_number "scbinv" n.
Definition mangleStreamDoneFn (n : N) : jsstr := with_number "sdone" n.

(** A symbol by the function that makes it. *)
Inductive symbol :=
  | SFunction (name : jsstr)
  | SLocal (localId : jsstr)
  | SRawParam (localId : jsstr)
  | SWrapper (fnName : jsstr)
  | SFnClosure (fnName : jsstr)
  | SClassStruct (className : jsstr)
  | SClassObj (className : jsstr)
  | SCtorThunk (className : jsstr)
  | SClassNew (className : jsstr)
  | SClassRetain (className : jsstr)
  | SClassRelease (className : jsstr)
  | SField (fieldName : jsstr)
  | SClassReleaseDirect (className : jsstr)
  | SVtStruct (rootClassName : jsstr)
  | SVtInstance (className : jsstr)
  | SClassTrace (className : jsstr)
  | SClassGcFree (className : jsstr)
  | SRecordStruct (shapeId : jsstr)
  | SRecordNew (shapeId : jsstr)
  | SRecordRetain (shapeId : jsstr)
  | SRecordRelease (shapeId : jsstr)
  | SRecordTrace (shapeId : jsstr)
  | SRecordGcFree (shapeId : jsstr)
  | SAsyncSpawn (fnName : jsstr)
  | STrampoline (fnName : jsstr)
  | SArgPack (fnName : jsstr)
  | SGenSpawn (fnName : jsstr)
  | SGenDrop (fnName : jsstr)
  | SVtSlot (method : jsstr) (occurrence : N)
  | SVtAdapter (className method : jsstr)
  | SGlobal (globalId : jsstr)
  | SResolveThunk (n : N)
  | SGenResThunk (n : N)
  | SRaceThunk (n : N)
  | SChildExitThunk (n : N)
  | SDgramMsgThunk (n : N)
  | SChildDataThunk (n : N)
  | SCloseBindThunk (n : N)
  | SCloseOverrideWrap (n : N)
  | SDnsLookupThunk (n : N)
  | SSniAnswerThunk (n : N)
  | SNetLookupAnswerThunk (n : N)
  | SConnectSockThunk (n : N)
  | SEmitterInvokeThunk (n : N)
  | SStreamCbThunk (n : N)
  | SStreamDoneFn (n : N).

Definition mangle (s : symbol) : jsstr :=
  match s with
  | SFunction x => mangleFunction x
  | SLocal x => mangleLocal x
  | SRawParam x => mangleRawParam x
  | SWrapper x => mangleWrapper x
  | SFnClosure x => mangleFnClosure x
  | SClassStruct x => mangleClassStruct x
  | SClassObj x => mangleClassObj x
  | SCtorThunk x => mangleCtorThunk x
  | SClassNew x => mangleClassNew x
  | SClassRetain x => mangleClassRetain x
  | SClassRelease x => mangleClassRelease x
  | SField x => mangleField x
  | SClassReleaseDirect x => mangleClassReleaseDirect x
  | SVtStruct x => mangleVtStruct x
  | SVtInstance x => mangleVtInstance x
  | SClassTrace x => mangleClassTrace x
  | SClassGcFree x => mangleClassGcFree x
  | SRecordStruct x => mangleRecordStruct x
  | SRecordNew x => mangleRecordNew x
  | SRecordRetain x => mangleRecordRetain x
  | SRecordRelease x => mangleRecordRelease x
  | SRecordTrace x => mangleRecordTrace x
  | SRecordGcFree x => mangleRecordGcFree x
  | SAsyncSpawn x => mangleAsyncSpawn x
  | STrampoline x => mangleTrampoline x
  | SArgPack x => mangleArgPack x
  | SGenSpawn x => mangleGenSpawn x
  | SGenDrop x => mangleGenDrop x
  | SVtSlot m k => mangleVtSlot m k
  | SVtAdapter c m => mangleVtAdapter c m
  | SGlobal g => mangleGlobal g
  | SResolveThunk n => mangleResolveThunk n
  | SGenResThunk n => mangleGenResThunk n
  | SRaceThunk n => mangleRaceThunk n
  | SChildExitThunk n => mangleChildExitThunk n
  | SDgramMsgThunk n => mangleDgramMsgThunk n
  | SChildDataThunk n => mangleChildDataThunk n
  | SCloseBindThunk n => mangleCloseBindThunk n
  | SCloseOverrideWrap n => mangleCloseOverrideWrap n
  | SDnsLookupThunk n => mangleDnsLookupThunk n
  | SSniAnswerThunk n => mangleSniAnswerThunk n
  | SNetLookupAnswerThunk n => mangleNetLookupAnswerThunk n
  | SConnectSockThunk n => mangleConnectSockThunk n
  | SEmitterInvokeThunk n => mangleEmitterInvokeThunk n
  | SStreamCbThunk n => mangleStreamCbThunk n
  | SStreamDoneFn n => mangleStreamDoneFn n
  end.

(** The tag between the two underscores. *)
Definition tag (s : symbol) : jsstr :=
  match s with
  | SFunction _ => js_of_string "f"
  | SLocal _ => js_of_string "l"
  | SRawParam _ => js_of_string "p"
  | SWrapper _ => js_of_string "w"
  | SFnClosure _ => js_of_string "fc"
  | SClassStruct _ => js_of_string "o"
  | SClassObj _ => js_of_string "co"
  | SCtorThunk _ => js_of_string "ct"
  | SClassNew _ => js_of_string "new"
  | SClassRetain _ => js_of_string "retain"
  | SClassRelease _ => js_of_string "release"
  | SField _ => js_of_string "fld"
  | SClassReleaseDirect _ => js_of_string "reld"
  | SVtStruct _ => js_of_string "vtt"
  | SVtInstance _ => js_of_string "vtable"
  | SClassTrace _ => js_of_string "trace"
  | SClassGcFree _ => js_of_string "gcfree"
  | SRecordStruct _ => js_of_string "rs"
  | SRecordNew _ => js_of_string "rnew"
  | SRecordRetain _ => js_of_string "rretain"
  | SRecordRelease _ => js_of_string "rrelease"
  | SRecordTrace _ => js_of_string "rtrace"
  | SRecordGcFree _ => js_of_string "rgcfree"
  | SAsyncSpawn _ => js_of_string "as"
  | STrampoline _ => js_of_string "tr"
  | SArgPack _ => js_of_string "ap"
  | SGenSpawn _ => js_of_string "gs"
  | SGenDrop _ => js_of_string "gd"
  | SVtSlot _ k => js_of_string "vs" ++ (if (k =? 0)%N then [] else js_of_string (pretty k))
  | SVtAdapter _ _ => js_of_string "vm"
  | SGlobal _ => js_of_string "g"
  | SResolveThunk _ => js_of_string "rslv"
  | SGenResThunk _ => js_of_string "gres"
  | SRaceThunk _ => js_of_string "race"
  | SChildExitThunk _ => js_of_string "chexit"
  | SDgramMsgThunk _ => js_of_string "dgmsg"
  | SChildDataThunk _ => js_of_string "chdata"
  | SCloseBindThunk _ => js_of_string "clsbnd"
  | SCloseOverrideWrap _ => js_of_string "ovwrap"
  | SDnsLookupThunk _ => js_of_string "dnslk"
  | SSniAnswerThunk _ => js_of_string "snians"
  | SNetLookupAnswerThunk _ => js_of_string "netlk"
  | SConnectSockThunk _ => js_of_string "h2conn"
  | SEmitterInvokeThunk _ => js_of_string "eeinv"
  | SStreamCbThunk _ => js_of_string "scbinv"
  | SStreamDoneFn _ => js_of_string "sdone"
  end.

(** The kind of a symbol: its function, and its ordinal for a virtual slot. *)
Definition kind (s : symbol) : nat * N :=
  match s with
  | SFunction _ => (0%nat, 0%N)
  | SLocal _ => (1%nat, 0%N)
  | SRawParam _ => (2%nat, 0%N)
  | SWrapper _ => (3%nat, 0%N)
  | SFnClosure _ => (4%nat, 0%N)
  | SClassStruct _ => (5%nat, 0%N)
  | SClassObj _ => (6%nat, 0%N)
  | SCtorThunk _ => (7%nat, 0%N)
  | SClassNew _ => (8%nat, 0%N)
  | SClassRetain _ => (9%nat, 0%N)
  | SClassRelease _ => (10%nat, 0%N)
  | SField _ => (11%nat, 0%N)
  | SClassReleaseDirect _ => (12%nat, 0%N)
  | SVtStruct _ => (13%nat, 0%N)
  | SVtInstance _ => (14%nat, 0%N)
  | SClassTrace _ => (15%nat, 0%N)
  | SClassGcFree _ => (16%nat, 0%N)
  | SRecordStruct _ => (17%nat, 0%N)
  | SRecordNew _ => (18%nat, 0%N)
  | SRecordRetain _ => (19%nat, 0%N)
  | SRecordRelease _ => (20%nat, 0%N)
  | SRecordTrace _ => (21%nat, 0%N)
  | SRecordGcFree _ => (22%nat, 0%N)
  | SAsyncSpawn _ => (23%nat, 0%N)
  | STrampoline _ => (24%nat, 0%N)
  | SArgPack _ => (25%nat, 0%N)
  | SGenSpawn _ => (26%nat, 0%N)
  | SGenDrop _ => (27%nat, 0%N)
  | SVtSlot _ k => (28%nat, k)
  | SVtAdapter _ _ => (29%nat, 0%N)
  | SGlobal _ => (30%nat, 0%N)
  | SResolveThunk _ => (31%nat, 0%N)
  | SGenResThunk _ => (32%nat, 0%N)
  | SRaceThunk _ => (33%nat, 0%N)
  | SChildExitThunk _ => (34%nat, 0%N)
  | SDgramMsgThunk _ => (35%nat, 0%N)
  | SChildDataThunk _ => (36%nat, 0%N)
  | SCloseBindThunk _ => (37%nat, 0%N)
  | SCloseOverrideWrap _ => (38%nat, 0%N)
  | SDnsLookupThunk _ => (39%nat, 0%N)
  | SSniAnswerThunk _ => (40%nat, 0%N)
  | SNetLookupAnswerThunk _ => (41%nat, 0%N)
  | SConnectSockThunk _ => (42%nat, 0%N)
  | SEmitterInvokeThunk _ => (43%nat, 0%N)
  | SStreamCbThunk _ => (44%nat, 0%N)
  | SStreamDoneFn _ => (45%nat, 0%N)
  end.

(** What the symbol is made of: a name, or a number. *)
Definition text (s : symbol) : jsstr :=
  match s with
  | SFunction x | SLocal x | SRawParam x | SWrapper x | SFnClosure x | SClassStruct x | SClassObj x | SCtorThunk x | SClassNew x | SClassRetain x | SClassRelease x | SField x | SClassReleaseDirect x | SVtStruct x | SVtInstance x | SClassTrace x | SClassGcFree x | SRecordStruct x | SRecordNew x | SRecordRetain x | SRecordRelease x | SRecordTrace x | SRecordGcFree x | SAsyncSpawn x | STrampoline x | SArgPack x | SGenSpawn x | SGenDrop x => x
  | SVtSlot m _ => m
  | SVtAdapter c m => c ++ [46] ++ m
  | SGlobal g => strip_global g
  | _ => []
  end.
Definition number (s : symbol) : N :=
  match s with
  | SResolveThunk n | SGenResThunk n | SRaceThunk n | SChildExitThunk n | SDgramMsgThunk n | SChildDataThunk n | SCloseBindThunk n | SCloseOverrideWrap n | SDnsLookupThunk n | SSniAnswerThunk n | SNetLookupAnswerThunk n | SConnectSockThunk n | SEmitterInvokeThunk n | SStreamCbThunk n | SStreamDoneFn n => n
  | _ => 0%N
  end.
Definition is_thunk (s : symbol) : bool :=
  match s with
  | SResolveThunk _ | SGenResThunk _ | SRaceThunk _ | SChildExitThunk _ | SDgramMsgThunk _ | SChildDataThunk _ | SCloseBindThunk _ | SCloseOverrideWrap _ | SDnsLookupThunk _ | SSniAnswerThunk _ | SNetLookupAnswerThunk _ | SConnectSockThunk _ | SEmitterInvokeThunk _ | SStreamCbThunk _ | SStreamDoneFn _ => true
  | _ => false
  end.

(** ** Reading a symbol back *)

(** A dot and an underscore are spelled alike. *)
Definition us (c : Z) : Z := if c =? 46 then 95 else c.

(** A name of code units in which nothing reads as an escape: no dot and no
    underscore directly before an [x]. *)
Fixpoint no_esc (s : jsstr) : bool :=
  match s with
  | a :: r => (0 <=? a) && negb ((us a =? 95) && (match r with b :: _ => b =? 120 | [] => false end)) && no_esc r
  | [] => true
  end.

(** What follows the tag. *)
Definition body (s : symbol) : jsstr := if is_thunk s then js_of_string (pretty (number s)) else sanitize (text s).

Definition no95 (s : jsstr) : Prop := Forall (λ c, c ≠ 95) s.

Lemma split95 a b x y : no95 a → no95 b → a ++ 95 :: x = b ++ 95 :: y → a = b ∧ x = y.
Proof.
  intros Ha. revert b. induction Ha as [|c a Hc _ IH]; intros [|d b] Hb E; cbn [app] in E.
  - by injection E as ->.
  - injection E as <- _. by apply Forall_cons in Hb as [[] _].
  - injection E as E _. congruence.
  - injection E as <- E. apply Forall_cons in Hb as [_ Hb]. by destruct (IH b Hb E) as [-> ->].
Qed.

(** *** Names *)

Lemma hex_digits_no95 fuel : ∀ v acc, 0 <= v → no95 acc → no95 (hex_digits fuel v acc).
Proof.
  induction fuel as [|fuel IH]; intros v acc Hv Ha; [done|]. cbn [hex_digits].
  assert (H : no95 (hex_digit (v mod 16) :: acc)).
  { constructor; [|done]. unfold hex_digit. pose proof (Z.mod_pos_bound v 16). case_match; zb; lia. }
  case_match; [done|]. apply IH; [apply Z.div_pos; lia|done].
Qed.

Lemma toString16_spec c : 0 <= c → no95 (toString16 c) ∧ hex_value (toString16 c) = c.
Proof.
  intros Hc. split; [apply hex_digits_no95; [done|constructor]|]. unfold toString16.
  destruct (hex_digits_spec (S (Z.to_nat (Z.log2 c))) c []) as (ds & -> & H & _); [lia| |lia|by rewrite app_nil_r].
  destruct (decide (c = 0)) as [->|Hz]; [done|]. pose proof (Z.log2_spec c ltac:(lia)). pose proof (Z.log2_nonneg c).
  rewrite Nat2Z.inj_succ, Z2Nat.id by lia. lia.
Qed.

(** A character stands for itself or for an escape. *)
Variant spelled (c : Z) : jsstr → Prop :=
  | sp_plain : (us c = 95 ∨ us c = c) → spelled c [us c]
  | sp_esc : us c = c → c ≠ 95 → spelled c ([95; 120] ++ toString16 c ++ [95]).

Lemma sanitize_char_spelled c : spelled c (sanitize_char c).
Proof.
  unfold sanitize_char. destruct (ident_char c) eqn:Hi.
  - assert (us c = c) as E; [|rewrite <- E at 2; constructor; by right].
    unfold us. destruct (Z.eqb_spec c 46) as [->|]; [discriminate Hi|done].
  - destruct (Z.eqb_spec c 46) as [->|Hc]; [apply (sp_plain 46); by left|].
    assert (us c = c) as E by (unfold us; case_match; zb; congruence). constructor; [done|]. intros ->. discriminate Hi.
Qed.

Lemma sanitize_x s r : sanitize s = 120 :: r → ∃ s', s = 120 :: s'.
Proof.
  destruct s as [|c s]; [done|]. cbn [sanitize flat_map]. destruct (sanitize_char_spelled c) as [H|H]; intros [= E]; simplify_eq.
  unfold us in *. destruct (Z.eqb_spec c 46); [lia|]. subst c. by eexists.
Qed.

Lemma no_esc_cons c s : no_esc (c :: s) → 0 <= c ∧ no_esc s ∧ (us c = 95 → ∀ s', s ≠ 120 :: s').
Proof.
  cbn [no_esc]. rewrite !andb_True, negb_True. intros [[H1 H2] H3]. split_and!; [by apply Z.leb_le, Is_true_true_1|done|].
  intros E s' ->. rewrite E in H2. by apply H2.
Qed.

Lemma sanitize_injective s : ∀ t, no_esc s → no_esc t → sanitize s = sanitize t → map us s = map us t.
Proof.
  induction s as [|c s IH]; intros [|d t] Hs Ht E; [done|..].
  - cbn [sanitize flat_map] in E. by destruct (sanitize_char_spelled d).
  - cbn [sanitize flat_map] in E. by destruct (sanitize_char_spelled c).
  - apply no_esc_cons in Hs as (Pc & Hs & Xc), Ht as (Pd & Ht & Xd). cbn [sanitize flat_map map] in *.
    fold (sanitize s) (sanitize t) in E.
    destruct (sanitize_char_spelled c) as [Hc|Hc Nc], (sanitize_char_spelled d) as [Hd|Hd Nd]; cbn [app] in E.
    + injection E as E1 E2. by rewrite E1, (IH t).
    + injection E as E1 E2. destruct (sanitize_x _ _ E2) as [s' ->]. by destruct (Xc E1 s').
    + injection E as E1 E2. symmetry in E2. destruct (sanitize_x _ _ E2) as [t' ->]. by destruct (Xd (eq_sym E1) t').
    + injection E as E. rewrite <- !app_assoc in E. cbn [app] in E.
      destruct (toString16_spec c Pc) as [N1 V1], (toString16_spec d Pd) as [N2 V2].
      apply split95 in E as [E1 E2]; [|done..]. rewrite <- V1, <- V2, E1, (IH t) by done. done.
Qed.

Lemma sanitize_us s : sanitize (map us s) = sanitize s.
Proof.
  induction s as [|c s IH]; [done|]. cbn [map sanitize flat_map]. f_equal; [|exact IH].
  unfold us. by destruct (Z.eqb_spec c 46) as [->|].
Qed.

(** *** Numbers and tags *)

Lemma pretty_no95 (n : N) : no95 (js_of_string (pretty n)).
Proof.
  unfold pretty, pretty_N. case_decide; [repeat constructor; discriminate|].
  assert (Hg : ∀ s, no95 (js_of_string s) → no95 (js_of_string (pretty_N_go n s))); [|apply Hg; constructor].
  clear H.
  induction (N.lt_wf_0 n) as [n _ IH]. intros s Hs. destruct (decide (0 < n)%N) as [Hn|Hn].
  - rewrite pretty_N_go_step by done. apply IH; [apply N.div_lt; lia|]. cbn [js_of_string]. constructor; [|done].
    unfold pretty_N_char. by repeat case_match.
  - assert (n = 0%N) as -> by lia. by rewrite pretty_N_go_0.
Qed.

Definition base_tags : list jsstr :=
  map js_of_string ["f"; "l"; "p"; "w"; "fc"; "o"; "co"; "ct"; "new"; "retain"; "release"; "fld"; "reld"; "vtt"; "vtable"; "trace"; "gcfree";
    "rs"; "rnew"; "rretain"; "rrelease"; "rtrace"; "rgcfree"; "as"; "tr"; "ap"; "gs"; "gd"; "vs"; "vm"; "g"; "rslv"; "gres"; "race"; "chexit";
    "dgmsg"; "chdata"; "clsbnd"; "ovwrap"; "dnslk"; "snians"; "netlk"; "h2conn"; "eeinv"; "scbinv"; "sdone"]%string.

Definition is_slot (s : symbol) : bool := match s with SVtSlot _ _ => true | _ => false end.

Lemma tag_base s : is_slot s = false → base_tags !! (kind s).1 = Some (tag s) ∧ (kind s).2 = 0%N ∧ take 2 (tag s) ≠ js_of_string "vs".
Proof. destruct s; simpl; intros [=]; split_and!; reflexivity || discriminate. Qed.

Lemma base_tags_NoDup : NoDup base_tags.
Proof. apply (bool_decide_unpack _). vm_compute. exact I. Qed.

Lemma tag_no95 s : no95 (tag s).
Proof.
  assert (Hb : Forall (Forall (λ c, c ≠ 95)) base_tags) by (apply (bool_decide_unpack _); vm_compute; exact I).
  destruct (is_slot s) eqn:Hs; [|eapply Forall_lookup_1; [exact Hb|by apply tag_base]].
  destruct s; try discriminate Hs. cbn [tag]. apply Forall_app. split; [by repeat constructor|]. case_match; [constructor|apply pretty_no95].
Qed.

Lemma pretty_nonempty (n : N) : js_of_string (pretty n) ≠ [].
Proof.
  assert (H : ∀ n s, s ≠ EmptyString → pretty_N_go n s ≠ EmptyString).
  { clear. intros n. induction (N.lt_wf_0 n) as [n _ IH]. intros s Hs. destruct (decide (0 < n)%N) as [Hn|Hn].
    - rewrite pretty_N_go_step by done. apply IH; [apply N.div_lt; lia|done].
    - assert (n = 0%N) as -> by lia. by rewrite pretty_N_go_0. }
  intros E. apply (js_of_string_inj _ EmptyString) in E. revert E. unfold pretty, pretty_N. case_decide; [done|].
  rewrite pretty_N_go_step by lia. by apply H.
Qed.

Lemma pretty_js_inj (n k : N) : js_of_string (pretty n) = js_of_string (pretty k) → n = k.
Proof. intros E. by apply js_of_string_inj, (inj pretty) in E. Qed.

Lemma slot_kind s : is_slot s = true → ∃ k, kind s = (28%nat, k) ∧
  tag s = js_of_string "vs" ++ (if (k =? 0)%N then [] else js_of_string (pretty k)).
Proof. destruct s; intros [=]. by eexists. Qed.

Lemma tag_injective s t : tag s = tag t → kind s = kind t.
Proof.
  intros E. destruct (is_slot s) eqn:Hs, (is_slot t) eqn:Ht.
  - apply slot_kind in Hs as (k & -> & E1), Ht as (l & -> & E2). f_equal. rewrite E1, E2 in E. apply app_inv_head in E.
    destruct (N.eqb_spec k 0) as [Hk|Hk], (N.eqb_spec l 0) as [Hl|Hl]; [congruence| | |by apply pretty_js_inj].
    + by destruct (pretty_nonempty l).
    + by destruct (pretty_nonempty k).
  - apply slot_kind in Hs as (k & _ & E1). apply tag_base in Ht as (_ & _ & []). by rewrite <- E, E1.
  - apply slot_kind in Ht as (k & _ & E1). apply tag_base in Hs as (_ & _ & []). by rewrite E, E1.
  - apply tag_base in Hs as (L1 & K1 & _), Ht as (L2 & K2 & _). rewrite (surjective_pairing (kind s)), (surjective_pairing (kind t)).
    f_equal; [|congruence]. eapply NoDup_lookup; [apply base_tags_NoDup|exact L1|by rewrite E].
Qed.

Lemma kind_tag s t : kind s = kind t → tag s = tag t ∧ is_thunk s = is_thunk t.
Proof.
  intros E. assert (Hth : ∀ s, is_thunk s = (31 <=? (kind s).1)%nat) by (by intros []). rewrite !Hth, E. split; [|done].
  destruct (is_slot s) eqn:Hs, (is_slot t) eqn:Ht.
  - apply slot_kind in Hs as (k & E1 & ->), Ht as (l & E2 & ->). assert (k = l) as -> by congruence. done.
  - apply slot_kind in Hs as (k & E1 & _). rewrite E1 in E. destruct t; discriminate.
  - apply slot_kind in Ht as (k & E1 & _). rewrite E1 in E. destruct s; discriminate.
  - apply tag_base in Hs as (L1 & _), Ht as (L2 & _). rewrite E in L1. congruence.
Qed.

Lemma mangle_parts s : mangle s = lead (tag s) ++ body s.
Proof. destruct s; try reflexivity. cbn [mangle tag body]. unfold mangleVtSlot. by destruct (occurrence =? 0)%N. Qed.

Lemma lead_injective a b x y : no95 a → no95 b → lead a ++ x = lead b ++ y → a = b ∧ x = y.
Proof. unfold lead. rewrite <- !app_assoc. intros Ha Hb E. cbn [app] in E. injection E as E. by apply split95. Qed.

Lemma thunk_text s : if is_thunk s then text s = [] else number s = 0%N.
Proof. by destruct s. Qed.

(** ** The theorems *)

(** Mangled symbols never clash: two symbols are spelled the same exactly
    when they are made by the same function (the same ordinal included for a
    virtual slot), from the same number, and from names that are equal up to
    reading a dot as an underscore -- for names in which no dot or underscore
    stands directly before an [x], so that nothing in them reads as an
    escape. *)
Theorem mangle_partition (s t : symbol) : no_esc (text s) → no_esc (text t) →
  mangle s = mangle t ↔ kind s = kind t ∧ number s = number t ∧ map us (text s) = map us (text t).
Proof.
  intros Hs Ht. rewrite !mangle_parts. pose proof (thunk_text s) as Ts. pose proof (thunk_text t) as Tt. split.
  - intros E. apply lead_injective in E as [E1 E2]; [|apply tag_no95..]. apply tag_injective in E1.
    destruct (kind_tag s t E1) as [_ Et]. unfold body in E2. rewrite Et in Ts, E2. split_and!; [done|..]; destruct (is_thunk t).
    + by apply pretty_js_inj.
    + congruence.
    + congruence.
    + by apply sanitize_injective.
  - intros (Ek & En & Em). destruct (kind_tag s t Ek) as [-> Et]. f_equal. unfold body. rewrite Et, En.
    destruct (is_thunk t); [done|]. by rewrite <- (sanitize_us (text s)), Em, sanitize_us.
Qed.

(** The local [x.1] and the function [x.1] are told apart, the local [y$] and
    the local [y.1] too. *)
Example mangle_partition_witness :
  mangle (SLocal (js_of_string "x.1")) ≠ mangle (SFunction (js_of_string "x.1")) ∧
  mangle (SLocal (js_of_string "y$")) ≠ mangle (SLocal (js_of_string "y.1")).
Proof.
  split; intros E; apply mangle_partition in E as (E1 & _ & E2); try exact I; [discriminate E1|discriminate E2].
Defined.

(** ** Names that do clash *)

(** The name of a source identifier may spell an escape: [a$] and [a_x24_] are
    one C identifier. *)
Lemma escape_clash : mangleFunction (js_of_string "a$") = mangleFunction (js_of_string "a_x24_").
Proof. reflexivity. Qed.

(** The adapter of method [b_c] of class [A] is that of method [c] of class
    [A_b]. *)
Lemma adapter_clash : mangleVtAdapter (js_of_string "A") (js_of_string "b_c") = mangleVtAdapter (js_of_string "A_b") (js_of_string "c").
Proof. reflexivity. Qed.
