(* ===== verification/IrJson.v ===== *)
(** * IR values as plain data

    A module of the IR is JSON-safe data ([js]): the walks over whole modules
    (src/packages/compiler/src/ir/nodes.ts) and the serializer
    (src/packages/compiler/src/ir/serialize.ts) read it as such.  Here: the
    data, property reads, and the generic walk the module predicates share. *)

From S2P Require Import Prelude F64 Bytes.

(** ** Data *)

(** An object is its own properties in key order; a missing property and one
    that holds [undefined] read alike. *)
Inductive js : Type :=
  | JUndef
  | JNull
  | JBool (b : bool)
  | JNum (x : num)
  | JStr (s : jsstr)
  | JArr (items : list js)
  | JObj (props : list (jsstr * js)).

Definition props : Type := list (jsstr * js).

Section js_ind.
Context (P : js → Prop).
Hypothesis Hundef : P JUndef.
Hypothesis Hnull : P JNull.
Hypothesis Hbool : ∀ b, P (JBool b).
Hypothesis Hnum : ∀ x, P (JNum x).
Hypothesis Hstr : ∀ s, P (JStr s).
Hypothesis Harr : ∀ l, Forall P l → P (JArr l).
Hypothesis Hobj : ∀ ps, Forall (λ kv, P kv.2) ps → P (JObj ps).

(** Induction that reaches the items and the properties. *)
Fixpoint js_full_ind (v : js) : P v :=
  match v with
  | JUndef => Hundef
  | JNull => Hnull
  | JBool b => Hbool b
  | JNum x => Hnum x
  | JStr s => Hstr s
  | JArr l => Harr l ((fix go l : Forall P l :=
      match l with [] => Forall_nil_2 P | v :: l => Forall_cons_2 P v l (js_full_ind v) (go l) end) l)
  | JObj ps => Hobj ps ((fix go ps : Forall (λ kv, P kv.2) ps :=
      match ps with [] => Forall_nil_2 _ | kv :: ps => Forall_cons_2 _ kv ps (js_full_ind kv.2) (go ps) end) ps)
  end.
End js_ind.

(** [node.k] *)
Fixpoint get (k : jsstr) (ps : props) : js :=
  match ps with
  | [] => JUndef
  | (k', v) :: ps => if bool_decide (k = k') then v else get k ps
  end.
Definition field (v : js) (k : string) : js := match v with JObj ps => get (js_of_string k) ps | _ => JUndef end.
(** [v === "lit"] *)
Definition is_lit (v : js) (lit : string) : bool := match v with JStr s => bool_decide (s = js_of_string lit) | _ => false end.
(** [a ?? b], of optional answers *)
Definition orElse {A} (a b : option A) : option A := match a with Some _ => a | None => b end.
(** The items of an array. *)
Definition items (v : js) : list js := match v with JArr l => l | _ => [] end.
(** [s.startsWith(p)] *)
Definition startsWith (p : string) (s : jsstr) : bool := bool_decide (take (length (js_of_string p)) s = js_of_string p).
(** [set.has(s)], for a set written as an array literal *)
Definition set_has (set : list string) (s : jsstr) : bool := existsb (λ l, bool_decide (s = js_of_string l)) set.
(** [map.get(s)], for a map written as an array literal of pairs *)
Fixpoint map_get (map : list (string * string)) (s : jsstr) : option string :=
  match map with [] => None | (k, v) :: map => if bool_decide (s = js_of_string k) then Some v else map_get map s end.

(** ** The walk

    [visit] of the module predicates: [found] is the closed-over variable,
    [enter] what a node hands down to its children, [hit] the tests that set
    [found] and return. *)

Section visit.
Context {A C : Type} (enter : props → C → C) (hit : props → C → option A).

Fixpoint visit (v : js) (c : C) (found : option A) : option A :=
  match found with
  | Some _ => found
  | None =>
      match v with
      | JArr items =>
          (fix each l found := match l with [] => found | v :: l => each l (visit v c found) end) items found
      | JObj props =>
          let here := enter props c in
          match hit props here with
          | Some a => Some a
          | None => (fix each ps found := match ps with [] => found | kv :: ps => each ps (visit kv.2 here found) end) props found
          end
      | _ => found
      end
  end.

(** The objects in document order, with what they are given. *)
Fixpoint nodes (v : js) (c : C) : list (props * C) :=
  match v with
  | JArr items => (fix each l := match l with [] => [] | v :: l => nodes v c ++ each l end) items
  | JObj props =>
      let here := enter props c in
      (props, here) :: (fix each ps := match ps with [] => [] | kv :: ps => nodes kv.2 here ++ each ps end) props
  | _ => []
  end.

(** The first answer of a list of nodes. *)
Definition first_hit (ns : list (props * C)) : option A := head (omap (λ n, hit n.1 n.2) ns).
End visit.

Section visit_lemmas.
Context {A C : Type} (enter : props → C → C) (hit : props → C → option A).
Notation visit := (visit enter hit).
Notation nodes := (nodes enter).
Notation first_hit := (first_hit hit).

Lemma visit_found v c a : visit v c (Some a) = Some a.
Proof. by destruct v. Qed.

Lemma first_hit_app ns1 ns2 : first_hit (ns1 ++ ns2) = match first_hit ns1 with Some a => Some a | None => first_hit ns2 end.
Proof. unfold first_hit. rewrite omap_app. by destruct (omap _ ns1). Qed.

Lemma first_hit_cons n ns : first_hit (n :: ns) = match hit n.1 n.2 with Some a => Some a | None => first_hit ns end.
Proof. unfold IrJson.first_hit. simpl. by destruct (hit n.1 n.2). Qed.

(** The walk answers with the first node of the document order that hits. *)
Lemma visit_first v : ∀ c, visit v c None = first_hit (nodes v c).
Proof.
  induction v as [| | | | |l IH|ps IH] using js_full_ind; intros c; try done; cbn [IrJson.visit IrJson.nodes].
  - induction IH as [|v l Hv _ IHl]; [done|]. rewrite first_hit_app, <- Hv.
    destruct (visit v c None) as [a|]; [|exact IHl]. clear. induction l as [|w l IH]; [done|]. by rewrite visit_found.
  - rewrite first_hit_cons. cbn [fst snd]. generalize (enter ps c). intros here. destruct (hit ps here) as [a|]; [done|].
    induction IH as [|kv ps Hv _ IHl]; [done|]. rewrite first_hit_app, <- Hv.
    destruct (visit kv.2 here None) as [a|]; [|exact IHl]. clear. induction ps as [|w l IH]; [done|]. by rewrite visit_found.
Qed.

Lemma first_hit_None ns : first_hit ns = None ↔ ∀ n, n ∈ ns → hit n.1 n.2 = None.
Proof.
  induction ns as [|n ns IH]; [split; [intros _ n H; by apply not_elem_of_nil in H|done]|]. rewrite first_hit_cons. destruct (hit n.1 n.2) eqn:E.
  - split; [done|]. intros H. specialize (H n ltac:(left)). congruence.
  - rewrite IH. split.
    + intros H m [->|Hm]%elem_of_cons; auto.
    + intros H m Hm. apply H. by right.
Qed.

(** What the first hit is: no earlier node hits. *)
Lemma first_hit_Some ns a : first_hit ns = Some a ↔ ∃ pre n post, ns = pre ++ n :: post ∧ hit n.1 n.2 = Some a ∧ ∀ m, m ∈ pre → hit m.1 m.2 = None.
Proof.
  split.
  - induction ns as [|n ns IH]; [done|]. rewrite first_hit_cons. destruct (hit n.1 n.2) eqn:E.
    + intros [= ->]. exists [], n, ns. split_and!; [done|done|]. intros m H. by apply not_elem_of_nil in H.
    + intros H. destruct (IH H) as (pre & m & post & -> & Hm & Hp). exists (n :: pre), m, post. split_and!; [done|done|].
      intros k [->|Hk]%elem_of_cons; auto.
  - intros (pre & n & post & -> & Hn & Hp). rewrite first_hit_app. apply first_hit_None in Hp. by rewrite Hp, first_hit_cons, Hn.
Qed.
End visit_lemmas.

(** ** Yes-or-no walks *)

(** The objects of a value. *)
Definition objects (v : js) : list props := map fst (nodes (λ _ _, tt) v tt).

(** The walk of the predicates that only set [found = true]. *)
Definition uses (hit : props → bool) (v : js) : bool :=
  bool_decide (is_Some (visit (λ _ (_ : unit), tt) (λ ps _, if hit ps then Some tt else None) v tt None)).

Lemma uses_objects hit v : uses hit v = existsb hit (objects v).
Proof.
  unfold uses, objects. rewrite visit_first. induction (nodes _ v tt) as [|n ns IH]; [done|].
  rewrite first_hit_cons. cbn [map existsb]. destruct (hit n.1); [done|]. exact IH.
Qed.

Lemma uses_true hit v : uses hit v = true ↔ ∃ n, n ∈ objects v ∧ hit n = true.
Proof. rewrite uses_objects, existsb_exists. by setoid_rewrite list_elem_of_In. Qed.

Lemma uses_false hit v : uses hit v = false ↔ ∀ n, n ∈ objects v → hit n = false.
Proof.
  rewrite <- not_true_iff_false, uses_true. split.
  - intros H n Hn. apply not_true_iff_false. eauto.
  - intros H (n & Hn & E). rewrite (H n Hn) in E. done.
Qed.

Lemma uses_mono (h1 h2 : props → bool) v : (∀ n, h1 n = true → h2 n = true) → uses h1 v = true → uses h2 v = true.
Proof. rewrite !uses_true. naive_solver. Qed.

(** Handing something down does not change which objects are met. *)
Lemma nodes_objects {C} (enter : props → C → C) v : ∀ c, map fst (nodes enter v c) = objects v.
Proof.
  unfold objects. induction v as [| | | | |l IH|ps IH] using js_full_ind; intros c; try done; cbn [nodes].
  - induction IH as [|v l Hv _ IHl]; [done|]. rewrite !map_app, Hv, IHl. done.
  - cbn [map fst]. f_equal. generalize (enter ps c). intros here. induction IH as [|kv ps Hv _ IHl]; [done|]. rewrite !map_app, Hv, IHl. done.
Qed.
