(* ===== verification/ModuleUses.v ===== *)
(** * What a module uses

    The module predicates of src/packages/compiler/src/ir/nodes.ts: which
    optional runtime units a module reaches (the link switches), whether a
    library module is free of asynchronous surfaces, and whether it reaches
    ambient nondeterminism.  Each is a walk of [IrJson] with its own test;
    fields that the IR types require are read as present. *)

From S2P Require Import Prelude F64 Bytes Mangle IrJson.

#[local] Open Scope string_scope.

(** ** Tests on a node *)

Definition kind_is (n : props) (kind : string) : bool := is_lit (get (js_of_string "kind") n) kind.
Definition kind_in (n : props) (kinds : list string) : bool := existsb (kind_is n) kinds.
Definition method_in (n : props) (methods : list string) : bool := existsb (is_lit (get (js_of_string "method") n)) methods.
Definition fn_is (n : props) (fn : string) : bool := is_lit (get (js_of_string "fn") n) fn.
(** [typeof node.fn === "string" && ...] *)
Definition fn_sat (n : props) (p : jsstr → bool) : bool := match get (js_of_string "fn") n with JStr f => p f | _ => false end.
(** a [libCall] whose [fn] starts with one of the prefixes, or is one of the names *)
Definition lib_call (n : props) (prefixes names : list string) : bool :=
  kind_is n "libCall" && fn_sat n (λ f, existsb (λ p, startsWith p f) prefixes || set_has names f).

Definition some_item (v : js) (p : js → bool) : bool := existsb p (items v).
Definition is_undef (v : js) : bool := match v with JUndef => true | _ => false end.

(** ** The link switches *)

Definition PROCESS_EVENT_LIB_FNS : list string :=
  ["process.onSignal"; "process.offSignal"; "process.onExit"; "process.offExit"; "stdin.onData"; "stdin.onEnd"; "stdin.onError";
   "stdin.nextChunk"; "rl.create"; "rl.question"; "rl.close"; "rl.onClose"].
Definition RUNTIME_EMITTER_CLASS : string := "%EventEmitter".
(** the keys of the map *)
Definition RUNTIME_STREAM_CLASSES : list string := ["%Readable"; "%Writable"; "%Duplex"; "%Transform"; "%PassThrough"].
Definition IR_IEEE754_FNS : list string :=
  ["math.acos"; "math.acosh"; "math.asin"; "math.asinh"; "math.atan"; "math.atanh"; "math.atan2"; "math.cbrt"; "math.cos"; "math.cosh";
   "math.exp"; "math.expm1"; "math.log"; "math.log1p"; "math.log2"; "math.log10"; "math.sin"; "math.sinh"; "math.tan"; "math.tanh"].
Definition HTTP2_LEGACY_FNS : list string :=
  ["http2.createSecureServer"; "http2.createSecureServerSni"; "http2.serverOnSessionError"; "http2.streamNoop"; "http2.streamUndefCall"].
(** [fns] of [moduleUsesDynAsync] *)
Definition dyn_async_fns : list string :=
  ["async.awaitDyn"; "timers.immediatePromise"; "process.onUnhandledRejection"; "process.offUnhandledRejection"; "process.onRejectionHandled";
   "process.offRejectionHandled"; "process.onWarning"; "process.offWarning"; "process.emitWarning"; "als.new"; "als.get"; "als.run";
   "als.exitRun"; "als.enterWith"; "als.disable"; "dc.chanBindStore"; "dc.chanUnbindStore"; "dc.chanRunStores"].

(** [/\bword\b/.test(s)]; [prev] tells whether the character before is a word character. *)
Fixpoint has_word (word : jsstr) (prev : bool) (s : jsstr) : bool :=
  negb prev && bool_decide (take (length word) s = word) && negb (match drop (length word) s with c :: _ => ident_char c | [] => false end) ||
  match s with c :: s => has_word word (ident_char c) s | [] => false end.

Definition moduleEmbedsBuiltin (m : js) (builtin : string) : bool :=
  negb (is_undef (field m "embedded")) && some_item (field (field m "embedded") "edges") (λ e, is_lit (field e "to") builtin).

Definition NPM_COMPRESS_MIN : nat := Z.to_nat 1024.
Definition str_length (v : js) : nat := match v with JStr s => length s | _ => 0 end.
Definition moduleEmbedsCompressedNpm (m : js) : bool :=
  negb (is_undef (field m "embedded")) &&
  some_item (field (field m "embedded") "modules") (λ e, (NPM_COMPRESS_MIN <=? str_length (field e "source"))%nat || (NPM_COMPRESS_MIN <=? str_length (field e "esm"))%nat).

Definition regex_node (n : props) : bool :=
  kind_in n ["regex"; "regexLit"; "regexIntrinsic"] || kind_is n "strIntrinsic" && method_in n ["toLowerCase"; "toUpperCase"] ||
  kind_is n "libCall" && fn_is n "regexp.escape".
Definition moduleUsesRegex (m : js) : bool := uses regex_node m.

Definition copying_node (n : props) : bool :=
  kind_is n "arrIntrinsic" && method_in n ["toReversed"; "toSpliced"; "with"] ||
  kind_is n "bytesIntrinsic" && method_in n ["toReversed"; "with"; "join"; "toArray"].
Definition moduleUsesCopying (m : js) : bool := uses copying_node m.

Definition island_engine_node (n : props) : bool :=
  kind_in n ["jsOp"; "jsExit"; "jsBridgePromise"; "jsView"; "jsUnview"] || fn_sat n (startsWith "island.").
Definition moduleUsesIslandEngine (m : js) : bool := if negb (is_undef (field m "embedded")) && negb (length (items (field (field m "embedded") "modules")) =? 0)%nat then true else uses island_engine_node (field m "functions").

Definition fetch_node (n : props) : bool :=
  kind_is n "jsOp" && is_lit (get (js_of_string "op") n) "globalGet" && is_lit (get (js_of_string "name") n) "fetch".
Definition moduleUsesFetch (m : js) : bool := if some_item (field (field m "embedded") "modules") (λ e, match field e "source" with JStr s => has_word (js_of_string "fetch") false s | _ => false end) then true else uses fetch_node m.

Definition process_events_node (n : props) : bool :=
  lib_call n [] PROCESS_EVENT_LIB_FNS.
Definition moduleUsesProcessEvents (m : js) : bool := uses process_events_node m.

Definition emitter_node (n : props) : bool :=
  lib_call n ["emitter."] [].
Definition moduleUsesEmitter (m : js) : bool := if some_item (field m "classes") (λ c, is_lit (field c "name") RUNTIME_EMITTER_CLASS) then true else uses emitter_node m.

Definition stream_node (n : props) : bool :=
  lib_call n ["readable."; "writable."; "duplex."; "transform."; "passthrough."; "sc."; "stream.set"]
    ["stream.destroy"; "stream.destroyAborted"; "stream.destroyErr"; "stream.prop"; "stream.errored"; "sp.finished"; "sp.pipeline"].
Definition moduleUsesStream (m : js) : bool := if some_item (field m "classes") (λ c, match field c "name" with JStr s => set_has RUNTIME_STREAM_CLASSES s | _ => false end) then true else uses stream_node m.

Definition zlib_node (n : props) : bool :=
  lib_call n ["zlib."] [].
Definition moduleUsesZlib (m : js) : bool := if moduleEmbedsBuiltin m "node:zlib" then true else uses zlib_node m.

Definition ieee754_node (n : props) : bool :=
  lib_call n [] IR_IEEE754_FNS.
Definition moduleUsesIeee754 (m : js) : bool := uses ieee754_node m.

Definition dc_node (n : props) : bool :=
  lib_call n ["dc."] [].
Definition moduleUsesDc (m : js) : bool := uses dc_node m.

Definition assert_node (n : props) : bool :=
  lib_call n ["assert."] [].
Definition moduleUsesAssert (m : js) : bool := uses assert_node m.

Definition dyn_invoke_node (n : props) : bool :=
  kind_is n "dynInvoke" || kind_is n "libCall" && fn_is n "dyn.defineProps".
Definition moduleUsesDynInvoke (m : js) : bool := uses dyn_invoke_node m.

Definition dyn_async_node (n : props) : bool :=
  lib_call n [] dyn_async_fns || kind_is n "awaitExpr" && is_lit (field (get (js_of_string "type") n) "kind") "dyn".
Definition moduleUsesDynAsync (m : js) : bool := uses dyn_async_node m.

Definition inspect_node (n : props) : bool :=
  lib_call n ["insp."] [].
Definition moduleUsesInspect (m : js) : bool := uses inspect_node m.

Definition net_node (n : props) : bool :=
  lib_call n ["net."; "http."; "tls."; "https."; "http2."] [] ||
  kind_in n ["netServer"; "netSocket"; "http2Session"; "http2Stream"; "httpReq"; "httpRes"; "httpClientReq"; "secureCtx"].
Definition moduleUsesNet (m : js) : bool := uses net_node m.

Definition symbol_node (n : props) : bool :=
  lib_call n ["sym."] [] || kind_is n "symbol".
Definition moduleUsesSymbol (m : js) : bool := uses symbol_node m.

Definition search_params_node (n : props) : bool :=
  lib_call n ["sp."] ["url.searchParams"] || kind_is n "searchParams".
Definition moduleUsesSearchParams (m : js) : bool := uses search_params_node m.

Definition qs_node (n : props) : bool :=
  lib_call n [] ["qs.parse"; "qs.stringify"; "qs.unescape"].
Definition moduleUsesQs (m : js) : bool := uses qs_node m.

Definition fs_watch_node (n : props) : bool :=
  lib_call n ["fs.watch"; "watcher."] [] || kind_is n "fsWatcher".
Definition moduleUsesFsWatch (m : js) : bool := uses fs_watch_node m.

Definition node_test_node (n : props) : bool :=
  lib_call n ["test."] [] || kind_is n "testCtx".
Definition moduleUsesNodeTest (m : js) : bool := uses node_test_node m.

Definition dgram_node (n : props) : bool :=
  lib_call n ["dgram."; "dns."] [] || kind_is n "dgramSocket".
Definition moduleUsesDgram (m : js) : bool := uses dgram_node m.

Definition http_server_node (n : props) : bool :=
  lib_call n ["http."; "tls."; "https."; "http2."] [] || kind_in n ["httpReq"; "httpRes"; "httpClientReq"; "secureCtx"].
Definition moduleUsesHttpServer (m : js) : bool := uses http_server_node m.

Definition http2_node (n : props) : bool :=
  kind_is n "libCall" && fn_sat n (λ f, startsWith "http2." f && negb (set_has HTTP2_LEGACY_FNS f)) ||
  kind_in n ["http2Session"; "http2Stream"].
Definition moduleUsesHttp2 (m : js) : bool := uses http2_node m.

Definition tls_node (n : props) : bool :=
  lib_call n ["tls."; "https."; "http2."] [] || kind_is n "secureCtx".
Definition moduleUsesTls (m : js) : bool := uses tls_node m.

Definition tls_ca_node (n : props) : bool :=
  lib_call n ["tlsca."] [].
Definition moduleUsesTlsCa (m : js) : bool := uses tls_ca_node m.

(** A node whose [type] is of the kind; the walk runs over the function bodies. *)
Definition type_kind_node (kind : string) (n : props) : bool := is_lit (field (get (js_of_string "type") n) "kind") kind.
Definition moduleHasTypeKind (m : js) (kind : string) : bool :=
  existsb (λ f, uses (type_kind_node kind) (field f "body")) (items (field m "functions")).
Definition moduleHasDynValues (m : js) : bool := moduleHasTypeKind m "dyn".
Definition moduleHasJsvalValues (m : js) : bool := moduleHasTypeKind m "jsval".

(** ** The gate of library mode *)

Definition LIB_MODE_REFUSED_PREFIXES : list (string * string) :=
  [("fs.existsChk", "the async fs callback surface (fs.exists)");
   ("timers.", "the timers surface (setTimeout family)");
   ("tp.", "the timers/promises surface");
   ("cp.", "the child_process surface");
   ("child.", "the child_process surface");
   ("spawnRes.", "the child_process surface");
   ("process.on", "process signal/exit listeners");
   ("process.off", "process signal/exit listeners");
   ("stdin.", "the stdin event surface");
   ("rl.", "the node:readline surface");
   ("net.", "the node:net surface");
   ("http.", "the node:http surface");
   ("https.", "the node:https surface");
   ("http2.", "the node:http2 surface");
   ("h2.", "the node:http2 surface");
   ("dgram.", "the node:dgram surface");
   ("dns.", "the node:dns surface");
   ("tls.", "the node:tls surface");
   ("fs.watch", "fs.watch");
   ("watcher.", "fs.watch");
   ("test.", "the node:test surface");
   ("readable.", "the node:stream surface");
   ("writable.", "the node:stream surface");
   ("duplex.", "the node:stream surface");
   ("transform.", "the node:stream surface");
   ("passthrough.", "the node:stream surface");
   ("stream.", "the node:stream surface");
   ("als.", "AsyncLocalStorage");
   ("urj.", "unhandled-rejection tracking");
   ("dc.", "the diagnostics_channel surface");
   ("dyn.defineProps", "checked-dynamic prototype dispatch")].

Definition LIB_MODE_REFUSED_KINDS : list (string * string) :=
  [("promise", "promise values");
   ("generator", "generator values");
   ("awaitExpr", "await");
   ("awaitUnionExpr", "await");
   ("yieldExpr", "yield");
   ("child", "the child_process surface");
   ("spawnRes", "the child_process surface");
   ("childStream", "the child_process surface");
   ("netServer", "the node:net surface");
   ("netSocket", "the node:net surface");
   ("http2Session", "the node:http2 surface");
   ("http2Stream", "the node:http2 surface");
   ("dgramSocket", "the node:dgram surface");
   ("fsWatcher", "fs.watch");
   ("testCtx", "the node:test surface");
   ("httpReq", "the node:http surface");
   ("httpRes", "the node:http surface");
   ("httpClientReq", "the node:http surface");
   ("secureCtx", "the node:tls surface");
   ("dynInvoke", "checked-dynamic prototype dispatch")].

(** [for (const [prefix, surface] of table) if (fn.startsWith(prefix))] *)
Fixpoint prefix_get (table : list (string * string)) (f : jsstr) : option string :=
  match table with [] => None | (p, s) :: table => if startsWith p f then Some s else prefix_get table f end.

(** The tests of one node: its surface. *)
Definition refused_node (n : props) : option string :=
  match get (js_of_string "kind") n with
  | JStr kind =>
      match map_get LIB_MODE_REFUSED_KINDS kind with
      | Some bad => Some bad
      | None => if kind_is n "libCall" then match get (js_of_string "fn") n with JStr f => prefix_get LIB_MODE_REFUSED_PREFIXES f | _ => None end else None
      end
  | _ => None
  end.

(** [node.loc ?? loc] *)
Definition node_loc (n : props) (loc : js) : js := match get (js_of_string "loc") n with JUndef | JNull => loc | l => l end.

(** [name.replace(/^%/, )] with the empty string *)
Definition strip_percent (name : js) : jsstr := match name with JStr (37 :: s) => s | JStr s => s | _ => [] end.

Definition async_fn (fn : js) : option (jsstr * js) :=
  if match field fn "async" with JBool true => true | _ => false end
  then Some ((js_of_string "an async function ('" ++ strip_percent (field fn "name") ++ js_of_string "')")%list, field fn "loc")
  else if negb (is_undef (field fn "generator"))
  then Some ((js_of_string "a generator function ('" ++ strip_percent (field fn "name") ++ js_of_string "')")%list, field fn "loc")
  else None.

Definition entryLoc (m : js) : js :=
  JObj [(js_of_string "file", field m "sourceFile"); (js_of_string "start", JNum (Fin 0)); (js_of_string "end", JNum (Fin 0))].

Definition coarse (m : js) : list (bool * string) :=
  [(moduleUsesProcessEvents m, "process signal/exit listeners or the stdin event surface");
   (moduleUsesNet m, "the node:net surface");
   (moduleUsesHttpServer m, "the node:http surface");
   (moduleUsesHttp2 m, "the node:http2 surface");
   (moduleUsesDgram m, "the node:dgram surface");
   (moduleUsesFsWatch m, "fs.watch");
   (moduleUsesStream m, "the node:stream surface");
   (moduleUsesTls m, "the node:tls surface");
   (moduleUsesFetch m, "fetch");
   (moduleUsesNodeTest m, "the node:test surface");
   (moduleUsesDynAsync m, "the checked-dynamic async surface");
   (moduleUsesDc m, "the diagnostics_channel surface");
   (moduleUsesDynInvoke m, "checked-dynamic prototype dispatch")].

Definition moduleLibAsyncSurface (m : js) : option (jsstr * js) :=
  match head (omap async_fn (items (field m "functions"))) with
  | Some r => Some r
  | None =>
      match visit node_loc (λ n loc, (λ s, (js_of_string s, loc)) <$> refused_node n) m (entryLoc m) None with
      | Some r => Some r
      | None => head (omap (λ '(on, surface), if on : bool then Some (js_of_string surface, entryLoc m) else None) (coarse m))
      end
  end.

(** ** The determinism attestation *)

Definition LIB_NONDETERMINISTIC_PREFIXES : list (string * string) :=
  [("math.random", "Math.random");
   ("crypto.random", "crypto randomness");
   ("date.", "the live clock (Date)");
   ("perf.", "the live clock (performance)");
   ("process.env", "environment reads");
   ("process.argv", "process.argv");
   ("process.cwd", "process.cwd");
   ("process.chdir", "process.chdir");
   ("process.pid", "process identity");
   ("process.getuid", "process identity");
   ("process.getgid", "process identity");
   ("process.execPath", "process identity");
   ("process.uptime", "the live clock (process.uptime)");
   ("process.availableMemory", "machine memory state");
   ("process.constrainedMemory", "machine memory state");
   ("process.rusage", "machine resource usage (process.resourceUsage)");
   ("process.cpu", "the process CPU clock (process.cpuUsage)");
   ("process.threadCpu", "the thread CPU clock (process.threadCpuUsage)");
   ("process.isTTY", "terminal attachment (isTTY)");
   ("process.columns", "terminal geometry (columns)");
   ("process.kill", "process authority (kill)");
   ("process.umask", "process authority (umask)");
   ("process.umaskRead", "process authority (umask)");
   ("process.exit", "process authority (exit)");
   ("fs.", "the filesystem");
   ("os.", "machine/OS identity");
   ("tlsca.", "the host CA store")].

Definition nondet_node (n : props) : option string :=
  if kind_is n "libCall" then match get (js_of_string "fn") n with JStr f => prefix_get LIB_NONDETERMINISTIC_PREFIXES f | _ => None end else None.
Definition moduleLibNondeterministicSurface (m : js) : option string := visit (λ _ (_ : unit), tt) (λ n _, nondet_node n) m tt None.

(** ** Tests that imply others *)

Lemma kind_is_lit n kind : kind_is n kind = true ↔ get (js_of_string "kind") n = JStr (js_of_string kind).
Proof. unfold kind_is, is_lit. destruct (get _ n); split; intros H; simplify_eq; try done;
  [by apply bool_decide_eq_true in H as ->|by apply bool_decide_eq_true]. Qed.

Lemma existsb_incl {A} (p : A → bool) l1 l2 : incl l1 l2 → existsb p l1 = true → existsb p l2 = true.
Proof. rewrite !existsb_exists. intros H (x & Hx & E). exists x. auto. Qed.

Lemma fn_sat_mono n (p q : jsstr → bool) : (∀ f, p f = true → q f = true) → fn_sat n p = true → fn_sat n q = true.
Proof. unfold fn_sat. destruct (get _ n); auto. Qed.

Lemma lib_call_mono n ps qs ns : incl ps qs → lib_call n ps ns = true → lib_call n qs ns = true.
Proof.
  unfold lib_call. rewrite !andb_true_iff. intros H [Hk Hf]. split; [done|]. revert Hf. apply fn_sat_mono. intros f. rewrite !orb_true_iff.
  intros [Hp|Hn]; [left; by eapply existsb_incl|by right].
Qed.

(** Inclusion of literal lists. *)
Ltac lits := let x := fresh in let H := fresh in intros x H; simpl in H |- *; intuition.

Lemma tls_http n : tls_node n = true → http_server_node n = true.
Proof.
  unfold tls_node, http_server_node. rewrite !orb_true_iff. intros [H|H]; [left; revert H; apply lib_call_mono; lits|].
  right. apply existsb_exists. exists "secureCtx". split; [simpl; tauto|done].
Qed.

Lemma http_net n : http_server_node n = true → net_node n = true.
Proof.
  unfold net_node, http_server_node. rewrite !orb_true_iff. intros [H|H]; [left; revert H; apply lib_call_mono; lits|].
  right. revert H. apply existsb_incl. lits.
Qed.

Lemma http2_net n : http2_node n = true → net_node n = true.
Proof.
  unfold net_node, http2_node. rewrite !orb_true_iff. intros [H|H]; [left|right; revert H; apply existsb_incl; lits].
  apply andb_true_iff in H as [Hk Hf]. unfold lib_call. rewrite Hk. revert Hf. apply fn_sat_mono. intros f [Hf _]%andb_true_iff.
  rewrite orb_true_iff. left. apply existsb_exists. exists "http2.". split; [simpl; tauto|done].
Qed.

(** ** What the table of library mode covers *)

Lemma prefix_get_None table f : prefix_get table f = None ↔ ∀ p s, In (p, s) table → startsWith p f = false.
Proof.
  induction table as [|[p s] table IH]; [by split|]. simpl. destruct (startsWith p f) eqn:E.
  - split; [done|]. intros H. specialize (H p s (or_introl eq_refl)). congruence.
  - rewrite IH. split; [intros H q t [[= <- <-]|Hq]; eauto|eauto].
Qed.

(** A refused kind refuses the node. *)
Lemma refused_kind n kind s : get (js_of_string "kind") n = JStr (js_of_string kind) →
  map_get LIB_MODE_REFUSED_KINDS (js_of_string kind) = Some s → refused_node n = Some s.
Proof. intros E H. unfold refused_node. by rewrite E, H. Qed.

Lemma refused_kinds n kinds : forallb (λ k, bool_decide (is_Some (map_get LIB_MODE_REFUSED_KINDS (js_of_string k)))) kinds = true →
  refused_node n = None → kind_in n kinds = false.
Proof.
  intros Hk Hn. apply not_true_iff_false. intros (k & Hin & H)%existsb_exists. apply kind_is_lit in H.
  rewrite forallb_forall in Hk. specialize (Hk k Hin). apply bool_decide_eq_true in Hk as [s Hs]. rewrite (refused_kind n k s H Hs) in Hn. done.
Qed.

Lemma refused_lib n f : kind_is n "libCall" = true → get (js_of_string "fn") n = JStr f →
  refused_node n = prefix_get LIB_MODE_REFUSED_PREFIXES f.
Proof. intros Hk Hf. unfold refused_node. rewrite Hf, Hk. apply kind_is_lit in Hk. rewrite Hk. reflexivity. Qed.

Lemma refused_fn n p : refused_node n = None → kind_is n "libCall" = true →
  (∀ f, p f = true → is_Some (prefix_get LIB_MODE_REFUSED_PREFIXES f)) → fn_sat n p = false.
Proof.
  intros Hn Hk Hp. unfold fn_sat. destruct (get (js_of_string "fn") n) as [| | | |f| |] eqn:E; try done.
  rewrite (refused_lib n f Hk E) in Hn. apply not_true_iff_false. intros [s Hs]%Hp. congruence.
Qed.

(** Every prefix is a row of the table, every name starts with a row. *)
Definition covered (prefixes names : list string) : bool :=
  forallb (λ p, existsb (λ r, String.eqb p r.1) LIB_MODE_REFUSED_PREFIXES) prefixes &&
  forallb (λ f, bool_decide (is_Some (prefix_get LIB_MODE_REFUSED_PREFIXES (js_of_string f)))) names.

Lemma covered_fn prefixes names f : covered prefixes names = true →
  existsb (λ p, startsWith p f) prefixes || set_has names f = true → is_Some (prefix_get LIB_MODE_REFUSED_PREFIXES f).
Proof.
  unfold covered. rewrite andb_true_iff, !forallb_forall, orb_true_iff. intros [Hp Hn] [H|H]; apply existsb_exists in H as (x & Hx & E).
  - specialize (Hp x Hx). apply existsb_exists in Hp as ([q s] & Hq & Eq). apply String.eqb_eq in Eq. simpl in Eq. subst q.
    destruct (prefix_get _ f) eqn:G; [by eexists|]. rewrite prefix_get_None in G. rewrite (G x s Hq) in E. done.
  - apply bool_decide_eq_true in E as ->. specialize (Hn x Hx). by apply bool_decide_eq_true in Hn.
Qed.

Lemma refused_lib_call n prefixes names : covered prefixes names = true → refused_node n = None → lib_call n prefixes names = false.
Proof.
  intros Hc Hn. unfold lib_call. destruct (kind_is n "libCall") eqn:Hk; [|done]. simpl. apply (refused_fn n _ Hn Hk).
  intros f. by apply covered_fn.
Qed.

(** The units whose every trigger the table refuses. *)
Lemma refused_units n : refused_node n = None →
  process_events_node n = false ∧ net_node n = false ∧ http_server_node n = false ∧ http2_node n = false ∧ dgram_node n = false ∧
  fs_watch_node n = false ∧ tls_node n = false ∧ node_test_node n = false ∧ dc_node n = false ∧ dyn_invoke_node n = false.
Proof.
  intros Hn. assert (Hnet : net_node n = false).
  { unfold net_node. rewrite refused_lib_call by done. by apply refused_kinds. }
  assert (Hhttp : http_server_node n = false) by (apply not_true_iff_false; intros H%http_net; congruence).
  assert (Hk : ∀ k, bool_decide (is_Some (map_get LIB_MODE_REFUSED_KINDS (js_of_string k))) = true → kind_is n k = false).
  { intros k Hk. apply not_true_iff_false. intros H. assert (K : kind_in n [k] = false) by (apply refused_kinds; [cbn [forallb]; by rewrite Hk|done]).
    unfold kind_in in K. simpl in K. by rewrite H in K. }
  split_and!; [by apply refused_lib_call|done|done| | | | | |by apply refused_lib_call|].
  - apply not_true_iff_false. intros H%http2_net. congruence.
  - unfold dgram_node. rewrite refused_lib_call by done. by apply Hk.
  - unfold fs_watch_node. rewrite refused_lib_call by done. by apply Hk.
  - apply not_true_iff_false. intros H%tls_http. congruence.
  - unfold node_test_node. rewrite refused_lib_call by done. by apply Hk.
  - unfold dyn_invoke_node. rewrite Hk by done. simpl. apply not_true_iff_false. intros [H E]%andb_true_iff. unfold fn_is, is_lit in E.
    destruct (get (js_of_string "fn") n) as [| | | |f| |] eqn:F; try done. apply bool_decide_eq_true in E as ->.
    rewrite (refused_lib n _ H F) in Hn. discriminate Hn.
Qed.

(** ** The theorems *)

(** The link switches nest as the build relies on: a module that needs the
    TLS unit needs the HTTP unit, whose users need the network unit, and so do
    the users of the HTTP/2 unit. *)
Theorem link_switches_nest (m : js) :
  (moduleUsesTls m = true → moduleUsesHttpServer m = true) ∧ (moduleUsesHttpServer m = true → moduleUsesNet m = true) ∧
  (moduleUsesHttp2 m = true → moduleUsesNet m = true).
Proof. split_and!; apply uses_mono; [exact tls_http|exact http_net|exact http2_net]. Qed.

(** The gate of library mode answers with the first asynchronous function or
    generator, else with the first node of the document order that the tables
    refuse, at the nearest enclosing location, else at the entry with a surface
    of the node:stream, fetch or checked-dynamic units, the only ones of the
    thirteen coarse predicates that the tables do not already cover; and a
    module it lets through links none of the thirteen units. *)
Theorem moduleLibAsyncSurface_exact (m : js) :
  moduleLibAsyncSurface m =
    orElse (head (omap async_fn (items (field m "functions"))))
    (orElse (head (omap (λ n, (λ s, (js_of_string s, n.2)) <$> refused_node n.1) (nodes node_loc m (entryLoc m))))
    (if moduleUsesStream m then Some (js_of_string "the node:stream surface", entryLoc m)
     else if moduleUsesFetch m then Some (js_of_string "fetch", entryLoc m)
     else if moduleUsesDynAsync m then Some (js_of_string "the checked-dynamic async surface", entryLoc m) else None)) ∧
  (moduleLibAsyncSurface m = None → Forall (λ u, u.1 = false) (coarse m)).
Proof.
  split.
  - unfold moduleLibAsyncSurface. destruct (head (omap async_fn _)); [done|]. rewrite visit_first. unfold first_hit.
    destruct (head (omap _ (nodes node_loc m (entryLoc m)))) as [r|] eqn:E; [done|].
    assert (Hn : ∀ n, n ∈ objects m → refused_node n = None).
    { intros n Hn. rewrite <- (nodes_objects node_loc m (entryLoc m)) in Hn. apply list_elem_of_fmap in Hn as (k & -> & Hk).
      pose proof (proj1 (first_hit_None (λ n loc, (λ s, (js_of_string s, loc)) <$> refused_node n) _) E k Hk) as F. simpl in F.
      by destruct (refused_node k.1). }
    assert (Hu : ∀ u, (∀ n, refused_node n = None → u n = false) → uses u m = false) by (intros u Hu; apply uses_false; auto).
    unfold coarse, moduleUsesProcessEvents, moduleUsesNet, moduleUsesHttpServer, moduleUsesHttp2, moduleUsesDgram, moduleUsesFsWatch, moduleUsesTls,
      moduleUsesNodeTest, moduleUsesDc, moduleUsesDynInvoke.
    rewrite !Hu by (intros n H; apply refused_units in H; tauto). simpl.
    by destruct (moduleUsesStream m), (moduleUsesFetch m), (moduleUsesDynAsync m).
  - unfold moduleLibAsyncSurface. repeat (case_match; [done|]). intros H'. apply Forall_forall. intros [on s] Hin. simpl.
    apply not_true_iff_false. intros ->. apply head_None in H'.
    assert (F : (js_of_string s, entryLoc m) ∈ omap (λ '(on, surface), if on : bool then Some (js_of_string surface, entryLoc m) else None) (coarse m));
      [apply list_elem_of_omap; by exists (true, s)|]. rewrite H' in F. by apply not_elem_of_nil in F.
Qed.

(** The determinism scan answers with the surface of the first library call,
    in document order, whose name starts with a prefix of the table, and
    attests determinism exactly when there is none. *)
Theorem moduleLibNondeterministicSurface_exact (m : js) :
  moduleLibNondeterministicSurface m = head (omap nondet_node (objects m)) ∧
  (moduleLibNondeterministicSurface m = None ↔
    ∀ n f, n ∈ objects m → kind_is n "libCall" = true → get (js_of_string "fn") n = JStr f →
      ∀ p s, In (p, s) LIB_NONDETERMINISTIC_PREFIXES → startsWith p f = false).
Proof.
  unfold moduleLibNondeterministicSurface. rewrite visit_first. split.
  - unfold first_hit, objects. f_equal. induction (nodes _ m tt) as [|n ns IH]; [done|]. simpl. by destruct (nondet_node n.1); f_equal.
  - rewrite first_hit_None. split.
    + intros H n f Hn Hk Hf. apply prefix_get_None. unfold objects in Hn. apply list_elem_of_fmap in Hn as (k & -> & Hn').
      specialize (H k Hn'). unfold nondet_node in H. by rewrite Hk, Hf in H.
    + intros H n Hn. unfold nondet_node. destruct (kind_is n.1 "libCall") eqn:Hk; [|done].
      destruct (get (js_of_string "fn") n.1) as [| | | |f| |] eqn:Hf; try done. apply prefix_get_None.
      apply (H n.1 f); [|done|done]. unfold objects. by apply list_elem_of_fmap_2.
Qed.

(** ** Reads of the working directory *)

Definition call_module (fn : string) : js :=
  JObj [(js_of_string "functions", JArr [JObj [(js_of_string "body",
    JArr [JObj [(js_of_string "kind", JStr (js_of_string "libCall")); (js_of_string "fn", JStr (js_of_string fn))]])]])].

(** [process.cwd()] demotes the attestation; [path.resolve], which consults the
    same directory, does not. *)
Lemma path_resolve_attested :
  moduleLibNondeterministicSurface (call_module "process.cwd") = Some "process.cwd" ∧
  moduleLibNondeterministicSurface (call_module "path.resolve") = None ∧ moduleLibAsyncSurface (call_module "path.resolve") = None.
Proof. vm_compute. done. Qed.

(** [sp.finished] of node:stream/promises is taken for a URLSearchParams call. *)
Lemma stream_links_search_params : moduleUsesSearchParams (call_module "sp.finished") = true ∧ moduleUsesStream (call_module "sp.finished") = true.
Proof. vm_compute. done. Qed.
