(* ===== verification/Serialize.v ===== *)
(** * The IR serializer

    src/packages/compiler/src/ir/serialize.ts.  A JSON text stands for the data
    it denotes: [JSON.stringify] after its replacer drops undefined properties
    and writes undefined items as null, [JSON.parse] builds the data back and
    revives it from the leaves up. *)

From S2P Require Import Prelude F64 Bytes IrJson.

#[local] Open Scope string_scope.

(** ** Serializing *)

Definition IR_VERSION : num := Fin (3 * ONE).
Definition sentinel (tag : string) : js := JObj [(js_of_string "$nonfinite", JStr (js_of_string tag))].

Definition replacer (value : js) : res js :=
  match value with
  | JNum x =>
      if negb (is_finite x) then
        if is_nan x then Throw "IR contains NaN; refusing to serialize"
        else Ok (sentinel (if num_lt (Fin 0) x then "inf" else "-inf"))
      else if bool_decide (x = NZero) then Ok (sentinel "-0")
      else Ok value
  | _ => Ok value
  end.

Section each.
Context (f : js → res (option js)).
(** An item that has no text is null, a property that has none is left out. *)
Fixpoint each_item (l : list js) : res (list js) :=
  match l with
  | [] => Ok []
  | v :: l => let* t := f v in let* ts := each_item l in Ok (default JNull t :: ts)
  end.
Fixpoint each_prop (ps : props) : res props :=
  match ps with
  | [] => Ok []
  | kv :: ps => let* t := f kv.2 in let* ts := each_prop ps in Ok (match t with Some t => (kv.1, t) :: ts | None => ts end)
  end.
End each.

(** [None] is a value that JSON has no text for.  A replaced number is a
    sentinel, whose one property the replacer leaves alone. *)
Fixpoint stringify (v : js) : res (option js) :=
  let* r := replacer v in
  match v with
  | JUndef => Ok None
  | JArr items => let* l := each_item stringify items in Ok (Some (JArr l))
  | JObj ps => let* l := each_prop stringify ps in Ok (Some (JObj l))
  | _ => Ok (Some r)
  end.

Definition serializeModule (module : js) : res (option js) := stringify module.

(** ** Reading back *)

Definition has_key (k : string) (ps : props) : bool := existsb (λ kv, bool_decide (kv.1 = js_of_string k)) ps.

Definition reviver (value : js) : js :=
  match value with
  | JObj ps =>
      if has_key "$nonfinite" ps then
        let tag := get (js_of_string "$nonfinite") ps in
        if is_lit tag "inf" then JNum PInf else if is_lit tag "-0" then JNum NZero else JNum NInf
      else value
  | _ => value
  end.

Fixpoint revive (v : js) : js :=
  reviver match v with
  | JArr items => JArr (map revive items)
  | JObj ps => JObj (map (λ kv, (kv.1, revive kv.2)) ps)
  | _ => v
  end.

Definition deserializeModule (text : js) : res js :=
  let module := revive text in
  match field module "irVersion" with
  | JNum x => if num_eq x IR_VERSION then Ok module else Throw "IR version mismatch"
  | _ => Throw "IR version mismatch"
  end.

(** ** What survives *)

(** Some number is NaN. *)
Fixpoint has_nan (v : js) : bool :=
  match v with
  | JNum x => is_nan x
  | JArr items => existsb has_nan items
  | JObj ps => existsb (λ kv, has_nan kv.2) ps
  | _ => false
  end.

(** No object has the sentinel's key. *)
Fixpoint unmarked (v : js) : bool :=
  match v with
  | JArr items => forallb unmarked items
  | JObj ps => negb (has_key "$nonfinite" ps) && forallb (λ kv, unmarked kv.2) ps
  | _ => true
  end.

(** The value without undefined properties, and null for undefined items. *)
Fixpoint clean (v : js) : option js :=
  match v with
  | JUndef => None
  | JArr items => Some (JArr (map (λ v, default JNull (clean v)) items))
  | JObj ps => Some (JObj (omap (λ kv, pair kv.1 <$> clean kv.2) ps))
  | _ => Some v
  end.

(** JSON can spell it: finite numbers but -0, nothing undefined. *)
Fixpoint spellable (v : js) : bool :=
  match v with
  | JUndef => false
  | JNum x => is_finite x && negb (bool_decide (x = NZero))
  | JArr items => forallb spellable items
  | JObj ps => forallb (λ kv, spellable kv.2) ps
  | _ => true
  end.

(** What [stringify] gives for a value. *)
Definition written (v : js) : Prop :=
  if has_nan v then ∃ msg, stringify v = Throw msg
  else ∃ t, stringify v = Ok t ∧ (clean v = None ↔ t = None) ∧
    (∀ x, t = Some x → spellable x = true ∧ (unmarked v = true → Some (revive x) = clean v)).

Lemma has_key_omap k ps qs : has_key k ps = false → Forall (λ kv, kv.1 ∈ map fst ps) qs → has_key k qs = false.
Proof.
  unfold has_key. rewrite <- !not_true_iff_false, !existsb_exists. intros H Hq (kv & Hkv & E). apply H.
  rewrite Forall_forall in Hq. apply list_elem_of_In, Hq, list_elem_of_fmap in Hkv as (kv' & E' & Hin). exists kv'.
  rewrite <- E', list_elem_of_In in *. done.
Qed.

Lemma written_num x : written (JNum x).
Proof.
  unfold written. destruct x as [| | | |k]; cbn [has_nan is_nan]; [by eexists|..]; eexists; (split; [reflexivity|]);
    (split; [done|]); intros y [= <-]; split; done.
Qed.

Lemma written_items l : Forall written l →
  if existsb has_nan l then ∃ msg, each_item stringify l = Throw msg
  else ∃ ts, each_item stringify l = Ok ts ∧ forallb spellable ts = true ∧
    (forallb unmarked l = true → map revive ts = map (λ v, default JNull (clean v)) l).
Proof.
  induction 1 as [|v l Hv _ IH]; [by eexists|]. cbn [existsb each_item forallb map]. unfold written in Hv. destruct (has_nan v); cbn [orb].
  - destruct Hv as [msg ->]. by eexists.
  - destruct Hv as (t & -> & Hc & Ht). cbn [res_bind]. destruct (existsb has_nan l); [destruct IH as [msg ->]; by eexists|].
    destruct IH as (ts & -> & Hs & Hr). cbn [res_bind]. eexists. split; [reflexivity|]. cbn [forallb map]. rewrite Hs, !andb_true_iff. split.
    + split; [|done]. destruct t as [x|]; [by apply Ht|done].
    + intros [Uv Ul]. rewrite (Hr Ul). f_equal. destruct t as [x|]; cbn [default].
      * apply (Ht x eq_refl) in Uv. by rewrite <- Uv.
      * by rewrite (proj2 Hc eq_refl).
Qed.

Lemma written_props ps : Forall (λ kv, written kv.2) ps →
  if existsb (λ kv, has_nan kv.2) ps then ∃ msg, each_prop stringify ps = Throw msg
  else ∃ ts, each_prop stringify ps = Ok ts ∧ forallb (λ kv, spellable kv.2) ts = true ∧ Forall (λ kv, kv.1 ∈ map fst ps) ts ∧
    (forallb (λ kv, unmarked kv.2) ps = true → map (λ kv, (kv.1, revive kv.2)) ts = omap (λ kv, pair kv.1 <$> clean kv.2) ps).
Proof.
  induction 1 as [|[k v] ps Hv _ IH]; [by eexists|]. cbn [existsb each_prop forallb map fst snd] in *. unfold written in Hv.
  destruct (has_nan v); cbn [orb].
  - destruct Hv as [msg ->]. by eexists.
  - destruct Hv as (t & -> & Hc & Ht). cbn [res_bind]. destruct (existsb _ ps); [destruct IH as [msg ->]; by eexists|].
    destruct IH as (ts & -> & Hs & Hk & Hr). cbn [res_bind]. eexists. split; [reflexivity|].
    assert (Hk' : Forall (λ kv : jsstr * js, kv.1 ∈ k :: map fst ps) ts) by (eapply Forall_impl; [exact Hk|]; intros; by right).
    destruct t as [x|].
    + destruct (Ht x eq_refl) as [Sx Rx]. cbn [forallb fst snd]. rewrite Sx, Hs. split_and!; [done|constructor; [by left|done]|].
      intros [Uv Ul]%andb_true_iff. cbn [map fst snd]. rewrite (Hr Ul). simpl. by rewrite <- (Rx Uv).
    + rewrite Hs. split_and!; [done|done|]. intros [Uv Ul]%andb_true_iff. rewrite (Hr Ul). simpl. by rewrite (proj2 Hc eq_refl).
Qed.

Lemma stringify_written v : written v.
Proof.
  induction v as [| |b|x|s|l IH|ps IH] using js_full_ind; try exact (written_num x);
    try (eexists; (split; [reflexivity|]); (split; [done|]); intros y [= <-]; split; done).
  - apply written_items in IH. unfold written. cbn [has_nan]. destruct (existsb has_nan l).
    + destruct IH as [msg E]. cbn [stringify replacer res_bind]. rewrite E. by eexists.
    + destruct IH as (ts & E & Hs & Hr). cbn [stringify replacer res_bind]. rewrite E. eexists. split; [reflexivity|]. split; [done|].
      intros x [= <-]. split; [done|]. intros U. cbn [revive reviver clean]. by rewrite (Hr U).
  - apply written_props in IH. unfold written. cbn [has_nan]. destruct (existsb _ ps).
    + destruct IH as [msg E]. cbn [stringify replacer res_bind]. rewrite E. by eexists.
    + destruct IH as (ts & E & Hs & Hk & Hr). cbn [stringify replacer res_bind]. rewrite E. eexists. split; [reflexivity|]. split; [done|].
      intros x [= <-]. split; [done|]. cbn [unmarked]. intros [U1%negb_true_iff U2]%andb_true_iff. cbn [revive clean]. rewrite <- (Hr U2).
      unfold reviver. rewrite (has_key_omap _ ps); [done|done|]. apply Forall_map. exact Hk.
Qed.

Lemma num_eq_version x : num_eq x IR_VERSION = true ↔ x = IR_VERSION.
Proof.
  unfold IR_VERSION. split; [|intros ->; vm_compute; reflexivity].
  destruct x as [| | | |k]; [vm_compute; done..|]. unfold num_eq. cbn [is_nan key negb andb]. by intros ->%Z.eqb_eq.
Qed.

(** ** The theorems *)

(** C40. Serializing refuses exactly the modules that hold a NaN; every other one
    is written with finite numbers other than -0 only, and read back as the
    module itself less its undefined properties -- infinities and -0 included
    -- when it has this IR version and no object uses the sentinel's key. *)
Theorem serialize_roundtrip (ps : props) :
  if has_nan (JObj ps) then ∃ msg, serializeModule (JObj ps) = Throw msg
  else ∃ text, serializeModule (JObj ps) = Ok (Some text) ∧ spellable text = true ∧
    (unmarked (JObj ps) = true → ∃ m, clean (JObj ps) = Some m ∧
      (field m "irVersion" = JNum IR_VERSION → deserializeModule text = Ok m) ∧
      (field m "irVersion" ≠ JNum IR_VERSION → deserializeModule text = Throw "IR version mismatch")).
Proof.
  pose proof (stringify_written (JObj ps)) as H. unfold written in H. unfold serializeModule. destruct (has_nan (JObj ps)); [exact H|].
  destruct H as (t & E & Hc & Ht). rewrite E. destruct t as [x|]; [|discriminate (proj2 Hc eq_refl)].
  destruct (Ht x eq_refl) as [Hs Hr]. exists x. split_and!; [done|done|]. intros U. exists (revive x).
  unfold deserializeModule. cbv zeta. split_and!; [by rewrite Hr| |].
  - intros ->. by rewrite (proj2 (num_eq_version IR_VERSION) eq_refl).
  - intros F. destruct (field (revive x) "irVersion") as [| | |y| | |] eqn:G; try done.
    destruct (num_eq y IR_VERSION) eqn:Q; [|done]. apply num_eq_version in Q as ->. done.
Qed.

(** A literal of minus infinity next to a negative zero and an undefined property. *)
Definition sample_module : props :=
  [(js_of_string "irVersion", JNum IR_VERSION); (js_of_string "value", JNum NInf); (js_of_string "sign", JNum NZero); (js_of_string "optional", JUndef)].
Example serialize_roundtrip_witness :
  ∃ text, serializeModule (JObj sample_module) = Ok (Some text) ∧ deserializeModule text = Ok (JObj (take 3 sample_module)).
Proof.
  pose proof (serialize_roundtrip sample_module) as H. replace (has_nan (JObj sample_module)) with false in H by reflexivity.
  destruct H as (text & H1 & _ & H2). destruct (H2 eq_refl) as (m & Hm & Ho & _). exists text. split; [exact H1|].
  replace (clean (JObj sample_module)) with (Some (JObj (take 3 sample_module))) in Hm by (vm_compute; reflexivity).
  injection Hm as <-. apply Ho. vm_compute. reflexivity.
Defined.
