(* ===== verification/VisitWalk.v ===== *)
(** * Walks over a graph with a visited set

    The shape of the recursive type predicates: a node is decided on the spot,
    or by all of its children, or -- when it carries a key -- by all of its
    children unless the key was visited before, which answers true.  The answer
    of such a walk is whether every reachable node is good ([walk_spec]), and
    finitely many keys bound its recursion ([walk_total]). *)

From S2P Require Import Prelude.

(** [xs.every(p)] with state and exits. *)
Fixpoint every {X V} (p : X → V → option (bool * V)) (xs : list X) (v : V) : option (bool * V) :=
  match xs with
  | [] => Some (true, v)
  | x :: xs => match p x v with Some (true, v) => every p xs v | r => r end
  end.

(** The same without state. *)
Fixpoint every_opt {X} (p : X → option bool) (xs : list X) : option bool :=
  match xs with
  | [] => Some true
  | x :: xs => match p x with Some true => every_opt p xs | r => r end
  end.


Inductive node_view (X : Type) : Type :=
  | Leaf (b : bool)
  | Step (children : list X)
  | Keyed (key : string) (children : list X).
Arguments Leaf {X} b.
Arguments Step {X} children.
Arguments Keyed {X} key children.

Section walk.
Context {X : Type} (view : X → node_view X).

Fixpoint walk (fuel : nat) (x : X) (v : gset string) : option (bool * gset string) :=
  match fuel with
  | O => None
  | S fuel =>
      match view x with
      | Leaf b => Some (b, v)
      | Step ys => every (walk fuel) ys v
      | Keyed k ys => if bool_decide (k ∈ v) then Some (true, v) else every (walk fuel) ys ({[k]} ∪ v)
      end
  end.

(** ** What the walk decides *)

Definition children (x : X) : list X := match view x with Leaf _ => [] | Step ys | Keyed _ ys => ys end.
Definition child (x y : X) : Prop := y ∈ children x.
Definition all_good (x : X) : Prop := ∀ y, rtc child x y → view y ≠ Leaf false.

Lemma walk_false fuel : ∀ x v v', walk fuel x v = Some (false, v') → ∃ y, rtc child x y ∧ view y = Leaf false.
Proof.
  induction fuel as [|fuel IH]; intros x v v'; [done|]. cbn [walk].
  assert (He : ∀ ys v, every (walk fuel) ys v = Some (false, v') → ∃ y z, y ∈ ys ∧ rtc child y z ∧ view z = Leaf false).
  { induction ys as [|y ys IHy]; intros u; [done|]. cbn [every]. destruct (walk fuel y u) as [[[] w]|] eqn:E; intros H; try done.
    - destruct (IHy w H) as (a & b & Ha & Hb). exists a, b. split; [by right|done].
    - simplify_eq. destruct (IH _ _ _ E) as (z & Hz). exists y, z. split; [left|done]. }
  assert (Hc : ∀ ys, children x = ys → (∃ y z, y ∈ ys ∧ rtc child y z ∧ view z = Leaf false) → ∃ y, rtc child x y ∧ view y = Leaf false).
  { intros ys <- (y & z & Hy & Hz & E). exists z. split; [|done]. eapply rtc_l; [exact Hy|exact Hz]. }
  unfold children in Hc. destruct (view x) as [b|ys|k ys] eqn:V.
  - intros [= -> ->]. exists x. split; [apply rtc_refl|done].
  - intros H%He. by apply (Hc ys).
  - case_bool_decide as Hk; [done|]. intros H%He. by apply (Hc ys).
Qed.

(** Descending without keys. *)
Definition step (x y : X) : Prop := match view x with Step ys => y ∈ ys | _ => False end.
Definition ok (V : gset string) (x : X) : Prop :=
  ∀ y, rtc step x y → match view y with Leaf b => b = true | Step _ => True | Keyed k _ => k ∈ V end.
(** The nodes of interest: closed under children. *)
Context (D : X → Prop).
Hypothesis D_child : ∀ x y, D x → child x y → D y.
(** What was visited in between is settled. *)
Definition settled (v v' : gset string) : Prop := ∀ k y ys, k ∈ v' → k ∉ v → D y → view y = Keyed k ys → Forall (ok v') ys.

Lemma ok_mono V V' x : V ⊆ V' → ok V x → ok V' x.
Proof. intros HV H y Hy. specialize (H y Hy). destruct (view y); auto. Qed.

Lemma settled_trans v1 v2 v3 : v2 ⊆ v3 → settled v1 v2 → settled v2 v3 → settled v1 v3.
Proof.
  intros Hs H1 H2 k y ys Hk Hn Dy V. destruct (decide (k ∈ v2)) as [Hin|Hin]; [|by eapply H2].
  eapply Forall_impl; [by eapply H1|]. intros z. by apply ok_mono.
Qed.

Lemma settled_refl v : settled v v.
Proof. by intros k y ys H1 H2. Qed.

Hypothesis keys : ∀ x y k ys zs, D x → D y → view x = Keyed k ys → view y = Keyed k zs → ys = zs.

Lemma walk_true fuel : ∀ x v v', D x → walk fuel x v = Some (true, v') → v ⊆ v' ∧ ok v' x ∧ settled v v'.
Proof.
  induction fuel as [|fuel IH]; intros x v v' Dx; [done|]. cbn [walk].
  assert (He : ∀ ys v, (∀ y, y ∈ ys → D y) → every (walk fuel) ys v = Some (true, v') → v ⊆ v' ∧ Forall (ok v') ys ∧ settled v v').
  { induction ys as [|y ys IHy]; intros u Dy; cbn [every]; [intros [= ->]; split_and!; [done|constructor|apply settled_refl]|].
    destruct (walk fuel y u) as [[[] w]|] eqn:E; intros H; try done.
    destruct (IH _ _ _ (Dy y ltac:(left)) E) as (S1 & O1 & C1), (IHy w (λ z Hz, Dy z ltac:(by right)) H) as (S2 & O2 & C2). split_and!; [by etrans| |by eapply settled_trans].
    constructor; [by eapply ok_mono|done]. }
  assert (Hok : (∀ y, step x y → ok v' y) → match view x with Leaf b => b = true | Step _ => True | Keyed k _ => k ∈ v' end → ok v' x).
  { intros H1 H2 y Hy. inversion Hy as [|? z ? Hz Hzy]; subst; [done|]. by apply (H1 z Hz). }
  assert (Dys : ∀ y, y ∈ children x → D y) by (intros y Hy; by apply (D_child x)).
  unfold step in Hok. unfold children in Dys. destruct (view x) as [b|ys|k ys] eqn:V.
  - intros [= -> ->]. split_and!; [done|by apply Hok|apply settled_refl].
  - intros (S1 & O1 & C1)%(He _ _ Dys). split_and!; [done| |done]. apply Hok; [|done]. rewrite Forall_forall in O1. exact O1.
  - case_bool_decide as Hk.
    + intros [= ->]. split_and!; [done|by apply Hok|apply settled_refl].
    + intros (S1 & O1 & C1)%(He _ _ Dys). split_and!; [set_solver|apply Hok; [done|set_solver]|].
      intros q y zs Hq Hn Dy Vy. destruct (decide (q = k)) as [->|Hqk]; [by rewrite <- (keys _ _ _ _ _ Dx Dy V Vy)|].
      eapply C1; [exact Hq|set_solver|exact Dy|exact Vy].
Qed.

(** The answer of a walk that ends. *)
Theorem walk_spec fuel x b v : D x → walk fuel x ∅ = Some (b, v) → b = true ↔ all_good x.
Proof.
  intros Dx H. destruct b; split; try done.
  - intros _. destruct (walk_true fuel x ∅ v Dx H) as (_ & Hx & Hs).
    assert (Hr : ∀ y, rtc child x y → ok v y).
    { intros y Hy. revert Dx Hx. clear H. induction Hy as [|x0 y z Hxy _ IH]; [done|]. intros Dx Hx. apply IH; [by apply (D_child x0)|]. clear IH.
      unfold child, children in Hxy. destruct (view x0) as [b|ys|k ys] eqn:V; [by apply not_elem_of_nil in Hxy|..].
      - intros w Hw. apply Hx. eapply rtc_l; [|exact Hw]. unfold step. by rewrite V.
      - specialize (Hx x0 (rtc_refl _ _)) as Hk. rewrite V in Hk. pose proof (Hs k x0 ys Hk (not_elem_of_empty k) Dx V) as Hf.
        rewrite Forall_forall in Hf. by apply Hf. }
    intros y Hy V. specialize (Hr y Hy y (rtc_refl _ _)). by rewrite V in Hr.
  - intros Hg. destruct (walk_false fuel x ∅ v H) as (y & Hy & V). by destruct (Hg y Hy).
Qed.
End walk.

(** ** Enough fuel *)

Section total.
Context {X : Type} (view : X → node_view X) (K : gset string) (rank : X → nat) (R : nat).
Hypothesis step_rank : ∀ x ys y, view x = Step ys → y ∈ ys → (rank y < rank x)%nat.
(** A key outside of the known ones leads nowhere. *)
Hypothesis key_known : ∀ x k ys, view x = Keyed k ys → k ∈ K ∨ ys = [].
Hypothesis key_rank : ∀ x k ys y, view x = Keyed k ys → y ∈ ys → (rank y <= R)%nat.

Theorem walk_total fuel : ∀ x v, (size (K ∖ v) * (2 + R) + rank x < fuel)%nat → ∃ b v', walk view fuel x v = Some (b, v') ∧ v ⊆ v'.
Proof.
  induction fuel as [|fuel IH]; intros x v Hf; [lia|]. cbn [walk].
  assert (He : ∀ ys v, (∀ y, y ∈ ys → (size (K ∖ v) * (2 + R) + rank y < fuel)%nat) → ∃ b v', every (walk view fuel) ys v = Some (b, v') ∧ v ⊆ v').
  { induction ys as [|y ys IHy]; intros u Hy; cbn [every]; [by repeat eexists|].
    destruct (IH y u (Hy y ltac:(left))) as (b & w & -> & S1). destruct b; [|by repeat eexists].
    destruct (IHy w) as (b & w' & -> & S3); [|repeat eexists; by etrans].
    intros z Hz. specialize (Hy z ltac:(by right)). assert (size (K ∖ w) <= size (K ∖ u))%nat by (apply subseteq_size; set_solver). nia. }
  destruct (view x) as [b|ys|k ys] eqn:V; [by repeat eexists|..].
  - apply He. intros y Hy. pose proof (step_rank x ys y V Hy). lia.
  - case_bool_decide as Hk; [by repeat eexists|].
    destruct (key_known x k ys V) as [HkK| ->]; [|cbn [every]; eexists _, _; split; [done|set_solver]].
    destruct (He ys ({[k]} ∪ v)) as (b & w & -> & S1); [|repeat eexists; set_solver].
    intros y Hy. pose proof (key_rank x k ys y V Hy). assert (size (K ∖ ({[k]} ∪ v)) < size (K ∖ v))%nat; [|nia].
    apply subset_size. split; [set_solver|]. intros H'. assert (k ∈ K ∖ ({[k]} ∪ v)); [|set_solver]. apply H'. set_solver.
Qed.
End total.

(** ** Pointwise facts about [every] *)

Lemma every_ext {X V} (p q : X → V → option (bool * V)) xs : (∀ x v, x ∈ xs → p x v = q x v) → ∀ v, every p xs v = every q xs v.
Proof.
  induction xs as [|x xs IH]; intros H v; [done|]. cbn [every]. rewrite (H x v ltac:(left)).
  destruct (q x v) as [[[] w]|]; [|done|done]. apply IH. intros y u Hy. apply H. by right.
Qed.

Lemma every_map {X Y V} (f : X → Y) (p : Y → V → option (bool * V)) xs : ∀ v, every p (map f xs) v = every (λ x, p (f x)) xs v.
Proof. induction xs as [|x xs IH]; intros v; [done|]. cbn [map every]. destruct (p (f x) v) as [[[] w]|]; [apply IH|done|done]. Qed.

Lemma every_app {X V} (p : X → V → option (bool * V)) xs ys : ∀ v,
  every p (xs ++ ys) v = match every p xs v with Some (true, w) => every p ys w | r => r end.
Proof. induction xs as [|x xs IH]; intros v; [done|]. cbn [app every]. destruct (p x v) as [[[] w]|]; [apply IH|done|done]. Qed.

Lemma every_one {X V} (p : X → V → option (bool * V)) x v : every p [x] v = p x v.
Proof. cbn [every]. by destruct (p x v) as [[[] w]|]. Qed.
