(* ===== verification/TypeDomains.v ===== *)
(** * What a type admits: JSON, the island boundary, checked-dynamic values

    The type predicates of src/packages/compiler/src/ir/nodes.ts over the
    registries of record shapes and unions.  A walk that may meet a shape again
    threads the set of what it has visited, as the code does; a walk ends for
    lack of fuel ([None]) or with an answer. *)

From S2P Require Import Prelude TypeKey VisitWalk.

#[local] Open Scope string_scope.

(** ** Registries *)

Record IrField := mkField { f_name : string; f_type : IrType; f_optional : bool; f_internal : bool }.
Record IrRecordShape := mkShape { fields : list IrField; tuple : bool; indexValue : option IrType }.

(** [accessorSlotProp] and the slots of a shape. *)
Inductive accessor_kind := AGet | ASet.
Definition accessorSlotProp (fieldName : string) : option (accessor_kind * string) :=
  if String.prefix "%get:" fieldName then Some (AGet, String.substring 5 (String.length fieldName - 5) fieldName)
  else if String.prefix "%set:" fieldName then Some (ASet, String.substring 5 (String.length fieldName - 5) fieldName)
  else None.
Definition isInternalField (shape : IrRecordShape) (fieldName : string) : bool :=
  existsb (λ f, String.eqb (f_name f) fieldName && f_internal f) (fields shape).
Definition shapeFieldCopy (f : IrField) (type : option IrType) (optional : option bool) : IrField :=
  mkField (f_name f) (default (f_type f) type) (default (f_optional f) optional) (f_internal f).
Definition isReservedField (shape : IrRecordShape) (fieldName : string) : bool :=
  bool_decide (is_Some (accessorSlotProp fieldName)) || isInternalField shape fieldName.
Definition shapeHasReservedFields (shape : IrRecordShape) : bool := existsb (λ f, isReservedField shape (f_name f)) (fields shape).
Definition shapeHasAccessorSlots (shape : IrRecordShape) : bool := existsb (λ f, bool_decide (is_Some (accessorSlotProp (f_name f)))) (fields shape).

Definition is_dyn (t : IrType) : bool := match t with Prim Kdyn => true | _ => false end.
Definition is_jsval (t : IrType) : bool := match t with Prim Kjsval => true | _ => false end.
Definition is_void (t : IrType) : bool := match t with Prim Kvoid => true | _ => false end.
Definition is_undefinedT (t : IrType) : bool := match t with Prim KundefinedT => true | _ => false end.
Definition bool_string (b : bool) : string := if b then "true" else "false".

Section domains.
Context (records : gmap string IrRecordShape) (unions : gmap string (list IrType)).

Definition isUndefinedArmedUnion (t : IrType) : bool :=
  match t with
  | Union_ unionId => match unions !! unionId with Some arms => existsb is_undefinedT arms | None => false end
  | _ => false
  end.

(** ** JSON *)

Fixpoint isJsonSafeAt (fuel : nat) (t : IrType) (inRecordField : bool) (visiting : gset string) : option (bool * gset string) :=
  match fuel with
  | O => None
  | S fuel =>
      match t with
      | Prim Kf64 | Prim Kstring | Prim Kbool => Some (true, visiting)
      | Array elem => isJsonSafeAt fuel elem false visiting
      | Record_ shapeId =>
          match records !! shapeId with
          | None => Some (false, visiting)
          | Some shape =>
              if bool_decide (shapeId ∈ visiting) then Some (true, visiting)
              else
                match every (λ f v, isJsonSafeAt fuel (f_type f) (negb (tuple shape)) v) (fields shape) ({[shapeId]} ∪ visiting) with
                | Some (true, visiting) =>
                    match indexValue shape with
                    | Some iv => if negb (is_dyn iv) then isJsonSafeAt fuel iv true visiting else Some (true, visiting)
                    | None => Some (true, visiting)
                    end
                | r => r
                end
          end
      | Union_ unionId =>
          match unions !! unionId with
          | None => Some (false, visiting)
          | Some arms =>
              let key := unionId +:+ ":" +:+ bool_string inRecordField in
              if bool_decide (key ∈ visiting) then Some (true, visiting)
              else every (λ a v, isJsonSafeAt fuel a inRecordField v) arms ({[key]} ∪ visiting)
          end
      | Prim KundefinedT => Some (inRecordField, visiting)
      | Prim KnullT => Some (true, visiting)
      | _ => Some (false, visiting)
      end
  end.

(** ** The bytes-bearing composites *)

Fixpoint canBoxBytesComposite (fuel : nat) (t : IrType) (visiting : gset string) : option (bool * gset string) :=
  match fuel with
  | O => None
  | S fuel =>
      match t with
      | Prim Kf64 | Prim Kstring | Prim Kbool | Prim Kdyn | Prim KundefinedT | Prim KnullT => Some (true, visiting)
      | Bytes elem => Some (bool_decide (elem = BU8), visiting)
      | Array elem => canBoxBytesComposite fuel elem visiting
      | Record_ shapeId =>
          match records !! shapeId with
          | None => Some (false, visiting)
          | Some shape =>
              if bool_decide (shapeId ∈ visiting) then Some (true, visiting)
              else
                match every (λ f v, canBoxBytesComposite fuel (f_type f) v) (fields shape) ({[shapeId]} ∪ visiting) with
                | Some (true, visiting) =>
                    match indexValue shape with Some iv => canBoxBytesComposite fuel iv visiting | None => Some (true, visiting) end
                | r => r
                end
          end
      | Union_ unionId =>
          match unions !! unionId with
          | None => Some (false, visiting)
          | Some arms =>
              if bool_decide (unionId ∈ visiting) then Some (true, visiting)
              else every (λ a v, canBoxBytesComposite fuel a v) arms ({[unionId]} ∪ visiting)
          end
      | _ => Some (false, visiting)
      end
  end.

(** ** Fuel: every visit adds one of finitely many keys, and between two visits
    a walk descends through arrays only. *)

Fixpoint array_depth (t : IrType) : nat := match t with Array e => S (array_depth e) | _ => 0 end.
Definition shape_types (s : IrRecordShape) : list IrType := (map f_type (fields s) ++ match indexValue s with Some iv => [iv] | None => [] end)%list.
Definition registry_types : list IrType :=
  ((map_to_list records ≫= λ ks, shape_types ks.2) ++ (map_to_list unions ≫= λ ua, ua.2))%list.
Definition registry_depth : nat := list_max (map array_depth registry_types).
Definition walk_fuel (t : IrType) : nat := (S (size records + 2 * size unions) * (2 + registry_depth) + 2 + array_depth t)%nat.

Definition isJsonSafeType (t : IrType) : bool := match isJsonSafeAt (walk_fuel t) t false ∅ with Some (b, _) => b | None => false end.
Definition boxesBytesComposite (t : IrType) : bool := match canBoxBytesComposite (walk_fuel t) t ∅ with Some (b, _) => b | None => false end.

(** ** The island boundary *)

Definition canCrossIslandBoundary (t : IrType) : bool := isJsonSafeType t.

Definition MAX_ISLAND_CALLBACK_ARITY : nat := 16.
Definition canMarshalFuncIntoIsland (t : IrType) : bool :=
  match t with
  | Func params ret rest _ =>
      negb rest && (length params <=? MAX_ISLAND_CALLBACK_ARITY)%nat && forallb is_jsval params &&
      match ret with Prim Kjsval | Prim Kvoid | Prim Kf64 | Prim Kbool | Prim Kstring => true | _ => false end
  | _ => false
  end.

Definition isIslandCallbackParamType (t : IrType) : bool :=
  if is_jsval t then true
  else if isJsonSafeType t then true
  else match t with
  | Union_ unionId =>
      match unions !! unionId with Some arms => forallb (λ a, is_undefinedT a || isJsonSafeType a) arms | None => false end
  | _ => false
  end.

Inductive ret_tag := TagVoid | TagJsval | TagF64 | TagBool | TagString | TagJson | TagDyn.
Definition tagOf (r : IrType) : option ret_tag :=
  match r with
  | Prim Kvoid => Some TagVoid | Prim Kjsval => Some TagJsval | Prim Kf64 => Some TagF64 | Prim Kbool => Some TagBool
  | Prim Kstring => Some TagString | _ => None
  end.
(** [async] and [tag]. *)
Definition islandCallbackRet (t : IrType) : option (bool * ret_tag) :=
  match t with
  | Promise_ inner => pair true <$> tagOf inner
  | _ =>
      match tagOf t with
      | Some tag => Some (false, tag)
      | None => if is_dyn t then Some (false, TagDyn) else if isJsonSafeType t then Some (false, TagJson) else None
      end
  end.

Definition canMarshalTypedFuncIntoIsland (t : IrType) : bool :=
  match t with
  | Func params ret rest restJsval =>
      if rest then
        restJsval && (1 <=? length params)%nat && (length params <=? MAX_ISLAND_CALLBACK_ARITY)%nat &&
        match last params with Some p => is_jsval p | None => false end &&
        forallb isIslandCallbackParamType (take (length params - 1) params) && bool_decide (is_Some (islandCallbackRet ret))
      else
        (length params <=? MAX_ISLAND_CALLBACK_ARITY)%nat && forallb isIslandCallbackParamType params && bool_decide (is_Some (islandCallbackRet ret))
  | _ => false
  end.

Definition canMarshalIntoIsland (t : IrType) : bool := isJsonSafeType t || canMarshalFuncIntoIsland t.

Inductive payload_tag := PVoid | PF64 | PBool | PString | PJsval | PJsvalArr.
Definition islandPromisePayloadTag (inner : IrType) : option payload_tag :=
  match inner with
  | Prim Kvoid => Some PVoid | Prim Kf64 => Some PF64 | Prim Kbool => Some PBool | Prim Kstring => Some PString | Prim Kjsval => Some PJsval
  | Array elem => if is_jsval elem then Some PJsvalArr else None
  | _ => None
  end.

Definition jsval_array (t : IrType) : bool := match t with Array e => is_jsval e | _ => false end.
Definition bytes_u8 (t : IrType) : bool := match t with Bytes e => bool_decide (e = BU8) | _ => false end.

Definition canExitIslandToType (t : IrType) : bool :=
  if canCrossIslandBoundary t then true
  else if bytes_u8 t then true
  else if jsval_array t then true
  else match t with
  | Union_ unionId =>
      match unions !! unionId with
      | Some arms =>
          if negb (existsb is_undefinedT arms) then false
          else if forallb (λ a, isUnitType a || isJsonSafeType a) arms then true
          else match List.filter (λ a, negb (isUnitType a)) arms with [a] => jsval_array a | _ => false end
      | None => false
      end
  | _ => false
  end.

(** ** The checked-dynamic boundary *)

(** The keys of the map. *)
Definition DYN_HANDLE_KINDS (t : IrType) : bool :=
  match t with
  | Prim KhttpReq | Prim KhttpRes | Prim KnetSocket | Prim KnetServer | Prim Khttp2Session | Prim Khttp2Stream | Prim KhttpClientReq => true
  | _ => false
  end.
Definition is_error_object (t : IrType) : bool := match t with Object_ c => String.eqb c "%Error" | _ => false end.

Fixpoint canConvertToDyn (fuel : nat) (t : IrType) : option bool :=
  match fuel with
  | O => None
  | S fuel =>
      if isJsonSafeType t then Some true
      else if boxesBytesComposite t then Some true
      else if bytes_u8 t then Some true
      else if is_error_object t then Some true
      else match t with
      | Func _ _ _ _ => canBoxFuncIntoDyn fuel t
      | _ =>
          if DYN_HANDLE_KINDS t then Some true
          else match t with
          | Promise_ inner => if is_dyn inner || is_jsval inner || is_void inner then Some true else canConvertToDyn fuel inner
          | Union_ unionId =>
              match unions !! unionId with
              | Some arms =>
                  every_opt (λ a, if is_undefinedT a || isJsonSafeType a then Some true
                    else match a with Func _ _ _ _ => canBoxFuncIntoDyn fuel a | _ => Some false end) arms
              | None => Some false
              end
          | _ => Some false
          end
      end
  end
with canDynCheckTo (fuel : nat) (t : IrType) : option bool :=
  match fuel with
  | O => None
  | S fuel =>
      if isJsonSafeType t then Some true
      else if bytes_u8 t then Some true
      else if is_error_object t then Some true
      else match t with
      | Func _ _ _ _ => canAdaptDynFuncTo fuel t false
      | _ =>
          if DYN_HANDLE_KINDS t then Some true
          else match t with
          | Union_ unionId =>
              match unions !! unionId with Some arms => Some (forallb (λ a, is_undefinedT a || isJsonSafeType a) arms) | None => Some false end
          | _ => Some false
          end
      end
  end
with canBoxFuncIntoDyn (fuel : nat) (t : IrType) : option bool :=
  match fuel with
  | O => None
  | S fuel =>
      match t with
      | Func params ret _ _ =>
          match every_opt (λ p, if is_dyn p || is_jsval p then Some true else canDynCheckTo fuel p) params with
          | Some true => if is_void ret || is_dyn ret || is_jsval ret then Some true else canConvertToDyn fuel ret
          | r => r
          end
      | _ => Some false
      end
  end
with canAdaptDynFuncTo (fuel : nat) (t : IrType) (jsvalOk : bool) : option bool :=
  match fuel with
  | O => None
  | S fuel =>
      match t with
      | Func params ret rest _ =>
          if rest then Some false
          else match every_opt (λ p, if is_dyn p || jsvalOk && is_jsval p then Some true else canConvertToDyn fuel p) params with
          | Some true => if is_void ret || is_dyn ret || jsvalOk && is_jsval ret then Some true else canDynCheckTo fuel ret
          | r => r
          end
      | _ => Some false
      end
  end.
End domains.

(** ** The graphs behind the walks *)

Definition field_nodes (records : gmap string IrRecordShape) (unions : gmap string (list IrType)) (n : IrType * bool) : node_view (IrType * bool) :=
  let '(t, inRecordField) := n in
  match t with
  | Prim Kf64 | Prim Kstring | Prim Kbool | Prim KnullT => Leaf true
  | Prim KundefinedT => Leaf inRecordField
  | Array elem => Step [(elem, false)]
  | Record_ id =>
      match records !! id with
      | Some shape =>
          Keyed id (map (λ f, (f_type f, negb (tuple shape))) (fields shape) ++
            match indexValue shape with Some iv => if is_dyn iv then [] else [(iv, true)] | None => [] end)%list
      | None => Leaf false
      end
  | Union_ id =>
      match unions !! id with
      | Some arms => Keyed (id +:+ ":" +:+ bool_string inRecordField) (map (λ a, (a, inRecordField)) arms)
      | None => Leaf false
      end
  | _ => Leaf false
  end.

Definition bytes_nodes (records : gmap string IrRecordShape) (unions : gmap string (list IrType)) (t : IrType) : node_view IrType :=
  match t with
  | Prim Kf64 | Prim Kstring | Prim Kbool | Prim Kdyn | Prim KundefinedT | Prim KnullT => Leaf true
  | Bytes elem => Leaf (bool_decide (elem = BU8))
  | Array elem => Step [elem]
  | Record_ id => match records !! id with Some shape => Keyed id (shape_types shape) | None => Leaf false end
  | Union_ id => match unions !! id with Some arms => Keyed id arms | None => Leaf false end
  | _ => Leaf false
  end.

Section walks.
Context (records : gmap string IrRecordShape) (unions : gmap string (list IrType)).
Notation jview := (field_nodes records unions).
Notation bview := (bytes_nodes records unions).

Lemma json_walk fuel : ∀ t b v, isJsonSafeAt records unions fuel t b v = walk jview fuel (t, b) v.
Proof.
  induction fuel as [|fuel IH]; intros t b v; [done|]. cbn [isJsonSafeAt walk field_nodes].
  destruct t as [[]|e|e|k w|e|ps r rest abi|c|c|id|id|e|y r n]; try done; cbn [field_nodes bytes_nodes].
  - by rewrite (every_one (walk jview fuel)), IH.
  - destruct (records !! id) as [shape|]; [|done]. case_bool_decide; [done|].
    rewrite (every_app (walk jview fuel)), (every_map _ (walk jview fuel)), (every_ext _ (λ f v, walk jview fuel (f_type f, negb (tuple shape)) v)) by (intros; apply IH).
    destruct (every _ (fields shape) _) as [[[] u]|]; try done. destruct (indexValue shape) as [iv|]; [|done].
    destruct (is_dyn iv); [done|]. cbn [negb]. by rewrite (every_one (walk jview fuel)), IH.
  - destruct (unions !! id) as [arms|]; [|done]. case_bool_decide; [done|]. rewrite (every_map _ (walk jview fuel)). apply every_ext. intros a u _. apply IH.
Qed.

Lemma bytes_walk fuel : ∀ t v, canBoxBytesComposite records unions fuel t v = walk bview fuel t v.
Proof.
  induction fuel as [|fuel IH]; intros t v; [done|]. cbn [canBoxBytesComposite walk bytes_nodes].
  destruct t as [[]|e|e|k w|e|ps r rest abi|c|c|id|id|e|y r n]; try done; cbn [field_nodes bytes_nodes].
  - by rewrite (every_one (walk bview fuel)), IH.
  - destruct (records !! id) as [shape|]; [|done]. case_bool_decide; [done|]. unfold shape_types.
    rewrite (every_app (walk bview fuel)), (every_map _ (walk bview fuel)), (every_ext _ (λ f v, walk bview fuel (f_type f) v)) by (intros; apply IH).
    destruct (every _ (fields shape) _) as [[[] u]|]; try done. destruct (indexValue shape) as [iv|]; [|done]. by rewrite (every_one (walk bview fuel)), IH.
  - destruct (unions !! id) as [arms|]; [|done]. case_bool_decide; [done|]. apply every_ext. intros a u _. apply IH.
Qed.

(** *** Fuel *)

Lemma list_max_elem n l : n ∈ l → (n <= list_max l)%nat.
Proof. induction l as [|m l IH]; intros H; [by apply not_elem_of_nil in H|]. apply elem_of_cons in H as [->|H]; simpl; [lia|]. specialize (IH H). lia. Qed.

Lemma registry_rank t : t ∈ registry_types records unions → (array_depth t <= registry_depth records unions)%nat.
Proof. intros H. apply list_max_elem. by apply list_elem_of_fmap_2. Qed.

Lemma shape_registered id shape t : records !! id = Some shape → t ∈ shape_types shape → t ∈ registry_types records unions.
Proof.
  intros H Ht. apply elem_of_app. left. apply list_elem_of_bind. exists (id, shape). split; [done|]. by apply elem_of_map_to_list.
Qed.

Lemma arm_registered id arms t : unions !! id = Some arms → t ∈ arms → t ∈ registry_types records unions.
Proof.
  intros H Ht. apply elem_of_app. right. apply list_elem_of_bind. exists (id, arms). split; [done|]. by apply elem_of_map_to_list.
Qed.

Definition key_list : list string :=
  ((map_to_list records).*1 ++ map (λ u : string * _, u.1 +:+ ":" +:+ "true") (map_to_list unions) ++
   map (λ u : string * _, u.1 +:+ ":" +:+ "false") (map_to_list unions))%list.

Lemma list_to_set_size (l : list string) : (size (list_to_set l : gset string) <= length l)%nat.
Proof.
  induction l as [|x l IH]; cbn [list_to_set length]; [rewrite size_empty; lia|]. rewrite size_union_alt, size_singleton.
  assert (size (list_to_set l ∖ {[x]} : gset string) <= size (list_to_set l : gset string))%nat by (apply subseteq_size; set_solver). lia.
Qed.

Lemma key_list_length : length key_list = (size records + 2 * size unions)%nat.
Proof. unfold key_list. rewrite !length_app, !length_map, !length_map_to_list. lia. Qed.

Lemma json_total t : ∃ b v, isJsonSafeAt records unions (walk_fuel records unions t) t false ∅ = Some (b, v).
Proof.
  rewrite json_walk. destruct (walk_total jview (list_to_set key_list) (λ n, array_depth n.1) (registry_depth records unions)) with
    (fuel := walk_fuel records unions t) (x := (t, false)) (v := (∅ : gset string)) as (b & v & H & _); [..|by repeat eexists].
  - intros [t' b] ys y. destruct t' as [[]|e|e|k w|e|ps r rest abi|c|c|id|id|e|y0 r n]; cbn; try done; try (by case_match).
    intros [= <-] Hy. apply list_elem_of_singleton in Hy as ->. cbn. lia.
  - intros [t' b] k ys. destruct t' as [[]|e|e|k' w|e|ps r rest abi|c|c|id|id|e|y0 r n]; cbn [field_nodes]; try done;
      (case_match eqn:E; [|done]); intros [= <- _]; left; apply elem_of_list_to_set; unfold key_list.
    + apply elem_of_app. left. apply list_elem_of_fmap. exists (id, i). split; [done|by apply elem_of_map_to_list].
    + apply elem_of_app. right. apply elem_of_app. destruct b; [left|right]; apply list_elem_of_fmap; exists (id, l);
        (split; [done|by apply elem_of_map_to_list]).
  - intros [t' b] k ys y. destruct t' as [[]|e|e|k' w|e|ps r rest abi|c|c|id|id|e|y0 r n]; cbn [field_nodes]; try done;
      (case_match eqn:E; [|done]); intros [= _ <-] Hy; apply registry_rank.
    + apply (shape_registered _ _ _ E). unfold shape_types. apply elem_of_app in Hy as [Hy|Hy]; apply elem_of_app; [left|right].
      * apply list_elem_of_fmap in Hy as (f & -> & Hf). apply list_elem_of_fmap. by exists f.
      * destruct (indexValue i) as [iv|]; [|by apply not_elem_of_nil in Hy]. destruct (is_dyn iv); [by apply not_elem_of_nil in Hy|]. apply list_elem_of_singleton in Hy as ->. left.
    + apply list_elem_of_fmap in Hy as (a & -> & Ha). by apply (arm_registered _ _ _ E).
  - pose proof (list_to_set_size key_list) as H. rewrite key_list_length in H. unfold walk_fuel.
    assert (size (list_to_set key_list ∖ ∅ : gset string) <= size (list_to_set key_list : gset string))%nat by (apply subseteq_size; set_solver). cbn [fst]. nia.
Qed.

Lemma bytes_total t : ∃ b v, canBoxBytesComposite records unions (walk_fuel records unions t) t ∅ = Some (b, v).
Proof.
  rewrite bytes_walk. destruct (walk_total bview (dom records ∪ dom unions) array_depth (registry_depth records unions)) with
    (fuel := walk_fuel records unions t) (x := t) (v := (∅ : gset string)) as (b & v & H & _); [..|by repeat eexists].
  - intros t' ys y. destruct t' as [[]|e|e|k w|e|ps r rest abi|c|c|id|id|e|y0 r n]; cbn; try done; try (by case_match).
    intros [= <-] Hy. apply list_elem_of_singleton in Hy as ->. lia.
  - intros t' k ys. destruct t' as [[]|e|e|k' w|e|ps r rest abi|c|c|id|id|e|y0 r n]; cbn [bytes_nodes]; try done;
      (case_match eqn:E; [|done]); intros [= <- _]; left; apply elem_of_union; [left|right]; by eapply elem_of_dom_2.
  - intros t' k ys y. destruct t' as [[]|e|e|k' w|e|ps r rest abi|c|c|id|id|e|y0 r n]; cbn [bytes_nodes]; try done;
      (case_match eqn:E; [|done]); intros [= _ <-] Hy; apply registry_rank.
    + by apply (shape_registered _ _ _ E).
    + by apply (arm_registered _ _ _ E).
  - unfold walk_fuel. assert (size ((dom records ∪ dom unions) ∖ ∅ : gset string) <= size records + size unions)%nat; [|nia].
    rewrite <- (size_dom records), <- (size_dom unions). etrans; [apply subseteq_size with (Y := dom records ∪ dom unions); set_solver|].
    rewrite size_union_alt. assert (size (dom unions ∖ dom records) <= size (dom unions))%nat by (apply subseteq_size; set_solver). lia.
Qed.
End walks.

(** ** What the walks decide *)

(** Shape ids and union ids (and the marked keys made of them) are apart, as the
    registries number them ([r0], [u0], ...). *)
Definition ids_apart (records : gmap string IrRecordShape) (unions : gmap string (list IrType)) : Prop :=
  ∀ id u, is_Some (records !! id) → is_Some (unions !! u) → id ≠ u ∧ ∀ b, id ≠ u +:+ ":" +:+ bool_string b.

Lemma slen_app (a b : string) : String.length (a +:+ b) = (String.length a + String.length b)%nat.
Proof. induction a as [|c a IH]; [done|]. rewrite app_cons. simpl. by rewrite IH. Qed.

Lemma app_inj_suffix (s : string) u : ∀ u', u +:+ s = u' +:+ s → u = u'.
Proof.
  induction u as [|c u IH]; intros [|c' u'] E; [done|..].
  - apply (f_equal String.length) in E. rewrite !slen_app in E. simpl in E. lia.
  - apply (f_equal String.length) in E. rewrite !slen_app in E. simpl in E. lia.
  - rewrite !app_cons in E. injection E as -> E. f_equal. by apply IH.
Qed.

Lemma marks_differ u : ∀ u', u +:+ ":true" ≠ u' +:+ ":false".
Proof.
  induction u as [|c u IH]; intros [|c' u'] E; try (by injection E).
  - rewrite app_empty, app_cons in E. apply (f_equal String.length) in E. simpl in E. rewrite slen_app in E. simpl in E. lia.
  - rewrite app_empty, app_cons in E. injection E as _ E. destruct u as [|d u]; [discriminate E|].
    apply (f_equal String.length) in E. rewrite slen_app in E. simpl in E. lia.
  - rewrite !app_cons in E. injection E as _ E. by apply (IH u').
Qed.

Lemma mark_inj u u' b b' : u +:+ ":" +:+ bool_string b = u' +:+ ":" +:+ bool_string b' → u = u' ∧ b = b'.
Proof.
  destruct b, b'; cbn [bool_string]; intros E.
  - by apply app_inj_suffix in E.
  - by apply marks_differ in E.
  - symmetry in E. by apply marks_differ in E.
  - by apply app_inj_suffix in E.
Qed.

Section decide_domains.
Context (records : gmap string IrRecordShape) (unions : gmap string (list IrType)).
Hypothesis apart : ids_apart records unions.
Notation jview := (field_nodes records unions).
Notation bview := (bytes_nodes records unions).

(** Where a key comes from. *)
Lemma jview_key n k ys : jview n = Keyed k ys →
  (∃ shape b, n = (Record_ k, b) ∧ records !! k = Some shape) ∨ (∃ u b arms, n = (Union_ u, b) ∧ unions !! u = Some arms ∧ k = u +:+ ":" +:+ bool_string b).
Proof.
  destruct n as [t b]. destruct t as [[]|e|e|k' w|e|ps r rest abi|c|c|id|id|e|y r n]; cbn [field_nodes]; try done; (case_match eqn:E; [|done]); intros [= <- _].
  - left. by repeat eexists.
  - right. by repeat eexists.
Qed.

Lemma jview_keys n m k ys zs : jview n = Keyed k ys → jview m = Keyed k zs → ys = zs.
Proof.
  intros H1 H2. pose proof (jview_key _ _ _ H1) as [(s1 & b1 & -> & E1)|(u1 & b1 & a1 & -> & E1 & ->)];
    pose proof (jview_key _ _ _ H2) as [(s2 & b2 & -> & E2)|(u2 & b2 & a2 & -> & E2 & K)].
  - cbn [field_nodes] in H1, H2. rewrite E1 in H1. rewrite E1 in H2. congruence.
  - subst k. destruct (apart _ _ (mk_is_Some _ _ E1) (mk_is_Some _ _ E2)) as [_ A]. by destruct (A b2).
  - destruct (apart _ _ (mk_is_Some _ _ E2) (mk_is_Some _ _ E1)) as [_ A]. by destruct (A b1).
  - apply mark_inj in K as [-> ->]. congruence.
Qed.

Lemma bview_keys n m k ys zs : bview n = Keyed k ys → bview m = Keyed k zs → ys = zs.
Proof.
  assert (Hk : ∀ n ys, bview n = Keyed k ys → (n = Record_ k ∧ is_Some (records !! k)) ∨ (n = Union_ k ∧ is_Some (unions !! k))).
  { intros t xs. destruct t as [[]|e|e|k' w|e|ps r rest abi|c|c|id|id|e|y r t3]; cbn [bytes_nodes]; try done; (case_match eqn:E; [|done]); intros [= <- _].
    - left. by split; [|eexists].
    - right. by split; [|eexists]. }
  intros H1 H2. destruct (Hk _ _ H1) as [[-> E1]|[-> E1]], (Hk _ _ H2) as [[-> E2]|[-> E2]]; try congruence.
  - by destruct (apart _ _ E1 E2).
  - by destruct (apart _ _ E2 E1).
Qed.

Lemma json_decides t : isJsonSafeType records unions t = true ↔ all_good jview (t, false).
Proof.
  unfold isJsonSafeType. destruct (json_total records unions t) as (b & v & E). rewrite E. rewrite json_walk in E.
  eapply (walk_spec _ (λ _, True)); [done|intros; by eapply jview_keys|done|exact E].
Qed.

Lemma bytes_decides t : boxesBytesComposite records unions t = true ↔ all_good bview t.
Proof.
  unfold boxesBytesComposite. destruct (bytes_total records unions t) as (b & v & E). rewrite E. rewrite bytes_walk in E.
  eapply (walk_spec _ (λ _, True)); [done|intros; by eapply bview_keys|done|exact E].
Qed.

(** A child of the larger graph is one of the smaller, or a dynamic overflow value. *)
Lemma bytes_child t b y : child bview t y → (∃ b', child jview (t, b) (y, b')) ∨ y = Prim Kdyn.
Proof.
  unfold child, children. destruct t as [[]|e|e|k w|e|ps r rest abi|c|c|id|id|e|y0 r n]; cbn [field_nodes bytes_nodes]; try (intros H; by apply not_elem_of_nil in H).
  - intros ->%list_elem_of_singleton. left. exists false. by left.
  - destruct (records !! id) as [shape|]; [|intros H; by apply not_elem_of_nil in H]. unfold shape_types. intros [H|H]%elem_of_app.
    + left. apply list_elem_of_fmap in H as (f & -> & Hf). eexists. apply elem_of_app. left. apply list_elem_of_fmap. by exists f.
    + destruct (indexValue shape) as [iv|]; [|by apply not_elem_of_nil in H]. apply list_elem_of_singleton in H as ->.
      destruct (is_dyn iv) eqn:D; [right; by destruct iv as [[]| | | | | | | | | | |]|]. left. exists true. apply elem_of_app. right. by left.
  - destruct (unions !! id) as [arms|]; [|intros H; by apply not_elem_of_nil in H]. intros H. left. exists b. apply list_elem_of_fmap. by exists y.
Qed.

Lemma json_in_bytes t : isJsonSafeType records unions t = true → boxesBytesComposite records unions t = true.
Proof.
  rewrite json_decides, bytes_decides. intros H. generalize false as b, H. clear H. intros b H y Hy. revert b H.
  induction Hy as [t|t u y Hu Huy IH]; intros b H.
  - specialize (H (t, b) (rtc_refl _ _)). destruct t as [[]|e|e|k w|e|ps r rest abi|c|c|id|id|e|y0 r n]; cbn [field_nodes bytes_nodes] in *; try done.
    + by destruct (records !! id).
    + by destruct (unions !! id).
  - destruct (bytes_child t b u Hu) as [(b' & Hb)| ->].
    + apply (IH b'). intros z Hz. apply H. eapply rtc_l; [exact Hb|exact Hz].
    + inversion Huy as [|? z ? Hz]; subst; [done|]. by apply not_elem_of_nil in Hz.
Qed.
End decide_domains.

(** ** Termination of the checked-dynamic predicates *)

(** A bound on the unions a function or promise type goes through. *)
Fixpoint type_rank (r : string → nat) (t : IrType) : nat :=
  match t with
  | Func params ret _ _ => Nat.max (list_max (map (type_rank r) params)) (type_rank r ret)
  | Promise_ inner => type_rank r inner
  | Union_ id => S (r id)
  | _ => 0
  end.
Definition is_func (t : IrType) : bool := match t with Func _ _ _ _ => true | _ => false end.
(** The function arms of a union only go through unions of smaller rank. *)
Definition ranked (unions : gmap string (list IrType)) (r : string → nat) : Prop :=
  ∀ u arms a, unions !! u = Some arms → a ∈ arms → is_func a = true → (type_rank r a <= r u)%nat.

Section conversion.
Context (records : gmap string IrRecordShape) (unions : gmap string (list IrType)).

(** One step of each. *)
Lemma convert_S m t : canConvertToDyn records unions (S m) t =
      if isJsonSafeType records unions t then Some true
      else if boxesBytesComposite records unions t then Some true
      else if bytes_u8 t then Some true
      else if is_error_object t then Some true
      else match t with
      | Func _ _ _ _ => canBoxFuncIntoDyn records unions m t
      | _ =>
          if DYN_HANDLE_KINDS t then Some true
          else match t with
          | Promise_ inner => if is_dyn inner || is_jsval inner || is_void inner then Some true else canConvertToDyn records unions m inner
          | Union_ unionId =>
              match unions !! unionId with
              | Some arms =>
                  every_opt (λ a, if is_undefinedT a || isJsonSafeType records unions a then Some true
                    else match a with Func _ _ _ _ => canBoxFuncIntoDyn records unions m a | _ => Some false end) arms
              | None => Some false
              end
          | _ => Some false
          end
      end.
Proof. reflexivity. Qed.
Lemma check_S m t : canDynCheckTo records unions (S m) t =
      if isJsonSafeType records unions t then Some true
      else if bytes_u8 t then Some true
      else if is_error_object t then Some true
      else match t with
      | Func _ _ _ _ => canAdaptDynFuncTo records unions m t false
      | _ =>
          if DYN_HANDLE_KINDS t then Some true
          else match t with
          | Union_ unionId =>
              match unions !! unionId with Some arms => Some (forallb (λ a, is_undefinedT a || isJsonSafeType records unions a) arms) | None => Some false end
          | _ => Some false
          end
      end.
Proof. reflexivity. Qed.
Lemma box_S m t : canBoxFuncIntoDyn records unions (S m) t =
      match t with
      | Func params ret _ _ =>
          match every_opt (λ p, if is_dyn p || is_jsval p then Some true else canDynCheckTo records unions m p) params with
          | Some true => if is_void ret || is_dyn ret || is_jsval ret then Some true else canConvertToDyn records unions m ret
          | r => r
          end
      | _ => Some false
      end.
Proof. reflexivity. Qed.
Lemma adapt_S m t jsvalOk : canAdaptDynFuncTo records unions (S m) t jsvalOk =
      match t with
      | Func params ret rest _ =>
          if rest then Some false
          else match every_opt (λ p, if is_dyn p || jsvalOk && is_jsval p then Some true else canConvertToDyn records unions m p) params with
          | Some true => if is_void ret || is_dyn ret || jsvalOk && is_jsval ret then Some true else canDynCheckTo records unions m ret
          | r => r
          end
      | _ => Some false
      end.
Proof. reflexivity. Qed.

(** With enough fuel all four predicates answer. *)
Definition answers_at (n : nat) (t : IrType) : Prop := ∀ m, (n <= m)%nat →
  is_Some (canConvertToDyn records unions m t) ∧ is_Some (canDynCheckTo records unions m t) ∧
  is_Some (canBoxFuncIntoDyn records unions m t) ∧ (∀ j, is_Some (canAdaptDynFuncTo records unions m t j)).
Definition answers (t : IrType) : Prop := ∃ n, answers_at n t.

Lemma answers_list ts : Forall answers ts → ∃ n, Forall (answers_at n) ts.
Proof.
  induction 1 as [|t ts [n Hn] _ [k Hk]]; [by exists 0%nat|]. exists (Nat.max n k). constructor.
  - intros m Hm. apply Hn. lia.
  - eapply Forall_impl; [exact Hk|]. intros u Hu m Hm. apply Hu. lia.
Qed.

Lemma every_opt_answers {X} (p : X → option bool) xs : Forall (λ x, is_Some (p x)) xs → is_Some (every_opt p xs).
Proof. induction 1 as [|x xs [[] Hx] _ IH]; cbn [every_opt]; [by eexists|rewrite Hx; exact IH|rewrite Hx; by eexists]. Qed.

Ltac split_ifs := repeat match goal with |- context [if ?c then _ else _] => destruct c; try by eexists end.

Lemma func_answers params ret rest abi : Forall answers params → answers ret → answers (Func params ret rest abi).
Proof.
  intros [n Hn]%answers_list [k Hk]. exists (S (S (Nat.max n k))). intros m Hm.
  assert (HB : ∀ m, (Nat.max n k < m)%nat → is_Some (canBoxFuncIntoDyn records unions m (Func params ret rest abi)) ∧
    ∀ j, is_Some (canAdaptDynFuncTo records unions m (Func params ret rest abi) j)).
  { intros [|q] Hq; [lia|]. destruct (Hk q ltac:(lia)) as (K1 & K2 & _). rewrite box_S. setoid_rewrite adapt_S. split; [|intros j; destruct rest; [by eexists|]].
    - assert (is_Some (every_opt (λ p, if is_dyn p || is_jsval p then Some true else canDynCheckTo records unions q p) params)) as [[] ->];
        [|split_ifs; done|by eexists].
      apply every_opt_answers. eapply Forall_impl; [exact Hn|]. intros p Hp. destruct (Hp q ltac:(lia)) as (_ & P & _). split_ifs. done.
    - assert (is_Some (every_opt (λ p, if is_dyn p || j && is_jsval p then Some true else canConvertToDyn records unions q p) params)) as [[] ->];
        [|split_ifs; done|by eexists].
      apply every_opt_answers. eapply Forall_impl; [exact Hn|]. intros p Hp. destruct (Hp q ltac:(lia)) as (P & _). split_ifs. done. }
  destruct m as [|m]; [lia|]. destruct (HB m ltac:(lia)) as [B1 B2]. destruct (HB (S m) ltac:(lia)) as [B3 B4].
  split_and!; [rewrite convert_S; split_ifs; done|rewrite check_S; split_ifs; apply B2|done|done].
Qed.

Lemma plain_answers t : is_func t = false → (∀ i, t ≠ Promise_ i) → (∀ u, t ≠ Union_ u) → answers t.
Proof.
  intros Hf Hp Hu. exists 1%nat. intros [|m] Hm; [lia|]. destruct t; try done; try (by destruct (Hp t)); try (by destruct (Hu unionId));
    split_and!; rewrite ?convert_S, ?check_S, ?box_S; try (intros j; rewrite adapt_S); split_ifs; by eexists.
Qed.

Lemma promise_answers inner : answers inner → answers (Promise_ inner).
Proof.
  intros [n Hn]. exists (S n). intros [|m] Hm; [lia|]. destruct (Hn m ltac:(lia)) as (K1 & _).
  split_and!; rewrite ?convert_S, ?check_S, ?box_S; try (intros j; rewrite adapt_S); split_ifs; done || by eexists.
Qed.

Lemma union_answers u : (∀ arms a, unions !! u = Some arms → a ∈ arms → is_func a = true → answers a) → answers (Union_ u).
Proof.
  intros H. assert (HA : ∃ n, ∀ arms a, unions !! u = Some arms → a ∈ arms → is_func a = true → answers_at n a).
  { destruct (unions !! u) as [arms|]; [|by exists 0%nat]. destruct (answers_list (List.filter is_func arms)) as [n Hn].
    - apply Forall_forall. intros a Ha. apply list_elem_of_In, filter_In in Ha as [Ha Hf]. apply (H arms a); [done|by apply list_elem_of_In|done].
    - exists n. intros ? a [= <-] Ha Hf. rewrite Forall_forall in Hn. apply Hn, list_elem_of_In, filter_In. split; [by apply list_elem_of_In|done]. }
  destruct HA as [n Hn]. exists (S n). intros [|m] Hm; [lia|].
  split_and!; rewrite ?convert_S, ?check_S, ?box_S; try (intros j; rewrite adapt_S); split_ifs; try (by eexists).
  - destruct (unions !! u) as [arms|]; [|by eexists]. apply every_opt_answers. apply Forall_forall. intros a Ha. split_ifs.
    destruct a as [| | | | |ps r0 rest abi| | | | | |] eqn:Ea; try by eexists. rewrite <- Ea in *.
    assert (Hf : is_func a = true) by by subst. destruct (Hn arms a eq_refl Ha Hf m ltac:(lia)) as (_ & _ & B & _). by subst.
  - destruct (unions !! u); by eexists.
Qed.

Lemma ranked_answers r : ranked unions r → ∀ t, answers t.
Proof.
  intros Hr. assert (H : ∀ N t, (type_rank r t <= N)%nat → answers t); [|intros t; by apply (H (type_rank r t))].
  induction N as [N IHN] using lt_wf_ind. intros t. induction t as [p|e IH|e|k v IHk IHv|e IH|ps ret rest abi IHps IHr|c|c|c|u|e IH|y q n IHy IHq IHn] using IrType_full_ind;
    intros Hk; try (by apply plain_answers).
  - cbn [type_rank] in Hk. apply func_answers; [|apply IHr; lia]. rewrite Forall_forall in IHps |- *. intros p Hp. apply IHps; [done|].
    assert (type_rank r p <= list_max (map (type_rank r) ps))%nat by (apply list_max_elem; by apply list_elem_of_fmap_2). lia.
  - cbn [type_rank] in Hk. apply union_answers. intros arms a E Ha Hf. apply (IHN (r u)); [lia|by eapply Hr].
  - apply promise_answers. by apply IH.
Qed.
End conversion.

(** ** The theorems *)

(** The JSON fence and the bytes fence always answer, and their shared
    visited set -- never undone between siblings -- does not change the answer:
    a type is accepted exactly when no type reachable from it through array
    elements, record fields, index values and union arms is refused on its own
    (undefined being acceptable in the fields of a record that is no tuple). *)
Theorem fences_decide (records : gmap string IrRecordShape) (unions : gmap string (list IrType)) (t : IrType) :
  ids_apart records unions →
  ((∃ v, isJsonSafeAt records unions (walk_fuel records unions t) t false ∅ = Some (isJsonSafeType records unions t, v)) ∧
   (isJsonSafeType records unions t = true ↔ all_good (field_nodes records unions) (t, false))) ∧
  ((∃ v, canBoxBytesComposite records unions (walk_fuel records unions t) t ∅ = Some (boxesBytesComposite records unions t, v)) ∧
   (boxesBytesComposite records unions t = true ↔ all_good (bytes_nodes records unions) t)).
Proof.
  intros Ha. split; (split; [|by apply json_decides || apply bytes_decides]).
  - unfold isJsonSafeType. destruct (json_total records unions t) as (b & v & ->). by eexists.
  - unfold boxesBytesComposite. destruct (bytes_total records unions t) as (b & v & ->). by eexists.
Qed.

(** The domains nest as documented: what round-trips the island can be
    marshalled into it, exits it, and crosses the checked-dynamic boundary in
    both directions; it is also among the bytes-bearing composites; and the
    typed function marshalling extends the plain one. *)
Theorem domains_nest (records : gmap string IrRecordShape) (unions : gmap string (list IrType)) (t : IrType) (fuel : nat) :
  ids_apart records unions →
  (canCrossIslandBoundary records unions t = true →
     canMarshalIntoIsland records unions t = true ∧ canExitIslandToType records unions t = true ∧ isIslandCallbackParamType records unions t = true ∧
     canConvertToDyn records unions (S fuel) t = Some true ∧ canDynCheckTo records unions (S fuel) t = Some true ∧
     boxesBytesComposite records unions t = true) ∧
  (canMarshalFuncIntoIsland t = true → canMarshalTypedFuncIntoIsland records unions t = true).
Proof.
  intros Ha. split.
  - intros H. unfold canCrossIslandBoundary in H. pose proof (json_in_bytes records unions Ha t H) as Hb.
    unfold canMarshalIntoIsland, canExitIslandToType, canCrossIslandBoundary, isIslandCallbackParamType. rewrite convert_S, check_S, H.
    split_and!; try done. by case_match.
  - destruct t as [| | | | |params ret [] abi| | | | | |]; try done. cbn [canMarshalFuncIntoIsland canMarshalTypedFuncIntoIsland].
    rewrite !andb_true_iff. intros [[[_ Hl] Hp] Hr]. split_and!; [done| |by destruct ret as [[]| | | | | | | | | | |]].
    rewrite forallb_forall in Hp |- *. intros p Hin. unfold isIslandCallbackParamType. by rewrite (Hp p Hin).
Qed.

(** The mutually recursive predicates of the checked-dynamic boundary end on
    every type as long as unions do not come back to themselves through their
    function arms. *)
Theorem dyn_predicates_terminate (records : gmap string IrRecordShape) (unions : gmap string (list IrType)) (r : string → nat) (t : IrType) :
  ranked unions r →
  ∃ n, ∀ m, (n <= m)%nat →
    is_Some (canConvertToDyn records unions m t) ∧ is_Some (canDynCheckTo records unions m t) ∧
    is_Some (canBoxFuncIntoDyn records unions m t) ∧ ∀ j, is_Some (canAdaptDynFuncTo records unions m t j).
Proof. intros H. exact (ranked_answers records unions r H t). Qed.

(** [type F = null | (() => F)] *)
Definition knot : gmap string (list IrType) := {["u0" := [Func [] (Union_ "u0") false false; Prim KnullT]]}.

(** Without that proviso the recursion has no end: on a union with a function
    arm that returns the union, [canConvertToDyn] answers for no fuel. *)
Theorem canConvertToDyn_diverges (fuel : nat) : canConvertToDyn ∅ knot fuel (Union_ "u0") = None.
Proof.
  assert (H : ∀ f, canConvertToDyn ∅ knot f (Union_ "u0") = None ∧ canBoxFuncIntoDyn ∅ knot f (Func [] (Union_ "u0") false false) = None); [|apply H].
  induction f as [|f [IH1 IH2]]; [done|]. split.
  - rewrite convert_S. replace (isJsonSafeType ∅ knot (Union_ "u0")) with false by (vm_compute; reflexivity).
    replace (boxesBytesComposite ∅ knot (Union_ "u0")) with false by (vm_compute; reflexivity). cbn [bytes_u8 is_error_object DYN_HANDLE_KINDS].
    replace (knot !! "u0") with (Some [Func [] (Union_ "u0") false false; Prim KnullT]) by (vm_compute; reflexivity). cbn [every_opt].
    replace (isJsonSafeType ∅ knot (Func [] (Union_ "u0") false false)) with false by (vm_compute; reflexivity). cbn [is_undefinedT orb]. by rewrite IH2.
  - rewrite box_S. cbn [every_opt is_void is_dyn is_jsval orb]. exact IH1.
Qed.

(** *** Witnesses *)

(** A linked list, a tree of optional children, and a callback that may be absent. *)
Definition sample_records : gmap string IrRecordShape :=
  <["r0" := mkShape [mkField "next" (Union_ "u0") false false; mkField "value" (Prim Kf64) false false] false None]>
  {["r1" := mkShape [mkField "blob" (Bytes BU8) false false; mkField "kids" (Array (Record_ "r1")) false false] false (Some (Prim Kdyn))]}.
Definition sample_unions : gmap string (list IrType) :=
  <["u0" := [Record_ "r0"; Prim KundefinedT]]> {["u1" := [Func [Union_ "u0"] (Prim Kvoid) false false; Prim KundefinedT]]}.

Lemma sample_apart : ids_apart sample_records sample_unions.
Proof.
  intros id u Hid Hu. unfold sample_records, sample_unions in *. apply elem_of_dom in Hid, Hu. rewrite dom_insert, dom_singleton in Hid. rewrite dom_insert, dom_singleton in Hu.
  assert (id = "r0" ∨ id = "r1") as [-> | ->] by set_solver; assert (u = "u0" ∨ u = "u1") as [-> | ->] by set_solver; split; try done; by intros [].
Qed.

Example fences_decide_witness :
  all_good (field_nodes sample_records sample_unions) (Record_ "r0", false) ∧ ¬ all_good (field_nodes sample_records sample_unions) (Union_ "u0", false) ∧
  all_good (bytes_nodes sample_records sample_unions) (Record_ "r1").
Proof.
  destruct (fences_decide sample_records sample_unions (Record_ "r0") sample_apart) as [[_ H1] _].
  destruct (fences_decide sample_records sample_unions (Union_ "u0") sample_apart) as [[_ H2] _].
  destruct (fences_decide sample_records sample_unions (Record_ "r1") sample_apart) as [_ [_ H3]].
  split; [|split].
  - apply H1. vm_compute. reflexivity.
  - intros H. apply H2 in H. vm_compute in H. discriminate H.
  - apply H3. vm_compute. reflexivity.
Defined.

Example domains_nest_witness :
  canExitIslandToType sample_records sample_unions (Record_ "r0") = true ∧
  canMarshalTypedFuncIntoIsland sample_records sample_unions (Func [Prim Kjsval] (Prim Kvoid) false false) = true.
Proof.
  split.
  - apply (proj1 (domains_nest sample_records sample_unions (Record_ "r0") 0 sample_apart)). vm_compute. reflexivity.
  - apply (proj2 (domains_nest sample_records sample_unions (Func [Prim Kjsval] (Prim Kvoid) false false) 0 sample_apart)). reflexivity.
Defined.

(** The callback's union ranks above the list's. *)
Example dyn_predicates_terminate_witness : ∃ n, is_Some (canConvertToDyn sample_records sample_unions n (Union_ "u1")).
Proof.
  destruct (dyn_predicates_terminate sample_records sample_unions (λ u, if bool_decide (u = "u1") then 5 else 0)%nat (Union_ "u1")) as [n H].
  - intros u arms a Hu Ha Hf. unfold sample_unions in Hu. apply lookup_insert_Some in Hu as [[<- <-]|[_ Hu]].
    + rewrite !elem_of_cons in Ha. destruct Ha as [-> | [-> | Ha]]; try done. by apply not_elem_of_nil in Ha.
    + apply lookup_singleton_Some in Hu as [<- <-]. rewrite !elem_of_cons in Ha. destruct Ha as [-> | [-> | Ha]]; [vm_compute; lia|done|].
      by apply not_elem_of_nil in Ha.
  - exists n. by apply (H n).
Defined.
