(* ===== verification/MayThrow.v ===== *)
(** * Which functions may throw

    src/packages/compiler/src/backend/emission/may-throw.ts: one walk over each
    function body collects what may raise there and what it calls, then a loop
    closes the set of throwing functions under calls and under calls of closure
    values.  The walk reads the module as plain data ([IrJson]); its one loop
    over class bases is bounded by the number of classes. *)

From S2P Require Import Prelude F64 Bytes IrJson ModuleUses.

#[local] Open Scope string_scope.

(** ** The seeds of src/packages/compiler/src/ir/nodes.ts *)

Definition MAY_THROW_ARR_METHODS : list string :=
  ["with"; "sort"; "toSorted"; "typedSort"].

Definition MAY_THROW_BYTES_METHODS : list string :=
  ["with"; "setFrom"; "readNum"; "writeNum"; "readNumVar"; "writeNumVar"; "compareBuf"; "fill"; "fillNum"; "fillStr"; "copy"; "swap16";
   "swap32"; "swap64"; "writeStr"; "dataViewNew"; "dvGetUint8"; "dvGetInt8"; "dvGetUint16"; "dvGetInt16"; "dvGetUint32"; "dvGetInt32";
   "dvGetFloat32"; "dvGetFloat64"; "dvGetBigUint64Number"; "dvGetBigInt64Number"; "dvSetUint8"; "dvSetInt8"; "dvSetUint16"; "dvSetInt16";
   "dvSetUint32"; "dvSetInt32"; "dvSetFloat32"; "dvSetFloat64"].

Definition MAY_THROW_LIB_FNS : list string :=
  ["num.toFixed"; "insp.jsonDyn"; "insp.dynHidden"; "dc.publish"; "dc.subscribe"; "dc.unsubscribe"; "dc.chanSubscribe"; "dc.chanUnsubscribe";
   "dc.tcSubscribe"; "dc.tcUnsubscribe"; "dc.tcTraceSync"; "dc.tcTraceCallback"; "dc.tcTracePromise"; "process.onUnhandledRejection";
   "process.onRejectionHandled"; "async.awaitDyn"; "als.run"; "als.exitRun"; "dc.chanBindStore"; "dc.chanRunStores"; "http.resWriteHeadDyn";
   "http.resWriteHeadReason"; "net.sockSetEncoding"; "http.reqSetEncoding"; "fs.readFileSyncBuf"; "fs.readFileSyncDyn"; "tls.pemDyn";
   "tls.createServerDyn"; "tls.createSecureContextDyn"; "tls.caCertsChk"; "tls.createServerDynCb"; "https.createServerDyn";
   "https.createServerDynCb"; "http2.createSecureServerDyn"; "http2.createSecureServerDynCb"; "tls.connect"; "tls.connectCb"; "tlsca.get";
   "tlsca.set"; "emitter.emit"; "emitter.emitError"; "emitter.on"; "emitter.off"; "emitter.checkListener"; "emitter.onDyn"; "emitter.offDyn";
   "emitter.onData"; "emitter.onDataDyn"; "emitter.emitData"; "readable.nextChunk"; "readable.nextChunkDyn"; "net.sockWriteDyn";
   "net.sockEndDyn"; "http.resWriteDyn"; "http.resEndDyn"; "http.clientWriteDyn"; "http.clientEndDyn"; "http.requestUrl"; "http.requestUrlCb";
   "http2.connect"; "http2.connectCb"; "http2.sessionRequest"; "http2.streamSetEncoding"; "http2.streamRespond"; "http2.streamWrite";
   "http2.streamWriteBytes"; "http2.streamEnd"; "http2.streamEndStr"; "http2.streamEndBytes"; "emitter.removeAll"; "stream.finished";
   "stream.finishedDyn"; "stream.pipeline"; "stream.pipelineDyn"; "sp.finished"; "sp.pipeline"; "sc.text"; "sc.json"; "sc.buffer";
   "readable.newDyn"; "writable.newDyn"; "duplex.newDyn"; "transform.newDyn"; "passthrough.newDyn"; "readable.initDyn"; "writable.initDyn";
   "duplex.initDyn"; "transform.initDyn"; "passthrough.initDyn"; "readable.push"; "readable.pushStr"; "readable.pushStrEnc";
   "readable.pushNull"; "readable.pushU"; "readable.pushDyn"; "readable.unshift"; "readable.unshiftStr"; "readable.read"; "readable.resume";
   "readable.pipe"; "readable.unpipe"; "writable.write"; "writable.writeStr"; "writable.writeU"; "writable.writeDyn"; "writable.end";
   "writable.uncork"; "stream.destroy"; "stream.destroyAborted"; "stream.destroyErr"; "emitter.setMax"; "emitter.setDefaultMax";
   "http.requestConn"; "http.requestConnCb"; "process.kill"; "process.killNum"; "process.cpuPrevValidate"; "process.stdinSetRawMode";
   "http2.streamUndefCall"; "global.undefRead"; "global.tdzCheck"; "error.nodeThrow"; "dyn.toStringCoerce"; "dyn.toNumber"; "child.kill";
   "net.connectLookup"; "cp.execSync"; "cp.execCapture"; "http.request"; "http.requestCb"; "http.requestConn"; "http.requestConnCb";
   "http.agentNew"; "http.requestAgent"; "http.requestAgentCb"; "https.requestAgent"; "https.requestAgentCb"; "https.request";
   "https.requestCb"; "https.requestUrl"; "https.requestUrlCb"; "https.requestFn"; "https.requestFnCb"; "rl.question"; "island.eval";
   "island.import"; "island.caughtToJsval"; "island.castFail"; "json.parse"; "str.decodeUriComponent"; "str.atob"; "str.btoa";
   "str.b64Missing"; "timers.queueMicrotaskDyn"; "dyn.structuredClone"; "dyn.cloneMissing"; "dyn.cloneTransferFail"; "dyn.objKeys";
   "dyn.hasOwn"; "dyn.assign"; "dyn.packPushSpread"; "dyn.packPushSpreadIter"; "dyn.assignAll"; "dyn.objValues"; "dyn.objEntries";
   "error.domClone"; "regex.new"; "dyn.keySet"; "dyn.iterPack"; "dyn.iterLive"; "dyn.toString"; "dyn.defineProps"; "process.chdir";
   "process.umask"; "fs.realpathSync"; "fs.readFileSync"; "fs.writeFileSync"; "fs.appendFileSync"; "fs.mkdirSync"; "fs.rmSync";
   "fs.rmdirSync"; "fs.readdirSync"; "fs.readdirTypesSync"; "url.new"; "url.newBase"; "url.parse"; "url.parseBase"; "url.canParse";
   "url.canParseBase"; "url.fileURLToPathUrl"; "url.fileURLToPathStr"; "url.pathToFileURLWin32"; "url.pathToFileURLHost"; "sp.fromPairs";
   "fs.statSync"; "crypto.randomBytesToString"; "crypto.randomBytes"; "buffer.concatLen"; "buffer.compareChk"; "bytes.equalsChk";
   "bytes.compareChk"; "buffer.newStringFail"; "fs.toUnixTimestamp"; "fs.existsChk"; "fs.mkdtempChk"; "fs.mkdtempSyncChk"; "fs.readFileChk";
   "fs.opendirChk"; "fs.watchFileChk"; "fs.lchmodChk"; "fs.lchmodSyncChk"; "fsp.lchmodChk"; "fs.readChk"; "fs.streamOptsChk";
   "net.connectAttempt"; "net.connectOptsChk"; "net.setAutoSelTimeout"; "error.argTypeThrow"; "error.propTypeThrow"; "emitter.setMaxChk";
   "emitter.setDefaultMaxChk"; "fs.readFileSyncBytes"; "fs.writeFileSyncBytes"; "zlib.inflateSync"; "date.toISOString";
   "fs.mkdirRecursiveSync"; "fs.rmOptsSync"; "fs.rmRetrySync"; "fs.mkdtempSync"; "fs.accessSync"; "fs.readFdSync"; "fs.readFdSyncBytes";
   "dgram.bind"; "dgram.bindCb"; "dgram.connect"; "dgram.connectCb"; "dgram.sendStr"; "dgram.sendBytes"; "dgram.sendChk"; "dgram.address";
   "dgram.close"; "dgram.closeCb"; "assert.ok"; "assert.eqF64"; "assert.eqStr"; "assert.eqBool"; "assert.eqSym"; "assert.eqDyn";
   "assert.deepResult"; "assert.match"; "assert.refEqBytes"; "assert.refEqFn"; "assert.throwsNone"; "assert.throwsMismatch";
   "assert.throwsRegex"; "assert.shapeEnd"; "assert.unwantedRejection"; "assert.expectsErrDyn"; "assert.ifErrorErr"; "assert.ifErrorF64";
   "assert.ifErrorStr"; "assert.ifErrorBool"; "assert.ifErrorDyn"; "insp.jsval"; "insp.dyn"; "insp.dynS"; "fs.unlinkSync"; "fs.chmodSync";
   "fs.chownSync"; "fs.copyFileSync"; "fs.lstatSync"; "fs.writeFileModeSync"; "fs.mkdirModeSync"; "fs.mkdirRecursiveModeSync"; "fs.openSync";
   "fs.readSync"; "fs.closeSync"; "fs.watch"; "fs.watchCb"; "crypto.x509Fingerprint"; "crypto.x509FingerprintStr"; "crypto.x509ValidFrom";
   "crypto.x509ValidFromStr"; "crypto.x509ValidTo"; "crypto.x509ValidToStr"; "assert.deepResult"; "assert.refEqBytes"; "assert.refEqFn"].

(** ** Receivers a member read need not test *)

Definition prop (rec : props) (k : string) : js := get (js_of_string k) rec.
(** A string field, as the IR types it. *)
Definition str (v : js) : jsstr := match v with JStr s => s | _ => [] end.
(** [v === s], for a string [s] *)
Definition str_is (v : js) (s : jsstr) : bool := match v with JStr t => bool_decide (t = s) | _ => false end.
(** [v === true] and [if (v)] *)
Definition is_true (v : js) : bool := match v with JBool b => b | _ => false end.
Definition truthy (v : js) : bool :=
  match v with
  | JUndef | JNull => false
  | JBool b => b
  | JNum x => negb (is_nan x) && negb (num_eq x (Fin 0))
  | JStr s => negb (bool_decide (s = []))
  | JArr _ | JObj _ => true
  end.
Definition endsWith (p : string) (s : jsstr) : bool := bool_decide (drop (length s - length (js_of_string p)) s = js_of_string p).

Definition provenPresent (obj : js) (present : gset jsstr) : bool :=
  match obj with
  | JObj o =>
      if kind_in o ["new"; "recordLit"; "arrayLit"; "closure"] then true
      else if kind_is o "varRef" then is_lit (prop o "localId") "this.0" || bool_decide (str (prop o "localId") ∈ present)
      else if kind_is o "call" then
        match prop o "callee" with JStr c => startsWith "%undef.recv." c || startsWith "%union.recv." c | _ => false end
      else false
  | _ => false
  end.

(** The walk that skips the keys [loc] and [type], threading a state. *)
Section walk.
Context {S : Type} (enter : props → S → res S).
Fixpoint walk_ir (v : js) (s : S) : res S :=
  match v with
  | JArr items => (fix each l s := match l with [] => Ok s | v :: l => let* s := walk_ir v s in each l s end) items s
  | JObj r =>
      let* s := enter r s in
      (fix each ps s := match ps with
       | [] => Ok s
       | kv :: ps => if bool_decide (kv.1 = js_of_string "loc") || bool_decide (kv.1 = js_of_string "type") then each ps s
                     else let* s := walk_ir kv.2 s in each ps s
       end) r s
  | _ => Ok s
  end.
End walk.

(** The objects the walk enters, in its order. *)
Fixpoint ir_nodes (v : js) : list props :=
  match v with
  | JArr items => (fix each l := match l with [] => [] | v :: l => (ir_nodes v ++ each l)%list end) items
  | JObj r =>
      r :: (fix each ps := match ps with
       | [] => []
       | kv :: ps => if bool_decide (kv.1 = js_of_string "loc") || bool_decide (kv.1 = js_of_string "type") then each ps
                     else (ir_nodes kv.2 ++ each ps)%list
       end) r
  | _ => []
  end.

Definition count_decl (candidates : gset jsstr) (r : props) (s : gset jsstr * gmap jsstr nat) : res (gset jsstr * gmap jsstr nat) :=
  let '(out, decls) := s in
  let id := str (prop r "localId") in
  if kind_is r "varDecl" && bool_decide (id ∈ candidates) then
    let decls := <[id := Datatypes.S (default 0%nat (decls !! id))]> decls in
    match prop r "init" with
    | JUndef | JNull => Ok (out, decls)
    | init => if provenPresent init out then Ok ({[id]} ∪ out, decls) else Ok (out, decls)
    end
  else Ok s.

Definition presentLocals (fn : js) : res (gset jsstr) :=
  let candidates : gset jsstr := list_to_set (omap (λ l,
    if negb (is_true (field l "mutable")) && negb (is_true (field l "tdz")) && negb (is_true (field l "boxed")) then Some (str (field l "id")) else None)
    (items (field fn "locals"))) in
  let* ' (out, decls) := walk_ir (count_decl candidates) (field fn "body") (∅, ∅) in
  Ok (filter (λ id, decls !! id = Some 1%nat) out).

(** ** The collecting walk *)

(** The module-wide facts the walk consults. *)
Record mctx := mkCtx {
  mc_mod : js;
  asyncFns : list jsstr;
  genFns : list jsstr;
  caughtToStrThrows : bool;
  methodImpls : list (jsstr * list jsstr);
  undefSlots : bool }.

Definition fn_names (p : js → bool) (m : js) : list jsstr := map (λ fn, str (field fn "name")) (List.filter p (items (field m "functions"))).
Definition in_list (x : jsstr) (l : list jsstr) : bool := bool_decide (x ∈ l).

Definition ctor_name (cls : jsstr) : jsstr := (js_of_string "%" ++ cls ++ js_of_string ".constructor")%list.
(** [list.push(...)] under the method's key *)
Fixpoint impl_push (m name : jsstr) (impls : list (jsstr * list jsstr)) : list (jsstr * list jsstr) :=
  match impls with
  | [] => [(m, [name])]
  | (m', l) :: impls => if bool_decide (m = m') then (m', (l ++ [name])%list) :: impls else (m', l) :: impl_push m name impls
  end.
Definition method_impls (m : js) : list (jsstr * list jsstr) :=
  foldl (λ acc cls, foldl (λ acc meth, impl_push (str meth) (js_of_string "%" ++ str (field cls "name") ++ js_of_string "." ++ str meth)%list acc)
    acc (items (field cls "methods"))) [] (items (field m "classes")).
Fixpoint impls_of (m : jsstr) (impls : list (jsstr * list jsstr)) : list jsstr :=
  match impls with [] => [] | (m', l) :: impls => if bool_decide (m = m') then l else impls_of m impls end.

Definition mctx_of (m : js) : mctx :=
  mkCtx m (fn_names (λ fn, truthy (field fn "async")) m) (fn_names (λ fn, truthy (field fn "generator")) m)
    (moduleHasJsvalValues m || moduleHasDynValues m) (method_impls m) (is_true (field m "undefSlots")).

(** The last function of that name. *)
Definition fnByName (c : mctx) (name : jsstr) : js :=
  default JUndef (last (List.filter (λ fn, bool_decide (str (field fn "name") = name)) (items (field (mc_mod c) "functions")))).
Definition class_by_name (c : mctx) (name : js) : option js :=
  match name with JStr n => find (λ k, str_is (field k "name") n) (items (field (mc_mod c) "classes")) | _ => None end.

(** The chain of a class and its bases meets [cls]; a chain longer than the
    classes of the module has come back to itself. *)
Fixpoint descends (fuel : nat) (c : mctx) (cls : jsstr) (k : option js) : res bool :=
  match k with
  | None => Ok false
  | Some k =>
      match fuel with
      | O => Throw "still running"
      | Datatypes.S fuel =>
          if str_is (field k "name") cls then Ok true
          else if is_undef (field k "base") then Ok false
          else descends fuel c cls (class_by_name c (field k "base"))
      end
  end.
Definition classes_of (c : mctx) : list js := items (field (mc_mod c) "classes").
Fixpoint ctors_below (c : mctx) (cls : jsstr) (ks : list js) : res (list jsstr) :=
  match ks with
  | [] => Ok []
  | k :: ks =>
      let* d := descends (length (classes_of c)) c cls (class_by_name c (field k "name")) in
      let* l := ctors_below c cls ks in
      Ok (if d then ctor_name (str (field k "name")) :: l else l)
  end.

(** [Facts] of the function, then the closed-over [closureTargets] and
    [sawDynFuncAdapter]. *)
Record collected := mkCollected { throws : bool; callees : list jsstr; callsValue : bool; closureTargets : list jsstr; sawDynFuncAdapter : bool }.
Definition nothing : collected := mkCollected false [] false [] false.
Definition seed (s : collected) : collected := mkCollected true (callees s) (callsValue s) (closureTargets s) (sawDynFuncAdapter s).
Definition seed_if (b : bool) (s : collected) : collected := if b then seed s else s.
Definition push (l : list jsstr) (s : collected) : collected :=
  mkCollected (throws s) (callees s ++ l) (callsValue s) (closureTargets s) (sawDynFuncAdapter s).
Definition calls_value (s : collected) : collected := mkCollected (throws s) (callees s) true (closureTargets s) (sawDynFuncAdapter s).
Definition add_target (t : jsstr) (s : collected) : collected :=
  mkCollected (throws s) (callees s) (callsValue s) (closureTargets s ++ [t]) (sawDynFuncAdapter s).
Definition adapter (s : collected) : collected := mkCollected (throws s) (callees s) (callsValue s) (closureTargets s) true.

Definition type_kind_in (v : js) (kinds : list string) : bool := existsb (is_lit (field (field v "type") "kind")) kinds.

(** The receiver the backend tests: [undefined] when there is none. *)
Definition tested_receiver (c : mctx) (rec : props) : js :=
  let arg0 := match items (prop rec "args") with a :: _ => a | [] => JUndef end in
  if kind_is rec "recordGet" && negb (is_true (prop rec "spreadCopy")) || kind_is rec "fieldGet" then prop rec "obj"
  else if kind_is rec "arrayGet" then prop rec "arr"
  else if kind_is rec "virtualCall" then arg0
  else if kind_is rec "call" &&
    is_lit (field (match items (field (fnByName c (str (prop rec "callee"))) "params") with p :: _ => p | [] => JUndef end) "localId") "this.0" &&
    negb (endsWith ".constructor" (str (prop rec "callee"))) then arg0
  else JUndef.

Definition record_key_set_throws (c : mctx) (rec : props) : bool :=
  match find (λ r, str_is (field r "id") (str (prop rec "shapeId"))) (items (field (mc_mod c) "records")) with
  | Some shape =>
      negb (is_true (prop rec "overflowOnly")) &&
      (negb (truthy (field shape "indexValue")) ||
       is_lit (field (field shape "indexValue") "kind") "dyn" && (0 <? length (items (field shape "fields")))%nat)
  | None => false
  end.

Definition visit_node (c : mctx) (present tdzIds : gset jsstr) (rec : props) (s : collected) : res collected :=
  let s := seed_if (match prop rec "undefRecv" with JStr _ => true | _ => false end) s in
  let s :=
    if undefSlots c then
      let recv := tested_receiver c rec in seed_if (negb (is_undef recv) && negb (provenPresent recv present)) s
    else s in
  if kind_in rec ["throw"; "rethrow"] then Ok (seed s)
  else if kind_is rec "varRef" then Ok (seed_if (bool_decide (str (prop rec "localId") ∈ tdzIds)) s)
  else if kind_in rec ["dynCheck"; "caughtCheck"] then
    let s := seed s in Ok (if is_lit (field (prop rec "type") "kind") "func" then adapter s else s)
  else if kind_is rec "fieldIncDec" then Ok (seed_if (is_true (prop rec "fieldDyn")) s)
  else if kind_in rec ["dynCall"; "dynInvoke"; "dynKeyGet"; "dynDestrCheck"; "dynIterN"; "awaitExpr"; "awaitUnionExpr"] then Ok (seed s)
  else if kind_is rec "intrinsic" then Ok (seed_if (is_lit (prop rec "name") "module.await") s)
  else if kind_in rec ["yieldExpr"; "genResume"] then Ok (seed s)
  else if kind_is rec "recordKeySet" then Ok (seed_if (record_key_set_throws c rec) s)
  else if kind_is rec "jsonStringify" then Ok (seed_if (type_kind_in (prop rec "value") ["dyn"; "record"; "array"; "union"]) s)
  else if kind_is rec "toString" then
    let s := seed_if (caughtToStrThrows c && type_kind_in (prop rec "operand") ["caught"]) s in
    Ok (seed_if (type_kind_in (prop rec "operand") ["dyn"]) s)
  else if kind_in rec ["jsOp"; "jsExit"; "jsMarshal"; "jsBridgePromise"; "jsView"; "jsUnview"] then Ok (seed s)
  else if kind_is rec "libCall" then Ok (seed_if (set_has MAY_THROW_LIB_FNS (str (prop rec "fn"))) s)
  else if kind_is rec "bytesNew" then Ok (seed_if (type_kind_in (prop rec "source") ["f64"]) s)
  else if kind_is rec "bytesIntrinsic" then Ok (seed_if (set_has MAY_THROW_BYTES_METHODS (str (prop rec "method"))) s)
  else if kind_is rec "arrIntrinsic" then Ok (seed_if (set_has MAY_THROW_ARR_METHODS (str (prop rec "method"))) s)
  else if kind_is rec "regexIntrinsic" then
    Ok (seed_if (method_in rec ["replaceAll"; "split"; "splitLimit"; "matchAll"; "matchAllInto"; "collectAll"]) s)
  else if kind_is rec "call" then
    let callee := str (prop rec "callee") in
    Ok (if negb (in_list callee (asyncFns c)) && negb (in_list callee (genFns c)) then push [callee] s else s)
  else if kind_is rec "new" then Ok (push [ctor_name (str (prop rec "className"))] s)
  else if kind_is rec "newValue" then
    match field (field (prop rec "callee") "type") "className" with
    | JStr cls => let* l := ctors_below c cls (classes_of c) in Ok (push l s)
    | _ => Ok s
    end
  else if kind_is rec "virtualCall" then Ok (push (impls_of (str (prop rec "method")) (methodImpls c)) s)
  else if kind_is rec "callValue" then Ok (calls_value s)
  else if kind_is rec "closure" then Ok (add_target (str (prop rec "fnName")) s)
  else Ok s.

(** ** The functions of the module *)

(** [facts], in insertion order; a name that is set again keeps its place. *)
Definition facts_map : Type := list (jsstr * collected).
Fixpoint facts_set (n : jsstr) (f : collected) (fs : facts_map) : facts_map :=
  match fs with
  | [] => [(n, f)]
  | (n', f') :: fs => if bool_decide (n = n') then (n, f) :: fs else (n', f') :: facts_set n f fs
  end.

(** What one function body contributes. *)
Definition collect_fn (c : mctx) (fn : js) : res collected :=
  let* present := if undefSlots c then presentLocals fn else Ok ∅ in
  let tdzIds : gset jsstr := list_to_set (omap (λ l, if truthy (field l "tdz") then Some (str (field l "id")) else None) (items (field fn "locals"))) in
  walk_ir (visit_node c present tdzIds) (field fn "body") nothing.

(** Over all functions: the facts, the closure targets, the adapter flag. *)
Fixpoint collect (c : mctx) (fns : list js) (fs : facts_map) (targets : list jsstr) (saw : bool) : res (facts_map * list jsstr * bool) :=
  match fns with
  | [] => Ok (fs, targets, saw)
  | fn :: fns =>
      let* f := collect_fn c fn in
      collect c fns (facts_set (str (field fn "name")) f fs) (targets ++ closureTargets f) (saw || sawDynFuncAdapter f)
  end.

(** ** The loop *)

Section closing.
Context (c : mctx) (targets : list jsstr).

(** some closure target may throw when it is called *)
Definition target_throws (may : gset jsstr) : bool :=
  existsb (λ t, bool_decide (t ∈ may) && negb (in_list t (asyncFns c)) && negb (in_list t (genFns c))) targets.

Fixpoint one_pass (fs : facts_map) (indirect : bool) (may : gset jsstr) (changed : bool) : gset jsstr * bool :=
  match fs with
  | [] => (may, changed)
  | (n, f) :: fs =>
      if bool_decide (n ∈ may) then one_pass fs indirect may changed
      else if callsValue f && indirect || existsb (λ g, bool_decide (g ∈ may)) (callees f)
      then one_pass fs indirect ({[n]} ∪ may) true
      else one_pass fs indirect may changed
  end.

Fixpoint close_may (fuel : nat) (fs : facts_map) (may : gset jsstr) (indirect : bool) : res (gset jsstr * bool) :=
  match fuel with
  | O => Throw "still running"
  | Datatypes.S fuel =>
      let '(may, changed) := one_pass fs indirect may false in
      let '(indirect, changed) := if negb indirect && target_throws may then (true, true) else (indirect, changed) in
      if changed then close_may fuel fs may indirect else Ok (may, indirect)
  end.
End closing.

Definition computeMayThrow (m : js) : res (gset jsstr * bool) :=
  let c := mctx_of m in
  let* ' (fs, targets, saw) := collect c (items (field m "functions")) [] [] false in
  let may : gset jsstr := list_to_set (omap (λ nf, if throws nf.2 then Some nf.1 else None) fs) in
  close_may c targets (3 + length fs) fs may (saw || target_throws c targets may).

(** ** What the loop computes *)

Section spec.
Context (c : mctx) (fs : facts_map) (targets : list jsstr) (saw : bool).

(** A function raises if its body does, if it calls one that does, or if it
    calls a closure value while some closure may raise. *)
Inductive raises : jsstr → Prop :=
  | raises_seed n f : (n, f) ∈ fs → throws f = true → raises n
  | raises_call n f g : (n, f) ∈ fs → g ∈ callees f → raises g → raises n
  | raises_value n f : (n, f) ∈ fs → callsValue f = true → some_closure_raises → raises n
with some_closure_raises : Prop :=
  | closure_adapter : saw = true → some_closure_raises
  | closure_target t : t ∈ targets → t ∉ asyncFns c → t ∉ genFns c → raises t → some_closure_raises.

Scheme raises_mut := Induction for raises Sort Prop
  with some_closure_mut := Induction for some_closure_raises Sort Prop.

Lemma target_throws_spec may : target_throws c targets may = true ↔ ∃ t, t ∈ targets ∧ t ∈ may ∧ t ∉ asyncFns c ∧ t ∉ genFns c.
Proof.
  unfold target_throws, in_list. rewrite existsb_exists. split.
  - intros (t & Ht & H). apply list_elem_of_In in Ht. rewrite !andb_true_iff, !negb_true_iff, bool_decide_eq_true, !bool_decide_eq_false in H. naive_solver.
  - intros (t & Ht & H). exists t. rewrite list_elem_of_In in Ht. rewrite !andb_true_iff, !negb_true_iff, bool_decide_eq_true, !bool_decide_eq_false. naive_solver.
Qed.

(** The test of one function in a pass. *)
Definition fires (indirect : bool) (may : gset jsstr) (f : collected) : bool :=
  callsValue f && indirect || existsb (λ g, bool_decide (g ∈ may)) (callees f).

Lemma one_pass_mono l ind : ∀ may ch, may ⊆ (one_pass l ind may ch).1 ∧ (ch = true → (one_pass l ind may ch).2 = true).
Proof.
  induction l as [|[n f] l IH]; intros may ch; [done|]. cbn [one_pass]. case_bool_decide; [apply IH|]. fold (fires ind may f).
  destruct (fires ind may f); [|apply IH]. destruct (IH ({[n]} ∪ may) true) as [H1 H2]. split; [set_solver|]. intros _. by apply H2.
Qed.

(** A pass without a change finds nothing to add. *)
Lemma one_pass_unchanged l ind : ∀ may, (one_pass l ind may false).2 = false →
  (one_pass l ind may false).1 = may ∧ ∀ n f, (n, f) ∈ l → n ∈ may ∨ fires ind may f = false.
Proof.
  induction l as [|[n f] l IH]; intros may H; [split; [done|]; intros n f Hn; by apply not_elem_of_nil in Hn|]. cbn [one_pass] in *.
  fold (fires ind may f) in H |- *. case_bool_decide as Hin.
  - destruct (IH may H) as [-> Hl]. split; [done|]. intros n' f' [[= -> ->]|Hn]%elem_of_cons; [by left|by apply Hl].
  - destruct (fires ind may f) eqn:E; [by rewrite (proj2 (one_pass_mono l ind ({[n]} ∪ may) true) eq_refl) in H|].
    destruct (IH may H) as [-> Hl]. split; [done|]. intros n' f' [[= -> ->]|Hn]%elem_of_cons; [by right|by apply Hl].
Qed.

(** A pass with a change adds a function. *)
Lemma one_pass_changed l ind : ∀ may, (one_pass l ind may false).2 = true →
  ∃ n, n ∈ map fst l ∧ n ∉ may ∧ n ∈ (one_pass l ind may false).1.
Proof.
  induction l as [|[n f] l IH]; intros may H; [done|]. cbn [one_pass map fst] in *. case_bool_decide as Hin.
  - destruct (IH may H) as (k & ? & ? & ?). exists k. split_and!; [by right|done|done].
  - fold (fires ind may f) in H |- *. destruct (fires ind may f).
    + exists n. split_and!; [left|done|]. pose proof (proj1 (one_pass_mono l ind ({[n]} ∪ may) true)). set_solver.
    + destruct (IH may H) as (k & ? & ? & ?). exists k. split_and!; [by right|done|done].
Qed.

Definition sound (may : gset jsstr) (ind : bool) : Prop := (∀ n, n ∈ may → raises n) ∧ (ind = true → some_closure_raises).

Lemma fires_sound may ind n f : sound may ind → (n, f) ∈ fs → fires ind may f = true → raises n.
Proof.
  intros [H1 H2] Hn. unfold fires. rewrite orb_true_iff, andb_true_iff, existsb_exists. intros [[Hv Hi]|(g & Hg & Hm)].
  - eapply raises_value; [exact Hn|exact Hv|by apply H2].
  - apply bool_decide_eq_true in Hm. eapply raises_call; [exact Hn|by apply list_elem_of_In|by apply H1].
Qed.

Lemma one_pass_sound l ind : (∀ nf, nf ∈ l → nf ∈ fs) → ∀ may ch, sound may ind → sound (one_pass l ind may ch).1 ind.
Proof.
  induction l as [|[n f] l IH]; intros Hl may ch Hs; [done|]. cbn [one_pass].
  assert (Hl' : ∀ nf, nf ∈ l → nf ∈ fs) by (intros nf H; apply Hl; by right). case_bool_decide; [by apply IH|].
  fold (fires ind may f). destruct (fires ind may f) eqn:E; [|by apply IH]. apply IH; [done|]. destruct Hs as [S1 S2]. split; [|done].
  intros k [->%elem_of_singleton|Hk]%elem_of_union; [|by apply S1]. eapply fires_sound; [by split|apply Hl; left|exact E].
Qed.

(** Everything the rules derive is in the set. *)
Definition complete (may : gset jsstr) (ind : bool) : Prop := (∀ n, raises n → n ∈ may) ∧ (some_closure_raises → ind = true).

Lemma closed_complete may ind :
  (∀ n f, (n, f) ∈ fs → throws f = true → n ∈ may) → (saw = true → ind = true) → (target_throws c targets may = true → ind = true) →
  (∀ n f, (n, f) ∈ fs → n ∈ may ∨ fires ind may f = false) → complete may ind.
Proof.
  intros Hs Hi Ht Hf.
  assert (H : ∀ n f, (n, f) ∈ fs → fires ind may f = true → n ∈ may) by (intros n f Hn E; destruct (Hf n f Hn); [done|congruence]).
  assert (HR : ∀ n, raises n → n ∈ may).
  { refine (raises_mut (λ n _, n ∈ may) (λ _, ind = true) _ _ _ _ _).
    - eauto.
    - intros n f g Hn Hg _ IH. apply (H n f Hn). unfold fires. apply orb_true_iff. right. apply existsb_exists. exists g.
      split; [by apply list_elem_of_In|by apply bool_decide_eq_true].
    - intros n f Hn Hv _ IH. apply (H n f Hn). unfold fires. by rewrite Hv, IH.
    - exact Hi.
    - intros t Ht1 Ht2 Ht3 _ IH. apply Ht, target_throws_spec. by exists t. }
  split; [exact HR|]. intros [E|t Ht1 Ht2 Ht3 Hr]; [by apply Hi|]. apply Ht, target_throws_spec. exists t. split_and!; auto.
Qed.

Lemma close_may_exact fuel : ∀ may ind,
  sound may ind → (∀ n f, (n, f) ∈ fs → throws f = true → n ∈ may) → (saw = true → ind = true) →
  (size ((list_to_set (map fst fs) : gset jsstr) ∖ may) + (if ind then 0 else 1) < fuel)%nat →
  ∃ may' ind', close_may c targets fuel fs may ind = Ok (may', ind') ∧ sound may' ind' ∧ complete may' ind'.
Proof.
  induction fuel as [|fuel IH]; intros may ind Hs Ht Hi Hf; [lia|]. cbn [close_may].
  pose proof (one_pass_mono fs ind may false) as [M _]. pose proof (one_pass_sound fs ind (λ _ H, H) may false Hs) as S'.
  pose proof (one_pass_unchanged fs ind may) as U. pose proof (one_pass_changed fs ind may) as C.
  destruct (one_pass fs ind may false) as [may' ch]. cbn [fst snd] in *. set (D := list_to_set (map fst fs) : gset jsstr) in *.
  assert (Hsub : (size (D ∖ may') <= size (D ∖ may))%nat) by (apply subseteq_size; set_solver).
  destruct (negb ind && target_throws c targets may') eqn:E.
  - apply andb_true_iff in E as [En Et]. destruct ind; [done|]. apply (IH may' true); [|intros; apply M; eauto|done|lia].
    destruct S' as [S1 _]. split; [exact S1|]. intros _. apply target_throws_spec in Et as (t & T1 & T2 & T3 & T4).
    eapply closure_target; [exact T1|exact T3|exact T4|by apply S1].
  - destruct ch.
    + apply IH; [done|intros; apply M; eauto|done|]. destruct (C eq_refl) as (n & Hn & Hn1 & Hn2).
      assert (size (D ∖ may') < size (D ∖ may))%nat; [|lia]. apply subset_size. split; [set_solver|]. intros Hc.
      assert (n ∈ D ∖ may') as Hx; [apply Hc; apply elem_of_difference; split; [by apply elem_of_list_to_set|done]|set_solver].
    + destruct (U eq_refl) as [-> Hl]. exists may, ind. split_and!; [done|done|]. apply closed_complete; [done|done| |exact Hl].
      intros Et. rewrite Et, andb_true_r in E. by destruct ind.
Qed.
End spec.

(** ** What a body contributes *)

Definition merge (s d : collected) : collected :=
  mkCollected (throws s || throws d) (callees s ++ callees d) (callsValue s || callsValue d)
    (closureTargets s ++ closureTargets d) (sawDynFuncAdapter s || sawDynFuncAdapter d).

Lemma merge_nothing_r s : merge s nothing = s.
Proof. destruct s. unfold merge, nothing. simpl. by rewrite !orb_false_r, !app_nil_r. Qed.
Lemma merge_assoc a b d : merge (merge a b) d = merge a (merge b d).
Proof. unfold merge. simpl. by rewrite !orb_assoc, !app_assoc. Qed.

Lemma seed_if_merge b s : seed_if b s = merge s (seed_if b nothing).
Proof. destruct s, b; unfold merge, seed_if, seed, nothing; simpl; by rewrite ?orb_false_r, ?orb_true_r, ?app_nil_r. Qed.
Lemma seed_merge s : seed s = merge s (seed nothing).
Proof. exact (seed_if_merge true s). Qed.
Lemma push_merge l s : push l s = merge s (push l nothing).
Proof. destruct s. unfold merge, push, nothing. simpl. by rewrite ?orb_false_r, ?app_nil_r. Qed.
Lemma calls_value_merge s : calls_value s = merge s (calls_value nothing).
Proof. destruct s. unfold merge, calls_value, nothing. simpl. by rewrite ?orb_false_r, ?orb_true_r, ?app_nil_r. Qed.
Lemma add_target_merge t s : add_target t s = merge s (add_target t nothing).
Proof. destruct s. unfold merge, add_target, nothing. simpl. by rewrite ?orb_false_r, ?app_nil_r. Qed.
Lemma adapter_merge s : adapter s = merge s (adapter nothing).
Proof. destruct s. unfold merge, adapter, nothing. simpl. by rewrite ?orb_false_r, ?orb_true_r, ?app_nil_r. Qed.

(** A node adds the same whatever was collected before. *)
Lemma visit_node_merge c present tdz rec s :
  visit_node c present tdz rec s = (let* d := visit_node c present tdz rec nothing in Ok (merge s d)).
Proof.
  assert (H0 : ∀ b1 b2 s, seed_if b2 (seed_if b1 s) = merge s (seed_if b2 (seed_if b1 nothing))).
  { intros b1 b2 t. rewrite (seed_if_merge b2 (seed_if b1 t)), (seed_if_merge b1 t), (seed_if_merge b2 (seed_if b1 nothing)). by rewrite merge_assoc. }
  unfold visit_node. cbv zeta.
  set (b1 := match prop rec "undefRecv" with JStr _ => true | _ => false end).
  assert (Hp : ∃ b2, ∀ s, (if undefSlots c then seed_if (negb (is_undef (tested_receiver c rec)) && negb (provenPresent (tested_receiver c rec) present)) (seed_if b1 s)
    else seed_if b1 s) = seed_if b2 (seed_if b1 s)) by (destruct (undefSlots c); [by eexists|by exists false]).
  destruct Hp as [b2 Hp]. rewrite !Hp. clear Hp. clearbody b1. set (p := λ s, seed_if b2 (seed_if b1 s)).
  change (seed_if b2 (seed_if b1 s)) with (p s). change (seed_if b2 (seed_if b1 nothing)) with (p nothing).
  assert (Hp : ∀ s, p s = merge s (p nothing)) by (intros; apply H0). clearbody p. clear H0.
  repeat match goal with
  | |- (if ?b then _ else _) = (let* d := (if ?b then _ else _) in _) => destruct b
  | |- match ?v with _ => _ end = (let* d := match ?v with _ => _ end in _) => destruct v
  | |- (let* l := ?m in _) = (let* d := (let* l := ?m in _) in _) => destruct m; [cbn [res_bind]|done]
  end; cbn [res_bind]; f_equal; rewrite (Hp s);
    repeat match goal with |- context [if ?b then _ else _] => destruct b end;
    rewrite ?(seed_merge (merge _ _)), ?(push_merge _ (merge _ _)), ?(calls_value_merge (merge _ _)), ?(add_target_merge _ (merge _ _)),
      ?(seed_if_merge _ (merge _ _)), ?(seed_merge (p nothing)), ?(push_merge _ (p nothing)), ?(calls_value_merge (p nothing)),
      ?(add_target_merge _ (p nothing)), ?(seed_if_merge _ (p nothing)), ?merge_assoc; try done.
  - rewrite (adapter_merge (merge s _)), (adapter_merge (merge (p nothing) _)), !merge_assoc. done.
  - by rewrite (seed_if_merge _ (merge (p nothing) _)), merge_assoc.
Qed.

(** The walk meets the objects of [ir_nodes], in order. *)
Lemma walk_ir_nodes {S} (enter : props → S → res S) v : ∀ s, walk_ir enter v s = res_fold enter (ir_nodes v) s.
Proof.
  induction v as [| | | | |l IH|ps IH] using js_full_ind; intros st; try done; cbn [walk_ir ir_nodes].
  - revert st. induction IH as [|v l Hv _ IHl]; intros st; [done|]. rewrite res_fold_app, Hv. destruct (res_fold enter (ir_nodes v) st); [apply IHl|done].
  - cbn [res_fold]. destruct (enter ps st) as [s'|]; [cbn [res_bind]|done]. revert s'. induction IH as [|kv ps' Hv _ IHl]; intros s'; [done|].
    destruct (_ || _); [apply IHl|]. rewrite res_fold_app, Hv. destruct (res_fold enter (ir_nodes kv.2) s'); [apply IHl|done].
Qed.

(** What the node [n] of a body contributes. *)
Definition effect (c : mctx) (present tdzIds : gset jsstr) (n : props) : res collected := visit_node c present tdzIds n nothing.

Section body.
Context (c : mctx) (present tdzIds : gset jsstr).
Notation eff := (effect c present tdzIds).

(** A part of what was collected comes from the start or from some node. *)
Lemma fold_collects (P : collected → Prop) : (∀ s d, P (merge s d) ↔ P s ∨ P d) → ∀ ns s f,
  res_fold (visit_node c present tdzIds) ns s = Ok f → P f ↔ P s ∨ ∃ n d, n ∈ ns ∧ eff n = Ok d ∧ P d.
Proof.
  intros HP. induction ns as [|n ns IH]; intros s f H.
  - injection H as <-. split; [by left|]. intros [H|(n & d & Hn & _)]; [done|by apply not_elem_of_nil in Hn].
  - cbn [res_fold] in H. rewrite visit_node_merge in H. change (visit_node c present tdzIds n nothing) with (eff n) in H.
    destruct (eff n) as [d|] eqn:E; [cbn [res_bind] in H|done]. rewrite (IH _ _ H), HP. split.
    + intros [[Hs|Hd]|(k & e & Hk & He)]; [by left|right; exists n, d; split; [left|done]|right; exists k, e; split; [by right|done]].
    + intros [Hs|(k & e & [->|Hk]%elem_of_cons & He & Pe)]; [by left; left| |right; by exists k, e]. left. right. congruence.
Qed.
End body.

(** The parameters of the walk over a function body. *)
Definition tdz_ids (fn : js) : gset jsstr :=
  list_to_set (omap (λ l, if truthy (field l "tdz") then Some (str (field l "id")) else None) (items (field fn "locals"))).

Lemma present_ok fn : ∃ out, presentLocals fn = Ok out.
Proof.
  unfold presentLocals. cbv zeta. rewrite walk_ir_nodes.
  match goal with |- context [res_fold (count_decl ?cand)] => assert (H : ∀ ns s, ∃ s', res_fold (count_decl cand) ns s = Ok s') end.
  { induction ns as [|n ns IH]; intros [out decls]; [by eexists|]. cbn [res_fold]. unfold count_decl at 1. cbv zeta.
    repeat case_match; cbn [res_bind]; apply IH. }
  destruct (H (ir_nodes (field fn "body")) (∅, ∅)) as [[out decls] ->]. by eexists.
Qed.

(** One function body: it may raise by itself, call a function, call a
    closure value, make a closure, or make a checked adapter, exactly when some
    object of the body -- outside [loc] and [type] -- does by the rules of its
    kind. *)
Theorem collect_fn_exact (c : mctx) (fn : js) (f : collected) : collect_fn c fn = Ok f →
  ∃ present, (if undefSlots c then presentLocals fn else Ok ∅) = Ok present ∧
    let from (P : collected → Prop) := ∃ n d, n ∈ ir_nodes (field fn "body") ∧ effect c present (tdz_ids fn) n = Ok d ∧ P d in
    (throws f = true ↔ from (λ d, throws d = true)) ∧ (∀ g, g ∈ callees f ↔ from (λ d, g ∈ callees d)) ∧
    (callsValue f = true ↔ from (λ d, callsValue d = true)) ∧ (∀ t, t ∈ closureTargets f ↔ from (λ d, t ∈ closureTargets d)) ∧
    (sawDynFuncAdapter f = true ↔ from (λ d, sawDynFuncAdapter d = true)).
Proof.
  unfold collect_fn. destruct (if undefSlots c then presentLocals fn else Ok ∅) as [present|] eqn:E; [|done]. cbn [res_bind]. rewrite walk_ir_nodes.
  fold (tdz_ids fn). intros H. exists present. split; [done|].
  assert (HP : ∀ P : collected → Prop, (∀ s d, P (merge s d) ↔ P s ∨ P d) → ¬ P nothing →
    P f ↔ ∃ n d, n ∈ ir_nodes (field fn "body") ∧ effect c present (tdz_ids fn) n = Ok d ∧ P d).
  { intros P HP Hn. rewrite (fold_collects c present (tdz_ids fn) P HP _ _ _ H). tauto. }
  split_and!; [|intros g| |intros t|].
  - apply (HP (λ d, throws d = true)); [intros; apply orb_true_iff|done].
  - apply (HP (λ d, g ∈ callees d)); [intros; apply elem_of_app|apply not_elem_of_nil].
  - apply (HP (λ d, callsValue d = true)); [intros; apply orb_true_iff|done].
  - apply (HP (λ d, t ∈ closureTargets d)); [intros; apply elem_of_app|apply not_elem_of_nil].
  - apply (HP (λ d, sawDynFuncAdapter d = true)); [intros; apply orb_true_iff|done].
Qed.

Lemma computeMayThrow_least (m : js) (fs : facts_map) (targets : list jsstr) (saw : bool) :
  collect (mctx_of m) (items (field m "functions")) [] [] false = Ok (fs, targets, saw) →
  ∃ may indirect, computeMayThrow m = Ok (may, indirect) ∧
    (∀ n, n ∈ may ↔ raises (mctx_of m) fs targets saw n) ∧ (indirect = true ↔ some_closure_raises (mctx_of m) fs targets saw).
Proof.
  intros H. unfold computeMayThrow. cbv zeta. rewrite H. cbn [res_bind]. set (may0 := list_to_set _ : gset jsstr).
  assert (M0 : ∀ n, n ∈ may0 ↔ ∃ f, (n, f) ∈ fs ∧ throws f = true).
  { intros n. unfold may0. rewrite elem_of_list_to_set, list_elem_of_omap. split.
    - intros ([k f] & Hk & E). simpl in E. destruct (throws f) eqn:T; [|done]. injection E as ->. by exists f.
    - intros (f & Hf & T). exists (n, f). split; [done|]. simpl. by rewrite T. }
  assert (S0 : sound (mctx_of m) fs targets saw may0 (saw || target_throws (mctx_of m) targets may0)).
  { assert (S1 : ∀ n, n ∈ may0 → raises (mctx_of m) fs targets saw n) by (intros n (f & Hf & T)%M0; by eapply raises_seed). split; [done|].
    intros [E|E]%orb_true_iff; [by apply closure_adapter|]. apply target_throws_spec in E as (t & T1 & T2 & T3 & T4).
    eapply closure_target; [exact T1|done|done|by apply S1]. }
  destruct (close_may_exact (mctx_of m) fs targets saw (3 + length fs) may0 _ S0) as (may & ind & E & [Q1 Q2] & [C1 C2]).
  - intros n f Hn T. apply M0. by exists f.
  - intros ->. done.
  - assert (Hl : ∀ l : list jsstr, (size (list_to_set l : gset jsstr) <= length l)%nat).
    { induction l as [|x l IH]; cbn [list_to_set length]; [rewrite size_empty; lia|]. rewrite size_union_alt, size_singleton.
      assert (size (list_to_set l ∖ {[x]} : gset jsstr) <= size (list_to_set l : gset jsstr))%nat by (apply subseteq_size; set_solver). lia. }
    pose proof (Hl (map fst fs)) as Hl'. rewrite length_map in Hl'.
    assert (size ((list_to_set (map fst fs) : gset jsstr) ∖ may0) <= size (list_to_set (map fst fs) : gset jsstr))%nat by (apply subseteq_size; set_solver).
    destruct (_ || _); lia.
  - exists may, ind. split; [exact E|]. split; [intros n; split; [apply Q1|apply C1]|split; [apply Q2|apply C2]].
Qed.

(** *** The walk ends *)

(** Base chains shorten: every class has a rank below the number of classes, and
    a larger one than its base. *)
Definition bases_ranked (m : js) (r : js → nat) : Prop :=
  ∀ k, k ∈ items (field m "classes") → (r k < length (items (field m "classes")))%nat ∧
    ∀ b, class_by_name (mctx_of m) (field k "base") = Some b → (r b < r k)%nat.

Lemma class_by_name_in c n k : class_by_name c n = Some k → k ∈ classes_of c.
Proof. unfold class_by_name. destruct n; try done. intros H. apply find_some in H as [H _]. by apply list_elem_of_In. Qed.

Lemma descends_ok m r cls : bases_ranked m r → ∀ fuel k, k ∈ items (field m "classes") → (r k < fuel)%nat →
  ∃ b, descends fuel (mctx_of m) cls (Some k) = Ok b.
Proof.
  intros Hr. induction fuel as [|fuel IH]; intros k Hk Hf; [lia|]. cbn [descends]. destruct (str_is _ _); [by eexists|].
  destruct (is_undef _); [by eexists|]. destruct (class_by_name (mctx_of m) (field k "base")) as [b|] eqn:E; [|destruct fuel; by eexists].
  destruct (Hr k Hk) as [_ Hb]. apply IH; [by apply class_by_name_in in E|]. specialize (Hb b E). lia.
Qed.

Lemma ctors_below_ok m r cls : bases_ranked m r → ∀ ks, ∃ l, ctors_below (mctx_of m) cls ks = Ok l.
Proof.
  intros Hr. induction ks as [|k ks [l IH]]; [by eexists|]. cbn [ctors_below].
  assert (∃ b, descends (length (classes_of (mctx_of m))) (mctx_of m) cls (class_by_name (mctx_of m) (field k "name")) = Ok b) as [b ->].
  { destruct (class_by_name _ _) as [q|] eqn:E; [|destruct (length _); by eexists]. apply class_by_name_in in E.
    apply (descends_ok m r); [done|exact E|]. by apply Hr. }
  cbn [res_bind]. rewrite IH. by eexists.
Qed.

Lemma effect_ok m r present tdz n : bases_ranked m r → ∃ d, effect (mctx_of m) present tdz n = Ok d.
Proof.
  intros Hr. unfold effect, visit_node. cbv zeta.
  repeat match goal with |- ∃ d, (if ?b then _ else _) = Ok d => destruct b; [by eexists|] end.
  destruct (kind_is n "newValue").
  - case_match; try by eexists. destruct (ctors_below_ok m r s Hr (classes_of (mctx_of m))) as [l ->]. by eexists.
  - repeat match goal with |- ∃ d, (if ?b then _ else _) = Ok d => destruct b; [by eexists|] end. by eexists.
Qed.

Lemma collect_fn_ok m r fn : bases_ranked m r → ∃ f, collect_fn (mctx_of m) fn = Ok f.
Proof.
  intros Hr. unfold collect_fn. assert (∃ p, (if undefSlots (mctx_of m) then presentLocals fn else Ok ∅) = Ok p) as [p ->].
  { destruct (undefSlots _); [apply present_ok|by eexists]. }
  cbn [res_bind]. cbv zeta. rewrite walk_ir_nodes. generalize nothing. induction (ir_nodes (field fn "body")) as [|n ns IH]; intros s; [by eexists|].
  cbn [res_fold]. rewrite visit_node_merge. destruct (effect_ok m r p (tdz_ids fn) n Hr) as [d E]. unfold effect, tdz_ids in E. rewrite E.
  cbn [res_bind]. apply IH.
Qed.

Lemma collect_ok m r fns : bases_ranked m r → ∀ fs ts saw, ∃ x, collect (mctx_of m) fns fs ts saw = Ok x.
Proof.
  intros Hr. induction fns as [|fn fns IH]; intros fs ts saw; [by eexists|]. cbn [collect].
  destruct (collect_fn_ok m r fn Hr) as [f ->]. cbn [res_bind]. apply IH.
Qed.

(** On a module whose class hierarchy has no cycle the analysis returns. *)
Lemma computeMayThrow_returns (m : js) (r : js → nat) : bases_ranked m r → ∃ may indirect, computeMayThrow m = Ok (may, indirect).
Proof.
  intros Hr. destruct (collect_ok m r (items (field m "functions")) Hr [] [] false) as [[[fs ts] saw] E].
  destruct (computeMayThrow_least m fs ts saw E) as (may & ind & H & _). by exists may, ind.
Qed.

(** *** Witnesses *)

Definition mk (ps : list (string * js)) : js := JObj (map (λ kv, (js_of_string kv.1, kv.2)) ps).
Definition mk_s (s : string) : js := JStr (js_of_string s).
Definition mk_fn (name : string) (body : list js) : js := mk [("name", mk_s name); ("locals", JArr []); ("params", JArr []); ("body", JArr body)].
(** [thrower] throws; [maker] makes a closure over it; [main] calls a closure
    value and [caller] calls [main]; [quiet] constructs a class. *)
Definition sample_ir : js :=
  mk [("functions", JArr [
        mk_fn "thrower" [mk [("kind", mk_s "throw"); ("value", mk [("kind", mk_s "numLit")])]];
        mk_fn "maker" [mk [("kind", mk_s "closure"); ("fnName", mk_s "thrower")]];
        mk_fn "caller" [mk [("kind", mk_s "call"); ("callee", mk_s "main"); ("args", JArr [])]];
        mk_fn "main" [mk [("kind", mk_s "callValue"); ("args", JArr [])]];
        mk_fn "quiet" [mk [("kind", mk_s "newValue"); ("callee", mk [("type", mk [("className", mk_s "A")])])]]]);
      ("classes", JArr [mk [("name", mk_s "A"); ("methods", JArr [])]; mk [("name", mk_s "B"); ("base", mk_s "A"); ("methods", JArr [])]])].

Example collect_fn_exact_witness : ∃ f, collect_fn (mctx_of sample_ir) (mk_fn "f" [mk [("kind", mk_s "throw")]]) = Ok f ∧ throws f = true.
Proof.
  destruct (collect_fn (mctx_of sample_ir) (mk_fn "f" [mk [("kind", mk_s "throw")]])) as [f|msg] eqn:E; [|vm_compute in E; discriminate E].
  exists f. split; [done|]. destruct (collect_fn_exact _ _ f E) as (p & Hp & Ht & _). apply Ht.
  clear Hp.
  exists [(js_of_string "kind", mk_s "throw")], (seed nothing). split; [|split; [vm_compute; reflexivity|reflexivity]].
  vm_compute. left.
Defined.
