(* ===== verification/MayThrowRules.v ===== *)
(** * The may-throw analysis against rules over the IR

    What MayThrow.v collects, stated without the walk: which nodes of a body
    raise by themselves, what they call, which closures they make, each by the
    rule of its kind (src/packages/compiler/src/backend/emission/may-throw.ts).
    The analysis of a module computes the least set of functions closed under
    these rules. *)

From S2P Require Import Prelude F64 Bytes IrJson ModuleUses MayThrow.

#[local] Open Scope string_scope.

Section rules.
Context (m : js).
Notation c := (mctx_of m).
Definition functions : list js := items (field m "functions").
Definition classes : list js := items (field m "classes").
(** The nodes of a body, in the order of the walk: everything below it but
    source positions and types. *)
Definition body (fn : js) : list props := ir_nodes (field fn "body").
(** The function a name stands for: the last one that has it. *)
Definition named (name : jsstr) (fn : js) : Prop := last (List.filter (λ fn, bool_decide (str (field fn "name") = name)) functions) = Some fn.
Definition async (name : jsstr) : Prop := ∃ fn, fn ∈ functions ∧ truthy (field fn "async") = true ∧ str (field fn "name") = name.
Definition generator (name : jsstr) : Prop := ∃ fn, fn ∈ functions ∧ truthy (field fn "generator") = true ∧ str (field fn "name") = name.

(** ** Receivers that are not tested *)

(** [this], a fresh value, the result of a guard, or a local that [P] holds of. *)
Definition present_value (P : jsstr → Prop) (v : js) : Prop := ∃ o, v = JObj o ∧
  (kind_in o ["new"; "recordLit"; "arrayLit"; "closure"] = true ∨
   kind_is o "varRef" = true ∧ (is_lit (prop o "localId") "this.0" = true ∨ P (str (prop o "localId"))) ∨
   kind_is o "call" = true ∧ ∃ callee, prop o "callee" = JStr callee ∧ (startsWith "%undef.recv." callee = true ∨ startsWith "%union.recv." callee = true)).
Definition candidate (fn : js) (id : jsstr) : Prop := ∃ l, l ∈ items (field fn "locals") ∧ str (field l "id") = id ∧
  is_true (field l "mutable") = false ∧ is_true (field l "tdz") = false ∧ is_true (field l "boxed") = false.
Definition declares (id : jsstr) (n : props) : bool := kind_is n "varDecl" && bool_decide (str (prop n "localId") = id).
(** After the nodes [ns], last first: some declaration of the local so far is
    initialized from a value that was present there. *)
Fixpoint vouched (fn : js) (ns : list props) (id : jsstr) : Prop :=
  match ns with
  | [] => False
  | n :: ns => vouched fn ns id ∨ candidate fn id ∧ declares id n = true ∧ prop n "init" ≠ JUndef ∧ prop n "init" ≠ JNull ∧ present_value (vouched fn ns) (prop n "init")
  end.
(** A [const] local declared once, from a present value. *)
Definition present_local (fn : js) (id : jsstr) : Prop := vouched fn (rev (body fn)) id ∧ length (List.filter (declares id) (body fn)) = 1%nat.

(** The receiver of a member read, an index read or a method call. *)
Definition receiver (n : props) (r : js) : Prop :=
  let arg0 := match items (prop n "args") with a :: _ => a | [] => JUndef end in
  (kind_is n "recordGet" = true ∧ is_true (prop n "spreadCopy") = false ∨ kind_is n "fieldGet" = true) ∧ r = prop n "obj" ∨
  kind_is n "arrayGet" = true ∧ r = prop n "arr" ∨
  kind_is n "virtualCall" = true ∧ r = arg0 ∨
  kind_is n "call" = true ∧ endsWith ".constructor" (str (prop n "callee")) = false ∧ r = arg0 ∧
    ∃ fn p ps, named (str (prop n "callee")) fn ∧ items (field fn "params") = p :: ps ∧ is_lit (field p "localId") "this.0" = true.

(** ** The rules of the nodes *)

Definition ALWAYS : list string :=
  ["throw"; "rethrow"; "dynCheck"; "caughtCheck"; "dynCall"; "dynInvoke"; "dynKeyGet"; "dynDestrCheck"; "dynIterN"; "awaitExpr"; "awaitUnionExpr";
   "yieldExpr"; "genResume"; "jsOp"; "jsExit"; "jsMarshal"; "jsBridgePromise"; "jsView"; "jsUnview"].
(** A keyed write that may meet a declared field, or miss. *)
Definition checked_write (n : props) : Prop := is_true (prop n "overflowOnly") = false ∧
  ∃ shape, find (λ r, str_is (field r "id") (str (prop n "shapeId"))) (items (field m "records")) = Some shape ∧
    (truthy (field shape "indexValue") = false ∨ is_lit (field (field shape "indexValue") "kind") "dyn" = true ∧ items (field shape "fields") ≠ []).

(** The node raises by itself. *)
Definition raises_here (fn : js) (n : props) : Prop :=
  (∃ s, prop n "undefRecv" = JStr s) ∨
  is_true (field m "undefSlots") = true ∧ (∃ r, receiver n r ∧ r ≠ JUndef ∧ ¬ present_value (present_local fn) r) ∨
  kind_in n ALWAYS = true ∨
  kind_is n "varRef" = true ∧ (∃ l, l ∈ items (field fn "locals") ∧ truthy (field l "tdz") = true ∧ str (field l "id") = str (prop n "localId")) ∨
  kind_is n "fieldIncDec" = true ∧ is_true (prop n "fieldDyn") = true ∨
  kind_is n "intrinsic" = true ∧ is_lit (prop n "name") "module.await" = true ∨
  kind_is n "recordKeySet" = true ∧ checked_write n ∨
  kind_is n "jsonStringify" = true ∧ type_kind_in (prop n "value") ["dyn"; "record"; "array"; "union"] = true ∨
  kind_is n "toString" = true ∧ (type_kind_in (prop n "operand") ["dyn"] = true ∨
    type_kind_in (prop n "operand") ["caught"] = true ∧ (moduleHasJsvalValues m = true ∨ moduleHasDynValues m = true)) ∨
  kind_is n "libCall" = true ∧ set_has MAY_THROW_LIB_FNS (str (prop n "fn")) = true ∨
  kind_is n "bytesNew" = true ∧ type_kind_in (prop n "source") ["f64"] = true ∨
  kind_is n "bytesIntrinsic" = true ∧ set_has MAY_THROW_BYTES_METHODS (str (prop n "method")) = true ∨
  kind_is n "arrIntrinsic" = true ∧ set_has MAY_THROW_ARR_METHODS (str (prop n "method")) = true ∨
  kind_is n "regexIntrinsic" = true ∧ method_in n ["replaceAll"; "split"; "splitLimit"; "matchAll"; "matchAllInto"; "collectAll"] = true.

(** A class is [cls] or extends it. *)
Inductive derives (cls : jsstr) : js → Prop :=
  | derives_self k : str_is (field k "name") cls = true → derives cls k
  | derives_base k b : is_undef (field k "base") = false → class_by_name c (field k "base") = Some b → derives cls b → derives cls k.

(** The node calls [g]: a synchronous function, a constructor, any constructor
    below a class value's class, any implementation of a method. *)
Definition calls_here (n : props) (g : jsstr) : Prop :=
  kind_is n "call" = true ∧ g = str (prop n "callee") ∧ ¬ async g ∧ ¬ generator g ∨
  kind_is n "new" = true ∧ g = ctor_name (str (prop n "className")) ∨
  kind_is n "newValue" = true ∧ (∃ cls k k', field (field (prop n "callee") "type") "className" = JStr cls ∧ k ∈ classes ∧
    class_by_name c (field k "name") = Some k' ∧ derives cls k' ∧ g = ctor_name (str (field k "name"))) ∨
  kind_is n "virtualCall" = true ∧ (∃ cls meth, cls ∈ classes ∧ meth ∈ items (field cls "methods") ∧ str meth = str (prop n "method") ∧
    g = (js_of_string "%" ++ str (field cls "name") ++ js_of_string "." ++ str meth)%list).
(** It makes a checked adapter. *)
Definition adapts_here (n : props) : Prop := kind_in n ["dynCheck"; "caughtCheck"] = true ∧ is_lit (field (prop n "type") "kind") "func" = true.

(** ** The functions that may throw *)

(** The least set: a function raises if a node of its body does, if it calls one
    that does, or if it calls a closure value while some closure may raise -- an
    adapter, or a synchronous closure target that raises. *)
Inductive may_raise : jsstr → Prop :=
  | raise_here name fn n : named name fn → n ∈ body fn → raises_here fn n → may_raise name
  | raise_call name fn n g : named name fn → n ∈ body fn → calls_here n g → may_raise g → may_raise name
  | raise_value name fn n : named name fn → n ∈ body fn → kind_is n "callValue" = true → closure_may_raise → may_raise name
with closure_may_raise : Prop :=
  | raise_adapter fn n : fn ∈ functions → n ∈ body fn → adapts_here n → closure_may_raise
  | raise_target fn n t : fn ∈ functions → n ∈ body fn → kind_is n "closure" = true → t = str (prop n "fnName") → ¬ async t → ¬ generator t → may_raise t → closure_may_raise.
Scheme may_raise_mut := Induction for may_raise Sort Prop
  with closure_may_raise_mut := Induction for closure_may_raise Sort Prop.
End rules.

(** ** One node *)

(** The kind of a node decides every other test of it. *)
Lemma kind_of n x : kind_is n x = true → ∀ y, kind_is n y = bool_decide (js_of_string x = js_of_string y).
Proof. unfold kind_is, is_lit. destruct (get _ n); try done. intros ->%bool_decide_eq_true y. done. Qed.
Ltac literals := repeat match goal with |- context [bool_decide (js_of_string ?a = js_of_string ?b)] =>
    let v := eval vm_compute in (bool_decide (js_of_string a = js_of_string b)) in change (bool_decide (js_of_string a = js_of_string b)) with v
  end.

(** ** The tables of the walk *)

Lemma present_value_iff (present : gset jsstr) (P : jsstr → Prop) v : (∀ id, id ∈ present ↔ P id) → provenPresent v present = true ↔ present_value P v.
Proof.
  intros HP. unfold present_value. split.
  - destruct v as [| | | | | |o]; try done. intros H. exists o. split; [done|]. unfold provenPresent in H.
    destruct (kind_in o _); [by left|right]. destruct (kind_is o "varRef"); [left; split; [done|]; rewrite <- HP; apply orb_true_iff in H as [H|H]; [by left|right; by apply bool_decide_eq_true in H]|right].
    destruct (kind_is o "call"); [|done]. split; [done|]. destruct (prop o "callee"); try done. eexists. split; [done|]. by apply orb_true_iff.
  - intros (o & -> & H). unfold provenPresent. destruct H as [->|[[Hk H]|[Hk (callee & E & H)]]]; [done|..]; destruct (kind_in o _) eqn:Ei; try done.
    + rewrite Hk. rewrite <- HP in H. apply orb_true_iff. destruct H as [H|H]; [by left|right; by apply bool_decide_eq_true].
    + rewrite (kind_of o "call" Hk). literals. rewrite Hk, E. by apply orb_true_iff.
Qed.
Lemma present_value_ext (P Q : jsstr → Prop) v : (∀ id, P id ↔ Q id) → present_value P v ↔ present_value Q v.
Proof. intros H. unfold present_value. by setoid_rewrite H. Qed.

Section tables.
Context (m : js).
Notation c := (mctx_of m).

Definition candidates (fn : js) : gset jsstr := list_to_set (omap (λ l,
  if negb (is_true (field l "mutable")) && negb (is_true (field l "tdz")) && negb (is_true (field l "boxed")) then Some (str (field l "id")) else None) (items (field fn "locals"))).
Lemma candidates_iff fn id : id ∈ candidates fn ↔ candidate fn id.
Proof.
  unfold candidates, candidate. rewrite elem_of_list_to_set, list_elem_of_omap. split.
  - intros (l & Hl & E). destruct (_ && _) eqn:B; [|done]. injection E as <-. apply andb_true_iff in B as [[B1 B2]%andb_true_iff B3]. apply negb_true_iff in B1, B2, B3. by exists l.
  - intros (l & Hl & <- & B1 & B2 & B3). exists l. split; [done|]. by rewrite B1, B2, B3.
Qed.

(** The declarations after some nodes. *)
Lemma count_decl_spec fn ns : ∀ out decls, res_fold (count_decl (candidates fn)) ns (∅, ∅) = Ok (out, decls) →
  (∀ id, id ∈ out ↔ vouched fn (rev ns) id) ∧ (∀ id, candidate fn id → default 0%nat (decls !! id) = length (List.filter (declares id) ns)).
Proof.
  induction ns as [|n ns IH] using rev_ind; intros out decls H; [injection H as <- <-; split; [intros id; cbn; set_solver|done]|].
  rewrite res_fold_app in H. destruct (res_fold _ ns _) as [[out0 decls0]|] eqn:E; [|done]. cbn [res_bind res_fold] in H. destruct (IH _ _ eq_refl) as [Ho Hd]. clear IH E.
  apply res_bind_Ok in H as ([out1 decls1] & H & Hr). injection Hr as -> ->. unfold count_decl in H. cbv zeta in H. rewrite rev_unit. set (k := str (prop n "localId")) in *.
  assert (Hfilter : ∀ id, List.filter (declares id) (ns ++ [n])%list = (List.filter (declares id) ns ++ if declares id n then [n] else [])%list).
  { intros id. rewrite List.filter_app. cbn [List.filter]. by destruct (declares id n). }
  assert (Hdec : ∀ id, declares id n = true ↔ kind_is n "varDecl" = true ∧ k = id) by (intros id; unfold declares; by rewrite andb_true_iff, bool_decide_eq_true).
  destruct (kind_is n "varDecl" && bool_decide (k ∈ candidates fn)) eqn:B.
  - apply andb_true_iff in B as [B1 B2%bool_decide_eq_true]. pose proof (proj1 (candidates_iff fn k) B2) as Hc.
    assert (Hcount : ∀ id, candidate fn id → default 0%nat (<[k := Datatypes.S (default 0%nat (decls0 !! k))]> decls0 !! id) = length (List.filter (declares id) (ns ++ [n])%list)).
    { intros id Hid. rewrite Hfilter, length_app, <- (Hd id Hid). destruct (decide (k = id)) as [<-|Hne].
      - rewrite lookup_insert_eq. rewrite (proj2 (Hdec k)) by done. simpl. lia.
      - rewrite lookup_insert_ne by done. destruct (declares id n) eqn:D; [by apply Hdec in D as [_ D]|]. cbn [length]. lia. }
    assert (Hout : ∀ b : bool, (b = true ↔ prop n "init" ≠ JUndef ∧ prop n "init" ≠ JNull ∧ present_value (vouched fn (rev ns)) (prop n "init")) →
      ∀ id, id ∈ (if b then {[k]} ∪ out0 else out0) ↔ vouched fn (n :: rev ns) id).
    { intros b Hb id. cbn [vouched]. rewrite Hdec, <- Ho. split.
      - destruct b; [|by left]. intros [->%elem_of_singleton|Hi]%elem_of_union; [right|by left]. split; [done|]. split; [done|]. by apply Hb.
      - intros [Hi|(_ & [_ <-] & Hi)]; [destruct b; set_solver|]. destruct b; [set_solver|]. by apply Hb in Hi. }
    pose proof (present_value_iff out0 (vouched fn (rev ns)) (prop n "init") Ho) as Hp.
    destruct (prop n "init") as [| | | | | |ps] eqn:Ei; try (injection H as <- <-; split; [apply (Hout false); naive_solver|exact Hcount]);
      try (destruct (provenPresent _ out0) eqn:Ep; injection H as <- <-; (split; [|exact Hcount]); [apply (Hout true)|apply (Hout false)]; rewrite <- Hp; naive_solver).
  - injection H as <- <-. split.
    + intros id. cbn [vouched]. rewrite Ho, Hdec. split; [by left|]. intros [Hi|(Hc & [B1 <-] & _)]; [done|]. rewrite B1, bool_decide_true in B by by apply candidates_iff. done.
    + intros id Hid. rewrite Hfilter, length_app, <- (Hd id Hid). destruct (declares id n) eqn:D; [|cbn [length]; lia]. apply Hdec in D as [B1 <-]. rewrite B1, bool_decide_true in B by by apply candidates_iff. done.
Qed.
Lemma vouched_candidate fn ns id : vouched fn ns id → candidate fn id.
Proof. induction ns as [|n ns IH]; [done|]. intros [H|[H _]]; auto. Qed.
Lemma presentLocals_spec fn out : presentLocals fn = Ok out → ∀ id, id ∈ out ↔ present_local fn id.
Proof.
  unfold presentLocals. cbv zeta. fold (candidates fn). rewrite walk_ir_nodes. fold (body fn). destruct (res_fold _ _ _) as [[o d]|] eqn:E; [|done]. cbn [res_bind]. intros [= <-] id.
  destruct (count_decl_spec fn (body fn) o d E) as [Ho Hd]. rewrite elem_of_filter, Ho. unfold present_local. split.
  - intros [Hone Hv]. split; [done|]. rewrite <- (Hd id) by by eapply vouched_candidate. by rewrite Hone.
  - intros [Hv Hone]. split; [|done]. rewrite <- (Hd id) in Hone by by eapply vouched_candidate. destruct (d !! id); [by cbn in Hone; subst|done].
Qed.

Lemma in_fn_names p x : in_list x (fn_names p m) = true ↔ ∃ fn, fn ∈ functions m ∧ p fn = true ∧ str (field fn "name") = x.
Proof.
  unfold in_list, fn_names. rewrite bool_decide_eq_true, list_elem_of_fmap. split.
  - intros (fn & -> & Hf). apply list_elem_of_In, List.filter_In in Hf as [Hf Hp]. exists fn. split; [by apply list_elem_of_In|done].
  - intros (fn & Hf & Hp & <-). exists fn. split; [done|]. apply list_elem_of_In, List.filter_In. split; [by apply list_elem_of_In|done].
Qed.
Lemma async_iff x : x ∈ asyncFns c ↔ async m x.
Proof. rewrite <- (bool_decide_eq_true (x ∈ asyncFns c)). apply (in_fn_names (λ fn, truthy (field fn "async"))). Qed.
Lemma generator_iff x : x ∈ genFns c ↔ generator m x.
Proof. rewrite <- (bool_decide_eq_true (x ∈ genFns c)). apply (in_fn_names (λ fn, truthy (field fn "generator"))). Qed.
Lemma named_fnByName name : (∃ fn, named m name fn ∧ fnByName c name = fn) ∨ (∀ fn, ¬ named m name fn) ∧ fnByName c name = JUndef.
Proof.
  unfold named, fnByName, functions. cbn [mc_mod mctx_of]. destruct (last _) as [fn|]; [left; by exists fn|right]. split; [done|]. done.
Qed.

(** *** Method implementations *)

Definition impl_name (cls meth : js) : jsstr := (js_of_string "%" ++ str (field cls "name") ++ js_of_string "." ++ str meth)%list.
Lemma impls_of_push k g meth impls x : x ∈ impls_of meth (impl_push k g impls) ↔ x ∈ impls_of meth impls ∨ k = meth ∧ x = g.
Proof.
  induction impls as [|[k' l] impls IH]; cbn [impl_push impls_of].
  - case_bool_decide as E; set_solver.
  - destruct (bool_decide (k = k')) eqn:E; cbn [impls_of].
    + apply bool_decide_eq_true in E as <-. case_bool_decide as E'; set_solver.
    + apply bool_decide_eq_false in E. case_bool_decide as E'; [set_solver|]. exact IH.
Qed.
Lemma impls_of_class meth x cls ms : ∀ acc, x ∈ impls_of meth (foldl (λ acc mt, impl_push (str mt) (js_of_string "%" ++ str (field cls "name") ++ js_of_string "." ++ str mt)%list acc) acc ms) ↔
  x ∈ impls_of meth acc ∨ ∃ mt, mt ∈ ms ∧ str mt = meth ∧ x = impl_name cls mt.
Proof.
  induction ms as [|mt ms IH]; intros acc; cbn [foldl]; [set_solver|]. rewrite IH, impls_of_push. unfold impl_name. split.
  - intros [[H|[E H]]|(mt' & H1 & H2)]; [by left|right; exists mt; split; [by left|done]|right; exists mt'; split; [by right|done]].
  - intros [H|(mt' & [->|H]%elem_of_cons & E & H2)]; [by left; left|by left; right|right; by exists mt'].
Qed.
Lemma method_impls_iff meth x : x ∈ impls_of meth (method_impls m) ↔ ∃ cls mt, cls ∈ classes m ∧ mt ∈ items (field cls "methods") ∧ str mt = meth ∧ x = impl_name cls mt.
Proof.
  unfold method_impls, classes. generalize (items (field m "classes")). intros ks.
  enough (H : ∀ acc, x ∈ impls_of meth (foldl (λ acc cls, foldl (λ acc mt, impl_push (str mt) (js_of_string "%" ++ str (field cls "name") ++ js_of_string "." ++ str mt)%list acc) acc (items (field cls "methods"))) acc ks) ↔
    x ∈ impls_of meth acc ∨ ∃ cls mt, cls ∈ ks ∧ mt ∈ items (field cls "methods") ∧ str mt = meth ∧ x = impl_name cls mt).
  { rewrite H. cbn [impls_of]. set_solver. }
  induction ks as [|cls ks IH]; intros acc; cbn [foldl]; [set_solver|]. rewrite IH, impls_of_class. split.
  - intros [[H|(mt & H)]|(cls' & mt & Hc & H)]; [by left|right; exists cls, mt; split; [by left|done]|right; exists cls', mt; split; [by right|done]].
  - intros [H|(cls' & mt & [->|Hc]%elem_of_cons & H)]; [by left; left|left; right; by exists mt|right; by exists cls', mt].
Qed.

(** *** Class hierarchies *)

Lemma descends_spec cls : ∀ fuel k b, descends fuel c cls (Some k) = Ok b → b = true ↔ derives m cls k.
Proof.
  induction fuel as [|fuel IH]; intros k b; [done|]. cbn [descends]. destruct (str_is (field k "name") cls) eqn:Es; [intros [= <-]; split; [intros _; by apply derives_self|done]|].
  destruct (is_undef (field k "base")) eqn:Eu.
  - intros [= <-]. split; [done|]. inversion 1; congruence.
  - destruct (class_by_name c (field k "base")) as [b'|] eqn:Eb.
    + intros H. rewrite (IH _ _ H). split; [by eapply derives_base|]. inversion 1; congruence.
    + intros H. assert (b = false) as -> by (destruct fuel; cbn in H; congruence). split; [done|]. inversion 1; congruence.
Qed.
Lemma ctors_below_spec cls ks : ∀ l, ctors_below c cls ks = Ok l → ∀ g, g ∈ l ↔ ∃ k k', k ∈ ks ∧ class_by_name c (field k "name") = Some k' ∧ derives m cls k' ∧ g = ctor_name (str (field k "name")).
Proof.
  induction ks as [|k ks IH]; intros l; [intros [= <-]; set_solver|]. cbn [ctors_below]. intros H. apply res_bind_Ok in H as (d & Hd & H). apply res_bind_Ok in H as (l' & Hl & H). injection H as <-. intros g.
  assert (Hk : d = true ↔ ∃ k', class_by_name c (field k "name") = Some k' ∧ derives m cls k').
  { destruct (class_by_name c (field k "name")) as [k'|]; [rewrite (descends_spec _ _ _ _ Hd); naive_solver|]. assert (d = false) as -> by (destruct (length _); cbn in Hd; congruence). naive_solver. }
  assert (Hg : g ∈ (if d then ctor_name (str (field k "name")) :: l' else l') ↔ d = true ∧ g = ctor_name (str (field k "name")) ∨ g ∈ l') by (destruct d; rewrite ?elem_of_cons; naive_solver).
  rewrite Hg, Hk, (IH _ Hl). setoid_rewrite elem_of_cons. naive_solver.
Qed.
End tables.

(** ** What a node contributes *)

Section nodes.
Context (m : js).
Notation c := (mctx_of m).

Lemma receiver_iff n r : r ≠ JUndef → receiver m n r ↔ tested_receiver c n = r.
Proof.
  intros Hr. unfold receiver, tested_receiver. set (arg0 := match items (prop n "args") with a :: _ => a | [] => JUndef end).
  destruct (kind_is n "recordGet") eqn:E1; [|destruct (kind_is n "fieldGet") eqn:E2; [|destruct (kind_is n "arrayGet") eqn:E3; [|destruct (kind_is n "virtualCall") eqn:E4; [|destruct (kind_is n "call") eqn:E5]]]].
  - rewrite (kind_of n _ E1 "fieldGet"), (kind_of n _ E1 "arrayGet"), (kind_of n _ E1 "virtualCall"), (kind_of n _ E1 "call"). literals. cbn [andb orb]. destruct (is_true _); cbn [negb andb orb]; naive_solver.
  - rewrite (kind_of n _ E2 "arrayGet"), (kind_of n _ E2 "virtualCall"), (kind_of n _ E2 "call"). literals. cbn [andb orb]. naive_solver.
  - rewrite (kind_of n _ E3 "virtualCall"), (kind_of n _ E3 "call"). literals. cbn [andb orb]. naive_solver.
  - rewrite (kind_of n _ E4 "call"). literals. cbn [andb orb]. naive_solver.
  - cbn [andb orb]. set (this := is_lit (field match items (field (fnByName c (str (prop n "callee"))) "params") with p :: _ => p | [] => JUndef end "localId") "this.0").
    assert (Hex : (∃ fn p ps, named m (str (prop n "callee")) fn ∧ items (field fn "params") = p :: ps ∧ is_lit (field p "localId") "this.0" = true) ↔ this = true).
    { unfold this. destruct (named_fnByName m (str (prop n "callee"))) as [(fn & Hf & E)|[Hf E]]; rewrite E.
      - split.
        + intros (fn' & p & ps & Hf' & Ep & Ht). unfold named in *. assert (fn' = fn) as -> by congruence. by rewrite Ep.
        + destruct (items (field fn "params")) as [|p ps] eqn:Ep; [done|]. intros Ht. by exists fn, p, ps.
      - split; [|done]. intros (fn' & p & ps & Hf' & _). by destruct (Hf fn'). }
    rewrite Hex. destruct this, (endsWith ".constructor" (str (prop n "callee"))); cbn [negb andb]; naive_solver.
  - cbn [andb orb]. naive_solver.
Qed.
Lemma checked_write_iff n : record_key_set_throws c n = true ↔ checked_write m n.
Proof.
  unfold record_key_set_throws, checked_write. cbn [mc_mod mctx_of]. destruct (find _ _) as [shape|]; [|naive_solver].
  assert (Hl : (0 <? length (items (field shape "fields")))%nat = true ↔ items (field shape "fields") ≠ []) by by destruct (items (field shape "fields")).
  rewrite andb_true_iff, negb_true_iff, orb_true_iff, negb_true_iff, andb_true_iff, Hl. naive_solver.
Qed.
Lemma tdz_iff fn id : id ∈ tdz_ids fn ↔ ∃ l, l ∈ items (field fn "locals") ∧ truthy (field l "tdz") = true ∧ str (field l "id") = id.
Proof.
  unfold tdz_ids. rewrite elem_of_list_to_set, list_elem_of_omap. split.
  - intros (l & Hl & E). destruct (truthy _) eqn:T; [|done]. injection E as <-. by exists l.
  - intros (l & Hl & T & <-). exists l. by rewrite T.
Qed.

(** Raising is the only thing [seed_if] adds. *)
Lemma seed_if_parts b s : throws (seed_if b s) = b || throws s ∧ callees (seed_if b s) = callees s ∧ callsValue (seed_if b s) = callsValue s ∧
  closureTargets (seed_if b s) = closureTargets s ∧ sawDynFuncAdapter (seed_if b s) = sawDynFuncAdapter s.
Proof. by destruct b, s. Qed.
(** The tests before the kind of the node is looked at. *)
Definition early (fn : js) (present : gset jsstr) (n : props) : bool :=
  match prop n "undefRecv" with JStr _ => true | _ => false end ||
  undefSlots c && (let recv := tested_receiver c n in negb (is_undef recv) && negb (provenPresent recv present)).
Lemma early_iff fn present n : (undefSlots c = true → ∀ id, id ∈ present ↔ present_local fn id) →
  early fn present n = true ↔ (∃ s, prop n "undefRecv" = JStr s) ∨ is_true (field m "undefSlots") = true ∧ (∃ r, receiver m n r ∧ r ≠ JUndef ∧ ¬ present_value (present_local fn) r).
Proof.
  intros HP. unfold early. cbv zeta. rewrite orb_true_iff, !andb_true_iff, !negb_true_iff.
  assert (Hr : (∃ r, receiver m n r ∧ r ≠ JUndef ∧ ¬ present_value (present_local fn) r) ↔ tested_receiver c n ≠ JUndef ∧ ¬ present_value (present_local fn) (tested_receiver c n)).
  { split; [intros (r & Hr & Hne & Hp); apply receiver_iff in Hr as <-; done|]. intros [Hne Hp]. exists (tested_receiver c n). split; [by apply receiver_iff|done]. }
  rewrite Hr. assert (Hu : is_undef (tested_receiver c n) = false ↔ tested_receiver c n ≠ JUndef) by (destruct (tested_receiver c n); naive_solver). rewrite Hu.
  assert (Hs : (∃ s, prop n "undefRecv" = JStr s) ↔ match prop n "undefRecv" with JStr _ => true | _ => false end = true) by (destruct (prop n "undefRecv"); naive_solver). rewrite Hs.
  change (undefSlots c) with (is_true (field m "undefSlots")) in *. destruct (is_true (field m "undefSlots")); [|naive_solver].
  assert (Hv : provenPresent (tested_receiver c n) present = false ↔ ¬ present_value (present_local fn) (tested_receiver c n)).
  { rewrite <- (present_value_iff present (present_local fn)) by by apply HP. by rewrite not_true_iff_false. }
  rewrite Hv. naive_solver.
Qed.


Lemma start_early fn present n :
  (if undefSlots c then seed_if (negb (is_undef (tested_receiver c n)) && negb (provenPresent (tested_receiver c n) present)) (seed_if (match prop n "undefRecv" with JStr _ => true | _ => false end) nothing)
   else seed_if (match prop n "undefRecv" with JStr _ => true | _ => false end) nothing) = mkCollected (early fn present n) [] false [] false.
Proof. unfold early. cbv zeta. destruct (match prop n "undefRecv" with JStr _ => true | _ => false end), (undefSlots c), (negb _ && negb _); done. Qed.

#[local] Opaque type_kind_in set_has method_in.
(** The rules at one node, for a start that raises or not. *)
Definition node_rules (fn : js) (e : bool) (n : props) (d : collected) : Prop :=
  (throws d = true ↔ e = true ∨
    kind_in n ALWAYS = true ∨
    kind_is n "varRef" = true ∧ (∃ l, l ∈ items (field fn "locals") ∧ truthy (field l "tdz") = true ∧ str (field l "id") = str (prop n "localId")) ∨
    kind_is n "fieldIncDec" = true ∧ is_true (prop n "fieldDyn") = true ∨
    kind_is n "intrinsic" = true ∧ is_lit (prop n "name") "module.await" = true ∨
    kind_is n "recordKeySet" = true ∧ checked_write m n ∨
    kind_is n "jsonStringify" = true ∧ type_kind_in (prop n "value") ["dyn"; "record"; "array"; "union"] = true ∨
    kind_is n "toString" = true ∧ (type_kind_in (prop n "operand") ["dyn"] = true ∨
      type_kind_in (prop n "operand") ["caught"] = true ∧ (moduleHasJsvalValues m = true ∨ moduleHasDynValues m = true)) ∨
    kind_is n "libCall" = true ∧ set_has MAY_THROW_LIB_FNS (str (prop n "fn")) = true ∨
    kind_is n "bytesNew" = true ∧ type_kind_in (prop n "source") ["f64"] = true ∨
    kind_is n "bytesIntrinsic" = true ∧ set_has MAY_THROW_BYTES_METHODS (str (prop n "method")) = true ∨
    kind_is n "arrIntrinsic" = true ∧ set_has MAY_THROW_ARR_METHODS (str (prop n "method")) = true ∨
    kind_is n "regexIntrinsic" = true ∧ method_in n ["replaceAll"; "split"; "splitLimit"; "matchAll"; "matchAllInto"; "collectAll"] = true) ∧
  (∀ g, g ∈ callees d ↔ calls_here m n g) ∧ (callsValue d = true ↔ kind_is n "callValue" = true) ∧
  (∀ t, t ∈ closureTargets d ↔ kind_is n "closure" = true ∧ t = str (prop n "fnName")) ∧ (sawDynFuncAdapter d = true ↔ adapts_here n).

(** All tests of the kind, once it is known. *)
Ltac with_kind n H := unfold node_rules, calls_here, adapts_here, kind_in, ALWAYS; cbn [existsb]; rewrite !(kind_of n _ H); literals; cbn [orb];
  cbn [throws callees callsValue closureTargets sawDynFuncAdapter seed push calls_value add_target adapter app];
  rewrite ?(proj1 (seed_if_parts _ _)), ?(proj1 (proj2 (seed_if_parts _ _))), ?(proj1 (proj2 (proj2 (seed_if_parts _ _)))), ?(proj1 (proj2 (proj2 (proj2 (seed_if_parts _ _))))), ?(proj2 (proj2 (proj2 (proj2 (seed_if_parts _ _)))));
  cbn [throws callees callsValue closureTargets sawDynFuncAdapter].
Ltac kinds H := repeat lazymatch type of H with kind_in _ _ = true => unfold kind_in in H; cbn [existsb] in H | (_ || _ = true)%bool => apply orb_true_iff in H as [H|H] | false = true => discriminate H end.

Ltac ors := repeat match goal with |- context [(?a || ?b)%bool = true] => rewrite (orb_true_iff a b) end.
Ltac by_cases := split_and!; intros; rewrite ?list_elem_of_singleton; ors;
  try match goal with |- context [_ ∈ []] => setoid_rewrite elem_of_nil end;
  pose proof diff_false_true; assert (true = true) by reflexivity; generalize dependent (false = true); generalize dependent (true = true); intros; tauto.

Ltac tables := ors; rewrite ?bool_decide_eq_true, ?tdz_iff, ?checked_write_iff.
(** The next test of the kind; the branch taken is closed by [tac]. *)
Ltac branch n tac :=
  lazymatch goal with
  | |- (if kind_in n ?ks then _ else _) = _ → _ => let E := fresh "E" in destruct (kind_in n ks) eqn:E; [tac E|]
  | |- (if kind_is n ?k then _ else _) = _ → _ => let E := fresh "E" in destruct (kind_is n k) eqn:E; [tac E|]
  end.
Ltac plain n E := intros [= <-]; kinds E; with_kind n E; tables; by_cases.

Lemma call_exact fn e n : kind_is n "call" = true → let callee := str (prop n "callee") in let s := mkCollected e [] false [] false in
  node_rules fn e n (if negb (in_list callee (asyncFns c)) && negb (in_list callee (genFns c)) then push [callee] s else s).
Proof.
  intros E callee s. subst s. assert (Hb : negb (in_list callee (asyncFns c)) && negb (in_list callee (genFns c)) = true ↔ ¬ async m callee ∧ ¬ generator m callee).
  { unfold in_list. rewrite andb_true_iff, !negb_true_iff, !bool_decide_eq_false, async_iff, generator_iff. done. }
  assert (Hg : ∀ g, g = callee ∧ ¬ async m g ∧ ¬ generator m g ↔ (¬ async m callee ∧ ¬ generator m callee) ∧ g = callee) by naive_solver.
  destruct (negb _ && negb _).
  - pose proof (proj1 Hb eq_refl) as Ha. with_kind n E. fold callee. setoid_rewrite Hg. by_cases.
  - assert (Hn : ¬ (¬ async m callee ∧ ¬ generator m callee)) by by intros H%Hb. with_kind n E. fold callee. setoid_rewrite Hg. by_cases.
Qed.
Lemma newValue_exact fn e n d : kind_is n "newValue" = true →
  match field (field (prop n "callee") "type") "className" with
  | JStr cls => let* l := ctors_below c cls (classes_of c) in Ok (push l (mkCollected e [] false [] false))
  | _ => Ok (mkCollected e [] false [] false)
  end = Ok d → node_rules fn e n d.
Proof.
  intros E. set (cn := field (field (prop n "callee") "type") "className").
  assert (Hno : (∀ cls, cn ≠ JStr cls) → node_rules fn e n (mkCollected e [] false [] false)).
  { intros Hno. assert (Hx : ∀ g, (∃ cls k k', cn = JStr cls ∧ k ∈ classes m ∧ class_by_name c (field k "name") = Some k' ∧ derives m cls k' ∧ g = ctor_name (str (field k "name"))) ↔ False).
    { intros g. split; [|done]. intros (cls & k & k' & H & _). by apply (Hno cls). }
    with_kind n E. fold cn. setoid_rewrite Hx. by_cases. }
  destruct cn as [| | | |cls| |] eqn:Ec; try (intros [= <-]; by apply Hno). clear Hno.
  intros H. apply res_bind_Ok in H as (l & Hl & H). injection H as <-. pose proof (ctors_below_spec m cls _ l Hl) as Hg.
  assert (Hx : ∀ g, (∃ cls k k', cn = JStr cls ∧ k ∈ classes m ∧ class_by_name c (field k "name") = Some k' ∧ derives m cls k' ∧ g = ctor_name (str (field k "name"))) ↔ g ∈ l).
  { intros g. rewrite (Hg g). split; [intros (cls' & k & k' & E' & H); rewrite Ec in E'; injection E' as <-; by exists k, k'|]. intros (k & k' & H). by exists cls, k, k'. }
  with_kind n E. fold cn. setoid_rewrite Hx. by_cases.
Qed.
Lemma virtualCall_exact fn e n : kind_is n "virtualCall" = true →
  node_rules fn e n (push (impls_of (str (prop n "method")) (methodImpls c)) (mkCollected e [] false [] false)).
Proof.
  intros E. pose proof (method_impls_iff m (str (prop n "method"))) as Hi. unfold impl_name in Hi. with_kind n E. cbn [methodImpls mctx_of]. setoid_rewrite Hi. by_cases.
Qed.
Lemma check_exact fn e n : kind_in n ["dynCheck"; "caughtCheck"] = true →
  node_rules fn e n (if is_lit (field (prop n "type") "kind") "func" then adapter (seed (mkCollected e [] false [] false)) else seed (mkCollected e [] false [] false)).
Proof. intros E. destruct (is_lit (field (prop n "type") "kind") "func") eqn:Ef; kinds E; with_kind n E; rewrite Ef; by_cases. Qed.
Lemma toString_exact fn e n : kind_is n "toString" = true →
  node_rules fn e n (seed_if (type_kind_in (prop n "operand") ["dyn"]) (seed_if (caughtToStrThrows c && type_kind_in (prop n "operand") ["caught"]) (mkCollected e [] false [] false))).
Proof.
  intros E. with_kind n E. cbn [caughtToStrThrows mctx_of]. rewrite !orb_true_iff, andb_true_iff, orb_true_iff. by_cases.
Qed.

(** The walk's switch. *)
Lemma effect_rules fn present n d : effect c present (tdz_ids fn) n = Ok d → node_rules fn (early fn present n) n d.
Proof.
  unfold effect, visit_node. cbv zeta. rewrite (start_early fn). generalize (early fn present n). intros e.
  branch n ltac:(plain n). branch n ltac:(plain n).
  branch n ltac:(fun E => intros [= <-]; by apply check_exact).
  do 6 (branch n ltac:(plain n)). branch n ltac:(fun E => intros [= <-]; by apply toString_exact).
  do 6 (branch n ltac:(plain n)). branch n ltac:(fun E => intros [= <-]; by apply call_exact).
  branch n ltac:(plain n). branch n ltac:(fun E => by apply newValue_exact). branch n ltac:(fun E => intros [= <-]; by apply virtualCall_exact).
  do 2 (branch n ltac:(plain n)). intros [= <-].
  repeat match goal with H : kind_in n _ = false |- _ => unfold kind_in in H; cbn [existsb] in H | H : (_ || _)%bool = false |- _ => apply orb_false_iff in H as [? ?] end.
  unfold node_rules, calls_here, adapts_here, kind_in, ALWAYS. cbn [existsb]. repeat match goal with H : kind_is n _ = false |- _ => rewrite !H; clear H end.
  cbn [orb throws callees callsValue closureTargets sawDynFuncAdapter]. by_cases.
Qed.

Lemma effect_exact fn present n d : (undefSlots c = true → ∀ id, id ∈ present ↔ present_local fn id) → effect c present (tdz_ids fn) n = Ok d →
  (throws d = true ↔ raises_here m fn n) ∧ (∀ g, g ∈ callees d ↔ calls_here m n g) ∧ (callsValue d = true ↔ kind_is n "callValue" = true) ∧
  (∀ t, t ∈ closureTargets d ↔ kind_is n "closure" = true ∧ t = str (prop n "fnName")) ∧ (sawDynFuncAdapter d = true ↔ adapts_here n).
Proof.
  intros HP (Ht & Hrest)%effect_rules. split; [|exact Hrest]. rewrite Ht, (early_iff fn present n HP). unfold raises_here. tauto.
Qed.
End nodes.
