(* ===== verification/MayThrowSound.v ===== *)
(** * What the may-throw analysis computes

    The facts collected function by function (MayThrow.v) are the rules of
    MayThrowRules.v at the nodes of the bodies, and the closing loop computes the
    least set they generate. *)

From S2P Require Import Prelude F64 Bytes IrJson ModuleUses MayThrow MayThrowRules.

#[local] Open Scope string_scope.

Section functions.
Context (m : js).
Notation c := (mctx_of m).

(** ** What the functions contribute *)

Lemma body_exact r fn : bases_ranked m r → ∃ f, collect_fn c fn = Ok f ∧
  (throws f = true ↔ ∃ n, n ∈ body fn ∧ raises_here m fn n) ∧ (∀ g, g ∈ callees f ↔ ∃ n, n ∈ body fn ∧ calls_here m n g) ∧
  (callsValue f = true ↔ ∃ n, n ∈ body fn ∧ kind_is n "callValue" = true) ∧
  (∀ t, t ∈ closureTargets f ↔ ∃ n, n ∈ body fn ∧ kind_is n "closure" = true ∧ t = str (prop n "fnName")) ∧
  (sawDynFuncAdapter f = true ↔ ∃ n, n ∈ body fn ∧ adapts_here n).
Proof.
  intros Hr. destruct (collect_fn_ok m r fn Hr) as [f Hf]. exists f. split; [done|]. destruct (collect_fn_exact c fn f Hf) as (present & Hp & H1 & H2 & H3 & H4 & H5).
  assert (HP : undefSlots c = true → ∀ id, id ∈ present ↔ present_local fn id).
  { intros Hu. rewrite Hu in Hp. by apply presentLocals_spec. }
  assert (He : ∀ (P : collected → Prop) (Q : props → Prop), (∀ n d, effect c present (tdz_ids fn) n = Ok d → P d ↔ Q n) →
    (∃ n d, n ∈ ir_nodes (field fn "body") ∧ effect c present (tdz_ids fn) n = Ok d ∧ P d) ↔ ∃ n, n ∈ body fn ∧ Q n).
  { intros P Q HPQ. split; [intros (n & d & Hn & E & H); exists n; split; [done|]; by apply (HPQ n d E)|]. intros (n & Hn & H).
    destruct (effect_ok m r present (tdz_ids fn) n Hr) as [d E]. exists n, d. split; [done|]. split; [done|]. by apply (HPQ n d E). }
  split_and!; [rewrite H1|intros g; rewrite H2|rewrite H3|intros t; rewrite H4|rewrite H5]; apply He; intros n d E; destruct (effect_exact m fn present n d HP E) as (Q1 & Q2 & Q3 & Q4 & Q5); auto.
Qed.

Lemma facts_set_keys n f fs : NoDup (map fst fs) → NoDup (map fst (facts_set n f fs)) ∧ ∀ n' f', (n', f') ∈ facts_set n f fs ↔ n' = n ∧ f' = f ∨ n' ≠ n ∧ (n', f') ∈ fs.
Proof.
  induction fs as [|[k g] fs IH]; intros Hnd; cbn [facts_set map fst] in *.
  - split; [by apply NoDup_singleton|]. intros n' f'. rewrite list_elem_of_singleton. split; [intros [= -> ->]; by left|]. intros [[-> ->]|[_ H]]; [done|by apply not_elem_of_nil in H].
  - apply NoDup_cons in Hnd as [Hk Hnd]. case_bool_decide as E.
    + subst k. split; [cbn [map fst]; by apply NoDup_cons|]. intros n' f'. rewrite !elem_of_cons. split.
      * intros [[= -> ->]|H]; [by left|]. right. split; [|by right]. intros ->. apply Hk. apply list_elem_of_fmap. by exists (n, f').
      * intros [[-> ->]|[Hn [[= -> ->]|H]]]; [by left|done|by right].
    + destruct (IH Hnd) as [Hnd' Hin]. split.
      * cbn [map fst]. apply NoDup_cons. split; [|done]. intros (x & -> & Hx)%list_elem_of_fmap. destruct x as [n' f']. apply Hin in Hx as [[-> ->]|[_ Hx]]; [done|]. apply Hk. apply list_elem_of_fmap. by exists (n', f').
      * intros n' f'. rewrite !elem_of_cons, Hin. split; [intros [[= -> ->]|[H|[H1 H2]]]; [right; split; [congruence|by left]|by left|right; split; [done|by right]]|].
        intros [H|[Hn [H|H]]]; [right; by left|by left|right; by right].
Qed.
(** The facts are those of the last function of each name; the targets and the
    flag those of all functions. *)
Lemma collect_spec fns : ∀ fs ts saw fs' ts' saw', NoDup (map fst fs) → collect c fns fs ts saw = Ok (fs', ts', saw') →
  NoDup (map fst fs') ∧
  (∀ n f, (n, f) ∈ fs' ↔ match last (List.filter (λ fn, bool_decide (str (field fn "name") = n)) fns) with Some fn => collect_fn c fn = Ok f | None => (n, f) ∈ fs end) ∧
  (∀ t, t ∈ ts' ↔ t ∈ ts ∨ ∃ fn f, fn ∈ fns ∧ collect_fn c fn = Ok f ∧ t ∈ closureTargets f) ∧
  (saw' = true ↔ saw = true ∨ ∃ fn f, fn ∈ fns ∧ collect_fn c fn = Ok f ∧ sawDynFuncAdapter f = true).
Proof.
  induction fns as [|fn fns IH]; intros fs ts saw fs' ts' saw' Hnd H.
  { injection H as <- <- <-. split; [done|]. split; [done|]. split; [intros t|]; set_solver. }
  cbn [collect] in H. apply res_bind_Ok in H as (f & Hf & H). destruct (facts_set_keys (str (field fn "name")) f fs Hnd) as [Hnd1 Hin].
  destruct (IH _ _ _ _ _ _ Hnd1 H) as (Hnd' & H1 & H2 & H3). split; [done|]. split_and!.
  - intros n g. rewrite H1. cbn [List.filter]. case_bool_decide as E.
    + change (fn :: ?l) with ([fn] ++ l)%list. rewrite last_app. destruct (last _) as [fn'|]; [done|]. cbn [last]. rewrite Hin, E, Hf. split; [intros [[_ ->]|[? _]]; done|intros [= ->]; by left].
    + destruct (last _); [done|]. rewrite Hin. split; [intros [[-> _]|[_ ?]]; done|intros ?; right; done].
  - intros t. rewrite H2, elem_of_app. setoid_rewrite elem_of_cons. split; [intros [[?|?]|(fn' & f' & ? & ?)]; [by left|right; exists fn, f; by split; [left|]|right; exists fn', f'; split; [by right|done]]|].
    intros [?|(fn' & f' & [->|?] & Hf' & ?)]; [by left; left|left; right; congruence|right; by exists fn', f'].
  - rewrite H3, orb_true_iff. setoid_rewrite elem_of_cons. split; [intros [[?|?]|(fn' & f' & ? & ?)]; [by left|right; exists fn, f; by split; [left|]|right; exists fn', f'; split; [by right|done]]|].
    intros [?|(fn' & f' & [->|?] & Hf' & ?)]; [by left; left|left; right; congruence|right; by exists fn', f'].
Qed.

(** The closing rules over what was collected are the rules over the module. *)
Lemma raises_module r fs ts saw : bases_ranked m r → collect c (functions m) [] [] false = Ok (fs, ts, saw) →
  (∀ n, raises c fs ts saw n ↔ may_raise m n) ∧ (some_closure_raises c fs ts saw ↔ closure_may_raise m).
Proof.
  intros Hr H. destruct (collect_spec _ _ _ _ _ _ _ (NoDup_nil_2 : NoDup (map fst ([] : facts_map))) H) as (_ & H1 & H2 & H3).
  assert (F : ∀ n f, (n, f) ∈ fs ↔ ∃ fn, named m n fn ∧ collect_fn c fn = Ok f).
  { intros n f. rewrite H1. unfold named. destruct (last _) as [fn|]; [naive_solver|]. split; [by intros ?%not_elem_of_nil|naive_solver]. }
  assert (B := body_exact r). clear H1 H.
  assert (T : ∀ t, t ∈ ts ↔ ∃ fn n, fn ∈ functions m ∧ n ∈ body fn ∧ kind_is n "closure" = true ∧ t = str (prop n "fnName")).
  { intros t. rewrite H2. split.
    - intros [?%not_elem_of_nil|(fn & f & Hfn & Hf & Ht)]; [done|]. destruct (B fn Hr) as (f' & Hf' & _ & _ & _ & Q & _). rewrite Hf in Hf'. injection Hf' as <-. apply Q in Ht as (n & Hn & Hk). by exists fn, n.
    - intros (fn & n & Hfn & Hn & Hk). destruct (B fn Hr) as (f & Hf & _ & _ & _ & Q & _). right. exists fn, f. split; [done|]. split; [done|]. apply Q. by exists n. }
  assert (W : saw = true ↔ ∃ fn n, fn ∈ functions m ∧ n ∈ body fn ∧ adapts_here n).
  { rewrite H3. split.
    - intros [?|(fn & f & Hfn & Hf & Ht)]; [done|]. destruct (B fn Hr) as (f' & Hf' & _ & _ & _ & _ & Q). rewrite Hf in Hf'. injection Hf' as <-. apply Q in Ht as (n & Hn & Hk). by exists fn, n.
    - intros (fn & n & Hfn & Hn & Hk). destruct (B fn Hr) as (f & Hf & _ & _ & _ & _ & Q). right. exists fn, f. split; [done|]. split; [done|]. apply Q. by exists n. }
  assert (P : (∀ n, raises c fs ts saw n → may_raise m n) ∧ (some_closure_raises c fs ts saw → closure_may_raise m)).
  { assert (P1 : ∀ n, raises c fs ts saw n → may_raise m n).
    { refine (raises_mut c fs ts saw (λ n _, may_raise m n) (λ _, closure_may_raise m) _ _ _ _ _).
      - intros n f (fn & Hfn & Hf)%F Ht. destruct (B fn Hr) as (f' & Hf' & Q & _). rewrite Hf in Hf'. injection Hf' as <-. apply Q in Ht as (k & Hk & Hh). by eapply raise_here.
      - intros n f g (fn & Hfn & Hf)%F Hg _ IH. destruct (B fn Hr) as (f' & Hf' & _ & Q & _). rewrite Hf in Hf'. injection Hf' as <-. apply Q in Hg as (k & Hk & Hh). by eapply raise_call.
      - intros n f (fn & Hfn & Hf)%F Hv _ IH. destruct (B fn Hr) as (f' & Hf' & _ & _ & Q & _). rewrite Hf in Hf'. injection Hf' as <-. apply Q in Hv as (k & Hk & Hh). by eapply raise_value.
      - intros (fn & n & Hfn & Hn & Hk)%W. by eapply raise_adapter.
      - intros t (fn & n & Hfn & Hn & Hk & Et)%T Ha Hg _ IH. eapply raise_target; [exact Hfn|exact Hn|exact Hk|exact Et|by rewrite <- async_iff|by rewrite <- generator_iff|exact IH]. }
    split; [exact P1|]. intros [E|t Ht Ha Hg Hraise].
    - apply W in E as (fn & n & Hfn & Hn & Hk). by eapply raise_adapter.
    - apply T in Ht as (fn & n & Hfn & Hn & Hk & Et). eapply raise_target; [exact Hfn|exact Hn|exact Hk|exact Et|by rewrite <- async_iff|by rewrite <- generator_iff|by apply P1]. }
  assert (P' : (∀ n, may_raise m n → raises c fs ts saw n) ∧ (closure_may_raise m → some_closure_raises c fs ts saw)).
  { assert (P1 : ∀ n, may_raise m n → raises c fs ts saw n).
    { refine (may_raise_mut m (λ n _, raises c fs ts saw n) (λ _, some_closure_raises c fs ts saw) _ _ _ _ _).
      - intros n fn k Hfn Hk Hh. destruct (B fn Hr) as (f & Hf & Q & _). eapply raises_seed; [apply F; by exists fn|]. apply Q. by exists k.
      - intros n fn k g Hfn Hk Hh _ IH. destruct (B fn Hr) as (f & Hf & _ & Q & _). eapply raises_call; [apply F; by exists fn| |exact IH]. apply Q. by exists k.
      - intros n fn k Hfn Hk Hh _ IH. destruct (B fn Hr) as (f & Hf & _ & _ & Q & _). eapply raises_value; [apply F; by exists fn| |exact IH]. apply Q. by exists k.
      - intros fn n Hfn Hn Hk. apply closure_adapter, W. by exists fn, n.
      - intros fn n t Hfn Hn Hk Et Ha Hg _ IH. apply (closure_target _ _ _ _ t); [apply T; by exists fn, n|by rewrite async_iff|by rewrite generator_iff|exact IH]. }
    split; [exact P1|]. intros [fn n Hfn Hn Hk|fn n t Hfn Hn Hk Et Ha Hg Hraise].
    - apply closure_adapter, W. by exists fn, n.
    - apply (closure_target _ _ _ _ t); [apply T; by exists fn, n|by rewrite async_iff|by rewrite generator_iff|by apply P1]. }
  destruct P, P'. split; [intros n|]; split; auto.
Qed.
End functions.

(** C12. On a module whose class hierarchy has no cycle the analysis ends, and
    its answer is the least one: a function is reported exactly when it raises by
    the rules -- a node of its body raises by the rule of its kind, or calls such a
    function, or the body calls a closure value while a checked adapter exists or
    a synchronous closure target raises -- and the indirect flag says exactly
    whether such a closure exists.  The rules speak of the module alone. *)
Theorem computeMayThrow_exact (m : js) (r : js → nat) : bases_ranked m r →
  ∃ may indirect, computeMayThrow m = Ok (may, indirect) ∧ (∀ n, n ∈ may ↔ may_raise m n) ∧ (indirect = true ↔ closure_may_raise m).
Proof.
  intros Hr. destruct (collect_ok m r (functions m) Hr [] [] false) as [[[fs ts] saw] E]. destruct (computeMayThrow_least m fs ts saw E) as (may & ind & H & Hm & Hi).
  destruct (raises_module m r fs ts saw Hr E) as [R1 R2]. exists may, ind. split; [done|]. split; [intros n; by rewrite Hm|by rewrite Hi].
Qed.

Lemma sample_ranked : bases_ranked sample_ir (λ k, if str_is (field k "name") (js_of_string "B") then 1%nat else 0%nat).
Proof.
  intros k Hk. vm_compute in Hk. apply elem_of_cons in Hk as [->|[->|[]%elem_of_nil]%elem_of_cons]; (split; [vm_compute; lia|]); intros b Hb; vm_compute in Hb; [discriminate Hb|].
  injection Hb as <-. vm_compute. lia.
Qed.
Lemma sample_sync x : ¬ async sample_ir x ∧ ¬ generator sample_ir x.
Proof.
  assert (Q : forallb (λ fn, negb (truthy (field fn "async")) && negb (truthy (field fn "generator"))) (functions sample_ir) = true) by (vm_compute; reflexivity).
  rewrite forallb_forall in Q. split; intros (fn & Hf%list_elem_of_In & Ht & _); specialize (Q fn Hf); rewrite Ht in Q; [done|by rewrite andb_false_r in Q].
Qed.
Example computeMayThrow_exact_witness :
  ∃ may indirect, computeMayThrow sample_ir = Ok (may, indirect) ∧ js_of_string "caller" ∈ may ∧ js_of_string "quiet" ∉ may ∧ indirect = true.
Proof.
  destruct (computeMayThrow_exact sample_ir _ sample_ranked) as (may & ind & H & Hm & Hi). exists may, ind. split; [exact H|].
  assert (Hthrow : may_raise sample_ir (js_of_string "thrower")).
  { eapply raise_here; [vm_compute; reflexivity|left|]. right; right; left. vm_compute. reflexivity. }
  assert (Hclosure : closure_may_raise sample_ir).
  { eapply raise_target; [right; left|left|vm_compute; reflexivity|reflexivity|apply sample_sync|apply sample_sync|exact Hthrow]. }
  split; [|split; [|by apply Hi]].
  - apply Hm. eapply (raise_call _ _ _ _ (js_of_string "main")); [vm_compute; reflexivity|left| |].
    + left. split; [vm_compute; reflexivity|]. split; [vm_compute; reflexivity|]. apply sample_sync.
    + eapply raise_value; [vm_compute; reflexivity|left|vm_compute; reflexivity|exact Hclosure].
  - assert (Q : match computeMayThrow sample_ir with Ok (q, _) => bool_decide (js_of_string "quiet" ∈ q) | _ => true end = false)
      by (vm_compute; reflexivity).
    rewrite H in Q. by apply bool_decide_eq_false in Q.
Defined.
