(* ===== verification/Registry.v ===== *)
(** * The interners of record shapes and unions

    [ShapeRegistry] and [UnionRegistry] of
    src/packages/compiler/src/frontend/types.ts.  The two classes are one
    construction (the code says each mirrors the other), so the operations are
    written once over a [Content] class that says what is interned: how a
    content is keyed, how an entry is made, filled in and merged into.  A
    checker type is known by its identity only: a parameter [T].  An entry is
    an object that [byId] and the list of entries share: [byId] holds its
    position.  The field lists that callers hand over are not used again by
    them, so they are values. *)

From Stdlib Require Import Ascii.
From S2P Require Import Prelude TypeKey VisitWalk TypeDomains.

#[local] Open Scope string_scope.

(** [JSON.stringify] of an array, from the texts of its items *)

Definition json_array (items : list string) : string := "[" +:+ join_sep "," items +:+ "]".

(** ** The interner *)

(** What an interner of contents [C] with entries [P] does with them. *)
Class Content (P C : Type) := {
  letter : string;
  key : C → string;
  make : C → P;
  blank : P;
  rec_key : C → string;
  fill : C → P → P;
  merge : C → P → P }.

Record Registry (T P : Type) `{Countable T} := mkRegistry {
  byKey : gmap string string;
  byId : gmap string nat;
  entries : list (string * P);
  recIds : gmap T string;
  pendingRec : gset string }.
Arguments mkRegistry {T P _ _}.
Arguments byKey {T P _ _}.
Arguments byId {T P _ _}.
Arguments entries {T P _ _}.
Arguments recIds {T P _ _}.
Arguments pendingRec {T P _ _}.

Section interner.
Context {T P C : Type} `{Countable T} `{Content P C}.
Notation Registry := (Registry T P).

Definition empty_registry : Registry := mkRegistry ∅ ∅ [] ∅ ∅.

(** [`r${this.shapes.length}`] *)
Definition new_id (R : Registry) : string := letter +:+ pretty (length (entries R)).

Definition get (id : string) (R : Registry) : option P := i ← byId R !! id; snd <$> entries R !! i.
(** A write through the object [byId] holds. *)
Definition update (id : string) (f : P → P) (R : Registry) : Registry :=
  match byId R !! id with
  | Some i => mkRegistry (byKey R) (byId R) (alter (λ e, (e.1, f e.2)) i (entries R)) (recIds R) (pendingRec R)
  | None => R
  end.

Definition recursiveRef (t : T) (R : Registry) : string * Registry :=
  match recIds R !! t with
  | Some id => (id, R)
  | None =>
      let id := new_id R in
      (id, mkRegistry (byKey R) (<[id := length (entries R)]> (byId R)) (entries R ++ [(id, blank)])%list (<[t := id]> (recIds R)) ({[id]} ∪ pendingRec R))
  end.

Definition recursiveFor (t : T) (R : Registry) : option string :=
  match recIds R !! t with Some id => if bool_decide (id ∉ pendingRec R) then Some id else None | None => None end.
Definition recursivePending (t : T) (R : Registry) : bool :=
  match recIds R !! t with Some id => bool_decide (id ∈ pendingRec R) | None => false end.

Definition finalizeRecursive (t : T) (c : C) (R : Registry) : res (string * Registry) :=
  match recIds R !! t with
  | None => Throw "registry bug: finalizeRecursive without a placeholder"
  | Some id =>
      if bool_decide (id ∈ pendingRec R) then
        match byId R !! id with
        | None => Throw "TypeError"
        | Some _ =>
            let R := update id (fill c) R in
            let k := rec_key c in
            Ok (id, mkRegistry (match byKey R !! k with Some _ => byKey R | None => <[k := id]> (byKey R) end)
                      (byId R) (entries R) (recIds R) (pendingRec R ∖ {[id]}))
        end
      else Ok (id, R)
  end.

Definition intern (c : C) (R : Registry) : string * Registry :=
  let k := key c in
  match byKey R !! k with
  | Some id => (id, update id (merge c) R)
  | None =>
      let id := new_id R in
      (id, mkRegistry (<[k := id]> (byKey R)) (<[id := length (entries R)]> (byId R)) (entries R ++ [(id, make c)])%list (recIds R) (pendingRec R))
  end.

(** A client's calls. *)
Inductive call := CRef (t : T) | CFinalize (t : T) (c : C) | CIntern (c : C).
Definition run_call (o : call) (R : Registry) : res (string * Registry) :=
  match o with
  | CRef t => Ok (recursiveRef t R)
  | CFinalize t c => finalizeRecursive t c R
  | CIntern c => Ok (intern c R)
  end.
Fixpoint run_calls (os : list call) (R : Registry) : res (list string * Registry) :=
  match os with
  | [] => Ok ([], R)
  | o :: os => let* ' (id, R) := run_call o R in let* ' (ids, R) := run_calls os R in Ok (id :: ids, R)
  end.
End interner.
Arguments call : clear implicits.

(** ** The two registries *)

(** An entry of [ShapeRegistry]: the shape and its declaration order. *)
Record ShapeEntry := mkShapeEntry { shape : IrRecordShape; declaredOrder : option (list string) }.
Record ShapeContent := mkShapeContent { c_fields : list IrField; c_tuple : bool; c_indexValue : option IrType; c_declaredOrder : option (list string) }.

Definition shape_field_key (f : IrField) : string :=
  json_array ([json_string (f_name f); json_string (typeKey (f_type f))] ++ (if f_internal f then [json_string "internal"] else []))%list.
Definition keyOf (fs : list IrField) (tup : bool) (iv : option IrType) : string :=
  (if tup then "tuple!" else "") +:+ (match iv with Some t => "idx<" +:+ typeKey t +:+ ">!" | None => "" end) +:+ json_array (map shape_field_key fs).

(** [mine.optional = true] for the first field of that name. *)
Fixpoint set_optional (name : string) (fs : list IrField) : list IrField :=
  match fs with
  | [] => []
  | f :: fs => if String.eqb (f_name f) name then mkField (f_name f) (f_type f) true (f_internal f) :: fs else f :: set_optional name fs
  end.
Definition mergeOptional (contribution fs : list IrField) : list IrField :=
  fold_left (λ fs f, if f_optional f then set_optional (f_name f) fs else fs) contribution fs.

#[export] Instance shape_content : Content ShapeEntry ShapeContent := {
  letter := "r";
  key c := keyOf (c_fields c) (c_tuple c) (c_indexValue c);
  make c := mkShapeEntry (mkShape (c_fields c) (c_tuple c) (c_indexValue c)) (c_declaredOrder c);
  blank := mkShapeEntry (mkShape [] false None) None;
  rec_key c := keyOf (c_fields c) false (c_indexValue c);
  fill c p := mkShapeEntry
    (mkShape (c_fields c) (tuple (shape p)) (match c_indexValue c with Some t => Some t | None => indexValue (shape p) end))
    (match c_declaredOrder c with Some o => Some o | None => declaredOrder p end);
  merge c p := mkShapeEntry (mkShape (mergeOptional (c_fields c) (fields (shape p))) (tuple (shape p)) (indexValue (shape p))) (declaredOrder p) }.

Definition arms_key (arms : list IrType) : string := json_array (map (λ a, json_string (typeKey a)) arms).
#[export] Instance union_content : Content (list IrType) (list IrType) := {
  letter := "u";
  key := arms_key;
  make arms := arms;
  blank := [];
  rec_key := arms_key;
  fill arms p := (p ++ arms)%list;
  merge _ p := p }.

Definition ShapeRegistry (T : Type) `{Countable T} : Type := Registry T ShapeEntry.
Definition UnionRegistry (T : Type) `{Countable T} : Type := Registry T (list IrType).

Example intern_twice :
  (let R := empty_registry (T := nat) (P := ShapeEntry) in
   let f o := mkField "a" (Prim Kf64) o false in
   let '(a, R) := intern (mkShapeContent [f false] false None None) R in
   let '(b, R) := intern (mkShapeContent [f false] true None None) R in
   let '(c, R) := intern (mkShapeContent [f true] false None None) R in
   (a, b, c, option_map (λ p, map f_optional (fields (shape p))) (get a R))) = ("r0", "r1", "r0", Some [true]).
Proof. vm_compute. reflexivity. Qed.

(** ** Keys determine contents *)

(** One character of JSON text read back. *)
Definition hex_value (c : ascii) : nat := let n := nat_of_ascii c in if (n <? 58)%nat then n - 48 else n - 87.
Definition unjson_char (s : string) : option (ascii * string) :=
  match s with
  | EmptyString => None
  | String c s =>
      let n := nat_of_ascii c in
      if (n =? 34)%nat then None
      else if (n =? 92)%nat then
        match s with
        | String "b" s => Some ("008"%char, s)
        | String "t" s => Some ("009"%char, s)
        | String "n" s => Some ("010"%char, s)
        | String "f" s => Some ("012"%char, s)
        | String "r" s => Some ("013"%char, s)
        | String "u" (String _ (String _ (String h (String l s)))) => Some (ascii_of_nat (hex_value h * 16 + hex_value l), s)
        | String d s => Some (d, s)
        | EmptyString => None
        end
      else Some (c, s)
  end.

Lemma unjson_json c s : unjson_char (json_char c +:+ s) = Some (c, s).
Proof. destruct c as [[] [] [] [] [] [] [] []]; vm_compute; reflexivity. Qed.

Lemma json_chars_inj s : ∀ t r1 r2, json_chars s +:+ String DQ r1 = json_chars t +:+ String DQ r2 → s = t ∧ r1 = r2.
Proof.
  induction s as [|c s IH]; intros [|d t] r1 r2 E; simpl in E; rewrite ?app_assoc3 in E.
  - by injection E as ->.
  - apply (f_equal unjson_char) in E. by rewrite unjson_json in E.
  - apply (f_equal unjson_char) in E. by rewrite unjson_json in E.
  - apply (f_equal unjson_char) in E. rewrite !unjson_json in E. injection E as -> E. by apply IH in E as [-> ->].
Qed.

Lemma String_inj c s t : String c s = String c t → s = t.
Proof. by injection 1. Qed.

Lemma json_string_inj s t r1 r2 : json_string s +:+ r1 = json_string t +:+ r2 → s = t ∧ r1 = r2.
Proof.
  unfold json_string, quoted. intros E%String_inj. rewrite !app_assoc3 in E. by apply json_chars_inj in E.
Qed.

(** The rest of an array after an item. *)
Fixpoint array_tail (items : list string) (r : string) : string :=
  match items with [] => String "]" r | x :: items => String "," (x +:+ array_tail items r) end.

Lemma json_array_unfold items r : json_array items +:+ r = String "[" match items with [] => String "]" r | x :: xs => x +:+ array_tail xs r end.
Proof.
  assert (J : ∀ x xs, join_sep "," (x :: xs) +:+ String "]" r = x +:+ array_tail xs r).
  { intros x xs. revert x. induction xs as [|y xs IH]; intros x; [done|].
    change (join_sep "," (x :: y :: xs)) with (x +:+ "," +:+ join_sep "," (y :: xs)). by rewrite !app_assoc3, IH. }
  unfold json_array. rewrite app_cons, app_empty, app_cons, app_assoc3. f_equal. destruct items as [|x xs]; [done|]. apply J.
Qed.

Section arrays.
Context {A : Type} (f : A → string) (Q : A → A → Prop).
(** Items are told apart whatever follows, and none starts like the end. *)
Definition told_apart (xs ys : list A) : Prop := ∀ x y r1 r2, x ∈ xs → y ∈ ys → f x +:+ r1 = f y +:+ r2 → Q x y ∧ r1 = r2.
Hypothesis starts : ∀ x, ∃ c s, f x = String c s ∧ c ≠ "]"%char.

Lemma array_tail_inj xs : ∀ ys r1 r2, told_apart xs ys → array_tail (map f xs) r1 = array_tail (map f ys) r2 → Forall2 Q xs ys ∧ r1 = r2.
Proof.
  induction xs as [|x xs IH]; intros [|y ys] r1 r2 Hx E; simpl in E; try discriminate E.
  - by injection E as ->.
  - injection E as E. apply Hx in E as [Hq E]; [|left..]. apply IH in E as [Hf ->]; [by split; [constructor|]|].
    intros ?????? . by apply Hx; right.
Qed.

Lemma json_array_inj xs ys r1 r2 : told_apart xs ys → json_array (map f xs) +:+ r1 = json_array (map f ys) +:+ r2 → Forall2 Q xs ys ∧ r1 = r2.
Proof.
  intros Hx. rewrite !json_array_unfold. intros E. injection E as E. destruct xs as [|x xs], ys as [|y ys]; simpl in E.
  - by injection E as ->.
  - destruct (starts y) as (c & s & Ey & Hc). rewrite Ey in E. rewrite app_cons in E. by injection E as <- _.
  - destruct (starts x) as (c & s & Ex & Hc). rewrite Ex in E. rewrite app_cons in E. by injection E as -> _.
  - apply Hx in E as [Hq E]; [|left..]. apply array_tail_inj in E as [Hf ->]; [by split; [constructor|]|].
    intros ??????. by apply Hx; right.
Qed.
End arrays.

(** What a key is about: names, types and internal marks. *)
Definition canon_field (f : IrField) : string * IrType * bool := (f_name f, f_type f, f_internal f).
Definition fields_named (fs : list IrField) : bool := forallb (λ f, well_named (f_type f)) fs.
Definition index_named (iv : option IrType) : bool := match iv with Some t => well_named t | None => true end.

Lemma typeKey_inj t u : well_named t = true → well_named u = true → typeKey t = typeKey u → t = u.
Proof. intros Ht Hu E. destruct (key_unique t u EmptyString EmptyString Ht Hu eq_refl eq_refl) as [-> _]; [by rewrite !app_nil|done]. Qed.

Lemma shape_field_key_inj f g r1 r2 : well_named (f_type f) = true → well_named (f_type g) = true →
  shape_field_key f +:+ r1 = shape_field_key g +:+ r2 → canon_field f = canon_field g ∧ r1 = r2.
Proof.
  intros Hf Hg. unfold shape_field_key, canon_field. rewrite !json_array_unfold. intros E%String_inj. cbn [app] in E.
  apply json_string_inj in E as [En E]. cbn [array_tail] in E. apply String_inj, json_string_inj in E as [Et E].
  apply typeKey_inj in Et; [|done..]. rewrite En, Et.
  destruct (f_internal f), (f_internal g); cbn [array_tail] in E; try discriminate E; apply String_inj in E; [|by split].
  apply json_string_inj in E as [_ E]. by injection E as ->.
Qed.

Lemma fields_key_inj fs gs : fields_named fs = true → fields_named gs = true →
  json_array (map shape_field_key fs) = json_array (map shape_field_key gs) → map canon_field fs = map canon_field gs.
Proof.
  intros Hf Hg E. destruct (json_array_inj shape_field_key (λ f g, canon_field f = canon_field g) (λ f, ltac:(by eexists _, _)) fs gs EmptyString EmptyString) as [F _].
  - intros f g r1 r2 Hf' Hg' E'. unfold fields_named in Hf, Hg. rewrite forallb_forall in Hf, Hg. apply shape_field_key_inj; [..|done].
    + by apply Hf, list_elem_of_In.
    + by apply Hg, list_elem_of_In.
  - by rewrite !app_nil.
  - clear -F. induction F; simpl; congruence.
Qed.

Lemma keyOf_inj fs gs tup tup' iv iv' : fields_named fs = true → fields_named gs = true → index_named iv = true → index_named iv' = true →
  keyOf fs tup iv = keyOf gs tup' iv' → map canon_field fs = map canon_field gs ∧ tup = tup' ∧ iv = iv'.
Proof.
  intros Hf Hg Hi Hi' E.
  assert (Ht : tup = tup' ∧ (match iv with Some t => "idx<" +:+ typeKey t +:+ ">!" | None => "" end) +:+ json_array (map shape_field_key fs) =
    (match iv' with Some t => "idx<" +:+ typeKey t +:+ ">!" | None => "" end) +:+ json_array (map shape_field_key gs)).
  { unfold keyOf in E. destruct tup, tup', iv, iv'; try discriminate E; rewrite ?app_empty in *; (split; [done|]); first [exact E|do 6 apply String_inj in E; exact E]. }
  clear E. destruct Ht as [-> E]. destruct iv as [t|], iv' as [u|]; rewrite ?app_empty in E; try discriminate E.
  - rewrite !app_assoc3 in E. do 4 apply String_inj in E. apply key_unique in E as [-> E]; [|done..]. do 2 apply String_inj in E.
    by rewrite (fields_key_inj fs gs).
  - by rewrite (fields_key_inj fs gs).
Qed.

Lemma keyOf_canon fs gs tup iv : map canon_field fs = map canon_field gs → keyOf fs tup iv = keyOf gs tup iv.
Proof.
  intros E. unfold keyOf. do 3 f_equal. revert gs E. induction fs as [|f fs IH]; intros [|g gs] E; try discriminate E; [done|].
  simpl in E. injection E as En Et Ei E. cbn [map]. rewrite (IH gs E). unfold shape_field_key. by rewrite En, Et, Ei.
Qed.

Lemma arms_key_inj xs ys : forallb well_named xs = true → forallb well_named ys = true → arms_key xs = arms_key ys → xs = ys.
Proof.
  intros Hx Hy E. rewrite forallb_forall in Hx, Hy.
  destruct (json_array_inj (λ a, json_string (typeKey a)) eq (λ f, ltac:(by eexists _, _)) xs ys EmptyString EmptyString) as [F _].
  - intros x y r1 r2 Hx' Hy' E'. apply json_string_inj in E' as [E' ->]. split; [|done]. apply typeKey_inj in E'; [done|..].
    + by apply Hx, list_elem_of_In.
    + by apply Hy, list_elem_of_In.
  - by rewrite !app_nil.
  - clear -F. by induction F; simplify_eq.
Qed.

(** ** The interner's invariant *)

(** What the laws of a content promise: [ekey] is the key an entry stands for. *)
Class ContentLaws (P C : Type) `{Content P C} := {
  ekey : P → string;
  ekey_make c : ekey (make c) = key c;
  ekey_fill c : ekey (fill c blank) = rec_key c;
  ekey_merge c p : ekey (merge c p) = ekey p }.

Section invariant.
Context {T P C : Type} `{Countable T} `{Content P C} `{!ContentLaws P C}.
Notation Registry := (Registry T P).
Implicit Types (R : Registry) (t : T) (c : C) (p : P).

(** Ids number the entries. *)
Definition numbered (R : Registry) : Prop :=
  (∀ i e, entries R !! i = Some e → e.1 = letter +:+ pretty i) ∧
  (∀ id i, byId R !! id = Some i ↔ (i < length (entries R))%nat ∧ id = letter +:+ pretty i).

Record wf (R : Registry) : Prop := {
  wf_numbered : numbered R;
  (** a key leads to an entry that has it and is complete *)
  wf_byKey k id : byKey R !! k = Some id → id ∉ pendingRec R ∧ ∃ p, get id R = Some p ∧ ekey p = k;
  (** a complete entry's key is taken *)
  wf_keyed id p : get id R = Some p → id ∉ pendingRec R → is_Some (byKey R !! ekey p);
  (** a recursive id is an entry of its own type *)
  wf_rec t id : recIds R !! t = Some id → is_Some (get id R);
  wf_rec_inj t u id : recIds R !! t = Some id → recIds R !! u = Some id → t = u;
  (** what is pending is an empty placeholder of some type *)
  wf_pending id : id ∈ pendingRec R → get id R = Some blank ∧ ∃ t, recIds R !! t = Some id;
  (** two entries with one key: at most one is not recursive *)
  wf_unique id p : get id R = Some p → (∀ t, recIds R !! t ≠ Some id) → byKey R !! ekey p = Some id }.

Lemma wf_empty : wf empty_registry.
Proof.
  split; unfold get; simpl; try done; intros *; rewrite ?lookup_empty; try done.
  split; [done|]. simpl. intros *. rewrite lookup_empty. split; [done|]. simpl. lia.
Qed.

Lemma letter_inj (i j : nat) : letter +:+ pretty i = letter +:+ pretty j → i = j.
Proof. intros E%(inj (String.append letter)). by apply (inj pretty) in E. Qed.

Lemma new_id_fresh R : numbered R → get (new_id R) R = None ∧ byId R !! new_id R = None.
Proof.
  intros [_ W]. unfold get. destruct (byId R !! new_id R) as [i|] eqn:E; [|done]. apply W in E as [L E]. unfold new_id in E. apply letter_inj in E. lia.
Qed.

Lemma get_update R id j f : numbered R → get j (update id f R) = if decide (j = id) then f <$> get id R else get j R.
Proof.
  intros [W1 W2]. unfold update. destruct (byId R !! id) as [i|] eqn:E.
  - unfold get. simpl. case_decide as Hj; [subst j; rewrite E; simpl; rewrite list_lookup_alter, decide_True by done; by destruct (entries R !! i)|].
    destruct (byId R !! j) as [k|] eqn:K; [|done]. simpl. rewrite list_lookup_alter_ne; [done|]. intros ->. apply W2 in E as [_ ->], K as [_ ->]. done.
  - case_decide as Hj; [|done]. subst j. unfold get. by rewrite E.
Qed.

Lemma numbered_update R id f : numbered R → numbered (update id f R).
Proof.
  intros [W1 W2]. unfold update. destruct (byId R !! id) as [i|] eqn:E; [|by split]. split; simpl.
  - intros k e Hk. destruct (decide (i = k)) as [<-|Hn].
    + rewrite list_lookup_alter, decide_True in Hk by done. destruct (entries R !! i) as [e'|] eqn:Q; [|done]. injection Hk as <-. by apply W1 in Q.
    + rewrite list_lookup_alter_ne in Hk by done. by apply W1.
  - intros j k. rewrite length_alter. apply W2.
Qed.

(** Adding an entry under a new id. *)
Section push.
Context (R : Registry) (p : P) (bk : gmap string string) (rc : gmap T string) (pd : gset string).
Hypothesis W : numbered R.
Let R' := mkRegistry bk (<[new_id R := length (entries R)]> (byId R)) (entries R ++ [(new_id R, p)])%list rc pd.

Lemma get_push j : get j R' = if decide (j = new_id R) then Some p else get j R.
Proof.
  destruct W as [W1 W2]. unfold get, R'. simpl. case_decide as Hj.
  - subst j. rewrite lookup_insert_eq. simpl. by rewrite lookup_app_r, Nat.sub_diag by lia.
  - rewrite lookup_insert_ne by done. destruct (byId R !! j) as [i|] eqn:E; [|done]. apply W2 in E as [L _]. simpl. by rewrite lookup_app_l.
Qed.

Lemma numbered_push : numbered R'.
Proof.
  destruct W as [W1 W2]. split; unfold R'; simpl.
  - intros i e [E|[L E]]%lookup_app_Some; [by apply W1|]. apply list_lookup_singleton_Some in E as [E <-]. simpl. unfold new_id. do 2 f_equal. lia.
  - intros j i. rewrite length_app. simpl. destruct (decide (j = new_id R)) as [->|Hj].
    + rewrite lookup_insert_eq. unfold new_id. split; [intros [= <-]; split; [lia|done]|]. intros [_ E]. f_equal. by apply letter_inj.
    + rewrite lookup_insert_ne by done. rewrite W2. split; [intros [L ->]; split; [lia|done]|]. intros [L ->]. split; [|done].
      destruct (decide (i = length (entries R))) as [->|]; [done|lia].
Qed.
End push.

Lemma wf_recursiveRef t R : wf R → wf (recursiveRef t R).2.
Proof.
  intros W. pose proof (wf_numbered R W) as N. destruct (new_id_fresh R N) as [F _]. unfold recursiveRef. destruct (recIds R !! t) as [id|] eqn:E; [done|].
  split; simpl; [by apply numbered_push|..]; intros *; rewrite ?get_push by done.
  - intros K. apply (wf_byKey R W) in K as (Hp & p & G & <-). assert (id ≠ new_id R) by (intros ->; congruence).
    split; [set_solver|]. exists p. by rewrite decide_False.
  - intros G Hp. rewrite decide_False in G by set_solver. apply (wf_keyed R W id); [done|set_solver].
  - intros K. case_decide as D; [by eexists|]. apply lookup_insert_Some in K as [[_ K]|[_ K]]; [by symmetry in K|]. by apply (wf_rec R W t0).
  - intros [[<- K]|[Ht K]]%lookup_insert_Some [[<- K']|[Hu K']]%lookup_insert_Some; [done|..].
    + subst id. apply (wf_rec R W) in K' as [? ?]. congruence.
    + subst id. apply (wf_rec R W) in K as [? ?]. congruence.
    + by apply (wf_rec_inj R W _ _ id).
  - intros [->%elem_of_singleton|Hp]%elem_of_union.
    + rewrite decide_True by done. split; [done|]. exists t. apply lookup_insert_eq.
    + apply (wf_pending R W) in Hp as (G & u & K). rewrite decide_False by congruence. split; [done|]. exists u. rewrite lookup_insert_ne; [done|congruence].
  - case_decide as D; [intros _ Hn; exfalso; subst id; apply (Hn t), lookup_insert_eq|]. intros G Hn. apply (wf_unique R W); [done|].
    intros u K. apply (Hn u). rewrite lookup_insert_ne; [done|congruence].
Qed.

Lemma wf_finalize t c R id R' : wf R → finalizeRecursive t c R = Ok (id, R') → wf R'.
Proof.
  intros W. pose proof (wf_numbered R W) as N. unfold finalizeRecursive. destruct (recIds R !! t) as [id0|] eqn:E; [|done].
  case_bool_decide as Hp; [|by intros [= <- <-]]. destruct (byId R !! id0) as [i|] eqn:B; [|done]. intros [= <- <-].
  pose proof (wf_pending R W _ Hp) as (G & _).
  assert (EU : byKey (update id0 (fill c) R) = byKey R ∧ recIds (update id0 (fill c) R) = recIds R ∧ pendingRec (update id0 (fill c) R) = pendingRec R).
  { unfold update. by rewrite B. }
  destruct EU as (-> & -> & ->). set (bk := match byKey R !! rec_key c with Some _ => _ | None => _ end).
  assert (GU : ∀ j, get j (mkRegistry bk (byId (update id0 (fill c) R)) (entries (update id0 (fill c) R)) (recIds R) (pendingRec R ∖ {[id0]})) =
    if decide (j = id0) then Some (fill c blank) else get j R).
  { intros j. trans (get j (update id0 (fill c) R)); [done|]. rewrite get_update by done. case_decide; [by rewrite G|done]. }
  assert (BK : ∀ k j, byKey R !! k = Some j → bk !! k = Some j).
  { intros k j K. unfold bk. destruct (byKey R !! rec_key c) eqn:Q; [done|]. rewrite lookup_insert_ne; [done|congruence]. }
  assert (BK' : ∀ k j, bk !! k = Some j → byKey R !! k = Some j ∨ k = rec_key c ∧ j = id0).
  { intros k j. unfold bk. destruct (byKey R !! rec_key c); [by left|]. intros [[<- <-]|[_ K]]%lookup_insert_Some; [by right|by left]. }
  assert (BK'' : is_Some (bk !! rec_key c)).
  { unfold bk. destruct (byKey R !! rec_key c) eqn:Q; [by eexists|]. rewrite lookup_insert_eq. by eexists. }
  split; simpl; [by apply (numbered_update R id0 (fill c)) in N|..]; intros *; rewrite ?GU.
  - intros [K|[-> ->]]%BK'.
    + apply (wf_byKey R W) in K as (Hq & p & G' & <-). assert (id ≠ id0) by congruence. split; [set_solver|]. exists p. by rewrite decide_False.
    + split; [set_solver|]. exists (fill c blank). rewrite decide_True by done. split; [done|apply ekey_fill].
  - case_decide as D; [intros [= <-] _; by rewrite ekey_fill|]. intros G' Hq. destruct (wf_keyed R W id p G') as [j K]; [set_solver|]. exists j. by apply BK.
  - intros K. case_decide; [by eexists|]. by apply (wf_rec R W t0).
  - apply (wf_rec_inj R W).
  - intros [Hq Hn]%elem_of_difference. rewrite decide_False by set_solver. by apply (wf_pending R W).
  - case_decide as D; [intros _ Hn; subst id; by destruct (Hn t)|]. intros G' Hn. apply BK. by apply (wf_unique R W).
Qed.

Lemma wf_intern c R : wf R → wf (intern c R).2.
Proof.
  intros W. pose proof (wf_numbered R W) as N. destruct (new_id_fresh R N) as [F _]. unfold intern. destruct (byKey R !! key c) as [id|] eqn:E; simpl.
  - assert (EU : byKey (update id (merge c) R) = byKey R ∧ recIds (update id (merge c) R) = recIds R ∧ pendingRec (update id (merge c) R) = pendingRec R).
    { unfold update. by destruct (byId R !! id). }
    destruct EU as (E1 & E2 & E3). destruct (wf_byKey R W _ _ E) as (Hp & p & G & Ek).
    split; rewrite ?E1, ?E2, ?E3; [by apply numbered_update|..]; intros *; rewrite ?get_update by done.
    + intros K. destruct (wf_byKey R W _ _ K) as (Hq & q & G' & Eq). split; [done|]. case_decide as D; [|by exists q].
      subst id0. rewrite G'. exists (merge c q). split; [done|by rewrite ekey_merge].
    + case_decide as D; [|by apply (wf_keyed R W)]. subst id0. rewrite G. intros [= <-] _. rewrite ekey_merge, Ek. by eexists.
    + intros K. apply (wf_rec R W) in K as [q K]. case_decide; [|by eexists]. subst. rewrite G. by eexists.
    + apply (wf_rec_inj R W).
    + intros Hq. rewrite decide_False by congruence. by apply (wf_pending R W).
    + case_decide as D; [|by apply (wf_unique R W)]. subst id0. rewrite G. intros [= <-] _. by rewrite ekey_merge, Ek.
  - split; simpl; [by apply numbered_push|..]; intros *; rewrite ?get_push by done.
    + intros [[<- <-]|[Hk K]]%lookup_insert_Some.
      * split; [intros Hq; apply (wf_pending R W) in Hq as [Hq _]; congruence|]. exists (make c). rewrite decide_True by done. split; [done|apply ekey_make].
      * destruct (wf_byKey R W _ _ K) as (Hq & q & G' & Eq). split; [done|]. exists q. by rewrite decide_False by congruence.
    + case_decide as D; [intros [= <-] _; rewrite ekey_make, lookup_insert_eq; by eexists|]. intros G Hp. rewrite lookup_insert_is_Some'. right. by apply (wf_keyed R W id).
    + intros K. case_decide; [by eexists|]. by apply (wf_rec R W t).
    + apply (wf_rec_inj R W).
    + intros Hq. destruct (wf_pending R W _ Hq) as [G K]. by rewrite decide_False by congruence.
    + case_decide as D; [intros [= <-] _; rewrite ekey_make, lookup_insert_eq; by subst|]. intros G Hn. pose proof (wf_unique R W _ _ G Hn) as K.
      rewrite lookup_insert_ne; [done|]. congruence.
Qed.

Lemma wf_run_call o R id R' : wf R → run_call o R = Ok (id, R') → wf R'.
Proof.
  intros W E. destruct o as [t|t c|c]; simpl in E.
  - injection E as E. pose proof (wf_recursiveRef t R W) as Q. by rewrite E in Q.
  - by eapply wf_finalize.
  - injection E as E. pose proof (wf_intern c R W) as Q. by rewrite E in Q.
Qed.

Lemma wf_run_calls os : ∀ R ids R', wf R → run_calls os R = Ok (ids, R') → wf R'.
Proof.
  induction os as [|o os IH]; intros R ids R' W E; simpl in E; [by injection E as _ <-|].
  apply res_bind_Ok in E as ([id R1] & E1 & E). apply res_bind_Ok in E as ([ids' R2] & E2 & E). injection E as _ <-.
  eapply IH; [|exact E2]. by eapply wf_run_call.
Qed.

(** *** What one call changes *)

(** The life of one entry: absent, a placeholder, or complete. *)
Definition life : Type := option (bool * P).
Definition live (id : string) (R : Registry) : life := p ← get id R; Some (bool_decide (id ∈ pendingRec R), p).
Definition replay_call (o : call T C) (l : life) : life :=
  match o, l with
  | CRef _, None => Some (true, blank)
  | CFinalize _ c, Some (true, p) => Some (false, fill c p)
  | CIntern c, None => Some (false, make c)
  | CIntern c, Some (b, p) => Some (b, merge c p)
  | _, _ => l
  end.
(** The calls that returned an id, replayed on the entry alone. *)
Fixpoint replay (os : list (call T C)) (ids : list string) (id : string) (l : life) : life :=
  match os, ids with
  | o :: os, j :: ids => replay os ids id (if decide (j = id) then replay_call o l else l)
  | _, _ => l
  end.

Lemma live_call o R j R' id : wf R → run_call o R = Ok (j, R') → live id R' = if decide (j = id) then replay_call o (live id R) else live id R.
Proof.
  intros W E. pose proof (wf_numbered R W) as N. destruct (new_id_fresh R N) as [F _]. destruct o as [t|t c|c]; simpl in E.
  - injection E as E. unfold recursiveRef in E. destruct (recIds R !! t) as [i|] eqn:K.
    + injection E as <- <-. case_decide as D; [|done]. subst i. unfold live. by destruct (wf_rec R W _ _ K) as [p ->].
    + injection E as <- <-. unfold live. rewrite get_push by done. simpl. case_decide as D; case_decide; try congruence.
      * subst id. rewrite F. simpl. by rewrite bool_decide_eq_true_2 by set_solver.
      * destruct (get id R); [|done]. simpl. do 2 f_equal. apply bool_decide_ext. set_solver.
  - unfold finalizeRecursive in E. destruct (recIds R !! t) as [i|] eqn:K; [|done]. case_bool_decide as Hp.
    + destruct (byId R !! i) as [k|] eqn:B; [|done]. injection E as <- <-. pose proof (wf_pending R W _ Hp) as (G & _).
      unfold live at 1. trans (p ← get id (update i (fill c) R); Some (bool_decide (id ∈ pendingRec R ∖ {[i]}), p)).
      { unfold update. by rewrite B. }
      rewrite get_update by done. case_decide as D; case_decide; try congruence.
      * subst id. unfold live. rewrite G. simpl. by rewrite bool_decide_eq_false_2, bool_decide_eq_true_2 by set_solver.
      * unfold live. destruct (get id R); [|done]. simpl. do 2 f_equal. apply bool_decide_ext. set_solver.
    + injection E as <- <-. case_decide as D; [|done]. subst i. unfold live. destruct (wf_rec R W _ _ K) as [p ->]. simpl. by rewrite bool_decide_eq_false_2.
  - injection E as E. unfold intern in E. destruct (byKey R !! key c) as [i|] eqn:K.
    + injection E as <- <-. destruct (wf_byKey R W _ _ K) as (Hp & p & G & _). unfold live at 1. rewrite get_update by done.
      assert (pendingRec (update i (merge c) R) = pendingRec R) as -> by (unfold update; by destruct (byId R !! i)).
      case_decide as D; case_decide; try congruence; [subst id|done]. unfold live. by rewrite G.
    + injection E as <- <-. unfold live. rewrite get_push by done. simpl. case_decide as D; case_decide; try congruence. subst id. rewrite F. simpl.
      rewrite bool_decide_eq_false_2; [done|]. intros Hq. apply (wf_pending R W) in Hq as [Hq _]. congruence.
Qed.

Lemma live_calls os : ∀ R ids R' id, wf R → run_calls os R = Ok (ids, R') → live id R' = replay os ids id (live id R).
Proof.
  induction os as [|o os IH]; intros R ids R' id W E; simpl in E; [by injection E as <- <-|].
  apply res_bind_Ok in E as ([j R1] & E1 & E). apply res_bind_Ok in E as ([ids' R2] & E2 & E). injection E as <- <-.
  cbn [replay]. rewrite <- (live_call o R j R1 id W E1). apply IH; [by eapply wf_run_call|done].
Qed.

(** What a call has told stays: keys and recursive ids are never rebound. *)
Lemma bound_call o R j R' : run_call o R = Ok (j, R') →
  (∀ k i, byKey R !! k = Some i → byKey R' !! k = Some i) ∧ (∀ t i, recIds R !! t = Some i → recIds R' !! t = Some i).
Proof.
  intros E. destruct o as [t|t c|c]; simpl in E.
  - injection E as E. unfold recursiveRef in E. destruct (recIds R !! t) as [i|] eqn:K; injection E as <- <-; [done|]. simpl. split; [done|].
    intros u i' L. rewrite lookup_insert_ne; [done|congruence].
  - unfold finalizeRecursive in E. destruct (recIds R !! t) as [i|] eqn:K; [|done]. case_bool_decide; [|by injection E as <- <-].
    destruct (byId R !! i) eqn:B; [|done]. injection E as <- <-. simpl. unfold update. rewrite B. simpl. split; [|done].
    intros k i' L. destruct (byKey R !! rec_key c) eqn:Q; [done|]. rewrite lookup_insert_ne; [done|congruence].
  - injection E as E. unfold intern in E. destruct (byKey R !! key c) as [i|] eqn:K; injection E as <- <-.
    + unfold update. by destruct (byId R !! i).
    + simpl. split; [|done]. intros k i' L. rewrite lookup_insert_ne; [done|congruence].
Qed.

(** What a call says of the id it returns. *)
Definition told_by (o : call T C) (id : string) (R : Registry) : Prop :=
  match o with CRef t | CFinalize t _ => recIds R !! t = Some id | CIntern c => byKey R !! key c = Some id end.

Lemma told_call o R id R' : run_call o R = Ok (id, R') → told_by o id R'.
Proof.
  intros E. destruct o as [t|t c|c]; simpl in *.
  - injection E as E. unfold recursiveRef in E. destruct (recIds R !! t) as [i|] eqn:K; injection E as <- <-; [done|]. apply lookup_insert_eq.
  - unfold finalizeRecursive in E. destruct (recIds R !! t) as [i|] eqn:K; [|done]. case_bool_decide; [|by injection E as <- <-].
    destruct (byId R !! i) eqn:B; [|done]. injection E as <- <-. simpl. unfold update. by rewrite B.
  - injection E as E. unfold intern in E. destruct (byKey R !! key c) as [i|] eqn:K; injection E as <- <-.
    + unfold update. by destruct (byId R !! i).
    + apply lookup_insert_eq.
Qed.

Lemma told_calls os : ∀ R ids R', run_calls os R = Ok (ids, R') →
  (∀ o id, told_by o id R → told_by o id R') ∧ ∀ i o id, os !! i = Some o → ids !! i = Some id → told_by o id R'.
Proof.
  induction os as [|o os IH]; intros R ids R' E; simpl in E; [by injection E as <- <-|].
  apply res_bind_Ok in E as ([j R1] & E1 & E). apply res_bind_Ok in E as ([ids' R2] & E2 & E). injection E as <- <-.
  destruct (IH _ _ _ E2) as [K I]. destruct (bound_call _ _ _ _ E1) as [B1 B2]. split.
  - intros o' id Ho. apply K. destruct o'; simpl in *; auto.
  - intros [|i] o' id Ho Hid; [|by apply (I i)]. injection Ho as <-. injection Hid as <-. apply K. by eapply told_call.
Qed.
End invariant.

(** Which id a call gives: the same for the same key, and per type. *)
Lemma ids_by_key {T P C} `{Countable T} `{Content P C} `{!ContentLaws P C} (os : list (call T C)) ids R i j id id' :
  run_calls os empty_registry = Ok (ids, R) → ids !! i = Some id → ids !! j = Some id' →
  (∀ c d, os !! i = Some (CIntern c) → os !! j = Some (CIntern d) → id = id' ↔ key c = key d) ∧
  (∀ o o' t u, os !! i = Some o → os !! j = Some o' → (o = CRef t ∨ ∃ c, o = CFinalize t c) → (o' = CRef u ∨ ∃ c, o' = CFinalize u c) → id = id' ↔ t = u).
Proof.
  intros E Hi Hj. pose proof (wf_run_calls os _ _ _ wf_empty E) as W. destruct (told_calls os _ _ _ E) as [_ I]. split.
  - intros c d Oi Oj. pose proof (I _ _ _ Oi Hi) as Ki. pose proof (I _ _ _ Oj Hj) as Kj. simpl in *. split; [|congruence].
    intros <-. apply (wf_byKey R W) in Ki as (_ & p & G & <-), Kj as (_ & q & G' & <-). congruence.
  - intros o o' t u Oi Oj Ho Ho'. pose proof (I _ _ _ Oi Hi) as Ki. pose proof (I _ _ _ Oj Hj) as Kj.
    assert (Kt : recIds R !! t = Some id) by (destruct Ho as [->|[c ->]]; exact Ki).
    assert (Ku : recIds R !! u = Some id') by (destruct Ho' as [->|[c ->]]; exact Kj).
    split; [intros <-; by apply (wf_rec_inj R W _ _ id)|congruence].
Qed.

(** ** Shapes *)

Definition same_but_optional (fs gs : list IrField) : Prop := map canon_field fs = map canon_field gs.
(** The [optional] of the first field of a name. *)
Definition optional_of (name : string) (fs : list IrField) : bool :=
  match List.find (λ f, String.eqb (f_name f) name) fs with Some f => f_optional f | None => false end.
Definition has_field (name : string) (fs : list IrField) : bool := existsb (λ f, String.eqb (f_name f) name) fs.

Lemma set_optional_canon name fs : map canon_field (set_optional name fs) = map canon_field fs.
Proof. induction fs as [|f fs IH]; [done|]. simpl. case_match; simpl; [done|]. by rewrite IH. Qed.

Lemma mergeOptional_canon cs : ∀ fs, map canon_field (mergeOptional cs fs) = map canon_field fs.
Proof.
  unfold mergeOptional. induction cs as [|c cs IH]; intros fs; simpl; [done|]. rewrite IH. case_match; [apply set_optional_canon|done].
Qed.

Lemma set_optional_has name m fs : has_field name (set_optional m fs) = has_field name fs.
Proof. unfold has_field. induction fs as [|f fs IH]; [done|]. simpl. case_match; simpl; [done|]. by rewrite IH. Qed.

Lemma set_optional_of name m fs : optional_of name (set_optional m fs) = optional_of name fs || String.eqb m name && has_field name fs.
Proof.
  unfold optional_of, has_field. induction fs as [|f fs IH]; simpl; [by rewrite andb_false_r|].
  destruct (String.eqb_spec (f_name f) m) as [->|Hm]; simpl.
  - destruct (String.eqb_spec m name) as [->|Hn]; simpl; [by rewrite orb_true_r|]. by rewrite orb_false_r.
  - destruct (String.eqb_spec (f_name f) name) as [Hq|Hn]; simpl; [|exact IH].
    destruct (String.eqb_spec m name) as [E|_]; [congruence|]. by rewrite orb_false_r.
Qed.

(** Merging ORs the [?] flags of fields the entry has, and does nothing else. *)
Lemma mergeOptional_of name cs : ∀ fs, optional_of name (mergeOptional cs fs) =
  optional_of name fs || existsb (λ f, f_optional f && String.eqb (f_name f) name) cs && has_field name fs.
Proof.
  unfold mergeOptional. induction cs as [|c cs IH]; intros fs; simpl; [by rewrite orb_false_r|]. rewrite IH. destruct (f_optional c); simpl; [|done].
  rewrite set_optional_of, set_optional_has. destruct (optional_of name fs), (String.eqb (f_name c) name), (has_field name fs), (existsb _ cs); done.
Qed.

#[export] Program Instance shape_laws : ContentLaws ShapeEntry ShapeContent := {
  ekey p := keyOf (fields (shape p)) (tuple (shape p)) (indexValue (shape p)) }.
Next Obligation. done. Qed.
Next Obligation. intros [fs tup [t|] o]; done. Qed.
Next Obligation. intros c p. simpl. apply keyOf_canon, mergeOptional_canon. Qed.

#[export] Program Instance union_laws : ContentLaws (list IrType) (list IrType) := { ekey := arms_key }.
Next Obligation. done. Qed.
Next Obligation. done. Qed.
Next Obligation. done. Qed.

(** What makes two record types one shape. *)
Definition canonical (c : ShapeContent) : list (string * IrType * bool) * bool * option IrType := (map canon_field (c_fields c), c_tuple c, c_indexValue c).
Definition content_named (c : ShapeContent) : bool := fields_named (c_fields c) && index_named (c_indexValue c).

(** Over any history of calls, [ShapeRegistry.intern] gives two field
    lists one id exactly when they agree in names, types and internal marks, in
    being a tuple and in the index type, whatever their [?] flags and
    declaration orders; recursive ids agree exactly on one checker type. *)
Theorem shape_ids_canonical {T} `{Countable T} (os : list (call T ShapeContent)) (ids : list string) (R : ShapeRegistry T) i j id id' :
  run_calls os empty_registry = Ok (ids, R) → ids !! i = Some id → ids !! j = Some id' →
  (∀ c d, os !! i = Some (CIntern c) → os !! j = Some (CIntern d) → content_named c = true → content_named d = true →
     id = id' ↔ canonical c = canonical d) ∧
  (∀ o o' t u, os !! i = Some o → os !! j = Some o' → (o = CRef t ∨ ∃ c, o = CFinalize t c) → (o' = CRef u ∨ ∃ c, o' = CFinalize u c) →
     id = id' ↔ t = u).
Proof.
  intros E Hi Hj. destruct (ids_by_key os ids R i j id id' E Hi Hj) as [K1 K2]. split; [|exact K2].
  intros c d Oi Oj [Nc1 Nc2]%andb_true_iff [Nd1 Nd2]%andb_true_iff. rewrite (K1 c d Oi Oj). unfold canonical. split.
  - intros Q. by destruct (keyOf_inj _ _ _ _ _ _ Nc1 Nd1 Nc2 Nd2 Q) as (-> & -> & ->).
  - intros Q. injection Q as Q Q1 Q2. simpl. rewrite Q1, Q2. by apply keyOf_canon.
Qed.

(** The same of [UnionRegistry]: one id exactly for one canonical arm list. *)
Theorem union_ids_canonical {T} `{Countable T} (os : list (call T (list IrType))) (ids : list string) (R : UnionRegistry T) i j id id' c d :
  run_calls os empty_registry = Ok (ids, R) → ids !! i = Some id → ids !! j = Some id' →
  os !! i = Some (CIntern c) → os !! j = Some (CIntern d) → forallb well_named c = true → forallb well_named d = true → id = id' ↔ c = d.
Proof.
  intros E Hi Hj Oi Oj Nc Nd. destruct (ids_by_key os ids R i j id id' E Hi Hj) as [K1 _]. rewrite (K1 c d Oi Oj).
  split; [by apply arms_key_inj|by intros ->].
Qed.

(** C15. Each entry is what the calls that returned its id make of it, in their
    order: a placeholder from its first reference until its type is finalized
    once, then its fields with the flags merged in; other calls leave it
    alone.  [finalizeRecursive] throws exactly on a type never referred to. *)
Theorem entries_replay {T P C} `{Countable T} `{Content P C} `{!ContentLaws P C} (os : list (call T C)) ids R :
  run_calls os empty_registry = Ok (ids, R) →
  (∀ id, live id R = replay os ids id None) ∧
  (∀ t, recursiveFor t R = (id ← recIds R !! t; '(b, _) ← live id R; if b : bool then None else Some id)) ∧
  (∀ t c, is_ok (finalizeRecursive t c R) = bool_decide (is_Some (recIds R !! t))).
Proof.
  intros E. pose proof (wf_run_calls os _ _ _ wf_empty E) as W. split; [|split].
  - intros id. by rewrite (live_calls os _ _ _ id wf_empty E).
  - intros t. unfold recursiveFor. destruct (recIds R !! t) as [id|] eqn:K; [|done]. simpl. unfold live. destruct (wf_rec R W _ _ K) as [p ->]. simpl.
    by case_bool_decide; case_bool_decide.
  - intros t c. unfold finalizeRecursive. destruct (recIds R !! t) as [id|] eqn:K; [|done]. rewrite (bool_decide_eq_true_2 (is_Some _)) by by eexists.
    case_bool_decide as Hp; [|done]. destruct (wf_pending R W _ Hp) as [G _]. unfold get in G. by destruct (byId R !! id).
Qed.

(** *** Witnesses *)

Definition sample_fields (o : bool) : list IrField := [mkField "a" (Prim Kf64) o false; mkField "next" (Record_ "r0") false false].
Definition sample_content (o : bool) : ShapeContent := mkShapeContent (sample_fields o) false None None.
(** A recursive type: referred to, completed, then met unfolded once. *)
Definition sample_calls : list (call nat ShapeContent) :=
  [CRef 7%nat; CIntern (mkShapeContent [] false None None); CFinalize 7%nat (sample_content false); CIntern (sample_content true); CIntern (mkShapeContent [] true None None)].

Example shape_ids_canonical_witness :
  match run_calls sample_calls empty_registry with Ok (ids, _) => ids = ["r0"; "r1"; "r0"; "r0"; "r2"] | _ => False end ∧ canonical (sample_content true) ≠ canonical (mkShapeContent [] true None None).
Proof.
  destruct (run_calls sample_calls empty_registry) as [[ids R]|msg] eqn:E; [|vm_compute in E; discriminate E].
  assert (Hids : ids = ["r0"; "r1"; "r0"; "r0"; "r2"]) by (vm_compute in E; congruence). split; [exact Hids|].
  intros Q. destruct (shape_ids_canonical sample_calls ids R 3 4 "r0" "r2" E) as [K _]; [by rewrite Hids..|].
  destruct (K _ _ eq_refl eq_refl eq_refl eq_refl) as [_ K2]. discriminate (K2 Q).
Defined.

Example entries_replay_witness :
  match run_calls sample_calls empty_registry with
  | Ok (ids, R) => live "r0" R = Some (false, mkShapeEntry (mkShape (sample_fields true) false None) None)
  | _ => False
  end.
Proof.
  destruct (run_calls sample_calls empty_registry) as [[ids R]|msg] eqn:E; [|vm_compute in E; discriminate E].
  destruct (entries_replay sample_calls ids R E) as [K _]. rewrite K.
  assert (Hids : ids = ["r0"; "r1"; "r0"; "r0"; "r2"]) by (vm_compute in E; congruence). rewrite Hids. reflexivity.
Defined.
