(* ===== verification/StmtFlow.v ===== *)
(** * The IR validator: jumps and falling off the end

    The control-flow half of src/packages/compiler/src/ir/validate.ts:
    [alwaysReturns] and [containsBreak], and what [checkStmt] demands of
    break, continue, return and try, with the counters and stacks it keeps.
    Against them, the executions of a statement list as a relation to the way
    it completes (the statement semantics of
    src/packages/compiler/src/ir/nodes.ts, [IrStmt]). *)

From S2P Require Import Prelude TypeKey.

#[local] Open Scope string_scope.

(** ** Statements *)

(** What these checks distinguish of an expression. *)
Inductive FlowExpr :=
  | boolLit (value : bool)
  | numLit (spelling : string)
  | strLit (value : string)
  | unionDisc (unionId : string)
  (** [libCall] of ["process.exit"] *)
  | processExit
  | otherExpr.

(** The straight-line statements. *)
Inductive simple_kind := VarDecl | Assign | ArraySet | BytesSet | FieldSet | RecordSet | RecordKeySet | RecordKeyDelete.
Inductive simple :=
  | write (k : simple_kind)
  | exprStmt (e : FlowExpr).

Inductive FlowStmt :=
  | plain (s : simple)
  | if_ (cond : FlowExpr) (then_ : list FlowStmt) (else_ : option (list FlowStmt))
  | while_ (cond : FlowExpr) (body : list FlowStmt) (labels : list string)
  | doWhile (body : list FlowStmt) (cond : FlowExpr) (labels : list string)
  | switch (disc : FlowExpr) (cases : list (option FlowExpr * list FlowStmt)) (labels : list string)
  | for_ (init : option simple) (cond : option FlowExpr) (update : option simple) (body : list FlowStmt) (labels : list string)
  | forOf (iterable : FlowExpr) (body : list FlowStmt) (labels : list string)
  | return_ (value : option FlowExpr)
  | break_ (label : option string)
  | continue_ (label : option string)
  | block (body : list FlowStmt) (labels : list string)
  | throw (value : FlowExpr)
  | runtimeFence
  | rethrow
  | tryCatch (tryBody : list FlowStmt) (catchBody finallyBody : option (list FlowStmt)).

(** ** [containsBreak], [alwaysReturns] *)

Fixpoint containsBreak1 (s : FlowStmt) : bool :=
  match s with
  | break_ _ => true
  | if_ _ t e => existsb containsBreak1 t || match e with Some e => existsb containsBreak1 e | None => false end
  | block body _ => existsb containsBreak1 body
  | tryCatch t c f =>
      existsb containsBreak1 t || match c with Some c => existsb containsBreak1 c | None => false end ||
      match f with Some f => existsb containsBreak1 f | None => false end
  | _ => false
  end.
Definition containsBreak (ss : list FlowStmt) : bool := existsb containsBreak1 ss.

Definition is_true_lit (e : FlowExpr) : bool := match e with boolLit b => b | _ => false end.
(** [`${t.kind}:${String(t.value)}`] *)
Definition literal_key (e : FlowExpr) : option string :=
  match e with
  | boolLit b => Some ("boolLit:" +:+ if b then "true" else "false")
  | numLit n => Some ("numLit:" +:+ n)
  | strLit s => Some ("strLit:" +:+ s)
  | _ => None
  end.
Definition has_default {A} (cases : list (option FlowExpr * A)) : bool := existsb (λ c, match c.1 with None => true | Some _ => false end) cases.
Definition literal_tests {A} (cases : list (option FlowExpr * A)) : list string := omap (λ c, t ← c.1; literal_key t) cases.

Section module.
Context (unions : gmap string (list IrType)).

Definition exhaustive {A} (disc : FlowExpr) (cases : list (option FlowExpr * A)) : bool :=
  negb (has_default cases) &&
  match disc with
  | unionDisc u =>
      (length (literal_tests cases) =? length cases)%nat &&
      (size (list_to_set (literal_tests cases) : gset string) =? length cases)%nat &&
      match unions !! u with Some arms => (length arms <=? length cases)%nat | None => false end
  | _ => false
  end.

(** Every entry point of a switch returns, given which of its bodies do. *)
Definition every_entry (returns : list bool) : bool := forallb (λ i, existsb id (drop i returns)) (seq 0 (length returns)).

Fixpoint alwaysReturns1 (s : FlowStmt) : bool :=
  match s with
  | return_ _ | throw _ | rethrow | runtimeFence => true
  | plain (exprStmt processExit) => true
  | tryCatch t c f =>
      existsb alwaysReturns1 t && match c with None => true | Some c => existsb alwaysReturns1 c end ||
      match f with Some f => existsb alwaysReturns1 f | None => false end
  | if_ _ t (Some e) => existsb alwaysReturns1 t && existsb alwaysReturns1 e
  | while_ cond body _ => is_true_lit cond && negb (containsBreak body)
  | for_ _ cond _ body _ => match cond with None => true | Some c => is_true_lit c end && negb (containsBreak body)
  | block body _ => existsb alwaysReturns1 body
  | doWhile body cond _ => existsb alwaysReturns1 body || is_true_lit cond && negb (containsBreak body)
  | switch disc cases _ =>
      (has_default cases || exhaustive disc cases) && negb (existsb (λ c, containsBreak c.2) cases) &&
      every_entry (map (λ c, existsb alwaysReturns1 c.2) cases)
  | _ => false
  end.
Definition alwaysReturns (ss : list FlowStmt) : bool := existsb alwaysReturns1 ss.

(** The flattened suffixes the source recurses on. *)
Lemma every_entry_flat {A} (cases : list (A * list FlowStmt)) :
  every_entry (map (λ c, existsb alwaysReturns1 c.2) cases) =
  forallb (λ i, alwaysReturns (concat (drop i (map snd cases)))) (seq 0 (length cases)).
Proof.
  unfold every_entry. rewrite length_map. generalize (seq 0 (length cases)). intros l. induction l as [|i l IH]; [done|]. simpl. f_equal; [|exact IH].
  rewrite !skipn_map. generalize (drop i cases). intros cs.
  unfold alwaysReturns. clear IH. induction cs as [|c cs IH]; [done|]. cbn [map concat existsb]. by rewrite existsb_app, <- IH.
Qed.
End module.

(** ** The jump checks of [checkStmt] *)

Inductive target_kind := TLoop | TSwitch | TBlock.
Record region := mkRegion { r_loopDepth : nat; r_breakableDepth : nat; r_labelLen : nat }.
(** [labelTargets] and [finallyRegions] have the innermost entry first here. *)
Record jump_state := mkJumps {
  loopDepth : nat;
  breakableDepth : nat;
  labelTargets : list (target_kind * list string);
  finallyRegions : list region;
  finallyBlockDepth : nat }.
Definition no_jumps : jump_state := mkJumps 0 0 [] [] 0.

Definition in_loop (labels : list string) (j : jump_state) : jump_state :=
  mkJumps (S (loopDepth j)) (S (breakableDepth j)) ((TLoop, labels) :: labelTargets j) (finallyRegions j) (finallyBlockDepth j).
Definition in_switch (labels : list string) (j : jump_state) : jump_state :=
  mkJumps (loopDepth j) (S (breakableDepth j)) ((TSwitch, labels) :: labelTargets j) (finallyRegions j) (finallyBlockDepth j).
Definition in_block (labels : list string) (j : jump_state) : jump_state :=
  mkJumps (loopDepth j) (breakableDepth j) ((TBlock, labels) :: labelTargets j) (finallyRegions j) (finallyBlockDepth j).
Definition in_guarded (j : jump_state) : jump_state :=
  mkJumps (loopDepth j) (breakableDepth j) (labelTargets j)
    (mkRegion (loopDepth j) (breakableDepth j) (length (labelTargets j)) :: finallyRegions j) (finallyBlockDepth j).
Definition in_finally (j : jump_state) : jump_state :=
  mkJumps (loopDepth j) (breakableDepth j) (labelTargets j) (finallyRegions j) (S (finallyBlockDepth j)).

(** The innermost target with the label, and its index from the outermost. *)
Fixpoint labelTargetOf (label : string) (ts : list (target_kind * list string)) : option (target_kind * nat) :=
  match ts with
  | [] => None
  | (k, labels) :: ts => if bool_decide (label ∈ labels) then Some (k, length ts) else labelTargetOf label ts
  end.

Definition check_break (label : option string) (j : jump_state) : list string :=
  let region := head (finallyRegions j) in
  match label with
  | Some l =>
      match labelTargetOf l (labelTargets j) with
      | None => ["break to unknown label " +:+ l]
      | Some (_, index) =>
          match region with
          | Some r => if (index <? r_labelLen r)%nat then ["labeled break crossing a finally block (frontend must reject)"] else []
          | None => []
          end
      end
  | None =>
      (if (breakableDepth j =? 0)%nat then ["break outside a loop or switch"] else []) ++
      match region with
      | Some r => if (breakableDepth j <=? r_breakableDepth r)%nat then ["break crossing a finally block (frontend must reject)"] else []
      | None => []
      end
  end%list.

Definition check_continue (label : option string) (j : jump_state) : list string :=
  let region := head (finallyRegions j) in
  match label with
  | Some l =>
      match labelTargetOf l (labelTargets j) with
      | None => ["continue to unknown label " +:+ l]
      | Some (k, index) =>
          match k with
          | TLoop =>
              match region with
              | Some r => if (index <? r_labelLen r)%nat then ["labeled continue crossing a finally block (frontend must reject)"] else []
              | None => []
              end
          | _ => ["continue to non-loop label " +:+ l]
          end
      end
  | None =>
      (if (loopDepth j =? 0)%nat then ["continue outside a loop"] else []) ++
      match region with
      | Some r => if (loopDepth j <=? r_loopDepth r)%nat then ["continue crossing a finally block (frontend must reject)"] else []
      | None => []
      end
  end%list.

Fixpoint checkStmt (s : FlowStmt) (j : jump_state) : list string :=
  match s with
  | plain _ | throw _ | runtimeFence | rethrow => []
  | if_ _ t e => flat_map (λ s, checkStmt s j) t ++ match e with Some e => flat_map (λ s, checkStmt s j) e | None => [] end
  | while_ _ body labels | doWhile body _ labels | for_ _ _ _ body labels | forOf _ body labels => flat_map (λ s, checkStmt s (in_loop labels j)) body
  | switch _ cases labels =>
      flat_map (λ c, flat_map (λ s, checkStmt s (in_switch labels j)) c.2) cases ++
      (let defaults := length (List.filter (λ c, match c.1 with None => true | Some _ => false end) cases) in
       if (1 <? defaults)%nat then ["switch has several default clauses"] else [])
  | block body labels => flat_map (λ s, checkStmt s (in_block labels j)) body
  | tryCatch t c f =>
      (match c, f with None, None => ["tryCatch with neither catch nor finally"] | _, _ => [] end) ++
      let guarded := match f with Some _ => in_guarded j | None => j end in
      flat_map (λ s, checkStmt s guarded) t ++
      match c with Some c => flat_map (λ s, checkStmt s guarded) c | None => [] end ++
      match f with Some f => flat_map (λ s, checkStmt s (in_finally guarded)) f | None => [] end
  | break_ label => check_break label j
  | continue_ label => check_continue label j
  | return_ _ => if (0 <? finallyBlockDepth j)%nat then ["return inside a finally body (frontend must reject)"] else []
  end%list.
Definition checkStmts (ss : list FlowStmt) (j : jump_state) : list string := flat_map (λ s, checkStmt s j) ss.

(** The control-flow errors of a function: of its body, and for a result type
    other than void the demand that it returns. *)
Definition checkFlow (unions : gmap string (list IrType)) (returnsVoid : bool) (body : list FlowStmt) : list string :=
  (checkStmts body no_jumps ++ if negb returnsVoid && negb (alwaysReturns unions body) then ["non-void function may complete without returning"] else [])%list.

(** ** Executions

    Conditions that are not literals may come out either way, calls may throw
    or end the program; what is left of a run is how it completes.  A run that
    does not end has no completion. *)

Inductive completion := CNormal | CBreak (label : option string) | CContinue (label : option string) | CReturn | CThrow | CExit.

Inductive eres := RVal (truthy : bool) | RThrow | RExit.
Definition eval (e : FlowExpr) (r : eres) : Prop :=
  match e, r with
  | boolLit b, RVal t => t = b
  | (numLit _ | strLit _), RVal _ => True
  | (boolLit _ | numLit _ | strLit _), _ => False
  | processExit, RVal _ => False
  | processExit, _ => True
  | (unionDisc _ | otherExpr), _ => True
  end.
Definition done_of (r : eres) : completion := match r with RVal _ => CNormal | RThrow => CThrow | RExit => CExit end.
Definition abrupt (r : eres) : Prop := match r with RVal _ => False | _ => True end.

Definition loop_leave (labels : list string) (k : completion) : option completion :=
  match k with
  | CNormal | CContinue None => None
  | CContinue (Some l) => if bool_decide (l ∈ labels) then None else Some k
  | CBreak None => Some CNormal
  | CBreak (Some l) => if bool_decide (l ∈ labels) then Some CNormal else Some k
  | _ => Some k
  end.
Definition block_leave (labels : list string) (k : completion) : completion :=
  match k with CBreak (Some l) => if bool_decide (l ∈ labels) then CNormal else k | _ => k end.
Definition switch_leave (labels : list string) (k : completion) : completion :=
  match k with CBreak None => CNormal | _ => block_leave labels k end.

Section exec.
Context (unions : gmap string (list IrType)).
(** The discriminant of a value of the union may differ from all these
    literals. *)
Context (misses : string → list string → Prop).

Definition may_miss (disc : FlowExpr) (cases : list (option FlowExpr * list FlowStmt)) : Prop :=
  match disc with unionDisc u => misses u (literal_tests cases) | _ => True end.

Inductive exec_simple : simple → completion → Prop :=
  | S_write k r : eval otherExpr r → exec_simple (write k) (done_of r)
  | S_expr e r : eval e r → exec_simple (exprStmt e) (done_of r).
Definition exec_opt (s : option simple) (k : completion) : Prop := match s with Some s => exec_simple s k | None => k = CNormal end.
(** The test of a loop that has one, and of one that has not. *)
Definition eval_opt (c : option FlowExpr) (r : eres) : Prop := match c with Some c => eval c r | None => r = RVal true end.

Inductive exec : FlowStmt → completion → Prop :=
  | X_plain s k : exec_simple s k → exec (plain s) k
  | X_if_test c t e r : eval c r → abrupt r → exec (if_ c t e) (done_of r)
  | X_then c t e k : eval c (RVal true) → execs t k → exec (if_ c t e) k
  | X_else c t e k : eval c (RVal false) → execs e k → exec (if_ c t (Some e)) k
  | X_no_else c t : eval c (RVal false) → exec (if_ c t None) CNormal
  | X_while c body ls k : looped (Some c) body None ls k → exec (while_ c body ls) k
  | X_do_leave body c ls k k' : execs body k → loop_leave ls k = Some k' → exec (doWhile body c ls) k'
  | X_do_test body c ls k k' : execs body k → loop_leave ls k = None → looped (Some c) body None ls k' → exec (doWhile body c ls) k'
  | X_for_init i c u body ls k : exec_opt i k → k ≠ CNormal → exec (for_ i c u body ls) k
  | X_for i c u body ls k : exec_opt i CNormal → looped c body u ls k → exec (for_ i c u body ls) k
  | X_forOf_iter e body ls r : eval e r → abrupt r → exec (forOf e body ls) (done_of r)
  | X_forOf e body ls k t : eval e (RVal t) → looped (Some otherExpr) body None ls k → exec (forOf e body ls) k
  | X_switch_test d cs ls r : eval d r → abrupt r → exec (switch d cs ls) (done_of r)
  | X_switch_case d cs ls e r t b : eval d (RVal t) → (Some e, b) ∈ cs → eval e r → abrupt r → exec (switch d cs ls) (done_of r)
  | X_switch_enter d cs ls i k t : eval d (RVal t) → (i < length cs)%nat → execs (concat (drop i (map snd cs))) k → exec (switch d cs ls) (switch_leave ls k)
  | X_switch_miss d cs ls t : eval d (RVal t) → has_default cs = false → may_miss d cs → exec (switch d cs ls) CNormal
  | X_return_value e r : eval e r → abrupt r → exec (return_ (Some e)) (done_of r)
  | X_return v : match v with Some e => ∃ t, eval e (RVal t) | None => True end → exec (return_ v) CReturn
  | X_break l : exec (break_ l) (CBreak l)
  | X_continue l : exec (continue_ l) (CContinue l)
  | X_block body ls k : execs body k → exec (block body ls) (block_leave ls k)
  | X_throw e r : eval e r → exec (throw e) (match r with RVal _ => CThrow | _ => done_of r end)
  | X_fence : exec runtimeFence CThrow
  | X_rethrow : exec rethrow CThrow
  | X_try t c f k1 k2 k3 :
      execs t k1 →
      caught c k1 k2 →
      finalized f k2 k3 →
      exec (tryCatch t c f) k3
(** The catch body runs exactly on a throw. *)
with caught : option (list FlowStmt) → completion → completion → Prop :=
  | C_none k : caught None k k
  | C_skip c k : k ≠ CThrow → caught (Some c) k k
  | C_run c k : execs c k → caught (Some c) CThrow k
(** The finally body runs on every way out except the end of the program, and
    replaces the completion when it does not itself complete normally. *)
with finalized : option (list FlowStmt) → completion → completion → Prop :=
  | F_none k : finalized None k k
  | F_exit f : finalized (Some f) CExit CExit
  | F_keep f k : k ≠ CExit → execs f CNormal → finalized (Some f) k k
  | F_replace f k k' : k ≠ CExit → execs f k' → k' ≠ CNormal → finalized (Some f) k k'
with execs : list FlowStmt → completion → Prop :=
  | E_nil : execs [] CNormal
  | E_next s ss k : exec s CNormal → execs ss k → execs (s :: ss) k
  | E_stop s ss k : exec s k → k ≠ CNormal → execs (s :: ss) k
(** A loop about to evaluate its test. *)
with looped : option FlowExpr → list FlowStmt → option simple → list string → completion → Prop :=
  | L_test c body u ls r : eval_opt c r → abrupt r → looped c body u ls (done_of r)
  | L_done c body u ls : eval_opt c (RVal false) → looped c body u ls CNormal
  | L_leave c body u ls k k' : eval_opt c (RVal true) → execs body k → loop_leave ls k = Some k' → looped c body u ls k'
  | L_update c body u ls k k' : eval_opt c (RVal true) → execs body k → loop_leave ls k = None → exec_opt u k' → k' ≠ CNormal → looped c body u ls k'
  | L_again c body u ls k k' : eval_opt c (RVal true) → execs body k → loop_leave ls k = None → exec_opt u CNormal → looped c body u ls k' → looped c body u ls k'.

Scheme exec_mut := Minimality for exec Sort Prop
  with caught_mut := Minimality for caught Sort Prop
  with finalized_mut := Minimality for finalized Sort Prop
  with execs_mut := Minimality for execs Sort Prop
  with looped_mut := Minimality for looped Sort Prop.
Combined Scheme exec_all_ind from exec_mut, caught_mut, finalized_mut, execs_mut, looped_mut.
End exec.

#[export] Instance completion_eq_dec : EqDecision completion.
Proof. solve_decision. Defined.

(** ** Where the return analysis is right *)

(** The jumps that may leave a statement. *)
Fixpoint escapes (s : FlowStmt) : list completion :=
  match s with
  | break_ l => [CBreak l]
  | continue_ l => [CContinue l]
  | if_ _ t e => flat_map escapes t ++ match e with Some e => flat_map escapes e | None => [] end
  | while_ _ body ls | doWhile body _ ls | for_ _ _ _ body ls | forOf _ body ls => omap (loop_leave ls) (flat_map escapes body)
  | switch _ cases ls => map (switch_leave ls) (flat_map (λ c, flat_map escapes c.2) cases)
  | block body ls => map (block_leave ls) (flat_map escapes body)
  | tryCatch t c f =>
      flat_map escapes t ++ match c with Some c => flat_map escapes c | None => [] end ++ match f with Some f => flat_map escapes f | None => [] end
  | _ => []
  end%list.

Definition not_own (labels : list string) (k : completion) : bool := match k with CBreak (Some l) => bool_decide (l ∉ labels) | _ => true end.
(** No labeled break leaves its own statement, and no jump binds to a do-while
    whose body always returns. *)
Fixpoint unlabeled (s : FlowStmt) : bool :=
  match s with
  | if_ _ t e => forallb unlabeled t && match e with Some e => forallb unlabeled e | None => true end
  | while_ _ body ls | for_ _ _ _ body ls | forOf _ body ls | block body ls => forallb unlabeled body && forallb (not_own ls) (flat_map escapes body)
  | doWhile body c ls =>
      forallb unlabeled body && forallb (not_own ls) (flat_map escapes body) &&
      (is_true_lit c && negb (containsBreak body) || forallb (λ k, bool_decide (loop_leave ls k = Some k)) (flat_map escapes body))
  | switch _ cases ls => forallb (λ c, forallb unlabeled c.2) cases && forallb (not_own ls) (flat_map (λ c, flat_map escapes c.2) cases)
  | tryCatch t c f =>
      forallb unlabeled t && match c with Some c => forallb unlabeled c | None => true end && match f with Some f => forallb unlabeled f | None => true end
  | _ => true
  end.

Definition is_jump (k : completion) : Prop := match k with CBreak _ | CContinue _ => True | _ => False end.

Section sound.
Context (unions : gmap string (list IrType)) (misses : string → list string → Prop).
Notation exec := (exec misses).
Notation execs := (execs misses).
Notation looped := (looped misses).
Notation caught := (caught misses).
Notation finalized := (finalized misses).

Lemma done_not_jump r : ¬ is_jump (done_of r).
Proof. destruct r; intros []. Qed.
Lemma abrupt_not_normal r : abrupt r → done_of r ≠ CNormal.
Proof. by destruct r. Qed.
Lemma simple_not_jump s k : exec_simple s k → ¬ is_jump k.
Proof. destruct 1; apply done_not_jump. Qed.
Lemma opt_not_jump s k : exec_opt s k → ¬ is_jump k.
Proof. destruct s; [apply simple_not_jump|intros -> []]. Qed.
Lemma loop_leave_jump ls k k' : loop_leave ls k = Some k' → is_jump k' → k' = k ∧ is_jump k.
Proof. destruct k as [|[l|]|[l|]| | |]; simpl; intros E J; try case_bool_decide; simplify_eq; try done. Qed.
Lemma block_leave_jump ls k : is_jump (block_leave ls k) → block_leave ls k = k ∧ is_jump k.
Proof. destruct k as [|[l|]|[l|]| | |]; simpl; try case_bool_decide; done. Qed.
Lemma switch_leave_jump ls k : is_jump (switch_leave ls k) → switch_leave ls k = k ∧ is_jump k.
Proof. destruct k as [|[l|]|[l|]| | |]; simpl; try case_bool_decide; done. Qed.

Lemma concat_drop_in (x : FlowStmt) i (cs : list (option FlowExpr * list FlowStmt)) : x ∈ concat (drop i (map snd cs)) → ∃ c, c ∈ cs ∧ x ∈ c.2.
Proof.
  intros Hx. rewrite skipn_map in Hx. assert (Hd : ∀ c, c ∈ drop i cs → c ∈ cs) by (intros c; apply subseteq_drop).
  revert Hx Hd. generalize (drop i cs). intros l. induction l as [|c l IH]; intros Hx Hd; simpl in Hx; [by apply not_elem_of_nil in Hx|].
  apply elem_of_app in Hx as [Hx|Hx]; [exists c; split; [apply Hd; left|done]|]. apply IH; [done|]. intros d Hc. apply Hd. by right.
Qed.

Lemma elem_of_flat_map {A B} (f : A → list B) x l : x ∈ flat_map f l ↔ ∃ a, a ∈ l ∧ x ∈ f a.
Proof. rewrite list_elem_of_In, in_flat_map. by setoid_rewrite list_elem_of_In. Qed.

Definition from_body (b : option (list FlowStmt)) (k : completion) : Prop := ∃ ss, b = Some ss ∧ k ∈ flat_map escapes ss.

Lemma exec_escapes :
  (∀ s k, exec s k → is_jump k → k ∈ escapes s) ∧
  (∀ c k1 k2, caught c k1 k2 → is_jump k2 → k2 = k1 ∨ from_body c k2) ∧
  (∀ f k1 k2, finalized f k1 k2 → is_jump k2 → k2 = k1 ∨ from_body f k2) ∧
  (∀ ss k, execs ss k → is_jump k → k ∈ flat_map escapes ss) ∧
  (∀ c body u ls k, looped c body u ls k → is_jump k → k ∈ omap (loop_leave ls) (flat_map escapes body)).
Proof.
  apply (exec_all_ind misses); intros *; simpl; try done; try (by intros; left);
    try (intros; exfalso; by eapply done_not_jump).
  - intros H J. by apply simple_not_jump in H.
  - intros _ _ IH J. apply elem_of_app. left. by apply IH.
  - intros _ _ IH J. apply elem_of_app. right. by apply IH.
  - intros _ IH L J. rewrite list_elem_of_omap. destruct (loop_leave_jump _ _ _ L J) as [-> J']. exists k. auto.
  - intros H _ J. by apply opt_not_jump in H.
  - intros _ _ _ IH J. pose proof (switch_leave_jump _ _ J) as [E J']. apply list_elem_of_fmap. exists k. split; [done|].
    apply IH, elem_of_flat_map in J' as (x & Hx & Hk). apply concat_drop_in in Hx as (c & Hc & Hx).
    apply elem_of_flat_map. exists c. split; [done|]. apply elem_of_flat_map. by exists x.
  - intros _ IH J. pose proof (block_leave_jump _ _ J) as [E J']. apply list_elem_of_fmap. exists k. auto.
  - intros H J. by destruct r.
  - intros _ IH1 _ IH2 _ IH3 J. rewrite !elem_of_app. destruct (IH3 J) as [->|(ss & -> & H)]; [|by right; right].
    destruct (IH2 J) as [->|(ss & -> & H)]; [|by right; left]. left. by apply IH1.
  - intros _ IH J. right. exists c. auto.
  - intros _ _ IH _ J. right. exists f. auto.
  - intros _ _ _ IH J. apply elem_of_app. right. by apply IH.
  - intros _ IH _ J. apply elem_of_app. left. by apply IH.
  - intros _ ls k k' _ _ IH L J. rewrite list_elem_of_omap. destruct (loop_leave_jump _ _ _ L J) as [-> J']. exists k. auto.
  - intros _ _ _ _ H _ J. by apply opt_not_jump in H.
Qed.

(** [containsBreak] answers for unlabeled breaks. *)
Lemma loop_leave_unlabeled ls k k' : loop_leave ls k = Some k' → k' ≠ CBreak None.
Proof. destruct k as [|[l|]|[l|]| | |]; simpl; try case_bool_decide; intros; simplify_eq; done. Qed.
Lemma switch_leave_unlabeled ls k : switch_leave ls k ≠ CBreak None.
Proof. destruct k as [|[l|]|[l|]| | |]; simpl; try case_bool_decide; done. Qed.
Lemma block_leave_unlabeled ls k : k ≠ CBreak None → block_leave ls k ≠ CBreak None.
Proof. destruct k as [|[l|]|[l|]| | |]; simpl; try case_bool_decide; done. Qed.
Lemma not_jump_unlabeled k : ¬ is_jump k → k ≠ CBreak None.
Proof. intros H ->. by apply H. Qed.

Definition breakless (b : option (list FlowStmt)) : bool := match b with Some ss => negb (containsBreak ss) | None => true end.

Lemma exec_containsBreak :
  (∀ s k, exec s k → containsBreak1 s = false → k ≠ CBreak None) ∧
  (∀ c k1 k2, caught c k1 k2 → breakless c = true → k1 ≠ CBreak None → k2 ≠ CBreak None) ∧
  (∀ f k1 k2, finalized f k1 k2 → breakless f = true → k1 ≠ CBreak None → k2 ≠ CBreak None) ∧
  (∀ ss k, execs ss k → containsBreak ss = false → k ≠ CBreak None) ∧
  (∀ c body u ls k, looped c body u ls k → k ≠ CBreak None).
Proof.
  apply (exec_all_ind misses); intros *; simpl; rewrite ?orb_false_iff, ?negb_true_iff; unfold containsBreak; try done; try (intros; by destruct r);
    try (intros; by eapply not_jump_unlabeled, opt_not_jump).
  - intros H _. by eapply not_jump_unlabeled, simple_not_jump.
  - intros _ _ IH [H _]. by apply IH.
  - intros _ _ IH [_ H]. by apply IH.
  - intros _ _ L _. by eapply loop_leave_unlabeled.
  - intros _ _ _ _ _. apply switch_leave_unlabeled.
  - intros _ IH H. apply block_leave_unlabeled. by apply IH.
  - intros _ IH1 _ IH2 _ IH3 [[Ht Hc] Hf]. apply IH3; [by destruct f; simpl; [apply negb_true_iff|]|].
    apply IH2; [by destruct c; simpl; [apply negb_true_iff|]|]. by apply IH1.
  - intros _ IH H _. by apply IH.
  - intros _ _ IH _ H _. by apply IH.
  - intros _ _ _ IH [_ H]. by apply IH.
  - intros _ IH _ [H _]. by apply IH.
  - intros _ ls k k' _ _ _ L. by eapply loop_leave_unlabeled.
Qed.

(** A loop with a true test and no break of its own does not complete
    normally. *)
Definition endless (c : option FlowExpr) : bool := match c with Some c => is_true_lit c | None => true end.
Definition no_break (body : list FlowStmt) (ls : list string) : bool := negb (containsBreak body) && forallb (not_own ls) (flat_map escapes body).

Lemma no_break_leave body ls k k' : no_break body ls = true → execs body k → loop_leave ls k = Some k' → k' ≠ CNormal.
Proof.
  unfold no_break. intros [Hb Ho]%andb_true_iff E L. apply negb_true_iff in Hb.
  pose proof (proj1 (proj2 (proj2 (proj2 exec_containsBreak))) _ _ E Hb) as Nb.
  destruct k as [|[l|]|[l|]| | |]; simpl in L; try case_bool_decide as D; simplify_eq; try done.
  pose proof (proj1 (proj2 (proj2 (proj2 exec_escapes))) _ _ E I) as He. rewrite forallb_forall in Ho.
  apply list_elem_of_In, Ho in He. by apply bool_decide_eq_true in He.
Qed.

Lemma endless_test c r : endless c = true → eval_opt c r → r = RVal true.
Proof. destruct c as [[[]| | | | |]|]; simpl; try done. destruct r; intros _ H; simplify_eq; done. Qed.

Lemma looped_endless c body u ls k : looped c body u ls k → endless c = true → no_break body ls = true → k ≠ CNormal.
Proof.
  induction 1 as [c body u ls r Hr Ha|c body u ls Hr|c body u ls k k' Hr Hb L|c body u ls k k' Hr Hb L Hu Hn|c body u ls k k' Hr Hb L Hu Hl IH]; intros He Hn'; try done.
  - apply endless_test in Hr; [|done]. by subst r.
  - by apply endless_test in Hr.
  - by eapply no_break_leave.
  - by apply IH.
Qed.

(** The checker's promise the exhaustive switch relies on: a union's
    discriminant is always one of at least as many distinct literals as the
    union has arms. *)
Context (covered : ∀ u arms (ls : list string), unions !! u = Some arms → size (list_to_set ls : gset string) = length ls → (length arms <= length ls)%nat → ¬ misses u ls).

Definition returns (b : option (list FlowStmt)) : bool := match b with Some ss => alwaysReturns unions ss | None => true end.
Definition opt_unlabeled (b : option (list FlowStmt)) : bool := match b with Some ss => forallb unlabeled ss | None => true end.

Lemma every_entry_at cases i : every_entry (map (λ c : option FlowExpr * list FlowStmt, existsb (alwaysReturns1 unions) c.2) cases) = true →
  (i < length cases)%nat → alwaysReturns unions (concat (drop i (map snd cases))) = true.
Proof. rewrite every_entry_flat, forallb_forall. intros H Hi. apply H, in_seq. lia. Qed.

Lemma concat_unlabeled i (cases : list (option FlowExpr * list FlowStmt)) :
  forallb (λ c, forallb unlabeled c.2) cases = true → forallb unlabeled (concat (drop i (map snd cases))) = true.
Proof.
  rewrite !forallb_forall. intros H x Hx%list_elem_of_In. apply concat_drop_in in Hx as (c & Hc & Hx).
  apply list_elem_of_In, H in Hc. rewrite forallb_forall in Hc. by apply Hc, list_elem_of_In.
Qed.

Lemma switch_leave_normal cases ls i k : existsb (λ c : option FlowExpr * list FlowStmt, containsBreak c.2) cases = false →
  forallb (not_own ls) (flat_map (λ c : option FlowExpr * list FlowStmt, flat_map escapes c.2) cases) = true →
  execs (concat (drop i (map snd cases))) k → k ≠ CNormal → switch_leave ls k ≠ CNormal.
Proof.
  intros Hb Ho E Hk. destruct k as [|[l|]|[l|]| | |]; simpl; try done.
  - case_bool_decide as D; [|done]. pose proof (proj1 (proj2 (proj2 (proj2 exec_escapes))) _ _ E I) as He.
    apply elem_of_flat_map in He as (x & Hx & He). apply concat_drop_in in Hx as (c & Hc & Hx). rewrite forallb_forall in Ho.
    assert (Hin : CBreak (Some l) ∈ flat_map (λ c : option FlowExpr * list FlowStmt, flat_map escapes c.2) cases).
    { apply elem_of_flat_map. exists c. split; [done|]. apply elem_of_flat_map. by exists x. }
    apply list_elem_of_In, Ho in Hin. by apply bool_decide_eq_true in Hin.
  - exfalso. refine (proj1 (proj2 (proj2 (proj2 exec_containsBreak))) _ _ E _ eq_refl). unfold containsBreak.
    apply not_true_iff_false. intros (x & Hx & Bx)%existsb_exists. apply list_elem_of_In, concat_drop_in in Hx as (c & Hc & Hx).
    rewrite <- not_true_iff_false in Hb. apply Hb, existsb_exists. exists c. split; [by apply list_elem_of_In|]. apply existsb_exists. exists x. split; [by apply list_elem_of_In|done].
Qed.

Lemma block_leave_normal body ls k : forallb (not_own ls) (flat_map escapes body) = true → execs body k → k ≠ CNormal → block_leave ls k ≠ CNormal.
Proof.
  intros Ho E Hk. destruct k as [|[l|]|[l|]| | |]; simpl; try done. case_bool_decide as D; [|done].
  pose proof (proj1 (proj2 (proj2 (proj2 exec_escapes))) _ _ E I) as He. rewrite forallb_forall in Ho.
  apply list_elem_of_In, Ho in He. by apply bool_decide_eq_true in He.
Qed.

Lemma free_leave body ls k : forallb (λ k, bool_decide (loop_leave ls k = Some k)) (flat_map escapes body) = true → execs body k → k ≠ CNormal → loop_leave ls k = Some k.
Proof.
  intros Ho E Hk. assert (J : ¬ is_jump k ∨ is_jump k) by (destruct k; simpl; auto). destruct J as [J|J]; [by destruct k; simpl in *|].
  pose proof (proj1 (proj2 (proj2 (proj2 exec_escapes))) _ _ E J) as He. rewrite forallb_forall in Ho.
  apply list_elem_of_In, Ho in He. by apply bool_decide_eq_true in He.
Qed.

Lemma exec_alwaysReturns :
  (∀ s k, exec s k → alwaysReturns1 unions s = true → unlabeled s = true → k ≠ CNormal) ∧
  (∀ c k1 k2, caught c k1 k2 → k1 ≠ CNormal → returns c = true → opt_unlabeled c = true → k2 ≠ CNormal) ∧
  (∀ f k1 k2, finalized f k1 k2 → opt_unlabeled f = true → k1 ≠ CNormal ∨ (∃ g, f = Some g ∧ alwaysReturns unions g = true) → k2 ≠ CNormal) ∧
  (∀ ss k, execs ss k → alwaysReturns unions ss = true → forallb unlabeled ss = true → k ≠ CNormal) ∧
  (∀ (c : option FlowExpr) (body : list FlowStmt) (u : option simple) (ls : list string) (k : completion), looped c body u ls k → True).
Proof.
  apply (exec_all_ind misses); intros *; simpl; fold (alwaysReturns unions); unfold returns, opt_unlabeled; try done;
    try (intros; by apply abrupt_not_normal); try (by destruct (alwaysReturns unions _)).
  - (* plain *) destruct 1 as [|e r Hr]; [done|]. destruct e; try done. by destruct r.
  - intros _ _ IH. destruct e as [e|]; [|done]. intros [H1 _]%andb_true_iff [H2 _]%andb_true_iff. by apply IH.
  - intros _ _ IH [_ H1]%andb_true_iff [_ H2]%andb_true_iff. by apply IH.
  - (* while *) intros L _ [H1 H2]%andb_true_iff [_ H3]%andb_true_iff. eapply looped_endless; [exact L|done|]. unfold no_break. by rewrite H2, H3.
  - (* do-while, left *) intros E IH L H [[H2 H3]%andb_true_iff H4]%andb_true_iff. destruct (is_true_lit c && negb (containsBreak body)) eqn:T.
    + apply andb_true_iff in T as [_ T]. eapply no_break_leave; [|exact E|exact L]. unfold no_break. by rewrite T, H3.
    + rewrite orb_false_r in H. simpl in H4. pose proof (IH H H2) as Hk. pose proof (free_leave _ _ _ H4 E Hk). congruence.
  - (* do-while, at its test *) intros E IH L Lo _ H [[H2 H3]%andb_true_iff H4]%andb_true_iff. destruct (is_true_lit c && negb (containsBreak body)) eqn:T.
    + apply andb_true_iff in T as [T1 T2]. eapply looped_endless; [exact Lo|done|]. unfold no_break. by rewrite T2, H3.
    + rewrite orb_false_r in H. simpl in H4. pose proof (IH H H2) as Hk. pose proof (free_leave _ _ _ H4 E Hk). congruence.
  - (* for *) intros _ L _ [H1 H2]%andb_true_iff [_ H3]%andb_true_iff. eapply looped_endless; [exact L|done|]. unfold no_break. by rewrite H2, H3.
  - (* switch *) intros _ Hi E IH [[_ Hb]%andb_true_iff He]%andb_true_iff [H1 H2]%andb_true_iff. apply negb_true_iff in Hb.
    eapply switch_leave_normal; [done..|]. apply IH; [by apply every_entry_at|by apply concat_unlabeled].
  - (* switch, missed *) intros _ Hd Hm [[He _]%andb_true_iff _]%andb_true_iff _. rewrite Hd in He. simpl in He. unfold exhaustive in He.
    destruct d; rewrite ?andb_false_r in He; try done. apply andb_true_iff in He as [_ [[E1 E2]%andb_true_iff E3]%andb_true_iff].
    apply Nat.eqb_eq in E1, E2. destruct (unions !! unionId) as [arms|] eqn:U; [|done]. apply Nat.leb_le in E3. rewrite <- E1 in E2, E3.
    by destruct (covered _ _ _ U E2 E3).
  - (* block *) intros E IH H1 [H2 H3]%andb_true_iff. eapply block_leave_normal; [done|exact E|]. by apply IH.
  - (* throw *) intros _ _ _. by destruct r.
  - (* try *) intros _ IH1 _ IH2 _ IH3 H [[U1 U2]%andb_true_iff U3]%andb_true_iff. apply IH3; [by destruct f|].
    apply orb_true_iff in H as [[H1 H2]%andb_true_iff|H].
    + left. apply IH2; [by apply IH1|by destruct c|by destruct c].
    + right. destruct f as [g|]; [by exists g|done].
  - intros _ [?|(? & ? & ?)]; done.
  - intros _ _ IH U [H|(g & [= <-] & Hg)]; [done|]. by destruct (IH Hg U).
  - (* execs, next *) intros _ IH1 _ IH2 [H|H]%orb_true_iff [U1 U2]%andb_true_iff; [by destruct (IH1 H U1)|by apply IH2].
Qed.
End sound.

(** ** Jumps have targets *)

(** What may leave a statement checked in a state. *)
Definition allowed (j : jump_state) (k : completion) : Prop :=
  match k with
  | CBreak None => (0 < breakableDepth j)%nat ∧ ∀ r, head (finallyRegions j) = Some r → (r_breakableDepth r < breakableDepth j)%nat
  | CContinue None => (0 < loopDepth j)%nat ∧ ∀ r, head (finallyRegions j) = Some r → (r_loopDepth r < loopDepth j)%nat
  | CBreak (Some l) => ∃ t i, labelTargetOf l (labelTargets j) = Some (t, i) ∧ ∀ r, head (finallyRegions j) = Some r → (r_labelLen r <= i)%nat
  | CContinue (Some l) => ∃ i, labelTargetOf l (labelTargets j) = Some (TLoop, i) ∧ ∀ r, head (finallyRegions j) = Some r → (r_labelLen r <= i)%nat
  | CReturn => finallyBlockDepth j = 0%nat
  | _ => True
  end.

Lemma labelTargetOf_lt l ts t i : labelTargetOf l ts = Some (t, i) → (i < length ts)%nat.
Proof.
  induction ts as [|[t' ls] ts IH]; simpl; [done|]. case_bool_decide; [intros [= _ <-]; lia|]. intros E. apply IH in E. lia.
Qed.

Lemma check_break_allowed l j : check_break l j = [] → allowed j (CBreak l).
Proof.
  unfold check_break. destruct l as [l|]; simpl.
  - destruct (labelTargetOf l (labelTargets j)) as [[t i]|]; [|done]. intros E. exists t, i. split; [done|]. intros r Hr. rewrite Hr in E. simpl in E.
    destruct (i <? r_labelLen r)%nat eqn:Q; [done|]. by apply Nat.ltb_ge in Q.
  - intros [E1 E2]%app_eq_nil. destruct (breakableDepth j =? 0)%nat eqn:Q; [done|]. apply Nat.eqb_neq in Q. split; [lia|]. intros r Hr. rewrite Hr in E2.
    destruct (breakableDepth j <=? r_breakableDepth r)%nat eqn:Q2; [done|]. by apply Nat.leb_gt in Q2.
Qed.

Lemma check_continue_allowed l j : check_continue l j = [] → allowed j (CContinue l).
Proof.
  unfold check_continue. destruct l as [l|]; simpl.
  - destruct (labelTargetOf l (labelTargets j)) as [[[] i]|]; try done. intros E. exists i. split; [done|]. intros r Hr. rewrite Hr in E. simpl in E.
    destruct (i <? r_labelLen r)%nat eqn:Q; [done|]. by apply Nat.ltb_ge in Q.
  - intros [E1 E2]%app_eq_nil. destruct (loopDepth j =? 0)%nat eqn:Q; [done|]. apply Nat.eqb_neq in Q. split; [lia|]. intros r Hr. rewrite Hr in E2.
    destruct (loopDepth j <=? r_loopDepth r)%nat eqn:Q2; [done|]. by apply Nat.leb_gt in Q2.
Qed.

(** Leaving a loop, a switch, a block. *)
Lemma allowed_loop ls j k k' : allowed (in_loop ls j) k → loop_leave ls k = Some k' → allowed j k'.
Proof.
  destruct k as [|[l|]|[l|]| | |]; simpl; try case_bool_decide; intros HA E; simplify_eq; try done.
Qed.
Lemma allowed_switch ls j k : allowed (in_switch ls j) k → allowed j (switch_leave ls k).
Proof.
  destruct k as [|[l|]|[l|]| | |]; simpl; try case_bool_decide; try done.
  by intros (i & ? & _).
Qed.
Lemma allowed_block ls j k : allowed (in_block ls j) k → allowed j (block_leave ls k).
Proof.
  destruct k as [|[l|]|[l|]| | |]; simpl; try case_bool_decide; try done.
  by intros (i & ? & _).
Qed.
(** Nothing jumps out of a guarded statement, nor returns from a finally. *)
Lemma allowed_guarded j k : allowed (in_guarded j) k → ¬ is_jump k ∧ allowed j k.
Proof.
  destruct k as [|[l|]|[l|]| | |]; simpl; try (by split; [intros []|]).
  - intros (t & i & E & H). apply labelTargetOf_lt in E as L. specialize (H _ eq_refl). simpl in H. lia.
  - intros (_ & H). specialize (H _ eq_refl). simpl in H. lia.
  - intros (i & E & H). apply labelTargetOf_lt in E as L. specialize (H _ eq_refl). simpl in H. lia.
  - intros (_ & H). specialize (H _ eq_refl). simpl in H. lia.
Qed.
Lemma allowed_finally j k : allowed (in_finally (in_guarded j)) k → ¬ is_jump k ∧ k ≠ CReturn ∧ allowed j k.
Proof.
  intros H. assert (Hg : k ≠ CReturn ∧ allowed (in_guarded j) k) by (destruct k as [|[]|[]| | |]; simpl in *; done).
  destruct Hg as [Hr Hg]. by apply allowed_guarded in Hg as [? ?].
Qed.

Definition check_opt (b : option (list FlowStmt)) (j : jump_state) : list string := match b with Some ss => checkStmts ss j | None => [] end.
Definition guarded (f : option (list FlowStmt)) (j : jump_state) : jump_state := match f with Some _ => in_guarded j | None => j end.

Lemma checkStmt_try t c f j : checkStmt (tryCatch t c f) j = [] →
  checkStmts t (guarded f j) = [] ∧ check_opt c (guarded f j) = [] ∧ check_opt f (in_finally (guarded f j)) = [].
Proof. simpl. intros [_ H]%app_eq_nil. apply app_eq_nil in H as [H1 H]. by apply app_eq_nil in H as [H2 H3]. Qed.

Lemma flat_map_nil {A B} (f : A → list B) l x : flat_map f l = [] → x ∈ l → f x = [].
Proof. induction l as [|y l IH]; simpl; [by intros _ ?%not_elem_of_nil|]. intros [E1 E2]%app_eq_nil [->|H]%elem_of_cons; auto. Qed.

Section jumps.
Context (misses : string → list string → Prop).

Lemma allowed_done j r : allowed j (done_of r).
Proof. by destruct r. Qed.
Lemma allowed_opt j s k : exec_opt s k → allowed j k.
Proof. destruct s as [s|]; simpl; [|by intros ->]. destruct 1; apply allowed_done. Qed.

Lemma exec_allowed :
  (∀ s k, exec misses s k → ∀ j, checkStmt s j = [] → allowed j k) ∧
  (∀ c k1 k2, caught misses c k1 k2 → ∀ j, check_opt c j = [] → allowed j k1 → allowed j k2) ∧
  (∀ f k1 k2, finalized misses f k1 k2 → ∀ j, check_opt f (in_finally (guarded f j)) = [] → allowed (guarded f j) k1 → allowed j k2) ∧
  (∀ ss k, execs misses ss k → ∀ j, checkStmts ss j = [] → allowed j k) ∧
  (∀ (c : option FlowExpr) body (u : option simple) ls k, looped misses c body u ls k → ∀ j, checkStmts body (in_loop ls j) = [] → allowed j k).
Proof.
  apply (exec_all_ind misses); try done; try (intros; apply allowed_done); try (intros; by eapply allowed_opt).
  - intros s k H j _. destruct H; apply allowed_done.
  - intros c t e k _ _ IH j [H _]%app_eq_nil. by apply IH.
  - intros c t e k _ _ IH j [_ H]%app_eq_nil. by apply IH.
  - intros body c ls k k' _ IH L j H. eapply allowed_loop; [by apply IH|done].
  - intros d cs ls i k t _ _ _ IH j [H _]%app_eq_nil. apply allowed_switch, IH. unfold checkStmts.
    rewrite (flat_map_concat_map). apply concat_nil_Forall, List.Forall_forall. intros x (y & <- & Hy)%in_map_iff.
    apply list_elem_of_In, concat_drop_in in Hy as (c & Hc & Hy). by eapply flat_map_nil in H; [|exact Hc]; eapply flat_map_nil in H; [|exact Hy].
  - intros [e|] H j E; simpl in E; [|]; destruct (0 <? finallyBlockDepth j)%nat eqn:Q; try done; apply Nat.ltb_ge in Q; simpl; lia.
  - intros l j. apply check_break_allowed.
  - intros l j. apply check_continue_allowed.
  - intros body ls k _ IH j H. apply allowed_block. by apply IH.
  - intros e r _ j _. by destruct r.
  - intros t c f k1 k2 k3 _ IH1 _ IH2 _ IH3 j H. apply checkStmt_try in H as (H1 & H2 & H3). apply IH3; [done|]. apply IH2; [done|]. by apply IH1.
  - intros c k _ IH j H _. by apply IH.
  - intros f k _ _ _ j _ H. by apply allowed_guarded in H as [_ H].
  - intros f k k' _ _ IH _ j H _. by apply IH, allowed_finally in H as (_ & _ & H).
  - intros s ss k _ _ _ IH j [_ H]%app_eq_nil. by apply IH.
  - intros s ss k _ IH _ j [H _]%app_eq_nil. by apply IH.
  - intros c body u ls k k' _ _ IH L j H. eapply allowed_loop; [by apply IH|done].
Qed.
End jumps.

(** ** What the validator guarantees of a function body *)

(** A body the flow checks accept never completes by a break or a
    continue: every jump in it has found its target. *)
Theorem accepted_jumps_resolve misses unions returnsVoid body k :
  checkFlow unions returnsVoid body = [] → execs misses body k → ¬ is_jump k.
Proof.
  unfold checkFlow. intros [H _]%app_eq_nil E. pose proof (proj1 (proj2 (proj2 (proj2 (exec_allowed misses)))) _ _ E _ H) as A.
  destruct k as [|[l|]|[l|]| | |]; simpl in *; try (by intros []).
  - by destruct A as (? & ? & ? & _).
  - lia.
  - by destruct A as (? & ? & _).
  - lia.
Qed.

(** Wherever an accepted try statement stands, what it guards completes
    normally, by a throw, a return or the end of the program as its finally
    body sees it, and the finally body itself never returns or jumps away. *)
Theorem finally_sees misses j t c f k1 k2 k3 :
  checkStmt (tryCatch t c (Some f)) j = [] →
  execs misses t k1 → caught misses c k1 k2 → execs misses f k3 →
  ¬ is_jump k1 ∧ ¬ is_jump k2 ∧ ¬ is_jump k3 ∧ k3 ≠ CReturn.
Proof.
  intros (H1 & H2 & H3)%checkStmt_try E1 E2 E3. destruct (exec_allowed misses) as (_ & A2 & _ & A4 & _).
  pose proof (A4 _ _ E1 _ H1) as G1. pose proof (A2 _ _ _ E2 _ H2 G1) as G2. pose proof (A4 _ _ E3 _ H3) as G3.
  apply allowed_guarded in G1 as [? _], G2 as [? _]. by apply allowed_finally in G3 as (? & ? & _).
Qed.

(** C9. A body with a result type other than void that the flow checks accept
    never falls off its end, provided no labeled break leaves its own statement
    and no jump binds to a do-while that counts as returning by its body, and
    provided an exhaustive discriminant switch does not miss. *)
Theorem accepted_never_falls_off misses unions body k :
  (∀ u arms (ls : list string), unions !! u = Some arms → size (list_to_set ls : gset string) = length ls → (length arms <= length ls)%nat → ¬ misses u ls) →
  forallb unlabeled body = true → checkFlow unions false body = [] → execs misses body k → k = CReturn ∨ k = CThrow ∨ k = CExit.
Proof.
  intros Hc Hu H E. pose proof (accepted_jumps_resolve _ _ _ _ _ H E) as J. apply app_eq_nil in H as [_ H]. simpl in H.
  destruct (alwaysReturns unions body) eqn:R; [|done].
  pose proof (proj1 (proj2 (proj2 (proj2 (exec_alwaysReturns unions misses Hc)))) _ _ E R Hu) as N.
  destruct k; simpl in J; try done; auto; by destruct J.
Qed.

(** [do { if (c) break; return; } while (c)],
    [l: { if (c) break l; return; }] and
    [l: while (true) { while (true) { if (c) break l; } }] *)
Definition escaping_doWhile : list FlowStmt := [doWhile [if_ otherExpr [break_ None] None; return_ None] otherExpr []].
Definition escaping_block : list FlowStmt := [block [if_ otherExpr [break_ (Some "l")] None; return_ None] ["l"]].
Definition escaping_loop : list FlowStmt := [while_ (boolLit true) [while_ (boolLit true) [if_ otherExpr [break_ (Some "l")] None] []] ["l"]].

Lemma exec_if_break misses l : execs misses [if_ otherExpr [break_ l] None] (CBreak l).
Proof. apply E_stop; [|done]. apply X_then; [done|]. apply E_stop; [apply X_break|done]. Qed.

(** Without these conditions the checks accept bodies that fall off their
    end: a break out of a do-while, and labeled breaks out of a block or of an
    outer endless loop. *)
Theorem accepted_may_fall_off misses unions :
  (checkFlow unions false escaping_doWhile = [] ∧ execs misses escaping_doWhile CNormal) ∧
  (checkFlow unions false escaping_block = [] ∧ execs misses escaping_block CNormal) ∧
  (checkFlow unions false escaping_loop = [] ∧ execs misses escaping_loop CNormal).
Proof.
  split_and!; try reflexivity; (eapply E_next; [|apply E_nil]).
  - eapply (X_do_leave _ _ _ _ (CBreak None)); [|done]. apply E_stop; [|done]. apply X_then; [done|]. apply E_stop; [apply X_break|done].
  - change CNormal with (block_leave ["l"] (CBreak (Some "l"))). apply X_block. apply E_stop; [|done]. apply X_then; [done|]. apply E_stop; [apply X_break|done].
  - apply X_while. eapply (L_leave _ _ _ _ _ (CBreak (Some "l"))); [done| |done]. apply E_stop; [|done]. apply X_while.
    eapply (L_leave _ _ _ _ _ (CBreak (Some "l"))); [done|apply exec_if_break|done].
Qed.

(** *** Witnesses *)

(** [for (;;) { try { return } finally { } }] and a switch in a loop. *)
Definition sample_body : list FlowStmt :=
  [while_ otherExpr [switch otherExpr [(Some (numLit "1"), [continue_ None]); (None, [break_ None])] []] [];
   for_ None None None [tryCatch [if_ otherExpr [return_ None] None] None (Some [plain (exprStmt otherExpr)])] []].

Lemma sample_body_runs misses : execs misses sample_body CReturn.
Proof.
  eapply E_next; [apply X_while, L_done; done|]. apply E_stop; [|done]. apply X_for; [done|]. eapply (L_leave _ _ _ _ _ CReturn); [done| |done].
  apply E_stop; [|done]. apply (X_try _ _ _ _ CReturn CReturn); [|apply C_none|apply F_keep; [done|]].
  - apply E_stop; [|done]. apply X_then; [done|]. apply E_stop; [by apply X_return|done].
  - eapply E_next; [|apply E_nil]. by apply X_plain, (S_expr _ (RVal true)).
Qed.

Example accepted_jumps_resolve_witness : checkFlow ∅ false sample_body = [] ∧ execs (λ _ _, False) sample_body CReturn ∧ ¬ is_jump CReturn.
Proof.
  split; [reflexivity|]. split; [apply sample_body_runs|]. apply (accepted_jumps_resolve (λ _ _, False) ∅ false sample_body CReturn); [reflexivity|apply sample_body_runs].
Defined.

Example accepted_never_falls_off_witness : ¬ execs (λ _ _, False) sample_body CNormal.
Proof.
  intros E. destruct (accepted_never_falls_off (λ _ _, False) ∅ sample_body CNormal) as [H|[H|H]]; [done|reflexivity|reflexivity|exact E|discriminate H..].
Defined.

Example finally_sees_witness : ¬ is_jump CReturn.
Proof.
  apply (finally_sees (λ _ _, False) no_jumps [return_ None] None [plain (exprStmt otherExpr)] CReturn CReturn CNormal); [reflexivity| |apply C_none|].
  - apply E_stop; [by apply X_return|done].
  - eapply E_next; [|apply E_nil]. by apply X_plain, (S_expr _ (RVal true)).
Defined.
