(* ===== verification/ValidateModule.v ===== *)
(** * The IR validator: the module

    What [validateModule] of src/packages/compiler/src/ir/validate.ts demands of
    a module around its function bodies: names, library exports, the class
    hierarchy and its layouts, record shapes, unions, globals, and that no slot
    names an undeclared class.  A violation is its message; messages come in
    the order of the code.  The locations they carry are left out. *)

From Stdlib Require Import Sorted.
From S2P Require Import Prelude TypeKey VisitWalk TypeDomains.

#[local] Open Scope string_scope.

(** ** The module *)

Record FnHead := mkFnHead { fn_name : string; fn_async : bool; fn_generator : bool; fn_captures : bool; fn_params : list IrType; fn_returnType : IrType }.
Record FfiImport := mkFfi { ffi_name : string; ffi_symbol : string }.
Record LibExport := mkLibExport { le_symbol : string; le_fnName : string; le_params : list string; le_returns : string }.
Record IrClassDef := mkClass {
  c_name : string;
  c_fields : list (string * IrType);
  c_methods : list string;
  c_abstractMethods : list string;
  c_base : option string;
  c_genericOf : option string }.
Record IrGlobal := mkGlobal { g_id : string; g_name : string; g_type : IrType }.
Record ModuleHead := mkModuleHead {
  m_entry : string;
  m_functions : list FnHead;
  m_ffiImports : list FfiImport;
  m_lib : option (list LibExport);
  m_classes : list IrClassDef;
  m_records : list (string * IrRecordShape);
  m_unions : list (string * list IrType);
  m_globals : list IrGlobal }.

(** [new Map(xs.map((x) => [key(x), x]))]: a later entry replaces an earlier. *)
Definition map_by {A} (key : A → string) (xs : list A) : gmap string A := fold_left (λ m x, <[key x := x]> m) xs ∅.
(** [if (c) errors.push(msg)] *)
Definition err_if (c : bool) (msg : string) : list string := if c then [msg] else [].
(** A loop that reports entries whose key an earlier one had, and what [more]
    finds in each. *)
Fixpoint each_once {A} (key : A → string) (dup : A → string) (more : A → list string) (seen : gset string) (xs : list A) : list string :=
  match xs with
  | [] => []
  | x :: xs => (err_if (bool_decide (key x ∈ seen)) (dup x) ++ more x ++ each_once key dup more ({[key x]} ∪ seen) xs)%list
  end.

Definition kind_name (t : IrType) : string :=
  match t with
  | Prim p => match p with KundefinedT => "undefinedT" | KnullT => "nullT" | _ => prim_key p end
  | Array _ => "array" | Bytes _ => "bytes" | MapT _ _ => "map" | SetT _ => "set" | Func _ _ _ _ => "func" | Object_ _ => "object"
  | Classval _ => "classval" | Record_ _ => "record" | Union_ _ => "union" | Promise_ _ => "promise" | Generator _ _ _ => "generator"
  end.

Section module.
Context (m : ModuleHead).

Definition functionsByName : gmap string FnHead := map_by fn_name (m_functions m).
Definition classesByName : gmap string IrClassDef := map_by c_name (m_classes m).
Definition recordsById : gmap string IrRecordShape := snd <$> map_by fst (m_records m).
Definition unionsById : gmap string (list IrType) := snd <$> map_by fst (m_unions m).

(** ** Functions, foreign functions, library exports *)

Definition function_errors : list string :=
  each_once fn_name (λ fn, "duplicate function " +:+ quoted (fn_name fn))
    (λ fn, err_if (fn_async fn && fn_generator fn) ("function " +:+ quoted (fn_name fn) +:+ " is both async and a generator (async generators are fenced)"))
    ∅ (m_functions m).

Fixpoint ffi_errors (names symbols : gset string) (es : list FfiImport) : list string :=
  match es with
  | [] => []
  | e :: es =>
      err_if (bool_decide (ffi_name e ∈ names)) ("duplicate FFI binding " +:+ quoted (ffi_name e)) ++
      err_if (bool_decide (ffi_symbol e ∈ symbols)) ("duplicate FFI symbol " +:+ quoted (ffi_symbol e)) ++
      ffi_errors ({[ffi_name e]} ∪ names) ({[ffi_symbol e]} ∪ symbols) es
  end%list.

Definition fits (cls : string) (t : IrType) : bool :=
  if String.eqb cls "bool" then match t with Prim Kbool => true | _ => false end
  else if String.eqb cls "string" then match t with Prim Kstring => true | _ => false end
  else if String.eqb cls "bytes" then match t with Bytes BU8 => true | _ => false end
  else match t with Prim Kf64 => true | _ => false end.

Definition export_errors (e : LibExport) : list string :=
  let what := "library export " +:+ quoted (le_symbol e) +:+ ": " in
  match functionsByName !! le_fnName e with
  | None => [what +:+ "missing function " +:+ quoted (le_fnName e)]
  | Some fn =>
      err_if (fn_async fn || fn_generator fn) (what +:+ quoted (le_fnName e) +:+ " is async/generator") ++
      err_if (fn_captures fn) (what +:+ quoted (le_fnName e) +:+ " captures an environment") ++
      (if negb (length (fn_params fn) =? length (le_params e))%nat then
         [what +:+ pretty (length (le_params e)) +:+ " marshalling classes over " +:+ pretty (length (fn_params fn)) +:+ " params"]
       else
         concat (imap (λ i p, err_if (negb (fits p.1 p.2)) (what +:+ "param " +:+ pretty i +:+ " class " +:+ quoted p.1 +:+ " over IR type " +:+ quoted (kind_name p.2)))
           (zip (le_params e) (fn_params fn))) ++
         err_if (if String.eqb (le_returns e) "void" then negb (is_void (fn_returnType fn)) else negb (fits (le_returns e) (fn_returnType fn)))
           (what +:+ "return class " +:+ quoted (le_returns e) +:+ " over IR type " +:+ quoted (kind_name (fn_returnType fn))))
  end%list.
Definition lib_errors : list string :=
  match m_lib m with
  | None => []
  | Some exports =>
      flat_map export_errors exports ++
      err_if (bool_decide (functionsByName !! m_entry m = None)) ("library module missing its entry function " +:+ quoted (m_entry m))
  end%list.

(** ** Classes *)

Definition method_fn (cls : IrClassDef) (name : string) : string := "%" +:+ c_name cls +:+ "." +:+ name.
Definition class_errors1 (cls : IrClassDef) : list string :=
  let what := "class " +:+ c_name cls +:+ ": " in
  (each_once fst (λ f, what +:+ "duplicate field " +:+ quoted f.1)
    (λ f, err_if (isUnitType f.2) (what +:+ "field " +:+ quoted f.1 +:+ " is " +:+ kind_name f.2)) ∅ (c_fields cls) ++
  flat_map (λ a,
    err_if (negb (bool_decide (a ∈ c_methods cls))) (what +:+ "abstract method " +:+ quoted a +:+ " not in methods") ++
    err_if (bool_decide (is_Some (functionsByName !! method_fn cls a))) (what +:+ "abstract method " +:+ quoted a +:+ " has a function")) (c_abstractMethods cls) ++
  flat_map (λ a,
    err_if (negb (bool_decide (a ∈ c_abstractMethods cls)) && bool_decide (functionsByName !! method_fn cls a = None))
      (what +:+ "missing method function " +:+ quoted a)) (c_methods cls))%list.
Definition class_errors : list string := each_once c_name (λ c, "duplicate class " +:+ quoted (c_name c)) class_errors1 ∅ (m_classes m).

Definition base_of (c : IrClassDef) : option IrClassDef := b ← c_base c; classesByName !! b.

(** The chain from [c] comes back to a class in [seen]: the walk that reports a
    cycle.  [None] when the fuel is used up. *)
Fixpoint chain_cyclic (fuel : nat) (seen : gset string) (c : option IrClassDef) : option bool :=
  match c with
  | None => Some false
  | Some c =>
      match fuel with
      | O => None
      | S fuel => if bool_decide (c_name c ∈ seen) then Some true else chain_cyclic fuel ({[c_name c]} ∪ seen) (base_of c)
      end
  end.

Definition fields_extend (cls base : IrClassDef) : bool :=
  (length (c_fields base) <=? length (c_fields cls))%nat &&
  forallb (λ p : (string * IrType) * (string * IrType), String.eqb p.1.1 p.2.1 && typeEquals p.1.2 p.2.2) (zip (c_fields cls) (c_fields base)).

Definition chain_fuel : nat := S (size classesByName).
Definition base_errors (cls : IrClassDef) : list string :=
  match c_base cls with
  | None => []
  | Some b =>
      let what := "class " +:+ c_name cls +:+ ": " in
      match classesByName !! b with
      | None => [what +:+ "undeclared base " +:+ quoted b]
      | Some base =>
          err_if (default true (chain_cyclic chain_fuel {[c_name cls]} (Some base))) (what +:+ "cyclic extends chain") ++
          err_if (negb (fields_extend cls base)) (what +:+ "fields are not a layout extension of base " +:+ quoted b)
      end
  end%list.

(** The chain from [c] meets [family] before it meets itself. *)
Fixpoint chain_has (fuel : nat) (family : string) (seen : gset string) (c : option IrClassDef) : option bool :=
  match c with
  | None => Some false
  | Some c =>
      match fuel with
      | O => None
      | S fuel =>
          if bool_decide (c_name c ∈ seen) then Some false
          else if String.eqb (c_name c) family then Some true
          else chain_has fuel family ({[c_name c]} ∪ seen) (base_of c)
      end
  end.
Definition generic_errors (cls : IrClassDef) : list string :=
  match c_genericOf cls with
  | None => []
  | Some g =>
      let what := "class " +:+ c_name cls +:+ ": " in
      match classesByName !! g with
      | None => [what +:+ "undeclared generic family " +:+ quoted g]
      | Some _ => err_if (negb (default false (chain_has chain_fuel g ∅ (base_of cls)))) (what +:+ "generic family " +:+ quoted g +:+ " is not an ancestor")
      end
  end.

(** ** Record shapes and unions *)

(** [names.sort()], by code units; on ASCII names the characters are the units. *)
Definition str_leb (a b : string) : bool := match String.compare a b with Gt => false | _ => true end.
Fixpoint insert_name (x : string) (xs : list string) : list string :=
  match xs with [] => [x] | y :: ys => if str_leb x y then x :: xs else y :: insert_name x ys end.
Definition sort_names (xs : list string) : list string := foldr insert_name [] xs.

Definition record_errors1 (r : string * IrRecordShape) : list string :=
  let what := "record " +:+ r.1 +:+ ": " in
  let fs := fields r.2 in
  (each_once f_name (λ f, what +:+ "duplicate field " +:+ quoted (f_name f))
    (λ f,
      err_if (is_void (f_type f) || is_jsval (f_type f) || isUnitType (f_type f)) (what +:+ "field " +:+ quoted (f_name f) +:+ " is " +:+ kind_name (f_type f)) ++
      match f_type f with
      | Record_ id => err_if (negb (bool_decide (id ∈ map fst (m_records m)))) (what +:+ "field " +:+ quoted (f_name f) +:+ " references undeclared shape " +:+ quoted id)
      | _ => []
      end) ∅ fs ++
  err_if (negb (bool_decide (map f_name fs = sort_names (map f_name fs)))) (what +:+ "fields are not in canonical (sorted) order") ++
  (if tuple r.2 then
     let names : gset string := list_to_set (map f_name fs) in
     err_if ((length fs =? 0)%nat || negb (size names =? length fs)%nat || existsb (λ i, negb (bool_decide (pretty i ∈ names))) (seq 0 (length fs)))
       (what +:+ "tuple fields are not " +:+ quoted "0" +:+ ".." +:+ quoted (pretty (Z.of_nat (length fs) - 1))) ++
     err_if (bool_decide (is_Some (indexValue r.2))) (what +:+ "a tuple cannot carry an index signature")
   else []) ++
  match indexValue r.2 with
  | Some t => err_if (negb (isSupportedIndexValue t)) (what +:+ "index-signature value type " +:+ kind_name t +:+ " is unsupported")
  | None => []
  end)%list.
Definition record_errors : list string := each_once fst (λ r, "duplicate record shape " +:+ quoted r.1) record_errors1 ∅ (m_records m).

Definition bad_arm (t : IrType) : bool :=
  match t with Prim Kvoid | Union_ _ | MapT _ _ | Prim Kdyn | Prim Kjsval | Generator _ _ _ => true | _ => false end.
Definition func_or_set (t : IrType) : bool := match t with Func _ _ _ _ | SetT _ => true | _ => false end.
(** [arms[j]] for j from [i] on that equal [arm]. *)
Definition same_arms (what : string) (i : nat) (arm : IrType) (rest : list IrType) : list string :=
  concat (imap (λ d b, err_if (typeEquals arm b) (what +:+ "arms " +:+ pretty i +:+ " and " +:+ pretty (S i + d)%nat +:+ " are identical")) rest).
Fixpoint arm_errors (what : string) (all : list IrType) (i : nat) (arms : list IrType) : list string :=
  match arms with
  | [] => []
  | arm :: rest =>
      err_if (bad_arm arm) (what +:+ "arm " +:+ pretty i +:+ " is " +:+ kind_name arm) ++
      err_if (func_or_set arm && negb (unionFuncSetArmsOk all)) (what +:+ kind_name arm +:+ " arm " +:+ pretty i +:+ " beside non-unit arms") ++
      match arm with
      | Record_ id => err_if (bool_decide (recordsById !! id = None)) (what +:+ "arm " +:+ pretty i +:+ " references undeclared shape " +:+ quoted id)
      | _ => []
      end ++
      same_arms what i arm rest ++ arm_errors what all (S i) rest
  end%list.
Definition union_errors1 (u : string * list IrType) : list string :=
  let what := "union " +:+ u.1 +:+ ": " in
  (err_if (length u.2 <? 2)%nat (what +:+ "fewer than 2 arms") ++ arm_errors what u.2 0 u.2)%list.
Definition union_errors : list string := each_once fst (λ u, "duplicate union " +:+ quoted u.1) union_errors1 ∅ (m_unions m).

(** ** Slots that name undeclared classes

    The answer is the undeclared name.  The code tells an answer from none by
    its truth value, which is the same for every class name but the empty one,
    and no class has that. *)

(** The first answer over a list, with the visited set; [None] when the fuel is
    used up. *)
Fixpoint first_name {X} (p : X → gset string → option (option string * gset string)) (xs : list X) (v : gset string) : option (option string * gset string) :=
  match xs with
  | [] => Some (None, v)
  | x :: xs => match p x v with Some (None, v) => first_name p xs v | r => r end
  end.
Fixpoint namesUndeclared (fuel : nat) (t : IrType) (seen : gset string) : option (option string * gset string) :=
  match fuel with
  | O => None
  | S fuel =>
      match t with
      | Object_ className => Some (if bool_decide (classesByName !! className = None) then Some className else None, seen)
      | Array elem | SetT elem => namesUndeclared fuel elem seen
      | MapT key value => first_name (namesUndeclared fuel) [key; value] seen
      | Promise_ inner => namesUndeclared fuel inner seen
      | Generator yieldT retT nextT => first_name (namesUndeclared fuel) [yieldT; retT; nextT] seen
      | Func params ret _ _ => first_name (namesUndeclared fuel) (params ++ [ret])%list seen
      | Record_ shapeId =>
          if bool_decide (shapeId ∈ seen) then Some (None, seen)
          else
            match recordsById !! shapeId with
            | None => Some (None, {[shapeId]} ∪ seen)
            | Some rec => first_name (namesUndeclared fuel) ((match indexValue rec with Some t => [t] | None => [] end) ++ map f_type (fields rec))%list ({[shapeId]} ∪ seen)
            end
      | Union_ unionId =>
          if bool_decide (unionId ∈ seen) then Some (None, seen)
          else
            match unionsById !! unionId with
            | None => Some (None, {[unionId]} ∪ seen)
            | Some arms => first_name (namesUndeclared fuel) arms ({[unionId]} ∪ seen)
            end
      | _ => Some (None, seen)
      end
  end.

(** The nesting of a type, and the deepest of the registries. *)
Fixpoint type_depth (t : IrType) : nat :=
  match t with
  | Array e | SetT e | Promise_ e => S (type_depth e)
  | MapT k v => S (type_depth k + type_depth v)
  | Generator y r n => S (type_depth y + type_depth r + type_depth n)
  | Func ps r _ _ => S (list_sum (map type_depth ps) + type_depth r)
  | _ => O
  end.
Definition module_depth : nat :=
  (list_sum (map (λ r : string * IrRecordShape, list_sum (map (λ f, type_depth (f_type f)) (fields r.2)) + match indexValue r.2 with Some t => type_depth t | None => 0 end) (m_records m)) +
   list_sum (map (λ u : string * list IrType, list_sum (map type_depth u.2)) (m_unions m)))%nat.
Definition names_fuel (t : IrType) : nat := (S (length (m_records m) + length (m_unions m)) * (2 + module_depth) + 2 + type_depth t)%nat.
Definition undeclared (t : IrType) : option string := match namesUndeclared (names_fuel t) t ∅ with Some (r, _) => r | None => None end.

(** ** Globals and class fields *)

Definition global_errors : list string :=
  flat_map (λ g,
    err_if (isUnitType (g_type g)) ("global " +:+ quoted (g_name g) +:+ " has bare unit type " +:+ kind_name (g_type g)) ++
    err_if (negb (String.prefix "%g." (g_id g))) ("global " +:+ quoted (g_name g) +:+ " id " +:+ quoted (g_id g) +:+ " outside the %g. namespace") ++
    match undeclared (g_type g) with Some c => ["global " +:+ quoted (g_name g) +:+ " names undeclared class " +:+ quoted c] | None => [] end)%list (m_globals m).
Definition class_field_errors : list string :=
  flat_map (λ cls, flat_map (λ f : string * IrType,
    match undeclared f.2 with Some c => ["class " +:+ c_name cls +:+ ": field " +:+ quoted f.1 +:+ " names undeclared class " +:+ quoted c] | None => [] end) (c_fields cls)) (m_classes m).

Definition validateModule : list string :=
  (function_errors ++ ffi_errors ∅ ∅ (m_ffiImports m) ++ lib_errors ++ class_errors ++ flat_map base_errors (m_classes m) ++
   flat_map generic_errors (m_classes m) ++ record_errors ++ union_errors ++ global_errors ++ class_field_errors)%list.
End module.

(** ** What the loops report *)

Lemma err_if_nil c msg : err_if c msg = [] ↔ c = false.
Proof. by destruct c. Qed.

Lemma app_nil_iff {A} (xs ys : list A) : (xs ++ ys)%list = [] ↔ xs = [] ∧ ys = [].
Proof. split; [apply app_eq_nil|by intros [-> ->]]. Qed.

Lemma flat_map_nil_iff {A B} (f : A → list B) xs : flat_map f xs = [] ↔ ∀ x, x ∈ xs → f x = [].
Proof.
  induction xs as [|x xs IH]; simpl; [split; [intros _ x Hx; by apply not_elem_of_nil in Hx|done]|]. rewrite app_nil_iff, IH. split.
  - intros [E H] y [->|Hy]%elem_of_cons; auto.
  - intros H. split; [apply H; left|]. intros y Hy. apply H. by right.
Qed.

(** Nothing is reported exactly when keys are new and distinct and no entry has
    an error of its own. *)
Lemma each_once_nil {A} (key : A → string) dup more (xs : list A) : ∀ seen, each_once key dup more seen xs = [] ↔
  NoDup (map key xs) ∧ (∀ x, x ∈ xs → key x ∉ seen) ∧ ∀ x, x ∈ xs → more x = [].
Proof.
  induction xs as [|x xs IH]; intros seen; simpl.
  - split; [|done]. intros _. split; [constructor|]. split; intros x Hx; by apply not_elem_of_nil in Hx.
  - rewrite !app_nil_iff, err_if_nil, bool_decide_eq_false, IH, NoDup_cons, list_elem_of_fmap. split.
    + intros (Hn & Hm & Hd & Hs & Ha). split_and!; [|done|..].
      * intros (y & E & Hy). apply (Hs y Hy). rewrite E. set_solver.
      * intros y [->|Hy]%elem_of_cons; [done|]. specialize (Hs y Hy). set_solver.
      * intros y [->|Hy]%elem_of_cons; auto.
    + intros ((Hx & Hd) & Hs & Ha). split_and!; [apply Hs; left|apply Ha; left|done|..].
      * intros y Hy. assert (key y ≠ key x) by (intros E; apply Hx; exists y; by rewrite E). assert (key y ∉ seen) by (apply Hs; by right). set_solver.
      * intros y Hy. apply Ha. by right.
Qed.

Lemma map_by_app {A} (key : A → string) (xs : list A) x : map_by key (xs ++ [x])%list = <[key x := x]> (map_by key xs).
Proof. unfold map_by. by rewrite fold_left_app. Qed.

Lemma map_by_some {A} (key : A → string) (xs : list A) k x : map_by key xs !! k = Some x → x ∈ xs ∧ key x = k.
Proof.
  induction xs as [|y xs IH] using rev_ind; [unfold map_by; simpl; by rewrite lookup_empty|]. rewrite map_by_app, elem_of_app, list_elem_of_singleton.
  intros [[<- <-]|[_ H]]%lookup_insert_Some; [auto|]. apply IH in H as [? ?]. auto.
Qed.

Lemma map_by_in {A} (key : A → string) (xs : list A) x : x ∈ xs → is_Some (map_by key xs !! key x).
Proof.
  induction xs as [|y xs IH] using rev_ind; [by intros ?%not_elem_of_nil|]. rewrite map_by_app, elem_of_app, list_elem_of_singleton.
  intros [H| ->]; [|rewrite lookup_insert_eq; by eexists]. rewrite lookup_insert_is_Some'. right. by apply IH.
Qed.

Lemma map_by_lookup {A} (key : A → string) (xs : list A) k x : NoDup (map key xs) → map_by key xs !! k = Some x ↔ x ∈ xs ∧ key x = k.
Proof.
  intros Hd. split; [apply map_by_some|]. intros [Hx <-]. destruct (map_by_in key xs x Hx) as [y Hy]. rewrite Hy. f_equal.
  apply map_by_some in Hy as [Hy E]. apply list_elem_of_lookup in Hx as [i Hi], Hy as [j Hj].
  assert (i = j) as -> by (eapply (NoDup_lookup (map key xs)); [done|by rewrite list_lookup_fmap, Hi|rewrite list_lookup_fmap, Hj; simpl; by rewrite E]).
  congruence.
Qed.

Lemma map_by_size {A} (key : A → string) (xs : list A) : (size (map_by key xs) <= length xs)%nat.
Proof.
  induction xs as [|x xs IH] using rev_ind; [unfold map_by; simpl; by rewrite map_size_empty|]. rewrite map_by_app, length_app. simpl.
  destruct (map_by key xs !! key x) eqn:E; [rewrite (map_size_insert_Some _ _ _ ltac:(by rewrite E))|rewrite map_size_insert_None by done]; lia.
Qed.

(** ** The hierarchy *)

Section classes.
Context (m : ModuleHead).
Notation base_of := (base_of m).
Notation classesByName := (classesByName m).

(** The chain above a class has [n] classes. *)
Inductive Chain : option IrClassDef → nat → Prop :=
  | Chain_end : Chain None 0
  | Chain_step c n : Chain (base_of c) n → Chain (Some c) (S n).

Definition named (c : option IrClassDef) : Prop := ∀ k, c = Some k → classesByName !! c_name k = Some k.
Lemma base_named c : named (base_of c).
Proof.
  intros k. unfold base_of. destruct (c_base c) as [b|]; [|done]. simpl. intros H. pose proof (map_by_some _ _ _ _ H) as [_ <-]. done.
Qed.

(** Enough fuel: the walk always answers. *)
Lemma chain_cyclic_total fuel : ∀ seen c, named c → seen ⊆ dom classesByName → (size classesByName < fuel + size seen)%nat → is_Some (chain_cyclic m fuel seen c).
Proof.
  induction fuel as [|fuel IH]; intros seen [c|] Hc Hs Hf; try by eexists.
  - apply subseteq_size in Hs. rewrite size_dom in Hs. lia.
  - cbn [chain_cyclic]. case_bool_decide as D; [by eexists|]. apply IH; [apply base_named| |].
    + specialize (Hc c eq_refl). apply elem_of_dom_2 in Hc. set_solver.
    + rewrite size_union, size_singleton by set_solver. lia.
Qed.

Lemma chain_cyclic_false fuel : ∀ seen c, named c → seen ⊆ dom classesByName → chain_cyclic m fuel seen c = Some false →
  ∃ n, Chain c n ∧ (n + size seen <= size classesByName)%nat.
Proof.
  induction fuel as [|fuel IH]; intros seen [c|] Hc Hs H; try done.
  - exists 0%nat. split; [constructor|]. apply subseteq_size in Hs. by rewrite size_dom in Hs.
  - cbn [chain_cyclic] in H. case_bool_decide as D; [done|]. specialize (Hc c eq_refl). apply elem_of_dom_2 in Hc.
    destruct (IH ({[c_name c]} ∪ seen) (base_of c)) as (n & Hn & L); [apply base_named|set_solver|done|].
    exists (S n). split; [by constructor|]. rewrite size_union, size_singleton in L by set_solver. lia.
  - exists 0%nat. split; [constructor|]. apply subseteq_size in Hs. by rewrite size_dom in Hs.
Qed.

Lemma Chain_fun c n n' : Chain c n → Chain c n' → n = n'.
Proof. intros H. revert n'. induction H; intros n' H'; inversion H'; subst; auto. Qed.

(** The number of classes above a class. *)
Fixpoint chain_length (fuel : nat) (c : option IrClassDef) : nat :=
  match fuel, c with S fuel, Some c => S (chain_length fuel (base_of c)) | _, _ => 0%nat end.
Lemma chain_length_Chain fuel : ∀ c n, Chain c n → (n <= fuel)%nat → chain_length fuel c = n.
Proof. induction fuel as [|fuel IH]; intros c n H L; destruct H; simpl; try lia; auto. f_equal. apply IH; [done|lia]. Qed.
Definition class_rank (name : string) : nat := chain_length (size classesByName) (c ← classesByName !! name; base_of c).

Lemma chain_not_cyclic (rank : string → nat) fuel : ∀ seen c, named c →
  (∀ c b, classesByName !! c_name c = Some c → c_base c = Some b → is_Some (classesByName !! b) → (rank b < rank (c_name c))%nat) →
  (∀ k x, c = Some k → x ∈ seen → (rank (c_name k) < rank x)%nat) → chain_cyclic m fuel seen c ≠ Some true.
Proof.
  induction fuel as [|fuel IH]; intros seen [c|] Hc Hr Hs; try done. cbn [chain_cyclic]. case_bool_decide as D; [specialize (Hs c _ eq_refl D); lia|].
  apply IH; [apply base_named|done|]. intros k x Ek Hx. unfold base_of in Ek. destruct (c_base c) as [b|] eqn:Eb; [|done]. simpl in Ek.
  pose proof (map_by_some _ _ _ _ Ek) as [_ Hk]. specialize (Hr c b (Hc c eq_refl) Eb ltac:(by eexists)).
  rewrite Hk. apply elem_of_union in Hx as [->%elem_of_singleton|Hx]; [done|]. specialize (Hs c x eq_refl Hx). lia.
Qed.
End classes.

(** The fields of [c] start with those of [b]. *)
Definition slot (f : string * IrType) : string * IrType := (f.1, erase f.2).
Definition layout_extends (c b : IrClassDef) : Prop := ∃ extra, map slot (c_fields c) = (map slot (c_fields b) ++ extra)%list.

Lemma fields_extend_spec c b : fields_extend c b = true ↔ layout_extends c b.
Proof.
  unfold fields_extend, layout_extends. generalize (c_fields c) (c_fields b). intros fs gs. revert fs. induction gs as [|g gs IH]; intros fs.
  - split; [intros _; by exists (map slot fs)|]. intros _. by destruct fs.
  - destruct fs as [|f fs]; simpl; [split; [done|by intros [? [=]]]|]. rewrite andb_true_iff, Nat.leb_le, andb_true_iff, andb_true_iff, String.eqb_eq.
    rewrite (typeEquals_decided f.2 g.2). specialize (IH fs). rewrite andb_true_iff, Nat.leb_le in IH. split.
    + intros (L & [E1 E2] & Hz). destruct IH as [(extra & IH) _]; [split; [lia|done]|]. exists extra. by rewrite IH; unfold slot; rewrite E1, E2.
    + intros (extra & E). injection E as E1 E2 E. destruct IH as [_ IH]. destruct IH as [L Hz]; [by exists extra|]. split; [lia|done].
Qed.

Lemma layout_trans a b c : layout_extends a b → layout_extends b c → layout_extends a c.
Proof. intros [x Hx] [y Hy]. exists (y ++ x)%list. by rewrite Hx, Hy, app_assoc. Qed.

Section hierarchy.
Context (m : ModuleHead).
Notation base_of := (base_of m).

(** Every base is declared, a class ranks above its base, and keeps its layout. *)
Definition ranked_by (rank : string → nat) : Prop :=
  ∀ c b, c ∈ m_classes m → c_base c = Some b → ∃ base, base ∈ m_classes m ∧ c_name base = b ∧ (rank b < rank (c_name c))%nat ∧ layout_extends c base.

Lemma base_errors_nil c : c ∈ m_classes m → NoDup (map c_name (m_classes m)) → base_errors m c = [] →
  ∀ b, c_base c = Some b → ∃ base, base ∈ m_classes m ∧ c_name base = b ∧ (class_rank m b < class_rank m (c_name c) < size (classesByName m))%nat ∧ layout_extends c base.
Proof.
  intros Hc Hd H b Hb. unfold base_errors in H. rewrite Hb in H. destruct (classesByName m !! b) as [base|] eqn:Eb; [|done].
  apply app_nil_iff in H as [H1 H2]. rewrite err_if_nil in H1, H2. apply negb_false_iff, fields_extend_spec in H2.
  assert (Lc : classesByName m !! c_name c = Some c) by (by apply map_by_lookup).
  assert (Nb : named m (Some base)) by (intros k [= <-]; by rewrite (proj2 (map_by_some _ _ _ _ Eb))).
  assert (Sd : ({[c_name c]} : gset string) ⊆ dom (classesByName m)) by (apply elem_of_dom_2 in Lc; set_solver).
  destruct (chain_cyclic m (chain_fuel m) {[c_name c]} (Some base)) as [[]|] eqn:E; try done.
  apply chain_cyclic_false in E as (n & Hn & L); [|done..]. rewrite size_singleton in L.
  exists base. destruct (map_by_some _ _ _ _ Eb) as [Hin Hname]. split; [done|]. split; [done|]. split; [|done].
  inversion Hn as [|? n' Hn']; subst n. assert (Bc : base_of c = Some base) by (unfold base_of; by rewrite Hb).
  unfold class_rank. rewrite Eb, Lc. simpl. rewrite Bc.
  rewrite (chain_length_Chain m _ _ _ Hn') by lia. rewrite (chain_length_Chain m _ _ _ Hn) by lia. lia.
Qed.

Lemma base_errors_none rank c : NoDup (map c_name (m_classes m)) → ranked_by rank → c ∈ m_classes m → base_errors m c = [].
Proof.
  intros Hd Hr Hc. unfold base_errors. destruct (c_base c) as [b|] eqn:Hb; [|done]. destruct (Hr c b Hc Hb) as (base & Hin & Hname & L & Hx).
  assert (Eb : classesByName m !! b = Some base) by (by apply map_by_lookup). rewrite Eb.
  assert (Nb : named m (Some base)) by (intros k [= <-]; by rewrite Hname).
  assert (Lc : classesByName m !! c_name c = Some c) by (by apply map_by_lookup).
  assert (Sd : ({[c_name c]} : gset string) ⊆ dom (classesByName m)) by (apply elem_of_dom_2 in Lc; set_solver).
  destruct (chain_cyclic_total m (chain_fuel m) {[c_name c]} (Some base) Nb Sd) as [q Hq]; [unfold chain_fuel; rewrite size_singleton; lia|].
  assert (q = false) as ->.
  { destruct q; [|done]. exfalso. revert Hq. apply (chain_not_cyclic m rank); [done| |].
    - intros k d Lk Ek _. apply (map_by_some c_name) in Lk as [Lk _]. destruct (Hr k d Lk Ek) as (? & _ & _ & ? & _). lia.
    - intros k x [= <-] ->%elem_of_singleton. by rewrite Hname. }
  rewrite Hq. apply fields_extend_spec in Hx. by rewrite Hx.
Qed.

Lemma hierarchy_ranked : NoDup (map c_name (m_classes m)) → flat_map (base_errors m) (m_classes m) = [] → ∃ rank, ranked_by rank.
Proof.
  intros Hd H. rewrite flat_map_nil_iff in H. exists (class_rank m). intros c b Hc Hb.
  destruct (base_errors_nil c Hc Hd (H c Hc) b Hb) as (base & ? & ? & ? & ?). exists base. split_and!; auto. lia.
Qed.

(** C18. With distinct class names, the hierarchy checks report nothing exactly
    when every base is declared, no chain of bases comes back to itself and
    every class extends the layout of its base -- and then of every ancestor,
    which is what makes an upcast a reinterpretation. *)
Theorem hierarchy_exact :
  NoDup (map c_name (m_classes m)) →
  (flat_map (base_errors m) (m_classes m) = [] ↔ ∃ rank, ranked_by rank) ∧
  (flat_map (base_errors m) (m_classes m) = [] → ∀ c a, c ∈ m_classes m → rtc (λ x y, base_of x = Some y) c a → layout_extends c a).
Proof.
  intros Hd. split; [split|]; [by apply hierarchy_ranked|rewrite flat_map_nil_iff..].
  - intros [rank Hr] c Hc. by apply (base_errors_none rank).
  - intros H c a Hc Ha. induction Ha as [x|x y z Hxy _ IH]; [exists []; by rewrite app_nil_r|].
    unfold base_of in Hxy. destruct (c_base x) as [b|] eqn:Hb; [|done]. simpl in Hxy.
    destruct (base_errors_nil x Hc Hd (H x Hc) b Hb) as (base & Hin & Hname & _ & Hx).
    assert (Eb : classesByName m !! b = Some base) by (by apply map_by_lookup). assert (y = base) as -> by congruence.
    eapply layout_trans; [exact Hx|]. by apply IH.
Qed.
End hierarchy.

(** ** The undeclared-class walk *)

Section names.
Context (m : ModuleHead).
Notation records := (recordsById m).
Notation unions := (unionsById m).

(** What a type refers to. *)
Definition nview (t : IrType) : node_view IrType :=
  match t with
  | Object_ c => Leaf (bool_decide (is_Some (classesByName m !! c)))
  | Array e | SetT e | Promise_ e => Step [e]
  | MapT k v => Step [k; v]
  | Generator y r n => Step [y; r; n]
  | Func ps r _ _ => Step (ps ++ [r])%list
  | Record_ id => Keyed id (match records !! id with Some rec => (match indexValue rec with Some t => [t] | None => [] end) ++ map f_type (fields rec) | None => [] end)%list
  | Union_ id => Keyed id (match unions !! id with Some arms => arms | None => [] end)
  | _ => Leaf true
  end.

Definition answer (r : option (option string * gset string)) : option (bool * gset string) :=
  match r with Some (n, v) => Some (bool_decide (n = None), v) | None => None end.

Lemma first_name_every {X} (p : X → gset string → option (option string * gset string)) q xs :
  (∀ x v, answer (p x v) = q x v) → ∀ v, answer (first_name p xs v) = every q xs v.
Proof.
  intros H. induction xs as [|x xs IH]; intros v; [done|]. cbn [first_name every]. rewrite <- (H x v). destruct (p x v) as [[[n|] w]|]; simpl; [done| |done]. apply IH.
Qed.

Lemma names_walk fuel : ∀ t v, answer (namesUndeclared m fuel t v) = walk nview fuel t v.
Proof.
  induction fuel as [|fuel IH]; intros t v; [done|].
  assert (E1 : ∀ e, answer (namesUndeclared m fuel e v) = every (walk nview fuel) [e] v) by (intros e; by rewrite (every_one (walk nview fuel)), IH).
  destruct t as [p|e|e|k w|e|ps r rest abi|c|c|id|id|e|y r n]; cbn [namesUndeclared walk nview]; try done; try apply E1;
    try (apply first_name_every, IH).
  - by destruct (classesByName m !! c).
  - case_bool_decide; [done|]. destruct (records !! id) as [rec|]; [|done]. apply first_name_every, IH.
  - case_bool_decide; [done|]. destruct (unions !! id) as [arms|]; [|done]. apply first_name_every, IH.
Qed.

Lemma list_sum_ge (l : list nat) n : n ∈ l → (n <= list_sum l)%nat.
Proof. induction l as [|x l IH]; [by intros ?%not_elem_of_nil|]. intros [->|H]%elem_of_cons; simpl; [|apply IH in H]; lia. Qed.
Lemma list_sum_map_ge {A} (f : A → nat) l x : x ∈ l → (f x <= list_sum (map f l))%nat.
Proof. intros H. apply list_sum_ge, list_elem_of_fmap. by exists x. Qed.

Lemma records_in id rec : records !! id = Some rec → (id, rec) ∈ m_records m.
Proof.
  unfold recordsById. rewrite lookup_fmap. destruct (map_by fst (m_records m) !! id) as [[i r]|] eqn:E; [|done]. simpl. intros [= ->].
  apply map_by_some in E as [E <-]. done.
Qed.
Lemma unions_in id arms : unions !! id = Some arms → (id, arms) ∈ m_unions m.
Proof.
  unfold unionsById. rewrite lookup_fmap. destruct (map_by fst (m_unions m) !! id) as [[i r]|] eqn:E; [|done]. simpl. intros [= ->].
  apply map_by_some in E as [E <-]. done.
Qed.

Lemma record_depth id rec t : records !! id = Some rec → t ∈ ((match indexValue rec with Some t => [t] | None => [] end) ++ map f_type (fields rec))%list →
  (type_depth t <= module_depth m)%nat.
Proof.
  intros E Ht. apply records_in in E. unfold module_depth.
  pose proof (list_sum_map_ge (λ r : string * IrRecordShape, list_sum (map (λ f, type_depth (f_type f)) (fields r.2)) + match indexValue r.2 with Some t => type_depth t | None => 0 end)%nat _ _ E) as H.
  simpl in H. apply elem_of_app in Ht as [Ht|Ht].
  - destruct (indexValue rec); [|by apply not_elem_of_nil in Ht]. apply list_elem_of_singleton in Ht as ->. lia.
  - apply list_elem_of_fmap in Ht as (f & -> & Hf). pose proof (list_sum_map_ge (λ f, type_depth (f_type f)) _ _ Hf). simpl in *. lia.
Qed.
Lemma union_depth id arms t : unions !! id = Some arms → t ∈ arms → (type_depth t <= module_depth m)%nat.
Proof.
  intros E Ht. apply unions_in in E. unfold module_depth.
  pose proof (list_sum_map_ge (λ u : string * list IrType, list_sum (map type_depth u.2)) _ _ E). pose proof (list_sum_map_ge type_depth _ _ Ht). simpl in *. lia.
Qed.

Lemma names_total t : ∃ r v, namesUndeclared m (names_fuel m t) t ∅ = Some (r, v).
Proof.
  assert (H : ∃ b v, walk nview (names_fuel m t) t ∅ = Some (b, v) ∧ ∅ ⊆ v).
  { apply (walk_total nview (dom records ∪ dom unions) type_depth (module_depth m)).
    - intros t' ys y. destruct t' as [p|e|e|k w|e|ps r rest abi|c|c|id|id|e|y0 r n]; cbn; try done; intros [= <-] Hy.
      + apply list_elem_of_singleton in Hy as ->. lia.
      + apply elem_of_cons in Hy as [->|Hy]; [lia|]. apply list_elem_of_singleton in Hy as ->. lia.
      + apply list_elem_of_singleton in Hy as ->. lia.
      + apply elem_of_app in Hy as [Hy|Hy]; [pose proof (list_sum_map_ge type_depth _ _ Hy)|apply list_elem_of_singleton in Hy as ->]; lia.
      + apply list_elem_of_singleton in Hy as ->. lia.
      + rewrite !elem_of_cons in Hy. destruct Hy as [->|[->|[->|Hy]]]; [lia..|by apply not_elem_of_nil in Hy].
    - intros t' k ys. destruct t'; cbn; try done; intros [= <- <-].
      + destruct (records !! shapeId) eqn:E; [|by right]. left. apply elem_of_union. left. by eapply elem_of_dom_2.
      + destruct (unions !! unionId) eqn:E; [|by right]. left. apply elem_of_union. right. by eapply elem_of_dom_2.
    - intros t' k ys y. destruct t'; cbn; try done; intros [= _ <-] Hy.
      + destruct (records !! shapeId) eqn:E; [|by apply not_elem_of_nil in Hy]. by eapply record_depth.
      + destruct (unions !! unionId) eqn:E; [|by apply not_elem_of_nil in Hy]. by eapply union_depth.
    - unfold names_fuel. assert (size ((dom records ∪ dom unions) ∖ ∅ : gset string) <= length (m_records m) + length (m_unions m))%nat; [|nia].
      etrans; [apply subseteq_size with (Y := dom records ∪ dom unions); set_solver|]. rewrite size_union_alt.
      assert (size (dom unions ∖ dom records) <= size (dom unions))%nat by (apply subseteq_size; set_solver). rewrite !size_dom in *.
      assert (size records <= length (m_records m))%nat by (unfold recordsById; rewrite map_size_fmap; apply map_by_size).
      assert (size unions <= length (m_unions m))%nat by (unfold unionsById; rewrite map_size_fmap; apply map_by_size). lia. }
  destruct H as (b & v & H & _). rewrite <- names_walk in H. destruct (namesUndeclared m (names_fuel m t) t ∅) as [[r w]|]; [by repeat eexists|done].
Qed.

(** Record ids and union ids are told apart by their letter, as the registries
    number them. *)
Fixpoint lettered (t : IrType) : bool :=
  match t with
  | Record_ id => String.prefix "r" id
  | Union_ id => String.prefix "u" id
  | Array e | SetT e | Promise_ e => lettered e
  | MapT k v => lettered k && lettered v
  | Generator y r n => lettered y && lettered r && lettered n
  | Func ps r _ _ => forallb lettered ps && lettered r
  | _ => true
  end.
Definition module_lettered : Prop :=
  (∀ r t, r ∈ m_records m → t ∈ ((match indexValue r.2 with Some t => [t] | None => [] end) ++ map f_type (fields r.2))%list → lettered t = true) ∧
  (∀ u t, u ∈ m_unions m → t ∈ u.2 → lettered t = true).

(** The types a type leads to. *)
Definition leads_to : IrType → IrType → Prop := rtc (child nview).

Lemma undeclared_none t : module_lettered → lettered t = true → undeclared m t = None ↔ ∀ c, leads_to t (Object_ c) → is_Some (classesByName m !! c).
Proof.
  intros [Lr Lu] Lt. unfold undeclared. destruct (names_total t) as (r & v & E). rewrite E.
  pose proof (names_walk (names_fuel m t) t ∅) as W. rewrite E in W. symmetry in W.
  assert (Hgood : bool_decide (r = None) = true ↔ all_good nview t).
  { eapply (walk_spec nview (λ t, lettered t = true)); [| |exact Lt|exact W].
    - intros x y Hx Hy. unfold child, children in Hy. destruct x; cbn in *; try (by apply not_elem_of_nil in Hy);
        rewrite ?andb_true_iff in Hx; rewrite ?elem_of_cons, ?elem_of_app, ?list_elem_of_singleton in Hy.
      + destruct Hy as [->|Hy%not_elem_of_nil]; done.
      + destruct Hx, Hy as [->|[->|Hy%not_elem_of_nil]]; done.
      + destruct Hy as [->|Hy%not_elem_of_nil]; done.
      + destruct Hx as [Hp Hr], Hy as [Hy| ->]; [|done]. rewrite forallb_forall in Hp. by apply Hp, list_elem_of_In.
      + destruct (records !! shapeId) as [rec|] eqn:Q; [|by apply not_elem_of_nil in Hy]. by apply (Lr (shapeId, rec)); [apply records_in|].
      + destruct (unions !! unionId) as [arms|] eqn:Q; [|by apply not_elem_of_nil in Hy]. by apply (Lu (unionId, arms)); [apply unions_in|].
      + destruct Hy as [->|Hy%not_elem_of_nil]; done.
      + destruct Hx as [[? ?] ?], Hy as [->|[->|[->|Hy%not_elem_of_nil]]]; done.
    - intros x y k ys zs Hx Hy. destruct x; cbn; try done; intros [= <- <-]; destruct y; cbn; try done; intros [= -> <-]; try done; exfalso; cbn in *.
      + by destruct shapeId as [|a ?]; [|destruct a as [[] [] [] [] [] [] [] []]].
      + by destruct unionId as [|a ?]; [|destruct a as [[] [] [] [] [] [] [] []]]. }
  rewrite bool_decide_eq_true in Hgood. rewrite Hgood. split.
  - intros H c Hc. specialize (H _ Hc). cbn in H. destruct (classesByName m !! c); [by eexists|]. by rewrite bool_decide_eq_false_2 in H by by intros [? ?].
  - intros H y Hy. destruct y; cbn; try done. intros [= Q]. apply bool_decide_eq_false in Q. by apply Q, H.
Qed.

(** The undeclared-class walk always answers, and reports nothing exactly
    when every class a slot's type leads to -- through containers, functions,
    record fields and union arms, around any recursion -- is declared. *)
Theorem undeclared_exact (t : IrType) : module_lettered → lettered t = true →
  (∃ r v, namesUndeclared m (names_fuel m t) t ∅ = Some (r, v)) ∧
  (undeclared m t = None ↔ ∀ c, leads_to t (Object_ c) → is_Some (classesByName m !! c)).
Proof.
  intros Hl Lt. split; [apply names_total|by apply undeclared_none].
Qed.
End names.

(** ** What acceptance means *)

Lemma str_leb_total a b : str_leb a b = false → str_leb b a = true.
Proof. unfold str_leb. rewrite (String.compare_antisym a b). destruct (String.compare b a); simpl; done. Qed.

Lemma insert_name_sorted x xs : Sorted (λ a b, str_leb a b = true) xs → Sorted (λ a b, str_leb a b = true) (insert_name x xs).
Proof.
  induction 1 as [|y ys Hs IH Hr]; simpl; [by repeat constructor|]. destruct (str_leb x y) eqn:E; [by repeat constructor|].
  apply str_leb_total in E. constructor; [done|]. destruct ys as [|z ys]; simpl; [by constructor|]. inversion Hr; subst. destruct (str_leb x z); by constructor.
Qed.
Lemma sort_names_sorted xs : Sorted (λ a b, str_leb a b = true) (sort_names xs).
Proof. induction xs as [|x xs IH]; simpl; [constructor|]. by apply insert_name_sorted. Qed.

Lemma same_arms_nil what i arm rest : same_arms what i arm rest = [] → ∀ b, b ∈ rest → erase arm ≠ erase b.
Proof.
  unfold same_arms. intros H b Hb E. apply (typeEquals_decided arm b) in E. apply list_elem_of_lookup in Hb as [d Hd].
  assert (Hin : err_if (typeEquals arm b) (what +:+ "arms " +:+ pretty i +:+ " and " +:+ pretty (S i + d)%nat +:+ " are identical") ∈
    imap (λ d b, err_if (typeEquals arm b) (what +:+ "arms " +:+ pretty i +:+ " and " +:+ pretty (S i + d)%nat +:+ " are identical")) rest).
  { apply elem_of_lookup_imap. by exists d, b. }
  rewrite E in Hin. revert H Hin. generalize (imap (λ d b, err_if (typeEquals arm b) (what +:+ "arms " +:+ pretty i +:+ " and " +:+ pretty (S i + d)%nat +:+ " are identical")) rest).
  intros l H Hin. induction l as [|x l IH]; [by apply not_elem_of_nil in Hin|]. simpl in H. apply app_nil_iff in H as [-> H].
  apply elem_of_cons in Hin as [Hin|Hin]; [done|by apply IH].
Qed.

Lemma arm_errors_nil m what all arms : ∀ i, arm_errors m what all i arms = [] → NoDup (map erase arms) ∧ ∀ a, a ∈ arms → bad_arm a = false.
Proof.
  induction arms as [|a arms IH]; intros i H; simpl in H; [split; [constructor|by intros ? ?%not_elem_of_nil]|].
  apply app_nil_iff in H as [H1 H]. apply app_nil_iff in H as [_ H]. apply app_nil_iff in H as [_ H]. apply app_nil_iff in H as [H2 H].
  destruct (IH _ H) as [Hd Hb]. apply err_if_nil in H1. split.
  - simpl. apply NoDup_cons. split; [|done]. intros (b & E & Hin)%list_elem_of_fmap. by apply (same_arms_nil _ _ _ _ H2 b Hin).
  - intros b [->|Hin]%elem_of_cons; auto.
Qed.

Lemma ffi_errors_nil es : ∀ names symbols, ffi_errors names symbols es = [] →
  NoDup (map ffi_name es) ∧ NoDup (map ffi_symbol es) ∧ ∀ e, e ∈ es → ffi_name e ∉ names ∧ ffi_symbol e ∉ symbols.
Proof.
  induction es as [|e es IH]; intros names symbols H; simpl in H; [split_and!; try constructor; by apply not_elem_of_nil in H0|].
  apply app_nil_iff in H as [H1 H]. apply app_nil_iff in H as [H2 H]. apply err_if_nil, bool_decide_eq_false in H1, H2.
  destruct (IH _ _ H) as (D1 & D2 & Hs). simpl. rewrite !NoDup_cons. split_and!; try done.
  - intros (x & E & Hx)%list_elem_of_fmap. destruct (Hs x Hx). set_solver.
  - intros (x & E & Hx)%list_elem_of_fmap. destruct (Hs x Hx). set_solver.
  - intros x [->|Hx]%elem_of_cons; [done|]. destruct (Hs x Hx). set_solver.
Qed.

(** C34. A module the checks accept has distinct names of each kind, complete
    library exports, a hierarchy with a rank, shapes whose field names are
    distinct and sorted, unions of at least two arms that differ pairwise and
    hold no excluded kind, and no global or field that leads to an undeclared
    class. *)
Theorem accepted_module (m : ModuleHead) : module_lettered m →
  (∀ g, g ∈ m_globals m → lettered (g_type g) = true) → (∀ c f, c ∈ m_classes m → f ∈ c_fields c → lettered f.2 = true) →
  validateModule m = [] →
  (NoDup (map fn_name (m_functions m)) ∧ NoDup (map ffi_name (m_ffiImports m)) ∧ NoDup (map ffi_symbol (m_ffiImports m)) ∧
   NoDup (map c_name (m_classes m)) ∧ NoDup (map fst (m_records m)) ∧ NoDup (map fst (m_unions m))) ∧
  (∀ es e, m_lib m = Some es → e ∈ es → ∃ fn, functionsByName m !! le_fnName e = Some fn ∧ fn_async fn = false ∧ fn_generator fn = false ∧
     fn_captures fn = false ∧ length (fn_params fn) = length (le_params e)) ∧
  (∃ rank, ranked_by m rank) ∧
  (∀ r, r ∈ m_records m → NoDup (map f_name (fields r.2)) ∧ Sorted (λ a b, str_leb a b = true) (map f_name (fields r.2))) ∧
  (∀ u, u ∈ m_unions m → (2 <= length u.2)%nat ∧ NoDup (map erase u.2) ∧ ∀ a, a ∈ u.2 → bad_arm a = false) ∧
  (∀ g c, g ∈ m_globals m → leads_to m (g_type g) (Object_ c) → is_Some (classesByName m !! c)) ∧
  (∀ k f c, k ∈ m_classes m → f ∈ c_fields k → leads_to m f.2 (Object_ c) → is_Some (classesByName m !! c)).
Proof.
  intros Hl Lg Lf H. unfold validateModule in H. rewrite !app_nil_iff in H. destruct H as (Hfn & Hffi & Hlib & Hcls & Hbase & _ & Hrec & Hun & Hgl & Hcf).
  apply each_once_nil in Hfn as (Dfn & _), Hcls as (Dcls & _), Hrec as (Drec & _ & Hrec), Hun as (Dun & _ & Hun).
  apply ffi_errors_nil in Hffi as (Dn & Ds & _). split_and!; try done.
  - intros es e Hes He. unfold lib_errors in Hlib. rewrite Hes in Hlib. apply app_nil_iff in Hlib as [Hlib _]. rewrite flat_map_nil_iff in Hlib.
    specialize (Hlib e He). unfold export_errors in Hlib. destruct (functionsByName m !! le_fnName e) as [fn|]; [|done]. exists fn.
    apply app_nil_iff in Hlib as [H1 Hlib]. apply app_nil_iff in Hlib as [H2 H3]. apply err_if_nil in H1, H2. apply orb_false_iff in H1 as [? ?].
    split_and!; try done. destruct (length (fn_params fn) =? length (le_params e))%nat eqn:L; [by apply Nat.eqb_eq in L|done].
  - by apply (hierarchy_ranked m Dcls).
  - intros r Hr. specialize (Hrec r Hr). unfold record_errors1 in Hrec. rewrite !app_nil_iff in Hrec. destruct Hrec as (H1 & H2 & _).
    apply each_once_nil in H1 as (Hd & _). split; [done|]. apply err_if_nil, negb_false_iff, bool_decide_eq_true in H2. rewrite H2. apply sort_names_sorted.
  - intros u Hu. specialize (Hun u Hu). unfold union_errors1 in Hun. apply app_nil_iff in Hun as [H1 H2]. apply err_if_nil, Nat.ltb_ge in H1.
    split; [done|]. by eapply arm_errors_nil.
  - intros g c Hg. unfold global_errors in Hgl. rewrite flat_map_nil_iff in Hgl. specialize (Hgl g Hg). rewrite !app_nil_iff in Hgl. destruct Hgl as (_ & _ & Hn).
    apply (undeclared_none m); [done|by apply Lg|]. by destruct (undeclared m (g_type g)).
  - intros k f c Hk Hf. unfold class_field_errors in Hcf. rewrite flat_map_nil_iff in Hcf. specialize (Hcf k Hk). rewrite flat_map_nil_iff in Hcf. specialize (Hcf f Hf).
    apply (undeclared_none m); [done|by apply (Lf k)|]. by destruct (undeclared m f.2).
Qed.

(** *** Witnesses *)

Definition sample_head : ModuleHead :=
  mkModuleHead "main" [mkFnHead "main" false false false [] (Prim Kvoid); mkFnHead "%A.m" false false false [Object_ "A"] (Prim Kvoid)] []
    (Some [mkLibExport "main" "main" [] "void"])
    [mkClass "A" [("x", Prim Kf64)] ["m"] [] None None; mkClass "B" [("x", Prim Kf64); ("y", Record_ "r0")] [] [] (Some "A") None]
    [("r0", mkShape [mkField "child" (Union_ "u0") false false; mkField "owner" (Object_ "B") false false] false None)]
    [("u0", [Record_ "r0"; Prim KundefinedT])]
    [mkGlobal "%g.main.g" "g" (Array (Record_ "r0"))].

Lemma sample_head_lettered : module_lettered sample_head.
Proof.
  split; intros x t; cbn [m_records m_unions sample_head].
  - intros ->%list_elem_of_singleton. simpl. rewrite !elem_of_cons. by intros [->|[->|?%not_elem_of_nil]].
  - intros ->%list_elem_of_singleton. simpl. rewrite !elem_of_cons. by intros [->|[->|?%not_elem_of_nil]].
Qed.

Example accepted_module_witness : validateModule sample_head = [] ∧ ∃ rank, ranked_by sample_head rank.
Proof.
  split; [vm_compute; reflexivity|]. destruct (accepted_module sample_head) as (_ & _ & H & _); [apply sample_head_lettered| | |vm_compute; reflexivity|exact H].
  - intros g. cbn [m_globals sample_head]. by intros ->%list_elem_of_singleton.
  - intros c f. cbn [m_classes sample_head]. intros [->|[->|[]%not_elem_of_nil]%elem_of_cons]%elem_of_cons Hf; cbn [c_fields] in Hf;
      (repeat (apply elem_of_cons in Hf as [->|Hf]; [reflexivity|])); by apply not_elem_of_nil in Hf.
Defined.

(** A base that comes back to its class is reported. *)
Example hierarchy_exact_witness :
  flat_map (base_errors sample_head) (m_classes sample_head) = [] ∧
  base_errors (mkModuleHead "" [] [] None [mkClass "A" [] [] [] (Some "B") None; mkClass "B" [] [] [] (Some "A") None] [] [] []) (mkClass "A" [] [] [] (Some "B") None)
    = ["class A: cyclic extends chain"] ∧ ∃ rank, ranked_by sample_head rank.
Proof.
  split; [vm_compute; reflexivity|]. split; [vm_compute; reflexivity|].
  destruct (hierarchy_exact sample_head) as [[H _] _]; [|apply H; vm_compute; reflexivity].
  change (NoDup ["A"; "B"]). repeat (constructor; [set_solver|]). constructor.
Defined.

Example undeclared_exact_witness : undeclared sample_head (Array (Record_ "r0")) = None ∧ is_Some (classesByName sample_head !! "B").
Proof.
  assert (U : undeclared sample_head (Array (Record_ "r0")) = None) by (vm_compute; reflexivity). split; [exact U|].
  destruct (undeclared_exact sample_head (Array (Record_ "r0")) sample_head_lettered eq_refl) as [_ [H _]]. apply (H U).
  eapply rtc_l; [left|]. eapply rtc_l; [|apply rtc_refl]. change (Object_ "B" ∈ [Union_ "u0"; Object_ "B"]). right. left.
Defined.
