(* ===== verification/Accepted.v ===== *)
(** * An accepted module is analysed

    Composition of the validator
    (src/packages/compiler/src/ir/validate.ts) with the may-throw analysis
    (src/packages/compiler/src/backend/emission/may-throw.ts), which walks up
    base chains and would not end on one that comes back to itself. *)

From S2P Require Import Prelude F64 Bytes IrJson ModuleUses TypeKey TypeDomains ValidateModule MayThrow.

(** The classes of a module as data are those of its head, by name and base. *)
Definition represents_class (k : js) (c : IrClassDef) : Prop :=
  field k "name" = JStr (js_of_string (c_name c)) ∧
  field k "base" = match c_base c with Some b => JStr (js_of_string b) | None => JUndef end.
Definition represents (j : js) (m : ModuleHead) : Prop := Forall2 represents_class (items (field j "classes")) (m_classes m).

Section accepted.
Context (j : js) (m : ModuleHead).
Hypothesis rep : represents j m.
Hypothesis distinct : NoDup (map c_name (m_classes m)).
Hypothesis based : flat_map (base_errors m) (m_classes m) = [].

(** The rank of a class as data: that of the class it represents. *)
Definition js_rank (k : js) : nat :=
  match List.find (λ c, str_is (field k "name") (js_of_string (c_name c))) (m_classes m) with Some c => class_rank m (c_name c) | None => 0%nat end.

Lemma js_rank_of k c : c ∈ m_classes m → represents_class k c → js_rank k = class_rank m (c_name c).
Proof.
  intros Hc [Hn _]. unfold js_rank. rewrite Hn. destruct (List.find _ _) as [d|] eqn:E.
  - apply find_some in E as [_ E]. cbn in E. apply bool_decide_eq_true, js_of_string_inj in E. by rewrite E.
  - apply list_elem_of_In in Hc. pose proof (find_none _ _ E c Hc) as N. cbn in N. by rewrite bool_decide_eq_true_2 in N.
Qed.

Lemma represented k : k ∈ items (field j "classes") → ∃ c, c ∈ m_classes m ∧ represents_class k c.
Proof. intros Hk. apply list_elem_of_lookup in Hk as [i Hi]. destruct (Forall2_lookup_l _ _ _ _ _ rep Hi) as (c & Hc & R). exists c. split; [by eapply list_elem_of_lookup_2|done]. Qed.

Lemma accepted_ranked : bases_ranked j js_rank.
Proof.
  intros k Hk. destruct (represented k Hk) as (c & Hc & R). rewrite (js_rank_of k c Hc R).
  assert (Hpos : (0 < length (items (field j "classes")))%nat) by (destruct (items (field j "classes")); [by apply not_elem_of_nil in Hk|simpl; lia]).
  assert (Hlen : (size (classesByName m) <= length (items (field j "classes")))%nat) by (rewrite (Forall2_length _ _ _ rep); apply map_by_size).
  rewrite flat_map_nil_iff in based. pose proof (base_errors_nil m c Hc distinct (based c Hc)) as B. destruct R as [Hn Hb]. split.
  - destruct (c_base c) as [b|] eqn:Eb; [destruct (B b eq_refl) as (_ & _ & _ & [_ ?] & _); lia|].
    assert (class_rank m (c_name c) = 0%nat) as ->; [|done]. unfold class_rank.
    assert (classesByName m !! c_name c = Some c) as -> by (by apply map_by_lookup). simpl. unfold base_of. rewrite Eb. by destruct (size _).
  - intros d Hd. rewrite Hb in Hd. destruct (c_base c) as [b|] eqn:Eb; [|done]. destruct (B b eq_refl) as (base & Hin & Hname & [L _] & _).
    cbn [class_by_name mc_mod mctx_of] in Hd. apply find_some in Hd as [Hd E]. apply list_elem_of_In in Hd.
    destruct (represented d Hd) as (e & He & Re). rewrite (js_rank_of d e He Re). destruct Re as [Rn _]. rewrite Rn in E. cbn in E.
    apply bool_decide_eq_true, js_of_string_inj in E. by rewrite E.
Qed.
End accepted.

(** On a module whose head the validator accepts, the may-throw analysis
    returns: its walks up the base chains end. *)
Theorem accepted_analysis_returns (j : js) (m : ModuleHead) :
  represents j m → validateModule m = [] → ∃ may indirect, computeMayThrow j = Ok (may, indirect).
Proof.
  intros R H. unfold validateModule in H. rewrite !app_nil_iff in H. destruct H as (_ & _ & _ & Hc & Hb & _).
  apply each_once_nil in Hc as (Hd & _). by apply (computeMayThrow_returns j (js_rank m)), accepted_ranked.
Qed.

(** The classes of the sample module, as the validator sees them. *)
Definition sample_classes : ModuleHead :=
  mkModuleHead "main" [] [] None [mkClass "A" [] [] [] None None; mkClass "B" [] [] [] (Some "A") None] [] [] [].

Example accepted_analysis_returns_witness : validateModule sample_classes = [] ∧ ∃ may indirect, computeMayThrow sample_ir = Ok (may, indirect).
Proof.
  split; [vm_compute; reflexivity|]. apply (accepted_analysis_returns sample_ir sample_classes); [|vm_compute; reflexivity].
  repeat constructor.
Defined.
