(* ===== verification/WrapperDuals.v ===== *)
(** * Wrapper duals: an ES module that only names a CommonJS file

    src/packages/compiler/src/frontend/node-conditions.ts: [nodeLoadsAsCjs]
    with the package scope and the syntax detection below it, and
    [wrapperShapeOf], which recognizes an ES module that is nothing but name
    plumbing over one CommonJS file.  Files, paths and [JSON.parse] are the
    platform's: the fields of [host]. *)

From S2P Require Import Prelude F64 Bytes IrJson.

#[local] Open Scope string_scope.

(** node:fs, node:path and JSON.parse. *)
Record host := mkHost {
  readFile : jsstr → option jsstr;
  resolve1 : jsstr → jsstr;
  resolve2 : jsstr → jsstr → jsstr;
  join : jsstr → jsstr → jsstr;
  dirname : jsstr → jsstr;
  jsonParse : jsstr → option js
}.

(** ** Texts *)

Definition ends_in (p : string) (s : jsstr) : bool := bool_decide (drop (length s - length (js_of_string p)) s = js_of_string p).
(** [\s] *)
Definition is_space (c : Z) : bool :=
  ((9 <=? c) && (c <=? 13) || (c =? 32) || (c =? 0xa0) || (c =? 0x1680) || (0x2000 <=? c) && (c <=? 0x200a) ||
   (c =? 0x2028) || (c =? 0x2029) || (c =? 0x202f) || (c =? 0x205f) || (c =? 0x3000) || (c =? 0xfeff))%Z.
(** [\w], and the characters of an identifier. *)
Definition is_word (c : Z) : bool := ((48 <=? c) && (c <=? 57) || (65 <=? c) && (c <=? 90) || (97 <=? c) && (c <=? 122) || (c =? 95))%Z.
Definition is_idstart (c : Z) : bool := ((65 <=? c) && (c <=? 90) || (97 <=? c) && (c <=? 122) || (c =? 95) || (c =? 36))%Z.
Definition is_idpart (c : Z) : bool := is_word c || (c =? 36)%Z.
Definition is_line_end (c : Z) : bool := ((c =? 10) || (c =? 13) || (c =? 0x2028) || (c =? 0x2029))%Z.

(** The longest prefix of characters [p], and the rest. *)
Fixpoint span (p : Z → bool) (s : jsstr) : jsstr * jsstr :=
  match s with
  | [] => ([], [])
  | c :: r => if p c then let '(a, b) := span p r in (c :: a, b) else ([], s)
  end.
Definition drop_spaces (s : jsstr) : jsstr := (span is_space s).2.
Definition trim (s : jsstr) : jsstr := rev (drop_spaces (rev (drop_spaces s))).
(** [s.split(sep)] of one character. *)
Fixpoint split_on (sep : Z) (s : jsstr) : list jsstr :=
  match s with
  | [] => [[]]
  | c :: r => if (c =? sep)%Z then [] :: split_on sep r else match split_on sep r with x :: xs => (c :: x) :: xs | [] => [[c]] end
  end.

(** ["*/"] occurs. *)
Fixpoint closes (s : jsstr) : bool :=
  match s with
  | [] => false
  | c :: r => match r with d :: _ => (c =? 42)%Z && (d =? 47)%Z || closes r | [] => false end
  end.
(** [.replace(/\/\*[\s\S]*?\*\//g, " ")] *)
Fixpoint strip_block (inside : bool) (s : jsstr) : jsstr :=
  match s with
  | [] => []
  | c :: r =>
      match r with
      | [] => if inside then [] else [c]
      | d :: r' =>
          if inside then (if (c =? 42)%Z && (d =? 47)%Z then 32%Z :: strip_block false r' else strip_block true r)
          else if (c =? 47)%Z && (d =? 42)%Z && closes r' then strip_block true r'
          else c :: strip_block false r
      end
  end.
(** [.replace(/\/\/[^\n]*/g, " ")] *)
Fixpoint strip_line (inside : bool) (s : jsstr) : jsstr :=
  match s with
  | [] => []
  | c :: r =>
      if inside then (if (c =? 10)%Z then 10%Z :: strip_line false r else strip_line true r)
      else
        match r with
        | d :: r' => if (c =? 47)%Z && (d =? 47)%Z then 32%Z :: strip_line true r' else c :: strip_line false r
        | [] => [c]
        end
  end.
Definition strip_comments (s : jsstr) : jsstr := strip_line false (strip_block false s).

(** The text after a literal. *)
Definition after (p : string) (s : jsstr) : option jsstr := if startsWith p s then Some (drop (length (js_of_string p)) s) else None.
(** The text after a non-empty run of white space. *)
Definition after_spaces (s : jsstr) : option jsstr := match span is_space s with (_ :: _, r) => Some r | _ => None end.
(** An identifier, as long as it goes. *)
Definition identifier (s : jsstr) : option (jsstr * jsstr) := match s with c :: r => if is_idstart c then let '(a, b) := span is_idpart r in Some (c :: a, b) else None | [] => None end.

(** ** Is it CommonJS? *)

(** One alternative of the module syntax at the start of a line. *)
Definition esm_statement (s : jsstr) : bool :=
  let t := drop_spaces s in
  match after "import" t with
  | Some r => match drop_spaces r with c :: _ => is_word c || existsb (Z.eqb c) [123; 42; 39; 34]%Z | [] => false end
  | None =>
      match after "export" t with
      | Some (c :: _) => is_space c || (c =? 123)%Z
      | Some [] => false
      | None => match after "await" t with Some (c :: _) => is_space c | _ => false end
      end
  end.
Fixpoint at_line_starts (p : jsstr → bool) (s : jsstr) : bool :=
  match s with [] => false | c :: r => is_line_end c && p r || at_line_starts p r end.
(** [\bimport\.meta\b], after a word character or not. *)
Fixpoint import_meta (prev : bool) (s : jsstr) : bool :=
  match s with
  | [] => false
  | c :: r =>
      negb prev && match after "import.meta" s with Some (d :: _) => negb (is_word d) | Some [] => true | None => false end || import_meta (is_word c) r
  end.

Section duals.
Context (h : host).

Definition nodeSyntaxDetectsCjs (file : jsstr) : bool :=
  match readFile h file with
  | None => false
  | Some src => let body := strip_comments src in negb (esm_statement body || at_line_starts esm_statement body || import_meta false body)
  end.

Inductive package_type := TModule | TCommonjs | TInvalid | TNone.
Definition type_in (text : jsstr) : package_type :=
  match jsonParse h text with
  | None | Some JNull => TInvalid
  | Some pkg => if is_lit (field pkg "type") "module" then TModule else if is_lit (field pkg "type") "commonjs" then TCommonjs else TNone
  end.
(** The walk up the directories; [None]: not done within the fuel. *)
Fixpoint scope_type (fuel : nat) (dir : jsstr) : option package_type :=
  match fuel with
  | O => None
  | S fuel =>
      if ends_in "/node_modules" dir || ends_in "\node_modules" dir then Some TNone
      else
        match readFile h (join h dir (js_of_string "package.json")) with
        | Some text => Some (type_in text)
        | None => let parent := dirname h dir in if bool_decide (parent = dir) then Some TNone else scope_type fuel parent
        end
  end.
Definition nodePackageTypeOf (file : jsstr) : option package_type :=
  let dir := dirname h (resolve1 h file) in scope_type (S (length dir)) dir.

Definition nodeLoadsAsCjs (file : jsstr) : bool :=
  if ends_in ".cjs" file then true
  else if negb (ends_in ".js" file) then false
  else
    match nodePackageTypeOf file with
    | Some TInvalid | Some TModule | None => false
    | Some TCommonjs => true
    | Some TNone => nodeSyntaxDetectsCjs file
    end.

(** ** The wrapper's shape *)

(** [import X from './file']: the local and the specifier. *)
Definition import_default (s : jsstr) : option (jsstr * jsstr) :=
  r ← after "import" s; r ← after_spaces r; '(local, r) ← identifier r; r ← after_spaces r; r ← after "from" r; r ← after_spaces r;
  match r with
  | q :: r =>
      if (q =? 39)%Z || (q =? 34)%Z then
        let '(spec, r) := span (λ c, negb ((c =? 39)%Z || (c =? 34)%Z)) r in
        match spec, r with _ :: _, [q'] => if (q' =? q)%Z then Some (local, spec) else None | _, _ => None end
      else None
  | [] => None
  end.
(** [export const { ... } = X]: the text between the braces and the local. *)
Definition export_const (s : jsstr) : option (jsstr * jsstr) :=
  r ← after "export" s; r ← after_spaces r; r ← after "const" r; r ← after "{" (drop_spaces r);
  let '(inner, r) := span (λ c, negb (c =? 125)%Z) r in
  r ← after "}" r; r ← after "=" (drop_spaces r); '(local, r) ← identifier (drop_spaces r);
  match r with [] => Some (inner, local) | _ => None end.
(** [export default X] *)
Definition export_default (s : jsstr) : option jsstr :=
  r ← after "export" s; r ← after_spaces r; r ← after "default" r; r ← after_spaces r; '(local, r) ← identifier r;
  match r with [] => Some local | _ => None end.

Definition is_identifier (s : jsstr) : bool := match identifier s with Some (_, []) => true | _ => false end.
(** The names between the braces, added to those before; [None]: one is no
    plain name. *)
Fixpoint add_names (raws names : list jsstr) : option (list jsstr) :=
  match raws with
  | [] => Some names
  | raw :: raws =>
      let n := trim raw in
      if bool_decide (n = []) then add_names raws names
      else if negb (is_identifier n) then None
      else add_names raws (if bool_decide (n ∈ names) then names else names ++ [n])%list
  end.

Record shape := mkShape { names : list jsstr; hasDefault : bool }.
Fixpoint shape_of (wrapperAbs cjsAbs : jsstr) (stmts : list jsstr) (local : option jsstr) (ns : list jsstr) (dflt : bool) : option shape :=
  match stmts with
  | [] => match local, ns with Some _, _ :: _ => Some (mkShape ns dflt) | _, _ => None end
  | s :: stmts =>
      match import_default s, local with
      | Some (x, spec), None =>
          if negb (startsWith "./" spec) && negb (startsWith "../" spec) then None
          else if bool_decide (resolve2 h (dirname h wrapperAbs) spec = resolve1 h cjsAbs) then shape_of wrapperAbs cjsAbs stmts (Some x) ns dflt
          else None
      | _, None => None
      | _, Some l =>
          match export_const s with
          | Some (inner, l') =>
              if bool_decide (l' = l) then ns ← add_names (split_on 44 inner) ns; shape_of wrapperAbs cjsAbs stmts local ns dflt
              else None
          | None => match export_default s with Some l' => if bool_decide (l' = l) then shape_of wrapperAbs cjsAbs stmts local ns true else None | None => None end
          end
      end
  end.
Definition wrapperShapeOf (source wrapperAbs cjsAbs : jsstr) : option shape :=
  shape_of wrapperAbs cjsAbs (List.filter (λ s, negb (bool_decide (s = []))) (map trim (split_on 59 (strip_comments source)))) None [] false.

(** ** The substitution *)

(** The shape of the import target, where it is a wrapper over the require
    target of the same condition object. *)
Definition wrapper_of (dir : option jsstr) (imp req : jsstr) : option shape :=
  match dir with
  | None => None
  | Some dir =>
      if negb (bool_decide (imp = req)) && negb (existsb (Z.eqb 42) imp) && negb (existsb (Z.eqb 42) req) && nodeLoadsAsCjs (resolve2 h dir req) then
        source ← readFile h (resolve2 h dir imp); wrapperShapeOf source (resolve2 h dir imp) (resolve2 h dir req)
      else None
  end.
End duals.

(** ** A sample: commander's esm.mjs *)

Fixpoint lookup_file (fs : list (string * string)) (p : jsstr) : option jsstr :=
  match fs with [] => None | (k, v) :: fs => if bool_decide (p = js_of_string k) then Some (js_of_string v) else lookup_file fs p end.
Definition drop_dot (x : jsstr) : jsstr := match after "./" x with Some r => r | None => x end.
Definition parent_dir (p : jsstr) : jsstr :=
  match (span (λ c, negb (c =? 47)%Z) (rev p)).2 with [] => p | [_] => [47%Z] | _ :: r => rev r end.
Definition sample_host (fs : list (string * string)) : host :=
  mkHost (lookup_file fs) (λ p, p) (λ d x, d ++ [47%Z] ++ drop_dot x)%list (λ d x, d ++ [47%Z] ++ x)%list parent_dir
    (λ t, if bool_decide (t = js_of_string "{commonjs}") then Some (JObj [(js_of_string "type", JStr (js_of_string "commonjs"))]) else Some (JObj [])).
Definition commander : list (string * string) :=
  [("/p/package.json", "{}"); ("/p/index.js", "exports.Command = 1; // import.meta"); ("/p/real.js", "  export { x }");
   ("/p/esm.mjs", "import commander from './index.js'; /* names */ export const { Command, Option, // deprecated
 Help } = commander; export default commander;")].
Example commander_wrapper : wrapper_of (sample_host commander) (Some (js_of_string "/p")) (js_of_string "./esm.mjs") (js_of_string "./index.js") =
  Some (mkShape [js_of_string "Command"; js_of_string "Option"; js_of_string "Help"] true) ∧
  wrapper_of (sample_host commander) (Some (js_of_string "/p")) (js_of_string "./esm.mjs") (js_of_string "./real.js") = None ∧
  map (λ f, nodeLoadsAsCjs (sample_host commander) (js_of_string f)) ["/p/index.js"; "/p/real.js"; "/p/a.cjs"; "/p/esm.mjs"] = [true; false; true; false].
Proof. vm_compute. done. Qed.

(** ** The walk up the directories ends *)

(** A directory is its own parent or longer than it. *)
Definition parents_shorten (h : host) : Prop := ∀ d, dirname h d = d ∨ (length (dirname h d) < length d)%nat.
Lemma scope_type_ends h : parents_shorten h → ∀ fuel d, (length d < fuel)%nat → ∃ t, scope_type h fuel d = Some t.
Proof.
  intros Hp. induction fuel as [|fuel IH]; intros d Hd; [lia|]. cbn [scope_type]. destruct (_ || _); [by eexists|]. destruct (readFile h _); [by eexists|]. cbv zeta.
  case_bool_decide as E; [by eexists|]. apply IH. destruct (Hp d); [congruence|lia].
Qed.
Lemma nodePackageTypeOf_total h file : parents_shorten h → ∃ t, nodePackageTypeOf h file = Some t.
Proof. intros Hp. apply scope_type_ends; [done|]. lia. Qed.

(** When a target is replaced: both are texts without a star, they differ,
    Node loads the require target as CommonJS, and the import target's text is
    nothing but names over it. *)
Lemma wrapper_of_iff h dir imp req sh : wrapper_of h dir imp req = Some sh ↔
  ∃ d src, dir = Some d ∧ imp ≠ req ∧ 42%Z ∉ imp ∧ 42%Z ∉ req ∧ nodeLoadsAsCjs h (resolve2 h d req) = true ∧
    readFile h (resolve2 h d imp) = Some src ∧ wrapperShapeOf h src (resolve2 h d imp) (resolve2 h d req) = Some sh.
Proof.
  assert (Hs : ∀ s : jsstr, existsb (Z.eqb 42) s = false ↔ 42%Z ∉ s).
  { intros s. rewrite <- not_true_iff_false, existsb_exists. split; intros H; contradict H.
    - exists 42%Z. split; [by apply list_elem_of_In|done].
    - destruct H as (x & Hx & E%Z.eqb_eq). subst x. by apply list_elem_of_In. }
  unfold wrapper_of. destruct dir as [d|]; [|split; [done|by intros (? & ? & ? & _)]]. split.
  - destruct (_ && _) eqn:E; [|done]. apply andb_true_iff in E as [[[E1 E2]%andb_true_iff E3]%andb_true_iff E4]. apply negb_true_iff in E1, E2, E3.
    apply bool_decide_eq_false in E1. apply Hs in E2, E3. destruct (readFile h _) as [src|] eqn:Er; [|done]. cbn. intros Hw. by exists d, src.
  - intros (d' & src & [= <-] & E1 & E2%Hs & E3%Hs & E4 & Er & Hw). rewrite bool_decide_false, E2, E3, E4, Er by done. done.
Qed.
