(* ===== verification/NodeConditions.v ===== *)
(** * Conditional package targets, reduced to Node's answers

    src/packages/compiler/src/frontend/node-conditions.ts: the target of a
    package.json entry under a set of conditions, and the rewriting of every
    condition object to the answers Node gives import and require, with the
    substitution of a wrapper by the CommonJS file below it (WrapperDuals.v)
    where the package's directory is known.  Whether [new URL] accepts a text is
    the platform's and a parameter. *)

From S2P Require Import Prelude F64 Bytes IrJson WrapperDuals.

#[local] Open Scope string_scope.

Definition NODE_IMPORT_CONDITIONS : list string := ["node"; "import"; "module-sync"; "node-addons"; "default"].
Definition NODE_REQUIRE_CONDITIONS : list string := ["node"; "require"; "module-sync"; "node-addons"; "default"].
Definition BUNDLER_TYPES_CONDITIONS : list string := ["types"; "import"; "default"].

Inductive field_kind := Exports | Imports.

(** ** Valid targets *)

Definition ascii_lower (c : Z) : Z := (if (65 <=? c) && (c <=? 90) then c + 32 else c)%Z.
(** The segments between the slashes of either direction. *)
Fixpoint segments (s : jsstr) : list jsstr :=
  match s with
  | [] => [[]]
  | c :: s =>
      if ((c =? 47) || (c =? 92))%Z then [] :: segments s
      else match segments s with x :: xs => (c :: x) :: xs | [] => [[c]] end
  end.
(** One of the spellings at the start of a segment, whatever their case. *)
Fixpoint strip_any (spellings : list string) (s : jsstr) : option jsstr :=
  match spellings with
  | [] => None
  | p :: ps =>
      let n := length (js_of_string p) in
      if bool_decide (map ascii_lower (take n s) = js_of_string p) then Some (drop n s) else strip_any ps s
  end.
Fixpoint spelled (chars : list (list string)) (s : jsstr) : bool :=
  match chars with
  | [] => bool_decide (s = [])
  | c :: cs => match strip_any c s with Some s => spelled cs s | None => false end
  end.
Definition dot : list string := ["."; "%2e"].
Definition node_modules_spelling : list (list string) :=
  [["n"; "%6e"; "%4e"]; ["o"; "%6f"; "%4f"]; ["d"; "%64"; "%44"]; ["e"; "%65"; "%45"]; ["_"; "%5f"]; ["m"; "%6d"; "%4d"]; ["o"; "%6f"; "%4f"];
   ["d"; "%64"; "%44"]; ["u"; "%75"; "%55"]; ["l"; "%6c"; "%4c"]; ["e"; "%65"; "%45"]; ["s"; "%73"; "%53"]].
Definition INVALID_SEGMENT (s : jsstr) : bool :=
  existsb (λ seg, spelled [dot] seg || spelled [dot; dot] seg || spelled node_modules_spelling seg) (segments s).

Section conditions.
Context (isURL : jsstr → bool).

Definition isValidNodeTarget (target : jsstr) (f : field_kind) : bool :=
  if negb (startsWith "./" target) then
    match f with
    | Exports => false
    | Imports => if startsWith "../" target || startsWith "/" target then false else negb (isURL target)
    end
  else negb (INVALID_SEGMENT (drop 2 target)).

(** ** The answer under a set of conditions *)

Inductive leaf := LStr (s : jsstr) | LNull | LUndef.

Fixpoint nodeConditionLeaf (conditions : list string) (f : field_kind) (target : js) : leaf :=
  match target with
  | JStr s => if isValidNodeTarget s f then LStr s else LNull
  | JNull => LNull
  | JArr items =>
      match items with
      | [] => LNull
      | _ =>
          (fix go items (sawNull : bool) :=
             match items with
             | [] => if sawNull then LNull else LUndef
             | t :: items => match nodeConditionLeaf conditions f t with LStr s => LStr s | LNull => go items true | LUndef => go items sawNull end
             end) items false
      end
  | JObj props =>
      (fix go props :=
         match props with
         | [] => LUndef
         | kv :: props =>
             if negb (set_has conditions kv.1) then go props
             else match nodeConditionLeaf conditions f kv.2 with LUndef => go props | r => r end
         end) props
  | _ => LUndef
  end.

(** ** The rewriting *)

Definition keyPrefix (f : field_kind) : string := match f with Exports => "." | Imports => "#" end.
Definition isConditionObject (v : js) (prefix : string) : bool :=
  match v with JObj props => existsb (λ kv, negb (startsWith prefix kv.1)) props | _ => false end.

Definition endsWith (p : string) (s : jsstr) : bool := bool_decide (drop (length s - length (js_of_string p)) s = js_of_string p).
Definition is_declaration (s : jsstr) : bool := endsWith ".d.ts" s || endsWith ".d.mts" s || endsWith ".d.cts" s.
Definition answer (l : leaf) : option js := match l with LStr s => Some (JStr s) | LNull => Some JNull | LUndef => None end.
Definition prop_of (k : string) (v : option js) : list (jsstr * js) := match v with Some v => [(js_of_string k, v)] | None => [] end.

(** A substitution that was made, and where. *)
Record WrapperSubstitution := mkSubstitution { sub_path : jsstr; sub_wrapper : jsstr; sub_cjs : jsstr; sub_names : list jsstr; sub_hasDefault : bool }.

Section rewriting.
Context (h : host) (wrapperPkgDir : option jsstr).

Definition substitution (f : field_kind) (subpath : jsstr) (v : js) : option WrapperSubstitution :=
  match f, nodeConditionLeaf NODE_IMPORT_CONDITIONS f v, nodeConditionLeaf NODE_REQUIRE_CONDITIONS f v with
  | Exports, LStr imp, LStr req => sh ← wrapper_of h wrapperPkgDir imp req; Some (mkSubstitution subpath imp req (names sh) (hasDefault sh))
  | _, _, _ => None
  end.

(** What replaces a condition object. *)
Definition reduced (keepTypes : bool) (f : field_kind) (subpath : jsstr) (v : js) : js * list WrapperSubstitution :=
  let imp := nodeConditionLeaf NODE_IMPORT_CONDITIONS f v in
  let req := nodeConditionLeaf NODE_REQUIRE_CONDITIONS f v in
  let sub := substitution f subpath v in
  (JObj (prop_of "types" (if keepTypes then match nodeConditionLeaf BUNDLER_TYPES_CONDITIONS f v with LStr t => if is_declaration t then Some (JStr t) else None | _ => None end else None) ++
         prop_of "import" (match sub with Some sb => Some (JStr (sub_cjs sb)) | None => answer imp end) ++
         prop_of "require" (answer req))%list,
   match sub with Some sb => [sb] | None => [] end).

Fixpoint normalize (keepTypes : bool) (f : field_kind) (subpath : jsstr) (v : js) : js * list WrapperSubstitution :=
  match v with
  | JArr items => let rs := map (normalize keepTypes f subpath) items in (JArr (map fst rs), concat (map snd rs))
  | _ => if negb (isConditionObject v (keyPrefix f)) then (v, []) else reduced keepTypes f subpath v
  end.

(** Every value of a map, under its key. *)
Definition on_values (g : jsstr → js → js * list WrapperSubstitution) (ps : props) : js * list WrapperSubstitution :=
  let rs := map (λ kv, (kv.1, g kv.1 kv.2)) ps in (JObj (map (λ kr, (kr.1, kr.2.1)) rs), concat (map (λ kr, kr.2.2) rs)).
Fixpoint set_prop (k : jsstr) (v : js) (ps : props) : props :=
  match ps with [] => [] | kv :: ps => if bool_decide (k = kv.1) then (k, v) :: ps else kv :: set_prop k v ps end.

Definition reduce_exports (keepTypes : bool) (exp : js) : js * list WrapperSubstitution :=
  let whole := normalize keepTypes Exports (js_of_string ".") exp in
  if isConditionObject exp "." then whole
  else match exp with JObj map => on_values (normalize keepTypes Exports) map | _ => whole end.
Definition reduceConditionTargets (keepTypes : bool) (pkg : props) : props * list WrapperSubstitution :=
  let exp := get (js_of_string "exports") pkg in
  let '(pkg, subs) := match exp with
    | JUndef => (pkg, [])
    | _ => let '(v, subs) := reduce_exports keepTypes exp in (set_prop (js_of_string "exports") v pkg, subs)
    end in
  match get (js_of_string "imports") pkg with
  | JObj map => let '(v, subs') := on_values (normalize keepTypes Imports) map in (set_prop (js_of_string "imports") v pkg, (subs ++ subs')%list)
  | _ => (pkg, subs)
  end.
End rewriting.

Fixpoint has_condition (v : js) : bool :=
  match v with
  | JArr items => existsb has_condition items
  | JObj props => existsb (λ kv, negb (startsWith "." kv.1) && negb (startsWith "#" kv.1)) props || existsb (λ kv, has_condition kv.2) props
  | _ => false
  end.
Definition hasConditionTargets (pkg : props) : bool := has_condition (get (js_of_string "exports") pkg) || has_condition (get (js_of_string "imports") pkg).
End conditions.

(** chalk's [#supports-color], and a dual package. *)
Definition js_obj (ps : list (string * js)) : js := JObj (map (λ kv, (js_of_string kv.1, kv.2)) ps).
Definition js_str (s : string) : js := JStr (js_of_string s).
Definition sample_exports : js :=
  js_obj [("types", js_str "./index.d.ts"); ("node", JArr [js_str "../out.js"; js_obj [("import", js_str "./esm.mjs"); ("require", js_str "./cjs.cjs")]]); ("default", js_str "./web.js")].
Definition no_files : host := sample_host [].
Example reduced_sample : normalize (λ _, false) no_files None true Exports [] sample_exports =
  (js_obj [("types", js_str "./index.d.ts"); ("import", js_str "./esm.mjs"); ("require", js_str "./cjs.cjs")], []).
Proof. vm_compute. reflexivity. Qed.
Example invalid_segments : map (λ s, isValidNodeTarget (λ _, false) (js_of_string s) Exports) ["./a/b.js"; "./a/../b"; "./%2E/b"; "./x/Node_%4dodules/y"; "./a//b"; "b"]
  = [true; false; false; false; true; false].
Proof. vm_compute. reflexivity. Qed.

(** ** Answers *)

(** The first valid string of a fallback list, else whether one was excluded. *)
Fixpoint first_valid (ls : list leaf) (sawNull : bool) : leaf :=
  match ls with
  | [] => if sawNull then LNull else LUndef
  | LStr s :: _ => LStr s
  | LNull :: ls => first_valid ls true
  | LUndef :: ls => first_valid ls sawNull
  end.
(** The first condition that matches and has an answer. *)
Fixpoint first_match (ls : list (bool * leaf)) : leaf :=
  match ls with
  | [] => LUndef
  | (true, LStr s) :: _ => LStr s
  | (true, LNull) :: _ => LNull
  | _ :: ls => first_match ls
  end.

Section answers.
Context (isURL : jsstr → bool).
Notation leafOf := (nodeConditionLeaf isURL).

Lemma leaf_array C f items : leafOf C f (JArr items) = match items with [] => LNull | _ => first_valid (map (leafOf C f) items) false end.
Proof.
  assert (H : ∀ l b, (fix go items (sawNull : bool) :=
             match items with
             | [] => if sawNull then LNull else LUndef
             | t :: items => match leafOf C f t with LStr s => LStr s | LNull => go items true | LUndef => go items sawNull end
             end) l b = first_valid (map (leafOf C f) l) b).
  { intros l. induction l as [|y l IH]; intros b; [reflexivity|]. cbn [map first_valid]. destruct (leafOf C f y); [reflexivity|apply IH..]. }
  destruct items as [|x xs]; [reflexivity|]. exact (H (x :: xs) false).
Qed.

Lemma leaf_object C f ps : leafOf C f (JObj ps) = first_match (map (λ kv, (set_has C kv.1, leafOf C f kv.2)) ps).
Proof.
  induction ps as [|[k v] ps IH]; [reflexivity|]. transitivity (if negb (set_has C k) then leafOf C f (JObj ps) else match leafOf C f v with LUndef => leafOf C f (JObj ps) | r => r end); [reflexivity|].
  rewrite IH. cbn [map fst snd]. destruct (set_has C k); cbn [negb first_match]; [destruct (leafOf C f v); reflexivity|reflexivity].
Qed.

Lemma first_match_undef ls : (∀ p, p ∈ ls → p.1 = false) → first_match ls = LUndef.
Proof.
  induction ls as [|[b l] ls IH]; intros H; [done|]. assert (b = false) as -> by apply (H (b, l) ltac:(left)). cbn [first_match].
  apply IH. intros p Hp. apply H. by right.
Qed.

(** Answers are valid. *)
Lemma leaf_valid C f v : ∀ s, leafOf C f v = LStr s → isValidNodeTarget isURL s f = true.
Proof.
  induction v as [| | | |s0|l IH|ps IH] using js_full_ind; intros s; try done.
  - cbn [nodeConditionLeaf]. destruct (isValidNodeTarget isURL s0 f) eqn:E; [by intros [= <-]|done].
  - rewrite leaf_array. destruct l as [|x xs]; [done|]. revert IH. generalize (x :: xs) false. clear. intros l. induction l as [|y l IHl]; intros b F; [by destruct b|].
    apply Forall_cons in F as [Hy F]. cbn [map first_valid]. destruct (leafOf C f y) as [t| |] eqn:E; [intros [= <-]; by apply Hy|apply IHl, F..].
  - rewrite leaf_object. induction ps as [|[k v] ps IHp]; [done|]. apply Forall_cons in IH as [Hv IH]. cbn [map first_match fst snd].
    destruct (set_has C k); [|by apply IHp]. destruct (leafOf C f v) as [t| |] eqn:E; [intros [= <-]; by apply Hv|done|by apply IHp].
Qed.

Definition matches (C : list string) (f : field_kind) (ps : props) : leaf := first_match (map (λ kv, (set_has C kv.1, leafOf C f kv.2)) ps).

(** An answer put back under a key: read when the key is, passed over otherwise. *)
Lemma match_answer C f k l rest : (∀ s, l = LStr s → isValidNodeTarget isURL s f = true) →
  matches C f (prop_of k (answer l) ++ rest)%list = if set_has C (js_of_string k) then match l with LUndef => matches C f rest | _ => l end else matches C f rest.
Proof.
  intros H. unfold matches. destruct l as [s| |]; cbn [answer prop_of app map fst snd first_match nodeConditionLeaf]; [rewrite H by done|..]; by destruct (set_has C (js_of_string k)).
Qed.

Lemma match_skipped C f k o rest : set_has C (js_of_string k) = false → matches C f (prop_of k o ++ rest)%list = matches C f rest.
Proof. intros H. destruct o as [v|]; [|done]. unfold matches. cbn [prop_of app map fst snd first_match]. by rewrite H. Qed.

(** A condition set that reads one of the two answers of the rewriting. *)
Definition reads (k : string) (C : list string) : Prop := set_has C (js_of_string k) = true.
Definition skips (k : string) (C : list string) : Prop := set_has C (js_of_string k) = false.
Definition no_paths (f : field_kind) (C : list string) : Prop := ∀ k, set_has C k = true → startsWith (keyPrefix f) k = false.

Definition node_set (import : bool) : list string := if import then NODE_IMPORT_CONDITIONS else NODE_REQUIRE_CONDITIONS.
Definition syntax (import : bool) : string := if import then "import" else "require".

Lemma set_has_in C k : set_has C k = true → ∃ c, c ∈ C ∧ k = js_of_string c.
Proof. unfold set_has. intros (c & Hc & E)%existsb_exists. apply bool_decide_eq_true in E. exists c. split; [by apply list_elem_of_In|done]. Qed.

Lemma node_set_no_paths import f : no_paths f (node_set import).
Proof. intros k (c & Hc & ->)%set_has_in. revert c Hc. apply Forall_forall. destruct import, f; repeat constructor. Qed.

Lemma unprefixed C f ps : no_paths f C → isConditionObject (JObj ps) (keyPrefix f) = false → leafOf C f (JObj ps) = LUndef.
Proof.
  intros Hn H. rewrite leaf_object. apply first_match_undef. intros p (kv & -> & Hkv)%list_elem_of_fmap. simpl.
  destruct (set_has C kv.1) eqn:E; [|done]. apply Hn in E. cbn in H. rewrite <- not_true_iff_false in H. destruct H.
  apply existsb_exists. exists kv. split; [by apply list_elem_of_In|]. by rewrite E.
Qed.

(** ** The answers in a rewritten target *)

Context (h : host) (dir : option jsstr).
Notation norm := (normalize isURL h dir).

(** The require target that stands in for Node's import answer: the target
    Node's import conditions reach is a condition object whose import answer is a
    wrapper over its require answer. *)
Fixpoint cjs_first (v : js) : option jsstr :=
  match v with
  | JArr items =>
      (fix go items :=
         match items with
         | [] => None
         | t :: items => match leafOf NODE_IMPORT_CONDITIONS Exports t with LStr _ => cjs_first t | _ => go items end
         end) items
  | JObj _ =>
      match leafOf NODE_IMPORT_CONDITIONS Exports v, leafOf NODE_REQUIRE_CONDITIONS Exports v with
      | LStr imp, LStr req => match wrapper_of h dir imp req with Some _ => Some req | None => None end
      | _, _ => None
      end
  | _ => None
  end.
(** What an entry answers after the rewriting. *)
Definition served (import : bool) (f : field_kind) (v : js) : leaf :=
  match f, import, leafOf (node_set import) f v with
  | Exports, true, LStr i => match cjs_first v with Some r => LStr r | None => LStr i end
  | _, _, l => l
  end.

Lemma substitution_import f subpath v : isConditionObject v (keyPrefix f) = true → match substitution isURL h dir f subpath v with Some sb => Some (JStr (sub_cjs sb)) | None => answer (leafOf NODE_IMPORT_CONDITIONS f v) end = answer (served true f v).
Proof.
  intros Hv. destruct v as [| | | | | |ps]; try done. unfold substitution, served. cbn [node_set]. destruct f; [|by destruct (leafOf NODE_IMPORT_CONDITIONS _ _)]. cbn [cjs_first].
  destruct (leafOf NODE_IMPORT_CONDITIONS Exports (JObj ps)) as [i| |]; [|done..]. destruct (leafOf NODE_REQUIRE_CONDITIONS Exports (JObj ps)) as [r| |]; [|done..]. by destruct (wrapper_of h dir i r).
Qed.
Lemma cjs_first_valid v : ∀ r, cjs_first v = Some r → isValidNodeTarget isURL r Exports = true.
Proof.
  induction v as [| | | |s0|l IH|ps IH] using js_full_ind; intros r; try done.
  - cbn [cjs_first]. induction IH as [|y ys Hy _ IHl]; [done|]. destruct (leafOf NODE_IMPORT_CONDITIONS Exports y); [apply Hy|done..].
  - cbn [cjs_first]. destruct (leafOf NODE_IMPORT_CONDITIONS _ _) as [i| |]; [|done..]. destruct (leafOf NODE_REQUIRE_CONDITIONS Exports (JObj ps)) as [q| |] eqn:E; [|done..].
    destruct (wrapper_of h dir i q); [|done]. intros [= <-]. by eapply leaf_valid.
Qed.
Lemma served_valid import f v s : served import f v = LStr s → isValidNodeTarget isURL s f = true.
Proof.
  unfold served. destruct f, import; try (apply leaf_valid). destruct (leafOf (node_set true) Exports v) as [i| |] eqn:E; [|done..].
  destruct (cjs_first v) as [r|] eqn:C; intros [= <-]; [by eapply cjs_first_valid|by eapply leaf_valid].
Qed.
Lemma served_array import f items : served import f (JArr items) = match items with [] => LNull | _ => first_valid (map (served import f) items) false end.
Proof.
  assert (Hs : ∀ l b, first_valid (map (served import f) l) b =
    match f, import, first_valid (map (leafOf (node_set import) f) l) b with
    | Exports, true, LStr i => match cjs_first (JArr l) with Some r => LStr r | None => LStr i end | _, _, x => x end).
  { intros l. induction l as [|y ys IH]; intros b; [destruct f, import, b; done|]. cbn [map first_valid]. unfold served at 1. destruct f, import; cbn [node_set cjs_first].
    - destruct (leafOf NODE_IMPORT_CONDITIONS Exports y) as [i| |]; [by destruct (cjs_first y)|apply IH..].
    - destruct (leafOf NODE_REQUIRE_CONDITIONS Exports y); [done|apply IH..].
    - destruct (leafOf NODE_IMPORT_CONDITIONS Imports y); [done|apply IH..].
    - destruct (leafOf NODE_REQUIRE_CONDITIONS Imports y); [done|apply IH..]. }
  destruct items as [|x xs]; [by destruct f, import|]. rewrite Hs. unfold served. by destruct f, import; rewrite leaf_array.
Qed.

Lemma leaf_reduced keep import f C subpath v : isConditionObject v (keyPrefix f) = true → reads (syntax import) C → skips (syntax (negb import)) C → keep = false ∨ skips "types" C →
  leafOf C f (reduced isURL h dir keep f subpath v).1 = served import f v.
Proof.
  intros Hv Hr Hs Ht. unfold reduced. cbn [fst]. rewrite substitution_import by done. rewrite leaf_object.
  fold (matches C f (prop_of "types" (if keep then match leafOf BUNDLER_TYPES_CONDITIONS f v with LStr t => if is_declaration t then Some (JStr t) else None | _ => None end else None) ++
    prop_of "import" (answer (served true f v)) ++ prop_of "require" (answer (leafOf NODE_REQUIRE_CONDITIONS f v)))%list).
  match goal with |- matches _ _ (_ ++ ?rest)%list = _ => transitivity (matches C f rest); [destruct Ht as [->|Ht]; [reflexivity|by apply match_skipped]|] end.
  rewrite match_answer by apply served_valid.
  destruct import; cbn [node_set syntax negb] in *.
  - rewrite Hr. destruct (served true f v) eqn:L; [done..|]. rewrite <- (app_nil_r (prop_of _ _)). by rewrite match_skipped.
  - rewrite Hs. rewrite <- (app_nil_r (prop_of _ _)), match_answer by apply leaf_valid. rewrite Hr. unfold served. cbn [node_set]. by destruct f, (leafOf NODE_REQUIRE_CONDITIONS _ v).
Qed.
(** *** What stands in for Node's answer *)

(** Node's import conditions reach the target [o]: through fallback lists, past
    the items that answer no text. *)
Inductive picks : js → js → Prop :=
  | picks_here v i : (∀ l, v ≠ JArr l) → leafOf NODE_IMPORT_CONDITIONS Exports v = LStr i → picks v v
  | picks_item pre t post o : (∀ x s, x ∈ pre → leafOf NODE_IMPORT_CONDITIONS Exports x ≠ LStr s) → picks t o → picks (JArr (pre ++ t :: post)%list) o.
(** They reach a condition object whose import answer is a wrapper over its
    require answer [r]. *)
Definition wrapper_dual (v : js) (r : jsstr) : Prop := ∃ ps i d src sh, picks v (JObj ps) ∧
  leafOf NODE_IMPORT_CONDITIONS Exports (JObj ps) = LStr i ∧ leafOf NODE_REQUIRE_CONDITIONS Exports (JObj ps) = LStr r ∧
  dir = Some d ∧ i ≠ r ∧ 42%Z ∉ i ∧ 42%Z ∉ r ∧ nodeLoadsAsCjs h (resolve2 h d r) = true ∧
  readFile h (resolve2 h d i) = Some src ∧ wrapperShapeOf h src (resolve2 h d i) (resolve2 h d r) = Some sh.

Lemma first_valid_str ls b s : first_valid ls b = LStr s → ∃ pre post, ls = (pre ++ LStr s :: post)%list ∧ ∀ l u, l ∈ pre → l ≠ LStr u.
Proof.
  revert b. induction ls as [|l ls IH]; intros b; [by destruct b|]. destruct l as [u| |]; cbn [first_valid].
  - intros [= ->]. exists [], ls. split; [done|]. intros l u []%elem_of_nil.
  - intros H. destruct (IH _ H) as (pre & post & -> & Hp). exists (LNull :: pre), post. split; [done|]. intros l u [->|Hl]%elem_of_cons; [done|by apply Hp].
  - intros H. destruct (IH _ H) as (pre & post & -> & Hp). exists (LUndef :: pre), post. split; [done|]. intros l u [->|Hl]%elem_of_cons; [done|by apply Hp].
Qed.
Lemma picks_leaf v o : picks v o → leafOf NODE_IMPORT_CONDITIONS Exports v = leafOf NODE_IMPORT_CONDITIONS Exports o ∧ ∃ i, leafOf NODE_IMPORT_CONDITIONS Exports o = LStr i.
Proof.
  induction 1 as [v i Hv E|pre t post o Hpre _ [IH [i Hi]]]; [split; [done|by exists i]|]. split; [|by exists i]. rewrite leaf_array.
  assert (H : ∀ b, first_valid (map (leafOf NODE_IMPORT_CONDITIONS Exports) (pre ++ t :: post)%list) b = leafOf NODE_IMPORT_CONDITIONS Exports o).
  { revert Hpre. induction pre as [|x pre IHp]; intros Hpre b; cbn [app map first_valid]; [by rewrite IH, Hi|]. pose proof (Hpre x) as Hx.
    destruct (leafOf NODE_IMPORT_CONDITIONS Exports x) as [s| |]; [by destruct (Hx s); [left|]|apply IHp..]; intros y s Hy; apply Hpre; by right. }
  destruct pre; apply H.
Qed.
Lemma cjs_first_skip pre t post s : (∀ x u, x ∈ pre → leafOf NODE_IMPORT_CONDITIONS Exports x ≠ LStr u) → leafOf NODE_IMPORT_CONDITIONS Exports t = LStr s →
  cjs_first (JArr (pre ++ t :: post)%list) = cjs_first t.
Proof.
  intros Hpre Ht. induction pre as [|x pre IH]; cbn [app]; [cbn [cjs_first]; by rewrite Ht|]. etransitivity; [|apply IH; intros y u Hy; apply Hpre; by right].
  pose proof (Hpre x) as Hx. cbn [cjs_first]. destruct (leafOf NODE_IMPORT_CONDITIONS Exports x) as [u| |]; [by destruct (Hx u); [left|]|done..].
Qed.
Lemma cjs_first_pick v o : picks v o → cjs_first v = cjs_first o.
Proof.
  induction 1 as [v i Hv E|pre t post o Hpre Hp IH]; [done|]. destruct (picks_leaf t o Hp) as [E [i Hi]]. rewrite <- IH. apply (cjs_first_skip _ _ _ i); [done|congruence].
Qed.
Lemma cjs_first_picks v r : cjs_first v = Some r → ∃ ps, picks v (JObj ps) ∧ cjs_first (JObj ps) = Some r.
Proof.
  induction v as [| | | |s0|l IH|ps IH] using js_full_ind; try done.
  - intros Hl. assert (∃ pre t post s, l = (pre ++ t :: post)%list ∧ (∀ x u, x ∈ pre → leafOf NODE_IMPORT_CONDITIONS Exports x ≠ LStr u) ∧ leafOf NODE_IMPORT_CONDITIONS Exports t = LStr s) as (pre & t & post & s & -> & Hpre & Ht).
    { clear IH. induction l as [|x l IHl]; [done|]. cbn [cjs_first] in Hl. destruct (leafOf NODE_IMPORT_CONDITIONS Exports x) as [s| |] eqn:E.
      - exists [], x, l, s. split; [done|]. split; [|done]. intros y u []%elem_of_nil.
      - destruct (IHl Hl) as (pre & t & post & s & -> & Hpre & Ht). exists (x :: pre), t, post, s. split; [done|]. split; [|done]. intros y u [->|Hy]%elem_of_cons; [congruence|by apply Hpre].
      - destruct (IHl Hl) as (pre & t & post & s & -> & Hpre & Ht). exists (x :: pre), t, post, s. split; [done|]. split; [|done]. intros y u [->|Hy]%elem_of_cons; [congruence|by apply Hpre]. }
    rewrite (cjs_first_skip _ _ _ s) in Hl by done. rewrite Forall_forall in IH. destruct (IH t ltac:(apply elem_of_app; right; by left) Hl) as (ps & Hp & Hc). exists ps. split; [by apply picks_item|done].
  - intros Hc. exists ps. split; [|done]. cbn [cjs_first] in Hc. destruct (leafOf NODE_IMPORT_CONDITIONS Exports (JObj ps)) as [i| |] eqn:E; [|done..]. by apply (picks_here _ i).
Qed.
Lemma cjs_first_iff v r : cjs_first v = Some r ↔ wrapper_dual v r.
Proof.
  assert (Ho : ∀ ps, cjs_first (JObj ps) = Some r ↔ ∃ i d src sh, leafOf NODE_IMPORT_CONDITIONS Exports (JObj ps) = LStr i ∧ leafOf NODE_REQUIRE_CONDITIONS Exports (JObj ps) = LStr r ∧
    dir = Some d ∧ i ≠ r ∧ 42%Z ∉ i ∧ 42%Z ∉ r ∧ nodeLoadsAsCjs h (resolve2 h d r) = true ∧ readFile h (resolve2 h d i) = Some src ∧ wrapperShapeOf h src (resolve2 h d i) (resolve2 h d r) = Some sh).
  { intros ps. cbn [cjs_first]. destruct (leafOf NODE_IMPORT_CONDITIONS Exports (JObj ps)) as [i| |]; [|naive_solver..]. destruct (leafOf NODE_REQUIRE_CONDITIONS Exports (JObj ps)) as [q| |]; [|naive_solver..]. split.
    - destruct (wrapper_of h dir i q) as [sh|] eqn:E; [|done]. intros [= <-]. apply wrapper_of_iff in E as (d & src & E). exists i, d, src, sh. split; [done|]. split; done.
    - intros (i' & d & src & sh & [= <-] & [= <-] & E). pose proof (proj2 (wrapper_of_iff h dir i q sh) (ex_intro _ d (ex_intro _ src E))) as ->. done. }
  split.
  - intros (ps & Hp & Hc)%cjs_first_picks. apply Ho in Hc as (i & d & src & sh & Hc). by exists ps, i, d, src, sh.
  - intros (ps & i & d & src & sh & Hp & Hc). rewrite (cjs_first_pick _ _ Hp). apply Ho. by exists i, d, src, sh.
Qed.

Lemma served_unprefixed import f ps : isConditionObject (JObj ps) (keyPrefix f) = false → served import f (JObj ps) = LUndef.
Proof. intros H. unfold served. destruct f, import; by rewrite unprefixed by (exact H || apply node_set_no_paths). Qed.

(** A resolver that reads "import" and not "require" gets the served answer to an
    import from the rewritten target, and the other way round. *)
Lemma leaf_normalize keep import f C subpath : reads (syntax import) C → skips (syntax (negb import)) C → keep = false ∨ skips "types" C → no_paths f C →
  ∀ v, leafOf C f (norm keep f subpath v).1 = served import f v.
Proof.
  intros Hr Hs Ht Hn v. induction v as [| | | |s0|l IH|ps IH] using js_full_ind; try (by destruct f, import).
  - unfold served. cbn. by destruct f, import, (isValidNodeTarget isURL s0 _).
  - cbn [normalize fst]. rewrite leaf_array, served_array. destruct l as [|x xs]; [done|]. cbn [map]. inversion IH as [|? ? Hx F]; subst.
    assert (E : map (leafOf C f) ((norm keep f subpath x).1 :: map fst (map (norm keep f subpath) xs)) = map (served import f) (x :: xs)); [|cbn [map] in E |- *; by rewrite E].
    cbn [map]. rewrite Hx. f_equal. clear -F. induction F as [|y ys Hy F IHF]; [done|]. cbn [map]. by rewrite Hy, IHF.
  - unfold normalize. destruct (isConditionObject (JObj ps) (keyPrefix f)) eqn:E; cbn [negb].
    + by apply leaf_reduced.
    + cbn [fst]. rewrite unprefixed, served_unprefixed by done. done.
Qed.
End answers.
