(* ===== verification/ExportsMap.v ===== *)
(** * The exports map of a package

    src/packages/compiler/src/frontend/resolve.ts: the lookup of a subpath in
    a package.json "exports" value (exact keys, then the patterns with the
    longest literal prefix) and the reading of the target it finds, for the
    condition sets of an import and a require.  The lookup is composed with
    the rewriting of NodeConditions.v: a package compiled from its own
    JavaScript is resolved in its rewritten document. *)

From S2P Require Import Prelude F64 Bytes IrJson WrapperDuals NodeConditions.

#[local] Open Scope string_scope.

Definition EXPORT_CONDITIONS : list string := ["types"; "import"; "default"].
Definition JS_ONLY_CONDITIONS : list string := ["import"; "default"].
Definition JS_ONLY_REQUIRE_CONDITIONS : list string := ["require"; "default"].
Definition js_only (import : bool) : list string := if import then JS_ONLY_CONDITIONS else JS_ONLY_REQUIRE_CONDITIONS.

(** ** Targets *)

Definition star : Z := 42.
(** [target.split("*").join(wildcard)] *)
Definition split_join (wildcard target : jsstr) : jsstr := flat_map (λ c, if (c =? star)%Z then wildcard else [c]) target.
Definition expand (wildcard : option jsstr) (target : jsstr) : jsstr := match wildcard with None => target | Some w => split_join w target end.
(** [if (r) return r;] *)
Definition truthy (r : option jsstr) : bool := match r with Some (_ :: _) => true | _ => false end.

Fixpoint resolveTarget (conditions : list string) (wildcard : option jsstr) (target : js) : option jsstr :=
  match target with
  | JStr s => Some (expand wildcard s)
  | JArr items =>
      (fix go items := match items with [] => None | t :: items => let r := resolveTarget conditions wildcard t in if truthy r then r else go items end) items
  | JObj props =>
      (fix go props :=
         match props with
         | [] => None
         | kv :: props =>
             if startsWith "." kv.1 then go props
             else if set_has conditions kv.1 then let r := resolveTarget conditions wildcard kv.2 in if truthy r then r else go props
             else go props
         end) props
  | _ => None
  end.

(** ** Subpaths *)

Record pattern := mkPattern { key : jsstr; prefix : jsstr; suffix : jsstr }.
(** The two sides of the first star. *)
Fixpoint at_star (k : jsstr) : option (jsstr * jsstr) :=
  match k with
  | [] => None
  | c :: k => if (c =? star)%Z then Some ([], k) else '(p, s) ← at_star k; Some (c :: p, s)
  end.
Definition starts (p s : jsstr) : bool := bool_decide (take (length p) s = p).
Definition ends (p s : jsstr) : bool := bool_decide (drop (length s - length p) s = p).
Definition fits (subpath prefix suffix : jsstr) : bool :=
  starts prefix subpath && (length prefix + length suffix <=? length subpath)%nat && ends suffix subpath.
Definition longer (p : jsstr) (best : option pattern) : bool :=
  match best with None => true | Some b => (length (prefix b) <? length p)%nat end.

(** The loop over the keys: the longest literal prefix, the first of several. *)
Fixpoint best_pattern (subpath : jsstr) (keys : list jsstr) (best : option pattern) : option pattern :=
  match keys with
  | [] => best
  | k :: keys =>
      match at_star k with
      | None => best_pattern subpath keys best
      | Some (p, s) => best_pattern subpath keys (if fits subpath p s && longer p best then Some (mkPattern k p s) else best)
      end
  end.
Definition wildcard_of (subpath : jsstr) (b : pattern) : jsstr :=
  take (length subpath - length (suffix b) - length (prefix b)) (drop (length (prefix b)) subpath).

Definition root : jsstr := js_of_string ".".
Definition has_own (k : jsstr) (map : props) : bool := existsb (λ kv, bool_decide (k = kv.1)) map.
Definition keys_of (map : props) : list jsstr := List.map fst map.

Definition resolveExportsTypes (exports : js) (subpath : jsstr) (conditions : list string) : option jsstr :=
  let whole := if bool_decide (subpath = root) then resolveTarget conditions None exports else None in
  match exports with
  | JStr _ | JArr _ => whole
  | JObj map =>
      if negb (forallb (startsWith ".") (keys_of map)) then whole
      else if has_own subpath map then resolveTarget conditions None (get subpath map)
      else
        match best_pattern subpath (keys_of map) None with
        | None => None
        | Some best => resolveTarget conditions (Some (wildcard_of subpath best)) (get (key best) map)
        end
  | _ => None
  end.

(** The imports field is looked up as an exports map, "#" for ".". *)
Definition rekey (map : props) : props :=
  flat_map (λ kv, if startsWith "#" kv.1 then [(js_of_string "." ++ drop 1 kv.1, kv.2)%list] else []) map.
Definition resolveImportsField (imports : js) (specifier : jsstr) (conditions : list string) : option jsstr :=
  match imports with
  | JObj map => resolveExportsTypes (JObj (rekey map)) (js_of_string "." ++ drop 1 specifier)%list conditions
  | _ => None
  end.

(** frontend/npm-static.ts: the document an opted-in package is read through. *)
Definition delete_prop (k : jsstr) (ps : props) : props := List.filter (λ kv, negb (bool_decide (k = kv.1))) ps.
Definition npmStaticTransformPkgJson (isURL : jsstr → bool) (h : host) (pkgDir : option jsstr) (pkg : props) : props * list WrapperSubstitution :=
  reduceConditionTargets isURL h pkgDir false (delete_prop (js_of_string "typings") (delete_prop (js_of_string "types") pkg)).

Definition sample_pkg : props :=
  [(js_of_string "types", js_str "./t.d.ts");
   (js_of_string "exports", js_obj [
     (".", sample_exports);
     ("./lib/*", js_obj [("node", js_str "./n/*"); ("default", js_str "./d/*")]);
     ("./lib/deep/*.js", JArr [JNull; js_str "./deep/*.mjs"]);
     ("./hidden/*", JNull)])].
Example resolved_sample :
  let exp := get (js_of_string "exports") (npmStaticTransformPkgJson (λ _, false) no_files None sample_pkg).1 in
  let at_ import p := resolveExportsTypes exp (js_of_string p) (js_only import) in
  (at_ true ".", at_ false ".", at_ true "./lib/a/b", at_ true "./lib/deep/x/y.js", at_ true "./hidden/x", at_ true "./other") =
  (Some (js_of_string "./esm.mjs"), Some (js_of_string "./cjs.cjs"), Some (js_of_string "./n/a/b"), Some (js_of_string "./deep/x/y.mjs"), None, None).
Proof. vm_compute. reflexivity. Qed.

(** ** The answer in the rewritten document *)

(** What an entry gives for an answer of Node. *)
Definition leaf_answer (wildcard : option jsstr) (l : leaf) : option jsstr := match l with LStr s => Some (expand wildcard s) | _ => None end.

(** The target a subpath reaches and what its stars stand for. *)
Definition sugar (exports : js) : bool :=
  match exports with JStr _ | JArr _ => true | JObj map => negb (forallb (startsWith ".") (keys_of map)) | _ => false end.
Definition exports_target (exports : js) (subpath : jsstr) : option (js * option jsstr) :=
  if sugar exports then (if bool_decide (subpath = root) then Some (exports, None) else None)
  else
    match exports with
    | JObj map =>
        if has_own subpath map then Some (get subpath map, None)
        else b ← best_pattern subpath (keys_of map) None; Some (get (key b) map, Some (wildcard_of subpath b))
    | _ => None
    end.

Lemma resolve_via C exports subpath :
  resolveExportsTypes exports subpath C = '(t, w) ← exports_target exports subpath; resolveTarget C w t.
Proof.
  unfold exports_target. destruct exports as [| | | |s|l|map]; try done; cbn [resolveExportsTypes sugar]; try by destruct (bool_decide _).
  destruct (forallb _ _); cbn [negb]; [|by destruct (bool_decide _)]. destruct (has_own _ _); [done|]. by destruct (best_pattern _ _ _).
Qed.

(** Texts that stand outside every condition object. *)
Fixpoint plain_ok (isURL : jsstr → bool) (v : js) : bool :=
  match v with
  | JStr s => isValidNodeTarget isURL s Exports
  | JArr items => forallb (plain_ok isURL) items
  | _ => true
  end.

Lemma valid_expands isURL s w : isValidNodeTarget isURL s Exports = true → truthy (Some (expand w s)) = true.
Proof.
  unfold isValidNodeTarget. destruct (startsWith "./" s) eqn:E; [|done]. intros _. apply bool_decide_eq_true in E.
  destruct s as [|c s]; [done|]. change (c :: take 1 s = [46; 47]%Z) in E. injection E as -> _. by destruct w.
Qed.

Section rewritten.
Context (isURL : jsstr → bool) (h : host) (dir : option jsstr) (import : bool) (w : option jsstr).
Notation resolve := (resolveTarget (js_only import) w).
Notation served := (served isURL h dir import Exports).
Notation norm := (normalize isURL h dir false Exports).

Lemma served_truthy v : truthy (leaf_answer w (served v)) = match served v with LStr _ => true | _ => false end.
Proof. pose proof (served_valid isURL h dir import Exports v) as H. destruct (served v) as [s| |]; [|done..]. by apply (valid_expands isURL), H. Qed.

Lemma resolve_prop k l rest : startsWith "." (js_of_string k) = false → (∀ s, l = LStr s → isValidNodeTarget isURL s Exports = true) →
  resolve (JObj (prop_of k (answer l) ++ rest)%list) =
  if set_has (js_only import) (js_of_string k) then match l with LStr s => Some (expand w s) | _ => resolve (JObj rest) end else resolve (JObj rest).
Proof.
  intros Hk Hl. destruct l as [s| |]; [|unfold prop_of, answer..].
  - transitivity (if set_has (js_only import) (js_of_string k) then if truthy (Some (expand w s)) then Some (expand w s) else resolve (JObj rest) else resolve (JObj rest)).
    + cbn [answer prop_of app]. cbn [resolveTarget]. cbn [fst snd]. by rewrite Hk.
    + by rewrite (valid_expands isURL) by by apply Hl.
  - transitivity (if set_has (js_only import) (js_of_string k) then resolve (JObj rest) else resolve (JObj rest)); [|done].
    cbn [app resolveTarget]. cbn [fst snd]. by rewrite Hk.
  - by destruct (set_has _ _).
Qed.

Lemma resolve_reduced subpath v : isConditionObject v "." = true → resolve (reduced isURL h dir false Exports subpath v).1 = leaf_answer w (served v).
Proof.
  intros Hv. unfold reduced. cbn [fst prop_of]. rewrite substitution_import by done. rewrite app_nil_l, resolve_prop; [|done|intros s; apply served_valid].
  rewrite <- (app_nil_r (prop_of "require" _)), !resolve_prop; [|done|apply leaf_valid].
  unfold NodeConditions.served. destruct import; cbn -[nodeConditionLeaf cjs_first]; destruct (nodeConditionLeaf _ _ _ _); try done; by destruct (cjs_first _ _ _ _).
Qed.

Lemma resolve_normalize subpath v : plain_ok isURL v = true → resolve (norm subpath v).1 = leaf_answer w (served v).
Proof.
  induction v as [| | | |s|l IH|ps IH] using js_full_ind; intros Hv; try by destruct import.
  - cbn [plain_ok] in Hv. unfold NodeConditions.served. cbn. rewrite Hv. by destruct import.
  - rewrite served_array. cbn [plain_ok] in Hv. cbn [normalize fst].
    enough (H : ∀ b, resolve (JArr (map fst (map (norm subpath) l))) = leaf_answer w (first_valid (map served l) b)) by (destruct l; [done|apply (H false)]).
    revert Hv. induction IH as [|y ys Hy _ IH]; intros Hv b; [by destruct b|]. apply andb_prop in Hv as [Hv Hvs].
    transitivity (if truthy (resolve (norm subpath y).1) then resolve (norm subpath y).1 else resolve (JArr (map fst (map (norm subpath) ys)))); [reflexivity|].
    rewrite Hy, served_truthy by done. cbn [map first_valid]. destruct (served y); [done|by apply IH..].
  - unfold normalize. destruct (isConditionObject (JObj ps) (keyPrefix Exports)) eqn:E; cbn [negb]; [by apply resolve_reduced|].
    rewrite served_unprefixed by done. cbn [leaf_answer fst]. cbn in E. clear IH Hv. induction ps as [|kv ps IHp]; [done|].
    cbn [existsb] in E. apply orb_false_elim in E as [Ek E]. apply negb_false_iff in Ek.
    transitivity (resolve (JObj ps)); [|by apply IHp]. cbn [resolveTarget]. by rewrite Ek.
Qed.
End rewritten.

(** ** The rewritten document as a record *)

Lemma get_on_values (g : jsstr → js → js * list WrapperSubstitution) k ps : (∀ k, (g k JUndef).1 = JUndef) → get k (map (λ kr, (kr.1, kr.2.1)) (map (λ kv, (kv.1, g kv.1 kv.2)) ps)) = (g k (get k ps)).1.
Proof.
  intros Hg. induction ps as [|[k' v] ps IH]; [done|]. cbn [map get fst snd]. destruct (bool_decide (k = k')) eqn:E; [|done]. apply bool_decide_eq_true in E as ->. done.
Qed.
Lemma get_set_prop k v ps : get k ps ≠ JUndef → get k (set_prop k v ps) = v.
Proof.
  induction ps as [|[k' v'] ps IH]; [done|]. cbn [get set_prop fst]. destruct (bool_decide (k = k')) eqn:E; intros H; cbn [get]; [by rewrite bool_decide_true|].
  rewrite E. by apply IH.
Qed.
Lemma get_set_other k k' v ps : k ≠ k' → get k (set_prop k' v ps) = get k ps.
Proof.
  intros Hk. induction ps as [|[j u] ps IH]; [done|]. cbn [get set_prop fst]. destruct (bool_decide (k' = j)) eqn:E; cbn [get].
  - apply bool_decide_eq_true in E as <-. by rewrite !bool_decide_false.
  - by rewrite IH.
Qed.
Lemma get_delete k k' ps : k ≠ k' → get k (delete_prop k' ps) = get k ps.
Proof.
  intros Hk. induction ps as [|[j u] ps IH]; [done|]. unfold delete_prop in *. cbn [List.filter fst get]. destruct (bool_decide (k' = j)) eqn:E; cbn [negb get].
  - apply bool_decide_eq_true in E as <-. by rewrite IH, bool_decide_false.
  - by rewrite IH.
Qed.

Lemma keys_of_values (g : jsstr → js → js * list WrapperSubstitution) ps : keys_of (map (λ kr, (kr.1, kr.2.1)) (map (λ kv, (kv.1, g kv.1 kv.2)) ps)) = keys_of ps.
Proof. unfold keys_of. rewrite !List.map_map. by apply List.map_ext. Qed.
Lemma has_own_values (g : jsstr → js → js * list WrapperSubstitution) k ps : has_own k (map (λ kr, (kr.1, kr.2.1)) (map (λ kv, (kv.1, g kv.1 kv.2)) ps)) = has_own k ps.
Proof. unfold has_own. induction ps as [|kv ps IH]; [done|]. cbn [map existsb fst]. by rewrite IH. Qed.

Lemma get_exports isURL h dir pkg :
  get (js_of_string "exports") (npmStaticTransformPkgJson isURL h dir pkg).1 = (reduce_exports isURL h dir false (get (js_of_string "exports") pkg)).1.
Proof.
  unfold npmStaticTransformPkgJson. set (pkg' := delete_prop _ _).
  assert (get (js_of_string "exports") pkg' = get (js_of_string "exports") pkg) as <- by by unfold pkg'; rewrite !get_delete. generalize pkg'. clear. intros pkg.
  unfold reduceConditionTargets. set (p := match get (js_of_string "exports") pkg with JUndef => _ | _ => _ end).
  transitivity (get (js_of_string "exports") p.1).
  - destruct p as [p subs]. cbn [fst]. destruct (get (js_of_string "imports") p); try done. destruct (on_values _ _) as [v subs']. cbn [fst]. by rewrite get_set_other.
  - unfold p. destruct (get (js_of_string "exports") pkg) eqn:E; try (destruct (reduce_exports _ _ _ _ _) as [v subs]; cbn [fst]; rewrite get_set_prop by congruence; done). done.
Qed.

(** A map whose keys are all paths stays a map. *)
Lemma not_condition ps : isConditionObject (JObj ps) "." = negb (forallb (startsWith ".") (keys_of ps)).
Proof. cbn. unfold keys_of. induction ps as [|kv ps IH]; [done|]. cbn [existsb map forallb fst]. rewrite IH. by destruct (startsWith _ _). Qed.


(** ** Answers in the rewritten exports *)

(** The answer of Node's own conditions for an entry of the document as it
    was published. *)
Definition node_answer (isURL : jsstr → bool) (import : bool) (exports : js) (subpath : jsstr) : option jsstr :=
  '(t, w) ← exports_target exports subpath; leaf_answer w (nodeConditionLeaf isURL (node_set import) Exports t).

Lemma reduced_condition isURL h dir subpath v : (reduced isURL h dir false Exports subpath v).1 = JObj [] ∨ isConditionObject (reduced isURL h dir false Exports subpath v).1 "." = true.
Proof.
  unfold reduced. cbn [fst]. generalize (match substitution isURL h dir Exports subpath v with Some sb => Some (JStr (sub_cjs sb)) | None => answer (nodeConditionLeaf isURL NODE_IMPORT_CONDITIONS Exports v) end).
  intros o. destruct o, (nodeConditionLeaf isURL NODE_REQUIRE_CONDITIONS _ _); vm_compute; auto.
Qed.

Lemma resolves_rewritten isURL h dir import exp subpath :
  (∀ t w, exports_target exp subpath = Some (t, w) → plain_ok isURL t = true) →
  resolveExportsTypes (reduce_exports isURL h dir false exp).1 subpath (js_only import) = '(t, w) ← exports_target exp subpath; leaf_answer w (served isURL h dir import Exports t).
Proof.
  intros Hok. destruct exp as [| | | |s|l|map]; try done.
  - unfold exports_target in *. cbn [sugar] in *. change (reduce_exports isURL h dir false (JStr s)) with (normalize isURL h dir false Exports (js_of_string ".") (JStr s)).
    transitivity (if bool_decide (subpath = root) then resolveTarget (js_only import) None (normalize isURL h dir false Exports (js_of_string ".") (JStr s)).1 else None); [done|].
    destruct (bool_decide (subpath = root)); [|done]. by apply resolve_normalize, (Hok _ None).
  - unfold exports_target in *. cbn [sugar] in *. change (reduce_exports isURL h dir false (JArr l)) with (normalize isURL h dir false Exports (js_of_string ".") (JArr l)).
    transitivity (if bool_decide (subpath = root) then resolveTarget (js_only import) None (normalize isURL h dir false Exports (js_of_string ".") (JArr l)).1 else None); [done|].
    destruct (bool_decide (subpath = root)); [|done]. by apply resolve_normalize, (Hok _ None).
  - unfold reduce_exports. rewrite not_condition. unfold exports_target in *. cbn [sugar] in *. destruct (forallb _ _) eqn:E; cbn [negb] in *.
    + cbn [on_values fst resolveExportsTypes]. rewrite keys_of_values, E, has_own_values. cbn [negb]. destruct (has_own _ _).
      * rewrite get_on_values by done. by apply resolve_normalize, (Hok _ None).
      * destruct (best_pattern _ _ _) as [b|]; [|done]. rewrite get_on_values by done. apply resolve_normalize. by eapply Hok.
    + assert (normalize isURL h dir false Exports (js_of_string ".") (JObj map) = reduced isURL h dir false Exports (js_of_string ".") (JObj map)) as -> by (unfold normalize; cbn [keyPrefix]; by rewrite not_condition, E).
      transitivity (if bool_decide (subpath = root) then leaf_answer None (served isURL h dir import Exports (JObj map)) else None); [|by destruct (bool_decide _)].
      rewrite <- (resolve_reduced isURL h dir import None (js_of_string ".")) by by rewrite not_condition, E. destruct (reduced_condition isURL h dir (js_of_string ".") (JObj map)) as [H|H].
      * rewrite H. transitivity (@None jsstr); [reflexivity|by destruct (bool_decide _)].
      * destruct (reduced isURL h dir false Exports (js_of_string ".") (JObj map)) as [[| | | | | |qs] subs]; try done. cbn [fst] in *. rewrite not_condition in H. cbn [resolveExportsTypes]. by rewrite H.
Qed.

(** ** The pattern chosen *)

#[local] Open Scope nat_scope.

(** The literal prefix and suffix of a key that a subpath fits. *)
Definition candidate (subpath k : jsstr) : option (jsstr * jsstr) := '(p, s) ← at_star k; if fits subpath p s then Some (p, s) else None.

Lemma fits_split subpath p s : fits subpath p s = true →
  subpath = (p ++ take (length subpath - length s - length p) (drop (length p) subpath) ++ s)%list.
Proof.
  unfold fits. intros [[Hp Hl]%andb_prop Hs]%andb_prop. apply bool_decide_eq_true in Hp, Hs. apply Nat.leb_le in Hl.
  assert (E : drop (length subpath - length s - length p) (drop (length p) subpath) = s) by (rewrite drop_drop; replace (length p + (length subpath - length s - length p)) with (length subpath - length s) by lia; exact Hs).
  transitivity (take (length p) subpath ++ drop (length p) subpath)%list; [by rewrite take_drop|]. rewrite Hp. f_equal.
  transitivity (take (length subpath - length s - length p) (drop (length p) subpath) ++ drop (length subpath - length s - length p) (drop (length p) subpath))%list; [by rewrite take_drop|].
  by rewrite E.
Qed.

Lemma at_star_split k p s : at_star k = Some (p, s) → k = (p ++ star :: s)%list ∧ star ∉ p.
Proof.
  revert p. induction k as [|c k IH]; intros p; [done|]. cbn [at_star]. destruct (c =? star)%Z eqn:E.
  - intros [= <- <-]. apply Z.eqb_eq in E as ->. split; [done|]. by apply not_elem_of_nil.
  - destruct (at_star k) as [[p' s']|]; [|done]. intros [= <- <-]. destruct (IH p' eq_refl) as [-> Hn]. split; [done|].
    apply not_elem_of_cons. split; [|done]. intros <-. by rewrite Z.eqb_refl in E.
Qed.

Lemma best_step subpath k keys best : best_pattern subpath (k :: keys) best =
  best_pattern subpath keys (match candidate subpath k with Some (p, s) => if longer p best then Some (mkPattern k p s) else best | None => best end).
Proof. cbn [best_pattern]. unfold candidate. destruct (at_star k) as [[p s]|]; cbn; [|done]. by destruct (fits subpath p s). Qed.

(** What holds of the prefix of every key that fits. *)
Definition fitting (subpath : jsstr) (P : nat → Prop) (keys : list jsstr) : Prop := ∀ k p s, k ∈ keys → candidate subpath k = Some (p, s) → P (length p).
Lemma fitting_cons subpath (P : nat → Prop) k keys : (∀ p s, candidate subpath k = Some (p, s) → P (length p)) → fitting subpath P keys → fitting subpath P (k :: keys).
Proof. intros Hk H k' p s [->|Hin]%elem_of_cons; [apply Hk|by apply (H k' p s)]. Qed.
Lemma fitting_nil subpath P : fitting subpath P [].
Proof. by intros k p s []%elem_of_nil. Qed.

(** The first key of the list among those that fit with the longest prefix. *)
Definition chosen (subpath : jsstr) (keys : list jsstr) (b : pattern) : Prop :=
  candidate subpath (key b) = Some (prefix b, suffix b) ∧
  ∃ before after, keys = (before ++ key b :: after)%list ∧
    fitting subpath (λ n, n < length (prefix b)) before ∧ fitting subpath (λ n, n ≤ length (prefix b)) after.

Lemma best_kept subpath keys : ∀ b, match best_pattern subpath keys (Some b) with
  | None => False
  | Some b' => b' = b ∧ fitting subpath (λ n, n ≤ length (prefix b)) keys ∨ chosen subpath keys b' ∧ length (prefix b) < length (prefix b')
  end.
Proof.
  induction keys as [|k keys IH]; intros b; [left; split; [done|apply fitting_nil]|]. rewrite best_step. destruct (candidate subpath k) as [[p s]|] eqn:E.
  - unfold longer. destruct (Nat.ltb_spec (length (prefix b)) (length p)) as [Hl|Hl]; [specialize (IH (mkPattern k p s))|specialize (IH b)];
      destruct (best_pattern subpath keys _) as [b'|]; try done; destruct IH as [[-> IH]|[[Hc (before & after & -> & Hb & Ha)] Hlt]].
    + right. split; [|done]. split; [done|]. exists [], keys. split; [done|]. split; [apply fitting_nil|done].
    + right. cbn in Hlt. split; [|lia]. split; [done|]. exists (k :: before), after. split; [done|]. split; [|done]. apply fitting_cons; [|done]. intros p' s'. rewrite E. intros [= <- <-]. lia.
    + left. split; [done|]. apply fitting_cons; [|done]. intros p' s'. rewrite E. intros [= <- <-]. lia.
    + right. split; [|done]. split; [done|]. exists (k :: before), after. split; [done|]. split; [|done]. apply fitting_cons; [|done]. intros p' s'. rewrite E. intros [= <- <-]. lia.
  - specialize (IH b). destruct (best_pattern subpath keys _) as [b'|]; [|done]. destruct IH as [[-> IH]|[[Hc (before & after & -> & Hb & Ha)] Hlt]].
    + left. split; [done|]. apply fitting_cons; [|done]. by rewrite E.
    + right. split; [|done]. split; [done|]. exists (k :: before), after. split; [done|]. split; [|done]. apply fitting_cons; [|done]. by rewrite E.
Qed.

(** The loop over the keys answers the chosen key, and nothing only when no
    key fits. *)
Lemma best_pattern_spec subpath keys : match best_pattern subpath keys None with Some b => chosen subpath keys b | None => ∀ k, k ∈ keys → candidate subpath k = None end.
Proof.
  induction keys as [|k keys IH]; [by intros k []%elem_of_nil|]. rewrite best_step. destruct (candidate subpath k) as [[p s]|] eqn:E; cbn [longer]; cbv iota.
  - pose proof (best_kept subpath keys (mkPattern k p s)) as H. destruct (best_pattern subpath keys (Some (mkPattern k p s))) as [b|]; [|done].
    destruct H as [[-> H]|[[Hc (before & after & -> & Hb & Ha)] Hlt]]; (split; [done|]).
    + exists [], keys. split; [done|]. split; [apply fitting_nil|done].
    + cbn in Hlt. exists (k :: before), after. split; [done|]. split; [|done]. apply fitting_cons; [|done]. intros p' s'. rewrite E. intros [= <- <-]. lia.
  - destruct (best_pattern subpath keys None) as [b|].
    + destruct IH as [Hc (before & after & -> & Hb & Ha)]. split; [done|]. exists (k :: before), after. split; [done|]. split; [|done]. apply fitting_cons; [|done]. by rewrite E.
    + intros k' [->|Hk]%elem_of_cons; [done|by apply IH].
Qed.

Lemma candidate_split subpath k p s : candidate subpath k = Some (p, s) → k = (p ++ star :: s)%list ∧ subpath = (p ++ take (length subpath - length s - length p) (drop (length p) subpath) ++ s)%list.
Proof.
  unfold candidate. destruct (at_star k) as [[p' s']|] eqn:E; [|done]. cbn. destruct (fits subpath p' s') eqn:F; [|done]. intros [= <- <-].
  apply at_star_split in E as [-> _]. split; [done|]. by apply fits_split.
Qed.

Lemma expand_plain w r : star ∉ r → expand w r = r.
Proof.
  intros Hr. destruct w as [w|]; [|done]. cbn [expand]. unfold split_join. induction r as [|c r IH]; [done|]. cbn [flat_map].
  apply not_elem_of_cons in Hr as [Hc Hr]. rewrite (proj2 (Z.eqb_neq c star)) by congruence. cbn [app]. by rewrite IH.
Qed.
Lemma wrapper_dual_plain isURL h dir t r : wrapper_dual isURL h dir t r → star ∉ r.
Proof. by intros (? & ? & ? & ? & ? & _ & _ & _ & _ & _ & _ & ? & _). Qed.

(** C16. A package compiled from its own JavaScript is resolved in the
    document npmStaticTransformPkgJson rewrites, under "import" and "default"
    for an import and under "require" and "default" for a require.  For every
    subpath whose target holds, outside condition objects, only texts Node
    accepts: a require gets the answer Node's own conditions give for the entry
    of the published document, patterns and fallback lists included; and so does
    an import, except where Node's import answer is a wrapper over the same
    condition object's require answer -- two different texts without a star, the
    second a file Node loads as CommonJS, the first a module that only renames
    it -- and then the import gets that require answer. *)
Theorem opted_in_resolution isURL h pkgDir import pkg subpath :
  let exp := get (js_of_string "exports") pkg in
  (∀ t w, exports_target exp subpath = Some (t, w) → plain_ok isURL t = true) →
  let answer := resolveExportsTypes (get (js_of_string "exports") (npmStaticTransformPkgJson isURL h pkgDir pkg).1) subpath (js_only import) in
  let dual r := import = true ∧ ∃ t w, exports_target exp subpath = Some (t, w) ∧ wrapper_dual isURL h pkgDir t r in
  (∀ r, dual r → answer = Some r) ∧ ((∀ r, ¬ dual r) → answer = node_answer isURL import exp subpath).
Proof.
  intros exp Hok answer dual. assert (E : answer = '(t, w) ← exports_target exp subpath; leaf_answer w (served isURL h pkgDir import Exports t)) by (unfold answer; rewrite get_exports; by apply resolves_rewritten).
  rewrite E. unfold node_answer. destruct (exports_target exp subpath) as [[t w]|] eqn:Et; [|split; [by intros r (_ & ? & ? & ? & _)|done]].
  change (('(t, w) ← Some (t, w); leaf_answer w (served isURL h pkgDir import Exports t))) with (leaf_answer w (served isURL h pkgDir import Exports t)).
  change (('(t, w) ← Some (t, w); leaf_answer w (nodeConditionLeaf isURL (node_set import) Exports t))) with (leaf_answer w (nodeConditionLeaf isURL (node_set import) Exports t)).
  unfold served. split.
  - intros r (-> & t' & w' & Ht & Hr). injection Ht as <- <-. pose proof (wrapper_dual_plain _ _ _ _ _ Hr) as Hstar. pose proof Hr as (ps & i & d & src & sh & Hp & Hi & _). apply cjs_first_iff in Hr.
    destruct (picks_leaf _ _ _ Hp) as [El _]. cbn [node_set]. rewrite El, Hi, Hr. cbn [leaf_answer]. by rewrite expand_plain.
  - intros Hn. destruct import; [|done]. destruct (nodeConditionLeaf isURL (node_set true) Exports t) as [i| |]; [|done..]. destruct (cjs_first isURL h pkgDir t) as [r|] eqn:C; [|done].
    destruct (Hn r). split; [done|]. exists t, w. split; [done|]. by apply cjs_first_iff.
Qed.

(** commander: an import takes the CommonJS file its wrapper renames. *)
Definition dual_pkg : props :=
  [(js_of_string "exports", js_obj [(".", js_obj [("require", js_str "./index.js"); ("import", js_str "./esm.mjs")]);
     ("./x", js_obj [("require", js_str "./real.js"); ("import", js_str "./esm.mjs")])])].
Lemma opted_in_resolution_witness :
  let answer p := resolveExportsTypes (get (js_of_string "exports") (npmStaticTransformPkgJson (λ _, false) (sample_host commander) (Some (js_of_string "/p")) dual_pkg).1) (js_of_string p) (js_only true) in
  answer "." = Some (js_of_string "./index.js") ∧ answer "./x" = node_answer (λ _, false) true (get (js_of_string "exports") dual_pkg) (js_of_string "./x") ∧
  node_answer (λ _, false) true (get (js_of_string "exports") dual_pkg) (js_of_string "./x") = Some (js_of_string "./esm.mjs").
Proof.
  split_and!; [| |vm_compute; reflexivity].
  - refine (proj1 (opted_in_resolution (λ _, false) (sample_host commander) (Some (js_of_string "/p")) true dual_pkg (js_of_string ".") _) _ _); [intros t w; vm_compute; by intros [= <- <-]|].
    split; [done|]. eexists _, _. split; [vm_compute; reflexivity|]. apply cjs_first_iff. vm_compute. reflexivity.
  - refine (proj2 (opted_in_resolution (λ _, false) (sample_host commander) (Some (js_of_string "/p")) true dual_pkg (js_of_string "./x") _) _); [intros t w; vm_compute; by intros [= <- <-]|].
    intros r (_ & t & w & Ht & Hr). apply cjs_first_iff in Hr. vm_compute in Ht. injection Ht as <- <-. vm_compute in Hr. discriminate Hr.
Defined.

(** A fallback list with a target outside the package: Node passes over it,
    the resolver takes it. *)
Example fallback_taken :
  let pkg := [(js_of_string "exports", JArr [js_str "../up.js"; js_str "./in.js"])] in
  (resolveExportsTypes (get (js_of_string "exports") (npmStaticTransformPkgJson (λ _, false) no_files None pkg).1) root (js_only true),
   node_answer (λ _, false) true (get (js_of_string "exports") pkg) root) = (Some (js_of_string "../up.js"), Some (js_of_string "./in.js")).
Proof. vm_compute. reflexivity. Qed.

(** In a map of paths that does not name the subpath itself, the lookup
    takes the target of the first of the keys that fit with the longest
    literal prefix, with its stars standing for what lies between the key's
    prefix and suffix, and answers nothing when no key fits. *)
Theorem pattern_choice map subpath conditions : forallb (startsWith ".") (keys_of map) = true → has_own subpath map = false →
  match best_pattern subpath (keys_of map) None with
  | Some b =>
      chosen subpath (keys_of map) b ∧ key b = (prefix b ++ star :: suffix b)%list ∧ subpath = (prefix b ++ wildcard_of subpath b ++ suffix b)%list ∧
      resolveExportsTypes (JObj map) subpath conditions = resolveTarget conditions (Some (wildcard_of subpath b)) (get (key b) map)
  | None => (∀ k, k ∈ keys_of map → candidate subpath k = None) ∧ resolveExportsTypes (JObj map) subpath conditions = None
  end.
Proof.
  intros Hp Ho. pose proof (best_pattern_spec subpath (keys_of map)) as H. cbn [resolveExportsTypes]. rewrite Hp, Ho. cbn [negb].
  destruct (best_pattern _ _ _) as [b|]; [|done]. split; [done|]. destruct H as [[Hk Hw]%candidate_split _]. done.
Qed.

Definition tied : props := [(js_of_string "./a/*", js_str "./x/*"); (js_of_string "./a/*.js", js_str "./y/*")].
Lemma pattern_choice_witness :
  forallb (startsWith ".") (keys_of tied) = true ∧ resolveExportsTypes (JObj tied) (js_of_string "./a/b.js") JS_ONLY_CONDITIONS = Some (js_of_string "./x/b.js").
Proof.
  split; [reflexivity|]. pose proof (pattern_choice tied (js_of_string "./a/b.js") JS_ONLY_CONDITIONS eq_refl eq_refl) as H.
  vm_compute in H. destruct H as (_ & _ & _ & H). exact H.
Defined.
