(* ===== verification/Ropes.v ===== *)
(** * Concatenation nodes and slice views: the emitted helpers

    src/packages/compiler/src/backend/wasm/ropes.ts, with the shared one-unit
    strings of strings.ts and the two helpers of emitter.ts it is given: the
    functions the WasmGC tier emits for string values.  A value is a flat array
    of code units, a rope node over two values, or a view into a flat array;
    the structs are mutable, and the store is explicit because flattening
    rewrites nodes other values share.  Each emitted function is a program of
    the monad of Arrays.v over that store, trapping where the instructions
    trap; i32 values are integers of [0, 2^32) and signed comparisons say so.
    Allocation failure is not modelled. *)

From S2P Require Import Prelude Arrays.

#[local] Open Scope arr_scope.

(** ** The store *)

(** A nullable reference. *)
Definition ref : Type := option nat.
Inductive obj :=
  | Chars (cs : list Z)
  | Rope (len : Z) (l r : ref)
  | Slice (len : Z) (base : ref) (off : Z).

Record store := mkStore {
  objs : list obj;
  gNodes : option (list ref);      (* the walk's stack, made on first use *)
  gOffs : option (list Z);
  gDir : option (list (option (list ref)));  (* the one-unit strings' directory of pages *)
  cell : option string             (* the pending exception *)
}.
Definition MS : Type → Type := M store.

Definition set_objs (f : list obj → list obj) (s : store) : store := mkStore (f (objs s)) (gNodes s) (gOffs s) (gDir s) (cell s).
Definition look (s : store) (v : ref) : option obj := l ← v; objs s !! l.

(** ** Instructions *)

Definition test (shape : obj → bool) (v : ref) : MS bool := λ s, (Val (match look s v with Some o => shape o | None => false end), s).
Definition is_chars (o : obj) : bool := match o with Chars _ => true | _ => false end.
Definition is_rope (o : obj) : bool := match o with Rope _ _ _ => true | _ => false end.
Definition is_slice (o : obj) : bool := match o with Slice _ _ _ => true | _ => false end.

(** [ref.cast] to a type, then its contents; the reference of a cast is the
    one it was given. *)
Definition chars (v : ref) : MS (list Z) := λ s, match look s v with Some (Chars cs) => (Val cs, s) | _ => (Trap, s) end.
Definition rope (v : ref) : MS (Z * ref * ref) := λ s, match look s v with Some (Rope n l r) => (Val (n, l, r), s) | _ => (Trap, s) end.
Definition slice_of (v : ref) : MS (Z * ref * Z) := λ s, match look s v with Some (Slice n b off) => (Val (n, b, off), s) | _ => (Trap, s) end.
Definition array_len (v : ref) : MS Z := cs <- chars v;; mret (len cs).
Definition cast_chars (v : ref) : MS ref := _ <- chars v;; mret v.
Definition as_non_null (v : ref) : MS ref := match v with Some _ => mret v | None => trap end.

Definition alloc (o : obj) : MS ref := λ s, (Val (Some (length (objs s))), set_objs (λ os, os ++ [o]) s).
Definition array_new_default (n : Z) : MS ref := alloc (Chars (replicate (Z.to_nat n) 0)).
Definition put (v : ref) (o : obj) : MS unit := λ s, match v with Some l => (Val tt, set_objs <[l := o]> s) | None => (Trap, s) end.
Definition set_l (v x : ref) : MS unit := '(n, _, r) <- rope v;; put v (Rope n x r).
Definition set_r (v x : ref) : MS unit := '(n, l, _) <- rope v;; put v (Rope n l x).
Definition set_base (v x : ref) : MS unit := '(n, _, off) <- slice_of v;; put v (Slice n x off).
Definition set_off (v : ref) (x : Z) : MS unit := '(n, b, _) <- slice_of v;; put v (Slice n b x).
Definition array_copy (d : ref) (di : Z) (a : ref) (ai n : Z) : MS unit :=
  ds <- chars d;; cs <- chars a;; r <- of_option (acopy ds di cs ai n);; put d (Chars r).

(** ** Constants *)

Definition CONS_MIN_LENGTH : Z := 13.
Definition TAIL_MERGE_MAX : Z := 32.
Definition MAX_STRING_LENGTH : Z := 0x1fffffe8.
Definition STACK_SLOTS : Z := 64.

(** ** emitter.ts: %w.concat and %w.str.tooLong *)

Definition concatHelper (a b : ref) : MS ref :=
  la <- array_len a;;
  lb <- array_len b;;
  dest <- array_new_default (add32 la lb);;
  array_copy dest 0 a 0 la;;;
  lb <- array_len b;;
  array_copy dest la b 0 lb;;;
  mret dest.
Definition strTooLongHelper : MS unit := λ s, (Val tt, mkStore (objs s) (gNodes s) (gOffs s) (gDir s) (Some "RangeError: Invalid string length"%string)).

Section ropes.
(** Whether the module can hold slice views. *)
Context (viewsLive : bool).

(** %w.str.len *)
Definition str_len (v : ref) : MS Z :=
  c <- test is_chars v;;
  if c then array_len v
  else
    r <- (if viewsLive then test is_rope v else mret true);;
    if r then '(n, _, _) <- rope v;; mret n else '(n, _, _) <- slice_of v;; mret n.

(** %w.str.materialise *)
Definition materialise (v : ref) : MS ref :=
  '(n, b, off) <- slice_of v;;
  lb <- array_len b;;
  if (off =? 0) && (lb =? n) then as_non_null b
  else
    d <- array_new_default n;;
    array_copy d 0 b off n;;;
    set_base v d;;;
    set_off v 0;;;
    as_non_null d.

(** ** %w.str.flatten *)

(** The walk's locals. *)
Record walk := mkWalk { NODES : list ref; OFFS : list Z; SP : Z; CUR : ref; OFF : Z }.

Definition popOrDone (w : walk) : MS (walk + walk) :=
  if SP w =? 0 then mret (inr w)
  else
    let sp := sub32 (SP w) 1 in
    cur <- of_option (aget (NODES w) sp);;
    nodes <- of_option (aset (NODES w) sp None);;
    off <- of_option (aget (OFFS w) sp);;
    mret (inl (mkWalk nodes (OFFS w) sp cur off)).

(** One round of $walk, writing into D. *)
Definition walk_step (D : ref) (w : walk) : MS (walk + walk) :=
  v <- (if viewsLive then test is_slice (CUR w) else mret false);;
  if v then
    '(n, b, off) <- slice_of (CUR w);;
    array_copy D (OFF w) b off n;;;
    popOrDone w
  else
    c <- test is_chars (CUR w);;
    if c then
      n <- array_len (CUR w);;
      array_copy D (OFF w) (CUR w) 0 n;;;
      popOrDone w
    else
      '(n, l, r) <- rope (CUR w);;
      match r with
      | None => mret (inl (mkWalk (NODES w) (OFFS w) (SP w) l (OFF w)))
      | Some _ =>
          ll <- str_len l;;
          if ll <=? sub32 n ll then
            nodes <- of_option (aset (NODES w) (SP w) r);;
            offs <- of_option (aset (OFFS w) (SP w) (add32 (OFF w) ll));;
            mret (inl (mkWalk nodes offs (add32 (SP w) 1) l (OFF w)))
          else
            nodes <- of_option (aset (NODES w) (SP w) l);;
            offs <- of_option (aset (OFFS w) (SP w) (OFF w));;
            mret (inl (mkWalk nodes offs (add32 (SP w) 1) r (add32 (OFF w) ll)))
      end.

(** The module-level stack, made on first use; the arrays are the globals', so
    what the walk leaves in them stays. *)
Definition walk_stack : MS (list ref * list Z) := λ s,
  match gNodes s with
  | Some nodes => match gOffs s with Some offs => (Val (nodes, offs), s) | None => (Trap, s) end
  | None =>
      let nodes := replicate (Z.to_nat STACK_SLOTS) None in let offs := replicate (Z.to_nat STACK_SLOTS) 0 in
      (Val (nodes, offs), mkStore (objs s) (Some nodes) (Some offs) (gDir s) (cell s))
  end.
Definition keep_stack (w : walk) : MS unit := λ s, (Val tt, mkStore (objs s) (Some (NODES w)) (Some (OFFS w)) (gDir s) (cell s)).

(** An uncached node walks at most three rounds a code unit. *)
Definition flatten (p : ref) : MS ref :=
  '(n, l, r) <- rope p;;
  match r with
  | None => cast_chars l
  | Some _ =>
      d <- array_new_default n;;
      lc <- test is_chars l;;
      rc <- test is_chars r;;
      (if lc && rc then
         ll <- array_len l;;
         array_copy d 0 l 0 ll;;;
         lr <- array_len r;;
         array_copy d ll r 0 lr
       else
         '(nodes, offs) <- walk_stack;;
         w <- loop (Z.to_nat (3 * n)) (walk_step d) (mkWalk nodes offs 0 p 0);;
         keep_stack w);;;
      set_l p d;;;
      set_r p None;;;
      as_non_null d
  end.

(** A value that is not flat made flat. *)
Definition nodeFlat (x : ref) : MS ref :=
  v <- (if viewsLive then test is_slice x else mret false);;
  if v then materialise x else flatten x.
(** %w.str.flat, %w.str.flatCast *)
Definition flat (x : ref) : MS ref :=
  c <- test is_chars x;;
  if c || bool_decide (x = None) then mret x else nodeFlat x.
Definition flatCast (x : ref) : MS ref :=
  c <- test is_chars x;;
  if c then mret x else nodeFlat x.

(** %w.str.flatCat *)
Definition flatCat (a b : ref) : MS ref :=
  la <- array_len a;;
  lb <- array_len b;;
  if MAX_STRING_LENGTH <? add32 la lb then strTooLongHelper;;; mret a else concatHelper a b.

(** ** %w.str.cat *)

(** A flattened node stands for its cached array. *)
Definition unwrap (x : ref) : MS ref :=
  r <- test is_rope x;;
  if r then '(_, l, r) <- rope x;; mret (match r with None => l | Some _ => x end) else mret x.

Definition merge_tail (n lb : Z) (a b : ref) : MS (option ref) :=
  bc <- test is_chars b;;
  ar <- test is_rope a;;
  if bc && (lb <=? TAIL_MERGE_MAX) && ar then
    '(_, l, t) <- rope a;;
    tc <- test is_chars t;;
    if tc then
      lt <- array_len t;;
      if add32 lt lb <=? TAIL_MERGE_MAX then t' <- concatHelper t b;; v <- alloc (Rope n l t');; mret (Some v) else mret None
    else mret None
  else mret None.
Definition merge_head (n la : Z) (a b : ref) : MS (option ref) :=
  ac <- test is_chars a;;
  br <- test is_rope b;;
  if ac && (la <=? TAIL_MERGE_MAX) && br then
    '(_, t, r) <- rope b;;
    tc <- test is_chars t;;
    if tc then
      lt <- array_len t;;
      if add32 lt la <=? TAIL_MERGE_MAX then t' <- concatHelper a t;; v <- alloc (Rope n t' r);; mret (Some v) else mret None
    else mret None
  else mret None.

Definition cat_node (n la lb : Z) (a b : ref) : MS ref :=
  a <- unwrap a;;
  b <- unwrap b;;
  t <- merge_tail n lb a b;;
  match t with
  | Some v => mret v
  | None => h <- merge_head n la a b;; match h with Some v => mret v | None => alloc (Rope n a b) end
  end.

(** Two flat operands with a short result. *)
Definition short_flat (a b : ref) : MS bool :=
  ac <- test is_chars a;;
  bc <- test is_chars b;;
  if ac && bc then la <- array_len a;; lb <- array_len b;; mret (add32 la lb <? CONS_MIN_LENGTH) else mret false.

Definition cat (a b : ref) : MS ref :=
  short <- short_flat a b;;
  if short then concatHelper a b
  else
    la <- str_len a;;
    lb <- str_len b;;
    if lb =? 0 then mret a
    else if la =? 0 then mret b
    else
      let n := add32 la lb in
      if MAX_STRING_LENGTH <? n then strTooLongHelper;;; mret a
      else if n <? CONS_MIN_LENGTH then fa <- flat a;; fb <- flat b;; concatHelper fa fb
      else cat_node n la lb a b.
End ropes.

(** A store with two literals: twelve appends of one to the other, then a read. *)
Definition empty_store : store := mkStore [] None None None None.
Fixpoint appends (k : nat) (a b : ref) : MS ref := match k with O => mret a | S k => v <- cat true a b;; appends k v b end.
Definition sample : MS ref :=
  a <- alloc (Chars [104; 101; 108; 108; 111]);; b <- alloc (Chars (replicate 30 120));; v <- appends 12 a b;; w <- cat true b v;; flat true w;;; flat true v.
Example sample_text : match sample empty_store with (Val v, s) => look s v = Some (Chars ([104; 101; 108; 108; 111] ++ replicate 360 120)) | _ => False end.
Proof. vm_compute. reflexivity. Qed.
