(* ===== verification/RopesSound.v ===== *)
(** * Ropes and views: the text of a value

    What a string value denotes in a store ([holds]), and the proofs that the
    helpers of Ropes.v compute on texts: lengths, concatenation, flattening
    and materialising, each of which keeps the text of every other value.  The
    walk of a flattening is bounded in rounds and in stack. *)

From S2P Require Import Prelude Arrays Ropes.

#[local] Open Scope arr_scope.

Section texts.
Context (viewsLive : bool).

(** ** The text of a value *)

Inductive holds (os : list obj) : nat → list Z → Prop :=
  | holds_chars l cs : os !! l = Some (Chars cs) → holds os l cs
  | holds_slice l n b off cs : viewsLive = true → os !! l = Some (Slice n (Some b) off) → os !! b = Some (Chars cs) →
      0 <= n → 0 <= off → off + n <= len cs → len cs <= MAX_STRING_LENGTH → holds os l (slice cs off n)
  | holds_cached l n d cs : os !! l = Some (Rope n (Some d) None) → os !! d = Some (Chars cs) → n = len cs → holds os l cs
  | holds_rope l n a b xs ys : os !! l = Some (Rope n (Some a) (Some b)) → holds os a xs → holds os b ys → xs ≠ [] → ys ≠ [] →
      n = len xs + len ys → holds os l (xs ++ ys).

Lemma holds_det os l cs : holds os l cs → ∀ ds, holds os l ds → cs = ds.
Proof. induction 1; inversion 1; simplify_eq; try done. f_equal; auto. Qed.

Lemma holds_app os xs l cs : holds os l cs → holds (os ++ xs) l cs.
Proof. induction 1; [eapply holds_chars|eapply holds_slice|eapply holds_cached|eapply holds_rope]; eauto using lookup_app_l_Some. Qed.

(** A node rewritten to another shape of the same text. *)
Lemma holds_replace os p o cs : holds os p cs → (∀ ds, os !! p ≠ Some (Chars ds)) → holds (<[p := o]> os) p cs →
  ∀ l ds, holds os l ds → holds (<[p := o]> os) l ds.
Proof.
  intros Hp Hn Hp'. assert (Hc : ∀ l ds, os !! l = Some (Chars ds) → <[p := o]> os !! l = Some (Chars ds)).
  { intros l ds H. rewrite list_lookup_insert_ne; [done|]. intros ->. by apply Hn in H. }
  assert (Hk : ∀ l o', l ≠ p → os !! l = Some o' → <[p := o]> os !! l = Some o') by (intros; by rewrite list_lookup_insert_ne).
  induction 1 as [l ds E|l n b off ds Hv E Eb|l n d ds E Ed|l n a b xs ys E Ha IHa Hb IHb] using holds_ind;
    (destruct (decide (l = p)) as [->|Hl]; [match goal with |- holds _ _ ?t => assert (t = cs) as ->; [|done] end; eapply (holds_det os p); [econstructor|]; by eauto|]).
  - by apply holds_chars, Hc.
  - eapply holds_slice; eauto.
  - eapply holds_cached; eauto.
  - eapply holds_rope; eauto.
Qed.

Lemma holds_lookup os l cs : holds os l cs → ∃ o, os !! l = Some o.
Proof. destruct 1; eauto. Qed.

(** ** What the helpers keep *)

(** The stack of the walk between flattenings: absent, or empty. *)
Definition wf_stack (s : store) : Prop :=
  (gNodes s = None ∧ gOffs s = None) ∨
  (gNodes s = Some (replicate (Z.to_nat STACK_SLOTS) None) ∧ ∃ offs, gOffs s = Some offs ∧ len offs = STACK_SLOTS).

(** The table of one-unit strings: a slot is empty or holds its unit. *)
Definition unit_slots (os : list obj) (dir : list (option (list ref))) : Prop :=
  ∀ i page, dir !! i = Some (Some page) → length page = 256%nat ∧ ∀ j l, page !! j = Some (Some l) → os !! l = Some (Chars [256 * Z.of_nat i + Z.of_nat j]).
Definition units_ok (s : store) : Prop := match gDir s with None => True | Some dir => length dir = 256%nat ∧ unit_slots (objs s) dir end.

Record keeps (s s' : store) : Prop := {
  keeps_chars l cs : objs s !! l = Some (Chars cs) → objs s' !! l = Some (Chars cs);
  keeps_text l cs : holds (objs s) l cs → holds (objs s') l cs;
  keeps_units : units_ok s → units_ok s';
  keeps_stack : wf_stack s → wf_stack s'
}.
#[global] Instance keeps_preorder : PreOrder keeps.
Proof. split; [by split|]. intros a b c [] []. split; eauto. Qed.

Lemma keeps_same_dir s s' : gDir s' = gDir s → (∀ l cs, objs s !! l = Some (Chars cs) → objs s' !! l = Some (Chars cs)) → units_ok s → units_ok s'.
Proof. unfold units_ok, unit_slots. intros -> Hc. destruct (gDir s) as [dir|]; [|done]. intros [Hl H]. split; [done|]. intros i page E. destruct (H _ _ E). split; [done|eauto]. Qed.

Lemma keeps_alloc s o : keeps s (set_objs (λ os, os ++ [o]) s).
Proof.
  assert (Hc : ∀ l cs, objs s !! l = Some (Chars cs) → objs (set_objs (λ os, os ++ [o]) s) !! l = Some (Chars cs)) by (intros l cs; apply lookup_app_l_Some).
  split; [exact Hc|intros l cs; apply holds_app|by apply keeps_same_dir|done].
Qed.

(** Rewriting a node that is not an array, to another shape of its text. *)
Lemma keeps_replace s p o cs : holds (objs s) p cs → (∀ ds, objs s !! p ≠ Some (Chars ds)) → holds (<[p := o]> (objs s)) p cs → keeps s (set_objs <[p := o]> s).
Proof.
  intros Hp Hn Hp'. assert (Hc : ∀ l ds, objs s !! l = Some (Chars ds) → objs (set_objs <[p := o]> s) !! l = Some (Chars ds)).
  { intros l ds H. simpl. rewrite list_lookup_insert_ne; [done|]. intros ->. by apply Hn in H. }
  split; [exact Hc|intros l ds; by apply (holds_replace _ _ _ cs)|by apply keeps_same_dir|done].
Qed.

(** ** Rules of the instructions *)

Implicit Types (s : store) (R : Z → store → Prop).

Lemma wp_test shape v Q R s : Q (match look s v with Some o => shape o | None => false end) s → wp (test shape v) Q R s.
Proof. done. Qed.
Lemma wp_chars v cs Q R s : look s v = Some (Chars cs) → Q cs s → wp (chars v) Q R s.
Proof. intros E. unfold wp, chars. by rewrite E. Qed.
Lemma wp_rope v n l r Q R s : look s v = Some (Rope n l r) → Q (n, l, r) s → wp (rope v) Q R s.
Proof. intros E. unfold wp, rope. by rewrite E. Qed.
Lemma wp_slice_of v n b off Q R s : look s v = Some (Slice n b off) → Q (n, b, off) s → wp (slice_of v) Q R s.
Proof. intros E. unfold wp, slice_of. by rewrite E. Qed.
Lemma wp_array_len v cs Q R s : look s v = Some (Chars cs) → Q (len cs) s → wp (array_len v) Q R s.
Proof. intros E H. apply wp_bind. by eapply wp_chars. Qed.
Lemma wp_alloc o (Q : ref → store → Prop) R s : Q (Some (length (objs s))) (set_objs (λ os, os ++ [o]) s) → wp (alloc o) Q R s.
Proof. done. Qed.
Lemma wp_put l o (Q : unit → store → Prop) R s : Q tt (set_objs <[l := o]> s) → wp (put (Some l) o) Q R s.
Proof. done. Qed.
Lemma wp_array_copy d di a ai n ds cs r (Q : unit → store → Prop) R s : look s (Some d) = Some (Chars ds) → look s a = Some (Chars cs) → acopy ds di cs ai n = Some r →
  Q tt (set_objs <[d := Chars r]> s) → wp (array_copy (Some d) di a ai n) Q R s.
Proof.
  intros Ed Ea Er HQ. apply wp_bind. eapply wp_chars; [done|]. apply wp_bind. eapply wp_chars; [done|]. apply wp_bind. by eapply wp_of_option.
Qed.

(** ** A fresh array at the end of the store *)

Definition extend (o : obj) (s : store) : store := set_objs (λ os, os ++ [o]) s.
Definition fresh (s : store) : nat := length (objs s).

Lemma look_fresh o s : look (extend o s) (Some (fresh s)) = Some o.
Proof. unfold look, extend, fresh. simpl. by rewrite lookup_app_r, Nat.sub_diag by lia. Qed.
Lemma look_push o s v x : look s v = Some x → look (extend o s) v = Some x.
Proof. destruct v as [l|]; [|done]. apply lookup_app_l_Some. Qed.
Lemma set_push o o' s : set_objs <[fresh s := o']> (extend o s) = extend o' s.
Proof. unfold set_objs, extend. simpl. f_equal. rewrite insert_app_r_alt by (unfold fresh; lia). unfold fresh. by rewrite Nat.sub_diag. Qed.
Lemma holds_fresh cs s : holds (objs (extend (Chars cs) s)) (fresh s) cs.
Proof. apply holds_chars, (look_fresh (Chars cs) s). Qed.

(** A copy into the fresh array that fills its next [len cs] elements. *)
Lemma wp_fill s p h q a cs b off ai n v (Q : unit → store → Prop) R : look s v = Some (Chars (a ++ cs ++ b)) → off = len p → ai = len a → n = len cs → len h = n →
  Q tt (extend (Chars (p ++ cs ++ q)) s) → wp (array_copy (Some (fresh s)) off v ai n) Q R (extend (Chars (p ++ h ++ q)) s).
Proof.
  intros E -> -> -> Hh HQ. eapply wp_array_copy; [apply look_fresh|by apply look_push|by apply acopy_app|]. by rewrite set_push.
Qed.

Lemma replicate_plus (n m : nat) (x : Z) : replicate (n + m) x = replicate n x ++ replicate m x.
Proof. induction n; simpl; congruence. Qed.

Lemma wp_concat a b xs ys s (Q : ref → store → Prop) R : look s a = Some (Chars xs) → look s b = Some (Chars ys) → len xs + len ys < 2 ^ 32 →
  Q (Some (fresh s)) (extend (Chars (xs ++ ys)) s) → wp (concatHelper a b) Q R s.
Proof.
  intros Ea Eb Hn HQ. unfold concatHelper. apply wp_bind. eapply wp_array_len; [done|]. apply wp_bind. eapply wp_array_len; [done|].
  rewrite add32_id by lia. apply wp_bind, wp_alloc. fold (fresh s). change (set_objs (λ os, os ++ [?o]) s) with (extend o s).
  replace (Z.to_nat (len xs + len ys)) with (length xs + length ys)%nat by lia. rewrite replicate_plus.
  apply wp_bind. change (replicate (length xs) 0 ++ replicate (length ys) 0) with ([] ++ replicate (length xs) 0 ++ replicate (length ys) 0).
  eapply (wp_fill s [] _ _ [] xs []); [by rewrite app_nil_r|done..|by rewrite length_replicate|]. cbn [app].
  apply wp_bind. eapply wp_array_len; [by apply look_push|]. apply wp_bind.
  rewrite <- (app_nil_r (replicate _ _)). eapply (wp_fill s xs _ [] [] ys []); [by rewrite app_nil_r|done..|by rewrite length_replicate|].
  by rewrite app_nil_r.
Qed.

(** ** Lengths *)

Lemma holds_look s l cs : holds (objs s) l cs → ∃ o, look s (Some l) = Some o ∧ match o with Chars xs => xs = cs | Rope n _ _ => n = len cs | Slice n _ _ => viewsLive = true ∧ n = len cs end.
Proof.
  destruct 1 as [l cs E|l n b off cs Hv E Eb Hn Ho Hb Hm|l n d cs E Ed Hn|l n a b xs ys E Ha Hb Hx Hy Hn]; (eexists; split; [exact E|]); cbn; try done.
  - split; [done|]. unfold slice. rewrite length_take, length_drop. lia.
  - by rewrite length_app, Nat2Z.inj_add.
Qed.

Lemma wp_len s l cs Q R : holds (objs s) l cs → Q (len cs) s → wp (str_len viewsLive (Some l)) Q R s.
Proof.
  intros (o & E & Ho)%holds_look HQ. unfold str_len. apply wp_bind, wp_test. rewrite E. destruct o as [xs|n a b|n b off]; cbn.
  - subst. by eapply wp_array_len.
  - apply wp_bind. assert (wp (if viewsLive then test is_rope (Some l) else mret true) (λ r s', r = true ∧ s' = s) (λ _ _, False) s) as W
      by (destruct viewsLive; [apply wp_test; by rewrite E|done]).
    eapply wp_mono; [exact W| |done]. intros r s' [-> ->]. apply wp_bind. eapply wp_rope; [done|]. by rewrite Ho.
  - destruct Ho as [-> ->]. apply wp_bind, wp_test. rewrite E. cbn. apply wp_bind. eapply wp_slice_of; [done|]. done.
Qed.

(** ** Materialising a view *)

(** A flat form of [cs], everything else kept. *)
Definition flat_form (s : store) (cs : list Z) (v : ref) (s' : store) : Prop := keeps s s' ∧ cell s' = cell s ∧ look s' v = Some (Chars cs).

Lemma slice_split (cs : list Z) off n : 0 <= n → 0 <= off → off + n <= len cs → ∃ a b, cs = a ++ slice cs off n ++ b ∧ off = len a ∧ n = len (slice cs off n).
Proof.
  intros Hn Ho Hb. exists (take (Z.to_nat off) cs), (drop (Z.to_nat n) (drop (Z.to_nat off) cs)). unfold slice. split_and!.
  - by rewrite !take_drop.
  - rewrite length_take. lia.
  - rewrite length_take, length_drop. lia.
Qed.
Lemma slice_whole (cs : list Z) : slice cs 0 (len cs) = cs.
Proof. unfold slice. rewrite drop_0. apply take_ge. lia. Qed.

Lemma holds_whole os l n d cs : viewsLive = true → os !! l = Some (Slice n (Some d) 0) → os !! d = Some (Chars cs) → n = len cs → n <= MAX_STRING_LENGTH → holds os l cs.
Proof. intros Hv E Ed -> Hm. rewrite <- (slice_whole cs). eapply holds_slice; [done|exact E|exact Ed|lia..]. Qed.

Lemma wp_set_base s v n b off x (Q : unit → store → Prop) R : look s (Some v) = Some (Slice n b off) → Q tt (set_objs <[v := Slice n x off]> s) → wp (set_base (Some v) x) Q R s.
Proof. intros E HQ. apply wp_bind. eapply wp_slice_of; [done|]. by apply wp_put. Qed.
Lemma wp_set_off s v n b off x (Q : unit → store → Prop) R : look s (Some v) = Some (Slice n b off) → Q tt (set_objs <[v := Slice n b x]> s) → wp (set_off (Some v) x) Q R s.
Proof. intros E HQ. apply wp_bind. eapply wp_slice_of; [done|]. by apply wp_put. Qed.

Lemma put_put v o o' s : set_objs <[v := o']> (set_objs <[v := o]> s) = set_objs <[v := o']> s.
Proof. unfold set_objs. simpl. by rewrite list_insert_insert_eq. Qed.
Lemma look_put v o s x : look s (Some v) = Some x → look (set_objs <[v := o]> s) (Some v) = Some o.
Proof. intros E. apply list_lookup_insert_eq. by eapply lookup_lt_Some. Qed.
Lemma look_put_ne v w o s : v ≠ w → look (set_objs <[v := o]> s) (Some w) = look s (Some w).
Proof. intros E. by apply list_lookup_insert_ne. Qed.
Lemma look_lt s v x : look s (Some v) = Some x → v ≠ fresh s.
Proof. intros E%lookup_lt_Some. unfold fresh. lia. Qed.

Lemma wp_materialise s v n b off cs R : look s (Some v) = Some (Slice n (Some b) off) → holds (objs s) v cs → wp (materialise (Some v)) (flat_form s cs) R s.
Proof.
  intros E H. inversion H as [? ? E'|? ? ? ? bs Hv E' Eb Hn Ho Hb Hm|? ? ? ? E'|? ? ? ? ? ? E']; subst; unfold look in E; simpl in E; simplify_eq.
  unfold materialise. apply wp_bind. eapply wp_slice_of; [done|]. apply wp_bind. eapply wp_array_len; [done|]. simpl.
  destruct ((off =? 0) && (len bs =? n)) eqn:Ew.
  { zb. subst. rewrite slice_whole. split; [done|]. split; [done|]. exact Eb. }
  destruct (slice_split bs off n) as (x & y & Hs & Hx & Hl); [done..|].
  apply wp_bind, wp_alloc. fold (fresh s) (extend (Chars (replicate (Z.to_nat n) 0)) s). apply wp_bind.
  rewrite <- (app_nil_r (replicate _ _)), <- (app_nil_l (replicate _ _ ++ _)).
  eapply (wp_fill s [] _ _ x (slice bs off n) y); [rewrite <- Hs; exact Eb|done|done|done|rewrite length_replicate; lia|].
  set (s1 := extend _ s). assert (E1 : look s1 (Some v) = Some (Slice n (Some b) off)) by by apply look_push.
  apply wp_bind. eapply wp_set_base; [exact E1|]. apply wp_bind. eapply wp_set_off; [by eapply look_put|]. rewrite put_put.
  assert (Ed : look (set_objs <[v := Slice n (Some (fresh s)) 0]> s1) (Some (fresh s)) = Some (Chars (slice bs off n))).
  { rewrite look_put_ne by by eapply look_lt. unfold s1. by rewrite look_fresh, app_nil_l, app_nil_r. }
  split_and!; [|done|exact Ed]. transitivity s1; [apply keeps_alloc|]. eapply keeps_replace; [by apply holds_app|intros ds Ed'; change (look s1 (Some v) = Some (Chars ds)) in Ed'; congruence|].
  eapply holds_whole; [done|eapply look_put, E1|exact Ed|done|lia].
Qed.

(** ** The walk of a flattening *)

(** From the popping of a continuation on. *)
Definition resume (f : nat) (D : ref) (w : walk) : MS walk :=
  r <- popOrDone w;; match r with inl w' => loop f (walk_step viewsLive D) w' | inr w' => mret w' end.

Lemma wp_resume_done f D w (Q : walk → store → Prop) R s : SP w = 0 → Q w s → wp (resume f D w) Q R s.
Proof. intros E HQ. unfold resume, popOrDone. apply wp_bind. by rewrite E. Qed.

Lemma wp_resume_pop f D w (nodes : list ref) (sp : nat) (x : ref) off (Q : walk → store → Prop) R s :
  SP w = Z.of_nat (S sp) → Z.of_nat sp < 2 ^ 31 → NODES w = <[sp := x]> nodes → nodes !! sp = Some None → OFFS w !! sp = Some off →
  wp (loop f (walk_step viewsLive D) (mkWalk nodes (OFFS w) (Z.of_nat sp) x off)) Q R s → wp (resume f D w) Q R s.
Proof.
  intros Es Hs En E Eo HQ. unfold resume, popOrDone. apply wp_bind. rewrite Es. destruct (Z.eqb_spec (Z.of_nat (S sp)) 0); [lia|].
  rewrite sub32_id by lia. replace (Z.of_nat (S sp) - 1) with (Z.of_nat sp) by lia.
  assert (Hl : (sp < length nodes)%nat) by by eapply lookup_lt_Some.
  apply wp_bind. eapply wp_of_option; [rewrite aget_nat, En; by apply list_lookup_insert_eq|].
  apply wp_bind. eapply wp_of_option; [rewrite En; apply aset_nat; by rewrite length_insert|].
  apply wp_bind. eapply wp_of_option; [by rewrite aget_nat|]. 
  assert (<[sp := None : ref]> (<[sp := x]> nodes) = nodes) as -> by (rewrite list_insert_insert_eq; by apply list_insert_id). exact HQ.
Qed.

(** What one round does to each shape. *)
Lemma wp_not_slice v o (Q : bool → store → Prop) R s : look s v = Some o → is_slice o = false → Q false s → wp (if viewsLive then test is_slice v else mret false) Q R s.
Proof. intros E Ho HQ. destruct viewsLive; [|done]. apply wp_test. by rewrite E, Ho. Qed.
Lemma wp_step_flat s p h q cs w (Q : walk → store → Prop) R f : look s (CUR w) = Some (Chars cs) → OFF w = len p → length h = length cs →
  wp (resume f (Some (fresh s)) w) Q R (extend (Chars (p ++ cs ++ q)) s) →
  wp (loop (S f) (walk_step viewsLive (Some (fresh s))) w) Q R (extend (Chars (p ++ h ++ q)) s).
Proof.
  intros E Ho Hh HQ. cbn [loop]. apply wp_bind. unfold walk_step. rewrite Ho. apply wp_bind, wp_not_slice with (Chars cs); [by apply look_push|done|].
  apply wp_bind, wp_test. erewrite look_push by done. cbn [is_chars]. apply wp_bind. eapply wp_array_len; [by eapply look_push|]. apply wp_bind.
  eapply (wp_fill s p h q [] cs []); [by rewrite app_nil_r|done..|lia|]. by apply wp_bind_inv in HQ.
Qed.
Lemma wp_step_view s p h q a cs b v off w (Q : walk → store → Prop) R f : viewsLive = true → look s (CUR w) = Some (Slice (len cs) v off) → look s v = Some (Chars (a ++ cs ++ b)) →
  OFF w = len p → length h = length cs → off = len a →
  wp (resume f (Some (fresh s)) w) Q R (extend (Chars (p ++ cs ++ q)) s) →
  wp (loop (S f) (walk_step viewsLive (Some (fresh s))) w) Q R (extend (Chars (p ++ h ++ q)) s).
Proof.
  intros Hv E Eb Ho Hh Hoff HQ. cbn [loop]. apply wp_bind. unfold walk_step. rewrite Ho, Hv. apply wp_bind, wp_test. erewrite look_push by done. cbn [is_slice].
  apply wp_bind. eapply wp_slice_of; [by apply look_push|]. apply wp_bind.
  eapply (wp_fill s p h q a cs b); [done..|lia|]. apply wp_bind_inv in HQ. by rewrite Hv in HQ.
Qed.
Lemma wp_step_cached s d w n l (Q : walk → store → Prop) R f : look s (CUR w) = Some (Rope n l None) →
  wp (loop f (walk_step viewsLive (Some (fresh s))) (mkWalk (NODES w) (OFFS w) (SP w) l (OFF w))) Q R (extend d s) →
  wp (loop (S f) (walk_step viewsLive (Some (fresh s))) w) Q R (extend d s).
Proof.
  intros E HQ. cbn [loop]. apply wp_bind. unfold walk_step. apply wp_bind, wp_not_slice with (Rope n l None); [by apply look_push|done|].
  apply wp_bind, wp_test. erewrite look_push by done. cbn [is_chars]. apply wp_bind. by eapply wp_rope; [by apply look_push|].
Qed.
(** A node: the shorter child next, the longer one left for later. *)
Lemma wp_step_rope s d w (sp : nat) a b (xs ys : list Z) (Q : walk → store → Prop) R f :
  look s (CUR w) = Some (Rope (len xs + len ys) (Some a) (Some b)) → holds (objs s) a xs → SP w = Z.of_nat sp → (sp < length (NODES w))%nat → (sp < length (OFFS w))%nat →
  Z.of_nat sp + 1 < 2 ^ 32 → 0 <= OFF w → OFF w + len xs + len ys < 2 ^ 32 →
  wp (loop f (walk_step viewsLive (Some (fresh s)))
       (if len xs <=? len ys then mkWalk (<[sp := Some b : ref]> (NODES w)) (<[sp := OFF w + len xs]> (OFFS w)) (Z.of_nat (S sp)) (Some a) (OFF w)
        else mkWalk (<[sp := Some a : ref]> (NODES w)) (<[sp := OFF w]> (OFFS w)) (Z.of_nat (S sp)) (Some b) (OFF w + len xs))) Q R (extend d s) →
  wp (loop (S f) (walk_step viewsLive (Some (fresh s))) w) Q R (extend d s).
Proof.
  intros E Ha Es Hn Ho Hsp Hoff Hlim HQ. cbn [loop]. apply wp_bind. unfold walk_step. apply wp_bind, wp_not_slice with (Rope (len xs + len ys) (Some a) (Some b)); [by apply look_push|done|].
  apply wp_bind, wp_test. erewrite look_push by done. cbn [is_chars]. apply wp_bind. eapply wp_rope; [by apply look_push|]. apply wp_bind. eapply wp_len; [by apply holds_app|].
  rewrite sub32_id by lia. replace (len xs + len ys - len xs) with (len ys) by lia. rewrite Es, !aset_nat, !add32_id by lia. replace (Z.of_nat sp + 1) with (Z.of_nat (S sp)) by lia.
  destruct (len xs <=? len ys); (apply wp_bind; eapply wp_of_option; [done|]; apply wp_bind; eapply wp_of_option; [done|exact HQ]).
Qed.

(** A stack with [slots] slots, free from the [sp]-th on. *)
Definition free (sp slots : nat) (nodes : list ref) (offs : list Z) : Prop :=
  length nodes = slots ∧ length offs = slots ∧ ∀ i, (sp ≤ i < slots)%nat → nodes !! i = Some None.
(** The walk is back where it was, with nothing left above [sp]. *)
Definition back (w : walk) (sp : nat) (nodes : list ref) (offs : list Z) : Prop :=
  SP w = Z.of_nat sp ∧ NODES w = nodes ∧ length (OFFS w) = length offs ∧ ∀ i, (i < sp)%nat → OFFS w !! i = offs !! i.

Lemma free_push sp slots nodes offs x off : free sp slots nodes offs → free (S sp) slots (<[sp := x : ref]> nodes) (<[sp := off]> offs).
Proof. intros (Hn & Ho & H). split_and!; [by rewrite length_insert|by rewrite length_insert|]. intros i Hi. rewrite list_lookup_insert_ne by lia. apply H. lia. Qed.
Lemma free_back sp slots nodes offs w : free sp slots nodes offs → length (OFFS w) = length offs → free sp slots nodes (OFFS w).
Proof. intros (Hn & Ho & H) E. split_and!; [done|lia|done]. Qed.

Lemma pow_S (sp : nat) : 2 ^ Z.of_nat (S sp) = 2 * 2 ^ Z.of_nat sp.
Proof. rewrite Nat2Z.inj_succ, Z.pow_succ_r by lia. done. Qed.
Lemma pow_lt_le (a b : nat) : 2 ^ Z.of_nat a < 2 ^ Z.of_nat (S b) → (a ≤ b)%nat.
Proof. intros H. apply Z.pow_lt_mono_r_iff in H; lia. Qed.

Section walking.
Context (s : store) (slots : nat) (B : Z).
Hypothesis Hslots : Z.of_nat slots < 2 ^ 31.
Hypothesis HB : B < 2 ^ Z.of_nat (S slots).
Notation step := (walk_step viewsLive (Some (fresh s))).

(** From a value on, the walk writes its text and pops, in at most three
    rounds a code unit. *)
Definition walks (v : nat) (cs : list Z) : Prop := ∀ p h q nodes offs (sp : nat),
  length h = length cs → len p + len cs < 2 ^ 32 → free sp slots nodes offs → len cs * 2 ^ Z.of_nat sp <= B →
  ∃ (k : nat) w', Z.of_nat k <= 3 * len cs - 1 ∧ back w' sp nodes offs ∧
    ∀ f (Q : walk → store → Prop) R, wp (resume f (Some (fresh s)) w') Q R (extend (Chars (p ++ cs ++ q)) s) →
      wp (loop (k + f) step (mkWalk nodes offs (Z.of_nat sp) (Some v) (len p))) Q R (extend (Chars (p ++ h ++ q)) s).

Lemma walks_leaf v cs : cs ≠ [] → (∀ w p h q f (Q : walk → store → Prop) R, CUR w = Some v → OFF w = len p → length h = length cs →
    wp (resume f (Some (fresh s)) w) Q R (extend (Chars (p ++ cs ++ q)) s) → wp (loop (S f) step w) Q R (extend (Chars (p ++ h ++ q)) s)) → walks v cs.
Proof.
  intros Hne H p h q nodes offs sp Hh Hp Hf Hb. exists 1%nat, (mkWalk nodes offs (Z.of_nat sp) (Some v) (len p)). destruct cs; [done|]. split_and!; [simpl; lia|done|].
  intros f Q R HQ. by apply H.
Qed.

Lemma walks_node v a b xs ys : look s (Some v) = Some (Rope (len xs + len ys) (Some a) (Some b)) → holds (objs s) a xs → xs ≠ [] → ys ≠ [] →
  walks a xs → walks b ys → walks v (xs ++ ys).
Proof.
  intros E Ha Hx Hy IHa IHb p h q nodes offs sp Hh Hp Hf Hb. rewrite length_app in Hh. rewrite length_app, Nat2Z.inj_add in Hp, Hb |- *.
  rewrite <- (take_drop (length xs) h). set (h1 := take _ h). set (h2 := drop _ h).
  assert (H1 : length h1 = length xs) by (unfold h1; rewrite length_take; lia). assert (H2 : length h2 = length ys) by (unfold h2; rewrite length_drop; lia). clearbody h1 h2.
  assert (0 < len xs ∧ 0 < len ys) as [Hx0 Hy0] by (destruct xs, ys; simpl; lia || done). assert (0 < 2 ^ Z.of_nat sp) by lia.
  assert (Hsp : (sp < slots)%nat) by (assert (S sp ≤ slots)%nat; [apply pow_lt_le; rewrite pow_S; nia|lia]).
  pose proof Hf as (Hn & Ho & Hfree). assert (Hnone : nodes !! sp = Some None) by (apply Hfree; lia).
  destruct (Z.leb_spec (len xs) (len ys)) as [Hle|Hgt].
  - destruct (IHa p h1 (h2 ++ q) _ _ (S sp) H1 ltac:(lia) (free_push _ _ _ _ (Some b) (len p + len xs) Hf) ltac:(rewrite pow_S; nia)) as (k1 & w1 & Hk1 & (Es1 & En1 & Eo1 & Hw1) & IH1).
    destruct (IHb (p ++ xs) h2 q nodes (OFFS w1) sp H2 ltac:(rewrite length_app; lia) ltac:(eapply free_back; [done|by rewrite Eo1, length_insert]) ltac:(nia)) as (k2 & w2 & Hk2 & (Es2 & En2 & Eo2 & Hw2) & IH2).
    exists (S (k1 + k2)), w2. split_and!; [lia| |].
    { split_and!; [done..|by rewrite Eo2, Eo1, length_insert|]. intros i Hi. rewrite Hw2, Hw1, list_lookup_insert_ne by lia. done. }
    intros f Q R HQ. cbn [Nat.add]. eapply wp_step_rope; [exact E|exact Ha|reflexivity|simpl; lia|simpl; lia|lia|simpl; lia|simpl; lia|]. destruct (Z.leb_spec (len xs) (len ys)); [|lia].
    cbn [NODES OFFS OFF]. rewrite <- Nat.add_assoc, <- app_assoc. apply IH1.
    eapply (wp_resume_pop _ _ _ nodes sp (Some b) (len p + len xs)); [done|lia|done|done|rewrite Hw1 by lia; apply list_lookup_insert_eq; lia|].
    specialize (IH2 f Q R). rewrite length_app, Nat2Z.inj_add, <- !app_assoc in IH2. apply IH2. by rewrite <- app_assoc in HQ.
  - destruct (IHb (p ++ h1) h2 q _ _ (S sp) H2 ltac:(rewrite length_app; lia) (free_push _ _ _ _ (Some a) (len p) Hf) ltac:(rewrite pow_S; nia)) as (k1 & w1 & Hk1 & (Es1 & En1 & Eo1 & Hw1) & IH1).
    destruct (IHa p h1 (ys ++ q) nodes (OFFS w1) sp H1 ltac:(lia) ltac:(eapply free_back; [done|by rewrite Eo1, length_insert]) ltac:(nia)) as (k2 & w2 & Hk2 & (Es2 & En2 & Eo2 & Hw2) & IH2).
    exists (S (k1 + k2)), w2. split_and!; [lia| |].
    { split_and!; [done..|by rewrite Eo2, Eo1, length_insert|]. intros i Hi. rewrite Hw2, Hw1, list_lookup_insert_ne by lia. done. }
    intros f Q R HQ. cbn [Nat.add]. eapply wp_step_rope; [exact E|exact Ha|reflexivity|simpl; lia|simpl; lia|lia|simpl; lia|simpl; lia|]. destruct (Z.leb_spec (len xs) (len ys)); [lia|].
    cbn [NODES OFFS OFF]. rewrite <- Nat.add_assoc. specialize (IH1 (k2 + f)%nat Q R). rewrite length_app, Nat2Z.inj_add, H1, <- !app_assoc in IH1. rewrite <- !app_assoc. apply IH1.
    eapply (wp_resume_pop _ _ _ nodes sp (Some a) (len p)); [done|lia|done|done|rewrite Hw1 by lia; apply list_lookup_insert_eq; lia|].
    apply IH2. by rewrite <- app_assoc in HQ.
Qed.

Lemma walks_holds v cs : holds (objs s) v cs → cs ≠ [] → walks v cs.
Proof.
  induction 1 as [l cs E|l n b off cs Hv E Eb Hn Ho Hb Hm|l n d cs E Ed Hn|l n a b xs ys E Ha IHa Hb IHb Hx Hy Hn]; intros Hne.
  - apply walks_leaf; [done|]. intros w p h q f Q R Hc Hw Hh HQ. eapply wp_step_flat; [rewrite Hc; exact E|done..].
  - apply walks_leaf; [done|]. intros w p h q f Q R Hc Hw Hh HQ. destruct (slice_split cs off n) as (x & y & Hs & Hx & Hl); [done..|].
    eapply (wp_step_view s p h q x (slice cs off n) y); [done|rewrite Hc, <- Hl; exact E|rewrite <- Hs; exact Eb|done..].
  - intros p h q nodes offs sp Hh Hp Hf HBd.
    exists 2%nat, (mkWalk nodes offs (Z.of_nat sp) (Some d) (len p)). destruct cs as [|c cs]; [done|]. split_and!; [simpl; lia|done|].
    intros f Q R HQ. eapply wp_step_cached; [exact E|]. eapply wp_step_flat; [exact Ed|done..].
  - subst n. eapply walks_node; eauto.
Qed.
End walking.

(** ** Flattening *)

Lemma wp_set_l s v n l r x (Q : unit → store → Prop) R : look s (Some v) = Some (Rope n l r) → Q tt (set_objs <[v := Rope n x r]> s) → wp (set_l (Some v) x) Q R s.
Proof. intros E HQ. apply wp_bind. eapply wp_rope; [done|]. by apply wp_put. Qed.
Lemma wp_set_r s v n l r x (Q : unit → store → Prop) R : look s (Some v) = Some (Rope n l r) → Q tt (set_objs <[v := Rope n l x]> s) → wp (set_r (Some v) x) Q R s.
Proof. intros E HQ. apply wp_bind. eapply wp_rope; [done|]. by apply wp_put. Qed.

(** The stack arrays of a store with a stack between flattenings. *)
Lemma wp_walk_stack s (Q : list ref * list Z → store → Prop) R : wf_stack s →
  (∀ offs s', objs s' = objs s → gDir s' = gDir s → cell s' = cell s → len offs = STACK_SLOTS → Q (replicate (Z.to_nat STACK_SLOTS) None, offs) s') → wp walk_stack Q R s.
Proof.
  intros [[E1 E2]|(E & offs & Eo & Hl)] HQ; unfold wp, walk_stack; [rewrite E1|rewrite E, Eo]; by apply HQ.
Qed.


(** The walk from a node fills the array with its text; [slots] slots are
    enough when the text has fewer than 2^(slots + 1) code units. *)
Lemma wp_walk s (slots : nat) p cs offs R : holds (objs s) p cs → cs ≠ [] → len cs < 2 ^ 32 → Z.of_nat slots < 2 ^ 31 → len cs < 2 ^ Z.of_nat (S slots) → length offs = slots →
  wp (loop (Z.to_nat (3 * len cs)) (walk_step viewsLive (Some (fresh s))) (mkWalk (replicate slots None) offs 0 (Some p) 0))
    (λ w s', NODES w = replicate slots None ∧ length (OFFS w) = slots ∧ s' = extend (Chars cs) s) R (extend (Chars (replicate (length cs) 0)) s).
Proof.
  intros H Hne Hlim Hsl HB Ho.
  destruct (walks_holds s slots (len cs) Hsl HB p cs H Hne [] (replicate (length cs) 0) [] (replicate slots None) offs 0%nat) as (k & w & Hk & (Es & En & Eo & _) & HW).
  - by rewrite length_replicate.
  - simpl. lia.
  - split_and!; [by rewrite length_replicate|done|]. intros i Hi. apply lookup_replicate_2. lia.
  - change (2 ^ Z.of_nat 0) with 1. lia.
  - replace (Z.to_nat (3 * len cs)) with (k + (Z.to_nat (3 * len cs) - k))%nat by lia. rewrite !app_nil_r, !app_nil_l in HW. apply HW.
    apply wp_resume_done; [done|]. split_and!; [done|lia|done].
Qed.

(** The fresh array is filled, by two copies or by the walk. *)
Definition filled (s : store) (cs : list Z) (s' : store) : Prop :=
  ∃ s1, objs s1 = objs s ∧ gDir s1 = gDir s ∧ cell s1 = cell s ∧ (wf_stack s → wf_stack s1) ∧ s' = extend (Chars cs) s1.

Lemma holds_is_chars s l cs o : holds (objs s) l cs → match look (extend o s) (Some l) with Some o => is_chars o | None => false end = true → look s (Some l) = Some (Chars cs).
Proof. intros (o' & E & Ho)%holds_look. rewrite (look_push _ _ _ _ E). destruct o'; simpl in Ho; by subst. Qed.

Lemma wp_fill_two s x y xs ys R : look s x = Some (Chars xs) → look s y = Some (Chars ys) →
  wp (ll <- array_len x;; array_copy (Some (fresh s)) 0 x 0 ll;;; lr <- array_len y;; array_copy (Some (fresh s)) ll y 0 lr)
    (λ _ s', s' = extend (Chars (xs ++ ys)) s) R (extend (Chars (replicate (length xs + length ys) 0)) s).
Proof.
  intros Ex Ey. rewrite replicate_plus. apply wp_bind. eapply wp_array_len; [by apply look_push|]. apply wp_bind.
  eapply (wp_fill s [] (replicate (length xs) 0) (replicate (length ys) 0) [] xs []); [by rewrite app_nil_r|done..|by rewrite length_replicate|]. cbn [app].
  apply wp_bind. eapply wp_array_len; [by apply look_push|]. rewrite <- (app_nil_r (replicate _ _)).
  eapply (wp_fill s xs _ [] [] ys []); [by rewrite app_nil_r|done..|by rewrite length_replicate|]. by rewrite app_nil_r.
Qed.

Lemma wp_fill_walk s p cs R : wf_stack s → holds (objs s) p cs → cs ≠ [] → len cs < 2 ^ 32 →
  wp ('(nodes, offs) <- walk_stack;; w <- loop (Z.to_nat (3 * len cs)) (walk_step viewsLive (Some (fresh s))) (mkWalk nodes offs 0 (Some p) 0);; keep_stack w)
    (λ _ s', filled s cs s') R (extend (Chars (replicate (length cs) 0)) s).
Proof.
  intros Hst H Hne Hlim. apply wp_bind, wp_walk_stack; [exact Hst|]. intros offs s' Eo Ed Ec Hl.
  destruct s' as [os g1 g2 dir c]. simpl in Eo, Ed, Ec. subst os dir c. set (s1 := mkStore (objs s) g1 g2 (gDir s) (cell s)).
  match goal with |- wp _ _ _ ?x => change x with (extend (Chars (replicate (length cs) 0)) s1) end. change (fresh s) with (fresh s1).
  apply wp_bind. eapply wp_mono; [apply (wp_walk s1 (Z.to_nat STACK_SLOTS)); [done..| | |]| |done].
  - by vm_compute.
  - etransitivity; [exact Hlim|]. by vm_compute.
  - unfold STACK_SLOTS in *. lia.
  - intros w s' (En & Eo' & ->). exists (mkStore (objs s) (Some (NODES w)) (Some (OFFS w)) (gDir s) (cell s)). split_and!; [done..| |done].
    intros _. right. rewrite En. split; [done|]. exists (OFFS w). split; [done|]. unfold STACK_SLOTS in *. simpl. lia.
Qed.

Lemma keeps_filled s cs s' : filled s cs s' → keeps s s'.
Proof.
  intros (s1 & Eo & Ed & Ec & Hst & ->). transitivity s1; [|apply keeps_alloc]. assert (Hc : ∀ l ds, objs s !! l = Some (Chars ds) → objs s1 !! l = Some (Chars ds)) by by rewrite Eo.
  split; [exact Hc|by rewrite Eo|by apply keeps_same_dir|done].
Qed.

Lemma wp_flatten s p n a b cs R : wf_stack s → look s (Some p) = Some (Rope n a b) → holds (objs s) p cs → len cs < 2 ^ 32 → wp (flatten viewsLive (Some p)) (flat_form s cs) R s.
Proof.
  intros Hst E H Hlim. unfold flatten. apply wp_bind. eapply wp_rope; [exact E|].
  inversion H as [? ? E'|? ? ? ? ? ? E'|? ? d ? E' Ed Hn|? ? x y xs ys E' Ha Hb Hx Hy Hn]; subst; unfold look in E; simpl in E; simplify_eq.
  { apply wp_bind. eapply wp_chars; [exact Ed|]. split; [done|]. by split. }
  apply wp_bind, wp_alloc. fold (fresh s). rewrite <- Nat2Z.inj_add, Nat2Z.id. set (zs := Chars (replicate _ 0)). change (set_objs (λ os, os ++ [zs]) s) with (extend zs s).
  apply wp_bind, wp_test, wp_bind, wp_test, wp_bind. apply (wp_mono _ (λ _, filled s (xs ++ ys)) _ (λ _ _, False)); [| |done].
  - destruct (_ && _) eqn:Ec.
    + apply andb_prop in Ec as [Ec1 Ec2]. eapply holds_is_chars in Ec1, Ec2; [|done..].
      eapply wp_mono; [apply (wp_fill_two s (Some x) (Some y) xs ys (λ _ _, False) Ec1 Ec2)| |done]. intros _ s' ->. by exists s.
    + rewrite <- length_app. unfold zs. rewrite <- length_app. apply wp_fill_walk; [done|done|by destruct xs|done].
  - intros _ s' F. pose proof (keeps_filled _ _ _ F) as K. destruct F as (s1 & Eo & Ed & Ec & _ & ->).
    assert (E1 : look (extend (Chars (xs ++ ys)) s1) (Some p) = Some (Rope (len xs + len ys) (Some x) (Some y))) by (apply look_push; unfold look; simpl; rewrite Eo; exact E).
    apply wp_bind. eapply wp_set_l; [exact E1|]. apply wp_bind. eapply wp_set_r; [by eapply look_put|]. rewrite put_put.
    change (fresh s) with (length (objs s)). rewrite <- Eo. fold (fresh s1). set (s2 := extend _ s1) in *.
    assert (Ef : look (set_objs <[p := Rope (len xs + len ys) (Some (fresh s1)) None]> s2) (Some (fresh s1)) = Some (Chars (xs ++ ys))).
    { rewrite look_put_ne; [apply look_fresh|]. eapply (look_lt s1). unfold look. simpl. rewrite Eo. exact E. }
    split_and!; [|exact Ec|exact Ef]. transitivity s2; [exact K|]. eapply keeps_replace; [by eapply keeps_text|intros ds Ed'; change (look s2 (Some p) = Some (Chars ds)) in Ed'; congruence|].
    eapply holds_cached; [eapply look_put, E1|exact Ef|by rewrite length_app, Nat2Z.inj_add].
Qed.

Lemma flat_form_here s cs v : look s v = Some (Chars cs) → flat_form s cs v s.
Proof. intros E. split; [done|]. by split. Qed.

Lemma wp_nodeFlat s v cs R : wf_stack s → holds (objs s) v cs → len cs < 2 ^ 32 → (∀ ds, look s (Some v) ≠ Some (Chars ds)) → wp (nodeFlat viewsLive (Some v)) (flat_form s cs) R s.
Proof.
  intros Hst H Hlim Hn. destruct (holds_look _ _ _ H) as (o & E & Ho). unfold nodeFlat. apply wp_bind. destruct o as [ds|n a b|n b off]; [by apply Hn in E| |].
  - eapply wp_not_slice; [exact E|done|]. by eapply wp_flatten.
  - destruct Ho as [Hv _]. apply (wp_mono _ (λ r s', r = true ∧ s' = s) _ (λ _ _, False)); [rewrite Hv; apply wp_test; by rewrite E|intros r s' [-> ->]|done].
    assert (∃ d, b = Some d) as [d ->] by (inversion H; unfold look in E; simpl in E; simplify_eq; eauto). by eapply wp_materialise.
Qed.

(** The flat form of a value, nodes and views rewritten to keep it. *)
Lemma wp_flat s v cs R : wf_stack s → holds (objs s) v cs → len cs < 2 ^ 32 → wp (flat viewsLive (Some v)) (flat_form s cs) R s.
Proof.
  intros Hst H Hlim. unfold flat. apply wp_bind, wp_test. destruct (holds_look _ _ _ H) as (o & E & Ho). rewrite E. destruct (is_chars o) eqn:Eo.
  - destruct o; try done. simpl in Ho. subst. by apply flat_form_here.
  - rewrite bool_decide_false by done. simpl. apply wp_nodeFlat; [done..|]. intros ds E'. rewrite E in E'. by injection E' as ->.
Qed.
Lemma wp_flatCast s v cs R : wf_stack s → holds (objs s) v cs → len cs < 2 ^ 32 → wp (flatCast viewsLive (Some v)) (flat_form s cs) R s.
Proof.
  intros Hst H Hlim. unfold flatCast. apply wp_bind, wp_test. destruct (holds_look _ _ _ H) as (o & E & Ho). rewrite E. destruct (is_chars o) eqn:Eo.
  - destruct o; try done. simpl in Ho. subst. by apply flat_form_here.
  - apply wp_nodeFlat; [done..|]. intros ds E'. rewrite E in E'. by injection E' as ->.
Qed.

(** ** Concatenation *)

(** A value of the text [cs], everything else kept. *)
Definition text_form (s : store) (cs : list Z) (v : ref) (s' : store) : Prop := keeps s s' ∧ cell s' = cell s ∧ ∃ l, v = Some l ∧ holds (objs s') l cs.

Lemma text_alloc s s1 o cs : keeps s s1 → cell s1 = cell s → holds (objs (extend o s1)) (fresh s1) cs → text_form s cs (Some (fresh s1)) (extend o s1).
Proof. intros K Ec H. split; [by transitivity s1; [|apply keeps_alloc]|]. split; [done|]. by eexists. Qed.

Lemma wp_concat_text s s1 a b xs ys R : keeps s s1 → cell s1 = cell s → look s1 a = Some (Chars xs) → look s1 b = Some (Chars ys) → len xs + len ys < 2 ^ 32 → wp (concatHelper a b) (text_form s (xs ++ ys)) R s1.
Proof. intros K Ec Ea Eb Hn. eapply wp_concat; [done..|]. apply text_alloc; [done..|]. apply holds_fresh. Qed.

Lemma wp_unwrap s v cs (Q : ref → store → Prop) R : holds (objs s) v cs → (∀ x, holds (objs s) x cs → Q (Some x) s) → wp (unwrap (Some v)) Q R s.
Proof.
  intros H HQ. unfold unwrap. apply wp_bind, wp_test. destruct (holds_look _ _ _ H) as (o & E & _). rewrite E. destruct o as [ds|n a b|n b off]; simpl; [by apply HQ| |by apply HQ].
  apply wp_bind. eapply wp_rope; [exact E|]. destruct b as [b|]; [by apply HQ|].
  inversion H as [? ? E'|? ? ? ? ? ? E'|? ? d ? E' Ed Hn|? ? ? ? ? ? E']; subst; unfold look in E; simpl in E; simplify_eq. by apply HQ, holds_chars.
Qed.

Lemma holds_chars_inv s l cs ds : holds (objs s) l cs → look s (Some l) = Some (Chars ds) → ds = cs.
Proof. intros (o & E & Ho)%holds_look E'. rewrite E in E'. by injection E' as ->. Qed.
Lemma look_test (shape : obj → bool) s v : match look s v with Some o => shape o | None => false end = true → ∃ o, look s v = Some o ∧ shape o = true.
Proof. destruct (look s v) as [o|]; [eauto|done]. Qed.
Lemma is_chars_look s v : match look s v with Some o => is_chars o | None => false end = true → ∃ cs, look s v = Some (Chars cs).
Proof. intros (o & E & Ho)%look_test. destruct o; try done. eauto. Qed.
Lemma is_rope_look s v : match look s v with Some o => is_rope o | None => false end = true → ∃ n l r, look s v = Some (Rope n l r).
Proof. intros (o & E & Ho)%look_test. destruct o; try done. eauto. Qed.
(** A node with a right child holds the two texts. *)
Lemma holds_node_inv s v cs n a r : holds (objs s) v cs → look s (Some v) = Some (Rope n a (Some r)) →
  ∃ l xs ys, a = Some l ∧ cs = xs ++ ys ∧ holds (objs s) l xs ∧ holds (objs s) r ys ∧ xs ≠ [] ∧ ys ≠ [].
Proof.
  intros H E. inversion H as [? ? E'|? ? ? ? ? ? E'|? ? d ? E' Ed Hn|? ? ? ? ? ? E']; subst; unfold look in E; simpl in E; simplify_eq. eauto 10.
Qed.

(** A merge answers a value of the whole text, or leaves the store alone. *)
Definition merged (s : store) (cs : list Z) (o : option ref) (s' : store) : Prop := match o with Some v => text_form s cs v s' | None => s' = s end.

(** A node over one child and a fresh array. *)
Lemma holds_push_rope s n a b xs ys cs : holds (objs s) a xs → holds (objs s) b ys → xs ≠ [] → ys ≠ [] → n = len xs + len ys → cs = xs ++ ys →
  holds (objs (extend (Rope n (Some a) (Some b)) s)) (fresh s) cs.
Proof.
  intros Ha Hb Hx Hy Hn ->. eapply holds_rope; [apply (look_fresh (Rope n (Some a) (Some b)) s)|by apply holds_app|by apply holds_app|done..].
Qed.

Lemma wp_merge_tail s n a b xs ys R : holds (objs s) a xs → holds (objs s) b ys → ys ≠ [] → n = len xs + len ys → n < 2 ^ 32 →
  wp (merge_tail n (len ys) (Some a) (Some b)) (merged s (xs ++ ys)) R s.
Proof.
  intros Ha Hb Hy Hn Hlim. unfold merge_tail. apply wp_bind, wp_test, wp_bind, wp_test.
  destruct (_ && _) eqn:Ec; [|done]. apply andb_prop in Ec as [[[ds Eb]%is_chars_look _]%andb_prop (n' & l & t & Ea)%is_rope_look].
  rewrite (holds_chars_inv _ _ _ _ Hb Eb) in Eb. apply wp_bind. eapply wp_rope; [exact Ea|]. apply wp_bind, wp_test.
  destruct (match look s t with Some o => is_chars o | None => false end) eqn:Et; [|done]. apply is_chars_look in Et as [ws Et].
  destruct t as [t|]; [|done]. destruct (holds_node_inv _ _ _ _ _ _ Ha Ea) as (l0 & u & w & -> & -> & Hu & Hw & Hu0 & Hw0).
  rewrite (holds_chars_inv _ _ _ _ Hw Et) in Et. apply wp_bind. eapply wp_array_len; [exact Et|]. destruct (_ <=? _); [|done].
  rewrite length_app, Nat2Z.inj_add in Hn. apply wp_bind. eapply wp_concat; [exact Et|exact Eb|lia|]. apply wp_bind, wp_alloc. apply (text_alloc s (extend _ s)); [apply keeps_alloc|done|].
  eapply holds_push_rope; [by apply holds_app|apply holds_fresh|done|by destruct w|rewrite length_app; lia|by rewrite app_assoc].
Qed.

Lemma wp_merge_head s n a b xs ys R : holds (objs s) a xs → holds (objs s) b ys → xs ≠ [] → n = len xs + len ys → n < 2 ^ 32 →
  wp (merge_head n (len xs) (Some a) (Some b)) (merged s (xs ++ ys)) R s.
Proof.
  intros Ha Hb Hx Hn Hlim. unfold merge_head. apply wp_bind, wp_test, wp_bind, wp_test.
  destruct (_ && _) eqn:Ec; [|done]. apply andb_prop in Ec as [[[ds Ea]%is_chars_look _]%andb_prop (n' & t & r & Eb)%is_rope_look].
  rewrite (holds_chars_inv _ _ _ _ Ha Ea) in Ea. apply wp_bind. eapply wp_rope; [exact Eb|]. apply wp_bind, wp_test.
  destruct (match look s t with Some o => is_chars o | None => false end) eqn:Et; [|done]. apply is_chars_look in Et as [ws Et].
  apply wp_bind. eapply wp_array_len; [exact Et|]. destruct (_ <=? _); [|done].
  inversion Hb as [? ? E'|? ? ? ? ? ? E'|? ? d ? E' Ed Hd|? ? t0 r0 u w E' Hu Hw Hu0 Hw0 Hn']; subst; unfold look in Eb, Et; simpl in Eb, Et; simplify_eq; simpl in Et.
  - apply wp_bind. simplify_eq. eapply wp_concat; [exact Ea|exact Et|lia|]. apply wp_bind, wp_alloc. apply (text_alloc s (extend _ s)); [apply keeps_alloc|done|].
    set (s1 := extend (Chars (xs ++ ws)) s). eapply holds_cached; [exact (look_fresh (Rope _ _ _) s1)| |by rewrite length_app, Nat2Z.inj_add].
    exact (look_push (Rope _ _ _) s1 (Some (fresh s)) _ (look_fresh _ s)).
  - rewrite (holds_chars_inv _ _ _ _ Hu Et) in Et. rewrite length_app, Nat2Z.inj_add in Hlim |- *. apply wp_bind. eapply wp_concat; [exact Ea|exact Et|lia|].
    apply wp_bind, wp_alloc. apply (text_alloc s (extend _ s)); [apply keeps_alloc|done|].
    eapply holds_push_rope; [apply holds_fresh|by apply holds_app|by destruct xs|done|rewrite length_app; lia|by rewrite app_assoc].
Qed.

Lemma wp_cat_node s n a b xs ys R : holds (objs s) a xs → holds (objs s) b ys → xs ≠ [] → ys ≠ [] → n = len xs + len ys → n < 2 ^ 32 →
  wp (cat_node n (len xs) (len ys) (Some a) (Some b)) (text_form s (xs ++ ys)) R s.
Proof.
  intros Ha Hb Hx Hy Hn Hlim. unfold cat_node. apply wp_bind. eapply wp_unwrap; [exact Ha|]. clear a Ha. intros a Ha.
  apply wp_bind. eapply wp_unwrap; [exact Hb|]. clear b Hb. intros b Hb.
  apply wp_bind. eapply wp_mono; [by apply wp_merge_tail| |done]. intros [v|] s' Hm; [exact Hm|]. simpl in Hm. subst s'.
  apply wp_bind. eapply wp_mono; [by apply wp_merge_head| |done]. intros [v|] s' Hm; [exact Hm|]. simpl in Hm. subst s'.
  apply wp_alloc, text_alloc; [done..|]. by eapply holds_push_rope.
Qed.

(** [a + b]: the concatenation of the texts, or the pending RangeError. *)
Definition concatenated (s : store) (a : ref) (xs ys : list Z) (v : ref) (s' : store) : Prop :=
  if MAX_STRING_LENGTH <? len xs + len ys
  then keeps s s' ∧ v = a ∧ cell s' = Some "RangeError: Invalid string length"%string
  else text_form s (xs ++ ys) v s'.

Lemma wp_too_long s a xs ys R : MAX_STRING_LENGTH < len xs + len ys → wp (strTooLongHelper;;; mret a) (concatenated s a xs ys) R s.
Proof. intros H. unfold concatenated. destruct (Z.ltb_spec MAX_STRING_LENGTH (len xs + len ys)); [|lia]. done. Qed.

Lemma concatenated_text s a xs ys v s' : len xs + len ys <= MAX_STRING_LENGTH → text_form s (xs ++ ys) v s' → concatenated s a xs ys v s'.
Proof. intros H. unfold concatenated. by destruct (Z.ltb_spec MAX_STRING_LENGTH (len xs + len ys)); [lia|]. Qed.

(** Whether both operands are arrays and short together. *)
Lemma wp_short s a b xs ys (Q : bool → store → Prop) R : holds (objs s) a xs → holds (objs s) b ys → len xs + len ys < 2 ^ 32 →
  (∀ r, (r = true → look s (Some a) = Some (Chars xs) ∧ look s (Some b) = Some (Chars ys) ∧ len xs + len ys < CONS_MIN_LENGTH) → Q r s) →
  wp (short_flat (Some a) (Some b)) Q R s.
Proof.
  intros Ha Hb Hlim HQ. unfold short_flat. apply wp_bind, wp_test, wp_bind, wp_test. destruct (_ && _) eqn:Ec; [|by apply HQ].
  apply andb_prop in Ec as [[ds Ea]%is_chars_look [es Eb]%is_chars_look].
  rewrite (holds_chars_inv _ _ _ _ Ha Ea) in Ea. rewrite (holds_chars_inv _ _ _ _ Hb Eb) in Eb.
  apply wp_bind. eapply wp_array_len; [exact Ea|]. apply wp_bind. eapply wp_array_len; [exact Eb|]. rewrite add32_id by lia. apply HQ. intros ?%Z.ltb_lt. done.
Qed.

Lemma wp_cat s a b xs ys R : wf_stack s → holds (objs s) a xs → holds (objs s) b ys → len xs <= MAX_STRING_LENGTH → len ys <= MAX_STRING_LENGTH →
  wp (cat viewsLive (Some a) (Some b)) (concatenated s (Some a) xs ys) R s.
Proof.
  intros Hst Ha Hb Hx Hy. assert (Hlim : len xs + len ys < 2 ^ 32) by (unfold MAX_STRING_LENGTH in *; lia). unfold cat.
  apply wp_bind. eapply wp_short; [done..|]. intros [] Hr.
  { destruct Hr as (Ea & Eb & Hs); [done|]. eapply wp_mono; [by apply (wp_concat_text s s)| |done]. intros v s' H. apply concatenated_text; [unfold CONS_MIN_LENGTH, MAX_STRING_LENGTH in *; lia|done]. }
  apply wp_bind. eapply wp_len; [exact Ha|]. apply wp_bind. eapply wp_len; [exact Hb|].
  destruct (Z.eqb_spec (len ys) 0) as [Ey|Ey].
  { apply concatenated_text; [lia|]. destruct ys; [|done]. rewrite app_nil_r. split; [done|]. split; [done|]. by exists a. }
  destruct (Z.eqb_spec (len xs) 0) as [Ex|Ex].
  { apply concatenated_text; [lia|]. destruct xs; [|done]. split; [done|]. split; [done|]. by exists b. }
  rewrite add32_id by lia. destruct (Z.ltb_spec MAX_STRING_LENGTH (len xs + len ys)) as [Hm|Hm]; [by apply wp_too_long|].
  destruct (Z.ltb_spec (len xs + len ys) CONS_MIN_LENGTH).
  - apply wp_bind. eapply wp_mono; [apply wp_flat; [done..|lia]| |done]. intros fa s1 (K1 & E1 & F1).
    apply wp_bind. eapply wp_mono; [apply (wp_flat s1 b ys); [by apply K1|by apply K1|lia]| |done]. intros fb s2 (K2 & E2 & F2).
    eapply wp_mono; [apply (wp_concat_text s s2); [by transitivity s1|by rewrite E2|by destruct fa; [apply K2|]|done|done]| |done]. intros v s' H'. by apply concatenated_text.
  - eapply wp_mono; [apply wp_cat_node; [done|done|by destruct xs|by destruct ys|done|done]| |done]. intros v s' H'. by apply concatenated_text.
Qed.

End texts.

(** ** What the helpers promise *)

Arguments holds viewsLive os l cs : assert.

(** C10. The value concatenation is JavaScript's [a + b]: on values of texts xs
    and ys, each within the length limit, %w.str.cat answers a value of the
    text xs ++ ys whatever shapes the operands have (flat, node, cached node,
    view) and whichever path it takes (copy, empty operand, merge of a short
    tail or head, new node); past the limit it leaves the RangeError pending
    and answers its first operand.  No path traps, and every other value of
    the store keeps its text. *)
Theorem cat_concatenates viewsLive s a b xs ys : wf_stack s → holds viewsLive (objs s) a xs → holds viewsLive (objs s) b ys →
  len xs <= MAX_STRING_LENGTH → len ys <= MAX_STRING_LENGTH →
  wp (cat viewsLive (Some a) (Some b))
    (λ v s', keeps viewsLive s s' ∧
       if MAX_STRING_LENGTH <? len xs + len ys then v = Some a ∧ cell s' = Some "RangeError: Invalid string length"%string
       else cell s' = cell s ∧ ∃ l, v = Some l ∧ holds viewsLive (objs s') l (xs ++ ys))
    (λ _ _, False) s.
Proof.
  intros Hst Ha Hb Hx Hy. eapply wp_mono; [by apply (wp_cat viewsLive s a b xs ys (λ _ _, False))| |done].
  intros v s'. unfold concatenated, text_form. destruct (_ <? _); [|done]. by intros (K & -> & E).
Qed.

(** Five words and thirty x, twice concatenated. *)
Definition two_nodes : store :=
  mkStore [Chars [104; 101; 108; 108; 111]; Chars (replicate 30 120); Rope 35 (Some 0%nat) (Some 1%nat); Slice 20 (Some 1%nat) 3] None None None None.
Lemma two_nodes_text : holds true (objs two_nodes) 2 ([104; 101; 108; 108; 111] ++ replicate 30 120) ∧ holds true (objs two_nodes) 3 (replicate 20 120).
Proof.
  split; [eapply holds_rope; [reflexivity|by apply holds_chars|by apply holds_chars|done..]|].
  change (replicate 20 120) with (slice (replicate 30 120) 3 20). eapply holds_slice; [done|reflexivity|reflexivity|by vm_compute..].
Qed.

Lemma cat_concatenates_witness :
  ∃ v s', cat true (Some 2%nat) (Some 3%nat) two_nodes = (Val v, s') ∧ ∃ l, v = Some l ∧ holds true (objs s') l (([104; 101; 108; 108; 111] ++ replicate 30 120) ++ replicate 20 120).
Proof.
  destruct two_nodes_text as [Ha Hb].
  pose proof (cat_concatenates true two_nodes 2 3 _ _ (or_introl (conj eq_refl eq_refl)) Ha Hb ltac:(by vm_compute) ltac:(by vm_compute)) as H.
  apply wp_run in H as (v & s' & E & _ & Hv). exists v, s'. split; [exact E|]. apply Hv.
Defined.

(** Reading a value flat answers an array of exactly its text, for every
    shape, and the value itself keeps its text in the rewritten store (a
    node becomes its array, a view a view of its own copy), as do all others;
    the walk's stack and the table of one-unit strings stay well formed. *)
Theorem flat_reads viewsLive s v cs : wf_stack s → holds viewsLive (objs s) v cs → len cs < 2 ^ 32 →
  wp (flat viewsLive (Some v)) (λ r s', look s' r = Some (Chars cs) ∧ keeps viewsLive s s' ∧ cell s' = cell s) (λ _ _, False) s ∧
  wp (flatCast viewsLive (Some v)) (λ r s', look s' r = Some (Chars cs) ∧ keeps viewsLive s s' ∧ cell s' = cell s) (λ _ _, False) s ∧
  wp (str_len viewsLive (Some v)) (λ n s', n = len cs ∧ s' = s) (λ _ _, False) s.
Proof.
  intros Hst H Hlim. split_and!; [..|by eapply wp_len; [exact H|]]; (eapply wp_mono; [(by apply (wp_flat viewsLive s v cs (λ _ _, False))) || (by apply (wp_flatCast viewsLive s v cs (λ _ _, False)))| |done]; by intros r s' (K & E & F)).
Qed.

Lemma flat_reads_witness : ∃ r s', flat true (Some 2%nat) two_nodes = (Val r, s') ∧ look s' r = Some (Chars ([104; 101; 108; 108; 111] ++ replicate 30 120)).
Proof.
  destruct (flat_reads true two_nodes 2 _ (or_introl (conj eq_refl eq_refl)) (proj1 two_nodes_text) ltac:(by vm_compute)) as [H _].
  apply wp_run in H as (r & s' & E & F & _). exists r, s'. split; [exact E|exact F].
Defined.

(** C17. The walk of a flattening terminates within three rounds a code unit and
    needs no more stack than the binary logarithm of the text's length: with
    that many slots it fills the array with the text, traps nowhere and leaves
    the stack empty.  Walking into the shorter child is what bounds it. *)
Theorem walk_depth viewsLive s p cs : holds viewsLive (objs s) p cs → cs ≠ [] → len cs < 2 ^ 31 →
  let slots := Z.to_nat (Z.log2 (len cs)) in
  wp (loop (Z.to_nat (3 * len cs)) (walk_step viewsLive (Some (fresh s))) (mkWalk (replicate slots None) (replicate slots 0) 0 (Some p) 0))
    (λ w s', NODES w = replicate slots None ∧ s' = extend (Chars cs) s) (λ _ _, False) (extend (Chars (replicate (length cs) 0)) s).
Proof.
  intros H Hne Hlim slots. assert (0 < len cs) by (destruct cs; simpl; lia || done). assert (Hlog : 0 <= Z.log2 (len cs) < 31) by (split; [apply Z.log2_nonneg|by apply Z.log2_lt_pow2]).
  eapply wp_mono; [apply (wp_walk viewsLive s slots p cs (replicate slots 0) (λ _ _, False)); try done| |done].
  - lia.
  - unfold slots. lia.
  - unfold slots. rewrite Nat2Z.inj_succ, Z2Nat.id by lia. by apply Z.log2_spec.
  - by rewrite length_replicate.
  - intros w s' (En & _ & ->). done.
Qed.

Lemma walk_depth_witness : ∃ w s', loop 105 (walk_step true (Some 4%nat)) (mkWalk (replicate 5 None) (replicate 5 0) 0 (Some 2%nat) 0) (extend (Chars (replicate 35 0)) two_nodes) = (Val w, s') ∧
  look s' (Some 4%nat) = Some (Chars ([104; 101; 108; 108; 111] ++ replicate 30 120)).
Proof.
  pose proof (walk_depth true two_nodes 2 _ (proj1 two_nodes_text) ltac:(done) ltac:(by vm_compute)) as H. cbv zeta in H.
  change (Z.to_nat (3 * _)) with 105%nat in H. change (Z.to_nat (Z.log2 _)) with 5%nat in H. change (fresh two_nodes) with 4%nat in H. change (length (_ ++ _)) with 35%nat in H.
  apply wp_run in H as (w & s' & E & _ & Es). exists w, s'. split; [exact E|]. rewrite Es. reflexivity.
Defined.
