(* ===== verification/Slices.v ===== *)
(** * Slice views: windows, producers and readers

    src/packages/compiler/src/backend/wasm/slices.ts with the helpers of
    strings.ts it calls (shared one-unit strings, whitespace, substring
    comparison, boundary clamping): the functions the WasmGC tier emits for
    slice, substring, trim, charCodeAt, charAt, the string iterator,
    startsWith, endsWith and indexOf.  A receiver is read as a window into a
    flat array; a result of thirteen units or more is a view of it.  Same store
    and monad as Ropes.v, with views live; Number arguments are the exact
    doubles of F64.v. *)

From S2P Require Import Prelude F64 Arrays Ropes.

#[local] Open Scope arr_scope.

(** ** Instructions on Numbers *)

Definition trunc_s (x : num) : MS Z := of_option (trunc_s32 x).
Definition array_get_u (v : ref) (i : Z) : MS Z := cs <- chars v;; of_option (aget cs i).

(** ** strings.ts *)

Definition emitToIntInf (x : num) : num := math_trunc (if num_eq x x then x else Fin 0).

(** One boundary of slice, of substring; [x] is already an integer. *)
Definition emitSliceBoundary (x : num) (n : Z) : MS Z :=
  if num_lt x (Fin 0) then
    let x := num_add x (i2d n) in
    if num_le x (Fin 0) then mret 0 else trunc_s x
  else if num_le (i2d n) x then mret n else trunc_s x.
Definition emitAbsBoundary (x : num) (n : Z) : MS Z :=
  if num_le x (Fin 0) then mret 0 else if num_le (i2d n) x then mret n else trunc_s x.

Definition singles : list Z := [0x0009; 0x000a; 0x000b; 0x000c; 0x000d; 0x0020; 0x00a0; 0x1680; 0x2028; 0x2029; 0x202f; 0x205f; 0x3000; 0xfeff].
Definition isWs (u : Z) : bool := existsb (Z.eqb u) singles || (ge_s u 0x2000 && ge_s 0x200a u).

(** %w.str.unit: the shared string of one code unit, from a directory of 256
    pages of 256 slots, each made on first use. *)
Definition set_dir (dir : list (option (list ref))) : MS unit := λ s, (Val tt, mkStore (objs s) (gNodes s) (gOffs s) (Some dir) (cell s)).
Definition unit_dir : MS (list (option (list ref))) := λ s, (Val (match gDir s with Some dir => dir | None => replicate 256 None end), s).
Definition unit_ (u : Z) : MS ref :=
  dir <- unit_dir;;
  set_dir dir;;;
  p <- of_option (aget dir (Z.shiftr u 8));;
  let page := match p with Some page => page | None => replicate 256 None end in
  dir <- of_option (aset dir (Z.shiftr u 8) (Some page));;
  set_dir dir;;;
  r <- of_option (aget page (Z.land u 0xff));;
  match r with
  | Some _ => mret r
  | None =>
      r <- alloc (Chars [u]);;
      page <- of_option (aset page (Z.land u 0xff) r);;
      dir <- of_option (aset dir (Z.shiftr u 8) (Some page));;
      set_dir dir;;;
      mret r
  end.

(** %w.str.matchAt *)
Definition match_step (s n : ref) (nl at_ : Z) (j : Z) : MS (Z + bool) :=
  if ge_s j nl then mret (inr true)
  else
    x <- array_get_u s (add32 at_ j);;
    y <- array_get_u n j;;
    if x =? y then mret (inl (add32 j 1)) else mret (inr false).
Definition strs_matchAt (s n : ref) (at_ : Z) : MS bool :=
  l <- array_len s;;
  nl <- array_len n;;
  if gt_s at_ l then mret false
  else if gt_s nl (sub32 l at_) then mret false
  else loop (S (Z.to_nat nl)) (match_step s n nl at_) 0.

(** ** Windows *)

Record Win := mkWin { B : ref; WOFF : Z; WLEN : Z }.

(** The shape of a value in a window; [none] for a node or null. *)
Definition shape_window (x : ref) (none : MS Win) : MS Win :=
  c <- test is_chars x;;
  if c then n <- array_len x;; mret (mkWin x 0 n)
  else
    v <- test is_slice x;;
    if v then '(n, b, off) <- slice_of x;; mret (mkWin b off n) else none.

Definition emitWindow (nullOk : bool) (x : ref) : MS Win :=
  shape_window x
    (b <- (if nullOk then flat true x else flatCast true x);;
     if nullOk && bool_decide (b = None) then mret (mkWin b 0 0) else n <- array_len b;; mret (mkWin b 0 n)).
(** A shadow's fill at a write: nodes and null leave it unfilled. *)
Definition emitWindowFill (x : ref) (w : Win) : MS Win := shape_window x (mret (mkWin None (WOFF w) (WLEN w))).

(** A receiver, as a value or as a window the caller holds. *)
Inductive form := V (x : ref) | W (w : Win).
Definition window (f : form) : MS Win := match f with V x => emitWindow false x | W w => as_non_null (B w);;; mret w end.

(** ** Spans *)

Definition SLICED_MIN_LENGTH : Z := 13.

Definition emitSpan (view : bool) (b : ref) (off cnt : Z) : MS ref :=
  if cnt =? 1 then u <- array_get_u b off;; unit_ u
  else
    n <- array_len b;;
    if (off =? 0) && (cnt =? n) then mret b
    else if view && ge_s cnt SLICED_MIN_LENGTH then as_non_null b;;; alloc (Slice cnt b off)
    else r <- array_new_default cnt;; array_copy r 0 b off cnt;;; mret r.
Definition span (b : ref) (off cnt : Z) : MS ref := emitSpan true b off cnt.
Definition flatSpan (b : ref) (off cnt : Z) : MS ref := emitSpan false b off cnt.
Definition copyInto (dest : ref) (pos : Z) (x : ref) : MS Z :=
  w <- emitWindow false x;; array_copy dest pos (B w) (WOFF w) (WLEN w);;; mret (WLEN w).

(** ** Readers *)

Definition outOfRange (x : num) (w : Win) : bool := num_lt x (Fin 0) || num_le (i2d (WLEN w)) x.

Definition charCodeAt (f : form) (x : num) : MS num :=
  w <- window f;;
  let x := emitToIntInf x in
  if outOfRange x w then mret NaN
  else i <- trunc_s x;; u <- array_get_u (B w) (add32 (WOFF w) i);; mret (num_of_Z u).

Definition charAt (f : form) (x : num) : MS ref :=
  w <- window f;;
  let x := emitToIntInf x in
  if outOfRange x w then array_new_default 0
  else i <- trunc_s x;; u <- array_get_u (B w) (add32 (WOFF w) i);; unit_ u.

Definition cpAt (f : form) (x : num) : MS ref :=
  w <- window f;;
  let x := emitToIntInf x in
  if outOfRange x w then array_new_default 0
  else
    i <- trunc_s x;;
    u <- array_get_u (B w) (add32 (WOFF w) i);;
    if ge_s u 0xd800 && ge_s 0xdbff u && gt_s (WLEN w) (add32 i 1) then
      u2 <- array_get_u (B w) (add32 (add32 (WOFF w) i) 1);;
      if ge_s u2 0xdc00 && ge_s 0xdfff u2 then alloc (Chars [u; u2]) else unit_ u
    else unit_ u.

Definition matchAt (f : form) (n : ref) (at_ : Z) : MS bool :=
  w <- window f;;
  nl <- array_len n;;
  if gt_s at_ (WLEN w) then mret false
  else if gt_s nl (sub32 (WLEN w) at_) then mret false
  else strs_matchAt (B w) n (add32 (WOFF w) at_).

Definition endsWith (f : form) (n : ref) : MS bool :=
  w <- window f;;
  nl <- array_len n;;
  if gt_s nl (WLEN w) then mret false
  else strs_matchAt (B w) n (sub32 (add32 (WOFF w) (WLEN w)) nl).

Definition index_step (w : Win) (n : ref) (nl : Z) (i : Z) : MS (Z + num) :=
  if ge_s (sub32 (WLEN w) nl) i then
    m <- strs_matchAt (B w) n (add32 (WOFF w) i);;
    if (m : bool) then mret (inr (i2d i)) else mret (inl (add32 i 1))
  else mret (inr (num_of_Z (-1))).
Definition indexOf (f : form) (n : ref) (x : num) : MS num :=
  w <- window f;;
  nl <- array_len n;;
  let x := emitToIntInf x in
  i <- (if num_le x (Fin 0) then mret 0 else if num_le (i2d (WLEN w)) x then mret (WLEN w) else trunc_s x);;
  if nl =? 0 then mret (i2d i)
  else loop (Z.to_nat (WLEN w) + 2) (index_step w n nl) i.

(** ** Producers *)

Inductive SliceOpKind := Kslice (x0 x1 : num) | Ksubstring (x0 x1 : num) | Ktrim (start end_ : bool).

Definition ws_at (w : Win) (i : Z) : MS bool := u <- array_get_u (B w) (add32 (WOFF w) i);; mret (isWs u).
Definition trim_start (w : Win) (to : Z) (from : Z) : MS (Z + Z) :=
  if gt_s to from then b <- ws_at w from;; (if b : bool then mret (inl (add32 from 1)) else mret (inr from)) else mret (inr from).
Definition trim_end (w : Win) (from : Z) (to : Z) : MS (Z + Z) :=
  if gt_s to from then b <- ws_at w (sub32 to 1);; (if b : bool then mret (inl (sub32 to 1)) else mret (inr to)) else mret (inr to).

Definition op_bounds (kind : SliceOpKind) (w : Win) : MS (Z * Z) :=
  match kind with
  | Kslice x0 x1 =>
      f <- emitSliceBoundary (emitToIntInf x0) (WLEN w);;
      t <- emitSliceBoundary (emitToIntInf x1) (WLEN w);;
      mret (f, if ge_s f t then f else t)
  | Ksubstring x0 x1 =>
      f <- emitAbsBoundary (emitToIntInf x0) (WLEN w);;
      t <- emitAbsBoundary (emitToIntInf x1) (WLEN w);;
      mret (if gt_s f t then (t, f) else (f, t))
  | Ktrim start end_ =>
      f <- (if start then loop (S (Z.to_nat (WLEN w))) (trim_start w (WLEN w)) 0 else mret 0);;
      t <- (if end_ then loop (S (Z.to_nat (WLEN w))) (trim_end w f) (WLEN w) else mret (WLEN w));;
      mret (f, t)
  end.
Definition op (kind : SliceOpKind) (asView : bool) (f : form) : MS ref :=
  w <- window f;;
  '(from, to) <- op_bounds kind w;;
  emitSpan asView (B w) (add32 (WOFF w) from) (sub32 to from).

(** A tokenizer's [src = src.slice(1)] three times, trimmed and read. *)
Definition text_of (s : store) (v : ref) : option (list Z) :=
  match look s v with
  | Some (Chars cs) => Some cs
  | Some (Slice n b off) => match look s b with Some (Chars cs) => Some (slice cs off n) | _ => None end
  | _ => None
  end.
Definition sample : MS (ref * ref * num) :=
  a <- alloc (Chars (map Z.of_nat (seq 32 30)));;
  v <- op (Kslice (num_of_Z 1) PInf) true (V a);; v <- op (Kslice (num_of_Z 1) PInf) true (V v);; v <- op (Kslice (num_of_Z (-20)) (num_of_Z (-1))) true (V v);;
  t <- op (Ktrim true true) false (V v);; n <- charCodeAt (V v) (num_of_Z 3);; mret (v, t, n).
Example sample_views : match sample empty_store with
  | (Val (v, t, n), s) => look s v = Some (Slice 19 (Some 0%nat) 10) ∧ text_of s t = Some (map Z.of_nat (seq 42 19)) ∧ n = num_of_Z 45
  | _ => False end.
Proof. vm_compute. split_and!; reflexivity. Qed.
