(* ===== verification/SlicesSound.v ===== *)
(** * Views: the texts the helpers compute

    The functions of Slices.v against the ECMAScript definitions on code
    units: boundaries and clamping of slice and substring, trimming,
    code units and code points at an index, and the searches.  A receiver may be any
    string value or a window held by the caller; nothing traps. *)

From S2P Require Import Prelude F64 Arrays Ropes RopesSound Slices.

#[local] Open Scope arr_scope.
Notation holdsV := (holds true).
Notation keepsV := (keeps true).

(** ** ECMAScript on code units *)

(** A position relative to a text of [n] units: NaN is 0, negatives count from
    the end when [rel], and the result is clamped. *)
Definition to_index (rel : bool) (x : num) (n : Z) : Z :=
  match x with
  | Fin k => let i := Z.quot k ONE in if i <? 0 then (if rel then Z.max 0 (n + i) else 0) else Z.min i n
  | PInf => n
  | _ => 0
  end.
Definition spec_slice (cs : list Z) (x0 x1 : num) : list Z :=
  let f := to_index true x0 (len cs) in slice cs f (Z.max f (to_index true x1 (len cs)) - f).
Definition spec_substring (cs : list Z) (x0 x1 : num) : list Z :=
  let a := to_index false x0 (len cs) in let b := to_index false x1 (len cs) in slice cs (Z.min a b) (Z.max a b - Z.min a b).

(** WhiteSpace and LineTerminator. *)
Definition white (u : Z) : bool := existsb (Z.eqb u) singles || ((0x2000 <=? u) && (u <=? 0x200a)).
Fixpoint drop_white (cs : list Z) : list Z := match cs with u :: cs' => if white u then drop_white cs' else cs | [] => [] end.
Definition spec_trim (start end_ : bool) (cs : list Z) : list Z :=
  let cs := if start then drop_white cs else cs in if end_ then rev (drop_white (rev cs)) else cs.
Definition spec_op (kind : SliceOpKind) (cs : list Z) : list Z :=
  match kind with Kslice x0 x1 => spec_slice cs x0 x1 | Ksubstring x0 x1 => spec_substring cs x0 x1 | Ktrim start end_ => spec_trim start end_ cs end.

(** The position a Number names, if it is one of the text. *)
Definition position (x : num) (n : Z) : option Z :=
  match x with
  | Fin k => let i := Z.quot k ONE in if (0 <=? i) && (i <? n) then Some i else None
  | NaN | NZero => if 0 <? n then Some 0 else None
  | _ => None
  end.
Definition unit_at (cs : list Z) (x : num) : option Z := i ← position x (len cs); aget cs i.
(** A surrogate pair, else one unit. *)
Definition point_at (cs : list Z) (x : num) : list Z :=
  match position x (len cs) with
  | None => []
  | Some i =>
      match aget cs i, aget cs (i + 1) with
      | Some u, Some u2 => if (0xd800 <=? u) && (u <=? 0xdbff) && (0xdc00 <=? u2) && (u2 <=? 0xdfff) then [u; u2] else [u]
      | Some u, None => [u]
      | None, _ => []
      end
  end.
Definition occurs (cs ns : list Z) (i : Z) : bool := bool_decide (0 <= i ∧ i + len ns <= len cs ∧ slice cs i (len ns) = ns).

Definition units (cs : list Z) : Prop := Forall (λ u, 0 <= u < 65536) cs.

(** ** Lengths *)

Lemma isWs_white u : 0 <= u < 65536 → isWs u = white u.
Proof. intros Hu. unfold isWs, white. by rewrite !ge_s_small by lia. Qed.
(** ** Boundaries *)

(** ToIntegerOrInfinity of a Number. *)
Lemma toIntInf_cases x :
  (x = PInf ∧ emitToIntInf x = PInf) ∨ (x = NInf ∧ emitToIntInf x = NInf) ∨
  (∃ i, (emitToIntInf x = NZero ∧ i = 0 ∨ emitToIntInf x = Fin (i * ONE)) ∧
    (∀ rel n, 0 <= n → to_index rel x n = if i <? 0 then (if rel then Z.max 0 (n + i) else 0) else Z.min i n) ∧
    (∀ n, position x n = if (0 <=? i) && (i <? n) then Some i else None)).
Proof.
  unfold emitToIntInf. destruct x as [| | | |k]; cbn -[ONE MAXK Z.mul Z.quot].
  - right; right. exists 0. split; [right; vm_compute; reflexivity|]. split; [intros; simpl; lia|done].
  - left. split; [done|]. by rewrite Z.eqb_refl.
  - right; left. split; [done|]. by rewrite Z.eqb_refl.
  - right; right. exists 0. split; [by left|]. split; [intros; simpl; lia|done].
  - right; right. exists (Z.quot k ONE). rewrite Z.eqb_refl. cbn -[ONE MAXK Z.mul Z.quot]. split; [|done]. unfold fin_signed.
    destruct (Z.eqb_spec (Z.quot k ONE * ONE) 0) as [E|E]; [|by right]. pose proof ONE_pos. assert (Z.quot k ONE = 0) as -> by nia.
    destruct (k <? 0); [by left|right; done].
Qed.

Lemma wp_trunc_s i (Q : Z → store → Prop) R s : 0 <= i < 2 ^ 31 → Q i s → wp (trunc_s (Fin (i * ONE))) Q R s.
Proof. intros Hi HQ. eapply wp_of_option; [apply trunc_s32_int; [by left|done]|done]. Qed.
Lemma wp_trunc_zero (Q : Z → store → Prop) R s : Q 0 s → wp (trunc_s NZero) Q R s.
Proof. done. Qed.

Lemma small_scaled n : 0 <= n < 2 ^ 31 → n * ONE < MAXK.
Proof. intros Hn. destruct (repr_int n ltac:(lia)) as [H _]. pose proof ONE_pos. nia. Qed.
Lemma scaled_lt_pinf n : 0 <= n < 2 ^ 31 → num_le (Fin (n * ONE)) PInf = true ∧ num_lt PInf (Fin 0) = false ∧ num_le PInf (Fin 0) = false.
Proof. intros Hn. pose proof (small_scaled n Hn). pose proof MAXK_pos. unfold num_le, num_lt. simpl. destruct (Z.leb_spec (n * ONE) MAXK), (Z.ltb_spec MAXK 0), (Z.leb_spec MAXK 0); lia || done. Qed.
Lemma ninf_neg : num_lt NInf (Fin 0) = true ∧ num_le NInf (Fin 0) = true.
Proof. pose proof MAXK_pos. unfold num_le, num_lt. simpl. destruct (Z.leb_spec (- MAXK) 0), (Z.ltb_spec (- MAXK) 0); lia || done. Qed.

(** [x + len] for a negative integer: exact where it counts. *)
Lemma add_len i n : i < 0 → 0 <= n < 2 ^ 31 →
  let t := num_add (Fin (i * ONE)) (Fin (n * ONE)) in if n + i <=? 0 then num_le t (Fin 0) = true else t = Fin ((n + i) * ONE).
Proof.
  intros Hi Hn t. pose proof ONE_pos. unfold t, num_add. cbn [key]. rewrite <- Z.mul_add_distr_r, (Z.add_comm i n). destruct (Z.leb_spec (n + i) 0).
  - unfold num_le. rewrite ratio_not_nan. cbn [is_nan negb andb]. apply Z.leb_le. pose proof (ratio_mono ((n + i) * ONE) 1 false 0 1 false ltac:(lia) ltac:(lia) ltac:(nia)) as M.
    etransitivity; [exact M|]. unfold num_of_ratio. cbn. by vm_compute.
  - apply ratio_int. lia.
Qed.

Lemma wp_sliceBoundary x n (Q : Z → store → Prop) R s : 0 <= n < 2 ^ 31 → Q (to_index true x n) s → wp (emitSliceBoundary (emitToIntInf x) n) Q R s.
Proof.
  intros Hn HQ. unfold emitSliceBoundary. rewrite !(i2d_small n) by done. destruct (toIntInf_cases x) as [[-> ->]|[[-> ->]|(i & Hi & Hx & _)]].
  - destruct (scaled_lt_pinf n Hn) as (H1 & H2 & _). by rewrite H1, H2.
  - destruct ninf_neg as [H1 H2]. rewrite H1. cbn [num_add]. by rewrite H2.
  - rewrite Hx in HQ by lia. assert (E : ∀ j, num_lt (emitToIntInf x) (Fin (j * ONE)) = (i <? j) ∧ num_le (Fin (j * ONE)) (emitToIntInf x) = (j <=? i)).
    { intros j. destruct Hi as [[-> ->]| ->]; [|by rewrite num_lt_scaled, num_le_scaled]. split; [apply (num_lt_scaled 0 j)|apply (num_le_scaled j 0)]. }
    change (Fin 0) with (Fin (0 * ONE)) at 1. destruct (E 0) as [-> _]. destruct (E n) as [_ ->]. destruct (Z.ltb_spec i 0).
    + destruct Hi as [[_ ->]| ->]; [lia|]. pose proof (add_len i n ltac:(lia) Hn) as A. cbv zeta in A. destruct (Z.leb_spec (n + i) 0).
      * rewrite A. rewrite Z.max_l in HQ by lia. done.
      * rewrite A. change (Fin 0) with (Fin (0 * ONE)). rewrite num_le_scaled. destruct (Z.leb_spec (n + i) 0); [lia|]. rewrite Z.max_r in HQ by lia. apply wp_trunc_s; [lia|done].
    + destruct (Z.leb_spec n i); [by rewrite Z.min_r in HQ by lia|]. rewrite Z.min_l in HQ by lia. destruct Hi as [[-> ->]| ->]; [by apply wp_trunc_zero|by apply wp_trunc_s; [lia|]].
Qed.

Lemma wp_absBoundary x n (Q : Z → store → Prop) R s : 0 <= n < 2 ^ 31 → Q (to_index false x n) s → wp (emitAbsBoundary (emitToIntInf x) n) Q R s.
Proof.
  intros Hn HQ. unfold emitAbsBoundary. rewrite !(i2d_small n) by done. destruct (toIntInf_cases x) as [[-> ->]|[[-> ->]|(i & Hi & Hx & _)]].
  - destruct (scaled_lt_pinf n Hn) as (H1 & _ & H2). by rewrite H1, H2.
  - destruct ninf_neg as [H1 H2]. by rewrite H2.
  - rewrite Hx in HQ by lia. assert (E : num_le (emitToIntInf x) (Fin 0) = (i <=? 0) ∧ num_le (Fin (n * ONE)) (emitToIntInf x) = (n <=? i)).
    { destruct Hi as [[-> ->]| ->]; [split; [done|apply (num_le_scaled n 0)]|]. split; [apply (num_le_scaled i 0)|apply num_le_scaled]. }
    destruct E as [-> ->]. destruct (Z.ltb_spec i 0), (Z.leb_spec i 0); try lia; [done|..].
    + by rewrite (Z.min_l i n), (ltac:(lia) : i = 0) in HQ by lia.
    + destruct (Z.leb_spec n i); [by rewrite Z.min_r in HQ by lia|]. rewrite Z.min_l in HQ by lia. destruct Hi as [[-> ->]| ->]; [lia|by apply wp_trunc_s; [lia|]].
Qed.

Lemma to_index_range rel x n : 0 <= n → 0 <= to_index rel x n <= n.
Proof. intros Hn. destruct x as [| | | |k]; simpl; try lia. destruct (_ <? 0) eqn:E; [destruct rel; zb; lia|zb; lia]. Qed.

(** ** Windows *)

(** A window over a flat array that shows [cs]. *)
Record windowed (s : store) (w : Win) (cs : list Z) (base : ref) (a b : list Z) : Prop := {
  win_base : B w = base;
  win_look : look s base = Some (Chars (a ++ cs ++ b));
  win_off : WOFF w = len a;
  win_len : WLEN w = len cs;
  win_max : len (a ++ cs ++ b) <= MAX_STRING_LENGTH
}.
Definition shows (s : store) (w : Win) (cs : list Z) : Prop := ∃ base a b, windowed s w cs base a b.

Lemma shows_keeps s s' w cs : keepsV s s' → shows s w cs → shows s' w cs.
Proof.
  intros K (base & a & b & [H1 H2 H3 H4 H5]). exists base, a, b. split; [done| |done..]. destruct base as [l|]; [|done]. by apply (keeps_chars _ _ _ K).
Qed.
Lemma shows_flat s v cs : look s v = Some (Chars cs) → len cs <= MAX_STRING_LENGTH → shows s (mkWin v 0 (len cs)) cs.
Proof. intros E Hm. exists v, [], []. split; [done|by rewrite app_nil_r|done..|by rewrite app_nil_r]. Qed.
Lemma shows_len s w cs : shows s w cs → 0 <= len cs <= MAX_STRING_LENGTH ∧ WLEN w = len cs.
Proof. intros (base & a & b & [_ _ _ -> H]). rewrite !length_app in H. split; [lia|done]. Qed.

(** A receiver: any value of the text, or a window that shows it. *)
Definition receives (s : store) (f : form) (cs : list Z) : Prop :=
  match f with V x => ∃ l, x = Some l ∧ holdsV (objs s) l cs ∧ len cs <= MAX_STRING_LENGTH ∧ wf_stack s | W w => shows s w cs end.

Definition quiet (s s' : store) : Prop := keepsV s s' ∧ cell s' = cell s.
#[global] Instance quiet_preorder : PreOrder quiet.
Proof. split; [by split|]. intros a b c [K1 E1] [K2 E2]. split; [by transitivity b|congruence]. Qed.

Lemma wp_shape_window s l cs none (Q : Win → store → Prop) R : holdsV (objs s) l cs → len cs <= MAX_STRING_LENGTH →
  (∀ w, shows s w cs → Q w s) → (∀ n a b, look s (Some l) = Some (Rope n a b) → wp none Q R s) → wp (shape_window (Some l) none) Q R s.
Proof.
  intros H Hm HQ Hnone. unfold shape_window. apply wp_bind, wp_test. destruct (holds_look _ _ _ _ H) as (o & E & Ho). rewrite E. destruct o as [ds|n a b|n b off]; cbn [is_chars].
  - simpl in Ho. subst ds. apply wp_bind. eapply wp_array_len; [exact E|]. by apply HQ, shows_flat.
  - apply wp_bind, wp_test. rewrite E. by eapply Hnone.
  - apply wp_bind, wp_test. rewrite E. cbn [is_slice]. apply wp_bind. eapply wp_slice_of; [exact E|]. apply HQ.
    inversion H as [? ? E'|? ? d ? ds Hv E' Eb Hn Hof Hb Hmx|? ? ? ? E'|? ? ? ? ? ? E']; subst; unfold look in E; simpl in E; simplify_eq.
    destruct (slice_split ds off n) as (x & y & Hs & Hx & Hl); [done..|]. exists (Some d), x, y. split; [done|by rewrite <- Hs|done|done|by rewrite <- Hs].
Qed.

Lemma wp_window s f cs (Q : Win → store → Prop) R : receives s f cs → (∀ w s', quiet s s' → shows s' w cs → Q w s') → wp (window f) Q R s.
Proof.
  intros H HQ. destruct f as [x|w]; cbn [window].
  - destruct H as (l & -> & H & Hm & Hst). eapply wp_shape_window; [exact H|exact Hm|intros w; by apply HQ|]. intros n a b E. cbn [andb].
    apply wp_bind. eapply wp_mono; [apply (wp_flatCast true s l cs R); [done|done|unfold MAX_STRING_LENGTH in *; lia]| |done]. intros r s' (K & Ec & F).
    apply wp_bind. eapply wp_array_len; [exact F|]. apply HQ; [by split|by apply shows_flat].
  - apply wp_bind. destruct H as (base & a & b & Hw). destruct (win_base _ _ _ _ _ _ Hw). pose proof (win_look _ _ _ _ _ _ Hw) as E. destruct (B w) as [l|] eqn:Eb; [|done].
    apply HQ; [done|]. by exists (Some l), a, b.
Qed.

(** ** The shared one-unit strings *)

Definition page_ok (os : list obj) (i : nat) (page : list ref) : Prop :=
  length page = 256%nat ∧ ∀ j l, page !! j = Some (Some l) → os !! l = Some (Chars [256 * Z.of_nat i + Z.of_nat j]).
Lemma slots_insert os dir i page : unit_slots os dir → page_ok os i page → unit_slots os (<[i := Some page]> dir).
Proof.
  intros Hd Hp j page' E. destruct (decide (i = j)) as [<-|]; [|rewrite list_lookup_insert_ne in E by done; by apply Hd].
  apply list_lookup_insert_Some in E as [(_ & [= <-] & _)|(? & _)]; [exact Hp|done].
Qed.
Lemma slots_empty os n : unit_slots os (replicate n None).
Proof. intros i page [E _]%lookup_replicate. done. Qed.
Lemma page_empty os i : page_ok os i (replicate 256 None).
Proof. split; [done|]. intros j l [E _]%lookup_replicate. done. Qed.
Lemma page_insert os i page j l : page_ok os i page → os !! l = Some (Chars [256 * Z.of_nat i + Z.of_nat j]) → page_ok os i (<[j := Some l]> page).
Proof.
  intros [Hl Hp] E. split; [by rewrite length_insert|]. intros k l' H. destruct (decide (j = k)) as [<-|]; [|rewrite list_lookup_insert_ne in H by done; by apply Hp].
  apply list_lookup_insert_Some in H as [(_ & [= <-] & _)|(? & _)]; [exact E|done].
Qed.

(** A directory of a store with the same or more objects. *)
Lemma quiet_dir s os dir : length dir = 256%nat → unit_slots (objs s ++ os) dir → quiet s (mkStore (objs s ++ os) (gNodes s) (gOffs s) (Some dir) (cell s)).
Proof.
  intros Hl Hd. split; [|done]. split; [|intros l cs; apply holds_app|intros _; by split|done]. intros l cs. apply lookup_app_l_Some.
Qed.

Lemma wp_unit s u R : units_ok s → 0 <= u < 65536 → wp (unit_ u) (λ v s', quiet s s' ∧ look s' v = Some (Chars [u])) R s.
Proof.
  intros Hok Hu. set (hi := Z.to_nat (u / 256)). set (lo := Z.to_nat (u mod 256)).
  assert (Ehi : Z.shiftr u 8 = Z.of_nat hi) by (rewrite Z.shiftr_div_pow2 by lia; unfold hi; change (2 ^ 8) with 256; pose proof (Z.div_pos u 256); lia).
  assert (Elo : Z.land u 0xff = Z.of_nat lo) by (change 0xff with (Z.ones 8); rewrite Z.land_ones by lia; unfold lo; change (2 ^ 8) with 256; pose proof (Z.mod_pos_bound u 256); lia).
  assert (Hlt : (hi < 256 ∧ lo < 256)%nat) by (unfold hi, lo; pose proof (Z.mod_pos_bound u 256); pose proof (Z.div_lt_upper_bound u 256 256); lia).
  assert (Eu : u = 256 * Z.of_nat hi + Z.of_nat lo) by (unfold hi, lo; pose proof (Z.div_mod u 256); pose proof (Z.mod_pos_bound u 256); pose proof (Z.div_pos u 256); lia). clearbody hi lo.
  unfold unit_. rewrite Ehi, Elo. apply wp_bind. change (wp unit_dir ?Q ?R s) with (Q (match gDir s with Some dir => dir | None => replicate 256 None end) s).
  set (dir := match gDir s with Some dir => dir | None => replicate 256 None end).
  assert (Hd : length dir = 256%nat ∧ unit_slots (objs s) dir) by (unfold dir, units_ok in *; destruct (gDir s); [done|split; [done|apply slots_empty]]). clearbody dir. destruct Hd as [Hl Hd].
  apply wp_bind. change (wp (set_dir dir) ?Q ?R s) with (Q tt (mkStore (objs s) (gNodes s) (gOffs s) (Some dir) (cell s))). cbv beta. set (s1 := mkStore _ _ _ _ _).
  destruct (lookup_lt_is_Some_2 dir hi ltac:(lia)) as [p Ep]. apply wp_bind. eapply wp_of_option; [by rewrite aget_nat|].
  set (page := match p with Some page => page | None => replicate 256 None end).
  assert (Hp : page_ok (objs s) hi page) by (unfold page; destruct p; [by apply Hd|apply page_empty]). clearbody page.
  apply wp_bind. eapply wp_of_option; [apply aset_nat; lia|]. pose proof (slots_insert _ _ _ _ Hd Hp) as Hd1. set (dir1 := <[hi := Some page]> dir) in *.
  assert (Hl1 : length dir1 = 256%nat) by by unfold dir1; rewrite length_insert. clearbody dir1.
  apply wp_bind. change (wp (set_dir dir1) ?Q ?R s1) with (Q tt (mkStore (objs s) (gNodes s) (gOffs s) (Some dir1) (cell s))). cbv beta. set (s2 := mkStore _ _ _ _ _).
  destruct (lookup_lt_is_Some_2 page lo ltac:(destruct Hp; lia)) as [r Er]. apply wp_bind. eapply wp_of_option; [by rewrite aget_nat|]. destruct r as [l|].
  - split; [|rewrite Eu; by apply Hp]. pose proof (quiet_dir s [] dir1 Hl1) as Q1. rewrite app_nil_r in Q1. by apply Q1.
  - apply wp_bind, wp_alloc. fold (fresh s2). apply wp_bind. eapply wp_of_option; [apply aset_nat; destruct Hp; lia|].
    apply wp_bind. eapply wp_of_option; [apply aset_nat; lia|]. apply wp_bind.
    match goal with |- wp (set_dir ?d) ?Q ?R ?x => change (Q tt (mkStore (objs s ++ [Chars [u]]) (gNodes s) (gOffs s) (Some d) (cell s))) end. cbv beta.
    assert (Hf : (objs s ++ [Chars [u]]) !! fresh s2 = Some (Chars [256 * Z.of_nat hi + Z.of_nat lo])) by (rewrite <- Eu; apply (look_fresh (Chars [u]) s)).
    pose proof Hf as Hf'. rewrite <- Eu in Hf'. split; [|exact Hf']. apply quiet_dir; [by rewrite length_insert|]. apply slots_insert; [|apply page_insert; [|exact Hf]].
    + intros i q E. destruct (Hd1 _ _ E) as [? Hq]. split; [done|]. intros j l E'. by apply lookup_app_l_Some, Hq.
    + destruct Hp as [? Hq]. split; [done|]. intros j l E'. by apply lookup_app_l_Some, Hq.
Qed.

(** ** Reads through a window *)

Lemma aget_middle (a cs b : list Z) i : 0 <= i < len cs → aget (a ++ cs ++ b) (len a + i) = aget cs i.
Proof.
  intros Hi. unfold aget. destruct (Z.ltb_spec (len a + i) 0), (Z.ltb_spec i 0); try lia. rewrite lookup_app_r by lia. rewrite lookup_app_l by lia. f_equal. lia.
Qed.
Lemma aget_units cs i u : units cs → aget cs i = Some u → 0 <= u < 65536.
Proof. unfold units, aget. intros H. destruct (i <? 0); [done|]. intros E. by apply (Forall_lookup_1 _ _ _ _ H E). Qed.
Lemma aget_is_Some (cs : list Z) i : 0 <= i < len cs → ∃ u, aget cs i = Some u.
Proof. intros Hi. destruct (aget_Some cs i Hi) as (p & u & q & _ & _ & E). eauto. Qed.

Lemma wp_win_get s w cs i u (Q : Z → store → Prop) R : shows s w cs → 0 <= i < len cs → aget cs i = Some u → Q u s → wp (array_get_u (B w) (add32 (WOFF w) i)) Q R s.
Proof.
  intros (base & a & b & [-> E -> _ Hm]) Hi Eu HQ. rewrite !length_app in Hm. apply wp_bind. eapply wp_chars; [exact E|].
  eapply wp_of_option; [|exact HQ]. rewrite add32_id by (unfold MAX_STRING_LENGTH in *; lia). by rewrite aget_middle.
Qed.

(** A position in range is the index it truncates to. *)
Lemma wp_position s x w n R : 0 <= n < 2 ^ 31 → WLEN w = n →
  match position x n with
  | None => outOfRange (emitToIntInf x) w = true
  | Some i => 0 <= i < n ∧ outOfRange (emitToIntInf x) w = false ∧ ∀ (Q : Z → store → Prop), Q i s → wp (trunc_s (emitToIntInf x)) Q R s
  end.
Proof.
  intros Hn Hw. unfold outOfRange. rewrite Hw, (i2d_small n) by done. destruct (toIntInf_cases x) as [[-> ->]|[[-> ->]|(i & Hi & _ & Hx)]]; cbn [position].
  - destruct (scaled_lt_pinf n Hn) as (H1 & _ & _). by rewrite H1, orb_true_r.
  - destruct ninf_neg as [H1 H2]. by rewrite H1.
  - rewrite Hx. assert (E : num_lt (emitToIntInf x) (Fin 0) = (i <? 0) ∧ num_le (Fin (n * ONE)) (emitToIntInf x) = (n <=? i)).
    { destruct Hi as [[-> ->]| ->]; [split; [done|apply (num_le_scaled n 0)]|]. split; [apply (num_lt_scaled i 0)|apply num_le_scaled]. }
    destruct E as [-> ->]. destruct (Z.leb_spec 0 i), (Z.ltb_spec i n), (Z.ltb_spec i 0), (Z.leb_spec n i); try lia; try done. split; [lia|]. split; [done|].
    intros Q HQ. destruct Hi as [[-> ->]| ->]; [done|by apply wp_trunc_s; [lia|]].
Qed.

Lemma wp_charCodeAt s f cs x R : receives s f cs → wp (charCodeAt f x) (λ r s', r = match unit_at cs x with Some u => num_of_Z u | None => NaN end ∧ quiet s s') R s.
Proof.
  intros H. unfold charCodeAt. apply wp_bind. eapply wp_window; [exact H|]. intros w s' Hq Hw. destruct (shows_len _ _ _ Hw) as [Hm Hl].
  pose proof (wp_position s' x w (len cs) R ltac:(unfold MAX_STRING_LENGTH in *; lia) Hl) as P. unfold unit_at. destruct (position x (len cs)) as [i|]; [|by rewrite P].
  destruct P as (Hi & -> & P). apply wp_bind, P. destruct (aget_is_Some cs i Hi) as [u E]. cbn. rewrite E. apply wp_bind. by eapply wp_win_get.
Qed.

Lemma wp_charAt s f cs x R : receives s f cs → units cs → units_ok s →
  wp (charAt f x) (λ r s', look s' r = Some (Chars (match unit_at cs x with Some u => [u] | None => [] end)) ∧ quiet s s') R s.
Proof.
  intros H Hu Hok. unfold charAt. apply wp_bind. eapply wp_window; [exact H|]. intros w s' Hq Hw. destruct (shows_len _ _ _ Hw) as [Hm Hl].
  pose proof (wp_position s' x w (len cs) R ltac:(unfold MAX_STRING_LENGTH in *; lia) Hl) as P. unfold unit_at. destruct (position x (len cs)) as [i|].
  - destruct P as (Hi & -> & P). apply wp_bind, P. destruct (aget_is_Some cs i Hi) as [u E]. cbn. rewrite E. apply wp_bind. eapply wp_win_get; [done..|].
    eapply wp_mono; [apply wp_unit; [by apply Hq|by eapply aget_units]| |done]. intros r s2 [Hq2 F]. split; [exact F|by transitivity s'].
  - rewrite P. apply wp_alloc. split; [apply (look_fresh (Chars [])) |]. transitivity s'; [exact Hq|]. split; [apply keeps_alloc|done].
Qed.

Lemma wp_unit_text s s' u R : quiet s s' → units_ok s → 0 <= u < 65536 → wp (unit_ u) (λ r s2, look s2 r = Some (Chars [u]) ∧ quiet s s2) R s'.
Proof.
  intros Hq Hok Hu. eapply wp_mono; [apply wp_unit; [by apply Hq|done]| |done]. intros r s2 [Hq2 F]. split; [exact F|by transitivity s'].
Qed.
Lemma alloc_text s s' cs : quiet s s' → look (extend (Chars cs) s') (Some (fresh s')) = Some (Chars cs) ∧ quiet s (extend (Chars cs) s').
Proof. intros Hq. split; [apply look_fresh|]. transitivity s'; [exact Hq|]. split; [apply keeps_alloc|done]. Qed.

Lemma wp_cpAt s f cs x R : receives s f cs → units cs → units_ok s → wp (cpAt f x) (λ r s', look s' r = Some (Chars (point_at cs x)) ∧ quiet s s') R s.
Proof.
  intros H Hu Hok. unfold cpAt. apply wp_bind. eapply wp_window; [exact H|]. intros w s' Hq Hw. destruct (shows_len _ _ _ Hw) as [Hm Hl]. unfold MAX_STRING_LENGTH in Hm.
  pose proof (wp_position s' x w (len cs) R ltac:(lia) Hl) as P. unfold point_at. destruct (position x (len cs)) as [i|]; [|rewrite P; by apply wp_alloc, alloc_text].
  destruct P as (Hi & -> & P). apply wp_bind, P. destruct (aget_is_Some cs i Hi) as [u E]. rewrite E. apply wp_bind. eapply wp_win_get; [done..|].
  pose proof (aget_units _ _ _ Hu E) as Hur. rewrite Hl, add32_id, !ge_s_small, gt_s_small by lia.
  assert (Ha : add32 (add32 (WOFF w) i) 1 = add32 (WOFF w) (i + 1)).
  { destruct Hw as (base & a & b & [_ _ -> _ Hmx]). rewrite !length_app in Hmx. unfold MAX_STRING_LENGTH in Hmx. rewrite !add32_id by (rewrite ?add32_id by lia; lia). rewrite ?add32_id by lia. lia. }
  rewrite Ha. destruct (Z.ltb_spec (i + 1) (len cs)) as [Hi1|Hi1].
  - destruct (aget_is_Some cs (i + 1) ltac:(lia)) as [u2 E2]. rewrite E2. pose proof (aget_units _ _ _ Hu E2) as Hur2. rewrite andb_true_r. destruct (_ && _); cbn [andb].
    + apply wp_bind. eapply wp_win_get; [done|lia|exact E2|]. rewrite !ge_s_small by lia. destruct (_ && _); [by apply wp_alloc, alloc_text|by apply wp_unit_text].
    + by apply wp_unit_text.
  - rewrite andb_false_r. replace (aget cs (i + 1)) with (@None Z); [by apply wp_unit_text|]. unfold aget. destruct (_ <? _); [done|]. symmetry. apply lookup_ge_None. lia.
Qed.

(** ** Occurrences *)

Lemma aget_drop (cs : list Z) i j : 0 <= i → 0 <= j → aget cs (i + j) = aget (drop (Z.to_nat i) cs) j.
Proof. intros Hi Hj. unfold aget. destruct (Z.ltb_spec (i + j) 0), (Z.ltb_spec j 0); try lia. rewrite lookup_drop. f_equal. lia. Qed.
Lemma take_snoc (cs : list Z) (j : nat) u : cs !! j = Some u → take (S j) cs = take j cs ++ [u].
Proof. intros E. by apply take_S_r. Qed.

Lemma wp_strs_matchAt s b n bs ns i R : look s b = Some (Chars bs) → look s n = Some (Chars ns) → len bs < 2 ^ 31 → len ns < 2 ^ 31 → 0 <= i < 2 ^ 31 →
  wp (strs_matchAt b n i) (λ r s', r = occurs bs ns i ∧ s' = s) R s.
Proof.
  intros Eb En Hb Hn Hi. unfold strs_matchAt. apply wp_bind. eapply wp_array_len; [exact Eb|]. apply wp_bind. eapply wp_array_len; [exact En|].
  rewrite gt_s_small by lia. unfold occurs. destruct (Z.ltb_spec (len bs) i); [by rewrite bool_decide_false by lia|].
  rewrite sub32_id, gt_s_small by lia. destruct (Z.ltb_spec (len bs - i) (len ns)); [by rewrite bool_decide_false by lia|].
  set (ds := drop (Z.to_nat i) bs). assert (Hds : len ns <= len ds) by (unfold ds; rewrite length_drop; lia).
  assert (Hsl : slice bs i (len ns) = take (length ns) ds) by (unfold slice; by rewrite Nat2Z.id). rewrite Hsl.
  eapply (wp_loop (λ j s', s' = s ∧ 0 <= j <= len ns ∧ take (Z.to_nat j) ds = take (Z.to_nat j) ns) (λ j, len ns - j)); [split; [done|split; [lia|done]]|lia|].
  intros j s' (-> & Hj & Ht) _. unfold match_step. rewrite ge_s_small by lia. destruct (Z.leb_spec (len ns) j).
  - assert (j = len ns) as -> by lia. rewrite Nat2Z.id, (take_ge ns) in Ht by lia. split; [|done]. by rewrite bool_decide_true by (split_and!; [lia|lia|done]).
  - apply wp_bind. apply wp_bind. eapply wp_chars; [exact Eb|]. destruct (aget_is_Some ds j ltac:(lia)) as [x Ex].
    eapply wp_of_option; [rewrite add32_id by lia; rewrite aget_drop by lia; exact Ex|]. apply wp_bind. apply wp_bind. eapply wp_chars; [exact En|].
    destruct (aget_is_Some ns j ltac:(lia)) as [y Ey]. eapply wp_of_option; [exact Ey|].
    unfold aget in Ex, Ey. destruct (Z.ltb_spec j 0); [lia|]. destruct (Z.eqb_spec x y) as [->|Hne].
    + rewrite add32_id by lia. split; [|lia]. split; [done|]. split; [lia|]. replace (Z.to_nat (j + 1)) with (S (Z.to_nat j)) by lia. by rewrite !(take_snoc _ _ y), Ht.
    + split; [|done]. rewrite bool_decide_false; [done|]. intros (_ & _ & Hall). apply Hne.
      assert (ns !! Z.to_nat j = Some x) by (rewrite <- Hall, lookup_take_lt by lia; done). congruence.
Qed.

Lemma slice_middle_off (a cs b : list Z) i n : 0 <= i → 0 <= n → i + n <= len cs → slice (a ++ cs ++ b) (len a + i) n = slice cs i n.
Proof.
  intros Hi Hn Hb. unfold slice. replace (Z.to_nat (len a + i)) with (length a + Z.to_nat i)%nat by lia. rewrite drop_app_add.
  rewrite drop_app_le by lia. rewrite take_app_le; [done|]. rewrite length_drop. lia.
Qed.

Lemma wp_win_match s w cs n ns i R : shows s w cs → look s n = Some (Chars ns) → 0 <= i → i + len ns <= len cs →
  wp (strs_matchAt (B w) n (add32 (WOFF w) i)) (λ r s', r = occurs cs ns i ∧ s' = s) R s.
Proof.
  intros (base & a & b & [-> E -> _ Hm]) En Hi Hb. rewrite !length_app in Hm. unfold MAX_STRING_LENGTH in Hm. rewrite add32_id by lia.
  eapply wp_mono; [eapply wp_strs_matchAt; [exact E|exact En|rewrite !length_app; lia|lia|lia]| |done]. intros r s' [-> ->]. split; [|done].
  unfold occurs. rewrite slice_middle_off by lia. apply bool_decide_ext. rewrite !length_app. intuition lia.
Qed.

(** A needle is a flat array of the store. *)
Definition needle (s : store) (n : ref) (ns : list Z) : Prop := look s n = Some (Chars ns) ∧ len ns <= MAX_STRING_LENGTH.
Lemma needle_quiet s s' n ns : quiet s s' → needle s n ns → needle s' n ns.
Proof. intros [K _] [E H]. split; [|done]. destruct n as [l|]; [|done]. by apply (keeps_chars _ _ _ K). Qed.

Lemma occurs_short cs ns i : len cs < i + len ns → occurs cs ns i = false.
Proof. intros H. apply bool_decide_false. lia. Qed.
Lemma occurs_neg cs ns i : i < 0 → occurs cs ns i = false.
Proof. intros H. apply bool_decide_false. lia. Qed.

Lemma wp_matchAt s f cs n ns i R : receives s f cs → needle s n ns → 0 <= i < 2 ^ 31 → wp (matchAt f n i) (λ r s', r = occurs cs ns i ∧ quiet s s') R s.
Proof.
  intros H Hn Hi. unfold matchAt. apply wp_bind. eapply wp_window; [exact H|]. intros w s' Hq Hw. destruct (needle_quiet _ _ _ _ Hq Hn) as [En Hnl].
  destruct (shows_len _ _ _ Hw) as [Hm Hl]. unfold MAX_STRING_LENGTH in *. apply wp_bind. eapply wp_array_len; [exact En|].
  rewrite Hl, gt_s_small by lia. destruct (Z.ltb_spec (len cs) i); [by rewrite occurs_short by lia|]. rewrite sub32_id, gt_s_small by lia.
  destruct (Z.ltb_spec (len cs - i) (len ns)); [by rewrite occurs_short by lia|]. eapply wp_mono; [eapply wp_win_match; [exact Hw|exact En|lia|lia]| |done]. by intros r s2 [-> ->].
Qed.

Lemma wp_endsWith s f cs n ns R : receives s f cs → needle s n ns → wp (endsWith f n) (λ r s', r = occurs cs ns (len cs - len ns) ∧ quiet s s') R s.
Proof.
  intros H Hn. unfold endsWith. apply wp_bind. eapply wp_window; [exact H|]. intros w s' Hq Hw. destruct (needle_quiet _ _ _ _ Hq Hn) as [En Hnl].
  destruct (shows_len _ _ _ Hw) as [Hm Hl]. unfold MAX_STRING_LENGTH in *. apply wp_bind. eapply wp_array_len; [exact En|].
  rewrite Hl, gt_s_small by lia. destruct (Z.ltb_spec (len cs) (len ns)); [by rewrite occurs_neg by lia|].
  assert (sub32 (add32 (WOFF w) (len cs)) (len ns) = add32 (WOFF w) (len cs - len ns)) as ->.
  { destruct Hw as (base & a & b & [_ _ -> _ Hmx]). rewrite !length_app in Hmx. unfold MAX_STRING_LENGTH in Hmx. rewrite !add32_id, sub32_id by lia. lia. }
  eapply wp_mono; [eapply wp_win_match; [exact Hw|exact En|lia|lia]| |done]. by intros r s2 [-> ->].
Qed.

(** The first occurrence from a position on, or -1. *)
Definition first_from (cs ns : list Z) (i : Z) (r : num) : Prop :=
  (∃ j, r = num_of_Z j ∧ i <= j ∧ occurs cs ns j = true ∧ ∀ k, i <= k < j → occurs cs ns k = false) ∨
  (r = num_of_Z (-1) ∧ ∀ k, i <= k → occurs cs ns k = false).

Lemma to_int32_uint32 z : to_int32 (to_uint32 z) = to_int32 z.
Proof. unfold to_int32, to_uint32. by rewrite Z.add_mod_idemp_l by lia. Qed.

Lemma wp_index_loop s w cs n ns i R : shows s w cs → needle s n ns → ns ≠ [] → 0 <= i <= len cs →
  wp (loop (Z.to_nat (WLEN w) + 2) (index_step w n (len ns)) i) (λ r s', first_from cs ns i r ∧ s' = s) R s.
Proof.
  intros Hw [En Hnl] Hne Hi. destruct (shows_len _ _ _ Hw) as [Hm Hl]. unfold MAX_STRING_LENGTH in *. rewrite Hl.
  assert (0 < len ns) by (destruct ns; simpl; lia || done).
  eapply (wp_loop (λ j s', s' = s ∧ i <= j <= len cs ∧ ∀ k, i <= k < j → occurs cs ns k = false) (λ j, len cs + 1 - j)); [split; [done|split; [lia|intros; lia]]|lia|].
  intros j s' (-> & Hj & Hbefore) _. unfold index_step. unfold ge_s. unfold sub32. rewrite to_int32_uint32, Hl, !to_int32_id by lia.
  destruct (Z.leb_spec j (len cs - len ns)).
  - apply wp_bind. eapply wp_mono; [eapply wp_win_match; [exact Hw|exact En|lia|lia]| |done]. intros r s2 [-> ->]. destruct (occurs cs ns j) eqn:Eo.
    + split; [|reflexivity]. left. exists j. split_and!; [|lia|exact Eo|exact Hbefore]. unfold i2d. rewrite to_int32_id by lia. reflexivity.
    + rewrite add32_id by lia. split; [|lia]. split; [done|]. split; [lia|]. intros k Hk. destruct (decide (k = j)) as [->|]; [done|]. apply Hbefore. lia.
  - split; [|reflexivity]. right. split; [reflexivity|]. intros k Hk. destruct (Z.lt_ge_cases k j); [apply Hbefore; lia|]. apply occurs_short. lia.
Qed.

Lemma wp_indexOf s f cs n ns x R : receives s f cs → needle s n ns → wp (indexOf f n x) (λ r s', first_from cs ns (to_index false x (len cs)) r ∧ quiet s s') R s.
Proof.
  intros H Hn. unfold indexOf. apply wp_bind. eapply wp_window; [exact H|]. intros w s' Hq Hw. pose proof (needle_quiet _ _ _ _ Hq Hn) as Hn'. destruct Hn' as [En Hnl].
  destruct (shows_len _ _ _ Hw) as [Hm Hl]. unfold MAX_STRING_LENGTH in *. apply wp_bind. eapply wp_array_len; [exact En|].
  apply wp_bind. change (if num_le (emitToIntInf x) (Fin 0) then _ else _) with (emitAbsBoundary (emitToIntInf x) (WLEN w) : MS Z).
  apply wp_absBoundary; [lia|]. assert (to_index false x (WLEN w) = to_index false x (len cs)) as -> by by rewrite Hl. pose proof (to_index_range false x (len cs) ltac:(lia)) as Hr. destruct (Z.eqb_spec (len ns) 0) as [E0|E0].
  - split; [|done]. left. eexists. split_and!; [unfold i2d; rewrite to_int32_id by lia; reflexivity|lia| |intros; lia]. destruct ns; [|done].
    unfold occurs. apply bool_decide_true. split_and!; [lia|simpl; lia|done].
  - eapply wp_mono; [apply (wp_index_loop s' w cs n ns); [done|by split|by destruct ns|done]| |done]. by intros r s2 [? ->].
Qed.

(** ** Spans *)

(** A value of the text, flat unless a view was allowed. *)
Definition spans (view : bool) (s : store) (cs : list Z) (v : ref) (s' : store) : Prop :=
  quiet s s' ∧ (∃ l, v = Some l ∧ holdsV (objs s') l cs) ∧ (view = false → look s' v = Some (Chars cs)).
Lemma spans_flat view s s' cs v : quiet s s' → look s' v = Some (Chars cs) → spans view s cs v s'.
Proof. intros Hq E. split; [done|]. split; [|done]. destruct v as [l|]; [|done]. exists l. split; [done|by apply holds_chars]. Qed.

Lemma slice_one (cs : list Z) i u : 0 <= i → aget cs i = Some u → slice cs i 1 = [u].
Proof.
  intros Hi E. unfold aget in E. destruct (Z.ltb_spec i 0); [lia|]. unfold slice. apply drop_S in E. rewrite E. done.
Qed.

Lemma wp_emitSpan view s w cs from to R : shows s w cs → units cs → units_ok s → 0 <= from → from <= to → to <= len cs →
  wp (emitSpan view (B w) (add32 (WOFF w) from) (to - from)) (spans view s (slice cs from (to - from))) R s.
Proof.
  intros Hw Hu Hok Hf Hft Ht. unfold emitSpan. destruct (Z.eqb_spec (to - from) 1) as [E1|E1].
  { destruct (aget_is_Some cs from ltac:(lia)) as [u E]. apply wp_bind. eapply wp_win_get; [exact Hw|lia|exact E|]. rewrite E1, (slice_one _ _ u) by done.
    eapply wp_mono; [by apply (wp_unit_text s s), (aget_units cs from)| |done]. intros r s' [F Hq]. by apply spans_flat. }
  destruct Hw as (base & a & b & [-> E -> _ Hm]). rewrite !length_app in Hm. unfold MAX_STRING_LENGTH in Hm. rewrite add32_id by lia.
  apply wp_bind. eapply wp_array_len; [exact E|]. destruct ((len a + from =? 0) && _) eqn:Ew.
  { zb. rewrite !length_app in H0. destruct a; [|simpl in *; lia]. destruct b; [|simpl in *; lia]. assert (from = 0) as -> by (simpl in *; lia). assert (to = len cs) as -> by (simpl in *; lia).
    rewrite Z.sub_0_r, slice_whole. rewrite app_nil_r in E. by apply spans_flat. }
  destruct base as [bl|]; [|done]. destruct (slice_split cs from (to - from)) as (x & y & Hs & Hx & Hl); [lia..|].
  assert (Eb : look s (Some bl) = Some (Chars ((a ++ x) ++ slice cs from (to - from) ++ (y ++ b)))) by (rewrite E; do 2 f_equal; rewrite Hs at 1; by rewrite <- !app_assoc).
  destruct (view && _) eqn:Ev.
  - apply wp_bind. apply wp_alloc. fold (fresh s). split; [split; [apply keeps_alloc|done]|]. split; [|by destruct view]. exists (fresh s). split; [done|].
    rewrite <- (slice_middle_off a cs b) by lia. eapply holds_slice; [done|apply (look_fresh (Slice _ _ _) s)|apply (look_push _ _ (Some bl)), E|lia|lia|rewrite !length_app; lia|rewrite !length_app; unfold MAX_STRING_LENGTH; lia].
  - apply wp_bind, wp_alloc. fold (fresh s). apply wp_bind. change (set_objs _ s) with (extend (Chars (replicate (Z.to_nat (to - from)) 0)) s).
    rewrite <- (app_nil_r (replicate _ _)), <- (app_nil_l (replicate _ _ ++ _)).
    eapply (wp_fill s [] _ _ (a ++ x) (slice cs from (to - from)) (y ++ b)); [exact Eb|done|rewrite length_app; lia|exact Hl|rewrite length_replicate; lia|].
    apply spans_flat; [split; [apply keeps_alloc|done]|]. rewrite app_nil_l, app_nil_r. apply look_fresh.
Qed.

(** ** Trimming *)

Lemma wp_ws_at s w cs i u (Q : bool → store → Prop) R : shows s w cs → units cs → 0 <= i < len cs → aget cs i = Some u → Q (white u) s → wp (ws_at w i) Q R s.
Proof. intros Hw Hu Hi E HQ. apply wp_bind. eapply wp_win_get; [done..|]. rewrite isWs_white; [done|]. by eapply aget_units. Qed.

Lemma wp_trim_start s w cs R : shows s w cs → units cs →
  wp (loop (S (Z.to_nat (WLEN w))) (trim_start w (WLEN w)) 0) (λ f s', s' = s ∧ 0 <= f <= len cs ∧ drop (Z.to_nat f) cs = drop_white cs) R s.
Proof.
  intros Hw Hu. destruct (shows_len _ _ _ Hw) as [Hm Hl]. unfold MAX_STRING_LENGTH in Hm. rewrite Hl.
  eapply (wp_loop (λ f s', s' = s ∧ 0 <= f <= len cs ∧ drop_white (drop (Z.to_nat f) cs) = drop_white cs) (λ f, len cs - f)); [split; [done|split; [lia|done]]|lia|].
  intros f s' (-> & Hf & Hd) _. unfold trim_start. rewrite gt_s_small by lia. destruct (Z.ltb_spec f (len cs)).
  - destruct (aget_is_Some cs f ltac:(lia)) as [u E]. apply wp_bind. eapply wp_ws_at; [exact Hw|exact Hu|lia|exact E|].
    unfold aget in E. destruct (Z.ltb_spec f 0); [lia|]. rewrite (drop_S _ _ _ E) in Hd. cbn [drop_white] in Hd. destruct (white u).
    + rewrite add32_id by lia. split; [|lia]. split; [done|]. split; [lia|]. by replace (Z.to_nat (f + 1)) with (S (Z.to_nat f)) by lia.
    + split; [done|]. split; [lia|]. by rewrite <- Hd, (drop_S _ _ _ E).
  - split; [done|]. split; [lia|]. rewrite <- Hd, drop_ge by lia. done.
Qed.

Lemma wp_trim_end s w cs f R : shows s w cs → units cs → 0 <= f <= len cs →
  wp (loop (S (Z.to_nat (WLEN w))) (trim_end w f) (WLEN w)) (λ t s', s' = s ∧ f <= t <= len cs ∧ slice cs f (t - f) = rev (drop_white (rev (drop (Z.to_nat f) cs)))) R s.
Proof.
  intros Hw Hu Hf. destruct (shows_len _ _ _ Hw) as [Hm Hl]. unfold MAX_STRING_LENGTH in Hm. rewrite Hl.
  eapply (wp_loop (λ t s', s' = s ∧ f <= t <= len cs ∧ drop_white (rev (slice cs f (t - f))) = drop_white (rev (drop (Z.to_nat f) cs))) (λ t, t - f)); [|lia|].
  { split; [done|]. split; [lia|]. unfold slice. rewrite take_ge; [done|]. rewrite length_drop. lia. }
  intros t s' (-> & Ht & Hd) _. unfold trim_end. rewrite gt_s_small by lia. destruct (Z.ltb_spec f t).
  - rewrite sub32_id by lia. destruct (aget_is_Some cs (t - 1) ltac:(lia)) as [u E]. apply wp_bind. eapply wp_ws_at; [exact Hw|exact Hu|lia|exact E|].
    assert (Es : slice cs f (t - f) = slice cs f (t - 1 - f) ++ [u]).
    { unfold slice. replace (Z.to_nat (t - f)) with (S (Z.to_nat (t - 1 - f))) by lia. apply take_S_r. rewrite lookup_drop. unfold aget in E. destruct (Z.ltb_spec (t - 1) 0); [lia|].
      rewrite <- E. f_equal. lia. }
    rewrite Es, rev_app_distr in Hd. cbn [rev app drop_white] in Hd. destruct (white u).
    + split; [|lia]. split; [done|]. split; [lia|done].
    + split; [done|]. split; [lia|]. rewrite <- Hd, Es. cbn [rev]. by rewrite rev_involutive.
  - assert (t = f) as -> by lia. split; [done|]. split; [lia|]. rewrite <- Hd. rewrite Z.sub_diag. done.
Qed.

(** ** The producers *)

Lemma wp_op_bounds kind s w cs R : shows s w cs → units cs →
  wp (op_bounds kind w) (λ ft s', s' = s ∧ 0 <= ft.1 ∧ ft.1 <= ft.2 ∧ ft.2 <= len cs ∧ slice cs ft.1 (ft.2 - ft.1) = spec_op kind cs) R s.
Proof.
  intros Hw Hu. destruct (shows_len _ _ _ Hw) as [Hm Hl]. unfold MAX_STRING_LENGTH in Hm. destruct kind as [x0 x1|x0 x1|start end_]; cbn [op_bounds].
  - rewrite Hl. apply wp_bind, wp_sliceBoundary; [lia|]. apply wp_bind, wp_sliceBoundary; [lia|].
    pose proof (to_index_range true x0 (len cs) ltac:(lia)). pose proof (to_index_range true x1 (len cs) ltac:(lia)). rewrite ge_s_small by lia.
    unfold spec_op, spec_slice. destruct (Z.leb_spec (to_index true x1 (len cs)) (to_index true x0 (len cs))); (split; [done|]; simpl; split; [lia|]; split; [lia|]; split; [lia|]; f_equal; lia).
  - rewrite Hl. apply wp_bind, wp_absBoundary; [lia|]. apply wp_bind, wp_absBoundary; [lia|].
    pose proof (to_index_range false x0 (len cs) ltac:(lia)). pose proof (to_index_range false x1 (len cs) ltac:(lia)). rewrite gt_s_small by lia.
    unfold spec_op, spec_substring. destruct (Z.ltb_spec (to_index false x1 (len cs)) (to_index false x0 (len cs))); (split; [done|]; simpl; split; [lia|]; split; [lia|]; split; [lia|]; f_equal; lia).
  - apply wp_bind. apply (wp_mono _ (λ f s', s' = s ∧ 0 <= f <= len cs ∧ drop (Z.to_nat f) cs = (if start then drop_white cs else cs)) _ (λ _ _, False)).
    { destruct start; [by apply wp_trim_start|]. split; [done|]. split; [lia|done]. }
    2: done. intros f s' (-> & Hf & Hd). apply wp_bind.
    apply (wp_mono _ (λ t s', s' = s ∧ f <= t <= len cs ∧ slice cs f (t - f) = (if end_ then rev (drop_white (rev (drop (Z.to_nat f) cs))) else drop (Z.to_nat f) cs)) _ (λ _ _, False)).
    { destruct end_; [by apply wp_trim_end|]. rewrite Hl. split; [done|]. split; [lia|]. unfold slice. apply take_ge. rewrite length_drop. lia. }
    2: done. intros t s' (-> & Ht & Hs). split; [done|]. simpl. split; [lia|]. split; [lia|]. split; [lia|]. rewrite Hs, Hd. unfold spec_trim. by destruct end_.
Qed.

Lemma slice_units cs i n : units cs → units (slice cs i n).
Proof. intros H. by apply Forall_take, Forall_drop. Qed.
Lemma slice_len (cs : list Z) i n : len (slice cs i n) <= len cs.
Proof. unfold slice. rewrite length_take, length_drop. lia. Qed.

Lemma wp_op kind view s f cs R : receives s f cs → units cs → units_ok s →
  wp (op kind view f) (λ v s', spans view s (spec_op kind cs) v s' ∧ units (spec_op kind cs) ∧ len (spec_op kind cs) <= len cs) R s.
Proof.
  intros H Hu Hok. unfold op. apply wp_bind. eapply wp_window; [exact H|]. intros w s' Hq Hw. apply wp_bind. eapply wp_mono; [by apply (wp_op_bounds kind s' w cs R)| |done].
  intros [from to] s2 (-> & Hf & Hft & Ht & Hs). simpl in *. destruct (shows_len _ _ _ Hw) as [Hm _]. unfold MAX_STRING_LENGTH in Hm. rewrite sub32_id by lia.
  eapply wp_mono; [by apply (wp_emitSpan view s' w cs from to R); [| |apply Hq| | |]| |done]. rewrite <- Hs. intros v s3 (Hq' & Hv & Hflat).
  split; [|split; [by apply slice_units|apply slice_len]]. split; [by transitivity s'|done].
Qed.

(** A window shadow filled at a write shows the value, or waits for a read;
    whatever the helpers do afterwards, it keeps showing it. *)
Lemma wp_windowFill s l cs w R : holdsV (objs s) l cs → len cs <= MAX_STRING_LENGTH → wp (emitWindowFill (Some l) w) (λ w' s', s' = s ∧ (B w' = None ∨ shows s w' cs)) R s.
Proof. intros H Hm. eapply wp_shape_window; [exact H|exact Hm|by auto|]. intros n a b E. split; [done|]. by left. Qed.

(** ** What views promise *)

(** C31. slice, substring and trim in every form (value or flat result, value
    or held window as receiver) answer a value of the text ECMAScript defines
    on code units, for all Numbers as arguments (NaN, infinities, negative
    zero, fractions); the flat form answers an array.  No other text of the
    store changes and nothing traps. *)
Theorem slice_ops_spec kind view s f cs : receives s f cs → units cs → units_ok s →
  wp (op kind view f)
    (λ v s', (∃ l, v = Some l ∧ holds true (objs s') l (spec_op kind cs)) ∧ keeps true s s' ∧ cell s' = cell s ∧ (view = false → look s' v = Some (Chars (spec_op kind cs))))
    (λ _ _, False) s.
Proof.
  intros H Hu Hok. eapply wp_mono; [by apply (wp_op kind view s f cs (λ _ _, False))| |done]. intros v s' [([K Ec] & Hv & Hf) _]. done.
Qed.

Definition letters : list Z := map Z.of_nat (seq 97 26).
Definition letter_store : store := mkStore [Chars letters; Chars [122]; Rope 27 (Some 0%nat) (Some 1%nat)] None None None None.
Lemma letter_receives : receives letter_store (V (Some 2%nat)) (letters ++ [122]) ∧ units (letters ++ [122]).
Proof.
  split; [|by repeat constructor]. exists 2%nat. split; [done|]. split; [|split; [by vm_compute|by left]].
  eapply holds_rope; [reflexivity|by apply holds_chars|by apply holds_chars|done..].
Qed.
Lemma letters_sliced : spec_op (Kslice (num_of_Z 2) (num_of_Z (-5))) (letters ++ [122]) = map Z.of_nat (seq 99 20).
Proof. vm_compute. reflexivity. Qed.
Lemma letters_end : unit_at (letters ++ [122]) (num_of_Z 26) = Some 122.
Proof. vm_compute. reflexivity. Qed.
Lemma letter_needle : needle letter_store (Some 1%nat) [122].
Proof. split; [reflexivity|]. by vm_compute. Qed.
Lemma slice_ops_spec_witness : ∃ v s', op (Kslice (num_of_Z 2) (num_of_Z (-5))) true (V (Some 2%nat)) letter_store = (Val v, s') ∧
  ∃ l, v = Some l ∧ holds true (objs s') l (map Z.of_nat (seq 99 20)).
Proof.
  destruct letter_receives as [Hr Hu]. pose proof (slice_ops_spec (Kslice (num_of_Z 2) (num_of_Z (-5))) true letter_store _ _ Hr Hu I) as H.
  rewrite letters_sliced in H.
  apply wp_run in H as (v & s' & E & Hv & _). exists v, s'. split; [exact E|exact Hv].
Defined.

(** The readers answer what ECMAScript says of the receiver's code units,
    through the window and without a flat copy of a view: charCodeAt and
    charAt the unit at the truncated index or NaN and the empty string out of
    range, the iterator's step a whole surrogate pair, startsWith and endsWith
    occurrence at an index, indexOf the first occurrence from the clamped
    position on.  Out-of-range arguments never trap. *)
Theorem readers_spec s f cs n ns x i : receives s f cs → units cs → units_ok s → needle s n ns → 0 <= i < 2 ^ 31 →
  wp (charCodeAt f x) (λ r s', r = match unit_at cs x with Some u => num_of_Z u | None => NaN end ∧ quiet s s') (λ _ _, False) s ∧
  wp (charAt f x) (λ r s', look s' r = Some (Chars (match unit_at cs x with Some u => [u] | None => [] end)) ∧ quiet s s') (λ _ _, False) s ∧
  wp (cpAt f x) (λ r s', look s' r = Some (Chars (point_at cs x)) ∧ quiet s s') (λ _ _, False) s ∧
  wp (matchAt f n i) (λ r s', r = occurs cs ns i ∧ quiet s s') (λ _ _, False) s ∧
  wp (endsWith f n) (λ r s', r = occurs cs ns (len cs - len ns) ∧ quiet s s') (λ _ _, False) s ∧
  wp (indexOf f n x) (λ r s', first_from cs ns (to_index false x (len cs)) r ∧ quiet s s') (λ _ _, False) s.
Proof.
  intros H Hu Hok Hn Hi. split; [by apply wp_charCodeAt|]. split; [by apply wp_charAt|]. split; [by apply wp_cpAt|].
  split; [by apply wp_matchAt|]. split; [by apply wp_endsWith|by apply wp_indexOf].
Qed.

Lemma readers_spec_witness : ∃ s', charCodeAt (V (Some 2%nat)) (num_of_Z 26) letter_store = (Val (num_of_Z 122), s').
Proof.
  destruct letter_receives as [Hr Hu].
  destruct (readers_spec letter_store (V (Some 2%nat)) _ (Some 1%nat) [122] (num_of_Z 26) 0 Hr Hu I letter_needle (conj (Z.le_refl 0) eq_refl)) as [H _].
  rewrite letters_end in H.
  apply wp_run in H as (r & s' & E & -> & _). exists s'. exact E.
Defined.
