(* ===== verification/StringPrograms.v ===== *)
(** * Programs over string values

    Straight-line programs that build strings with the emitted helpers, run
    twice: over the store of Ropes.v and Slices.v, where values share nodes that
    flattening and materialising rewrite, and over plain lists of code units,
    where a string is its text.  The two agree step by step, however the
    operations interleave. *)

From S2P Require Import Prelude F64 Arrays Ropes RopesSound Slices SlicesSound.

#[local] Open Scope arr_scope.

(** Each step adds a variable; operands are the indices of earlier ones. *)
Inductive sop :=
  | OLit (cs : list Z)
  | OCat (i j : nat)
  | OOp (kind : SliceOpKind) (view : bool) (i : nat)
  | OFlat (i : nat).

(** The emitted calls; a concatenation is followed by its pending check. *)
Definition pending : MS bool := λ s, (Val (bool_decide (cell s ≠ None)), s).
Definition step (o : sop) (env : list ref) : MS ref :=
  match o with
  | OLit cs => alloc (Chars cs)
  | OCat i j => a <- of_option (env !! i);; b <- of_option (env !! j);; cat true a b
  | OOp kind view i => a <- of_option (env !! i);; op kind view (V a)
  | OFlat i => a <- of_option (env !! i);; flat true a
  end.
Fixpoint exec (p : list sop) (env : list ref) : MS (option (list ref)) :=
  match p with
  | [] => mret (Some env)
  | o :: p => v <- step o env;; t <- pending;; if t then mret None else exec p (env ++ [v])
  end.

(** The same program on texts. *)
Inductive result := Values (ts : list (list Z)) | InvalidLength | Stuck.
Definition spec_step (o : sop) (ts : list (list Z)) : option (option (list Z)) :=
  match o with
  | OLit cs => if bool_decide (units cs ∧ len cs <= MAX_STRING_LENGTH) then Some (Some cs) else None
  | OCat i j => xs ← ts !! i; ys ← ts !! j; Some (if MAX_STRING_LENGTH <? len xs + len ys then None else Some (xs ++ ys))
  | OOp kind _ i => cs ← ts !! i; Some (Some (spec_op kind cs))
  | OFlat i => cs ← ts !! i; Some (Some cs)
  end.
Fixpoint spec_exec (p : list sop) (ts : list (list Z)) : result :=
  match p with
  | [] => Values ts
  | o :: p => match spec_step o ts with None => Stuck | Some None => InvalidLength | Some (Some cs) => spec_exec p (ts ++ [cs]) end
  end.

(** ** Agreement *)

Definition denotes (s : store) (r : ref) (cs : list Z) : Prop := (∃ l, r = Some l ∧ holds true (objs s) l cs) ∧ units cs ∧ len cs <= MAX_STRING_LENGTH.
Record agrees (s : store) (env : list ref) (ts : list (list Z)) : Prop := {
  agrees_texts : Forall2 (denotes s) env ts;
  agrees_stack : wf_stack s;
  agrees_units : units_ok s;
  agrees_cell : cell s = None
}.

Lemma denotes_keeps s s' r cs : keeps true s s' → denotes s r cs → denotes s' r cs.
Proof. intros K ((l & -> & H) & Hu & Hm). split; [|done]. exists l. split; [done|]. by apply (keeps_text _ _ _ K). Qed.

Lemma agrees_add s s' env ts r cs : agrees s env ts → keeps true s s' → cell s' = cell s → denotes s' r cs → agrees s' (env ++ [r]) (ts ++ [cs]).
Proof.
  intros [Hf Hst Hun Hc] K Ec Hd. split; [|by apply K|by apply K|by rewrite Ec].
  apply Forall2_app; [|constructor; [exact Hd|constructor]]. eapply Forall2_impl; [exact Hf|]. intros ? ?. by apply denotes_keeps.
Qed.

Lemma wp_env s env ts i cs (Q : ref → store → Prop) R : agrees s env ts → ts !! i = Some cs →
  (∀ l, holds true (objs s) l cs → units cs → len cs <= MAX_STRING_LENGTH → Q (Some l) s) → wp (of_option (env !! i)) Q R s.
Proof.
  intros H E HQ. destruct (Forall2_lookup_r _ _ _ _ _ (agrees_texts _ _ _ H) E) as (r & Er & (l & -> & Hl) & Hu & Hm).
  eapply wp_of_option; [exact Er|]. by apply HQ.
Qed.

(** What a step does, whatever the shapes of its operands. *)
Definition stepped (s : store) (o : option (list Z)) (r : ref) (s' : store) : Prop :=
  match o with
  | Some cs => denotes s' r cs ∧ keeps true s s' ∧ cell s' = cell s
  | None => cell s' = Some "RangeError: Invalid string length"%string
  end.

Lemma wp_step o s env ts t R : agrees s env ts → spec_step o ts = Some t → wp (step o env) (stepped s t) R s.
Proof.
  intros H E. pose proof H as [_ Hst Hun _]. destruct o as [cs|i j|kind view i|i]; cbn [step spec_step] in *.
  - case_bool_decide as Hcs; [|done]. injection E as <-. apply wp_alloc. split; [|split; [apply keeps_alloc|done]]. split; [|done].
    exists (fresh s). split; [done|]. apply (holds_fresh true).
  - destruct (ts !! i) as [xs|] eqn:Ei; [|done]. destruct (ts !! j) as [ys|] eqn:Ej; [|done]. cbn in E. injection E as <-.
    apply wp_bind. eapply wp_env; [exact H|exact Ei|]. intros a Ha Hua Hma. apply wp_bind. eapply wp_env; [exact H|exact Ej|]. intros b Hb Hub Hmb.
    eapply wp_mono; [by apply wp_cat| |done]. intros v s'. unfold concatenated. destruct (Z.ltb_spec MAX_STRING_LENGTH (len xs + len ys)); [by intros (_ & _ & Ec)|].
    intros (K & Ec & Hv). split; [|done]. split; [done|]. split; [by apply Forall_app|]. rewrite length_app. lia.
  - destruct (ts !! i) as [cs|] eqn:Ei; [|done]. cbn in E. injection E as <-. apply wp_bind. eapply wp_env; [exact H|exact Ei|]. intros a Ha Hua Hma.
    eapply wp_mono; [apply (wp_op kind view s (V (Some a)) cs R); [by exists a|done|done]| |done]. intros v s' [([K Ec] & Hv & _) [Hu Hl]].
    split; [|done]. split; [done|]. split; [done|]. lia.
  - destruct (ts !! i) as [cs|] eqn:Ei; [|done]. cbn in E. injection E as <-. apply wp_bind. eapply wp_env; [exact H|exact Ei|]. intros a Ha Hua Hma.
    eapply wp_mono; [apply (wp_flat true s a cs R); [done|done|unfold MAX_STRING_LENGTH in *; lia]| |done]. intros v s' (K & Ec & F).
    split; [|done]. split; [|done]. destruct v as [l|]; [|done]. exists l. split; [done|by apply holds_chars].
Qed.

Definition finished (r : result) (o : option (list ref)) (s' : store) : Prop :=
  match r with
  | Values ts => ∃ env, o = Some env ∧ agrees s' env ts
  | InvalidLength => o = None ∧ cell s' = Some "RangeError: Invalid string length"%string
  | Stuck => True
  end.

Lemma wp_exec p : ∀ s env ts R, agrees s env ts → spec_exec p ts ≠ Stuck → wp (exec p env) (finished (spec_exec p ts)) R s.
Proof.
  induction p as [|o p IH]; intros s env ts R H Hr; cbn [exec spec_exec] in *; [by exists env|].
  destruct (spec_step o ts) as [t|] eqn:E; [|done]. apply wp_bind. eapply wp_mono; [by apply (wp_step o s env ts t)| |done]. intros v s' Hs.
  apply wp_bind. change (wp pending ?Q ?R' s') with (Q (bool_decide (cell s' ≠ None)) s'). destruct t as [cs|].
  - destruct Hs as (Hd & K & Ec). rewrite bool_decide_false by (rewrite Ec, (agrees_cell _ _ _ H); auto). apply IH; [|done]. by eapply agrees_add.
  - cbn in Hs. rewrite bool_decide_true by (by rewrite Hs). split; [done|exact Hs].
Qed.

(** C4. The emitted string helpers implement JavaScript strings: a program of
    literals, concatenations, slices, substrings, trims and flat reads whose
    run on texts ends with values ends, run over the store, with values of
    exactly those texts, however its values share, merge, cache and re-point
    nodes; and it ends with the pending RangeError exactly when the run on
    texts exceeds the length limit.  No instruction traps on the way. *)
Theorem strings_refine p : spec_exec p [] ≠ Stuck →
  wp (exec p [])
    (λ o s', match spec_exec p [] with
             | Values ts => ∃ env, o = Some env ∧ Forall2 (λ r cs, ∃ l, r = Some l ∧ holds true (objs s') l cs) env ts
             | InvalidLength => o = None ∧ cell s' = Some "RangeError: Invalid string length"%string
             | Stuck => False
             end)
    (λ _ _, False) empty_store.
Proof.
  intros H. eapply wp_mono; [apply (wp_exec p empty_store [] [] (λ _ _, False)); [|done]| |done].
  - split; [constructor|by left|done|done].
  - intros o s'. unfold finished. destruct (spec_exec p []) as [ts| |]; [|done|done]. intros (env & -> & [Hf _ _ _]). exists env. split; [done|].
    eapply Forall2_impl; [exact Hf|]. by intros r cs [? _].
Qed.

(** A token stripped off the front of a growing text. *)
Definition tokenizer : list sop :=
  [OLit (replicate 20 97); OLit [32; 98]; OCat 0 1; OCat 2 2; OOp (Kslice (num_of_Z 20) PInf) true 3; OOp (Ktrim true false) true 4; OFlat 3; OCat 5 6].
Lemma tokenizer_values : match spec_exec tokenizer [] with Values ts => length ts = 8%nat | _ => False end.
Proof. vm_compute. reflexivity. Qed.
Lemma tokenizer_runs : spec_exec tokenizer [] ≠ Stuck.
Proof. intros E. pose proof tokenizer_values as H. by rewrite E in H. Qed.
Lemma strings_refine_witness : spec_exec tokenizer [] ≠ Stuck ∧ ∃ env s', exec tokenizer [] empty_store = (Val (Some env), s') ∧ length env = 8%nat.
Proof.
  split; [exact tokenizer_runs|]. pose proof (strings_refine tokenizer tokenizer_runs) as H. pose proof tokenizer_values as Hv.
  destruct (spec_exec tokenizer []) as [ts| |]; [|destruct Hv..].
  apply wp_run in H as (o & s' & E & env & -> & Hf). exists env, s'. split; [exact E|]. exact (eq_trans (Forall2_length _ _ _ Hf) Hv).
Defined.
