(* ===== verification/BytesDecode.v ===== *)
(** * Bytes to strings

    The decoders behind Buffer.toString on the WasmGC tier
    (src/packages/compiler/src/backend/wasm/typedarrays.ts, [toStrHelper]): hex,
    base64 and base64url, latin1, ascii, utf16le, and UTF-8 with the maximal
    subpart replacement.  A byte view is a window into a storage array; every
    read and write of the loops traps out of bounds.  The references are
    functions on the byte list of a view. *)

From Stdlib Require Import ZArith.Zbitwise.
From S2P Require Import Prelude Arrays.

#[local] Open Scope arr_scope.

Definition BM : Type → Type := M unit.

(** [i32.shl]. *)
Definition shl32 (x k : Z) : Z := to_uint32 (Z.shiftl x k).

(** A [$bytes] view: (storage, off, len). *)
Record bview := mkView { STORAGE : list Z; BOFF : Z; BLEN : Z }.
Definition data (v : bview) : list Z := slice (STORAGE v) (BOFF v) (BLEN v).
(** A view of a whole array. *)
Definition bytes_view (bs : list Z) : bview := mkView bs 0 (len bs).

Definition byte_at (v : bview) (i : Z) : BM Z := of_option (aget (STORAGE v) (add32 (BOFF v) i)).
(** [array.set] of a packed element: a 16-bit string unit, an 8-bit byte. *)
Definition set16 (out : list Z) (i x : Z) : BM (list Z) := of_option (aset out i (x mod 2 ^ 16)).
Definition set8 (out : list Z) (i x : Z) : BM (list Z) := of_option (aset out i (x mod 2 ^ 8)).
Definition zeros (n : Z) : list Z := replicate (Z.to_nat n) 0.

Inductive enc := Utf8 | Utf16le | Base64 | Base64url | Latin1 | Ascii | Hex.

(** ** hex *)

Definition emitHexDigit (d : Z) : Z := if d <? 10 then add32 d 0x30 else add32 d (0x61 - 10).
Definition hex_step (v : bview) (st : Z * list Z) : BM (Z * list Z + list Z) :=
  let '(i, out) := st in
  if ge_s i (BLEN v) then mret (inr out)
  else
    b <- byte_at v i;;
    out <- set16 out (mul32 i 2) (emitHexDigit (Z.shiftr b 4));;
    out <- set16 out (add32 (mul32 i 2) 1) (emitHexDigit (Z.land b 0xf));;
    mret (inl (add32 i 1, out)).
Definition toStr_hex (v : bview) : BM (list Z) := loop (S (Z.to_nat (BLEN v))) (hex_step v) (0, zeros (mul32 (BLEN v) 2)).

(** ** base64 *)

Definition codes (s : string) : list Z := map (λ c, Z.of_nat (Ascii.nat_of_ascii c)) (String.list_ascii_of_string s).
Definition alphabet (url : bool) : list Z :=
  codes (if url then "ABCDEFGHIJKLMNOPQRSTUVWXYZabcdefghijklmnopqrstuvwxyz0123456789-_" else "ABCDEFGHIJKLMNOPQRSTUVWXYZabcdefghijklmnopqrstuvwxyz0123456789+/").
Definition out_len (url : bool) (n : Z) : Z :=
  if url then add32 (mul32 (Z.quot n 3) 4) (if Z.rem n 3 =? 0 then 0 else add32 (Z.rem n 3) 1)
  else mul32 (Z.quot (add32 n 2) 3) 4.
(** The k-th digit of a 24-bit group, written at o + k. *)
Definition put_digit (url : bool) (val o : Z) (out : list Z) (k : Z) : BM (list Z) :=
  a <- of_option (aget (alphabet url) (Z.land (Z.shiftr val ((3 - k) * 6)) 63));; set16 out (add32 o k) a.
Fixpoint put_digits (url : bool) (val o : Z) (ks : list Z) (out : list Z) : BM (list Z) :=
  match ks with [] => mret out | k :: ks => out <- put_digit url val o out k;; put_digits url val o ks out end.
Definition b64_step (url : bool) (v : bview) (st : Z * Z * list Z) : BM (Z * Z * list Z + Z * Z * list Z) :=
  let '(i, o, out) := st in
  if gt_s (add32 i 3) (BLEN v) then mret (inr st)
  else
    b0 <- byte_at v i;;
    b1 <- byte_at v (add32 i 1);;
    b2 <- byte_at v (add32 i 2);;
    out <- put_digits url (Z.lor (Z.lor (shl32 b0 16) (shl32 b1 8)) b2) o [0; 1; 2; 3] out;;
    mret (inl (add32 i 3, add32 o 4, out)).
Definition b64_pad (url : bool) (o : Z) (ks : list Z) (out : list Z) : BM (list Z) :=
  if url then mret out else foldr (λ k m, out <- m;; set16 out (add32 o k) 0x3d) (mret out) (rev ks).
Definition toStr_base64 (url : bool) (v : bview) : BM (list Z) :=
  '(i, o, out) <- loop (S (Z.to_nat (BLEN v))) (b64_step url v) (0, 0, zeros (out_len url (BLEN v)));;
  let rem := sub32 (BLEN v) i in
  if rem =? 1 then
    b0 <- byte_at v i;;
    out <- put_digits url (shl32 b0 16) o [0; 1] out;;
    b64_pad url o [2; 3] out
  else if rem =? 2 then
    b0 <- byte_at v i;;
    b1 <- byte_at v (add32 i 1);;
    out <- put_digits url (Z.lor (shl32 b0 16) (shl32 b1 8)) o [0; 1; 2] out;;
    b64_pad url o [3] out
  else mret out.

(** ** latin1, ascii, utf16le *)

Definition latin_step (ascii : bool) (v : bview) (st : Z * list Z) : BM (Z * list Z + list Z) :=
  let '(i, out) := st in
  if ge_s i (BLEN v) then mret (inr out)
  else b <- byte_at v i;; out <- set16 out i (if ascii then Z.land b 0x7f else b);; mret (inl (add32 i 1, out)).
Definition toStr_latin (ascii : bool) (v : bview) : BM (list Z) := loop (S (Z.to_nat (BLEN v))) (latin_step ascii v) (0, zeros (BLEN v)).

Definition utf16_step (v : bview) (st : Z * list Z) : BM (Z * list Z + list Z) :=
  let '(u, out) := st in
  if ge_s u (Z.quot (BLEN v) 2) then mret (inr out)
  else
    lo <- byte_at v (mul32 u 2);;
    hi <- byte_at v (add32 (mul32 u 2) 1);;
    out <- set16 out u (Z.lor lo (shl32 hi 8));;
    mret (inl (add32 u 1, out)).
Definition toStr_utf16le (v : bview) : BM (list Z) := loop (S (Z.to_nat (BLEN v))) (utf16_step v) (0, zeros (Z.quot (BLEN v) 2)).

(** ** utf8 *)

Record u8 := mkU8 { CP : Z; NEEDED : Z; LOWER : Z; UPPER : Z }.
Definition fresh8 : u8 := mkU8 0 0 0x80 0xbf.
Record u8loop := mkLoop { UI : Z; UO : Z; SCRATCH : list Z; U8 : u8 }.
Definition storeUnit (u : Z) (w : u8loop) : BM u8loop := out <- set16 (SCRATCH w) (UO w) u;; mret (mkLoop (UI w) (add32 (UO w) 1) out (U8 w)).
Definition with_u8 (w : u8loop) (u : u8) : u8loop := mkLoop (UI w) (UO w) (SCRATCH w) u.

(** A byte where a sequence starts. *)
Definition lead_byte (b : Z) (w : u8loop) : BM u8loop :=
  let u := U8 w in
  if b <=? 0x7f then storeUnit b w
  else if (0xc2 <=? b) && (b <=? 0xdf) then mret (with_u8 w (mkU8 (Z.land b 0x1f) 1 (LOWER u) (UPPER u)))
  else if (0xe0 <=? b) && (b <=? 0xef) then
    mret (with_u8 w (mkU8 (Z.land b 0xf) 2 (if b =? 0xe0 then 0xa0 else LOWER u) (if b =? 0xed then 0x9f else UPPER u)))
  else if (0xf0 <=? b) && (b <=? 0xf4) then
    mret (with_u8 w (mkU8 (Z.land b 0x7) 3 (if b =? 0xf0 then 0x90 else LOWER u) (if b =? 0xf4 then 0x8f else UPPER u)))
  else storeUnit 0xfffd w.
(** A byte inside a sequence; one that does not belong is read again. *)
Definition next_byte (b : Z) (w : u8loop) : BM u8loop :=
  let u := U8 w in
  if (b <? LOWER u) || (UPPER u <? b) then
    w <- storeUnit 0xfffd w;;
    mret (mkLoop (sub32 (UI w) 1) (UO w) (SCRATCH w) (mkU8 (CP (U8 w)) 0 0x80 0xbf))
  else
    let cp := Z.lor (shl32 (CP u) 6) (Z.land b 0x3f) in
    let needed := sub32 (NEEDED u) 1 in
    if needed =? 0 then
      if cp <=? 0xffff then storeUnit cp (with_u8 w (mkU8 cp needed 0x80 0xbf))
      else
        let cp := sub32 cp 0x10000 in
        w <- storeUnit (add32 0xd800 (Z.shiftr cp 10)) (with_u8 w (mkU8 cp needed 0x80 0xbf));;
        storeUnit (add32 0xdc00 (Z.land cp 0x3ff)) w
    else mret (with_u8 w (mkU8 cp needed 0x80 0xbf)).
Definition utf8_step (v : bview) (w : u8loop) : BM (u8loop + u8loop) :=
  if BLEN v <=? UI w then mret (inr w)
  else
    b <- byte_at v (UI w);;
    let w := mkLoop (add32 (UI w) 1) (UO w) (SCRATCH w) (U8 w) in
    w <- (if NEEDED (U8 w) =? 0 then lead_byte b w else next_byte b w);;
    mret (inl w).
Definition emitStrFromScratch (scratch : list Z) (n : Z) : BM (list Z) := of_option (acopy (zeros n) 0 scratch 0 n).
Definition toStr_utf8 (v : bview) : BM (list Z) :=
  w <- loop (S (Z.to_nat (2 * BLEN v))) (utf8_step v) (mkLoop 0 0 (zeros (BLEN v)) fresh8);;
  w <- (if 0 <? NEEDED (U8 w) then storeUnit 0xfffd w else mret w);;
  emitStrFromScratch (SCRATCH w) (UO w).

Definition toStr (e : enc) (v : bview) : BM (list Z) :=
  match e with
  | Utf8 => toStr_utf8 v | Utf16le => toStr_utf16le v | Base64 => toStr_base64 false v | Base64url => toStr_base64 true v
  | Latin1 => toStr_latin false v | Ascii => toStr_latin true v | Hex => toStr_hex v
  end.

Definition sample_view : bview := mkView [1; 2; 0x68; 0xc3; 0xa9; 0xe2; 0x82; 0xf0; 0x9f; 0x98; 0x80; 0xed; 0xa0; 0x80; 9] 2 12.
Example sample_decodes : map (λ e, (toStr e sample_view tt).1) [Utf8; Hex; Base64; Ascii; Utf16le] =
  [Val [0x68; 0xe9; 0xfffd; 0xd83d; 0xde00; 0xfffd; 0xfffd; 0xfffd];
   Val (codes "68c3a9e282f09f9880eda080"); Val (codes "aMOp4oLwn5iA7aCA"); Val [0x68; 0x43; 0x29; 0x62; 2; 0x70; 0x1f; 0x18; 0; 0x6d; 0x20; 0]; Val [0xc368; 0xe2a9; 0xf082; 0x989f; 0xed80; 0x80a0]].
Proof. vm_compute. reflexivity. Qed.

(** ** Bits *)

Lemma lor_add a b k : 0 <= k → 0 <= a < 2 ^ k → Z.lor a (b * 2 ^ k) = a + b * 2 ^ k.
Proof.
  intros Hk Ha. rewrite <- (Z.add_lor_land a (b * 2 ^ k)).
  replace (Z.land a (b * 2 ^ k)) with 0; [lia|]. symmetry. apply Z.bits_inj'. intros n Hn. rewrite Z.land_spec, Z.bits_0.
  destruct (Z.lt_ge_cases n k).
  - rewrite Z.mul_pow2_bits_low by lia. apply andb_false_r.
  - rewrite <- (Z.mod_small a (2 ^ k)) by lia. rewrite Z.mod_pow2_bits_high by lia. done.
Qed.

Lemma shl32_small x k : 0 <= k → 0 <= x * 2 ^ k < 2 ^ 32 → shl32 x k = x * 2 ^ k.
Proof. intros. unfold shl32. rewrite Z.shiftl_mul_pow2 by lia. by apply to_uint32_id. Qed.

(** A little-endian value. *)
Fixpoint le_val (t : list Z) : Z := match t with [] => 0 | b :: t => b + 256 * le_val t end.

Lemma le_val_range t : Forall byte t → 0 <= le_val t < 256 ^ len t.
Proof.
  induction 1 as [|b t Hb _ IH]; cbn [le_val length]; [lia|]. unfold byte in Hb. rewrite Nat2Z.inj_succ, Z.pow_succ_r by lia. lia.
Qed.

Lemma le_val_snoc t b : le_val (t ++ [b]) = le_val t + b * 256 ^ len t.
Proof. induction t as [|a t IH]; cbn [app le_val length]; [lia|]. rewrite IH, Nat2Z.inj_succ, Z.pow_succ_r by lia. lia. Qed.

(** ** Specifications on byte lists *)

Definition spec_hex (bs : list Z) : list Z := flat_map (λ b, [emitHexDigit (Z.shiftr b 4); emitHexDigit (Z.land b 0xf)]) bs.
Definition spec_latin (ascii : bool) (bs : list Z) : list Z := map (λ b, if ascii then Z.land b 0x7f else b) bs.
Fixpoint spec_utf16 (bs : list Z) : list Z :=
  match bs with lo :: hi :: bs => lo + 256 * hi :: spec_utf16 bs | _ => [] end.

(** The digit of a six-bit value. *)
Definition digit64 (url : bool) (x : Z) : Z :=
  if x <? 26 then 65 + x else if x <? 52 then 71 + x else if x <? 62 then x - 4
  else if x =? 62 then (if url then 0x2d else 0x2b) else (if url then 0x5f else 0x2f).
Definition pad64 (url : bool) (k : nat) : list Z := if url then [] else replicate k 0x3d.
Fixpoint spec_b64 (url : bool) (bs : list Z) : list Z :=
  match bs with
  | [] => []
  | [a] => [digit64 url (a / 4); digit64 url (a mod 4 * 16)] ++ pad64 url 2
  | [a; b] => [digit64 url (a / 4); digit64 url (a mod 4 * 16 + b / 16); digit64 url (b mod 16 * 4)] ++ pad64 url 1
  | a :: b :: c :: bs =>
      [digit64 url (a / 4); digit64 url (a mod 4 * 16 + b / 16); digit64 url (b mod 16 * 4 + c / 64); digit64 url (c mod 64)] ++ spec_b64 url bs
  end.

(** UTF-8: between sequences, or inside one with its value so far, the number
    of bytes missing and the range the next byte must lie in. *)
Inductive st8 := Start | Mid (cp n lo hi : Z).
Definition units (cp : Z) : list Z := if cp <=? 0xffff then [cp] else [0xd800 + (cp - 0x10000) / 1024; 0xdc00 + (cp - 0x10000) mod 1024].
Definition lead8 (b : Z) : st8 * list Z :=
  if b <=? 0x7f then (Start, [b])
  else if b <? 0xc2 then (Start, [0xfffd])
  else if b <=? 0xdf then (Mid (b - 0xc0) 1 0x80 0xbf, [])
  else if b <=? 0xef then (Mid (b - 0xe0) 2 (if b =? 0xe0 then 0xa0 else 0x80) (if b =? 0xed then 0x9f else 0xbf), [])
  else if b <=? 0xf4 then (Mid (b - 0xf0) 3 (if b =? 0xf0 then 0x90 else 0x80) (if b =? 0xf4 then 0x8f else 0xbf), [])
  else (Start, [0xfffd]).
Definition byte8 (s : st8) (b : Z) : st8 * list Z :=
  match s with
  | Start => lead8 b
  | Mid cp n lo hi =>
      if (b <? lo) || (hi <? b) then let '(s, o) := lead8 b in (s, 0xfffd :: o)
      else
        let cp := 64 * cp + (b - 0x80) in
        if n =? 1 then (Start, units cp) else (Mid cp (n - 1) 0x80 0xbf, [])
  end.
Definition flush8 (s : st8) : list Z := match s with Start => [] | Mid _ _ _ _ => [0xfffd] end.
Fixpoint run8 (s : st8) (bs : list Z) : list Z :=
  match bs with [] => flush8 s | b :: bs => let '(s, o) := byte8 s b in o ++ run8 s bs end.

Definition decode (e : enc) (bs : list Z) : list Z :=
  match e with
  | Utf8 => run8 Start bs | Utf16le => spec_utf16 bs | Base64 => spec_b64 false bs | Base64url => spec_b64 true bs
  | Latin1 => spec_latin false bs | Ascii => spec_latin true bs | Hex => spec_hex bs
  end.

Example sample_spec : map (λ e, decode e (data sample_view)) [Utf8; Hex; Base64; Base64url; Ascii; Utf16le] =
  map (λ e, match (toStr e sample_view tt).1 with Val u => u | _ => [] end) [Utf8; Hex; Base64; Base64url; Ascii; Utf16le].
Proof. vm_compute. reflexivity. Qed.

(** ** Views and output arrays *)

Record view_ok (v : bview) : Prop := mkViewOk {
  vok_bytes : Forall byte (STORAGE v);
  vok_off : 0 <= BOFF v;
  vok_len : 0 <= BLEN v < 2 ^ 31 - 8;
  vok_fits : BOFF v + BLEN v <= len (STORAGE v);
  vok_storage : len (STORAGE v) < 2 ^ 32
}.

Lemma data_length v : view_ok v → len (data v) = BLEN v.
Proof. intros [_ ?? ? ?]. unfold data, slice. rewrite length_take, length_drop. lia. Qed.

Lemma data_bytes v : view_ok v → Forall byte (data v).
Proof. intros [H _ _ _ _]. unfold data, slice. by apply Forall_take, Forall_drop. Qed.

Lemma wp_byte_at v k b (Q : Z → unit → Prop) R s :
  view_ok v → data v !! Z.to_nat k = Some b → 0 <= k → Q b s → wp (byte_at v k) Q R s.
Proof.
  intros Hv Hb Hk HQ. pose proof (lookup_lt_Some _ _ _ Hb) as Hl. pose proof (data_length v Hv) as HL. destruct Hv as [_ ? Hlen Hf Hs].
  eapply wp_of_option; [|exact HQ]. rewrite add32_id by lia. unfold aget.
  destruct (Z.ltb_spec (BOFF v + k) 0); [lia|]. unfold data, slice in Hb. rewrite lookup_take_Some in Hb. destruct Hb as [Hb _].
  rewrite lookup_drop in Hb. by rewrite Z2Nat.inj_add by lia.
Qed.

Lemma data_bytes_view bs : data (bytes_view bs) = bs.
Proof. unfold data, slice. cbn. rewrite Nat2Z.id. apply take_ge. lia. Qed.
Lemma bytes_view_ok bs : Forall byte bs → len bs < 2 ^ 31 - 8 → view_ok (bytes_view bs).
Proof. intros. split; cbn; [done|lia..]. Qed.

(** The output array holds [acc] and is zero after it. *)
Definition fills (n : Z) (acc out : list Z) : Prop := ∃ m, out = acc ++ replicate m 0 ∧ n = len acc + Z.of_nat m.

Lemma fills_zeros n : 0 <= n → fills n [] (zeros n).
Proof. intros. exists (Z.to_nat n). split; [done|]. cbn [length]. lia. Qed.

Lemma fills_full n acc out : fills n acc out → n <= len acc → out = acc.
Proof. intros (m & -> & ->) ?. replace m with 0%nat by lia. by rewrite app_nil_r. Qed.

Lemma fills_push n acc out o x : fills n acc out → o = len acc → len acc < n → ∃ out', aset out o x = Some out' ∧ fills n (acc ++ [x]) out'.
Proof.
  intros (m & -> & ->) -> Hn. destruct m as [|m]; [lia|]. exists (acc ++ x :: replicate m 0). split; [by apply aset_app|].
  exists m. rewrite length_app. cbn [length]. split; [by rewrite <- app_assoc|lia].
Qed.

Lemma wp_set16 n acc out o x (Q : list Z → unit → Prop) R s :
  fills n acc out → o = len acc → len acc < n → 0 <= x < 2 ^ 16 → (∀ out', fills n (acc ++ [x]) out' → Q out' s) →
  wp (set16 out o x) Q R s.
Proof.
  intros Hf Ho Hn Hx HQ. destruct (fills_push n acc out o x Hf Ho Hn) as (out' & E & Hf').
  eapply wp_of_option; [rewrite Z.mod_small by lia; exact E|by apply HQ].
Qed.

Lemma wp_set8 n acc out o x (Q : list Z → unit → Prop) R s :
  fills n acc out → o = len acc → len acc < n → (∀ out', fills n (acc ++ [x mod 2 ^ 8]) out' → Q out' s) → wp (set8 out o x) Q R s.
Proof. intros Hf Ho Hn HQ. destruct (fills_push n acc out o (x mod 2 ^ 8) Hf Ho Hn) as (out' & E & Hf'). eapply wp_of_option; [exact E|by apply HQ]. Qed.

(** A decoding loop at byte [i]: the output so far, then what the rest decodes
    to, is the whole decoding. *)
Definition decoding (S : list Z → list Z) (d : list Z) (i : Z) (acc p q : list Z) : Prop :=
  d = p ++ q ∧ i = len p ∧ acc ++ S q = S d.

Lemma decoding_start S d : decoding S d 0 [] [] d.
Proof. done. Qed.

Lemma decoding_len S v i acc p q : view_ok v → decoding S (data v) i acc p q → BLEN v = i + len q ∧ 0 <= i.
Proof. intros Hv (Hd & -> & _). pose proof (data_length v Hv) as HL. rewrite Hd, length_app in HL. lia. Qed.

Lemma wp_byte v p b q k (Q : Z → unit → Prop) R s :
  view_ok v → data v = p ++ b :: q → k = len p → (byte b → Q b s) → wp (byte_at v k) Q R s.
Proof.
  intros Hv Hd -> HQ. apply wp_byte_at with b; [done| |lia|].
  - rewrite Hd, Nat2Z.id. apply list_lookup_middle. done.
  - apply HQ. pose proof (data_bytes v Hv) as Hb. rewrite Hd in Hb. apply Forall_app in Hb as [_ Hb]. by inversion Hb.
Qed.

(** The start of a loop body: the loop ends at the last byte, or there is a
    next byte. *)
Lemma decoding_next S v i acc p q : view_ok v → decoding S (data v) i acc p q →
  ge_s i (BLEN v) = true ∧ q = [] ∧ acc ++ S [] = S (data v) ∨ ge_s i (BLEN v) = false ∧ ∃ b q', q = b :: q'.
Proof.
  intros Hv Hd. destruct (decoding_len _ _ _ _ _ _ Hv Hd) as [HL ?]. pose proof (vok_len v Hv).
  rewrite ge_s_small by lia. destruct Hd as (Hd & -> & Hs). destruct q as [|b q].
  - left. rewrite HL. cbn [length]. split_and!; [apply Z.leb_le; lia|done|done].
  - right. rewrite HL. cbn [length]. split; [apply Z.leb_gt; lia|eauto].
Qed.

Lemma hex_digit_range d : 0 <= d < 16 → 0 <= emitHexDigit d < 128.
Proof. intros. unfold emitHexDigit. destruct (Z.ltb_spec d 10); rewrite add32_id by lia; lia. Qed.

Lemma byte_halves b : byte b → 0 <= Z.shiftr b 4 < 16 ∧ 0 <= Z.land b 0xf < 16.
Proof.
  intros Hb. unfold byte in Hb. rewrite Z.shiftr_div_pow2 by lia. change 0xf with (Z.ones 4). rewrite Z.land_ones by lia.
  change (2 ^ 4) with 16. split; [split; [apply Z.div_pos; lia|apply Z.div_lt_upper_bound; lia]|apply Z.mod_pos_bound; lia].
Qed.

Lemma spec_hex_length bs : len (spec_hex bs) = 2 * len bs.
Proof. induction bs as [|b bs IH]; [done|]. cbn [spec_hex flat_map]. change (flat_map _ bs) with (spec_hex bs). rewrite length_app. cbn [length]. lia. Qed.

(** A counted loop that consumes the view, [w] bytes at a step, and fills an
    output of known length. *)
Lemma wp_fill_loop (S : list Z → list Z) w v n body (Q : list Z → unit → Prop) R s :
  view_ok v → 0 < w → n = len (S (data v)) →
  (∀ i acc p q out s, decoding S (data v) (w * i) acc p q → fills n acc out →
     wp (body (i, out)) (λ r s', match r with
       | inl (i', out') => i < i' ∧ ∃ acc' p' q', decoding S (data v) (w * i') acc' p' q' ∧ fills n acc' out'
       | inr out' => out' = S (data v)
       end) R s) →
  Q (S (data v)) s → wp (loop (Datatypes.S (Z.to_nat (BLEN v))) body (0, zeros n)) Q R s.
Proof.
  intros Hv Hw Hn Hb HQ. destruct s.
  apply wp_loop with (λ '(i, out) _, ∃ acc p q, decoding S (data v) (w * i) acc p q ∧ fills n acc out) (λ '(i, _), BLEN v - w * i).
  - exists [], [], (data v). split; [rewrite Z.mul_0_r; apply decoding_start|apply fills_zeros; lia].
  - pose proof (vok_len v Hv). lia.
  - intros [i out] s (acc & p & q & Hd & Hf) _. eapply wp_mono; [exact (Hb _ _ _ _ _ s Hd Hf)| |done].
    intros [[i' out']|out'] s' H; cbn.
    + destruct H as (Hi & acc' & p' & q' & Hd' & Hf'). split; [eauto 6|].
      destruct (decoding_len _ _ _ _ _ _ Hv Hd'). destruct (decoding_len _ _ _ _ _ _ Hv Hd). nia.
    + rewrite H. by destruct s'.
Qed.

Lemma toStr_hex_exact v (Q : list Z → unit → Prop) R s : view_ok v → Q (spec_hex (data v)) s → wp (toStr_hex v) Q R s.
Proof.
  intros Hv HQ. pose proof (vok_len v Hv). pose proof (data_length v Hv) as HL. unfold toStr_hex. rewrite mul32_id by lia.
  apply wp_fill_loop with spec_hex 1; [done|done|rewrite spec_hex_length; lia| |done].
  intros i acc p q out s' Hd Hf. rewrite Z.mul_1_l in Hd. unfold hex_step.
  destruct (decoding_next _ _ _ _ _ _ Hv Hd) as [(-> & -> & Ha)|(-> & b & q' & ->)].
  { apply wp_mret. rewrite app_nil_r in Ha. rewrite <- Ha. apply (fills_full _ _ _ Hf). rewrite Ha, spec_hex_length. lia. }
  destruct (decoding_len _ _ _ _ _ _ Hv Hd) as [HB Hi]. cbn [length] in HB. destruct Hd as (Hd & -> & Ha).
  assert (Hacc : len acc = 2 * len p).
  { apply (f_equal length) in Ha. rewrite length_app in Ha. pose proof (spec_hex_length (b :: q')). pose proof (spec_hex_length (data v)) as Hx.
    rewrite Hd in Hx at 2. rewrite length_app in Hx. cbn [length] in *. lia. }
  apply wp_bind. apply wp_byte with p b q'; [done|done|done|]. intros Hb.
  destruct (byte_halves b Hb). pose proof (hex_digit_range (Z.shiftr b 4)). pose proof (hex_digit_range (Z.land b 0xf)).
  rewrite !mul32_id, !add32_id by lia.
  apply wp_bind. eapply wp_set16; [exact Hf|lia|lia|lia|]. intros out1 Hf1.
  apply wp_bind. eapply wp_set16; [exact Hf1|rewrite length_app; cbn [length]; lia|rewrite length_app; cbn [length]; lia|lia|]. intros out2 Hf2.
  apply wp_mret. split; [lia|]. eexists _, (p ++ [b])%list, q'. split; [|exact Hf2]. rewrite Z.mul_1_l. split_and!.
  - by rewrite <- app_assoc.
  - rewrite length_app. cbn [length]. lia.
  - by rewrite <- Ha, <- !app_assoc.
Qed.

Lemma toStr_latin_exact ascii v (Q : list Z → unit → Prop) R s :
  view_ok v → Q (spec_latin ascii (data v)) s → wp (toStr_latin ascii v) Q R s.
Proof.
  intros Hv HQ. pose proof (vok_len v Hv). pose proof (data_length v Hv) as HL. unfold toStr_latin.
  apply wp_fill_loop with (spec_latin ascii) 1; [done|done|unfold spec_latin; rewrite length_map; lia| |done].
  intros i acc p q out s' Hd Hf. rewrite Z.mul_1_l in Hd. unfold latin_step.
  destruct (decoding_next _ _ _ _ _ _ Hv Hd) as [(-> & -> & Ha)|(-> & b & q' & ->)].
  { apply wp_mret. rewrite app_nil_r in Ha. rewrite <- Ha. apply (fills_full _ _ _ Hf). rewrite Ha. unfold spec_latin. rewrite length_map. lia. }
  destruct (decoding_len _ _ _ _ _ _ Hv Hd) as [HB Hi]. cbn [length] in HB. destruct Hd as (Hd & -> & Ha).
  assert (Hacc : len acc = len p).
  { apply (f_equal length) in Ha. unfold spec_latin in Ha. rewrite length_app, !length_map, Hd, length_app in Ha. lia. }
  apply wp_bind. apply wp_byte with p b q'; [done|done|done|]. intros Hb. unfold byte in Hb.
  assert (0 <= Z.land b 0x7f < 128) by (change 0x7f with (Z.ones 7); rewrite Z.land_ones by lia; apply Z.mod_pos_bound; lia).
  apply wp_bind. eapply wp_set16; [exact Hf|lia|lia|destruct ascii; lia|]. intros out1 Hf1.
  rewrite add32_id by lia. apply wp_mret. split; [lia|]. eexists _, (p ++ [b])%list, q'. split; [|exact Hf1]. rewrite Z.mul_1_l. split_and!.
  - by rewrite <- app_assoc.
  - rewrite length_app. cbn [length]. lia.
  - by rewrite <- Ha, <- app_assoc.
Qed.

Lemma pair_ind (P : list Z → Prop) : P [] → (∀ a, P [a]) → (∀ a b l, P l → P (a :: b :: l)) → ∀ l, P l.
Proof.
  intros H0 H1 H2. assert (H : ∀ n l, (length l <= n)%nat → P l); [|intros l; by apply (H (length l))].
  induction n as [|n IH]; intros [|a [|b l]] Hl; auto; cbn in Hl; try lia. apply H2, IH. lia.
Qed.

Lemma triple_ind (P : list Z → Prop) :
  P [] → (∀ a, P [a]) → (∀ a b, P [a; b]) → (∀ a b c l, P l → P (a :: b :: c :: l)) → ∀ l, P l.
Proof.
  intros H0 H1 H2 H3. assert (H : ∀ n l, (length l <= n)%nat → P l); [|intros l; by apply (H (length l))].
  induction n as [|n IH]; intros [|a [|b [|c l]]] Hl; auto; cbn in Hl; try lia. apply H3, IH. lia.
Qed.

Lemma spec_utf16_length bs : len (spec_utf16 bs) = len bs / 2.
Proof.
  induction bs as [|a|a b l IH] using pair_ind; [done|done|]. cbn [spec_utf16 length]. rewrite !Nat2Z.inj_succ, IH.
  replace (Z.succ (Z.succ (len l))) with (len l + 1 * 2) by lia. rewrite Z.div_add by lia. lia.
Qed.

Lemma toStr_utf16le_exact v (Q : list Z → unit → Prop) R s :
  view_ok v → Q (spec_utf16 (data v)) s → wp (toStr_utf16le v) Q R s.
Proof.
  intros Hv HQ. pose proof (vok_len v Hv). pose proof (data_length v Hv) as HL. unfold toStr_utf16le.
  assert (Hq : Z.quot (BLEN v) 2 = BLEN v / 2) by (apply Z.quot_div_nonneg; lia).
  assert (0 <= BLEN v / 2 <= BLEN v) by (split; [apply Z.div_pos; lia|apply Z.div_le_upper_bound; lia]).
  rewrite Hq. apply wp_fill_loop with spec_utf16 2; [done|done|rewrite spec_utf16_length, HL; lia| |done].
  intros u acc p q out s' Hd Hf. unfold utf16_step.
  destruct (decoding_len _ _ _ _ _ _ Hv Hd) as [HB Hi]. destruct Hd as (Hd & Hu & Ha).
  assert (Hacc : len acc = u).
  { apply (f_equal length) in Ha. rewrite length_app in Ha. pose proof (spec_utf16_length q). pose proof (spec_utf16_length (data v)) as Hx.
    rewrite HL, HB in Hx. replace (2 * u + len q) with (len q + u * 2) in Hx by lia. rewrite Z.div_add in Hx by lia. lia. }
  assert (Hlq : BLEN v / 2 = u + len q / 2) by (rewrite HB; replace (2 * u + len q) with (len q + u * 2) by lia; rewrite Z.div_add by lia; lia).
  rewrite Hq, ge_s_small by lia. destruct (Z.leb_spec (BLEN v / 2) u) as [Hle|Hgt].
  { apply wp_mret. assert (Hnil : spec_utf16 q = []) by (apply length_zero_iff_nil; pose proof (spec_utf16_length q); lia).
    rewrite Hnil, app_nil_r in Ha. rewrite <- Ha. apply (fills_full _ _ _ Hf). lia. }
  assert (H2 : 2 <= len q) by (destruct (Z.lt_ge_cases (len q) 2); [rewrite (Z.div_small (len q)) in Hlq by lia; lia|lia]).
  destruct q as [|b0 [|b1 q]]; [cbn in H2; lia|cbn in H2; lia|]. cbn [length] in HB.
  rewrite mul32_id by lia. rewrite !add32_id by lia.
  apply wp_bind. apply wp_byte with p b0 (b1 :: q); [done|done|lia|]. intros Hb0. unfold byte in Hb0.
  apply wp_bind. apply wp_byte with (p ++ [b0])%list b1 q; [done|by rewrite <- app_assoc|rewrite length_app; cbn [length]; lia|]. intros Hb1. unfold byte in Hb1.
  rewrite shl32_small by lia. rewrite lor_add by lia.
  apply wp_bind. eapply wp_set16; [exact Hf|lia|lia|lia|]. intros out1 Hf1.
  apply wp_mret. split; [lia|]. eexists _, (p ++ [b0; b1])%list, q. split; [|exact Hf1]. split_and!.
  - by rewrite <- app_assoc.
  - rewrite length_app. cbn [length]. lia.
  - rewrite <- Ha, <- app_assoc. cbn [spec_utf16 app]. do 2 f_equal. lia.
Qed.

(** ** base64 *)

Lemma alphabet_digit url x : 0 <= x < 64 → aget (alphabet url) x = Some (digit64 url x).
Proof.
  intros Hx. assert (H : forallb (λ k, bool_decide (aget (alphabet url) (Z.of_nat k) = Some (digit64 url (Z.of_nat k)))) (seq 0 64) = true)
    by (destruct url; vm_compute; reflexivity).
  rewrite forallb_forall in H. specialize (H (Z.to_nat x)). rewrite bool_decide_eq_true, Z2Nat.id in H by lia.
  apply H, in_seq. lia.
Qed.

Lemma digit64_range url x : 0 <= x < 64 → 0 <= digit64 url x < 128.
Proof. intros. unfold digit64. repeat case_match; zb; lia. Qed.

(** The six bits at position [k] of a 24-bit group. *)
Definition six (val k : Z) : Z := val / 2 ^ ((3 - k) * 6) mod 64.

Lemma wp_put_digits url val o n ks acc out (Q : list Z → unit → Prop) R s :
  fills n acc out → (∀ j k, ks !! j = Some k → k = Z.of_nat j ∧ k <= 3) → o = len acc → o + len ks <= n → n < 2 ^ 32 →
  (∀ out', fills n (acc ++ map (λ k, digit64 url (six val k)) ks) out' → Q out' s) → wp (put_digits url val o ks out) Q R s.
Proof.
  intros Hf Hks -> Hn Hn32 HQ.
  assert (Hgen : ∀ ks j acc' out, fills n acc' out → len acc' = len acc + Z.of_nat j →
    (∀ i k, ks !! i = Some k → k = Z.of_nat (j + i) ∧ k <= 3) → len acc + Z.of_nat j + len ks <= n →
    (∀ out', fills n (acc' ++ map (λ k, digit64 url (six val k)) ks) out' → Q out' s) → wp (put_digits url val (len acc) ks out) Q R s).
  2: { apply (Hgen ks 0%nat acc out); auto; lia. }
  clear Hf Hks Hn HQ ks out. intros ks. induction ks as [|k ks IH]; intros j acc' out Hf Hl Hks Hn HQ; cbn [put_digits].
  { apply wp_mret, HQ. by rewrite app_nil_r. }
  cbn [length] in Hn. destruct (Hks 0%nat k eq_refl) as [Hk Hk3].
  apply wp_bind. unfold put_digit. apply wp_bind.
  assert (Hsix : Z.land (Z.shiftr val ((3 - k) * 6)) 63 = six val k).
  { change 63 with (Z.ones 6). rewrite Z.land_ones, Z.shiftr_div_pow2 by lia. done. }
  assert (0 <= six val k < 64) by (apply Z.mod_pos_bound; lia).
  eapply wp_of_option; [rewrite Hsix; by apply alphabet_digit|].
  pose proof (digit64_range url (six val k)). rewrite add32_id by lia.
  eapply wp_set16; [exact Hf|lia|lia|lia|]. intros out' Hf'.
  apply (IH (S j) _ _ Hf'); [rewrite length_app; cbn [length]; lia| |lia|].
  - intros i k' Hi. destruct (Hks (S i) k' Hi). lia.
  - intros out'' Hf''. apply HQ. cbn [map]. by rewrite <- app_assoc in Hf''.
Qed.

Lemma wp_pad url n acc out o ks (Q : list Z → unit → Prop) R s :
  fills n acc out → n < 2 ^ 32 → (url = false → ∀ j k, ks !! j = Some k → o + k = len acc + Z.of_nat j) → (url = false → len acc + len ks <= n) → (0 <= o)%Z →
  (∀ out', fills n (acc ++ pad64 url (length ks)) out' → Q out' s) → wp (b64_pad url o ks out) Q R s.
Proof.
  intros Hf Hn32 Hks Hn Ho HQ. unfold b64_pad, pad64 in *. destruct url; [apply wp_mret, HQ; by rewrite app_nil_r|].
  specialize (Hks eq_refl). specialize (Hn eq_refl). revert Q HQ Hks Hn. induction ks as [|k ks IH] using rev_ind; intros Q HQ Hks Hn.
  { apply wp_mret, HQ. by rewrite app_nil_r. }
  rewrite rev_app_distr. cbn [rev app foldr]. rewrite length_app in Hn. cbn [length] in Hn. apply wp_bind. apply IH; [|intros j k' Hj; apply Hks; by apply lookup_app_l_Some|lia].
  intros out' Hf'. assert (Hk : o + k = len acc + len ks) by (apply Hks, list_lookup_middle; done).
  rewrite add32_id by lia. eapply wp_set16; [exact Hf'|rewrite length_app, length_replicate; lia|rewrite length_app, length_replicate; lia|lia|].
  intros out'' Hf''. apply HQ. rewrite length_app, Nat.add_comm. cbn [length]. rewrite <- app_assoc in Hf''.
  change (replicate (1 + length ks) 61) with (61 :: replicate (length ks) 61). by rewrite replicate_cons_app.
Qed.

Lemma spec_b64_length url bs : len (spec_b64 url bs) =
  if url then 4 * (len bs / 3) + (if len bs mod 3 =? 0 then 0 else len bs mod 3 + 1) else 4 * ((len bs + 2) / 3).
Proof.
  induction bs as [|a|a b|a b c l IH] using triple_ind; [by destruct url..|].
  cbn [spec_b64]. rewrite length_app, Nat2Z.inj_add, IH. cbn [length].
  replace (Z.of_nat (S (S (S (length l))))) with (len l + 1 * 3) by lia.
  rewrite Z.div_add, Z.mod_add by lia. replace (len l + 1 * 3 + 2) with (len l + 2 + 1 * 3) by lia. rewrite Z.div_add by lia.
  destruct url; lia.
Qed.

Lemma out_len_exact url bs : len bs < 2 ^ 31 - 8 → out_len url (len bs) = len (spec_b64 url bs).
Proof.
  intros Hl. rewrite spec_b64_length. unfold out_len.
  rewrite Z.rem_mod_nonneg, (add32_id _ 2) by lia. rewrite !Z.quot_div_nonneg by lia.
  pose proof (Z.div_mod (len bs) 3). pose proof (Z.mod_pos_bound (len bs) 3). pose proof (Z.div_mod (len bs + 2) 3). pose proof (Z.mod_pos_bound (len bs + 2) 3).
  destruct url; rewrite mul32_id by lia; [|lia]. destruct (Z.eqb_spec (len bs mod 3) 0); [rewrite add32_id by lia; lia|].
  rewrite (add32_id (len bs mod 3)) by lia. rewrite add32_id by lia. lia.
Qed.

Lemma six_digits a b c : byte a → byte b → byte c →
  let val := a * 2 ^ 16 + b * 2 ^ 8 + c in
  six val 0 = a / 4 ∧ six val 1 = a mod 4 * 16 + b / 16 ∧ six val 2 = b mod 16 * 4 + c / 64 ∧ six val 3 = c mod 64.
Proof.
  unfold byte, six. intros Ha Hb Hc. cbn zeta.
  replace ((3 - 0) * 6) with 18 by lia. replace ((3 - 1) * 6) with 12 by lia. replace ((3 - 2) * 6) with 6 by lia. replace ((3 - 3) * 6) with 0 by lia.
  change (2 ^ 18) with 262144. change (2 ^ 12) with 4096. change (2 ^ 6) with 64. change (2 ^ 0) with 1. change (2 ^ 16) with 65536. change (2 ^ 8) with 256.
  rewrite Z.div_1_r. Z.to_euclidean_division_equations. lia.
Qed.

Lemma b64_group_value a b c : byte a → byte b → byte c →
  Z.lor (Z.lor (shl32 a 16) (shl32 b 8)) c = a * 2 ^ 16 + b * 2 ^ 8 + c.
Proof.
  unfold byte. intros. rewrite !shl32_small by lia.
  replace (a * 2 ^ 16) with (a * 2 ^ 8 * 2 ^ 8) by lia. rewrite (Z.lor_comm (_ * _) (b * 2 ^ 8)).
  rewrite Z.lor_comm. replace (Z.lor (b * 2 ^ 8) (a * 2 ^ 8 * 2 ^ 8)) with ((b + a * 2 ^ 8) * 2 ^ 8); [rewrite lor_add by lia; lia|].
  replace (a * 2 ^ 8 * 2 ^ 8) with (a * 2 ^ 16) by lia. rewrite lor_add; lia.
Qed.

Lemma index_list_ok n : (n <= 4)%nat → ∀ j k, map Z.of_nat (seq 0 n) !! j = Some k → k = Z.of_nat j ∧ k <= 3.
Proof. intros Hn j k H. rewrite list_lookup_fmap, fmap_Some in H. destruct H as (i & Hi & ->). apply lookup_seq in Hi as [-> ?]. lia. Qed.

Lemma spec_b64_bound url bs : len bs < 2 ^ 31 - 8 → len (spec_b64 url bs) < 2 ^ 32.
Proof.
  intros. rewrite spec_b64_length. pose proof (Z.div_mod (len bs) 3). pose proof (Z.mod_pos_bound (len bs) 3).
  pose proof (Z.div_mod (len bs + 2) 3). pose proof (Z.mod_pos_bound (len bs + 2) 3). repeat case_match; lia.
Qed.

(** The last group: some digits, then the padding. *)
Lemma wp_b64_last url val j m acc out D (Q : list Z → unit → Prop) R s :
  acc ++ map (λ k, digit64 url (six val k)) (map Z.of_nat (seq 0 j)) ++ pad64 url m = D → (j + m = 4)%nat →
  fills (len D) acc out → len D < 2 ^ 32 → Q D s →
  wp (out <- put_digits url val (len acc) (map Z.of_nat (seq 0 j)) out;; b64_pad url (len acc) (map Z.of_nat (seq j m)) out) Q R s.
Proof.
  intros HD Hjm Hf Hn HQ. pose proof (f_equal length HD) as Hl. rewrite !length_app, !length_map, length_seq in Hl.
  apply wp_bind. eapply wp_put_digits; [exact Hf|apply index_list_ok; lia|done|rewrite length_map, length_seq; lia|done|].
  intros out1 Hf1. eapply wp_pad; [exact Hf1|done| | |lia|].
  - intros _ i k Hi. rewrite list_lookup_fmap, fmap_Some in Hi. destruct Hi as (i' & Hi & ->). apply lookup_seq in Hi as [-> ?].
    rewrite length_app, !length_map, length_seq. lia.
  - intros ->. unfold pad64 in Hl. rewrite length_replicate in Hl. rewrite length_app, !length_map, !length_seq. lia.
  - intros out2 Hf2. rewrite length_map, length_seq, <- app_assoc, HD in Hf2. by rewrite (fills_full _ _ _ Hf2).
Qed.

Lemma b64_loop_exact url v (Q : Z * Z * list Z → unit → Prop) R s :
  view_ok v →
  (∀ i acc p q out s, decoding (spec_b64 url) (data v) i acc p q → (length q < 3)%nat → fills (len (spec_b64 url (data v))) acc out →
     Q (i, len acc, out) s) →
  wp (loop (S (Z.to_nat (BLEN v))) (b64_step url v) (0, 0, zeros (out_len url (BLEN v)))) Q R s.
Proof.
  intros Hv HQ. pose proof (vok_len v Hv). pose proof (data_length v Hv) as HL. rewrite <- HL at 2. rewrite out_len_exact by lia.
  set (n := len (spec_b64 url (data v))) in *.
  assert (Hn32 : n < 2 ^ 32) by (apply spec_b64_bound; lia).
  apply wp_loop with (λ '(i, o, out) _, ∃ acc p q, decoding (spec_b64 url) (data v) i acc p q ∧ o = len acc ∧ fills n acc out) (λ '(i, _, _), BLEN v - i).
  { exists [], [], (data v). split_and!; [apply decoding_start|done|apply fills_zeros; lia]. }
  { lia. }
  intros [[i o] out] s' (acc & p & q & Hd & -> & Hf) _. unfold b64_step.
  destruct (decoding_len _ _ _ _ _ _ Hv Hd) as [HB Hi].
  rewrite !add32_id by lia. rewrite gt_s_small by lia. destruct (Z.ltb_spec (BLEN v) (i + 3)) as [Hlt|Hge].
  { apply wp_mret. apply (HQ i acc p q); [done|lia|done]. }
  destruct Hd as (Hd & -> & Ha). destruct q as [|a [|b [|c q]]]; cbn [length] in HB; try lia.
  apply wp_bind. apply wp_byte with p a (b :: c :: q); [done|done|lia|]. intros Hba.
  apply wp_bind. apply wp_byte with (p ++ [a])%list b (c :: q); [done|by rewrite <- app_assoc|rewrite length_app; cbn [length]; lia|]. intros Hbb.
  apply wp_bind. apply wp_byte with (p ++ [a; b])%list c q; [done|by rewrite <- app_assoc|rewrite length_app; cbn [length]; lia|]. intros Hbc.
  rewrite b64_group_value by done.
  assert (Hacc : len acc + 4 <= n). { subst n. rewrite <- Ha, length_app. cbn [spec_b64]. rewrite length_app. cbn [length]. lia. }
  apply wp_bind. eapply wp_put_digits; [exact Hf|apply (index_list_ok 4); lia|done|cbn [length]; lia|done|].
  intros out' Hf'. destruct (six_digits a b c Hba Hbb Hbc) as (H0 & H1 & H2 & H3). cbn [map] in Hf'. rewrite H0, H1, H2, H3 in Hf'.
  rewrite add32_id by lia. apply wp_mret. split; [|lia].
  eexists _, (p ++ [a; b; c])%list, q. split_and!; [| |exact Hf'].
  - split_and!; [by rewrite <- app_assoc|rewrite length_app; cbn [length]; lia|]. by rewrite <- Ha, <- app_assoc.
  - rewrite length_app. cbn [length]. lia.
Qed.

Lemma toStr_base64_exact url v (Q : list Z → unit → Prop) R s :
  view_ok v → Q (spec_b64 url (data v)) s → wp (toStr_base64 url v) Q R s.
Proof.
  intros Hv HQ. pose proof (vok_len v Hv) as Hlen. pose proof (data_length v Hv) as HL. destruct s. unfold toStr_base64.
  apply wp_bind. apply b64_loop_exact; [done|]. intros i acc p q out [] Hd Hq Hf.
  destruct (decoding_len _ _ _ _ _ _ Hv Hd) as [HB Hi]. destruct Hd as (Hd & -> & Ha).
  pose proof (spec_b64_bound url (data v)). rewrite sub32_id by lia. replace (BLEN v - len p) with (len q) by lia.
  destruct q as [|a [|b [|? ?]]]; cbn [length] in Hq |- *; [| | |lia].
  - rewrite app_nil_r in Ha. apply wp_mret. rewrite (fills_full _ _ _ Hf) by (rewrite <- Ha; lia). by rewrite Ha.
  - apply wp_bind. apply wp_byte with p a []; [done|done|lia|]. intros Hb. replace (shl32 a 16) with (a * 2 ^ 16 + 0 * 2 ^ 8 + 0) by (unfold byte in Hb; rewrite shl32_small; lia).
    apply (wp_b64_last url _ 2 2 acc out (spec_b64 url (data v))); [|lia|done|lia|done].
    destruct (six_digits a 0 0) as (H0 & H1 & _); [done|done|done|]. cbn [seq map Z.of_nat]. cbv zeta in *. change (Z.of_nat 0) with 0. change (Z.of_nat 1) with 1.
    rewrite H0, H1, <- Ha, (Z.div_0_l 16), Z.add_0_r by lia. done.
  - apply wp_bind. apply wp_byte with p a [b]; [done|done|lia|]. intros Hb. rewrite add32_id by lia.
    apply wp_bind. apply wp_byte with (p ++ [a])%list b []; [done|by rewrite <- app_assoc|rewrite length_app; cbn [length]; lia|]. intros Hbb.
    replace (Z.lor (shl32 a 16) (shl32 b 8)) with (a * 2 ^ 16 + b * 2 ^ 8 + 0) by (rewrite <- (b64_group_value a b 0) by done; apply Z.lor_0_r).
    apply (wp_b64_last url _ 3 1 acc out (spec_b64 url (data v))); [|lia|done|lia|done].
    destruct (six_digits a b 0) as (H0 & H1 & H2 & _); [done|done|done|]. cbn [seq map]. cbv zeta in *.
    change (Z.of_nat 0) with 0. change (Z.of_nat 1) with 1. change (Z.of_nat 2) with 2.
    rewrite H0, H1, H2, <- Ha, (Z.div_0_l 64), Z.add_0_r by lia. done.
Qed.

(** ** utf8 *)

(** What is still to come of a code point fits in the Unicode range. *)
Definition mid_ok (cp n lo hi : Z) : Prop :=
  0 <= cp ∧ 1 <= n <= 3 ∧ 0x80 <= lo ∧ hi <= 0xbf ∧ (cp * 64 + (hi - 0x80) + 1) * 64 ^ (n - 1) <= 0x110000.
Definition rel8 (st : st8) (u : u8) : Prop :=
  match st with
  | Start => NEEDED u = 0 ∧ LOWER u = 0x80 ∧ UPPER u = 0xbf
  | Mid cp n lo hi => u = mkU8 cp n lo hi ∧ mid_ok cp n lo hi
  end.
(** The loop's locals between two bytes. *)
Definition at8 (n : Z) (st : st8) (acc : list Z) (w : u8loop) : Prop := UO w = len acc ∧ fills n acc (SCRATCH w) ∧ rel8 st (U8 w).
Definition pending8 (st : st8) : Z := match st with Start => 0 | Mid _ _ _ _ => 1 end.

Lemma wp_store n x acc w (Q : u8loop → unit → Prop) R s :
  UO w = len acc → fills n acc (SCRATCH w) → len acc < n < 2 ^ 32 → 0 <= x < 2 ^ 16 →
  (∀ w', UI w' = UI w → U8 w' = U8 w → UO w' = len (acc ++ [x]) → fills n (acc ++ [x]) (SCRATCH w') → Q w' s) → wp (storeUnit x w) Q R s.
Proof.
  intros Ho Hf Hn Hx HQ. unfold storeUnit. apply wp_bind. eapply wp_set16; [exact Hf|done|lia|done|].
  intros out' Hf'. apply wp_mret, HQ; [done|done| |done]. cbn. rewrite Ho, length_app, add32_id by lia. cbn [length]. lia.
Qed.

Lemma land_ones_sub b k c : 0 <= k → c mod 2 ^ k = 0 → c <= b < c + 2 ^ k → Z.land b (Z.ones k) = b - c.
Proof.
  intros Hk Hc Hb. rewrite Z.land_ones by lia. pose proof (Z.div_mod c (2 ^ k)) as E.
  symmetry. apply Z.mod_unique with (c / 2 ^ k); lia.
Qed.

Lemma wp_lead_byte n b acc w (Q : u8loop → unit → Prop) R s :
  byte b → at8 n Start acc w → len acc < n < 2 ^ 32 →
  (∀ w', UI w' = UI w → at8 n (lead8 b).1 (acc ++ (lead8 b).2) w' → Q w' s) → wp (lead_byte b w) Q R s.
Proof.
  intros Hb (Ho & Hf & HN & HL & HU) Hn HQ. unfold byte in Hb. unfold lead_byte, lead8 in *. rewrite HL, HU.
  destruct (Z.leb_spec b 0x7f) as [|H7].
  { eapply wp_store; [done|done|done|lia|]. intros w' ? E ? ?. apply HQ; [done|]. split_and!; [done|done|]. by rewrite E. }
  destruct (Z.ltb_spec b 0xc2) as [|H8].
  { rewrite (proj2 (Z.leb_gt 0xc2 b)), (proj2 (Z.leb_gt 0xe0 b)), (proj2 (Z.leb_gt 0xf0 b)) by lia. cbn [andb].
    eapply wp_store; [done|done|done|lia|]. intros w' ? E ? ?. apply HQ; [done|]. split_and!; [done|done|]. by rewrite E. }
  rewrite (proj2 (Z.leb_le 0xc2 b)) by lia. cbn [andb].
  destruct (Z.leb_spec b 0xdf) as [|H9].
  { apply wp_mret, HQ; [done|]. split_and!; [by rewrite app_nil_r|by rewrite app_nil_r|].
    change 0x1f with (Z.ones 5). rewrite (land_ones_sub b 5 0xc0) by (done || lia). split; [done|]. unfold mid_ok. change (64 ^ (1 - 1)) with 1. lia. }
  rewrite (proj2 (Z.leb_le 0xe0 b)) by lia. cbn [andb].
  destruct (Z.leb_spec b 0xef) as [|H10].
  { apply wp_mret, HQ; [done|]. split_and!; [by rewrite app_nil_r|by rewrite app_nil_r|].
    change 0xf with (Z.ones 4). rewrite (land_ones_sub b 4 0xe0) by (done || lia). split; [done|]. unfold mid_ok. change (64 ^ (2 - 1)) with 64.
    repeat case_match; zb; lia. }
  rewrite (proj2 (Z.leb_le 0xf0 b)) by lia. cbn [andb].
  destruct (Z.leb_spec b 0xf4) as [|H11].
  { apply wp_mret, HQ; [done|]. split_and!; [by rewrite app_nil_r|by rewrite app_nil_r|].
    change 0x7 with (Z.ones 3). rewrite (land_ones_sub b 3 0xf0) by (done || lia). split; [done|]. unfold mid_ok. change (64 ^ (3 - 1)) with 4096.
    repeat case_match; zb; lia. }
  eapply wp_store; [done|done|done|lia|]. intros w' ? E ? ?. apply HQ; [done|]. split_and!; [done|done|]. by rewrite E.
Qed.

Lemma wp_next_out n b cp m lo hi acc w (Q : u8loop → unit → Prop) R s :
  at8 n (Mid cp m lo hi) acc w → len acc < n < 2 ^ 32 → (b <? lo) || (hi <? b) = true →
  (∀ w', UI w' = sub32 (UI w) 1 → at8 n Start (acc ++ [0xfffd]) w' → Q w' s) → wp (next_byte b w) Q R s.
Proof.
  intros (Ho & Hf & Hu & Hm) Hn Hb HQ. unfold next_byte. rewrite Hu. cbn. rewrite Hb. apply wp_bind.
  eapply wp_store; [exact Ho|exact Hf|exact Hn|lia|]. intros w' Hui E Ho' Hf'. apply wp_mret, HQ; [cbn; by rewrite Hui|].
  by split_and!.
Qed.

Lemma next_cp cp b : 0 <= cp < 2 ^ 24 → 0x80 <= b <= 0xbf → Z.lor (shl32 cp 6) (Z.land b 0x3f) = 64 * cp + (b - 0x80).
Proof.
  intros. change 0x3f with (Z.ones 6). rewrite (land_ones_sub b 6 0x80) by (done || lia).
  rewrite shl32_small by lia. rewrite Z.lor_comm, lor_add by lia. lia.
Qed.

Lemma wp_next_in n b cp m lo hi acc w (Q : u8loop → unit → Prop) R s :
  at8 n (Mid cp m lo hi) acc w → len acc + 2 <= n < 2 ^ 32 → lo <= b <= hi →
  (∀ w', UI w' = UI w → at8 n (byte8 (Mid cp m lo hi) b).1 (acc ++ (byte8 (Mid cp m lo hi) b).2) w' → Q w' s) → wp (next_byte b w) Q R s.
Proof.
  intros (Ho & Hf & Hu & H0 & Hm & Hlo & Hhi & Hcp) Hn Hb HQ. unfold next_byte. rewrite Hu in *. cbn [CP NEEDED LOWER UPPER]. cbn [byte8] in HQ.
  replace ((b <? lo) || (hi <? b)) with false in * by (symmetry; apply orb_false_iff; rewrite !Z.ltb_ge; lia).
  assert (Hc24 : cp * 64 < 0x110000) by (assert (1 <= 64 ^ (m - 1)) by (apply Z.pow_le_mono_r with (b := 0); lia); nia).
  rewrite next_cp by lia. rewrite sub32_id by lia. set (cp' := 64 * cp + (b - 0x80)) in *.
  destruct (Z.eqb_spec m 1) as [->|Hm1]; cbn zeta in *.
  2: { rewrite (proj2 (Z.eqb_neq (m - 1) 0)) by lia. apply wp_mret, HQ; [done|]. split_and!; [by rewrite app_nil_r|by rewrite app_nil_r|].
    split; [done|]. unfold mid_ok. replace (0xbf - 0x80 + 1) with 64 by lia. split_and!; [lia..|].
    replace (m - 1) with (Z.succ (m - 1 - 1)) in Hcp by lia. rewrite Z.pow_succ_r in Hcp by lia. nia. }
  change (1 - 1 =? 0) with true. cbn iota. change (64 ^ (1 - 1)) with 1 in Hcp. unfold units in HQ.
  destruct (Z.leb_spec cp' 0xffff) as [Hs|Hs].
  { eapply wp_store; [exact Ho|exact Hf|lia|lia|]. intros w' ? E ? ?. apply HQ; [done|]. split_and!; [done|done|]. by rewrite E. }
  rewrite sub32_id by lia. change 0x3ff with (Z.ones 10). rewrite Z.land_ones, Z.shiftr_div_pow2 by lia. change (2 ^ 10) with 1024 in *.
  pose proof (Z.mod_pos_bound (cp' - 0x10000) 1024). pose proof (Z.div_pos (cp' - 0x10000) 1024).
  assert ((cp' - 0x10000) / 1024 < 1024) by (apply Z.div_lt_upper_bound; lia).
  rewrite !add32_id by lia. apply wp_bind.
  eapply wp_store; [exact Ho|exact Hf|lia|lia|]. intros w' Hui E Ho' Hf'.
  eapply wp_store; [exact Ho'|exact Hf'|rewrite length_app; cbn [length]; lia|lia|]. intros w2 Hui2 E2 Ho2 Hf2.
  rewrite <- app_assoc in Ho2, Hf2. cbn [app] in Ho2, Hf2. apply HQ; [by rewrite Hui2, Hui|]. split_and!; [done|done|]. by rewrite E2, E.
Qed.

Definition inv8 (v : bview) (w : u8loop) : Prop := ∃ st acc p q,
  data v = p ++ q ∧ UI w = len p ∧ acc ++ run8 st q = run8 Start (data v) ∧ at8 (BLEN v) st acc w ∧ len acc + pending8 st <= len p.
Definition measure8 (v : bview) (w : u8loop) : Z := 2 * (BLEN v - UI w) + (if NEEDED (U8 w) =? 0 then 0 else 1).

Lemma rel8_needed st u : rel8 st u → (NEEDED u =? 0) = match st with Start => true | _ => false end.
Proof. destruct st; [intros (-> & _); done|intros (-> & _ & ? & _)]. cbn. apply Z.eqb_neq. lia. Qed.

(** One byte in the abstract: the output it adds fits in what was read. *)
Lemma byte8_room st b : let '(st', o) := byte8 st b in (∀ cp n lo hi, st = Mid cp n lo hi → lo <= b <= hi) → len o + pending8 st' <= 1 + pending8 st.
Proof.
  destruct st as [|cp n lo hi]; cbn [byte8].
  - unfold lead8. repeat case_match; simplify_eq; intros _; cbn; lia.
  - destruct ((b <? lo) || (hi <? b)) eqn:E.
    + destruct (lead8 b). intros H. specialize (H _ _ _ _ eq_refl). apply orb_true_iff in E. rewrite !Z.ltb_lt in E. lia.
    + cbn zeta. destruct (n =? 1); [|cbn; lia]. unfold units. case_match; cbn; lia.
Qed.

(** The invariant after a byte that was consumed. *)
Lemma inv8_consume v w w' st acc p b q :
  BLEN v = len p + Z.of_nat (S (length q)) → data v = p ++ b :: q → UI w = len p → acc ++ run8 st (b :: q) = run8 Start (data v) →
  len acc + pending8 st <= len p → measure8 v w = 2 * (BLEN v - UI w) + pending8 st → UI w' = UI w + 1 →
  (∀ cp n lo hi, st = Mid cp n lo hi → lo <= b <= hi) → at8 (BLEN v) (byte8 st b).1 (acc ++ (byte8 st b).2) w' →
  inv8 v w' ∧ 0 <= measure8 v w' < measure8 v w.
Proof.
  intros HB Hd Hui Hrun Hroom Hm Hw' Hin Hat. pose proof (byte8_room st b) as Hbr. cbn [run8] in Hrun.
  destruct (byte8 st b) as [st' o]. specialize (Hbr Hin). split.
  - exists st', (acc ++ o)%list, (p ++ [b])%list, q. split_and!; [by rewrite <- app_assoc|rewrite length_app; cbn [length]; lia|by rewrite <- app_assoc|apply Hat..|].
    rewrite !length_app. cbn [length]. lia.
  - rewrite Hm. unfold measure8. assert (0 <= (if NEEDED (U8 w') =? 0 then 0 else 1) <= 1) by (case_match; lia). destruct st; cbn [pending8] in *; lia.
Qed.

Lemma utf8_step_ok v w s : view_ok v → inv8 v w →
  wp (utf8_step v w) (λ r s', match r with
    | inl w' => inv8 v w' ∧ 0 <= measure8 v w' < measure8 v w
    | inr w' => w' = w ∧ BLEN v <= UI w
    end) (λ _ _, False) s.
Proof.
  intros Hv (st & acc & p & q & Hd & Hui & Hrun & (Ho & Hf & Hr) & Hroom). unfold utf8_step.
  pose proof (vok_len v Hv) as Hlen. pose proof (data_length v Hv) as HL.
  assert (HB : BLEN v = len p + len q) by (rewrite <- HL, Hd, length_app; lia).
  destruct (Z.leb_spec (BLEN v) (UI w)) as [Hle|Hgt]; [by apply wp_mret|].
  destruct q as [|b q]; cbn [length] in HB; [lia|].
  apply wp_bind. apply wp_byte with p b q; [done|done|done|]. intros Hb. rewrite add32_id by lia.
  set (w1 := mkLoop (UI w + 1) (UO w) (SCRATCH w) (U8 w)). apply wp_bind. cbn zeta.
  change (U8 w1) with (U8 w). rewrite (rel8_needed st) by done.
  assert (Hm : measure8 v w = 2 * (BLEN v - UI w) + pending8 st) by (unfold measure8; rewrite (rel8_needed st) by done; by destruct st).
  assert (Hacc : len acc + pending8 st + 1 <= BLEN v) by lia.
  assert (Hgo : ∀ w', UI w' = UI w + 1 → (∀ cp n lo hi, st = Mid cp n lo hi → lo <= b <= hi) →
            at8 (BLEN v) (byte8 st b).1 (acc ++ (byte8 st b).2) w' → inv8 v w' ∧ 0 <= measure8 v w' < measure8 v w).
  { intros w' Hw'. apply (inv8_consume v w w' st acc p b q); first [done|lia]. }
  destruct st as [|cp m lo hi].
  - eapply wp_lead_byte with (n := BLEN v) (acc := acc); [done|by split_and!|cbn in Hacc; lia|].
    intros w' Hw' Hat. apply wp_mret. apply Hgo; [by rewrite Hw'|done|exact Hat].
  - destruct ((b <? lo) || (hi <? b)) eqn:E.
    + eapply wp_next_out with (n := BLEN v) (acc := acc) (cp := cp) (m := m) (lo := lo) (hi := hi); [by split_and!|cbn in Hacc; lia|exact E|].
      intros w' Hw' Hat. change (UI w1) with (UI w + 1) in Hw'. rewrite sub32_id in Hw' by lia. apply wp_mret.
      split; [|unfold measure8 at 1 2; rewrite (rel8_needed Start) by apply Hat; cbn [pending8] in *; lia].
      exists Start, (acc ++ [0xfffd])%list, p, (b :: q). split_and!; [done|lia| |apply Hat..|rewrite length_app; cbn in *; lia].
      rewrite <- Hrun, <- app_assoc. cbn [run8 byte8]. rewrite E. by destruct (lead8 b).
    + apply orb_false_iff in E. rewrite !Z.ltb_ge in E.
      eapply wp_next_in with (n := BLEN v) (acc := acc) (cp := cp) (m := m) (lo := lo) (hi := hi); [by split_and!|cbn in Hacc; lia|lia|].
      intros w' Hw' Hat. apply wp_mret. apply Hgo; [by rewrite Hw'|intros ? ? ? ? [= -> -> -> ->]; lia|exact Hat].
Qed.

Lemma toStr_utf8_exact v (Q : list Z → unit → Prop) R s : view_ok v → Q (run8 Start (data v)) s → wp (toStr_utf8 v) Q R s.
Proof.
  intros Hv HQ. pose proof (vok_len v Hv) as Hlen. pose proof (data_length v Hv) as HL. destruct s. unfold toStr_utf8. apply wp_bind.
  apply wp_loop with (λ w _, inv8 v w) (measure8 v).
  - exists Start, [], [], (data v). split_and!; try done. split_and!; try done. apply fills_zeros. cbn. lia.
  - unfold measure8. cbn. lia.
  - intros w s Hw _. eapply wp_mono; [by apply utf8_step_ok| |done]. intros [w'|w'] s'; [done|]. intros [-> Hle].
    destruct Hw as (st & acc & p & q & Hd & Hui & Hrun & (Ho & Hf & Hr) & Hroom).
    assert (HB : BLEN v = len p + len q) by (rewrite <- HL, Hd, length_app; lia).
    destruct q; [|cbn [length] in HB; lia]. cbn [length run8] in *. pose proof (rel8_needed _ _ Hr) as Hnd. apply wp_bind.
    assert (Hend : ∀ out o, fills (BLEN v) (run8 Start (data v)) out → o = len (run8 Start (data v)) → wp (emitStrFromScratch out o) Q R s').
    { intros out o (m & -> & Hm) ->. unfold emitStrFromScratch. destruct s'. eapply wp_of_option; [|exact HQ]. set (D := run8 Start (data v)).
      unfold zeros. rewrite Nat2Z.id. pose proof (acopy_app [] (replicate (length D) 0) [] [] D (replicate m 0) 0 0 (len D)) as Hc.
      rewrite !app_nil_r in Hc. cbn [app] in Hc. apply Hc; rewrite ?length_replicate; done. }
    destruct st as [|cp m lo hi]; cbn [flush8] in Hrun.
    + destruct Hr as (HN & _). rewrite HN. apply wp_mret. rewrite app_nil_r in Hrun. apply Hend; rewrite <- Hrun; done.
    + destruct Hr as (Hu & Hm). rewrite Hu. cbn [NEEDED]. destruct (Z.ltb_spec 0 m); [|unfold mid_ok in Hm; lia].
      eapply wp_store; [exact Ho|exact Hf|cbn [pending8] in *; lia|lia|]. intros w' _ _ Ho' Hf'. rewrite Hrun in Ho', Hf'. by apply Hend.
Qed.

(** Every decoder of Buffer.toString (hex, base64, base64url, latin1, ascii,
    utf16le, utf8) terminates without a trap on any view of a storage array and
    returns the reference decoding of the view's bytes. *)
Theorem toStr_exact (e : enc) (v : bview) : view_ok v → toStr e v tt = (Val (decode e (data v)), tt).
Proof.
  intros Hv. assert (H : wp (toStr e v) (λ u _, u = decode e (data v)) (λ _ _, False) tt).
  { destruct e; cbn [toStr decode]; [apply toStr_utf8_exact|apply toStr_utf16le_exact|apply toStr_base64_exact|apply toStr_base64_exact|apply toStr_latin_exact|apply toStr_latin_exact|apply toStr_hex_exact]; done. }
  apply wp_run in H as (u & [] & -> & ->). done.
Qed.
