(* ===== verification/StringDecoder.v ===== *)
(** * node:string_decoder on the WasmGC tier

    The three functions the interned %strdec helpers thread a decoder's state
    through (src/packages/compiler/src/backend/wasm/strdec.ts): [write], [next]
    and [end_].  The state is one f64 that packs a count and at most three held
    bytes.  The main theorem: however a byte sequence is cut into chunks, the
    strings written for the chunks and the final flush concatenate to what
    Buffer.toString gives for the whole sequence. *)

From S2P Require Import Prelude F64 Arrays BytesDecode.

#[local] Open Scope arr_scope.

(** ** The helpers *)

Definition ENCODINGS : list (string * enc) :=
  [("utf8", Utf8); ("utf16le", Utf16le); ("base64", Base64); ("base64url", Base64url); ("latin1", Latin1); ("ascii", Ascii); ("hex", Hex)].
Definition E_UTF8 : Z := 1.
Definition E_UTF16 : Z := 2.
Definition E_B64 : Z := 3.
Definition E_B64URL : Z := 4.

(** [%w.strdec.code]; a name outside the table is unreachable. *)
Fixpoint code_from (i : Z) (es : list (string * enc)) (name : string) : BM Z :=
  match es with
  | [] => trap
  | (n, _) :: es => if String.eqb name n then mret (i + 1) else code_from (i + 1) es name
  end.
Definition codeHelper (name : string) : BM Z := code_from 0 ENCODINGS name.

(** [%w.strdec.viewDecode] and [%w.strdec.decodeView]. *)
Fixpoint decode_from (i : Z) (es : list (string * enc)) (code : Z) (v : bview) : BM (list Z) :=
  match es with
  | [] => trap
  | (_, e) :: es => if code =? i + 1 then toStr e v else decode_from (i + 1) es code v
  end.
Definition viewDecode (code : Z) (storage : list Z) (off n : Z) : BM (list Z) := decode_from 0 ENCODINGS code (mkView storage off n).
Definition decodeView (code : Z) (buf : list Z) (n : Z) : BM (list Z) := viewDecode code buf 0 n.

Definition unpack (pending : num) (out : list Z) : BM (Z * list Z) :=
  p <- of_option (trunc_u32 pending);;
  let n := Z.land p 0xff in
  if 3 <? n then trap
  else
    out <- set8 out 0 (Z.shiftr p 8);;
    out <- set8 out 1 (Z.shiftr p 16);;
    out <- set8 out 2 (Z.shiftr p 24);;
    mret (n, out).

(** One byte folded into the packed state, when the count covers it. *)
Definition pack_byte (buf : list Z) (from n k p : Z) : BM Z :=
  if k <? n then b <- of_option (aget buf (add32 from k));; mret (Z.lor p (shl32 b (8 * (k + 1)))) else mret p.
Definition pack (buf : list Z) (from n : Z) : BM num :=
  if 3 <? n then trap
  else
    p <- pack_byte buf from n 0 n;;
    p <- pack_byte buf from n 1 p;;
    p <- pack_byte buf from n 2 p;;
    mret (num_of_Z p).

(** The length of a sequence by its first byte. *)
Definition need_of (b : Z) : Z :=
  if Z.land b 0xf8 =? 0xf0 then 4 else if Z.land b 0xf0 =? 0xe0 then 3 else if Z.land b 0xe0 =? 0xc0 then 2 else 0.
Definition tail_step (buf : list Z) (n back : Z) : BM (Z + Z) :=
  if gt_s back n || gt_s back 3 then mret (inr 0)
  else
    b <- of_option (aget buf (sub32 n back));;
    if Z.land b 0xc0 =? 0x80 then mret (inl (add32 back 1))
    else mret (inr (if gt_s (need_of b) back then back else 0)).
Definition utf8Tail (buf : list Z) (n : Z) : BM Z := loop 5 (tail_step buf n) 1.

Definition emitResult (code : Z) (buf : list Z) (n tail : Z) : BM (list Z * num) :=
  s <- decodeView code buf (sub32 n tail);;
  p <- pack buf (sub32 n tail) tail;;
  mret (s, p).

(** The units utf16le holds back from the rest after a filled unit. *)
Definition utf16_keep (buf : list Z) (n rest : Z) : BM Z :=
  if negb (Z.land rest 1 =? 0) then mret (sub32 rest 1)
  else if ge_s rest 2 then
    u <- of_option (aget buf (sub32 n 1));;
    mret (if Z.land u 0xfc =? 0xd8 then sub32 rest 2 else rest)
  else mret rest.

(** What [%w.strdec.step] does once the joint buffer is filled. *)
Definition step_joint (code k : Z) (buf : list Z) (n : Z) : BM (list Z * num) :=
  if code =? E_UTF8 then tail <- utf8Tail buf n;; emitResult code buf n tail
  else if (code =? E_B64) || (code =? E_B64URL) then emitResult code buf n (Z.rem n 3)
  else if negb (code =? E_UTF16) then trap
  else
    let start := if k =? 0 then 0 else if k =? 1 then 2 else 4 in
    if negb (k =? 0) && gt_s start n then p <- pack buf 0 n;; mret ([], p)
    else
      let rest := sub32 n start in
      keep <- utf16_keep buf n rest;;
      emitResult code buf n (sub32 n (add32 start keep)).

(** [%w.strdec.step]. *)
Definition step (name : string) (pend : num) (ch : bview) : BM (list Z * num) :=
  code <- codeHelper name;;
  if E_B64URL <? code then
    s <- viewDecode code (STORAGE ch) (BOFF ch) (BLEN ch);; mret (s, Fin 0)
  else
    '(k, buf) <- unpack pend (zeros (add32 (BLEN ch) 3));;
    buf <- of_option (acopy buf k (STORAGE ch) (BOFF ch) (BLEN ch));;
    step_joint code k buf (add32 k (BLEN ch)).

Definition write (name : string) (pend : num) (ch : bview) : BM (list Z) := r <- step name pend ch;; mret r.1.
Definition next (name : string) (pend : num) (ch : bview) : BM num := r <- step name pend ch;; mret r.2.
Definition end_ (name : string) (pend : num) : BM (list Z) :=
  code <- codeHelper name;;
  if E_B64URL <? code then mret []
  else
    '(k, buf) <- unpack pend (zeros 3);;
    decodeView code buf (if code =? E_UTF16 then Z.land k (2 ^ 32 - 2) else k).

(** A decoder fed with chunks: [write] and [next] at each chunk, then [end]. *)
Fixpoint feed (name : string) (pend : num) (chunks : list bview) : BM (list Z) :=
  match chunks with
  | [] => end_ name pend
  | ch :: chunks =>
      s <- write name pend ch;;
      p <- next name pend ch;;
      rest <- feed name p chunks;;
      mret (s ++ rest)%list
  end.

Example sample_feed :
  (feed "utf8" (Fin 0) (map bytes_view [[0x68; 0xc3]; [0xa9; 0xe2]; []; [0x82; 0xf0]; [0x9f; 0x98]; [0x80; 0xed]]) tt).1 =
    Val [0x68; 0xe9; 0xfffd; 0xd83d; 0xde00; 0xfffd] ∧
  (feed "utf16le" (Fin 0) (map bytes_view [[0x3d]; [0xd8; 0]; [0xde; 7]]) tt).1 = Val [0xd83d; 0xde00] ∧
  (feed "base64" (Fin 0) (map bytes_view [[0x68]; [0xc3]; [0xa9; 0xe2]]) tt).1 = Val (codes "aMOp4g==").
Proof. vm_compute. done. Qed.

(** ** Where a decoding can be cut *)

(** [p] decoded alone, then what follows it decoded afresh. *)
Definition cut (e : enc) (p q : list Z) : Prop := ∀ rest, decode e (p ++ q ++ rest) = decode e p ++ decode e (q ++ rest).

Lemma cut_utf16 p q : Z.Even (len p) → cut Utf16le p q.
Proof.
  intros Hp rest. cbn [decode]. generalize (q ++ rest)%list. clear q rest. intros q. induction p as [|a|a b p IH] using pair_ind; [done| |].
  - destruct Hp as [k Hk]. cbn [length] in Hk. lia.
  - cbn [app spec_utf16]. rewrite IH; [done|]. destruct Hp as [k Hk]. exists (k - 1). cbn [length] in Hk. lia.
Qed.

Lemma cut_b64 (url : bool) p q : (3 | len p) → cut (if url then Base64url else Base64) p q.
Proof.
  intros Hp rest. assert (E : ∀ l, decode (if url then Base64url else Base64) l = spec_b64 url l) by (by destruct url).
  rewrite !E. generalize (q ++ rest)%list. clear q rest E. intros q. induction p as [|a|a b|a b c p IH] using triple_ind; [done| | |].
  - destruct Hp as [k Hk]. cbn [length] in Hk. lia.
  - destruct Hp as [k Hk]. cbn [length] in Hk. lia.
  - cbn [app spec_b64]. rewrite IH; [done|]. destruct Hp as [k Hk]. exists (k - 1). cbn [length] in Hk. lia.
Qed.

(** *** utf8 *)

Fixpoint after8 (s : st8) (bs : list Z) : st8 := match bs with [] => s | b :: bs => after8 (byte8 s b).1 bs end.
Fixpoint outs8 (s : st8) (bs : list Z) : list Z := match bs with [] => [] | b :: bs => (byte8 s b).2 ++ outs8 (byte8 s b).1 bs end.

Lemma run8_app s p q : run8 s (p ++ q) = outs8 s p ++ run8 (after8 s p) q.
Proof. revert s. induction p as [|b p IH]; intros s; [done|]. cbn. destruct (byte8 s b) as [s' o]. cbn. by rewrite IH, <- app_assoc. Qed.
Lemma run8_flush s p : run8 s p = outs8 s p ++ flush8 (after8 s p).
Proof. rewrite <- (app_nil_r p) at 1. by rewrite run8_app. Qed.
Lemma after8_app s p q : after8 s (p ++ q) = after8 (after8 s p) q.
Proof. revert s. induction p as [|b p IH]; intros s; cbn; auto. Qed.

Definition cont (b : Z) : Prop := 0x80 <= b <= 0xbf.
#[local] Instance cont_dec b : Decision (cont b).
Proof. unfold cont. apply _. Defined.
(** At most [m] bytes are missing. *)
Definition upto (m : Z) (s : st8) : Prop := match s with Start => True | Mid _ n lo hi => 1 <= n <= m ∧ 0x80 <= lo ∧ hi <= 0xbf end.

Lemma upto_Start s : upto 0 s → s = Start.
Proof. destruct s; [done|]. cbn. lia. Qed.

Lemma upto_mono m m' s : m <= m' → upto m s → upto m' s.
Proof. destruct s; [done|]. cbn. lia. Qed.

Lemma lead8_cont b : cont b → lead8 b = (Start, [0xfffd]).
Proof. intros H. unfold cont in H. unfold lead8. repeat case_match; zb; try lia; done. Qed.

Lemma byte8_cont m s b : cont b → upto m s → upto (m - 1) (byte8 s b).1.
Proof.
  intros Hb Hs. destruct s as [|cp n lo hi]; cbn [byte8]; [by rewrite lead8_cont|].
  case_match; [by rewrite lead8_cont|]. cbn in Hs. destruct (Z.eqb_spec n 1); cbn; [done|lia].
Qed.

Lemma after8_cont m s c : Forall cont c → upto m s → upto (m - len c) (after8 s c).
Proof.
  intros Hc. revert m s. induction Hc as [|b c Hb Hc IH]; intros m s Hs; cbn [after8 length]; [by rewrite Z.sub_0_r|].
  replace (m - Z.of_nat (S (length c))) with (m - 1 - len c) by lia. by apply IH, byte8_cont.
Qed.

Lemma need_of_lead b : byte b → ¬ cont b → upto (need_of b - 1) (lead8 b).1.
Proof.
  intros Hb Hc. assert (H : forallb (λ k, let b := Z.of_nat k in ((0x80 <=? b) && (b <=? 0xbf)) ||
      match (lead8 b).1 with Start => true | Mid _ n lo hi => (1 <=? n) && (n <=? need_of b - 1) && (0x80 <=? lo) && (hi <=? 0xbf) end) (seq 0 256) = true)
    by (vm_compute; reflexivity).
  rewrite forallb_forall in H. unfold byte in Hb. specialize (H (Z.to_nat b)). rewrite in_seq, Z2Nat.id in H by lia.
  specialize (H ltac:(lia)). cbn zeta in H. apply orb_true_iff in H as [H|H]; [exfalso; apply Hc; unfold cont; zb; lia|].
  destruct (lead8 b).1; [done|]. cbn. zb. lia.
Qed.

Lemma byte8_lead m s b : ¬ cont b → upto m s → (byte8 s b).1 = (lead8 b).1.
Proof.
  intros Hc Hs. destruct s as [|cp n lo hi]; [done|]. cbn in *. case_match eqn:E; [by destruct (lead8 b)|].
  apply orb_false_iff in E as [??]. zb. exfalso. apply Hc. unfold cont. lia.
Qed.

Lemma after8_upto bs : Forall byte bs → upto 3 (after8 Start bs).
Proof.
  assert (H : ∀ s, upto 3 s → Forall byte bs → upto 3 (after8 s bs)); [|by apply H].
  induction bs as [|b bs IH]; intros s Hs Hb; [done|]. inversion Hb as [|? ? Hb1 Hb2]. subst. apply IH; [|done].
  destruct (decide (cont b)) as [Hc|Hc]; [apply (upto_mono (3 - 1)); [lia|by apply byte8_cont]|].
  rewrite (byte8_lead 3) by done. apply (upto_mono (need_of b - 1)); [|by apply need_of_lead].
  unfold need_of. repeat case_match; lia.
Qed.

Lemma cut_utf8_start p q : after8 Start p = Start → cut Utf8 p q.
Proof. intros Hp rest. cbn [decode]. rewrite run8_app, (run8_flush Start p), Hp. cbn. by rewrite app_nil_r. Qed.

Lemma cut_utf8_lead p b q : Forall byte p → ¬ cont b → cut Utf8 p (b :: q).
Proof.
  intros Hp Hc rest. cbn [decode app]. rewrite run8_app, (run8_flush Start p), <- app_assoc. f_equal.
  pose proof (after8_upto p Hp) as Hu. destruct (after8 Start p) as [|cp n lo hi]; [done|]. cbn in Hu. cbn [flush8 app run8 byte8].
  destruct ((b <? lo) || (hi <? b)) eqn:E; [by destruct (lead8 b)|].
  apply orb_false_iff in E as [??]. zb. exfalso. apply Hc. unfold cont. lia.
Qed.

(** ** The packed state *)

Definition packed (t : list Z) : Z := len t + 256 * le_val t.

(** At most three bytes, by their number. *)
Lemma three_cases (t : list Z) : len t <= 3 → t = [] ∨ (∃ a, t = [a]) ∨ (∃ a b, t = [a; b]) ∨ (∃ a b c, t = [a; b; c]).
Proof. destruct t as [|a [|b [|c [|]]]]; cbn; intros; [eauto 10..|lia]. Qed.

Lemma packed_range t : Forall byte t → len t <= 3 → 0 <= packed t < 2 ^ 32.
Proof.
  intros Ht Hl. unfold packed. destruct (three_cases t Hl) as [->|[(a & ->)|[(a & b & ->)|(a & b & c & ->)]]];
    rewrite ?Forall_cons in Ht; unfold byte in Ht; cbn [length le_val]; lia.
Qed.

Lemma trunc_packed t : Forall byte t → len t <= 3 → trunc_u32 (num_of_Z (packed t)) = Some (packed t).
Proof.
  intros Ht Hl. pose proof (packed_range t Ht Hl) as Hr. pose proof ONE_pos. rewrite num_of_Z_int by lia. unfold trunc_u32.
  rewrite (proj2 (Z.ltb_lt _ _)), (proj2 (Z.ltb_lt _ _)) by nia. cbn [andb]. by rewrite Z.quot_mul by lia.
Qed.

Lemma packed_fields t : Forall byte t → len t <= 3 →
  Z.land (packed t) 0xff = len t ∧ Z.shiftr (packed t) 8 = le_val t ∧
  ∀ m, (3 <= m)%nat → ∃ x y z, [x mod 2 ^ 8; y mod 2 ^ 8; z mod 2 ^ 8] = t ++ replicate (3 - length t) 0 ∧
    x = Z.shiftr (packed t) 8 ∧ y = Z.shiftr (packed t) 16 ∧ z = Z.shiftr (packed t) 24.
Proof.
  intros Ht Hl. change 0xff with (Z.ones 8). rewrite Z.land_ones, !Z.shiftr_div_pow2 by lia. unfold packed.
  change (2 ^ 16) with 65536. change (2 ^ 24) with 16777216. change (2 ^ 8) with 256.
  split_and!; [rewrite Z.mul_comm, Z.mod_add by lia; apply Z.mod_small; lia|rewrite Z.mul_comm, Z.div_add by lia; rewrite Z.div_small; lia|].
  intros m Hm. eexists _, _, _. split_and!; [|done..].
  destruct (three_cases t Hl) as [->|[(a & ->)|[(a & b & ->)|(a & b & c & ->)]]]; rewrite ?Forall_cons in Ht; unfold byte in Ht;
    cbn [length le_val replicate Nat.sub app]; repeat f_equal; Z.to_euclidean_division_equations; lia.
Qed.

Lemma wp_set8_at out i x (Q : list Z → unit → Prop) R s p y q :
  out = p ++ y :: q → i = len p → Q (p ++ (x mod 2 ^ 8) :: q) s → wp (set8 out i x) Q R s.
Proof. intros -> -> HQ. eapply wp_of_option; [by apply aset_app|done]. Qed.

Lemma unpack_packed t m (Q : Z * list Z → unit → Prop) R s :
  Forall byte t → len t <= 3 → 3 <= m → Q (len t, t ++ replicate (Z.to_nat m - length t) 0) s → wp (unpack (num_of_Z (packed t)) (zeros m)) Q R s.
Proof.
  intros Ht Hl Hm HQ. unfold unpack. apply wp_bind. eapply wp_of_option; [by apply trunc_packed|].
  destruct (packed_fields t Ht Hl) as (-> & _ & Hf). destruct (Hf 3%nat) as (x & y & z & E & <- & <- & <-); [lia|].
  destruct (Z.ltb_spec 3 (len t)); [lia|]. unfold zeros.
  destruct (Z.to_nat m) as [|[|[|k]]] eqn:Em; [lia..|]. cbn [replicate].
  apply wp_bind. apply wp_set8_at with [] 0 (0 :: 0 :: replicate k 0); [done|done|].
  apply wp_bind. apply wp_set8_at with [x mod 2 ^ 8] 0 (0 :: replicate k 0); [done|done|].
  apply wp_bind. apply wp_set8_at with [x mod 2 ^ 8; y mod 2 ^ 8] 0 (replicate k 0); [done|done|].
  apply wp_mret. change ([x mod 2 ^ 8; y mod 2 ^ 8] ++ z mod 2 ^ 8 :: replicate k 0)%list with ([x mod 2 ^ 8; y mod 2 ^ 8; z mod 2 ^ 8] ++ replicate k 0)%list.
  rewrite E, <- app_assoc, <- replicate_add. replace (3 - length t + k)%nat with (S (S (S k)) - length t)%nat by lia. done.
Qed.

(** The packed state after [k] bytes. *)
Lemma wp_pack_byte u t z k (Q : Z → unit → Prop) R s :
  Forall byte t → len t <= 3 → len (u ++ t ++ z) < 2 ^ 32 → (k <= 2)%nat → Q (len t + 256 * le_val (take (S k) t)) s →
  wp (pack_byte (u ++ t ++ z) (len u) (len t) (Z.of_nat k) (len t + 256 * le_val (take k t))) Q R s.
Proof.
  intros Ht Hl Hb Hk HQ. unfold pack_byte. rewrite !length_app in Hb. destruct (Z.ltb_spec (Z.of_nat k) (len t)) as [Hlt|Hge].
  2: { apply wp_mret. by rewrite !take_ge in * by lia. }
  destruct (lookup_lt_is_Some_2 t k) as [b Hx]; [lia|]. apply wp_bind. eapply wp_of_option.
  { rewrite add32_id, <- Nat2Z.inj_add, aget_nat by lia. rewrite lookup_app_r by lia.
    replace (length u + k - length u)%nat with k by lia. rewrite lookup_app_l by lia. exact Hx. }
  apply wp_mret. rewrite (take_S_r _ _ b), le_val_snoc in HQ by done. rewrite length_take, Nat.min_l in HQ by lia.
  pose proof (le_val_range (take k t) (Forall_take _ _ _ Ht)) as Hr. rewrite length_take, Nat.min_l in Hr by lia.
  assert (Hbb : byte b) by (rewrite Forall_lookup in Ht; eauto). unfold byte in Hbb.
  assert (Hpow : 2 ^ (8 * (Z.of_nat k + 1)) = 256 * 256 ^ Z.of_nat k) by (rewrite Z.pow_mul_r, Z.pow_add_r by lia; change (2 ^ 8) with 256; lia).
  assert (Hp24 : 256 ^ Z.of_nat k <= 256 ^ 2) by (apply Z.pow_le_mono_r; lia). assert (0 < 256 ^ Z.of_nat k) by (apply Z.pow_pos_nonneg; lia).
  rewrite shl32_small by nia. rewrite lor_add by (rewrite ?Hpow; nia). rewrite Hpow.
  replace (len t + 256 * le_val (take k t) + b * (256 * 256 ^ Z.of_nat k)) with (len t + 256 * (le_val (take k t) + b * 256 ^ Z.of_nat k)) by lia. done.
Qed.

Lemma pack_exact buf u t z (Q : num → unit → Prop) R s :
  buf = u ++ t ++ z → Forall byte t → len t <= 3 → len buf < 2 ^ 32 → Q (num_of_Z (packed t)) s → wp (pack buf (len u) (len t)) Q R s.
Proof.
  intros -> Ht Hl Hb HQ. unfold pack. destruct (Z.ltb_spec 3 (len t)); [lia|].
  assert (E0 : len t = len t + 256 * le_val (take 0 t)) by (rewrite take_0; cbn [le_val]; lia).
  apply wp_bind. rewrite E0 at 2. apply (wp_pack_byte u t z 0); [done..|lia|].
  apply wp_bind, (wp_pack_byte u t z 1); [done..|lia|]. apply wp_bind, (wp_pack_byte u t z 2); [done..|lia|].
  apply wp_mret. rewrite take_ge by lia. done.
Qed.

(** ** The trailing partial sequence *)

Lemma land_cont b : byte b → (Z.land b 0xc0 =? 0x80) = bool_decide (cont b).
Proof.
  intros Hb. assert (H : forallb (λ k, eqb (Z.land (Z.of_nat k) 0xc0 =? 0x80) (bool_decide (cont (Z.of_nat k)))) (seq 0 256) = true) by (vm_compute; reflexivity).
  rewrite forallb_forall in H. unfold byte in Hb. specialize (H (Z.to_nat b)). rewrite in_seq, Z2Nat.id in H by lia.
  apply eqb_prop, H. lia.
Qed.

Lemma utf8Tail_cuts d z (Q : Z → unit → Prop) R s :
  Forall byte d → len d < 2 ^ 31 - 8 → (∀ p q, d = p ++ q → len q <= 3 → cut Utf8 p q → Q (len q) s) → wp (utf8Tail (d ++ z) (len d)) Q R s.
Proof.
  intros Hd Hn HQ. destruct s.
  assert (Hwhole : after8 Start d = Start → Q 0 ()) by (intros H; apply (HQ d []); [by rewrite app_nil_r|done|by apply cut_utf8_start]).
  apply wp_loop with (λ back _, ∃ u c, d = u ++ c ∧ Forall cont c ∧ back = 1 + len c ∧ len c <= 3) (λ back, 4 - back).
  { exists d, []. split_and!; [by rewrite app_nil_r|done|done|cbn; lia]. }
  { lia. }
  intros back [] (u & c & -> & Hc & -> & Hl) _. unfold tail_step. rewrite length_app in *. apply Forall_app in Hd as [Hu Hcb].
  pose proof (after8_upto u Hu) as H3. rewrite after8_app in Hwhole.
  rewrite !gt_s_small by lia. destruct (Z.ltb_spec (Z.of_nat (length u + length c)) (1 + len c)) as [Hs|Hs].
  { apply wp_mret, Hwhole. assert (u = []) as -> by (destruct u; [done|cbn [length] in Hs; lia]).
    apply upto_Start, (upto_mono (0 - len c)); [lia|]. by apply after8_cont. }
  destruct (Z.ltb_spec 3 (1 + len c)) as [Hb3|Hb3]; cbn [orb].
  { apply wp_mret, Hwhole, upto_Start, (upto_mono (3 - len c)); [lia|]. by apply after8_cont. }
  destruct u as [|b u _] using rev_ind; [cbn [length] in Hs; lia|]. rewrite length_app in *. cbn [length] in *.
  apply Forall_app in Hu as [Hu Hb]. rewrite Forall_singleton in Hb. apply wp_bind. eapply wp_of_option.
  { rewrite sub32_id by lia. rewrite <- !app_assoc. cbn [app]. apply aget_app. lia. }
  rewrite land_cont by done. case_bool_decide as Hcb'.
  { rewrite add32_id by lia. apply wp_mret. split; [|lia]. exists u, (b :: c). cbn [length]. split_and!; [by rewrite <- app_assoc|by constructor|lia..]. }
  apply wp_mret. assert (Hneed : 0 <= need_of b <= 4) by (unfold need_of; repeat case_match; lia).
  rewrite gt_s_small by lia. destruct (Z.ltb_spec (1 + len c) (need_of b)) as [Hlt|Hge].
  - replace (1 + len c) with (len (b :: c)) by (cbn [length]; lia). apply (HQ u); [by rewrite <- app_assoc|cbn [length]; lia|by apply cut_utf8_lead].
  - apply Hwhole, upto_Start, (upto_mono (need_of b - 1 - len c)); [lia|]. apply after8_cont; [done|].
    rewrite after8_app. cbn [after8]. rewrite (byte8_lead 3) by (done || by apply after8_upto). by apply need_of_lead.
Qed.

(** ** The encodings *)

Definition code_of (e : enc) : Z :=
  match e with Utf8 => 1 | Utf16le => 2 | Base64 => 3 | Base64url => 4 | Latin1 => 5 | Ascii => 6 | Hex => 7 end.
Definition stateless (e : enc) : bool := E_B64URL <? code_of e.

Lemma encodings_cases (P : string → enc → Prop) : Forall (λ '(name, e), P name e) ENCODINGS → ∀ name e, (name, e) ∈ ENCODINGS → P name e.
Proof. intros H name e Hin. rewrite Forall_forall in H. exact (H _ Hin). Qed.

Lemma code_exact name e : (name, e) ∈ ENCODINGS → codeHelper name = mret (code_of e).
Proof. apply (encodings_cases (λ name e, codeHelper name = mret (code_of e))). by repeat constructor. Qed.

Lemma decodes name e : (name, e) ∈ ENCODINGS → ∀ v, decode_from 0 ENCODINGS (code_of e) v = toStr e v.
Proof. apply (encodings_cases (λ name e, ∀ v, decode_from 0 ENCODINGS (code_of e) v = toStr e v)). by repeat constructor. Qed.

Lemma wp_toStr e v (Q : list Z → unit → Prop) R s : view_ok v → Q (decode e (data v)) s → wp (toStr e v) Q R s.
Proof. intros Hv HQ. destruct s. unfold wp. by rewrite toStr_exact. Qed.

Lemma wp_decodeView name e p z (Q : list Z → unit → Prop) R s :
  (name, e) ∈ ENCODINGS → Forall byte (p ++ z) → len (p ++ z) < 2 ^ 31 - 8 → Q (decode e p) s → wp (decodeView (code_of e) (p ++ z) (len p)) Q R s.
Proof.
  intros He Hb Hl HQ. unfold decodeView, viewDecode. rewrite (decodes name) by done. rewrite length_app in Hl. apply wp_toStr.
  - split; cbn; [done|lia|lia|rewrite length_app; lia|rewrite length_app; lia].
  - unfold data. cbn. by rewrite (slice_middle [] p z).
Qed.

Lemma wp_emitResult name e p q z n τ (Q : list Z * num → unit → Prop) R s :
  (name, e) ∈ ENCODINGS → Forall byte (p ++ q ++ z) → len (p ++ q ++ z) < 2 ^ 31 - 8 → len q <= 3 → n = len p + len q → τ = len q →
  Q (decode e p, num_of_Z (packed q)) s → wp (emitResult (code_of e) (p ++ q ++ z) n τ) Q R s.
Proof.
  intros He Hb Hl Hq -> -> HQ. unfold emitResult. pose proof Hl as Hl'. rewrite !length_app in Hl'. rewrite sub32_id by lia.
  replace (len p + len q - len q) with (len p) by lia.
  apply wp_bind, (wp_decodeView name); [done..|]. apply wp_bind. apply (pack_exact _ p q z); [done| |done|lia|by apply wp_mret].
  apply Forall_app in Hb as [_ Hb]. by apply Forall_app in Hb as [Hb _].
Qed.

(** ** One write *)

Definition held (e : enc) (t : list Z) : Prop := Forall byte t ∧ len t <= 3 ∧ (stateless e = true → t = []).
(** A chunk short enough for the joint buffer. *)
Definition chunk_ok (v : bview) : Prop := view_ok v ∧ BLEN v < 2 ^ 31 - 16.

Lemma view_split v : view_ok v → ∃ a b, STORAGE v = a ++ data v ++ b ∧ BOFF v = len a.
Proof.
  intros [_ ? ? ? ?]. exists (take (Z.to_nat (BOFF v)) (STORAGE v)), (drop (Z.to_nat (BLEN v)) (drop (Z.to_nat (BOFF v)) (STORAGE v))).
  unfold data, slice. rewrite !take_drop. split; [done|]. rewrite length_take. lia.
Qed.

Lemma joint_buffer v t (Q : list Z → unit → Prop) R s : chunk_ok v → len t <= 3 →
  Q (t ++ data v ++ replicate (3 - length t) 0) s →
  wp (of_option (acopy (t ++ replicate (Z.to_nat (add32 (BLEN v) 3) - length t) 0) (len t) (STORAGE v) (BOFF v) (BLEN v))) Q R s.
Proof.
  intros [Hv Hs] Ht HQ. pose proof (vok_len v Hv) as Hlen. pose proof (data_length v Hv) as HL. destruct (view_split v Hv) as (a & b & -> & ->).
  rewrite add32_id by lia. replace (Z.to_nat (BLEN v + 3) - length t)%nat with (length (data v) + (3 - length t))%nat by lia.
  rewrite replicate_add. eapply wp_of_option; [|exact HQ]. apply acopy_app; rewrite ?length_replicate; lia.
Qed.

Lemma stateless_app e d rest : stateless e = true → decode e (d ++ rest) = decode e d ++ decode e rest.
Proof. destruct e; try done; intros _; cbn [decode]; [apply map_app|apply map_app|apply flat_map_app]. Qed.

(** What one write must establish. *)
Definition wrote (e : enc) (d : list Z) (r : list Z * num) : Prop :=
  ∃ t', r.2 = num_of_Z (packed t') ∧ held e t' ∧ ∀ rest, decode e (d ++ rest) = r.1 ++ decode e (t' ++ rest).

Lemma wrote_cut e d p q : stateless e = false → Forall byte d → d = p ++ q → len q <= 3 → cut e p q → wrote e d (decode e p, num_of_Z (packed q)).
Proof.
  intros He Hd -> Hq Hc. exists q. apply Forall_app in Hd as [_ Hd]. split_and!; [done|split_and!; [done|done|by rewrite He]|].
  intros rest. by rewrite <- app_assoc.
Qed.

Section step.
Context (name : string) (e : enc) (d z : list Z).
Hypothesis Hname : (name, e) ∈ ENCODINGS.
Hypothesis He : stateless e = false.
Hypothesis Hd : Forall byte d.
Hypothesis Hz : Forall byte z.
Hypothesis Hn : len (d ++ z) < 2 ^ 31 - 8.

Lemma emit_wrote p q n τ (Q : list Z * num → unit → Prop) R s : d = p ++ q → len q <= 3 → cut e p q → n = len d → τ = len q →
  (∀ r, wrote e d r → Q r s) → wp (emitResult (code_of e) (d ++ z) n τ) Q R s.
Proof.
  intros Hpq Hq Hc -> -> HQ. pose proof Hd as Hd'. rewrite Hpq, <- app_assoc. apply (wp_emitResult name); [done| | |done|by rewrite length_app, Nat2Z.inj_add|done|].
  - rewrite app_assoc, <- Hpq. by apply Forall_app.
  - by rewrite app_assoc, <- Hpq.
  - apply HQ. by apply wrote_cut.
Qed.

(** The prefix of [m] bytes decoded, the rest held. *)
Lemma emit_prefix m n τ (Q : list Z * num → unit → Prop) R s : 0 <= m <= len d → len d - m <= 3 → n = len d → τ = len d - m →
  (∀ p q, d = p ++ q → len p = m → cut e p q) → (∀ r, wrote e d r → Q r s) → wp (emitResult (code_of e) (d ++ z) n τ) Q R s.
Proof.
  intros Hm Hl -> -> Hc HQ. assert (Hp : len (take (Z.to_nat m) d) = m) by (rewrite length_take; lia).
  assert (Hq : len (drop (Z.to_nat m) d) = len d - m) by (rewrite length_drop; lia).
  apply (emit_wrote (take (Z.to_nat m) d) (drop (Z.to_nat m) d)); [by rewrite take_drop|lia| |done|done|done].
  apply Hc; [by rewrite take_drop|done].
Qed.

Lemma utf16_keep_even rest (Q : Z → unit → Prop) R s : 0 <= rest <= len d →
  (∀ keep, Z.Even keep → 0 <= keep <= rest → rest - keep <= 2 → Q keep s) → wp (utf16_keep (d ++ z) (len d) rest) Q R s.
Proof.
  rewrite length_app in Hn. intros Hr HQ. unfold utf16_keep. change 1 with (Z.ones 1) at 1. rewrite Z.land_ones by lia. change (2 ^ 1) with 2.
  pose proof (Z.div_mod rest 2) as E. pose proof (Z.mod_pos_bound rest 2) as B.
  destruct (Z.eqb_spec (rest mod 2) 0) as [Hm|Hm]; cbn [negb].
  2: { apply wp_mret. rewrite sub32_id by lia. apply HQ; [exists (rest / 2); lia|lia|lia]. }
  rewrite ge_s_small by lia. destruct (Z.leb_spec 2 rest) as [H2|H2].
  2: { apply wp_mret, HQ; [exists (rest / 2); lia|lia|lia]. }
  rewrite sub32_id by lia. destruct (lookup_lt_is_Some_2 d (length d - 1)) as [x Hx]; [lia|].
  apply wp_bind. eapply wp_of_option.
  { replace (len d - 1) with (Z.of_nat (length d - 1)) by lia. rewrite aget_nat. by apply lookup_app_l_Some. }
  apply wp_mret. case_match; [rewrite sub32_id by lia; apply HQ; [exists (rest / 2 - 1); lia|lia|lia]|apply HQ; [exists (rest / 2); lia|lia|lia]].
Qed.
End step.

Lemma step_joint_wrote name e d z k (Q : list Z * num → unit → Prop) R s :
  (name, e) ∈ ENCODINGS → stateless e = false → Forall byte d → Forall byte z → len (d ++ z) < 2 ^ 31 - 8 → 0 <= k <= len d →
  (∀ r, wrote e d r → Q r s) → wp (step_joint (code_of e) k (d ++ z) (len d)) Q R s.
Proof.
  intros Hname He Hd Hz Hn Hk HQ. pose proof Hn as Hn'. rewrite length_app in Hn'. unfold step_joint.
  assert (H64 : ∀ url : bool, e = (if url then Base64url else Base64) → wp (emitResult (code_of e) (d ++ z) (len d) (Z.rem (len d) 3)) Q R s).
  { intros url ->. rewrite Z.rem_mod_nonneg by lia. pose proof (Z.div_mod (len d) 3). pose proof (Z.mod_pos_bound (len d) 3).
    apply (emit_prefix name _ d z Hname He Hd Hz Hn (3 * (len d / 3))); [lia|lia|done|lia| |done].
    intros p q _ Hp. apply cut_b64. exists (len d / 3). lia. }
  destruct e; try discriminate He; cbn [code_of] in *.
  - apply wp_bind, utf8Tail_cuts; [done|lia|]. intros p q Hpq Hq Hc. by apply (emit_wrote name Utf8 d z Hname He Hd Hz Hn p q).
  - change (2 =? E_UTF8) with false. change ((2 =? E_B64) || (2 =? E_B64URL)) with false. change (negb (2 =? E_UTF16)) with false. cbn iota. cbv zeta.
    set (start := if k =? 0 then 0 else if k =? 1 then 2 else 4).
    assert (Hst : Z.Even start ∧ 0 <= start <= 4) by (subst start; repeat case_match; split; try lia; by (exists 0 + exists 1 + exists 2)).
    rewrite gt_s_small by lia. destruct (negb (k =? 0) && (len d <? start)) eqn:Eg.
    + apply andb_true_iff in Eg as [_ Eg%Z.ltb_lt]. apply wp_bind. apply (pack_exact (d ++ z) [] d z); [done|done|lia|lia|].
      apply wp_mret, HQ. exists d. split_and!; [done|split_and!; [done|lia|done]|done].
    + assert (start <= len d) by (subst start; destruct (Z.eqb_spec k 0); cbn [negb andb] in Eg; zb; lia).
      rewrite sub32_id by lia. apply wp_bind. apply utf16_keep_even; [done|lia|]. intros keep Hev Hkeep Hheld. rewrite add32_id, sub32_id by lia.
      apply (emit_prefix name _ d z Hname He Hd Hz Hn (start + keep)); [lia|lia|done|lia| |done].
      intros p q _ Hp. apply cut_utf16. rewrite Hp. destruct Hst as [[x ->] _], Hev as [y ->]. exists (x + y). lia.
  - by apply (H64 false).
  - by apply (H64 true).
Qed.

Lemma step_wrote name e t ch (Q : list Z * num → unit → Prop) R s :
  (name, e) ∈ ENCODINGS → held e t → chunk_ok ch → (∀ r, wrote e (t ++ data ch) r → Q r s) → wp (step name (num_of_Z (packed t)) ch) Q R s.
Proof.
  intros Hname (Ht & Hl & Hst) Hch HQ. pose proof Hch as [Hv Hs]. unfold step. rewrite (code_exact name e) by done. apply wp_bind, wp_mret.
  change (E_B64URL <? code_of e) with (stateless e). destruct (stateless e) eqn:He.
  - unfold viewDecode. rewrite (decodes name) by done. rewrite (Hst eq_refl) in HQ. apply wp_bind, wp_toStr; [by destruct ch|]. apply wp_mret, HQ.
    exists []. split_and!; [done| |].
    + by split_and!.
    + intros rest. by apply stateless_app.
  - pose proof (vok_len ch Hv) as Hlen. pose proof (data_length ch Hv) as HL. apply wp_bind.
    assert (Ha : add32 (BLEN ch) 3 = BLEN ch + 3) by (apply add32_id; lia).
    apply unpack_packed; [done|done|lia|]. apply wp_bind. apply joint_buffer; [done|done|].
    rewrite app_assoc. cbv zeta. replace (add32 (len t) (BLEN ch)) with (len (t ++ data ch)) by (rewrite length_app, add32_id; lia).
    apply (step_joint_wrote name e (t ++ data ch) _ (len t)); [done|done| | | | |done].
    + apply Forall_app. split; [done|by apply data_bytes].
    + apply Forall_replicate. done.
    + rewrite !length_app, length_replicate. lia.
    + rewrite length_app. lia.
Qed.

(** ** The flush and the whole run *)

Lemma end_exact name e t : (name, e) ∈ ENCODINGS → held e t → end_ name (num_of_Z (packed t)) tt = (Val (decode e t), tt).
Proof.
  intros Hname (Ht & Hl & Hst). assert (H : wp (end_ name (num_of_Z (packed t))) (λ u _, u = decode e t) (λ _ _, False) tt).
  2: { apply wp_run in H as (u & [] & -> & ->). done. }
  unfold end_. rewrite (code_exact name e) by done. apply wp_bind, wp_mret.
  change (E_B64URL <? code_of e) with (stateless e). destruct (stateless e) eqn:He.
  { apply wp_mret. rewrite (Hst eq_refl). by destruct e. }
  apply wp_bind, unpack_packed; [done|done|lia|]. change (Z.to_nat 3) with 3%nat.
  assert (Hz : Forall byte (replicate (3 - length t) 0)) by by apply Forall_replicate.
  destruct (code_of e =? E_UTF16) eqn:Ee.
  - assert (e = Utf16le) as -> by (destruct e; done).
    assert (Hk : ∃ p q, t = p ++ q ∧ Z.land (len t) (2 ^ 32 - 2) = len p ∧ spec_utf16 p = spec_utf16 t).
    { destruct (three_cases t Hl) as [->|[(a & ->)|[(a & b & ->)|(a & b & c & ->)]]];
        [exists [], []|exists [], [a]|exists [a; b], []|exists [a; b], [c]]; done. }
    destruct Hk as (p & q & -> & -> & Hsp). rewrite <- app_assoc.
    apply (wp_decodeView name); [done| | |done]; [rewrite app_assoc; by apply Forall_app|]. rewrite app_assoc, length_app, length_replicate. lia.
  - apply (wp_decodeView name); [done| | |done]; [by apply Forall_app|]. rewrite length_app, length_replicate. lia.
Qed.

Lemma feed_held name e t chunks : (name, e) ∈ ENCODINGS → held e t → Forall chunk_ok chunks →
  feed name (num_of_Z (packed t)) chunks tt = (Val (decode e (t ++ concat (map data chunks))), tt).
Proof.
  intros Hname Ht Hc. revert t Ht. induction Hc as [|ch chunks Hch _ IH]; intros t Ht; cbn [feed map concat].
  { rewrite app_nil_r. by apply end_exact. }
  assert (H : wp (step name (num_of_Z (packed t)) ch) (λ r _, wrote e (t ++ data ch) r) (λ _ _, False) tt) by (by apply (step_wrote name e)).
  apply wp_run in H as ([s p] & [] & E & t' & Hp & Ht' & Hw). cbn [fst snd] in *. subst p.
  unfold write, next, mbind. rewrite E. cbn. rewrite E. cbn. rewrite IH by done. cbn. by rewrite app_assoc, Hw.
Qed.

Example initial_state : num_of_Z (packed []) = Fin 0.
Proof. reflexivity. Qed.

(** C6. However a byte sequence is cut into chunks, the strings that [write]
    returns for the chunks, with the state threaded by [next] from 0, and the
    string of [end] concatenate to the decoding of the whole sequence: exactly
    what Buffer.toString gives for one view that holds all the bytes.  Nothing
    traps, for all seven encodings. *)
Theorem chunked_decoding (name : string) (e : enc) (chunks : list bview) (whole : bview) :
  (name, e) ∈ ENCODINGS → Forall chunk_ok chunks → view_ok whole → data whole = concat (map data chunks) →
  feed name (Fin 0) chunks tt = toStr e whole tt.
Proof.
  intros Hname Hc Hv Hw. rewrite toStr_exact, Hw, <- initial_state by done. by rewrite (feed_held name e).
Qed.

Lemma chunked_decoding_witness :
  feed "utf8" (Fin 0) [bytes_view [0x41; 0xe2; 0x82]; bytes_view [0xac; 0xf0]] tt = toStr Utf8 (bytes_view [0x41; 0xe2; 0x82; 0xac; 0xf0]) tt ∧
  toStr Utf8 (bytes_view [0x41; 0xe2; 0x82; 0xac; 0xf0]) tt = (Val [0x41; 0x20ac; 0xfffd], tt).
Proof.
  split; [|vm_compute; reflexivity]. assert (Hok : ∀ bs, Forall byte bs → len bs < 2 ^ 16 → view_ok (bytes_view bs)) by (intros; apply bytes_view_ok; [done|lia]).
  assert (Hb : Forall byte [0x41; 0xe2; 0x82; 0xac; 0xf0]) by (repeat constructor; lia). apply (chunked_decoding "utf8" Utf8).
  - left.
  - repeat constructor; try (apply Hok; [repeat constructor; lia|done]); done.
  - by apply Hok.
  - reflexivity.
Defined.
