(* ===== verification/BytesEncode.v ===== *)
(** * Strings to bytes

    The encoders behind Buffer.from(string, enc), buf.write and
    Buffer.byteLength on the WasmGC tier
    (src/packages/compiler/src/backend/wasm/typedarrays.ts): [fromStrHelper] for
    the seven encodings.  The encoders and the decoders of BytesDecode.v are
    inverse where the encodings allow it. *)

From Stdlib Require Import ZArith.Zbitwise.
From S2P Require Import Prelude F64 Arrays BytesDecode.

#[local] Open Scope arr_scope.

(** ** The encoders *)

Definition unit_at (s : list Z) (i : Z) : BM Z := of_option (aget s i).
(** A fresh $bytes of the first [n] scratch bytes. *)
Definition emitBytesFromScratch (scratch : list Z) (n : Z) : BM bview := st <- of_option (acopy (zeros n) 0 scratch 0 n);; mret (mkView st 0 n).

Definition emitHexVal (u : Z) : Z :=
  if (0x30 <=? u) && (u <=? 0x39) then u - 0x30
  else if (0x61 <=? u) && (u <=? 0x66) then u - (0x61 - 10)
  else if (0x41 <=? u) && (u <=? 0x46) then u - (0x41 - 10)
  else -1.
Definition emitB64Val (u : Z) : Z :=
  if (0x41 <=? u) && (u <=? 0x5a) then u - 0x41
  else if (0x61 <=? u) && (u <=? 0x7a) then u - (0x61 - 26)
  else if (0x30 <=? u) && (u <=? 0x39) then u - (0x30 - 52)
  else if (u =? 0x2b) || (u =? 0x2d) then 62
  else if (u =? 0x2f) || (u =? 0x5f) then 63
  else -1.

Definition latin_put (s : list Z) (st : Z * list Z) : BM (Z * list Z + list Z) :=
  let '(i, out) := st in
  if ge_s i (len s) then mret (inr out)
  else u <- unit_at s i;; out <- set8 out i u;; mret (inl (add32 i 1, out)).
Definition fromStr_latin (s : list Z) : BM bview :=
  out <- loop (S (length s)) (latin_put s) (0, zeros (len s));; mret (mkView out 0 (len s)).

Definition utf16_put (s : list Z) (st : Z * list Z) : BM (Z * list Z + list Z) :=
  let '(i, out) := st in
  if ge_s i (len s) then mret (inr out)
  else
    u <- unit_at s i;;
    out <- set8 out (mul32 i 2) (Z.land u 0xff);;
    out <- set8 out (add32 (mul32 i 2) 1) (Z.shiftr u 8);;
    mret (inl (add32 i 1, out)).
Definition fromStr_utf16le (s : list Z) : BM bview :=
  out <- loop (S (length s)) (utf16_put s) (0, zeros (mul32 (len s) 2));; mret (mkView out 0 (mul32 (len s) 2)).

Definition hex_put (s : list Z) (st : Z * Z * list Z) : BM (Z * Z * list Z + Z * list Z) :=
  let '(i, o, out) := st in
  if gt_s (add32 i 2) (len s) then mret (inr (o, out))
  else
    u0 <- unit_at s i;;
    u1 <- unit_at s (add32 i 1);;
    let hi := emitHexVal u0 in
    let lo := emitHexVal u1 in
    if (hi <? 0) || (lo <? 0) then mret (inr (o, out))
    else out <- set8 out o (Z.lor (shl32 hi 4) lo);; mret (inl (add32 i 2, add32 o 1, out)).
Definition fromStr_hex (s : list Z) : BM bview :=
  '(o, out) <- loop (S (length s)) (hex_put s) (0, 0, zeros (Z.quot (len s) 2));; emitBytesFromScratch out o.

Record b64st := mkB64 { I64 : Z; O64 : Z; ACC : Z; HAVE : Z; OUT64 : list Z }.
Definition b64_put (s : list Z) (st : b64st) : BM (b64st + b64st) :=
  if ge_s (I64 st) (len s) then mret (inr st)
  else
    u <- unit_at s (I64 st);;
    let v := emitB64Val u in
    let i := add32 (I64 st) 1 in
    if 0 <=? v then
      let acc := Z.lor (shl32 (ACC st) 6) v in
      let have := add32 (HAVE st) 1 in
      if have =? 4 then
        out <- set8 (OUT64 st) (O64 st) (Z.shiftr acc 16);;
        out <- set8 out (add32 (O64 st) 1) (Z.shiftr acc 8);;
        out <- set8 out (add32 (O64 st) 2) (Z.shiftr acc 0);;
        mret (inl (mkB64 i (add32 (O64 st) 3) 0 0 out))
      else mret (inl (mkB64 i (O64 st) acc have (OUT64 st)))
    else mret (inl (mkB64 i (O64 st) (ACC st) (HAVE st) (OUT64 st))).
Definition fromStr_base64 (s : list Z) : BM bview :=
  st <- loop (S (length s)) (b64_put s) (mkB64 0 0 0 0 (zeros (add32 (mul32 (Z.quot (len s) 4) 3) 2)));;
  if HAVE st =? 2 then
    out <- set8 (OUT64 st) (O64 st) (Z.shiftr (ACC st) 4);;
    emitBytesFromScratch out (add32 (O64 st) 1)
  else if HAVE st =? 3 then
    out <- set8 (OUT64 st) (O64 st) (Z.shiftr (ACC st) 10);;
    out <- set8 out (add32 (O64 st) 1) (Z.shiftr (ACC st) 2);;
    emitBytesFromScratch out (add32 (O64 st) 2)
  else emitBytesFromScratch (OUT64 st) (O64 st).

(** [storeByte] at consecutive offsets, then [advance]. *)
Fixpoint storeBytes (k : Z) (bs : list Z) (o : Z) (out : list Z) : BM (Z * list Z) :=
  match bs with
  | [] => mret (add32 o k, out)
  | b :: bs => out <- set8 out (add32 o k) b;; storeBytes (k + 1) bs o out
  end.
Definition tail6 (u k : Z) : Z := Z.lor 0x80 (Z.land (Z.shiftr u k) 0x3f).
Definition utf8_put (s : list Z) (st : Z * Z * list Z) : BM (Z * Z * list Z + Z * list Z) :=
  let '(i, o, out) := st in
  if len s <=? i then mret (inr (o, out))
  else
    u <- unit_at s i;;
    let i := add32 i 1 in
    let put i bs := '(o, out) <- storeBytes 0 bs o out;; mret (inl (i, o, out)) in
    if u <? 0x80 then put i [u]
    else if u <? 0x800 then put i [Z.lor 0xc0 (Z.shiftr u 6); tail6 u 0]
    else if Z.land u 0xf800 =? 0xd800 then
      next <- (if (u <? 0xdc00) && (i <? len s) then x <- unit_at s i;; mret (if Z.land x 0xfc00 =? 0xdc00 then Some x else None) else mret None);;
      match next with
      | Some x =>
          let u := add32 (add32 (shl32 (sub32 u 0xd800) 10) (sub32 x 0xdc00)) 0x10000 in
          put (add32 i 1) [Z.lor 0xf0 (Z.shiftr u 18); tail6 u 12; tail6 u 6; tail6 u 0]
      | None => put i [0xef; 0xbf; 0xbd]
      end
    else put i [Z.lor 0xe0 (Z.shiftr u 12); tail6 u 6; tail6 u 0].
Definition fromStr_utf8 (s : list Z) : BM bview :=
  '(o, out) <- loop (S (length s)) (utf8_put s) (0, 0, zeros (mul32 (len s) 3));; emitBytesFromScratch out o.

Definition fromStr (e : enc) (s : list Z) : BM bview :=
  match e with
  | Latin1 | Ascii => fromStr_latin s | Utf16le => fromStr_utf16le s | Hex => fromStr_hex s
  | Base64 | Base64url => fromStr_base64 s | Utf8 => fromStr_utf8 s
  end.

(** ** Specifications on unit lists *)

Fixpoint unhex (us : list Z) : list Z :=
  match us with
  | a :: b :: us => if (emitHexVal a <? 0) || (emitHexVal b <? 0) then [] else 16 * emitHexVal a + emitHexVal b :: unhex us
  | _ => []
  end.
(** Groups of six-bit values. *)
Fixpoint unsix (vs : list Z) : list Z :=
  match vs with
  | a :: b :: c :: d :: vs => [a * 4 + b / 16; b mod 16 * 16 + c / 4; c mod 4 * 64 + d] ++ unsix vs
  | [a; b; c] => [a * 4 + b / 16; b mod 16 * 16 + c / 4]
  | [a; b] => [a * 4 + b / 16]
  | _ => []
  end.
Definition sixes (us : list Z) : list Z := filter (λ v, 0 <= v) (map emitB64Val us).

(** A string as code points; a lone surrogate reads as U+FFFD. *)
Definition high (u : Z) : bool := (0xd800 <=? u) && (u <? 0xdc00).
Definition low (u : Z) : bool := (0xdc00 <=? u) && (u <? 0xe000).
Definition join_pair (u x : Z) : Z := (u - 0xd800) * 1024 + (x - 0xdc00) + 0x10000.
Fixpoint points (us : list Z) : list Z :=
  match us with
  | [] => []
  | u :: us' =>
      if high u then match us' with x :: us'' => if low x then join_pair u x :: points us'' else 0xfffd :: points us' | [] => [0xfffd] end
      else (if low u then 0xfffd else u) :: points us'
  end.
Definition utf8_bytes (c : Z) : list Z :=
  if c <? 0x80 then [c]
  else if c <? 0x800 then [0xc0 + c / 64; 0x80 + c mod 64]
  else if c <? 0x10000 then [0xe0 + c / 4096; 0x80 + c / 64 mod 64; 0x80 + c mod 64]
  else [0xf0 + c / 262144; 0x80 + c / 4096 mod 64; 0x80 + c / 64 mod 64; 0x80 + c mod 64].

Definition encode (e : enc) (us : list Z) : list Z :=
  match e with
  | Latin1 | Ascii => map (λ u, u mod 256) us
  | Utf16le => flat_map (λ u, [u mod 256; u / 256]) us
  | Hex => unhex us
  | Base64 | Base64url => unsix (sixes us)
  | Utf8 => flat_map utf8_bytes (points us)
  end.

Definition sample_str : list Z := [0x68; 0xe9; 0x20ac; 0xd83d; 0xde00; 0xdc00; 0xd800].
Example sample_encodes : map (λ e, match (fromStr e sample_str tt).1 with Val v => data v | _ => [] end) [Utf8; Utf16le; Latin1] =
    map (λ e, encode e sample_str) [Utf8; Utf16le; Latin1] ∧
  match (fromStr Base64 (codes "aM Op4oLwn5iA7aCA==") tt).1 with Val v => data v | _ => [] end = [0x68; 0xc3; 0xa9; 0xe2; 0x82; 0xf0; 0x9f; 0x98; 0x80; 0xed; 0xa0; 0x80] ∧
  match (fromStr Hex (codes "68c3zz") tt).1 with Val v => data v | _ => [] end = [0x68; 0xc3].
Proof. vm_compute. done. Qed.

(** ** Round trips of the specifications *)

Definition unit16 (u : Z) : Prop := 0 <= u < 2 ^ 16.

(** A decidable fact about every value below [n]. *)
Lemma below_table (n : nat) (P : Z → bool) : forallb (λ k, P (Z.of_nat k)) (seq 0 n) = true → ∀ b, 0 <= b < Z.of_nat n → P b = true.
Proof. intros H b Hb. rewrite forallb_forall in H. specialize (H (Z.to_nat b)). rewrite Z2Nat.id in H by lia. apply H, in_seq. lia. Qed.

Lemma latin_roundtrip bs : Forall byte bs → encode Latin1 (decode Latin1 bs) = bs.
Proof. cbn [encode decode]. unfold spec_latin. induction 1 as [|b bs Hb _ IH]; [done|]. cbn [map]. rewrite IH. by rewrite Z.mod_small. Qed.

Lemma hex_byte b : byte b → emitHexVal (emitHexDigit (Z.shiftr b 4)) = b / 16 ∧ emitHexVal (emitHexDigit (Z.land b 0xf)) = b mod 16.
Proof.
  intros Hb. pose proof (below_table 256 (λ b, (emitHexVal (emitHexDigit (Z.shiftr b 4)) =? b / 16) && (emitHexVal (emitHexDigit (Z.land b 0xf)) =? b mod 16))) as H.
  specialize (H ltac:(vm_compute; reflexivity) b Hb). cbn beta in H. zb. done.
Qed.

Lemma hex_roundtrip bs : Forall byte bs → encode Hex (decode Hex bs) = bs.
Proof.
  induction 1 as [|b bs Hb _ IH]; [done|]. cbn [decode spec_hex flat_map app encode unhex] in *. destruct (hex_byte b Hb) as [-> ->]. unfold byte in Hb.
  rewrite (proj2 (Z.ltb_ge (b / 16) 0)), (proj2 (Z.ltb_ge (b mod 16) 0)) by (first [apply Z.div_pos|apply Z.mod_pos_bound]; lia).
  cbn [orb]. fold (spec_hex bs). rewrite IH. f_equal. symmetry. rewrite (Z.div_mod b 16) at 1 by lia. lia.
Qed.

Lemma b64_digit url x : 0 <= x < 64 → emitB64Val (digit64 url x) = x.
Proof.
  intros Hx. pose proof (below_table 64 (λ x, (emitB64Val (digit64 true x) =? x) && (emitB64Val (digit64 false x) =? x)) ltac:(vm_compute; reflexivity) x Hx) as H.
  cbn beta in H. zb. by destruct url.
Qed.

Lemma sixes_app us us' : sixes (us ++ us') = sixes us ++ sixes us'.
Proof. unfold sixes. by rewrite map_app, filter_app. Qed.

Lemma sixes_digits url xs : Forall (λ x, 0 <= x < 64) xs → sixes (map (digit64 url) xs) = xs.
Proof.
  induction 1 as [|x xs Hx _ IH]; [done|]. unfold sixes in *. cbn [map]. rewrite b64_digit by done.
  rewrite filter_cons_True by (cbn; lia). by rewrite IH.
Qed.

Lemma sixes_pad url k : sixes (pad64 url k) = [].
Proof. unfold pad64. destruct url; [done|]. induction k as [|k IH]; [done|]. exact IH. Qed.

Lemma six_range a b c : byte a → byte b → byte c →
  Forall (λ x, 0 <= x < 64) [a / 4; a mod 4 * 16 + b / 16; b mod 16 * 4 + c / 64; c mod 64].
Proof. unfold byte. intros. repeat constructor; Z.to_euclidean_division_equations; lia. Qed.

Lemma b64_group_roundtrip a b c : byte a → byte b → byte c →
  (a / 4) * 4 + (a mod 4 * 16 + b / 16) / 16 = a ∧ (a mod 4 * 16 + b / 16) mod 16 * 16 + (b mod 16 * 4 + c / 64) / 4 = b ∧
  (b mod 16 * 4 + c / 64) mod 4 * 64 + c mod 64 = c.
Proof. unfold byte. intros. split_and!; Z.to_euclidean_division_equations; lia. Qed.

Lemma b64_roundtrip url bs : Forall byte bs → unsix (sixes (spec_b64 url bs)) = bs.
Proof.
  induction bs as [|a|a b|a b c bs IH] using triple_ind; intros Hb; [done|..]; rewrite ?Forall_cons in Hb; cbn [spec_b64].
  - destruct Hb as [Ha _]. pose proof (six_range a 0 0 Ha) as H. destruct (b64_group_roundtrip a 0 0 Ha) as (E & _); [done..|].
    rewrite (Z.div_0_l 16), Z.add_0_r in * by lia. rewrite sixes_app, sixes_pad, app_nil_r.
    change [digit64 url (a / 4); digit64 url (a mod 4 * 16)] with (map (digit64 url) [a / 4; a mod 4 * 16]). rewrite sixes_digits; [cbn [unsix]; by rewrite E|].
    exact (Forall_take _ 2 _ (H ltac:(done) ltac:(done))).
  - destruct Hb as (Ha & Hb & _). pose proof (six_range a b 0 Ha Hb) as H. destruct (b64_group_roundtrip a b 0 Ha Hb) as (E & E2 & _); [done|].
    rewrite (Z.div_0_l 64), Z.add_0_r in * by lia. rewrite sixes_app, sixes_pad, app_nil_r.
    change [digit64 url (a / 4); digit64 url (a mod 4 * 16 + b / 16); digit64 url (b mod 16 * 4)] with (map (digit64 url) [a / 4; a mod 4 * 16 + b / 16; b mod 16 * 4]).
    rewrite sixes_digits; [cbn [unsix]; by rewrite E, E2|]. exact (Forall_take _ 3 _ (H ltac:(done))).
  - destruct Hb as (Ha & Hb & Hc & Hbs). pose proof (six_range a b c Ha Hb Hc) as H. destruct (b64_group_roundtrip a b c Ha Hb Hc) as (E & E2 & E3).
    rewrite sixes_app. change [digit64 url (a / 4); digit64 url (a mod 4 * 16 + b / 16); digit64 url (b mod 16 * 4 + c / 64); digit64 url (c mod 64)]
      with (map (digit64 url) [a / 4; a mod 4 * 16 + b / 16; b mod 16 * 4 + c / 64; c mod 64]).
    rewrite sixes_digits by done. cbn [app unsix]. rewrite E, E2, E3, IH by done. done.
Qed.

Lemma utf16_roundtrip us : Forall unit16 us → decode Utf16le (encode Utf16le us) = us.
Proof.
  induction 1 as [|u us Hu _ IH]; [done|]. cbn [encode flat_map app decode spec_utf16] in *. rewrite IH.
  f_equal. rewrite (Z.div_mod u 256) at 3 by lia. lia.
Qed.

(** *** UTF-8 *)

Definition scalar (c : Z) : Prop := 0 <= c < 0x110000 ∧ ¬ 0xd800 <= c < 0xe000.

(** String.prototype.toWellFormed: lone surrogates replaced. *)
Fixpoint well_formed (us : list Z) : list Z :=
  match us with
  | [] => []
  | u :: us' =>
      if high u then match us' with x :: us'' => if low x then u :: x :: well_formed us'' else 0xfffd :: well_formed us' | [] => [0xfffd] end
      else (if low u then 0xfffd else u) :: well_formed us'
  end.

Lemma points_ind (P : list Z → Prop) :
  P [] → (∀ u us, high u = false → P us → P (u :: us)) → (∀ u, high u = true → P [u]) →
  (∀ u x us, high u = true → low x = true → P us → P (u :: x :: us)) →
  (∀ u x us, high u = true → low x = false → P (x :: us) → P (u :: x :: us)) → ∀ us, P us.
Proof.
  intros H0 H1 H2 H3 H4. assert (H : ∀ n us, (length us <= n)%nat → P us); [|intros us; by apply (H (length us))].
  induction n as [|n IH]; intros [|u us] Hl; auto; cbn in Hl; [lia|].
  destruct (high u) eqn:Eh; [|by apply H1, IH; [|lia]]. destruct us as [|x us]; [auto|]. cbn in Hl.
  destruct (low x) eqn:El; [apply H3, IH|apply H4, IH]; auto; cbn; lia.
Qed.

Lemma high_spec u : if high u then 0xd800 <= u < 0xdc00 else u < 0xd800 ∨ 0xdc00 <= u.
Proof. unfold high. destruct (Z.leb_spec 0xd800 u), (Z.ltb_spec u 0xdc00); cbn; lia. Qed.
Lemma low_spec u : if low u then 0xdc00 <= u < 0xe000 else u < 0xdc00 ∨ 0xe000 <= u.
Proof. unfold low. destruct (Z.leb_spec 0xdc00 u), (Z.ltb_spec u 0xe000); cbn; lia. Qed.

Lemma points_lone u x us : high u = true → low x = false → points (u :: x :: us) = 0xfffd :: points (x :: us).
Proof.
  intros Hh Hl. change (points (u :: x :: us)) with
    (if high u then if low x then join_pair u x :: points us else 0xfffd :: points (x :: us) else (if low u then 0xfffd else u) :: points (x :: us)).
  by rewrite Hh, Hl.
Qed.
Lemma well_formed_lone u x us : high u = true → low x = false → well_formed (u :: x :: us) = 0xfffd :: well_formed (x :: us).
Proof.
  intros Hh Hl. change (well_formed (u :: x :: us)) with
    (if high u then if low x then u :: x :: well_formed us else 0xfffd :: well_formed (x :: us) else (if low u then 0xfffd else u) :: well_formed (x :: us)).
  by rewrite Hh, Hl.
Qed.

Lemma points_scalar us : Forall unit16 us → Forall scalar (points us).
Proof.
  unfold unit16. induction us as [|u us Hh IH|u Hh|u x us Hh Hl IH|u x us Hh Hl IH] using points_ind; intros Hu; [done|..];
    pose proof (high_spec u) as Su; rewrite Hh in Su; rewrite ?Forall_cons in Hu; rewrite ?points_lone by done; try (cbn [points]; rewrite Hh, ?Hl).
  - constructor; [|tauto]. pose proof (low_spec u) as Sl. unfold scalar. destruct (low u); lia.
  - repeat constructor; lia.
  - constructor; [|tauto]. pose proof (low_spec x) as Sl. rewrite Hl in Sl. unfold scalar, join_pair. lia.
  - constructor; [unfold scalar; lia|]. apply IH. rewrite Forall_cons. tauto.
Qed.

Lemma units_points us : Forall unit16 us → flat_map units (points us) = well_formed us.
Proof.
  unfold unit16. induction us as [|u us Hh IH|u Hh|u x us Hh Hl IH|u x us Hh Hl IH] using points_ind; intros Hu; [done|..];
    rewrite ?Forall_cons in Hu; rewrite ?points_lone, ?well_formed_lone by done; try (cbn [points well_formed]; rewrite !Hh, ?Hl).
  - cbn [flat_map]. rewrite IH by tauto. unfold units. destruct (low u); [done|]. rewrite (proj2 (Z.leb_le u 0xffff)) by lia. done.
  - done.
  - cbn [flat_map]. rewrite IH by tauto. pose proof (high_spec u) as Su. rewrite Hh in Su. pose proof (low_spec x) as Sl. rewrite Hl in Sl. unfold units, join_pair. rewrite (proj2 (Z.leb_gt _ _)) by lia.
    replace ((u - 55296) * 1024 + (x - 56320) + 65536 - 65536) with (x - 56320 + (u - 55296) * 1024) by lia.
    rewrite Z.div_add, Z.mod_add, Z.div_small, Z.mod_small by lia. cbn [app]. do 2 f_equal; lia.
  - cbn [flat_map]. rewrite IH by (rewrite Forall_cons; tauto). done.
Qed.

Lemma run8_in cp n lo hi b rest : lo <= b <= hi →
  run8 (Mid cp n lo hi) (b :: rest) = if n =? 1 then units (64 * cp + (b - 0x80)) ++ run8 Start rest else run8 (Mid (64 * cp + (b - 0x80)) (n - 1) 0x80 0xbf) rest.
Proof.
  intros Hb. cbn [run8 byte8]. rewrite (proj2 (Z.ltb_ge b lo)), (proj2 (Z.ltb_ge hi b)) by lia. cbn [orb]. by destruct (n =? 1).
Qed.

Lemma run8_point c rest : scalar c → run8 Start (utf8_bytes c ++ rest) = units c ++ run8 Start rest.
Proof.
  intros [Hc Hs]. unfold utf8_bytes. pose proof (Z.div_mod c 64). pose proof (Z.mod_pos_bound c 64).
  pose proof (Z.div_mod (c / 64) 64). pose proof (Z.mod_pos_bound (c / 64) 64). pose proof (Z.div_mod (c / 64 / 64) 64). pose proof (Z.mod_pos_bound (c / 64 / 64) 64).
  replace (c / 4096) with (c / 64 / 64) by (rewrite Z.div_div by lia; done). replace (c / 262144) with (c / 64 / 64 / 64) by (rewrite !Z.div_div by lia; done).
  set (q := c / 64) in *. set (q2 := q / 64) in *. set (q3 := q2 / 64) in *.
  destruct (Z.ltb_spec c 0x80).
  { cbn [app run8 byte8]. unfold lead8, units. rewrite (proj2 (Z.leb_le c 0x7f)), (proj2 (Z.leb_le c 0xffff)) by lia. done. }
  assert (Hlead : ∀ b st, lead8 b = (st, []) → ∀ l, run8 Start (b :: l) = run8 st l) by (intros b st E l; cbn [run8 byte8]; by rewrite E).
  destruct (Z.ltb_spec c 0x800); [|destruct (Z.ltb_spec c 0x10000)]; cbn [app].
  - erewrite Hlead.
    2: { unfold lead8. rewrite (proj2 (Z.leb_gt _ 0x7f)), (proj2 (Z.ltb_ge _ 0xc2)), (proj2 (Z.leb_le _ 0xdf)) by lia. done. }
    rewrite run8_in by lia. cbn [Z.eqb Pos.eqb]. do 2 f_equal. lia.
  - erewrite Hlead.
    2: { unfold lead8. rewrite (proj2 (Z.leb_gt _ 0x7f)), (proj2 (Z.ltb_ge _ 0xc2)), (proj2 (Z.leb_gt _ 0xdf)), (proj2 (Z.leb_le _ 0xef)) by lia. done. }
    rewrite run8_in by (repeat case_match; zb; lia). cbn [Z.eqb Pos.eqb]. change (2 - 1) with 1. rewrite run8_in by lia. cbn [Z.eqb Pos.eqb]. do 2 f_equal. lia.
  - erewrite Hlead.
    2: { unfold lead8. rewrite (proj2 (Z.leb_gt _ 0x7f)), (proj2 (Z.ltb_ge _ 0xc2)), (proj2 (Z.leb_gt _ 0xdf)), (proj2 (Z.leb_gt _ 0xef)), (proj2 (Z.leb_le _ 0xf4)) by lia. done. }
    rewrite run8_in by (repeat case_match; zb; lia). cbn [Z.eqb Pos.eqb]. change (3 - 1) with 2. rewrite run8_in by lia. cbn [Z.eqb Pos.eqb].
    change (2 - 1) with 1. rewrite run8_in by lia. cbn [Z.eqb Pos.eqb]. do 2 f_equal. lia.
Qed.

Lemma utf8_roundtrip us : Forall unit16 us → decode Utf8 (encode Utf8 us) = well_formed us.
Proof.
  intros Hu. cbn [decode encode]. rewrite <- units_points by done. pose proof (points_scalar us Hu) as Hp.
  induction Hp as [|c cs Hc _ IH]; [done|]. cbn [flat_map]. by rewrite run8_point, IH.
Qed.

(** ** The encoders compute their specifications *)

Lemma wp_unit_at s p u q i (Q : Z → unit → Prop) R st : s = p ++ u :: q → i = len p → Q u st → wp (unit_at s i) Q R st.
Proof. intros -> -> HQ. eapply wp_of_option; [by apply aget_app|done]. Qed.

Lemma wp_fresh acc n out o (Q : bview → unit → Prop) R st :
  fills n acc out → o = len acc → Q (bytes_view acc) st → wp (emitBytesFromScratch out o) Q R st.
Proof.
  intros (m & -> & Hm) -> HQ. apply wp_bind. eapply wp_of_option; [|by apply wp_mret].
  unfold zeros. rewrite Nat2Z.id. pose proof (acopy_app [] (replicate (length acc) 0) [] [] acc (replicate m 0) 0 0 (len acc)) as Hc.
  rewrite !app_nil_r in Hc. apply Hc; rewrite ?length_replicate; done.
Qed.

Section encoders.
Context (s : list Z).
Hypothesis Hs : Forall unit16 s.
Hypothesis Hn : len s < 2 ^ 29.

(** A loop at unit [i]. *)
Lemma scan_len S i acc p q : decoding S s i acc p q → len s = i + len q ∧ 0 <= i.
Proof. intros (-> & -> & _). rewrite length_app. lia. Qed.

Lemma scan_next S i acc p q : decoding S s i acc p q →
  ge_s i (len s) = true ∧ q = [] ∧ acc ++ S [] = S s ∨ ge_s i (len s) = false ∧ ∃ u q', q = u :: q' ∧ unit16 u.
Proof.
  intros Hd. destruct (scan_len _ _ _ _ _ Hd) as [HL ?]. rewrite ge_s_small by lia. destruct Hd as (Hd & -> & Ha). destruct q as [|u q].
  - left. rewrite HL. cbn [length]. split_and!; [apply Z.leb_le; lia|done|done].
  - right. rewrite HL. cbn [length]. split; [apply Z.leb_gt; lia|]. exists u, q. split; [done|].
    pose proof Hs as Hall. rewrite Hd in Hall. apply Forall_app in Hall as [_ Hall]. by inversion Hall.
Qed.

(** A loop that fills an output of known length. *)
Lemma wp_scan_loop (S : list Z → list Z) n body (Q : list Z → unit → Prop) R st :
  n = len (S s) →
  (∀ i acc p q out st, decoding S s i acc p q → fills n acc out →
     wp (body (i, out)) (λ r st', match r with
       | inl (i', out') => i < i' ∧ ∃ acc' p' q', decoding S s i' acc' p' q' ∧ fills n acc' out'
       | inr out' => out' = S s
       end) R st) →
  Q (S s) st → wp (loop (Datatypes.S (length s)) body (0, zeros n)) Q R st.
Proof.
  intros Hl Hb HQ. destruct st.
  apply wp_loop with (λ '(i, out) _, ∃ acc p q, decoding S s i acc p q ∧ fills n acc out) (λ '(i, _), len s - i).
  - exists [], [], s. split; [apply decoding_start|apply fills_zeros; lia].
  - lia.
  - intros [i out] st (acc & p & q & Hd & Hf) _. eapply wp_mono; [exact (Hb _ _ _ _ _ st Hd Hf)| |done].
    intros [[i' out']|out'] st' H; cbn.
    + destruct H as (Hi & acc' & p' & q' & Hd' & Hf'). split; [eauto 6|].
      destruct (scan_len _ _ _ _ _ Hd'). destruct (scan_len _ _ _ _ _ Hd). lia.
    + rewrite H. by destruct st'.
Qed.

Lemma fromStr_latin_exact (Q : bview → unit → Prop) R st : Q (bytes_view (encode Latin1 s)) st → wp (fromStr_latin s) Q R st.
Proof.
  intros HQ. apply wp_bind. assert (Hlen : ∀ l, len (encode Latin1 l) = len l) by (intros; cbn; by rewrite length_map).
  apply wp_scan_loop with (encode Latin1); [by rewrite Hlen| |apply wp_mret; unfold bytes_view in HQ; by rewrite Hlen in HQ].
  intros i acc p q out st' Hd Hf. unfold latin_put.
  destruct (scan_next _ _ _ _ _ Hd) as [(-> & -> & Ha)|(-> & u & q' & -> & Hu)].
  { apply wp_mret. rewrite app_nil_r in Ha. rewrite <- Ha. apply (fills_full _ _ _ Hf). rewrite Ha, Hlen. lia. }
  destruct (scan_len _ _ _ _ _ Hd) as [HB Hi]. cbn [length] in HB. destruct Hd as (Hd & -> & Ha).
  assert (Hacc : len acc = len p) by (apply (f_equal (λ l, len l)) in Ha; rewrite length_app, Nat2Z.inj_add, !Hlen in Ha; cbn [length] in Ha; lia).
  apply wp_bind. apply (wp_unit_at s p u q'); [done|done|].
  apply wp_bind. eapply wp_set8; [exact Hf|lia|lia|]. intros out1 Hf1. rewrite add32_id by lia. apply wp_mret. split; [lia|].
  eexists _, (p ++ [u])%list, q'. split; [|exact Hf1]. split_and!; [by rewrite <- app_assoc|rewrite length_app; cbn [length]; lia|].
  by rewrite <- Ha, <- app_assoc.
Qed.

Lemma fromStr_utf16le_exact (Q : bview → unit → Prop) R st : Q (bytes_view (encode Utf16le s)) st → wp (fromStr_utf16le s) Q R st.
Proof.
  intros HQ. apply wp_bind. assert (Hlen : ∀ l, len (encode Utf16le l) = len l * 2).
  { induction l as [|u l IH]; [done|]. change (encode Utf16le (u :: l)) with ([u mod 256; u / 256] ++ encode Utf16le l). rewrite length_app, Nat2Z.inj_add, IH. cbn [length]. lia. }
  rewrite mul32_id by lia. apply wp_scan_loop with (encode Utf16le); [by rewrite Hlen| |apply wp_mret; unfold bytes_view in HQ; by rewrite Hlen in HQ].
  intros i acc p q out st' Hd Hf. unfold utf16_put.
  destruct (scan_next _ _ _ _ _ Hd) as [(-> & -> & Ha)|(-> & u & q' & -> & Hu)].
  { apply wp_mret. rewrite app_nil_r in Ha. rewrite <- Ha. apply (fills_full _ _ _ Hf). rewrite Ha, Hlen. lia. }
  destruct (scan_len _ _ _ _ _ Hd) as [HB Hi]. cbn [length] in HB. destruct Hd as (Hd & -> & Ha).
  assert (Hacc : len acc = len p * 2) by (apply (f_equal (λ l, len l)) in Ha; rewrite length_app, Nat2Z.inj_add, !Hlen in Ha; cbn [length] in Ha; lia).
  apply wp_bind. apply (wp_unit_at s p u q'); [done|done|]. rewrite mul32_id, !add32_id by lia.
  apply wp_bind. eapply wp_set8; [exact Hf|lia|lia|]. intros out1 Hf1.
  apply wp_bind. eapply wp_set8; [exact Hf1|rewrite length_app; cbn [length]; lia|rewrite length_app; cbn [length]; lia|]. intros out2 Hf2.
  apply wp_mret. split; [lia|].
  eexists _, (p ++ [u])%list, q'. split; [|exact Hf2]. split_and!; [by rewrite <- app_assoc|rewrite length_app; cbn [length]; lia|].
  rewrite <- Ha, <- !app_assoc. cbn [encode flat_map app]. unfold unit16 in Hu. do 2 f_equal.
  - change 0xff with (Z.ones 8). rewrite Z.land_ones by lia. by rewrite Z.mod_mod by lia.
  - f_equal. rewrite Z.shiftr_div_pow2 by lia. change (2 ^ 8) with 256. apply Z.mod_small. split; [apply Z.div_pos; lia|apply Z.div_lt_upper_bound; lia].
Qed.

Lemma fromStr_hex_exact (Q : bview → unit → Prop) R st : Q (bytes_view (encode Hex s)) st → wp (fromStr_hex s) Q R st.
Proof.
  intros HQ. cbn [encode] in HQ. destruct st. apply wp_bind.
  assert (Hq : 2 * Z.quot (len s) 2 + 1 >= len s ∧ 0 <= 2 * Z.quot (len s) 2 <= len s) by (rewrite Z.quot_div_nonneg by lia; Z.to_euclidean_division_equations; lia).
  apply wp_loop with (λ '(i, o, out) _, ∃ acc p q, decoding unhex s i acc p q ∧ o = len acc ∧ 2 * o <= i ∧ fills (Z.quot (len s) 2) acc out) (λ '(i, _, _), len s - i).
  { exists [], [], s. split_and!; [apply decoding_start|done|done|apply fills_zeros; lia]. }
  { lia. }
  intros [[i o] out] st' (acc & p & q & Hd & -> & Ho & Hf) _. unfold hex_put.
  destruct (scan_len _ _ _ _ _ Hd) as [HB Hi]. destruct Hd as (Hd & -> & Ha). rewrite !add32_id by lia. rewrite gt_s_small by lia.
  assert (Hstop : unhex q = [] → wp (emitBytesFromScratch out (len acc)) Q R st').
  { intros Hnil. destruct st'. rewrite Hnil, app_nil_r in Ha. eapply wp_fresh; [exact Hf|done|]. by rewrite Ha. }
  destruct (Z.ltb_spec (len s) (len p + 2)) as [Hlt|Hge].
  { apply wp_mret. cbn. apply Hstop. destruct q as [|a [|b q]]; [done|done|cbn [length] in HB; lia]. }
  destruct q as [|u0 [|u1 q]]; cbn [length] in HB; try lia.
  apply wp_bind. apply (wp_unit_at s p u0 (u1 :: q)); [done|done|].
  apply wp_bind. apply (wp_unit_at s (p ++ [u0]) u1 q); [by rewrite <- app_assoc|rewrite length_app; cbn [length]; lia|].
  cbn [unhex] in Ha, Hstop. cbv zeta. destruct ((emitHexVal u0 <? 0) || (emitHexVal u1 <? 0)) eqn:E.
  { apply wp_mret. cbn. by apply Hstop. }
  apply orb_false_iff in E as [E0%Z.ltb_ge E1%Z.ltb_ge].
  assert (Hr : ∀ u, emitHexVal u <= 15) by (intros u; unfold emitHexVal; repeat case_match; zb; lia).
  apply wp_bind. eapply wp_set8; [exact Hf|done|lia|]. intros out1 Hf1. apply wp_mret. split; [|lia].
  assert (Hv : Z.lor (shl32 (emitHexVal u0) 4) (emitHexVal u1) mod 2 ^ 8 = 16 * emitHexVal u0 + emitHexVal u1).
  { pose proof (Hr u0). pose proof (Hr u1). rewrite shl32_small by lia. rewrite Z.lor_comm, lor_add by lia. rewrite Z.mod_small; lia. }
  rewrite Hv in Hf1. eexists _, (p ++ [u0; u1])%list, q. split_and!; [| | |exact Hf1].
  - split_and!; [by rewrite <- app_assoc|rewrite length_app; cbn [length]; lia|]. by rewrite <- Ha, <- app_assoc.
  - rewrite length_app. cbn [length]. lia.
  - lia.
Qed.

(** *** base64 *)

Definition six_val (h : list Z) : Z := fold_left (λ x v, 64 * x + v) h 0.
Definition b64_inv (st : b64st) : Prop := ∃ acc h p q g,
  s = p ++ q ∧ I64 st = len p ∧ acc ++ unsix (h ++ sixes q) = unsix (sixes s) ∧ Forall (λ v, 0 <= v < 64) h ∧ len h < 4 ∧
  HAVE st = len h ∧ ACC st = six_val h ∧ O64 st = len acc ∧ len acc = 3 * g ∧ 4 * g + len h <= len p ∧
  fills (3 * (len s / 4) + 2) acc (OUT64 st).

Lemma b64val_range u : emitB64Val u < 64.
Proof. unfold emitB64Val. repeat case_match; zb; lia. Qed.

Lemma six_cases (h : list Z) : len h < 4 → h = [] ∨ (∃ a, h = [a]) ∨ (∃ a b, h = [a; b]) ∨ (∃ a b c, h = [a; b; c]).
Proof. destruct h as [|a [|b [|c [|]]]]; cbn; intros; [eauto 10..|lia]. Qed.

Lemma six_group a b c d : 0 <= a < 64 → 0 <= b < 64 → 0 <= c < 64 → 0 <= d < 64 → let x := 64 * (64 * (64 * a + b) + c) + d in
  (x / 2 ^ 16) mod 2 ^ 8 = a * 4 + b / 16 ∧ (x / 2 ^ 8) mod 2 ^ 8 = b mod 16 * 16 + c / 4 ∧ x mod 2 ^ 8 = c mod 4 * 64 + d.
Proof.
  intros. cbn zeta. change (2 ^ 16) with 65536. change (2 ^ 8) with 256. split_and!; Z.to_euclidean_division_equations; lia.
Qed.

Lemma b64_step_ok st (R : Z → unit → Prop) t : b64_inv st →
  wp (b64_put s st) (λ r _, match r with
    | inl st' => b64_inv st' ∧ I64 st' = I64 st + 1 ∧ I64 st < len s
    | inr st' => st' = st ∧ len s <= I64 st
    end) R t.
Proof.
  intros (acc & h & p & q & g & Hd & Hi & Ha & Hh & Hh4 & HH & HA & Ho & Hg & Hroom & Hf). unfold b64_put.
  assert (HB : len s = len p + len q) by (rewrite Hd at 1; rewrite length_app; lia). rewrite Hi, ge_s_small by lia.
  destruct (Z.leb_spec (len s) (len p)) as [Hle|Hgt]; [by apply wp_mret|].
  destruct q as [|u q]; cbn [length] in HB; [lia|]. apply wp_bind. apply (wp_unit_at s p u q); [done|done|]. cbv zeta. rewrite (add32_id (len p)) by lia.
  pose proof (b64val_range u) as Hu64.
  assert (Hp' : s = (p ++ [u]) ++ q) by by rewrite <- app_assoc.
  assert (Hlp : len p + 1 = len (p ++ [u])) by (rewrite length_app; cbn [length]; lia).
  change (u :: q) with ([u] ++ q)%list in Ha. rewrite sixes_app in Ha. unfold sixes at 1 in Ha. cbn [map] in Ha.
  destruct (Z.leb_spec 0 (emitB64Val u)) as [Hv|Hv].
  2: { rewrite filter_cons_False in Ha by lia. apply wp_mret. split_and!; [|done|lia]. exists acc, h, (p ++ [u])%list, q, g. cbn. split_and!; done || lia. }
  rewrite filter_cons_True in Ha by lia. rewrite filter_nil in Ha. set (v := emitB64Val u) in *.
  assert (Hval : six_val (h ++ [v]) = 64 * six_val h + v) by (unfold six_val; by rewrite fold_left_app).
  assert (Hsv : 0 <= six_val h < 2 ^ 18).
  { destruct (six_cases h Hh4) as [->|[(a & ->)|[(a & b & ->)|(a & b & c & ->)]]]; rewrite ?Forall_cons in Hh; unfold six_val; cbn [fold_left]; lia. }
  assert (Hacc : Z.lor (shl32 (ACC st) 6) v = six_val (h ++ [v])).
  { rewrite HA, shl32_small by lia. rewrite Z.lor_comm, lor_add by lia. rewrite Hval. lia. }
  rewrite Hacc, HH, (add32_id (len h)) by lia. rewrite app_assoc in Ha.
  assert (Hfh : Forall (λ v, 0 <= v < 64) (h ++ [v])) by (apply Forall_app; split; [done|by repeat constructor]).
  destruct (Z.eqb_spec (len h + 1) 4) as [H4|H4].
  - assert (Hroom3 : 3 * g + 3 <= 3 * (len s / 4)) by (Z.to_euclidean_division_equations; lia).
    assert (∃ a b c, h = [a; b; c]) as (a & b & c & ->).
    { destruct (six_cases h Hh4) as [->|[(a & ->)|[(a & b & ->)|(a & b & c & ->)]]]; [cbn in H4; lia..|eauto]. }
    rewrite !Forall_cons in Hh. destruct Hh as (Hx & Hy & Hz & _).
    destruct (six_group a b c v) as (E1 & E2 & E3); [lia..|]. change (six_val ([a; b; c] ++ [v])) with (64 * (64 * (64 * (64 * 0 + a) + b) + c) + v).
    rewrite Z.mul_0_r, Z.add_0_l, !Z.shiftr_div_pow2, Ho by lia. rewrite !add32_id by lia. change (2 ^ 0) with 1. rewrite Z.div_1_r.
    apply wp_bind. eapply wp_set8; [exact Hf|lia|lia|]. intros o1 Hf1.
    apply wp_bind. eapply wp_set8; [exact Hf1|rewrite length_app; cbn [length]; lia|rewrite length_app; cbn [length]; lia|]. intros o2 Hf2.
    apply wp_bind. eapply wp_set8; [exact Hf2|rewrite !length_app; cbn [length]; lia|rewrite !length_app; cbn [length]; lia|]. intros o3 Hf3.
    apply wp_mret. split_and!; [|done|lia]. rewrite E1, E2, E3, <- !app_assoc in Hf3. cbn [app] in Hf3.
    eexists _, [], (p ++ [u])%list, q, (g + 1). cbn [I64 O64 ACC HAVE OUT64 length] in *. split_and!; [done|done| |constructor|lia|done|done| | |lia|exact Hf3].
    + rewrite <- Ha, <- app_assoc. done.
    + rewrite length_app. cbn [length]. lia.
    + rewrite length_app. cbn [length]. lia.
  - apply wp_mret. split_and!; [|done|lia]. exists acc, (h ++ [v])%list, (p ++ [u])%list, q, g. cbn [I64 O64 ACC HAVE OUT64].
    rewrite (length_app h). cbn [length]. split_and!; try done; lia.
Qed.

Lemma fromStr_base64_exact (Q : bview → unit → Prop) R st : Q (bytes_view (encode Base64 s)) st → wp (fromStr_base64 s) Q R st.
Proof.
  intros HQ. cbn [encode] in HQ. destruct st. assert (Hq : 0 <= 4 * (len s / 4) <= len s) by (Z.to_euclidean_division_equations; lia).
  unfold fromStr_base64. rewrite Z.quot_div_nonneg by lia. rewrite mul32_id, add32_id by lia. apply wp_bind.
  apply wp_loop with (λ st _, b64_inv st) (λ st, len s - I64 st).
  { exists [], [], [], s, 0. cbn. split_and!; try done. replace (len s / 4 * 3 + 2) with (3 * (len s / 4) + 2) by lia. apply fills_zeros. cbn. lia. }
  { cbn. lia. }
  intros st t Hinv _. eapply wp_mono; [by apply b64_step_ok| |done]. intros [st'|st'] []; [intros (? & ? & ?); split; [done|lia]|]. intros [-> Hle].
  destruct Hinv as (acc & h & p & q & g & Hd & Hi & Ha & Hh & Hh4 & -> & -> & -> & Hg & Hroom & Hf).
  assert (HB : len s = len p + len q) by (rewrite Hd at 1; rewrite length_app; lia). destruct q; [|cbn [length] in HB; lia].
  cbn [length] in HB. change (sixes []) with (@nil Z) in Ha. rewrite app_nil_r in Ha.
  assert (Hroom3 : g <= len s / 4) by (Z.to_euclidean_division_equations; lia).
  destruct (six_cases h Hh4) as [->|[(a & ->)|[(a & b & ->)|(a & b & c & ->)]]]; rewrite ?Forall_cons in Hh; cbn [length unsix] in *; unfold six_val; cbn [fold_left].
  - eapply wp_fresh; [exact Hf|done|]. by rewrite <- Ha, app_nil_r in HQ.
  - eapply wp_fresh; [exact Hf|done|]. by rewrite <- Ha, app_nil_r in HQ.
  - apply wp_bind. eapply wp_set8; [exact Hf|done|lia|]. intros o1 Hf1.
    rewrite add32_id by lia. eapply wp_fresh; [exact Hf1|rewrite length_app; cbn [length]; lia|].
    replace (Z.shiftr (64 * (64 * 0 + a) + b) 4 mod 2 ^ 8) with (a * 4 + b / 16); [by rewrite Ha|].
    rewrite Z.shiftr_div_pow2 by lia. change (2 ^ 8) with 256. change (2 ^ 4) with 16. Z.to_euclidean_division_equations. lia.
  - apply wp_bind. eapply wp_set8; [exact Hf|done|lia|]. intros o1 Hf1. rewrite !add32_id by lia.
    apply wp_bind. eapply wp_set8; [exact Hf1|rewrite length_app; cbn [length]; lia|rewrite length_app; cbn [length]; lia|]. intros o2 Hf2.
    eapply wp_fresh; [exact Hf2|rewrite !length_app; cbn [length]; lia|].
    replace (Z.shiftr (64 * (64 * (64 * 0 + a) + b) + c) 10 mod 2 ^ 8) with (a * 4 + b / 16).
    2: { rewrite Z.shiftr_div_pow2 by lia. change (2 ^ 8) with 256. change (2 ^ 10) with 1024. Z.to_euclidean_division_equations. lia. }
    replace (Z.shiftr (64 * (64 * (64 * 0 + a) + b) + c) 2 mod 2 ^ 8) with (b mod 16 * 16 + c / 4).
    2: { rewrite Z.shiftr_div_pow2 by lia. change (2 ^ 8) with 256. change (2 ^ 2) with 4. Z.to_euclidean_division_equations. lia. }
    rewrite <- app_assoc. cbn [app]. by rewrite Ha.
Qed.

(** *** utf8 *)

Lemma wp_storeBytes bs n acc out (Q : Z * list Z → unit → Prop) R st :
  fills n acc out → len acc + len bs <= n → n < 2 ^ 32 →
  (∀ out', fills n (acc ++ map (λ b, b mod 256) bs) out' → Q (len acc + len bs, out') st) → wp (storeBytes 0 bs (len acc) out) Q R st.
Proof.
  intros Hf Hl H32 HQ.
  assert (Hgen : ∀ bs k acc' out, fills n acc' out → len acc' = len acc + Z.of_nat k → len acc' + len bs <= n →
    (∀ out', fills n (acc' ++ map (λ b, b mod 256) bs) out' → Q (len acc' + len bs, out') st) → wp (storeBytes (Z.of_nat k) bs (len acc) out) Q R st).
  { clear bs out Hf Hl HQ. intros bs. induction bs as [|b bs IH]; intros k acc' out Hf Hk Hl HQ; cbn [storeBytes length map] in *; rewrite add32_id by lia.
    - apply wp_mret. rewrite <- Hk. specialize (HQ out). rewrite app_nil_r, Z.add_0_r in HQ. by apply HQ.
    - apply wp_bind. eapply wp_set8; [exact Hf|lia|lia|]. intros out' Hf'. change (2 ^ 8) with 256 in Hf'.
      replace (Z.of_nat k + 1) with (Z.of_nat (S k)) by lia. apply (IH (S k) _ _ Hf'); rewrite ?length_app; cbn [length]; [lia|lia|].
      intros out2 Hf2. rewrite <- app_assoc in Hf2. replace (Z.of_nat (length acc' + 1) + len bs) with (len acc' + Z.of_nat (S (length bs))) by lia. by apply HQ. }
  apply (Hgen bs 0%nat acc out); auto; lia.
Qed.

Lemma lor_head c k x : 0 <= k → c mod 2 ^ k = 0 → 0 <= x < 2 ^ k → Z.lor c x = c + x.
Proof.
  intros Hk Hc Hx. rewrite (Z.div_mod c (2 ^ k)), Hc, Z.add_0_r, (Z.mul_comm (2 ^ k)) by (apply Z.pow_nonzero; lia).
  rewrite Z.lor_comm, lor_add by lia. lia.
Qed.

Lemma tail6_value u k : 0 <= k → tail6 u k mod 256 = 0x80 + u / 2 ^ k mod 64.
Proof.
  intros Hk. unfold tail6. change 0x3f with (Z.ones 6). rewrite Z.land_ones, Z.shiftr_div_pow2 by lia. change (2 ^ 6) with 64.
  pose proof (Z.mod_pos_bound (u / 2 ^ k) 64). rewrite (lor_head 0x80 7) by (done || lia). apply Z.mod_small. lia.
Qed.

Lemma head_value c k u j : 0 <= k → 0 <= j → c mod 2 ^ k = 0 → 0 <= c → c + 2 ^ k <= 256 → 0 <= u < 2 ^ k * 2 ^ j → Z.lor c (Z.shiftr u j) mod 256 = c + u / 2 ^ j.
Proof.
  intros Hk Hj Hc Hc0 Hc2 Hu. rewrite Z.shiftr_div_pow2 by lia. assert (0 <= u / 2 ^ j < 2 ^ k).
  { assert (0 < 2 ^ j) by (apply Z.pow_pos_nonneg; lia). split; [apply Z.div_pos; lia|apply Z.div_lt_upper_bound; lia]. }
  rewrite (lor_head c k) by (done || lia). apply Z.mod_small. lia.
Qed.

(** The bytes stored for one code point. *)
Lemma point_bytes c : 0 <= c < 0x110000 →
  map (λ b, b mod 256) (if c <? 0x80 then [c] else if c <? 0x800 then [Z.lor 0xc0 (Z.shiftr c 6); tail6 c 0]
    else if c <? 0x10000 then [Z.lor 0xe0 (Z.shiftr c 12); tail6 c 6; tail6 c 0]
    else [Z.lor 0xf0 (Z.shiftr c 18); tail6 c 12; tail6 c 6; tail6 c 0]) = utf8_bytes c.
Proof.
  intros Hc. unfold utf8_bytes. destruct (Z.ltb_spec c 0x80); [cbn; by rewrite Z.mod_small by lia|].
  destruct (Z.ltb_spec c 0x800); [|destruct (Z.ltb_spec c 0x10000)]; cbn [map]; rewrite !tail6_value by lia.
  - rewrite (head_value 0xc0 5 c 6) by (done || lia). by rewrite Z.div_1_r.
  - rewrite (head_value 0xe0 4 c 12) by (done || lia). by rewrite Z.div_1_r.
  - rewrite (head_value 0xf0 3 c 18) by (done || lia). by rewrite Z.div_1_r.
Qed.

(** The bits of [u] from the [k]-th up. *)
Lemma land_high n k u : 0 <= k → 0 <= n → 0 <= u < 2 ^ n → Z.land u (Z.ldiff (Z.ones n) (Z.ones k)) = u / 2 ^ k * 2 ^ k.
Proof.
  intros Hk Hn0 Hu. assert (E : Z.land u (Z.ldiff (Z.ones n) (Z.ones k)) = Z.ldiff (Z.land u (Z.ones n)) (Z.ones k)).
  { apply Z.bits_inj'. intros i _. rewrite Z.land_spec, !Z.ldiff_spec, Z.land_spec. by rewrite andb_assoc. }
  rewrite E, Z.land_ones, Z.mod_small, Z.ldiff_ones_r, Z.shiftl_mul_pow2, Z.shiftr_div_pow2 by lia. done.
Qed.

Lemma land_f800 u : unit16 u → (Z.land u 0xf800 =? 0xd800) = high u || low u.
Proof.
  intros Hu. change 0xf800 with (Z.ldiff (Z.ones 16) (Z.ones 11)). rewrite land_high by (done || lia). change (2 ^ 11) with 2048.
  unfold high, low. pose proof (Z.div_mod u 2048). pose proof (Z.mod_pos_bound u 2048).
  destruct (Z.eqb_spec (u / 2048 * 2048) 0xd800), (Z.leb_spec 0xd800 u), (Z.ltb_spec u 0xdc00), (Z.leb_spec 0xdc00 u), (Z.ltb_spec u 0xe000); cbn; try done; lia.
Qed.

Lemma land_fc00 u : unit16 u → (Z.land u 0xfc00 =? 0xdc00) = low u.
Proof.
  intros Hu. change 0xfc00 with (Z.ldiff (Z.ones 16) (Z.ones 10)). rewrite land_high by (done || lia). change (2 ^ 10) with 1024.
  unfold low. pose proof (Z.div_mod u 1024). pose proof (Z.mod_pos_bound u 1024).
  destruct (Z.eqb_spec (u / 1024 * 1024) 0xdc00), (Z.leb_spec 0xdc00 u), (Z.ltb_spec u 0xe000); cbn; try done; lia.
Qed.

Lemma utf8_bytes_length c : scalar c → 1 <= len (utf8_bytes c) <= (if c <? 0x10000 then 3 else 4).
Proof. intros [Hc _]. unfold utf8_bytes. repeat case_match; zb; cbn [length]; lia. Qed.

Definition utf8_inv (st : Z * Z * list Z) : Prop := let '(i, o, out) := st in
  ∃ acc p q, decoding (encode Utf8) s i acc p q ∧ o = len acc ∧ len acc <= 3 * i ∧ fills (len s * 3) acc out.
Definition utf8_post (i : Z) (r : Z * Z * list Z + Z * list Z) (_ : unit) : Prop :=
  match r with
  | inl st => utf8_inv st ∧ i < st.1.1 <= len s
  | inr (o, out) => o = len (encode Utf8 s) ∧ fills (len s * 3) (encode Utf8 s) out
  end.

(** One code point of the units [us] stored. *)
Lemma utf8_put_point p us q acc out c (R : Z → unit → Prop) t bs j :
  s = p ++ us ++ q → (1 <= length us)%nat → acc ++ encode Utf8 (us ++ q) = encode Utf8 s → len acc <= 3 * len p → fills (len s * 3) acc out →
  points (us ++ q) = c :: points q → map (λ b, b mod 256) bs = utf8_bytes c → len bs <= 3 * len us → j = len p + len us →
  wp ('(o, out) <- storeBytes 0 bs (len acc) out;; mret (inl (j, o, out))) (utf8_post (len p)) R t.
Proof.
  intros Hd Hus Ha Hacc Hf Hpt Hbs Hl ->. assert (HB : len s = len p + len us + len q) by (rewrite Hd at 1; rewrite !length_app; lia).
  apply wp_bind. apply (wp_storeBytes bs (len s * 3) acc out); [done|lia|lia|]. intros out' Hf'. apply wp_mret. split; [|cbn; lia].
  rewrite Hbs in Hf'. assert (Hlb : len bs = len (utf8_bytes c)) by (rewrite <- Hbs, length_map; done).
  exists (acc ++ utf8_bytes c)%list, (p ++ us)%list, q. split_and!; [split_and!|..].
  - by rewrite <- app_assoc.
  - rewrite length_app. lia.
  - rewrite <- Ha. cbn [encode]. rewrite Hpt. cbn [flat_map]. by rewrite <- app_assoc.
  - rewrite length_app. lia.
  - rewrite length_app. lia.
  - done.
Qed.

Section put.
Context (p : list Z) (u : Z) (q acc out : list Z) (R : Z → unit → Prop) (t : unit).
Hypothesis Hd : s = p ++ u :: q.
Hypothesis Ha : acc ++ encode Utf8 (u :: q) = encode Utf8 s.
Hypothesis Ho : len acc <= 3 * len p.
Hypothesis Hf : fills (len s * 3) acc out.
Let Hu : unit16 u.
Proof. pose proof Hs as Hall. rewrite Hd in Hall. apply Forall_app in Hall as [_ Hall]. by inversion Hall. Qed.
Let Hq : Forall unit16 q.
Proof. pose proof Hs as Hall. rewrite Hd in Hall. apply Forall_app in Hall as [_ Hall]. by inversion Hall. Qed.

(** A unit that is no surrogate. *)
Lemma utf8_put_plain bs : high u = false → low u = false → map (λ b, b mod 256) bs = utf8_bytes u → len bs <= 3 →
  wp ('(o, out) <- storeBytes 0 bs (len acc) out;; mret (inl (len p + 1, o, out))) (utf8_post (len p)) R t.
Proof. intros Eh El Hbs Hl. apply (utf8_put_point p [u] q acc out u); [done..| |done|done|done]. cbn [app points]. by rewrite Eh, El. Qed.

Lemma utf8_put_lone : points (u :: q) = 0xfffd :: points q →
  wp ('(o, out) <- storeBytes 0 [0xef; 0xbf; 0xbd] (len acc) out;; mret (inl (len p + 1, o, out))) (utf8_post (len p)) R t.
Proof. intros Hp. by apply (utf8_put_point p [u] q acc out 0xfffd). Qed.

Lemma utf8_put_surrogate : high u || low u = true →
  wp (next <- (if (u <? 0xdc00) && (len p + 1 <? len s) then x <- unit_at s (len p + 1);; mret (if Z.land x 0xfc00 =? 0xdc00 then Some x else None) else mret None);;
      match next with
      | Some x =>
          let u := add32 (add32 (shl32 (sub32 u 0xd800) 10) (sub32 x 0xdc00)) 0x10000 in
          '(o, out) <- storeBytes 0 [Z.lor 0xf0 (Z.shiftr u 18); tail6 u 12; tail6 u 6; tail6 u 0] (len acc) out;;
          mret (inl (add32 (len p + 1) 1, o, out))
      | None => '(o, out) <- storeBytes 0 [0xef; 0xbf; 0xbd] (len acc) out;; mret (inl (len p + 1, o, out))
      end) (utf8_post (len p)) R t.
Proof.
  intros Esur. pose proof Hu as Hu'. unfold unit16 in Hu'. pose proof (high_spec u) as Su. pose proof (low_spec u) as Sl.
  assert (HB : len s = len p + Z.of_nat (S (length q))) by (rewrite Hd at 1; rewrite length_app; cbn [length]; lia).
  apply wp_bind. destruct ((u <? 0xdc00) && (len p + 1 <? len s)) eqn:E.
  2: { apply wp_mret, utf8_put_lone. apply andb_false_iff in E as [E%Z.ltb_ge|E%Z.ltb_ge].
    - cbn [points]. destruct (high u) eqn:Eh; [lia|]. cbn in Esur. by rewrite Esur.
    - assert (Hnil : q = []) by (apply length_zero_iff_nil; lia). rewrite Hnil. cbn [points]. destruct (high u); [done|]. cbn in Esur. by rewrite Esur. }
  apply andb_true_iff in E as [E1%Z.ltb_lt E2%Z.ltb_lt].
  assert (Eh : high u = true) by (destruct (high u); [done|]; destruct (low u); [lia|done]). rewrite Eh in Su.
  assert (∃ x q', q = x :: q') as (x & q' & Eq) by (clear -HB E2; destruct q; [cbn [length] in HB; lia|eauto]).
  pose proof Hq as Hq'. rewrite Eq, Forall_cons in Hq'. destruct Hq' as [Hx _].
  apply wp_bind. apply (wp_unit_at s (p ++ [u]) x q'); [by rewrite <- app_assoc, <- Eq|rewrite length_app; cbn [length]; lia|].
  rewrite land_fc00 by done. apply wp_mret. destruct (low x) eqn:El; [|apply utf8_put_lone; rewrite Eq; by apply points_lone].
  pose proof (low_spec x) as Sx. rewrite El in Sx. unfold unit16 in Hx. rewrite !sub32_id, shl32_small by lia. rewrite (add32_id ((u - 0xd800) * 2 ^ 10)), !add32_id by lia.
  replace ((u - 0xd800) * 2 ^ 10 + (x - 0xdc00) + 0x10000) with (join_pair u x) by (unfold join_pair; lia).
  apply (utf8_put_point p [u; x] q' acc out (join_pair u x)); [by rewrite Hd, Eq|cbn; lia|cbn [app]; by rewrite <- Eq|done|done|cbn [app points]; by rewrite Eh, El| |done|cbn [length]; lia].
  rewrite <- point_bytes by (unfold join_pair; lia).
  by rewrite (proj2 (Z.ltb_ge _ 0x80)), (proj2 (Z.ltb_ge _ 0x800)), (proj2 (Z.ltb_ge _ 0x10000)) by (unfold join_pair; lia).
Qed.

Lemma utf8_put_unit : wp (utf8_put s (len p, len acc, out)) (utf8_post (len p)) R t.
Proof.
  assert (HB : len s = len p + Z.of_nat (S (length q))) by (rewrite Hd at 1; rewrite length_app; cbn [length]; lia).
  pose proof Hu as Hu'. unfold unit16 in Hu'. pose proof (high_spec u) as Su. pose proof (low_spec u) as Sl.
  unfold utf8_put. destruct (Z.leb_spec (len s) (len p)); [lia|]. apply wp_bind. apply (wp_unit_at s p u q); [done|done|].
  cbv zeta. rewrite (add32_id (len p)) by lia. pose proof (point_bytes u) as Hpb.
  destruct (Z.ltb_spec u 0x80); [apply utf8_put_plain; [destruct (high u); done || lia|destruct (low u); done || lia|apply Hpb; lia|done]|].
  destruct (Z.ltb_spec u 0x800); [apply utf8_put_plain; [destruct (high u); done || lia|destruct (low u); done || lia|apply Hpb; lia|done]|].
  rewrite land_f800 by done. destruct (high u || low u) eqn:Esur; [by apply utf8_put_surrogate|].
  apply orb_false_iff in Esur as [Eh El]. apply utf8_put_plain; [done|done| |done]. rewrite (proj2 (Z.ltb_lt u 0x10000)) in Hpb by lia. apply Hpb. lia.
Qed.
End put.

Lemma fromStr_utf8_exact (Q : bview → unit → Prop) R st : Q (bytes_view (encode Utf8 s)) st → wp (fromStr_utf8 s) Q R st.
Proof.
  intros HQ. destruct st. unfold fromStr_utf8. rewrite mul32_id by lia. apply wp_bind.
  apply wp_loop with (λ st _, utf8_inv st) (λ st, len s - st.1.1).
  { exists [], [], s. split_and!; [apply decoding_start|done|done|apply fills_zeros; lia]. }
  { cbn. lia. }
  intros [[i o] out] t (acc & p & q & Hd & -> & Ho & Hf) _. destruct Hd as (Hd & -> & Ha).
  eapply wp_mono with (Q := utf8_post (len p)) (R := R); [| |done].
  - destruct q as [|u q]; [|by apply (utf8_put_unit p u q acc out)]. rewrite app_nil_r in Hd. unfold utf8_put. rewrite <- Hd, Z.leb_refl.
    apply wp_mret. change (encode Utf8 []) with (@nil Z) in Ha. rewrite app_nil_r in Ha. unfold utf8_post. by rewrite <- Ha.
  - intros [st'|[o' out']] []; cbn; [intros [? ?]; split; [done|lia]|]. intros [-> Hf']. by eapply wp_fresh.
Qed.
End encoders.

(** Every encoder of Buffer.from(string, enc) terminates without a trap and
    returns a fresh buffer that holds exactly the reference encoding of the
    string: for hex the pairs up to the first invalid one, for base64 the groups
    of the characters of either alphabet, for utf8 the bytes of the code points
    with a lone surrogate read as U+FFFD. *)
Theorem fromStr_exact (e : enc) (s : list Z) : Forall unit16 s → len s < 2 ^ 29 → fromStr e s tt = (Val (bytes_view (encode e s)), tt).
Proof.
  intros Hs Hn. assert (H : wp (fromStr e s) (λ v _, v = bytes_view (encode e s)) (λ _ _, False) tt).
  { destruct e; cbn [fromStr]; [apply fromStr_utf8_exact|apply fromStr_utf16le_exact|apply fromStr_base64_exact|apply fromStr_base64_exact|apply fromStr_latin_exact|apply fromStr_latin_exact|apply fromStr_hex_exact]; done. }
  apply wp_run in H as (u & [] & -> & ->). done.
Qed.

(** ** Round trips of the code *)

Definition through_string (e : enc) (v : bview) : BM bview := s <- toStr e v;; fromStr e s.
Definition through_bytes (e : enc) (s : list Z) : BM (list Z) := v <- fromStr e s;; toStr e v.

Lemma byte_unit b : byte b → unit16 b.
Proof. unfold byte, unit16. lia. Qed.

Lemma pad64_length url k : (length (pad64 url k) <= k)%nat.
Proof. unfold pad64. destruct url; [cbn; lia|by rewrite length_replicate]. Qed.

Lemma text_units e bs : Forall byte bs → e ∈ [Hex; Base64; Base64url; Latin1] → Forall unit16 (decode e bs) ∧ len (decode e bs) <= 2 * len bs + 2.
Proof.
  intros Hb He. assert (H64 : ∀ url, Forall unit16 (spec_b64 url bs) ∧ len (spec_b64 url bs) <= 2 * len bs + 2).
  { intros url. assert (Hpad : ∀ k, Forall unit16 (pad64 url k)) by (intros k; unfold pad64; destruct url; [done|by apply Forall_replicate]).
    assert (Hd : ∀ xs, Forall (λ x, 0 <= x < 64) xs → Forall unit16 (map (digit64 url) xs)).
    { intros xs. induction 1 as [|x xs Hx _ IH]; [done|]. constructor; [|done]. pose proof (digit64_range url x Hx). unfold unit16. lia. }
    induction bs as [|a|a b|a b c l IH] using triple_ind; [done|..]; rewrite ?Forall_cons in Hb; cbn [spec_b64].
    - destruct Hb as [Ha _]. split; [|pose proof (pad64_length url 2); rewrite length_app; cbn [length]; lia]. apply Forall_app. split; [|done].
      pose proof (six_range a 0 0 Ha ltac:(done) ltac:(done)) as H6. rewrite (Z.div_0_l 16), Z.add_0_r in H6 by lia. exact (Forall_take _ 2 _ (Hd _ H6)).
    - destruct Hb as (Ha & Hb & _). split; [|pose proof (pad64_length url 1); rewrite length_app; cbn [length]; lia]. apply Forall_app. split; [|done].
      pose proof (six_range a b 0 Ha Hb ltac:(done)) as H6. rewrite (Z.div_0_l 64), Z.add_0_r in H6 by lia. exact (Forall_take _ 3 _ (Hd _ H6)).
    - destruct Hb as (Ha & Hb & Hc & Hl). destruct (IH Hl) as [IH1 IH2]. split; [|rewrite length_app; cbn [length]; lia].
      apply Forall_app. split; [|done]. exact (Hd _ (six_range a b c Ha Hb Hc)). }
  rewrite !elem_of_cons in He. destruct He as [->|[->|[->|[->|He]]]]; [|by apply H64..| |by apply not_elem_of_nil in He].
  - split; [|cbn [decode]; rewrite spec_hex_length; lia]. cbn [decode]. clear H64. induction Hb as [|b l Hbb _ IH]; [done|]. cbn [spec_hex flat_map app].
    destruct (byte_halves b Hbb) as [H1 H2]. pose proof (hex_digit_range _ H1). pose proof (hex_digit_range _ H2). rewrite !Forall_cons. split_and!; [unfold unit16; lia..|exact IH].
  - cbn [decode]. unfold spec_latin. rewrite length_map, map_id. split; [|lia]. eapply Forall_impl; [done|]. apply byte_unit.
Qed.

(** C22. Text encodings lose no bytes: Buffer.from(buf.toString(enc), enc) for hex,
    base64, base64url and latin1 gives back the bytes of any view, in a fresh
    buffer, and nothing traps. *)
Theorem bytes_roundtrip (e : enc) (v : bview) : e ∈ [Hex; Base64; Base64url; Latin1] → view_ok v → BLEN v < 2 ^ 27 →
  through_string e v tt = (Val (bytes_view (data v)), tt).
Proof.
  intros He Hv Hl. unfold through_string, mbind. rewrite toStr_exact by done. pose proof (data_bytes v Hv) as Hb. pose proof (data_length v Hv) as HL.
  destruct (text_units e (data v) Hb He) as [Hu Hlen]. rewrite fromStr_exact by (done || lia). do 3 f_equal.
  rewrite !elem_of_cons in He. destruct He as [->|[->|[->|[->|He]]]]; [by apply hex_roundtrip|by apply b64_roundtrip|by apply b64_roundtrip|by apply latin_roundtrip|by apply not_elem_of_nil in He].
Qed.

Lemma utf8_bytes_byte c : scalar c → Forall byte (utf8_bytes c).
Proof.
  intros [Hc _]. unfold utf8_bytes. repeat case_match; zb; repeat constructor; unfold byte; Z.to_euclidean_division_equations; lia.
Qed.

Lemma encode_bytes e us : Forall unit16 us → e ∈ [Utf8; Utf16le] → Forall byte (encode e us) ∧ len (encode e us) <= 3 * len us.
Proof.
  intros Hu He. rewrite !elem_of_cons in He. destruct He as [->|[->|He]]; [| |by apply not_elem_of_nil in He]; cbn [encode].
  - split. { pose proof (points_scalar us Hu) as Hp. induction Hp as [|c cs Hc _ IH]; [done|]. cbn [flat_map]. apply Forall_app. split; [by apply utf8_bytes_byte|done]. }
    unfold unit16 in Hu. induction us as [|u us Hh IH|u Hh|u x us Hh Hl IH|u x us Hh Hl IH] using points_ind; [done|..]; rewrite ?Forall_cons in Hu.
    + cbn [points]. rewrite Hh. cbn [flat_map length]. rewrite length_app. specialize (IH ltac:(tauto)).
      assert (Hc : ∀ c, 0 <= c < 2 ^ 16 → (length (utf8_bytes c) <= 3)%nat) by (intros c ?; unfold utf8_bytes; repeat case_match; zb; cbn; lia).
      assert (length (utf8_bytes (if low u then 0xfffd else u)) <= 3)%nat by (apply Hc; destruct (low u); lia). lia.
    + cbn [points]. rewrite Hh. done.
    + cbn [points]. rewrite Hh, Hl. cbn [flat_map length]. rewrite length_app. specialize (IH ltac:(tauto)).
      assert (Hc : ∀ c, (length (utf8_bytes c) <= 4)%nat) by (intros c; unfold utf8_bytes; repeat case_match; cbn; lia). specialize (Hc (join_pair u x)). lia.
    + rewrite points_lone by done. cbn [flat_map length] in *. rewrite length_app. specialize (IH ltac:(rewrite Forall_cons; tauto)). change (length (utf8_bytes 65533)) with 3%nat. lia.
  - induction Hu as [|u us Hu _ [IH1 IH2]]; [done|]. unfold unit16 in Hu. cbn [flat_map app length]. split; [|lia].
    rewrite !Forall_cons. split_and!; [apply Z.mod_pos_bound; lia|split; [apply Z.div_pos; lia|apply Z.div_lt_upper_bound; lia]|exact IH1].
Qed.

(** C7. Buffer.from(s, enc).toString(enc) is the identity for utf16le, and for
    utf8 it is String.prototype.toWellFormed: every code point comes back and
    only lone surrogates are replaced. *)
Theorem string_roundtrip (s : list Z) : Forall unit16 s → len s < 2 ^ 29 →
  through_bytes Utf16le s tt = (Val s, tt) ∧ through_bytes Utf8 s tt = (Val (well_formed s), tt).
Proof.
  intros Hu Hl. assert (H : ∀ e, e ∈ [Utf8; Utf16le] → through_bytes e s tt = (Val (decode e (encode e s)), tt)).
  { intros e He. destruct (encode_bytes e s Hu He) as [Hb Hlen]. unfold through_bytes, mbind. rewrite fromStr_exact by done.
    rewrite toStr_exact by (apply bytes_view_ok; [done|lia]). by rewrite data_bytes_view. }
  rewrite !H by set_solver. by rewrite utf16_roundtrip, utf8_roundtrip.
Qed.

Lemma string_roundtrip_witness :
  through_bytes Utf16le [0x41; 0xd83d; 0xde00; 0xdc00] tt = (Val [0x41; 0xd83d; 0xde00; 0xdc00], tt) ∧
  through_bytes Utf8 [0x41; 0xd83d; 0xde00; 0xdc00] tt = (Val (well_formed [0x41; 0xd83d; 0xde00; 0xdc00]), tt).
Proof. apply string_roundtrip; [repeat constructor; lia|done]. Defined.

Lemma bytes_roundtrip_witness : through_string Base64 (mkView [9; 0xff; 0; 0x7f; 0x80; 9] 1 4) tt = (Val (bytes_view [0xff; 0; 0x7f; 0x80]), tt).
Proof. apply (bytes_roundtrip Base64 (mkView [9; 0xff; 0; 0x7f; 0x80; 9] 1 4)); [right; left|split; repeat constructor; cbn; lia|done]. Defined.
