(* ===== verification/BufferNumbers.v ===== *)
(** * Numbers in buffers

    The fixed-width numeric accessors of Buffer on the WasmGC tier
    (src/packages/compiler/src/backend/wasm/typedarrays.ts): [readNumHelper],
    [writeNumHelper], their binary64 twins, and [swapHelper]; with [%w.toInt32]
    of emitter.ts, which works on the bits of the double.  The state is the
    storage array of the buffer, which all its views share. *)

From S2P Require Import Prelude F64 F32 Arrays BytesDecode.

#[local] Open Scope arr_scope.

(** ** [%w.toInt32]: the modular truncation, by the bits *)

Definition toInt32 (x : num) : Z :=
  let bits := f64_bits x in
  let expb := Z.land (Z.shiftr bits 52) 0x7ff in
  if expb =? 0x7ff then 0
  else if expb <? 1023 then 0
  else
    let e := expb - 1075 in
    if 32 <=? e then 0
    else
      let mant := Z.lor (Z.land bits 0xfffffffffffff) (2 ^ 52) in
      let low := to_uint32 (if 0 <=? e then Z.shiftl mant e mod 2 ^ 64 else Z.shiftr mant (- e)) in
      if 2 ^ 63 <=? bits then sub32 0 low else low.

(** ** Errors and the storage *)

(** The errors the buffer functions throw, by what their messages say: the
    ladders of the readers and writers, of [validateOff] and of the byte length;
    those of typed arrays and data views; the constant ones. *)
Inductive buffer_error :=
  | MustBeInteger (name : string) (v : num)
  | OutOfBuffer
  | MustBeBetween (name : string) (lo hi v : num)
  | MustBePower (signed : bool) (bits : Z) (v : num)
  | MustBeAtLeast0 (name : string) (v : num)
  | MustBeAtMost (name : string) (max v : num)
  | BadSize (bits : Z)
  | EmptyPattern
  | BadArrayLength (v : num)
  | BadOffset
  | BadIndex
  | OutOfView
  | BadViewStart (v : num)
  | BadViewLength (v : num).
(** The [code] property; the errors of the language itself have none. *)
Definition error_code (e : buffer_error) : option string :=
  match e with
  | OutOfBuffer => Some "ERR_BUFFER_OUT_OF_BOUNDS" | BadSize _ => Some "ERR_INVALID_BUFFER_SIZE" | EmptyPattern => Some "ERR_INVALID_ARG_VALUE"
  | BadArrayLength _ | BadOffset | BadIndex | OutOfView | BadViewStart _ | BadViewLength _ => None
  | _ => Some "ERR_OUT_OF_RANGE"
  end.
Inductive outcome (A : Type) := Done (a : A) | Throws (e : buffer_error).
Arguments Done {A} a.
Arguments Throws {A} e.

(** A view of the storage: off, len. *)
Record view := mkV { VOFF : Z; VLEN : Z }.
Definition SM : Type → Type := M (list Z).
Definition get8 (a : Z) : SM Z := λ s, (match aget s a with Some b => Val b | None => Trap end, s).
Definition put8 (a x : Z) : SM unit := λ s, match aset s a (x mod 256) with Some s' => (Val tt, s') | None => (Trap, s) end.

(** ** The integer kinds *)

Record kind := mkKind { width : Z; signed : bool; le : bool }.
Definition parseIntNumKind (k : string) : option kind :=
  if String.eqb k "u8" then Some (mkKind 1 false true)
  else if String.eqb k "i8" then Some (mkKind 1 true true)
  else
    let n := String.length k in
    let little := String.eqb (String.substring (n - 2) 2 k) "le" in
    let rest := String.substring 0 (n - 2) k in
    if String.eqb rest "u16" then Some (mkKind 2 false little)
    else if String.eqb rest "i16" then Some (mkKind 2 true little)
    else if String.eqb rest "u32" then Some (mkKind 4 false little)
    else if String.eqb rest "i32" then Some (mkKind 4 true little)
    else None.
Definition max_of (k : kind) : Z := if signed k then 2 ^ (8 * width k - 1) - 1 else 2 ^ (8 * width k) - 1.
Definition min_of (k : kind) : Z := if signed k then - 2 ^ (8 * width k - 1) else 0.

(** The shared offset check and its error. *)
Definition bad_offset (offset cap : num) : bool :=
  negb (num_eq (math_trunc offset) offset) || num_lt cap (Fin 0) || num_lt offset (Fin 0) || num_lt cap offset.
Definition boundsError (value cap : num) : buffer_error :=
  if negb (num_eq (math_trunc value) value) then MustBeInteger "offset" value
  else if num_lt cap (Fin 0) then OutOfBuffer
  else MustBeBetween "offset" (Fin 0) cap value.

(** The position of the i-th least significant byte. *)
Definition byte_pos (little : bool) (w i : Z) : Z := if little then i else w - 1 - i.
(** Bytes assembled in an N-bit local, byte [i] shifted to bit 8i. *)
Fixpoint assemble (N : Z) (little : bool) (w addr : Z) (is_ : list Z) (bits : Z) : SM Z :=
  match is_ with
  | [] => mret bits
  | i :: is_ => b <- get8 (add32 addr (byte_pos little w i));; assemble N little w addr is_ (Z.lor bits (Z.shiftl b (8 * i) mod 2 ^ N))
  end.
Fixpoint scatter (little : bool) (w addr bits : Z) (is_ : list Z) : SM unit :=
  match is_ with
  | [] => mret tt
  | i :: is_ => put8 (add32 addr (byte_pos little w i)) (Z.shiftr bits (8 * i));;; scatter little w addr bits is_
  end.
Definition upto (w : Z) : list Z := map Z.of_nat (seq 0 (Z.to_nat w)).

Definition cap_of (v : view) (w : Z) : num := num_sub (i2d (VLEN v)) (num_of_Z w).
Definition address (v : view) (offset : num) : SM Z := o <- of_option (trunc_s32 offset);; mret (add32 (VOFF v) o).

(** [i32.shl] then [i32.shr_s]: the sign bit of a narrow read. *)
Definition sign_extend (w bits : Z) : Z := to_uint32 (Z.shiftr (to_int32 (Z.shiftl bits (32 - 8 * w))) (32 - 8 * w)).
Definition readNum (k : kind) (v : view) (offset : num) : SM (outcome num) :=
  let cap := cap_of v (width k) in
  if bad_offset offset cap then mret (Throws (boundsError offset cap))
  else
    addr <- address v offset;;
    bits <- assemble 32 (le k) (width k) addr (upto (width k)) 0;;
    let bits := if signed k && (width k <? 4) then sign_extend (width k) bits else bits in
    mret (Done (if signed k then i2d bits else num_of_Z bits)).
Definition writeNum (k : kind) (v : view) (value offset : num) : SM (outcome num) :=
  if num_lt (num_of_Z (max_of k)) value || num_lt value (num_of_Z (min_of k)) then
    mret (Throws (MustBeBetween "value" (num_of_Z (min_of k)) (num_of_Z (max_of k)) value))
  else
    let cap := cap_of v (width k) in
    if bad_offset offset cap then mret (Throws (boundsError offset cap))
    else
      addr <- address v offset;;
      scatter (le k) (width k) addr (toInt32 value) (upto (width k));;;
      mret (Done (num_add offset (num_of_Z (width k)))).

(** ** binary32 and binary64 *)

Definition parseFloatNumKind (k : string) : option (Z * bool) :=
  if String.eqb k "f32be" then Some (4, false) else if String.eqb k "f32le" then Some (4, true)
  else if String.eqb k "f64be" then Some (8, false) else if String.eqb k "f64le" then Some (8, true) else None.
(** The slot's undefined pattern reads as that NaN quieted. *)
Definition UNDEF_F64_BITS : Z := 0xfff4756e64656600.
Definition emitNotUndefBits (bits : Z) : Z := if bits =? UNDEF_F64_BITS then Z.lor bits (2 ^ 51) else bits.
Definition float_of (w bits : Z) : num := if w =? 4 then promote_bits bits else f64_of_bits (emitNotUndefBits bits).
Definition bits_of (w : Z) (x : num) : Z := if w =? 4 then demote_bits x else f64_bits x.
Definition readNumFloat (w : Z) (little : bool) (v : view) (offset : num) : SM (outcome num) :=
  let cap := cap_of v w in
  if bad_offset offset cap then mret (Throws (boundsError offset cap))
  else
    addr <- address v offset;;
    bits <- assemble (8 * w) little w addr (upto w) 0;;
    mret (Done (float_of w bits)).
Definition writeNumFloat (w : Z) (little : bool) (v : view) (value offset : num) : SM (outcome num) :=
  let cap := cap_of v w in
  if bad_offset offset cap then mret (Throws (boundsError offset cap))
  else
    addr <- address v offset;;
    scatter little w addr (bits_of w value) (upto w);;;
    mret (Done (num_add offset (num_of_Z w))).

(** ** swap16, swap32, swap64 *)

Definition swap_at (w : Z) (v : view) (g i : Z) : SM unit :=
  let a := add32 (add32 (VOFF v) g) i in
  let b := sub32 (add32 (add32 (VOFF v) g) (w - 1)) i in
  t <- get8 a;; x <- get8 b;; put8 a x;;; put8 b t.
Definition swap_group (w : Z) (v : view) (g i : Z) : SM (Z + unit) :=
  if ge_s i (w / 2) then mret (inr tt) else swap_at w v g i;;; mret (inl (add32 i 1)).
Definition swap_step (w : Z) (v : view) (g : Z) : SM (Z + unit) :=
  if ge_s g (VLEN v) then mret (inr tt)
  else loop (S (Z.to_nat w)) (swap_group w v g) 0;;; mret (inl (add32 g w)).
Definition swap (w : Z) (v : view) : SM (outcome unit) :=
  if negb (Z.rem (VLEN v) w =? 0) then mret (Throws (BadSize (w * 8)))
  else loop (S (Z.to_nat (VLEN v))) (swap_step w v) 0;;; mret (Done tt).

Definition sample_store : list Z := [9; 9; 1; 2; 3; 4; 5; 6; 7; 8; 9].
Definition k16be : kind := mkKind 2 true false.
Example sample_numbers :
  (writeNum k16be (mkV 2 8) (num_of_Z (-2)) (num_of_Z 6);;; r <- readNum k16be (mkV 2 8) (num_of_Z 6);; swap 4 (mkV 2 8);;; mret r) sample_store =
    (Val (Done (num_of_Z (-2))), [9; 9; 4; 3; 2; 1; 254; 255; 6; 5; 9]) ∧
  (readNum k16be (mkV 2 8) (num_of_Z 7)) sample_store = (Val (Throws (MustBeBetween "offset" (Fin 0) (num_of_Z 6) (num_of_Z 7))), sample_store) ∧
  (writeNumFloat 8 true (mkV 2 8) (num_of_Z (-3)) (num_of_Z 0);;; readNumFloat 8 true (mkV 2 8) (num_of_Z 0)) sample_store =
    (Val (Done (num_of_Z (-3))), [9; 9; 0; 0; 0; 0; 0; 0; 8; 192; 9]).
Proof. vm_compute. done. Qed.

(** ** ToInt32 *)

(** The fields of the bits of a finite double. *)
Lemma f64_fields (neg : bool) b : 0 <= b < 2047 * 2 ^ 52 →
  let bits := (if neg then 2 ^ 63 else 0) + b in
  Z.land (Z.shiftr bits 52) 0x7ff = b / 2 ^ 52 ∧ Z.land bits 0xfffffffffffff = b mod 2 ^ 52 ∧ (2 ^ 63 <=? bits) = neg.
Proof.
  intros Hb bits. destruct (f64_bits_sign neg b Hb) as (H1 & H2 & _). fold bits in H1, H2.
  change 0x7ff with (Z.ones 11). change 0xfffffffffffff with (Z.ones 52). rewrite !Z.land_ones, Z.shiftr_div_pow2 by lia. split_and!; [| |done].
  - assert (E : bits / 2 ^ 52 = b / 2 ^ 52 + (if neg then 1 else 0) * 2 ^ 11).
    { rewrite <- Z.div_add by lia. f_equal. unfold bits. destruct neg; lia. }
    rewrite E, Z.mod_add by lia. apply Z.mod_small. split; [apply Z.div_pos; lia|]. apply Z.div_lt_upper_bound; lia.
  - assert (E : bits = b + (if neg then 2 ^ 11 else 0) * 2 ^ 52) by (unfold bits; destruct neg; lia). by rewrite E, Z.mod_add by lia.
Qed.

Lemma quot_abs k : Z.quot k ONE = (if k <? 0 then - (Z.abs k / ONE) else Z.abs k / ONE).
Proof.
  pose proof ONE_pos. destruct (Z.ltb_spec k 0); [|rewrite Z.abs_eq, Z.quot_div_nonneg by lia; done].
  rewrite <- (Z.opp_involutive k) at 1. rewrite Z.quot_opp_l, Z.quot_div_nonneg, Z.abs_neq by lia. done.
Qed.

(** The magnitude of a double from its exponent field and significand. *)
Lemma magnitude_trunc ex fr : 0 <= fr < 2 ^ 52 → 1 <= ex → let m := (2 ^ 52 + fr) * 2 ^ (ex - 1) in
  (ex < 1023 → m / ONE = 0) ∧ (1075 <= ex → m / ONE = (2 ^ 52 + fr) * 2 ^ (ex - 1075)) ∧ (1023 <= ex < 1075 → m / ONE = (2 ^ 52 + fr) / 2 ^ (1075 - ex)).
Proof.
  intros Hf He m. rewrite ONE_pow. split_and!; intros Hx.
  - apply Z.div_small. split; [apply Z.mul_nonneg_nonneg; lia|]. unfold m. replace 1074 with (53 + 1021) by lia. rewrite (Z.pow_add_r 2 53) by lia.
    assert (2 ^ (ex - 1) <= 2 ^ 1021) by (apply Z.pow_le_mono_r; lia). assert (0 < 2 ^ (ex - 1)) by (apply Z.pow_pos_nonneg; lia).
    apply Z.lt_le_trans with (2 ^ 53 * 2 ^ (ex - 1)); [apply Z.mul_lt_mono_pos_r; lia|apply Z.mul_le_mono_nonneg_l; lia].
  - unfold m. replace (ex - 1) with (ex - 1075 + 1074) by lia. rewrite Z.pow_add_r, Z.mul_assoc by lia. apply Z.div_mul. lia.
  - unfold m. replace 1074 with (1075 - ex + (ex - 1)) by lia. rewrite Z.pow_add_r, Z.div_mul_cancel_r by lia. done.
Qed.

Lemma to_uint32_opp z : to_uint32 (- z) = sub32 0 (to_uint32 z).
Proof. unfold sub32, to_uint32. rewrite Zminus_mod_idemp_r. by f_equal. Qed.

Lemma toInt32_exact x : wf_num x → toInt32 x = num_to_uint32 x.
Proof.
  destruct x as [| | | |k]; [intros _; vm_compute; reflexivity..|]. intros [Hk Hd]. unfold toInt32, num_to_uint32, num_to_Z, f64_bits.
  destruct (mag_bits_fields (Z.abs k)) as [Hb Hm]; [lia|by apply Z.divide_abs_r|]. set (b := mag_bits (Z.abs k)) in *.
  destruct (f64_fields (k <? 0) b Hb) as (-> & -> & ->). rewrite quot_abs.
  pose proof (Z.mod_pos_bound b (2 ^ 52) ltac:(lia)) as Hf. set (fr := b mod 2 ^ 52) in *. set (ex := b / 2 ^ 52) in *.
  assert (Hex : 0 <= ex < 2047) by (subst ex; split; [apply Z.div_pos; lia|apply Z.div_lt_upper_bound; lia]).
  rewrite (proj2 (Z.eqb_neq ex 0x7ff)) by lia.
  assert (Hres : ∀ low, to_uint32 low = to_uint32 (Z.abs k / ONE) →
    (if k <? 0 then sub32 0 (to_uint32 low) else to_uint32 low) = to_uint32 (if k <? 0 then - (Z.abs k / ONE) else Z.abs k / ONE)).
  { intros low E. rewrite E. destruct (k <? 0); [by rewrite to_uint32_opp|done]. }
  assert (H0 : to_uint32 (Z.abs k / ONE) = 0 → 0 = to_uint32 (if k <? 0 then - (Z.abs k / ONE) else Z.abs k / ONE)).
  { intros E. destruct (k <? 0); [by rewrite to_uint32_opp, E|done]. }
  destruct (Z.eqb_spec ex 0) as [E0|E0].
  { rewrite E0. change (0 <? 1023) with true. cbn iota. apply H0. rewrite <- Hm. rewrite Z.div_small; [done|]. rewrite ONE_pow. assert (2 ^ 52 <= 2 ^ 1074) by (apply Z.pow_le_mono_r; lia). lia. }
  destruct (magnitude_trunc ex fr Hf ltac:(lia)) as (M1 & M2 & M3). cbv zeta in M1, M2, M3. rewrite Hm in M1, M2, M3.
  destruct (Z.ltb_spec ex 1023) as [Hs|Hs]; [by apply H0; rewrite M1|].
  destruct (Z.leb_spec 32 (ex - 1075)) as [Hbig|Hbig].
  { apply H0. rewrite M2 by lia. replace (ex - 1075) with (ex - 1107 + 32) by lia. rewrite Z.pow_add_r, Z.mul_assoc by lia. apply Z.mod_mul. lia. }
  assert (Hmant : Z.lor fr (2 ^ 52) = 2 ^ 52 + fr) by (rewrite <- (Z.mul_1_l (2 ^ 52)) at 1; rewrite lor_add by lia; lia).
  rewrite Hmant. apply Hres. destruct (Z.leb_spec 0 (ex - 1075)).
  - rewrite M2, Z.shiftl_mul_pow2 by lia. apply Z.mod_mod_divide. by exists (2 ^ 32).
  - rewrite M3, Z.shiftr_div_pow2 by lia. do 2 f_equal. f_equal. lia.
Qed.

(** ** Offsets *)

Lemma cap_value v w : 0 <= VLEN v < 2 ^ 31 → 1 <= w <= 8 → cap_of v w = Fin ((VLEN v - w) * ONE).
Proof.
  intros Hn Hw. pose proof ONE_pos. unfold cap_of, num_sub. rewrite i2d_small, num_of_Z_int by lia. cbn [num_neg].
  destruct (Z.eqb_spec (w * ONE) 0); [nia|]. cbn [num_add key]. replace (VLEN v * ONE + - (w * ONE)) with ((VLEN v - w) * ONE) by ring.
  apply ratio_int_signed. lia.
Qed.

Lemma key_fin_signed b z : key (fin_signed b z) = z.
Proof. unfold fin_signed. destruct (Z.eqb_spec z 0) as [->|]; [by destruct b|done]. Qed.
Lemma fin_signed_not_nan b z : is_nan (fin_signed b z) = false.
Proof. unfold fin_signed. destruct (z =? 0); [by destruct b|done]. Qed.

Lemma integral_spec x : num_eq (math_trunc x) x = true → x = PInf ∨ x = NInf ∨ ∃ i, is_int x i.
Proof.
  destruct x as [| | | |k]; [done|by left|by right; left|right; right; exists 0; by right|]. cbn [math_trunc]. unfold num_eq.
  rewrite key_fin_signed, fin_signed_not_nan. cbn [is_nan negb andb key]. intros E%Z.eqb_eq. right; right. exists (Z.quot k ONE). left. by rewrite E.
Qed.
Lemma is_int_integral x i : is_int x i → num_eq (math_trunc x) x = true.
Proof.
  intros [->|[-> _]]; [|done]. pose proof ONE_pos. cbn [math_trunc]. unfold num_eq. rewrite key_fin_signed, fin_signed_not_nan. cbn [is_nan negb andb key].
  rewrite Z.quot_mul by lia. apply Z.eqb_refl.
Qed.

Lemma scaled_infinities c : Z.abs c <= 2 ^ 53 → num_lt (Fin (c * ONE)) PInf = true ∧ num_lt NInf (Fin 0) = true.
Proof.
  intros Hc. destruct (repr_int c Hc) as [Hr _]. pose proof MAXK_pos. unfold num_lt. cbn [is_nan negb andb key]. split; apply Z.ltb_lt; lia.
Qed.

Lemma bad_offset_false x c : Z.abs c <= 2 ^ 53 → bad_offset x (Fin (c * ONE)) = false → ∃ i, is_int x i ∧ 0 <= i <= c.
Proof.
  intros Hc H. unfold bad_offset in H. destruct (scaled_infinities c Hc) as [HP HN]. repeat (apply orb_false_iff in H as [H ?]).
  apply negb_false_iff, integral_spec in H as [->|[->|(i & Hi)]]; [congruence|congruence|]. exists i. split; [done|].
  destruct (is_int_lt x i c Hi) as [_ Hlt]. destruct (is_int_lt x i 0 Hi) as [Hz _]. change (Fin (0 * ONE)) with (Fin 0) in Hz.
  rewrite Hz in *. rewrite Hlt in *. zb. lia.
Qed.
Lemma bad_offset_true x c i : is_int x i → 0 <= i <= c → bad_offset x (Fin (c * ONE)) = false.
Proof.
  intros Hi Hc. unfold bad_offset. rewrite (is_int_integral x i) by done. destruct (is_int_lt x i c Hi) as [_ ->].
  destruct (is_int_lt x i 0 Hi) as [H0 _]. change (Fin (0 * ONE)) with (Fin 0) in H0. rewrite H0.
  change (Fin 0) with (Fin (0 * ONE)). rewrite num_lt_scaled. cbn [negb orb].
  rewrite (proj2 (Z.ltb_ge c 0)), (proj2 (Z.ltb_ge i 0)), (proj2 (Z.ltb_ge c i)) by lia. done.
Qed.

(** ** Bytes in order *)

Definition order (little : bool) (bs : list Z) : list Z := if little then bs else reverse bs.

Lemma order_length little bs : length (order little bs) = length bs.
Proof. destruct little; [done|apply length_reverse]. Qed.

Definition pos (little : bool) (w j : nat) : nat := if little then j else w - 1 - j.
Lemma byte_pos_nat little w j : (j < w)%nat → byte_pos little (Z.of_nat w) (Z.of_nat j) = Z.of_nat (pos little w j).
Proof. intros. unfold byte_pos, pos. destruct little; [done|]. lia. Qed.

Lemma order_lookup little bs j : (j < length bs)%nat → order little bs !! j = bs !! pos little (length bs) j.
Proof. intros. destruct little; [done|]. cbn. rewrite reverse_lookup by lia. f_equal. lia. Qed.

Lemma order_insert little bs j x : (j < length bs)%nat → order little (<[pos little (length bs) j := x]> bs) = <[j := x]> (order little bs).
Proof.
  intros Hj. destruct little; [done|]. cbn. apply list_eq. intros i. destruct (decide (i < length bs)%nat).
  - rewrite reverse_lookup by (rewrite length_insert; lia). rewrite length_insert. destruct (decide (i = j)) as [->|].
    + rewrite list_lookup_insert_eq by (rewrite length_reverse; lia). replace (length bs - S j)%nat with (length bs - 1 - j)%nat by lia. rewrite list_lookup_insert_eq; [done|lia].
    + rewrite !list_lookup_insert_ne by lia. by rewrite reverse_lookup by lia.
  - rewrite !lookup_ge_None_2; [done|rewrite length_insert, length_reverse; lia|rewrite length_reverse, length_insert; lia].
Qed.

(** The [w] low bytes of a value. *)
Definition low_bytes (bits : Z) (w : nat) : list Z := map (λ i, Z.shiftr bits (8 * Z.of_nat i) mod 256) (seq 0 w).

Lemma low_bytes_S bits w : low_bytes bits (S w) = low_bytes bits w ++ [Z.shiftr bits (8 * Z.of_nat w) mod 256].
Proof. unfold low_bytes. by rewrite seq_S, map_app. Qed.
Lemma low_bytes_length bits w : length (low_bytes bits w) = w.
Proof. unfold low_bytes. by rewrite length_map, length_seq. Qed.
Lemma low_bytes_byte bits w : Forall byte (low_bytes bits w).
Proof. unfold low_bytes. apply Forall_map, Forall_forall. intros i _. apply Z.mod_pos_bound. lia. Qed.

Lemma low_bytes_value bits w : le_val (low_bytes bits w) = bits mod 256 ^ Z.of_nat w.
Proof.
  induction w as [|w IH]; [by rewrite Z.mod_1_r|]. rewrite low_bytes_S, le_val_snoc, IH, low_bytes_length, Z.shiftr_div_pow2 by lia.
  replace (2 ^ (8 * Z.of_nat w)) with (256 ^ Z.of_nat w) by (rewrite Z.pow_mul_r by lia; done).
  rewrite Nat2Z.inj_succ, Z.pow_succ_r, (Z.mul_comm 256) by lia. rewrite Z.rem_mul_r; [lia| |lia]. apply Z.pow_nonzero; lia.
Qed.

Section bytes.
Context (a c : list Z) (w : nat) (little : bool).

Lemma wp_get8 bs j x (Q : Z → list Z → Prop) R : len (a ++ bs ++ c) < 2 ^ 32 → length bs = w → (j < w)%nat → order little bs !! j = Some x →
  Q x (a ++ bs ++ c) → wp (get8 (add32 (len a) (byte_pos little (Z.of_nat w) (Z.of_nat j)))) Q R (a ++ bs ++ c).
Proof.
  intros Hs <- Hj Hx HQ. rewrite !length_app in Hs. rewrite order_lookup in Hx by done. pose proof (lookup_lt_Some _ _ _ Hx).
  rewrite byte_pos_nat, add32_id, <- Nat2Z.inj_add by lia. unfold wp, get8. rewrite aget_nat, lookup_app_r by lia.
  replace (length a + _ - length a)%nat with (pos little (length bs) j) by lia. rewrite lookup_app_l, Hx by lia. done.
Qed.

Lemma wp_put8 bs j x (Q : unit → list Z → Prop) R : len (a ++ bs ++ c) < 2 ^ 32 → length bs = w → (j < w)%nat →
  Q tt (a ++ <[pos little w j := x mod 256]> bs ++ c) → wp (put8 (add32 (len a) (byte_pos little (Z.of_nat w) (Z.of_nat j))) x) Q R (a ++ bs ++ c).
Proof.
  intros Hs Hb Hj HQ. rewrite !length_app in Hs. assert (Hp : (pos little w j < w)%nat) by (unfold pos; destruct little; lia).
  rewrite byte_pos_nat, add32_id, <- Nat2Z.inj_add by lia. unfold wp, put8. rewrite aset_nat by (rewrite !length_app; lia).
  rewrite insert_app_r_alt by lia. replace (length a + _ - length a)%nat with (pos little w j) by lia. rewrite insert_app_l by lia. done.
Qed.

Lemma wp_assemble N bs (Q : Z → list Z → Prop) R : len (a ++ bs ++ c) < 2 ^ 32 → length bs = w → Forall byte bs → 8 * Z.of_nat w <= N →
  Q (le_val (order little bs)) (a ++ bs ++ c) → wp (assemble N little (Z.of_nat w) (len a) (upto (Z.of_nat w)) 0) Q R (a ++ bs ++ c).
Proof.
  intros Hs Hb Hbytes HN HQ. unfold upto. rewrite Nat2Z.id.
  assert (Hgen : ∀ m j, (j + m = w)%nat → wp (assemble N little (Z.of_nat w) (len a) (map Z.of_nat (seq j m)) (le_val (take j (order little bs)))) Q R (a ++ bs ++ c)).
  2: { by apply (Hgen w 0%nat). }
  assert (Hob : Forall byte (order little bs)) by (destruct little; [done|by apply Forall_reverse]).
  induction m as [|m IH]; intros j Hj; cbn [seq map assemble].
  { apply wp_mret. by rewrite take_ge by (rewrite order_length; lia). }
  destruct (lookup_lt_is_Some_2 (order little bs) j) as [x Hx]; [rewrite order_length; lia|].
  apply wp_bind. apply wp_get8 with x; [done|done|lia|done|].
  pose proof (le_val_range (take j (order little bs)) (Forall_take _ _ _ Hob)) as Hr. rewrite length_take, order_length, Nat.min_l in Hr by lia.
  assert (Hx8 : byte x) by (rewrite Forall_lookup in Hob; eauto). unfold byte in Hx8.
  assert (E : 2 ^ (8 * Z.of_nat j) = 256 ^ Z.of_nat j) by (rewrite Z.pow_mul_r by lia; done).
  assert (H256 : x * 256 ^ Z.of_nat j < 2 ^ N).
  { apply Z.lt_le_trans with (256 ^ Z.of_nat (S j)); [rewrite Nat2Z.inj_succ, Z.pow_succ_r by lia; apply Z.mul_lt_mono_pos_r; [apply Z.pow_pos_nonneg; lia|lia]|].
    change 256 with (2 ^ 8). rewrite <- Z.pow_mul_r by lia. apply Z.pow_le_mono_r; lia. }
  rewrite Z.shiftl_mul_pow2, E, Z.mod_small by (try split; try apply Z.mul_nonneg_nonneg; try apply Z.pow_nonneg; lia).
  rewrite <- E, lor_add, E by (rewrite ?E; lia).
  replace (le_val (take j (order little bs)) + x * 256 ^ Z.of_nat j) with (le_val (take (S j) (order little bs))); [apply IH; lia|].
  rewrite (take_S_r _ _ x) by done. by rewrite le_val_snoc, length_take, order_length, Nat.min_l by lia.
Qed.

Lemma wp_scatter bits bs (Q : unit → list Z → Prop) R : len (a ++ bs ++ c) < 2 ^ 32 → length bs = w →
  Q tt (a ++ order little (low_bytes bits w) ++ c) → wp (scatter little (Z.of_nat w) (len a) bits (upto (Z.of_nat w))) Q R (a ++ bs ++ c).
Proof.
  intros Hs Hb HQ. unfold upto. rewrite Nat2Z.id. assert (Hinv : ∀ l, order little (order little l) = l) by (intros; destruct little; [done|apply reverse_involutive]).
  assert (Hgen : ∀ m j bs, (j + m = w)%nat → length bs = w → take j (order little bs) = low_bytes bits j →
    wp (scatter little (Z.of_nat w) (len a) bits (map Z.of_nat (seq j m))) Q R (a ++ bs ++ c)).
  2: { by apply (Hgen w 0%nat). }
  induction m as [|m IH]; intros j bs' Hj Hb' Ht; cbn [seq map scatter].
  { apply wp_mret. rewrite take_ge in Ht by (rewrite order_length; lia). replace w with j in HQ by lia. rewrite <- Ht, Hinv in HQ. done. }
  apply wp_bind. apply wp_put8; [rewrite !length_app in *; lia|done|lia|]. apply (IH (S j)); [lia|by rewrite length_insert|].
  rewrite <- Hb'. rewrite order_insert by lia. rewrite (take_S_r _ _ (Z.shiftr bits (8 * Z.of_nat j) mod 256)); [|apply list_lookup_insert_eq; rewrite order_length; lia].
  rewrite take_insert_ge by lia. by rewrite Ht, low_bytes_S.
Qed.
End bytes.

(** ** Loads and stores at an address *)

(** [A] with [xs] written over it from [p]. *)
Definition overwrite (A xs : list Z) (p : Z) : list Z := take (Z.to_nat p) A ++ xs ++ drop (Z.to_nat (p + len xs)) A.
Lemma overwrite_nil A p : overwrite A [] p = A.
Proof. unfold overwrite. cbn [app length]. rewrite Z.add_0_r. apply take_drop. Qed.
Lemma overwrite_length A xs p : 0 <= p → p + len xs <= len A → length (overwrite A xs p) = length A.
Proof. intros. unfold overwrite. rewrite !length_app, length_take, length_drop. lia. Qed.
Lemma overwrite_bytes A xs p : Forall byte A → Forall byte xs → Forall byte (overwrite A xs p).
Proof. intros. unfold overwrite. rewrite !Forall_app. split_and!; [by apply Forall_take|done|by apply Forall_drop]. Qed.
Lemma slice_overwrite A xs p : 0 <= p → p + len xs <= len A → slice (overwrite A xs p) p (len xs) = xs.
Proof.
  intros Hp Hl. unfold slice, overwrite. rewrite drop_app_length' by (rewrite length_take; lia). by rewrite take_app_length' by lia.
Qed.
Lemma overwrite_lookup A xs p (j : nat) : 0 <= p → p + len xs <= len A →
  overwrite A xs p !! j = if (p <=? Z.of_nat j) && (Z.of_nat j <? p + len xs) then xs !! (j - Z.to_nat p)%nat else A !! j.
Proof.
  intros Hp Hl. unfold overwrite. destruct (Z.leb_spec p (Z.of_nat j)); cbn [andb].
  - rewrite lookup_app_r by (rewrite length_take; lia). rewrite length_take. replace (j - Z.to_nat p `min` length A)%nat with (j - Z.to_nat p)%nat by lia.
    destruct (Z.ltb_spec (Z.of_nat j) (p + len xs)); [by rewrite lookup_app_l by lia|]. rewrite lookup_app_r by lia. rewrite lookup_drop. f_equal. lia.
  - rewrite lookup_app_l by (rewrite length_take; lia). by rewrite lookup_take_lt by lia.
Qed.
Lemma slice_overwrite_other A xs p q n : 0 <= p → p + len xs <= len A → 0 <= q → q + n <= p ∨ p + len xs <= q → slice (overwrite A xs p) q n = slice A q n.
Proof.
  intros Hp Hl Hq Hn. apply list_eq. intros j. unfold slice. destruct (decide (j < Z.to_nat n)%nat) as [Hj|Hj].
  - rewrite !lookup_take_lt, !lookup_drop, overwrite_lookup by lia. destruct (Z.leb_spec p (Z.of_nat (Z.to_nat q + j))), (Z.ltb_spec (Z.of_nat (Z.to_nat q + j)) (p + len xs)); cbn [andb]; done || lia.
  - rewrite !lookup_take_ge by lia. done.
Qed.

Lemma split_bytes (s : list Z) p w : 0 <= p → 0 <= w → s = take (Z.to_nat p) s ++ slice s p w ++ drop (Z.to_nat (p + w)) s.
Proof.
  intros Hp Hw. unfold slice. rewrite <- (take_drop (Z.to_nat p) s) at 1. f_equal. rewrite <- (take_drop (Z.to_nat w) (drop (Z.to_nat p) s)) at 1. f_equal. rewrite drop_drop. f_equal. lia.
Qed.
Lemma order_involutive little l : order little (order little l) = l.
Proof. destruct little; [done|apply reverse_involutive]. Qed.
Lemma order_bytes little l : Forall byte l → Forall byte (order little l).
Proof. destruct little; [done|apply Forall_reverse]. Qed.
Lemma slice_length (s : list Z) p w : 0 <= p → 0 <= w → p + w <= len s → length (slice s p w) = Z.to_nat w.
Proof. intros. unfold slice. rewrite length_take, length_drop. lia. Qed.

Lemma load_bytes N little w p s : Forall byte s → len s < 2 ^ 32 → 0 <= p → 0 <= w → p + w <= len s → 8 * w <= N →
  assemble N little w p (upto w) 0 s = (Val (le_val (order little (slice s p w))), s).
Proof.
  intros Hb Hs Hp Hw Hl HN. pose proof (slice_length s p w Hp Hw Hl) as Hlen.
  pose proof (split_bytes s p w Hp Hw) as E. assert (Ha : p = len (take (Z.to_nat p) s)) by (rewrite length_take; lia).
  assert (H : ∀ Q R, Q (le_val (order little (slice s p w))) s → wp (assemble N little w p (upto w) 0) Q R s).
  { intros Q R HQ. rewrite E. rewrite Ha at 1. replace w with (Z.of_nat (Z.to_nat w)) at 1 2 by lia.
    apply wp_assemble; [by rewrite <- E|done|by apply Forall_take, Forall_drop|lia|]. by rewrite <- E. }
  specialize (H (λ r s', r = le_val (order little (slice s p w)) ∧ s' = s) (λ _ _, False) (conj eq_refl eq_refl)). apply wp_run in H as (r & s' & -> & -> & ->). done.
Qed.

Lemma store_bytes little w p bits s : Forall byte s → len s < 2 ^ 32 → 0 <= p → 0 <= w → p + w <= len s →
  scatter little w p bits (upto w) s = (Val tt, overwrite s (order little (low_bytes bits (Z.to_nat w))) p).
Proof.
  intros Hb Hs Hp Hw Hl. pose proof (slice_length s p w Hp Hw Hl) as Hlen. set (s1 := overwrite s _ p).
  pose proof (split_bytes s p w Hp Hw) as E. assert (Ha : p = len (take (Z.to_nat p) s)) by (rewrite length_take; lia).
  assert (H : ∀ (Q : unit → list Z → Prop) R, Q tt s1 → wp (scatter little w p bits (upto w)) Q R s).
  { intros Q R HQ. rewrite E. rewrite Ha at 1. replace w with (Z.of_nat (Z.to_nat w)) at 1 2 by lia. apply wp_scatter; [by rewrite <- E|done|].
    replace (take (Z.to_nat p) s ++ _ ++ _) with s1; [done|]. unfold s1, overwrite. rewrite order_length, low_bytes_length, Z2Nat.id by lia. done. }
  specialize (H (λ r s', r = tt ∧ s' = s1) (λ _ _, False) (conj eq_refl eq_refl)). apply wp_run in H as (r & s' & -> & -> & ->). done.
Qed.

(** ** Values *)

Definition kind_ok (k : kind) : Prop := width k = 1 ∨ width k = 2 ∨ width k = 4.
Lemma parse_ok name k : parseIntNumKind name = Some k → kind_ok k.
Proof. unfold parseIntNumKind, kind_ok. intros H. repeat case_match; simplify_eq; cbn; auto. Qed.

(** What the bytes of a value read as. *)
Definition wrap (k : kind) (z : Z) : Z :=
  let m := 2 ^ (8 * width k) in if signed k then (z + m / 2) mod m - m / 2 else z mod m.
Definition read_value (k : kind) (bits : Z) : num :=
  let bits := if signed k && (width k <? 4) then sign_extend (width k) bits else bits in if signed k then i2d bits else num_of_Z bits.

Lemma read_value_wrap k bits : kind_ok k → 0 <= bits < 2 ^ (8 * width k) → read_value k bits = num_of_Z (wrap k bits).
Proof.
  intros Hk Hb. unfold read_value, wrap, sign_extend, i2d, kind_ok in *. destruct k as [w [] l]; cbn [width signed] in *.
  2: { by rewrite Z.mod_small. }
  destruct Hk as [->|[->| ->]]; cbn [Z.ltb Z.compare Pos.compare Pos.compare_cont andb]; f_equal.
  - rewrite Z.shiftl_mul_pow2, Z.shiftr_div_pow2 by lia. unfold to_int32, to_uint32.
    change (32 - 8 * 1) with 24. change (2 ^ (8 * 1)) with 256 in *. change (2 ^ 24) with 16777216. change (2 ^ 31) with 2147483648. change (2 ^ 32) with 4294967296. change (256 / 2) with 128.
    Z.to_euclidean_division_equations. lia.
  - rewrite Z.shiftl_mul_pow2, Z.shiftr_div_pow2 by lia. unfold to_int32, to_uint32.
    change (32 - 8 * 2) with 16. change (2 ^ (8 * 2)) with 65536 in *. change (2 ^ 16) with 65536. change (2 ^ 31) with 2147483648. change (2 ^ 32) with 4294967296. change (65536 / 2) with 32768.
    Z.to_euclidean_division_equations. lia.
Qed.

Lemma wrap_in_range k t : kind_ok k → min_of k <= t <= max_of k → wrap k (to_uint32 t mod 2 ^ (8 * width k)) = t.
Proof.
  intros Hk Ht. unfold wrap, min_of, max_of, to_uint32, kind_ok in *. destruct k as [w s l]; cbn [width signed] in *.
  assert (Hm : (t mod 2 ^ 32) mod 2 ^ (8 * w) = t mod 2 ^ (8 * w)).
  { apply Z.mod_mod_divide. exists (2 ^ (32 - 8 * w)). rewrite <- Z.pow_add_r by lia. f_equal. lia. }
  rewrite Hm. destruct s; [|rewrite Z.mod_mod by (apply Z.pow_nonzero; lia); apply Z.mod_small; lia].
  rewrite Zplus_mod_idemp_l. assert (E : 2 ^ (8 * w) / 2 = 2 ^ (8 * w - 1)) by (destruct Hk as [->|[->| ->]]; done). rewrite E.
  rewrite Z.mod_small; [lia|]. assert (2 ^ (8 * w) = 2 * 2 ^ (8 * w - 1)) by (destruct Hk as [->|[->| ->]]; done). lia.
Qed.

Definition bad_value (k : kind) (value : num) : bool := num_lt (num_of_Z (max_of k)) value || num_lt value (num_of_Z (min_of k)).

Lemma bounds_exact k : kind_ok k → num_of_Z (max_of k) = Fin (max_of k * ONE) ∧ num_of_Z (min_of k) = Fin (min_of k * ONE) ∧ min_of k <= 0 <= max_of k.
Proof.
  intros Hk. assert (H : Z.abs (max_of k) <= 2 ^ 53 ∧ Z.abs (min_of k) <= 2 ^ 53 ∧ min_of k <= 0 <= max_of k).
  { unfold max_of, min_of, kind_ok in *. destruct k as [w [] l]; cbn [width signed] in *; destruct Hk as [->|[->| ->]]; vm_compute; intuition discriminate. }
  destruct H as (H1 & H2 & H3). by rewrite !num_of_Z_exact.
Qed.

Lemma value_in_range k v : kind_ok k → bad_value k v = false → min_of k <= num_to_Z v <= max_of k.
Proof.
  intros Hk H. unfold bad_value in H. apply orb_false_iff in H as [H1 H2]. destruct (bounds_exact k Hk) as (Emax & Emin & Hz). rewrite Emax in H1. rewrite Emin in H2.
  destruct v as [| | | |x]; cbn [num_to_Z]; try lia. unfold num_lt in H1, H2. cbn [is_nan negb andb key] in H1, H2. zb. pose proof ONE_pos.
  split; [rewrite <- (Z.quot_mul (min_of k) ONE) by lia|rewrite <- (Z.quot_mul (max_of k) ONE) by lia]; by apply Z.quot_le_mono.
Qed.

(** A view of the storage, every byte of it in range. *)
Definition view_in (v : view) (s : list Z) : Prop := Forall byte s ∧ 0 <= VOFF v ∧ 0 <= VLEN v < 2 ^ 31 ∧ VOFF v + VLEN v <= len s ∧ len s < 2 ^ 32.

(** The storage around the [w] bytes at offset [i] of a view. *)
Lemma split_at v s i w : view_in v s → 0 <= i → 0 <= w → i + w <= VLEN v →
  ∃ a bs c, s = a ++ bs ++ c ∧ len a = VOFF v + i ∧ length bs = Z.to_nat w ∧ Forall byte bs.
Proof.
  intros (Hb & Ho & Hl & Hf & Hs) Hi Hw Hiw. exists (take (Z.to_nat (VOFF v + i)) s), (slice s (VOFF v + i) w), (drop (Z.to_nat w) (drop (Z.to_nat (VOFF v + i)) s)).
  unfold slice. rewrite !take_drop. split_and!; [done|rewrite length_take; lia|rewrite length_take, length_drop; lia|by apply Forall_take, Forall_drop].
Qed.

Lemma wp_address v s offset i (Q : Z → list Z → Prop) R : view_in v s → is_int offset i → 0 <= i <= VLEN v → Q (VOFF v + i) s → wp (address v offset) Q R s.
Proof.
  intros (_ & Ho & Hl & Hf & Hs) Hi Hr HQ. apply wp_bind. eapply wp_of_option; [apply trunc_s32_int; [done|lia]|]. apply wp_mret. by rewrite add32_id by lia.
Qed.

(** The storage [s'] is [s] with the [w] bytes at [p] replaced. *)
Definition patched (s s' : list Z) (p w : Z) : Prop := length s' = length s ∧ ∀ j, ¬ p <= Z.of_nat j < p + w → s' !! j = s !! j.

Lemma patched_middle a bs bs' c : length bs' = length bs → patched (a ++ bs ++ c) (a ++ bs' ++ c) (len a) (len bs).
Proof.
  intros Hl. split; [by rewrite !length_app, Hl|]. intros j Hj. destruct (decide (j < length a)%nat); [by rewrite !lookup_app_l by lia|].
  rewrite !(lookup_app_r a) by lia. rewrite !lookup_app_r by lia. by rewrite Hl.
Qed.

Lemma readNum_at k v s offset i a bs c : kind_ok k → view_in v s → is_int offset i → 0 <= i <= VLEN v - width k →
  s = a ++ bs ++ c → len a = VOFF v + i → length bs = Z.to_nat (width k) → Forall byte bs →
  readNum k v offset s = (Val (Done (num_of_Z (wrap k (le_val (order (le k) bs))))), s).
Proof.
  intros Hk Hv Hi Hr -> Ha Hb Hbytes. pose proof Hv as (_ & _ & Hl & Hf & Hs).
  assert (Hw : 1 <= width k <= 4) by (unfold kind_ok in Hk; lia).
  assert (H : wp (readNum k v offset) (λ r s', r = Done (num_of_Z (wrap k (le_val (order (le k) bs)))) ∧ s' = a ++ bs ++ c) (λ _ _, False) (a ++ bs ++ c)).
  { unfold readNum. rewrite cap_value, (bad_offset_true offset _ i) by (done || lia). apply wp_bind. apply (wp_address v _ offset i); [done|done|lia|].
    rewrite <- Ha. apply wp_bind. replace (width k) with (Z.of_nat (Z.to_nat (width k))) by lia. apply wp_assemble; [done|done|done|lia|]. rewrite Z2Nat.id by lia.
    apply wp_mret. split; [|done]. f_equal. apply (read_value_wrap k); [done|].
    assert (Hob : Forall byte (order (le k) bs)) by (destruct (le k); [done|by apply Forall_reverse]).
    pose proof (le_val_range _ Hob) as Hlv. rewrite order_length, Hb, Z2Nat.id in Hlv by lia. rewrite Z.pow_mul_r by lia. exact Hlv. }
  apply wp_run in H as (r & s' & -> & -> & ->). done.
Qed.

Lemma add_width offset i w : is_int offset i → 0 <= i < 2 ^ 31 → 1 <= w <= 8 → num_add offset (num_of_Z w) = num_of_Z (i + w).
Proof.
  intros Hi Hr Hw. rewrite !num_of_Z_exact by lia. rewrite Z.mul_add_distr_r. destruct Hi as [->|[-> ->]]; cbn [num_add key]; rewrite <- Z.mul_add_distr_r; apply ratio_int; lia.
Qed.

(** C19. Every fixed-width integer write of a double on a view either throws,
    leaving the storage unchanged: the value check first, then the offset check,
    which fails exactly when the offset is no integer between 0 and the length
    less the width; or it returns the offset past the value, changes only the
    bytes of the value, and the read of the same kind at that offset gives back
    the value truncated towards zero. *)
Theorem write_read_number (name : string) (k : kind) (v : view) (value offset : num) (s : list Z) :
  parseIntNumKind name = Some k → view_in v s → wf_num value →
  if bad_value k value then writeNum k v value offset s = (Val (Throws (MustBeBetween "value" (num_of_Z (min_of k)) (num_of_Z (max_of k)) value)), s)
  else if bad_offset offset (cap_of v (width k)) then writeNum k v value offset s = (Val (Throws (boundsError offset (cap_of v (width k)))), s)
  else ∃ i s', is_int offset i ∧ 0 <= i <= VLEN v - width k ∧ writeNum k v value offset s = (Val (Done (num_of_Z (i + width k))), s') ∧
    patched s s' (VOFF v + i) (width k) ∧ readNum k v offset s' = (Val (Done (num_of_Z (num_to_Z value))), s').
Proof.
  intros Hp Hv Hwf. pose proof (parse_ok name k Hp) as Hk. unfold writeNum. fold (bad_value k value). destruct (bad_value k value) eqn:Ev; [done|].
  assert (Hw : 1 <= width k <= 4) by (unfold kind_ok in Hk; lia). pose proof Hv as (Hb & Ho & Hl & Hf & Hs).
  destruct (bad_offset offset (cap_of v (width k))) eqn:Eo; [done|]. rewrite cap_value in Eo by (done || lia).
  apply bad_offset_false in Eo as (i & Hi & Hr); [|lia]. destruct (split_at v s i (width k) Hv) as (a & bs & c & -> & Ha & Hlb & Hbytes); [lia..|].
  set (bs' := order (le k) (low_bytes (toInt32 value) (Z.to_nat (width k)))).
  assert (Hl' : length bs' = length bs) by (unfold bs'; rewrite order_length, low_bytes_length; lia).
  exists i, (a ++ bs' ++ c). split_and!; [done|lia|lia| |rewrite <- Ha; replace (width k) with (len bs) by lia; by apply patched_middle|].
  - match goal with |- ?m _ = _ => assert (H : wp m (λ r s', r = Done (num_of_Z (i + width k)) ∧ s' = a ++ bs' ++ c) (λ _ _, False) (a ++ bs ++ c)) end.
    2: { apply wp_run in H as (r & s' & -> & -> & ->). done. }
    apply wp_bind. apply (wp_address v _ offset i); [done|done|lia|]. rewrite <- Ha. apply wp_bind.
    replace (width k) with (Z.of_nat (Z.to_nat (width k))) by lia. apply wp_scatter; [done|done|]. apply wp_mret. split; [|done]. f_equal. apply add_width; [done|lia|lia].
  - assert (Hbytes' : Forall byte bs') by (unfold bs'; destruct (le k); [|apply Forall_reverse]; apply low_bytes_byte).
    assert (Hv' : view_in v (a ++ bs' ++ c)).
    { rewrite !length_app in *. rewrite !Forall_app in Hb. split_and!; rewrite ?length_app, ?Forall_app; try lia; split_and!; try done; tauto. }
    rewrite (readNum_at k v _ offset i a bs' c) by (done || lia). unfold bs'.
    assert (Hoo : ∀ l, order (le k) (order (le k) l) = l) by (intros; destruct (le k); [done|apply reverse_involutive]).
    rewrite Hoo, low_bytes_value, toInt32_exact by done. rewrite Z2Nat.id by lia. do 3 f_equal. f_equal.
    replace (256 ^ width k) with (2 ^ (8 * width k)) by (rewrite Z.pow_mul_r by lia; done). apply wrap_in_range; [done|]. by apply value_in_range.
Qed.

(** ** binary32 and binary64 *)

Lemma double_bits_read x : wf_num x → f64_of_bits (emitNotUndefBits (f64_bits x)) = x.
Proof.
  intros Hx. unfold emitNotUndefBits. destruct (Z.eqb_spec (f64_bits x) UNDEF_F64_BITS) as [E|]; [|by apply f64_of_bits_bits].
  pose proof (f64_of_bits_bits x Hx) as H. rewrite E in H. rewrite E, <- H. vm_compute. done.
Qed.

Lemma float_of_bits w x : w = 4 ∨ w = 8 → wf_num x → 0 <= bits_of w x < 256 ^ w ∧ float_of w (bits_of w x) = if w =? 4 then fround x else x.
Proof.
  intros [->| ->] Hx; unfold bits_of, float_of; cbn [Z.eqb Pos.eqb]; split; [apply demote_range|apply promote_demote|by apply f64_bits_range|by apply double_bits_read].
Qed.

(** The same for binary32 and binary64: no value is refused, and the read gives
    back the double, rounded for binary32. *)
Theorem write_read_float (w : Z) (little : bool) (v : view) (value offset : num) (s : list Z) : w = 4 ∨ w = 8 → view_in v s → wf_num value →
  if bad_offset offset (cap_of v w) then writeNumFloat w little v value offset s = (Val (Throws (boundsError offset (cap_of v w))), s)
  else ∃ i s', is_int offset i ∧ 0 <= i <= VLEN v - w ∧ writeNumFloat w little v value offset s = (Val (Done (num_of_Z (i + w))), s') ∧
    patched s s' (VOFF v + i) w ∧ readNumFloat w little v offset s' = (Val (Done (if w =? 4 then fround value else value)), s').
Proof.
  intros Hw48 Hv Hwf. unfold writeNumFloat, readNumFloat. pose proof Hv as (Hb & Ho & Hl & Hf & Hs). assert (Hw : 4 <= w <= 8) by lia.
  destruct (bad_offset offset (cap_of v w)) eqn:Eo; [done|]. rewrite cap_value in Eo by (done || lia).
  apply bad_offset_false in Eo as (i & Hi & Hr); [|lia]. destruct (split_at v s i w Hv) as (a & bs & c & -> & Ha & Hlb & Hbytes); [lia..|].
  destruct (float_of_bits w value Hw48 Hwf) as [Hrange Hback]. set (bits := bits_of w value) in *.
  set (bs' := order little (low_bytes bits (Z.to_nat w))).
  assert (Hl' : length bs' = length bs) by (unfold bs'; rewrite order_length, low_bytes_length; lia).
  assert (Hbytes' : Forall byte bs') by (unfold bs'; destruct little; [|apply Forall_reverse]; apply low_bytes_byte).
  assert (Hv' : view_in v (a ++ bs' ++ c)).
  { rewrite !length_app in *. rewrite !Forall_app in Hb. split_and!; rewrite ?length_app, ?Forall_app; try lia; split_and!; try done; tauto. }
  assert (Hwn : Z.of_nat (Z.to_nat w) = w) by lia.
  exists i, (a ++ bs' ++ c). split_and!; [done|lia|lia| |rewrite <- Ha; replace w with (len bs) by lia; by apply patched_middle|].
  - match goal with |- ?m _ = _ => assert (H : wp m (λ r s', r = Done (num_of_Z (i + w)) ∧ s' = a ++ bs' ++ c) (λ _ _, False) (a ++ bs ++ c)) end.
    2: { apply wp_run in H as (r & s' & -> & -> & ->). done. }
    apply wp_bind. apply (wp_address v _ offset i); [done|done|lia|]. rewrite <- Ha. apply wp_bind. rewrite <- Hwn at 1 2.
    apply wp_scatter; [done|lia|]. apply wp_mret. split; [|done]. f_equal. apply add_width; [done|lia|lia].
  - match goal with |- ?m _ = _ => assert (H : wp m (λ r s', r = Done (if w =? 4 then fround value else value) ∧ s' = a ++ bs' ++ c) (λ _ _, False) (a ++ bs' ++ c)) end.
    2: { apply wp_run in H as (r & s' & -> & -> & ->). done. }
    apply wp_bind. apply (wp_address v _ offset i); [done|done|lia|]. rewrite <- Ha. apply wp_bind. rewrite <- Hwn at 2 3.
    apply wp_assemble; [rewrite !length_app in *; lia|lia|done|lia|]. apply wp_mret. split; [|done]. f_equal. unfold bs'.
    assert (Hoo : ∀ l, order little (order little l) = l) by (intros; destruct little; [done|apply reverse_involutive]).
    rewrite Hoo, low_bytes_value, Hwn, Z.mod_small by done. exact Hback.
Qed.

(** ** swap16, swap32, swap64 *)

Lemma wp_swap_at w v a bs c i g (Q : unit → list Z → Prop) R x y :
  VOFF v + g = len a → 0 <= VOFF v → 0 <= g → len (a ++ bs ++ c) < 2 ^ 32 → length bs = w → (2 * i < w)%nat →
  bs !! i = Some x → bs !! (w - 1 - i)%nat = Some y → byte x → byte y →
  Q tt (a ++ <[(w - 1 - i)%nat := x]> (<[i := y]> bs) ++ c) → wp (swap_at (Z.of_nat w) v g (Z.of_nat i)) Q R (a ++ bs ++ c).
Proof.
  intros Hg Ho Hg0 Hs Hb Hi Hx Hy Bx By HQ. pose proof Hs as Hs'. rewrite !length_app in Hs'. unfold swap_at. rewrite (add32_id (VOFF v)), Hg by lia.
  pose proof (byte_pos_nat true w i ltac:(lia)) as P1. cbn [byte_pos pos] in P1.
  pose proof (byte_pos_nat false w i ltac:(lia)) as P2. cbn [byte_pos pos] in P2.
  assert (E : sub32 (add32 (len a) (Z.of_nat w - 1)) (Z.of_nat i) = add32 (len a) (Z.of_nat w - 1 - Z.of_nat i)) by (rewrite (add32_id _ (Z.of_nat w - 1)), add32_id, sub32_id by lia; lia).
  rewrite E. change (Z.of_nat w - 1 - Z.of_nat i) with (byte_pos false (Z.of_nat w) (Z.of_nat i)). change (add32 (len a) (Z.of_nat i)) with (add32 (len a) (byte_pos true (Z.of_nat w) (Z.of_nat i))).
  unfold byte in *. apply wp_bind. apply (wp_get8 a c w true bs i x); [done|done|lia|done|].
  apply wp_bind. apply (wp_get8 a c w false bs i y); [done|done|lia|rewrite order_lookup by lia; cbn [pos]; by rewrite Hb|].
  apply wp_bind. apply wp_put8; [done|done|lia|]. rewrite (Z.mod_small y) by lia. cbn [pos].
  apply wp_put8; [rewrite !length_app, length_insert in *; lia|by rewrite length_insert|lia|]. by rewrite (Z.mod_small x) by lia.
Qed.

Definition swap_width (w : nat) : Prop := w = 2%nat ∨ w = 4%nat ∨ w = 8%nat.

Lemma wp_swap_group w v a bs c g (Q : unit → list Z → Prop) R :
  swap_width w → VOFF v + g = len a → 0 <= VOFF v → 0 <= g → len (a ++ bs ++ c) < 2 ^ 32 → length bs = w → Forall byte bs →
  Q tt (a ++ reverse bs ++ c) → wp (loop (S (Z.to_nat (Z.of_nat w))) (swap_group (Z.of_nat w) v g) 0) Q R (a ++ bs ++ c).
Proof.
  intros Hw Hg Ho Hg0 Hs Hb Hbytes HQ. rewrite !length_app in Hs.
  assert (Hgo : ∀ i bs' fuel, (i <= w / 2)%nat → length bs' = w → Forall byte bs' → (w / 2 - i < fuel)%nat →
    (∀ j, (j < w)%nat → bs' !! j = if (decide (i <= j < w - i)%nat) then bs !! j else bs !! (w - 1 - j)%nat) →
    wp (loop fuel (swap_group (Z.of_nat w) v g) (Z.of_nat i)) Q R (a ++ bs' ++ c)).
  2: { apply (Hgo 0%nat); [lia|done|done|rewrite Nat2Z.id; assert (w / 2 <= w)%nat by (apply Nat.Div0.div_le_upper_bound; lia); lia|]. intros j Hj. by rewrite decide_True by lia. }
  assert (Hhalf : w = (2 * (w / 2))%nat) by (destruct Hw as [->|[->| ->]]; done).
  assert (Hhz : Z.of_nat w / 2 = Z.of_nat (w / 2)) by (destruct Hw as [->|[->| ->]]; done). assert (w <= 8)%nat by (destruct Hw as [->|[->| ->]]; lia).
  intros i bs' fuel. revert i bs'. induction fuel as [|fuel IH]; intros i bs' Hi Hb' Hbt Hfu Hlook; [lia|]. cbn [loop]. apply wp_bind. unfold swap_group at 1.
  rewrite Hhz, ge_s_small by lia. destruct (Z.leb_spec (Z.of_nat (w / 2)) (Z.of_nat i)) as [Hle|Hgt].
  { apply wp_mret, wp_mret. replace (reverse bs) with bs' in HQ; [done|]. apply list_eq. intros j. destruct (decide (j < w)%nat).
    - rewrite Hlook, reverse_lookup by lia. rewrite decide_False by lia. f_equal. lia.
    - rewrite !lookup_ge_None_2; [done|rewrite length_reverse; lia|lia]. }
  destruct (lookup_lt_is_Some_2 bs' i) as [x Hx]; [lia|]. destruct (lookup_lt_is_Some_2 bs' (w - 1 - i)) as [y Hy]; [lia|].
  apply wp_bind. rewrite Forall_lookup in Hbt. apply (wp_swap_at w v a bs' c i g) with x y; [done|done|done|rewrite !length_app; lia|done|lia|done|done|eauto|eauto|].
  apply wp_mret. rewrite add32_id by lia. replace (Z.of_nat i + 1) with (Z.of_nat (S i)) by lia. apply IH; [lia|by rewrite !length_insert| |lia|].
  - apply Forall_insert; [apply Forall_insert; [by rewrite Forall_lookup|eauto]|eauto].
  - intros j Hj. destruct (decide (j = w - 1 - i)%nat) as [->|Hn1].
    + rewrite list_lookup_insert_eq by (rewrite length_insert; lia). rewrite decide_False by lia. rewrite <- Hx, Hlook by lia. rewrite decide_True by lia. f_equal. lia.
    + rewrite list_lookup_insert_ne by done. destruct (decide (j = i)) as [->|Hn2].
      * rewrite list_lookup_insert_eq by lia. rewrite decide_False by lia. rewrite <- Hy, Hlook by lia. by rewrite decide_True by lia.
      * rewrite list_lookup_insert_ne by done. rewrite Hlook by done. destruct (decide (i <= j < w - i)%nat), (decide (S i <= j < w - S i)%nat); try done; lia.
Qed.

(** Each group of [w] bytes reversed. *)
Fixpoint rev_groups (n w : nat) (bs : list Z) : list Z := match n with O => [] | S n => reverse (take w bs) ++ rev_groups n w (drop w bs) end.

Theorem swap_exact w v s : swap_width w → view_in v s →
  if Z.rem (VLEN v) (Z.of_nat w) =? 0 then ∃ a bs c, s = a ++ bs ++ c ∧ len a = VOFF v ∧ len bs = VLEN v ∧
    swap (Z.of_nat w) v s = (Val (Done tt), a ++ rev_groups (Z.to_nat (VLEN v) / w) w bs ++ c)
  else swap (Z.of_nat w) v s = (Val (Throws (BadSize (Z.of_nat w * 8))), s).
Proof.
  intros Hw Hv. unfold swap. destruct (Z.eqb_spec (Z.rem (VLEN v) (Z.of_nat w)) 0) as [E|E]; cbn [negb]; [|done].
  pose proof Hv as (Hb & Ho & Hl & Hf & Hs). destruct (split_at v s 0 (VLEN v) Hv) as (a & bs & c & -> & Ha & Hlb & Hbytes); [lia..|].
  exists a, bs, c. split_and!; [done|lia|lia|]. assert (Hw0 : (0 < w <= 8)%nat) by (destruct Hw as [->|[->| ->]]; lia).
  rewrite Z.rem_mod_nonneg in E by lia. assert (Hn : Z.to_nat (VLEN v) = (w * (Z.to_nat (VLEN v) / w))%nat).
  { rewrite <- Hlb in *. apply Nat.Div0.div_exact. rewrite <- (Z2Nat.id (VLEN v)), <- Nat2Z.inj_mod in E by lia. rewrite <- Hlb in E. lia. }
  set (n := (Z.to_nat (VLEN v) / w)%nat) in *. rewrite !length_app in *.
  assert (Hgo : ∀ m fuel (a' bs' : list Z), VOFF v + VLEN v - Z.of_nat (w * m) = len a' → length bs' = (w * m)%nat → Forall byte bs' → (m < fuel)%nat → (m <= n)%nat → (length a' + length bs' = length a + length bs)%nat →
    wp (loop fuel (swap_step (Z.of_nat w) v) (VLEN v - Z.of_nat (w * m))) (λ _ s', s' = a' ++ rev_groups m w bs' ++ c) (λ _ _, False) (a' ++ bs' ++ c)).
  { induction m as [|m IH]; intros fuel a' bs' Ha' Hb' Hbt Hfu Hmn Hsum; (destruct fuel as [|fuel]; [lia|]); cbn [loop]; apply wp_bind; unfold swap_step at 1.
    - rewrite ge_s_small by lia. rewrite Nat.mul_0_r in *. rewrite (proj2 (Z.leb_le _ _)) by lia. apply wp_mret, wp_mret. by destruct bs'.
    - assert (Z.of_nat (w * S m) <= VLEN v) by (assert (w * S m <= w * n)%nat by (apply Nat.mul_le_mono_l; lia); lia). rewrite ge_s_small by lia. rewrite (proj2 (Z.leb_gt _ _)) by lia.
      rewrite <- (take_drop w bs') at 1. rewrite <- app_assoc. rewrite <- (take_drop w bs') in Hbt. apply Forall_app in Hbt as [Ht Hd].
      assert (Htl : length (take w bs') = w) by (rewrite length_take; lia). assert (Hdl : length (drop w bs') = (w * m)%nat) by (rewrite length_drop; lia).
      apply wp_bind. apply wp_swap_group; [done|lia|lia|lia|rewrite !length_app; lia|done|done|]. apply wp_mret.
      replace (a' ++ reverse (take w bs') ++ drop w bs' ++ c) with ((a' ++ reverse (take w bs')) ++ drop w bs' ++ c) by by rewrite <- app_assoc.
      rewrite add32_id by lia. replace (VLEN v - Z.of_nat (w * S m) + Z.of_nat w) with (VLEN v - Z.of_nat (w * m)) by lia.
      eapply wp_mono; [apply IH; [rewrite length_app, length_reverse; lia|done|done|lia|lia|rewrite length_app, length_reverse; lia]| |done].
      intros ? s' ->. cbn [rev_groups]. by rewrite <- !app_assoc. }
  assert (Hn' : (n <= Z.to_nat (VLEN v))%nat) by nia.
  assert (H : wp (loop (S (Z.to_nat (VLEN v))) (swap_step (Z.of_nat w) v) 0) (λ _ s', s' = a ++ rev_groups n w bs ++ c) (λ _ _, False) (a ++ bs ++ c)).
  { replace 0 with (VLEN v - Z.of_nat (w * n)) by lia. apply Hgo; [lia|lia|done|lia|lia|done]. }
  apply wp_run in H as ([] & s' & E' & ->). unfold mbind. by rewrite E'.
Qed.

Lemma write_read_number_witness :
  ∃ i s', is_int (num_of_Z 3) i ∧ 0 <= i <= 8 - 2 ∧
    writeNum k16be (mkV 2 8) (num_of_Z (-2)) (num_of_Z 3) sample_store = (Val (Done (num_of_Z (i + 2))), s') ∧
    patched sample_store s' (2 + i) 2 ∧ readNum k16be (mkV 2 8) (num_of_Z 3) s' = (Val (Done (num_of_Z (num_to_Z (num_of_Z (-2))))), s').
Proof.
  pose proof (write_read_number "i16be" k16be (mkV 2 8) (num_of_Z (-2)) (num_of_Z 3) sample_store) as H.
  assert (Ev : bad_value k16be (num_of_Z (-2)) = false) by (vm_compute; reflexivity).
  assert (Eo : bad_offset (num_of_Z 3) (cap_of (mkV 2 8) 2) = false) by (vm_compute; reflexivity).
  rewrite Ev in H. cbn [width k16be] in H. rewrite Eo in H. apply H.
  - reflexivity.
  - split_and!; cbn; try lia. repeat constructor; lia.
  - rewrite num_of_Z_exact by done. apply repr_int. done.
Defined.
