(* ===== verification/BufferOps.v ===== *)
(** * Searching, comparing, filling and copying buffers

    The whole-buffer operations of typedarrays.ts
    (src/packages/compiler/src/backend/wasm/): [validateOffHelper],
    [fillCoreHelper] with [fillNumHelper], [compareBufHelper], [copyHelper],
    [equalsHelper], [indexOfHelper] with [indexOfNumHelper].  The state is a
    heap of storage arrays: two views may share an array, and a write through
    one shows through the other. *)

From S2P Require Import Prelude F64 Arrays BytesDecode BufferNumbers.

#[local] Open Scope arr_scope.

Notation heap := (list (list Z)).
Definition HM : Type → Type := M heap.
(** A $bytes struct: the array, off, len. *)
Record bufv := mkB { ARR : nat; BO : Z; BL : Z }.

Definition array_of (h : heap) (b : bufv) : list Z := default [] (h !! ARR b).
Definition get_u (b : bufv) (i : Z) : HM Z := λ h,
  (match h !! ARR b with Some a => match aget a i with Some x => Val x | None => Trap end | None => Trap end, h).
Definition set_u (b : bufv) (i x : Z) : HM unit := λ h,
  match h !! ARR b with
  | Some a => match aset a i (x mod 256) with Some a' => (Val tt, <[ARR b := a']> h) | None => (Trap, h) end
  | None => (Trap, h)
  end.
Definition copy_u (dst : bufv) (di : Z) (src : bufv) (si n : Z) : HM unit := λ h,
  match h !! ARR dst, h !! ARR src with
  | Some d, Some s => match acopy d di s si n with Some d' => (Val tt, <[ARR dst := d']> h) | None => (Trap, h) end
  | _, _ => (Trap, h)
  end.
Definition alloc (a : list Z) : HM nat := λ h, (Val (length h), h ++ [a]).
Definition bytes_of (h : heap) (b : bufv) : list Z := slice (array_of h b) (BO b) (BL b).

(** ** validateOff *)

Definition validateOff (name : string) (value max : num) : option buffer_error :=
  if negb (num_eq (math_floor value) value) || num_eq value PInf || num_eq value NInf then Some (MustBeInteger name value)
  else if num_lt value (Fin 0) || (num_le (Fin 0) max && num_lt max value) then
    Some (if num_lt max (Fin 0) then MustBeAtLeast0 name value else MustBeAtMost name max value)
  else None.
(** An argument that may be absent: its default, or the value checked. *)
Definition optional (absent : bool) (dflt : num) (name : string) (value max : num) : num + buffer_error :=
  if absent then inl dflt else match validateOff name value max with Some e => inr e | None => inl value end.
Definition MAX_SAFE : num := num_of_Z 9007199254740991.
(** A position capped at a length. *)
Definition capped (x : num) (n : Z) : HM Z := if num_lt (i2d n) x then mret n else of_option (trunc_s32 x).

(** ** fill *)

Definition fill_step (b pat : bufv) (o e i : Z) : HM (Z + unit) :=
  if ge_s i e then mret (inr tt)
  else
    x <- (if BL pat =? 0 then mret 0 else get_u pat (add32 (BO pat) (Z.rem (sub32 i o) (BL pat))));;
    set_u b (add32 (BO b) i) x;;;
    mret (inl (add32 i 1)).
Definition fill_args (zeroOk : bool) (n patn nargs : Z) (offset end_ : num) : (num * num) + buffer_error :=
  if negb zeroOk && (patn =? 0) then inr EmptyPattern
  else match optional (nargs <? 1) (Fin 0) "offset" offset MAX_SAFE with inr e => inr e | inl offset =>
  match optional (nargs <? 2) (i2d n) "end" end_ (i2d n) with inr e => inr e | inl end_ => inl (offset, end_) end end.
Definition fillCore (zeroOk : bool) (b pat : bufv) (nargs : Z) (offset end_ : num) : HM (outcome bufv) :=
  match fill_args zeroOk (BL b) (BL pat) nargs offset end_ with
  | inr err => mret (Throws err)
  | inl (offset, end_) =>
      (if num_lt offset end_ then
         o <- capped offset (BL b);;
         e <- of_option (trunc_s32 end_);;
         loop (S (Z.to_nat (BL b))) (fill_step b pat o e) o
       else mret tt);;;
      mret (Done b)
  end.
Definition one_byte (v : num) : HM bufv := a <- alloc [0];; set_u (mkB a 0 1) 0 (Z.land (toInt32 v) 0xff);;; mret (mkB a 0 1).
Definition fillNum (b : bufv) (v : num) (nargs : Z) (offset end_ : num) : HM (outcome bufv) :=
  pat <- one_byte v;; fillCore false b pat nargs offset end_.

(** ** compare, equals *)

Definition cmp_step (src : bufv) (s0 : Z) (tgt : bufv) (t0 m i : Z) : HM (Z + option Z) :=
  if ge_s i m then mret (inr None)
  else
    x <- get_u src (add32 (add32 (BO src) s0) i);;
    y <- get_u tgt (add32 (add32 (BO tgt) t0) i);;
    if negb (x =? y) then mret (inr (Some (if x <? y then -1 else 1))) else mret (inl (add32 i 1)).
Definition compare_args (tlen slen nargs : Z) (ts te ss se : num) : (num * num * num * num) + buffer_error :=
  match optional (nargs <? 1) (Fin 0) "targetStart" ts MAX_SAFE with inr e => inr e | inl ts =>
  match optional (nargs <? 2) (i2d tlen) "targetEnd" te (i2d tlen) with inr e => inr e | inl te =>
  match optional (nargs <? 3) (Fin 0) "sourceStart" ss MAX_SAFE with inr e => inr e | inl ss =>
  match optional (nargs <? 4) (i2d slen) "sourceEnd" se (i2d slen) with inr e => inr e | inl se => inl (ts, te, ss, se)
  end end end end.
Definition compare_windows (src tgt : bufv) (ts te ss se : num) : HM (outcome num) :=
  if num_le te ts then mret (Done (if num_le se ss then Fin 0 else num_of_Z 1))
  else if num_le se ss then mret (Done (num_of_Z (-1)))
  else
    t0 <- capped ts (BL tgt);;
    s0 <- capped ss (BL src);;
    te <- of_option (trunc_s32 te);;
    se <- of_option (trunc_s32 se);;
    let tn := sub32 te t0 in
    let sn := sub32 se s0 in
    let m := if gt_s tn sn then sn else tn in
    r <- loop (S (Z.to_nat m)) (cmp_step src s0 tgt t0 m) 0;;
    mret (Done (match r with
      | Some c => num_of_Z c
      | None => if sn =? tn then Fin 0 else if gt_s tn sn then num_of_Z (-1) else num_of_Z 1
      end)).
Definition compareBuf (src tgt : bufv) (nargs : Z) (ts te ss se : num) : HM (outcome num) :=
  match compare_args (BL tgt) (BL src) nargs ts te ss se with
  | inr e => mret (Throws e)
  | inl (ts, te, ss, se) => compare_windows src tgt ts te ss se
  end.

Definition equals_step (a b : bufv) (n i : Z) : HM (Z + bool) :=
  if ge_s i n then mret (inr true)
  else
    x <- get_u a (add32 (BO a) i);;
    y <- get_u b (add32 (BO b) i);;
    if negb (x =? y) then mret (inr false) else mret (inl (add32 i 1)).
Definition equals (a b : bufv) : HM bool :=
  if negb (BL b =? BL a) then mret false else loop (S (Z.to_nat (BL a))) (equals_step a b (BL a)) 0.

(** ** copy *)

Definition emitFloorOrZero (v : num) : num :=
  let t := math_floor v in if is_nan t || num_eq t PInf || num_eq t NInf then Fin 0 else t.
Definition copy_args (slen nargs : Z) (ts ss se : num) : (num * num * num) + buffer_error :=
  let none := num_of_Z (-1) in
  match optional (nargs <? 1) (Fin 0) "targetStart" (emitFloorOrZero ts) none with inr e => inr e | inl ts =>
  match optional (nargs <? 2) (Fin 0) "sourceStart" (emitFloorOrZero ss) (i2d slen) with inr e => inr e | inl ss =>
  match optional (nargs <? 3) (i2d slen) "sourceEnd" (emitFloorOrZero se) none with inr e => inr e | inl se => inl (ts, ss, se)
  end end end.
Definition copy_window (src dst : bufv) (ts ss se : num) : HM (outcome num) :=
  if num_le (i2d (BL dst)) ts then mret (Done (Fin 0))
  else
    t0 <- of_option (trunc_s32 ts);;
    s0 <- of_option (trunc_s32 ss);;
    e0 <- capped se (BL src);;
    if ge_s s0 e0 then mret (Done (Fin 0))
    else
      let count := sub32 e0 s0 in
      let count := if gt_s count (sub32 (BL dst) t0) then sub32 (BL dst) t0 else count in
      copy_u dst (add32 (BO dst) t0) src (add32 (BO src) s0) count;;;
      mret (Done (i2d count)).
Definition copy (src dst : bufv) (nargs : Z) (ts ss se : num) : HM (outcome num) :=
  match copy_args (BL src) nargs ts ss se with
  | inr e => mret (Throws e)
  | inl (ts, ss, se) => copy_window src dst ts ss se
  end.

(** ** indexOf, lastIndexOf *)

Definition match_step (b needle : bufv) (i j : Z) : HM (Z + bool) :=
  if ge_s j (BL needle) then mret (inr true)
  else
    x <- get_u b (add32 (add32 (BO b) i) j);;
    y <- get_u needle (add32 (BO needle) j);;
    if negb (x =? y) then mret (inr false) else mret (inl (add32 j 1)).
Definition matches (b needle : bufv) (i : Z) : HM bool := loop (S (Z.to_nat (BL needle))) (match_step b needle i) 0.
Definition search_step (fwd : bool) (b needle : bufv) (step i : Z) : HM (Z + num) :=
  if (if fwd then gt_s (add32 i (BL needle)) (BL b) else to_int32 i <? 0) then mret (inr (num_of_Z (-1)))
  else
    ok <- matches b needle i;;
    if ok then mret (inr (i2d i)) else mret (inl (if fwd then add32 i step else sub32 i step)).
Definition even_down (step start : Z) : Z := if step =? 2 then sub32 start (Z.rem start 2) else start.
(** The position the search starts from, as an integer; [None]: below the
    start of a backward search. *)
Definition search_origin (fwd : bool) (n : Z) (boff : num) : option num :=
  let o := if is_nan boff then (if fwd then Fin 0 else i2d n) else math_trunc boff in
  if num_lt o (Fin 0) then
    let o := num_add o (i2d n) in
    if num_lt o (Fin 0) then (if fwd then Some (Fin 0) else None) else Some o
  else Some o.
Definition indexOf (fwd : bool) (b needle : bufv) (align boff : num) : HM num :=
  let n := BL b in
  let nlen := BL needle in
  let step := if num_eq align (num_of_Z 2) then 2 else 1 in
  match search_origin fwd n boff with
  | None => mret (num_of_Z (-1))
  | Some o =>
      if nlen =? 0 then mret (if num_lt (i2d n) o then i2d n else o)
      else if gt_s nlen n then mret (num_of_Z (-1))
      else
        start <- capped o (if fwd then n else sub32 n nlen);;
        loop (S (S (Z.to_nat n))) (search_step fwd b needle step) (even_down step start)
  end.
Definition indexOfNum (fwd : bool) (b : bufv) (v boff : num) : HM num :=
  needle <- one_byte v;; indexOf fwd b needle (num_of_Z 1) boff.

Definition sample_heap : heap := [[9; 97; 98; 97; 98; 99; 9]; [97; 98]].
Definition whole : bufv := mkB 0 1 5.
Definition ab : bufv := mkB 1 0 2.
Example sample_ops :
  (indexOf true whole ab (Fin 0) (num_of_Z 1) sample_heap).1 = Val (num_of_Z 2) ∧
  (indexOf false whole ab (Fin 0) PInf sample_heap).1 = Val (num_of_Z 2) ∧ (indexOf false whole ab (num_of_Z 2) (num_of_Z (-4)) sample_heap).1 = Val (num_of_Z 0) ∧
  (compareBuf whole ab 4 (Fin 0) (num_of_Z 2) (num_of_Z 2) (num_of_Z 4) sample_heap).1 = Val (Done (Fin 0)) ∧
  (copy whole whole 3 (num_of_Z 1) (Fin 0) (num_of_Z 3) sample_heap).2 !! 0%nat = Some [9; 97; 97; 98; 97; 99; 9] ∧
  (fillCore false whole ab 1 (num_of_Z 2) (Fin 0) sample_heap).2 !! 0%nat = Some [9; 97; 98; 97; 98; 97; 9].
Proof. vm_compute. done. Qed.

(** ** Positions *)

Lemma floor_integral x : num_eq (math_floor x) x = true → x = PInf ∨ x = NInf ∨ ∃ k, is_int x k.
Proof.
  destruct x as [| | | |k]; [done|by left|by right; left|right; right; exists 0; by right|]. unfold num_eq. cbn [math_floor is_nan negb andb key].
  intros E%Z.eqb_eq. right; right. exists (k / ONE). left. by rewrite E.
Qed.
Lemma is_int_floor x k : is_int x k → num_eq (math_floor x) x = true.
Proof.
  intros [->|[-> _]]; [|done]. pose proof ONE_pos. unfold num_eq. cbn [math_floor is_nan negb andb key]. by rewrite Z.div_mul, Z.eqb_refl by lia.
Qed.
Lemma is_int_le x k j : is_int x k → num_le x (Fin (j * ONE)) = (k <=? j) ∧ num_le (Fin (j * ONE)) x = (j <=? k).
Proof. intros [->|[-> ->]]; rewrite <- ?num_le_scaled; done. Qed.
Lemma is_int_lt2 x k y j : is_int x k → is_int y j → num_lt x y = (k <? j) ∧ num_le x y = (k <=? j).
Proof.
  intros Hx [->|[-> ->]]; [split; [by apply is_int_lt|by apply is_int_le]|].
  destruct (is_int_lt x k 0 Hx) as [<- _]. destruct (is_int_le x k 0 Hx) as [<- _]. by destruct x.
Qed.

Lemma validateOff_ok name x m : Z.abs m <= 2 ^ 53 → validateOff name x (Fin (m * ONE)) = None → ∃ k, is_int x k ∧ 0 <= k ∧ (0 <= m → k <= m).
Proof.
  intros Hm H. unfold validateOff in H. destruct (negb _ || _ || _) eqn:E1; [done|]. apply orb_false_iff in E1 as [E1 E3]. apply orb_false_iff in E1 as [E1 E2].
  apply negb_false_iff, floor_integral in E1 as [->|[->|(k & Hk)]]; [done|done|]. destruct (_ || _) eqn:E4; [done|].
  apply orb_false_iff in E4 as [E4 E5]. exists k. split; [done|]. destruct (is_int_lt x k 0 Hk) as [Hz _]. change (Fin (0 * ONE)) with (Fin 0) in Hz. rewrite Hz in E4. zb.
  split; [done|]. intros Hm0. change (Fin 0) with (Fin (0 * ONE)) in E5. destruct (is_int_lt x k m Hk) as [_ Hlt]. rewrite num_le_scaled, Hlt in E5.
  rewrite (proj2 (Z.leb_le 0 m)) in E5 by lia. cbn [andb] in E5. zb. lia.
Qed.

Lemma max_safe : MAX_SAFE = Fin (9007199254740991 * ONE).
Proof. apply num_of_Z_int. lia. Qed.

Lemma optional_ok absent dflt name x m y d : Z.abs m <= 2 ^ 53 → is_int dflt d → 0 <= d → (0 <= m → d <= m) →
  optional absent dflt name x (Fin (m * ONE)) = inl y → ∃ k, is_int y k ∧ 0 <= k ∧ (0 <= m → k <= m).
Proof.
  intros Hm Hd Hd0 Hdm H. unfold optional in H. destruct absent; [injection H as <-; eauto|].
  destruct (validateOff name x (Fin (m * ONE))) eqn:E; [done|]. injection H as <-. by apply validateOff_ok in E.
Qed.

Lemma is_int_i2d n : 0 <= n < 2 ^ 31 → is_int (i2d n) n.
Proof. intros. left. by apply i2d_small. Qed.
Lemma is_int_0 : is_int (Fin 0) 0.
Proof. by left. Qed.
#[local] Hint Resolve is_int_i2d is_int_0 : core.

Lemma wp_capped x k n (Q : Z → heap → Prop) R h : is_int x k → 0 <= k → 0 <= n < 2 ^ 31 → Q (Z.min k n) h → wp (capped x n) Q R h.
Proof.
  intros Hx Hk Hn HQ. unfold capped. rewrite i2d_small by done. destruct (is_int_lt x k n Hx) as [_ ->].
  destruct (Z.ltb_spec n k); [apply wp_mret; by rewrite Z.min_r in HQ by lia|]. rewrite Z.min_l in HQ by lia.
  eapply wp_of_option; [apply trunc_s32_int; [done|lia]|done].
Qed.
Lemma wp_trunc x k (Q : Z → heap → Prop) R h : is_int x k → 0 <= k < 2 ^ 31 → Q k h → wp (of_option (trunc_s32 x)) Q R h.
Proof. intros Hx Hk HQ. eapply wp_of_option; [by apply trunc_s32_int|done]. Qed.

(** ** Views of a heap *)

Record bok (h : heap) (b : bufv) : Prop := mkBok {
  bok_array : h !! ARR b = Some (array_of h b);
  bok_bytes : Forall byte (array_of h b);
  bok_off : 0 <= BO b;
  bok_len : 0 <= BL b < 2 ^ 31 - 8;
  bok_fits : BO b + BL b <= len (array_of h b) < 2 ^ 32
}.

Lemma bytes_of_length h b : bok h b → len (bytes_of h b) = BL b.
Proof. intros [_ _ ? ? ?]. unfold bytes_of, slice. rewrite length_take, length_drop. lia. Qed.

Lemma bytes_of_lookup h b i : bok h b → 0 <= i < BL b → bytes_of h b !! Z.to_nat i = array_of h b !! Z.to_nat (BO b + i).
Proof.
  intros [_ _ ? ? ?] Hi. unfold bytes_of, slice. rewrite lookup_take_lt by lia. rewrite lookup_drop. f_equal. lia.
Qed.

Lemma wp_get_u h b i (Q : Z → heap → Prop) R : bok h b → 0 <= i < BL b →
  (∀ x, bytes_of h b !! Z.to_nat i = Some x → byte x → Q x h) → wp (get_u b (BO b + i)) Q R h.
Proof.
  intros Hb Hi HQ. destruct (lookup_lt_is_Some_2 (bytes_of h b) (Z.to_nat i)) as [x Hx]; [pose proof (bytes_of_length h b Hb); lia|].
  specialize (HQ x Hx). rewrite (bytes_of_lookup h b i Hb Hi) in Hx. destruct Hb as [Ha Hbytes ? ? ?]. unfold wp, get_u. rewrite Ha.
  unfold aget. rewrite (proj2 (Z.ltb_ge _ _)) by lia. rewrite Hx. apply HQ. rewrite Forall_lookup in Hbytes. eauto.
Qed.

Lemma array_of_insert_ne (h : heap) k A b : ARR b ≠ k → array_of (<[k := A]> h) b = array_of h b.
Proof. intros. unfold array_of. by rewrite list_lookup_insert_ne by congruence. Qed.
Lemma bok_insert_ne h k A b : bok h b → ARR b ≠ k → bok (<[k := A]> h) b.
Proof. intros [P1 P2 P3 P4 P5] Hne. split; rewrite ?array_of_insert_ne by done; [|done..]. rewrite list_lookup_insert_ne by congruence. done. Qed.

(** ** compare *)

(** The order of byte sequences: -1, 0 or 1. *)
Fixpoint lex (xs ys : list Z) : Z :=
  match xs, ys with
  | [], [] => 0
  | [], _ => -1
  | _, [] => 1
  | x :: xs, y :: ys => if x =? y then lex xs ys else if x <? y then -1 else 1
  end.
Definition window (h : heap) (b : bufv) (i j : Z) : list Z := slice (bytes_of h b) i (j - i).

Lemma lex_mismatch i xs ys x y : take i xs = take i ys → xs !! i = Some x → ys !! i = Some y → x ≠ y → lex xs ys = if x <? y then -1 else 1.
Proof.
  revert xs ys. induction i as [|i IH]; intros [|x' xs] [|y' ys] Ht Hx Hy Hne; try done; cbn in *; simplify_eq.
  - by rewrite (proj2 (Z.eqb_neq x y)).
  - rewrite Z.eqb_refl. by apply IH.
Qed.

Lemma lex_prefix m xs ys : m = Nat.min (length xs) (length ys) → take m xs = take m ys →
  lex xs ys = if len xs =? len ys then 0 else if len xs <? len ys then -1 else 1.
Proof.
  revert xs ys. induction m as [|m IH]; intros [|x xs] [|y ys] Hm Ht; try done; cbn [length] in *; try lia.
  cbn in Ht. injection Ht as -> Ht. cbn [lex]. rewrite Z.eqb_refl, (IH xs ys) by (done || lia).
    rewrite !Nat2Z.inj_succ. destruct (Z.eqb_spec (len xs) (len ys)), (Z.eqb_spec (Z.succ (len xs)) (Z.succ (len ys))), (Z.ltb_spec (len xs) (len ys)), (Z.ltb_spec (Z.succ (len xs)) (Z.succ (len ys))); done || lia.
Qed.

Lemma window_length h b i j : bok h b → 0 <= i → j <= BL b → len (window h b i j) = Z.max 0 (j - i).
Proof. intros Hb Hi Hj. pose proof (bytes_of_length h b Hb). unfold window, slice. rewrite length_take, length_drop. lia. Qed.
Lemma window_lookup h b i j k x : 0 <= i → 0 <= k < j - i → window h b i j !! Z.to_nat k = Some x → bytes_of h b !! Z.to_nat (i + k) = Some x.
Proof.
  intros Hi Hk Hx. unfold window, slice in Hx. rewrite lookup_take_Some, lookup_drop in Hx. destruct Hx as [Hx _]. by rewrite Z2Nat.inj_add by lia.
Qed.
Lemma window_empty h b i j : j <= i → window h b i j = [].
Proof. intros. unfold window, slice. replace (Z.to_nat (j - i)) with 0%nat by lia. done. Qed.

Lemma cmp_step_ok h src tgt a b c d i (R : Z → heap → Prop) : bok h src → bok h tgt → 0 <= a → b <= BL tgt → 0 <= c → d <= BL src →
  let xs := window h src c d in let ys := window h tgt a b in let m := Z.min (d - c) (b - a) in 0 <= i <= m → take (Z.to_nat i) xs = take (Z.to_nat i) ys →
  wp (cmp_step src c tgt a m i) (λ r h', h' = h ∧ match r with
    | inl i' => i' = i + 1 ∧ i < m ∧ take (Z.to_nat i') xs = take (Z.to_nat i') ys
    | inr (Some z) => lex xs ys = z
    | inr None => i = m
    end) R h.
Proof.
  intros Hs Ht Ha Hb Hc Hd xs ys m Hi Heq. pose proof (bok_len _ _ Hs) as Ls. pose proof (bok_len _ _ Ht) as Lt. pose proof (bok_fits _ _ Hs). pose proof (bok_fits _ _ Ht).
  pose proof (bok_off _ _ Hs). pose proof (bok_off _ _ Ht). unfold cmp_step. rewrite ge_s_small by lia. destruct (Z.leb_spec m i); [apply wp_mret; split; [done|lia]|].
  assert (Hlx : len xs = d - c) by (unfold xs; rewrite window_length by done; lia). assert (Hly : len ys = b - a) by (unfold ys; rewrite window_length by done; lia).
  destruct (lookup_lt_is_Some_2 xs (Z.to_nat i)) as [x Hx]; [lia|]. destruct (lookup_lt_is_Some_2 ys (Z.to_nat i)) as [y Hy]; [lia|].
  apply wp_bind. rewrite (add32_id (BO src)), add32_id by lia. rewrite <- Z.add_assoc. apply wp_get_u; [done|lia|]. intros x' Hx' _.
  rewrite (window_lookup h src c d i x) in Hx' by (done || lia). simplify_eq.
  apply wp_bind. rewrite (add32_id (BO tgt)), add32_id by lia. rewrite <- Z.add_assoc. apply wp_get_u; [done|lia|]. intros y' Hy' _.
  rewrite (window_lookup h tgt a b i y) in Hy' by (done || lia). simplify_eq.
  destruct (Z.eqb_spec x' y') as [->|Hne]; cbn [negb]; apply wp_mret; (split; [done|]).
  - rewrite add32_id by lia. split; [done|]. split; [lia|]. replace (Z.to_nat (i + 1)) with (S (Z.to_nat i)) by lia. by rewrite !(take_S_r _ _ y'), Heq.
  - by apply (lex_mismatch (Z.to_nat i)).
Qed.

Lemma compare_windows_exact h src tgt ts te ss se a b c d : bok h src → bok h tgt → is_int ts a → is_int te b → is_int ss c → is_int se d →
  0 <= a → 0 <= b <= BL tgt → 0 <= c → 0 <= d <= BL src →
  compare_windows src tgt ts te ss se h = (Val (Done (num_of_Z (lex (window h src c d) (window h tgt a b)))), h).
Proof.
  intros Hs Ht Hts Hte Hss Hse Ha Hb Hc Hd. pose proof (bok_len _ _ Hs) as Ls. pose proof (bok_len _ _ Ht) as Lt. unfold compare_windows.
  destruct (is_int_lt2 te b ts a Hte Hts) as [_ ->]. destruct (is_int_lt2 se d ss c Hse Hss) as [_ ->].
  assert (H0 : Fin 0 = num_of_Z 0) by reflexivity.
  pose proof (window_length h src c d Hs Hc ltac:(lia)) as Wl. destruct (Z.leb_spec b a) as [Hba|Hba].
  { rewrite (window_empty h tgt a b) by lia. destruct (Z.leb_spec d c) as [Hdc|Hdc]; [rewrite window_empty by lia; by rewrite H0|].
    destruct (window h src c d); [cbn [length] in Wl; lia|done]. }
  destruct (Z.leb_spec d c) as [Hdc|Hdc].
  { pose proof (window_length h tgt a b Ht Ha ltac:(lia)) as Wt. rewrite (window_empty h src) by lia. destruct (window h tgt a b); [cbn [length] in Wt; lia|done]. }
  match goal with |- ?m _ = _ => assert (H : wp m (λ r h', r = Done (num_of_Z (lex (window h src c d) (window h tgt a b))) ∧ h' = h) (λ _ _, False) h) end.
  2: { apply wp_run in H as (r & h' & -> & -> & ->). done. }
  apply wp_bind, (wp_capped ts a); [done|lia|lia|]. apply wp_bind, (wp_capped ss c); [done|lia|lia|].
  apply wp_bind, (wp_trunc te b); [done|lia|]. apply wp_bind, (wp_trunc se d); [done|lia|]. rewrite !Z.min_l, !sub32_id by lia. cbv zeta.
  rewrite gt_s_small by lia. assert (Hm : (if d - c <? b - a then d - c else b - a) = Z.min (d - c) (b - a)) by (destruct (Z.ltb_spec (d - c) (b - a)); lia). rewrite Hm.
  set (m := Z.min (d - c) (b - a)) in *. apply wp_bind.
  apply wp_loop with (λ i h', h' = h ∧ 0 <= i <= m ∧ take (Z.to_nat i) (window h src c d) = take (Z.to_nat i) (window h tgt a b)) (λ i, m - i).
  { done || (split; [done|]; split; [lia|done]). }
  { lia. }
  intros i h' (-> & Hi & Heq) _. eapply wp_mono; [apply (cmp_step_ok h src tgt a b c d i (λ _ _, False)); first [done|lia]| |done].
  intros [i'|[z|]] h' [-> Hr]; cbn in Hr.
  - destruct Hr as (-> & Hlt & Heq'). split; [split; [done|]; split; [lia|done]|lia].
  - apply wp_mret. by rewrite Hr.
  - subst i. apply wp_mret. split; [|done]. f_equal. rewrite (lex_prefix (Z.to_nat m)); [|rewrite <- (Nat2Z.id (length _)), <- (Nat2Z.id (length (window h tgt a b))), !window_length by (done || lia); lia|done].
    rewrite !window_length by (done || lia). rewrite !Z.max_r by lia. destruct (Z.eqb_spec (d - c) (b - a)); [reflexivity|]. destruct (Z.ltb_spec (d - c) (b - a)); reflexivity.
Qed.

Lemma compare_args_ok tlen slen nargs ts te ss se ts' te' ss' se' : 0 <= tlen < 2 ^ 31 → 0 <= slen < 2 ^ 31 →
  compare_args tlen slen nargs ts te ss se = inl (ts', te', ss', se') →
  ∃ a b c d, is_int ts' a ∧ is_int te' b ∧ is_int ss' c ∧ is_int se' d ∧ 0 <= a ∧ 0 <= b <= tlen ∧ 0 <= c ∧ 0 <= d <= slen.
Proof.
  intros Ht Hs H. unfold compare_args in H. rewrite max_safe in H. rewrite !(i2d_small tlen), !(i2d_small slen) in H by done.
  destruct (optional _ _ "targetStart" _ _) as [x1|?] eqn:E1; [|discriminate]. destruct (optional _ _ "targetEnd" _ _) as [x2|?] eqn:E2; [|discriminate].
  destruct (optional _ _ "sourceStart" _ _) as [x3|?] eqn:E3; [|discriminate]. destruct (optional _ _ "sourceEnd" _ _) as [x4|?] eqn:E4; [|discriminate].
  injection H as <- <- <- <-.
  apply (optional_ok _ _ _ _ _ _ 0) in E1 as (a & Ia & Ha & _); [|lia|apply is_int_0|lia|lia]. apply (optional_ok _ _ _ _ _ _ tlen) in E2 as (b & Ib & Hb & Hb'); [|lia|by left|lia|lia].
  apply (optional_ok _ _ _ _ _ _ 0) in E3 as (c & Ic & Hc & _); [|lia|apply is_int_0|lia|lia]. apply (optional_ok _ _ _ _ _ _ slen) in E4 as (d & Id & Hd & Hd'); [|lia|by left|lia|lia].
  exists a, b, c, d. split_and!; first [assumption|lia].
Qed.

(** Buffer.compare never traps: it throws the error of the first argument
    that is no offset, leaving the heap alone, and otherwise answers the order of
    the two windows as byte sequences, empty windows and starts past the end
    included. *)
Theorem compareBuf_lexicographic (h : heap) (src tgt : bufv) (nargs : Z) (ts te ss se : num) : bok h src → bok h tgt →
  match compare_args (BL tgt) (BL src) nargs ts te ss se with
  | inr e => compareBuf src tgt nargs ts te ss se h = (Val (Throws e), h)
  | inl (ts', te', ss', se') => ∃ a b c d, is_int ts' a ∧ is_int te' b ∧ is_int ss' c ∧ is_int se' d ∧
      compareBuf src tgt nargs ts te ss se h = (Val (Done (num_of_Z (lex (window h src c d) (window h tgt a b)))), h)
  end.
Proof.
  intros Hs Ht. unfold compareBuf. pose proof (bok_len _ _ Hs). pose proof (bok_len _ _ Ht).
  destruct (compare_args _ _ _ _ _ _ _) as [[[[ts' te'] ss'] se']|e] eqn:E; [|reflexivity].
  apply compare_args_ok in E as (a & b & c & d & ? & ? & ? & ? & ? & ? & ? & ?); [|lia|lia]. exists a, b, c, d. split_and!; [assumption..|]. apply compare_windows_exact; assumption || lia.
Qed.

(** ** fill *)

Lemma wp_set_u h b i x A (Q : unit → heap → Prop) R :
  h !! ARR b = Some A → 0 <= i < len A → Q tt (<[ARR b := <[Z.to_nat i := x mod 256]> A]> h) → wp (set_u b i x) Q R h.
Proof.
  intros Ha Hi HQ. unfold wp, set_u. rewrite Ha. unfold aset. rewrite (proj2 (Z.ltb_ge i 0)), (proj2 (Z.leb_gt (len A) i)) by lia. cbn [orb]. exact HQ.
Qed.

(** The byte a fill puts at distance [d] from its start. *)
Definition pattern_byte (ps : list Z) (d : Z) : Z := default 0 (ps !! Z.to_nat (d mod len ps)).
(** [A'] is [A] filled on [p, q). *)
Definition filled (A A' ps : list Z) (p q : Z) : Prop :=
  length A' = length A ∧ ∀ j : nat, (j < length A)%nat → A' !! j = if (p <=? Z.of_nat j) && (Z.of_nat j <? q) then Some (pattern_byte ps (Z.of_nat j - p)) else A !! j.

Lemma filled_start A ps p q : q <= p → filled A A ps p q.
Proof. intros. split; [done|]. intros j _. destruct (Z.leb_spec p (Z.of_nat j)), (Z.ltb_spec (Z.of_nat j) q); cbn; done || lia. Qed.
Lemma filled_step A A' ps p q : filled A A' ps p q → 0 <= p <= q → q < len A → filled A (<[Z.to_nat q := pattern_byte ps (q - p)]> A') ps p (q + 1).
Proof.
  intros [Hl Hj] Hp Hq. split; [by rewrite length_insert|]. intros j Hjl. destruct (decide (j = Z.to_nat q)) as [->|Hne].
  - rewrite list_lookup_insert_eq by lia. rewrite Z2Nat.id by lia. rewrite (proj2 (Z.leb_le p q)), (proj2 (Z.ltb_lt q (q + 1))) by lia. done.
  - rewrite list_lookup_insert_ne by lia. rewrite Hj by done. destruct (Z.ltb_spec (Z.of_nat j) q), (Z.ltb_spec (Z.of_nat j) (q + 1)); done || lia.
Qed.

(** The pattern is in another array, or empty. *)
Definition apart (b pat : bufv) : Prop := ARR pat ≠ ARR b ∨ BL pat = 0.

Lemma pattern_byte_empty d : pattern_byte [] d = 0.
Proof. done. Qed.

Lemma fill_loop h b pat o e (Q : unit → heap → Prop) : bok h b → bok h pat → apart b pat → 0 <= o <= BL b → 0 <= e <= BL b →
  (∀ A', filled (array_of h b) A' (bytes_of h pat) (BO b + o) (BO b + e) → Q tt (<[ARR b := A']> h)) →
  wp (loop (S (Z.to_nat (BL b))) (fill_step b pat o e) o) Q (λ _ _, False) h.
Proof.
  intros Hb Hp Hap Ho He HQ. destruct (Hb) as [Ha Hbytes Hoff Hlen Hfits]. pose proof (bok_len _ _ Hp) as Lp. pose proof (bok_off _ _ Hp). pose proof (bok_fits _ _ Hp).
  pose proof (bytes_of_length h pat Hp) as HL. set (A := array_of h b) in *. set (ps := bytes_of h pat) in *.
  apply wp_loop with (λ i h', o <= i ∧ (i <= e ∨ i = o) ∧ ∃ A', filled A A' ps (BO b + o) (BO b + i) ∧ h' = <[ARR b := A']> h) (λ i, BL b - i).
  { split; [lia|]. split; [by right|]. exists A. split; [apply filled_start; lia|]. symmetry. by apply list_insert_id. }
  { lia. }
  intros i h' (Hi & Hie & A' & HA' & ->) _. assert (Hlk : <[ARR b := A']> h !! ARR b = Some A') by (apply list_lookup_insert_eq; by apply lookup_lt_Some in Ha).
  unfold fill_step. rewrite ge_s_small by lia. destruct (Z.leb_spec e i) as [Hge|Hlt].
  { apply wp_mret, HQ. destruct HA' as [Hl Hj]. split; [done|]. intros j Hjl. rewrite Hj by done.
    destruct (Z.leb_spec (BO b + o) (Z.of_nat j)), (Z.ltb_spec (Z.of_nat j) (BO b + i)), (Z.ltb_spec (Z.of_nat j) (BO b + e)); cbn; done || lia. }
  destruct HA' as [HlA Hj]. assert (Hx : ∀ x, x = pattern_byte ps (i - o) → byte x →
    wp (set_u b (add32 (BO b) i) x;;; mret (inl (add32 i 1))) (λ r h', match r with
      | inl v' => (o <= v' ∧ (v' <= e ∨ v' = o) ∧ ∃ A'', filled A A'' ps (BO b + o) (BO b + v') ∧ h' = <[ARR b := A'']> h) ∧ 0 <= BL b - v' < BL b - i
      | inr u => Q u h' end) (λ _ _, False) (<[ARR b := A']> h)).
  { intros x -> Hbx. unfold byte in Hbx. rewrite !add32_id by lia. apply wp_bind. eapply wp_set_u; [exact Hlk|lia|]. apply wp_mret. split; [|lia].
    split; [lia|]. split; [lia|]. rewrite Z.mod_small by lia. eexists. split; [|apply list_insert_insert_eq].
    replace (BO b + (i + 1)) with (BO b + i + 1) by lia. replace (i - o) with (BO b + i - (BO b + o)) by lia. apply filled_step; [by split|lia|lia]. }
  apply wp_bind. destruct (Z.eqb_spec (BL pat) 0) as [E0|E0].
  { apply wp_mret, Hx; [|done]. assert (Hn : ps = []) by (apply nil_length_inv; lia). by rewrite Hn. }
  destruct Hap as [Hne|?]; [|lia]. assert (Hp' : bok (<[ARR b := A']> h) pat) by (by apply bok_insert_ne).
  assert (Hps : bytes_of (<[ARR b := A']> h) pat = ps) by (unfold ps, bytes_of; by rewrite array_of_insert_ne).
  rewrite sub32_id, Z.rem_mod_nonneg by lia. pose proof (Z.mod_pos_bound (i - o) (BL pat)). rewrite add32_id by lia.
  apply wp_get_u; [done|lia|]. intros x Hxl Hbx. rewrite Hps in Hxl. apply Hx; [|done]. unfold pattern_byte. by rewrite HL, Hxl.
Qed.

Lemma fill_args_ok zeroOk n patn nargs offset end_ x y : 0 <= n < 2 ^ 31 → fill_args zeroOk n patn nargs offset end_ = inl (x, y) →
  ∃ o e, is_int x o ∧ is_int y e ∧ 0 <= o ∧ 0 <= e <= n.
Proof.
  intros Hn H. unfold fill_args in H. rewrite max_safe, !(i2d_small n) in H by done. destruct (negb zeroOk && (patn =? 0)); [discriminate|].
  destruct (optional _ _ "offset" _ _) as [x1|?] eqn:E1; [|discriminate]. destruct (optional _ _ "end" _ _) as [x2|?] eqn:E2; [|discriminate]. injection H as <- <-.
  apply (optional_ok _ _ _ _ _ _ 0) in E1 as (a & Ia & Ha & _); [|lia|apply is_int_0|lia|lia]. apply (optional_ok _ _ _ _ _ _ n) in E2 as (b & Ib & Hb & Hb'); [|lia|by left|lia|lia].
  exists a, b. split_and!; first [assumption|lia].
Qed.

(** Buffer.fill with a pattern of another array never traps: it throws for an
    empty buffer pattern or an argument that is no offset, leaving the heap
    alone, and otherwise repeats the pattern over the window from its start and
    changes nothing else. *)
Theorem fill_periodic (h : heap) (zeroOk : bool) (b pat : bufv) (nargs : Z) (offset end_ : num) : bok h b → bok h pat → apart b pat →
  match fill_args zeroOk (BL b) (BL pat) nargs offset end_ with
  | inr e => fillCore zeroOk b pat nargs offset end_ h = (Val (Throws e), h)
  | inl (offset', end') => ∃ o e A', is_int offset' o ∧ is_int end' e ∧
      fillCore zeroOk b pat nargs offset end_ h = (Val (Done b), <[ARR b := A']> h) ∧ filled (array_of h b) A' (bytes_of h pat) (BO b + o) (BO b + e)
  end.
Proof.
  intros Hb Hp Hap. pose proof (bok_len _ _ Hb). unfold fillCore. destruct (fill_args _ _ _ _ _ _) as [[x y]|err] eqn:E; [|reflexivity].
  apply fill_args_ok in E as (o & e & Ho & He & Hor & Her); [|lia]. exists o, e. destruct (is_int_lt2 x o y e Ho He) as [-> _].
  destruct (Z.ltb_spec o e) as [Hlt|Hge].
  2: { exists (array_of h b). split_and!; [assumption..| |apply filled_start; lia]. unfold mbind, mret. f_equal. symmetry. by apply list_insert_id, bok_array. }
  match goal with |- context [mbind ?m ?k h] => assert (Hw : wp (mbind m k) (λ r h', r = Done b ∧ ∃ A', h' = <[ARR b := A']> h ∧ filled (array_of h b) A' (bytes_of h pat) (BO b + o) (BO b + e)) (λ _ _, False) h) end.
  2: { apply wp_run in Hw as (r & h' & E & -> & A' & -> & HA'). exists A'. by rewrite E. }
  apply wp_bind. apply wp_bind, (wp_capped x o); [done|lia|lia|]. rewrite Z.min_l by lia. apply wp_bind, (wp_trunc y e); [done|lia|].
  apply fill_loop; [done|done|done|lia|lia|]. intros A' HA'. apply wp_mret. eauto.
Qed.

(** A pattern that is a view of the buffer itself is read back while the buffer
    is being filled: the result is not the pattern repeated. *)
Example fill_aliased :
  (fillCore false (mkB 0 0 4) (mkB 0 1 2) 0 (Fin 0) (Fin 0) [[1; 2; 3; 4]]).2 = [[2; 3; 3; 3]] ∧
  (fillCore false (mkB 0 0 4) (mkB 1 0 2) 0 (Fin 0) (Fin 0) [[1; 2; 3; 4]; [2; 3]]).2 !! 0%nat = Some [2; 3; 2; 3].
Proof. vm_compute. done. Qed.

(** ** copy *)

Lemma i2d_num n : 0 <= n < 2 ^ 31 → i2d n = num_of_Z n.
Proof. intros. unfold i2d. by rewrite to_int32_id by lia. Qed.

(** The position a copy argument stands for: the number rounded down, 0 for
    NaN and the infinities. *)
Definition copy_position (x : num) : Z := match x with Fin k => k / ONE | _ => 0 end.
Lemma floor_below k : repr k → Z.abs (k / ONE * ONE) < MAXK.
Proof.
  intros [Hk Hd]. pose proof ONE_pos. destruct (Z.le_gt_cases (2 ^ 53 * ONE) (Z.abs k)) as [Hbig|Hsmall].
  - assert (Hl : 1127 <= Z.log2 (Z.abs k)) by (apply Z.log2_le_pow2; unfold ONE in *; lia).
    assert (Hone : (ONE | k)) by (etransitivity; [|exact Hd]; exists (2 ^ (ulp_exp (Z.abs k) - 1074)); unfold ONE; rewrite <- Z.pow_add_r by (unfold ulp_exp; lia); f_equal; lia).
    destruct Hone as [q ->]. by rewrite Z.div_mul by lia.
  - assert (Hb : - 2 ^ 53 <= k / ONE <= 2 ^ 53) by (split; [apply Z.div_le_lower_bound|apply Z.div_le_upper_bound]; lia).
    assert (2 ^ 53 * ONE < MAXK) by (unfold MAXK, ONE; reflexivity). nia.
Qed.
Lemma floor_position x : wf_num x → is_int (emitFloorOrZero x) (copy_position x).
Proof.
  destruct x as [| | | |k]; intros Hk; [by left|by left|by left|by right|]. left. pose proof (floor_below k Hk). unfold emitFloorOrZero, num_eq. cbn [math_floor is_nan negb andb key orb copy_position].
  rewrite (proj2 (Z.eqb_neq (k / ONE * ONE) MAXK)), (proj2 (Z.eqb_neq (k / ONE * ONE) (- MAXK))) by lia. done.
Qed.
Lemma floor_finite x : num_eq (emitFloorOrZero x) PInf || num_eq (emitFloorOrZero x) NInf = false.
Proof. unfold emitFloorOrZero. destruct (is_nan (math_floor x) || _ || _) eqn:E; [done|]. by apply orb_false_iff in E as [[_ ->]%orb_false_iff ->]. Qed.
Lemma validateOff_int name x k m : is_int x k → num_eq x PInf || num_eq x NInf = false → validateOff name x (Fin (m * ONE)) =
  if (k <? 0) || ((0 <=? m) && (m <? k)) then Some (if m <? 0 then MustBeAtLeast0 name (Fin (k * ONE)) else MustBeAtMost name (Fin (m * ONE)) (Fin (k * ONE))) else None.
Proof.
  intros Hx Ei. unfold validateOff. rewrite (is_int_floor x k Hx). destruct (is_int_lt x k 0 Hx) as [E0 _]. destruct (is_int_lt x k m Hx) as [_ Em]. change (Fin (0 * ONE)) with (Fin 0) in E0. rewrite E0, Em.
  change (Fin 0) with (Fin (0 * ONE)). rewrite num_le_scaled, num_lt_scaled.
  cbn [negb orb]. rewrite Ei.
  destruct Hx as [->|[-> ->]]; [done|]. destruct (Z.leb_spec 0 m), (Z.ltb_spec m 0); done || lia.
Qed.
(** The three positions of a copy, defaults put in, and the first that is out
    of range: the target's start has no upper bound, the source's start stops at
    the source's length, and its end is cut to it. *)
Definition copy_positions (slen nargs : Z) (ts ss se : num) : Z * Z * Z :=
  (if nargs <? 1 then 0 else copy_position ts, if nargs <? 2 then 0 else copy_position ss, if nargs <? 3 then slen else copy_position se).
Definition copy_fault (slen t s e : Z) : option buffer_error :=
  if t <? 0 then Some (MustBeAtLeast0 "targetStart" (Fin (t * ONE)))
  else if (s <? 0) || (slen <? s) then Some (MustBeAtMost "sourceStart" (Fin (slen * ONE)) (Fin (s * ONE)))
  else if e <? 0 then Some (MustBeAtLeast0 "sourceEnd" (Fin (e * ONE)))
  else None.
Lemma copy_args_exact slen nargs ts ss se : wf_num ts → wf_num ss → wf_num se → 0 <= slen < 2 ^ 31 → let '(t, s, e) := copy_positions slen nargs ts ss se in
  match copy_args slen nargs ts ss se with
  | inr err => copy_fault slen t s e = Some err
  | inl (x, y, z) => copy_fault slen t s e = None ∧ is_int x t ∧ is_int y s ∧ is_int z e
  end.
Proof.
  intros Wt Ws We Hn. unfold copy_positions, copy_args, copy_fault. cbv zeta. replace (num_of_Z (-1)) with (Fin (-1 * ONE)) by reflexivity. rewrite !(i2d_small slen) by lia.
  unfold optional. pose proof (floor_position ts Wt). pose proof (floor_position ss Ws). pose proof (floor_position se We).
  rewrite !(validateOff_int _ (emitFloorOrZero ts) (copy_position ts)), !(validateOff_int _ (emitFloorOrZero ss) (copy_position ss)), !(validateOff_int _ (emitFloorOrZero se) (copy_position se)) by (done || apply floor_finite).
  change (0 <=? -1) with false. change (-1 <? 0) with true. rewrite (proj2 (Z.leb_le 0 slen)), (proj2 (Z.ltb_ge slen 0)) by lia. cbn [andb]. rewrite !orb_false_r.
  assert (Hs : is_int (Fin (slen * ONE)) slen) by by left.
  destruct (Z.ltb_spec nargs 1), (Z.ltb_spec nargs 2), (Z.ltb_spec nargs 3); try lia; change (0 <? 0) with false; rewrite ?(proj2 (Z.ltb_ge slen 0)) by lia; cbn [orb];
    repeat match goal with |- context [if ?c then _ else _] => destruct c end; done.
Qed.
Lemma copy_fault_None slen t s e : copy_fault slen t s e = None → 0 <= t ∧ 0 <= s <= slen ∧ 0 <= e.
Proof.
  unfold copy_fault. destruct (Z.ltb_spec t 0); [done|]. destruct (Z.ltb_spec s 0), (Z.ltb_spec slen s); try done. destruct (Z.ltb_spec e 0); [done|]. lia.
Qed.

(** The bytes a copy moves. *)
Definition moved (src dst : bufv) (t s e : Z) : Z := Z.max 0 (Z.min (Z.min e (BL src) - s) (BL dst - t)).
Lemma slice_bytes h b s n : bok h b → 0 <= s → 0 <= n → s + n <= BL b → slice (array_of h b) (BO b + s) n = slice (bytes_of h b) s n ∧ len (slice (bytes_of h b) s n) = n.
Proof.
  intros Hb Hs Hn Hle. pose proof (bytes_of_length h b Hb). destruct Hb as [_ _ ? ? ?]. split.
  - unfold bytes_of, slice. rewrite skipn_firstn_comm, drop_drop, take_take. f_equal; [lia|f_equal; lia].
  - unfold slice at 1. rewrite length_take, length_drop. lia.
Qed.

Lemma copy_window_exact h src dst ts ss se t s e : bok h src → bok h dst → is_int ts t → is_int ss s → is_int se e → 0 <= t → 0 <= s <= BL src → 0 <= e →
  copy_window src dst ts ss se h =
    (Val (Done (num_of_Z (moved src dst t s e))),
     <[ARR dst := overwrite (array_of h dst) (slice (bytes_of h src) s (moved src dst t s e)) (BO dst + t)]> h).
Proof.
  intros Hs Hd Hts Hss Hse Ht Hsr He. pose proof (bok_len _ _ Hs) as Ls. pose proof (bok_len _ _ Hd) as Ld.
  pose proof (bok_fits _ _ Hs). pose proof (bok_off _ _ Hs). pose proof (bok_fits _ _ Hd). pose proof (bok_off _ _ Hd).
  assert (Hz : moved src dst t s e = 0 → <[ARR dst := overwrite (array_of h dst) (slice (bytes_of h src) s (moved src dst t s e)) (BO dst + t)]> h = h).
  { intros ->. unfold slice at 1. rewrite overwrite_nil. apply list_insert_id, bok_array, Hd. }
  unfold copy_window. destruct (is_int_lt2 (i2d (BL dst)) (BL dst) ts t) as [_ ->]; [apply is_int_i2d; lia|done|].
  destruct (Z.leb_spec (BL dst) t).
  { assert (Hm : moved src dst t s e = 0) by (unfold moved; lia). rewrite (Hz Hm), Hm. reflexivity. }
  match goal with |- ?m _ = (?v, ?h1) => assert (Hw : wp m (λ r h', Val r = v ∧ h' = h1) (λ _ _, False) h) end.
  2: { apply wp_run in Hw as (r & h' & -> & <- & ->). done. }
  apply wp_bind, (wp_trunc ts t); [done|lia|]. apply wp_bind, (wp_trunc ss s); [done|lia|]. apply wp_bind, (wp_capped se e); [done|lia|lia|].
  rewrite ge_s_small by lia. destruct (Z.leb_spec (Z.min e (BL src)) s).
  { assert (Hm : moved src dst t s e = 0) by (unfold moved; lia). rewrite (Hz Hm), Hm. by apply wp_mret. }
  cbv zeta. rewrite !sub32_id, gt_s_small by lia.
  assert (Hm : (if BL dst - t <? Z.min e (BL src) - s then BL dst - t else Z.min e (BL src) - s) = moved src dst t s e).
  { unfold moved. destruct (Z.ltb_spec (BL dst - t) (Z.min e (BL src) - s)); lia. }
  rewrite Hm. assert (Hmr : 0 <= moved src dst t s e /\ s + moved src dst t s e <= BL src /\ t + moved src dst t s e <= BL dst) by (unfold moved; lia).
  set (n := moved src dst t s e) in *. destruct (slice_bytes h src s n Hs) as [E1 E2]; [lia..|].
  rewrite !add32_id by lia. apply wp_bind. unfold wp, copy_u. rewrite (bok_array _ _ Hd), (bok_array _ _ Hs). unfold acopy.
  rewrite !(proj2 (Z.ltb_ge _ _)) by lia. cbn [orb]. rewrite i2d_num by lia. unfold mret. split; [done|]. unfold overwrite. by rewrite E1, E2.
Qed.

(** C20. Buffer.copy never traps.  Its positions are the arguments given,
    rounded down, with 0 for NaN and the infinities, and the defaults 0, 0 and the
    source's length for those left out.  It throws for the first that is out of
    range -- a negative target start, a source start below 0 or past the source's
    length, a negative source end -- and leaves the heap alone.  Otherwise it
    reports the bytes it moved, as many as lie in the source's window and fit in
    the target, and writes that window as it was before the call, even when both
    buffers are views of one array, changing nothing else. *)
Theorem copy_exact (h : heap) (src dst : bufv) (nargs : Z) (ts ss se : num) : bok h src → bok h dst → wf_num ts → wf_num ss → wf_num se →
  let '(t, s, e) := copy_positions (BL src) nargs ts ss se in
  copy src dst nargs ts ss se h =
    match copy_fault (BL src) t s e with
    | Some err => (Val (Throws err), h)
    | None =>
        let n := moved src dst t s e in
        (Val (Done (num_of_Z n)), <[ARR dst := overwrite (array_of h dst) (slice (bytes_of h src) s n) (BO dst + t)]> h)
    end.
Proof.
  intros Hs Hd Wt Ws We. unfold copy. pose proof (bok_len _ _ Hs). pose proof (copy_args_exact (BL src) nargs ts ss se Wt Ws We ltac:(lia)) as H'.
  destruct (copy_positions _ _ _ _ _) as [[t s] e]. destruct (copy_args _ _ _ _ _) as [[[x y] z]|err]; [|by rewrite H'].
  destruct H' as (E & Hx & Hy & Hz). rewrite E. apply copy_fault_None in E as (? & ? & ?). apply copy_window_exact; assumption || lia.
Qed.

(** ** indexOf *)

(** The position a search starts from: an offset below the start counts from
    the end; NaN is the near end. *)
Definition origin (fwd : bool) (n : Z) (boff : num) : option Z :=
  match boff with
  | NaN => Some (if fwd then 0 else n)
  | PInf => Some n
  | NInf => if fwd then Some 0 else None
  | _ =>
      let j := num_to_Z boff in
      let p := if j <? 0 then j + n else j in
      if p <? 0 then if fwd then Some 0 else None else Some (Z.min p n)
  end.

Lemma int_add_below j n : 0 <= n < 2 ^ 31 → j < 0 → 
  if j + n <? 0 then num_lt (num_add (Fin (j * ONE)) (i2d n)) (Fin 0) = true else num_add (Fin (j * ONE)) (i2d n) = Fin ((j + n) * ONE).
Proof.
  intros Hn Hj. rewrite i2d_small by done. cbn [num_add key]. rewrite <- Z.mul_add_distr_r. destruct (Z.ltb_spec (j + n) 0).
  - pose proof ONE_pos. pose proof (ratio_mono ((j + n) * ONE) 1 false (-1 * ONE) 1 false) as Hm.
    rewrite (ratio_int_signed (-1)) in Hm by done. unfold num_le in Hm. pose proof (ratio_not_nan ((j + n) * ONE) 1 false) as Hnn.
    assert (Hle : (j + n) * ONE * 1 <= -1 * ONE * 1) by nia. specialize (Hm ltac:(lia) ltac:(lia) Hle). unfold num_lt. rewrite Hnn. cbn [negb andb is_nan key] in *. zb. lia.
  - apply ratio_int_signed. lia.
Qed.

Lemma trunc_int k : is_int (math_trunc (Fin k)) (num_to_Z (Fin k)).
Proof.
  cbn [math_trunc num_to_Z]. unfold fin_signed. destruct (Z.eqb_spec (Z.quot k ONE * ONE) 0) as [E|E]; [|by left].
  assert (Z.quot k ONE = 0) as -> by (pose proof ONE_pos; nia). destruct (k <? 0); [by right|by left].
Qed.

Lemma search_origin_exact fwd n boff : 0 <= n < 2 ^ 31 →
  match search_origin fwd n boff with
  | None => origin fwd n boff = None
  | Some o => ∃ p, origin fwd n boff = Some p ∧ 0 <= p <= n ∧ (o = PInf ∧ p = n ∨ ∃ k, is_int o k ∧ 0 <= k ∧ p = Z.min k n)
  end.
Proof.
  intros Hn. assert (Hfin : ∀ x k, is_nan x = false → is_int (math_trunc x) k → origin fwd n x = (let p := if k <? 0 then k + n else k in if p <? 0 then if fwd then Some 0 else None else Some (Z.min p n)) →
    match search_origin fwd n x with None => origin fwd n x = None
    | Some o => ∃ p, origin fwd n x = Some p ∧ 0 <= p <= n ∧ (o = PInf ∧ p = n ∨ ∃ k, is_int o k ∧ 0 <= k ∧ p = Z.min k n) end).
  { intros x k Hnan Hk ->. unfold search_origin. rewrite Hnan. destruct (is_int_lt _ k 0 Hk) as [Hlt _]. change (Fin (0 * ONE)) with (Fin 0) in Hlt. rewrite Hlt. cbv zeta.
    destruct (Z.ltb_spec k 0) as [Hneg|Hpos].
    - destruct Hk as [->|[_ ->]]; [|lia]. pose proof (int_add_below k n Hn Hneg) as Ha. destruct (Z.ltb_spec (k + n) 0).
      + rewrite Ha. destruct fwd; [|done]. exists 0. split_and!; [done|lia..|]. right. exists 0. split; [by left|lia].
      + rewrite Ha. change (Fin 0) with (Fin (0 * ONE)). rewrite num_lt_scaled, (proj2 (Z.ltb_ge (k + n) 0)) by lia.
        exists (Z.min (k + n) n). split_and!; [done|lia..|]. right. exists (k + n). split; [by left|lia].
    - rewrite (proj2 (Z.ltb_ge k 0)) by lia. exists (Z.min k n). split_and!; [done|lia..|]. right. exists k. split_and!; [done|lia|done]. }
  destruct boff as [| | | |k]; [..|apply (Hfin _ (num_to_Z (Fin k))); [done|apply trunc_int|done]].
  - unfold search_origin. cbn [is_nan origin]. destruct fwd; cbn [num_lt].
    + exists 0. change (num_lt (Fin 0) (Fin 0)) with false. cbv iota. split_and!; [done|lia..|]. right. exists 0. split; [by left|lia].
    + rewrite i2d_small by done. change (Fin 0) with (Fin (0 * ONE)). rewrite num_lt_scaled, (proj2 (Z.ltb_ge n 0)) by lia. exists n. split_and!; [done|lia..|]. right. exists n. split; [by left|lia].
  - unfold search_origin. cbn. exists n. split_and!; [done|lia..|]. by left.
  - unfold search_origin. rewrite i2d_small by done. cbn. destruct fwd; [|done]. exists 0. split_and!; [done|lia..|]. right. exists 0. split; [by left|lia].
  - apply (Hfin _ 0); [done|by right|]. done.
Qed.

(** The needle stands at [i]. *)
Definition occurs (h : heap) (b needle : bufv) (i : Z) : Prop :=
  0 <= i ∧ i + BL needle <= BL b ∧ window h b i (i + BL needle) = bytes_of h needle.

Lemma wp_matches h b needle i (Q : bool → heap → Prop) : bok h b → bok h needle → 0 <= i → i + BL needle <= BL b →
  (∀ r, (if r : bool then occurs h b needle i else ¬ occurs h b needle i) → Q r h) → wp (matches b needle i) Q (λ _ _, False) h.
Proof.
  intros Hb Hn Hi Hle HQ. pose proof (bok_len _ _ Hb). pose proof (bok_len _ _ Hn). pose proof (bok_fits _ _ Hb). pose proof (bok_fits _ _ Hn).
  pose proof (bok_off _ _ Hb). pose proof (bok_off _ _ Hn). set (xs := window h b i (i + BL needle)). set (ys := bytes_of h needle).
  assert (Hlx : len xs = BL needle) by (unfold xs; rewrite window_length by (done || lia); lia). assert (Hly : len ys = BL needle) by (by apply bytes_of_length).
  unfold matches. apply wp_loop with (λ j h', h' = h ∧ 0 <= j <= BL needle ∧ take (Z.to_nat j) xs = take (Z.to_nat j) ys) (λ j, BL needle - j).
  { split; [done|]. split; [lia|done]. }
  { lia. }
  intros j h' (-> & Hj & Heq) _. unfold match_step. rewrite ge_s_small by lia. destruct (Z.leb_spec (BL needle) j) as [Hge|Hlt].
  { apply wp_mret, HQ. split; [done|]. split; [done|]. fold xs ys. rewrite !firstn_all2 in Heq by lia. done. }
  destruct (lookup_lt_is_Some_2 xs (Z.to_nat j)) as [x Hx]; [lia|]. destruct (lookup_lt_is_Some_2 ys (Z.to_nat j)) as [y Hy]; [lia|].
  apply wp_bind. rewrite (add32_id (BO b)), add32_id by lia. rewrite <- Z.add_assoc. apply wp_get_u; [done|lia|]. intros x' Hx' _.
  rewrite (window_lookup h b i (i + BL needle) j x) in Hx' by (done || lia). simplify_eq.
  apply wp_bind. rewrite add32_id by lia. apply wp_get_u; [done|lia|]. intros y' Hy' _. fold ys in Hy'. rewrite Hy in Hy'. injection Hy' as <-.
  destruct (Z.eqb_spec x' y) as [->|Hne]; cbn [negb]; apply wp_mret.
  - rewrite add32_id by lia. split; [|lia]. split; [done|]. split; [lia|]. replace (Z.to_nat (j + 1)) with (S (Z.to_nat j)) by lia. by rewrite !(take_S_r _ _ y), Heq.
  - apply HQ. intros (_ & _ & E). fold xs ys in E. rewrite E in Hx. congruence.
Qed.

(** The positions a search visits, and the answer: the nearest of them with
    [P], or -1. *)
Definition visited (fwd : bool) (step s j : Z) : Prop := (if fwd then s <= j else j <= s) ∧ (step | j - s).
Definition nearest (fwd : bool) (step s : Z) (P : Z → Prop) (r : num) : Prop :=
  (∃ i, r = num_of_Z i ∧ visited fwd step s i ∧ P i ∧ ∀ j, visited fwd step s j → Z.abs (j - s) < Z.abs (i - s) → ¬ P j) ∨
  (r = num_of_Z (-1) ∧ ∀ j, visited fwd step s j → ¬ P j).

Lemma visited_next fwd step s i j : step = 1 ∨ step = 2 → visited fwd step s i → visited fwd step s j →
  Z.abs (j - s) < Z.abs ((if fwd then i + step else i - step) - s) → j = i ∨ Z.abs (j - s) < Z.abs (i - s).
Proof. intros Hs [Hi [p Hp]] [Hj [q Hq]]. destruct Hs as [->| ->], fwd; lia. Qed.
Lemma visited_step fwd step s i : visited fwd step s i → 0 < step → visited fwd step s (if fwd then i + step else i - step).
Proof. intros [Hi [p Hp]] Hs. destruct fwd; (split; [lia|]); [exists (p + 1)|exists (p - 1)]; lia. Qed.
Lemma visited_start (fwd : bool) step s : visited fwd step s s.
Proof. split; [destruct fwd; lia|]. exists 0. lia. Qed.

Lemma signed_small v i : 0 <= v < 2 ^ 32 → to_int32 v = i → 0 <= i → v = i.
Proof. intros Hv <-. unfold to_int32. change (2 ^ 32) with 4294967296 in *. change (2 ^ 31) with 2147483648. Z.to_euclidean_division_equations; lia. Qed.
Lemma sub32_signed i k : 0 <= i < 2 ^ 31 → 0 <= k <= 2 → 0 <= sub32 i k < 2 ^ 32 ∧ to_int32 (sub32 i k) = i - k.
Proof. intros Hi Hk. unfold sub32, to_int32, to_uint32. change (2 ^ 32) with 4294967296. change (2 ^ 31) with 2147483648 in *. split; Z.to_euclidean_division_equations; lia. Qed.

Lemma search_exact h fwd b needle step s : bok h b → bok h needle → 0 < BL needle <= BL b → BL b + BL needle < 2 ^ 31 - 8 → step = 1 ∨ step = 2 →
  0 <= s <= BL b → (fwd = false → s <= BL b - BL needle) →
  ∃ r, loop (S (S (Z.to_nat (BL b)))) (search_step fwd b needle step) s h = (Val r, h) ∧ nearest fwd step s (occurs h b needle) r.
Proof.
  intros Hb Hn Hl Hsum Hstep Hs Hback. pose proof (bok_len _ _ Hb). pose proof (bok_len _ _ Hn).
  match goal with |- ∃ r, ?m _ = _ ∧ _ => assert (Hw : wp m (λ r h', h' = h ∧ nearest fwd step s (occurs h b needle) r) (λ _ _, False) h) end.
  2: { apply wp_run in Hw as (r & h' & -> & -> & Hr). eauto. }
  apply wp_loop with (λ v h', h' = h ∧ 0 <= v < 2 ^ 32 ∧ ∃ i, to_int32 v = i ∧ visited fwd step s i ∧ (if fwd then i <= BL b + 1 else -2 <= i) ∧
    ∀ j, visited fwd step s j → Z.abs (j - s) < Z.abs (i - s) → ¬ occurs h b needle j) (λ v, if fwd then BL b + 1 - to_int32 v else to_int32 v + 2).
  { split; [done|]. split; [lia|]. exists s. rewrite to_int32_id by lia. split; [done|]. split; [apply visited_start|]. split; [destruct fwd; lia|]. intros j _ Hj. lia. }
  { rewrite to_int32_id by lia. destruct fwd; [lia|]. specialize (Hback eq_refl). lia. }
  intros v h' (-> & Hv32 & i & Ei & Hv & Hi & Hmin) _. rewrite Ei. pose proof (proj1 Hv) as Hside. unfold search_step.
  assert (Hex : (if fwd then gt_s (add32 v (BL needle)) (BL b) else to_int32 v <? 0) = (if fwd then BL b <? i + BL needle else i <? 0)).
  { rewrite Ei. destruct fwd; [|done]. rewrite (signed_small v i) by (done || lia). by rewrite add32_id, gt_s_small by lia. }
  rewrite Hex. clear Hex. destruct (if fwd then BL b <? i + BL needle else i <? 0) eqn:Hstop.
  { apply wp_mret. split; [done|]. right. split; [done|]. intros j Hj Ho. pose proof Ho as (Ho1 & Ho2 & _). apply (Hmin j Hj); [|done]. pose proof (proj1 Hj). destruct fwd; zb; lia. }
  assert (Hin : 0 <= i /\ i + BL needle <= BL b) by (destruct fwd; zb; [|specialize (Hback eq_refl)]; lia). clear Hstop.
  rewrite (signed_small v i) by (done || lia). apply wp_bind, (wp_matches h); [done|done|lia|lia|]. intros [] Hocc; apply wp_mret.
  - split; [done|]. left. exists i. rewrite i2d_num by lia. split_and!; done.
  - assert (Hnx : let v' := if fwd then add32 i step else sub32 i step in 0 <= v' < 2 ^ 32 ∧ to_int32 v' = if fwd then i + step else i - step).
    { destruct fwd; [cbv zeta; rewrite add32_id, to_int32_id by lia; split; [lia|done]|]. apply sub32_signed; lia. }
    destruct Hnx as [Hn1 Hn2]. rewrite Hn2. split; [|destruct fwd; lia]. split; [done|]. split; [done|]. eexists. split; [reflexivity|]. split; [apply visited_step; [done|lia]|]. split; [destruct fwd; lia|].
    intros j Hj Hlt. destruct (visited_next fwd step s i j Hstep Hv Hj Hlt) as [->|Hlt']; [done|by apply Hmin].
Qed.

Lemma int_lt_PInf m : 0 <= m < 2 ^ 31 → num_lt (Fin (m * ONE)) PInf = true.
Proof.
  intros Hm. pose proof (key_finite (Fin (m * ONE)) (repr_int m ltac:(lia)) eq_refl) as Hk.
  unfold num_lt. cbn [is_nan negb andb]. change (key PInf) with MAXK. apply Z.ltb_lt. lia.
Qed.

Lemma wp_capped_origin o p n m : 0 <= p <= n → 0 <= m <= n → n < 2 ^ 31 → (o = PInf ∧ p = n ∨ ∃ k, is_int o k ∧ 0 <= k ∧ p = Z.min k n) → ∀ h, capped o m h = (Val (Z.min p m), h).
Proof.
  intros Hp Hm Hn Ho h. destruct Ho as [[-> ->]|(k & Hk & Hk0 & ->)].
  - unfold capped. rewrite i2d_small by lia. rewrite int_lt_PInf by lia. by rewrite Z.min_r by lia.
  - assert (Hw : wp (capped o m) (λ r h', r = Z.min (Z.min k n) m ∧ h' = h) (λ _ _, False) h) by (apply (wp_capped o k); [done|lia|lia|]; split; [lia|done]).
    apply wp_run in Hw as (r & h' & -> & -> & ->). done.
Qed.

Lemma even_down_ok step s : 0 <= s < 2 ^ 31 → even_down step s = if step =? 2 then s - s mod 2 else s.
Proof. intros Hs. unfold even_down. destruct (step =? 2); [|done]. rewrite Z.rem_mod_nonneg by lia. pose proof (Z.mod_pos_bound s 2). pose proof (Z.mod_le s 2). apply sub32_id. lia. Qed.

(** C21. Buffer.indexOf and lastIndexOf never trap and leave the heap alone: for a
    needle with bytes the answer is the occurrence nearest to the origin among
    the positions in the search's direction, the even ones for two-byte text, or
    -1; the empty needle is found at the origin itself.  The two lengths together
    stay below 2^31 - 8: the forward search adds them without a guard. *)
Theorem indexOf_nearest (h : heap) (fwd : bool) (b needle : bufv) (align boff : num) : bok h b → bok h needle → BL b + BL needle < 2 ^ 31 - 8 →
  ∃ r, indexOf fwd b needle align boff h = (Val r, h) ∧
  match origin fwd (BL b) boff with
  | None => r = num_of_Z (-1)
  | Some p =>
      if BL needle =? 0 then is_int r p
      else if BL b <? BL needle then r = num_of_Z (-1)
      else
        let step := if num_eq align (num_of_Z 2) then 2 else 1 in
        let s := Z.min p (if fwd then BL b else BL b - BL needle) in
        nearest fwd step (if step =? 2 then s - s mod 2 else s) (occurs h b needle) r
  end.
Proof.
  intros Hb Hn Hsum. pose proof (bok_len _ _ Hb). pose proof (bok_len _ _ Hn). unfold indexOf. pose proof (search_origin_exact fwd (BL b) boff ltac:(lia)) as Ho.
  destruct (search_origin fwd (BL b) boff) as [o|]; [|rewrite Ho; eexists; split; reflexivity]. destruct Ho as (p & -> & Hp & Ho).
  destruct (Z.eqb_spec (BL needle) 0) as [E0|E0].
  { eexists. split; [reflexivity|]. rewrite i2d_small by lia. destruct Ho as [[-> ->]|(k & Hk & Hk0 & ->)]; [rewrite int_lt_PInf by lia; by left|].
    destruct (is_int_lt o k (BL b) Hk) as [_ ->]. destruct (Z.ltb_spec (BL b) k); [left; by rewrite Z.min_r by lia|by rewrite Z.min_l by lia]. }
  rewrite gt_s_small by lia. destruct (Z.ltb_spec (BL b) (BL needle)); [eexists; split; reflexivity|]. cbv zeta.
  set (step := if num_eq align (num_of_Z 2) then 2 else 1). assert (Hstep : step = 1 ∨ step = 2) by (unfold step; destruct (num_eq _ _); auto).
  assert (Hcap : (if fwd then BL b else sub32 (BL b) (BL needle)) = (if fwd then BL b else BL b - BL needle)) by (destruct fwd; [done|apply sub32_id; lia]). rewrite Hcap.
  set (m := if fwd then BL b else BL b - BL needle). assert (Hm : 0 <= m <= BL b) by (unfold m; destruct fwd; lia).
  unfold mbind at 1. rewrite (wp_capped_origin o p (BL b) m) by (done || lia). rewrite even_down_ok by lia.
  apply search_exact; [done|done|lia|lia|done|..]; pose proof (Z.mod_pos_bound (Z.min p m) 2); pose proof (Z.mod_le (Z.min p m) 2); destruct (Z.eqb_spec step 2); unfold m in *; try (destruct fwd; lia).
  all: intros ->; lia.
Qed.

(** ** equals *)

Lemma equals_exact h a b : bok h a → bok h b → ∃ r : bool, equals a b h = (Val r, h) ∧ (r = true ↔ bytes_of h a = bytes_of h b).
Proof.
  intros Ha Hb. pose proof (bok_len _ _ Ha). pose proof (bok_len _ _ Hb). pose proof (bytes_of_length _ _ Ha) as La. pose proof (bytes_of_length _ _ Hb) as Lb.
  unfold equals. destruct (Z.eqb_spec (BL b) (BL a)) as [E|E]; cbn [negb]; [|exists false; split; [done|]; split; [done|intros E'; rewrite E' in La; lia]].
  match goal with |- ∃ r, ?m _ = _ ∧ _ => assert (Hw : wp m (λ r h', h' = h ∧ (r = true ↔ bytes_of h a = bytes_of h b)) (λ _ _, False) h) end.
  2: { apply wp_run in Hw as (r & h' & -> & -> & Hr). eauto. }
  pose proof (bok_fits _ _ Ha). pose proof (bok_fits _ _ Hb). pose proof (bok_off _ _ Ha). pose proof (bok_off _ _ Hb).
  set (xs := bytes_of h a) in *. set (ys := bytes_of h b) in *.
  apply wp_loop with (λ j h', h' = h ∧ 0 <= j <= BL a ∧ take (Z.to_nat j) xs = take (Z.to_nat j) ys) (λ j, BL a - j).
  { split; [done|]. split; [lia|done]. }
  { lia. }
  intros j h' (-> & Hj & Heq) _. unfold equals_step. rewrite ge_s_small by lia. destruct (Z.leb_spec (BL a) j) as [Hge|Hlt].
  { apply wp_mret. split; [done|]. rewrite !firstn_all2 in Heq by lia. done. }
  rewrite !add32_id by lia. apply wp_bind, wp_get_u; [done|lia|]. intros x Hx _. apply wp_bind, wp_get_u; [done|lia|]. intros y Hy _. fold xs in Hx. fold ys in Hy.
  destruct (Z.eqb_spec x y) as [->|Hne]; cbn [negb]; apply wp_mret.
  - split; [|lia]. split; [done|]. split; [lia|]. replace (Z.to_nat (j + 1)) with (S (Z.to_nat j)) by lia. by rewrite !(take_S_r _ _ y), Heq.
  - split; [done|]. split; [done|]. intros E'. rewrite E' in Hx. congruence.
Qed.

Definition shared_heap : heap := [[1; 2; 3; 4; 5; 6]; [4; 5; 9]].
Definition front : bufv := mkB 0 0 4.
Definition back : bufv := mkB 0 1 4.
Definition other_view : bufv := mkB 1 0 2.
Lemma shared_ok : bok shared_heap front ∧ bok shared_heap back ∧ bok shared_heap other_view.
Proof. split_and!; (split; cbn; [done|repeat constructor; unfold byte; lia|lia..]). Qed.

(** [copy(front, back, 0.5, 1, NaN)]: from 1 to 0, nothing; with one argument,
    four bytes onto themselves, three of which fit. *)
Lemma copy_exact_witness :
  copy front back 3 (Fin (ONE / 2)) (Fin ONE) NaN shared_heap = (Val (Done (Fin 0)), shared_heap) ∧
  copy front back 1 (Fin ONE) NaN NaN shared_heap = (Val (Done (num_of_Z 3)), [[1; 2; 1; 2; 3; 6]; [4; 5; 9]]) ∧
  copy front back 2 NInf (Fin (- ONE / 2)) NaN shared_heap = (Val (Throws (MustBeAtMost "sourceStart" (Fin (4 * ONE)) (Fin (- ONE)))), shared_heap).
Proof.
  pose proof (λ n ts ss se, copy_exact shared_heap front back n ts ss se (proj1 shared_ok) (proj1 (proj2 shared_ok))) as H.
  assert (W : wf_num (Fin ONE)) by (change ONE with (1 * ONE); by apply repr_int). assert (Wh : ∀ s : bool, wf_num (Fin (if s then ONE / 2 else - ONE / 2))).
  { intros s. split; [destruct s; reflexivity|]. exists (if s then 2 ^ 52 else - 2 ^ 52). destruct s; reflexivity. }
  split_and!.
  - rewrite (H 3 (Fin (ONE / 2)) (Fin ONE) NaN (Wh true) W I). vm_compute. reflexivity.
  - rewrite (H 1 (Fin ONE) NaN NaN W I I). vm_compute. reflexivity.
  - rewrite (H 2 NInf (Fin (- ONE / 2)) NaN I (Wh false) I). vm_compute. reflexivity.
Defined.

Lemma compareBuf_lexicographic_witness : ∃ a b c d, is_int (Fin 0) a ∧ is_int (i2d 4) b ∧ is_int (Fin 0) c ∧ is_int (i2d 4) d ∧
  compareBuf front back 0 NaN NaN NaN NaN shared_heap =
    (Val (Done (num_of_Z (lex (window shared_heap front c d) (window shared_heap back a b)))), shared_heap).
Proof. exact (compareBuf_lexicographic shared_heap front back 0 NaN NaN NaN NaN (proj1 shared_ok) (proj1 (proj2 shared_ok))). Defined.

Lemma fill_periodic_witness : ∃ o e A', is_int (Fin 0) o ∧ is_int (i2d 4) e ∧
  fillCore false front other_view 0 NaN NaN shared_heap = (Val (Done front), <[0%nat := A']> shared_heap) ∧
  filled [1; 2; 3; 4; 5; 6] A' [4; 5] (0 + o) (0 + e).
Proof. apply (fill_periodic shared_heap false front other_view 0 NaN NaN (proj1 shared_ok) (proj2 (proj2 shared_ok))). by left. Defined.

Lemma indexOf_nearest_witness : ∃ r, indexOf true front other_view (Fin 0) (Fin 0) shared_heap = (Val r, shared_heap) ∧
  nearest true 1 0 (occurs shared_heap front other_view) r.
Proof.
  assert (E : num_eq (Fin 0) (num_of_Z 2) = false) by (vm_compute; reflexivity).
  pose proof (indexOf_nearest shared_heap true front other_view (Fin 0) (Fin 0) (proj1 shared_ok) (proj2 (proj2 shared_ok)) eq_refl) as H. rewrite E in H. exact H.
Defined.
