(* ===== verification/DataViews.v ===== *)
(** * Variable-width numbers and data views

    [readNumVarHelper] and [writeNumVarHelper] (readUIntLE ... writeIntBE) and
    the DataView methods of typedarrays.ts
    (src/packages/compiler/src/backend/wasm/), over one storage array. *)

From S2P Require Import Prelude F64 F32 Arrays BytesDecode BufferNumbers.

#[local] Open Scope arr_scope.

(** ** Widths chosen at run time *)

Definition parseVarNumKind (k : string) : option (bool * bool) :=
  if String.eqb k "ube" then Some (false, false) else if String.eqb k "ule" then Some (false, true)
  else if String.eqb k "ibe" then Some (true, false) else if String.eqb k "ile" then Some (true, true) else None.
Definition byteLengthError (v : num) : buffer_error :=
  if negb (num_eq (math_trunc v) v) then MustBeInteger "byteLength" v else MustBeBetween "byteLength" (num_of_Z 1) (num_of_Z 6) v.
Definition bad_width (v : num) : bool := negb (num_eq (math_trunc v) v) || (num_lt v (num_of_Z 1) || num_lt (num_of_Z 6) v).
(** A signed 64-bit local, and [i64.shl] then [i64.shr_s]. *)
Definition to_int64 (z : Z) : Z := (z + 2 ^ 63) mod 2 ^ 64 - 2 ^ 63.
Definition sign_extend64 (w bits : Z) : Z := Z.shiftr (to_int64 (Z.shiftl bits (64 - w * 8))) (64 - w * 8).
Definition cap_var (v : view) (w : Z) : num := num_sub (i2d (VLEN v)) (i2d w).
Definition readNumVar (signed little : bool) (v : view) (offset blraw : num) : SM (outcome num) :=
  if bad_width blraw then mret (Throws (byteLengthError blraw))
  else
    w <- of_option (trunc_s32 blraw);;
    let cap := cap_var v w in
    if bad_offset offset cap then mret (Throws (boundsError offset cap))
    else
      addr <- address v offset;;
      bits <- assemble 64 little w addr (upto w) 0;;
      mret (Done (num_of_Z (if signed then sign_extend64 w bits else bits))).

(** 256 ** width by repeated multiplication. *)
Definition pow_step (w : Z) (st : num * Z) : SM (num * Z + num) :=
  let '(pow, i) := st in if ge_s i w then mret (inr pow) else mret (inl (num_mul pow (num_of_Z 256), add32 i 1)).
Definition pow256 (w : Z) : SM num := loop (S (Z.to_nat w)) (pow_step w) (num_of_Z 1, 0).
Definition var_bounds (signed : bool) (pow : num) : num * num :=
  if signed then (num_mul (num_div pow (num_of_Z 2)) (num_of_Z (-1)), num_sub (num_div pow (num_of_Z 2)) (num_of_Z 1))
  else (Fin 0, num_sub pow (num_of_Z 1)).
Definition trunc_s64 (x : num) : option Z :=
  match x with
  | Fin k => let t := Z.quot k ONE in if (- 2 ^ 63 <=? t) && (t <? 2 ^ 63) then Some (t mod 2 ^ 64) else None
  | NZero => Some 0
  | _ => None
  end.
Definition to_index (x : num) : num := if is_nan x then Fin 0 else math_trunc x.
Definition writeNumVar (signed little : bool) (v : view) (value offset blraw : num) : SM (outcome num) :=
  if bad_width blraw then mret (Throws (byteLengthError blraw))
  else
    w <- of_option (trunc_s32 blraw);;
    pow <- pow256 w;;
    let '(minv, maxv) := var_bounds signed pow in
    if num_lt maxv value || num_lt value minv then
      mret (Throws (if gt_s w 4 then MustBePower signed (if signed then w * 8 - 1 else w * 8) value else MustBeBetween "value" minv maxv value))
    else
      let cap := cap_var v w in
      if bad_offset offset cap then mret (Throws (boundsError offset cap))
      else
        addr <- address v offset;;
        bits <- of_option (trunc_s64 (to_index value));;
        scatter little w addr bits (upto w);;;
        mret (Done (num_add offset (i2d w))).

(** ** DataView *)

Definition parseDvIntMethod (m : string) : option (Z * bool * bool) :=
  if String.eqb m "dvGetUint8" || String.eqb m "dvSetUint8" then Some (1, false, false)
  else if String.eqb m "dvGetInt8" || String.eqb m "dvSetInt8" then Some (1, true, false)
  else if String.eqb m "dvGetUint16" || String.eqb m "dvSetUint16" then Some (2, false, true)
  else if String.eqb m "dvGetInt16" || String.eqb m "dvSetInt16" then Some (2, true, true)
  else if String.eqb m "dvGetUint32" || String.eqb m "dvSetUint32" then Some (4, false, true)
  else if String.eqb m "dvGetInt32" || String.eqb m "dvSetInt32" then Some (4, true, true)
  else None.
(** The offset check: [inr] the position, or out of the view. *)
Definition emitDvOffsetCheck (v : view) (offarg : num) (w : Z) : option num :=
  let offt := to_index offarg in
  if num_lt offt (Fin 0) || num_lt (i2d (VLEN v)) (num_add offt (num_of_Z w)) then None else Some offt.
Definition dv_at {A} (v : view) (offarg : num) (w : Z) (k : Z → SM A) : SM (outcome A) :=
  match emitDvOffsetCheck v offarg w with
  | None => mret (Throws OutOfView)
  | Some offt => addr <- address v offt;; r <- k addr;; mret (Done r)
  end.
(** Methods without an order argument assemble little-endian. *)
Definition dvGetInt (w : Z) (signed hasLE : bool) (v : view) (offarg : num) (little : bool) : SM (outcome num) :=
  dv_at v offarg w (λ addr,
    bits <- assemble 32 (if hasLE then little else true) w addr (upto w) 0;;
    mret (read_value (mkKind w signed little) bits)).
Definition dvSetInt (w : Z) (hasLE : bool) (v : view) (offarg value : num) (little : bool) : SM (outcome unit) :=
  dv_at v offarg w (λ addr, scatter (if hasLE then little else true) w addr (toInt32 value) (upto w)).
Definition dvGetFloat (w : Z) (v : view) (offarg : num) (little : bool) : SM (outcome num) :=
  dv_at v offarg w (λ addr, bits <- assemble (8 * w) little w addr (upto w) 0;; mret (float_of w bits)).
Definition dvSetFloat (w : Z) (v : view) (offarg value : num) (little : bool) : SM (outcome unit) :=
  dv_at v offarg w (λ addr, scatter little w addr (bits_of w value) (upto w)).
Definition dvGetBig (signed : bool) (v : view) (offarg : num) (little : bool) : SM (outcome num) :=
  dv_at v offarg 8 (λ addr, bits <- assemble 64 little 8 addr (upto 8) 0;; mret (num_of_Z (if signed then to_int64 bits else bits))).

Definition store_len : SM Z := λ s, (Val (len s), s).
Definition dataViewNew (offarg : num) (haslen : bool) (lenarg : num) : SM (outcome view) :=
  n <- store_len;;
  let recv := i2d n in
  let offt := to_index offarg in
  if num_lt offt (Fin 0) || num_lt recv offt then mret (Throws (BadViewStart offt))
  else
    let cap := num_sub recv offt in
    let lent := if haslen then to_index lenarg else cap in
    if haslen && (num_lt lent (Fin 0) || num_lt cap lent) then mret (Throws (BadViewLength lent))
    else o <- of_option (trunc_s32 offt);; l <- of_option (trunc_s32 lent);; mret (Done (mkV o l)).

Example sample_data_views :
  (writeNumVar true false (mkV 2 8) (num_of_Z (-2)) (num_of_Z 1) (num_of_Z 6);;; readNumVar true false (mkV 2 8) (num_of_Z 1) (num_of_Z 6)) sample_store =
    (Val (Done (num_of_Z (-2))), [9; 9; 1; 255; 255; 255; 255; 255; 254; 8; 9]) ∧
  (writeNumVar false true (mkV 2 8) (num_of_Z (2 ^ 40)) (num_of_Z 0) (num_of_Z 5)) sample_store = (Val (Throws (MustBePower false 40 (num_of_Z (2 ^ 40)))), sample_store) ∧
  (w <- dataViewNew (num_of_Z 3) true (num_of_Z 4);; match w with Done v => dvSetInt 2 true v (num_of_Z 2) (num_of_Z 300) false;;; dvGetFloat 4 v NaN false | Throws e => mret (Throws e) end) sample_store =
    (Val (Done (promote_bits 0x0203012c)), [9; 9; 1; 2; 3; 1; 44; 6; 7; 8; 9]) ∧
  (dvGetBig true (mkV 2 8) (num_of_Z 1) true) sample_store = (Val (Throws OutOfView), sample_store) ∧
  (dataViewNew (num_of_Z 3) true PInf) sample_store = (Val (Throws (BadViewLength PInf)), sample_store).
Proof. vm_compute. done. Qed.

(** ** Stores and loads through a view *)

Lemma address_at v s offset i : view_in v s → is_int offset i → 0 <= i <= VLEN v → address v offset s = (Val (VOFF v + i), s).
Proof.
  intros Hv Hi Hr. assert (H : wp (address v offset) (λ r s', r = VOFF v + i ∧ s' = s) (λ _ _, False) s) by (by apply (wp_address v s offset i)).
  apply wp_run in H as (r & s' & -> & -> & ->). done.
Qed.

Lemma overwrite_patched s xs p w : 0 <= p → len xs = w → p + w <= len s → patched s (overwrite s xs p) p w.
Proof.
  intros Hp Hw Hl. split; [apply overwrite_length; lia|]. intros j Hj. rewrite overwrite_lookup by lia.
  destruct (Z.leb_spec p (Z.of_nat j)), (Z.ltb_spec (Z.of_nat j) (p + len xs)); cbn [andb]; done || lia.
Qed.

Lemma store_at v s i w little bits : view_in v s → 0 <= i → 0 <= w → i + w <= VLEN v →
  ∃ s', scatter little w (VOFF v + i) bits (upto w) s = (Val tt, s') ∧ patched s s' (VOFF v + i) w ∧ view_in v s' ∧
    ∀ N, 8 * w <= N → assemble N little w (VOFF v + i) (upto w) 0 s' = (Val (bits mod 256 ^ w), s').
Proof.
  intros Hv Hi Hw Hl. pose proof Hv as (Hb & Ho & Hr & Hf & Hs). set (xs := order little (low_bytes bits (Z.to_nat w))).
  assert (Hx : len xs = w) by (unfold xs; rewrite order_length, low_bytes_length; lia). assert (Hxb : Forall byte xs) by apply order_bytes, low_bytes_byte.
  assert (Hlen : length (overwrite s xs (VOFF v + i)) = length s) by (apply overwrite_length; lia).
  exists (overwrite s xs (VOFF v + i)). split; [apply store_bytes; done || lia|]. split; [apply overwrite_patched; lia|]. split.
  - unfold view_in. rewrite Hlen. split_and!; try lia. by apply overwrite_bytes.
  - intros N HN. rewrite load_bytes; [|by apply overwrite_bytes|lia|lia|lia|lia|done]. pose proof (slice_overwrite s xs (VOFF v + i) ltac:(lia) ltac:(lia)) as Es. rewrite Hx in Es. rewrite Es.
    unfold xs. by rewrite order_involutive, low_bytes_value, Z2Nat.id by lia.
Qed.

Lemma load_at v s i w N little : view_in v s → 0 <= i → 0 <= w → i + w <= VLEN v → 8 * w <= N →
  assemble N little w (VOFF v + i) (upto w) 0 s = (Val (le_val (order little (slice s (VOFF v + i) w))), s).
Proof. intros (Hb & Ho & Hr & Hf & Hs) Hi Hw Hl HN. apply load_bytes; done || lia. Qed.

(** ** Variable widths *)

Definition vmin (signed : bool) (w : Z) : Z := if signed then - 2 ^ (8 * w - 1) else 0.
Definition vmax (signed : bool) (w : Z) : Z := if signed then 2 ^ (8 * w - 1) - 1 else 2 ^ (8 * w) - 1.

Lemma bad_width_false x : bad_width x = false → ∃ w, is_int x w ∧ 1 <= w <= 6.
Proof.
  intros H. unfold bad_width in H. apply orb_false_iff in H as [H1 H2]. apply orb_false_iff in H2 as [H2 H3]. rewrite !num_of_Z_int in H2, H3 by lia.
  apply negb_false_iff, integral_spec in H1 as [->|[->|(w & Hw)]].
  - destruct (scaled_infinities 6) as [E _]; [done|]. congruence.
  - pose proof MAXK_pos. unfold num_lt in H2. cbn [is_nan negb andb key] in H2. apply Z.ltb_ge in H2. pose proof ONE_pos. lia.
  - exists w. split; [done|]. destruct (is_int_lt x w 1 Hw) as [E1 _]. destruct (is_int_lt x w 6 Hw) as [_ E6]. rewrite E1 in H2. rewrite E6 in H3. zb. lia.
Qed.

Lemma width_cases (P : Z → Prop) w : 1 <= w <= 6 → P 1 → P 2 → P 3 → P 4 → P 5 → P 6 → P w.
Proof. intros Hw ? ? ? ? ? ?. assert (w = 1 ∨ w = 2 ∨ w = 3 ∨ w = 4 ∨ w = 5 ∨ w = 6) as [->|[->|[->|[->|[->| ->]]]]] by lia; done. Qed.

Lemma pow256_exact w s : 1 <= w <= 6 → pow256 w s = (Val (num_of_Z (256 ^ w)), s).
Proof. intros Hw. apply (width_cases (λ w, pow256 w s = (Val (num_of_Z (256 ^ w)), s)) w Hw); vm_compute; reflexivity. Qed.

Lemma var_bounds_exact signed w : 1 <= w <= 6 → var_bounds signed (num_of_Z (256 ^ w)) = (Fin (vmin signed w * ONE), Fin (vmax signed w * ONE)).
Proof.
  intros Hw. apply (width_cases (λ w, var_bounds signed (num_of_Z (256 ^ w)) = (Fin (vmin signed w * ONE), Fin (vmax signed w * ONE))) w Hw); destruct signed; vm_compute; reflexivity.
Qed.

Lemma vrange signed w : 1 <= w <= 6 → vmin signed w <= 0 <= vmax signed w ∧ vmax signed w - vmin signed w < 256 ^ w ∧ Z.abs (vmin signed w) <= 2 ^ 53 ∧ Z.abs (vmax signed w) <= 2 ^ 53.
Proof.
  intros Hw. apply (width_cases (λ w, vmin signed w <= 0 <= vmax signed w ∧ vmax signed w - vmin signed w < 256 ^ w ∧ Z.abs (vmin signed w) <= 2 ^ 53 ∧ Z.abs (vmax signed w) <= 2 ^ 53) w Hw); destruct signed; cbn; lia.
Qed.

Lemma sign_extend64_spec w z : 1 <= w <= 6 → vmin true w <= z <= vmax true w → sign_extend64 w (z mod 256 ^ w) = z.
Proof.
  intros Hw Hz. unfold sign_extend64, to_int64. rewrite Z.shiftl_mul_pow2, Z.shiftr_div_pow2 by lia. unfold vmin, vmax in Hz.
  set (H := 2 ^ (64 - w * 8)). set (K := 2 ^ (8 * w - 1)) in *. assert (HK : 256 ^ w = 2 * K).
  { unfold K. change 256 with (2 ^ 8). rewrite <- Z.pow_mul_r, <- Z.pow_succ_r by lia. f_equal. lia. }
  assert (H63 : 2 ^ 63 = K * H) by (unfold K, H; rewrite <- Z.pow_add_r by lia; f_equal; lia). assert (H64 : 2 ^ 64 = 2 * K * H) by (rewrite <- Z.mul_assoc, <- H63; done).
  assert (HH : 0 < H) by (apply Z.pow_pos_nonneg; lia). assert (HKp : 0 < K) by (apply Z.pow_pos_nonneg; lia).
  rewrite HK, H63, H64, <- Z.mul_add_distr_r, Z.mul_mod_distr_r by lia. rewrite <- Z.mul_sub_distr_r, Z.div_mul by lia.
  rewrite Zplus_mod_idemp_l, Z.mod_small by lia. lia.
Qed.

Lemma between_trunc lo hi v : lo <= 0 <= hi → Z.abs lo <= 2 ^ 53 → Z.abs hi <= 2 ^ 53 → num_lt (Fin (hi * ONE)) v = false → num_lt v (Fin (lo * ONE)) = false →
  lo <= num_to_Z v <= hi ∧ trunc_s64 (to_index v) = Some (num_to_Z v mod 2 ^ 64).
Proof.
  intros Hz Hl Hh H1 H2. pose proof ONE_pos. destruct (scaled_infinities hi Hh) as [HP _]. destruct v as [| | | |x].
  - split; [cbn; lia|reflexivity].
  - congruence.
  - destruct (repr_int lo Hl) as [Hr _]. unfold num_lt in H2. cbn [is_nan negb andb key] in H2. apply Z.ltb_ge in H2. lia.
  - split; [cbn; lia|reflexivity].
  - unfold num_lt in H1, H2. cbn [is_nan negb andb key] in H1, H2. zb. assert (Hr : lo <= num_to_Z (Fin x) <= hi).
    { cbn [num_to_Z]. split; [rewrite <- (Z.quot_mul lo ONE) by lia|rewrite <- (Z.quot_mul hi ONE) by lia]; by apply Z.quot_le_mono. }
    split; [done|]. cbn [num_to_Z] in Hr. unfold to_index. cbn [is_nan math_trunc num_to_Z]. unfold fin_signed. destruct (Z.eqb_spec (Z.quot x ONE * ONE) 0) as [E|E].
    + assert (Z.quot x ONE = 0) as -> by nia. destruct (x <? 0); reflexivity.
    + cbn [trunc_s64]. rewrite Z.quot_mul by lia. rewrite (proj2 (Z.leb_le _ _)), (proj2 (Z.ltb_lt _ _)) by lia. done.
Qed.

Definition bad_var (signed : bool) (w : Z) (value : num) : bool := num_lt (Fin (vmax signed w * ONE)) value || num_lt value (Fin (vmin signed w * ONE)).
Definition var_error (signed : bool) (w : Z) (value : num) : buffer_error :=
  if 4 <? w then MustBePower signed (if signed then w * 8 - 1 else w * 8) value
  else MustBeBetween "value" (Fin (vmin signed w * ONE)) (Fin (vmax signed w * ONE)) value.

Lemma cap_var_value v w : 0 <= VLEN v < 2 ^ 31 → 1 <= w <= 6 → cap_var v w = Fin ((VLEN v - w) * ONE).
Proof. intros Hv Hw. unfold cap_var. rewrite (i2d_small w), <- (num_of_Z_int w) by lia. apply cap_value; [done|lia]. Qed.

Lemma mod_mod_pow z w : 1 <= w <= 8 → (z mod 2 ^ 64) mod 256 ^ w = z mod 256 ^ w.
Proof.
  intros Hw. apply Z.mod_mod_divide. exists (256 ^ (8 - w)). rewrite <- Z.pow_add_r by lia. replace (8 - w + w) with 8 by lia. done.
Qed.

Lemma var_value signed w z : 1 <= w <= 6 → vmin signed w <= z <= vmax signed w → (if signed then sign_extend64 w (z mod 256 ^ w) else z mod 256 ^ w) = z.
Proof.
  intros Hw Hz. destruct signed; [by apply sign_extend64_spec|]. unfold vmin, vmax in Hz. apply Z.mod_small. change 256 with (2 ^ 8). rewrite <- Z.pow_mul_r by lia. lia.
Qed.

(** C27. A variable-width write throws for a bad byte length, then for a value
    outside the width's range, then for a bad offset, and leaves the storage; or
    it changes only the bytes of the value, and the read of the same kind gives
    back the value truncated towards zero.  It never traps, NaN included. *)
Theorem write_read_var (signed little : bool) (v : view) (value offset bl : num) (s : list Z) : view_in v s →
  if bad_width bl then writeNumVar signed little v value offset bl s = (Val (Throws (byteLengthError bl)), s)
  else ∃ w, is_int bl w ∧ 1 <= w <= 6 ∧
    let cap := Fin ((VLEN v - w) * ONE) in
    if bad_var signed w value then writeNumVar signed little v value offset bl s = (Val (Throws (var_error signed w value)), s)
    else if bad_offset offset cap then writeNumVar signed little v value offset bl s = (Val (Throws (boundsError offset cap)), s)
    else ∃ i s', is_int offset i ∧ 0 <= i <= VLEN v - w ∧ writeNumVar signed little v value offset bl s = (Val (Done (num_of_Z (i + w))), s') ∧
      patched s s' (VOFF v + i) w ∧ readNumVar signed little v offset bl s' = (Val (Done (num_of_Z (num_to_Z value))), s').
Proof.
  intros Hv. pose proof Hv as (Hb & Ho & Hl & Hf & Hs). unfold writeNumVar, readNumVar. destruct (bad_width bl) eqn:Eb; [done|].
  destruct (bad_width_false bl Eb) as (w & Hw & Hw6). exists w. split; [done|]. split; [done|]. cbv zeta.
  assert (Ew : ∀ A (k : Z → SM A) t, mbind (of_option (trunc_s32 bl)) k t = k w t) by (intros; rewrite (trunc_s32_int bl w) by (done || lia); done).
  assert (Ep : ∀ A (k : num → SM A) t, mbind (pow256 w) k t = k (num_of_Z (256 ^ w)) t) by (intros; unfold mbind; by rewrite pow256_exact).
  destruct (vrange signed w Hw6) as (Hz & Hspan & Hlo & Hhi). rewrite !Ew, !Ep, var_bounds_exact, gt_s_small by (done || lia).
  fold (bad_var signed w value). destruct (bad_var signed w value) eqn:Ev.
  { done. }
  rewrite cap_var_value by done. destruct (bad_offset offset _) eqn:Eo; [done|]. apply orb_false_iff in Ev as [Ev1 Ev2].
  apply bad_offset_false in Eo as Hi; [|lia]. destruct Hi as (i & Hi & Hr). destruct (between_trunc _ _ value Hz Hlo Hhi Ev1 Ev2) as [Hval Htr].
  destruct (store_at v s i w little (num_to_Z value mod 2 ^ 64)) as (s' & Est & Hp & Hv' & Hld); [done|lia..|].
  exists i, s'. split; [done|]. split; [lia|]. split; [|split; [done|]].
  - unfold mbind. rewrite (address_at v s offset i), Htr by (done || lia). cbn [of_option]. unfold mret at 1. rewrite Est. unfold mret. rewrite i2d_small, <- num_of_Z_int by lia. do 3 f_equal. apply add_width; [done|lia|lia].
  - rewrite Ew, cap_var_value, Eo by done. unfold mbind. rewrite (address_at v s' offset i), Hld, mod_mod_pow by (done || lia). unfold mret. by rewrite var_value.
Qed.

(** ** DataView *)

(** The position an access of [w] bytes has, if it is inside the view. *)
Definition to_integer (x : num) : option Z := match x with PInf | NInf => None | _ => Some (num_to_Z x) end.
Definition dv_pos (v : view) (offarg : num) (w : Z) : option Z :=
  match to_integer offarg with Some j => if (0 <=? j) && (j + w <=? VLEN v) then Some j else None | None => None end.

Lemma to_index_int x j : to_integer x = Some j → is_int (to_index x) j.
Proof.
  destruct x as [| | | |k]; intros H; cbn in H; simplify_eq; unfold to_index; cbn [is_nan math_trunc]; [by left|by right|].
  unfold fin_signed. destruct (Z.eqb_spec (Z.quot k ONE * ONE) 0) as [E|E]; [|by left].
  assert (Z.quot k ONE = 0) as -> by (pose proof ONE_pos; nia). destruct (k <? 0); [by right|by left].
Qed.
Lemma to_index_inf x : to_integer x = None → x = to_index x ∧ (x = PInf ∨ x = NInf).
Proof. destruct x; cbn; intros; try done; auto. Qed.

(** The sum of an integer double and a length exceeds a length as it should. *)
Lemma add_above x j w n : is_int x j → 0 <= j → 0 <= w < 2 ^ 31 → 0 <= n < 2 ^ 31 → num_lt (Fin (n * ONE)) (num_add x (Fin (w * ONE))) = (n <? j + w).
Proof.
  intros Hx Hj Hw Hn. assert (E : num_add x (Fin (w * ONE)) = num_of_ratio ((j + w) * ONE) 1 false).
  { destruct Hx as [->|[-> ->]]; cbn [num_add key]; f_equal; ring. }
  rewrite E. destruct (Z.lt_ge_cases j (2 ^ 31)) as [Hs|Hb].
  - rewrite ratio_int by lia. apply num_lt_scaled.
  - rewrite (proj2 (Z.ltb_lt n (j + w))) by lia.
    pose proof ONE_pos. pose proof (ratio_mono (2 ^ 31 * ONE) 1 false ((j + w) * ONE) 1 false ltac:(lia) ltac:(lia) ltac:(nia)) as Hm. rewrite (ratio_int_signed (2 ^ 31)) in Hm by done.
    unfold num_le in Hm. pose proof (ratio_not_nan ((j + w) * ONE) 1 false) as Hnn. unfold num_lt. rewrite Hnn in *. cbn [is_nan negb andb key] in *. zb. apply Z.ltb_lt. nia.
Qed.

Lemma offset_check v offarg w : 0 <= VLEN v < 2 ^ 31 → 1 <= w <= 8 →
  match emitDvOffsetCheck v offarg w with
  | Some offt => ∃ i, dv_pos v offarg w = Some i ∧ is_int offt i ∧ 0 <= i ∧ i + w <= VLEN v
  | None => dv_pos v offarg w = None
  end.
Proof.
  intros Hl Hw. unfold emitDvOffsetCheck, dv_pos. rewrite i2d_small by done. destruct (to_integer offarg) as [j|] eqn:Ej.
  - pose proof (to_index_int offarg j Ej) as Hj. destruct (is_int_lt _ j 0 Hj) as [H0 _]. change (Fin (0 * ONE)) with (Fin 0) in H0. rewrite H0.
    destruct (Z.ltb_spec j 0) as [Hn|Hn]; cbn [orb]; [by rewrite (proj2 (Z.leb_gt 0 j)) by lia|]. rewrite num_of_Z_int, (add_above _ j) by (done || lia). rewrite (proj2 (Z.leb_le 0 j)) by lia.
    destruct (Z.ltb_spec (VLEN v) (j + w)); [by rewrite (proj2 (Z.leb_gt _ _)) by lia|]. exists j. rewrite (proj2 (Z.leb_le _ _)) by lia. split_and!; done || lia.
  - destruct (to_index_inf offarg Ej) as [<- [->| ->]].
    + change (num_lt PInf (Fin 0)) with false. cbn [orb]. rewrite num_of_Z_int by lia. cbn [num_add].
      destruct (scaled_infinities (VLEN v)) as [-> _]; [lia|done].
    + destruct (scaled_infinities 0) as [_ ->]; [done|done].
Qed.

(** An access outside the view throws; one inside runs at its position. *)
Lemma dv_at_run {A} v s offarg w (k : Z → SM A) : view_in v s → 1 <= w <= 8 →
  match dv_pos v offarg w with
  | None => dv_at v offarg w k s = (Val (Throws OutOfView), s)
  | Some i => 0 <= i ∧ i + w <= VLEN v ∧ ∀ r s', k (VOFF v + i) s = (Val r, s') → dv_at v offarg w k s = (Val (Done r), s')
  end.
Proof.
  intros Hv Hw. pose proof Hv as (_ & _ & Hl & _ & _). pose proof (offset_check v offarg w Hl Hw) as H. unfold dv_at.
  destruct (emitDvOffsetCheck v offarg w) as [offt|]; [|by rewrite H]. destruct H as (i & -> & Hi & H0 & H1). split_and!; [done|done|].
  intros r s' E. unfold mbind. rewrite (address_at v s offt i) by (done || lia). by rewrite E.
Qed.

Lemma parse_dv_ok m w signed hasLE : parseDvIntMethod m = Some (w, signed, hasLE) → (w = 1 ∨ w = 2 ∨ w = 4) ∧ (hasLE = false → w = 1).
Proof. unfold parseDvIntMethod. intros H. repeat case_match; simplify_eq; (split; [lia|done]). Qed.

(** A DataView integer setter throws exactly when the access leaves the view,
    and then so does the getter, both leaving the storage; otherwise it changes
    only the bytes of the value and the getter of the method gives back the value
    modulo the width.  No value is refused and nothing traps. *)
Theorem dv_int_roundtrip (m : string) (w : Z) (signed hasLE little : bool) (v : view) (offarg value : num) (s : list Z) :
  parseDvIntMethod m = Some (w, signed, hasLE) → view_in v s → wf_num value →
  match dv_pos v offarg w with
  | None => dvSetInt w hasLE v offarg value little s = (Val (Throws OutOfView), s) ∧ dvGetInt w signed hasLE v offarg little s = (Val (Throws OutOfView), s)
  | Some i => ∃ s', dvSetInt w hasLE v offarg value little s = (Val (Done tt), s') ∧ patched s s' (VOFF v + i) w ∧
      dvGetInt w signed hasLE v offarg little s' = (Val (Done (num_of_Z (wrap (mkKind w signed little) (num_to_uint32 value)))), s')
  end.
Proof.
  intros Hm Hv Hwf. apply parse_dv_ok in Hm as [Hw _]. assert (Hw8 : 1 <= w <= 8) by lia. unfold dvSetInt, dvGetInt.
  set (le' := if hasLE then little else true). pose proof (dv_at_run v s offarg w (λ addr, scatter le' w addr (toInt32 value) (upto w)) Hv Hw8) as Hset.
  pose proof (λ t, dv_at_run v t offarg w (λ addr, bits <- assemble 32 le' w addr (upto w) 0;; mret (read_value (mkKind w signed little) bits))) as Hget.
  destruct (dv_pos v offarg w) as [i|]; [|by rewrite Hset, (Hget s)]. destruct Hset as (Hi & Hl & Hset).
  destruct (store_at v s i w le' (toInt32 value)) as (s' & Est & Hp & Hv' & Hld); [done|lia..|]. exists s'. split; [by apply Hset|]. split; [done|].
  apply (Hget s'); [done|done|]. unfold mbind. rewrite Hld by lia. unfold mret. do 2 f_equal. rewrite toInt32_exact by done.
  assert (Hk : kind_ok (mkKind w signed little)) by done. assert (Hm : 0 <= num_to_uint32 value mod 256 ^ w < 2 ^ (8 * w)).
  { rewrite Z.pow_mul_r by lia. change (2 ^ 8) with 256. apply Z.mod_pos_bound, Z.pow_pos_nonneg; lia. }
  rewrite (read_value_wrap _ _ Hk Hm). f_equal. unfold wrap; cbn [width BufferNumbers.signed]. rewrite Z.pow_mul_r by lia. change (2 ^ 8) with 256.
  pose proof (Z.pow_pos_nonneg 256 w). destruct signed; [by rewrite Zplus_mod_idemp_l|by rewrite Z.mod_mod by lia].
Qed.

(** The same for the float methods; the getter gives back the double, rounded
    for [setFloat32]. *)
Theorem dv_float_roundtrip (w : Z) (little : bool) (v : view) (offarg value : num) (s : list Z) : w = 4 ∨ w = 8 → view_in v s → wf_num value →
  match dv_pos v offarg w with
  | None => dvSetFloat w v offarg value little s = (Val (Throws OutOfView), s) ∧ dvGetFloat w v offarg little s = (Val (Throws OutOfView), s)
  | Some i => ∃ s', dvSetFloat w v offarg value little s = (Val (Done tt), s') ∧ patched s s' (VOFF v + i) w ∧
      dvGetFloat w v offarg little s' = (Val (Done (if w =? 4 then fround value else value)), s')
  end.
Proof.
  intros Hw Hv Hwf. assert (Hw8 : 1 <= w <= 8) by lia. destruct (float_of_bits w value Hw Hwf) as [Hr Hback]. unfold dvSetFloat, dvGetFloat.
  pose proof (dv_at_run v s offarg w (λ addr, scatter little w addr (bits_of w value) (upto w)) Hv Hw8) as Hset.
  pose proof (λ t, dv_at_run v t offarg w (λ addr, bits <- assemble (8 * w) little w addr (upto w) 0;; mret (float_of w bits))) as Hget.
  destruct (dv_pos v offarg w) as [i|]; [|by rewrite Hset, (Hget s)]. destruct Hset as (Hi & Hl & Hset).
  destruct (store_at v s i w little (bits_of w value)) as (s' & Est & Hp & Hv' & Hld); [done|lia..|]. exists s'. split; [by apply Hset|]. split; [done|].
  apply (Hget s'); [done|done|]. unfold mbind. rewrite Hld, Z.mod_small by lia. unfold mret. by rewrite Hback.
Qed.

(** The 8-byte integer getters answer the Number nearest the integer the bytes
    spell. *)
Lemma dv_big_exact (signed little : bool) (v : view) (offarg : num) (s : list Z) : view_in v s →
  dvGetBig signed v offarg little s =
    (Val (match dv_pos v offarg 8 with
          | None => Throws OutOfView
          | Some i => let z := le_val (order little (slice s (VOFF v + i) 8)) in Done (num_of_Z (if signed then to_int64 z else z))
          end), s).
Proof.
  intros Hv. unfold dvGetBig. pose proof (dv_at_run v s offarg 8 (λ addr, bits <- assemble 64 little 8 addr (upto 8) 0;; mret (num_of_Z (if signed then to_int64 bits else bits))) Hv ltac:(lia)) as H.
  destruct (dv_pos v offarg 8) as [i|]; [|done]. destruct H as (Hi & Hl & H). apply H. unfold mbind. by rewrite load_at by (done || lia).
Qed.

(** The window [new DataView] opens on an array of [n] bytes. *)
Definition dv_window (n : Z) (offarg : num) (haslen : bool) (lenarg : num) : view + buffer_error :=
  match to_integer offarg with
  | Some o =>
      if (0 <=? o) && (o <=? n) then
        if haslen then
          match to_integer lenarg with
          | Some l => if (0 <=? l) && (l <=? n - o) then inl (mkV o l) else inr (BadViewLength (to_index lenarg))
          | None => inr (BadViewLength (to_index lenarg))
          end
        else inl (mkV o (n - o))
      else inr (BadViewStart (to_index offarg))
  | None => inr (BadViewStart (to_index offarg))
  end.

(** The room after an integer double. *)
Lemma sub_int x o n : is_int x o → 0 <= o <= n → n < 2 ^ 31 → num_sub (Fin (n * ONE)) x = Fin ((n - o) * ONE).
Proof.
  intros Hx Ho Hn. unfold num_sub. destruct Hx as [->|[-> ->]]; cbn [num_neg].
  - destruct (Z.eqb_spec (o * ONE) 0); cbn [num_add key].
    + rewrite Z.add_0_r. pose proof ONE_pos. assert (o = 0) as -> by nia. rewrite Z.sub_0_r. apply ratio_int_signed. lia.
    + replace (n * ONE + - (o * ONE)) with ((n - o) * ONE) by ring. apply ratio_int_signed. lia.
  - cbn [num_add key]. rewrite Z.add_0_r, Z.sub_0_r. apply ratio_int_signed. lia.
Qed.

Lemma index_in x n : 0 <= n < 2 ^ 31 →
  match to_integer x with
  | Some j => is_int (to_index x) j ∧ num_lt (to_index x) (Fin 0) || num_lt (Fin (n * ONE)) (to_index x) = negb ((0 <=? j) && (j <=? n))
  | None => num_lt (to_index x) (Fin 0) || num_lt (Fin (n * ONE)) (to_index x) = true
  end.
Proof.
  intros Hn. destruct (to_integer x) as [j|] eqn:Ej.
  - pose proof (to_index_int x j Ej) as Hj. split; [done|]. destruct (is_int_lt _ j 0 Hj) as [H0 _]. change (Fin (0 * ONE)) with (Fin 0) in H0. rewrite H0.
    destruct (is_int_lt _ j n Hj) as [_ ->]. destruct (Z.ltb_spec j 0), (Z.ltb_spec n j), (Z.leb_spec 0 j), (Z.leb_spec j n); done || lia.
  - destruct (scaled_infinities n) as [HP HN]; [lia|]. destruct (to_index_inf x Ej) as [<- [->| ->]]; [rewrite HP; by rewrite orb_true_r|by rewrite HN].
Qed.

(** [new DataView] throws for a start outside the array or a length that does
    not fit behind it, or opens exactly the window asked for; the window is
    inside the array, so every later access through it stays inside. *)
Theorem dataViewNew_exact (offarg lenarg : num) (haslen : bool) (s : list Z) : Forall byte s → len s < 2 ^ 31 →
  dataViewNew offarg haslen lenarg s = (Val (match dv_window (len s) offarg haslen lenarg with inl v => Done v | inr e => Throws e end), s) ∧
  ∀ v, dv_window (len s) offarg haslen lenarg = inl v → view_in v s.
Proof.
  intros Hb Hs. split.
  - unfold dataViewNew, store_len, mbind. unfold dv_window. rewrite i2d_small by lia. set (n := len s). pose proof (index_in offarg n ltac:(lia)) as Ho.
    destruct (to_integer offarg) as [o|]; [|by rewrite Ho]. destruct Ho as [Hio ->]. destruct ((0 <=? o) && (o <=? n)) eqn:Er; cbn [negb]; [|done].
    apply andb_true_iff in Er as [E1 E2]. zb. pose proof (sub_int _ o n Hio ltac:(lia) ltac:(lia)) as Ecap.
    rewrite Ecap. destruct haslen; cbn [andb].
    + pose proof (index_in lenarg (n - o) ltac:(lia)) as Hl. destruct (to_integer lenarg) as [l|]; [|by rewrite Hl]. destruct Hl as [Hil ->].
      destruct ((0 <=? l) && (l <=? n - o)) eqn:Er; cbn [negb]; [|done]. apply andb_true_iff in Er as [E3 E4]. zb.
      rewrite (trunc_s32_int _ o Hio), (trunc_s32_int _ l Hil) by lia. done.
    + rewrite (trunc_s32_int _ o Hio) by lia. rewrite (trunc_s32_int (Fin ((n - o) * ONE)) (n - o)) by (by left || lia). done.
  - intros v H. unfold dv_window in H. repeat case_match; simplify_eq; zb; unfold view_in; cbn [VOFF VLEN]; split_and!; try done; lia.
Qed.

(** ** At concrete inputs *)

Lemma sample_in : view_in (mkV 2 8) sample_store.
Proof. split_and!; cbn; try lia. repeat constructor; lia. Qed.

Lemma is_int_unique x i j : is_int x i → is_int x j → i = j.
Proof. pose proof ONE_pos. intros [->|[-> ->]] [E|[E ->]]; simplify_eq; nia || done. Qed.

Lemma write_read_var_witness : ∃ i s', is_int (num_of_Z 3) i ∧ 0 <= i <= 8 - 3 ∧
  writeNumVar true false (mkV 2 8) (num_of_Z (-70000)) (num_of_Z 3) (num_of_Z 3) sample_store = (Val (Done (num_of_Z (i + 3))), s') ∧
  patched sample_store s' (2 + i) 3 ∧ readNumVar true false (mkV 2 8) (num_of_Z 3) (num_of_Z 3) s' = (Val (Done (num_of_Z (num_to_Z (num_of_Z (-70000))))), s').
Proof.
  pose proof (write_read_var true false (mkV 2 8) (num_of_Z (-70000)) (num_of_Z 3) (num_of_Z 3) sample_store sample_in) as H.
  assert (Ew : bad_width (num_of_Z 3) = false) by (vm_compute; reflexivity). rewrite Ew in H. destruct H as (w & Hw & _ & H).
  assert (H3 : is_int (num_of_Z 3) 3) by (left; apply num_of_Z_int; lia).
  pose proof (is_int_unique _ _ _ Hw H3) as E3. subst w.
  cbv zeta in H. assert (Ev : bad_var true 3 (num_of_Z (-70000)) = false) by (vm_compute; reflexivity). rewrite Ev in H.
  cbn [VLEN] in H. assert (Eo : bad_offset (num_of_Z 3) (Fin ((8 - 3) * ONE)) = false) by (vm_compute; reflexivity). rewrite Eo in H. exact H.
Defined.

Lemma dv_int_roundtrip_witness : ∃ s', dvSetInt 2 true (mkV 2 8) (num_of_Z 6) (num_of_Z 65537) true sample_store = (Val (Done tt), s') ∧
  patched sample_store s' 8 2 ∧ dvGetInt 2 true true (mkV 2 8) (num_of_Z 6) true s' = (Val (Done (num_of_Z 1)), s').
Proof.
  assert (Hw : wf_num (num_of_Z 65537)) by (rewrite num_of_Z_exact by done; by apply repr_int).
  pose proof (dv_int_roundtrip "dvGetInt16" 2 true true true (mkV 2 8) (num_of_Z 6) (num_of_Z 65537) sample_store eq_refl sample_in Hw) as H.
  assert (Ep : dv_pos (mkV 2 8) (num_of_Z 6) 2 = Some 6) by (vm_compute; reflexivity). rewrite Ep in H. destruct H as (s' & H1 & H2 & H3).
  exists s'. split; [exact H1|]. split; [exact H2|exact H3].
Defined.

Lemma dataViewNew_exact_witness : dataViewNew (num_of_Z 4) true (num_of_Z 6) sample_store = (Val (Done (mkV 4 6)), sample_store) ∧ view_in (mkV 4 6) sample_store.
Proof.
  assert (Hb : Forall byte sample_store) by apply sample_in. pose proof (dataViewNew_exact (num_of_Z 4) (num_of_Z 6) true sample_store Hb ltac:(reflexivity)) as [H1 H2].
  assert (Ew : dv_window (len sample_store) (num_of_Z 4) true (num_of_Z 6) = inl (mkV 4 6)) by (vm_compute; reflexivity). rewrite Ew in H1. split; [exact H1|]. apply H2. exact Ew.
Defined.
