(* ===== verification/TypedArrays.v ===== *)
(** * Typed arrays over shared byte storage

    The element-kind helpers of typedarrays.ts
    (src/packages/compiler/src/backend/wasm/): every kind is a window of
    little-endian elements on one byte array of the heap, views share arrays,
    and the theorems relate each helper to the list of elements. *)

From S2P Require Import Prelude F64 F32 Arrays BytesDecode BufferNumbers BufferOps DataViews.

#[local] Open Scope arr_scope.

Inductive BytesElem := EU8 | EU32 | EI32 | EF32.
#[export] Instance BytesElem_eq_dec : EqDecision BytesElem.
Proof. solve_decision. Defined.
Definition esize (e : BytesElem) : Z := match e with EU8 => 1 | _ => 4 end.
Definition trap {A} : HM A := λ h, (Trap, h).
(** Code that works on one array of the heap. *)
Definition on {A} (k : nat) (m : SM A) : HM A := λ h,
  match h !! k with Some a => let '(r, a') := m a in (r, <[k := a']> h) | None => (Trap, h) end.

(** An index or a count of elements in bytes. *)
Definition scale (e : BytesElem) (i : Z) : Z := if 1 <? esize e then mul32 i (esize e) else i.
Definition emitByteSizeGuard (esz : Z) (count : num) : HM unit :=
  if num_le (num_of_Z 2147483648) (if 1 <? esz then num_mul count (num_of_Z esz) else count) then trap else mret tt.
Definition emitIndexCheck (x limit : num) : HM Z :=
  if negb (num_eq (math_trunc x) x) then trap
  else if num_lt x (Fin 0) then trap
  else if num_lt limit x then trap
  else of_option (trunc_s32 x).
Definition emitRelIndex (x : num) (n : Z) : HM Z :=
  let x := to_index x in
  let x := if num_lt x (Fin 0) then num_add (i2d n) x else x in
  if num_lt x (Fin 0) then mret 0 else if num_le (i2d n) x then mret n else of_option (trunc_s32 x).
Definition value_of (e : BytesElem) (bits : Z) : num :=
  match e with EI32 => i2d bits | EF32 => promote_bits bits | _ => num_of_Z bits end.
Definition coerce (e : BytesElem) (val : num) : Z := match e with EF32 => demote_bits val | _ => toInt32 val end.
Definition emitWidenElem (e : BytesElem) (k : nat) (addr : Z) : HM num :=
  bits <- on k (if 1 <? esize e then assemble 32 true 4 addr (upto 4) 0 else get8 addr);; mret (value_of e bits).
Definition emitScatterElem (e : BytesElem) (k : nat) (addr : Z) (val : num) : HM unit :=
  on k (if 1 <? esize e then scatter true 4 addr (coerce e val) (upto 4) else put8 addr (coerce e val)).
Definition elem_addr (e : BytesElem) (b : bufv) (i : Z) : Z := add32 (BO b) (scale e i).

(** ** Properties and element access *)

Definition length_ (b : bufv) : num := i2d (BL b).
Definition byteOffset (b : bufv) : num := i2d (BO b).
Definition byteLength (e : BytesElem) (b : bufv) : num := i2d (scale e (BL b)).
Definition get (e : BytesElem) (b : bufv) (x : num) : HM num :=
  i <- emitIndexCheck x (i2d (sub32 (BL b) 1));; emitWidenElem e (ARR b) (elem_addr e b i).
Definition setElem (e : BytesElem) (b : bufv) (x val : num) : HM unit :=
  i <- emitIndexCheck x (i2d (sub32 (BL b) 1));; emitScatterElem e (ARR b) (elem_addr e b i) val.

(** ** Construction, views and copies *)

Definition newLen (e : BytesElem) (n : num) : HM (outcome bufv) :=
  let t := to_index n in
  if num_lt t (Fin 0) || num_lt MAX_SAFE t then mret (Throws (BadArrayLength n))
  else
    emitByteSizeGuard (esize e) t;;;
    cnt <- of_option (trunc_s32 t);;
    a <- alloc (zeros (scale e cnt));;
    mret (Done (mkB a 0 cnt)).
Definition lit_step (e : BytesElem) (out : nat) (src : list num) (i : Z) : HM (Z + unit) :=
  if ge_s i (len src) then mret (inr tt)
  else el <- of_option (aget src i);; emitScatterElem e out (scale e i) el;;; mret (inl (add32 i 1)).
Definition fromArrLit (e : BytesElem) (src : list num) : HM bufv :=
  emitByteSizeGuard (esize e) (i2d (len src));;;
  out <- alloc (zeros (scale e (len src)));;
  loop (S (length src)) (lit_step e out src) 0;;;
  mret (mkB out 0 (len src)).
(** The first element and the count of a relative range. *)
Definition range (b : bufv) (x y : num) : HM (Z * Z) :=
  s <- emitRelIndex x (BL b);; e <- emitRelIndex y (BL b);; mret (s, if gt_s e s then sub32 e s else 0).
Definition slice_ (e : BytesElem) (b : bufv) (x y : num) : HM bufv :=
  '(s, cnt) <- range b x y;;
  out <- alloc (zeros (scale e cnt));;
  copy_u (mkB out 0 cnt) 0 b (elem_addr e b s) (scale e cnt);;;
  mret (mkB out 0 cnt).
Definition subarray (e : BytesElem) (b : bufv) (x y : num) : HM bufv :=
  '(s, cnt) <- range b x y;; mret (mkB (ARR b) (elem_addr e b s) cnt).
Definition setFrom (e : BytesElem) (dst src : bufv) (offarg : num) : HM (outcome unit) :=
  let t := to_index offarg in
  if num_lt t (Fin 0) || num_lt (i2d (BL dst)) (num_add (i2d (BL src)) t) then mret (Throws BadOffset)
  else
    t <- of_option (trunc_s32 t);;
    copy_u dst (elem_addr e dst t) src (BO src) (scale e (BL src));;;
    mret (Done tt).
Definition drain_step (e : BytesElem) (b : bufv) (st : Z * list num) : HM (Z * list num + list num) :=
  let '(i, out) := st in
  if ge_s i (BL b) then mret (inr out) else x <- emitWidenElem e (ARR b) (elem_addr e b i);; mret (inl (add32 i 1, out ++ [x])).
Definition toArray (e : BytesElem) (b : bufv) : HM (list num) := loop (S (Z.to_nat (BL b))) (drain_step e b) (0, []).
Definition with_ (e : BytesElem) (b : bufv) (x val : num) : HM (outcome bufv) :=
  let rel := to_index x in
  let rel := if num_lt rel (Fin 0) then num_add (i2d (BL b)) rel else rel in
  if num_lt rel (Fin 0) || num_le (i2d (BL b)) rel then mret (Throws BadIndex)
  else
    i <- of_option (trunc_s32 rel);;
    out <- alloc (zeros (scale e (BL b)));;
    copy_u (mkB out 0 (BL b)) 0 b (BO b) (scale e (BL b));;;
    emitScatterElem e out (scale e i) val;;;
    mret (Done (mkB out 0 (BL b))).
Fixpoint move_bytes (b : bufv) (out : nat) (src dst : Z) (ks : list Z) : HM unit :=
  match ks with
  | [] => mret tt
  | k :: ks => x <- get_u b (add32 src k);; on out (put8 (add32 dst k) x);;; move_bytes b out src dst ks
  end.
Definition reverse_step (e : BytesElem) (b : bufv) (out : nat) (i : Z) : HM (Z + unit) :=
  if ge_s i (BL b) then mret (inr tt)
  else
    move_bytes b out (elem_addr e b (sub32 (sub32 (BL b) 1) i)) (scale e i) (upto (esize e));;;
    mret (inl (add32 i 1)).
Definition toReversed (e : BytesElem) (b : bufv) : HM bufv :=
  out <- alloc (zeros (scale e (BL b)));;
  loop (S (Z.to_nat (BL b))) (reverse_step e b out) 0;;;
  mret (mkB out 0 (BL b)).
Definition put_step (e : BytesElem) (b : bufv) (val : num) (hi i : Z) : HM (Z + unit) :=
  if ge_s i hi then mret (inr tt) else emitScatterElem e (ARR b) (elem_addr e b i) val;;; mret (inl (add32 i 1)).
Definition fillElem (e : BytesElem) (b : bufv) (val x y : num) : HM bufv :=
  lo <- emitRelIndex x (BL b);;
  hi <- emitRelIndex y (BL b);;
  loop (S (Z.to_nat (BL b))) (put_step e b val hi) lo;;;
  mret b.

Definition tests : list num := [num_of_Z 1; num_of_Z (-1); NaN; num_div (num_of_Z 1) (num_of_Z 10)].
Example sample_typed :
  (b <- fromArrLit EU8 tests;; toArray EU8 b) [] = (Val [num_of_Z 1; num_of_Z 255; Fin 0; Fin 0], [[1; 255; 0; 0]]) ∧
  (b <- fromArrLit EI32 tests;; r <- toReversed EI32 b;; v <- subarray EI32 r (num_of_Z (-2)) PInf;; _ <- fillElem EI32 v (num_of_Z 7) (num_of_Z 1) PInf;; toArray EI32 r) [] =
    (Val [Fin 0; Fin 0; num_of_Z (-1); num_of_Z 7], [[1;0;0;0;255;255;255;255;0;0;0;0;0;0;0;0]; [0;0;0;0;0;0;0;0;255;255;255;255;7;0;0;0]]) ∧
  (b <- fromArrLit EF32 tests;; r <- with_ EF32 b (num_of_Z (-1)) PInf;; match r with Done r => get EF32 r (num_of_Z 3) | Throws _ => trap end) [] =
    (Val PInf, [[0;0;128;63;0;0;128;191;0;0;192;127;205;204;204;61]; [0;0;128;63;0;0;128;191;0;0;192;127;0;0;128;127]]) ∧
  (b <- fromArrLit EU8 tests;; setFrom EU8 b (mkB 0 0 3) (num_of_Z 1)) [] = (Val (Done tt), [[1; 1; 255; 0]]) ∧
  (newLen EU32 (num_of_Z 536870912)) [] = (Trap, []) ∧ (newLen EU32 (num_of_Z (-1))) [] = (Val (Throws (BadArrayLength (num_of_Z (-1)))), []).
Proof. vm_compute. done. Qed.

(** ** Elements of a byte array *)

Definition base (e : BytesElem) : Z := 256 ^ esize e.
Definition esn (e : BytesElem) : nat := Z.to_nat (esize e).
(** The [n] elements from byte [o]. *)
Definition cells (e : BytesElem) (A : list Z) (o n : Z) : list Z :=
  map (λ i, le_val (slice A (o + esize e * Z.of_nat i) (esize e))) (seq 0 (Z.to_nat n)).
Definition enc_cells (e : BytesElem) (cs : list Z) : list Z := flat_map (λ c, low_bytes c (esn e)) cs.
Definition cell_ok (e : BytesElem) (c : Z) : Prop := 0 <= c < base e.

Lemma esize_cases e : esize e = 1 ∨ esize e = 4.
Proof. destruct e; auto. Qed.
Lemma esn_size e : Z.of_nat (esn e) = esize e.
Proof. by destruct e. Qed.
Lemma base_pos e : 0 < base e.
Proof. by destruct e. Qed.
Lemma scale_exact e i : 0 <= i → esize e * i < 2 ^ 32 → scale e i = esize e * i.
Proof. intros Hi Hl. unfold scale. destruct e; cbn [esize Z.ltb Z.compare Pos.compare Pos.compare_cont] in *; unfold mul32, to_uint32; rewrite ?Z.mod_small by lia; lia. Qed.

Lemma cells_length e A o n : 0 <= n → len (cells e A o n) = n.
Proof. intros. unfold cells. rewrite length_map, length_seq. lia. Qed.
Lemma cells_lookup e A o n (i : nat) : (i < Z.to_nat n)%nat → cells e A o n !! i = Some (le_val (slice A (o + esize e * Z.of_nat i) (esize e))).
Proof. intros Hi. unfold cells. by rewrite list_lookup_fmap, lookup_seq_lt by done. Qed.
Lemma cells_S e A o n : 0 <= n → cells e A o (n + 1) = cells e A o n ++ [le_val (slice A (o + esize e * n) (esize e))].
Proof. intros Hn. unfold cells. replace (Z.to_nat (n + 1)) with (S (Z.to_nat n)) by lia. rewrite seq_S, map_app. cbn [map Nat.add]. by rewrite Z2Nat.id by lia. Qed.
Lemma cells_sub e A o n s m : 0 <= s → 0 <= m → s + m <= n → cells e A (o + esize e * s) m = slice (cells e A o n) s m.
Proof.
  intros Hs Hm Hn. apply list_eq. intros i. unfold slice. destruct (decide (i < Z.to_nat m)%nat).
  - rewrite cells_lookup, lookup_take_lt, lookup_drop, cells_lookup by lia. do 3 f_equal. rewrite Nat2Z.inj_add, Z2Nat.id by lia. ring.
  - rewrite lookup_take_ge by lia. apply lookup_ge_None_2. pose proof (cells_length e A (o + esize e * s) m Hm). lia.
Qed.

Lemma enc_app e cs ds : enc_cells e (cs ++ ds) = enc_cells e cs ++ enc_cells e ds.
Proof. unfold enc_cells. apply flat_map_app. Qed.
Lemma enc_length e cs : len (enc_cells e cs) = esize e * len cs.
Proof. induction cs as [|c cs IH]; [cbn; lia|]. cbn [enc_cells flat_map]. fold (enc_cells e cs). rewrite length_app, low_bytes_length, Nat2Z.inj_add, IH, esn_size. cbn [length]. lia. Qed.
Lemma enc_bytes e cs : Forall byte (enc_cells e cs).
Proof. induction cs; [constructor|]. cbn [enc_cells flat_map]. apply Forall_app. split; [apply low_bytes_byte|done]. Qed.

Lemma le_val_low c e : cell_ok e c → le_val (low_bytes c (esn e)) = c.
Proof. intros Hc. rewrite low_bytes_value, esn_size. by apply Z.mod_small. Qed.
Lemma cells_ok e A o n : Forall byte A → 0 <= o → 0 <= n → o + esize e * n <= len A → Forall (cell_ok e) (cells e A o n).
Proof.
  intros Hb Ho Hn Hl. apply Forall_lookup. intros i c Hc. assert (Hi : (i < Z.to_nat n)%nat) by (apply lookup_lt_Some in Hc; pose proof (cells_length e A o n Hn); lia).
  rewrite cells_lookup in Hc by done. injection Hc as <-. pose proof (esize_cases e). pose proof (le_val_range (slice A (o + esize e * Z.of_nat i) (esize e))) as Hr.
  rewrite slice_length in Hr by nia. rewrite Z2Nat.id in Hr by lia. apply Hr. by apply Forall_take, Forall_drop.
Qed.

(** Bytes of a value that was read from bytes. *)
Lemma low_bytes_le bs : Forall byte bs → low_bytes (le_val bs) (length bs) = bs.
Proof.
  induction bs as [|b bs IH] using rev_ind; intros Hb; [done|]. apply Forall_app in Hb as [Hbs Hb]. inversion Hb; subst. unfold byte in *.
  rewrite length_app, Nat.add_1_r, low_bytes_S, le_val_snoc. pose proof (le_val_range bs Hbs) as Hr. set (P := 256 ^ len bs) in *.
  assert (HP : 0 < P) by (apply Z.pow_pos_nonneg; lia). f_equal.
  - rewrite <- (IH Hbs) at 3. unfold low_bytes. apply map_ext_in. intros i Hi. apply in_seq in Hi. rewrite !Z.shiftr_div_pow2 by lia.
    assert (E : P = 2 ^ (8 * Z.of_nat i) * (256 * 256 ^ (len bs - 1 - Z.of_nat i))).
    { unfold P. replace (2 ^ (8 * Z.of_nat i)) with (256 ^ Z.of_nat i) by (rewrite Z.pow_mul_r by lia; done). rewrite <- Z.pow_succ_r, <- Z.pow_add_r by lia. f_equal. lia. }
    rewrite E. rewrite (Z.mul_comm (2 ^ (8 * Z.of_nat i))), Z.mul_assoc, Z.div_add by (apply Z.pow_nonzero; lia).
    replace (b * (256 * 256 ^ (len bs - 1 - Z.of_nat i))) with (b * 256 ^ (len bs - 1 - Z.of_nat i) * 256) by ring. by rewrite Z.mod_add by lia.
  - rewrite Z.shiftr_div_pow2 by lia. replace (2 ^ (8 * len bs)) with P by (unfold P; rewrite Z.pow_mul_r by lia; done).
    rewrite Z.div_add, Z.div_small by lia. by rewrite Z.mod_small by lia.
Qed.

Lemma slice_cells e A o n : Forall byte A → 0 <= o → 0 <= n → o + esize e * n <= len A → slice A o (esize e * n) = enc_cells e (cells e A o n).
Proof.
  intros Hb Ho Hn. pose proof (esize_cases e) as He. pattern n. apply Zlt_0_ind; [|done]. clear n Hn. intros n IH Hn Hl. destruct (decide (n = 0)) as [->|]; [by rewrite Z.mul_0_r|].
  replace n with (n - 1 + 1) by lia. rewrite cells_S, enc_app, <- IH by nia. cbn [enc_cells flat_map]. rewrite app_nil_r.
  assert (Hs : length (slice A (o + esize e * (n - 1)) (esize e)) = esn e) by (rewrite slice_length by nia; done).
  rewrite <- Hs, low_bytes_le by (by apply Forall_take, Forall_drop). unfold slice. rewrite Z.mul_add_distr_l, Z.mul_1_r.
  rewrite Z2Nat.inj_add by nia. rewrite <- take_take_drop, drop_drop. do 3 f_equal. nia.
Qed.

Lemma slice_overwrite_inside A xs p q m : 0 <= p → p + len xs <= len A → p <= q → 0 <= m → q + m <= p + len xs → slice (overwrite A xs p) q m = slice xs (q - p) m.
Proof.
  intros Hp Hl Hq Hm Hm'. apply list_eq. intros j. unfold slice. destruct (decide (j < Z.to_nat m)%nat).
  - rewrite !lookup_take_lt, !lookup_drop, overwrite_lookup by lia. rewrite (proj2 (Z.leb_le _ _)), (proj2 (Z.ltb_lt _ _)) by lia. cbn [andb]. f_equal. lia.
  - rewrite !lookup_take_ge by lia. done.
Qed.

Lemma slice_enc e cs (i : nat) c : cs !! i = Some c → slice (enc_cells e cs) (esize e * Z.of_nat i) (esize e) = low_bytes c (esn e).
Proof.
  revert i. induction cs as [|d cs IH]; intros [|i] Hc; try done; cbn [enc_cells flat_map] in *; unfold slice; pose proof (esize_cases e).
  - injection Hc as ->. rewrite Z.mul_0_r. change (Z.to_nat 0) with 0%nat. rewrite drop_0. by rewrite take_app_length' by (by rewrite low_bytes_length).
  - replace (Z.to_nat (esize e * Z.of_nat (S i))) with (esn e + Z.to_nat (esize e * Z.of_nat i))%nat by (unfold esn; nia).
    rewrite <- drop_drop. rewrite drop_app_length' by (by rewrite low_bytes_length). by apply IH.
Qed.

(** Writing encoded elements over bytes writes the elements. *)
Lemma overwrite_cells e A cs o n t : Forall (cell_ok e) cs → 0 <= o → 0 <= t → t + len cs <= n → o + esize e * n <= len A →
  cells e (overwrite A (enc_cells e cs) (o + esize e * t)) o n = overwrite (cells e A o n) cs t.
Proof.
  intros Hcs Ho Ht Htn Hl. pose proof (esize_cases e) as He. pose proof (enc_length e cs) as HE. pose proof (cells_length e A o n ltac:(lia)) as HC. apply list_eq. intros i.
  destruct (decide (i < Z.to_nat n)%nat) as [Hi|Hi].
  - rewrite cells_lookup, overwrite_lookup by (done || lia). destruct ((t <=? Z.of_nat i) && (Z.of_nat i <? t + len cs)) eqn:Ein.
    + apply andb_true_iff in Ein as [E1 E2]. zb. rewrite slice_overwrite_inside by nia.
      destruct (lookup_lt_is_Some_2 cs (i - Z.to_nat t)) as [c Hc]; [lia|]. rewrite Hc. f_equal.
      replace (o + esize e * Z.of_nat i - (o + esize e * t)) with (esize e * Z.of_nat (i - Z.to_nat t)) by nia. rewrite (slice_enc e cs _ c Hc).
      apply le_val_low. by eapply Forall_lookup_1 in Hcs.
    + rewrite cells_lookup by done. rewrite slice_overwrite_other; [done|nia|nia|nia|]. apply andb_false_iff in Ein as [E|E]; zb; nia.
  - rewrite !lookup_ge_None_2; [done| |]; [rewrite <- Nat2Z.id, overwrite_length by lia; lia|]. pose proof (cells_length e (overwrite A (enc_cells e cs) (o + esize e * t)) o n ltac:(lia)). lia.
Qed.

Lemma overwrite_app A xs ys p : 0 <= p → p + len (xs ++ ys) <= len A → overwrite (overwrite A xs p) ys (p + len xs) = overwrite A (xs ++ ys) p.
Proof.
  intros Hp Hl. rewrite length_app in Hl. apply list_eq. intros j. rewrite !overwrite_lookup by (rewrite ?length_app, ?overwrite_length by lia; lia). rewrite length_app.
  destruct (Z.leb_spec (p + len xs) (Z.of_nat j)), (Z.ltb_spec (Z.of_nat j) (p + len xs + len ys)), (Z.leb_spec p (Z.of_nat j)),
    (Z.ltb_spec (Z.of_nat j) (p + len xs)), (Z.ltb_spec (Z.of_nat j) (p + Z.of_nat (length xs + length ys))); cbn [andb]; try lia; try done.
  - rewrite lookup_app_r by lia. f_equal. lia.
  - by rewrite lookup_app_l by lia.
Qed.

Lemma low_bytes_mod c (w : nat) : low_bytes (c mod 256 ^ Z.of_nat w) w = low_bytes c w.
Proof.
  unfold low_bytes. apply map_ext_in. intros i Hi. apply in_seq in Hi. rewrite !Z.shiftr_div_pow2 by lia. change 256 with (2 ^ 8). rewrite <- Z.pow_mul_r by lia.
  rewrite <- (Z.land_ones (_ / _)), <- (Z.land_ones c), <- (Z.land_ones (c / _)) by lia. rewrite <- !Z.shiftr_div_pow2 by lia. apply Z.bits_inj'. intros k Hk.
  rewrite !Z.land_spec, !Z.shiftr_spec, Z.land_spec by lia. destruct (decide (k < 8)).
  - rewrite !Z.ones_spec_low by lia. by rewrite andb_true_r.
  - rewrite (Z.ones_spec_high 8) by lia. by rewrite !andb_false_r.
Qed.

Lemma zeros_enc e n : 0 <= n → zeros (esize e * n) = enc_cells e (zeros n).
Proof.
  intros Hn. unfold zeros. replace (Z.to_nat (esize e * n)) with (esn e * Z.to_nat n)%nat by (unfold esn; pose proof (esize_cases e); nia). clear Hn. induction (Z.to_nat n) as [|m IH]; [by rewrite Nat.mul_0_r|].
  replace (esn e * S m)%nat with (esn e + esn e * m)%nat by lia. rewrite replicate_add, IH. cbn [replicate enc_cells flat_map]. f_equal. by destruct e.
Qed.

(** ** Views of the heap *)

Record vok (e : BytesElem) (h : heap) (b : bufv) : Prop := mkVok {
  vok_array : h !! ARR b = Some (array_of h b);
  vok_bytes : Forall byte (array_of h b);
  vok_off : 0 <= BO b;
  vok_len : 0 <= BL b;
  vok_size : esize e * BL b < 2 ^ 31 - 8;
  vok_fits : BO b + esize e * BL b <= len (array_of h b) < 2 ^ 32
}.
(** The elements of a view, as bit patterns. *)
Definition elems (e : BytesElem) (h : heap) (b : bufv) : list Z := cells e (array_of h b) (BO b) (BL b).
(** The pattern a value is stored as. *)
Definition stored (e : BytesElem) (val : num) : Z := coerce e val mod base e.

Lemma elems_length e h b : vok e h b → len (elems e h b) = BL b.
Proof. intros Hv. apply cells_length, (vok_len _ _ _ Hv). Qed.
Lemma stored_ok e val : cell_ok e (stored e val).
Proof. apply Z.mod_pos_bound, base_pos. Qed.
Lemma stored_bytes e val : low_bytes (coerce e val) (esn e) = enc_cells e [stored e val].
Proof. unfold stored, base, enc_cells. cbn [flat_map]. rewrite app_nil_r, <- esn_size. by rewrite low_bytes_mod. Qed.
Lemma BL_bound e h b : vok e h b → BL b < 2 ^ 31 - 8.
Proof. intros [_ _ _ ? ? _]. pose proof (esize_cases e). nia. Qed.

Lemma elem_addr_exact e h b i : vok e h b → 0 <= i <= BL b → elem_addr e b i = BO b + esize e * i.
Proof. intros [_ _ ? ? ? ?] Hi. pose proof (esize_cases e). unfold elem_addr. rewrite scale_exact, add32_id by nia. done. Qed.

Lemma on_run {A} k (m : SM A) (h : heap) a r a' : h !! k = Some a → m a = (Val r, a') → on k m h = (Val r, <[k := a']> h).
Proof. intros Hk Hm. unfold on. by rewrite Hk, Hm. Qed.

Lemma overwrite_one A x p : 0 <= p < len A → overwrite A [x] p = <[Z.to_nat p := x]> A.
Proof.
  intros Hp. rewrite insert_take_drop by lia. unfold overwrite. cbn [length]. do 3 f_equal. lia.
Qed.

Lemma widen_at e k p A (h : heap) : h !! k = Some A → Forall byte A → len A < 2 ^ 32 → 0 <= p → p + esize e <= len A →
  emitWidenElem e k p h = (Val (value_of e (le_val (slice A p (esize e)))), h).
Proof.
  intros Hk Hb Hl Hp Hpe. unfold emitWidenElem, mbind. assert (Hin : <[k := A]> h = h) by (by apply list_insert_id).
  assert (E : on k (if 1 <? esize e then assemble 32 true 4 p (upto 4) 0 else get8 p) h = (Val (le_val (slice A p (esize e))), h)).
  { rewrite <- Hin at 2. apply on_run with A; [done|]. assert (H4 : esize e = 4 → assemble 32 true 4 p (upto 4) 0 A = (Val (le_val (slice A p 4)), A)) by (intros E4; rewrite E4 in Hpe; rewrite load_bytes by (done || lia); done).
    destruct e; cbn [esize Z.ltb Z.compare Pos.compare Pos.compare_cont] in *; try (by apply H4). unfold get8, aget. rewrite (proj2 (Z.ltb_ge _ _)) by lia.
    destruct (lookup_lt_is_Some_2 A (Z.to_nat p)) as [x Hx]; [lia|]. rewrite Hx. do 2 f_equal. unfold slice. rewrite (drop_S _ x) by done. change (x = x + 256 * 0). lia. }
  by rewrite E.
Qed.

Lemma scatter_at e k p val A (h : heap) : h !! k = Some A → Forall byte A → len A < 2 ^ 32 → 0 <= p → p + esize e <= len A →
  emitScatterElem e k p val h = (Val tt, <[k := overwrite A (enc_cells e [stored e val]) p]> h).
Proof.
  intros Hk Hb Hl Hp Hpe. rewrite <- stored_bytes. unfold emitScatterElem. apply on_run with A; [done|].
  assert (H4 : esize e = 4 → scatter true 4 p (coerce e val) (upto 4) A = (Val tt, overwrite A (low_bytes (coerce e val) 4) p)) by (intros E4; rewrite E4 in Hpe; rewrite store_bytes by (done || lia); done).
  destruct e; cbn [esize Z.ltb Z.compare Pos.compare Pos.compare_cont] in *; try (by apply H4). unfold put8, aset.
  rewrite (proj2 (Z.ltb_ge _ _)), (proj2 (Z.leb_gt _ _)) by lia. cbn [orb]. do 2 f_equal. unfold esn. change (Z.to_nat (esize EU8)) with 1%nat. cbn [low_bytes seq map].
  rewrite Z.shiftr_0_r. by rewrite overwrite_one by lia.
Qed.

(** ** Indices *)

(** The element an index names: an integer in range. *)
Definition index_of (x : num) (n : Z) : option Z :=
  match x with
  | NZero => if 0 <? n then Some 0 else None
  | Fin k => if (k mod ONE =? 0) && ((0 <=? k / ONE) && (k / ONE <? n)) then Some (k / ONE) else None
  | _ => None
  end.
(** A relative index, clamped. *)
Definition rel_index (x : num) (n : Z) : Z :=
  match to_integer x with
  | Some j => if j <? 0 then Z.max 0 (n + j) else Z.min j n
  | None => match x with PInf => n | _ => 0 end
  end.

Lemma index_of_Some x n i : index_of x n = Some i → is_int x i ∧ 0 <= i < n.
Proof.
  destruct x as [| | | |k]; cbn [index_of]; intros H; try done.
  - destruct (Z.ltb_spec 0 n); [|done]. injection H as <-. split; [by right|lia].
  - destruct (_ && _) eqn:E; [|done]. injection H as <-. apply andb_true_iff in E as [E1 E2]. apply andb_true_iff in E2 as [E2 E3]. zb.
    split; [|lia]. left. f_equal. pose proof (Z.div_mod k ONE). pose proof ONE_pos. lia.
Qed.
Lemma index_of_int x n i : is_int x i → index_of x n = if (0 <=? i) && (i <? n) then Some i else None.
Proof.
  intros [->|[-> ->]]; cbn [index_of]; [|done]. pose proof ONE_pos. by rewrite Z.mod_mul, Z.div_mul by lia.
Qed.

Lemma i2d_pred n : 0 <= n < 2 ^ 31 → i2d (sub32 n 1) = Fin ((n - 1) * ONE).
Proof.
  intros Hn. unfold i2d. assert (E : to_int32 (sub32 n 1) = n - 1) by (apply sub32_signed; lia). rewrite E. apply num_of_Z_exact. lia.
Qed.

Lemma index_check_run x n (h : heap) : 0 <= n < 2 ^ 31 →
  emitIndexCheck x (i2d (sub32 n 1)) h = (match index_of x n with Some i => Val i | None => Trap end, h).
Proof.
  intros Hn. unfold emitIndexCheck. rewrite i2d_pred by done. destruct (num_eq (math_trunc x) x) eqn:Ei; cbn [negb].
  - apply integral_spec in Ei as [->|[->|(i & Hi)]].
    + change (num_lt PInf (Fin 0)) with false. cbv iota. destruct (scaled_infinities (n - 1)) as [-> _]; [lia|done].
    + destruct (scaled_infinities 0) as [_ ->]; [done|done].
    + rewrite (index_of_int x n i) by done. destruct (is_int_lt x i 0 Hi) as [H0 _]. change (Fin (0 * ONE)) with (Fin 0) in H0. rewrite H0. destruct (is_int_lt x i (n - 1) Hi) as [_ ->].
      destruct (Z.ltb_spec i 0); [by rewrite (proj2 (Z.leb_gt 0 i)) by lia|]. rewrite (proj2 (Z.leb_le 0 i)) by lia. destruct (Z.ltb_spec (n - 1) i).
      * by rewrite (proj2 (Z.ltb_ge i n)) by lia.
      * rewrite (proj2 (Z.ltb_lt i n)), (trunc_s32_int x i) by (done || lia). done.
  - destruct (index_of x n) as [i|] eqn:Ex; [|done]. apply index_of_Some in Ex as [Hi _]. rewrite (is_int_integral x i Hi) in Ei. done.
Qed.

Lemma add_below j n : 0 <= n < 2 ^ 31 → j < 0 → let x := num_add (i2d n) (Fin (j * ONE)) in
  if j + n <? 0 then num_lt x (Fin 0) = true else x = Fin ((j + n) * ONE).
Proof.
  intros Hn Hj. pose proof (int_add_below j n Hn Hj) as H. rewrite i2d_small in * by done. cbv zeta; cbn [num_add key] in *. rewrite (Z.add_comm (n * ONE)). exact H.
Qed.

Lemma rel_index_run x n (h : heap) : 0 <= n < 2 ^ 31 → emitRelIndex x n h = (Val (rel_index x n), h).
Proof.
  intros Hn. unfold emitRelIndex, rel_index. destruct (to_integer x) as [j|] eqn:Ej.
  - pose proof (to_index_int x j Ej) as Hj. destruct (is_int_lt _ j 0 Hj) as [H0 _]. change (Fin (0 * ONE)) with (Fin 0) in H0. rewrite H0.
    destruct (Z.ltb_spec j 0) as [Hneg|Hpos].
    + destruct Hj as [E|[_ E]]; [|lia]. rewrite E. pose proof (add_below j n Hn Hneg) as Ha. cbv zeta in Ha. destruct (Z.ltb_spec (j + n) 0).
      * rewrite Ha. by rewrite Z.max_l by lia.
      * rewrite Ha, (i2d_small n) by done. change (Fin 0) with (Fin (0 * ONE)). rewrite num_lt_scaled, num_le_scaled. rewrite (proj2 (Z.ltb_ge (j + n) 0)), (proj2 (Z.leb_gt n (j + n))) by lia.
        rewrite (trunc_s32_int _ (j + n)) by (by left || lia). rewrite Z.max_r by lia. by rewrite Z.add_comm.
    + rewrite H0, (i2d_small n) by done. destruct (is_int_le _ j n Hj) as [_ ->]. destruct (Z.leb_spec n j); [by rewrite Z.min_r by lia|].
      rewrite (trunc_s32_int _ j Hj) by lia. by rewrite Z.min_l by lia.
  - destruct (to_index_inf x Ej) as [E [->| ->]]; rewrite <- E.
    + change (num_lt PInf (Fin 0)) with false. cbv iota. change (num_lt PInf (Fin 0)) with false. cbv iota. rewrite i2d_small by done.
      destruct (repr_int n) as [Hr _]; [lia|]. pose proof MAXK_pos. unfold num_le. cbn [is_nan negb andb key]. rewrite (proj2 (Z.leb_le _ _)) by lia. done.
    + destruct (scaled_infinities 0) as [_ H0]; [done|]. rewrite H0, i2d_small by done. cbn [num_add]. by rewrite H0.
Qed.
Lemma rel_index_range x n : 0 <= n → 0 <= rel_index x n <= n.
Proof. intros Hn. unfold rel_index. destruct (to_integer x) as [j|]; [|destruct x; lia]. destruct (Z.ltb_spec j 0); lia. Qed.

(** The window of a relative range: its first element and its count. *)
Definition rel_range (b : bufv) (x y : num) : Z * Z := let s := rel_index x (BL b) in (s, Z.max 0 (rel_index y (BL b) - s)).
Lemma range_run b x y (h : heap) : 0 <= BL b < 2 ^ 31 → range b x y h = (Val (rel_range b x y), h).
Proof.
  intros Hb. unfold range, rel_range, mbind, mret. rewrite !rel_index_run by done. pose proof (rel_index_range x (BL b)). pose proof (rel_index_range y (BL b)).
  rewrite gt_s_small by lia. destruct (Z.ltb_spec (rel_index x (BL b)) (rel_index y (BL b))); [rewrite sub32_id by lia; by rewrite Z.max_r by lia|by rewrite Z.max_l by lia].
Qed.

(** ** Writes to a view, and fresh views *)

(** The heap after writing [cs] over the elements of [b] from [t]. *)
Definition write (e : BytesElem) (h : heap) (b : bufv) (cs : list Z) (t : Z) : heap :=
  <[ARR b := overwrite (array_of h b) (enc_cells e cs) (BO b + esize e * t)]> h.

Lemma write_length e h b cs t : vok e h b → 0 <= t → t + len cs <= BL b → length (overwrite (array_of h b) (enc_cells e cs) (BO b + esize e * t)) = length (array_of h b).
Proof. intros [_ _ ? ? ? ?] Ht Hl. pose proof (esize_cases e). apply overwrite_length; rewrite ?enc_length; nia. Qed.

Lemma array_of_insert (h : heap) k A b : h !! ARR b = Some (array_of h b) → array_of (<[k := A]> h) b = if decide (k = ARR b) then A else array_of h b.
Proof.
  intros Hb. destruct (decide (k = ARR b)) as [->|Hne]; [|by apply array_of_insert_ne]. unfold array_of. rewrite list_lookup_insert_eq; [done|]. by apply lookup_lt_Some in Hb.
Qed.

(** Views stay views under a write to any of them. *)
Lemma write_vok e h b cs t e' b' : vok e h b → 0 <= t → t + len cs <= BL b → vok e' h b' → vok e' (write e h b cs t) b'.
Proof.
  intros Hb Ht Hl Hb'. pose proof (write_length e h b cs t Hb Ht Hl) as HL. pose proof (vok_array _ _ _ Hb) as Ha. destruct Hb' as [P1 P2 P3 P4 P5 P6]. unfold write.
  assert (E : array_of (<[ARR b := overwrite (array_of h b) (enc_cells e cs) (BO b + esize e * t)]> h) b' =
    if decide (ARR b = ARR b') then overwrite (array_of h b) (enc_cells e cs) (BO b + esize e * t) else array_of h b') by (by apply array_of_insert).
  split; try done; rewrite E; destruct (decide (ARR b = ARR b')) as [Eq|Hne]; try done.
  - rewrite Eq. apply list_lookup_insert_eq. by apply lookup_lt_Some in P1.
  - rewrite list_lookup_insert_ne by done. done.
  - apply overwrite_bytes; [apply (vok_bytes _ _ _ Hb)|apply enc_bytes].
  - assert (array_of h b = array_of h b') as Eh by (unfold array_of; by rewrite Eq). rewrite HL, Eh. done.
Qed.

Lemma write_elems e h b cs t : vok e h b → Forall (cell_ok e) cs → 0 <= t → t + len cs <= BL b → elems e (write e h b cs t) b = overwrite (elems e h b) cs t.
Proof.
  intros Hb Hcs Ht Hl. unfold elems, write. rewrite array_of_insert, decide_True by (done || apply (vok_array _ _ _ Hb)).
  apply overwrite_cells; [done|apply (vok_off _ _ _ Hb)|done|done|]. apply (vok_fits _ _ _ Hb).
Qed.

(** A new array of encoded elements, and the view of the whole of it. *)
Definition fresh (h : heap) (cs : list Z) : bufv := mkB (length h) 0 (len cs).
Definition extend (e : BytesElem) (h : heap) (cs : list Z) : heap := h ++ [enc_cells e cs].

Lemma array_of_extend (h : heap) A b : h !! ARR b = Some (array_of h b) → array_of (h ++ [A]) b = array_of h b.
Proof. intros Hb. unfold array_of. by rewrite lookup_app_l by (by apply lookup_lt_Some in Hb). Qed.
Lemma fresh_array e h cs : array_of (extend e h cs) (fresh h cs) = enc_cells e cs.
Proof. unfold array_of, extend, fresh. cbn [ARR]. by rewrite lookup_app_r, Nat.sub_diag by lia. Qed.

Lemma cells_enc e cs : Forall (cell_ok e) cs → cells e (enc_cells e cs) 0 (len cs) = cs.
Proof.
  intros Hcs. apply list_eq. intros i. destruct (decide (i < length cs)%nat) as [Hi|Hi].
  - rewrite cells_lookup by lia. destruct (lookup_lt_is_Some_2 cs i Hi) as [c Hc]. rewrite Hc, Z.add_0_l, (slice_enc e cs i c Hc). f_equal. apply le_val_low. by eapply Forall_lookup_1 in Hcs.
  - rewrite !lookup_ge_None_2; [done|lia|]. pose proof (cells_length e (enc_cells e cs) 0 (len cs)). lia.
Qed.

Lemma fresh_ok e h cs : Forall (cell_ok e) cs → esize e * len cs < 2 ^ 31 - 8 → vok e (extend e h cs) (fresh h cs) ∧ elems e (extend e h cs) (fresh h cs) = cs.
Proof.
  intros Hcs Hl. split; [|unfold elems; rewrite fresh_array; by apply cells_enc]. pose proof (enc_length e cs). split; rewrite ?fresh_array; cbn [ARR BO BL fresh]; try lia; [|apply enc_bytes].
  unfold extend. rewrite lookup_app_r, Nat.sub_diag by lia. done.
Qed.
Lemma extend_vok e h cs e' b : vok e' h b → vok e' (extend e h cs) b ∧ elems e' (extend e h cs) b = elems e' h b.
Proof.
  intros [P1 P2 P3 P4 P5 P6]. unfold extend. split; [|unfold elems; by rewrite array_of_extend]. split; rewrite ?array_of_extend by done; try done.
  by rewrite lookup_app_l by (by apply lookup_lt_Some in P1).
Qed.

(** ** Element access *)

Lemma widen_elem e h b i : vok e h b → 0 <= i < BL b → emitWidenElem e (ARR b) (elem_addr e b i) h = (Val (value_of e (default 0 (elems e h b !! Z.to_nat i))), h).
Proof.
  intros Hb Hi. pose proof (BL_bound e h b Hb). rewrite (elem_addr_exact e h b) by (done || lia). destruct Hb as [P1 P2 P3 P4 P5 P6]. pose proof (esize_cases e).
  rewrite (widen_at e _ _ (array_of h b)) by (done || nia). unfold elems. rewrite cells_lookup by lia. cbn [default]. by rewrite Z2Nat.id by lia.
Qed.
Lemma scatter_elem e h b i val : vok e h b → 0 <= i < BL b → emitScatterElem e (ARR b) (elem_addr e b i) val h = (Val tt, write e h b [stored e val] i).
Proof.
  intros Hb Hi. rewrite (elem_addr_exact e h b) by (done || lia). destruct Hb as [P1 P2 P3 P4 P5 P6]. pose proof (esize_cases e).
  rewrite (scatter_at e _ _ val (array_of h b)) by (done || nia). done.
Qed.

Lemma get_exact e h b x : vok e h b →
  get e b x h = (match index_of x (BL b) with Some i => Val (value_of e (default 0 (elems e h b !! Z.to_nat i))) | None => Trap end, h).
Proof.
  intros Hb. pose proof (BL_bound e h b Hb). unfold get, mbind. pose proof (vok_len _ _ _ Hb). rewrite index_check_run by lia. destruct (index_of x (BL b)) as [i|] eqn:Ei; [|done].
  apply index_of_Some in Ei as [_ Hi]. by apply widen_elem.
Qed.
Lemma set_exact e h b x val : vok e h b →
  setElem e b x val h = match index_of x (BL b) with Some i => (Val tt, write e h b [stored e val] i) | None => (Trap, h) end.
Proof.
  intros Hb. pose proof (BL_bound e h b Hb). unfold setElem, mbind. pose proof (vok_len _ _ _ Hb). rewrite index_check_run by lia. destruct (index_of x (BL b)) as [i|] eqn:Ei; [|done].
  apply index_of_Some in Ei as [_ Hi]. by apply scatter_elem.
Qed.

(** What a value reads back as: ToUint8, ToUint32, ToInt32, fround. *)
Definition convert (e : BytesElem) (val : num) : num :=
  match e with
  | EU8 => num_of_Z (num_to_uint32 val mod 256)
  | EU32 => num_of_Z (num_to_uint32 val)
  | EI32 => num_of_Z (num_to_int32 val)
  | EF32 => fround val
  end.

Lemma value_stored e val : wf_num val → value_of e (stored e val) = convert e val.
Proof.
  intros Hv. unfold stored, base, coerce. destruct e; cbn [value_of convert esize]; rewrite ?toInt32_exact by done; change (256 ^ 1) with 256; change (256 ^ 4) with (2 ^ 32).
  - done.
  - unfold num_to_uint32, to_uint32. by rewrite Z.mod_mod.
  - unfold i2d, num_to_uint32, num_to_int32, to_uint32, to_int32. f_equal. by rewrite Z.mod_mod, Zplus_mod_idemp_l by done.
  - rewrite Z.mod_small by apply demote_range. apply promote_demote.
Qed.

(** C25. An index names an element exactly when it is an integer from 0 below the
    length; reading or writing any other traps.  Writing converts the value as
    ECMAScript does for the element kind, so that reading it back gives the
    converted value, keeps the other elements of the view, and touches no other
    array. *)
Theorem element_access (e : BytesElem) (h : heap) (b : bufv) (x val : num) : vok e h b → wf_num val →
  match index_of x (BL b) with
  | None => get e b x h = (Trap, h) ∧ setElem e b x val h = (Trap, h)
  | Some i => is_int x i ∧ 0 <= i < BL b ∧ ∃ h', setElem e b x val h = (Val tt, h') ∧ vok e h' b ∧ get e b x h' = (Val (convert e val), h') ∧
      elems e h' b = <[Z.to_nat i := stored e val]> (elems e h b) ∧ ∀ k, k ≠ ARR b → h' !! k = h !! k
  end.
Proof.
  intros Hb Hval. pose proof (get_exact e h b x Hb) as Hg. pose proof (set_exact e h b x val Hb) as Hs. destruct (index_of x (BL b)) as [i|] eqn:Ei; [|done].
  pose proof (index_of_Some _ _ _ Ei) as [Hi Hr]. split; [done|]. split; [done|]. pose proof (elems_length e h b Hb) as HL.
  assert (Hc : Forall (cell_ok e) [stored e val]) by (constructor; [apply stored_ok|done]). assert (Hlen : i + len [stored e val] <= BL b) by (cbn; lia).
  exists (write e h b [stored e val] i). split; [done|]. assert (Hb' : vok e (write e h b [stored e val] i) b) by (apply write_vok; done || lia).
  assert (He : elems e (write e h b [stored e val] i) b = <[Z.to_nat i := stored e val]> (elems e h b)) by (rewrite write_elems, overwrite_one by (done || lia); done).
  split; [done|]. split; [|split; [done|]].
  - rewrite (get_exact e _ b x Hb'), Ei, He. rewrite list_lookup_insert_eq by lia. cbn [from_option id]. by rewrite value_stored.
  - intros k Hk. unfold write. apply list_lookup_insert_ne. congruence.
Qed.

(** ** Copies *)

Lemma alloc_run (h : heap) A : alloc A h = (Val (length h), h ++ [A]).
Proof. done. Qed.
Lemma zeros_ok e n : Forall (cell_ok e) (zeros n).
Proof. unfold zeros. apply Forall_replicate. split; [lia|apply base_pos]. Qed.
Lemma zeros_length n : 0 <= n → len (zeros n) = n.
Proof. intros. unfold zeros. rewrite length_replicate. lia. Qed.
Lemma overwrite_all A xs : len xs = len A → overwrite A xs 0 = xs.
Proof. intros H. unfold overwrite. rewrite drop_ge by lia. cbn [take]. by rewrite app_nil_r. Qed.

(** [array.copy] of elements [s, s+n) of a view into another array. *)
Lemma copy_run e h b dst di s n D : vok e h b → h !! ARR dst = Some D → 0 <= s → 0 <= n → s + n <= BL b → 0 <= di → di + esize e * n <= len D →
  copy_u dst di b (BO b + esize e * s) (esize e * n) h = (Val tt, <[ARR dst := overwrite D (enc_cells e (slice (elems e h b) s n)) di]> h).
Proof.
  intros Hb HD Hs Hn Hl Hdi Hd. pose proof (esize_cases e) as He. destruct Hb as [P1 P2 P3 P4 P5 P6]. unfold copy_u. rewrite HD, P1. unfold acopy.
  rewrite !(proj2 (Z.ltb_ge _ _)) by nia. cbn [orb]. do 2 f_equal. unfold elems. rewrite <- cells_sub, <- slice_cells by (done || nia).
  unfold overwrite. rewrite slice_length by nia. rewrite Z2Nat.id by nia. done.
Qed.

Lemma slice_cells_ok e h b s n : vok e h b → Forall (cell_ok e) (slice (elems e h b) s n).
Proof. intros [P1 P2 P3 P4 P5 P6]. apply Forall_take, Forall_drop, cells_ok; done || lia. Qed.
Lemma elems_ok e h b : vok e h b → Forall (cell_ok e) (elems e h b).
Proof. intros [P1 P2 P3 P4 P5 P6]. apply cells_ok; done || lia. Qed.

(** A copy of elements into a new array of their length. *)
Lemma fresh_copy e h b s n : vok e h b → 0 <= s → 0 <= n → s + n <= BL b →
  copy_u (mkB (length h) 0 n) 0 b (BO b + esize e * s) (esize e * n) (h ++ [zeros (esize e * n)]) = (Val tt, extend e h (slice (elems e h b) s n)).
Proof.
  intros Hb Hs Hn Hl. pose proof (esize_cases e). rewrite zeros_enc by done. change (h ++ [enc_cells e (zeros n)]) with (extend e h (zeros n)). destruct (extend_vok e h (zeros n) e b Hb) as [Hb' He'].
  pose proof (enc_length e (zeros n)) as HE. rewrite zeros_length in HE by done. pose proof (elems_length e h b Hb) as HL.
  rewrite (copy_run e _ b _ 0 s n (enc_cells e (zeros n))); [|done|cbn [ARR]; unfold extend; rewrite lookup_app_r, Nat.sub_diag by lia; done|lia|lia|lia|lia|lia].
  rewrite He', overwrite_all; [|rewrite enc_length, HE; unfold slice; rewrite length_take, length_drop; nia]. cbn [ARR]. unfold extend. f_equal.
  rewrite insert_app_r_alt, Nat.sub_diag by lia. done.
Qed.

Lemma rel_range_bounds b x y : 0 <= BL b → let '(s, n) := rel_range b x y in 0 <= s ∧ 0 <= n ∧ s + n <= BL b.
Proof. intros Hb. unfold rel_range. pose proof (rel_index_range x (BL b) Hb). pose proof (rel_index_range y (BL b) Hb). lia. Qed.
Lemma range_elems_length e h b s n : vok e h b → 0 <= s → 0 <= n → s + n <= BL b → len (slice (elems e h b) s n) = n.
Proof. intros Hb Hs Hn Hl. pose proof (elems_length e h b Hb). unfold slice. rewrite length_take, length_drop. lia. Qed.

Lemma slice_exact e h b x y : vok e h b → let '(s, n) := rel_range b x y in let cs := slice (elems e h b) s n in
  slice_ e b x y h = (Val (fresh h cs), extend e h cs).
Proof.
  intros Hb. pose proof (BL_bound e h b Hb). pose proof (vok_len _ _ _ Hb) as H0. pose proof (esize_cases e). pose proof (vok_size _ _ _ Hb). pose proof (rel_range_bounds b x y H0) as Hr. unfold slice_.
  unfold mbind at 1. rewrite range_run by lia. destruct (rel_range b x y) as [s n]. destruct Hr as (Hs & Hn & Hl). unfold mbind, alloc. rewrite scale_exact, (elem_addr_exact e h b) by (done || nia).
  rewrite (fresh_copy e h b s n) by done. unfold fresh. by rewrite (range_elems_length e h b s n) by done.
Qed.

Lemma subarray_exact e h b x y : vok e h b → let '(s, n) := rel_range b x y in let b' := mkB (ARR b) (BO b + esize e * s) n in
  subarray e b x y h = (Val b', h) ∧ vok e h b' ∧ elems e h b' = slice (elems e h b) s n.
Proof.
  intros Hb. pose proof (BL_bound e h b Hb). pose proof (vok_len _ _ _ Hb) as H0. pose proof (esize_cases e). pose proof (rel_range_bounds b x y H0) as Hr. unfold subarray.
  unfold mbind at 1. rewrite range_run by lia. destruct (rel_range b x y) as [s n]. destruct Hr as (Hs & Hn & Hl). rewrite (elem_addr_exact e h b) by (done || lia). split; [done|].
  destruct Hb as [P1 P2 P3 P4 P5 P6]. split; [split; cbn [ARR BO BL]; try done; try nia; try (unfold array_of in *; cbn [ARR]; done || nia)|].
  exact (cells_sub e (array_of h b) (BO b) (BL b) s n Hs Hn Hl).
Qed.

Lemma setFrom_exact e h dst src offarg : vok e h dst → vok e h src →
  setFrom e dst src offarg h =
    match to_integer offarg with
    | Some t => if (0 <=? t) && (t + BL src <=? BL dst) then (Val (Done tt), write e h dst (elems e h src) t) else (Val (Throws BadOffset), h)
    | None => (Val (Throws BadOffset), h)
    end.
Proof.
  intros Hd Hs. pose proof (BL_bound e h dst Hd). pose proof (BL_bound e h src Hs). pose proof (vok_len _ _ _ Hd). pose proof (vok_len _ _ _ Hs). pose proof (esize_cases e) as He.
  unfold setFrom. rewrite !i2d_small by lia. destruct (to_integer offarg) as [t|] eqn:Et.
  - pose proof (to_index_int offarg t Et) as Ht. destruct (is_int_lt _ t 0 Ht) as [E0 _]. change (Fin (0 * ONE)) with (Fin 0) in E0. rewrite E0.
    destruct (Z.ltb_spec t 0) as [Hneg|Hpos]; cbn [orb]; [by rewrite (proj2 (Z.leb_gt 0 t)) by lia|]. rewrite (proj2 (Z.leb_le 0 t)) by lia. cbn [andb].
    assert (Hc : num_add (Fin (BL src * ONE)) (to_index offarg) = num_add (to_index offarg) (Fin (BL src * ONE))).
    { destruct Ht as [->|[-> _]]; cbn [num_add]; f_equal; lia. }
    rewrite Hc, (add_above _ t) by (done || lia). destruct (Z.ltb_spec (BL dst) (t + BL src)); [by rewrite (proj2 (Z.leb_gt _ _)) by lia|]. rewrite (proj2 (Z.leb_le _ _)) by lia.
    unfold mbind. rewrite (trunc_s32_int _ t Ht) by lia. cbn [of_option]. unfold mret at 1. rewrite (elem_addr_exact e h dst) by (done || lia). pose proof (vok_size _ _ _ Hs). rewrite scale_exact by nia.
    pose proof (vok_fits _ _ _ Hd). pose proof (vok_off _ _ _ Hd). pose proof (vok_size _ _ _ Hd).
    assert (Ec : copy_u dst (BO dst + esize e * t) src (BO src) (esize e * BL src) h = (Val tt, write e h dst (elems e h src) t)).
    { replace (BO src) with (BO src + esize e * 0) by lia. rewrite (copy_run e h src dst _ 0 (BL src) (array_of h dst)) by (done || nia || apply (vok_array _ _ _ Hd)).
      unfold write. do 4 f_equal. unfold slice. change (Z.to_nat 0) with 0%nat. rewrite drop_0. apply firstn_all2. pose proof (elems_length e h src Hs). lia. }
    by rewrite Ec.
  - destruct (to_index_inf offarg Et) as [E [->| ->]]; rewrite <- E; cbn [num_add].
    + destruct (scaled_infinities (BL dst)) as [-> _]; [lia|]. by rewrite orb_true_r.
    + destruct (scaled_infinities 0) as [_ ->]; [done|done].
Qed.

(** The element [with] replaces: a relative index in range. *)
Definition rel_element (x : num) (n : Z) : option Z :=
  match to_integer x with
  | Some j => let i := if j <? 0 then n + j else j in if (0 <=? i) && (i <? n) then Some i else None
  | None => None
  end.

Lemma rel_element_run x n : 0 <= n < 2 ^ 31 →
  let rel := to_index x in
  let rel := if num_lt rel (Fin 0) then num_add (i2d n) rel else rel in
  if num_lt rel (Fin 0) || num_le (i2d n) rel then rel_element x n = None
  else ∃ i, rel_element x n = Some i ∧ 0 <= i < n ∧ trunc_s32 rel = Some i.
Proof.
  intros Hn. cbv zeta. unfold rel_element. destruct (to_integer x) as [j|] eqn:Ej.
  - pose proof (to_index_int x j Ej) as Hj. destruct (is_int_lt _ j 0 Hj) as [H0 _]. change (Fin (0 * ONE)) with (Fin 0) in H0. rewrite H0.
    destruct (Z.ltb_spec j 0) as [Hneg|Hpos].
    + destruct Hj as [E|[_ E]]; [|lia]. rewrite E. pose proof (add_below j n Hn Hneg) as Ha. cbv zeta in Ha. destruct (Z.ltb_spec (j + n) 0).
      * rewrite Ha. cbn [orb]. by rewrite (proj2 (Z.leb_gt 0 (n + j))) by lia.
      * rewrite Ha, (i2d_small n) by done. change (Fin 0) with (Fin (0 * ONE)). rewrite num_lt_scaled, num_le_scaled. rewrite (proj2 (Z.ltb_ge (j + n) 0)), (proj2 (Z.leb_gt n (j + n))) by lia. cbn [orb].
        exists (j + n). rewrite (trunc_s32_int _ (j + n)) by (by left || lia). rewrite (Z.add_comm n j), (proj2 (Z.leb_le 0 (j + n))), (proj2 (Z.ltb_lt (j + n) n)) by lia. split_and!; done || lia.
    + rewrite H0, (i2d_small n) by done. destruct (is_int_le _ j n Hj) as [_ ->]. rewrite (proj2 (Z.leb_le 0 j)) by lia. cbn [orb andb]. destruct (Z.leb_spec n j); [by rewrite (proj2 (Z.ltb_ge j n)) by lia|].
      exists j. rewrite (trunc_s32_int _ j Hj), (proj2 (Z.ltb_lt j n)) by lia. split_and!; done || lia.
  - destruct (to_index_inf x Ej) as [E [->| ->]]; rewrite <- E.
    + change (num_lt PInf (Fin 0)) with false. cbv iota. change (num_lt PInf (Fin 0)) with false. rewrite i2d_small by done. cbn [orb].
      destruct (repr_int n) as [Hr _]; [lia|]. pose proof MAXK_pos. unfold num_le. cbn [is_nan negb andb key]. rewrite (proj2 (Z.leb_le _ _)) by lia. done.
    + destruct (scaled_infinities 0) as [_ H0]; [done|]. rewrite H0, i2d_small by done. cbn [num_add]. by rewrite H0.
Qed.

(** Overwriting one encoded element. *)
Lemma enc_insert e cs (i : nat) c : (i < length cs)%nat → overwrite (enc_cells e cs) (enc_cells e [c]) (esize e * Z.of_nat i) = enc_cells e (<[i := c]> cs).
Proof.
  intros Hi. pose proof (esize_cases e) as He. rewrite insert_take_drop by done. rewrite enc_app. change (c :: drop (S i) cs) with ([c] ++ drop (S i) cs). rewrite enc_app. unfold overwrite. rewrite enc_length. cbn [length].
  assert (Hl : ∀ j, (j <= length cs)%nat → length (enc_cells e (take j cs)) = Z.to_nat (esize e * Z.of_nat j)).
  { intros j Hj. pose proof (enc_length e (take j cs)) as H. rewrite length_take, Nat.min_l in H by lia. lia. }
  f_equal; [|f_equal].
  - rewrite <- (take_drop i cs) at 1. rewrite enc_app. apply take_app_length'. rewrite Hl by lia. done.
  - rewrite <- (take_drop (S i) cs) at 1. rewrite enc_app. apply drop_app_length'. rewrite Hl by lia. f_equal. lia.
Qed.

(** A store into the newest array. *)
Lemma fresh_store e h cs i val : 0 <= i < len cs → esize e * len cs < 2 ^ 31 - 8 →
  emitScatterElem e (length h) (scale e i) val (extend e h cs) = (Val tt, extend e h (<[Z.to_nat i := stored e val]> cs)).
Proof.
  intros Hi Hl. pose proof (esize_cases e) as He. pose proof (enc_length e cs) as HE. rewrite scale_exact by nia.
  rewrite (scatter_at e _ _ val (enc_cells e cs)); [|unfold extend; by rewrite lookup_app_r, Nat.sub_diag by lia|apply enc_bytes|lia|nia|nia].
  unfold extend. rewrite <- enc_insert, Z2Nat.id by lia. by rewrite insert_app_r_alt, Nat.sub_diag by lia.
Qed.

Lemma with_exact e h b x val : vok e h b →
  with_ e b x val h =
    match rel_element x (BL b) with
    | Some i => let cs := <[Z.to_nat i := stored e val]> (elems e h b) in (Val (Done (fresh h cs)), extend e h cs)
    | None => (Val (Throws BadIndex), h)
    end.
Proof.
  intros Hb. pose proof (BL_bound e h b Hb). pose proof (vok_len _ _ _ Hb) as H0. pose proof (vok_size _ _ _ Hb). pose proof (esize_cases e). pose proof (elems_length e h b Hb) as HL.
  unfold with_. pose proof (rel_element_run x (BL b) ltac:(lia)) as Hr. cbv zeta in *. destruct (num_lt _ (Fin 0) || num_le _ _); [by rewrite Hr|]. destruct Hr as (i & -> & Hi & Ht).
  unfold mbind. rewrite Ht. cbn [of_option]. unfold mret at 1. unfold alloc. rewrite scale_exact by nia.
  pose proof (fresh_copy e h b 0 (BL b) Hb ltac:(lia) ltac:(lia) ltac:(lia)) as Ec. rewrite Z.mul_0_r, Z.add_0_r in Ec. rewrite Ec.
  assert (Eall : slice (elems e h b) 0 (BL b) = elems e h b) by (unfold slice; change (Z.to_nat 0) with 0%nat; rewrite drop_0; apply firstn_all2; lia). rewrite Eall.
  rewrite fresh_store by lia. unfold fresh. by rewrite length_insert, HL.
Qed.

(** ** Products of integers *)

Lemma rne_scale n d c : 0 < d → 0 < c → rne (n * c) (d * c) = rne n d.
Proof.
  intros Hd Hc. unfold rne. rewrite Z.div_mul_cancel_r, Z.mul_mod_distr_r by lia.
  destruct (Z.compare_spec (2 * (n mod d * c)) (d * c)), (Z.compare_spec (2 * (n mod d)) d); done || nia.
Qed.
Lemma ratio_scale n d z : 0 < d → num_of_ratio (n * d) d z = num_of_ratio n 1 z.
Proof.
  intros Hd. unfold num_of_ratio. assert (E : round_pos (Z.abs (n * d)) d = round_pos (Z.abs n) 1).
  { rewrite Z.abs_mul, (Z.abs_eq d) by lia. unfold round_pos. rewrite Z.div_mul, Z.div_1_r, Z.mul_1_l, (Z.mul_comm d) by lia. pose proof (ulp_pos (Z.abs n)). by rewrite rne_scale by lia. }
  rewrite E. assert (Es : (n * d <? 0) = (n <? 0)) by (destruct (Z.ltb_spec (n * d) 0), (Z.ltb_spec n 0); done || nia). rewrite Es. rewrite Z.sgn_mul, (Z.sgn_pos d), Z.mul_1_r by lia. done.
Qed.
Lemma mul_ints a b : 0 <= a → 0 <= b → num_mul (Fin (a * ONE)) (Fin (b * ONE)) = num_of_ratio (a * b * ONE) 1 false.
Proof.
  intros Ha Hb. pose proof ONE_pos. cbn [num_mul is_nan is_finite orb key sign_neg]. rewrite (proj2 (Z.ltb_ge (a * ONE) 0)), (proj2 (Z.ltb_ge (b * ONE) 0)) by nia. cbn [xorb].
  replace (a * ONE * (b * ONE)) with (a * b * ONE * ONE) by ring. by rewrite ratio_scale by lia.
Qed.

(** The size guard lets exactly the counts through whose bytes are below 2^31. *)
Lemma size_guard e x n (h : heap) : is_int x n → 0 <= n → emitByteSizeGuard (esize e) x h = (if 2 ^ 31 <=? esize e * n then Trap else Val tt, h).
Proof.
  intros Hx Hn. unfold emitByteSizeGuard. pose proof ONE_pos. rewrite (num_of_Z_int 2147483648) by lia. change 2147483648 with (2 ^ 31).
  assert (E : num_le (Fin (2 ^ 31 * ONE)) (if 1 <? esize e then num_mul x (num_of_Z (esize e)) else x) = (2 ^ 31 <=? esize e * n)).
  { assert (H1 : esize e = 1 → num_le (Fin (2 ^ 31 * ONE)) x = (2 ^ 31 <=? esize e * n)) by (intros ->; rewrite Z.mul_1_l; by apply (is_int_le x n (2 ^ 31))).
    assert (H4 : esize e = 4 → num_le (Fin (2 ^ 31 * ONE)) (num_mul x (num_of_Z 4)) = (2 ^ 31 <=? esize e * n)).
    { intros ->. rewrite num_of_Z_int by lia. destruct Hx as [->|[-> ->]]; [|reflexivity]. rewrite mul_ints by lia. destruct (Z.leb_spec (2 ^ 31) (4 * n)) as [Hb|Hs].
      - pose proof (ratio_mono (2 ^ 31 * ONE) 1 false (n * 4 * ONE) 1 false ltac:(lia) ltac:(lia) ltac:(nia)) as Hm. rewrite (ratio_int_signed (2 ^ 31)) in Hm by done. unfold num_le. rewrite ratio_not_nan. exact (proj2 (Z.leb_le _ _) Hm).
      - rewrite ratio_int, num_le_scaled by lia. apply Z.leb_gt. lia. }
    destruct e; [by apply H1|by apply H4..]. }
  rewrite E. destruct (2 ^ 31 <=? esize e * n); done.
Qed.

(** ** Element by element *)

Lemma run_wp {A} (m : HM A) h r h' : wp m (λ x t, x = r ∧ t = h') (λ _ _, False) h → m h = (Val r, h').
Proof. intros H. apply wp_run in H as (x & t & -> & -> & ->). done. Qed.
Lemma wp_eq {A} (m : HM A) h r h' (Q : A → heap → Prop) R : m h = (Val r, h') → Q r h' → wp m Q R h.
Proof. intros E HQ. unfold wp. by rewrite E. Qed.

Lemma fromArrLit_exact e h src : esize e * len src < 2 ^ 31 - 8 →
  let cs := map (stored e) src in fromArrLit e src h = (Val (fresh h cs), extend e h cs).
Proof.
  intros Hl cs. pose proof (esize_cases e) as He. assert (Hlen : len cs = len src) by (unfold cs; by rewrite length_map). unfold fromArrLit.
  assert (Hg : emitByteSizeGuard (esize e) (i2d (len src)) h = (Val tt, h)).
  { rewrite (size_guard e _ (len src)), (proj2 (Z.leb_gt _ _)); [done|lia| |lia]. rewrite i2d_small by nia. by left. }
  unfold mbind at 1. rewrite Hg. unfold mbind at 1. unfold alloc. rewrite scale_exact, zeros_enc by nia. change (h ++ [enc_cells e (zeros (len src))]) with (extend e h (zeros (len src))).
  apply run_wp. apply wp_bind. apply wp_loop with (λ i h', 0 <= i <= len src ∧ h' = extend e h (map (stored e) (take (Z.to_nat i) src) ++ zeros (len src - i))) (λ i, len src - i).
  { split; [lia|]. cbn [take map app]. by rewrite Z.sub_0_r. }
  { lia. }
  intros i h' (Hi & ->) _. unfold lit_step. rewrite ge_s_small by nia. destruct (Z.leb_spec (len src) i) as [Hge|Hlt].
  { apply wp_mret, wp_mret. assert (i = len src) as -> by lia. rewrite Z.sub_diag, Nat2Z.id, firstn_all, app_nil_r. unfold fresh. rewrite Hlen. split; reflexivity. }
  destruct (lookup_lt_is_Some_2 src (Z.to_nat i)) as [x Hx]; [lia|]. apply wp_bind. eapply wp_of_option; [unfold aget; rewrite (proj2 (Z.ltb_ge _ _)) by lia; exact Hx|].
  assert (HL : len (map (stored e) (take (Z.to_nat i) src) ++ zeros (len src - i)) = len src) by (rewrite length_app, length_map, length_take; unfold zeros; rewrite length_replicate; lia).
  apply wp_bind. eapply wp_eq; [apply fresh_store; lia|]. apply wp_mret. rewrite add32_id by nia. split; [|lia]. split; [lia|]. f_equal.
  rewrite insert_app_r_alt by (rewrite length_map, length_take; lia). rewrite length_map, length_take, Nat.min_l, Nat.sub_diag by lia.
  replace (Z.to_nat (i + 1)) with (S (Z.to_nat i)) by lia. rewrite (take_S_r _ _ x Hx), map_app, <- app_assoc. f_equal. unfold zeros. replace (Z.to_nat (len src - i)) with (S (Z.to_nat (len src - (i + 1)))) by lia. done.
Qed.

Lemma toArray_exact e h b : vok e h b → toArray e b h = (Val (map (value_of e) (elems e h b)), h).
Proof.
  intros Hb. pose proof (BL_bound e h b Hb). pose proof (vok_len _ _ _ Hb) as H0. pose proof (elems_length e h b Hb) as HL. unfold toArray. apply run_wp.
  apply wp_loop with (λ '(i, out) h', 0 <= i <= BL b ∧ out = map (value_of e) (take (Z.to_nat i) (elems e h b)) ∧ h' = h) (λ st, BL b - fst st); [by split; [lia|]|cbn [fst]; lia|].
  intros [i out] h' (Hi & -> & ->) _. unfold drain_step. rewrite ge_s_small by lia. destruct (Z.leb_spec (BL b) i).
  { apply wp_mret. split; [|done]. rewrite firstn_all2 by lia. done. }
  apply wp_bind. eapply wp_eq; [apply (widen_elem e h b i Hb); lia|]. apply wp_mret. rewrite add32_id by lia. cbn [fst]. split; [|lia]. split; [lia|]. split; [|done].
  destruct (lookup_lt_is_Some_2 (elems e h b) (Z.to_nat i)) as [c Hc]; [lia|]. rewrite Hc. replace (Z.to_nat (i + 1)) with (S (Z.to_nat i)) by lia. by rewrite (take_S_r _ _ c Hc), map_app.
Qed.

(** ** Reversal *)

Lemma slice_cons (A : list Z) p n : 0 <= p → 0 < n → p + n <= len A → ∃ x, A !! Z.to_nat p = Some x ∧ slice A p n = x :: slice A (p + 1) (n - 1).
Proof.
  intros Hp Hn Hl. destruct (lookup_lt_is_Some_2 A (Z.to_nat p)) as [x Hx]; [lia|]. exists x. split; [done|]. unfold slice. rewrite (drop_S _ x) by done.
  replace (Z.to_nat n) with (S (Z.to_nat (n - 1))) by lia. cbn [take]. do 2 f_equal. f_equal. lia.
Qed.

Lemma move_bytes_run b out src dst n : ∀ a (h : heap) (A D : list Z), ARR b ≠ out → h !! ARR b = Some A → h !! out = Some D → Forall byte A →
  0 <= src → 0 <= dst → src + Z.of_nat (a + n) <= len A → dst + Z.of_nat (a + n) <= len D → len A < 2 ^ 32 → len D < 2 ^ 32 →
  move_bytes b out src dst (map Z.of_nat (seq a n)) h = (Val tt, <[out := overwrite D (slice A (src + Z.of_nat a) (Z.of_nat n)) (dst + Z.of_nat a)]> h).
Proof.
  induction n as [|n IH]; intros a h A D Hne HA HD Hb Hs Hd HlA HlD HA32 HD32; cbn [seq map move_bytes].
  { unfold mret. change (slice A (src + Z.of_nat a) (Z.of_nat 0)) with (@nil Z). rewrite overwrite_nil, list_insert_id by done. done. }
  destruct (slice_cons A (src + Z.of_nat a) (Z.of_nat (S n))) as (x & Hx & Es); [lia..|]. unfold mbind at 1, get_u. rewrite HA, add32_id by lia. unfold aget. rewrite (proj2 (Z.ltb_ge _ _)), Hx by lia.
  assert (Hxb : byte x) by (by eapply Forall_lookup_1 in Hb). unfold mbind at 1, on. rewrite HD. unfold put8, aset. rewrite add32_id by lia.
  rewrite (proj2 (Z.ltb_ge _ _)), (proj2 (Z.leb_gt _ _)) by lia. cbn [orb]. rewrite Z.mod_small by (unfold byte in Hxb; lia).
  assert (Ho : (out < length h)%nat) by (by apply lookup_lt_Some in HD).
  rewrite (IH (S a) _ A (<[Z.to_nat (dst + Z.of_nat a) := x]> D)); [|done|by rewrite list_lookup_insert_ne by done|by apply list_lookup_insert_eq|done|lia|lia|lia|rewrite length_insert; lia|done|rewrite length_insert; done].
  rewrite list_insert_insert_eq. do 2 f_equal. rewrite Es, <- overwrite_one by lia. replace (src + Z.of_nat (S a)) with (src + Z.of_nat a + 1) by lia. replace (Z.of_nat (S n) - 1) with (Z.of_nat n) by lia.
  set (ys := slice A (src + Z.of_nat a + 1) (Z.of_nat n)). assert (len ys = Z.of_nat n) by (unfold ys; rewrite slice_length by lia; lia).
  change (x :: ys) with ([x] ++ ys). rewrite <- overwrite_app; [|lia|cbn [app length]; lia]. f_equal. cbn [length]. lia.
Qed.

(** The last element of the rest, written to the next place of the new array. *)
Lemma reverse_one e h b cs i : vok e h b → len cs = BL b → 0 <= i < BL b → let h' := extend e h cs in
  move_bytes b (length h) (elem_addr e b (BL b - 1 - i)) (scale e i) (upto (esize e)) h' =
    (Val tt, extend e h (<[Z.to_nat i := default 0 (elems e h b !! Z.to_nat (BL b - 1 - i))]> cs)).
Proof.
  intros Hb Hc Hi h'. pose proof (BL_bound e h b Hb). pose proof (esize_cases e) as He. pose proof (enc_length e cs) as HE. pose proof (vok_array _ _ _ Hb) as Ha.
  assert (Hlt : (ARR b < length h)%nat) by (by apply lookup_lt_Some in Ha). rewrite (elem_addr_exact e h b) by (done || lia). pose proof (vok_size _ _ _ Hb). pose proof (vok_fits _ _ _ Hb). pose proof (vok_off _ _ _ Hb).
  rewrite scale_exact by nia. unfold upto.
  rewrite (move_bytes_run b (length h) _ _ _ 0 h' (array_of h b) (enc_cells e cs)); [|lia|unfold h', extend; rewrite lookup_app_l by done; done|
    unfold h', extend; rewrite lookup_app_r, Nat.sub_diag by lia; done|apply (vok_bytes _ _ _ Hb)|nia|nia|nia|nia|nia|nia].
  rewrite !Z.add_0_r, Z2Nat.id by lia. f_equal. unfold h', extend. rewrite insert_app_r_alt, Nat.sub_diag by lia. cbn [list_insert insert]. do 2 f_equal.
  assert (Hk : (Z.to_nat (BL b - 1 - i) < Z.to_nat (BL b))%nat) by lia. pose proof (cells_lookup e (array_of h b) (BO b) (BL b) _ Hk) as Hc'. unfold elems at 1. rewrite Hc'. cbn [default from_option id]. rewrite Z2Nat.id by lia.
  rewrite <- enc_insert, Z2Nat.id by lia. f_equal. set (bs := slice _ _ _). cbn [enc_cells flat_map]. rewrite app_nil_r.
  assert (Hl : length bs = esn e) by (unfold bs; by rewrite slice_length by nia). rewrite <- Hl. symmetry. apply low_bytes_le. apply Forall_take, Forall_drop, (vok_bytes _ _ _ Hb).
Qed.

Lemma toReversed_exact e h b : vok e h b → let cs := reverse (elems e h b) in toReversed e b h = (Val (fresh h cs), extend e h cs).
Proof.
  intros Hb cs. pose proof (BL_bound e h b Hb). pose proof (vok_len _ _ _ Hb) as H0. pose proof (elems_length e h b Hb) as HL. pose proof (esize_cases e). pose proof (vok_size _ _ _ Hb).
  assert (Hcs : len cs = BL b) by (unfold cs; by rewrite length_reverse). unfold toReversed. unfold mbind at 1. unfold alloc. rewrite scale_exact, zeros_enc by nia. change (h ++ [enc_cells e (zeros (BL b))]) with (extend e h (zeros (BL b))).
  apply run_wp. apply wp_bind. apply wp_loop with (λ i h', 0 <= i <= BL b ∧ h' = extend e h (take (Z.to_nat i) cs ++ zeros (BL b - i))) (λ i, BL b - i).
  { split; [lia|]. by rewrite Z.sub_0_r. }
  { lia. }
  intros i h' (Hi & ->) _. unfold reverse_step. rewrite ge_s_small by lia. destruct (Z.leb_spec (BL b) i) as [Hge|Hlt].
  { apply wp_mret, wp_mret. assert (i = BL b) as -> by lia. rewrite Z.sub_diag, firstn_all2 by lia. unfold zeros. rewrite app_nil_r. unfold fresh. rewrite Hcs. split; reflexivity. }
  assert (HT : len (take (Z.to_nat i) cs) = i) by (rewrite length_take; lia).
  apply wp_bind. rewrite (sub32_id (BL b) 1), (sub32_id _ i) by lia. eapply wp_eq; [apply (reverse_one e h b _ i Hb); [rewrite length_app, Nat2Z.inj_add, zeros_length by lia; lia|lia]|].
  apply wp_mret. rewrite add32_id by lia. split; [|lia]. split; [lia|]. f_equal. rewrite insert_app_r_alt by lia. replace (Z.to_nat i - length (take (Z.to_nat i) cs))%nat with 0%nat by lia.
  unfold zeros. replace (Z.to_nat (BL b - i)) with (S (Z.to_nat (BL b - (i + 1)))) by lia. cbn [replicate]. change (<[0%nat := ?x]> (?y :: ?l)) with (x :: l).
  destruct (lookup_lt_is_Some_2 cs (Z.to_nat i)) as [c Hc]; [lia|]. replace (Z.to_nat (i + 1)) with (S (Z.to_nat i)) by lia. rewrite (take_S_r _ _ c Hc), <- app_assoc. do 2 f_equal.
  unfold cs in Hc. apply reverse_lookup_Some in Hc as [Hc _]. replace (length (elems e h b) - S (Z.to_nat i))%nat with (Z.to_nat (BL b - 1 - i)) in Hc by lia. by rewrite Hc.
Qed.

(** ** fill *)

Lemma write_app e h b xs ys t : vok e h b → 0 <= t → t + len (xs ++ ys) <= BL b → write e (write e h b xs t) b ys (t + len xs) = write e h b (xs ++ ys) t.
Proof.
  intros Hb Ht Hl. pose proof (esize_cases e). pose proof (enc_length e xs). pose proof (enc_length e ys). rewrite length_app in Hl. unfold write. rewrite array_of_insert, decide_True by (done || apply (vok_array _ _ _ Hb)).
  rewrite list_insert_insert_eq, enc_app. do 1 f_equal. rewrite <- overwrite_app; [f_equal; lia| |rewrite length_app]; pose proof (vok_fits _ _ _ Hb); pose proof (vok_off _ _ _ Hb); nia.
Qed.

Lemma fillElem_exact e h b val x y : vok e h b → let '(s, n) := rel_range b x y in
  fillElem e b val x y h = (Val b, write e h b (replicate (Z.to_nat n) (stored e val)) s).
Proof.
  intros Hb. pose proof (BL_bound e h b Hb). pose proof (vok_len _ _ _ Hb) as H0. pose proof (rel_range_bounds b x y H0) as Hr. destruct (rel_range b x y) as [s n] eqn:Er. destruct Hr as (Hs & Hn & Hl).
  unfold rel_range in Er. injection Er as Es En. pose proof (rel_index_range y (BL b) H0) as Hy. unfold fillElem. unfold mbind at 1. rewrite rel_index_run by lia. unfold mbind at 1. rewrite rel_index_run by lia. rewrite Es in *. set (hi := rel_index y (BL b)) in *.
  assert (Hnil : write e h b (replicate 0 (stored e val)) s = h) by (unfold write; cbn [replicate enc_cells flat_map]; rewrite overwrite_nil; apply list_insert_id, (vok_array _ _ _ Hb)).
  apply run_wp. apply wp_bind. apply wp_loop with (λ i h', s <= i ∧ i <= Z.max s hi ∧ h' = write e h b (replicate (Z.to_nat (i - s)) (stored e val)) s) (λ i, BL b - i).
  { split; [lia|]. split; [lia|]. rewrite Z.sub_diag. exact (eq_sym Hnil). }
  { lia. }
  intros i h' (Hi1 & Hi2 & ->) _. unfold put_step. rewrite ge_s_small by lia. destruct (Z.leb_spec hi i) as [Hge|Hlt].
  { apply wp_mret, wp_mret. split; [done|]. do 2 f_equal. lia. }
  assert (HR : len (replicate (Z.to_nat (i - s)) (stored e val)) = i - s) by (rewrite length_replicate; lia). assert (Hin : s + len (replicate (Z.to_nat (i - s)) (stored e val)) <= BL b) by lia.
  apply wp_bind. eapply wp_eq; [apply (scatter_elem e _ b i val); [by apply write_vok|lia]|]. apply wp_mret. rewrite add32_id by lia. split; [|lia]. split; [lia|]. split; [lia|].
  replace i with (s + len (replicate (Z.to_nat (i - s)) (stored e val))) at 2 by lia. rewrite write_app; [|done|done|rewrite length_app; cbn [length]; lia]. f_equal.
  rewrite <- replicate_S_end. f_equal. lia.
Qed.

(** ** new *)

Lemma newLen_exact e h x : newLen e x h =
  match to_integer x with
  | Some n => if (n <? 0) || (2 ^ 53 - 1 <? n) then (Val (Throws (BadArrayLength x)), h)
              else if 2 ^ 31 <=? esize e * n then (Trap, h)
              else (Val (Done (fresh h (zeros n))), extend e h (zeros n))
  | None => (Val (Throws (BadArrayLength x)), h)
  end.
Proof.
  unfold newLen. pose proof (esize_cases e). replace MAX_SAFE with (Fin ((2 ^ 53 - 1) * ONE)) by reflexivity. destruct (to_integer x) as [n|] eqn:En.
  - pose proof (to_index_int x n En) as Hn. destruct (is_int_lt _ n 0 Hn) as [E0 _]. change (Fin (0 * ONE)) with (Fin 0) in E0. rewrite E0. destruct (is_int_lt _ n (2 ^ 53 - 1) Hn) as [_ E1]. rewrite E1.
    destruct (Z.ltb_spec n 0); cbn [orb]; [done|]. destruct (Z.ltb_spec (2 ^ 53 - 1) n); [done|]. unfold mbind at 1. rewrite (size_guard e _ n) by done. destruct (Z.leb_spec (2 ^ 31) (esize e * n)); [done|].
    unfold mbind. rewrite (trunc_s32_int _ n Hn) by nia. cbn [of_option]. unfold mret at 1. unfold alloc. rewrite scale_exact, zeros_enc by nia. unfold fresh. by rewrite zeros_length.
  - destruct (to_index_inf x En) as [E [->| ->]]; rewrite <- E; done.
Qed.

(** ** The operations against lists *)

Inductive copying := CSlice (x y : num) | CReversed | CWith (x val : num).
Definition run_copy (e : BytesElem) (op : copying) (b : bufv) : HM (outcome bufv) :=
  match op with
  | CSlice x y => c <- slice_ e b x y;; mret (Done c)
  | CReversed => c <- toReversed e b;; mret (Done c)
  | CWith x val => with_ e b x val
  end.
(** What the copy holds, in terms of the elements. *)
Definition spec_copy (e : BytesElem) (op : copying) (cs : list Z) : option (list Z) :=
  match op with
  | CSlice x y => let s := rel_index x (len cs) in Some (slice cs s (rel_index y (len cs) - s))
  | CReversed => Some (reverse cs)
  | CWith x val => i ← rel_element x (len cs); Some (<[Z.to_nat i := stored e val]> cs)
  end.

Lemma copy_result e h b op cs : vok e h b → Forall (cell_ok e) cs → len cs <= BL b → run_copy e op b h = (Val (Done (fresh h cs)), extend e h cs) →
  ∃ b' h', run_copy e op b h = (Val (Done b'), h') ∧ vok e h' b' ∧ elems e h' b' = cs ∧ ARR b' = length h ∧
    ∀ e0 b0, vok e0 h b0 → vok e0 h' b0 ∧ elems e0 h' b0 = elems e0 h b0.
Proof.
  intros Hb Hc Hl Hr. pose proof (vok_size _ _ _ Hb). pose proof (esize_cases e). destruct (fresh_ok e h cs Hc) as [Hv He]; [nia|].
  exists (fresh h cs), (extend e h cs). split; [done|]. split; [done|]. split; [done|]. split; [done|]. intros e0 b0 Hb0. by apply extend_vok.
Qed.

(** C26. [slice], [toReversed] and [with] return a new byte array that no earlier
    view shares, with the elements the same list operation gives, and every view
    there was keeps its elements; [with] throws at an index that names none. *)
Theorem copying_refines (e : BytesElem) (h : heap) (b : bufv) (op : copying) : vok e h b →
  match spec_copy e op (elems e h b) with
  | None => run_copy e op b h = (Val (Throws BadIndex), h)
  | Some cs => ∃ b' h', run_copy e op b h = (Val (Done b'), h') ∧ vok e h' b' ∧ elems e h' b' = cs ∧ ARR b' = length h ∧
      ∀ e0 b0, vok e0 h b0 → vok e0 h' b0 ∧ elems e0 h' b0 = elems e0 h b0
  end.
Proof.
  intros Hb. pose proof (elems_length e h b Hb) as HL. pose proof (elems_ok e h b Hb) as Hok. pose proof (vok_len _ _ _ Hb) as H0. destruct op as [x y| |x val]; cbn [spec_copy]; rewrite ?HL.
  - pose proof (slice_exact e h b x y Hb) as Hs. pose proof (rel_range_bounds b x y H0) as Hr. unfold rel_range in *. destruct Hr as (R1 & R2 & R3).
    replace (slice (elems e h b) (rel_index x (BL b)) (rel_index y (BL b) - rel_index x (BL b))) with (slice (elems e h b) (rel_index x (BL b)) (Z.max 0 (rel_index y (BL b) - rel_index x (BL b)))) by (unfold slice; f_equal; lia).
    apply copy_result; [done|by apply (slice_cells_ok e h b)|rewrite (range_elems_length e h b) by done; lia|]. cbn [run_copy]. unfold mbind, mret. by rewrite Hs.
  - apply copy_result; [done|by apply Forall_reverse|rewrite length_reverse; lia|]. cbn [run_copy]. unfold mbind, mret. by rewrite (toReversed_exact e h b Hb).
  - pose proof (with_exact e h b x val Hb) as Hw. cbn [run_copy] in *. destruct (rel_element x (BL b)) as [i|]; [|done]. change (Some i ≫= ?f) with (f i). cbv beta.
    apply (copy_result e h b (CWith x val)); [done|apply Forall_insert; [done|apply stored_ok]|rewrite length_insert; lia|done].
Qed.

(** A literal holds the conversions of its values: an array made from them
    and read out element by element gives [ToUint8], [ToInt32], [ToUint32] or
    [fround] of each, in order. *)
Theorem literal_converts (e : BytesElem) (h : heap) (src : list num) : esize e * len src < 2 ^ 31 - 8 → Forall wf_num src →
  ∃ b h', fromArrLit e src h = (Val b, h') ∧ vok e h' b ∧ toArray e b h' = (Val (map (convert e) src), h').
Proof.
  intros Hl Hw. pose proof (fromArrLit_exact e h src Hl) as Hr. set (cs := map (stored e) src) in *. assert (Hc : Forall (cell_ok e) cs) by (apply Forall_map, Forall_true; intros x; apply stored_ok).
  destruct (fresh_ok e h cs Hc) as [Hv He]; [by unfold cs; rewrite length_map|]. exists (fresh h cs), (extend e h cs). split; [done|]. split; [done|].
  rewrite (toArray_exact e _ _ Hv), He. unfold cs. rewrite map_map. do 2 f_equal. apply map_ext_in. intros x Hx. apply value_stored. rewrite Forall_forall in Hw. apply Hw. by apply list_elem_of_In.
Qed.

Lemma write_view e h b s n cs t : write e h (mkB (ARR b) (BO b + esize e * s) n) cs t = write e h b cs (s + t).
Proof. unfold write, array_of. cbn [ARR BO]. do 2 f_equal. lia. Qed.

(** C28. A [subarray] is a window on the same bytes: filling it fills exactly those
    elements of the array it was taken from, and [set] from an overlapping view
    of the same array writes the elements it held before. *)
Theorem views_share (e : BytesElem) (h : heap) (b : bufv) (x y val : num) : vok e h b → let '(s, n) := rel_range b x y in
  ∃ v, subarray e b x y h = (Val v, h) ∧ vok e h v ∧ BL v = n ∧ elems e h v = slice (elems e h b) s n ∧
    (∃ h', fillElem e v val (Fin 0) PInf h = (Val v, h') ∧ vok e h' b ∧ elems e h' b = overwrite (elems e h b) (replicate (Z.to_nat n) (stored e val)) s) ∧
    (∃ h', setFrom e b v (Fin 0) h = (Val (Done tt), h') ∧ vok e h' b ∧ elems e h' b = overwrite (elems e h b) (slice (elems e h b) s n) 0).
Proof.
  intros Hb. pose proof (vok_len _ _ _ Hb) as H0. pose proof (rel_range_bounds b x y H0) as Hr. pose proof (subarray_exact e h b x y Hb) as Hs. destruct (rel_range b x y) as [s n]. destruct Hr as (Rs & Rn & Rl).
  destruct Hs as (Er & Hv & He). set (v := mkB _ _ _) in *. exists v. split; [done|]. split; [done|]. split; [done|]. split; [done|]. split.
  - pose proof (fillElem_exact e h v val (Fin 0) PInf Hv) as Hf. unfold rel_range in Hf. change (BL v) with n in Hf. unfold rel_index in Hf. cbn [to_integer] in Hf. change (num_to_Z (Fin 0)) with 0 in Hf.
    change (0 <? 0) with false in Hf. cbv iota in Hf. rewrite Z.min_l, Z.sub_0_r, Z.max_r in Hf by lia. eexists. split; [exact Hf|]. unfold v. rewrite write_view, Z.add_0_r.
    assert (Hlen : s + len (replicate (Z.to_nat n) (stored e val)) <= BL b) by (rewrite length_replicate; lia).
    split; [by apply write_vok|]. apply write_elems; try done. apply Forall_replicate, stored_ok.
  - pose proof (setFrom_exact e h b v (Fin 0) Hb Hv) as Hf. cbn [to_integer] in Hf. change (num_to_Z (Fin 0)) with 0 in Hf. rewrite Z.add_0_l in Hf. change (BL v) with n in Hf. rewrite (proj2 (Z.leb_le n (BL b))) in Hf by lia. cbn [Z.leb Z.compare andb] in Hf.
    eexists. split; [exact Hf|]. rewrite He. assert (Hlen : 0 + len (slice (elems e h b) s n) <= BL b) by (rewrite (range_elems_length e h b) by done; lia).
    split; [by apply write_vok|]. apply write_elems; try done. by apply (slice_cells_ok e h b).
Qed.

(** ** At concrete arrays *)

Definition sample_heap : heap := [[9; 1; 0; 0; 0; 255; 255; 255; 255; 7; 0; 0; 0]].
Definition sample_view : bufv := mkB 0 1 3.
Lemma sample_ok : vok EI32 sample_heap sample_view.
Proof. split; try done. unfold sample_view, array_of, sample_heap. cbn. repeat constructor; unfold byte; lia. Qed.
Lemma wf_int z : Z.abs z <= 2 ^ 53 → wf_num (num_of_Z z).
Proof. intros Hz. rewrite num_of_Z_exact by done. by apply repr_int. Qed.

Lemma element_access_witness : ∃ h', setElem EI32 sample_view (Fin ONE) (num_of_Z 4294967298) sample_heap = (Val tt, h') ∧ get EI32 sample_view (Fin ONE) h' = (Val (num_of_Z 2), h') ∧ elems EI32 h' sample_view = [1; 2; 7].
Proof.
  pose proof (wf_int 4294967298 ltac:(done)) as Hw.
  pose proof (element_access EI32 sample_heap sample_view (Fin ONE) (num_of_Z 4294967298) sample_ok Hw) as H. change (index_of (Fin ONE) (BL sample_view)) with (Some 1) in H.
  destruct H as (_ & _ & h' & H1 & _ & H2 & H3 & _). exists h'. split; [exact H1|]. split; [exact H2|]. rewrite H3. vm_compute. reflexivity.
Defined.
Lemma copying_refines_witness : ∃ b' h', run_copy EI32 (CSlice (Fin (-2 * ONE)) PInf) sample_view sample_heap = (Val (Done b'), h') ∧ elems EI32 h' b' = [4294967295; 7] ∧ ARR b' = 1%nat.
Proof.
  pose proof (copying_refines EI32 sample_heap sample_view (CSlice (Fin (-2 * ONE)) PInf) sample_ok) as H.
  change (spec_copy EI32 (CSlice (Fin (-2 * ONE)) PInf) (elems EI32 sample_heap sample_view)) with (Some [4294967295; 7]) in H.
  destruct H as (b' & h' & H1 & _ & H2 & H3 & _). exists b', h'. split; [exact H1|]. split; [exact H2|exact H3].
Defined.
Lemma literal_converts_witness : let src := [num_of_Z 1; num_of_Z (-1); NaN; num_of_Z 300] in
  ∃ b h', fromArrLit EU8 src [] = (Val b, h') ∧ toArray EU8 b h' = (Val [num_of_Z 1; num_of_Z 255; Fin 0; num_of_Z 44], h').
Proof.
  cbv zeta. destruct (literal_converts EU8 [] [num_of_Z 1; num_of_Z (-1); NaN; num_of_Z 300]) as (b & h' & H1 & _ & H2).
  - reflexivity.
  - apply Forall_cons. split; [apply (wf_int 1); lia|]. apply Forall_cons. split; [apply (wf_int (-1)); lia|]. apply Forall_cons. split; [exact I|]. apply Forall_cons. split; [apply (wf_int 300); lia|]. apply Forall_nil. exact I.
  - exists b, h'. split; [exact H1|]. rewrite H2. vm_compute. reflexivity.
Defined.
Lemma views_share_witness : ∃ v h', subarray EI32 sample_view (Fin ONE) PInf sample_heap = (Val v, sample_heap) ∧ setFrom EI32 sample_view v (Fin 0) sample_heap = (Val (Done tt), h') ∧ elems EI32 h' sample_view = [4294967295; 7; 7].
Proof.
  pose proof (views_share EI32 sample_heap sample_view (Fin ONE) PInf (Fin 0) sample_ok) as H. change (rel_range sample_view (Fin ONE) PInf) with (1, 2) in H. cbv beta iota in H.
  destruct H as (v & H1 & _ & _ & _ & _ & h' & H2 & _ & H3). exists v, h'. split; [exact H1|]. split; [exact H2|]. rewrite H3. vm_compute. reflexivity.
Defined.
