(* ===== verification/BufferText.v ===== *)
(** * Text operations on buffers, and Buffer.concat

    [toStrRangeHelper], [textDecodeHelper], [writeStrHelper], [fillStrHelper],
    [byteLenStrHelper], [isEncodingHelper], [concatHelper] and
    [concatLenHelper] of typedarrays.ts
    (src/packages/compiler/src/backend/wasm/), over the heap of storage arrays. *)

From S2P Require Import Prelude F64 Arrays BytesDecode BytesEncode BufferNumbers BufferOps DataViews TypedArrays.

#[local] Open Scope arr_scope.

(** ** The encoders and decoders on the heap *)

(** Code that only reads its own data. *)
Definition lift {A} (m : BM A) : HM A := λ h, ((m tt).1, h).
Definition toStr_view (e : enc) (b : bufv) : HM (list Z) := λ h,
  match h !! ARR b with Some a => lift (toStr e (mkView a (BO b) (BL b))) h | None => (Trap, h) end.
(** A fresh $bytes of the encoded string. *)
Definition fromStr_new (e : enc) (s : list Z) : HM bufv := v <- lift (fromStr e s);; a <- alloc (STORAGE v);; mret (mkB a (BOFF v) (BLEN v)).

(** ** toString(enc, start, end), TextDecoder.decode *)

Definition clamp_pos (x : num) (n : Z) : num := math_min (math_max (to_index x) (Fin 0)) (i2d n).
Definition toStrRange (e : enc) (b : bufv) (rawstart rawend : num) : HM (list Z) :=
  s <- of_option (trunc_s32 (clamp_pos rawstart (BL b)));;
  t <- of_option (trunc_s32 (clamp_pos rawend (BL b)));;
  toStr_view e (mkB (ARR b) (add32 (BO b) s) (if gt_s s t then 0 else sub32 t s)).
Definition textDecode (b : bufv) : HM (list Z) :=
  bom <- (if ge_s (BL b) 3 then
            x <- get_u b (add32 (BO b) 0);; y <- get_u b (add32 (BO b) 1);; z <- get_u b (add32 (BO b) 2);;
            mret ((x =? 0xef) && (y =? 0xbb) && (z =? 0xbf))
          else mret false);;
  v <- (if bom : bool then subarray EU8 b (num_of_Z 3) (i2d (BL b)) else mret b);;
  toStr_view Utf8 v.

(** ** write *)

Definition back_step (a : bufv) (lead : Z) : HM (Z + Z) :=
  if lead =? 0 then mret (inr lead)
  else x <- get_u a lead;; if negb (Z.land x 0xc0 =? 0x80) then mret (inr lead) else mret (inl (sub32 lead 1)).
Definition seq_len (x : Z) : Z :=
  if Z.land x 0xf8 =? 0xf0 then 4 else if Z.land x 0xf0 =? 0xe0 then 3 else if Z.land x 0xe0 =? 0xc0 then 2 else 1.
Definition emitUtf8WriteBackoff (a : bufv) (k : Z) : HM Z :=
  lead <- loop (S (Z.to_nat k)) (back_step a) k;;
  if gt_s k lead then x <- get_u a lead;; mret (if gt_s (add32 lead (seq_len x)) k then lead else k) else mret k.
(** The count moved back to a boundary of the encoding, when the text is cut. *)
Definition cut_boundary (e : enc) (encd : bufv) (k : Z) : HM Z :=
  if gt_s (BL encd) k then
    match e with Utf16le => mret (sub32 k (Z.rem k 2)) | Utf8 => emitUtf8WriteBackoff encd k | _ => mret k end
  else mret k.
Definition writeStr (e : enc) (b : bufv) (s : list Z) (offset : num) (haslen : bool) (length : num) : HM (outcome num) :=
  let max := i2d (BL b) in
  match validateOff "offset" offset max with
  | Some err => mret (Throws err)
  | None =>
      match (if haslen then validateOff "length" length max else None) with
      | Some err => mret (Throws err)
      | None =>
          let remaining := num_sub max offset in
          let budget := if haslen && num_lt length remaining then length else remaining in
          encd <- fromStr_new e s;;
          k <- (if num_lt budget (i2d (BL encd)) then of_option (trunc_s32 budget) else mret (BL encd));;
          k <- cut_boundary e encd k;;
          o <- of_option (trunc_s32 offset);;
          copy_u b (add32 (BO b) o) encd (BO encd) k;;;
          mret (Done (i2d k))
      end
  end.
Definition fillStr (e : enc) (b : bufv) (s : list Z) (nargs : Z) (offset end_ : num) : HM (outcome bufv) :=
  pattern <- fromStr_new e s;; fillCore true b pattern nargs offset end_.

(** ** byteLength, isEncoding *)

(** One trailing [=] stripped, when more than [k] units are left. *)
Definition strip_pad (s : list Z) (k n : Z) : BM Z := if gt_s n k then u <- unit_at s (sub32 n 1);; mret (if u =? 0x3d then sub32 n 1 else n) else mret n.
Definition byteLenStr (e : enc) (s : list Z) : BM num :=
  match e with
  | Utf8 => v <- fromStr e s;; mret (i2d (BLEN v))
  | Latin1 | Ascii => mret (i2d (len s))
  | Utf16le => mret (i2d (mul32 (len s) 2))
  | Hex => mret (i2d (Z.shiftr (len s) 1))
  | Base64 | Base64url => n <- strip_pad s 0 (len s);; n <- strip_pad s 1 n;; mret (i2d (Z.shiftr (mul32 n 3) 2))
  end.
Fixpoint eq_chars (s : list Z) (i : Z) (lit : list Z) (acc : bool) : BM bool :=
  match lit with
  | [] => mret acc
  | l :: lit => ch <- unit_at s i;; eq_chars s (i + 1) lit (acc && ((if (65 <=? ch) && (ch <=? 90) then add32 ch 32 else ch) =? l))
  end.
Definition emitCiEqLit (s : list Z) (lit : string) : BM bool := if len s =? len (codes lit) then eq_chars s 0 (codes lit) true else mret false.
Definition candidates : list string :=
  ["utf8"; "utf-8"; "hex"; "base64"; "base64url"; "latin1"; "binary"; "ascii"; "utf16le"; "utf-16le"; "ucs2"; "ucs-2"]%string.
Fixpoint any_of (s : list Z) (lits : list string) (acc : bool) : BM bool :=
  match lits with [] => mret acc | lit :: lits => r <- emitCiEqLit s lit;; any_of s lits (acc || r) end.
Definition isEncoding (s : list Z) : BM bool := any_of s candidates false.

(** ** concat *)

Definition cat_step (list_ : list bufv) (out : bufv) (total : Z) (st : Z * Z) : HM (Z * Z + unit) :=
  let '(o, i) := st in
  if ge_s i (len list_) then mret (inr tt)
  else if ge_s o total then mret (inr tt)
  else
    part <- of_option (list_ !! Z.to_nat i);;
    let take := if gt_s (BL part) (sub32 total o) then sub32 total o else BL part in
    copy_u out o part (BO part) take;;;
    mret (inl (add32 o take, add32 i 1)).
Definition concatLen (list_ : list bufv) (total : num) : HM (outcome bufv) :=
  if len list_ =? 0 then a <- alloc [];; mret (Done (mkB a 0 0))
  else match validateOff "length" total MAX_SAFE with
  | Some err => mret (Throws err)
  | None =>
      emitByteSizeGuard 1 total;;;
      n <- of_option (trunc_s32 total);;
      out <- alloc (zeros n);;
      loop (S (length list_)) (cat_step list_ (mkB out 0 n) n) (0, 0);;;
      mret (Done (mkB out 0 n))
  end.
Definition sum_step (list_ : list bufv) (st : num * Z) : HM (num * Z + num) :=
  let '(total, i) := st in
  if ge_s i (len list_) then mret (inr total)
  else part <- of_option (list_ !! Z.to_nat i);; mret (inl (num_add total (i2d (BL part)), add32 i 1)).
Definition concat_ (list_ : list bufv) : HM (outcome bufv) :=
  total <- loop (S (length list_)) (sum_step list_) (Fin 0, 0);; concatLen list_ total.

Definition text_heap : heap := [[0; 0xef; 0xbb; 0xbf; 0x68; 0xc3; 0xa9; 0; 0; 0]].
Definition text_view : bufv := mkB 0 1 6.
Example sample_buffer_text :
  textDecode text_view text_heap = (Val [0x68; 0xe9], text_heap) ∧
  toStrRange Utf8 text_view (num_of_Z 3) PInf text_heap = (Val [0x68; 0xe9], text_heap) ∧
  writeStr Utf8 (mkB 0 4 6) [0x41; 0xd83d; 0xde00; 0x42] (num_of_Z 2) false NaN text_heap = (Val (Done (num_of_Z 1)), [[0; 0xef; 0xbb; 0xbf; 0x68; 0xc3; 0x41; 0; 0; 0]; [0x41; 0xf0; 0x9f; 0x98; 0x80; 0x42]]) ∧
  (byteLenStr Base64 (codes "QQ===") tt).1 = Val (num_of_Z 2) ∧ (isEncoding (codes "UTF-8") tt).1 = Val true ∧ (isEncoding (codes "utf-9") tt).1 = Val false ∧
  concat_ [text_view; mkB 0 0 2] text_heap = (Val (Done (mkB 1 0 8)), text_heap ++ [[0xef; 0xbb; 0xbf; 0x68; 0xc3; 0xa9; 0; 0xef]]) ∧
  concatLen [text_view; mkB 0 0 2] (num_of_Z 7) text_heap = (Val (Done (mkB 1 0 7)), text_heap ++ [[0xef; 0xbb; 0xbf; 0x68; 0xc3; 0xa9; 0]]).
Proof. vm_compute. done. Qed.

(** ** Encoding and decoding through the heap *)

Lemma bok_view h b : bok h b → view_ok (mkView (array_of h b) (BO b) (BL b)).
Proof. intros [P1 P2 P3 P4 P5]. split; cbn; try done; lia. Qed.
Lemma toStr_view_run e h b : bok h b → toStr_view e b h = (Val (decode e (bytes_of h b)), h).
Proof. intros Hb. unfold toStr_view. rewrite (bok_array _ _ Hb). unfold lift. rewrite toStr_exact by (by apply bok_view). done. Qed.

Lemma fromStr_new_run e s (h : heap) : Forall unit16 s → len s < 2 ^ 29 → fromStr_new e s h = (Val (mkB (length h) 0 (len (encode e s))), h ++ [encode e s]).
Proof. intros Hs Hl. unfold fromStr_new, mbind, lift. by rewrite fromStr_exact. Qed.

(** A part of a view is a view. *)
Lemma bok_part h b s n : bok h b → 0 <= s → 0 <= n → s + n <= BL b → let v := mkB (ARR b) (BO b + s) n in bok h v ∧ bytes_of h v = slice (bytes_of h b) s n.
Proof.
  intros Hb Hs Hn Hl v. destruct (slice_bytes h b s n Hb Hs Hn Hl) as [<- _]. destruct Hb as [P1 P2 P3 P4 P5]. split; [|done].
  split; cbn [ARR BO BL v]; try done; try lia. unfold array_of in *. cbn [ARR v]. lia.
Qed.

Lemma bok_vok h b : bok h b ↔ vok EU8 h b.
Proof. split; intros [P1 P2 P3 P4 P5]; [split|intros]; try done; cbn [esize]; try lia. split; try done; cbn [esize] in *; lia. Qed.

(** A position clamped to a view. *)
Definition clamp (x : num) (n : Z) : Z :=
  match to_integer x with Some j => Z.min (Z.max 0 j) n | None => match x with PInf => n | _ => 0 end end.
Lemma clamp_run x n : 0 <= n < 2 ^ 31 → trunc_s32 (clamp_pos x n) = Some (clamp x n).
Proof.
  intros Hn. unfold clamp_pos, clamp. rewrite i2d_small by done. pose proof ONE_pos as HO. destruct (to_integer x) as [j|] eqn:Ej.
  - assert (Hm : is_int (math_max (to_index x) (Fin 0)) (Z.max 0 j)).
    { destruct (to_index_int x j Ej) as [->|[-> ->]]; [|by left]. unfold math_max. cbn [is_nan orb key]. destruct (Z.ltb_spec (j * ONE) 0); [left; f_equal; nia|].
      destruct (Z.ltb_spec 0 (j * ONE)); [left; f_equal; nia|]. cbn [sign_neg]. rewrite (proj2 (Z.ltb_ge (j * ONE) 0)) by lia. left. f_equal. nia. }
    assert (Hi : is_int (math_min (math_max (to_index x) (Fin 0)) (Fin (n * ONE))) (Z.min (Z.max 0 j) n)).
    { destruct Hm as [->|[-> E0]]; unfold math_min; cbn [is_nan orb key].
      - destruct (Z.ltb_spec (Z.max 0 j * ONE) (n * ONE)); [left; f_equal; nia|]. destruct (Z.ltb_spec (n * ONE) (Z.max 0 j * ONE)); [left; f_equal; nia|]. cbn [sign_neg]. destruct (_ <? 0); left; f_equal; nia.
      - rewrite E0. destruct (Z.ltb_spec 0 (n * ONE)); [right; split; [done|lia]|]. destruct (Z.ltb_spec (n * ONE) 0); [nia|]. cbn [sign_neg]. right. split; [done|nia]. }
    apply trunc_s32_int; [exact Hi|lia].
  - destruct (to_index_inf x Ej) as [<- [->| ->]].
    + assert (E : math_min (math_max PInf (Fin 0)) (Fin (n * ONE)) = Fin (n * ONE)).
      { change (math_max PInf (Fin 0)) with PInf. unfold math_min. cbn [is_nan orb]. destruct (scaled_infinities n) as [H _]; [lia|]. unfold num_lt in H. cbn [is_nan negb andb] in H. rewrite H. destruct (key PInf <? key (Fin (n * ONE))) eqn:E; [|done]. zb. lia. }
      rewrite E. apply trunc_s32_int; [by left|lia].
    + change (math_max NInf (Fin 0)) with (Fin 0). assert (E : is_int (math_min (Fin 0) (Fin (n * ONE))) 0).
      { unfold math_min. cbn [is_nan orb key]. destruct (Z.ltb_spec 0 (n * ONE)); [by left|]. destruct (Z.ltb_spec (n * ONE) 0); [nia|]. left. cbn. f_equal. nia. }
      apply trunc_s32_int; [exact E|lia].
Qed.
Lemma clamp_range x n : 0 <= n → 0 <= clamp x n <= n.
Proof. intros Hn. unfold clamp. destruct (to_integer x); [lia|]. destruct x; lia. Qed.

(** [toString(enc, start, end)] decodes the bytes of the clamped window:
    NaN and what is negative count as 0, what is past the end as the end, and an
    end before the start gives the empty text; the heap is untouched. *)
Theorem toStrRange_exact (e : enc) (h : heap) (b : bufv) (rawstart rawend : num) : bok h b →
  let s := clamp rawstart (BL b) in let t := clamp rawend (BL b) in
  toStrRange e b rawstart rawend h = (Val (decode e (slice (bytes_of h b) s (t - s))), h).
Proof.
  intros Hb s t. pose proof (bok_len _ _ Hb). pose proof (bok_off _ _ Hb). pose proof (bok_fits _ _ Hb). pose proof (clamp_range rawstart (BL b) ltac:(lia)). pose proof (clamp_range rawend (BL b) ltac:(lia)). unfold toStrRange, mbind. rewrite !clamp_run by lia. cbn [of_option]. unfold mret. fold s t. fold s in H2. fold t in H3.
  rewrite gt_s_small, add32_id by lia. destruct (Z.ltb_spec t s).
  - destruct (bok_part h b s 0 Hb) as [Hv Ev]; [lia..|]. rewrite toStr_view_run, Ev by done. do 3 f_equal. unfold slice. by replace (Z.to_nat (t - s)) with 0%nat by lia.
  - rewrite sub32_id by lia. destruct (bok_part h b s (t - s) Hb) as [Hv Ev]; [lia..|]. by rewrite toStr_view_run, Ev by done.
Qed.

(** The bytes without the mark a UTF-8 text may start with. *)
Definition without_bom (bs : list Z) : list Z := match bs with x :: y :: z :: rest => if (x =? 0xef) && (y =? 0xbb) && (z =? 0xbf) then rest else bs | _ => bs end.

Lemma get_u_run h b i : bok h b → 0 <= i < BL b → ∃ x, bytes_of h b !! Z.to_nat i = Some x ∧ get_u b (add32 (BO b) i) h = (Val x, h).
Proof.
  intros Hb Hi. pose proof (bytes_of_length h b Hb). pose proof (bok_len _ _ Hb). pose proof (bok_off _ _ Hb). pose proof (bok_fits _ _ Hb). destruct (lookup_lt_is_Some_2 (bytes_of h b) (Z.to_nat i)) as [x Hx]; [lia|]. exists x. split; [done|].
  rewrite bytes_of_lookup in Hx by done. unfold get_u. rewrite (bok_array _ _ Hb), add32_id by lia. unfold aget. rewrite (proj2 (Z.ltb_ge _ _)) by lia. by rewrite Hx.
Qed.

(** [new TextDecoder().decode(bytes)] drops one leading byte-order mark and
    decodes the rest. *)
Theorem textDecode_exact (h : heap) (b : bufv) : bok h b → textDecode b h = (Val (decode Utf8 (without_bom (bytes_of h b))), h).
Proof.
  intros Hb. pose proof (bok_len _ _ Hb). pose proof (bytes_of_length h b Hb) as HL. unfold textDecode. rewrite ge_s_small by lia. unfold mbind at 1. destruct (Z.leb_spec 3 (BL b)) as [H3|H3].
  - destruct (get_u_run h b 0 Hb) as (x & Hx & Ex); [lia|]. destruct (get_u_run h b 1 Hb) as (y & Hy & Ey); [lia|]. destruct (get_u_run h b 2 Hb) as (z & Hz & Ez); [lia|]. unfold mbind at 1. rewrite Ex. unfold mbind at 1. rewrite Ey. unfold mbind at 1. rewrite Ez. unfold mret at 1.
    destruct (bytes_of h b) as [|x' [|y' [|z' rest]]] eqn:Eb; cbn [length] in HL; try lia. change (Some x' = Some x) in Hx. change (Some y' = Some y) in Hy. change (Some z' = Some z) in Hz. injection Hx as ->. injection Hy as ->. injection Hz as ->. cbn [without_bom]. destruct ((x =? 239) && (y =? 187) && (z =? 191)) eqn:E.
    + pose proof (subarray_exact EU8 h b (num_of_Z 3) (i2d (BL b)) (proj1 (bok_vok h b) Hb)) as Hs. assert (Er : rel_range b (num_of_Z 3) (i2d (BL b)) = (3, BL b - 3)).
      { unfold rel_range, rel_index. rewrite i2d_small, (num_of_Z_int 3) by lia. cbn [to_integer]. pose proof ONE_pos. unfold num_to_Z. rewrite !Z.quot_mul by lia. cbn [Z.ltb Z.compare]. rewrite (proj2 (Z.ltb_ge (BL b) 0)) by lia. f_equal; lia. }
      rewrite Er in Hs. destruct Hs as (Es & Hv & He). unfold mbind. rewrite Es. rewrite Z.mul_1_l in *. destruct (bok_part h b 3 (BL b - 3) Hb) as [Hv' Ev']; [lia..|]. rewrite toStr_view_run by done. do 3 f_equal. etrans; [exact Ev'|]. rewrite Eb. unfold slice. cbn [Z.to_nat Pos.to_nat Pos.iter_op Nat.add drop]. apply firstn_all2. cbn [length]. lia.
    + unfold mbind, mret. by rewrite toStr_view_run, Eb by done.
  - unfold mret at 1, mbind, mret. rewrite toStr_view_run by done. do 3 f_equal. destruct (bytes_of h b) as [|x' [|y' [|z' rest]]]; cbn [length] in HL; try lia; done.
Qed.

(** ** Whole characters *)

Lemma lead_table x : byte x → (Z.land x 0xc0 =? 0x80) = (0x80 <=? x) && (x <? 0xc0) ∧
  seq_len x = if x <? 0xc0 then 1 else if x <? 0xe0 then 2 else if x <? 0xf0 then 3 else if x <? 0xf8 then 4 else 1.
Proof.
  intros Hx. pose proof (below_table 256 (λ x, Bool.eqb (Z.land x 0xc0 =? 0x80) ((0x80 <=? x) && (x <? 0xc0)) &&
    (seq_len x =? if x <? 0xc0 then 1 else if x <? 0xe0 then 2 else if x <? 0xf0 then 3 else if x <? 0xf8 then 4 else 1)) ltac:(vm_compute; reflexivity) x Hx) as H.
  cbn beta in H. apply andb_true_iff in H as [H1 H2]. apply Bool.eqb_prop in H1. zb. by split.
Qed.

(** A character is a lead byte, whose count is right, and continuation bytes. *)
Lemma utf8_bytes_shape c : scalar c → ∃ x t, utf8_bytes c = x :: t ∧ byte x ∧ (Z.land x 0xc0 =? 0x80) = false ∧ seq_len x = len (utf8_bytes c) ∧ Forall (λ y, byte y ∧ (Z.land y 0xc0 =? 0x80) = true) t.
Proof.
  intros Hc. pose proof (utf8_bytes_byte c Hc) as Hb. destruct Hc as [Hc _]. unfold utf8_bytes in *.
  assert (Hcont : ∀ y, 0x80 <= y < 0xc0 → byte y ∧ (Z.land y 0xc0 =? 0x80) = true).
  { intros y Hy. assert (Hy' : byte y) by (unfold byte; lia). split; [done|]. rewrite (proj1 (lead_table y Hy')). apply andb_true_iff. split; zb; lia. }
  assert (Hlead : ∀ x n, byte x → (if n =? 1 then x < 0x80 else if n =? 2 then 0xc0 <= x < 0xe0 else if n =? 3 then 0xe0 <= x < 0xf0 else 0xf0 <= x < 0xf8) → 1 <= n <= 4 → (Z.land x 0xc0 =? 0x80) = false ∧ seq_len x = n).
  { intros x n Hx Hn H14. destruct (lead_table x Hx) as [-> ->]. assert (n = 1 ∨ n = 2 ∨ n = 3 ∨ n = 4) as [->|[->|[->| ->]]] by lia; cbn [Z.eqb Pos.eqb] in Hn;
      (split; [apply andb_false_iff; rewrite Z.leb_gt, Z.ltb_ge; lia|]); repeat (match goal with |- context [?a <? ?b] => destruct (Z.ltb_spec a b) end); lia. }
  repeat case_match; zb; eexists _, _; (split; [reflexivity|]); rewrite !Forall_cons in Hb; destruct Hb as [Hx Ht]; (split; [exact Hx|]);
    (match goal with |- ?A ∧ ?B ∧ _ => assert (HAB : A ∧ B) by (apply Hlead; [exact Hx| |cbn; lia]; cbn [length]; change (Z.of_nat 1) with 1; change (Z.of_nat 2) with 2; change (Z.of_nat 3) with 3; change (Z.of_nat 4) with 4; cbn [Z.eqb Pos.eqb]; Z.to_euclidean_division_equations; lia) end);
    destruct HAB as [HA HB]; (split; [exact HA|]); (split; [exact HB|]);
    repeat (apply Forall_cons; split; [apply Hcont; Z.to_euclidean_division_equations; lia|]); apply Forall_nil; exact I.
Qed.

(** How many characters encode to at most [k] bytes. *)
Fixpoint whole (k : Z) (cs : list Z) : nat :=
  match cs with [] => 0 | c :: cs => if len (utf8_bytes c) <=? k then S (whole (k - len (utf8_bytes c)) cs) else 0 end.
Notation utf8_of := (flat_map utf8_bytes).

Lemma whole_le k cs : (whole k cs <= length cs)%nat.
Proof. revert k. induction cs as [|c cs IH]; intros k; cbn [whole]; [done|]. destruct (_ <=? k); cbn [length]; [specialize (IH (k - len (utf8_bytes c)))|]; lia. Qed.
Lemma whole_fits k cs : 0 <= k → len (utf8_of (take (whole k cs) cs)) <= k.
Proof.
  revert k. induction cs as [|c cs IH]; intros k Hk; cbn [whole]; [by rewrite take_nil|]. destruct (Z.leb_spec (len (utf8_bytes c)) k); [|done].
  cbn [take flat_map]. rewrite length_app. specialize (IH (k - len (utf8_bytes c)) ltac:(lia)). lia.
Qed.
Lemma whole_longest k cs (n : nat) : 0 <= k → (n <= length cs)%nat → len (utf8_of (take n cs)) <= k → (n <= whole k cs)%nat.
Proof.
  revert k n. induction cs as [|c cs IH]; intros k [|n] Hk Hn Hl; cbn [whole length] in *; try lia. cbn [take flat_map] in Hl. rewrite length_app in Hl.
  rewrite (proj2 (Z.leb_le _ _)) by lia. specialize (IH (k - len (utf8_bytes c)) n ltac:(lia) ltac:(lia) ltac:(lia)). lia.
Qed.
(** The character a cut inside the text falls in. *)
Lemma whole_split k cs : 0 <= k < len (utf8_of cs) → ∃ P c R, cs = P ++ c :: R ∧ whole k cs = length P ∧ len (utf8_of P) <= k < len (utf8_of P) + len (utf8_bytes c).
Proof.
  revert k. induction cs as [|c cs IH]; intros k Hk; cbn [flat_map length] in Hk; [lia|]. rewrite length_app in Hk. cbn [whole]. destruct (Z.leb_spec (len (utf8_bytes c)) k).
  - destruct (IH (k - len (utf8_bytes c))) as (P & c' & R & -> & E & Hr); [lia|]. exists (c :: P), c', R. split; [done|]. split; [by rewrite E|]. cbn [flat_map]. rewrite length_app. lia.
  - exists [], c, cs. split; [done|]. split; [done|]. cbn. lia.
Qed.

Lemma get_u_at (h : heap) a A i x : h !! ARR a = Some A → 0 <= i → A !! Z.to_nat i = Some x → get_u a i h = (Val x, h).
Proof. intros Ha Hi Hx. unfold get_u, aget. rewrite Ha, (proj2 (Z.ltb_ge i 0)) by done. by rewrite Hx. Qed.

Lemma backoff_exact (h : heap) a k cs : h !! ARR a = Some (utf8_of cs) → Forall scalar cs → 0 <= k < len (utf8_of cs) → len (utf8_of cs) < 2 ^ 31 →
  emitUtf8WriteBackoff a k h = (Val (len (utf8_of (take (whole k cs) cs))), h).
Proof.
  intros Ha Hs Hk Hl. assert (Hk31 : k < 2 ^ 31) by lia. destruct (whole_split k cs Hk) as (P & c & R & -> & -> & Hp). rewrite take_app_length. apply Forall_app in Hs as [_ Hs]. apply Forall_cons in Hs as [Hc _].
  destruct (utf8_bytes_shape c Hc) as (x & t & Et & Hx & Hxl & Hxn & Ht). set (p := len (utf8_of P)) in *. rewrite flat_map_app in Ha, Hl. cbn [flat_map] in Ha, Hl. rewrite Et in *. cbn [length] in *.
  assert (Hat : ∀ i y, 0 <= i → (x :: t) !! Z.to_nat i = Some y → get_u a (p + i) h = (Val y, h)).
  { intros i y Hi Hy. apply (get_u_at h a _ (p + i) y Ha); [lia|]. rewrite lookup_app_r by lia. replace (Z.to_nat (p + i) - length (utf8_of P))%nat with (Z.to_nat i) by lia. by apply lookup_app_l_Some. }
  assert (Hloop : loop (S (Z.to_nat k)) (back_step a) k h = (Val p, h)).
  { apply run_wp. apply wp_loop with (λ lead h', p <= lead <= k ∧ h' = h) (λ lead, lead - p); [split; [lia|done]|lia|]. intros lead h' (Hr & ->) _. unfold back_step.
    destruct (Z.eqb_spec lead 0); [apply wp_mret; split; [lia|done]|]. destruct (lookup_lt_is_Some_2 (x :: t) (Z.to_nat (lead - p))) as [y Hy]; [cbn [length]; lia|].
    apply wp_bind. eapply wp_eq; [replace lead with (p + (lead - p)) by lia; apply (Hat _ y); [lia|done]|]. destruct (decide (lead = p)) as [->|Hne].
    - rewrite Z.sub_diag in Hy. injection Hy as <-. rewrite Hxl. cbn [negb]. by apply wp_mret.
    - replace (Z.to_nat (lead - p)) with (S (Z.to_nat (lead - p - 1))) in Hy by lia. cbn [lookup list_lookup] in Hy. eapply Forall_lookup_1 in Ht as [_ Hyc]; [|exact Hy]. rewrite Hyc. cbn [negb].
      apply wp_mret. rewrite sub32_id by lia. split; [split; [lia|done]|lia]. }
  unfold emitUtf8WriteBackoff. unfold mbind at 1. rewrite Hloop, gt_s_small by lia. destruct (Z.ltb_spec p k) as [Hlt|]; [|unfold mret; do 2 f_equal; lia].
  unfold mbind. replace p with (p + 0) at 1 by lia. rewrite (Hat 0 x) by (done || lia). unfold mret. rewrite Hxn. rewrite add32_id, gt_s_small by (rewrite ?length_app in Hl; cbn [length app] in *; rewrite ?length_app in *; lia).
  rewrite (proj2 (Z.ltb_lt _ _)) by lia. done.
Qed.

(** ** Bytes of every encoding *)

Lemma hexval_range u : emitHexVal u < 16.
Proof. unfold emitHexVal. repeat case_match; zb; lia. Qed.
Lemma unhex_bytes us : Forall byte (unhex us).
Proof.
  induction us as [| |a b us IH] using pair_ind; [constructor..|]. cbn [unhex]. destruct (_ || _) eqn:E; [constructor|]. apply orb_false_iff in E as [E1 E2]. zb.
  constructor; [|done]. pose proof (hexval_range a). pose proof (hexval_range b). unfold byte. lia.
Qed.
Lemma unsix_bytes vs : Forall (λ v, 0 <= v < 64) vs → Forall byte (unsix vs).
Proof.
  assert (H : ∀ (n : nat) vs, (length vs <= n)%nat → Forall (λ v, 0 <= v < 64) vs → Forall byte (unsix vs)); [|by apply (H (length vs))].
  clear vs. induction n as [|n IH]; intros vs Hl Hv; [destruct vs; [constructor|cbn in Hl; lia]|].
  destruct vs as [|a [|b [|c [|d vs]]]]; cbn [unsix app]; rewrite ?Forall_cons in Hv; try constructor;
    unfold byte; try (Z.to_euclidean_division_equations; lia); try (repeat constructor; Z.to_euclidean_division_equations; lia).
  repeat (apply Forall_cons; split; [Z.to_euclidean_division_equations; lia|]). apply IH; [cbn [length] in Hl; lia|tauto].
Qed.
Lemma encode_byte e s : Forall unit16 s → Forall byte (encode e s).
Proof.
  intros Hs. assert (Hsix : Forall byte (unsix (sixes s))).
  { apply unsix_bytes, Forall_forall. intros v Hv. unfold sixes in Hv. rewrite list_elem_of_filter, list_elem_of_In, in_map_iff in Hv. destruct Hv as [H0 (u & <- & _)]. pose proof (b64val_range [] u). lia. }
  destruct e; try exact Hsix; [by apply encode_bytes; [|set_solver]|by apply encode_bytes; [|set_solver]| | |apply unhex_bytes]; cbn [encode]; apply Forall_map, Forall_true; intros u; unfold byte; apply Z.mod_pos_bound; lia.
Qed.
Lemma unhex_length us : len (unhex us) <= len us.
Proof. induction us as [| |a b us IH] using pair_ind; [cbn; lia..|]. cbn [unhex]. destruct (_ || _); cbn [length]; lia. Qed.
Lemma unsix_length vs : len (unsix vs) <= len vs.
Proof.
  assert (H : ∀ (n : nat) vs, (length vs <= n)%nat → len (unsix vs) <= len vs); [|by apply (H (length vs))].
  clear vs. induction n as [|n IH]; intros vs Hl; [destruct vs; [done|cbn in Hl; lia]|].
  destruct vs as [|a [|b [|c [|d vs]]]]; cbn [unsix app length] in *; try lia. specialize (IH vs ltac:(lia)). lia.
Qed.
Lemma encode_length e s : Forall unit16 s → len (encode e s) <= 3 * len s.
Proof.
  intros Hs. assert (Hsix : len (unsix (sixes s)) <= 3 * len s).
  { pose proof (unsix_length (sixes s)). assert (length (sixes s) <= length s)%nat by (unfold sixes; etrans; [apply length_filter|by rewrite length_map]). lia. }
  pose proof (unhex_length s). destruct e; try exact Hsix; [by apply encode_bytes; [|set_solver]|by apply encode_bytes; [|set_solver]|..]; cbn [encode]; rewrite ?length_map; lia.
Qed.

(** ** write *)

(** The part of an encoded string that fits into [room] bytes: whole characters
    in utf8, whole units in utf16le, any bytes otherwise. *)
Definition fitting (e : enc) (s : list Z) (room : Z) : list Z :=
  match e with
  | Utf8 => utf8_of (take (whole room (points s)) (points s))
  | Utf16le => encode Utf16le (take (Z.to_nat (room / 2)) s)
  | _ => take (Z.to_nat room) (encode e s)
  end.

Lemma utf16_take s (n : nat) : encode Utf16le (take n s) = take (2 * n) (encode Utf16le s).
Proof. revert n. induction s as [|u s IH]; intros [|n]; cbn [take encode flat_map app] in *; try done. replace (2 * S n)%nat with (S (S (2 * n))) by lia. cbn [take]. by rewrite <- IH. Qed.
Lemma utf16_length s : len (encode Utf16le s) = 2 * len s.
Proof. cbn [encode]. induction s as [|u s IH]; [done|]. cbn [flat_map app length] in *. lia. Qed.
Lemma utf8_take cs (n : nat) : utf8_of (take n cs) = take (length (utf8_of (take n cs))) (utf8_of cs).
Proof. rewrite <- (take_drop n cs) at 3. rewrite flat_map_app. by rewrite take_app_length. Qed.

Lemma utf8_take_mono cs (n m : nat) : (n <= m)%nat → len (utf8_of (take n cs)) <= len (utf8_of (take m cs)).
Proof. intros H. rewrite <- (take_drop n (take m cs)), take_take, Nat.min_l by done. rewrite flat_map_app, length_app. lia. Qed.

(** What is written is the encoded text cut at the adjusted count. *)
Lemma fitting_prefix e s room : Forall unit16 s → 0 <= room → len (fitting e s room) <= room ∧ fitting e s room = take (length (fitting e s room)) (encode e s).
Proof.
  intros Hs Hr. assert (Hd : len (take (Z.to_nat room) (encode e s)) <= room ∧ take (Z.to_nat room) (encode e s) = take (length (take (Z.to_nat room) (encode e s))) (encode e s)).
  { split; [rewrite length_take; lia|]. rewrite length_take. destruct (Nat.min_spec (Z.to_nat room) (length (encode e s))) as [[? ->]|[? ->]]; [done|]. rewrite !firstn_all2 by lia. done. }
  destruct e; try exact Hd; unfold fitting.
  - split; [by apply whole_fits|apply utf8_take].
  - split; [rewrite utf16_length, length_take; Z.to_euclidean_division_equations; lia|]. pose proof (utf16_length (take (Z.to_nat (room / 2)) s)) as HL. rewrite utf16_take at 1.
    pose proof (utf16_length s). rewrite length_take in HL. destruct (decide (Z.to_nat (room / 2) <= length s)%nat); [f_equal; lia|]. rewrite !firstn_all2 by lia. done.
Qed.

Lemma slice_overwrite_in A w p n o : 0 <= p → 0 <= n → p + n <= len A → 0 <= o → o + len w <= n → slice (overwrite A w (p + o)) p n = overwrite (slice A p n) w o.
Proof.
  intros Hp Hn HA Ho Hw. assert (HS : length (slice A p n) = Z.to_nat n) by (by apply slice_length). apply list_eq. intros j. unfold slice at 1. destruct (decide (j < Z.to_nat n)%nat) as [Hj|Hj].
  - rewrite lookup_take_lt, lookup_drop, !overwrite_lookup by lia. unfold slice. rewrite lookup_take_lt, lookup_drop by lia.
    destruct (Z.leb_spec (p + o) (Z.of_nat (Z.to_nat p + j))), (Z.leb_spec o (Z.of_nat j)), (Z.ltb_spec (Z.of_nat (Z.to_nat p + j)) (p + o + len w)), (Z.ltb_spec (Z.of_nat j) (o + len w)); cbn [andb]; try lia; try done. f_equal. lia.
  - rewrite lookup_take_ge by lia. symmetry. apply lookup_ge_None_2. rewrite overwrite_length by lia. lia.
Qed.

(** A new array leaves the views there are. *)
Lemma bok_extend (h : heap) A b : bok h b → bok (h ++ [A]) b ∧ array_of (h ++ [A]) b = array_of h b ∧ bytes_of (h ++ [A]) b = bytes_of h b.
Proof.
  intros [P1 P2 P3 P4 P5]. assert (E : array_of (h ++ [A]) b = array_of h b) by (by apply array_of_extend). split; [|split; [done|unfold bytes_of; by rewrite E]].
  split; rewrite ?E; try done. by rewrite lookup_app_l by (by apply lookup_lt_Some in P1).
Qed.
(** Bytes copied over a part of a view. *)
Lemma bok_write h b w o : bok h b → Forall byte w → 0 <= o → o + len w <= BL b → let h' := <[ARR b := overwrite (array_of h b) w (BO b + o)]> h in
  bok h' b ∧ bytes_of h' b = overwrite (bytes_of h b) w o.
Proof.
  intros [P1 P2 P3 P4 P5] Hw Ho Hl h'. assert (E : array_of h' b = overwrite (array_of h b) w (BO b + o)) by (unfold h'; rewrite array_of_insert, decide_True by done; done).
  assert (HL : length (overwrite (array_of h b) w (BO b + o)) = length (array_of h b)) by (apply overwrite_length; lia).
  split; [|unfold bytes_of; rewrite E; apply slice_overwrite_in; lia]. split; rewrite ?E; try done; [apply list_lookup_insert_eq; by apply lookup_lt_Some in P1|by apply overwrite_bytes|by rewrite HL].
Qed.
(** [array.copy] of a part of a view. *)
Lemma copy_bytes (h : heap) dst D b s n di : bok h b → h !! ARR dst = Some D → 0 <= s → 0 <= n → s + n <= BL b → 0 <= di → di + n <= len D →
  copy_u dst di b (BO b + s) n h = (Val tt, <[ARR dst := overwrite D (slice (bytes_of h b) s n) di]> h).
Proof.
  intros Hb HD Hs Hn Hl Hdi Hd. destruct (slice_bytes h b s n Hb Hs Hn Hl) as [<- _]. destruct Hb as [P1 P2 P3 P4 P5]. unfold copy_u. rewrite HD, P1. unfold acopy. rewrite !(proj2 (Z.ltb_ge _ _)) by lia. cbn [orb].
  do 2 f_equal. unfold overwrite. rewrite slice_length by lia. by rewrite Z2Nat.id by lia.
Qed.
(** [array.copy] of the first bytes of an array. *)
Lemma copy_prefix (h : heap) dst D src S (n : nat) di : h !! ARR dst = Some D → h !! ARR src = Some S → (n <= length S)%nat → 0 <= di → di + Z.of_nat n <= len D →
  copy_u dst di src 0 (Z.of_nat n) h = (Val tt, <[ARR dst := overwrite D (take n S) di]> h).
Proof.
  intros HD HS Hn Hdi Hd. unfold copy_u. rewrite HD, HS. unfold acopy. rewrite !(proj2 (Z.ltb_ge _ _)) by lia. cbn [orb]. do 2 f_equal. unfold overwrite, slice.
  rewrite length_take, Nat.min_l, Nat2Z.id by lia. change (Z.to_nat 0) with 0%nat. by rewrite drop_0.
Qed.

(** The count that is written: the text cut at the room, then adjusted. *)
Lemma adjust_run e s room (h : heap) k0 : Forall unit16 s → len s < 2 ^ 29 → 0 <= room < 2 ^ 31 → k0 = Z.min room (len (encode e s)) → let encd := mkB (length h) 0 (len (encode e s)) in let h' := h ++ [encode e s] in
  cut_boundary e encd k0 h' = (Val (len (fitting e s room)), h').
Proof.
  intros Hs Hl Hr Hk encd h'. pose proof (encode_length e s Hs) as HE. unfold cut_boundary. cbn [BL encd]. rewrite gt_s_small by lia.
  assert (Hall : len (encode e s) <= room → len (fitting e s room) = len (encode e s)).
  { intros Hge. destruct e; unfold fitting; try (rewrite firstn_all2 by lia; done).
    - cbn [encode] in *. f_equal. f_equal. f_equal. apply firstn_all2. apply whole_longest; [lia|done|by rewrite firstn_all].
    - pose proof (utf16_length s) as H2. rewrite firstn_all2; [done|]. Z.to_euclidean_division_equations. lia. }
  destruct (Z.ltb_spec k0 (len (encode e s))) as [Hlt|Hge]; [|unfold mret; rewrite Hall by lia; do 2 f_equal; lia].
  assert (k0 = room) as -> by lia. assert (Hcut : mret (σ := heap) room h' = (Val (len (take (Z.to_nat room) (encode e s))), h')) by (unfold mret; rewrite length_take; do 2 f_equal; lia).
  destruct e; try exact Hcut; unfold fitting.
  - assert (Ha : h' !! ARR encd = Some (utf8_of (points s))) by (unfold h'; cbn [ARR encd]; by rewrite lookup_app_r, Nat.sub_diag by lia).
    apply (backoff_exact h' encd room (points s) Ha); [by apply points_scalar|cbn [encode] in *; lia|cbn [encode] in *; lia].
  - rewrite utf16_length in Hlt. unfold mret. rewrite Z.rem_mod_nonneg by lia. pose proof (Z.mod_pos_bound room 2 ltac:(lia)). pose proof (Z.div_mod room 2 ltac:(lia)). rewrite sub32_id by lia.
    rewrite utf16_length, length_take. do 2 f_equal. lia.
Qed.

(** C29. [buf.write] throws for a bad offset or length and leaves the heap, or
    writes what fits of the encoded text at the offset, whole characters only
    in utf8 and utf16le, changes nothing else of the buffer nor of the other
    arrays, and answers the count; the characters are as many as fit. *)
Theorem writeStr_exact (e : enc) (h : heap) (b : bufv) (s : list Z) (offset : num) (haslen : bool) (length : num) : bok h b → Forall unit16 s → len s < 2 ^ 29 →
  match validateOff "offset" offset (i2d (BL b)), (if haslen then validateOff "length" length (i2d (BL b)) else None) with
  | Some err, _ | None, Some err => writeStr e b s offset haslen length h = (Val (Throws err), h)
  | None, None => ∃ o room, is_int offset o ∧ 0 <= o ∧ (if haslen then ∃ l, is_int length l ∧ room = Z.min l (BL b - o) else room = BL b - o) ∧ 0 <= room ∧
      let w := fitting e s room in ∃ h', writeStr e b s offset haslen length h = (Val (Done (num_of_Z (len w))), h') ∧ bok h' b ∧
        bytes_of h' b = overwrite (bytes_of h b) w o ∧ (∀ k A, k ≠ ARR b → h !! k = Some A → h' !! k = Some A) ∧
        len w <= room ∧ ∀ n : nat, e = Utf8 → (n <= List.length (points s))%nat → len (utf8_of (take n (points s))) <= room → len (utf8_of (take n (points s))) <= len w
  end.
Proof.
  intros Hb Hs Hl. pose proof (bok_len _ _ Hb) as HB. unfold writeStr. rewrite !(i2d_small (BL b)) by lia. destruct (validateOff "offset" offset _) as [err|] eqn:Eo; [done|].
  apply validateOff_ok in Eo as (o & Io & Ho & Hob); [|lia]. specialize (Hob ltac:(lia)).
  assert (Hlen : (if haslen then validateOff "length" length (Fin (BL b * ONE)) else None) = None → ∃ room, (if haslen then ∃ l, is_int length l ∧ room = Z.min l (BL b - o) else room = BL b - o) ∧ 0 <= room <= BL b - o ∧
    is_int (if haslen && num_lt length (num_sub (Fin (BL b * ONE)) offset) then length else num_sub (Fin (BL b * ONE)) offset) room).
  { rewrite (sub_int offset o) by (done || lia). destruct haslen; intros E; [|exists (BL b - o); split; [done|]; split; [lia|by left]].
    apply validateOff_ok in E as (l & Il & H0 & _); [|lia]. exists (Z.min l (BL b - o)). split; [by exists l|]. split; [lia|]. cbn [andb]. destruct (is_int_lt length l (BL b - o) Il) as [-> _].
    destruct (Z.ltb_spec l (BL b - o)); [by rewrite Z.min_l by lia|rewrite Z.min_r by lia; by left]. }
  destruct (if haslen then validateOff "length" length _ else None) as [err|] eqn:El; [done|]. destruct (Hlen eq_refl) as (room & Hroom & Hr & Ib). clear Hlen.
  exists o, room. split; [done|]. split; [done|]. split; [done|]. split; [lia|]. set (w := fitting e s room). set (budget := if haslen && _ then length else _) in *.
  pose proof (encode_length e s Hs) as HE. destruct (fitting_prefix e s room Hs ltac:(lia)) as [Hw1 Hw2]. fold w in Hw1, Hw2.
  unfold mbind at 1. rewrite fromStr_new_run by done. destruct (bok_extend h (encode e s) b Hb) as (Hb' & Ea & Eb).
  assert (Ek : (if num_lt budget (i2d (len (encode e s))) then of_option (trunc_s32 budget) else mret (len (encode e s))) (h ++ [encode e s]) = (Val (Z.min room (len (encode e s))), h ++ [encode e s])).
  { rewrite i2d_small by lia. destruct (is_int_lt budget room (len (encode e s)) Ib) as [-> _]. destruct (Z.ltb_spec room (len (encode e s))); [rewrite (trunc_s32_int _ room Ib) by lia; unfold of_option; by rewrite Z.min_l by lia|unfold mret; by rewrite Z.min_r by lia]. }
  unfold mbind at 1. cbn [BL]. rewrite Ek. unfold mbind at 1. pose proof (adjust_run e s room h _ Hs Hl ltac:(lia) eq_refl) as Ead. cbv zeta in Ead. rewrite Ead. fold w.
  unfold mbind at 1. rewrite (trunc_s32_int _ o Io) by lia. cbn [of_option]. unfold mret at 1. pose proof (bok_off _ _ Hb). pose proof (bok_fits _ _ Hb). rewrite add32_id by lia. cbn [BO].
  assert (Hwb : Forall byte w) by (rewrite Hw2; apply Forall_take, encode_byte, Hs). assert (Hin : o + len w <= BL b) by lia.
  assert (Hwl : (List.length w <= List.length (encode e s))%nat) by (rewrite Hw2, length_take; lia).
  assert (Ec : copy_u b (BO b + o) (mkB (List.length h) 0 (len (encode e s))) 0 (len w) (h ++ [encode e s]) = (Val tt, <[ARR b := overwrite (array_of h b) w (BO b + o)]> (h ++ [encode e s]))).
  { rewrite (copy_prefix _ b (array_of h b) _ (encode e s)); [by rewrite <- Hw2|rewrite <- Ea; apply (bok_array _ _ Hb')|cbn [ARR]; by rewrite lookup_app_r, Nat.sub_diag by lia|done|lia|lia]. }
  destruct (bok_write _ b w o Hb' Hwb ltac:(lia) Hin) as [Hb2 Eb2]. rewrite Ea, Eb in *. eexists. split; [unfold mbind; rewrite Ec; unfold mret; by rewrite i2d_num by lia|].
  split; [done|]. split; [done|]. split; [|split; [done|]].
  - intros k A Hk HA. rewrite list_lookup_insert_ne by done. by rewrite lookup_app_l by (by apply lookup_lt_Some in HA).
  - intros n -> Hn Hnr. pose proof (whole_longest room (points s) n ltac:(lia) Hn Hnr) as Hle. unfold w, fitting. by apply utf8_take_mono.
Qed.

(** ** concat *)

(** The first [n] bytes, zeros where there are none. *)
Definition padded (n : Z) (xs : list Z) : list Z := take (Z.to_nat n) xs ++ zeros (n - len xs).
Definition joined (h : heap) (bs : list bufv) : list Z := flat_map (bytes_of h) bs.

Lemma padded_length n xs : 0 <= n → len (padded n xs) = n.
Proof. intros Hn. unfold padded, zeros. rewrite length_app, length_take, length_replicate. lia. Qed.
Lemma padded_more n xs ys : n <= len xs → padded n (xs ++ ys) = padded n xs.
Proof. intros Hn. unfold padded, zeros. rewrite take_app_le, length_app by lia. by replace (Z.to_nat (n - Z.of_nat (length xs + length ys))) with (Z.to_nat (n - len xs)) by lia. Qed.
Lemma padded_write n xs ys (t : nat) : 0 <= n → len xs < n → Z.of_nat t = Z.min (len ys) (n - len xs) → overwrite (padded n xs) (take t ys) (len xs) = padded n (xs ++ ys).
Proof.
  intros Hn Hx Ht. assert (E : padded n xs = xs ++ zeros (n - len xs)) by (unfold padded; by rewrite firstn_all2 by lia). rewrite E. unfold overwrite. rewrite length_take, Nat.min_l by lia.
  rewrite take_app_length' by lia. unfold padded. assert (Ex : take (Z.to_nat n) xs = xs) by (apply firstn_all2; lia). rewrite take_app, Ex, <- app_assoc. f_equal. rewrite length_app.
  replace (Z.to_nat n - length xs)%nat with (Z.to_nat (n - len xs)) by lia. f_equal.
  - destruct (decide (len ys <= n - len xs)); [rewrite !firstn_all2 by lia; done|f_equal; lia].
  - rewrite drop_app_ge by lia. unfold zeros. rewrite drop_replicate. f_equal. lia.
Qed.

Lemma joined_snoc h bs b : joined h (bs ++ [b]) = joined h bs ++ bytes_of h b.
Proof. unfold joined. rewrite flat_map_app. cbn [flat_map]. by rewrite app_nil_r. Qed.

Lemma cat_loop h bs n (Hbs : Forall (bok h) bs) : 0 <= n < 2 ^ 31 → len bs < 2 ^ 31 → let out := mkB (length h) 0 n in
  loop (S (length bs)) (cat_step bs out n) (0, 0) (h ++ [zeros n]) = (Val tt, h ++ [padded n (joined h bs)]).
Proof.
  intros Hn Hl out. apply run_wp.
  apply wp_loop with (λ '(o, i) h', 0 <= i <= len bs ∧ let pre := joined h (take (Z.to_nat i) bs) in o = Z.min n (len pre) ∧ h' = h ++ [padded n pre]) (λ st, len bs - st.2).
  { split; [lia|]. cbn zeta. change (joined h (take (Z.to_nat 0) bs)) with (@nil Z). split; [cbn; lia|]. unfold padded. rewrite take_nil. cbn [app length]. by rewrite Z.sub_0_r. }
  { cbn [snd]. lia. }
  intros [o i] h' (Hi & Ho & ->) _. cbn [snd]. unfold cat_step. set (pre := joined h (take (Z.to_nat i) bs)) in *. assert (Ho0 : 0 <= o <= n) by lia. rewrite !ge_s_small by lia.
  destruct (Z.leb_spec (len bs) i). { apply wp_mret. split; [done|]. unfold pre. by rewrite firstn_all2 by lia. }
  destruct (Z.leb_spec n o) as [Hfull|Hroom].
  { apply wp_mret. split; [done|]. do 2 f_equal. rewrite <- (take_drop (Z.to_nat i) bs). unfold joined. rewrite flat_map_app. symmetry. apply padded_more. unfold pre, joined in *. lia. }
  destruct (lookup_lt_is_Some_2 bs (Z.to_nat i)) as [b Eb]; [lia|]. apply wp_bind. eapply wp_of_option; [exact Eb|]. assert (Hb : bok h b) by (by eapply Forall_lookup_1 in Hbs).
  pose proof (bok_len _ _ Hb). pose proof (bytes_of_length h b Hb) as HL. rewrite !sub32_id, gt_s_small by lia. assert (Hlen : len pre = o) by lia.
  assert (Et : (if n - o <? BL b then n - o else BL b) = Z.min (BL b) (n - o)) by (destruct (Z.ltb_spec (n - o) (BL b)); lia). rewrite Et. set (t := Z.min (BL b) (n - o)) in *.
  destruct (bok_extend h (padded n pre) b Hb) as (Hb' & _ & Ebs). apply wp_bind. eapply wp_eq.
  { replace (BO b) with (BO b + 0) by lia. apply (copy_bytes _ out (padded n pre) b 0 t o Hb'); [unfold out; cbn [ARR]; by rewrite lookup_app_r, Nat.sub_diag by lia|lia..|rewrite padded_length by lia; lia]. }
  apply wp_mret. rewrite !add32_id by lia. cbn [snd]. split; [|lia]. split; [lia|]. cbv zeta. replace (Z.to_nat (i + 1)) with (S (Z.to_nat i)) by lia. rewrite (take_S_r _ _ b Eb), joined_snoc. fold pre. rewrite length_app.
  split; [lia|]. unfold out. cbn [ARR]. rewrite insert_app_r_alt, Nat.sub_diag by lia. cbn [list_insert insert]. rewrite Ebs. do 2 f_equal. rewrite <- Hlen. unfold slice. change (Z.to_nat 0) with 0%nat. rewrite drop_0. apply padded_write; lia.
Qed.

Lemma concatLen_run h bs total n : Forall (bok h) bs → len bs < 2 ^ 31 → bs ≠ [] → is_int total n → validateOff "length" total MAX_SAFE = None → 0 <= n →
  concatLen bs total h = if 2 ^ 31 <=? n then (Trap, h) else (Val (Done (mkB (length h) 0 n)), h ++ [padded n (joined h bs)]).
Proof.
  intros Hbs Hl Hne Hn Hv H0. unfold concatLen. destruct bs as [|b bs]; [done|]. rewrite (proj2 (Z.eqb_neq _ 0)) by (cbn [length]; lia). rewrite Hv. unfold mbind at 1.
  pose proof (size_guard EU8 total n h Hn H0) as Hg. cbn [esize] in Hg. rewrite Z.mul_1_l in Hg. rewrite Hg. destruct (Z.leb_spec (2 ^ 31) n); [done|].
  unfold mbind at 1. rewrite (trunc_s32_int _ n Hn) by lia. cbn [of_option]. unfold mret at 1. unfold mbind at 1. unfold alloc. unfold mbind. rewrite (cat_loop h (b :: bs) n Hbs) by lia. done.
Qed.

(** C30. [Buffer.concat(list, total)] answers the empty buffer for an empty list
    whatever the total, throws for a total that is no length, traps from 2^31
    bytes on, and otherwise answers a new buffer of the bytes of the list in
    order, cut or filled with zeros to the total. *)
Theorem concatLen_exact (h : heap) (bs : list bufv) (total : num) : Forall (bok h) bs → len bs < 2 ^ 31 →
  match bs, validateOff "length" total MAX_SAFE with
  | [], _ => concatLen bs total h = (Val (Done (mkB (length h) 0 0)), h ++ [[]])
  | _, Some err => concatLen bs total h = (Val (Throws err), h)
  | _, None => ∃ n, is_int total n ∧ 0 <= n ∧
      concatLen bs total h = if 2 ^ 31 <=? n then (Trap, h) else (Val (Done (mkB (length h) 0 n)), h ++ [take (Z.to_nat n) (joined h bs) ++ zeros (n - len (joined h bs))])
  end.
Proof.
  intros Hbs Hl. destruct bs as [|b bs]; [done|]. destruct (validateOff "length" total MAX_SAFE) as [err|] eqn:Ev.
  - unfold concatLen. rewrite (proj2 (Z.eqb_neq _ 0)) by (cbn [length]; lia). by rewrite Ev.
  - pose proof Ev as Ev'. rewrite max_safe in Ev'. apply validateOff_ok in Ev' as (n & Hn & H0 & _); [|lia]. exists n. split; [done|]. split; [done|]. by apply concatLen_run.
Qed.

Lemma joined_length h bs : Forall (bok h) bs → len (joined h bs) = foldr (λ b a, BL b + a) 0 bs.
Proof. induction 1 as [|b bs Hb _ IH]; [done|]. unfold joined in *. cbn [flat_map foldr]. rewrite length_app, Nat2Z.inj_add, IH, (bytes_of_length h b Hb). done. Qed.
Lemma joined_prefix h bs (i : nat) : len (joined h (take i bs)) <= len (joined h bs).
Proof. rewrite <- (take_drop i bs) at 2. unfold joined. rewrite flat_map_app, length_app. lia. Qed.

Lemma sum_loop h bs : Forall (bok h) bs → len bs < 2 ^ 31 → len (joined h bs) <= 2 ^ 53 → loop (S (length bs)) (sum_step bs) (Fin 0, 0) h = (Val (Fin (len (joined h bs) * ONE)), h).
Proof.
  intros Hbs Hl Hsum. apply run_wp. apply wp_loop with (λ '(t, i) h', 0 <= i <= len bs ∧ t = Fin (len (joined h (take (Z.to_nat i) bs)) * ONE) ∧ h' = h) (λ st, len bs - st.2).
  { split; [lia|]. done. }
  { cbn [snd]. lia. }
  intros [t i] h' (Hi & -> & ->) _. cbn [snd]. unfold sum_step. rewrite ge_s_small by lia. destruct (Z.leb_spec (len bs) i). { apply wp_mret. by rewrite firstn_all2 by lia. }
  destruct (lookup_lt_is_Some_2 bs (Z.to_nat i)) as [b Eb]; [lia|]. apply wp_bind. eapply wp_of_option; [exact Eb|]. apply wp_mret. assert (Hb : bok h b) by (by eapply Forall_lookup_1 in Hbs).
  pose proof (bok_len _ _ Hb). rewrite add32_id by lia. cbn [snd]. split; [|lia]. split; [lia|]. split; [|done]. replace (Z.to_nat (i + 1)) with (S (Z.to_nat i)) by lia.
  pose proof (joined_prefix h bs (S (Z.to_nat i))) as Hp. rewrite (take_S_r _ _ b Eb), joined_snoc, length_app, Nat2Z.inj_add, (bytes_of_length h b Hb) in *. rewrite i2d_small by lia. cbn [num_add key].
  rewrite <- Z.mul_add_distr_r. apply ratio_int_signed. lia.
Qed.

(** [Buffer.concat(list)] is a new buffer of all the bytes of the list, in
    order; the sum of the lengths is computed without overflow, so that from
    2^31 bytes on it traps instead of answering a wrapped length. *)
Theorem concat_exact (h : heap) (bs : list bufv) : Forall (bok h) bs → len bs < 2 ^ 31 → len (joined h bs) < 2 ^ 53 →
  concat_ bs h = if 2 ^ 31 <=? len (joined h bs) then (Trap, h) else (Val (Done (mkB (length h) 0 (len (joined h bs)))), h ++ [joined h bs]).
Proof.
  intros Hbs Hl Hsum. unfold concat_, mbind. rewrite sum_loop by (done || lia). set (n := len (joined h bs)) in *. assert (Hn : is_int (Fin (n * ONE)) n) by (by left).
  destruct bs as [|b bs]; [done|]. assert (Hv : validateOff "length" (Fin (n * ONE)) MAX_SAFE = None).
  { unfold validateOff. rewrite (is_int_floor _ n Hn). rewrite max_safe. destruct (is_int_lt _ n 0 Hn) as [H0 _]. change (Fin (0 * ONE)) with (Fin 0) in H0. rewrite H0, (proj2 (Z.ltb_ge n 0)) by lia.
    destruct (is_int_lt _ n 9007199254740991 Hn) as [_ ->]. rewrite (proj2 (Z.ltb_ge _ n)), andb_false_r by lia. assert (E : num_eq (Fin (n * ONE)) PInf = false ∧ num_eq (Fin (n * ONE)) NInf = false).
    { destruct (repr_int n ltac:(lia)) as [Hr _]. split; unfold num_eq; cbn [is_nan negb andb]; apply Z.eqb_neq; cbn [key]; lia. } destruct E as [-> ->]. done. }
  rewrite (concatLen_run h (b :: bs) _ n) by (done || lia). destruct (Z.leb_spec (2 ^ 31) n); [done|]. unfold padded. rewrite firstn_all2 by lia. unfold n. rewrite Z.sub_diag. unfold zeros. by rewrite app_nil_r.
Qed.

(** ** byteLength *)

Lemma strip_pad_run s k n st : 0 <= k → 0 <= n <= len s → n < 2 ^ 31 → k < 2 ^ 31 →
  strip_pad s k n st = (Val (if (k <? n) && (default 0 (s !! Z.to_nat (n - 1)) =? 0x3d) then n - 1 else n), st).
Proof.
  intros Hk Hn Hn31 Hk31. unfold strip_pad. rewrite gt_s_small by lia. destruct (Z.ltb_spec k n); [|done]. rewrite sub32_id by lia. destruct (lookup_lt_is_Some_2 s (Z.to_nat (n - 1))) as [u Hu]; [lia|].
  unfold mbind, unit_at, aget. rewrite (proj2 (Z.ltb_ge (n - 1) 0)), Hu by lia. cbn [of_option from_option id andb]. unfold mret. by destruct (u =? 61).
Qed.

Lemma digit64_not_pad url x : 0 <= x → digit64 url x ≠ 0x3d.
Proof. intros Hx. unfold digit64. repeat case_match; zb; lia. Qed.

(** A base64 text is its digits and at most two pads. *)
Lemma spec_b64_shape url bs : Forall byte bs → ∃ ds (p : nat), spec_b64 url bs = ds ++ pad64 url p ∧ Forall (λ u, u ≠ 0x3d) ds ∧ (p <= 2)%nat ∧ (p ≠ 0%nat → 2 <= len ds) ∧ len ds * 3 / 4 = len bs.
Proof.
  induction bs as [|a|a b|a b c l IH] using triple_ind; intros Hb; rewrite ?Forall_cons in Hb; unfold byte in Hb.
  - exists [], 0%nat. split; [by destruct url|]. split; [constructor|]. split; [lia|]. done.
  - eexists _, 2%nat. split; [reflexivity|]. split; [repeat constructor; apply digit64_not_pad; Z.to_euclidean_division_equations; lia|]. split; [lia|]. split; [cbn; lia|done].
  - eexists _, 1%nat. split; [reflexivity|]. split; [repeat constructor; apply digit64_not_pad; Z.to_euclidean_division_equations; lia|]. split; [lia|]. split; [cbn; lia|done].
  - destruct IH as (ds & p & E & Hd & Hp & H2 & Hl); [tauto|]. eexists (_ ++ ds), p. split; [cbn [spec_b64]; rewrite E, app_assoc; reflexivity|]. split; [apply Forall_app; split; [repeat constructor; apply digit64_not_pad; Z.to_euclidean_division_equations; lia|done]|]. split; [done|].
    rewrite length_app. cbn [length]. split; [lia|]. replace (Z.of_nat (4 + length ds) * 3) with (len ds * 3 + 3 * 4) by lia. rewrite Z.div_add by lia. lia.
Qed.

Lemma digit_last ds t (n : Z) : Forall (λ u, u ≠ 0x3d) ds → n = len ds → (0 <? n) && (default 0 ((ds ++ t) !! Z.to_nat (n - 1)) =? 0x3d) = false.
Proof.
  intros Hd ->. destruct (Z.ltb_spec 0 (len ds)); [|done]. destruct (lookup_lt_is_Some_2 ds (Z.to_nat (len ds - 1))) as [u Hu]; [lia|]. rewrite lookup_app_l, Hu by lia. cbn [from_option id andb].
  apply Z.eqb_neq. by eapply Forall_lookup_1 in Hd.
Qed.

Lemma strip_digits ds (p : nat) st : Forall (λ u, u ≠ 0x3d) ds → (p <= 2)%nat → (p ≠ 0%nat → 2 <= len ds) → len ds < 2 ^ 30 → let s := ds ++ replicate p 0x3d in
  (n <- strip_pad s 0 (len s);; strip_pad s 1 n) st = (Val (len ds), st).
Proof.
  intros Hd Hp H2 Hl s. assert (HL : len s = len ds + Z.of_nat p) by (unfold s; rewrite length_app, length_replicate; lia). unfold mbind. rewrite strip_pad_run by lia.
  assert (Hpad : ∀ k, len ds < k <= len s → default 0 (s !! Z.to_nat (k - 1)) = 0x3d).
  { intros k Hk. unfold s. rewrite lookup_app_r by lia. rewrite lookup_replicate_2 by lia. done. }
  assert (Hstop : ∀ n, n = len ds → (1 <? n) && (default 0 (s !! Z.to_nat (n - 1)) =? 61) = false).
  { intros n Hn. pose proof (digit_last ds (replicate p 61) n Hd Hn) as H. fold s in H. destruct (Z.ltb_spec 1 n); [|done]. by rewrite (proj2 (Z.ltb_lt 0 n)) in H by lia. }
  destruct (decide (p = 0%nat)) as [->|Hp0].
  { pose proof (digit_last ds (replicate 0 61) (len s) Hd ltac:(lia)) as H. fold s in H. rewrite H. rewrite strip_pad_run, Hstop by lia. do 2 f_equal. lia. }
  specialize (H2 Hp0). rewrite Hpad by lia. rewrite (proj2 (Z.ltb_lt 0 _)) by lia. cbn [andb Z.eqb Pos.eqb]. rewrite strip_pad_run by lia. destruct (decide (p = 1%nat)) as [->|Hp1].
  { rewrite Hstop by lia. do 2 f_equal. lia. }
  rewrite Hpad by lia. rewrite (proj2 (Z.ltb_lt 1 _)) by lia. cbn [andb Z.eqb Pos.eqb]. do 2 f_equal. lia.
Qed.

(** [Buffer.byteLength] is the length of the encoded text for the encodings
    of characters, and for hex and base64 it is the number of bytes whenever the
    text is one [toString] makes of bytes: the length estimate undoes the
    padding and is exact there. *)
Theorem byteLenStr_exact (e : enc) (s bs : list Z) (st : unit) :
  (Forall unit16 s → len s < 2 ^ 29 → e ∈ [Utf8; Utf16le; Latin1; Ascii] → byteLenStr e s st = (Val (num_of_Z (len (encode e s))), st)) ∧
  (Forall byte bs → len bs < 2 ^ 27 → e ∈ [Hex; Base64; Base64url; Latin1] → byteLenStr e (decode e bs) st = (Val (num_of_Z (len bs)), st)).
Proof.
  split.
  - intros Hs Hl He. pose proof (encode_length e s Hs) as HE. rewrite !elem_of_cons in He. destruct st. destruct He as [->|[->|[->|[->|He]]]]; [..|by apply not_elem_of_nil in He]; unfold byteLenStr.
    + unfold mbind. rewrite fromStr_exact by done. unfold mret. cbn [BLEN bytes_view]. by rewrite i2d_num by lia.
    + rewrite utf16_length in *. unfold mret. rewrite mul32_id, i2d_num by lia. do 3 f_equal. lia.
    + unfold mret. rewrite i2d_num by lia. cbn [encode]. by rewrite length_map.
    + unfold mret. rewrite i2d_num by lia. cbn [encode]. by rewrite length_map.
  - intros Hb Hl He. assert (Hb64 : ∀ url, (n <- strip_pad (spec_b64 url bs) 0 (len (spec_b64 url bs));; n <- strip_pad (spec_b64 url bs) 1 n;; mret (i2d (Z.shiftr (mul32 n 3) 2))) st = (Val (num_of_Z (len bs)), st)).
    { intros url. destruct (spec_b64_shape url bs Hb) as (ds & p & E & Hd & Hp & H2 & Hn). assert (Hds : len ds < 2 ^ 28) by (Z.to_euclidean_division_equations; lia).
      assert (Hq : ∃ q : nat, pad64 url p = replicate q 0x3d ∧ (q <= 2)%nat ∧ (q ≠ 0%nat → 2 <= len ds)) by (destruct url; [exists 0%nat; repeat split; lia|exists p; done]).
      destruct Hq as (q & Eq & Hq & Hq2). pose proof (strip_digits ds q st Hd Hq Hq2 ltac:(lia)) as H. cbv zeta in H. rewrite <- Eq, <- E in H. unfold mbind in *.
      destruct (strip_pad (spec_b64 url bs) 0 _ st) as [[n|?| |] t]; try discriminate H. rewrite H. unfold mret. rewrite mul32_id, Z.shiftr_div_pow2 by lia. change (2 ^ 2) with 4. rewrite Hn. by rewrite i2d_num by lia. }
    rewrite !elem_of_cons in He. destruct He as [->|[->|[->|[->|He]]]]; [..|by apply not_elem_of_nil in He]; cbn [decode]; [|apply Hb64|apply Hb64|].
    + unfold byteLenStr, mret. rewrite spec_hex_length, Z.shiftr_div_pow2 by lia. change (2 ^ 1) with 2. rewrite (Z.mul_comm 2), Z.div_mul by lia. by rewrite i2d_num by lia.
    + unfold byteLenStr, mret. unfold spec_latin. rewrite length_map. by rewrite i2d_num by lia.
Qed.

(** ** isEncoding, fill with a string *)

Definition lower (ch : Z) : Z := if (65 <=? ch) && (ch <=? 90) then ch + 32 else ch.
Lemma eq_chars_run lit : ∀ s (i : nat) acc st, (length s = i + length lit)%nat → eq_chars s (Z.of_nat i) lit acc st = (Val (acc && bool_decide (map lower (drop i s) = lit)), st).
Proof.
  induction lit as [|l lit IH]; intros s i acc st Hl; cbn [eq_chars length] in *.
  - rewrite drop_ge by lia. cbn [map]. rewrite bool_decide_eq_true_2 by done. by rewrite andb_true_r.
  - destruct (lookup_lt_is_Some_2 s i) as [ch Hc]; [lia|]. unfold mbind, unit_at, aget. rewrite (proj2 (Z.ltb_ge _ 0)), Nat2Z.id, Hc by lia. cbn [of_option]. unfold mret at 1.
    replace (Z.of_nat i + 1) with (Z.of_nat (S i)) by lia. rewrite IH by lia. rewrite (drop_S _ _ _ Hc). cbn [map]. do 2 f_equal. rewrite <- andb_assoc. f_equal.
    assert (E : (if (65 <=? ch) && (ch <=? 90) then add32 ch 32 else ch) = lower ch) by (unfold lower; destruct ((65 <=? ch) && (ch <=? 90)) eqn:Er; [|done]; apply andb_true_iff in Er as [E1 E2]; zb; apply add32_id; lia).
    rewrite E. destruct (Z.eqb_spec (lower ch) l) as [->|Hne]; cbn [andb].
    + destruct (decide (map lower (drop (S i) s) = lit)) as [->|Hn]; [by rewrite !bool_decide_eq_true_2|]. rewrite !bool_decide_eq_false_2; [done|congruence|done].
    + by rewrite bool_decide_eq_false_2 by congruence.
Qed.
Lemma emitCiEqLit_run s lit st : emitCiEqLit s lit st = (Val (bool_decide (map lower s = codes lit)), st).
Proof.
  unfold emitCiEqLit. destruct (Z.eqb_spec (len s) (len (codes lit))) as [E|E].
  - pose proof (eq_chars_run (codes lit) s 0 true st ltac:(lia)) as H. by rewrite drop_0 in H.
  - unfold mret. rewrite bool_decide_eq_false_2; [done|]. intros H. apply E. rewrite <- H. by rewrite length_map.
Qed.

(** [Buffer.isEncoding] accepts exactly the twelve names, in any case. *)
Theorem isEncoding_exact (s : list Z) (st : unit) : isEncoding s st = (Val (bool_decide (map lower s ∈ map codes candidates)), st).
Proof.
  assert (H : ∀ lits acc, any_of s lits acc st = (Val (acc || bool_decide (map lower s ∈ map codes lits)), st)).
  { induction lits as [|lit lits IH]; intros acc; cbn [any_of map].
    - rewrite bool_decide_eq_false_2 by (apply not_elem_of_nil). by rewrite orb_false_r.
    - unfold mbind. rewrite emitCiEqLit_run, IH. do 2 f_equal. rewrite <- orb_assoc. f_equal. destruct (decide (map lower s = codes lit)) as [E|E].
      + rewrite (bool_decide_eq_true_2 (_ = _)) by done. cbn [orb]. symmetry. apply bool_decide_eq_true_2. rewrite E. left.
      + rewrite (bool_decide_eq_false_2 (_ = _)) by done. cbn [orb]. apply bool_decide_ext. rewrite elem_of_cons. tauto. }
  unfold isEncoding. by rewrite H.
Qed.

(** [buf.fill(string)] repeats the encoded string over the window; the empty
    string, or one that encodes to nothing, fills with zeros. *)
Theorem fillStr_exact (e : enc) (h : heap) (b : bufv) (s : list Z) (nargs : Z) (offset end_ : num) : bok h b → Forall unit16 s → len s < 2 ^ 29 →
  match fill_args true (BL b) (len (encode e s)) nargs offset end_ with
  | inr err => fillStr e b s nargs offset end_ h = (Val (Throws err), h ++ [encode e s])
  | inl (offset', end') => ∃ o t A', is_int offset' o ∧ is_int end' t ∧
      fillStr e b s nargs offset end_ h = (Val (Done b), <[ARR b := A']> (h ++ [encode e s])) ∧ filled (array_of h b) A' (encode e s) (BO b + o) (BO b + t)
  end.
Proof.
  intros Hb Hs Hl. pose proof (encode_length e s Hs) as HE. destruct (bok_extend h (encode e s) b Hb) as (Hb' & Ea & _). set (pat := mkB (length h) 0 (len (encode e s))).
  assert (Epat : array_of (h ++ [encode e s]) pat = encode e s) by (unfold array_of, pat; cbn [ARR]; by rewrite lookup_app_r, Nat.sub_diag by lia).
  assert (Hp : bok (h ++ [encode e s]) pat).
  { split; rewrite ?Epat; cbn [ARR BO BL pat]; [by rewrite lookup_app_r, Nat.sub_diag by lia|by apply encode_byte|lia|lia|lia]. }
  assert (Hap : apart b pat) by (left; cbn [ARR pat]; pose proof (bok_array _ _ Hb) as Ha; apply lookup_lt_Some in Ha; lia).
  assert (Ebs : bytes_of (h ++ [encode e s]) pat = encode e s) by (unfold bytes_of; rewrite Epat; cbn [BO BL pat]; unfold slice; change (Z.to_nat 0) with 0%nat; rewrite drop_0; apply firstn_all2; lia).
  pose proof (fill_periodic _ true b pat nargs offset end_ Hb' Hp Hap) as H. unfold fillStr, mbind. rewrite fromStr_new_run by done. fold pat. cbn [BL pat] in H. rewrite Ebs, Ea in H. exact H.
Qed.

(** ** At concrete inputs *)

Lemma text_ok : bok text_heap text_view ∧ bok text_heap (mkB 0 4 6).
Proof. split; split; try done; cbn; repeat constructor; unfold byte; lia. Qed.
Lemma written_units : Forall unit16 [0x41; 0xd83d; 0xde00; 0x42].
Proof. repeat constructor; lia. Qed.

Lemma toStrRange_exact_witness : toStrRange Utf8 text_view (Fin (3 * ONE)) PInf text_heap = (Val [0x68; 0xe9], text_heap).
Proof. pose proof (toStrRange_exact Utf8 text_heap text_view (Fin (3 * ONE)) PInf (proj1 text_ok)) as H. cbv zeta in H. rewrite H. vm_compute. reflexivity. Defined.
Lemma writeStr_exact_witness : ∃ h', writeStr Utf8 (mkB 0 4 6) [0x41; 0xd83d; 0xde00; 0x42] (Fin (2 * ONE)) true (Fin (4 * ONE)) text_heap = (Val (Done (num_of_Z 1)), h') ∧
  bytes_of h' (mkB 0 4 6) = [0x68; 0xc3; 0x41; 0; 0; 0].
Proof.
  pose proof (writeStr_exact Utf8 text_heap (mkB 0 4 6) [0x41; 0xd83d; 0xde00; 0x42] (Fin (2 * ONE)) true (Fin (4 * ONE)) (proj2 text_ok) written_units ltac:(reflexivity)) as H.
  assert (E1 : validateOff "offset" (Fin (2 * ONE)) (i2d (BL (mkB 0 4 6))) = None) by (vm_compute; reflexivity). rewrite E1 in H.
  assert (E2 : validateOff "length" (Fin (4 * ONE)) (i2d (BL (mkB 0 4 6))) = None) by (vm_compute; reflexivity). rewrite E2 in H.
  destruct H as (o & room & Ho & _ & (l & Il & Er) & _ & h' & Hw & _ & Hbs & _). assert (H2 : is_int (Fin (2 * ONE)) 2) by (by left). assert (H4 : is_int (Fin (4 * ONE)) 4) by (by left).
  pose proof (is_int_unique _ _ _ Ho H2) as ->. pose proof (is_int_unique _ _ _ Il H4) as ->. subst room. exists h'. split; [exact Hw|]. rewrite Hbs. vm_compute. reflexivity.
Defined.
Lemma concatLen_exact_witness : concatLen [text_view; mkB 0 0 2] (Fin (7 * ONE)) text_heap = (Val (Done (mkB 1 0 7)), text_heap ++ [[0xef; 0xbb; 0xbf; 0x68; 0xc3; 0xa9; 0]]).
Proof.
  assert (Hb : Forall (bok text_heap) [text_view; mkB 0 0 2]) by (repeat (constructor; [|]); [apply text_ok|split; try done; cbn; repeat constructor; unfold byte; lia|constructor]).
  pose proof (concatLen_exact text_heap [text_view; mkB 0 0 2] (Fin (7 * ONE)) Hb ltac:(reflexivity)) as H.
  assert (E : validateOff "length" (Fin (7 * ONE)) MAX_SAFE = None) by (vm_compute; reflexivity). rewrite E in H. destruct H as (n & Hn & _ & H). assert (H7 : is_int (Fin (7 * ONE)) 7) by (by left).
  pose proof (is_int_unique _ _ _ Hn H7) as ->. rewrite H. vm_compute. reflexivity.
Defined.
Lemma byteLenStr_exact_witness : byteLenStr Base64 (codes "QUI=") tt = (Val (num_of_Z 2), tt).
Proof. apply (byteLenStr_exact Base64 [] [0x41; 0x42] tt); [repeat constructor; lia|reflexivity|right; left]. Defined.
