(* ===== verification/HashMap.v ===== *)
(** * Map and Set

    The hash maps of maps.ts (src/packages/compiler/src/backend/wasm/): entries
    in insertion order with tombstones, in three parallel arrays, and a bucket
    table of entry indices probed linearly.  The operations are programs of
    [Arrays] over the map's struct; what they need of a key is the class
    [MapKey], which MapKeys.v instantiates for the four key kinds. *)

From S2P Require Import Prelude F64 Arrays.

#[local] Open Scope arr_scope.

(** What the emitted code does with a key: its hash ([None]: the instruction
    traps), SameValueZero, the canonical form [set] stores, the default of a
    fresh array, whether a dead slot is nulled, and which elements of a seed
    array pass [addAll]'s check. *)
Class MapKey (K : Type) := {
  hash_key : K → option Z;
  key_eq : K → K → bool;
  norm_key : K → K;
  null_key : K;
  ref_key : bool;
  seed_ok : K → bool
}.

(** The $map struct. *)
Record map_ (K V : Type) := mkMap {
  NENTRIES : Z; NLIVE : Z; NBUCKETS : Z; ITERDEPTH : Z;
  KEYS : list K; VALS : list V; LIVE : list Z; BUCKETS : list Z
}.
Arguments mkMap {K V} _ _ _ _ _ _ _ _.
Arguments NENTRIES {K V} _.
Arguments NLIVE {K V} _.
Arguments NBUCKETS {K V} _.
Arguments ITERDEPTH {K V} _.
Arguments KEYS {K V} _.
Arguments VALS {K V} _.
Arguments LIVE {K V} _.
Arguments BUCKETS {K V} _.

(** The empty bucket; no arithmetic is done on it. *)
Definition EMPTY : Z := -1.

Section map.
Context {K V : Type} `{MapKey K}.
(** The zero of the value type, and whether it is a reference. *)
Context (null_val : V) (ref_val : bool).
Implicit Types m : map_ K V.

Definition MM : Type → Type := M (map_ K V).
Definition gets {A} (f : map_ K V → A) : MM A := λ m, (Val (f m), m).
Definition puts (f : map_ K V → map_ K V) : MM unit := λ m, (Val tt, f m).
Definition set_nentries n m : map_ K V := mkMap n (NLIVE m) (NBUCKETS m) (ITERDEPTH m) (KEYS m) (VALS m) (LIVE m) (BUCKETS m).
Definition set_nlive n m : map_ K V := mkMap (NENTRIES m) n (NBUCKETS m) (ITERDEPTH m) (KEYS m) (VALS m) (LIVE m) (BUCKETS m).
Definition set_depth n m : map_ K V := mkMap (NENTRIES m) (NLIVE m) (NBUCKETS m) n (KEYS m) (VALS m) (LIVE m) (BUCKETS m).
Definition set_keys (a : list K) m : map_ K V := mkMap (NENTRIES m) (NLIVE m) (NBUCKETS m) (ITERDEPTH m) a (VALS m) (LIVE m) (BUCKETS m).
Definition set_vals (a : list V) m : map_ K V := mkMap (NENTRIES m) (NLIVE m) (NBUCKETS m) (ITERDEPTH m) (KEYS m) a (LIVE m) (BUCKETS m).
Definition set_live (a : list Z) m : map_ K V := mkMap (NENTRIES m) (NLIVE m) (NBUCKETS m) (ITERDEPTH m) (KEYS m) (VALS m) a (BUCKETS m).
Definition set_buckets n a m : map_ K V := mkMap (NENTRIES m) (NLIVE m) n (ITERDEPTH m) (KEYS m) (VALS m) (LIVE m) a.
(** [array.get] and [array.set] on an array of the struct. *)
Definition read {A} (f : map_ K V → list A) (i : Z) : MM A := λ m, (match aget (f m) i with Some x => Val x | None => Trap end, m).
Definition put_key (i : Z) (k : K) : MM unit := λ m, match aset (KEYS m) i k with Some a => (Val tt, set_keys a m) | None => (Trap, m) end.
Definition put_val (i : Z) (v : V) : MM unit := λ m, match aset (VALS m) i v with Some a => (Val tt, set_vals a m) | None => (Trap, m) end.
Definition put_live (i x : Z) : MM unit := λ m, match aset (LIVE m) i x with Some a => (Val tt, set_live a m) | None => (Trap, m) end.
Definition put_bucket (i x : Z) : MM unit := λ m, match aset (BUCKETS m) i x with Some a => (Val tt, set_buckets (NBUCKETS m) a m) | None => (Trap, m) end.

Definition new_ : map_ K V := mkMap 0 0 0 0 [] [] [] [].

(** ** find *)

Definition find_step (k : K) (mask idx : Z) : MM (Z + Z) :=
  b <- read BUCKETS idx;;
  if b =? EMPTY then mret (inr EMPTY)
  else
    live <- read LIVE b;;
    hit <- (if negb (live =? 0) then s <- read KEYS b;; mret (key_eq s k) else mret false);;
    if hit : bool then mret (inr b) else mret (inl (Z.land (add32 idx 1) mask)).
Definition find (k : K) : MM Z :=
  nb <- gets NBUCKETS;;
  if nb =? 0 then mret EMPTY
  else
    h <- of_option (hash_key k);;
    let mask := sub32 nb 1 in
    loop (S (Z.to_nat nb)) (find_step k mask) (Z.land h mask).

(** ** The bucket table *)

(** The first empty bucket of a probe. *)
Definition probe_step (buf : list Z) (mask i : Z) : MM (Z + Z) :=
  b <- of_option (aget buf i);; if b =? EMPTY then mret (inr i) else mret (inl (Z.land (add32 i 1) mask)).
Definition probe (buf : list Z) (mask h : Z) : MM Z := loop (S (length buf)) (probe_step buf mask) (Z.land h mask).

Definition empty_step (nb : Z) (st : Z * list Z) : MM (Z * list Z + list Z) :=
  let '(i, buf) := st in
  if ge_s i nb then mret (inr buf) else buf <- of_option (aset buf i EMPTY);; mret (inl (add32 i 1, buf)).
Definition rehash_step (mask : Z) (st : Z * list Z) : MM (Z * list Z + list Z) :=
  let '(r, buf) := st in
  n <- gets NENTRIES;;
  if ge_s r n then mret (inr buf)
  else
    live <- read LIVE r;;
    buf <- (if negb (live =? 0) then
              k <- read KEYS r;;
              h <- of_option (hash_key k);;
              i <- probe buf mask h;;
              of_option (aset buf i r)
            else mret buf);;
    mret (inl (add32 r 1, buf)).
Definition rebuildBuckets (nb : Z) : MM unit :=
  buf <- loop (S (Z.to_nat nb)) (empty_step nb) (0, replicate (Z.to_nat nb) 0);;
  n <- gets NENTRIES;;
  buf <- loop (S (Z.to_nat n)) (rehash_step (sub32 nb 1)) (0, buf);;
  puts (set_buckets nb buf).

(** ** compact, reserveAppend *)

Definition compact_step (n : Z) (st : Z * Z) : MM (Z * Z + Z) :=
  let '(r, w) := st in
  if ge_s r n then mret (inr w)
  else
    live <- read LIVE r;;
    w <- (if negb (live =? 0) then
            k <- read KEYS r;; put_key w k;;;
            v <- read VALS r;; put_val w v;;;
            put_live w 1;;;
            mret (add32 w 1)
          else mret w);;
    mret (inl (add32 r 1, w)).
Definition compact : MM unit :=
  n <- gets NENTRIES;;
  w <- loop (S (Z.to_nat n)) (compact_step n) (0, 0);;
  puts (set_nentries w);;;
  nb <- gets NBUCKETS;;
  if gt_s nb 0 then rebuildBuckets nb else mret tt.

(** Doubling until a bound is reached. *)
Definition double_step (bound cap : Z) : MM (Z + Z) := if ge_s cap bound then mret (inr cap) else mret (inl (to_uint32 (Z.shiftl cap 1))).
Definition double (cap bound : Z) : MM Z := loop 32 (double_step bound) cap.
Definition grow_entries : MM unit :=
  ecap <- gets (λ m, len (KEYS m));;
  n <- gets NENTRIES;;
  if n =? ecap then
    cap <- double (if ecap =? 0 then 8 else ecap) (add32 n 1);;
    ks <- gets KEYS;; ks <- of_option (acopy (replicate (Z.to_nat cap) null_key) 0 ks 0 n);;
    vs <- gets VALS;; vs <- of_option (acopy (replicate (Z.to_nat cap) null_val) 0 vs 0 n);;
    ls <- gets LIVE;; ls <- of_option (acopy (replicate (Z.to_nat cap) 0) 0 ls 0 n);;
    puts (set_keys ks);;; puts (set_vals vs);;; puts (set_live ls)
  else mret tt.
Definition grow_buckets : MM unit :=
  nb <- gets NBUCKETS;;
  n <- gets NENTRIES;;
  let need := to_uint32 (Z.shiftl (add32 n 1) 1) in
  if gt_s need nb then cap <- double (if nb =? 0 then 16 else nb) need;; rebuildBuckets cap else mret tt.
Definition reserveAppend : MM unit :=
  n <- gets NENTRIES;;
  ecap <- gets (λ m, len (KEYS m));;
  nb <- gets NBUCKETS;;
  if gt_s ecap n && ge_s nb (to_uint32 (Z.shiftl (add32 n 1) 1)) then mret tt
  else
    depth <- gets ITERDEPTH;;
    nlive <- gets NLIVE;;
    (if (depth =? 0) && (ge_s (Z.quot n 2) nlive && gt_s n 0) then compact else mret tt);;;
    grow_entries;;;
    grow_buckets.

(** ** set, has, get, delete, size, clear *)

Definition append (k : K) (v : V) : MM unit :=
  reserveAppend;;;
  e <- gets NENTRIES;;
  put_key e k;;; put_val e v;;; put_live e 1;;;
  puts (set_nentries (add32 e 1));;;
  nlive <- gets NLIVE;; puts (set_nlive (add32 nlive 1));;;
  h <- of_option (hash_key k);;
  nb <- gets NBUCKETS;;
  buf <- gets BUCKETS;;
  i <- probe buf (sub32 nb 1) h;;
  put_bucket i e.
Definition set_ (k : K) (v : V) : MM unit :=
  let k := norm_key k in
  e <- find k;;
  if negb (e =? EMPTY) then put_val e v else append k v.
Definition has (k : K) : MM bool := e <- find k;; mret (negb (e =? EMPTY)).
Definition get (k : K) : MM (bool * V) :=
  e <- find k;;
  if negb (e =? EMPTY) then v <- read VALS e;; mret (true, v) else mret (false, null_val).
(** The slots of a dead entry. *)
Definition wipe (e : Z) : MM unit :=
  (if ref_key then put_key e null_key else mret tt);;; (if ref_val then put_val e null_val else mret tt).
Definition delete_ (k : K) : MM bool :=
  e <- find k;;
  if e =? EMPTY then mret false
  else
    put_live e 0;;;
    nlive <- gets NLIVE;; puts (set_nlive (sub32 nlive 1));;;
    wipe e;;;
    mret true.
Definition size : MM num := n <- gets NLIVE;; mret (i2d n).

Definition kill_step (n i : Z) : MM (Z + unit) :=
  if ge_s i n then mret (inr tt)
  else
    live <- read LIVE i;;
    (if negb (live =? 0) then put_live i 0;;; wipe i else mret tt);;;
    mret (inl (add32 i 1)).
Definition unlink_step (i : Z) : MM (Z + unit) :=
  nb <- gets NBUCKETS;; if ge_s i nb then mret (inr tt) else put_bucket i EMPTY;;; mret (inl (add32 i 1)).
Definition clear : MM unit :=
  n <- gets NENTRIES;;
  loop (S (Z.to_nat n)) (kill_step n) 0;;;
  puts (set_nlive 0);;;
  depth <- gets ITERDEPTH;;
  (if depth =? 0 then puts (set_nentries 0) else mret tt);;;
  nb <- gets NBUCKETS;;
  loop (S (Z.to_nat nb)) unlink_step 0.

(** ** Iteration *)

Definition iterCount : MM num := n <- gets NENTRIES;; mret (i2d n).
Definition iterLive (i : num) : MM bool :=
  if negb (num_le (Fin 0) i) then mret false
  else
    n <- gets NENTRIES;;
    if num_le (i2d n) i then mret false
    else i <- of_option (trunc_s32 i);; live <- read LIVE i;; mret (negb (live =? 0)).
Definition emitIterIndexCheck (i : num) : MM Z :=
  if num_lt i (Fin 0) then trap
  else
    n <- gets NENTRIES;;
    if num_le (i2d n) i then trap
    else i <- of_option (trunc_s32 i);; live <- read LIVE i;; if live =? 0 then trap else mret i.
Definition iterKey (i : num) : MM K := i <- emitIterIndexCheck i;; read KEYS i.
Definition iterValue (i : num) : MM V := i <- emitIterIndexCheck i;; read VALS i.
Definition iterEnter : MM unit := d <- gets ITERDEPTH;; puts (set_depth (add32 d 1)).
Definition iterExit : MM unit :=
  d <- gets ITERDEPTH;;
  (if gt_s d 0 then puts (set_depth (sub32 d 1)) else mret tt);;;
  d <- gets ITERDEPTH;;
  nlive <- gets NLIVE;;
  n <- gets NENTRIES;;
  if (d =? 0) && (ge_s (Z.quot n 2) nlive && ge_s n 16) then compact else mret tt.

(** ** Whole-map operations *)

Definition add_step (src : list K) (zero : V) (i : Z) : MM (Z + unit) :=
  if ge_s i (len src) then mret (inr tt) else k <- of_option (aget src i);; (if seed_ok k then mret tt else trap);;; set_ k zero;;; mret (inl (add32 i 1)).
Definition addAll (src : list K) (zero : V) : MM unit := loop (S (length src)) (add_step src zero) 0.
Definition take_step (n : Z) (st : Z * Z * list K) : MM (Z * Z * list K + list K) :=
  let '(r, w, out) := st in
  if ge_s r n then mret (inr out)
  else
    live <- read LIVE r;;
    if negb (live =? 0) then k <- read KEYS r;; out <- of_option (aset out w k);; mret (inl (add32 r 1, add32 w 1, out))
    else mret (inl (add32 r 1, w, out)).
Definition toArray : MM (list K) :=
  nlive <- gets NLIVE;;
  n <- gets NENTRIES;;
  loop (S (Z.to_nat n)) (take_step n) (0, 0, replicate (Z.to_nat nlive) null_key).
End map.
