(* ===== verification/HashMapSound.v ===== *)
(** * Map and Set: the table against insertion-ordered lists

    The invariant of the $map struct and what each operation of HashMap.v does
    to the entries it stands for.  Bounds: the bucket table has 2^p slots with
    p <= 30, and an insertion finds fewer than 2^28 entries. *)

From S2P Require Import Prelude F64 Arrays HashMap.

#[local] Open Scope arr_scope.

(** What the maps need of a key: SameValueZero is an equivalence that the hash
    respects, and [set]'s canonical form is the same key. *)
Class MapKeyLaws (K : Type) `{MapKey K} : Prop := {
  key_eq_refl k : key_eq k k = true;
  key_eq_sym a b : key_eq a b = key_eq b a;
  key_eq_trans a b c : key_eq a b = true → key_eq b c = true → key_eq a c = true;
  hash_range k h : hash_key k = Some h → 0 <= h < 2 ^ 32;
  hash_compat a b : key_eq a b = true → hash_key a = hash_key b;
  norm_eq k : key_eq (norm_key k) k = true
}.

Lemma key_eq_swap `{MapKeyLaws K} a b c : key_eq a b = true → key_eq a c = key_eq b c.
Proof.
  intros Hab. destruct (key_eq b c) eqn:E; [by apply (key_eq_trans a b c)|]. destruct (key_eq a c) eqn:E'; [|done].
  rewrite <- E. symmetry. apply (key_eq_trans b a c); [by rewrite key_eq_sym|done].
Qed.

(** ** Open addressing *)

Definition pow2 (nb : Z) : Prop := ∃ p, nb = 2 ^ p ∧ 4 <= p <= 30.
Lemma pow2_range nb : pow2 nb → 16 <= nb <= 2 ^ 30.
Proof. intros (p & -> & Hp). split; [change 16 with (2 ^ 4)|]; apply Z.pow_le_mono_r; lia. Qed.
Lemma mask_mod nb x : pow2 nb → Z.land x (sub32 nb 1) = x mod nb.
Proof.
  intros Hnb. pose proof (pow2_range nb Hnb). rewrite sub32_id by lia. destruct Hnb as (p & -> & Hp). replace (2 ^ p - 1) with (Z.ones p) by (rewrite Z.ones_equiv; lia). apply Z.land_ones. lia.
Qed.

(** The [j]-th slot probed from hash [h]. *)
Definition slot (nb h j : Z) : nat := Z.to_nat ((h + j) mod nb).
Lemma slot_value nb h j : 0 < nb → Z.of_nat (slot nb h j) = (h + j) mod nb.
Proof. intros Hnb. unfold slot. apply Z2Nat.id. apply Z.mod_pos_bound. lia. Qed.
Lemma slot_next nb h j : pow2 nb → Z.land (add32 (Z.of_nat (slot nb h j)) 1) (sub32 nb 1) = Z.of_nat (slot nb h (j + 1)).
Proof.
  intros Hnb. pose proof (pow2_range nb Hnb). rewrite mask_mod, !slot_value by (done || lia). pose proof (Z.mod_pos_bound (h + j) nb). rewrite add32_id by lia.
  rewrite Z.add_mod_idemp_l by lia. f_equal. lia.
Qed.
Lemma slot_first nb h : pow2 nb → Z.land h (sub32 nb 1) = Z.of_nat (slot nb h 0).
Proof. intros Hnb. pose proof (pow2_range nb Hnb). rewrite mask_mod, slot_value, Z.add_0_r by (done || lia). done. Qed.
(** Steps left to a slot. *)
Definition steps_to (nb e i : Z) : Z := (e - i) mod nb.
Lemma steps_next nb e i : 0 < nb → 0 <= e < nb → 0 <= i < nb → e ≠ i → steps_to nb e ((i + 1) mod nb) = steps_to nb e i - 1 ∧ 1 <= steps_to nb e i < nb.
Proof.
  intros Hnb He Hi Hne. unfold steps_to. rewrite Zminus_mod_idemp_r. pose proof (Z.mod_pos_bound (e - i) nb Hnb) as Hb.
  assert (Hz : (e - i) mod nb ≠ 0).
  { intros E. apply Z.mod_divide in E as [q Hq]; [|lia]. assert (q = 0) by nia. lia. }
  split; [|lia]. replace (e - (i + 1)) with ((e - i) - 1) by lia. rewrite <- Zminus_mod_idemp_l. apply Z.mod_small. lia.
Qed.

Section table.
Context {K : Type} `{MapKeyLaws K}.
Implicit Types (bk : list Z) (ks : list (option K)).

(** [bk] indexes the live keys: every live entry is on the probe path of its
    hash, and a bucket holds an entry no other bucket holds. *)
Record tabled (nb : Z) bk ks : Prop := mkTabled {
  tb_length : len bk = nb;
  tb_range i b : bk !! i = Some b → b ≠ EMPTY → 0 <= b < len ks;
  tb_once i i' b : bk !! i = Some b → bk !! i' = Some b → b ≠ EMPTY → i = i';
  tb_found (r : nat) k : ks !! r = Some (Some k) → ∃ h j, hash_key k = Some h ∧ 0 <= j ∧ bk !! slot nb h j = Some (Z.of_nat r) ∧
    ∀ j', 0 <= j' < j → bk !! slot nb h j' ≠ Some EMPTY
}.

(** Fewer entries than buckets leave an empty one. *)
Lemma empty_bucket nb bk ks : tabled nb bk ks → len ks < nb → ∃ e : nat, bk !! e = Some EMPTY.
Proof.
  intros [Hl Hr Ho _] Hn. destruct (decide (EMPTY ∈ bk)) as [Hin|Hout]; [by apply list_elem_of_lookup_1 in Hin|]. exfalso.
  assert (Hne : ∀ i b, bk !! i = Some b → b ≠ EMPTY) by (intros i b Hb ->; apply Hout; by apply list_elem_of_lookup_2 in Hb).
  assert (Hnd : NoDup bk) by (apply NoDup_alt; intros i j b Hi Hj; by eapply Ho; eauto).
  assert (Hlen : (length bk <= length (map Z.of_nat (seq 0 (length ks))))%nat).
  { apply NoDup_incl_length; [by apply NoDup_ListNoDup|]. intros b Hb. apply list_elem_of_In, list_elem_of_lookup_1 in Hb as [i Hi]. apply in_map_iff.
    pose proof (Hr i b Hi (Hne i b Hi)). exists (Z.to_nat b). split; [lia|]. apply in_seq. lia. }
  rewrite length_map, length_seq in Hlen. lia.
Qed.

Lemma tabled_dead nb bk ks : tabled nb bk ks → tabled nb bk (ks ++ [None]).
Proof.
  intros [Hl Hr Ho Hf]. split; try done.
  - intros i b Hi Hb. rewrite length_app. pose proof (Hr i b Hi Hb). cbn [length]. lia.
  - intros r k Hk. apply (Hf r k). apply lookup_app_Some in Hk as [Hk|[_ Hk]]; [done|]. apply list_lookup_singleton_Some in Hk as [_ Hk]. done.
Qed.
Lemma tabled_kill nb bk ks (r : nat) : tabled nb bk ks → tabled nb bk (<[r := None]> ks).
Proof.
  intros [Hl Hr Ho Hf]. split; try done.
  - intros i b Hi Hb. rewrite length_insert. by eapply Hr.
  - intros r' k Hk. apply (Hf r' k). apply list_lookup_insert_Some in Hk as [(_ & Hk & _)|[_ Hk]]; done.
Qed.
(** A new key in the first empty bucket of its probe. *)
Lemma tabled_insert nb bk ks k h j : 0 < nb → tabled nb bk ks → hash_key k = Some h → 0 <= j → bk !! slot nb h j = Some EMPTY →
  (∀ j', 0 <= j' < j → bk !! slot nb h j' ≠ Some EMPTY) → tabled nb (<[slot nb h j := len ks]> bk) (ks ++ [Some k]).
Proof.
  intros Hnb [Hl Hr Ho Hf] Hh Hj He Hbefore. assert (Hs : (slot nb h j < length bk)%nat) by (by apply lookup_lt_Some in He).
  assert (Hpath : ∀ i, bk !! i ≠ Some EMPTY → <[slot nb h j := len ks]> bk !! i ≠ Some EMPTY).
  { intros i Hi. destruct (decide (slot nb h j = i)) as [<-|Hne]; [rewrite list_lookup_insert_eq by done; unfold EMPTY; intros E; injection E; lia|by rewrite list_lookup_insert_ne]. }
  split.
  - by rewrite length_insert.
  - intros i b Hi Hb. rewrite length_app. cbn [length]. apply list_lookup_insert_Some in Hi as [(_ & <- & _)|[_ Hi]]; [lia|]. pose proof (Hr i b Hi Hb). lia.
  - intros i i' b Hi Hi' Hb. apply list_lookup_insert_Some in Hi as [(<- & <- & _)|[Hni Hi]], Hi' as [(<- & Hb' & _)|[Hni' Hi']]; try done.
    + pose proof (Hr i' (len ks) Hi' Hb). lia.
    + subst b. pose proof (Hr i (len ks) Hi Hb). lia.
    + by eapply Ho.
  - intros r k' Hk. apply lookup_app_Some in Hk as [Hk|[Hge Hk]].
    + destruct (Hf r k' Hk) as (h' & j' & Hh' & Hj' & Hb & Hp). exists h', j'. split; [done|]. split; [done|]. split; [|intros j'' Hj''; by apply Hpath, Hp].
      rewrite list_lookup_insert_ne; [done|]. intros E. rewrite E in He. rewrite Hb in He. unfold EMPTY in He. injection He. lia.
    + apply list_lookup_singleton_Some in Hk as [Hr0 [= <-]]. exists h, j. split; [done|]. split; [done|]. split; [rewrite list_lookup_insert_eq by done; f_equal; lia|]. intros j' Hj'. by apply Hpath, Hbefore.
Qed.
Lemma tabled_empty nb : 0 <= nb → tabled nb (replicate (Z.to_nat nb) EMPTY) [].
Proof.
  intros Hnb. split.
  - rewrite length_replicate. lia.
  - intros i b Hi. apply lookup_replicate in Hi as [-> _]. done.
  - intros i i' b Hi. apply lookup_replicate in Hi as [-> _]. done.
  - intros r k Hk. done.
Qed.
End table.

(** ** The representation *)

(** The rows of a map, in insertion order: a live entry or a tombstone. *)
Notation rows_ K V := (list (option (K * V))).

Section spec.
Context {K V : Type} `{MapKeyLaws K} (null_val : V) (ref_val : bool).
Implicit Types (m : map_ K V) (rs : rows_ K V) (l : list (K * V)).

Definition keys rs : list (option K) := map (option_map fst) rs.
(** The live entries. *)
Definition live rs : list (K * V) := omap (λ o, o) rs.

(** The three entry arrays hold [rs]. *)
Record holds m rs : Prop := mkHolds {
  hd_count : NENTRIES m = len rs;
  hd_live : NLIVE m = len (live rs);
  hd_keys : (length rs <= length (KEYS m))%nat;
  hd_vals : length (VALS m) = length (KEYS m);
  hd_lives : length (LIVE m) = length (KEYS m);
  hd_cap : len (KEYS m) < 2 ^ 31;
  hd_row r k v : rs !! r = Some (Some (k, v)) → (∃ x, LIVE m !! r = Some x ∧ x ≠ 0) ∧ KEYS m !! r = Some k ∧ VALS m !! r = Some v;
  hd_dead r : rs !! r = Some None → LIVE m !! r = Some 0
}.
(** The bucket table indexes them, at most half full. *)
Definition indexed m rs : Prop :=
  (NBUCKETS m = 0 ∧ rs = [] ∧ BUCKETS m = []) ∨ (pow2 (NBUCKETS m) ∧ 2 * len rs <= NBUCKETS m ∧ tabled (NBUCKETS m) (BUCKETS m) (keys rs)).
(** Live keys are pairwise different and have a hash. *)
Definition distinct rs : Prop := ∀ i j a b, rs !! i = Some (Some a) → rs !! j = Some (Some b) → key_eq a.1 b.1 = true → i = j.
Definition hashable rs : Prop := ∀ i a, rs !! i = Some (Some a) → is_Some (hash_key a.1).
Record represents m rs : Prop := mkRepr {
  rp_holds : holds m rs;
  rp_indexed : indexed m rs;
  rp_distinct : distinct rs;
  rp_hashable : hashable rs
}.

Lemma keys_lookup rs r k : keys rs !! r = Some (Some k) ↔ ∃ v, rs !! r = Some (Some (k, v)).
Proof.
  unfold keys. rewrite list_lookup_fmap. split.
  - destruct (rs !! r) as [[[k' v]|]|]; [|done..]. cbn. intros [= ->]. by exists v.
  - intros (v & ->). done.
Qed.
Lemma keys_length rs : length (keys rs) = length rs.
Proof. apply length_map. Qed.
Lemma live_app rs rs' : live (rs ++ rs') = live rs ++ live rs'.
Proof. apply omap_app. Qed.
Lemma live_length rs : (length (live rs) <= length rs)%nat.
Proof. induction rs as [|[e|] rs IH]; cbn; unfold live in *; cbn; lia. Qed.

(** The row of a key, -1 when it has none. *)
Definition is_key (k : K) (o : option (K * V)) : bool := match o with Some (k', _) => key_eq k' k | None => false end.
Definition row_of rs k : Z := match list_find (λ o, is_key k o = true) rs with Some (i, _) => Z.of_nat i | None => EMPTY end.
Lemma row_of_Some rs k r k' v : distinct rs → rs !! r = Some (Some (k', v)) → key_eq k' k = true → row_of rs k = Z.of_nat r.
Proof.
  intros Hd Hr Hk. unfold row_of. destruct (list_find _ rs) as [[i o]|] eqn:E.
  - apply list_find_Some in E as (Hi & Ho & _). destruct o as [[k'' v'']|]; [|done]. cbn in Ho. f_equal. apply (Hd i r (k'', v'') (k', v)); [done..|]. cbn.
    apply (key_eq_trans k'' k k'); [done|]. by rewrite key_eq_sym.
  - exfalso. apply (proj1 (list_find_None _ _)) in E. rewrite Forall_lookup in E. by apply (E r _ Hr).
Qed.
Lemma row_of_None rs k : (∀ r k' v, rs !! r = Some (Some (k', v)) → key_eq k' k = true → False) → row_of rs k = EMPTY.
Proof.
  intros Hn. unfold row_of. destruct (list_find _ rs) as [[i o]|] eqn:E; [|done]. apply list_find_Some in E as (Hi & Ho & _). destruct o as [[k' v]|]; [|done].
  exfalso. by eapply Hn.
Qed.
Lemma row_of_inv rs k : row_of rs k = EMPTY ∧ (∀ r k' v, rs !! r = Some (Some (k', v)) → key_eq k' k = false) ∨
  ∃ r k' v, row_of rs k = Z.of_nat r ∧ rs !! r = Some (Some (k', v)) ∧ key_eq k' k = true.
Proof.
  unfold row_of. destruct (list_find _ rs) as [[i o]|] eqn:E.
  - right. apply list_find_Some in E as (Hi & Ho & _). destruct o as [[k' v]|]; [|done]. by exists i, k', v.
  - left. split; [done|]. intros r k' v Hr. apply (proj1 (list_find_None _ _)) in E. rewrite Forall_lookup in E. apply not_true_is_false. apply (E r _ Hr).
Qed.

(** ** Steps of the monad *)

Lemma wp_gets {A} (f : map_ K V → A) (Q : A → map_ K V → Prop) R m : Q (f m) m → wp (gets f) Q R m.
Proof. done. Qed.
Lemma wp_puts (f : map_ K V → map_ K V) (Q : unit → map_ K V → Prop) R m : Q tt (f m) → wp (puts f) Q R m.
Proof. done. Qed.
Lemma wp_read {A} (f : map_ K V → list A) i x (Q : A → map_ K V → Prop) R m : 0 <= i → f m !! Z.to_nat i = Some x → Q x m → wp (read f i) Q R m.
Proof. intros Hi Hx HQ. unfold wp, read, aget. rewrite (proj2 (Z.ltb_ge i 0)) by lia. rewrite Hx. done. Qed.
Lemma aset_in {A} (a : list A) i x : 0 <= i < len a → aset a i x = Some (<[Z.to_nat i := x]> a).
Proof. intros Hi. rewrite <- (Z2Nat.id i) at 1 by lia. rewrite aset_nat by lia. done. Qed.
Lemma wp_put_key i k (Q : unit → map_ K V → Prop) R m : 0 <= i < len (KEYS m) → Q tt (set_keys (<[Z.to_nat i := k]> (KEYS m)) m) → wp (put_key i k) Q R m.
Proof. intros Hi HQ. unfold wp, put_key. rewrite aset_in by done. done. Qed.
Lemma wp_put_val i v (Q : unit → map_ K V → Prop) R m : 0 <= i < len (VALS m) → Q tt (set_vals (<[Z.to_nat i := v]> (VALS m)) m) → wp (put_val i v) Q R m.
Proof. intros Hi HQ. unfold wp, put_val. rewrite aset_in by done. done. Qed.
Lemma wp_put_live i x (Q : unit → map_ K V → Prop) R m : 0 <= i < len (LIVE m) → Q tt (set_live (<[Z.to_nat i := x]> (LIVE m)) m) → wp (put_live i x) Q R m.
Proof. intros Hi HQ. unfold wp, put_live. rewrite aset_in by done. done. Qed.
Lemma wp_put_bucket i x (Q : unit → map_ K V → Prop) R m : 0 <= i < len (BUCKETS m) → Q tt (set_buckets (NBUCKETS m) (<[Z.to_nat i := x]> (BUCKETS m)) m) → wp (put_bucket i x) Q R m.
Proof. intros Hi HQ. unfold wp, put_bucket. rewrite aset_in by done. done. Qed.

(** ** Probing *)

Lemma slot_lt nb h j : 0 < nb → (slot nb h j < Z.to_nat nb)%nat.
Proof. intros Hnb. pose proof (slot_value nb h j Hnb). pose proof (Z.mod_pos_bound (h + j) nb Hnb). lia. Qed.
Lemma slot_succ nb h j : 0 < nb → Z.of_nat (slot nb h (j + 1)) = (Z.of_nat (slot nb h j) + 1) mod nb.
Proof. intros Hnb. rewrite !slot_value, Z.add_mod_idemp_l by lia. f_equal. lia. Qed.
(** One step along a probe path gets closer to every other slot. *)
Lemma slot_closer nb h j (e : nat) : 0 < nb → (e < Z.to_nat nb)%nat → slot nb h j ≠ e →
  0 <= steps_to nb (Z.of_nat e) (Z.of_nat (slot nb h (j + 1))) < steps_to nb (Z.of_nat e) (Z.of_nat (slot nb h j)).
Proof.
  intros Hnb He Hne. rewrite slot_succ by done. pose proof (slot_lt nb h j Hnb). destruct (steps_next nb (Z.of_nat e) (Z.of_nat (slot nb h j))) as [-> Hb]; lia.
Qed.
Lemma steps_bound nb e i : 0 < nb → 0 <= steps_to nb e i < nb.
Proof. intros Hnb. apply Z.mod_pos_bound. lia. Qed.

Lemma probe_spec buf nb h (e : nat) (Q : Z → map_ K V → Prop) R m : pow2 nb → len buf = nb → buf !! e = Some EMPTY →
  (∀ j, 0 <= j → buf !! slot nb h j = Some EMPTY → (∀ j', 0 <= j' < j → buf !! slot nb h j' ≠ Some EMPTY) → Q (Z.of_nat (slot nb h j)) m) →
  wp (probe buf (sub32 nb 1) h) Q R m.
Proof.
  intros Hp Hlen He HQ. pose proof (pow2_range nb Hp) as Hnb. assert (He' : (e < length buf)%nat) by (by eapply lookup_lt_Some).
  apply (wp_loop (λ i m', m' = m ∧ ∃ j, 0 <= j ∧ i = Z.of_nat (slot nb h j) ∧ ∀ j', 0 <= j' < j → buf !! slot nb h j' ≠ Some EMPTY) (λ i, steps_to nb (Z.of_nat e) i)).
  - split; [done|]. exists 0. rewrite slot_first by done. split; [lia|]. split; [done|]. lia.
  - pose proof (steps_bound nb (Z.of_nat e) (Z.land h (sub32 nb 1))). lia.
  - intros i m' [-> (j & Hj & -> & Hpath)] _. pose proof (slot_lt nb h j ltac:(lia)) as Hs. destruct (lookup_lt_is_Some_2 buf (slot nb h j) ltac:(lia)) as [b Hb].
    unfold probe_step. apply wp_bind, (wp_of_option _ b); [by rewrite aget_nat|]. destruct (Z.eqb_spec b EMPTY) as [->|Hbe]; [apply wp_mret; by apply HQ|].
    apply wp_mret. rewrite slot_next by done. split.
    + split; [done|]. exists (j + 1). split; [lia|]. split; [done|]. intros j' Hj'. destruct (decide (j' = j)) as [->|]; [rewrite Hb; congruence|apply Hpath; lia].
    + apply slot_closer; [lia..|]. intros <-. congruence.
Qed.

(** ** find *)

Lemma find_step_spec m rs k mask i b (Q : Z + Z → map_ K V → Prop) R : holds m rs → 0 <= i → BUCKETS m !! Z.to_nat i = Some b → (b ≠ EMPTY → 0 <= b < len rs) →
  (b = EMPTY → Q (inr EMPTY) m) →
  (∀ k' v, rs !! Z.to_nat b = Some (Some (k', v)) → key_eq k' k = true → Q (inr (Z.of_nat (Z.to_nat b))) m) →
  (b ≠ EMPTY → (∀ k' v, rs !! Z.to_nat b = Some (Some (k', v)) → key_eq k' k = false) → Q (inl (Z.land (add32 i 1) mask)) m) →
  wp (find_step k mask i) Q R m.
Proof.
  intros [_ _ Hkl Hvl Hll _ Hrow Hdead] Hi Hb Hrange Hempty Hhit Hmiss. unfold find_step. apply wp_bind, (wp_read _ _ b); [done..|].
  destruct (Z.eqb_spec b EMPTY) as [->|Hbe]; [by apply wp_mret, Hempty|]. specialize (Hrange Hbe). specialize (Hmiss Hbe).
  destruct (lookup_lt_is_Some_2 rs (Z.to_nat b) ltac:(lia)) as [[[k' v]|] Ho]; apply wp_bind.
  - destruct (Hrow _ _ _ Ho) as ((x & Hx & Hx0) & Hkey & _). apply (wp_read _ _ x); [lia|done|]. rewrite (proj2 (Z.eqb_neq x 0)) by done. cbn [negb].
    apply wp_bind, wp_bind, (wp_read _ _ k'); [lia|done|]. apply wp_mret. destruct (key_eq k' k) eqn:Hkk; apply wp_mret.
    + rewrite <- (Z2Nat.id b) by lia. by eapply Hhit.
    + apply Hmiss. intros k'' v' Ho'. rewrite Ho in Ho'. injection Ho' as <- <-. done.
  - apply (wp_read _ _ 0); [lia|by apply Hdead|]. cbn [Z.eqb negb]. apply wp_bind, wp_mret, wp_mret, Hmiss. intros k'' v' Ho'. rewrite Ho in Ho'. done.
Qed.
(** No live row of a key whose probe path has ended. *)
Lemma path_end nb bk rs k h j : tabled nb bk (keys rs) → hash_key k = Some h → 0 <= j → bk !! slot nb h j = Some EMPTY →
  (∀ j' b, 0 <= j' < j → bk !! slot nb h j' = Some b → b ≠ EMPTY ∧ ∀ k' v, rs !! Z.to_nat b = Some (Some (k', v)) → key_eq k' k = false) →
  row_of rs k = EMPTY.
Proof.
  intros Ht Hk Hj Hb Hpath. apply row_of_None. intros r k' v Hr Hkk.
  destruct (tb_found _ _ _ Ht r k' (proj2 (keys_lookup _ _ _) (ex_intro _ v Hr))) as (h' & j' & Hh' & Hj' & Hb' & Hpath').
  rewrite (hash_compat k' k Hkk), Hk in Hh'. injection Hh' as <-. destruct (Z.lt_trichotomy j' j) as [Hlt|[->|Hgt]].
  - destruct (Hpath j' _ (conj Hj' Hlt) Hb') as [_ Hno]. rewrite Nat2Z.id in Hno. specialize (Hno _ _ Hr). congruence.
  - rewrite Hb in Hb'. unfold EMPTY in Hb'. injection Hb'. lia.
  - apply (Hpath' j); [lia|done].
Qed.
Lemma find_spec m rs k h (Q : Z → map_ K V → Prop) R : represents m rs → hash_key k = Some h → Q (row_of rs k) m → wp (find k) Q R m.
Proof.
  intros [Hh Hix Hd Hha] Hk HQ. unfold find. apply wp_bind, wp_gets. destruct Hix as [(-> & -> & _)|(Hp & Hload & Ht)]; [by apply wp_mret|].
  set (nb := NBUCKETS m) in *. pose proof (pow2_range nb Hp) as Hnb. rewrite (proj2 (Z.eqb_neq nb 0)) by lia. apply wp_bind, (wp_of_option _ h); [done|].
  destruct (empty_bucket nb _ _ Ht) as [e He]; [rewrite keys_length; lia|]. pose proof (tb_length _ _ _ Ht) as Hlen. assert (He' : (e < length (BUCKETS m))%nat) by (by eapply lookup_lt_Some).
  apply (wp_loop (λ i m', m' = m ∧ ∃ j, 0 <= j ∧ i = Z.of_nat (slot nb h j) ∧ ∀ j' b, 0 <= j' < j → BUCKETS m !! slot nb h j' = Some b →
    b ≠ EMPTY ∧ ∀ k' v, rs !! Z.to_nat b = Some (Some (k', v)) → key_eq k' k = false) (λ i, steps_to nb (Z.of_nat e) i)).
  { split; [done|]. exists 0. rewrite slot_first by done. split; [lia|]. split; [done|]. lia. }
  { pose proof (steps_bound nb (Z.of_nat e) (Z.land h (sub32 nb 1))). lia. }
  intros i m' [-> (j & Hj & -> & Hpath)] _. pose proof (slot_lt nb h j ltac:(lia)) as Hs. destruct (lookup_lt_is_Some_2 (BUCKETS m) (slot nb h j) ltac:(lia)) as [b Hb].
  apply (find_step_spec m rs k _ _ b); [done|lia|by rewrite Nat2Z.id|..].
  - intros Hbe. rewrite <- (keys_length rs). by eapply tb_range.
  - intros ->. rewrite (path_end nb _ rs k h j Ht) in HQ; done.
  - intros k' v Hr Hkk. rewrite (row_of_Some rs k _ _ _ Hd Hr Hkk) in HQ. done.
  - intros Hbe Hmiss. rewrite slot_next by done. split; [|apply slot_closer; [lia..|intros <-; congruence]]. split; [done|]. exists (j + 1). split; [lia|]. split; [done|].
    intros j' b' Hj' Hb'. destruct (decide (j' = j)) as [->|]; [|apply (Hpath j'); [lia|done]]. rewrite Hb in Hb'. injection Hb' as <-. done.
Qed.

(** ** rebuildBuckets *)

Lemma empty_loop_spec nb (Q : list Z → map_ K V → Prop) R m : 0 <= nb < 2 ^ 31 → Q (replicate (Z.to_nat nb) EMPTY) m →
  wp (loop (S (Z.to_nat nb)) (empty_step nb) (0, replicate (Z.to_nat nb) 0)) Q R m.
Proof.
  intros Hnb HQ. apply (wp_loop (λ '(i, buf) m', m' = m ∧ 0 <= i <= nb ∧ buf = replicate (Z.to_nat i) EMPTY ++ replicate (Z.to_nat (nb - i)) 0) (λ '(i, _), nb - i)).
  - split; [done|]. split; [lia|]. rewrite Z.sub_0_r. done.
  - lia.
  - intros [i buf] m' (-> & Hi & ->) _. unfold empty_step. rewrite ge_s_small by lia. destruct (nb <=? i) eqn:E; zb.
    + apply wp_mret. replace (nb - i) with 0 by lia. replace i with nb by lia. rewrite app_nil_r. done.
    + replace (Z.to_nat (nb - i)) with (S (Z.to_nat (nb - (i + 1)))) by lia. cbn [replicate].
      apply wp_bind. eapply wp_of_option; [apply aset_app; rewrite length_replicate; lia|]. apply wp_mret. rewrite add32_id by lia. split; [|lia]. split; [done|]. split; [lia|].
      replace (Z.to_nat (i + 1)) with (Z.to_nat i + 1)%nat by lia. rewrite replicate_add. rewrite <- app_assoc. done.
Qed.
Lemma keys_app rs rs' : keys (rs ++ rs') = keys rs ++ keys rs'.
Proof. apply map_app. Qed.
(** The entries rehashed one by one, tombstones skipped. *)
Lemma rehash_loop_spec nb rs m (Q : list Z → map_ K V → Prop) R : holds m rs → hashable rs → pow2 nb → len rs < nb →
  (∀ bk, tabled nb bk (keys rs) → Q bk m) →
  wp (loop (S (Z.to_nat (NENTRIES m))) (rehash_step (sub32 nb 1)) (0, replicate (Z.to_nat nb) EMPTY)) Q R m.
Proof.
  intros Hh Hha Hp Hload HQ. pose proof (pow2_range nb Hp) as Hnb. destruct Hh as [Hn _ Hkl Hvl Hll Hcap Hrow Hdead]. rewrite Hn.
  apply (wp_loop (λ '(r, bk) m', m' = m ∧ 0 <= r <= len rs ∧ tabled nb bk (keys (take (Z.to_nat r) rs))) (λ '(r, _), len rs - r)).
  - split; [done|]. split; [lia|]. apply tabled_empty. lia.
  - lia.
  - intros [r bk] m' (-> & Hr & Ht) _. unfold rehash_step. apply wp_bind, wp_gets. rewrite Hn, ge_s_small by lia. destruct (len rs <=? r) eqn:E; zb.
    { apply wp_mret, HQ. rewrite take_ge in Ht by lia. done. }
    assert (Hnext : ∀ bk', tabled nb bk' (keys (take (Z.to_nat (r + 1)) rs)) →
      (m = m ∧ 0 <= add32 r 1 <= len rs ∧ tabled nb bk' (keys (take (Z.to_nat (add32 r 1)) rs))) ∧ 0 <= len rs - add32 r 1 < len rs - r).
    { intros bk' Ht'. rewrite add32_id by lia. split; [split; [done|]; split; [lia|done]|lia]. }
    replace (Z.to_nat (r + 1)) with (S (Z.to_nat r)) in Hnext by lia. destruct (lookup_lt_is_Some_2 rs (Z.to_nat r) ltac:(lia)) as [[[k v]|] Ho].
    + rewrite (take_S_r _ _ _ Ho), keys_app in Hnext. cbn [keys map option_map fst] in Hnext. destruct (Hrow _ _ _ Ho) as ((x & Hx & Hx0) & Hkey & _). destruct (Hha _ _ Ho) as [h Hk]. cbn [fst] in Hk.
      apply wp_bind, (wp_read _ _ x); [lia|done|]. rewrite (proj2 (Z.eqb_neq x 0)) by done. cbn [negb]. apply wp_bind, wp_bind, (wp_read _ _ k); [lia|done|]. apply wp_bind, (wp_of_option _ h); [done|].
      assert (Hlen : len (keys (take (Z.to_nat r) rs)) = r) by (rewrite keys_length, length_take; lia).
      destruct (empty_bucket nb _ _ Ht) as [e He]; [lia|]. apply wp_bind, (probe_spec bk nb h e); [done|apply (tb_length _ _ _ Ht)|done|].
      intros j Hj Hbj Hbefore. pose proof (lookup_lt_Some _ _ _ Hbj) as Hs. eapply wp_of_option; [by apply aset_nat|]. apply wp_mret. apply Hnext.
      rewrite <- Hlen at 1. apply (tabled_insert nb bk _ k h j); [lia|done..].
    + rewrite (take_S_r _ _ _ Ho), keys_app in Hnext. cbn [keys map option_map] in Hnext. apply wp_bind, (wp_read _ _ 0); [lia|by apply Hdead|]. cbn [Z.eqb negb].
      apply wp_bind, wp_mret, wp_mret, Hnext. by apply tabled_dead.
Qed.
Lemma rebuildBuckets_spec nb rs m (Q : unit → map_ K V → Prop) R : holds m rs → hashable rs → pow2 nb → len rs < nb →
  (∀ bk, tabled nb bk (keys rs) → Q tt (set_buckets nb bk m)) → wp (rebuildBuckets nb) Q R m.
Proof.
  intros Hh Hha Hp Hload HQ. pose proof (pow2_range nb Hp). unfold rebuildBuckets. apply wp_bind, empty_loop_spec; [lia|]. apply wp_bind, wp_gets.
  apply wp_bind, (rehash_loop_spec nb rs); [done..|]. intros bk Ht. apply wp_puts. by apply HQ.
Qed.
Lemma holds_set_buckets m rs nb bk : holds m rs → holds (set_buckets nb bk m) rs.
Proof. intros []. by split. Qed.

(** ** compact *)

(** Midway: the live entries of the first [r] rows moved to the front, the
    rows from [r] on as they were. *)
Record moved m rs (r w : nat) m' : Prop := mkMoved {
  mv_scalars : NENTRIES m' = NENTRIES m ∧ NLIVE m' = NLIVE m ∧ NBUCKETS m' = NBUCKETS m ∧ ITERDEPTH m' = ITERDEPTH m ∧ BUCKETS m' = BUCKETS m;
  mv_lengths : length (KEYS m') = length (KEYS m) ∧ length (VALS m') = length (VALS m) ∧ length (LIVE m') = length (LIVE m);
  mv_count : w = length (live (take r rs));
  mv_done i k v : live (take r rs) !! i = Some (k, v) → (∃ x, LIVE m' !! i = Some x ∧ x ≠ 0) ∧ KEYS m' !! i = Some k ∧ VALS m' !! i = Some v;
  mv_rest i : (r <= i)%nat → KEYS m' !! i = KEYS m !! i ∧ VALS m' !! i = VALS m !! i ∧ LIVE m' !! i = LIVE m !! i
}.
Lemma moved_start m rs : moved m rs 0 0 m.
Proof. split; done. Qed.
Lemma moved_le m rs r w m' : moved m rs r w m' → (w <= r)%nat.
Proof. intros Hm. rewrite (mv_count _ _ _ _ _ Hm). etrans; [apply live_length|]. rewrite length_take. lia. Qed.
Lemma moved_dead m rs r w m' : moved m rs r w m' → rs !! r = Some None → moved m rs (S r) w m'.
Proof.
  intros [Hs Hl Hc Hd Hr] Ho. assert (E : live (take (S r) rs) = live (take r rs)) by (rewrite (take_S_r _ _ _ Ho), live_app; apply app_nil_r).
  split; [done..|by rewrite E|by rewrite E|]. intros i Hi. apply Hr. lia.
Qed.
Lemma moved_live m rs r w m' k v : moved m rs r w m' → rs !! r = Some (Some (k, v)) → holds m rs →
  moved m rs (S r) (S w) (set_live (<[w := 1]> (LIVE m')) (set_vals (<[w := v]> (VALS m')) (set_keys (<[w := k]> (KEYS m')) m'))).
Proof.
  intros Hm Ho [_ _ Hkl Hvl Hll _ _ _]. pose proof (moved_le _ _ _ _ _ Hm) as Hw. destruct Hm as [Hs (Hkl' & Hvl' & Hll') Hc Hd Hr].
  assert (E : live (take (S r) rs) = live (take r rs) ++ [(k, v)]) by (rewrite (take_S_r _ _ _ Ho), live_app; done). apply lookup_lt_Some in Ho.
  split; [done| |rewrite E, length_app; cbn [length]; lia| |].
  - cbn. rewrite !length_insert. done.
  - intros i k' v'. rewrite E. cbn. intros Hi. apply lookup_app_Some in Hi as [Hi|[Hge Hi]].
    + pose proof (lookup_lt_Some _ _ _ Hi). rewrite !list_lookup_insert_ne by lia. by apply Hd.
    + apply list_lookup_singleton_Some in Hi as [Hi [= <- <-]]. replace i with w by lia. rewrite !list_lookup_insert_eq by lia. split; [by exists 1|done].
  - intros i Hi. cbn. rewrite !list_lookup_insert_ne by lia. apply Hr. lia.
Qed.
Lemma compact_loop_spec m rs (Q : Z → map_ K V → Prop) R : holds m rs →
  (∀ m', moved m rs (length rs) (length (live rs)) m' → Q (len (live rs)) m') →
  wp (loop (S (Z.to_nat (NENTRIES m))) (compact_step (NENTRIES m)) (0, 0)) Q R m.
Proof.
  intros Hh HQ. pose proof Hh as [Hn _ Hkl Hvl Hll Hcap Hrow Hdead]. rewrite Hn.
  apply (wp_loop (λ '(r, w) m', 0 <= r <= len rs ∧ 0 <= w ∧ moved m rs (Z.to_nat r) (Z.to_nat w) m') (λ '(r, _), len rs - r)).
  - split; [lia|]. split; [lia|]. apply moved_start.
  - lia.
  - intros [r w] m' (Hr & Hw & Hm) _. pose proof (moved_le _ _ _ _ _ Hm) as Hle. unfold compact_step. rewrite ge_s_small by lia. destruct (len rs <=? r) eqn:E; zb.
    { apply wp_mret. replace (Z.to_nat r) with (length rs) in Hm by lia. pose proof (mv_count _ _ _ _ _ Hm) as Hc. rewrite firstn_all in Hc. rewrite Hc in Hm. replace w with (len (live rs)) by lia. by apply HQ. }
    destruct (mv_rest _ _ _ _ _ Hm (Z.to_nat r) (le_n _)) as (Hk & Hv & Hx). destruct (mv_lengths _ _ _ _ _ Hm) as (Hkl' & Hvl' & Hll').
    assert (Hr1 : Z.to_nat (add32 r 1) = S (Z.to_nat r) ∧ add32 r 1 = r + 1) by (rewrite add32_id by lia; lia). destruct Hr1 as [Hr1 Hr1'].
    destruct (lookup_lt_is_Some_2 rs (Z.to_nat r) ltac:(lia)) as [[[k v]|] Ho].
    + destruct (Hrow _ _ _ Ho) as ((x & Hx' & Hx0) & Hk' & Hv'). apply wp_bind, (wp_read _ _ x); [lia|congruence|]. rewrite (proj2 (Z.eqb_neq x 0)) by done. cbn [negb].
      apply wp_bind, wp_bind, (wp_read _ _ k); [lia|congruence|]. apply wp_bind, wp_put_key; [lia|]. apply wp_bind, (wp_read _ _ v); [lia|cbn; congruence|]. apply wp_bind, wp_put_val; [cbn; lia|].
      apply wp_bind, wp_put_live; [cbn; lia|]. apply wp_mret, wp_mret. rewrite Hr1, Hr1', add32_id by lia. split; [|lia]. split; [lia|]. split; [lia|].
      replace (Z.to_nat (w + 1)) with (S (Z.to_nat w)) by lia. by apply (moved_live m rs _ _ m' k v).
    + apply wp_bind, (wp_read _ _ 0); [lia|rewrite Hx; by apply Hdead|]. cbn [Z.eqb negb]. apply wp_bind, wp_mret, wp_mret. rewrite Hr1, Hr1'. split; [|lia]. split; [lia|]. split; [done|]. by apply moved_dead.
Qed.

(** The rows without tombstones. *)
Definition dense rs : rows_ K V := map Some (live rs).
Lemma live_map_Some l : live (map Some l) = l.
Proof. induction l as [|e l IH]; [done|]. cbn. f_equal. apply IH. Qed.
Lemma live_dense rs : live (dense rs) = live rs.
Proof. apply live_map_Some. Qed.
Lemma live_lookup rs i a : live rs !! i = Some a → ∃ r, rs !! r = Some (Some a) ∧ (i <= r)%nat.
Proof.
  revert i. induction rs as [|[e|] rs IH]; intros i; cbn; [done|..].
  - destruct i as [|i]; cbn; [intros [= <-]; by exists 0%nat|]. intros Hi. destruct (IH i Hi) as (r & Hr & Hle). exists (S r). split; [done|lia].
  - intros Hi. destruct (IH i Hi) as (r & Hr & Hle). exists (S r). split; [done|lia].
Qed.
Lemma dense_lookup rs i o : dense rs !! i = Some o → ∃ a, o = Some a ∧ live rs !! i = Some a.
Proof. unfold dense. rewrite list_lookup_fmap. destruct (live rs !! i) as [a|]; [|done]. intros [= <-]. by exists a. Qed.
Lemma distinct_cons o rs : distinct (o :: rs) → distinct rs.
Proof. intros Hd i j a b Hi Hj Hk. specialize (Hd (S i) (S j) a b Hi Hj Hk). lia. Qed.
Lemma dense_distinct rs : distinct rs → distinct (dense rs).
Proof.
  intros Hd i j a b Hi Hj Hk. apply dense_lookup in Hi as (? & [= <-] & Hi), Hj as (? & [= <-] & Hj).
  revert i j Hi Hj. induction rs as [|[e|] rs IH]; intros i j; cbn; [done|..].
  - destruct i as [|i], j as [|j]; cbn; [done|..].
    + intros [= ->] Hj. destruct (live_lookup _ _ _ Hj) as (r & Hr & _). specialize (Hd 0%nat (S r) a b eq_refl Hr Hk). lia.
    + intros Hi [= ->]. destruct (live_lookup _ _ _ Hi) as (r & Hr & _). specialize (Hd (S r) 0%nat a b Hr eq_refl Hk). lia.
    + intros Hi Hj. f_equal. apply IH; [by apply distinct_cons in Hd|done..].
  - apply IH. by apply distinct_cons in Hd.
Qed.
Lemma dense_hashable rs : hashable rs → hashable (dense rs).
Proof. intros Hh i a Hi. apply dense_lookup in Hi as (? & [= <-] & Hi). destruct (live_lookup _ _ _ Hi) as (r & Hr & _). by eapply Hh. Qed.
Lemma dense_length rs : (length (dense rs) <= length rs)%nat.
Proof. unfold dense. rewrite length_map. apply live_length. Qed.

Lemma moved_holds m rs m' : holds m rs → moved m rs (length rs) (length (live rs)) m' → holds (set_nentries (len (live rs)) m') (dense rs).
Proof.
  intros [Hn Hlv Hkl Hvl Hll Hcap _ _] [(Hs & Hs2 & _) (Hkl' & Hvl' & Hll') _ Hd _]. rewrite firstn_all in Hd. pose proof (live_length rs). split; cbn.
  - unfold dense. by rewrite length_map.
  - by rewrite live_dense, Hs2.
  - unfold dense. rewrite length_map. lia.
  - lia.
  - lia.
  - lia.
  - intros r k v Hr. apply dense_lookup in Hr as (? & [= <-] & Hr). by apply Hd.
  - intros r Hr. apply dense_lookup in Hr as (? & ? & _). done.
Qed.
(** compact drops the tombstones and keeps the order; the depth is not touched. *)
Lemma compact_spec m rs (Q : unit → map_ K V → Prop) R : represents m rs →
  (∀ m', represents m' (dense rs) → ITERDEPTH m' = ITERDEPTH m → NBUCKETS m' = NBUCKETS m → Q tt m') → wp compact Q R m.
Proof.
  intros [Hh Hix Hd Hha] HQ. unfold compact. apply wp_bind, wp_gets. apply wp_bind, (compact_loop_spec m rs); [done|]. intros m' Hm. pose proof (moved_holds _ _ _ Hh Hm) as Hh'.
  destruct (mv_scalars _ _ _ _ _ Hm) as (_ & _ & Hnb & Hdep & Hb). apply dense_distinct in Hd. apply dense_hashable in Hha.
  apply wp_bind, wp_puts, wp_bind, wp_gets. cbn [NBUCKETS set_nentries]. destruct Hix as [(Hn0 & -> & Hb0)|(Hp & Hload & Ht)].
  - rewrite Hnb, Hn0. apply wp_mret. apply HQ; [|done..]. split; [done| |done..]. left. cbn. rewrite Hnb, Hb. done.
  - pose proof (pow2_range _ Hp). pose proof (dense_length rs). rewrite Hnb, gt_s_small by lia. rewrite (proj2 (Z.ltb_lt 0 (NBUCKETS m))) by lia.
    apply (rebuildBuckets_spec _ (dense rs)); [done..|lia|]. intros bk Ht'. apply HQ; [|done..]. split; [by apply holds_set_buckets| |done..]. right. split; [done|]. split; [cbn; lia|done].
Qed.

(** ** reserveAppend *)

Lemma double_spec cap bound (Q : Z → map_ K V → Prop) R m : 1 <= cap < 2 ^ 30 → 0 <= bound <= 2 ^ 30 →
  (∀ c k, c = cap * 2 ^ k → 0 <= k → bound <= c → cap <= c → c = cap ∨ c < 2 * bound → Q c m) → wp (double cap bound) Q R m.
Proof.
  intros Hcap Hb HQ. apply (wp_loop (λ c m', m' = m ∧ cap <= c < 2 ^ 31 ∧ (c = cap ∨ c < 2 * bound) ∧ ∃ k, 0 <= k ∧ c = cap * 2 ^ k) (λ c, 31 - Z.log2 c)).
  - split; [done|]. split; [lia|]. split; [by left|]. exists 0. lia.
  - pose proof (Z.log2_nonneg cap). assert (Z.log2 cap < 30) by (apply Z.log2_lt_pow2; lia). lia.
  - intros c m' (-> & Hc & Hmax & k & Hk & E) _. assert (Z.log2 c < 31) by (apply Z.log2_lt_pow2; lia). unfold double_step. rewrite ge_s_small by lia.
    destruct (Z.leb_spec bound c) as [Hle|Hlt]; apply wp_mret.
    + apply (HQ c k); try done. lia.
    + rewrite Z.shiftl_mul_pow2 by lia. change (2 ^ 1) with 2. rewrite to_uint32_id by lia. replace (c * 2) with (2 * c) by lia.
      pose proof (Z.log2_double c ltac:(lia)). assert (Z.log2 (2 * c) < 32) by (apply Z.log2_lt_pow2; lia). split; [|lia]. split; [done|]. split; [lia|]. split; [lia|]. exists (k + 1).
      split; [lia|]. rewrite Z.pow_add_r by lia. lia.
Qed.
Lemma acopy_fresh {A} (a : list A) (x : A) cap : len a <= cap → acopy (replicate (Z.to_nat cap) x) 0 a 0 (len a) = Some (a ++ replicate (Z.to_nat cap - length a) x).
Proof.
  intros Hc. pose proof (acopy_app [] (replicate (length a) x) (replicate (Z.to_nat cap - length a) x) [] a [] 0 0 (len a)) as E.
  rewrite app_nil_r in E. cbn [app] in E. rewrite <- replicate_add in E. replace (length a + (Z.to_nat cap - length a))%nat with (Z.to_nat cap) in E by lia. apply E; [done|by rewrite length_replicate|done..].
Qed.
Lemma grow_entries_spec m rs (Q : unit → map_ K V → Prop) R : holds m rs → len rs < 2 ^ 28 →
  (∀ m', holds m' rs → len rs < len (KEYS m') → NBUCKETS m' = NBUCKETS m → BUCKETS m' = BUCKETS m → ITERDEPTH m' = ITERDEPTH m → Q tt m') →
  wp (grow_entries null_val) Q R m.
Proof.
  intros Hh Hmax HQ. pose proof Hh as [Hn Hlv Hkl Hvl Hll Hcap Hrow Hdead]. unfold grow_entries. apply wp_bind, wp_gets, wp_bind, wp_gets. rewrite Hn. destruct (Z.eqb_spec (len rs) (len (KEYS m))) as [E|E].
  2: { apply wp_mret, HQ; [done|lia|done..]. }
  rewrite add32_id by lia. apply wp_bind, double_spec; [destruct (Z.eqb_spec (len (KEYS m)) 0); lia|lia|]. intros c k Hck Hk Hbound Hge Hmaxc.
  assert (Hc : c < 2 ^ 30) by (destruct (Z.eqb_spec (len (KEYS m)) 0); lia). rewrite E.
  apply wp_bind, wp_gets. apply wp_bind. eapply wp_of_option; [apply acopy_fresh; lia|].
  apply wp_bind, wp_gets. apply wp_bind. eapply wp_of_option; [rewrite <- Hvl; apply acopy_fresh; lia|].
  apply wp_bind, wp_gets. apply wp_bind. eapply wp_of_option; [rewrite <- Hll; apply acopy_fresh; lia|].
  apply wp_bind, wp_puts, wp_bind, wp_puts, wp_puts, HQ; [|cbn; rewrite length_app, length_replicate; lia|done..].
  split; cbn; rewrite ?length_app, ?length_replicate; try done; try lia.
  - intros r k' v Hr. pose proof (lookup_lt_Some _ _ _ Hr). destruct (Hrow _ _ _ Hr) as ((x & Hx & Hx0) & Hk' & Hv'). rewrite !lookup_app_l by lia. split; [by exists x|done].
  - intros r Hr. pose proof (lookup_lt_Some _ _ _ Hr). rewrite lookup_app_l by lia. by apply Hdead.
Qed.
Lemma pow2_double nb k c : pow2 nb → 0 <= k → c = nb * 2 ^ k → c <= 2 ^ 30 → pow2 c.
Proof.
  intros (p & -> & Hp) Hk -> Hc. exists (p + k). split; [by rewrite Z.pow_add_r by lia|]. split; [lia|]. rewrite <- Z.pow_add_r in Hc by lia. apply (Z.pow_le_mono_r_iff 2 (p + k) 30); lia.
Qed.
(** Room for one more in the bucket table. *)
Lemma grow_buckets_spec m rs (Q : unit → map_ K V → Prop) R : represents m rs → len rs < 2 ^ 28 →
  (∀ m', represents m' rs → pow2 (NBUCKETS m') → 2 * (len rs + 1) <= NBUCKETS m' → KEYS m' = KEYS m → ITERDEPTH m' = ITERDEPTH m → Q tt m') → wp grow_buckets Q R m.
Proof.
  intros [Hh Hix Hd Hha] Hmax HQ. unfold grow_buckets. apply wp_bind, wp_gets, wp_bind, wp_gets. rewrite (hd_count _ _ Hh). rewrite add32_id by lia. rewrite Z.shiftl_mul_pow2 by lia. change (2 ^ 1) with 2. rewrite to_uint32_id by lia.
  assert (Hnb : 0 <= NBUCKETS m <= 2 ^ 30) by (destruct Hix as [(-> & _)|(Hp & _)]; [lia|pose proof (pow2_range _ Hp); lia]). rewrite gt_s_small by lia.
  destruct (Z.ltb_spec (NBUCKETS m) ((len rs + 1) * 2)) as [Hlt|Hge].
  - assert (Hp : pow2 (if NBUCKETS m =? 0 then 16 else NBUCKETS m)).
    { destruct Hix as [(-> & _)|(Hp & _)]; [by exists 4|]. pose proof (pow2_range _ Hp). by rewrite (proj2 (Z.eqb_neq (NBUCKETS m) 0)) by lia. }
    pose proof (pow2_range _ Hp). apply wp_bind, double_spec; [destruct (NBUCKETS m =? 0); lia|lia|].
    intros c k Hck Hk Hbound Hge Hmaxc. pose proof (pow2_double _ k c Hp Hk Hck ltac:(destruct (NBUCKETS m =? 0); lia)) as Hpc.
    apply (rebuildBuckets_spec _ rs); [done..|lia|]. intros bk Ht. apply HQ; [|done|cbn; lia|done..]. split; [by apply holds_set_buckets| |done..]. right. split; [done|]. cbn. split; [lia|done].
  - apply wp_mret. destruct Hix as [(E & _)|(Hp & Hload & Ht)]; [lia|]. apply HQ; [|done|lia|done..]. split; [done|right; done|done..].
Qed.
Lemma represents_arrays m m' rs : represents m rs → holds m' rs → NBUCKETS m' = NBUCKETS m → BUCKETS m' = BUCKETS m → represents m' rs.
Proof. intros [Hh Hix Hd Hha] Hh' Hnb Hb. split; [done| |done..]. unfold indexed. rewrite Hnb, Hb. done. Qed.
Lemma grow_spec m rs (Q : unit → map_ K V → Prop) R : represents m rs → len rs < 2 ^ 28 →
  (∀ m', represents m' rs → pow2 (NBUCKETS m') → 2 * (len rs + 1) <= NBUCKETS m' → len rs < len (KEYS m') → ITERDEPTH m' = ITERDEPTH m → Q tt m') →
  wp (grow_entries null_val;;; grow_buckets) Q R m.
Proof.
  intros Hr Hmax HQ. apply wp_bind, (grow_entries_spec m rs); [apply (rp_holds _ _ Hr)|done|]. intros m1 Hh1 Hroom Hnb Hb Hdep.
  apply (grow_buckets_spec m1 rs); [by apply (represents_arrays m)|done|]. intros m2 Hr2 Hp Hload Hk Hdep'. apply HQ; [done..|by rewrite Hk|congruence].
Qed.
(** Room for one more entry; the rows are what they were, or (when no iteration
    is running) lost their tombstones. *)
Lemma reserveAppend_spec m rs (Q : unit → map_ K V → Prop) R : represents m rs → len rs < 2 ^ 28 →
  (∀ m' rs', represents m' rs' → rs' = rs ∨ ITERDEPTH m = 0 ∧ rs' = dense rs → pow2 (NBUCKETS m') → 2 * (len rs' + 1) <= NBUCKETS m' → len rs' < len (KEYS m') →
    ITERDEPTH m' = ITERDEPTH m → Q tt m') → wp (reserveAppend null_val) Q R m.
Proof.
  intros Hr Hmax HQ. pose proof Hr as [Hh Hix Hd Hha]. pose proof (hd_count _ _ Hh) as Hn. pose proof (hd_keys _ _ Hh). pose proof (hd_cap _ _ Hh). unfold reserveAppend. apply wp_bind, wp_gets, wp_bind, wp_gets, wp_bind, wp_gets. rewrite Hn.
  assert (Hnb : 0 <= NBUCKETS m <= 2 ^ 30) by (destruct Hix as [(-> & _)|(Hp & _)]; [lia|pose proof (pow2_range _ Hp); lia]).
  rewrite (add32_id (len rs)), Z.shiftl_mul_pow2 by lia. change (2 ^ 1) with 2. rewrite to_uint32_id, gt_s_small, ge_s_small by lia.
  destruct ((len rs <? len (KEYS m)) && ((len rs + 1) * 2 <=? NBUCKETS m)) eqn:Efast; zb.
  { apply wp_mret. apply (HQ m rs); [done|by left| |lia|done..]. destruct Hix as [(E & _)|(Hp & _)]; [lia|done]. }
  clear Efast. apply wp_bind, wp_gets, wp_bind, wp_gets, wp_bind. destruct (_ && _) eqn:Ec; zb.
  - apply (compact_spec m rs); [done|]. intros m1 Hr1 Hdep _. pose proof (dense_length rs). apply (grow_spec m1 (dense rs)); [done|lia|]. intros m2 Hr2 Hp Hload Hroom Hdep'. apply (HQ m2 (dense rs)); [done|by right|done..|congruence].
  - apply wp_mret. apply (grow_spec m rs); [done..|]. intros m2 Hr2 Hp Hload Hroom Hdep'. apply (HQ m2 rs); [done|by left|done..].
Qed.

(** ** ECMAScript's list of entries

    [[MapData]], whose deleted entries stay as empty ones. *)

Definition entry_of rs k : option (nat * K * V) :=
  match list_find (λ o, is_key k o = true) rs with Some (i, Some (k', v)) => Some (i, k', v) | _ => None end.
Definition data_get rs k : option V := match entry_of rs k with Some (_, v) => Some v | None => None end.
Definition data_has rs k : bool := match entry_of rs k with Some _ => true | None => false end.
Definition data_set rs k v : rows_ K V :=
  let k := norm_key k in match entry_of rs k with Some (r, k', _) => <[r := Some (k', v)]> rs | None => rs ++ [Some (k, v)] end.
Definition data_delete rs k : rows_ K V := match entry_of rs k with Some (r, _, _) => <[r := None]> rs | None => rs end.
Definition data_clear rs : rows_ K V := replicate (length rs) None.

Lemma entry_row rs k : match entry_of rs k with Some (r, k', v) => row_of rs k = Z.of_nat r ∧ rs !! r = Some (Some (k', v)) | None => row_of rs k = EMPTY end.
Proof.
  unfold entry_of, row_of. destruct (list_find _ rs) as [[i o]|] eqn:E; [|done]. apply list_find_Some in E as (Hi & Ho & _). by destruct o as [[k' v]|].
Qed.
Lemma entry_row_EMPTY rs k : (row_of rs k =? EMPTY) = match entry_of rs k with Some _ => false | None => true end.
Proof. pose proof (entry_row rs k) as H'. destruct (entry_of rs k) as [[[r k'] v]|]; [destruct H' as [-> _]; apply Z.eqb_neq; unfold EMPTY; lia|by rewrite H']. Qed.

(** ** Changes of one row *)

Lemma distinct_app rs k v : distinct rs → row_of rs k = EMPTY → distinct (rs ++ [Some (k, v)]).
Proof.
  intros Hd Hrow. destruct (row_of_inv rs k) as [[_ Hno]|(r & k' & v' & E & _)]; [|unfold EMPTY in *; lia].
  intros i j a b Hi Hj Hk. apply lookup_app_Some in Hi as [Hi|[Hgi Hi]], Hj as [Hj|[Hgj Hj]].
  - by eapply Hd.
  - apply list_lookup_singleton_Some in Hj as [_ [= <-]]. destruct a as [ka va]. cbn in Hk. by rewrite (Hno _ _ _ Hi) in Hk.
  - apply list_lookup_singleton_Some in Hi as [_ [= <-]]. destruct b as [kb vb]. cbn in Hk. rewrite key_eq_sym in Hk. by rewrite (Hno _ _ _ Hj) in Hk.
  - apply list_lookup_singleton_Some in Hi as [Hi _], Hj as [Hj _]. lia.
Qed.
Lemma hashable_app rs k v h : hashable rs → hash_key k = Some h → hashable (rs ++ [Some (k, v)]).
Proof. intros Hh Hk i a Hi. apply lookup_app_Some in Hi as [Hi|[_ Hi]]; [by eapply Hh|]. apply list_lookup_singleton_Some in Hi as [_ [= <-]]. by exists h. Qed.
Lemma distinct_insert rs r k v v' : distinct rs → rs !! r = Some (Some (k, v)) → distinct (<[r := Some (k, v')]> rs).
Proof.
  intros Hd Hr. assert (Hi : ∀ i a, <[r := Some (k, v')]> rs !! i = Some (Some a) → ∃ w, rs !! i = Some (Some (a.1, w))).
  { intros i a Hi. apply list_lookup_insert_Some in Hi as [(<- & [= <-] & _)|[_ Hi]]; [by exists v|]. exists a.2. by destruct a. }
  intros i j a b Hia Hjb Hk. destruct (Hi _ _ Hia) as [wa Ha], (Hi _ _ Hjb) as [wb Hb]. by eapply Hd.
Qed.
Lemma distinct_kill rs r : distinct rs → distinct (<[r := None]> rs).
Proof.
  intros Hd i j a b Hi Hj Hk. apply list_lookup_insert_Some in Hi as [(_ & Hi & _)|[_ Hi]], Hj as [(_ & Hj & _)|[_ Hj]]; try done. by eapply Hd.
Qed.
Lemma hashable_insert rs r k v v' : hashable rs → rs !! r = Some (Some (k, v)) → hashable (<[r := Some (k, v')]> rs).
Proof. intros Hh Hr i a Hi. apply list_lookup_insert_Some in Hi as [(<- & [= <-] & _)|[_ Hi]]; [apply (Hh r (k, v) Hr)|by eapply Hh]. Qed.
Lemma hashable_kill rs r : hashable rs → hashable (<[r := None]> rs).
Proof. intros Hh i a Hi. apply list_lookup_insert_Some in Hi as [(_ & Hi & _)|[_ Hi]]; [done|by eapply Hh]. Qed.
Lemma keys_insert rs r o : keys (<[r := o]> rs) = <[r := option_map fst o]> (keys rs).
Proof. apply list_fmap_insert. Qed.
Lemma keys_same rs r k v v' : rs !! r = Some (Some (k, v)) → keys (<[r := Some (k, v')]> rs) = keys rs.
Proof. intros Hr. rewrite keys_insert. apply list_insert_id. apply keys_lookup. by exists v. Qed.
Lemma live_update_length rs r k v v' : rs !! r = Some (Some (k, v)) → length (live (<[r := Some (k, v')]> rs)) = length (live rs).
Proof.
  revert r. induction rs as [|o rs IH]; intros [|r]; cbn; [done..| |].
  - intros [= ->]. done.
  - intros Hr. fold (live rs) (live (<[r := Some (k, v')]> rs)). destruct o; cbn; rewrite IH by done; done.
Qed.
Lemma live_kill_length rs r a : rs !! r = Some (Some a) → S (length (live (<[r := None]> rs))) = length (live rs).
Proof.
  revert r. induction rs as [|o rs IH]; intros [|r]; cbn; [done..| |].
  - intros [= ->]. done.
  - intros Hr. fold (live rs) (live (<[r := None]> rs)). destruct o; cbn; rewrite <- (IH r) by done; done.
Qed.

Lemma holds_put_val m rs r k v v' : holds m rs → rs !! r = Some (Some (k, v)) → holds (set_vals (<[r := v']> (VALS m)) m) (<[r := Some (k, v')]> rs).
Proof.
  intros [Hn Hlv Hkl Hvl Hll Hcap Hrow Hdead] Hr. pose proof (lookup_lt_Some _ _ _ Hr). split; cbn; rewrite ?length_insert; try done.
  - by rewrite (live_update_length _ _ _ _ _ Hr).
  - intros i k' w Hi. apply list_lookup_insert_Some in Hi as [(<- & [= -> ->] & _)|[Hne Hi]].
    + destruct (Hrow _ _ _ Hr) as (Hl & Hk & Hv). rewrite list_lookup_insert_eq by lia. done.
    + rewrite list_lookup_insert_ne by done. by apply Hrow.
  - intros i Hi. apply list_lookup_insert_Some in Hi as [(_ & Hi & _)|[_ Hi]]; [done|by apply Hdead].
Qed.
Lemma represents_put_val m rs r k v v' : represents m rs → rs !! r = Some (Some (k, v)) → represents (set_vals (<[r := v']> (VALS m)) m) (<[r := Some (k, v')]> rs).
Proof.
  intros [Hh Hix Hd Hha] Hr. split; [by eapply holds_put_val| |by eapply distinct_insert|by eapply hashable_insert].
  unfold indexed. cbn. rewrite (keys_same _ _ _ _ _ Hr), length_insert. destruct Hix as [(E & -> & E')|Hix]; [done|by right].
Qed.
Lemma holds_append m rs k v : holds m rs → len rs < len (KEYS m) →
  holds (set_nlive (NLIVE m + 1) (set_nentries (len rs + 1) (set_live (<[length rs := 1]> (LIVE m)) (set_vals (<[length rs := v]> (VALS m)) (set_keys (<[length rs := k]> (KEYS m)) m))))) (rs ++ [Some (k, v)]).
Proof.
  intros [Hn Hlv Hkl Hvl Hll Hcap Hrow Hdead] Hroom. split; cbn; rewrite ?length_insert, ?live_app, ?length_app; cbn [length]; try lia.
  - change (live [Some (k, v)]) with [(k, v)]. cbn [length]. lia.
  - intros r k' v' Hr. apply lookup_app_Some in Hr as [Hr|[Hge Hr]].
    + pose proof (lookup_lt_Some _ _ _ Hr). rewrite !list_lookup_insert_ne by lia. by apply Hrow.
    + apply list_lookup_singleton_Some in Hr as [Hr [= -> ->]]. replace r with (length rs) by lia. rewrite !list_lookup_insert_eq by lia. split; [by exists 1|done].
  - intros r Hr. apply lookup_app_Some in Hr as [Hr|[Hge Hr]].
    + pose proof (lookup_lt_Some _ _ _ Hr). rewrite !list_lookup_insert_ne by lia. by apply Hdead.
    + apply list_lookup_singleton_Some in Hr as [_ Hr]. done.
Qed.

Lemma set_keys_vals_id m : set_keys (KEYS m) (set_vals (VALS m) m) = m.
Proof. by destruct m. Qed.
Lemma wipe_spec m r (Q : unit → map_ K V → Prop) R : (r < length (KEYS m))%nat → length (VALS m) = length (KEYS m) →
  (∀ ks vs, length ks = length (KEYS m) → length vs = length (VALS m) → (∀ i, i ≠ r → ks !! i = KEYS m !! i ∧ vs !! i = VALS m !! i) → Q tt (set_keys ks (set_vals vs m))) →
  wp (wipe null_val ref_val (Z.of_nat r)) Q R m.
Proof.
  intros Hr Hl HQ. unfold wipe. apply wp_bind. set (ks := if ref_key then <[r := null_key]> (KEYS m) else KEYS m). set (vs := if ref_val then <[r := null_val]> (VALS m) else VALS m).
  assert (Hks : length ks = length (KEYS m) ∧ ∀ i, i ≠ r → ks !! i = KEYS m !! i) by (unfold ks; destruct ref_key; [rewrite length_insert; split; [done|]; intros i Hi; by rewrite list_lookup_insert_ne|done]).
  assert (Hvs : length vs = length (VALS m) ∧ ∀ i, i ≠ r → vs !! i = VALS m !! i) by (unfold vs; destruct ref_val; [rewrite length_insert; split; [done|]; intros i Hi; by rewrite list_lookup_insert_ne|done]).
  specialize (HQ ks vs (proj1 Hks) (proj1 Hvs) (λ i Hi, conj (proj2 Hks i Hi) (proj2 Hvs i Hi))). clear Hks Hvs. subst ks vs.
  destruct ref_key; [apply wp_put_key; [lia|]; rewrite Nat2Z.id|apply wp_mret]; (destruct ref_val; [apply wp_put_val; [cbn; lia|]; rewrite Nat2Z.id|apply wp_mret]); destruct m; done.
Qed.
Lemma holds_kill m rs r a ks vs : holds m rs → rs !! r = Some (Some a) → length ks = length (KEYS m) → length vs = length (VALS m) →
  (∀ i, i ≠ r → ks !! i = KEYS m !! i ∧ vs !! i = VALS m !! i) →
  holds (set_keys ks (set_vals vs (set_nlive (NLIVE m - 1) (set_live (<[r := 0]> (LIVE m)) m)))) (<[r := None]> rs).
Proof.
  intros [Hn Hlv Hkl Hvl Hll Hcap Hrow Hdead] Hr Hks Hvs Hoff. pose proof (lookup_lt_Some _ _ _ Hr). pose proof (live_kill_length _ _ _ Hr). split; cbn; rewrite ?length_insert; try lia.
  - intros i k v Hi. apply list_lookup_insert_Some in Hi as [(_ & Hi & _)|[Hne Hi]]; [done|]. destruct (Hoff i ltac:(done)) as [-> ->]. rewrite list_lookup_insert_ne by done. by apply Hrow.
  - intros i Hi. destruct (decide (r = i)) as [<-|Hne]; [apply list_lookup_insert_eq; lia|]. rewrite list_lookup_insert_ne in Hi by done. rewrite list_lookup_insert_ne by done. by apply Hdead.
Qed.
Lemma represents_kill m rs r a ks vs : represents m rs → rs !! r = Some (Some a) → length ks = length (KEYS m) → length vs = length (VALS m) →
  (∀ i, i ≠ r → ks !! i = KEYS m !! i ∧ vs !! i = VALS m !! i) →
  represents (set_keys ks (set_vals vs (set_nlive (NLIVE m - 1) (set_live (<[r := 0]> (LIVE m)) m)))) (<[r := None]> rs).
Proof.
  intros [Hh Hix Hd Hha] Hr Hks Hvs Hoff. split; [by eapply holds_kill| |by apply distinct_kill|by apply hashable_kill].
  destruct Hix as [(_ & -> & _)|(Hp & Hload & Ht)]; [done|]. right. cbn. split; [done|]. rewrite length_insert. split; [done|]. rewrite keys_insert. by apply tabled_kill.
Qed.

(** ** The operations *)

Lemma hash_norm k : hash_key (norm_key k) = hash_key k.
Proof. apply hash_compat, norm_eq. Qed.

Lemma append_spec m rs k v h (Q : unit → map_ K V → Prop) R : represents m rs → len rs < 2 ^ 28 → hash_key k = Some h → row_of rs k = EMPTY →
  (∀ m' rs', represents m' (rs' ++ [Some (k, v)]) → rs' = rs ∨ ITERDEPTH m = 0 ∧ rs' = dense rs → ITERDEPTH m' = ITERDEPTH m → Q tt m') →
  wp (append null_val k v) Q R m.
Proof.
  intros Hr Hmax Hk Hno HQ. unfold append. apply wp_bind, (reserveAppend_spec m rs); [done..|]. intros m1 rs' Hr1 Hrs' Hp Hload Hroom Hdep.
  assert (Hno' : row_of rs' k = EMPTY).
  { destruct Hrs' as [->|[_ ->]]; [done|]. destruct (row_of_inv (dense rs) k) as [[E _]|(r & k' & v' & _ & Hr' & Hkk)]; [done|].
    destruct (row_of_inv rs k) as [[_ Hno']|(r0 & k0 & v0 & E & _)]; [|unfold EMPTY in *; lia]. apply dense_lookup in Hr' as (? & [= <-] & Hl). apply live_lookup in Hl as (r1 & Hl & _). by rewrite (Hno' _ _ _ Hl) in Hkk. }
  pose proof Hr1 as [Hh Hix Hd Hha]. pose proof Hh as [Hn Hlv Hkl Hvl Hll Hcap _ _]. apply wp_bind, wp_gets. rewrite Hn.
  apply wp_bind, wp_put_key; [lia|]. apply wp_bind, wp_put_val; [cbn; lia|]. apply wp_bind, wp_put_live; [cbn; lia|]. apply wp_bind, wp_puts, wp_bind, wp_gets, wp_bind, wp_puts. rewrite Nat2Z.id.
  cbn [NLIVE set_nentries set_live set_vals set_keys]. pose proof (live_length rs'). rewrite !add32_id by lia. pose proof (holds_append m1 rs' k v Hh Hroom) as Hh2.
  cbn [KEYS VALS LIVE set_keys set_vals set_live]. set (m2 := set_nlive _ _) in *. apply wp_bind, (wp_of_option _ h); [done|]. apply wp_bind, wp_gets, wp_bind, wp_gets.
  assert (Hb2 : BUCKETS m2 = BUCKETS m1 ∧ NBUCKETS m2 = NBUCKETS m1 ∧ ITERDEPTH m2 = ITERDEPTH m1) by done. destruct Hb2 as (Hb2 & Hnb2 & Hd2). rewrite Hb2, Hnb2.
  destruct Hix as [(Hz & _)|(_ & _ & Ht)]; [pose proof (pow2_range _ Hp); lia|]. pose proof (pow2_range _ Hp).
  destruct (empty_bucket _ _ _ Ht) as [e He]; [rewrite keys_length; lia|]. apply wp_bind, (probe_spec _ _ h e); [done|apply (tb_length _ _ _ Ht)|done|]. intros j Hj Hbj Hbefore.
  pose proof (lookup_lt_Some _ _ _ Hbj). apply wp_put_bucket; [rewrite Hb2; lia|]. rewrite Nat2Z.id, Hb2, Hnb2. apply (HQ _ rs'); [|done|cbn; congruence].
  split; [by apply holds_set_buckets| |by apply distinct_app|by eapply hashable_app]. right. cbn [NBUCKETS BUCKETS set_buckets]. rewrite length_app, keys_app. cbn [length]. split; [done|]. split; [lia|].
  rewrite <- (keys_length rs'). apply (tabled_insert _ _ _ k h j); [lia|done..].
Qed.

(** Outside iterations the tombstones may go at any insertion. *)
Definition settles (depth : Z) rs rs1 : Prop := rs1 = rs ∨ depth = 0 ∧ rs1 = dense rs.
Lemma settles_length n rs rs1 : settles n rs rs1 → (length rs1 <= length rs)%nat.
Proof. intros [->|[_ ->]]; [done|apply dense_length]. Qed.
Lemma data_set_length rs k v : (length (data_set rs k v) <= S (length rs))%nat.
Proof. unfold data_set. cbv zeta. destruct (entry_of rs (norm_key k)) as [[[r k'] v']|]; [rewrite length_insert; lia|rewrite length_app; cbn; lia]. Qed.
Lemma data_delete_length rs k : length (data_delete rs k) = length rs.
Proof. unfold data_delete. destruct (entry_of rs k) as [[[r k'] v']|]; [by rewrite length_insert|done]. Qed.
Lemma row_of_dense rs k : row_of rs k = EMPTY → row_of (dense rs) k = EMPTY.
Proof.
  intros Hno. apply row_of_None. intros r k' v Hr Hk. apply dense_lookup in Hr as (? & [= <-] & Hl). apply live_lookup in Hl as (r1 & Hl & _).
  destruct (row_of_inv rs k) as [[_ Hno']|(r0 & k0 & v0 & E & _)]; [|unfold EMPTY in *; lia]. by rewrite (Hno' _ _ _ Hl) in Hk.
Qed.
Lemma settles_entry n rs rs1 k : settles n rs rs1 → entry_of rs k = None → entry_of rs1 k = None.
Proof.
  intros Hs E. pose proof (entry_row rs k) as H1. rewrite E in H1. pose proof (entry_row rs1 k) as H2. destruct (entry_of rs1 k) as [[[r k'] v]|]; [|done]. destruct H2 as [H2 _].
  destruct Hs as [->|[_ ->]]; [|apply row_of_dense in H1]; rewrite H1 in H2; unfold EMPTY in *; lia.
Qed.

Lemma set_spec m rs k v (Q : unit → map_ K V → Prop) R : represents m rs → len rs < 2 ^ 28 → is_Some (hash_key k) →
  (∀ m' rs1, settles (ITERDEPTH m) rs rs1 → represents m' (data_set rs1 k v) → ITERDEPTH m' = ITERDEPTH m → Q tt m') → wp (set_ null_val k v) Q R m.
Proof.
  intros Hr Hmax [h Hk] HQ. unfold set_. rewrite <- hash_norm in Hk. unfold data_set in HQ. generalize dependent (norm_key k). cbv zeta. intros k1 Hk HQ. apply wp_bind, (find_spec m rs k1 h); [done..|].
  rewrite entry_row_EMPTY. pose proof (entry_row rs k1) as He. destruct (entry_of rs k1) as [[[r k'] v']|] eqn:E; cbn [negb].
  - destruct He as [-> Hrow]. pose proof (lookup_lt_Some _ _ _ Hrow). pose proof Hr as [[_ _ Hkl Hvl _ _ _ _] _ _ _]. apply wp_put_val; [lia|]. rewrite Nat2Z.id.
    specialize (HQ (set_vals (<[r := v]> (VALS m)) m) rs). rewrite E in HQ. apply HQ; [by left|by eapply represents_put_val|done].
  - apply (append_spec m rs k1 v h); [done..|]. intros m' rs' Hr' Hrs' Hdep. specialize (HQ m' rs' Hrs'). rewrite (settles_entry _ _ _ _ Hrs' E) in HQ. by apply HQ.
Qed.
Lemma get_spec m rs k (Q : bool * V → map_ K V → Prop) R : represents m rs → is_Some (hash_key k) →
  Q (match data_get rs k with Some v => (true, v) | None => (false, null_val) end) m → wp (get null_val k) Q R m.
Proof.
  intros Hr [h Hk] HQ. unfold get. apply wp_bind, (find_spec m rs k h); [done..|]. rewrite entry_row_EMPTY. unfold data_get in HQ. pose proof (entry_row rs k) as He.
  destruct (entry_of rs k) as [[[r k'] v]|]; cbn [negb]; [|by apply wp_mret]. destruct He as [-> Hrow].
  destruct (hd_row _ _ (rp_holds _ _ Hr) _ _ _ Hrow) as (_ & _ & Hv). apply wp_bind, (wp_read _ _ v); [lia|by rewrite Nat2Z.id|]. by apply wp_mret.
Qed.
Lemma has_spec m rs k (Q : bool → map_ K V → Prop) R : represents m rs → is_Some (hash_key k) → Q (data_has rs k) m → wp (has k) Q R m.
Proof.
  intros Hr [h Hk] HQ. unfold has. apply wp_bind, (find_spec m rs k h); [done..|]. apply wp_mret. rewrite entry_row_EMPTY. unfold data_has in HQ. by destruct (entry_of rs k).
Qed.
Lemma delete_spec m rs k (Q : bool → map_ K V → Prop) R : represents m rs → is_Some (hash_key k) →
  (∀ m', represents m' (data_delete rs k) → ITERDEPTH m' = ITERDEPTH m → Q (data_has rs k) m') → wp (delete_ null_val ref_val k) Q R m.
Proof.
  intros Hr [h Hk] HQ. unfold delete_. apply wp_bind, (find_spec m rs k h); [done..|]. rewrite entry_row_EMPTY. unfold data_has, data_delete in HQ. pose proof (entry_row rs k) as He.
  destruct (entry_of rs k) as [[[r k'] v']|]; [|by apply wp_mret, HQ]. destruct He as [-> Hrow]. pose proof (lookup_lt_Some _ _ _ Hrow).
  pose proof (rp_holds _ _ Hr) as [_ Hlv Hkl Hvl Hll _ _ _]. pose proof (live_kill_length _ _ _ Hrow). pose proof (live_length rs). pose proof (hd_cap _ _ (rp_holds _ _ Hr)).
  apply wp_bind, wp_put_live; [lia|]. apply wp_bind, wp_gets, wp_bind, wp_puts. cbn [NLIVE set_live]. rewrite sub32_id by lia. rewrite Nat2Z.id.
  apply wp_bind, wipe_spec; [cbn; lia..|]. intros ks vs Hks Hvs Hoff. apply wp_mret.
  apply (HQ (set_keys ks (set_vals vs (set_nlive (NLIVE m - 1) (set_live (<[r := 0]> (LIVE m)) m))))); [by eapply represents_kill|done].
Qed.
Lemma size_spec m rs (Q : num → map_ K V → Prop) R : represents m rs → Q (i2d (len (live rs))) m → wp size Q R m.
Proof. intros Hr HQ. unfold size. apply wp_bind, wp_gets. rewrite (hd_live _ _ (rp_holds _ _ Hr)). by apply wp_mret. Qed.

(** ** clear *)

(** The first [i] rows dead. *)
Definition wiped (i : nat) rs : rows_ K V := replicate i None ++ drop i rs.
Lemma wiped_lookup i rs : (i < length rs)%nat → wiped i rs !! i = rs !! i.
Proof. intros Hi. unfold wiped. rewrite lookup_app_r by (rewrite length_replicate; lia). rewrite length_replicate, Nat.sub_diag, lookup_drop. f_equal. lia. Qed.
Lemma wiped_S i rs : (i < length rs)%nat → wiped (S i) rs = <[i := None]> (wiped i rs).
Proof.
  intros Hi. unfold wiped. destruct (lookup_lt_is_Some_2 rs i Hi) as [o Ho]. rewrite (drop_S _ _ _ Ho). rewrite insert_app_r_alt by (rewrite length_replicate; lia).
  rewrite length_replicate, Nat.sub_diag. cbn. rewrite app_comm_cons, replicate_cons_app, <- app_assoc. done.
Qed.
Lemma wiped_length i rs : (i <= length rs)%nat → length (wiped i rs) = length rs.
Proof. intros Hi. unfold wiped. rewrite length_app, length_replicate, length_drop. lia. Qed.
Lemma wiped_all rs : wiped (length rs) rs = replicate (length rs) None.
Proof. unfold wiped. by rewrite drop_all, app_nil_r. Qed.
Lemma set_nlive_twice m a b : set_nlive a (set_nlive b m) = set_nlive a m.
Proof. done. Qed.

Definition same_table m m' : Prop := NBUCKETS m' = NBUCKETS m ∧ BUCKETS m' = BUCKETS m ∧ ITERDEPTH m' = ITERDEPTH m.
Lemma kill_loop_spec m rs (Q : unit → map_ K V → Prop) R : holds m rs →
  (∀ m', holds (set_nlive (len (live (replicate (length rs) None))) m') (replicate (length rs) None) → same_table m m' → Q tt m') →
  wp (loop (S (Z.to_nat (NENTRIES m))) (kill_step null_val ref_val (NENTRIES m)) 0) Q R m.
Proof.
  intros Hh HQ. pose proof Hh as [Hn Hlv Hkl _ _ Hcap _ _]. rewrite Hn.
  apply (wp_loop (λ i m', ∃ r, i = Z.of_nat r ∧ (r <= length rs)%nat ∧ same_table m m' ∧ holds (set_nlive (len (live (wiped r rs))) m') (wiped r rs)) (λ i, len rs - i)).
  - exists 0%nat. split; [done|]. split; [lia|]. split; [done|]. unfold wiped. cbn [replicate app]. rewrite drop_0, <- Hlv. by destruct m.
  - lia.
  - intros i m' (r & -> & Hr & Hsame & Hh') _. unfold kill_step. rewrite ge_s_small by lia. destruct (Z.leb_spec (len rs) (Z.of_nat r)) as [Hle|Hlt].
    { apply wp_mret. replace r with (length rs) in Hh' by lia. rewrite wiped_all in Hh'. by apply HQ. }
    pose proof (wiped_lookup r rs ltac:(lia)) as Hw. destruct (lookup_lt_is_Some_2 rs r ltac:(lia)) as [o Ho]. rewrite Ho in Hw. rewrite add32_id by lia.
    pose proof Hh' as [_ _ Hkl' Hvl' Hll' _ Hrow Hdead]. cbn in Hkl', Hvl', Hll'. rewrite wiped_length in Hkl' by lia. replace (Z.of_nat r + 1) with (Z.of_nat (S r)) by lia. destruct o as [[k v]|].
    + destruct (Hrow _ _ _ Hw) as ((x & Hx & Hx0) & _). apply wp_bind, (wp_read _ _ x); [lia|by rewrite Nat2Z.id|]. rewrite (proj2 (Z.eqb_neq x 0)) by done. cbn [negb].
      apply wp_bind, wp_bind, wp_put_live; [lia|]. rewrite Nat2Z.id. apply wipe_spec; [cbn; lia|done|]. intros ks vs Hks Hvs Hoff. apply wp_mret. split; [|lia].
      exists (S r). split; [done|]. split; [lia|]. split; [done|]. pose proof (holds_kill _ _ _ _ ks vs Hh' Hw Hks Hvs Hoff) as Hh2. pose proof (live_kill_length _ _ _ Hw) as Hl. rewrite <- wiped_S in Hh2, Hl by lia.
      cbn in Hh2. replace (len (live (wiped r rs)) - 1) with (len (live (wiped (S r) rs))) in Hh2 by lia. exact Hh2.
    + apply wp_bind, (wp_read _ _ 0); [lia|rewrite Nat2Z.id; by apply Hdead|]. cbn [Z.eqb negb]. apply wp_bind, wp_mret, wp_mret. split; [|lia]. exists (S r). split; [done|]. split; [lia|]. split; [done|].
      rewrite wiped_S, list_insert_id by (done || lia). done.
Qed.
Lemma unlink_loop_spec m (Q : unit → map_ K V → Prop) R : len (BUCKETS m) = NBUCKETS m → NBUCKETS m < 2 ^ 31 →
  Q tt (set_buckets (NBUCKETS m) (replicate (Z.to_nat (NBUCKETS m)) EMPTY) m) → wp (loop (S (Z.to_nat (NBUCKETS m))) unlink_step 0) Q R m.
Proof.
  intros Hl Hmax HQ. apply (wp_loop (λ i m', ∃ r, i = Z.of_nat r ∧ (r <= length (BUCKETS m))%nat ∧ m' = set_buckets (NBUCKETS m) (replicate r EMPTY ++ drop r (BUCKETS m)) m) (λ i, NBUCKETS m - i)).
  - exists 0%nat. split; [done|]. split; [lia|]. cbn [replicate app]. rewrite drop_0. by destruct m.
  - lia.
  - intros i m' (r & -> & Hr & ->) _. unfold unlink_step. apply wp_bind, wp_gets. cbn [NBUCKETS set_buckets]. rewrite ge_s_small by lia. destruct (Z.leb_spec (NBUCKETS m) (Z.of_nat r)) as [Hle|Hlt].
    { apply wp_mret. assert (r = length (BUCKETS m)) as -> by lia. rewrite drop_ge, app_nil_r by lia. replace (Z.to_nat (NBUCKETS m)) with (length (BUCKETS m)) in HQ by lia. exact HQ. }
    apply wp_bind, wp_put_bucket; [cbn; rewrite length_app, length_replicate, length_drop; lia|]. apply wp_mret. rewrite add32_id by lia. split; [|lia]. exists (S r). split; [lia|]. split; [lia|].
    rewrite Nat2Z.id. unfold set_buckets. cbn. f_equal. destruct (lookup_lt_is_Some_2 (BUCKETS m) r ltac:(lia)) as [b Hb]. rewrite (drop_S _ _ _ Hb). rewrite insert_app_r_alt by (rewrite length_replicate; lia).
    rewrite length_replicate, Nat.sub_diag. cbn. rewrite app_comm_cons, replicate_cons_app, <- app_assoc. done.
Qed.
Lemma tabled_dead_rows nb n : 0 <= nb → tabled nb (replicate (Z.to_nat nb) EMPTY) (keys (replicate n None)).
Proof.
  intros Hnb. destruct (tabled_empty (K := K) nb Hnb) as [Hl Hr Ho _]. split; [done| |done|].
  - intros i b Hi Hb. apply lookup_replicate in Hi as [-> _]. done.
  - intros r k Hk. apply keys_lookup in Hk as [v Hk]. apply lookup_replicate in Hk as [Hk _]. done.
Qed.
Lemma dead_rows_live n : live (replicate n None) = [].
Proof. induction n as [|n IH]; [done|]. apply IH. Qed.
Lemma dead_rows_none n i a : replicate n (@None (K * V)) !! i = Some (Some a) → False.
Proof. intros Hi. apply lookup_replicate in Hi as [Hi _]. done. Qed.
(** clear: an iteration keeps its rows, now dead. *)
Lemma clear_spec m rs (Q : unit → map_ K V → Prop) R : represents m rs →
  (∀ m', represents m' (if ITERDEPTH m =? 0 then [] else data_clear rs) → ITERDEPTH m' = ITERDEPTH m → Q tt m') → wp (clear null_val ref_val) Q R m.
Proof.
  intros [Hh Hix Hd Hha] HQ. unfold clear. apply wp_bind, wp_gets, wp_bind, (kill_loop_spec m rs); [done|]. intros m1 Hh1 (Hnb & Hb & Hdep). rewrite dead_rows_live in Hh1. cbn [length] in Hh1.
  apply wp_bind, wp_puts, wp_bind, wp_gets, wp_bind. cbn [ITERDEPTH set_nlive]. rewrite Hdep. set (m2 := set_nlive 0 m1) in *.
  assert (Hend : ∀ n m3, holds m3 (replicate n None) → (n <= length rs)%nat → replicate n None = (if ITERDEPTH m =? 0 then [] else data_clear rs) → NBUCKETS m3 = NBUCKETS m → BUCKETS m3 = BUCKETS m → ITERDEPTH m3 = ITERDEPTH m →
    wp (nb <- gets NBUCKETS;; loop (S (Z.to_nat nb)) unlink_step 0) Q R m3).
  { intros n m3 Hh3 Hle Hn Hnb3 Hb3 Hdep3. apply wp_bind, wp_gets.
    apply unlink_loop_spec; [destruct Hix as [(E & _ & E')|(_ & _ & Ht)]; [rewrite Hnb3, Hb3, E, E'; done|rewrite Hnb3, Hb3; apply (tb_length _ _ _ Ht)]| |].
    { rewrite Hnb3. destruct Hix as [(-> & _)|(Hp & _)]; [lia|pose proof (pow2_range _ Hp); lia]. }
    apply HQ; [|done]. rewrite <- Hn. split.
    - by apply holds_set_buckets.
    - destruct Hix as [(E & -> & E')|(Hp & Hload & Ht)]; [left|right]; cbn; rewrite Hnb3.
      + rewrite E. split; [done|]. destruct n; [done|cbn in Hle; lia].
      + pose proof (pow2_range _ Hp). split; [done|]. split; [rewrite length_replicate; lia|apply tabled_dead_rows; lia].
    - intros i j a b Hi. by apply dead_rows_none in Hi.
    - intros i a Hi. by apply dead_rows_none in Hi. }
  destruct (Z.eqb_spec (ITERDEPTH m) 0) as [Ez|Ez].
  - apply wp_puts, (Hend 0%nat); [|lia|done|done..]. destruct Hh1 as [_ _ Hkl Hvl Hll Hcap _ _]. split; cbn; try done. lia.
  - apply wp_mret, (Hend (length rs)); done.
Qed.

(** ** Iteration *)

Lemma represents_depth m rs d : represents m rs → represents (set_depth d m) rs.
Proof. intros [[] Hix Hd Hha]. split; [by split|done..]. Qed.
Lemma iterEnter_spec m rs (Q : unit → map_ K V → Prop) R : represents m rs → 0 <= ITERDEPTH m < 2 ^ 31 - 1 →
  (∀ m', represents m' rs → ITERDEPTH m' = ITERDEPTH m + 1 → Q tt m') → wp iterEnter Q R m.
Proof. intros Hr Hd HQ. unfold iterEnter. apply wp_bind, wp_gets, wp_puts. rewrite add32_id by lia. apply HQ; [by apply represents_depth|done]. Qed.
(** Leaving the last iteration may drop the tombstones. *)
Lemma iterExit_spec m rs (Q : unit → map_ K V → Prop) R : represents m rs → 0 <= ITERDEPTH m < 2 ^ 31 →
  (∀ m' rs', represents m' rs' → ITERDEPTH m' = Z.max 0 (ITERDEPTH m - 1) → settles (ITERDEPTH m') rs rs' → Q tt m') → wp iterExit Q R m.
Proof.
  intros Hr Hd HQ. unfold iterExit. apply wp_bind, wp_gets, wp_bind.
  assert (Hnext : ∀ d, d = Z.max 0 (ITERDEPTH m - 1) → wp (d0 <- gets ITERDEPTH;; nlive <- gets NLIVE;; n <- gets NENTRIES;; if (d0 =? 0) && (ge_s (Z.quot n 2) nlive && ge_s n 16) then compact else mret tt) Q R (set_depth d m)).
  { intros d Ed. pose proof (represents_depth m rs d Hr) as Hr'. apply wp_bind, wp_gets, wp_bind, wp_gets, wp_bind, wp_gets. cbn [ITERDEPTH NLIVE NENTRIES set_depth]. destruct (_ && _) eqn:Ec; zb.
    - apply (compact_spec _ rs); [done|]. intros m' Hm' Hdep _. cbn in Hdep. apply (HQ m' (dense rs)); [done|congruence|right; split; [congruence|done]].
    - apply wp_mret. apply (HQ _ rs); [done|done|by left]. }
  rewrite gt_s_small by lia. destruct (Z.ltb_spec 0 (ITERDEPTH m)).
  - apply wp_puts. rewrite sub32_id by lia. apply Hnext. lia.
  - apply wp_mret. assert (E : set_depth (ITERDEPTH m) m = m) by by destruct m. rewrite <- E. apply Hnext. lia.
Qed.

(** The row an index names: the whole part of a Number between 0 and the
    number of rows. *)
Definition row_at rs (i : num) : option (option (K * V)) :=
  match i with NZero => rs !! 0%nat | Fin x => if x <? 0 then None else rs !! Z.to_nat (x / ONE) | _ => None end.
Lemma index_spec m rs i : holds m rs → match row_at rs i with
  | Some o => num_le (Fin 0) i = true ∧ num_lt i (Fin 0) = false ∧ num_le (i2d (NENTRIES m)) i = false ∧ ∃ r : nat, trunc_s32 i = Some (Z.of_nat r) ∧ rs !! r = Some o
  | None => (num_le (Fin 0) i = false ∨ num_le (i2d (NENTRIES m)) i = true) ∧ (num_lt i (Fin 0) = true ∨ num_le (i2d (NENTRIES m)) i = true ∨ trunc_s32 i = None)
  end.
Proof.
  intros [Hn _ Hkl _ _ Hcap _ _]. rewrite Hn, i2d_small by lia. pose proof ONE_pos. set (n := length rs) in *. destruct i as [| | | |x]; cbn [row_at].
  - split; [by left|right; by right].
  - split; [right|right; left]; unfold num_le; cbn [is_nan negb andb key]; apply Z.leb_le; pose proof (Z.pow_le_mono_r 2 1105 2098); unfold MAXK; assert (2 ^ 31 * ONE = 2 ^ 1105) by reflexivity; nia.
  - split; left; reflexivity.
  - destruct (rs !! 0%nat) as [o|] eqn:E.
    + apply lookup_lt_Some in E as Hlt. split; [done|]. split; [done|]. split; [|exists 0%nat; done]. unfold num_le. cbn [is_nan negb andb key]. apply Z.leb_gt. fold n in Hlt. nia.
    + apply lookup_ge_None in E. fold n in E. replace n with 0%nat by lia. split; [by right|right; by left].
  - unfold num_le, num_lt. cbn [is_nan negb andb key]. destruct (Z.ltb_spec x 0) as [Hx|Hx]; [split; [left; by apply Z.leb_gt|by left]|].
    destruct (rs !! Z.to_nat (x / ONE)) as [o|] eqn:E.
    + pose proof (lookup_lt_Some _ _ _ E) as Hlt. fold n in Hlt. pose proof (Z.div_pos x ONE). assert (x < Z.of_nat n * ONE) by (pose proof (Z.mul_succ_div_gt x ONE); nia).
      split; [by apply Z.leb_le|]. split; [done|]. split; [by apply Z.leb_gt|]. exists (Z.to_nat (x / ONE)). split; [|done]. cbn [trunc_s32]. cbv zeta. rewrite Z.quot_div_nonneg by lia.
      rewrite (proj2 (Z.leb_le (- 2 ^ 31) (x / ONE))), (proj2 (Z.ltb_lt (x / ONE) (2 ^ 31))) by lia. cbn [andb]. rewrite to_uint32_id, Z2Nat.id by lia. done.
    + apply lookup_ge_None in E. fold n in E. assert (Z.of_nat n * ONE <= x) by (pose proof (Z.mul_div_le x ONE); pose proof (Z.div_pos x ONE); nia). split; [right|right; left]; by apply Z.leb_le.
Qed.
Definition is_live (o : option (option (K * V))) : bool := match o with Some (Some _) => true | _ => false end.
Lemma iterLive_exact m rs i : represents m rs → iterLive i m = (Val (is_live (row_at rs i)), m).
Proof.
  intros [Hh _ _ _]. pose proof (index_spec m rs i Hh) as H'. pose proof Hh as [_ _ Hkl _ Hll _ Hrow Hdead]. unfold iterLive. destruct (row_at rs i) as [o|] eqn:E.
  - destruct H' as (-> & _ & Hn & r & Ht & Hr). cbn [negb]. unfold mbind at 1, gets at 1. rewrite Hn, Ht. cbn [of_option]. unfold mbind, mret, read, aget. rewrite (proj2 (Z.ltb_ge (Z.of_nat r) 0)), Nat2Z.id by lia.
    destruct o as [[k v]|]; [destruct (Hrow _ _ _ Hr) as ((x & -> & Hx) & _); by rewrite (proj2 (Z.eqb_neq x 0))|by rewrite (Hdead _ Hr)].
  - destruct (num_le (Fin 0) i) eqn:E0; [|done]. cbn [negb]. unfold mbind at 1, gets at 1. destruct H' as [[? | ->] _]; done.
Qed.
Lemma index_check_exact m rs i : represents m rs → ∃ j, emitIterIndexCheck i m = (match row_at rs i with Some (Some _) => Val j | _ => Trap end, m) ∧
  ∀ k v, row_at rs i = Some (Some (k, v)) → ∃ r : nat, j = Z.of_nat r ∧ rs !! r = Some (Some (k, v)).
Proof.
  intros [Hh _ _ _]. pose proof (index_spec m rs i Hh) as H'. pose proof Hh as [_ _ Hkl _ Hll _ Hrow Hdead]. unfold emitIterIndexCheck. destruct (row_at rs i) as [o|] eqn:E.
  - destruct H' as (_ & Hlt & Hn & r & Ht & Hr). exists (Z.of_nat r). rewrite Hlt. unfold mbind at 1, gets at 1. rewrite Hn, Ht. cbn [of_option]. unfold mbind, mret, read, aget. rewrite (proj2 (Z.ltb_ge (Z.of_nat r) 0)), Nat2Z.id by lia.
    destruct o as [[k v]|].
    + destruct (Hrow _ _ _ Hr) as ((x & -> & Hx) & _). rewrite (proj2 (Z.eqb_neq x 0)) by done. split; [done|]. intros k' v' [= <- <-]. by exists r.
    + rewrite (Hdead _ Hr). done.
  - exists 0. split; [|done]. destruct (num_lt i (Fin 0)) eqn:E0; [done|]. unfold mbind at 1, gets at 1. destruct H' as [_ [? | [-> | Ht]]]; [done..|]. destruct (num_le (i2d (NENTRIES m)) i); [done|]. by rewrite Ht.
Qed.
(** Reading an iteration's row: the stored key and value of a live row, a trap
    for any other index. *)
Lemma iterKey_exact m rs i : represents m rs → iterKey i m = (match row_at rs i with Some (Some (k, _)) => Val k | _ => Trap end, m).
Proof.
  intros Hr. destruct (index_check_exact m rs i Hr) as (j & E & Hj). unfold iterKey, mbind. rewrite E. destruct (row_at rs i) as [[[k v]|]|]; [|done..]. destruct (Hj k v eq_refl) as (r & -> & Hrow).
  destruct (hd_row _ _ (rp_holds _ _ Hr) _ _ _ Hrow) as (_ & Hk & _). unfold read, aget. rewrite (proj2 (Z.ltb_ge (Z.of_nat r) 0)), Nat2Z.id, Hk by lia. done.
Qed.
Lemma iterValue_exact m rs i : represents m rs → iterValue i m = (match row_at rs i with Some (Some (_, v)) => Val v | _ => Trap end, m).
Proof.
  intros Hr. destruct (index_check_exact m rs i Hr) as (j & E & Hj). unfold iterValue, mbind. rewrite E. destruct (row_at rs i) as [[[k v]|]|]; [|done..]. destruct (Hj k v eq_refl) as (r & -> & Hrow).
  destruct (hd_row _ _ (rp_holds _ _ Hr) _ _ _ Hrow) as (_ & _ & Hv). unfold read, aget. rewrite (proj2 (Z.ltb_ge (Z.of_nat r) 0)), Nat2Z.id, Hv by lia. done.
Qed.

(** ** toArray, addAll *)

Lemma live_take rs i o : rs !! i = Some o → live (take (S i) rs) = live (take i rs) ++ match o with Some a => [a] | None => [] end.
Proof. intros Ho. rewrite (take_S_r _ _ _ Ho), live_app. by destruct o. Qed.
Lemma toArray_spec m rs (Q : list K → map_ K V → Prop) R : represents m rs → Q (map fst (live rs)) m → wp toArray Q R m.
Proof.
  intros [Hh _ _ _] HQ. pose proof Hh as [Hn Hlv Hkl _ _ Hcap Hrow Hdead]. unfold toArray. apply wp_bind, wp_gets, wp_bind, wp_gets. rewrite Hn, Hlv, Nat2Z.id. pose proof (live_length rs) as Hlen.
  apply (wp_loop (λ '(r, w, out) m', ∃ i : nat, r = Z.of_nat i ∧ (i <= length rs)%nat ∧ m' = m ∧ w = len (live (take i rs)) ∧
    out = map fst (live (take i rs)) ++ replicate (length (live rs) - length (live (take i rs))) null_key) (λ '(r, _, _), len rs - r)).
  - exists 0%nat. rewrite take_0. split_and!; [done|lia|done|done|]. cbn [live omap list_omap length map app fst]. f_equal. lia.
  - lia.
  - intros [[r w] out] m' (i & -> & Hi & -> & -> & ->) _. unfold take_step. rewrite ge_s_small by lia. destruct (Z.leb_spec (len rs) (Z.of_nat i)) as [Hle|Hlt].
    { apply wp_mret. rewrite firstn_all2, Nat.sub_diag, app_nil_r by lia. done. }
    destruct (lookup_lt_is_Some_2 rs i ltac:(lia)) as [o Ho]. pose proof (live_take _ _ _ Ho) as Ht. pose proof (f_equal length Ht) as Hl. rewrite length_app in Hl.
    assert (length (live (take (S i) rs)) <= length (live rs))%nat as Hle' by (rewrite <- (take_drop (S i) rs) at 2; rewrite live_app, length_app; lia).
    pose proof (live_length (take i rs)) as Hlt2. rewrite length_take in Hlt2. destruct o as [[k v]|]; cbn [length] in Hl.
    + destruct (Hrow _ _ _ Ho) as ((x & Hx & Hx0) & Hk & _). apply wp_bind, (wp_read _ _ x); [lia|by rewrite Nat2Z.id|]. rewrite (proj2 (Z.eqb_neq x 0)) by done. cbn [negb].
      apply wp_bind, (wp_read _ _ k); [lia|by rewrite Nat2Z.id|]. eapply wp_bind, wp_of_option; [apply aset_in; rewrite length_app, length_map, length_replicate; lia|]. apply wp_mret. rewrite !add32_id by lia. split; [|lia].
      exists (S i). split_and!; [lia|lia|done|lia|]. rewrite Nat2Z.id, insert_app_r_alt by (rewrite length_map; lia). rewrite length_map, Nat.sub_diag, Ht, map_app, <- app_assoc, length_app. cbn [map app length fst].
      replace (length (live rs) - length (live (take i rs)))%nat with (S (length (live rs) - (length (live (take i rs)) + 1))) by lia. done.
    + apply wp_bind, (wp_read _ _ 0); [lia|rewrite Nat2Z.id; by apply Hdead|]. cbn [Z.eqb negb]. apply wp_mret. rewrite !add32_id by lia. split; [|lia].
      exists (S i). rewrite Ht, app_nil_r. split_and!; lia || done.
Qed.

(** [addAll]: one [set] for every element, in order. *)
Inductive sets (depth : Z) (zero : V) : list K → rows_ K V → rows_ K V → Prop :=
  | sets_nil rs : sets depth zero [] rs rs
  | sets_cons k ks rs rs1 rs' : settles depth rs rs1 → sets depth zero ks (data_set rs1 k zero) rs' → sets depth zero (k :: ks) rs rs'.
Lemma sets_snoc depth zero ks k rs rs1 rs2 : sets depth zero ks rs rs1 → settles depth rs1 rs2 → sets depth zero (ks ++ [k]) rs (data_set rs2 k zero).
Proof. induction 1 as [rs|k' ks rs rs0 rs1 Hs _ IH]; intros Hs2; [eapply sets_cons; [done|apply sets_nil]|]. eapply sets_cons; [done|]. by apply IH. Qed.
Lemma sets_length depth zero ks rs rs' : sets depth zero ks rs rs' → (length rs' <= length rs + length ks)%nat.
Proof. induction 1 as [rs|k ks rs rs1 rs' Hs _ IH]; [cbn; lia|]. apply settles_length in Hs. pose proof (data_set_length rs1 k zero). cbn [length]. lia. Qed.
Lemma addAll_spec m rs ks zero (Q : unit → map_ K V → Prop) R : represents m rs → len rs + len ks < 2 ^ 28 → (∀ k, k ∈ ks → seed_ok k = true ∧ is_Some (hash_key k)) →
  (∀ m' rs', sets (ITERDEPTH m) zero ks rs rs' → represents m' rs' → ITERDEPTH m' = ITERDEPTH m → Q tt m') → wp (addAll null_val ks zero) Q R m.
Proof.
  intros Hr Hmax Hks HQ. unfold addAll.
  apply (wp_loop (λ r m', ∃ (i : nat) rs', r = Z.of_nat i ∧ (i <= length ks)%nat ∧ sets (ITERDEPTH m) zero (take i ks) rs rs' ∧ represents m' rs' ∧ ITERDEPTH m' = ITERDEPTH m) (λ r, len ks - r)).
  - exists 0%nat, rs. split_and!; [done|lia|rewrite take_0; apply sets_nil|done|done].
  - lia.
  - intros r m1 (i & rs1 & -> & Hi & Hs & Hr1 & Hd) _. unfold add_step. rewrite ge_s_small by lia. destruct (Z.leb_spec (len ks) (Z.of_nat i)) as [Hle|Hlt].
    { apply wp_mret. rewrite firstn_all2 in Hs by lia. by apply (HQ m1 rs1). }
    destruct (lookup_lt_is_Some_2 ks i ltac:(lia)) as [k Hk]. apply wp_bind, (wp_of_option _ k); [unfold aget; rewrite (proj2 (Z.ltb_ge (Z.of_nat i) 0)) by lia; by rewrite Nat2Z.id|].
    destruct (Hks k) as [-> Hhash]; [by eapply list_elem_of_lookup_2|]. apply wp_bind, wp_mret. pose proof (sets_length _ _ _ _ _ Hs) as Hl. rewrite length_take in Hl.
    apply wp_bind, (set_spec m1 rs1); [done|lia|done|]. intros m2 rs2 Hs2 Hr2 Hd2. apply wp_mret. rewrite add32_id by lia. split; [|lia].
    exists (S i), (data_set rs2 k zero). split_and!; [lia|lia| |done|congruence]. rewrite (take_S_r _ _ _ Hk). eapply sets_snoc; [done|by rewrite <- Hd].
Qed.
End spec.
