(* ===== verification/MapKeys.v ===== *)
(** * The keys of Map and Set

    The four key kinds of maps.ts (src/packages/compiler/src/backend/wasm/,
    [emitHashKey], [emitKeyEq], [isRefKeyKind]): Numbers by their 64 bits,
    strings by their content, symbols and other references by identity.  Each
    has the properties a map needs of its keys: SameValueZero is an equivalence
    and equal keys hash alike. *)

From S2P Require Import Prelude F64 Arrays BufferNumbers HashMap HashMapSound.

(** An odd 64-bit constant, and the mix of an i64 to its high half. *)
Definition HASH_MIX : Z := 0x9e3779b97f4a7c15.
Definition mix (bits : Z) : Z := Z.shiftr ((bits * HASH_MIX) mod 2 ^ 64) 32.

(** ** Numbers *)

Record f64_key := F64Key { pattern : Z }.
(** The 64 bits and the Number they are. *)
Definition bits (k : f64_key) : Z := pattern k mod 2 ^ 64.
Definition value (k : f64_key) : num := f64_of_bits (bits k).

Definition hash_f64 (k : f64_key) : Z :=
  mix (if is_nan (value k) then 0x7ff8000000000000 else if num_eq (value k) (Fin 0) then 0 else bits k).
Definition eq_f64 (a b : f64_key) : bool :=
  num_eq (value a) (value b) ||
  (is_nan (value a) && is_nan (value b)) && Bool.eqb (bits a =? UNDEF_F64_BITS) (bits b =? UNDEF_F64_BITS).
(** -0 becomes 0; the payload of a NaN stays. *)
Definition norm_f64 (k : f64_key) : f64_key := if num_eq (value k) (Fin 0) then F64Key 0 else k.
#[export] Instance f64_map_key : MapKey f64_key := {|
  hash_key k := Some (hash_f64 k); key_eq := eq_f64; norm_key := norm_f64; null_key := F64Key 0; ref_key := false; seed_ok _ := true |}.

(** ** Strings: null is the undefined string *)

Record str_key := StrKey { units : option (list Z) }.
Definition hash_str (k : str_key) : Z := foldl (λ acc u, (acc * 31 + u) mod 2 ^ 32) 0 (default [] (units k)).
Definition eq_str (a b : str_key) : bool := bool_decide (units a = units b).
#[export] Instance str_map_key : MapKey str_key := {|
  hash_key k := Some (hash_str k); key_eq := eq_str; norm_key k := k; null_key := StrKey None; ref_key := true; seed_ok _ := true |}.

(** ** Symbols, whose struct at an address holds their id *)

Record sym_key (symId : nat → Z) := SymKey { sym_addr : option nat }.
Arguments SymKey {symId} _.
Arguments sym_addr {symId} _.
Definition is_some {A} (o : option A) : bool := match o with Some _ => true | None => false end.
#[export] Instance sym_map_key symId : MapKey (sym_key symId) := {|
  hash_key k := match sym_addr k with Some a => Some (mix (symId a mod 2 ^ 32)) | None => None end;
  key_eq a b := bool_decide (sym_addr a = sym_addr b); norm_key k := k; null_key := SymKey None; ref_key := true;
  seed_ok k := is_some (sym_addr k) |}.

(** ** Other references: one bucket *)

Record handle_key := HandleKey { addr : option nat }.
#[export] Instance handle_map_key : MapKey handle_key := {|
  hash_key _ := Some 0; key_eq a b := bool_decide (addr a = addr b); norm_key k := k; null_key := HandleKey None; ref_key := true;
  seed_ok k := is_some (addr k) |}.

(** Equal Numbers, two NaNs, and undefined, which is a NaN of its own. *)
Example number_keys : let k x := F64Key (f64_bits x) in
  (eq_f64 (k NZero) (k (Fin 0)), eq_f64 (k NaN) (F64Key 0x7ff8000000000001), eq_f64 (k NaN) (F64Key UNDEF_F64_BITS), eq_f64 (F64Key UNDEF_F64_BITS) (F64Key UNDEF_F64_BITS),
   hash_f64 (k NZero) =? hash_f64 (k (Fin 0)), hash_f64 (k NaN) =? hash_f64 (F64Key 0x7ff8000000000001)) = (true, true, false, true, true, true).
Proof. vm_compute. reflexivity. Qed.

(** ** The laws *)

Lemma mix_range b : 0 <= mix b < 2 ^ 32.
Proof.
  unfold mix. rewrite Z.shiftr_div_pow2 by lia. pose proof (Z.mod_pos_bound (b * HASH_MIX) (2 ^ 64) ltac:(lia)). split; [apply Z.div_pos; lia|].
  apply Z.div_lt_upper_bound; lia.
Qed.

(** The magnitude of 63 bits that are no NaN. *)
Definition magnitude (r : Z) : Z :=
  if r / 2 ^ 52 =? 2047 then MAXK else if r / 2 ^ 52 =? 0 then r mod 2 ^ 52 else (2 ^ 52 + r mod 2 ^ 52) * 2 ^ (r / 2 ^ 52 - 1).
Lemma magnitude_mag r : 0 <= r < 2047 * 2 ^ 52 → mag_bits (magnitude r) = r ∧ 0 <= magnitude r < MAXK.
Proof.
  intros Hr. unfold magnitude. pose proof (Z.div_mod r (2 ^ 52) ltac:(lia)) as E. pose proof (Z.mod_pos_bound r (2 ^ 52) ltac:(lia)) as Hf. set (ex := r / 2 ^ 52) in *. set (fr := r mod 2 ^ 52) in *.
  assert (0 <= ex < 2047) as Hex by lia. destruct (Z.eqb_spec ex 2047) as [?|_]; [lia|]. destruct (Z.eqb_spec ex 0) as [E0|E0].
  - rewrite E0 in E. unfold mag_bits. rewrite (proj2 (Z.ltb_lt fr (2 ^ 52))) by lia. split; [lia|]. split; [lia|]. unfold MAXK. pose proof (Z.pow_le_mono_r 2 52 2098). lia.
  - set (p := 2 ^ (ex - 1)). assert (0 < p) by (apply Z.pow_pos_nonneg; lia). assert (Hlog : Z.log2 ((2 ^ 52 + fr) * p) = 52 + (ex - 1)).
    { apply Z.log2_unique; [lia|]. rewrite !Z.pow_succ_r, Z.pow_add_r by lia. fold p. nia. }
    assert (Hu : ulp_exp ((2 ^ 52 + fr) * p) = ex - 1) by (unfold ulp_exp; rewrite Hlog; lia).
    split.
    + unfold mag_bits. rewrite Hu. rewrite (proj2 (Z.ltb_ge _ _)) by nia. fold p. rewrite Z.div_mul by lia. lia.
    + split; [nia|]. unfold MAXK. replace 2098 with (53 + 2045) by lia. rewrite Z.pow_add_r by lia. assert (p <= 2 ^ 2045) by (apply Z.pow_le_mono_r; lia). nia.
Qed.
Lemma magnitude_inj r s : 0 <= r <= 2047 * 2 ^ 52 → 0 <= s <= 2047 * 2 ^ 52 → magnitude r = magnitude s → r = s.
Proof.
  intros Hr Hs E. assert (Hinf : magnitude (2047 * 2 ^ 52) = MAXK) by reflexivity.
  destruct (decide (r = 2047 * 2 ^ 52)) as [->|Hr'], (decide (s = 2047 * 2 ^ 52)) as [->|Hs']; [done|..].
  - destruct (magnitude_mag s); lia.
  - destruct (magnitude_mag r); lia.
  - destruct (magnitude_mag r) as [<- _]; [lia|]. destruct (magnitude_mag s) as [<- _]; [lia|]. by rewrite E.
Qed.
Lemma key_of_bits b : 0 <= b < 2 ^ 64 → is_nan (f64_of_bits b) = false →
  F64.key (f64_of_bits b) = (if 2 ^ 63 <=? b then - magnitude (b mod 2 ^ 63) else magnitude (b mod 2 ^ 63)) ∧ 0 <= b mod 2 ^ 63 <= 2047 * 2 ^ 52.
Proof.
  intros Hb. unfold f64_of_bits. set (neg := 2 ^ 63 <=? b). cbv zeta. pose proof (Z.mod_pos_bound b (2 ^ 63) ltac:(lia)) as Hr. set (r := b mod 2 ^ 63) in *.
  pose proof (Z.div_mod r (2 ^ 52) ltac:(lia)) as E. pose proof (Z.mod_pos_bound r (2 ^ 52) ltac:(lia)) as Hf. unfold magnitude. destruct (Z.eqb_spec (r / 2 ^ 52) 2047) as [E1|E1].
  - destruct (Z.eqb_spec (r mod 2 ^ 52) 0) as [E2|]; [|done]. intros _. split; [by destruct neg|lia].
  - intros _. assert (0 <= r / 2 ^ 52 < 2048) by (split; [apply Z.div_pos; lia|apply Z.div_lt_upper_bound; lia]). split; [|lia].
    destruct (Z.eqb_spec (if r / 2 ^ 52 =? 0 then r mod 2 ^ 52 else (2 ^ 52 + r mod 2 ^ 52) * 2 ^ (r / 2 ^ 52 - 1)) 0) as [->|]; by destruct neg.
Qed.
Lemma magnitude_zero r : 0 <= r <= 2047 * 2 ^ 52 → magnitude r = 0 → r = 0.
Proof. intros Hr E. apply magnitude_inj; [lia|lia|by rewrite E]. Qed.
Lemma magnitude_nonneg r : 0 <= r <= 2047 * 2 ^ 52 → 0 <= magnitude r.
Proof. intros Hr. destruct (decide (r = 2047 * 2 ^ 52)) as [->|]; [by vm_compute|]. destruct (magnitude_mag r); lia. Qed.

Lemma bits_range k : 0 <= bits k < 2 ^ 64.
Proof. apply Z.mod_pos_bound. lia. Qed.
(** Equal Numbers are zeros or have the same bits. *)
Lemma equal_bits a b : num_eq (value a) (value b) = true → (num_eq (value a) (Fin 0) = true ∧ num_eq (value b) (Fin 0) = true) ∨ bits a = bits b.
Proof.
  unfold num_eq. intros [[Na Nb]%andb_true_iff Ek%Z.eqb_eq]%andb_true_iff. rewrite negb_true_iff in Na, Nb. rewrite Na, Nb. cbn [negb andb is_nan F64.key]. rewrite <- Ek.
  destruct (Z.eqb_spec (F64.key (value a)) 0) as [|Hne]; [by left|right]. unfold value in *.
  destruct (key_of_bits (bits a) (bits_range a) Na) as [Ka Ra], (key_of_bits (bits b) (bits_range b) Nb) as [Kb Rb]. rewrite Ka in Ek, Hne. rewrite Kb in Ek.
  pose proof (magnitude_nonneg _ Ra). pose proof (magnitude_nonneg _ Rb). pose proof (bits_range a). pose proof (bits_range b).
  pose proof (Z.div_mod (bits a) (2 ^ 63) ltac:(lia)). pose proof (Z.div_mod (bits b) (2 ^ 63) ltac:(lia)).
  destruct (Z.leb_spec (2 ^ 63) (bits a)), (Z.leb_spec (2 ^ 63) (bits b)); try lia.
  all: assert (bits a mod 2 ^ 63 = bits b mod 2 ^ 63) by (apply magnitude_inj; lia).
  - assert (bits a / 2 ^ 63 = 1) by (symmetry; apply (Z.div_unique _ _ _ (bits a - 2 ^ 63)); lia). assert (bits b / 2 ^ 63 = 1) by (symmetry; apply (Z.div_unique _ _ _ (bits b - 2 ^ 63)); lia). lia.
  - rewrite !Z.mod_small in * by lia. lia.
Qed.

#[export] Instance f64_laws : MapKeyLaws f64_key.
Proof.
  assert (Hnan : ∀ x y, num_eq x y = true → is_nan x = false ∧ is_nan y = false ∧ F64.key x = F64.key y).
  { intros x y [[Hx Hy]%andb_true_iff Ek%Z.eqb_eq]%andb_true_iff. by rewrite negb_true_iff in Hx, Hy. }
  assert (Hint : ∀ x y, is_nan x = false → is_nan y = false → F64.key x = F64.key y → num_eq x y = true).
  { intros x y Hx Hy Ek. unfold num_eq. rewrite Hx, Hy, Ek. cbn. apply Z.eqb_refl. }
  split; cbn [key_eq hash_key norm_key f64_map_key].
  - intros k. unfold eq_f64. destruct (is_nan (value k)) eqn:E; [rewrite Bool.eqb_reflx; apply orb_true_r|by rewrite Hint].
  - intros a b. unfold eq_f64. f_equal; [unfold num_eq; rewrite (Z.eqb_sym (F64.key (value a))); by rewrite (andb_comm (negb (is_nan (value a))))|].
    rewrite (andb_comm (is_nan (value a))). f_equal. by destruct (bits a =? _), (bits b =? _).
  - intros a b c. unfold eq_f64. intros [Hab|[[Na Nb]%andb_true_iff Hab]%andb_true_iff]%orb_true_iff [Hbc|[[Nb' Nc]%andb_true_iff Hbc]%andb_true_iff]%orb_true_iff.
    + apply Hnan in Hab as (? & ? & ?), Hbc as (? & ? & ?). rewrite Hint by congruence. done.
    + apply Hnan in Hab as (? & ? & ?). congruence.
    + apply Hnan in Hbc as (? & ? & ?). congruence.
    + rewrite Na, Nc. apply eqb_prop in Hab, Hbc. rewrite Hab, Hbc, Bool.eqb_reflx. apply orb_true_r.
  - intros k h [= <-]. apply mix_range.
  - intros a b Hab. f_equal. unfold hash_f64. f_equal. unfold eq_f64 in Hab. apply orb_true_iff in Hab as [Hab|[[-> ->]%andb_true_iff _]%andb_true_iff]; [|done].
    pose proof (Hnan _ _ Hab) as (-> & -> & _). destruct (equal_bits a b Hab) as [[-> ->]|E]; [done|]. unfold value. by rewrite E.
  - intros k. unfold norm_f64. destruct (num_eq (value k) (Fin 0)) eqn:E.
    + unfold eq_f64. apply Hnan in E as (? & _ & Ek). rewrite Hint; [done|done|done|by rewrite Ek].
    + unfold eq_f64. destruct (is_nan (value k)) eqn:En; [rewrite Bool.eqb_reflx; apply orb_true_r|by rewrite Hint].
Qed.

Lemma decide_laws {K A} `{EqDecision A} (proj : K → A) : let eq a b := bool_decide (proj a = proj b) in
  (∀ k, eq k k = true) ∧ (∀ a b, eq a b = eq b a) ∧ (∀ a b c, eq a b = true → eq b c = true → eq a c = true).
Proof.
  split_and!.
  - intros k. by apply bool_decide_eq_true.
  - intros a b. by apply bool_decide_ext.
  - intros a b c ->%bool_decide_eq_true ->%bool_decide_eq_true. by apply bool_decide_eq_true.
Qed.
Lemma hash_str_range k : 0 <= hash_str k < 2 ^ 32.
Proof.
  unfold hash_str. assert (H : ∀ us acc, 0 <= acc < 2 ^ 32 → 0 <= foldl (λ acc u, (acc * 31 + u) mod 2 ^ 32) acc us < 2 ^ 32); [|apply H; lia].
  induction us as [|u us IH]; intros acc Ha; [done|]. apply IH, Z.mod_pos_bound. lia.
Qed.
#[export] Instance str_laws : MapKeyLaws str_key.
Proof.
  destruct (decide_laws units) as (Hr & Hs & Ht). split; cbn [key_eq hash_key norm_key str_map_key]; [exact Hr|exact Hs|exact Ht|intros k h [= <-]; apply hash_str_range| |exact Hr].
  intros a b E%bool_decide_eq_true. unfold hash_str. by rewrite E.
Qed.
#[export] Instance sym_laws symId : MapKeyLaws (sym_key symId).
Proof.
  destruct (decide_laws (sym_addr (symId := symId))) as (Hr & Hs & Ht). split; cbn [key_eq hash_key norm_key sym_map_key]; [exact Hr|exact Hs|exact Ht| | |exact Hr].
  - intros k h. destruct (sym_addr k); [|done]. intros [= <-]. apply mix_range.
  - intros a b ->%bool_decide_eq_true. done.
Qed.
#[export] Instance handle_laws : MapKeyLaws handle_key.
Proof.
  destruct (decide_laws addr) as (Hr & Hs & Ht). split; cbn [key_eq hash_key norm_key handle_map_key]; [exact Hr|exact Hs|exact Ht|intros k h [= <-]; lia|done|exact Hr].
Qed.
