(* ===== verification/MapPrograms.v ===== *)
(** * Programs of Map and Set operations

    Any sequence of the operations of HashMap.v on a new map behaves as
    ECMAScript defines Map and Set: on a list of entries in insertion order,
    where a deleted entry stays as an empty one that an iteration passes over.
    Outside iterations the empty entries may be dropped. *)

From S2P Require Import Prelude F64 Arrays HashMap HashMapSound MapKeys.

#[local] Open Scope arr_scope.

Section programs.
Context {K V : Type} `{MapKeyLaws K} (null_val : V) (ref_val : bool).

Inductive op :=
  | Set_ (k : K) (v : V) | Get (k : K) | Has (k : K) | Delete (k : K) | Size | Clear | ToArray | AddAll (ks : list K) (zero : V)
  | IterEnter | IterExit | IterCount | IterLive (i : num) | IterKey (i : num) | IterValue (i : num).
Inductive ans := Done_ | Bool_ (b : bool) | Number (x : num) | Found (b : bool) (v : V) | Key_ (k : K) | Value (v : V) | Keys (ks : list K).

Definition exec (o : op) : MM ans :=
  match o with
  | Set_ k v => set_ null_val k v;;; mret Done_
  | Get k => '(b, v) <- get null_val k;; mret (Found b v)
  | Has k => b <- has k;; mret (Bool_ b)
  | Delete k => b <- delete_ null_val ref_val k;; mret (Bool_ b)
  | Size => n <- size;; mret (Number n)
  | Clear => clear null_val ref_val;;; mret Done_
  | ToArray => ks <- toArray;; mret (Keys ks)
  | AddAll ks zero => addAll null_val ks zero;;; mret Done_
  | IterEnter => iterEnter;;; mret Done_
  | IterExit => iterExit;;; mret Done_
  | IterCount => n <- iterCount;; mret (Number n)
  | IterLive i => b <- iterLive i;; mret (Bool_ b)
  | IterKey i => k <- iterKey i;; mret (Key_ k)
  | IterValue i => v <- iterValue i;; mret (Value v)
  end.
Fixpoint run (ops : list op) : MM (list ans) :=
  match ops with [] => mret [] | o :: ops => a <- exec o;; as_ <- run ops;; mret (a :: as_) end.

(** ** The list of entries

    [step depth rs o a depth' rs']: with [depth] running iterations, [o] answers
    [a], or traps, and turns the entries [rs] into [rs']. *)
Inductive step (n : Z) (rs : rows_ K V) : op → option ans → Z → rows_ K V → Prop :=
  | S_set k v rs1 : settles n rs rs1 → step n rs (Set_ k v) (Some Done_) n (data_set rs1 k v)
  | S_get k : step n rs (Get k) (Some (match data_get rs k with Some v => Found true v | None => Found false null_val end)) n rs
  | S_has k : step n rs (Has k) (Some (Bool_ (data_has rs k))) n rs
  | S_delete k : step n rs (Delete k) (Some (Bool_ (data_has rs k))) n (data_delete rs k)
  | S_size : step n rs Size (Some (Number (i2d (len (live rs))))) n rs
  | S_clear : step n rs Clear (Some Done_) n (if n =? 0 then [] else data_clear rs)
  | S_toArray : step n rs ToArray (Some (Keys (map fst (live rs)))) n rs
  | S_addAll ks zero rs' : sets n zero ks rs rs' → step n rs (AddAll ks zero) (Some Done_) n rs'
  | S_enter : step n rs IterEnter (Some Done_) (n + 1) rs
  | S_exit rs' : settles (Z.max 0 (n - 1)) rs rs' → step n rs IterExit (Some Done_) (Z.max 0 (n - 1)) rs'
  | S_count : step n rs IterCount (Some (Number (i2d (len rs)))) n rs
  | S_live i : step n rs (IterLive i) (Some (Bool_ (is_live (row_at rs i)))) n rs
  | S_key i k v : row_at rs i = Some (Some (k, v)) → step n rs (IterKey i) (Some (Key_ k)) n rs
  | S_value i k v : row_at rs i = Some (Some (k, v)) → step n rs (IterValue i) (Some (Value v)) n rs
  | S_no_key i : is_live (row_at rs i) = false → step n rs (IterKey i) None n rs
  | S_no_value i : is_live (row_at rs i) = false → step n rs (IterValue i) None n rs.
Inductive runs : Z → rows_ K V → list op → option (list ans) → Z → rows_ K V → Prop :=
  | R_nil n rs : runs n rs [] (Some []) n rs
  | R_cons n rs o a n1 rs1 ops r n2 rs2 : step n rs o (Some a) n1 rs1 → runs n1 rs1 ops r n2 rs2 → runs n rs (o :: ops) (option_map (cons a) r) n2 rs2
  | R_trap n rs o ops n1 rs1 : step n rs o None n1 rs1 → runs n rs (o :: ops) None n1 rs1.

(** Keys have a hash: only a null symbol has none. *)
Definition allowed (o : op) : Prop :=
  match o with
  | Set_ k _ | Get k | Has k | Delete k => is_Some (hash_key k)
  | AddAll ks _ => ∀ k, k ∈ ks → seed_ok k = true ∧ is_Some (hash_key k)
  | _ => True
  end.
Definition insertions (o : op) : Z := match o with Set_ _ _ => 1 | AddAll ks _ => len ks | _ => 0 end.
Definition enters (o : op) : Z := match o with IterEnter => 1 | _ => 0 end.
Definition total (f : op → Z) (ops : list op) : Z := foldr Z.add 0 (map f ops).

(** ** One operation *)

Definition readable (rs : rows_ K V) (o : op) : bool := match o with IterKey i | IterValue i => is_live (row_at rs i) | _ => true end.

(** The state after [o] stands for entries that [step] allows. *)
Record after (o : op) (n : Z) (rs : rows_ K V) (a : option ans) (m' : map_ K V) (rs' : rows_ K V) : Prop := mkAfter {
  af_step : step n rs o a (ITERDEPTH m') rs';
  af_represents : represents m' rs';
  af_length : len rs' <= len rs + insertions o;
  af_depth : 0 <= ITERDEPTH m' <= n + enters o
}.

Lemma exec_wp o m rs : represents m rs → allowed o → len rs + insertions o < 2 ^ 28 → 0 <= ITERDEPTH m → ITERDEPTH m + enters o < 2 ^ 31 - 1 →
  readable rs o = true →
  wp (exec o) (λ a m', ∃ rs', after o (ITERDEPTH m) rs (Some a) m' rs') (λ _ _, False) m.
Proof.
  intros Hr Ha Hlen Hd0 Hd Hi. pose proof (rp_holds _ _ Hr) as Hh.
  assert (Hsame : ∀ a, step (ITERDEPTH m) rs o (Some a) (ITERDEPTH m) rs → ∃ rs', after o (ITERDEPTH m) rs (Some a) m rs').
  { intros a Hs. exists rs. split; [done|done|destruct o; cbn; lia|destruct o; cbn; lia]. }
  destruct o as [k v|k|k|k| | | |ks zero| | | |i|i|i]; cbn [exec allowed insertions enters readable] in *; apply wp_bind.
  - apply (set_spec null_val m rs); [done|lia|done|]. intros m' rs1 Hs Hr' E. apply wp_mret. exists (data_set rs1 k v). split; [rewrite E; by constructor|done| |cbn; lia].
    pose proof (settles_length _ _ _ Hs). pose proof (data_set_length rs1 k v). cbn. lia.
  - apply (get_spec null_val m rs); [done..|]. pose proof (S_get (ITERDEPTH m) rs k) as Hs. destruct (data_get rs k) as [v|]; apply wp_mret; by apply Hsame.
  - apply (has_spec m rs); [done..|]. apply wp_mret, Hsame. constructor.
  - apply (delete_spec null_val ref_val m rs); [done..|]. intros m' Hr' E. apply wp_mret. exists (data_delete rs k). split; [rewrite E; constructor|done|rewrite data_delete_length; cbn; lia|cbn; lia].
  - apply (size_spec m rs); [done|]. apply wp_mret, Hsame. constructor.
  - apply (clear_spec null_val ref_val m rs); [done|]. intros m' Hr' E. apply wp_mret. eexists. split; [rewrite E; constructor|done| |cbn; lia].
    cbn. destruct (ITERDEPTH m =? 0); [cbn; lia|unfold data_clear; rewrite length_replicate; lia].
  - apply (toArray_spec m rs); [done|]. apply wp_mret, Hsame. constructor.
  - apply (addAll_spec null_val m rs); [done|lia|done|]. intros m' rs' Hs Hr' E. apply wp_mret. exists rs'. split; [rewrite E; by constructor|done| |cbn; lia]. pose proof (sets_length _ _ _ _ _ Hs). cbn. lia.
  - apply (iterEnter_spec m rs); [done|lia|]. intros m' Hr' E. apply wp_mret. exists rs. split; [rewrite E; constructor|done|cbn; lia|cbn; lia].
  - apply (iterExit_spec m rs); [done|lia|]. intros m' rs' Hr' E Hs. apply wp_mret. exists rs'. rewrite E in Hs. split; [rewrite E; by constructor|done| |cbn; lia]. pose proof (settles_length _ _ _ Hs). cbn. lia.
  - unfold iterCount. apply wp_bind, wp_gets, wp_mret, wp_mret, Hsame. rewrite (hd_count _ _ Hh). constructor.
  - unfold wp. rewrite (iterLive_exact m rs) by done. apply wp_mret, Hsame. constructor.
  - unfold wp. rewrite (iterKey_exact m rs) by done. destruct (row_at rs i) as [[[k v]|]|] eqn:E; [|done..]. apply wp_mret, Hsame. by econstructor.
  - unfold wp. rewrite (iterValue_exact m rs) by done. destruct (row_at rs i) as [[[k v]|]|] eqn:E; [|done..]. apply wp_mret, Hsame. by econstructor.
Qed.
Lemma exec_refines o m rs : represents m rs → allowed o → len rs + insertions o < 2 ^ 28 → 0 <= ITERDEPTH m → ITERDEPTH m + enters o < 2 ^ 31 - 1 →
  ∃ a m' rs', exec o m = (match a with Some a => Val a | None => Trap end, m') ∧ after o (ITERDEPTH m) rs a m' rs'.
Proof.
  intros Hr Ha Hlen Hd0 Hd.
  destruct (readable rs o) eqn:Hi.
  - pose proof (exec_wp o m rs Hr Ha Hlen Hd0 Hd Hi) as (a & m' & E & rs' & Haf)%wp_run. by exists (Some a), m', rs'.
  - exists None, m, rs. destruct o as [| | | | | | | | | | | |i|i]; try done. all: cbn in Hi.
    all: split; [|split; [by constructor|done|cbn; lia|cbn; lia]]. all: cbn [exec]; unfold mbind; rewrite ?(iterKey_exact m rs), ?(iterValue_exact m rs) by done.
    all: by destruct (row_at rs i) as [[[k v]|]|].
Qed.

(** ** Programs *)

Lemma represents_new : represents (new_ : map_ K V) [].
Proof. split; [split; try done; cbn; lia|by left|intros i j a b Hi; by rewrite lookup_nil in Hi|intros i a Hi; by rewrite lookup_nil in Hi]. Qed.
Lemma total_nonneg f ops : (∀ o, 0 <= f o) → 0 <= total f ops.
Proof. intros Hf. induction ops as [|o ops IH]; [done|]. unfold total in *. cbn. pose proof (Hf o). lia. Qed.
Lemma run_refines ops : ∀ m rs, represents m rs → Forall allowed ops → len rs + total insertions ops < 2 ^ 28 → 0 <= ITERDEPTH m → ITERDEPTH m + total enters ops < 2 ^ 31 - 1 →
  ∃ r m' rs', run ops m = (match r with Some l => Val l | None => Trap end, m') ∧ runs (ITERDEPTH m) rs ops r (ITERDEPTH m') rs' ∧ represents m' rs'.
Proof.
  induction ops as [|o ops IH]; intros m rs Hr Ha Hlen Hd0 Hd; [exists (Some []), m, rs; split_and!; [done|constructor|done]|].
  apply Forall_cons in Ha as [Ha Has]. unfold total in Hlen, Hd. cbn [map foldr] in Hlen, Hd. fold (total insertions ops) in Hlen. fold (total enters ops) in Hd.
  assert (0 <= total insertions ops) by (apply total_nonneg; intros []; cbn; lia). assert (0 <= total enters ops) by (apply total_nonneg; intros []; cbn; lia).
  destruct (exec_refines o m rs) as (a & m1 & rs1 & E & [Hs Hr1 Hl1 Hd1]); [done|done|lia|lia|lia|]. cbn [run]. unfold mbind at 1. rewrite E. destruct a as [a|]; [|exists None, m1, rs1; split; [done|]; by split; [eapply R_trap|]].
  destruct (IH m1 rs1) as (r & m2 & rs2 & E2 & Hrun & Hr2); [done|done|lia|lia|lia|]. exists (option_map (cons a) r), m2, rs2. unfold mbind. rewrite E2.
  split; [by destruct r|]. split; [by eapply R_cons|done].
Qed.
(** C8. Any sequence of operations on a new map, with fewer than 2^28
    insertions and keys that have a hash, answers what ECMAScript's list of
    entries answers, traps exactly where a key or value is asked of a row that
    holds no entry, and ends in a table that stands for that list; while an
    iteration runs no row moves. *)
Theorem programs_refine ops : Forall allowed ops → total insertions ops < 2 ^ 28 → total enters ops < 2 ^ 31 - 1 →
  ∃ r m rs, run ops new_ = (match r with Some l => Val l | None => Trap end, m) ∧ runs 0 [] ops r (ITERDEPTH m) rs ∧ represents m rs.
Proof. intros Ha Hi Hd. by apply (run_refines ops new_ [] represents_new). Qed.
End programs.

(** Numbers as keys: two NaNs are one key, -0 is stored as 0, and an iteration
    passes over an entry deleted under it and sees one that was added. *)
Definition nkey (x : num) : f64_key := F64Key (f64_bits x).
Definition sample_program : list (op (K := f64_key) (V := num)) :=
  [Set_ (nkey NaN) (Fin 1); Set_ (F64Key 0x7ff8000000000001) (Fin 2); Set_ (nkey NZero) (Fin 3); Set_ (nkey (i2d 5)) (Fin 4); Get (nkey NaN); Has (nkey (Fin 0)); Size;
   IterEnter; IterKey (i2d 0); Delete (nkey (Fin 0)); Set_ (nkey (i2d 6)) (Fin 5); IterLive (i2d 1); IterKey (i2d 3); IterCount; IterExit; ToArray; IterValue (i2d 1)].
Example sample_run : (run (Fin 0) false (take 16 sample_program) new_).1 =
  Val [Done_; Done_; Done_; Done_; Found true (Fin 2); Bool_ true; Number (i2d 3); Done_; Key_ (nkey NaN); Bool_ true; Done_; Bool_ false; Key_ (nkey (i2d 6)); Number (i2d 4); Done_;
       Keys [nkey NaN; nkey (i2d 5); nkey (i2d 6)]] ∧ (run (Fin 0) false sample_program new_).1 = Trap.
Proof. vm_compute. done. Qed.
Example programs_refine_witness : ∃ n rs, runs (Fin 0) 0 [] sample_program None n rs.
Proof.
  destruct (programs_refine (Fin 0) false sample_program) as (r & m & rs & E & Hr & _); [|reflexivity|reflexivity|].
  - repeat constructor; by eexists.
  - destruct r as [l|]; [|by exists (ITERDEPTH m), rs]. exfalso. assert (X : (run (Fin 0) false sample_program new_).1 = Trap) by (vm_compute; reflexivity). rewrite E in X. discriminate X.
Defined.
